(* ===== verification/_CoqProject ===== *)
-Q . S2P
Prelude.v
RustStd.v
Data.v
Io.v
Varint.v
Hash.v
Path.v
BTree.v
Obj.v
Tree.v
Signature.v
Commit.v
Delta.v
IndexEntry.v
TreeCache.v
Index.v
IndexFile.v
State.v
PackIndex.v
PackLookup.v
Pack.v
PackPrefix.v
PackIndexer.v
Lockfile.v
Refs.v
RefDb.v
CommitGraph.v
RevWalk.v
MergeBase.v
TreeIter.v
TreeDiff.v
TreeListing.v
IndexDiff.v
IndexIter.v
Pathspec.v
Walk.v
WriteTree.v
WorktreeIter.v
Worktree.v
Merge.v
MergeTrees.v
Checkout.v
CheckoutClean.v
Migrate.v
MigrateClean.v
CheckoutTree.v
IndexListing.v
Status.v
Rev.v
Odb.v
OdbStore.v
OdbPrefix.v
Commands.v
Protocol.v
Remote.v
Config.v
Repo.v
Transaction.v
Transport.v
Graph.v
Xdiff.v
Decorations.v
StatusDisplay.v
DiffFormat.v
FileBuffer.v
Porcelain.v
ReverseTopological.v
