(* ===== verification/Prelude.v ===== *)
(** * A verification library for bit

    bit is a reimplementation of git in Rust.  [src/libbit] is the library that holds its logic: the
    objects (blobs, trees, commits) and where they are stored (loose files and packs), the index (the
    staging area), the worktree, the references with their logs, the graph of commits, and the commands
    that bring these together; [src/bit] is the command line over it.  This library models that logic as
    executable functions and proves what makes it correct, or shows where it is not.

    ** The program and the files of the library

    Foundations:
    - [Prelude]: outcomes (a value, an error or a panic), bytes and integers of machine width, orders, the
      hint databases [bit] and [reads] and the tactics; [RustStd]: the functions of Rust's standard library
      that the code calls on strings; [Data]: the data types that components share, and [error.rs];
      [State]: code with a mutable receiver, as a state monad whose state survives an error; [BTree]:
      [BTreeMap], a sorted association list over an order with laws ([OrdLaws]).

    Formats and objects:
    - [Io]: [io.rs] and [serialize.rs], the readers and writers; [FileBuffer]: the reader of [io.rs] over a
      mapped file, which refines them; [Varint]: the variable-length integers of packs.
    - [Hash]: [hash.rs], [obj/obj_id.rs]; [Path]: [path.rs]; [Obj]: [obj.rs], [obj/blob.rs]; [Tree]:
      [obj/tree.rs]; [Signature]: [signature.rs]; [Commit]: [obj/commit.rs].

    The object database, which reads and writes the objects of all the others:
    - [Delta]: [delta.rs]; [PackIndex], [PackLookup], [Pack], [PackPrefix]: [pack.rs], the index of a pack,
      lookups in it, the pack itself and the search for abbreviated ids; [PackIndexer]: [pack/indexer.rs],
      with the theorem that a pack is read back through the index that is built for it.
    - [Odb]: [odb.rs] and [cache.rs]; [OdbStore]: what is written is read back; [OdbPrefix]: abbreviated ids.

    The index:
    - [IndexEntry]: [index/index_entry.rs]; [TreeCache]: [index/tree_cache.rs]; [Index]:
      [index/index_inner.rs] and the entry operations of [index.rs]; [IndexFile]: the theorems on its file.

    Files, references and configuration:
    - [Lockfile]: [lockfile.rs] on a file system with directories and inodes, under the references, the
      index and the object database; [Refs]: [refs.rs], [refs/reflog.rs]; [RefDb]: [refs/refdb.rs];
      [Decorations]: [refs/ref_decorations.rs]; [Rev]: [rev.rs].
    - [Config]: [config.rs] and the remotes in it; [Repo]: [repo.rs] and [tls.rs], creating, finding and
      loading a repository and running a command in it; [Transaction]: what of a command is on disk at its end.

    The history:
    - [CommitGraph]: commits and the priority queue of the walks; [RevWalk]: [rev/revwalk.rs]; [MergeBase]:
      the search of [merge.rs]; [Graph], [ReverseTopological]: [graph/dag.rs] and its two sorts.

    Trees and diffs:
    - [TreeIter]: [iter/tree_iter.rs], the class of tree iterators with its laws; [TreeListing]: what stored
      trees list; [IndexIter], [WorktreeIter]: the iterators over the index and the worktree; [Walk]:
      [iter/walk.rs]; [TreeDiff]: [diff/tree_diff.rs]; [IndexDiff]: [diff.rs]; [IndexListing]: the index next
      to a tree; [WriteTree]: [write_tree] of [index.rs]; [Pathspec]: [pathspec.rs].

    Merge and checkout:
    - [Worktree]: the files of a worktree; [Merge], [MergeTrees]: the three-way merge of [merge.rs];
      [Checkout], [Migrate]: [checkout.rs], the comparison that makes a migration and its application;
      [CheckoutClean], [MigrateClean], [CheckoutTree]: the theorems on a clean worktree.

    Commands, over all of these:
    - [Status], [StatusDisplay]: [status.rs]; [Commands]: [commit.rs], [reset.rs], [cherrypick.rs] and the
      driver of [merge.rs]; [Porcelain]: the commands of [src/bit/src/cli] that take revisions.
    - [Xdiff], [DiffFormat]: [xdiff/mod.rs], [xdiff/format.rs].

    Remotes:
    - [Remote]: refspecs; [Protocol]: [protocol.rs] and the messages of [upload_pack.rs]; [Transport]:
      [transport.rs], fetching.

    ** How the code is modelled

    The definitions keep the names of the source where they are free; several methods called
    [new], [serialize] or [deserialize] carry the name of their type as a prefix.  A release
    build is modelled: integers wrap, [debug_assert!] is absent; [assert!], [unwrap], an index out of
    range, [todo!] and [unreachable!] give [Panic].  A [BitResult] is an [outcome], with [BitError]
    values kept, since callers match on them, and other errors as [Anyhow].  A reader is the list of
    the bytes still to come.  A function with a mutable receiver is a function of its state
    ([State.st]); caches are part of the state, and code on a part of a state is [State.st_zoom].  A hash map
    is a [gmap], with the order of a walk over it a parameter, a [BTreeMap] a sorted list, an [IndexMap] an
    association list.  A repository is the index, the worktree and the files of the references
    ([Status.Repository]); what a command prints is a list of bytes beside it.

    The iterators over trees are states of the class [TreeIter.BitTreeIterator]; the diff, the walk and the
    checkout are written against it, and their theorems use its laws, [TreeIter.TreeIterLaws]: an iterator is a
    cursor in a listing.  Each iterator has an instance of the laws.  Likewise [TreeDiff.TreeDiffer] and
    [IndexDiff.Differ] for what is driven by a diff, [Graph.Dag], [Hash.Hex] and [CommitGraph.CommitGraph].

    Crates that are not part of the repository are parameters: sha1, crc32, the hexadecimal codecs, flate2,
    [jwalk] and [walkdir] (the results they give), [ignore], [diffy] (the merge of texts and the lines of
    a patch), [git_config] and [git_url_parse] ([Config.GitConfigCrate]), colours.  Laws, where theorems
    need them, state documented behaviour, and each has an instance that the witnesses use.  What
    the operating system reports (metadata, times, the current directory) and the user's editor are
    parameters.  A component that calls another through the repository takes the operation as an argument.

    A loop that is not structural takes [fuel].  Where the theorems say that an operation returns,
    they give the fuel that is enough: the number of bytes for the readers and parsers (every iteration
    consumes input), the depth of the tree for the tree cache and [build_tree], the number of commits for a
    revision walk (every commit is popped once), the number of paths of the graph for the merge bases (a
    commit can be queued again), the length of a chain of references for [resolve], the number of entries
    of the iterators for walks, diffs, merges and checkouts, the number of nodes for the depth-first search,
    one more than the number of components of the path for the search of a repository.

    ** What is proved

    - Storage: every object of a pack is read back through the index that is built for it; lookups and
      abbreviated ids give exactly what is there; objects that are written are read back whatever happens
      in between, and every file hashes to its name.
    - Formats: round trips of headers, trees, signatures, commits (their message by lines, without a final line
      feed), deltas, index entries, tree cache, index
      file, references, logs, revisions, refspecs, packets and requests; an index that is read is typed.
    - The index: its invariant, adding (with the one collision that is missed) and removing; the tree cache
      under any sequence of operations; [add_all] makes it match the worktree, [write_tree] writes a tree of
      exactly its entries.
    - Trees and diffs: the iterators refine cursors; a walk of several iterators yields exactly what they
      have; a diff holds exactly the differences; [has_changes] is sound.
    - Merge and checkout: a merge of trees is the three-way merge of each path on its own, but for the tail that
      a shorter text leaves and the mode of a file that is taken; a checkout from a clean state leaves the
      files of its target, exactly them when no file changes its mode alone.
    - Commands: a status is exact by contents, and what it means when it is empty; a commit has the files of the
      index and leaves nothing staged; checking out a branch; what a reset leaves; the index part of a command
      is a transaction.
    - The theorems on walks, diffs, merges, checkouts and the status are about trees whose names are in the order
      of paths ([TreeListing.plain_tree]: no name like [foo.txt] beside a directory [foo]); for others the
      code is wrong, as [TreeListing.diff_tree_to_tree_wrong_order] shows.  Each theorem's comment says
      what else it needs.
    - References, configuration and repositories: lockfiles are all or nothing; [resolve] implements the
      relation that follows references; the precedence that configuration files have; adding and removing
      remotes; the nearest repository is found; what [init] makes can be loaded.
    - The history: a walk yields exactly the reachable commits that are not excluded, in order; the search
      finds exactly the merge bases when commits are younger than their parents, misses none in any
      case, and can give too many when times are equal; the depth-first sort.
    - Remotes: what is sent is received; the pack of a side band; what a negotiation sends and stores.
    - Text: [xdiff_dist] is the edit distance; the statistics of a diff; the summary of a status.
    - Defects: theorems whose comment says what goes wrong, among them a mixed reset that does not
      change the index ([Porcelain]), a merge that loses edits ([Commands]), a safe checkout that overwrites
      staged changes ([CheckoutTree]), a diff that loses its place ([TreeListing]), stale buckets of a pack
      index ([PackLookup]), packets that are too long ([Protocol]) and a sort that yields nothing ([Graph]).

    ** What is not modelled

    - Transports ([transport/file.rs], [transport/ssh.rs]): processes, sockets and asynchronous streams; the
      bytes that pass are what [Protocol] and [Transport] are about.  [clone] is [init], [add_remote], [fetch]
      and a reset, over such a transport.  [upload_pack] ends after the negotiation in the source.
    - What the source leaves as [todo!()] or marks as wrong: tags, delta objects, ranges of revisions, deleting
      references, the compressor of deltas ([delta.rs]), [reflog show], [update-index].
    - The rest of the command line: parsing of arguments, pagers, and commands that print what one operation
      gives; accessors, conversions between types of strings, debug output, and the interning of paths,
      which cannot be observed.
    - Concurrency: other processes that change the repository during a command, but for lockfiles that are held. *)

From Stdlib Require Import ZArith Lia Sorted.
From Stdlib Require Import Strings.Byte.
From stdpp Require Import base tactics option list countable strings sorting.

#[local] Open Scope Z_scope.

(** ** Outcomes *)

(** The result of running Rust code: a value, an error returned with [?], or a
    panic ([unwrap], [assert!], [unreachable!], [todo!], an index out of
    range). *)
Inductive outcome (E A : Type) : Type :=
| Ok (a : A)
| Err (e : E)
| Panic.

Arguments Ok {E A} a.
Arguments Err {E A} e.
Arguments Panic {E A}.

#[export] Instance outcome_ret E : MRet (outcome E) := λ A a, Ok a.

#[export] Instance outcome_bind E : MBind (outcome E) := λ A B f m,
  match m with Ok a => f a | Err e => Err e | Panic => Panic end.

#[export] Instance outcome_fmap E : FMap (outcome E) := λ A B f m,
  match m with Ok a => Ok (f a) | Err e => Err e | Panic => Panic end.

#[export] Instance outcome_eq_dec {E A} `{EqDecision E, EqDecision A} :
  EqDecision (outcome E A).
Proof. solve_decision. Defined.

(** [unwrap]/[expect] on an option. *)
Definition unwrap {E A} (o : option A) : outcome E A :=
  match o with Some a => Ok a | None => Panic end.

(** [ok_or_else]. *)
Definition ok_or {E A} (e : E) (o : option A) : outcome E A :=
  match o with Some a => Ok a | None => Err e end.

(** [assert!]: panics when the condition is false. *)
Definition assert_that {E} (b : bool) : outcome E unit :=
  if b then Ok tt else Panic.

(** [ensure!]: returns the error when the condition is false. *)
Definition ensure {E} (b : bool) (e : E) : outcome E unit :=
  if b then Ok tt else Err e.

Definition is_ok {E A} (m : outcome E A) : bool :=
  match m with Ok _ => true | _ => false end.

(** [Iterator::map(f).collect::<Result<Vec<_>, _>>()]. *)
Fixpoint collect {E A B} (f : A → outcome E B) (l : list A) : outcome E (list B) :=
  match l with
  | [] => Ok []
  | a :: l => b ← f a; bs ← collect f l; Ok (b :: bs)
  end.

(** ** Bytes and machine integers *)

Abbreviation bytes := (list byte).

(** A byte as the [u8] it is. *)
Definition u8 (b : byte) : Z := Z.of_N (Byte.to_N b).

(** [z as u8]. *)
Definition byte_of_Z (z : Z) : byte :=
  default x00 (Byte.of_N (Z.to_N (z mod 256))).

#[export] Instance byte_eq_dec : EqDecision byte := Byte.byte_eq_dec.

#[export] Program Instance byte_countable : Countable byte :=
  {| encode b := encode (Byte.to_N b);
     decode p := n ← decode p; Byte.of_N n |}.
Next Obligation. intros b. simpl. rewrite (decode_encode (Byte.to_N b)). apply Byte.of_to_N. Qed.

(** Reduction of an integer to an unsigned width of [w] bits ([as u32], and the
    wrap-around of release-mode arithmetic). *)
Definition wrap (w z : Z) : Z := z mod 2 ^ w.

Definition u16_max : Z := 2 ^ 16 - 1.
Definition u32_max : Z := 2 ^ 32 - 1.
Definition u64_max : Z := 2 ^ 64 - 1.
Definition i64_max : Z := 2 ^ 63 - 1.

Definition fits (w z : Z) : Prop := (0 ≤ z < 2 ^ w)%Z.

(** [x << s] on u64 in release mode: the shift count is taken modulo 64. *)
Definition shl64 (x s : Z) : Z := wrap 64 (Z.shiftl x (s mod 64)).

(** [z as i64] for a u64 value. *)
Definition as_i64 (z : Z) : Z :=
  let m := z mod 2 ^ 64 in if (m <? 2 ^ 63)%Z then m else (m - 2 ^ 64)%Z.

(** [to_be_bytes] of an integer of [n] bytes. *)
Fixpoint be_encode (n : nat) (z : Z) : bytes :=
  match n with
  | O => []
  | S n => be_encode n (z / 256) ++ [byte_of_Z z]
  end.

(** [from_be_bytes]. *)
Definition be_decode (l : bytes) : Z :=
  foldl (λ acc b, acc * 256 + u8 b)%Z 0%Z l.

(** A string literal as the bytes of its UTF-8 encoding. *)
Definition bs (s : string) : bytes := String.list_byte_of_string s.

(** The ordering of Rust's [Ord] on integers. *)
Definition then_with (c1 c2 : comparison) : comparison :=
  match c1 with Eq => c2 | _ => c1 end.

(** [Ord for [u8]]: lexicographic, a strict prefix is smaller. *)
Fixpoint bytes_compare (a b : bytes) : comparison :=
  match a, b with
  | [], [] => Eq
  | [], _ :: _ => Lt
  | _ :: _, [] => Gt
  | x :: a, y :: b => then_with (Z.compare (u8 x) (u8 y)) (bytes_compare a b)
  end.

(** ** Tactics and hint databases *)

Create HintDb bit discriminated.
Create HintDb reads discriminated.

(** Case analysis on the scrutinee of a [match] or of an [if], in the goal or in
    a hypothesis, remembering the equation. *)
Ltac case_scrut :=
  match goal with
  | |- context [match ?x with _ => _ end] => destruct x eqn:?
  | H : context [match ?x with _ => _ end] |- _ => destruct x eqn:?
  end.

(** Runs the outcome monad forward in a hypothesis [m ≫= f = Ok r]. *)
Ltac inv_ok :=
  repeat match goal with
  | H : Ok _ = Ok _ |- _ => injection H as H; subst
  | H : Err _ = Ok _ |- _ => discriminate H
  | H : Panic = Ok _ |- _ => discriminate H
  | H : mbind _ ?m = Ok _ |- _ =>
      let E := fresh "E" in
      destruct m eqn:E; cbn [mbind outcome_bind] in H; try discriminate H
  | H : fmap _ ?m = Ok _ |- _ =>
      let E := fresh "E" in
      destruct m eqn:E; cbn [fmap outcome_fmap] in H; try discriminate H
  end.

(** Closes a decidable goal on concrete data by evaluation. *)
Ltac vm_decide := apply (bool_decide_unpack _); vm_compute; exact I.

Lemma Ok_inj {E A} (a b : A) : @Ok E A a = Ok b → a = b.
Proof. congruence. Qed.

(** ** Lemmas on bytes and integers *)

Lemma u8_range b : (0 ≤ u8 b < 256)%Z.
Proof.
  unfold u8. pose proof (Byte.to_N_bounded b). lia.
Qed.

Lemma u8_inj a b : u8 a = u8 b → a = b.
Proof.
  unfold u8. intros H%N2Z.inj.
  apply (f_equal Byte.of_N) in H. rewrite !Byte.of_to_N in H. congruence.
Qed.

Lemma u8_byte_of_Z z : u8 (byte_of_Z z) = (z mod 256)%Z.
Proof.
  unfold u8, byte_of_Z. pose proof (Z.mod_pos_bound z 256 ltac:(lia)).
  destruct (Byte.of_N (Z.to_N (z mod 256))) as [b|] eqn:Hb; simpl.
  - apply Byte.to_of_N in Hb. rewrite Hb. lia.
  - apply Byte.of_N_None_iff in Hb. lia.
Qed.

Lemma byte_of_u8 b : byte_of_Z (u8 b) = b.
Proof.
  apply u8_inj. rewrite u8_byte_of_Z. apply Z.mod_small, u8_range.
Qed.

#[export] Hint Resolve u8_range : bit.

Lemma u8_compare_eq a b : Z.compare (u8 a) (u8 b) = Eq ↔ a = b.
Proof.
  rewrite Z.compare_eq_iff. split; [apply u8_inj | congruence].
Qed.

Lemma length_be_encode n z : length (be_encode n z) = n.
Proof.
  revert z; induction n as [|n IH]; intros z; simpl; [done|].
  rewrite length_app, IH. simpl. lia.
Qed.

Lemma be_decode_app l b : be_decode (l ++ [b]) = (be_decode l * 256 + u8 b)%Z.
Proof. unfold be_decode. by rewrite foldl_app. Qed.

Lemma be_decode_encode n z :
  be_decode (be_encode n z) = (z mod 2 ^ (8 * Z.of_nat n))%Z.
Proof.
  revert z; induction n as [|n IH]; intros z; [by rewrite Z.mod_1_r|].
  simpl be_encode. rewrite be_decode_app, IH, u8_byte_of_Z.
  replace (2 ^ (8 * Z.of_nat (S n)))%Z with (256 * 2 ^ (8 * Z.of_nat n))%Z.
  2: { replace (8 * Z.of_nat (S n))%Z with (8 + 8 * Z.of_nat n)%Z by lia.
       by rewrite Z.pow_add_r by lia. }
  rewrite Z.rem_mul_r by lia. lia.
Qed.

Lemma be_decode_encode_id n z :
  fits (8 * Z.of_nat n) z → be_decode (be_encode n z) = z.
Proof. intros H. rewrite be_decode_encode. by apply Z.mod_small. Qed.

Lemma be_decode_bound l : (0 ≤ be_decode l < 2 ^ (8 * Z.of_nat (length l)))%Z.
Proof.
  induction l as [|b l IH] using rev_ind; [cbn; lia|].
  rewrite be_decode_app, length_app. simpl length.
  replace (8 * Z.of_nat (length l + 1))%Z with (8 * Z.of_nat (length l) + 8)%Z by lia.
  rewrite Z.pow_add_r by lia. pose proof (u8_range b). lia.
Qed.

Lemma be_encode_decode l : be_encode (length l) (be_decode l) = l.
Proof.
  induction l as [|b l IH] using rev_ind; [done|].
  rewrite length_app, Nat.add_comm. cbn [length Nat.add be_encode].
  rewrite be_decode_app. pose proof (u8_range b).
  rewrite (Z.div_add_l _ 256), Z.div_small, Z.add_0_r, IH by lia. f_equal.
  f_equal. apply u8_inj. rewrite u8_byte_of_Z.
  rewrite Z.add_comm, Z.mod_add, Z.mod_small by lia. done.
Qed.

Lemma fits_wrap w z : (0 ≤ w)%Z → fits w (wrap w z).
Proof. intros. unfold fits, wrap. apply Z.mod_pos_bound. lia. Qed.

Lemma wrap_fits w z : fits w z → wrap w z = z.
Proof. unfold fits, wrap. apply Z.mod_small. Qed.

#[export] Hint Resolve length_be_encode : bit.

(** ** Lemmas on the byte order *)

Lemma bytes_compare_refl a : bytes_compare a a = Eq.
Proof. induction a as [|x a IH]; simpl; [done|]. by rewrite Z.compare_refl. Qed.

Lemma bytes_compare_eq a b : bytes_compare a b = Eq ↔ a = b.
Proof.
  split; [|intros ->; apply bytes_compare_refl].
  revert b; induction a as [|x a IH]; intros [|y b]; simpl; try done.
  destruct (Z.compare (u8 x) (u8 y)) eqn:E; simpl; try done.
  intros ?. apply u8_compare_eq in E. f_equal; auto.
Qed.

Lemma bytes_compare_antisym a b : bytes_compare b a = CompOpp (bytes_compare a b).
Proof.
  revert b; induction a as [|x a IH]; intros [|y b]; simpl; try done.
  rewrite (Z.compare_antisym (u8 x) (u8 y)).
  destruct (Z.compare (u8 x) (u8 y)); simpl; auto.
Qed.

Lemma bytes_compare_trans a b c :
  bytes_compare a b = Lt → bytes_compare b c = Lt → bytes_compare a c = Lt.
Proof.
  revert b c; induction a as [|x a IH]; intros [|y b] [|z c]; simpl; try done.
  destruct (Z.compare_spec (u8 x) (u8 y)) as [Hxy|Hxy|Hxy]; simpl;
  destruct (Z.compare_spec (u8 y) (u8 z)) as [Hyz|Hyz|Hyz]; simpl; try done;
  destruct (Z.compare_spec (u8 x) (u8 z)); simpl; try done; try lia; eauto.
Qed.

(** ** Lemmas on sorted lists *)

Lemma StronglySorted_sublist {A} (R : relation A) l k :
  l `sublist_of` k → StronglySorted R k → StronglySorted R l.
Proof.
  induction 1 as [|x l k Hsub IH|x l k Hsub IH]; intros HS; [done| |].
  - apply StronglySorted_inv in HS as [HS Hall]. constructor; [by apply IH|].
    rewrite Forall_forall in Hall |- *. intros y Hy. apply Hall. by eapply elem_of_sublist.
  - apply StronglySorted_inv in HS as [HS _]. by apply IH.
Qed.

Lemma StronglySorted_lookup {A} (R : relation A) l i j x y :
  StronglySorted R l → l !! i = Some x → l !! j = Some y → (i < j)%nat → R x y.
Proof.
  intros HS Hi Hj Hlt. apply (StronglySorted_app_1_elem_of R (take j l) (drop j l)).
  - by rewrite take_drop.
  - apply (list_elem_of_lookup_2 _ i). by rewrite lookup_take_lt.
  - apply (list_elem_of_lookup_2 _ 0%nat). by rewrite lookup_drop, Nat.add_0_r.
Qed.
