(* ===== verification/RustStd.v ===== *)
(** * RustStd

    The functions of Rust's standard library that the modelled code calls on
    byte strings: searching, splitting and trimming, UTF-8 validation, and the
    formatting and parsing of integers.  A [&str], a [String], an [OsStr] and a
    [&[u8]] are all [bytes]; a [&str] satisfies [utf8_valid]. *)

From Stdlib Require Import ZArith Lia.
From Stdlib Require Import Strings.Byte.
From stdpp Require Import base tactics option list strings.
From S2P Require Import Prelude.

#[local] Open Scope Z_scope.

(** ** Searching and splitting *)

(** [str::starts_with] / [slice::starts_with]. *)
Fixpoint starts_with (pre s : bytes) : bool :=
  match pre, s with
  | [], _ => true
  | p :: pre, c :: s => bool_decide (p = c) && starts_with pre s
  | _ :: _, [] => false
  end.

(** [str::strip_prefix]. *)
Definition strip_prefix (pre s : bytes) : option bytes :=
  if starts_with pre s then Some (drop (length pre) s) else None.

(** [str::strip_suffix] with a one-byte pattern. *)
Definition strip_suffix1 (c : byte) (s : bytes) : option bytes :=
  match last s with
  | Some d => if bool_decide (c = d) then Some (take (length s - 1) s) else None
  | None => None
  end.

(** [str::split_once] with a one-byte pattern. *)
Fixpoint split_once (c : byte) (s : bytes) : option (bytes * bytes) :=
  match s with
  | [] => None
  | d :: s => if bool_decide (c = d) then Some ([], s)
              else match split_once c s with
                   | Some (a, b) => Some (d :: a, b)
                   | None => None
                   end
  end.

(** [str::split_once] with a pattern of several bytes. *)
Fixpoint split_once_str (pat s : bytes) : option (bytes * bytes) :=
  if starts_with pat s then Some ([], drop (length pat) s)
  else match s with
       | [] => None
       | d :: s => match split_once_str pat s with
                   | Some (a, b) => Some (d :: a, b)
                   | None => None
                   end
       end.

(** [str::find] with a one-byte pattern. *)
Fixpoint find_byte (c : byte) (s : bytes) : option nat :=
  match s with
  | [] => None
  | d :: s => if bool_decide (c = d) then Some O else S <$> find_byte c s
  end.

(** [BufRead::read_until]: the bytes up to and including the delimiter (or all
    of them), and the rest of the input. *)
Fixpoint read_until (c : byte) (s : bytes) : bytes * bytes :=
  match s with
  | [] => ([], [])
  | d :: s => if bool_decide (c = d) then ([d], s)
              else let '(a, b) := read_until c s in (d :: a, b)
  end.

(** [str::split] with a one-byte pattern: the segments between the bytes [c];
    there is always at least one. *)
Fixpoint split_byte (c : byte) (s : bytes) : list bytes :=
  match s with
  | [] => [[]]
  | d :: s =>
      if bool_decide (c = d) then [] :: split_byte c s
      else match split_byte c s with
           | [] => [[d]]
           | l :: ls => (d :: l) :: ls
           end
  end.

(** The inverse: [slice::join]. *)
Fixpoint join_byte (c : byte) (ls : list bytes) : bytes :=
  match ls with
  | [] => []
  | [l] => l
  | l :: ls => l ++ c :: join_byte c ls
  end.

(** The segments between line feeds; a final empty segment is no line. *)
Fixpoint split_lines (s : bytes) : list bytes :=
  match s with
  | [] => []
  | d :: s =>
      if bool_decide (x0a = d) then [] :: split_lines s
      else match split_lines s with
           | [] => [[d]]
           | l :: ls => (d :: l) :: ls
           end
  end.

(** Whether each segment of [split_lines] ended with a line feed: all but
    possibly the last one do. *)
Definition ends_with_lf (s : bytes) : bool :=
  match last s with Some d => bool_decide (d = x0a) | None => false end.

(** A carriage return is dropped from a line that a line feed terminated. *)
Definition strip_cr (l : bytes) : bytes :=
  match last l with
  | Some d => if bool_decide (d = x0d) then take (length l - 1) l else l
  | None => l
  end.

(** [BufRead::lines] and [str::lines]. *)
Definition lines (s : bytes) : list bytes :=
  let segs := split_lines s in
  if ends_with_lf s then strip_cr <$> segs
  else match last segs with
       | Some l => (strip_cr <$> take (length segs - 1) segs) ++ [l]
       | None => []
       end.

(** [str::replace("\n", "\n ")]. *)
Fixpoint indent_lf (s : bytes) : bytes :=
  match s with
  | [] => []
  | d :: s => if bool_decide (x0a = d) then x0a :: x20 :: indent_lf s
              else d :: indent_lf s
  end.

(** The length in bytes of the whitespace character ([char::is_whitespace])
    that a reversed UTF-8 string starts with. *)
Definition rev_whitespace (s : bytes) : option nat :=
  match s with
  | (x09 | x0a | x0b | x0c | x0d | x20) :: _ => Some 1%nat
  | (x85 | xa0) :: xc2 :: _ => Some 2%nat
  | x80 :: x9a :: xe1 :: _ => Some 3%nat
  | (x80 | x81 | x82 | x83 | x84 | x85 | x86 | x87 | x88 | x89 | x8a
    | xa8 | xa9 | xaf) :: x80 :: xe2 :: _ => Some 3%nat
  | x9f :: x81 :: xe2 :: _ => Some 3%nat
  | x80 :: x80 :: xe3 :: _ => Some 3%nat
  | _ => None
  end.

Fixpoint trim_start_rev (fuel : nat) (s : bytes) : bytes :=
  match fuel with
  | O => s
  | S fuel => match rev_whitespace s with
              | Some n => trim_start_rev fuel (drop n s)
              | None => s
              end
  end.

(** [str::trim_end]. *)
Definition trim_end (s : bytes) : bytes :=
  reverse (trim_start_rev (length s) (reverse s)).

(** [u8::is_ascii_whitespace]. *)
Definition is_ascii_ws (b : byte) : bool :=
  match b with x09 | x0a | x0c | x0d | x20 => true | _ => false end.

(** [str::split_ascii_whitespace]: the maximal runs of other bytes. *)
Fixpoint split_ascii_ws (s : bytes) : list bytes :=
  match s with
  | [] => []
  | d :: s =>
      if is_ascii_ws d then split_ascii_ws s
      else match s with
           | [] => [[d]]
           | d' :: _ =>
               if is_ascii_ws d' then [d] :: split_ascii_ws s
               else match split_ascii_ws s with
                    | [] => [[d]]
                    | w :: ws => (d :: w) :: ws
                    end
           end
  end.

(** ** UTF-8 *)

(** What the validator of [str::from_utf8] expects next: the start of a
    character, or [k] continuation bytes of which the first is in [lo..hi]. *)
Inductive utf8_state :=
| U8Start
| U8Cont (k : nat) (lo hi : Z).

Definition utf8_step (st : utf8_state) (b : byte) : option utf8_state :=
  let z := u8 b in
  match st with
  | U8Start =>
      if z <? 128 then Some U8Start
      else if (194 <=? z) && (z <=? 223) then Some (U8Cont 1 128 191)
      else if z =? 224 then Some (U8Cont 2 160 191)
      else if (z =? 237) then Some (U8Cont 2 128 159)
      else if (225 <=? z) && (z <=? 239) then Some (U8Cont 2 128 191)
      else if z =? 240 then Some (U8Cont 3 144 191)
      else if (241 <=? z) && (z <=? 243) then Some (U8Cont 3 128 191)
      else if z =? 244 then Some (U8Cont 3 128 143)
      else None
  | U8Cont k lo hi =>
      if (lo <=? z) && (z <=? hi)
      then Some (match k with S (S k) => U8Cont (S k) 128 191 | _ => U8Start end)
      else None
  end.

Fixpoint utf8_run (st : utf8_state) (s : bytes) : option utf8_state :=
  match s with
  | [] => Some st
  | b :: s => st' ← utf8_step st b; utf8_run st' s
  end.

(** [str::from_utf8(s).is_ok()]. *)
Definition utf8_valid (s : bytes) : bool :=
  match utf8_run U8Start s with Some U8Start => true | _ => false end.

Definition is_ascii (b : byte) : bool := u8 b <? 128.

(** ** Integers as text *)

Definition digit_char (d : Z) : byte :=
  byte_of_Z (if d <? 10 then 48 + d else 87 + d).

(** [char::to_digit] for a radix up to 16. *)
Definition digit_val (radix : Z) (b : byte) : option Z :=
  let z := u8 b in
  let d := if (48 <=? z) && (z <=? 57) then Some (z - 48)
           else if (97 <=? z) && (z <=? 102) then Some (z - 87)
           else if (65 <=? z) && (z <=? 70) then Some (z - 55)
           else None in
  d ← d; if d <? radix then Some d else None.

Fixpoint print_digits (fuel : nat) (radix n : Z) (acc : bytes) : bytes :=
  match fuel with
  | O => acc
  | S fuel =>
      let acc := digit_char (n mod radix) :: acc in
      if n <? radix then acc else print_digits fuel radix (n / radix) acc
  end.

(** [{}], [{:o}] and [{:x}] of an unsigned integer; the base-2 length bounds the
    number of digits in every radix. *)
Definition print_radix (radix n : Z) : bytes :=
  print_digits (S (Z.to_nat (Z.log2 n))) radix n [].

(** The [0w] format flag: pads with zeros to a minimum width. *)
Definition pad_zero (w : nat) (s : bytes) : bytes :=
  replicate (w - length s) x30 ++ s.

(** [{}] of a signed integer. *)
Definition print_dec (z : Z) : bytes :=
  if z <? 0 then x2d :: print_radix 10 (- z) else print_radix 10 z.

Fixpoint parse_digits (radix max acc : Z) (s : bytes) : option Z :=
  match s with
  | [] => Some acc
  | b :: s =>
      d ← digit_val radix b;
      let acc := acc * radix + d in
      if acc <=? max then parse_digits radix max acc s else None
  end.

(** [from_str_radix] for an unsigned type with the given maximum. *)
Definition parse_unsigned (radix max : Z) (s : bytes) : option Z :=
  match s with
  | [] => None
  | [b] => if bool_decide (b = x2b) || bool_decide (b = x2d) then None
           else parse_digits radix max 0 s
  | b :: s' => if bool_decide (b = x2b) then parse_digits radix max 0 s'
               else parse_digits radix max 0 s
  end.

(** [from_str_radix] for a signed type of [w] bits. *)
Definition parse_signed (radix w : Z) (s : bytes) : option Z :=
  match s with
  | [] => None
  | [b] => if bool_decide (b = x2b) || bool_decide (b = x2d) then None
           else parse_digits radix (2 ^ (w - 1) - 1) 0 s
  | b :: s' =>
      if bool_decide (b = x2d)
      then Z.opp <$> parse_digits radix (2 ^ (w - 1)) 0 s'
      else if bool_decide (b = x2b)
      then parse_digits radix (2 ^ (w - 1) - 1) 0 s'
      else parse_digits radix (2 ^ (w - 1) - 1) 0 s
  end.

(** ** Lemmas: searching and splitting *)

Lemma starts_with_spec pre s : starts_with pre s = true ↔ ∃ t, s = pre ++ t.
Proof.
  revert s; induction pre as [|p pre IH]; intros s; simpl; [by split; eauto|].
  destruct s as [|c s]; [split; [done|by intros [t ?]]|].
  rewrite andb_true_iff, bool_decide_eq_true, IH. split.
  - intros [-> [t ->]]. by exists t.
  - intros [t [= -> ->]]. eauto.
Qed.

Lemma starts_with_app pre s : starts_with pre (pre ++ s) = true.
Proof. apply starts_with_spec. eauto. Qed.

Lemma strip_prefix_app pre s : strip_prefix pre (pre ++ s) = Some s.
Proof. unfold strip_prefix. by rewrite starts_with_app, drop_app_length. Qed.

Lemma split_once_app c a b : c ∉ a → split_once c (a ++ c :: b) = Some (a, b).
Proof.
  induction a as [|d a IH]; intros Hc; simpl.
  - by rewrite bool_decide_true.
  - rewrite not_elem_of_cons in Hc. destruct Hc as [Hd Ha].
    by rewrite bool_decide_false, IH.
Qed.

Lemma split_once_Some c s a b : split_once c s = Some (a, b) → s = a ++ c :: b ∧ c ∉ a.
Proof.
  revert a b; induction s as [|d s IH]; intros a b; simpl; [done|].
  case_bool_decide; [intros [= <- <-]; subst; split; [done|apply not_elem_of_nil]|].
  destruct (split_once c s) as [[a' b']|]; [|done]. intros [= <- <-].
  destruct (IH a' b' eq_refl) as [-> ?]. rewrite not_elem_of_cons. done.
Qed.

Lemma split_once_None c s : c ∉ s → split_once c s = None.
Proof.
  induction s as [|d s IH]; simpl; [done|]. rewrite not_elem_of_cons. intros [? ?].
  by rewrite bool_decide_false, IH.
Qed.

Lemma find_byte_app c a b : c ∉ a → find_byte c (a ++ c :: b) = Some (length a).
Proof.
  induction a as [|d a IH]; intros Hc; simpl.
  - by rewrite bool_decide_true.
  - rewrite not_elem_of_cons in Hc. destruct Hc. by rewrite bool_decide_false, IH.
Qed.

Lemma read_until_app c a b : c ∉ a → read_until c (a ++ c :: b) = (a ++ [c], b).
Proof.
  induction a as [|d a IH]; intros Hc; simpl.
  - by rewrite bool_decide_true.
  - rewrite not_elem_of_cons in Hc. destruct Hc. by rewrite bool_decide_false, IH.
Qed.

Lemma read_until_none c a : c ∉ a → read_until c a = (a, []).
Proof.
  induction a as [|d a IH]; intros Hc; simpl; [done|].
  rewrite not_elem_of_cons in Hc. destruct Hc. by rewrite bool_decide_false, IH.
Qed.

Lemma read_until_length c s a b :
  read_until c s = (a, b) → length s = (length a + length b)%nat.
Proof.
  revert a b; induction s as [|d s IH]; intros a b; simpl; [by intros [= <- <-]|].
  case_bool_decide; [intros [= <- <-]; done|].
  destruct (read_until c s) as [a' b']. intros [= <- <-].
  specialize (IH a' b' eq_refl). simpl. lia.
Qed.

(** ** Lemmas: UTF-8 *)

Lemma utf8_run_app st a b :
  utf8_run st (a ++ b) = (st' ← utf8_run st a; utf8_run st' b).
Proof.
  revert st; induction a as [|x a IH]; intros st; simpl; [done|].
  destruct (utf8_step st x); simpl; auto.
Qed.

Lemma utf8_valid_run s : utf8_valid s = true ↔ utf8_run U8Start s = Some U8Start.
Proof. unfold utf8_valid. repeat case_match; naive_solver. Qed.

Lemma utf8_valid_app a b :
  utf8_valid a = true → utf8_valid b = true → utf8_valid (a ++ b) = true.
Proof. rewrite !utf8_valid_run, utf8_run_app. intros -> ?. done. Qed.

Lemma utf8_ascii s : Forall is_ascii s → utf8_valid s = true.
Proof.
  rewrite utf8_valid_run. induction 1 as [|b s Hb _ IH]; simpl; [done|].
  unfold is_ascii in Hb. apply Is_true_true in Hb. by rewrite Hb.
Qed.

(** The byte ranges the validator waits for exclude ASCII. *)
Definition utf8_state_ok (st : utf8_state) : Prop :=
  match st with U8Start => True | U8Cont _ lo _ => 128 ≤ lo end.

Lemma utf8_run_ok st s st' :
  utf8_state_ok st → utf8_run st s = Some st' → utf8_state_ok st'.
Proof.
  revert st; induction s as [|b s IH]; intros st Hst; simpl; [by intros [= <-]|].
  destruct (utf8_step st b) as [st1|] eqn:E; simpl; [|done]. apply IH.
  revert E. unfold utf8_step.
  destruct st; repeat case_match; intros; simplify_eq/=; done || lia.
Qed.

(** An ASCII byte is a character boundary: a valid string splits around it. *)
Lemma utf8_valid_split a c b :
  is_ascii c = true → utf8_valid (a ++ c :: b) = true →
  utf8_valid a = true ∧ utf8_valid b = true.
Proof.
  unfold is_ascii. rewrite !utf8_valid_run, utf8_run_app. intros Hc.
  destruct (utf8_run U8Start a) as [[|k lo hi]|] eqn:Ha; simpl; [|..|done].
  - rewrite Hc. simpl. auto.
  - apply utf8_run_ok in Ha; [|done]. simpl in Ha. rewrite Z.ltb_lt in Hc.
    destruct (lo <=? u8 c) eqn:E; simpl; [lia|done].
Qed.

(** ** Lemmas: integers as text *)

Definition is_digit (b : byte) : Prop :=
  48 ≤ u8 b ≤ 57 ∨ 97 ≤ u8 b ≤ 102 ∨ 65 ≤ u8 b ≤ 70.

Lemma digit_char_spec d :
  0 ≤ d < 16 → u8 (digit_char d) = if d <? 10 then 48 + d else 87 + d.
Proof.
  intros. unfold digit_char. rewrite u8_byte_of_Z. apply Z.mod_small.
  destruct (Z.ltb_spec d 10); lia.
Qed.

Lemma digit_char_is_digit d : 0 ≤ d < 16 → is_digit (digit_char d).
Proof.
  intros. unfold is_digit. rewrite digit_char_spec by done.
  destruct (Z.ltb_spec d 10); lia.
Qed.

Lemma digit_val_char radix d :
  0 ≤ d < radix → radix ≤ 16 → digit_val radix (digit_char d) = Some d.
Proof.
  intros. unfold digit_val. rewrite digit_char_spec by lia.
  destruct (Z.ltb_spec d 10).
  - destruct (Z.leb_spec 48 (48 + d)), (Z.leb_spec (48 + d) 57); try lia. simpl.
    replace (48 + d - 48) with d by lia. destruct (Z.ltb_spec d radix); [done|lia].
  - destruct (Z.leb_spec 48 (87 + d)), (Z.leb_spec (87 + d) 57); try lia.
    destruct (Z.leb_spec 97 (87 + d)), (Z.leb_spec (87 + d) 102); try lia. simpl.
    replace (87 + d - 87) with d by lia. destruct (Z.ltb_spec d radix); [done|lia].
Qed.

Lemma digit_val_range radix b d : digit_val radix b = Some d → 0 ≤ d < radix.
Proof.
  unfold digit_val. intros H.
  repeat case_match; simplify_eq/=; repeat case_match; simplify_eq/=;
    rewrite ?andb_true_iff, ?Z.leb_le, ?Z.ltb_lt in *; lia.
Qed.

Lemma print_digits_digits fuel radix n acc :
  2 ≤ radix ≤ 16 → 0 ≤ n → Forall is_digit acc →
  Forall is_digit (print_digits fuel radix n acc).
Proof.
  intros Hr. revert n acc; induction fuel as [|fuel IH]; intros n acc Hn Hacc; simpl; [done|].
  pose proof (Z.mod_pos_bound n radix ltac:(lia)).
  assert (Forall is_digit (digit_char (n mod radix) :: acc)).
  { constructor; [apply digit_char_is_digit; lia | done]. }
  case_match; [done|]. apply IH; [|done]. apply Z.div_pos; lia.
Qed.

Lemma parse_print_digits fuel radix max n tl :
  2 ≤ radix ≤ 16 → 0 ≤ n ≤ max → n < 2 ^ Z.of_nat (S fuel) →
  parse_digits radix max 0 (print_digits (S fuel) radix n tl)
  = parse_digits radix max n tl.
Proof.
  intros Hr. revert n tl; induction fuel as [|fuel IH]; intros n tl Hn Hf;
    remember (S fuel) as fuel' eqn:Hfuel || idtac;
    cbn [print_digits]; pose proof (Z.mod_pos_bound n radix ltac:(lia));
    rewrite Nat2Z.inj_succ, Z.pow_succ_r in Hf by lia;
    (destruct (Z.ltb_spec n radix) as [Hlt|Hge];
     [cbn [parse_digits]; rewrite Z.mod_small, digit_val_char by lia; cbn;
      rewrite Z.mul_0_l, Z.add_0_l; destruct (Z.leb_spec n max); [done|lia]|]).
  - simpl in Hf. lia.
  - subst fuel'. assert (0 < n / radix) by (apply Z.div_str_pos; lia).
    assert (n / radix * radix ≤ n) by (rewrite Z.mul_comm; apply Z.mul_div_le; lia).
    rewrite IH; [|nia|nia].
    cbn [parse_digits]. rewrite digit_val_char by lia. cbn.
    replace (n / radix * radix + n mod radix) with n
      by (rewrite (Z.div_mod n radix) at 1 by lia; lia).
    destruct (Z.leb_spec n max); [done|lia].
Qed.

Lemma print_radix_digits radix n :
  2 ≤ radix ≤ 16 → 0 ≤ n → Forall is_digit (print_radix radix n).
Proof. intros. by apply print_digits_digits. Qed.

Lemma print_digits_app fuel radix n acc :
  print_digits fuel radix n acc = print_digits fuel radix n [] ++ acc.
Proof.
  revert n acc; induction fuel as [|fuel IH]; intros n acc; cbn [print_digits]; [done|].
  destruct (n <? radix); [done|].
  rewrite IH, (IH _ [_]), <- app_assoc. done.
Qed.

Lemma print_radix_ne radix n : print_radix radix n ≠ [].
Proof.
  unfold print_radix. cbn [print_digits]. case_match; [done|].
  rewrite print_digits_app. by destruct (print_digits _ _ _ _).
Qed.

Lemma log2_fuel n : 0 ≤ n → n < 2 ^ Z.of_nat (S (Z.to_nat (Z.log2 n))).
Proof.
  intros. rewrite Nat2Z.inj_succ, Z2Nat.id by apply Z.log2_nonneg.
  destruct (decide (n = 0)) as [->|]; [done|].
  apply Z.log2_spec. lia.
Qed.

Lemma parse_digits_print radix max n :
  2 ≤ radix ≤ 16 → 0 ≤ n ≤ max →
  parse_digits radix max 0 (print_radix radix n) = Some n.
Proof.
  intros. unfold print_radix. rewrite parse_print_digits; [done..|].
  apply log2_fuel. lia.
Qed.

(** Closes [¬ is_digit c] for a literal byte [c]. *)
Ltac nondigit :=
  let H := fresh in intros H; unfold is_digit, u8 in H; cbn in H; lia.

Lemma not_digit b l : Forall is_digit l → ¬ is_digit b → b ∉ l.
Proof. rewrite Forall_forall. naive_solver. Qed.

Lemma is_digit_not_sign b : is_digit b → b ≠ x2b ∧ b ≠ x2d.
Proof. intros H; split; intros ->; revert H; nondigit. Qed.

(** A string that starts with a digit is parsed without looking for a sign. *)
Lemma parse_unsigned_digits radix max b s :
  is_digit b → parse_unsigned radix max (b :: s) = parse_digits radix max 0 (b :: s).
Proof.
  intros [? ?]%is_digit_not_sign. unfold parse_unsigned.
  destruct s; by rewrite !bool_decide_false.
Qed.

Lemma parse_signed_digits radix w b s :
  is_digit b →
  parse_signed radix w (b :: s) = parse_digits radix (2 ^ (w - 1) - 1) 0 (b :: s).
Proof.
  intros [? ?]%is_digit_not_sign. unfold parse_signed.
  destruct s; by rewrite !bool_decide_false.
Qed.

(** Parsing an unsigned integer is the left inverse of printing it. *)
Lemma parse_print_unsigned radix max n :
  2 ≤ radix ≤ 16 → 0 ≤ n ≤ max →
  parse_unsigned radix max (print_radix radix n) = Some n.
Proof.
  intros Hr Hn. rewrite <- (parse_digits_print radix max n Hr Hn).
  pose proof (print_radix_digits radix n Hr ltac:(lia)) as Hd.
  pose proof (print_radix_ne radix n).
  destruct (print_radix radix n) as [|b s]; [done|].
  inversion Hd; subst. by apply parse_unsigned_digits.
Qed.

(** The same for signed integers of [w] bits. *)
Lemma parse_print_signed w z :
  0 < w → - 2 ^ (w - 1) ≤ z < 2 ^ (w - 1) →
  parse_signed 10 w (print_dec z) = Some z.
Proof.
  intros Hw Hz. unfold print_dec. destruct (Z.ltb_spec z 0) as [Hneg|Hpos].
  - pose proof (print_radix_ne 10 (- z)).
    destruct (print_radix 10 (- z)) as [|b s] eqn:E; [done|].
    unfold parse_signed. rewrite bool_decide_true by done.
    rewrite <- E, parse_digits_print by lia. simpl. f_equal. lia.
  - rewrite <- (parse_digits_print 10 (2 ^ (w - 1) - 1) z) by lia.
    pose proof (print_radix_digits 10 z ltac:(lia) Hpos) as Hd.
    pose proof (print_radix_ne 10 z).
    destruct (print_radix 10 z) as [|b s]; [done|].
    inversion Hd; subst. by apply parse_signed_digits.
Qed.

Lemma print_dec_no c z : ¬ is_digit c → c ≠ x2d → c ∉ print_dec z.
Proof.
  intros Hc Hm. unfold print_dec. case_match.
  - rewrite not_elem_of_cons. split; [done|].
    eapply not_digit, Hc. apply print_radix_digits; lia.
  - eapply not_digit, Hc. apply print_radix_digits; lia.
Qed.

Lemma parse_digits_zeros radix max k s :
  2 ≤ radix → 0 ≤ max →
  parse_digits radix max 0 (replicate k x30 ++ s) = parse_digits radix max 0 s.
Proof.
  intros Hr Hm. induction k as [|k IH]; simpl; [done|].
  assert (digit_val radix x30 = Some 0) as ->.
  { unfold digit_val, u8. cbn. change (48 - 48) with 0.
    destruct (Z.ltb_spec 0 radix); [done|lia]. }
  cbn. rewrite Z.add_0_r, Z.mul_0_l. destruct (Z.leb_spec 0 max); [done|lia].
Qed.

Lemma pad_zero_digits w s : Forall is_digit s → Forall is_digit (pad_zero w s).
Proof.
  intros. unfold pad_zero. apply Forall_app. split; [|done].
  apply Forall_replicate. unfold is_digit, u8. cbn. lia.
Qed.

Lemma length_pad_zero w s : length (pad_zero w s) = Nat.max w (length s).
Proof. unfold pad_zero. rewrite length_app, length_replicate. lia. Qed.

(** The number of digits: at most [k] below [radix ^ k]. *)
Lemma print_digits_length fuel radix n k :
  2 ≤ radix → 0 ≤ n < radix ^ Z.of_nat k → (0 < k)%nat →
  (length (print_digits fuel radix n []) ≤ k)%nat.
Proof.
  intros Hr. revert fuel n. induction k as [|k IH]; intros fuel n Hn Hk; [lia|].
  destruct fuel as [|fuel]; cbn [print_digits]; [simpl; lia|].
  destruct (Z.ltb_spec n radix) as [|Hge]; [simpl; lia|].
  rewrite print_digits_app, length_app. cbn [length].
  rewrite Nat2Z.inj_succ, Z.pow_succ_r in Hn by lia.
  destruct (decide (k = O)) as [->|]; [simpl in Hn; lia|].
  enough (length (print_digits fuel radix (n / radix) []) ≤ k)%nat by lia.
  apply IH; [|lia]. split; [apply Z.div_pos; lia|]. apply Z.div_lt_upper_bound; lia.
Qed.

Lemma print_radix_length radix n k :
  2 ≤ radix → 0 ≤ n < radix ^ Z.of_nat k → (0 < k)%nat →
  (length (print_radix radix n) ≤ k)%nat.
Proof. intros. by apply print_digits_length. Qed.

Lemma is_digit_ascii b : is_digit b → is_ascii b = true.
Proof. unfold is_digit, is_ascii. rewrite Z.ltb_lt. lia. Qed.

Lemma utf8_digits s : Forall is_digit s → utf8_valid s = true.
Proof.
  intros H. apply utf8_ascii. eapply Forall_impl; [exact H|].
  intros b Hb. apply Is_true_true. by apply is_digit_ascii.
Qed.

Lemma utf8_print_dec z : utf8_valid (print_dec z) = true.
Proof.
  unfold print_dec. destruct (Z.ltb_spec z 0).
  - apply (utf8_valid_app [x2d]); [done|]. apply utf8_digits, print_radix_digits; lia.
  - apply utf8_digits, print_radix_digits; lia.
Qed.

(** ** Lemmas: trimming *)

Definition no_trailing_ws (s : bytes) : Prop := rev_whitespace (reverse s) = None.

#[export] Instance no_trailing_ws_dec s : Decision (no_trailing_ws s).
Proof. unfold no_trailing_ws. apply _. Defined.

Definition ws1 (b : byte) : bool :=
  match b with x09 | x0a | x0b | x0c | x0d | x20 => true | _ => false end.

Lemma rev_whitespace_ws1 b s : ws1 b = true → rev_whitespace (b :: s) = Some 1%nat.
Proof. by destruct b. Qed.

Lemma trim_start_rev_none fuel s : rev_whitespace s = None → trim_start_rev fuel s = s.
Proof. intros H. destruct fuel; simpl; [done|]. by rewrite H. Qed.

Lemma trim_start_rev_ws fuel ws s :
  Forall ws1 ws → (length ws ≤ fuel)%nat → rev_whitespace s = None →
  trim_start_rev fuel (ws ++ s) = s.
Proof.
  intros Hws. revert fuel. induction Hws as [|b ws Hb Hws IH]; intros fuel Hf Hs;
    [by apply trim_start_rev_none|].
  destruct fuel as [|fuel]; simpl in Hf; [lia|]. cbn [trim_start_rev app].
  rewrite rev_whitespace_ws1 by (by apply Is_true_true). cbn [drop]. apply IH; [lia|done].
Qed.

(** [trim_end] removes exactly the trailing white space. *)
Lemma trim_end_app s ws : no_trailing_ws s → Forall ws1 ws → trim_end (s ++ ws) = s.
Proof.
  intros Hs Hws. unfold trim_end. rewrite reverse_app, trim_start_rev_ws; [by rewrite reverse_involutive|..].
  - by rewrite Forall_reverse.
  - rewrite length_app, length_reverse. lia.
  - done.
Qed.

Lemma trim_end_id s : no_trailing_ws s → trim_end s = s.
Proof. intros Hs. rewrite <- (app_nil_r s) at 1. by apply trim_end_app. Qed.

Lemma digits_no_trailing_ws s : Forall is_digit s → no_trailing_ws s.
Proof.
  rewrite <- Forall_reverse. unfold no_trailing_ws.
  destruct (reverse s) as [|b l]; [done|]. intros H. inversion_clear H as [|?? Hb _].
  assert (48 ≤ u8 b < 128) as Hr by (unfold is_digit in Hb; lia).
  destruct b; try (unfold u8 in Hr; cbn in Hr; lia); done.
Qed.

(** ** Lemmas: segments and lines *)

Lemma split_byte_ne c s : split_byte c s ≠ [].
Proof. destruct s; simpl; repeat case_match; done. Qed.

Lemma join_split_byte c s : join_byte c (split_byte c s) = s.
Proof.
  induction s as [|d s IH]; simpl; [done|]. pose proof (split_byte_ne c s).
  case_bool_decide; subst.
  - destruct (split_byte d s); [done|]. by rewrite <- IH.
  - destruct (split_byte c s) as [|l [|l' ls]]; simpl in *; by rewrite <- IH.
Qed.

Lemma split_byte_no c s : Forall (λ l, c ∉ l) (split_byte c s).
Proof.
  induction s as [|d s IH]; simpl; [repeat constructor; apply not_elem_of_nil|].
  case_bool_decide; [constructor; [apply not_elem_of_nil|done]|].
  destruct (split_byte c s) as [|l ls]; inversion_clear IH; constructor;
    rewrite ?not_elem_of_cons; try done. split; [done|apply not_elem_of_nil].
Qed.

Lemma split_byte_name c s : c ∉ s → split_byte c s = [s].
Proof.
  induction s as [|d s IH]; [done|]. rewrite not_elem_of_cons. intros [Hd Hs]. cbn.
  rewrite bool_decide_false by done. by rewrite IH.
Qed.

Lemma split_byte_app_cons c a b : split_byte c (a ++ c :: b) = split_byte c a ++ split_byte c b.
Proof.
  induction a as [|d a IH]; cbn; [by rewrite bool_decide_true|].
  rewrite IH. pose proof (split_byte_ne c a). case_bool_decide; [done|].
  by destruct (split_byte c a).
Qed.

Lemma split_join_byte c ls : ls ≠ [] → Forall (λ l, c ∉ l) ls → split_byte c (join_byte c ls) = ls.
Proof.
  intros Hne Hls. induction Hls as [|l ls Hl Hls IH]; [done|]. destruct ls as [|l' ls].
  - by apply split_byte_name.
  - change (join_byte c (l :: l' :: ls)) with (l ++ c :: join_byte c (l' :: ls)).
    by rewrite split_byte_app_cons, IH, split_byte_name.
Qed.

Lemma split_lines_app a b : x0a ∉ a → split_lines (a ++ x0a :: b) = a :: split_lines b.
Proof.
  induction a as [|d a IH]; intros Ha; simpl; [done|].
  rewrite not_elem_of_cons in Ha. destruct Ha as [Hd Ha].
  by rewrite bool_decide_false, IH.
Qed.

Lemma split_lines_join segs rest :
  segs ≠ [] → Forall (λ l, x0a ∉ l) segs →
  split_lines (join_byte x0a segs ++ x0a :: rest) = segs ++ split_lines rest.
Proof.
  intros Hne Hs. induction Hs as [|s segs Hs Hsegs IH]; [done|].
  destruct segs as [|s2 segs].
  - simpl. by rewrite split_lines_app.
  - change (join_byte x0a (s :: s2 :: segs)) with (s ++ x0a :: join_byte x0a (s2 :: segs)).
    rewrite <- app_assoc. cbn [app]. rewrite split_lines_app by done. by rewrite IH.
Qed.

Lemma indent_lf_app a b : indent_lf (a ++ b) = indent_lf a ++ indent_lf b.
Proof. induction a as [|d a IH]; simpl; [done|]. rewrite IH. by case_bool_decide. Qed.

Lemma indent_lf_id a : x0a ∉ a → indent_lf a = a.
Proof.
  induction a as [|d a IH]; simpl; [done|]. rewrite not_elem_of_cons. intros [? ?].
  by rewrite bool_decide_false, IH.
Qed.

Lemma indent_lf_join s segs :
  x0a ∉ s → Forall (λ l, x0a ∉ l) segs →
  indent_lf (join_byte x0a (s :: segs)) = join_byte x0a (s :: ((x20 ::.) <$> segs)).
Proof.
  intros Hs Hsegs. revert s Hs. induction Hsegs as [|s2 segs Hs2 Hsegs IH]; intros s Hs.
  - by apply indent_lf_id.
  - change (join_byte x0a (s :: s2 :: segs)) with (s ++ x0a :: join_byte x0a (s2 :: segs)).
    rewrite indent_lf_app, indent_lf_id by done.
    change (indent_lf (x0a :: ?l)) with (x0a :: x20 :: indent_lf l).
    rewrite IH by done. by destruct segs.
Qed.

Lemma join_split_lines s :
  ends_with_lf s = false → join_byte x0a (split_lines s) = s.
Proof.
  induction s as [|d s IH]; [done|]. intros He.
  destruct s as [|d2 s].
  - simpl in *. unfold ends_with_lf in He. simpl in He. apply bool_decide_eq_false in He.
    by rewrite bool_decide_false.
  - specialize (IH He). assert (split_lines (d2 :: s) ≠ []) as Hne
      by (simpl; repeat case_match; done).
    change (split_lines (d :: d2 :: s)) with
      (if bool_decide (x0a = d) then [] :: split_lines (d2 :: s)
       else match split_lines (d2 :: s) with [] => [[d]] | l :: ls => (d :: l) :: ls end).
    destruct (split_lines (d2 :: s)) as [|l ls]; [done|].
    case_bool_decide; [subst; by rewrite <- IH|].
    destruct ls; simpl in *; by rewrite <- IH.
Qed.

Lemma strip_cr_id l : x0d ∉ l → strip_cr l = l.
Proof.
  intros Hl. unfold strip_cr. destruct (last l) as [d|] eqn:E; [|done].
  case_bool_decide; [|done]. subst. destruct Hl. by apply last_Some_elem_of.
Qed.

Lemma elem_of_split_lines s l b : l ∈ split_lines s → b ∈ l → b ∈ s.
Proof.
  revert l; induction s as [|d s IH]; intros l; simpl; [by intros []%elem_of_nil|].
  rewrite elem_of_cons. case_bool_decide.
  - rewrite elem_of_cons. intros [->|Hl] Hb; [by apply elem_of_nil in Hb|right; eauto].
  - destruct (split_lines s) as [|l' ls].
    + rewrite list_elem_of_singleton. intros ->. rewrite list_elem_of_singleton. by left.
    + rewrite elem_of_cons. intros [->|Hl] Hb.
      * rewrite elem_of_cons in Hb. destruct Hb as [?|Hb]; [by left|].
        right. apply (IH l'); [by apply elem_of_cons; left|done].
      * right. apply (IH l); [by apply elem_of_cons; right|done].
Qed.

(** Without carriage returns the lines are the segments. *)
Lemma lines_no_cr s : x0d ∉ s → lines s = split_lines s.
Proof.
  intros Hs. assert (∀ ls : list bytes, (∀ l, l ∈ ls → l ∈ split_lines s) → strip_cr <$> ls = ls) as H.
  { induction ls as [|l ls IH]; intros Hin; [done|]. cbn [fmap list_fmap]. f_equal.
    - apply strip_cr_id. intros Hb. apply Hs. eapply elem_of_split_lines; [|exact Hb].
      apply Hin, elem_of_cons. by left.
    - apply IH. intros l' Hl'. apply Hin, elem_of_cons. by right. }
  unfold lines. destruct (ends_with_lf s); [by apply H|].
  destruct (last (split_lines s)) as [l|] eqn:E.
  - apply last_Some in E as [ls E]. rewrite E, length_app, Nat.add_sub, take_app_length.
    rewrite H; [done|]. intros l' Hl'. rewrite E. apply elem_of_app. by left.
  - by apply last_None in E.
Qed.

(** Lines that end before [b] are read on their own. *)
Lemma split_lines_terminated a b : split_lines (a ++ x0a :: b) = split_lines (a ++ [x0a]) ++ split_lines b.
Proof.
  induction a as [|d a IH]; [done|]. cbn [app split_lines]. rewrite IH. case_bool_decide; [done|].
  assert (split_lines (a ++ [x0a]) ≠ []) as Hne by (destruct a; simpl; repeat case_match; done).
  by destruct (split_lines (a ++ [x0a])).
Qed.

Lemma split_lines_ne s : s ≠ [] → split_lines s ≠ [].
Proof. destruct s; [done|]. intros _. simpl. repeat case_match; done. Qed.

Lemma lines_app a b : lines (a ++ x0a :: b) = lines (a ++ [x0a]) ++ lines b.
Proof.
  assert (ends_with_lf (a ++ [x0a]) = true) as Ha by (unfold ends_with_lf; by rewrite last_snoc).
  destruct (decide (b = [])) as [->|Hb]; [by rewrite app_nil_r|].
  assert (ends_with_lf (a ++ x0a :: b) = ends_with_lf b) as He.
  { unfold ends_with_lf. destruct b as [|d b]; [done|]. by rewrite last_app_cons, last_cons_cons. }
  unfold lines. rewrite Ha, He, split_lines_terminated. destruct (ends_with_lf b); [by rewrite fmap_app|].
  pose proof (split_lines_ne b Hb) as Hne. destruct (last (split_lines b)) as [l|] eqn:E;
    [|by apply last_None in E].
  apply last_Some in E as [ls E]. rewrite E, app_assoc, last_snoc, !length_app. cbn [length].
  rewrite !Nat.add_sub, <- length_app, !take_app_length, fmap_app. by rewrite <- app_assoc.
Qed.

Lemma join_split_lines_lf s : join_byte x0a (split_lines (s ++ [x0a])) = s.
Proof.
  induction s as [|d s IH]; [done|]. cbn [app split_lines].
  assert (split_lines (s ++ [x0a]) ≠ []) as Hne by (apply split_lines_ne; by destruct s).
  case_bool_decide as Hd.
  - subst d. destruct (split_lines (s ++ [x0a])); [done|]. cbn [join_byte] in *. simpl. by rewrite <- IH.
  - destruct (split_lines (s ++ [x0a])) as [|l [|l2 ls]]; [done|..]; simpl in *; by rewrite <- IH.
Qed.

Lemma utf8_split_lines s : utf8_valid s = true → forallb utf8_valid (split_lines s) = true.
Proof.
  induction s as [s IH] using (induction_ltof1 _ length). intros Hs.
  destruct (decide (x0a ∈ s)) as [Hin|Hno].
  - destruct (split_once x0a s) as [[a b]|] eqn:E.
    + apply split_once_Some in E as [-> Ha]. rewrite split_lines_app by done.
      apply utf8_valid_split in Hs as [Hva Hvb]; [|done]. simpl. rewrite Hva. simpl.
      apply IH; [|done]. unfold ltof. rewrite length_app. simpl. lia.
    + exfalso. apply list_elem_of_split in Hin as (a & b & ->).
      clear -E. induction a as [|d a IHa]; simpl in E; [done|].
      case_bool_decide; [done|]. destruct (split_once _ _) as [[? ?]|]; done.
  - assert (split_lines s = [] ∨ split_lines s = [s]) as [->| ->]; [|done|simpl; by rewrite Hs].
    clear -Hno. induction s as [|d s IH]; [by left|]. rewrite not_elem_of_cons in Hno.
    destruct Hno as [Hd Hno]. simpl. rewrite bool_decide_false by done.
    destruct (IH Hno) as [E|E]; rewrite E; right; [|done].
    destruct s as [|d2 s]; [done|]. exfalso. revert E. simpl. repeat case_match; done.
Qed.

Lemma utf8_run_indent st s st' :
  utf8_state_ok st → utf8_run st s = Some st' → utf8_run st (indent_lf s) = Some st'.
Proof.
  revert st; induction s as [|b s IH]; intros st Hst; [done|]. cbn [utf8_run indent_lf].
  destruct (utf8_step st b) as [st1|] eqn:E; cbn; [|done]. intros Hr.
  assert (utf8_state_ok st1) as Hok1 by (eapply (utf8_run_ok st [b]); cbn; by rewrite ?E).
  case_bool_decide as Hb; cbn; rewrite ?E; cbn; [|by apply IH].
  subst b. destruct st as [|k lo hi]; cbn in E; simplify_eq.
  - cbn. by apply IH.
  - cbn in Hst. change (u8 x0a) with 10 in E. destruct (Z.leb_spec lo 10); [lia|done].
Qed.

Lemma utf8_indent s : utf8_valid s = true → utf8_valid (indent_lf s) = true.
Proof. rewrite !utf8_valid_run. by apply utf8_run_indent. Qed.

Lemma elem_of_indent b s : b ∈ indent_lf s → b ∈ s ∨ b = x20.
Proof.
  induction s as [|d s IH]; cbn; [by left|]. case_bool_decide; rewrite !elem_of_cons; naive_solver.
Qed.

Lemma length_bind_ge {A B} (f : A → list B) (l : list A) :
  (∀ a, a ∈ l → 1 ≤ length (f a))%nat → (length l ≤ length (l ≫= f))%nat.
Proof.
  induction l as [|a l IH]; intros H; cbn; [lia|].
  rewrite length_app. pose proof (H a (list_elem_of_here _ _)).
  enough (length l ≤ length (l ≫= f))%nat by (cbn in *; lia).
  apply IH. intros b Hb. apply H, elem_of_cons. by right.
Qed.
