(* ===== verification/Data.v ===== *)
(** * Data

    The data types that components share (object ids, file modes, object types,
    tree entries, symbolic references) and the errors of [libbit/src/error.rs].
    A [BitPath] is the byte string it interns.  An [Oid] is the byte string of
    the [[u8; 20]] it wraps; [oid_wf] is the length that type guarantees. *)

From Stdlib Require Import ZArith Lia.
From Stdlib Require Import Strings.Byte.
From stdpp Require Import base tactics option list countable strings.
From S2P Require Import Prelude RustStd.

#[local] Open Scope Z_scope.

Abbreviation BitPath := (list byte) (only parsing).
Abbreviation Oid := (list byte) (only parsing).

Definition oid_wf (oid : Oid) : Prop := length oid = 20%nat.

#[export] Instance oid_wf_dec oid : Decision (oid_wf oid).
Proof. unfold oid_wf. apply _. Defined.

(** [PartialOid]: 40 characters, of which the first [po_len] were given. *)
Record PartialOid := mk_PartialOid { po_bytes : bytes; po_len : nat }.

#[export] Instance PartialOid_eq_dec : EqDecision PartialOid.
Proof. solve_decision. Defined.

Inductive BitId :=
| Full (oid : Oid)
| Partial (p : PartialOid).

#[export] Instance BitId_eq_dec : EqDecision BitId.
Proof. solve_decision. Defined.

Inductive BitObjType := TCommit | TTree | TBlob | TTag.

#[export] Instance BitObjType_eq_dec : EqDecision BitObjType.
Proof. solve_decision. Defined.

Inductive FileMode := REG | EXEC | LINK | TREE | GITLINK.

#[export] Instance FileMode_eq_dec : EqDecision FileMode.
Proof. solve_decision. Defined.

Record TreeEntry := mk_TreeEntry { te_mode : FileMode; te_path : BitPath; te_oid : Oid }.

#[export] Instance TreeEntry_eq_dec : EqDecision TreeEntry.
Proof. solve_decision. Defined.

Inductive SymbolicRefKind := KHead | KRemote | KBranch | KTag | KStash | KUnknown.

#[export] Instance SymbolicRefKind_eq_dec : EqDecision SymbolicRefKind.
Proof. solve_decision. Defined.

Record SymbolicRef := mk_SymbolicRef { sym_path : BitPath; sym_kind : SymbolicRefKind }.

#[export] Instance SymbolicRef_eq_dec : EqDecision SymbolicRef.
Proof. solve_decision. Defined.

(** ** error.rs *)

Record MergeConflicts := mk_MergeConflicts { uncommitted : list BitPath }.
Record CheckoutConflicts := mk_CheckoutConflicts { cc_worktree : list TreeEntry }.

#[export] Instance MergeConflicts_eq_dec : EqDecision MergeConflicts.
Proof. solve_decision. Defined.
#[export] Instance CheckoutConflicts_eq_dec : EqDecision CheckoutConflicts.
Proof. solve_decision. Defined.

Inductive BitError :=
| ObjectNotFound (id : BitId)
| ObjectNotFoundInPackIndex (oid : Oid) (idx : Z)
| AmbiguousPrefix (p : PartialOid) (candidates : list Oid)
| NonExistentSymRef (sym : SymbolicRef)
| MergeConflict (c : MergeConflicts)
| CheckoutConflict (c : CheckoutConflicts)
| ExpectedCommit (oid : Oid) (ty : BitObjType)
| PackBackendWrite.

#[export] Instance BitError_eq_dec : EqDecision BitError.
Proof. solve_decision. Defined.

(** [anyhow::Error]: a [BitError] that can be downcast, or any other error (an
    I/O error, a message made with [anyhow!] or [bail!]). *)
Inductive BitGenericError :=
| Anyhow
| AnyhowBit (e : BitError).

#[export] Instance BitGenericError_eq_dec : EqDecision BitGenericError.
Proof. solve_decision. Defined.

Abbreviation BitResult := (outcome BitGenericError).

(** [bail!] with a message. *)
Definition bail {A} : BitResult A := Err Anyhow.

(** [bail!] with a [BitError]. *)
Definition bail_bit {A} (e : BitError) : BitResult A := Err (AnyhowBit e).

Definition try_into_bit_error (e : BitGenericError) : BitResult BitError :=
  match e with AnyhowBit b => Ok b | Anyhow => Err e end.

Definition try_into_obj_not_found_in_pack_index_err (e : BitGenericError) : BitResult (Oid * Z) :=
  b ← try_into_bit_error e;
  match b with
  | ObjectNotFoundInPackIndex oid idx => Ok (oid, idx)
  | err => bail_bit err
  end.

Definition try_into_obj_not_found_err (e : BitGenericError) : BitResult BitId :=
  b ← try_into_bit_error e;
  match b with ObjectNotFound id => Ok id | err => bail_bit err end.

Definition try_into_nonexistent_symref_err (e : BitGenericError) : BitResult SymbolicRef :=
  b ← try_into_bit_error e;
  match b with NonExistentSymRef sym => Ok sym | err => bail_bit err end.

Definition try_into_expected_commit_error (e : BitGenericError) : BitResult (Oid * BitObjType) :=
  b ← try_into_bit_error e;
  match b with ExpectedCommit oid ty => Ok (oid, ty) | err => bail_bit err end.

Definition try_into_merge_conflict (e : BitGenericError) : BitResult MergeConflicts :=
  b ← try_into_bit_error e;
  match b with MergeConflict c => Ok c | err => bail_bit err end.

Definition try_into_checkout_conflict (e : BitGenericError) : BitResult CheckoutConflicts :=
  b ← try_into_bit_error e;
  match b with CheckoutConflict c => Ok c | err => bail_bit err end.

(** [BitResultExt for BitGenericError]. *)
Definition err_is_not_found_err (e : BitGenericError) : bool :=
  match e with
  | AnyhowBit (ObjectNotFound _) | AnyhowBit (ObjectNotFoundInPackIndex _ _) => true
  | _ => false
  end.

Definition err_is_fatal (e : BitGenericError) : bool :=
  match e with
  | AnyhowBit (ObjectNotFound _) | AnyhowBit (ObjectNotFoundInPackIndex _ _)
  | AnyhowBit (MergeConflict _) | AnyhowBit (CheckoutConflict _)
  | AnyhowBit PackBackendWrite => false
  | _ => true
  end.

(** [BitResultExt for BitResult<T>], through the macro [error_ext_is_method!]. *)
Definition is_not_found_err {A} (r : BitResult A) : bool :=
  match r with Err e => err_is_not_found_err e | _ => false end.

Definition is_fatal {A} (r : BitResult A) : bool :=
  match r with Err e => err_is_fatal e | _ => false end.

(** ** Lemmas *)

(** Every conversion either extracts the payload of its own constructor or gives
    the error back unchanged: no information is lost on the way. *)
Lemma try_into_obj_not_found_err_spec e :
  try_into_obj_not_found_err e =
    match e with AnyhowBit (ObjectNotFound id) => Ok id | _ => Err e end.
Proof. by destruct e as [|[]]. Qed.

Lemma try_into_pack_index_err_spec e :
  try_into_obj_not_found_in_pack_index_err e =
    match e with
    | AnyhowBit (ObjectNotFoundInPackIndex oid idx) => Ok (oid, idx)
    | _ => Err e
    end.
Proof. by destruct e as [|[]]. Qed.

Lemma try_into_nonexistent_symref_err_spec e :
  try_into_nonexistent_symref_err e =
    match e with AnyhowBit (NonExistentSymRef sym) => Ok sym | _ => Err e end.
Proof. by destruct e as [|[]]. Qed.

Lemma not_found_not_fatal e : err_is_not_found_err e = true → err_is_fatal e = false.
Proof. by destruct e as [|[]]. Qed.
