(* ===== verification/Io.v ===== *)
(** * Io

    [libbit/src/io.rs] and [libbit/src/serialize.rs]: the readers and writers the
    on-disk formats are built from.  A [Read]/[BufRead] is the list of the bytes
    still to be read, and a reading operation is a function of type [reader A];
    a [Write] is the list of bytes written. *)

From Stdlib Require Import ZArith Lia.
From Stdlib Require Import Strings.Byte.
From stdpp Require Import base tactics option list countable strings.
From S2P Require Import Prelude RustStd Data.

#[local] Open Scope Z_scope.

(** ** Readers *)

Definition reader (A : Type) : Type := bytes → BitResult (A * bytes).

#[export] Instance reader_ret : MRet reader := λ A a s, Ok (a, s).
#[export] Instance reader_bind : MBind reader := λ A B f m s,
  match m s with Ok (a, s') => f a s' | Err e => Err e | Panic => Panic end.
#[export] Instance reader_fmap : FMap reader := λ A B f m s,
  match m s with Ok (a, s') => Ok (f a, s') | Err e => Err e | Panic => Panic end.

(** A computation that does not read. *)
Definition lift {A} (r : BitResult A) : reader A := λ s,
  match r with Ok a => Ok (a, s) | Err e => Err e | Panic => Panic end.

(** [Read::read_exact] into a buffer of [n] bytes. *)
Definition read_exact (n : nat) : reader bytes := λ s,
  if (n <=? length s)%nat then Ok (take n s, drop n s) else Err Anyhow.

(** [BufRead::read_until], as a reader. *)
Definition read_until_r (c : byte) : reader bytes := λ s, Ok (read_until c s).

(** [Read::take(size)] and a reader run on it to the end of its input. *)
Definition take_all {A} (size : Z) (m : reader A) : reader A := λ s,
  let n := Z.to_nat size in
  match m (take n s) with
  | Ok (a, s') => Ok (a, s' ++ drop n s)
  | Err e => Err e
  | Panic => Panic
  end.

(** *** trait ReadExt *)

Definition read_u8 : reader Z := λ s,
  match s with b :: s => Ok (u8 b, s) | [] => Err Anyhow end.

(** The [while] loop of [read_offset]: each iteration reads one byte. *)
Fixpoint read_offset_loop (offset byte : Z) (s : bytes) : BitResult (Z * bytes) :=
  if Z.land byte 0x80 =? 0 then Ok (offset, s)
  else match s with
       | [] => Err Anyhow
       | b :: s =>
           let offset := wrap 64 (offset + 1) in
           read_offset_loop (Z.lor (shl64 offset 7) (Z.land (u8 b) 0x7f)) (u8 b) s
       end.

Definition read_offset : reader Z :=
  byte ← read_u8;
  read_offset_loop (Z.land byte 0x7f) byte.

(** The [loop] of [read_le_varint_with_shift]. *)
Fixpoint read_le_varint_loop (n shift : Z) (s : bytes) : BitResult (Z * bytes) :=
  match s with
  | [] => Err Anyhow
  | b :: s =>
      let n := Z.lor n (shl64 (Z.land (u8 b) 0x7f) shift) in
      let shift := wrap 64 (shift + 7) in
      if Z.land (u8 b) 0x80 =? 0 then Ok (n, s) else read_le_varint_loop n shift s
  end.

Definition read_le_varint_with_shift (init_shift : Z) : reader (Z * Z) :=
  _ ← lift (assert_that (init_shift <? 8));
  byte ← read_u8;
  let anti_shift := 7 - init_shift in
  let k_mask := Z.shiftl (Z.shiftl 1 init_shift - 1) anti_shift in
  let k := Z.shiftr (Z.land byte (wrap 8 k_mask)) anti_shift in
  let mask := Z.shiftl 1 anti_shift - 1 in
  let n := Z.lor 0 (Z.land byte mask) in
  if negb (Z.land byte 0x80 =? 0) then
    n ← read_le_varint_loop n (7 - init_shift);
    mret (k, n)
  else mret (k, n).

Definition read_le_varint : reader Z := snd <$> read_le_varint_with_shift 0.

Definition read_size : reader Z := read_le_varint.

(** The [for i in 0..7] loop, from index [7 - left]. *)
Fixpoint read_le_packed_loop (left : nat) (header value : Z) : reader Z :=
  match left with
  | O => mret value
  | S left' =>
      let i := 7 - Z.of_nat left in
      if Z.land header (Z.shiftl 1 i) =? 0 then read_le_packed_loop left' header value
      else byte ← read_u8;
           read_le_packed_loop left' header (Z.lor value (shl64 byte (i * 8)))
  end.

Definition read_le_packed (header : Z) : reader Z := read_le_packed_loop 7 header 0.

Definition read_u16 : reader Z := be_decode <$> read_exact 2.
Definition read_u32 : reader Z := be_decode <$> read_exact 4.
Definition read_u64 : reader Z := be_decode <$> read_exact 8.
Definition read_oid : reader Oid := read_exact 20.

Record Timespec := mk_Timespec { sec : Z; nano : Z }.

#[export] Instance Timespec_eq_dec : EqDecision Timespec.
Proof. solve_decision. Defined.

Definition read_timespec : reader Timespec :=
  sec ← read_u32;
  nano ← read_u32;
  mret (mk_Timespec sec nano).

(** [read_to_string] fails when the bytes are not UTF-8. *)
Definition read_to_str : reader bytes := λ s,
  if utf8_valid s then Ok (s, []) else Err Anyhow.

Definition read_to_vec : reader bytes := λ s, Ok (s, []).

(** *** traits BufReadExtSized and BufReadExt *)

Fixpoint read_vec {A} (deserialize : reader A) (n : nat) : reader (list A) :=
  match n with
  | O => mret []
  | S n => x ← deserialize; xs ← read_vec deserialize n; mret (x :: xs)
  end.

Definition read_array {A} (deserialize : reader A) (n : nat) : reader (list A) :=
  read_vec deserialize n.

(** [&buf[..i - 1]]: panics when [i] is zero. *)
Definition but_last (buf : bytes) : BitResult bytes :=
  match buf with [] => Panic | _ => Ok (take (length buf - 1) buf) end.

(** [std::str::from_utf8(..).unwrap()]. *)
Definition from_utf8_unwrap (s : bytes) : BitResult bytes :=
  if utf8_valid s then Ok s else Panic.

Definition read_ascii_num (sep : byte) : reader Z :=
  buf ← read_until_r sep;
  s ← lift (but_last buf);
  s ← lift (from_utf8_unwrap s);
  lift (unwrap (parse_signed 10 64 s)).

Definition read_ascii_str {T} (from_str : bytes → BitResult T) (sep : byte) : reader T :=
  buf ← read_until_r sep;
  s ← lift (but_last buf);
  s ← lift (from_utf8_unwrap s);
  lift (from_str s).

Definition read_null_terminated {T} (deserialize : reader T) : reader T :=
  buf ← read_until_r x00;
  s ← lift (but_last buf);
  lift (fst <$> deserialize s).

Definition read_null_terminated_path : reader BitPath := read_null_terminated read_to_str.

Definition read_null_terminated_path_skip_n (n : nat) : reader BitPath :=
  buf ← read_exact n;
  more ← read_until_r x00;
  lift (but_last (buf ++ more)).

Definition is_at_eof : reader bool := λ s,
  Ok (match s with [] => true | _ => false end, s).

(** [while !r.is_at_eof()? { xs.push(T::deserialize(&mut r)?) }], with the elements
    read so far.  Every element takes at least a byte, so the number of bytes
    bounds the number of iterations ([read_to_eof_fuel]). *)
Fixpoint read_to_eof_loop {A} (d : reader A) (fuel : nat) (acc : list A) (s : bytes)
  : BitResult (list A * bytes) :=
  match s, fuel with
  | [], _ => Ok (acc, [])
  | _, O => Panic
  | _, S fuel =>
      '(a, s) ← d s;
      read_to_eof_loop d fuel (acc ++ [a]) s
  end.

Definition read_to_eof {A} (d : reader A) : reader (list A) := λ s,
  read_to_eof_loop d (length s) [] s.

(** *** traits WriteExt and WriteExtSized *)

Definition write_u8 (u : Z) : bytes := [byte_of_Z u].
Definition write_u16 (u : Z) : bytes := be_encode 2 u.
Definition write_u32 (u : Z) : bytes := be_encode 4 u.
Definition write_u64 (u : Z) : bytes := be_encode 8 u.
Definition write_ascii_num (i : Z) (sep : byte) : bytes := print_dec i ++ [sep].
Definition write_timespec (t : Timespec) : bytes := write_u32 (sec t) ++ write_u32 (nano t).
Definition write_null_terminated_path (path : BitPath) : bytes := path ++ [x00].
Definition write_oid (oid : Oid) : bytes := oid.

(** *** serialize.rs *)

Class Serialize (A : Type) := serialize : A → BitResult bytes.
Class Deserialize (A : Type) := deserialize : reader A.
Class DeserializeSized (A : Type) := deserialize_sized : Z → reader A.

#[export] Instance deserialize_ignores_size {A} `{Deserialize A} : DeserializeSized A | 10 :=
  λ _size, deserialize.

Definition deserialize_from_slice {A} `{DeserializeSized A} (slice : bytes) : BitResult A :=
  fst <$> deserialize_sized (Z.of_nat (length slice)) slice.

Definition write_with_size {A} `{Serialize A} (data : A) : BitResult bytes :=
  buf ← serialize data;
  Ok (write_u32 (wrap 32 (Z.of_nat (length buf))) ++ buf).

Fixpoint write_iter {A} `{Serialize A} (l : list A) : BitResult bytes :=
  match l with
  | [] => Ok []
  | x :: l => w ← serialize x; ws ← write_iter l; Ok (w ++ ws)
  end.

(** ** HashReader and HashWriter *)

(** The digest is a function of the bytes it was updated with since it was
    created or reset, so those bytes are its state. *)
Record HashReader := mk_HashReader {
  hr_reader : bytes;
  hr_hasher : bytes;
  hr_bytes_hashed : Z;
}.

Definition hash_reader_new (r : bytes) : HashReader := mk_HashReader r [] 0.

(** A reading operation through a [HashReader]: the bytes it consumes are
    hashed and counted. *)
Definition through_hash {A} (m : reader A) (h : HashReader) : BitResult (A * HashReader) :=
  '(a, rest) ← m (hr_reader h);
  let n := (length (hr_reader h) - length rest)%nat in
  Ok (a, mk_HashReader rest (hr_hasher h ++ take n (hr_reader h))
           (hr_bytes_hashed h + Z.of_nat n)).

(** [finalize_reset]: the digest of the bytes so far, and a fresh hasher. *)
Definition finalize_reset {D} (digest : bytes → D) (h : HashReader) : D * HashReader :=
  (digest (hr_hasher h), mk_HashReader (hr_reader h) [] (hr_bytes_hashed h)).

(** [HashWriter::write_hash] after the bytes [w] were written: the digest goes to
    the inner writer. *)
Definition write_hash (sha1 : bytes → Oid) (w : bytes) : bytes * Oid :=
  (w ++ write_oid (sha1 w), sha1 w).

(** ** The round-trip judgement *)

(** [reads m w a]: started on [w] followed by anything, the reader [m] consumes
    exactly [w] and returns [a]. *)
Definition reads {A} (m : reader A) (w : bytes) (a : A) : Prop :=
  ∀ rest, m (w ++ rest) = Ok (a, rest).

(** What a pair of [Serialize] and [Deserialize] implementations promises to the
    formats that contain the type. *)
Class RoundTrip (A : Type) `{Serialize A, Deserialize A} (wf : A → Prop) : Prop :=
  round_trip : ∀ a, wf a → ∃ w, serialize a = Ok w ∧ reads deserialize w a.

Lemma reads_ret {A} (a : A) : reads (mret a) [] a.
Proof. intros rest. done. Qed.

Lemma reads_bind {A B} (m : reader A) (f : A → reader B) w1 w2 a b :
  reads m w1 a → reads (f a) w2 b → reads (m ≫= f) (w1 ++ w2) b.
Proof.
  intros Hm Hf rest. unfold mbind, reader_bind.
  rewrite <- app_assoc, Hm. apply Hf.
Qed.

(** The last reader of a sequence, and one that reads nothing. *)
Lemma reads_bind_nil {A B} (m : reader A) (f : A → reader B) w a b :
  reads m [] a → reads (f a) w b → reads (m ≫= f) w b.
Proof. intros Hm Hf. apply (reads_bind m f [] w a b Hm Hf). Qed.

Lemma reads_bind_last {A B} (m : reader A) (f : A → reader B) w a b :
  reads m w a → reads (f a) [] b → reads (m ≫= f) w b.
Proof. intros Hm Hf. rewrite <- (app_nil_r w). by eapply reads_bind. Qed.

Lemma reads_fmap {A B} (f : A → B) (m : reader A) w a :
  reads m w a → reads (f <$> m) w (f a).
Proof. intros Hm rest. unfold fmap, reader_fmap. by rewrite Hm. Qed.

Lemma reads_lift {A} (r : BitResult A) a : r = Ok a → reads (lift r) [] a.
Proof. intros -> rest. done. Qed.

Lemma reads_eq {A} (m : reader A) w a b : reads m w a → a = b → reads m w b.
Proof. by intros ? <-. Qed.

Lemma reads_read_exact n w : length w = n → reads (read_exact n) w w.
Proof.
  intros <- rest. unfold read_exact. rewrite length_app.
  destruct (Nat.leb_spec (length w) (length w + length rest)); [|lia].
  by rewrite take_app_length, drop_app_length.
Qed.

Lemma reads_be n z :
  fits (8 * Z.of_nat n) z → reads (be_decode <$> read_exact n) (be_encode n z) z.
Proof.
  intros Hz. eapply reads_eq; [apply reads_fmap, reads_read_exact, length_be_encode|].
  by apply be_decode_encode_id.
Qed.

Lemma reads_u8 z : fits 8 z → reads read_u8 (write_u8 z) z.
Proof.
  intros Hz rest. unfold read_u8, write_u8. simpl. rewrite u8_byte_of_Z.
  by rewrite Z.mod_small.
Qed.

Lemma reads_u16 z : fits 16 z → reads read_u16 (write_u16 z) z.
Proof. apply (reads_be 2). Qed.

Lemma reads_u32 z : fits 32 z → reads read_u32 (write_u32 z) z.
Proof. apply (reads_be 4). Qed.

Lemma reads_u64 z : fits 64 z → reads read_u64 (write_u64 z) z.
Proof. apply (reads_be 8). Qed.

Lemma reads_oid oid : oid_wf oid → reads read_oid (write_oid oid) oid.
Proof. apply reads_read_exact. Qed.

Definition timespec_wf (t : Timespec) : Prop := fits 32 (sec t) ∧ fits 32 (nano t).

Lemma reads_timespec t : timespec_wf t → reads read_timespec (write_timespec t) t.
Proof.
  destruct t as [s n]. intros [Hs Hn]. unfold read_timespec, write_timespec.
  eapply reads_bind; [by apply reads_u32|].
  eapply reads_bind_last; [by apply reads_u32|]. apply reads_ret.
Qed.

Lemma reads_until c w : c ∉ w → reads (read_until_r c) (w ++ [c]) (w ++ [c]).
Proof.
  intros Hc rest. unfold read_until_r. rewrite <- app_assoc. simpl.
  by rewrite read_until_app.
Qed.

Lemma but_last_app w c : but_last (w ++ [c]) = Ok w.
Proof.
  unfold but_last. rewrite length_app, Nat.add_sub, take_app_length.
  by destruct w.
Qed.

Lemma reads_ascii_str {T} (from_str : bytes → BitResult T) c w t :
  c ∉ w → utf8_valid w = true → from_str w = Ok t →
  reads (read_ascii_str from_str c) (w ++ [c]) t.
Proof.
  intros Hc Hw Ht. unfold read_ascii_str.
  eapply reads_bind_last; [by apply reads_until|].
  eapply reads_bind_nil; [apply reads_lift, but_last_app|].
  eapply reads_bind_nil; [apply reads_lift; unfold from_utf8_unwrap; by rewrite Hw|].
  by apply reads_lift.
Qed.

Lemma reads_ascii_num c z :
  ¬ is_digit c → c ≠ x2d → - 2 ^ 63 ≤ z < 2 ^ 63 →
  reads (read_ascii_num c) (write_ascii_num z c) z.
Proof.
  intros Hc Hm Hz. unfold read_ascii_num, write_ascii_num.
  eapply reads_bind_last; [by apply reads_until, print_dec_no|].
  eapply reads_bind_nil; [apply reads_lift, but_last_app|].
  eapply reads_bind_nil;
    [apply reads_lift; unfold from_utf8_unwrap; by rewrite utf8_print_dec|].
  apply reads_lift. by rewrite parse_print_signed by lia.
Qed.

Lemma reads_null_terminated {T} (d : reader T) w t :
  x00 ∉ w → (∃ s, d w = Ok (t, s)) → reads (read_null_terminated d) (w ++ [x00]) t.
Proof.
  intros Hw [s Hd]. unfold read_null_terminated.
  eapply reads_bind_last; [by apply reads_until|].
  eapply reads_bind_nil; [apply reads_lift, but_last_app|].
  apply reads_lift. by rewrite Hd.
Qed.

Lemma reads_null_terminated_path p :
  x00 ∉ p → utf8_valid p = true →
  reads read_null_terminated_path (write_null_terminated_path p) p.
Proof.
  intros Hp Hu. apply reads_null_terminated; [done|].
  exists []. unfold read_to_str. by rewrite Hu.
Qed.

Lemma reads_path_skip_n n p :
  x00 ∉ p → (n ≤ length p)%nat →
  reads (read_null_terminated_path_skip_n n) (p ++ [x00]) p.
Proof.
  intros Hp Hn. unfold read_null_terminated_path_skip_n.
  rewrite <- (take_drop n p) in Hp |- *. rewrite not_elem_of_app in Hp.
  destruct Hp as [_ Hd]. rewrite <- app_assoc.
  eapply reads_bind; [apply reads_read_exact; rewrite length_take; lia|].
  eapply reads_bind_last; [by apply reads_until|].
  apply reads_lift. rewrite app_assoc. apply but_last_app.
Qed.

Lemma reads_vec {A} (d : reader A) (enc : A → bytes) (l : list A) :
  Forall (λ a, reads d (enc a) a) l → reads (read_vec d (length l)) (l ≫= enc) l.
Proof.
  induction 1 as [|a l Ha _ IH]; cbn [length read_vec mbind list_bind].
  - apply reads_ret.
  - eapply reads_bind; [exact Ha|].
    eapply reads_bind_last; [exact IH|]. apply reads_ret.
Qed.

#[export] Hint Resolve reads_ret reads_u8 reads_u16 reads_u32 reads_u64 reads_oid
  reads_timespec reads_null_terminated_path : reads.

(** ** Progress of readers *)

(** [shrinks m k]: when [m] succeeds it has consumed at least [k] bytes. *)
Definition shrinks {A} (m : reader A) (k : nat) : Prop :=
  ∀ s a s', m s = Ok (a, s') → (length s' + k ≤ length s)%nat.

Lemma shrinks_ret {A} (a : A) : shrinks (mret a) 0.
Proof. intros s b s' [= <- <-]. lia. Qed.

Lemma shrinks_lift {A} (r : BitResult A) : shrinks (lift r) 0.
Proof. intros s a s'. unfold lift. destruct r; intros; simplify_eq. lia. Qed.

Lemma shrinks_bind {A B} (m : reader A) (f : A → reader B) k1 k2 :
  shrinks m k1 → (∀ a, shrinks (f a) k2) → shrinks (m ≫= f) (k1 + k2).
Proof.
  intros Hm Hf s b s'. unfold mbind, reader_bind.
  destruct (m s) as [[a s1]| |] eqn:E; [|done..]. intros E2.
  apply Hm in E. apply Hf in E2. lia.
Qed.

Lemma shrinks_fmap {A B} (f : A → B) (m : reader A) k : shrinks m k → shrinks (f <$> m) k.
Proof.
  intros Hm s b s'. unfold fmap, reader_fmap.
  destruct (m s) as [[a s1]| |] eqn:E; [|done..]. intros [= _ <-]. by eapply Hm.
Qed.

Lemma shrinks_read_exact n : shrinks (read_exact n) n.
Proof.
  intros s a s'. unfold read_exact. destruct (Nat.leb_spec n (length s)); [|done].
  intros [= _ <-]. rewrite length_drop. lia.
Qed.

Lemma shrinks_read_until c : shrinks (read_until_r c) 0.
Proof.
  intros s a s'. unfold read_until_r. destruct (read_until c s) as [x y] eqn:E.
  intros [= <- <-]. apply read_until_length in E. lia.
Qed.

Lemma shrinks_u8 : shrinks read_u8 1.
Proof. intros [|b s] a s'; [done|]. intros [= _ <-]. simpl. lia. Qed.

Lemma reads_take_all {A} (m : reader A) w a n :
  n = Z.of_nat (length w) → m w = Ok (a, []) → reads (take_all n m) w a.
Proof.
  intros -> Hm rest. unfold take_all. rewrite Nat2Z.id, take_app_length, drop_app_length.
  by rewrite Hm.
Qed.

#[export] Hint Resolve shrinks_ret shrinks_lift shrinks_bind shrinks_fmap shrinks_read_exact
  shrinks_read_until shrinks_u8 : reads.

Lemma read_to_eof_fuel {A} (d : reader A) fuel acc s :
  shrinks d 1 → (length s ≤ fuel)%nat →
  read_to_eof_loop d fuel acc s = read_to_eof_loop d (length s) acc s.
Proof.
  intros Hd. revert fuel acc. induction s as [s IH] using (induction_ltof1 _ length).
  intros fuel acc Hf. destruct s as [|c s]; [by destruct fuel|].
  destruct fuel as [|fuel]; [simpl in Hf; lia|]. cbn [read_to_eof_loop length].
  destruct (d (c :: s)) as [[a s']| |] eqn:E; cbn [mbind outcome_bind]; [|done..].
  apply Hd in E. simpl in E, Hf.
  rewrite (IH s'), (IH s' ltac:(unfold ltof; simpl; lia) (length s)); [done|..];
    unfold ltof; simpl; lia.
Qed.

Lemma read_to_eof_ok {A} (d : reader A) (enc : A → bytes) l : ∀ fuel acc,
  Forall (λ a, reads d (enc a) a ∧ 1 ≤ length (enc a))%nat l → (length l ≤ fuel)%nat →
  read_to_eof_loop d fuel acc (l ≫= enc) = Ok (acc ++ l, []).
Proof.
  induction l as [|a l IH]; intros fuel acc Hl Hf.
  - destruct fuel; cbn; by rewrite app_nil_r.
  - inversion_clear Hl as [|?? [Ha Hlen] Hrest]. destruct fuel as [|fuel]; [simpl in Hf; lia|].
    change ((a :: l) ≫= enc) with (enc a ++ (l ≫= enc)).
    specialize (Ha (l ≫= enc)).
    destruct (enc a ++ (l ≫= enc)) as [|c s] eqn:Es.
    + apply (f_equal length) in Es. rewrite length_app in Es. simpl in Es. lia.
    + cbn [read_to_eof_loop]. rewrite Ha. cbn. rewrite IH by (done || simpl in Hf; lia).
      by rewrite <- app_assoc.
Qed.

(** Elements written one after the other are read back to the end of the input. *)
Lemma read_to_eof_round_trip {A} (d : reader A) (enc : A → bytes) l :
  Forall (λ a, reads d (enc a) a ∧ 1 ≤ length (enc a))%nat l →
  read_to_eof d (l ≫= enc) = Ok (l, []).
Proof.
  intros Hl. unfold read_to_eof. rewrite (read_to_eof_ok d enc); [done|done|].
  apply length_bind_ge. intros a Ha. rewrite Forall_forall in Hl. by apply Hl.
Qed.

(** A sequence of elements written with [write_iter] is read back with
    [read_vec]. *)
Lemma write_iter_reads {A} `{RoundTrip A wf} (l : list A) :
  Forall wf l → ∃ w, write_iter l = Ok w ∧ reads (read_vec deserialize (length l)) w l.
Proof.
  induction 1 as [|a l Ha _ (ws & Hws & Hr)]; cbn [write_iter length read_vec].
  - exists []. split; [done|apply reads_ret].
  - destruct (round_trip a Ha) as (w & Hw & Hra). rewrite Hw, Hws. cbn [mbind outcome_bind].
    eexists. split; [reflexivity|]. eapply reads_bind; [exact Hra|].
    eapply reads_bind_last; [exact Hr|]. apply reads_ret.
Qed.
