(* ===== verification/Varint.v ===== *)
(** * Varint

    The variable-length integers of packfiles: reference encoders, written from
    the description of the formats, and the theorems that [read_size],
    [read_le_varint_with_shift], [read_offset] and [read_le_packed]
    ([libbit/src/io.rs]) decode what they produce. *)

From Stdlib Require Import ZArith Lia.
From Stdlib Require Import Strings.Byte.
From stdpp Require Import base tactics option list countable strings.
From S2P Require Import Prelude RustStd Data Io.

#[local] Open Scope Z_scope.

(** ** Reference encoders *)

(** Seven bits per byte, least significant first; all bytes but the last one
    have their most significant bit set. *)
Fixpoint size_encode (fuel : nat) (n : Z) : bytes :=
  match fuel with
  | O => []
  | S fuel =>
      if n <? 128 then [byte_of_Z n]
      else byte_of_Z (128 + n mod 128) :: size_encode fuel (n / 128)
  end.

(** The same after [s] bits [k] at the top of the first byte. *)
Definition size_encode_with (s k n : Z) : bytes :=
  let low := k * 2 ^ (7 - s) + n mod 2 ^ (7 - s) in
  if n <? 2 ^ (7 - s) then [byte_of_Z low]
  else byte_of_Z (128 + low) :: size_encode 10 (n / 2 ^ (7 - s)).

(** Seven bits per byte, most significant first, each continuation standing for
    one more than its bits. *)
Fixpoint offset_encode_cont (fuel : nat) (n : Z) : bytes :=
  match fuel with
  | O => []
  | S fuel =>
      if n <? 128 then [byte_of_Z (128 + n)]
      else offset_encode_cont fuel (n / 128 - 1) ++ [byte_of_Z (128 + n mod 128)]
  end.

Definition offset_encode (n : Z) : bytes :=
  if n <? 128 then [byte_of_Z n]
  else offset_encode_cont 10 (n / 128 - 1) ++ [byte_of_Z (n mod 128)].

(** The bytes of [v], little-endian, that the bits of [header] announce, from
    byte [7 - left]. *)
Fixpoint packed_encode (left : nat) (header v : Z) : bytes :=
  match left with
  | O => []
  | S left' =>
      let i := 7 - Z.of_nat left in
      (if Z.testbit header i then [byte_of_Z (v / 2 ^ (8 * i))] else [])
      ++ packed_encode left' header v
  end.

(** Every byte of [v] that the header leaves out is zero. *)
Definition packed_covers (header v : Z) : Prop :=
  ∀ i, 0 ≤ i < 7 → Z.testbit header i = false → v / 2 ^ (8 * i) mod 256 = 0.

(** ** Bits *)

Lemma lor_add_shift a b s :
  0 ≤ s → 0 ≤ a < 2 ^ s → Z.lor a (b * 2 ^ s) = a + b * 2 ^ s.
Proof.
  intros Hs Ha. rewrite <- Z.add_lor_land.
  enough (Z.land a (b * 2 ^ s) = 0) as -> by lia.
  rewrite <- Z.shiftl_mul_pow2 by done. apply Z.bits_inj'. intros i Hi.
  rewrite Z.land_spec, Z.bits_0, Z.shiftl_spec by done.
  destruct (Z.lt_ge_cases i s) as [Hlt|Hge].
  - by rewrite (Z.testbit_neg_r b), andb_false_r by lia.
  - rewrite <- (Z.mod_small a (2 ^ s)), Z.mod_pow2_bits_high by lia. done.
Qed.

Lemma land_7f b : Z.land b 0x7f = b mod 128.
Proof. apply (Z.land_ones b 7). lia. Qed.

Lemma msb_clear b : 0 ≤ b < 128 → (Z.land b 0x80 =? 0) = true.
Proof.
  intros Hb. apply Z.eqb_eq, Z.bits_inj'. intros i Hi.
  rewrite Z.land_spec, Z.bits_0.
  destruct (Z.lt_ge_cases i 7).
  - apply andb_false_intro2. change 0x80 with (2 ^ 7).
    apply Z.pow2_bits_false. lia.
  - apply andb_false_intro1. rewrite <- (Z.mod_small b (2 ^ 7)) by lia.
    by rewrite Z.mod_pow2_bits_high by lia.
Qed.

Lemma msb_set b : 128 ≤ b < 256 → (Z.land b 0x80 =? 0) = false.
Proof.
  intros Hb. apply Z.eqb_neq. intros H.
  apply (f_equal (λ z, Z.testbit z 7)) in H.
  rewrite Z.land_spec, Z.bits_0 in H. change (Z.testbit 0x80 7) with true in H.
  rewrite andb_true_r, Z.testbit_eqb in H by lia.
  replace (b / 2 ^ 7) with 1 in H; [done|].
  symmetry. change (2 ^ 7) with 128. symmetry; apply (Z.div_unique b 128 1 (b - 128)); lia.
Qed.

Lemma shl64_small x s : 0 ≤ s < 64 → 0 ≤ x → x * 2 ^ s < 2 ^ 64 → shl64 x s = x * 2 ^ s.
Proof.
  intros Hs Hx Hb. unfold shl64. rewrite (Z.mod_small s) by lia.
  rewrite Z.shiftl_mul_pow2 by lia. apply wrap_fits. unfold fits. nia.
Qed.

Lemma u8_small z : 0 ≤ z < 256 → u8 (byte_of_Z z) = z.
Proof. intros. rewrite u8_byte_of_Z. by apply Z.mod_small. Qed.

(** ** Sizes *)

Lemma read_le_varint_loop_spec fuel acc s n :
  0 ≤ s < 64 → 0 ≤ acc < 2 ^ s → 0 ≤ n → acc + n * 2 ^ s < 2 ^ 64 →
  n < 128 ^ Z.of_nat fuel → (0 < fuel)%nat →
  reads (read_le_varint_loop acc s) (size_encode fuel n) (acc + n * 2 ^ s).
Proof.
  revert acc s n. induction fuel as [|fuel IH]; intros acc s n Hs Ha Hn Hb Hf Hfuel; [lia|].
  assert (0 < 2 ^ s) by lia. cbn [size_encode].
  destruct (Z.ltb_spec n 128) as [Hlt|Hge]; intros rest; cbn [app read_le_varint_loop].
  - rewrite u8_small, land_7f, Z.mod_small, msb_clear, shl64_small by nia.
    by rewrite lor_add_shift by lia.
  - pose proof (Z.mod_pos_bound n 128 ltac:(lia)).
    pose proof (Z.div_mod n 128 ltac:(lia)) as Hdm.
    assert (1 ≤ n / 128) by (apply Z.div_le_lower_bound; lia).
    rewrite u8_small, land_7f, msb_set by lia.
    replace ((128 + n mod 128) mod 128) with (n mod 128)
      by (rewrite <- Z.add_mod_idemp_l by lia; change (128 mod 128) with 0;
          by rewrite Z.add_0_l, Z.mod_mod by lia).
    rewrite shl64_small, lor_add_shift by nia.
    assert (s + 7 < 64).
    { apply Z.nle_gt. intros ?.
      assert (2 ^ 64 ≤ 2 ^ (s + 7)) by (apply Z.pow_le_mono_r; lia).
      rewrite Z.pow_add_r in * by lia. nia. }
    rewrite wrap_fits by (unfold fits; lia).
    rewrite Nat2Z.inj_succ, Z.pow_succ_r in Hf by lia.
    assert (fuel ≠ 0%nat) by (intros ->; simpl in Hf; lia).
    assert (n / 128 < 128 ^ Z.of_nat fuel) by (apply Z.div_lt_upper_bound; lia).
    assert (n / 128 * 128 * 2 ^ s = n * 2 ^ s - n mod 128 * 2 ^ s) by nia.
    rewrite (IH (acc + n mod 128 * 2 ^ s) (s + 7) (n / 128));
      rewrite ?Z.pow_add_r by lia; try lia; try nia.
    do 2 f_equal. change (2 ^ 7) with 128. nia.
Qed.

(** The first byte of [size_encode_with], split by the masks. *)
Lemma first_byte_split s k r hi :
  0 ≤ s < 8 → 0 ≤ k < 2 ^ s → 0 ≤ r < 2 ^ (7 - s) →
  let b := hi * 128 + (k * 2 ^ (7 - s) + r) in
  Z.shiftr (Z.land b (Z.shiftl (Z.shiftl 1 s - 1) (7 - s))) (7 - s) = k
  ∧ Z.land b (Z.shiftl 1 (7 - s) - 1) = r.
Proof.
  intros Hs Hk Hr b. assert (b = (hi * 2 ^ s + k) * 2 ^ (7 - s) + r) as Hb.
  { subst b. replace 128 with (2 ^ s * 2 ^ (7 - s)); [lia|].
    rewrite <- Z.pow_add_r by lia. by replace (s + (7 - s)) with 7 by lia. }
  split.
  - rewrite Z.shiftr_land, Z.shiftr_shiftl_l, Z.sub_diag, Z.shiftl_0_r by lia.
    rewrite Z.shiftr_div_pow2, Z.shiftl_1_l, Z.sub_1_r, <- Z.ones_equiv, Z.land_ones, Hb by lia.
    rewrite Z.div_add_l, (Z.div_small r), Z.add_0_r by lia.
    rewrite Z.add_comm, Z.mod_add by lia. by apply Z.mod_small.
  - rewrite Z.shiftl_1_l, Z.sub_1_r, <- Z.ones_equiv, Z.land_ones, Hb by lia.
    rewrite Z.add_comm, Z.mod_add by lia. by apply Z.mod_small.
Qed.

Lemma first_byte_range s k r :
  0 ≤ s < 8 → 0 ≤ k < 2 ^ s → 0 ≤ r < 2 ^ (7 - s) → 0 ≤ k * 2 ^ (7 - s) + r < 128.
Proof.
  intros Hs Hk Hr. replace 128 with (2 ^ s * 2 ^ (7 - s)); [nia|].
  rewrite <- Z.pow_add_r by lia. by replace (s + (7 - s)) with 7 by lia.
Qed.
Lemma reads_le_varint_with_shift s k n :
  0 ≤ s < 8 → 0 ≤ k < 2 ^ s → fits 64 n →
  reads (read_le_varint_with_shift s) (size_encode_with s k n) (k, n).
Proof.
  intros Hs Hk [Hn Hn64]. unfold read_le_varint_with_shift, size_encode_with.
  assert (2 ^ (7 - s) ≤ 128) as Ha by (apply (Z.pow_le_mono_r 2 (7 - s) 7); lia).
  assert (0 < 2 ^ (7 - s)) by (apply Z.pow_pos_nonneg; lia).
  pose proof (Z.mod_pos_bound n (2 ^ (7 - s)) ltac:(lia)) as Hr.
  pose proof (first_byte_range s k _ Hs Hk Hr) as Hb.
  pose proof (first_byte_split s k _ 0 Hs Hk Hr) as [Hk0 Hr0].
  pose proof (first_byte_split s k _ 1 Hs Hk Hr) as [Hk1 Hr1].
  rewrite Z.mul_0_l, Z.add_0_l in Hk0, Hr0. rewrite Z.mul_1_l in Hk1, Hr1.
  set (low := k * 2 ^ (7 - s) + n mod 2 ^ (7 - s)) in *.
  eapply reads_bind_nil; [apply reads_lift; destruct (Z.ltb_spec s 8); [done|lia]|].
  rewrite (wrap_fits 8 (Z.shiftl _ _)).
  2: { unfold fits. rewrite Z.shiftl_mul_pow2, Z.shiftl_1_l by lia.
       pose proof (first_byte_range s (2 ^ s - 1) 0 Hs). lia. }
  destruct (Z.ltb_spec n (2 ^ (7 - s))) as [Hlt|Hge].
  - eapply reads_bind_last; [apply reads_u8; unfold fits; lia|].
    rewrite msb_clear, Hk0, Hr0, Z.lor_0_l, Z.mod_small by lia. apply reads_ret.
  - change (?b :: ?l) with ([b] ++ l).
    eapply reads_bind; [apply (reads_u8 (128 + low)); unfold fits; lia|].
    rewrite msb_set, Hk1, Hr1, Z.lor_0_l by lia. cbn [negb].
    eapply reads_bind_last; [|apply reads_ret].
    pose proof (Z.div_mod n (2 ^ (7 - s)) ltac:(lia)).
    assert (0 ≤ n / 2 ^ (7 - s)) by (apply Z.div_pos; lia).
    assert (n / 2 ^ (7 - s) ≤ n) by nia.
    assert (2 ^ 64 < 128 ^ Z.of_nat 10) by done.
    eapply reads_eq; [apply read_le_varint_loop_spec; lia|]. lia.
Qed.

(** ** Offsets *)

Lemma read_offset_cont fuel m :
  0 ≤ m → (m + 1) * 128 ≤ 2 ^ 64 → m < 128 ^ Z.of_nat fuel → (0 < fuel)%nat →
  ∃ b, 128 ≤ b < 256 ∧
    ∀ s, read_offset (offset_encode_cont fuel m ++ s) = read_offset_loop m b s.
Proof.
  revert m. induction fuel as [|fuel IH]; intros m Hm Hb Hf Hfuel; [lia|].
  cbn [offset_encode_cont]. destruct (Z.ltb_spec m 128) as [Hlt|Hge].
  - exists (128 + m). split; [lia|]. intros s. unfold read_offset, mbind, reader_bind. simpl.
    rewrite u8_small, land_7f by lia.
    replace ((128 + m) mod 128) with m; [done|].
    apply (Z.mod_unique _ _ 1); lia.
  - pose proof (Z.mod_pos_bound m 128 ltac:(lia)) as Hr.
    pose proof (Z.div_mod m 128 ltac:(lia)) as Hdm.
    assert (1 ≤ m / 128) by (apply Z.div_le_lower_bound; lia).
    rewrite Nat2Z.inj_succ, Z.pow_succ_r in Hf by lia.
    assert (m / 128 < 128 ^ Z.of_nat fuel) by (apply Z.div_lt_upper_bound; lia).
    assert (fuel ≠ 0%nat) by (intros ->; simpl in *; lia).
    destruct (IH (m / 128 - 1)) as (b & Hb1 & Hs); [lia..|].
    exists (128 + m mod 128). split; [lia|]. intros s. rewrite <- app_assoc, Hs.
    cbn [app read_offset_loop]. rewrite msb_set, u8_small, land_7f by lia.
    rewrite wrap_fits by (unfold fits; lia).
    rewrite shl64_small by lia. rewrite Z.lor_comm.
    replace ((128 + m mod 128) mod 128) with (m mod 128) by (apply (Z.mod_unique _ _ 1); lia).
    rewrite lor_add_shift by lia. f_equal. lia.
Qed.

Lemma reads_offset n : fits 64 n → reads read_offset (offset_encode n) n.
Proof.
  intros [Hn Hn64] rest. unfold offset_encode. destruct (Z.ltb_spec n 128) as [Hlt|Hge].
  - unfold read_offset, mbind, reader_bind. cbn [app read_u8].
    rewrite u8_small, land_7f, Z.mod_small by lia.
    destruct rest; cbn [read_offset_loop]; by rewrite msb_clear by lia.
  - pose proof (Z.mod_pos_bound n 128 ltac:(lia)) as Hr.
    pose proof (Z.div_mod n 128 ltac:(lia)) as Hdm.
    assert (1 ≤ n / 128) by (apply Z.div_le_lower_bound; lia).
    assert (2 ^ 64 < 128 ^ Z.of_nat 10) by done.
    destruct (read_offset_cont 10 (n / 128 - 1)) as (b & Hb1 & Hs); [lia..|].
    rewrite <- app_assoc, Hs. cbn [app read_offset_loop].
    rewrite msb_set, u8_small, land_7f, (Z.mod_small (n mod 128)) by lia.
    rewrite wrap_fits by (unfold fits; lia).
    rewrite shl64_small, Z.lor_comm, lor_add_shift by lia.
    replace (n mod 128 + (n / 128 - 1 + 1) * 2 ^ 7) with n by lia.
    destruct rest; cbn [read_offset_loop]; by rewrite msb_clear by lia.
Qed.

(** ** Packed integers *)

Lemma land_bit h i : 0 ≤ i → (Z.land h (Z.shiftl 1 i) =? 0) = negb (Z.testbit h i).
Proof.
  intros Hi. rewrite Z.shiftl_1_l. destruct (Z.testbit h i) eqn:Ht; simpl.
  - apply Z.eqb_neq. intros H. apply (f_equal (λ z, Z.testbit z i)) in H.
    rewrite Z.land_spec, Ht, Z.pow2_bits_true, Z.bits_0 in H by done. done.
  - apply Z.eqb_eq, Z.bits_inj'. intros j Hj. rewrite Z.land_spec, Z.bits_0.
    destruct (decide (i = j)) as [->|]; [by rewrite Ht|].
    by rewrite Z.pow2_bits_false, andb_false_r by done.
Qed.

Lemma byte_of_Z_mod z : byte_of_Z (z mod 256) = byte_of_Z z.
Proof. unfold byte_of_Z. by rewrite Z.mod_mod. Qed.

Lemma mod_next_byte v i :
  0 ≤ i → v mod 2 ^ (8 * (i + 1)) = v mod 2 ^ (8 * i) + (v / 2 ^ (8 * i) mod 256) * 2 ^ (8 * i).
Proof.
  intros Hi. replace (8 * (i + 1)) with (8 * i + 8) by lia.
  rewrite Z.pow_add_r, Z.rem_mul_r by lia. change (2 ^ 8) with 256. lia.
Qed.

Lemma read_le_packed_loop_spec left h v :
  (left ≤ 7)%nat → packed_covers h v →
  let i := 7 - Z.of_nat left in
  reads (read_le_packed_loop left h (v mod 2 ^ (8 * i))) (packed_encode left h v) (v mod 2 ^ 56).
Proof.
  intros Hl Hc. induction left as [|left IH]; intros i;
    cbn [read_le_packed_loop packed_encode]; [apply reads_ret|].
  subst i. set (i := 7 - Z.of_nat (S left)) in *.
  replace (7 - Z.of_nat left) with (i + 1) in IH by lia.
  cbv zeta in IH. rewrite (mod_next_byte v i) in IH by lia.
  rewrite land_bit by lia. destruct (Z.testbit h i) eqn:Ht; cbn [negb].
  - pose proof (Z.mod_pos_bound (v / 2 ^ (8 * i)) 256 ltac:(lia)) as Hby.
    rewrite <- (byte_of_Z_mod (v / _)).
    eapply reads_bind; [by apply reads_u8|].
    assert (0 < 2 ^ (8 * i) ≤ 2 ^ 48) by (split; [lia|apply Z.pow_le_mono_r; lia]).
    rewrite (Z.mul_comm i), shl64_small by nia.
    rewrite lor_add_shift by (try apply Z.mod_pos_bound; lia). apply IH. lia.
  - rewrite (Hc i), Z.mul_0_l, Z.add_0_r in IH by (done || lia). by apply IH; lia.
Qed.

Lemma reads_le_packed h v :
  0 ≤ v < 2 ^ 56 → packed_covers h v → reads (read_le_packed h) (packed_encode 7 h v) v.
Proof.
  intros Hv Hc. pose proof (read_le_packed_loop_spec 7 h v ltac:(lia) Hc) as H.
  cbv zeta in H. change (8 * (7 - Z.of_nat 7)) with 0 in H. rewrite Z.mod_1_r in H.
  by rewrite Z.mod_small in H.
Qed.
