(* ===== verification/Hash.v ===== *)
(** * Hash

    [libbit/src/hash.rs] and [libbit/src/obj/obj_id.rs]: object ids, their
    hexadecimal form, and partial object ids.  The hexadecimal codecs are the
    crates [rustc_hex] and [hex]; they are the operations of the class [Hex],
    whose laws are what their documentation states. *)

From Stdlib Require Import ZArith Lia.
From Stdlib Require Import Strings.Byte.
From stdpp Require Import base tactics option list countable strings.
From S2P Require Import Prelude RustStd Data Io.

#[local] Open Scope Z_scope.

(** ** Hexadecimal digits *)

(** [char::is_ascii_hexdigit]. *)
Definition is_ascii_hexdigit (b : byte) : bool := bool_decide (is_Some (digit_val 16 b)).

(** The value of a hexadecimal digit (0 for another character). *)
Definition nibble (b : byte) : Z := default 0 (digit_val 16 b).

(** The half bytes of a byte string, most significant first. *)
Definition nibbles (l : bytes) : list Z := l ≫= λ b, [u8 b / 16; u8 b mod 16].

(** The bytes that consecutive pairs of half bytes make. *)
Fixpoint pack_nibbles (l : list Z) : bytes :=
  match l with
  | h :: l :: rest => byte_of_Z (h * 16 + l) :: pack_nibbles rest
  | _ => []
  end.

(** The crates [rustc_hex] ([to_hex], [from_hex]) and [hex] ([hex_decode]): the
    digits, the round trip, and the rejection of characters that are neither digits
    nor white space. *)
Class Hex := {
  to_hex : bytes → bytes;
  from_hex : bytes → option bytes;
  hex_decode : bytes → option bytes;
  to_hex_spec : ∀ b, to_hex b = digit_char <$> nibbles b;
  from_to_hex : ∀ b, from_hex (to_hex b) = Some b;
  from_hex_invalid : ∀ s c, c ∈ s → is_ascii_hexdigit c = false → is_ascii_ws c = false →
    from_hex s = None;
  hex_decode_digits : ∀ s, Forall is_ascii_hexdigit s → Nat.even (length s) = true →
    hex_decode s = Some (pack_nibbles (nibble <$> s));
}.

(** ** hash.rs *)

Definition OID_SIZE : nat := 20.

Definition EMPTY_BLOB : Oid :=
  [xe6; x9d; xe2; x9b; xb2; xd1; xd6; x43; x4b; x8b; x29; xae; x77; x5a; xd8;
   xc2; xe4; x8c; x53; x91].
Definition EMPTY_TREE : Oid :=
  [x4b; x82; x5d; xc6; x42; xcb; x6e; xb9; xa0; x60; xe5; x4b; xf8; xd6; x92;
   x88; xfb; xee; x49; x04].
Definition UNKNOWN : Oid := replicate 20 x00.

Definition is_unknown (oid : Oid) : bool := bool_decide (oid = UNKNOWN).
Definition is_known (oid : Oid) : bool := bool_decide (oid ≠ UNKNOWN).

(** [derive(Ord)]. *)
Definition oid_cmp (a b : Oid) : comparison := bytes_compare a b.

Section hex.
Context `{Hex}.

(** [Display for SHA1Hash] ([{}]) and [to_hex]. *)
Definition oid_display (oid : Oid) : bytes := to_hex oid.

(** [short] and the alternate [Display]. *)
Definition oid_short (oid : Oid) : bytes := take 7 (oid_display oid).

(** [FromStr for SHA1Hash].  [into_inner_unchecked] on a vector that is not full
    is undefined behaviour; the model panics there. *)
Definition oid_from_str (s : bytes) : BitResult Oid :=
  let s := trim_end s in
  _ ← ensure (length s =? 40)%nat Anyhow;
  b ← ok_or Anyhow (from_hex s);
  _ ← assert_that (length b =? 20)%nat;
  Ok b.

(** ** obj_id.rs *)

(** [FromStr for PartialOid]. *)
Definition partial_oid_from_str (s : bytes) : BitResult PartialOid :=
  _ ← ensure (negb (length s =? 40)%nat) Anyhow;
  _ ← ensure (length s <? 40)%nat Anyhow;
  _ ← ensure (4 <=? length s)%nat Anyhow;
  _ ← ensure (forallb is_ascii_hexdigit s) Anyhow;
  Ok (mk_PartialOid (s ++ replicate (40 - length s) x30) (length s)).

(** [Display for PartialOid]. *)
Definition partial_oid_display (p : PartialOid) : bytes := take (po_len p) (po_bytes p).

(** [PartialOid::into_oid]. *)
Definition partial_into_oid (p : PartialOid) : BitResult Oid :=
  b ← ok_or Anyhow (hex_decode (po_bytes p));
  fst <$> read_oid b.

(** [PartialOid::split]. *)
Definition partial_split (p : PartialOid) : bytes * bytes :=
  (take 2 (po_bytes p), drop 2 (take (po_len p) (po_bytes p))).

(** [Oid::has_prefix]. *)
Definition has_prefix (oid : Oid) (prefix : PartialOid) : BitResult bool :=
  prefix_bytes ← partial_into_oid prefix;
  let n := (po_len prefix / 2)%nat in
  let mask := if Nat.even (po_len prefix) then 0x00 else 0xf0 in
  x ← unwrap (prefix_bytes !! n);
  y ← unwrap (oid !! n);
  Ok (bool_decide (take n prefix_bytes = take n oid)
      && bool_decide (u8 x = Z.land (u8 y) mask)).

(** [BitId::into_oid]. *)
Definition bitid_into_oid (id : BitId) : BitResult Oid :=
  match id with Full v => Ok v | Partial _ => Panic end.

(** [FromStr for BitId]. *)
Definition bitid_from_str (s : bytes) : BitResult BitId :=
  match Nat.compare (length s) 40 with
  | Lt => match partial_oid_from_str s with Ok p => Ok (Partial p) | _ => Panic end
  | Eq => match oid_from_str s with Ok o => Ok (Full o) | _ => Panic end
  | Gt => bail
  end.

(** [Display for BitId]. *)
Definition bitid_display (id : BitId) : bytes :=
  match id with Full oid => oid_display oid | Partial p => partial_oid_display p end.

End hex.

(** A concrete codec that satisfies the laws. *)
Definition ref_hex_decode (s : bytes) : option bytes :=
  if forallb is_ascii_hexdigit s && Nat.even (length s)
  then Some (pack_nibbles (nibble <$> s)) else None.

(** ** Lemmas *)

Lemma nibbles_cons b l : nibbles (b :: l) = u8 b / 16 :: u8 b mod 16 :: nibbles l.
Proof. done. Qed.

Definition nibble_wf (z : Z) : Prop := 0 ≤ z < 16.

Lemma nibbles_wf l : Forall nibble_wf (nibbles l).
Proof.
  induction l as [|b l IH]; [constructor|]. rewrite nibbles_cons.
  pose proof (u8_range b). repeat constructor; try done; unfold nibble_wf.
  - apply Z.div_pos; lia.
  - apply Z.div_lt_upper_bound; lia.
  - apply Z.mod_pos_bound; lia.
  - apply Z.mod_pos_bound; lia.
Qed.

Lemma length_nibbles l : length (nibbles l) = (2 * length l)%nat.
Proof. induction l as [|b l IH]; [done|]. rewrite nibbles_cons. simpl. lia. Qed.

Lemma pack_nibbles_of l : pack_nibbles (nibbles l) = l.
Proof.
  induction l as [|b l IH]; [done|]. rewrite nibbles_cons. simpl. rewrite IH.
  f_equal. apply u8_inj. rewrite u8_byte_of_Z. pose proof (u8_range b).
  rewrite Z.mod_small; pose proof (Z.div_mod (u8 b) 16); lia.
Qed.

Lemma even_ind2 {A} (P : list A → Prop) :
  P [] → (∀ a b l, P l → P (a :: b :: l)) → ∀ l, Nat.even (length l) = true → P l.
Proof.
  intros H0 H2. fix IH 1. intros [|a [|b l]] He; [done|done|]. apply H2, IH, He.
Qed.

Lemma nibbles_of_pack l :
  Forall nibble_wf l → Nat.even (length l) = true → nibbles (pack_nibbles l) = l.
Proof.
  intros Hl He. revert l He Hl. apply (even_ind2 (λ l, Forall nibble_wf l → _)); [done|].
  intros a b l IH Hl. inversion_clear Hl as [|?? Ha Hl']. inversion_clear Hl' as [|?? Hb Hl].
  unfold nibble_wf in *. cbn [pack_nibbles]. rewrite nibbles_cons, IH by done.
  rewrite u8_byte_of_Z, (Z.mod_small (a * 16 + b)) by lia.
  rewrite Z.div_add_l, Z.div_small, Z.add_0_r by lia.
  by rewrite (Z.add_comm (a * 16)), Z.mod_add, Z.mod_small by lia.
Qed.

Lemma length_pack_nibbles l :
  Nat.even (length l) = true → length (pack_nibbles l) = (length l / 2)%nat.
Proof.
  intros He. revert l He. apply even_ind2; [done|]. intros a b l IH.
  cbn [pack_nibbles length]. rewrite IH.
  replace (S (S (length l))) with (length l + 1 * 2)%nat by lia.
  rewrite Nat.div_add by lia. lia.
Qed.

Lemma digit_val_some b d : digit_val 16 b = Some d → nibble_wf d.
Proof. intros H%digit_val_range. done. Qed.

Lemma nibble_wf_nibble b : nibble_wf (nibble b).
Proof.
  unfold nibble. destruct (digit_val 16 b) eqn:E; simpl; [by apply digit_val_some in E|].
  unfold nibble_wf; lia.
Qed.

Lemma nibble_digit_char d : nibble_wf d → nibble (digit_char d) = d.
Proof. intros H. unfold nibble. by rewrite digit_val_char by (done || lia). Qed.

Lemma digit_char_hexdigit d : nibble_wf d → is_ascii_hexdigit (digit_char d) = true.
Proof.
  intros H. unfold is_ascii_hexdigit. apply bool_decide_eq_true.
  rewrite digit_val_char by (done || lia). eauto.
Qed.

Lemma hexdigit_is_digit b : is_ascii_hexdigit b = true → is_digit b.
Proof.
  unfold is_ascii_hexdigit, digit_val, is_digit. rewrite bool_decide_eq_true.
  intros [d Hd]. repeat case_match; simplify_eq/=;
    rewrite ?andb_true_iff, ?Z.leb_le in *; lia.
Qed.

Lemma even_double n : Nat.even (2 * n) = true.
Proof. rewrite Nat.even_spec. by exists n. Qed.

Lemma map_nibble_digit_char l : Forall nibble_wf l → nibble <$> (digit_char <$> l) = l.
Proof.
  induction 1; simpl; [done|]. f_equal; [by apply nibble_digit_char|done].
Qed.

Lemma digit_chars_hexdigits l : Forall nibble_wf l → Forall is_ascii_hexdigit (digit_char <$> l).
Proof.
  induction 1; simpl; constructor; [|done]. by apply Is_true_true, digit_char_hexdigit.
Qed.

Lemma forallb_Forall {A} (f : A → bool) l : forallb f l = true ↔ Forall f l.
Proof.
  rewrite forallb_forall, Forall_forall. setoid_rewrite list_elem_of_In.
  split; intros Hf x Hx; specialize (Hf x Hx); by apply Is_true_true.
Qed.

#[export] Program Instance ref_hex : Hex := {|
  to_hex b := digit_char <$> nibbles b;
  from_hex := ref_hex_decode;
  hex_decode := ref_hex_decode;
|}.
Next Obligation. done. Qed.
Next Obligation.
  intros b. simpl. unfold ref_hex_decode.
  pose proof (nibbles_wf b) as Hb. pose proof (digit_chars_hexdigits _ Hb) as Hd.
  apply forallb_Forall in Hd. rewrite Hd. rewrite length_fmap, length_nibbles, even_double.
  simpl. by rewrite map_nibble_digit_char, pack_nibbles_of.
Qed.
Next Obligation.
  intros s c Hc Hx _. simpl. unfold ref_hex_decode.
  destruct (forallb is_ascii_hexdigit s) eqn:Hs; [|done].
  apply forallb_Forall in Hs. rewrite Forall_forall in Hs.
  specialize (Hs c Hc). by rewrite Hx in Hs.
Qed.
Next Obligation.
  intros s Hs He. unfold ref_hex_decode. apply forallb_Forall in Hs. by rewrite Hs, He.
Qed.

Section hex_lemmas.
Context `{Hex}.

Lemma oid_display_digits oid : Forall is_digit (oid_display oid).
Proof.
  unfold oid_display. rewrite to_hex_spec. eapply Forall_impl; [apply digit_chars_hexdigits, nibbles_wf|].
  intros b Hb. by apply hexdigit_is_digit, Is_true_true.
Qed.

Lemma length_oid_display oid : length (oid_display oid) = (2 * length oid)%nat.
Proof. unfold oid_display. by rewrite to_hex_spec, length_fmap, length_nibbles. Qed.

(** An id is read back from its hexadecimal form, whatever white space follows. *)
Lemma oid_from_str_display oid ws :
  oid_wf oid → Forall ws1 ws → oid_from_str (oid_display oid ++ ws) = Ok oid.
Proof.
  intros Hoid Hws. unfold oid_from_str.
  rewrite trim_end_app by (done || apply digits_no_trailing_ws, oid_display_digits).
  rewrite length_oid_display, Hoid. cbn. unfold oid_display.
  rewrite from_to_hex. cbn. by rewrite Hoid.
Qed.

Lemma oid_display_inj a b : oid_display a = oid_display b → a = b.
Proof.
  intros E. apply (f_equal from_hex) in E. unfold oid_display in E.
  rewrite !from_to_hex in E. congruence.
Qed.

Lemma take_even_prefix {A} (l : list A) n : take n l `prefix_of` l.
Proof. exists (drop n l). by rewrite take_drop. Qed.

Lemma nibbles_take n l : nibbles (take n l) = take (2 * n) (nibbles l).
Proof.
  revert n; induction l as [|b l IH]; intros [|n]; [done..|].
  rewrite firstn_cons, !nibbles_cons, IH.
  by replace (2 * S n)%nat with (S (S (2 * n))) by lia.
Qed.

Lemma nibbles_inj a b : nibbles a = nibbles b → a = b.
Proof. intros E. by rewrite <- (pack_nibbles_of a), E, pack_nibbles_of. Qed.

Lemma nibbles_lookup l n b : l !! n = Some b → nibbles l !! (2 * n)%nat = Some (u8 b / 16).
Proof.
  revert n; induction l as [|c l IH]; intros [|n]; [done..| |].
  - by intros [= ->].
  - intros E%IH. rewrite nibbles_cons. by replace (2 * S n)%nat with (S (S (2 * n))) by lia.
Qed.

(** What a partial id made by [from_str] consists of. *)
Lemma partial_oid_from_str_ok s p :
  partial_oid_from_str s = Ok p ↔
  (4 ≤ length s < 40)%nat ∧ Forall is_ascii_hexdigit s ∧
  p = mk_PartialOid (s ++ replicate (40 - length s) x30) (length s).
Proof.
  unfold partial_oid_from_str, ensure.
  destruct (Nat.eqb_spec (length s) 40); cbn [mbind outcome_bind negb]; [split; [done|intros (?&?&?); lia]|].
  destruct (Nat.ltb_spec (length s) 40); cbn [mbind outcome_bind];
    [|split; [done|intros (?&?&?); lia]].
  destruct (Nat.leb_spec 4 (length s)); cbn [mbind outcome_bind];
    [|split; [done|intros (?&?&?); lia]].
  destruct (forallb is_ascii_hexdigit s) eqn:Ef; cbn [mbind outcome_bind].
  - apply forallb_Forall in Ef. split; [intros [= <-]; done|by intros (?&?&->)].
  - split; [done|]. rewrite <- forallb_Forall. intros (?&?&?). congruence.
Qed.

Lemma partial_into_oid_ok s p :
  partial_oid_from_str s = Ok p →
  partial_into_oid p = Ok (pack_nibbles ((nibble <$> s) ++ replicate (40 - length s) 0)).
Proof.
  intros (Hl & Hs & ->)%partial_oid_from_str_ok. unfold partial_into_oid. cbn [po_bytes].
  assert (length (s ++ replicate (40 - length s) x30) = 40%nat) as Hlen
    by (rewrite length_app, length_replicate; lia).
  rewrite hex_decode_digits; [|apply Forall_app; split; [done|by apply Forall_replicate]|by rewrite Hlen].
  cbn. rewrite fmap_app, fmap_replicate. change (nibble x30) with 0.
  assert (length (pack_nibbles ((nibble <$> s) ++ replicate (40 - length s) 0)) = 20%nat) as H20.
  { rewrite length_pack_nibbles; rewrite length_app, length_fmap, length_replicate;
      by replace (length s + (40 - length s))%nat with 40%nat by lia. }
  pose proof (reads_oid _ H20 []) as Hr. rewrite app_nil_r in Hr.
  unfold write_oid in Hr. by rewrite Hr.
Qed.

Lemma nibbles_lookup_lo l n b :
  l !! n = Some b → nibbles l !! S (2 * n) = Some (u8 b mod 16).
Proof.
  revert n; induction l as [|c l IH]; intros [|n]; [done..| |].
  - by intros [= ->].
  - intros E%IH. rewrite nibbles_cons. by replace (2 * S n)%nat with (S (S (2 * n))) by lia.
Qed.

Lemma land_f0 b : Z.land (u8 b) 0xf0 = u8 b / 16 * 16.
Proof. by destruct b. Qed.

Lemma prefix_take {A} (k l : list A) : k `prefix_of` l ↔ take (length k) l = k.
Proof.
  split; [intros [t ->]; apply take_app_length|intros <-; apply take_even_prefix].
Qed.

(** The comparison that [has_prefix] makes on whole bytes and a masked half byte
    is the comparison of the half bytes. *)
Lemma prefix_compare (P oid : bytes) (v z : list Z) (n : nat) x y :
  nibbles P = v ++ z → (length v = 2 * n ∨ length v = S (2 * n))%nat →
  (∀ i d, z !! i = Some d → d = 0) →
  P !! n = Some x → oid !! n = Some y →
  take n P = take n oid ∧ u8 x = Z.land (u8 y) (if Nat.even (length v) then 0x00 else 0xf0)
  ↔ v `prefix_of` nibbles oid.
Proof.
  intros HP Hv Hz Hx Hy.
  assert (take n P = take n oid ↔ take (2 * n) (v ++ z) = take (2 * n) (nibbles oid)) as ->.
  { rewrite <- HP, <- !nibbles_take. split; [by intros ->|apply nibbles_inj]. }
  pose proof (nibbles_lookup P n x Hx) as Hh. pose proof (nibbles_lookup_lo P n x Hx) as Hlo.
  pose proof (nibbles_lookup oid n y Hy) as Hoh. rewrite HP in Hh, Hlo.
  pose proof (Z.div_mod (u8 x) 16 ltac:(lia)) as Hdm. rewrite prefix_take.
  destruct Hv as [Hv|Hv]; rewrite Hv.
  - rewrite even_double, Z.land_0_r. rewrite <- Hv, take_app_length.
    rewrite lookup_app_r in Hh, Hlo by lia. apply Hz in Hh. apply Hz in Hlo.
    split; [by intros [<- _]|intros ->; split; [done|lia]].
  - replace (Nat.even (S (2 * n))) with false
      by (rewrite Nat.even_succ, <- Nat.negb_even, even_double; done).
    rewrite land_f0, take_app_le by lia.
    rewrite lookup_app_r in Hlo by lia. apply Hz in Hlo.
    rewrite lookup_app_l in Hh by lia.
    rewrite (take_S_r (nibbles oid) _ _ Hoh).
    rewrite <- (firstn_all v) at 2. rewrite Hv, (take_S_r v _ _ Hh).
    split.
    + intros [-> Hxy]. do 2 f_equal. lia.
    + intros E. apply app_inj_2 in E as [-> [= E]]; [|done]. split; [done|lia].
Qed.
End hex_lemmas.

(** ** Theorems *)

Section hex_theorems.
Context `{Hex}.

(** [Oid::has_prefix], which compares whole bytes and then one masked byte,
    decides for every partial id that [PartialOid::from_str] accepts (4 to 39
    hexadecimal digits, of either parity and case) exactly whether the digits of
    the partial id are a prefix of the 40 digits of the object id. *)
Theorem has_prefix_correct oid s p :
  oid_wf oid → partial_oid_from_str s = Ok p →
  has_prefix oid p = Ok (bool_decide ((nibble <$> s) `prefix_of` nibbles oid)).
Proof.
  intros Hoid Hp. unfold has_prefix. rewrite (partial_into_oid_ok s p Hp).
  apply partial_oid_from_str_ok in Hp as (Hl & Hs & ->). cbn [mbind outcome_bind po_len].
  set (v := nibble <$> s). set (z := replicate (40 - length s) 0).
  assert (length v = length s) as Hv by apply length_fmap.
  assert (length (v ++ z) = 40%nat) as Hvz
    by (unfold z; rewrite length_app, length_replicate; lia).
  assert (nibbles (pack_nibbles (v ++ z)) = v ++ z) as HP.
  { apply nibbles_of_pack; [|by rewrite Hvz]. apply Forall_app. split.
    - apply Forall_fmap, Forall_true. intros. apply nibble_wf_nibble.
    - apply Forall_replicate. unfold nibble_wf. lia. }
  assert (length (pack_nibbles (v ++ z)) = 20%nat) as HP20
    by (rewrite length_pack_nibbles; by rewrite Hvz).
  assert (length s / 2 < 20)%nat as Hn by (apply Nat.Div0.div_lt_upper_bound; lia).
  destruct (lookup_lt_is_Some_2 (pack_nibbles (v ++ z)) (length s / 2)) as [x Hx]; [lia|].
  destruct (lookup_lt_is_Some_2 oid (length s / 2)) as [y Hy]; [by rewrite Hoid|].
  rewrite Hx, Hy. cbn [unwrap mbind outcome_bind]. f_equal.
  rewrite <- bool_decide_and. apply bool_decide_ext.
  rewrite <- Hv in Hx, Hy |- *. eapply prefix_compare; try done.
  - pose proof (Nat.div_mod_eq (length v) 2). pose proof (Nat.mod_upper_bound (length v) 2). lia.
  - intros i d. unfold z. rewrite lookup_replicate. naive_solver.
Qed.

(** The ids that the parser can produce. *)
Definition bitid_wf (id : BitId) : Prop :=
  match id with
  | Full oid => oid_wf oid
  | Partial p => ∃ s, partial_oid_from_str s = Ok p
  end.

(** Displaying an object id, full or partial, and parsing the text gives the
    same id back. *)
Theorem bitid_from_str_display id : bitid_wf id → bitid_from_str (bitid_display id) = Ok id.
Proof.
  destruct id as [oid|p]; cbn [bitid_wf bitid_display]; unfold bitid_from_str.
  - intros Hoid. rewrite length_oid_display, Hoid. cbn [Nat.mul Nat.add Nat.compare].
    pose proof (oid_from_str_display oid [] Hoid (Forall_nil_2 _)) as E.
    rewrite app_nil_r in E. by rewrite E.
  - intros [s Hp]. pose proof Hp as (Hl & Hs & ->)%partial_oid_from_str_ok.
    unfold partial_oid_display. cbn [po_len po_bytes]. rewrite take_app_length.
    destruct (Nat.compare_spec (length s) 40); [lia| |lia]. by rewrite Hp.
Qed.

End hex_theorems.

(** A full id and the partial ids of its first 7 and first 8 digits. *)
Lemma has_prefix_correct_witness :
  has_prefix EMPTY_TREE
    (mk_PartialOid (bs "4b825dc" ++ replicate 33 x30) 7) = Ok true
  ∧ has_prefix EMPTY_TREE (mk_PartialOid (bs "4B825DC7" ++ replicate 32 x30) 8) = Ok false.
Proof.
  split.
  - rewrite (has_prefix_correct EMPTY_TREE (bs "4b825dc")); reflexivity.
  - rewrite (has_prefix_correct EMPTY_TREE (bs "4B825DC7")); reflexivity.
Defined.

Lemma bitid_from_str_display_witness :
  bitid_wf (Full EMPTY_BLOB) ∧ bitid_from_str (bitid_display (Full EMPTY_BLOB)) = Ok (Full EMPTY_BLOB).
Proof. split; [reflexivity|]. apply (bitid_from_str_display (Full EMPTY_BLOB)). reflexivity. Defined.

(** A stand-in for SHA-1: any function with 20-byte results does. *)
Definition toy_sha1 (s : bytes) : Oid :=
  be_encode 20 (fold_left (λ h b, (h * 257 + u8 b) mod 2 ^ 160) s 1).

Lemma toy_sha1_length s : length (toy_sha1 s) = 20%nat.
Proof. apply length_be_encode. Qed.
