(* ===== verification/Path.v ===== *)
(** * Path

    [libbit/src/path.rs]: paths, their components and the two orders on them.
    The operations of [std::path::Path] the code calls (components, parent, file
    name, join, extension) are written on the byte string of the path. *)

From Stdlib Require Import ZArith Lia.
From Stdlib Require Import Strings.Byte.
From stdpp Require Import base tactics option list countable strings.
From S2P Require Import Prelude RustStd Data.

#[local] Open Scope Z_scope.

(** ** std::path *)

Inductive component := RootDir | CurDir | ParentDir | Normal (name : bytes).

#[export] Instance component_eq_dec : EqDecision component.
Proof. solve_decision. Defined.

(** The segments between slashes. *)
Definition split_slash (s : bytes) : list bytes := split_byte x2f s.
Definition join_slash (ls : list bytes) : bytes := join_byte x2f ls.

Definition is_absolute (p : BitPath) : bool :=
  match p with x2f :: _ => true | _ => false end.

Definition is_relative (p : BitPath) : bool := negb (is_absolute p).

(** The path after the root slash. *)
Definition path_body (p : BitPath) : bytes := if is_absolute p then drop 1 p else p.

(** A segment that is no component: an empty one, or a [.] that does not start a
    relative path. *)
Definition is_junk (keep_dot : bool) (s : bytes) : bool :=
  bool_decide (s = []) || (bool_decide (s = [x2e]) && negb keep_dot).

Definition component_of (s : bytes) : component :=
  if bool_decide (s = [x2e]) then CurDir
  else if bool_decide (s = [x2e; x2e]) then ParentDir else Normal s.

Fixpoint segment_components (keep_dot : bool) (segs : list bytes) : list component :=
  match segs with
  | [] => []
  | s :: segs =>
      (if is_junk keep_dot s then [] else [component_of s]) ++ segment_components false segs
  end.

(** [Path::components]. *)
Definition path_components (p : BitPath) : list component :=
  (if is_absolute p then [RootDir] else [])
  ++ segment_components (is_relative p) (split_slash (path_body p)).

(** [Component::as_os_str]. *)
Definition component_str (c : component) : bytes :=
  match c with
  | RootDir => [x2f]
  | CurDir => [x2e]
  | ParentDir => [x2e; x2e]
  | Normal s => s
  end.

(** Trailing segments that are no component. *)
Fixpoint trim_junk (keep_dot : bool) (segs : list bytes) : list bytes :=
  match segs with
  | [] => []
  | s :: segs =>
      match trim_junk false segs with
      | [] => if is_junk keep_dot s then [] else [s]
      | segs' => s :: segs'
      end
  end.

Definition body_segments (p : BitPath) : list bytes :=
  trim_junk (is_relative p) (split_slash (path_body p)).

Definition with_root (p : BitPath) (segs : list bytes) : bytes :=
  (if is_absolute p then [x2f] else []) ++ join_slash segs.

(** [Path::parent]. *)
Definition parent (p : BitPath) : option BitPath :=
  match body_segments p with
  | [] => None
  | segs => Some (with_root p (trim_junk (is_relative p) (removelast segs)))
  end.

(** [Path::file_name]. *)
Definition path_file_name (p : BitPath) : option bytes :=
  match last (body_segments p) with
  | Some s => if bool_decide (s = [x2e]) || bool_decide (s = [x2e; x2e]) then None else Some s
  | None => None
  end.

(** [PathBuf::push] and [Path::join]. *)
Definition join (p q : BitPath) : BitPath :=
  if is_absolute q then q
  else match last p with
       | Some c => if bool_decide (c = x2f) then p ++ q else p ++ x2f :: q
       | None => q
       end.

(** [Path::starts_with]: component-wise. *)
Definition path_starts_with (p base : BitPath) : bool :=
  bool_decide (take (length (path_components base)) (path_components p) = path_components base).

(** The position of the last byte [c]. *)
Definition rfind_byte (c : byte) (s : bytes) : option nat :=
  match find_byte c (reverse s) with
  | Some i => Some (length s - 1 - i)%nat
  | None => None
  end.

(** [Path::file_stem] of a file name. *)
Definition stem (name : bytes) : bytes :=
  match rfind_byte x2e name with
  | Some i => if (i =? 0)%nat then name else take i name
  | None => name
  end.

(** [Path::with_extension]: replaces the extension of the file name. *)
Definition with_extension (ext : bytes) (p : BitPath) : BitPath :=
  match path_file_name p with
  | None => p
  | Some name =>
      with_root p (removelast (body_segments p)
                   ++ [stem name ++ (if bool_decide (ext = []) then [] else x2e :: ext)])
  end.

(** ** path.rs *)

Definition EMPTY : BitPath := [].

Definition is_empty (p : BitPath) : bool := bool_decide (p = EMPTY).

(** [BitPath::file_name]. *)
Definition file_name (p : BitPath) : BitPath := default [] (path_file_name p).

(** [BitPath::components]. *)
Definition components (p : BitPath) : list BitPath := component_str <$> path_components p.

(** [BitPath::root_component]. *)
Definition root_component (p : BitPath) : BitResult BitPath := unwrap (head (components p)).

(** [BitPath::cumulative_components]: [pre] is the part of the path already
    passed, [index = length pre]. *)
Fixpoint cumulative_from (pre rest : bytes) : list BitPath :=
  match rest with
  | [] => [pre]
  | d :: rest =>
      if bool_decide (d = x2f) then pre :: cumulative_from (pre ++ [d]) rest
      else cumulative_from (pre ++ [d]) rest
  end.

Definition cumulative_components (p : BitPath) : list BitPath := cumulative_from [] p.

(** [BitPath::approximate_lexicographical_successor]. *)
Definition approximate_lexicographical_successor (p : BitPath) : BitResult BitPath :=
  if utf8_valid p then Ok (p ++ [x61]) else Panic.

(** [BitPath::path_cmp_explicit]. *)
Definition path_cmp_explicit (a : BitPath) (a_is_dir : bool) (b : BitPath) (b_is_dir : bool)
  : comparison :=
  let min_len := Nat.min (length a) (length b) in
  then_with (bytes_compare (take min_len a) (take min_len b))
    (let x := match a !! min_len with
              | None => if a_is_dir then x2f else x00
              | Some c => c
              end in
     let y := match b !! min_len with
              | None => if b_is_dir then x2f else x00
              | Some c => c
              end in
     Z.compare (u8 x) (u8 y)).

(** [BitPath::path_cmp] and [Ord for BitPath]. *)
Definition path_cmp (a b : BitPath) : comparison :=
  let m := length a in
  let n := length b in
  let minlen := Nat.min m n in
  then_with (bytes_compare (take minlen a) (take minlen b)) (Nat.compare m n).

(** [path::normalize].  On Unix no component is a prefix. *)
Fixpoint normalize_loop (cs : list component) (ret : BitPath) : BitPath :=
  match cs with
  | [] => ret
  | c :: cs =>
      normalize_loop cs
        match c with
        | RootDir => join ret [x2f]
        | CurDir => ret
        | ParentDir => default ret (parent ret)
        | Normal s => join ret s
        end
  end.

Definition normalize (p : BitPath) : BitPath := normalize_loop (path_components p) [].

(** ** Lemmas *)

Lemma then_with_Eq c : then_with Eq c = c.
Proof. done. Qed.

Lemma path_cmp_bytes a b : path_cmp a b = bytes_compare a b.
Proof.
  unfold path_cmp. revert b; induction a as [|x a IH]; intros [|y b]; simpl; try done.
  specialize (IH b). destruct (Z.compare (u8 x) (u8 y)); simpl; done.
Qed.

(** The byte that a directory name has after its last one. *)
Definition dir_slash (is_dir : bool) : bytes := if is_dir then [x2f] else [].

Definition plain_name (p : BitPath) : Prop := (x2f ∉ p) ∧ (x00 ∉ p).

#[export] Instance plain_name_dec p : Decision (plain_name p).
Proof. unfold plain_name. apply _. Defined.

Lemma u8_pos b : b ≠ x00 → 0 < u8 b.
Proof.
  intros Hb. pose proof (u8_range b). destruct (decide (u8 b = 0)) as [E|]; [|lia].
  destruct Hb. by apply u8_inj.
Qed.

Lemma path_cmp_explicit_slash a ad b bd :
  plain_name a → plain_name b →
  path_cmp_explicit a ad b bd =
  bytes_compare (a ++ dir_slash ad) (b ++ dir_slash bd).
Proof.
  unfold path_cmp_explicit, plain_name.
  revert b; induction a as [|x a IH]; intros [|y b] [Hs1 Hz1] [Hs2 Hz2].
  - by destruct ad, bd.
  - rewrite not_elem_of_cons in Hs2, Hz2. cbn -[Z.compare u8].
    destruct ad; cbn -[Z.compare u8].
    + destruct (Z.compare_spec (u8 x2f) (u8 y)) as [E|E|E]; try done.
      apply u8_inj in E. exfalso. by apply (proj1 Hs2).
    + destruct (Z.compare_spec (u8 x00) (u8 y)) as [E|E|E]; try done.
      * apply u8_inj in E. exfalso. by apply (proj1 Hz2).
      * change (u8 x00) with 0 in E. pose proof (u8_range y). lia.
  - rewrite not_elem_of_cons in Hs1, Hz1. cbn -[Z.compare u8].
    destruct bd; cbn -[Z.compare u8].
    + destruct (Z.compare_spec (u8 x) (u8 x2f)) as [E|E|E]; try done.
      apply u8_inj in E. exfalso. by apply (proj1 Hs1).
    + destruct (Z.compare_spec (u8 x) (u8 x00)) as [E|E|E]; try done.
      * apply u8_inj in E. exfalso. by apply (proj1 Hz1).
      * change (u8 x00) with 0 in E. pose proof (u8_range x). lia.
  - rewrite not_elem_of_cons in Hs1, Hz1, Hs2, Hz2. cbn -[Z.compare u8].
    specialize (IH b (conj (proj2 Hs1) (proj2 Hz1)) (conj (proj2 Hs2) (proj2 Hz2))).
    destruct (Z.compare (u8 x) (u8 y)); cbn -[Z.compare u8]; [exact IH|done|done].
Qed.

Lemma elem_of_cumulative_from pre rest q :
  q ∈ cumulative_from pre rest ↔
  q = pre ++ rest ∨ ∃ t r, q = pre ++ t ∧ rest = t ++ x2f :: r.
Proof.
  revert pre; induction rest as [|d rest IH]; intros pre; simpl.
  - rewrite list_elem_of_singleton, app_nil_r. split; [by left|].
    intros [?|(t & r & _ & E)]; [done|]. by destruct t.
  - assert (q ∈ cumulative_from (pre ++ [d]) rest ↔
      q = pre ++ d :: rest ∨ ∃ t r, q = pre ++ d :: t ∧ rest = t ++ x2f :: r) as IH'.
    { rewrite IH, <- app_assoc. simpl. setoid_rewrite <- app_assoc. done. }
    case_bool_decide as Hd; [subst; rewrite elem_of_cons|]; rewrite IH'; split.
    + intros [->|[?|(t & r & -> & ->)]]; [right; exists [], rest|by left|right; exists (x2f :: t), r];
        by rewrite ?app_nil_r.
    + intros [?|(t & r & -> & E)]; [by right; left|].
      destruct t as [|c t]; simplify_eq/=; [left; by rewrite app_nil_r|right; right; eauto].
    + intros [?|(t & r & -> & ->)]; [by left|]. right. by exists (d :: t), r.
    + intros [?|(t & r & -> & E)]; [by left|].
      destruct t as [|c t]; simplify_eq/=. right. eauto.
Qed.

(** ** Normalised relative paths *)

(** A segment that is a [Normal] component. *)
Definition name_ok (s : bytes) : Prop := (s ≠ []) ∧ (s ≠ [x2e]) ∧ (s ≠ [x2e; x2e]).

#[export] Instance name_ok_dec s : Decision (name_ok s).
Proof. unfold name_ok. apply _. Defined.

(** A relative path of such segments, as the index stores them. *)
Definition norm_path (p : BitPath) : Prop := Forall name_ok (split_slash p).

#[export] Instance norm_path_dec p : Decision (norm_path p).
Proof. unfold norm_path. apply _. Defined.

(** [p] lies strictly below the directory [d]. *)
Definition under (d p : BitPath) : Prop := ∃ r, p = d ++ x2f :: r.

#[export] Instance under_dec d p : Decision (under d p).
Proof.
  refine (cast_if (decide (starts_with (d ++ [x2f]) p = true))).
  - abstract (rewrite starts_with_spec in *; destruct e as [t ->]; exists t; by rewrite <- app_assoc).
  - abstract (intros [r ->]; apply n, starts_with_spec; exists r; by rewrite <- app_assoc).
Defined.

Lemma join_byte_app c a b :
  a ≠ [] → b ≠ [] → join_byte c (a ++ b) = join_byte c a ++ c :: join_byte c b.
Proof.
  intros Ha Hb. induction a as [|x a IH]; [done|]. destruct a as [|y a].
  - cbn. by destruct b.
  - specialize (IH ltac:(done)). cbn [app join_byte] in *. rewrite IH. by rewrite <- app_assoc.
Qed.

Lemma norm_relative p : norm_path p → is_relative p = true.
Proof.
  unfold norm_path, split_slash, is_relative, is_absolute. destruct p as [|c p]; [done|]. cbn.
  case_bool_decide as Hc; [intros Hf; inversion_clear Hf as [|?? [Hn _] _]; done|].
  intros _. destruct c; done.
Qed.

Lemma segment_components_norm b segs :
  Forall name_ok segs → segment_components b segs = Normal <$> segs.
Proof.
  intros Hs. revert b. induction Hs as [|s segs (H1 & H2 & H3) _ IH]; intros b; cbn; [done|].
  rewrite IH. unfold is_junk, component_of. by rewrite !bool_decide_false.
Qed.

Lemma norm_components p : norm_path p → path_components p = Normal <$> split_slash p.
Proof.
  intros Hp. pose proof (norm_relative p Hp) as Hr. unfold path_components, path_body.
  unfold is_relative in *. destruct (is_absolute p); [done|]. cbn.
  by apply segment_components_norm.
Qed.

Lemma components_norm p : norm_path p → components p = split_slash p.
Proof.
  intros Hp. unfold components. rewrite norm_components, <- list_fmap_compose by done.
  by rewrite list_fmap_id.
Qed.

Lemma path_starts_with_norm p d :
  norm_path p → norm_path d → path_starts_with p d = true ↔ p = d ∨ under d p.
Proof.
  intros Hp Hd. unfold path_starts_with. rewrite bool_decide_eq_true.
  rewrite !norm_components, length_fmap, <- fmap_take by done.
  assert (∀ a b : list bytes, Normal <$> a = Normal <$> b ↔ a = b) as Hinj.
  { intros a b. split; [|by intros ->]. apply list_fmap_eq_inj. by intros ?? [=]. }
  rewrite Hinj. unfold split_slash. split.
  - intros E. pose proof (take_drop (length (split_byte x2f d)) (split_byte x2f p)) as Ep.
    rewrite E in Ep. destruct (drop (length (split_byte x2f d)) (split_byte x2f p)) as [|s rest].
    + left. rewrite app_nil_r in Ep. rewrite <- (join_split_byte x2f p), <- Ep.
      apply join_split_byte.
    + right. exists (join_byte x2f (s :: rest)).
      rewrite <- (join_split_byte x2f p), <- Ep.
      rewrite join_byte_app by (done || apply split_byte_ne). by rewrite join_split_byte.
  - intros [->|[r ->]]; [by rewrite firstn_all|]. by rewrite split_byte_app_cons, take_app_length.
Qed.

(** The paths below a directory are an interval of the order that starts at the
    directory with a slash. *)
Lemma bytes_compare_prefix d r : bytes_compare (d ++ r) d = match r with [] => Eq | _ => Gt end.
Proof.
  induction d as [|x d IH]; cbn; [by destruct r|]. by rewrite Z.compare_refl.
Qed.

Lemma prefix_convex d x r :
  bytes_compare x d ≠ Lt → bytes_compare x (d ++ r) = Lt → ∃ r', x = d ++ r'.
Proof.
  revert x. induction d as [|c d IH]; intros x Hx Hr; [by exists x|].
  destruct x as [|y x]; [done|]. cbn in Hx, Hr.
  destruct (Z.compare_spec (u8 y) (u8 c)) as [E|E|E]; cbn in Hx, Hr; try done.
  apply u8_inj in E as ->. destruct (IH x Hx Hr) as [r' ->]. by exists r'.
Qed.

(** *** A name below a directory *)

(** A name that is one component of a path. *)
Definition comp_name (name : bytes) : Prop :=
  (x2f ∉ name) ∧ (name ≠ []) ∧ (name ≠ [x2e]) ∧ name ≠ [x2e; x2e].

#[export] Instance comp_name_dec name : Decision (comp_name name).
Proof. unfold comp_name. apply _. Defined.

Definition path_child (d name : bytes) : BitPath := d ++ x2f :: name.

Lemma child_body d name :
  d ≠ [] → is_absolute (path_child d name) = is_absolute d ∧ path_body (path_child d name) = path_child (path_body d) name.
Proof.
  destruct d as [|c d]; [done|]. intros _. assert (is_absolute (path_child (c :: d) name) = is_absolute (c :: d)) as E.
  { cbn. by destruct c. }
  split; [done|]. unfold path_body. rewrite E. by destruct (is_absolute (c :: d)).
Qed.

Lemma trim_junk_last k segs s : is_junk false s = false → trim_junk k (segs ++ [s]) = segs ++ [s].
Proof.
  intros Hs. assert (∀ k, is_junk k s = false) as Hs'.
  { intros k'. unfold is_junk in *. apply orb_false_iff in Hs as [-> Hs]. cbn in *.
    rewrite andb_true_r in Hs. by rewrite Hs. }
  revert k. induction segs as [|t segs IH]; intros k; cbn [app trim_junk]; [by rewrite Hs'|].
  rewrite IH. by destruct segs.
Qed.

Lemma plain_not_junk name : comp_name name → is_junk false name = false.
Proof. intros (_ & H1 & H2 & _). unfold is_junk. by rewrite !bool_decide_false. Qed.

Lemma child_segments d name :
  d ≠ [] → comp_name name →
  body_segments (path_child d name) = split_slash (path_body d) ++ [name].
Proof.
  intros Hd Hn. unfold body_segments. destruct (child_body d name Hd) as [Ha ->].
  unfold split_slash, path_child. rewrite split_byte_app_cons, (split_byte_name _ name) by by apply Hn.
  apply trim_junk_last. by apply plain_not_junk.
Qed.

Lemma with_root_body p : with_root p (split_slash (path_body p)) = p.
Proof.
  unfold with_root, split_slash, join_slash. rewrite join_split_byte. unfold path_body.
  destruct p as [|[] p]; reflexivity.
Qed.

Lemma with_root_child d name s :
  d ≠ [] → with_root (path_child d name) (split_slash (path_body d) ++ [s]) = path_child d s.
Proof.
  intros Hd. unfold with_root. destruct (child_body d name Hd) as [-> _].
  unfold join_slash. rewrite join_byte_app by (done || apply split_byte_ne). cbn [join_byte].
  unfold split_slash. rewrite join_split_byte. unfold path_child, path_body. by destruct d as [|[] d].
Qed.

Lemma child_file_name d name : d ≠ [] → comp_name name → path_file_name (path_child d name) = Some name.
Proof.
  intros Hd Hn. unfold path_file_name. rewrite child_segments, last_snoc by done.
  destruct Hn as (_ & _ & H1 & H2). by rewrite !bool_decide_false.
Qed.

Lemma rfind_byte_none c s : (c ∉ s) → rfind_byte c s = None.
Proof.
  intros Hs. assert (∀ l, (c ∉ l) → find_byte c l = None) as Hf.
  { intros l Hl. induction l as [|d l IH]; [done|]. apply not_elem_of_cons in Hl as [Hd Hl].
    cbn. rewrite bool_decide_false by congruence. by rewrite IH. }
  unfold rfind_byte. by rewrite Hf by by rewrite elem_of_reverse.
Qed.

(** The extension is added to a name without one. *)
Lemma child_with_extension d name ext :
  d ≠ [] → comp_name name → (x2e ∉ name) → ext ≠ [] →
  with_extension ext (path_child d name) = path_child d (name ++ x2e :: ext).
Proof.
  intros Hd Hn Hdot He. unfold with_extension. rewrite child_file_name, child_segments by done.
  rewrite removelast_last. unfold stem. rewrite rfind_byte_none, bool_decide_false by done.
  by apply with_root_child.
Qed.

(** The directory has no trailing slash or dot. *)
Definition tidy_dir (d : BitPath) : Prop :=
  (d ≠ []) ∧ trim_junk (is_relative d) (split_slash (path_body d)) = split_slash (path_body d).

#[export] Instance tidy_dir_dec d : Decision (tidy_dir d).
Proof. unfold tidy_dir. apply _. Defined.

Lemma child_parent d name : tidy_dir d → comp_name name → parent (path_child d name) = Some d.
Proof.
  intros [Hd Ht] Hn. unfold parent. rewrite child_segments by done.
  destruct (split_slash (path_body d) ++ [name]) as [|s l] eqn:E.
  { by destruct (split_slash (path_body d)). }
  rewrite <- E, removelast_last. unfold is_relative. destruct (child_body d name Hd) as [Ha _].
  rewrite Ha. fold (is_relative d). rewrite Ht. unfold with_root. rewrite Ha. fold (with_root d (split_slash (path_body d))).
  by rewrite with_root_body.
Qed.

Lemma child_tidy d name : d ≠ [] → comp_name name → tidy_dir (path_child d name).
Proof.
  intros Hd Hn. split; [by destruct d|].
  fold (body_segments (path_child d name)). rewrite child_segments by done. unfold split_slash.
  destruct (child_body d name Hd) as [_ ->]. unfold path_child. rewrite split_byte_app_cons.
  by rewrite (split_byte_name _ name) by apply Hn.
Qed.

Lemma child_inj d1 d2 n1 n2 : path_child d1 n1 = path_child d2 n2 → length n1 = length n2 → d1 = d2 ∧ n1 = n2.
Proof.
  unfold path_child. intros E Hl. apply app_inj_2 in E as [-> E]; [by injection E|cbn; lia].
Qed.

(** ** Theorems *)

(** [Ord for BitPath] is the lexicographic order of the bytes, a total order:
    equal exactly on equal paths, antisymmetric and transitive (the laws that the
    [BTreeMap] of index entries relies on). *)
Theorem path_cmp_total_order a b c :
  path_cmp a b = bytes_compare a b
  ∧ (path_cmp a b = Eq ↔ a = b)
  ∧ path_cmp b a = CompOpp (path_cmp a b)
  ∧ (path_cmp a b = Lt → path_cmp b c = Lt → path_cmp a c = Lt).
Proof.
  rewrite !path_cmp_bytes.
  split_and!; [done|apply bytes_compare_eq|apply bytes_compare_antisym|apply bytes_compare_trans].
Qed.

(** On single path components (names without a slash or a NUL byte)
    [path_cmp_explicit] is the order git sorts tree entries by: the byte order of
    the names after a slash is put behind every directory name. *)
Theorem path_cmp_explicit_correct a ad b bd :
  plain_name a → plain_name b →
  path_cmp_explicit a ad b bd = bytes_compare (a ++ dir_slash ad) (b ++ dir_slash bd).
Proof. apply path_cmp_explicit_slash. Qed.

(** The file [foo.c] sorts before the directory [foo], which has a slash. *)
Lemma path_cmp_explicit_correct_witness :
  path_cmp_explicit (bs "foo.c") false (bs "foo") true = Lt
  ∧ path_cmp_explicit (bs "foo.c") false (bs "foo") false = Gt.
Proof.
  split; rewrite path_cmp_explicit_correct; try reflexivity; vm_decide.
Defined.

(** [cumulative_components] yields exactly the path itself and every prefix of
    it that ends before a slash. *)
Theorem cumulative_components_spec p q :
  q ∈ cumulative_components p ↔ q = p ∨ ∃ r, p = q ++ x2f :: r.
Proof.
  unfold cumulative_components. rewrite elem_of_cumulative_from. simpl. split.
  - intros [?|(t & r & -> & ->)]; [by left|]. right. eauto.
  - intros [?|(r & ->)]; [by left|]. right. by exists q, r.
Qed.
