(* ===== verification/BTree.v ===== *)
(** * BTree

    Rust's [BTreeMap] and [BTreeSet]: the list of the entries in increasing key
    order, with the operations the code uses.  The order of the keys is a
    comparison function whose laws are the class [OrdLaws]. *)

From Stdlib Require Import ZArith Lia Sorted.
From Stdlib Require Import Strings.Byte.
From stdpp Require Import base tactics option list sorting.
From S2P Require Import Prelude.

(** The laws of [Ord] that make a comparison function a total order. *)
Class OrdLaws {K} (cmp : K → K → comparison) : Prop := {
  ord_eq : ∀ a b, cmp a b = Eq ↔ a = b;
  ord_antisym : ∀ a b, cmp b a = CompOpp (cmp a b);
  ord_trans : ∀ a b c, cmp a b = Lt → cmp b c = Lt → cmp a c = Lt;
}.

Arguments ord_eq {K} cmp {_} a b.
Arguments ord_antisym {K} cmp {_} a b.
Arguments ord_trans {K} cmp {_} a b c.

#[export] Instance bytes_ord_laws : OrdLaws bytes_compare.
Proof.
  split; [apply bytes_compare_eq|apply bytes_compare_antisym|apply bytes_compare_trans].
Qed.

(** The lexicographic order of pairs. *)
Definition pair_cmp {A B} (ca : A → A → comparison) (cb : B → B → comparison)
    (x y : A * B) : comparison :=
  then_with (ca x.1 y.1) (cb x.2 y.2).

Section order.
Context {K} (cmp : K → K → comparison) `{!OrdLaws cmp}.

Lemma ord_refl a : cmp a a = Eq.
Proof. by apply ord_eq. Qed.

Lemma ord_gt a b : cmp a b = Gt ↔ cmp b a = Lt.
Proof. rewrite (ord_antisym cmp a b). by destruct (cmp a b). Qed.

Lemma ord_lt_ne a b : cmp a b = Lt → a ≠ b.
Proof. intros H ->. by rewrite ord_refl in H. Qed.

End order.

#[export] Instance pair_ord_laws {A B} (ca : A → A → comparison) (cb : B → B → comparison)
  `{!OrdLaws ca, !OrdLaws cb} : OrdLaws (pair_cmp ca cb).
Proof.
  split; unfold pair_cmp.
  - intros [a b] [a' b']; cbn. pose proof (ord_eq ca a a') as Ha.
    pose proof (ord_eq cb b b') as Hb.
    destruct (ca a a') eqn:E; cbn; [|split; [done|intros [= -> ->]; by rewrite ord_refl in E]..].
    rewrite Hb. destruct Ha as [Ha _]. rewrite (Ha eq_refl). split; congruence.
  - intros [a b] [a' b']; cbn. rewrite (ord_antisym ca a a'), (ord_antisym cb b b').
    by destruct (ca a a').
  - intros [a1 b1] [a2 b2] [a3 b3]; cbn.
    destruct (ca a1 a2) eqn:E1; cbn; try done; destruct (ca a2 a3) eqn:E2; cbn; try done.
    + apply (ord_eq ca) in E1 as ->. apply (ord_eq ca) in E2 as ->.
      rewrite (ord_refl ca). cbn. exact (ord_trans cb _ _ _).
    + apply (ord_eq ca) in E1 as ->. by rewrite E2.
    + apply (ord_eq ca) in E2 as ->. by rewrite E1.
    + by rewrite (ord_trans ca _ _ _ E1 E2).
Qed.

Section map.
Context {K V : Type} (cmp : K → K → comparison).

(** [BTreeMap::insert]: a value already under the key is replaced. *)
Fixpoint bt_insert (k : K) (v : V) (m : list (K * V)) : list (K * V) :=
  match m with
  | [] => [(k, v)]
  | (k', v') :: m' =>
      match cmp k k' with
      | Lt => (k, v) :: m
      | Eq => (k', v) :: m'
      | Gt => (k', v') :: bt_insert k v m'
      end
  end.

(** [BTreeMap::get]. *)
Fixpoint bt_get (k : K) (m : list (K * V)) : option V :=
  match m with
  | [] => None
  | (k', v') :: m' => match cmp k k' with Eq => Some v' | _ => bt_get k m' end
  end.

(** [BTreeMap::remove]. *)
Fixpoint bt_remove (k : K) (m : list (K * V)) : list (K * V) :=
  match m with
  | [] => []
  | (k', v') :: m' => match cmp k k' with Eq => m' | _ => (k', v') :: bt_remove k m' end
  end.

(** [BTreeMap::range((k, inf)..)]: the entries whose key is at least [k]. *)
Definition bt_range_from (k : K) (m : list (K * V)) : list (K * V) :=
  filter (λ kv, cmp kv.1 k ≠ Lt) m.

(** [collect::<BTreeMap<_, _>>()]. *)
Definition bt_from_list (l : list (K * V)) : list (K * V) :=
  foldl (λ m kv, bt_insert kv.1 kv.2 m) [] l.

Definition bt_sorted (m : list (K * V)) : Prop :=
  StronglySorted (λ a b, cmp a.1 b.1 = Lt) m.

Context `{!OrdLaws cmp}.

Lemma bt_insert_keys k v m kv : kv ∈ bt_insert k v m → kv.1 = k ∨ kv ∈ m.
Proof.
  induction m as [|[k' v'] m IH]; simpl.
  - rewrite list_elem_of_singleton. intros ->. by left.
  - destruct (cmp k k') eqn:E; rewrite !elem_of_cons.
    + intros [->|?]; [left; symmetry; by apply (ord_eq cmp)|by right; right].
    + intros [->|?]; [by left|by right].
    + intros [->|?%IH]; [by right; left|naive_solver].
Qed.

Lemma bt_remove_subset k m kv : kv ∈ bt_remove k m → kv ∈ m.
Proof.
  induction m as [|[k' v'] m IH]; simpl; [done|].
  destruct (cmp k k'); rewrite ?elem_of_cons; naive_solver.
Qed.

Lemma bt_sorted_insert k v m : bt_sorted m → bt_sorted (bt_insert k v m).
Proof.
  unfold bt_sorted. induction 1 as [|[k' v'] m Hm IH Hk]; simpl; [by repeat constructor|].
  destruct (cmp k k') eqn:E.
  - constructor; done.
  - constructor; [by constructor|]. constructor; [done|].
    eapply Forall_impl; [exact Hk|]. intros [k2 v2] H2. cbn in *. by eapply (ord_trans cmp).
  - constructor; [done|]. apply Forall_forall. intros kv [->|Hin]%bt_insert_keys.
    + by apply (ord_gt cmp).
    + rewrite Forall_forall in Hk. by apply Hk.
Qed.

Lemma bt_sorted_remove k m : bt_sorted m → bt_sorted (bt_remove k m).
Proof.
  unfold bt_sorted. induction 1 as [|[k' v'] m Hm IH Hk]; simpl; [constructor|].
  destruct (cmp k k'); [done|..]; (constructor; [done|]);
    rewrite Forall_forall in Hk |- *; intros kv Hin%bt_remove_subset; by apply Hk.
Qed.

Lemma bt_sorted_filter (P : K * V → Prop) `{!∀ x, Decision (P x)} m :
  bt_sorted m → bt_sorted (filter P m).
Proof.
  unfold bt_sorted. induction 1 as [|kv m Hm IH Hk]; [constructor|].
  rewrite filter_cons. case_decide; [|done]. constructor; [done|].
  rewrite Forall_forall in Hk |- *. intros x [_ Hx]%list_elem_of_filter. by apply Hk.
Qed.

Lemma bt_get_above k m :
  Forall (λ kv, cmp k kv.1 = Lt) m → bt_get k m = None.
Proof.
  induction 1 as [|[k' v'] m Hk _ IH]; simpl; [done|]. cbn in Hk. by rewrite Hk.
Qed.

Lemma bt_get_Some k v m : bt_sorted m → bt_get k m = Some v ↔ (k, v) ∈ m.
Proof.
  induction 1 as [|[k' v'] m Hm IH Hk]; simpl; [split; [done|intros []%elem_of_nil]|].
  rewrite elem_of_cons. destruct (cmp k k') eqn:E.
  - apply (ord_eq cmp) in E as ->. split; [intros [= ->]; by left|].
    intros [[= ->]|Hin]; [done|]. rewrite Forall_forall in Hk. apply Hk in Hin. cbn in Hin.
    by rewrite (ord_refl cmp) in Hin.
  - rewrite IH. split; [by right|]. intros [[= -> ->]|?]; [|done]. by rewrite (ord_refl cmp) in E.
  - rewrite IH. split; [by right|]. intros [[= -> ->]|?]; [|done]. by rewrite (ord_refl cmp) in E.
Qed.

Lemma bt_get_insert `{!EqDecision K} k k' v m :
  bt_sorted m →
  bt_get k' (bt_insert k v m) = if decide (k' = k) then Some v else bt_get k' m.
Proof.
  induction 1 as [|[k1 v1] m Hm IH Hk]; simpl.
  - case_decide as Hd; [subst; by rewrite (ord_refl cmp)|].
    destruct (cmp k' k) eqn:E; [|done..]. by apply (ord_eq cmp) in E.
  - destruct (cmp k k1) eqn:E; simpl.
    + apply (ord_eq cmp) in E as ->. case_decide; [subst; by rewrite (ord_refl cmp)|].
      destruct (cmp k' k1) eqn:E1; [|done..]. by apply (ord_eq cmp) in E1.
    + case_decide as Hd; [subst; by rewrite (ord_refl cmp)|].
      destruct (cmp k' k) eqn:E1; [|done..]. by apply (ord_eq cmp) in E1.
    + destruct (cmp k' k1) eqn:E1; [|apply IH..].
      apply (ord_eq cmp) in E1 as ->. case_decide; [|done].
      subst. by rewrite (ord_refl cmp) in E.
Qed.

Lemma bt_get_remove `{!EqDecision K} k k' m :
  bt_sorted m →
  bt_get k' (bt_remove k m) = if decide (k' = k) then None else bt_get k' m.
Proof.
  induction 1 as [|[k1 v1] m Hm IH Hk]; simpl; [by case_decide|].
  destruct (cmp k k1) eqn:E; simpl.
  - apply (ord_eq cmp) in E as ->. case_decide as Hd.
    + subst. by apply bt_get_above.
    + destruct (cmp k' k1) eqn:E1; [|done..]. by apply (ord_eq cmp) in E1.
  - destruct (cmp k' k1) eqn:E1; [|apply IH..]. apply (ord_eq cmp) in E1 as ->.
    case_decide; [|done]. subst. by rewrite (ord_refl cmp) in E.
  - destruct (cmp k' k1) eqn:E1; [|apply IH..]. apply (ord_eq cmp) in E1 as ->.
    case_decide; [|done]. subst. by rewrite (ord_refl cmp) in E.
Qed.

(** Two maps with the same entries are equal. *)
Lemma bt_ext m1 m2 :
  bt_sorted m1 → bt_sorted m2 → (∀ kv, kv ∈ m1 ↔ kv ∈ m2) → m1 = m2.
Proof.
  intros H1. revert m2. induction H1 as [|[k1 v1] m1 Hm1 IH Hk1]; intros m2 H2 Heq.
  - destruct m2 as [|kv m2]; [done|]. exfalso. apply (not_elem_of_nil kv), Heq, elem_of_cons. by left.
  - destruct H2 as [|[k2 v2] m2 Hm2 Hk2].
    { exfalso. apply (not_elem_of_nil (k1, v1)), Heq, elem_of_cons. by left. }
    assert ((k1, v1) = (k2, v2)) as [= <- <-].
    { assert ((k1, v1) ∈ (k2, v2) :: m2) as [?|Hin1]%elem_of_cons
        by (apply Heq, list_elem_of_here); [done|].
      assert ((k2, v2) ∈ (k1, v1) :: m1) as [E|Hin2]%elem_of_cons
        by (apply Heq, list_elem_of_here); [done|].
      rewrite Forall_forall in Hk1, Hk2. apply Hk1 in Hin2. apply Hk2 in Hin1. cbn in *.
      pose proof (ord_trans cmp _ _ _ Hin1 Hin2) as Hx. by rewrite (ord_refl cmp) in Hx. }
    f_equal. apply IH; [done|]. intros kv. specialize (Heq kv). rewrite !elem_of_cons in Heq.
    rewrite Forall_forall in Hk1, Hk2.
    destruct Heq as [Ha Hb].
    split; intros Hin; pose proof Hin as Hl.
    + apply Hk1 in Hl. destruct (Ha (or_intror Hin)) as [->|]; [|done].
      by rewrite (ord_refl cmp) in Hl.
    + apply Hk2 in Hl. destruct (Hb (or_intror Hin)) as [->|]; [|done].
      by rewrite (ord_refl cmp) in Hl.
Qed.

Lemma bt_insert_last k v m :
  Forall (λ kv, cmp kv.1 k = Lt) m → bt_insert k v m = m ++ [(k, v)].
Proof.
  induction 1 as [|[k' v'] m Hk _ IH]; simpl; [done|]. cbn in Hk.
  apply (ord_gt cmp) in Hk. by rewrite Hk, IH.
Qed.

(** Collecting entries that are already sorted gives them back in order. *)
Lemma bt_from_list_sorted l : bt_sorted l → bt_from_list l = l.
Proof.
  unfold bt_from_list. intros Hl.
  enough (∀ acc, bt_sorted (acc ++ l) → foldl (λ m kv, bt_insert kv.1 kv.2 m) acc l = acc ++ l)
    as H by (apply (H []); done).
  clear Hl. induction l as [|[k v] l IH]; intros acc Hs; simpl; [by rewrite app_nil_r|].
  rewrite bt_insert_last, IH; rewrite <- ?app_assoc; [done|done|].
  clear IH. induction acc as [|a acc IHa]; [constructor|]. inversion_clear Hs as [|?? Hs' Ha].
  constructor; [|by apply IHa]. rewrite Forall_app in Ha. destruct Ha as [_ Ha].
  by inversion_clear Ha.
Qed.

Lemma bt_sorted_from_list l : bt_sorted (bt_from_list l).
Proof.
  unfold bt_from_list. assert (bt_sorted []) as H by constructor.
  revert H. generalize (@nil (K * V)). induction l as [|kv l IH]; intros m Hm; simpl; [done|].
  by apply IH, bt_sorted_insert.
Qed.

End map.

Section more.
Context {K V : Type} (cmp : K → K → comparison) `{!OrdLaws cmp, !EqDecision K}.

(** Removal keeps the entries with another key. *)
Lemma bt_remove_filter k (m : list (K * V)) :
  bt_sorted cmp m → bt_remove cmp k m = filter (λ kv, kv.1 ≠ k) m.
Proof.
  intros Hm. apply (bt_ext cmp).
  - by apply bt_sorted_remove.
  - by apply bt_sorted_filter.
  - intros [k' v]. rewrite <- (bt_get_Some cmp) by by apply bt_sorted_remove.
    rewrite (bt_get_remove cmp), list_elem_of_filter, <- (bt_get_Some cmp) by done. cbn.
    case_decide; naive_solver.
Qed.

(** Insertion replaces the entry of the key and keeps the others. *)
Lemma elem_of_bt_insert k v (m : list (K * V)) kv :
  bt_sorted cmp m → kv ∈ bt_insert cmp k v m ↔ kv = (k, v) ∨ (kv ∈ m ∧ kv.1 ≠ k).
Proof.
  intros Hm. destruct kv as [k' v'].
  rewrite <- (bt_get_Some cmp) by by apply bt_sorted_insert.
  rewrite (bt_get_insert cmp) by done. rewrite <- (bt_get_Some cmp) by done. cbn.
  case_decide; naive_solver.
Qed.
End more.

(** ** Lists *)

Lemma filter_ext_in {A} (P Q : A → Prop) `{!∀ x, Decision (P x), !∀ x, Decision (Q x)} (l : list A) :
  (∀ x, x ∈ l → P x ↔ Q x) → filter P l = filter Q l.
Proof.
  induction l as [|x l IH]; intros HP; [done|]. rewrite !filter_cons.
  rewrite IH by (intros y Hy; apply HP, elem_of_cons; by right).
  pose proof (HP x (list_elem_of_here _ _)). repeat case_decide; tauto.
Qed.

Lemma filter_all {A} (P : A → Prop) `{!∀ x, Decision (P x)} (l : list A) :
  (∀ x, x ∈ l → P x) → filter P l = l.
Proof.
  induction l as [|x l IH]; intros HP; [done|]. rewrite filter_cons_True by apply HP, list_elem_of_here.
  f_equal. apply IH. intros y Hy. apply HP, elem_of_cons. by right.
Qed.

Lemma filter_none {A} (P : A → Prop) `{!∀ x, Decision (P x)} (l : list A) :
  (∀ x, x ∈ l → ¬ P x) → filter P l = [].
Proof.
  induction l as [|x l IH]; intros HP; [done|]. rewrite filter_cons_False by apply HP, list_elem_of_here.
  apply IH. intros y Hy. apply HP, elem_of_cons. by right.
Qed.

Lemma sorted_lookup {A} (R : A → A → Prop) (l : list A) i j x y :
  StronglySorted R l → l !! i = Some x → l !! j = Some y → (i < j)%nat → R x y.
Proof.
  intros Hs. revert i j. induction Hs as [|a l Hs IH Ha]; intros i j Hi Hj Hij; [done|].
  destruct j as [|j]; [lia|]. destruct i as [|i]; cbn in *.
  - simplify_eq. rewrite Forall_forall in Ha. apply Ha. by eapply list_elem_of_lookup_2.
  - apply (IH i j); [done|done|lia].
Qed.

Lemma sorted_filter {A} (R : A → A → Prop) (P : A → Prop) `{!∀ x, Decision (P x)} (l : list A) :
  StronglySorted R l → StronglySorted R (filter P l).
Proof.
  induction 1 as [|x l Hl IH Hx]; [constructor|]. rewrite filter_cons. case_decide; [|done].
  constructor; [done|]. apply Forall_forall. intros y [_ Hy]%list_elem_of_filter.
  rewrite Forall_forall in Hx. by apply Hx.
Qed.

(** A sorted list is split by a predicate that holds of a prefix of it. *)
Lemma sorted_filter_split {A} (R : A → A → Prop) (P : A → Prop) `{!∀ x, Decision (P x)} (l : list A) :
  StronglySorted R l → (∀ x y, R x y → P y → P x) →
  l = filter P l ++ filter (λ x, ¬ P x) l.
Proof.
  intros Hl HP. induction Hl as [|x l Hl IH Hx]; [done|]. rewrite Forall_forall in Hx.
  destruct (decide (P x)) as [Hp|Hp].
  - rewrite filter_cons_True by done. rewrite (filter_cons_False (λ x, ¬ P x)) by tauto.
    cbn. f_equal. apply IH.
  - rewrite filter_cons_False by done. rewrite (filter_cons_True (λ x, ¬ P x)) by done.
    assert (∀ y, y ∈ l → ¬ P y) as Hl' by (intros y Hy Hpy; apply Hp, (HP x y); [by apply Hx|done]).
    rewrite filter_none by done. cbn. f_equal. symmetry. by apply filter_all.
Qed.
