(* ===== verification/Obj.v ===== *)
(** * Obj

    [libbit/src/obj.rs]: file modes, object types, object headers and the
    serialisation of an object with its header.  [sha1] is the digest of the
    crate [sha1]. *)

From Stdlib Require Import ZArith Lia.
From Stdlib Require Import Strings.Byte.
From stdpp Require Import base tactics option list countable strings.
From S2P Require Import Prelude RustStd Data Io Hash.

#[local] Open Scope Z_scope.

(** ** FileMode *)

(** The discriminants, 0o100644, 0o100755, 0o120000, 0o40000 and 0o160000. *)
Definition as_u32 (m : FileMode) : Z :=
  match m with
  | REG => 33188
  | EXEC => 33261
  | LINK => 40960
  | TREE => 16384
  | GITLINK => 57344
  end.

(** [TryFromPrimitive]. *)
Definition filemode_try_from (u : Z) : option FileMode :=
  find (λ m, as_u32 m =? u) [REG; EXEC; LINK; TREE; GITLINK].

Definition filemode_new (u : Z) : BitResult FileMode := unwrap (filemode_try_from u).

(** [Display for FileMode]: [{:06o}], and [{:o}] for the alternate form. *)
Definition filemode_display (alternate : bool) (m : FileMode) : bytes :=
  let n := print_radix 8 (as_u32 m) in
  if alternate then n else pad_zero 6 n.

Definition is_link (m : FileMode) : bool := match m with LINK => true | _ => false end.
Definition is_gitlink (m : FileMode) : bool := match m with GITLINK => true | _ => false end.
Definition is_file (m : FileMode) : bool := match m with EXEC | REG => true | _ => false end.
Definition is_blob (m : FileMode) : bool := match m with EXEC | REG | LINK => true | _ => false end.
Definition is_tree (m : FileMode) : bool := match m with TREE => true | _ => false end.

(** The part of [std::fs::Metadata] the code looks at. *)
Record Metadata := mk_Metadata {
  md_is_symlink : bool; md_is_dir : bool; md_mode : Z;
  md_ctime : Z * Z; md_mtime : Z * Z;
  md_dev : Z; md_ino : Z; md_uid : Z; md_gid : Z; md_size : Z;
}.

Definition filemode_from_metadata (md : Metadata) : FileMode :=
  if md_is_symlink md then LINK
  else if md_is_dir md then TREE
  else if negb (Z.land (md_mode md) 73 =? 0) then EXEC else REG.

Definition infer_obj_type (m : FileMode) : BitResult BitObjType :=
  match m with
  | TREE => Ok TTree
  | EXEC | REG | LINK => Ok TBlob
  | GITLINK => Panic
  end.

(** [FromStr for FileMode]. *)
Definition filemode_from_str (s : bytes) : BitResult FileMode :=
  u ← ok_or Anyhow (parse_unsigned 8 u32_max s);
  filemode_new u.

(** The derived [Ord] compares discriminants. *)
Definition filemode_cmp (a b : FileMode) : comparison := Z.compare (as_u32 a) (as_u32 b).

(** ** BitObjType *)

Definition objtype_display (t : BitObjType) : bytes :=
  match t with
  | TCommit => bs "commit"
  | TTree => bs "tree"
  | TTag => bs "tag"
  | TBlob => bs "blob"
  end.

Definition objtype_from_str (s : bytes) : BitResult BitObjType :=
  if bool_decide (s = bs "commit") then Ok TCommit
  else if bool_decide (s = bs "tree") then Ok TTree
  else if bool_decide (s = bs "tag") then Ok TTag
  else if bool_decide (s = bs "blob") then Ok TBlob
  else bail.

(** The discriminants and [FromPrimitive]. *)
Definition objtype_as_u8 (t : BitObjType) : Z :=
  match t with TCommit => 1 | TTree => 2 | TBlob => 3 | TTag => 4 end.

Definition objtype_from_u8 (u : Z) : option BitObjType :=
  find (λ t, objtype_as_u8 t =? u) [TCommit; TTree; TBlob; TTag].

(** ** Headers *)

Record BitObjHeader := mk_BitObjHeader { oh_obj_type : BitObjType; oh_size : Z }.

#[export] Instance BitObjHeader_eq_dec : EqDecision BitObjHeader.
Proof. solve_decision. Defined.

Record BitObjCached := mk_BitObjCached {
  cached_oid : Oid; cached_obj_type : BitObjType; cached_size : Z;
}.

#[export] Instance BitObjCached_eq_dec : EqDecision BitObjCached.
Proof. solve_decision. Defined.

Definition read_obj_header : reader BitObjHeader :=
  obj_type ← read_ascii_str objtype_from_str x20;
  size ← read_ascii_num x00;
  mret (mk_BitObjHeader obj_type (wrap 64 size)).

(** [format!("{} {}\0", obj_type, len)]. *)
Definition obj_header (t : BitObjType) (len : nat) : bytes :=
  objtype_display t ++ [x20] ++ print_dec (Z.of_nat len) ++ [x00].

(** The trait [WritableObject]. *)
Class WritableObject (A : Type) `{Serialize A} := obj_ty : A → BitObjType.

Definition serialize_with_headers {A} `{WritableObject A} (a : A) : BitResult bytes :=
  bytes ← serialize a;
  Ok (obj_header (obj_ty a) (length bytes) ++ bytes).

Record BitPackObjRaw := mk_BitPackObjRaw { raw_obj_type : BitObjType; raw_bytes : bytes }.

#[export] Instance BitPackObjRaw_eq_dec : EqDecision BitPackObjRaw.
Proof. solve_decision. Defined.

(** [BitRawObj]: the cached header and the stream of the object's bytes. *)
Record BitRawObj := mk_BitRawObj { ro_cached : BitObjCached; ro_stream : bytes }.

(** [BitRawObj::from_stream]. *)
Definition raw_obj_from_stream (oid : Oid) (stream : bytes) : BitResult BitRawObj :=
  '(h, stream) ← read_obj_header stream;
  Ok (mk_BitRawObj (mk_BitObjCached oid (oh_obj_type h) (oh_size h)) stream).

(** [BitRawObj::from_raw_pack_obj]. *)
Definition raw_obj_from_raw_pack_obj (oid : Oid) (raw : BitPackObjRaw) : BitRawObj :=
  mk_BitRawObj
    (mk_BitObjCached oid (raw_obj_type raw) (Z.of_nat (length (raw_bytes raw))))
    (raw_bytes raw).

Section sha1.
Variable sha1 : bytes → Oid.

(** [BitPackObjRaw::oid]. *)
Definition raw_oid (raw : BitPackObjRaw) : Oid :=
  sha1 (obj_header (raw_obj_type raw) (length (raw_bytes raw)) ++ raw_bytes raw).

Definition hash_and_serialize {A} `{WritableObject A} (a : A) : BitResult (Oid * bytes) :=
  bytes ← serialize_with_headers a;
  Ok (sha1 bytes, bytes).

Definition obj_hash {A} `{WritableObject A} (a : A) : BitResult Oid :=
  sha1 <$> serialize_with_headers a.

End sha1.

(** *** Blobs ([libbit/src/obj/blob.rs]) *)

Record MutableBlob := mk_MutableBlob { blob_bytes : bytes }.

#[export] Instance MutableBlob_eq_dec : EqDecision MutableBlob.
Proof. solve_decision. Defined.

#[export] Instance blob_serialize : Serialize MutableBlob := λ b, Ok (blob_bytes b).

#[export] Instance blob_deserialize_sized : DeserializeSized MutableBlob := λ size,
  take_all size (mk_MutableBlob <$> read_to_vec).

#[export] Instance blob_writable : WritableObject MutableBlob := λ _, TBlob.

(** [Display for Blob]. *)
Definition blob_display (b : MutableBlob) : bytes :=
  if utf8_valid (blob_bytes b) then trim_end (blob_bytes b) else bs "<binary>".

(** ** Lemmas *)

Lemma as_u32_fits m : fits 32 (as_u32 m).
Proof. unfold fits. by destruct m; cbn; lia. Qed.

Lemma filemode_try_from_as_u32 m : filemode_try_from (as_u32 m) = Some m.
Proof. by destruct m. Qed.

Lemma filemode_try_from_Some u m : filemode_try_from u = Some m → as_u32 m = u.
Proof.
  unfold filemode_try_from. intros H%find_some. destruct H as [_ H]. by apply Z.eqb_eq.
Qed.

Lemma filemode_from_str_display alt m : filemode_from_str (filemode_display alt m) = Ok m.
Proof. by destruct alt, m. Qed.

Lemma objtype_from_str_display t : objtype_from_str (objtype_display t) = Ok t.
Proof. by destruct t. Qed.

Lemma objtype_display_from_str s t : objtype_from_str s = Ok t → s = objtype_display t.
Proof.
  unfold objtype_from_str. repeat case_bool_decide; intros; simplify_eq/=; done.
Qed.

Lemma reads_obj_header t len :
  Z.of_nat len < 2 ^ 63 →
  reads read_obj_header (obj_header t len) (mk_BitObjHeader t (Z.of_nat len)).
Proof.
  intros Hlen. unfold read_obj_header, obj_header. rewrite app_assoc.
  eapply reads_bind; [apply (reads_ascii_str _ x20 (objtype_display t) t)|].
  - destruct t; vm_decide.
  - by destruct t.
  - apply objtype_from_str_display.
  - eapply reads_bind_last; [apply (reads_ascii_num x00 (Z.of_nat len)); [|done|lia]|].
    + nondigit.
    + rewrite wrap_fits by (unfold fits; lia). apply reads_ret.
Qed.

(** The derived order puts directories before every kind of file. *)
Lemma filemode_cmp_tree_first m : m ≠ TREE → filemode_cmp TREE m = Lt.
Proof. by destruct m. Qed.

(** ** Theorems *)

(** Every object that is written with its header ([serialize_with_headers]) is
    opened again by [BitRawObj::from_stream] with its type, its exact size and a
    stream of exactly the serialised bytes. *)
Theorem header_round_trip {A} `{WritableObject A} (a : A) (w : bytes) (oid : Oid) :
  serialize a = Ok w → Z.of_nat (length w) < 2 ^ 63 →
  ∃ file, serialize_with_headers a = Ok file
    ∧ raw_obj_from_stream oid file
      = Ok (mk_BitRawObj (mk_BitObjCached oid (obj_ty a) (Z.of_nat (length w))) w).
Proof.
  intros Hw Hlen. unfold serialize_with_headers. rewrite Hw. cbn [mbind outcome_bind].
  eexists. split; [done|]. unfold raw_obj_from_stream.
  by rewrite (reads_obj_header _ _ Hlen).
Qed.

Lemma header_round_trip_witness :
  raw_obj_from_stream UNKNOWN (bs "blob 3" ++ x00 :: bs "abc")
  = Ok (mk_BitRawObj (mk_BitObjCached UNKNOWN TBlob 3) (bs "abc")).
Proof.
  destruct (header_round_trip (mk_MutableBlob (bs "abc")) (bs "abc") UNKNOWN) as (f & Hf & H);
    [reflexivity|vm_decide|].
  injection Hf as <-. exact H.
Defined.

(** An object read out of a pack and the same object written to the object
    store have the same id: [BitPackObjRaw::oid] hashes what
    [WritableObject::hash] hashes. *)
Theorem raw_oid_agrees sha1 {A} `{WritableObject A} (a : A) (w : bytes) :
  serialize a = Ok w →
  obj_hash sha1 a = Ok (raw_oid sha1 (mk_BitPackObjRaw (obj_ty a) w))
  ∧ fst <$> hash_and_serialize sha1 a = obj_hash sha1 a.
Proof.
  intros Hw. unfold obj_hash, hash_and_serialize, serialize_with_headers. by rewrite Hw.
Qed.

Lemma raw_oid_agrees_witness :
  obj_hash (take 20) (mk_MutableBlob (bs "abc"))
  = Ok (raw_oid (take 20) (mk_BitPackObjRaw TBlob (bs "abc"))).
Proof.
  exact (proj1 (raw_oid_agrees (take 20) (mk_MutableBlob (bs "abc")) (bs "abc") eq_refl)).
Defined.
