(* ===== verification/Tree.v ===== *)
(** * Tree

    [libbit/src/obj/tree.rs]: tree objects and their entries, with the trait
    [BitEntry] of [libbit/src/iter.rs] that orders entries. *)

From Stdlib Require Import ZArith Lia Sorted.
From Stdlib Require Import Strings.Byte.
From stdpp Require Import base tactics option list countable strings sorting.
From S2P Require Import Prelude RustStd Data Io Hash Path BTree Obj.

#[local] Open Scope Z_scope.

(** ** The trait [BitEntry] *)

Class BitEntry (E : Type) := {
  entry_oid : E → Oid;
  entry_path : E → BitPath;
  entry_mode : E → FileMode;
}.

Section entry.
Context {E} `{BitEntry E}.

Definition entry_is_tree (e : E) : bool := is_tree (entry_mode e).
Definition entry_is_blob (e : E) : bool := is_blob (entry_mode e).
Definition entry_is_gitlink (e : E) : bool := is_gitlink (entry_mode e).

Definition path_mode (e : E) : BitPath * FileMode := (entry_path e, entry_mode e).

Definition mode_eq (a b : E) : bool := bool_decide (entry_mode a = entry_mode b).

Definition entry_eq (a b : E) : bool :=
  bool_decide (entry_oid a = entry_oid b) && mode_eq a b
  && bool_decide (entry_path a = entry_path b).

(** [diff_cmp]: directories and files alike. *)
Definition diff_cmp (a b : E) : comparison := path_cmp (entry_path a) (entry_path b).

(** [entry_cmp]: git's order of tree entries. *)
Definition entry_cmp (a b : E) : comparison :=
  path_cmp_explicit (entry_path a) (entry_is_tree a) (entry_path b) (entry_is_tree b).
End entry.

#[export] Instance tree_entry_is_entry : BitEntry TreeEntry :=
  {| entry_oid := te_oid; entry_path := te_path; entry_mode := te_mode |}.

(** ** TreeEntry *)

#[export] Instance tree_entry_serialize : Serialize TreeEntry := λ e,
  Ok (filemode_display true (te_mode e) ++ bs " " ++ te_path e ++ [x00] ++ te_oid e).

(** [buf] is extended by the second [read_until]; [&buf[i..i + j - 1]] is what
    that call appended, without its last byte. *)
#[export] Instance tree_entry_deserialize : Deserialize TreeEntry :=
  buf ← read_until_r x20;
  s ← lift (but_last buf);
  s ← lift (from_utf8_unwrap s);
  u ← lift (unwrap (parse_unsigned 8 u32_max s));
  mode ← lift (filemode_new u);
  more ← read_until_r x00;
  path ← lift (but_last more);
  oid ← read_exact 20;
  mret (mk_TreeEntry mode path oid).

(** ** Trees *)

(** [BTreeSet::insert]: an equal element already there is kept. *)
Fixpoint set_insert {A} (cmp : A → A → comparison) (x : A) (l : list A) : list A :=
  match l with
  | [] => [x]
  | y :: l' => match cmp x y with
               | Lt => x :: l
               | Eq => l
               | Gt => y :: set_insert cmp x l'
               end
  end.

(** [Tree::read_entries]. *)
Definition read_entries (size : Z) : reader (list TreeEntry) :=
  take_all size (read_to_eof (deserialize (A:=TreeEntry))).

(** The entries of a [BTreeSet<TreeEntry>], in order. *)
Record MutableTree := mk_MutableTree { mt_entries : list TreeEntry }.

Definition mutable_tree_new (l : list TreeEntry) : MutableTree :=
  mk_MutableTree (foldl (λ s e, set_insert entry_cmp e s) [] l).

(** [Serialize for MutableTree] and [Serialize for Tree]. *)
#[export] Instance mutable_tree_serialize : Serialize MutableTree := λ t, write_iter (mt_entries t).

#[export] Instance mutable_tree_deserialize_sized : DeserializeSized MutableTree := λ size,
  entries ← read_entries size;
  mret (mutable_tree_new entries).

#[export] Instance mutable_tree_writable : WritableObject MutableTree := λ _, TTree.

(** [Display for TreeEntry] and [Display for Tree]. *)
Definition tree_entry_display `{Hex} (alternate : bool) (e : TreeEntry) : BitResult bytes :=
  if alternate then
    Ok (filemode_display false (te_mode e) ++ bs " " ++ te_path e ++ [x00] ++ te_oid e)
  else
    ty ← infer_obj_type (te_mode e);
    Ok (filemode_display false (te_mode e) ++ bs " " ++ objtype_display ty ++ bs " "
        ++ oid_display (te_oid e) ++ [x09] ++ te_path e).

Definition tree_display `{Hex} (alternate : bool) (entries : list TreeEntry) : BitResult bytes :=
  ls ← collect (tree_entry_display alternate) entries;
  Ok (if alternate then concat ls else ls ≫= λ l, l ++ [x0a]).

(** ** Well-formedness *)

(** What an entry of a tree object is: a name without slash and NUL, and a
    20-byte id. *)
Definition tree_entry_wf (e : TreeEntry) : Prop :=
  plain_name (te_path e) ∧ oid_wf (te_oid e).

#[export] Instance tree_entry_wf_dec e : Decision (tree_entry_wf e).
Proof. unfold tree_entry_wf. apply _. Defined.

(** The key git sorts by: the name, with a slash behind a directory's. *)
Definition tree_key (e : TreeEntry) : bytes := te_path e ++ dir_slash (is_tree (te_mode e)).

Definition tree_sorted (l : list TreeEntry) : Prop :=
  StronglySorted (λ a b, entry_cmp a b = Lt) l.

(** The invariant of a [MutableTree]. *)
Definition mutable_tree_wf (t : MutableTree) : Prop :=
  Forall tree_entry_wf (mt_entries t) ∧ tree_sorted (mt_entries t).

(** ** Lemmas: the order of entries *)

Lemma entry_cmp_key a b :
  tree_entry_wf a → tree_entry_wf b → entry_cmp a b = bytes_compare (tree_key a) (tree_key b).
Proof.
  intros [Ha _] [Hb _]. unfold entry_cmp, tree_key. cbn. by apply path_cmp_explicit_slash.
Qed.

Lemma elem_of_set_insert {A} (cmp : A → A → comparison) x l y :
  y ∈ set_insert cmp x l → y = x ∨ y ∈ l.
Proof.
  induction l as [|z l IH]; simpl; [rewrite list_elem_of_singleton; by left|].
  destruct (cmp x z); rewrite !elem_of_cons; tauto.
Qed.

Lemma set_insert_Forall {A} (cmp : A → A → comparison) (P : A → Prop) x l :
  P x → Forall P l → Forall P (set_insert cmp x l).
Proof.
  rewrite !Forall_forall. intros Hx Hl y [->|Hy]%elem_of_set_insert; auto.
Qed.

Lemma set_insert_sorted x l :
  tree_entry_wf x → Forall tree_entry_wf l → tree_sorted l → tree_sorted (set_insert entry_cmp x l).
Proof.
  intros Hx Hwf. unfold tree_sorted. induction 1 as [|y l Hl IH Hy]; simpl; [by repeat constructor|].
  inversion_clear Hwf as [|?? Hwy Hwl]. destruct (entry_cmp x y) eqn:E; [by constructor|..].
  - constructor; [by constructor|]. constructor; [done|].
    rewrite Forall_forall in Hy, Hwl |- *. intros z Hz. specialize (Hy z Hz). specialize (Hwl z Hz).
    rewrite entry_cmp_key in E, Hy |- * by done. by eapply bytes_compare_trans.
  - constructor; [by apply IH|]. rewrite Forall_forall in Hy, Hwl |- *.
    intros z [->|Hz]%elem_of_set_insert; [|by apply Hy].
    rewrite entry_cmp_key in E |- * by done. by apply (ord_gt bytes_compare).
Qed.

Lemma set_insert_keeps {A} (cmp : A → A → comparison) x l y :
  y ∈ l → y ∈ set_insert cmp x l.
Proof.
  induction l as [|z l IH]; simpl; [by intros []%elem_of_nil|].
  destruct (cmp x z); rewrite !elem_of_cons; tauto.
Qed.

Lemma set_insert_has x l :
  tree_entry_wf x → Forall tree_entry_wf l →
  ∃ y, y ∈ set_insert entry_cmp x l ∧ tree_key y = tree_key x.
Proof.
  intros Hx. induction 1 as [|z l Hz Hl IH]; simpl; [exists x; by rewrite list_elem_of_singleton|].
  destruct (entry_cmp x z) eqn:E.
  - exists z. rewrite elem_of_cons. split; [by left|].
    rewrite entry_cmp_key in E by done. symmetry. by apply bytes_compare_eq.
  - exists x. rewrite elem_of_cons. auto.
  - destruct IH as (y & Hy & Hk). exists y. rewrite elem_of_cons. auto.
Qed.

Lemma set_insert_last x l :
  tree_entry_wf x → Forall tree_entry_wf l → Forall (λ y, entry_cmp y x = Lt) l →
  set_insert entry_cmp x l = l ++ [x].
Proof.
  intros Hx Hwf. induction 1 as [|y l Hy _ IH]; simpl; [done|].
  inversion_clear Hwf as [|?? Hwy Hwl].
  rewrite entry_cmp_key in Hy |- * by done. apply (ord_gt bytes_compare) in Hy.
  by rewrite Hy, IH.
Qed.

Lemma mutable_tree_new_sorted l :
  Forall tree_entry_wf l → tree_sorted l → mt_entries (mutable_tree_new l) = l.
Proof.
  intros Hwf Hs. unfold mutable_tree_new. cbn [mt_entries].
  enough (∀ acc, Forall tree_entry_wf (acc ++ l) → tree_sorted (acc ++ l) →
    foldl (λ s e, set_insert entry_cmp e s) acc l = acc ++ l) as H by by apply (H []).
  clear Hwf Hs. induction l as [|x l IH]; intros acc Hwf Hs; simpl; [by rewrite app_nil_r|].
  pose proof Hwf as [Hwa Hwx]%Forall_app. inversion_clear Hwx as [|?? Hx Hwl].
  rewrite set_insert_last, IH; rewrite <- ?app_assoc; try done.
  clear IH Hwf Hwa. induction acc as [|a acc IHa]; [constructor|].
  inversion_clear Hs as [|?? Hs' Ha]. constructor; [|by apply IHa].
  rewrite Forall_app in Ha. destruct Ha as [_ Ha]. by inversion_clear Ha.
Qed.

Lemma mutable_tree_new_wf l : Forall tree_entry_wf l → mutable_tree_wf (mutable_tree_new l).
Proof.
  intros Hwf. unfold mutable_tree_wf, mutable_tree_new. cbn [mt_entries].
  enough (∀ acc, Forall tree_entry_wf acc ∧ tree_sorted acc →
    Forall tree_entry_wf (foldl (λ s e, set_insert entry_cmp e s) acc l)
    ∧ tree_sorted (foldl (λ s e, set_insert entry_cmp e s) acc l)) as H
    by (apply H; by repeat constructor).
  induction Hwf as [|x l Hx Hl IH]; intros acc [Ha Hs]; simpl; [done|].
  apply IH. split; [by apply set_insert_Forall|by apply set_insert_sorted].
Qed.

(** ** Lemmas: reading entries *)

Lemma filemode_display_alt_no m : x20 ∉ filemode_display true m.
Proof. destruct m; vm_decide. Qed.

Definition tree_entry_bytes (e : TreeEntry) : bytes :=
  filemode_display true (te_mode e) ++ bs " " ++ te_path e ++ [x00] ++ te_oid e.

#[export] Instance tree_entry_round_trip : RoundTrip TreeEntry tree_entry_wf.
Proof.
  intros [m p o] [[_ Hp] Ho]. cbn in Hp, Ho. exists (tree_entry_bytes (mk_TreeEntry m p o)).
  split; [done|]. unfold tree_entry_bytes. cbn [te_mode te_path te_oid]. rewrite app_assoc.
  eapply reads_bind; [apply reads_until, filemode_display_alt_no|].
  eapply reads_bind_nil; [apply reads_lift, but_last_app|].
  eapply reads_bind_nil; [apply reads_lift; by destruct m|].
  eapply reads_bind_nil; [apply reads_lift; by destruct m|].
  eapply reads_bind_nil; [apply reads_lift; by destruct m|].
  rewrite app_assoc. eapply reads_bind; [by apply reads_until|].
  eapply reads_bind_nil; [apply reads_lift, but_last_app|].
  eapply reads_bind_last; [by apply reads_read_exact|]. apply reads_ret.
Qed.

Lemma tree_entry_reads e : tree_entry_wf e → reads deserialize (tree_entry_bytes e) e.
Proof. intros He. destruct (round_trip e He) as (w & [= <-] & Hr). done. Qed.

Lemma write_iter_tree l : write_iter l = Ok (l ≫= tree_entry_bytes).
Proof. induction l as [|e l IH]; [done|]. cbn. by rewrite IH. Qed.

Lemma tree_entry_bytes_length e : tree_entry_wf e → (20 ≤ length (tree_entry_bytes e))%nat.
Proof. intros [_ Ho]. unfold tree_entry_bytes. rewrite !length_app, Ho. lia. Qed.

Lemma reads_read_entries l :
  Forall tree_entry_wf l →
  reads (read_entries (Z.of_nat (length (l ≫= tree_entry_bytes)))) (l ≫= tree_entry_bytes) l.
Proof.
  intros Hl. unfold read_entries. apply reads_take_all; [done|].
  apply read_to_eof_round_trip. eapply Forall_impl; [exact Hl|]. intros e He.
  split; [by apply tree_entry_reads|]. pose proof (tree_entry_bytes_length e He). lia.
Qed.

Lemma shrinks_tree_entry : shrinks (deserialize (A:=TreeEntry)) 20.
Proof.
  unfold deserialize, tree_entry_deserialize.
  repeat (apply (shrinks_bind _ _ 0 20); [solve [auto with reads]|intros ?]).
  apply (shrinks_bind _ _ 20 0); auto with reads.
Qed.

(** ** Theorems *)

(** The runs of the loop of [read_entries], without a bound: [entries] has been read and [s] is
    left. *)
Inductive loop_runs : list TreeEntry → bytes → BitResult (list TreeEntry * bytes) → Prop :=
| loop_eof entries : loop_runs entries [] (Ok (entries, []))
| loop_entry entries s e s' r :
    s ≠ [] → deserialize s = Ok (e, s') → loop_runs (entries ++ [e]) s' r → loop_runs entries s r
| loop_error entries s err :
    s ≠ [] → deserialize (A:=TreeEntry) s = Err err → loop_runs entries s (Err err)
| loop_panic entries s :
    s ≠ [] → deserialize (A:=TreeEntry) s = Panic → loop_runs entries s Panic.

Lemma loop_runs_total fuel entries s :
  (length s ≤ fuel)%nat →
  loop_runs entries s (read_to_eof_loop (deserialize (A:=TreeEntry)) fuel entries s).
Proof.
  revert entries s. induction fuel as [|fuel IH]; intros entries [|b s] Hf; try (cbn in Hf; lia);
    [constructor..|]. cbn [read_to_eof_loop].
  destruct (deserialize (A:=TreeEntry) (b :: s)) as [[e s']|err|] eqn:E; cbn [mbind outcome_bind].
  - eapply loop_entry; [done|done|]. apply IH. apply shrinks_tree_entry in E. cbn in *. lia.
  - by apply loop_error.
  - by apply loop_panic.
Qed.

Lemma loop_runs_det entries s r r' : loop_runs entries s r → loop_runs entries s r' → r = r'.
Proof.
  intros Hr. revert r'. induction Hr as [|?????? E ? IH|???? E|??? E]; intros r' Hr'; inversion Hr'; subst;
    try done; try congruence. apply IH.
  match goal with H : deserialize _ = Ok _ |- _ => rewrite E in H; by simplify_eq end.
Qed.

(** C37: [Tree::read_entries] terminates on every input, because each iteration of its loop
    consumes at least 20 bytes: the loop has exactly one run on the bytes that are taken, and
    its entries, its error or its panic is the result. *)
Theorem read_entries_terminates size s :
  ∃ r, loop_runs [] (take (Z.to_nat size) s) r
    ∧ (∀ r', loop_runs [] (take (Z.to_nat size) s) r' → r' = r)
    ∧ read_entries size s
      = match r with
        | Ok (entries, rest) => Ok (entries, rest ++ drop (Z.to_nat size) s)
        | Err e => Err e
        | Panic => Panic
        end.
Proof.
  pose proof (loop_runs_total _ [] (take (Z.to_nat size) s) (Nat.le_refl _)) as Hr.
  eexists. split; [exact Hr|]. split; [intros r' Hr'; by eapply loop_runs_det|].
  unfold read_entries, take_all, read_to_eof. by destruct (read_to_eof_loop _ _ _ _) as [[]| |].
Qed.

(** Collecting entries into a [MutableTree] gives a tree that is strictly
    sorted in git's order, whose entries all come from the collection, and that
    has an entry for every name of it (the same name may occur once as a file and
    once as a directory). *)
Theorem mutable_tree_new_spec l :
  Forall tree_entry_wf l →
  mutable_tree_wf (mutable_tree_new l)
  ∧ (∀ e, e ∈ mt_entries (mutable_tree_new l) → e ∈ l)
  ∧ (∀ e, e ∈ l → ∃ e', e' ∈ mt_entries (mutable_tree_new l) ∧ tree_key e' = tree_key e).
Proof.
  intros Hwf. split; [by apply mutable_tree_new_wf|]. unfold mutable_tree_new. cbn [mt_entries].
  split.
  - enough (∀ acc e, e ∈ foldl (λ s e, set_insert entry_cmp e s) acc l → e ∈ acc ∨ e ∈ l) as H.
    { intros e He. by destruct (H [] e He) as [[]%elem_of_nil|]. }
    clear Hwf. induction l as [|x l IH]; intros acc e He; simpl in He; [by left|].
    rewrite elem_of_cons. apply IH in He as [[->|?]%elem_of_set_insert|?]; auto.
  - enough (∀ acc e, Forall tree_entry_wf acc →
      (e ∈ l ∨ ∃ e', e' ∈ acc ∧ tree_key e' = tree_key e) →
      ∃ e', e' ∈ foldl (λ s e, set_insert entry_cmp e s) acc l ∧ tree_key e' = tree_key e) as H.
    { intros e He. apply H; [constructor|by left]. }
    induction Hwf as [|x l Hx Hl IH]; intros acc e Hacc He; simpl.
    + by destruct He as [[]%elem_of_nil|?].
    + apply IH; [by apply set_insert_Forall|]. rewrite elem_of_cons in He.
      destruct He as [[->|?]|(e' & He' & Hk)]; [|by left|].
      * right. by apply set_insert_has.
      * right. exists e'. split; [|done]. by apply set_insert_keeps.
Qed.

Lemma mutable_tree_new_spec_witness :
  mutable_tree_wf (mutable_tree_new [mk_TreeEntry TREE (bs "foo") EMPTY_TREE;
                                     mk_TreeEntry REG (bs "foo.c") EMPTY_BLOB]).
Proof. apply mutable_tree_new_spec. vm_decide. Defined.

(** A tree object survives being written and read: [MutableTree] gives back the
    same sorted set of entries, and the immutable [Tree::read_entries] the same
    entries in the same order, each reading exactly the bytes of the tree. *)
Theorem tree_round_trip t :
  mutable_tree_wf t →
  ∃ w, serialize t = Ok w
    ∧ reads (deserialize_sized (Z.of_nat (length w))) w t
    ∧ reads (read_entries (Z.of_nat (length w))) w (mt_entries t).
Proof.
  intros [Hwf Hs]. exists (mt_entries t ≫= tree_entry_bytes).
  split; [apply write_iter_tree|]. split; [|by apply reads_read_entries].
  unfold deserialize_sized, mutable_tree_deserialize_sized.
  eapply reads_bind_last; [by apply reads_read_entries|].
  eapply reads_eq; [apply reads_ret|]. destruct t as [l]. cbn [mt_entries] in *.
  pose proof (mutable_tree_new_sorted l Hwf Hs) as E.
  destruct (mutable_tree_new l). cbn in E. by rewrite E.
Qed.

Lemma tree_round_trip_witness :
  let t := mutable_tree_new [mk_TreeEntry TREE (bs "foo") EMPTY_TREE;
                             mk_TreeEntry REG (bs "foo.c") EMPTY_BLOB] in
  mt_entries t = [mk_TreeEntry REG (bs "foo.c") EMPTY_BLOB;
                  mk_TreeEntry TREE (bs "foo") EMPTY_TREE]
  ∧ ∃ w, serialize t = Ok w ∧ reads (deserialize_sized (Z.of_nat (length w))) w t.
Proof.
  intros t. split; [reflexivity|].
  destruct (tree_round_trip t) as (w & Hw & Hr & _); [|by exists w].
  apply mutable_tree_new_wf. vm_decide.
Defined.
