(* ===== verification/Signature.v ===== *)
(** * Signature

    [libbit/src/signature.rs]: the author and committer signatures of commits and
    of the reflog. *)

From Stdlib Require Import ZArith Lia.
From Stdlib Require Import Strings.Byte.
From stdpp Require Import base tactics option list countable strings.
From S2P Require Import Prelude RustStd Data.

#[local] Open Scope Z_scope.

(** [BitTime]: seconds since the epoch (i64), and the offset in minutes (i32). *)
Record BitTime := mk_BitTime { epoch_time : Z; tz_offset : Z }.

#[export] Instance BitTime_eq_dec : EqDecision BitTime.
Proof. solve_decision. Defined.

Record BitSignature := mk_BitSignature { sig_name : bytes; sig_email : bytes; sig_time : BitTime }.

#[export] Instance BitSignature_eq_dec : EqDecision BitSignature.
Proof. solve_decision. Defined.

(** The derived [Ord for BitTime]. *)
Definition time_cmp (a b : BitTime) : comparison :=
  then_with (Z.compare (epoch_time a) (epoch_time b)) (Z.compare (tz_offset a) (tz_offset b)).

(** ** Display *)

(** [i32::abs] in release mode. *)
Definition abs32 (z : Z) : Z := if z =? - 2 ^ 31 then z else Z.abs z.

(** [{:02}] of an i32: the sign counts. *)
Definition fmt_02 (z : Z) : bytes :=
  if z <? 0 then x2d :: pad_zero 1 (print_radix 10 (- z)) else pad_zero 2 (print_radix 10 z).

Definition tz_display (off : Z) : bytes :=
  let sign := if 0 <=? off then x2b else x2d in
  let offset := abs32 off in
  let hours := Z.quot offset 60 in
  let minutes := Z.rem offset 60 in
  sign :: fmt_02 hours ++ fmt_02 minutes.

Definition time_display (t : BitTime) : bytes :=
  print_dec (epoch_time t) ++ bs " " ++ tz_display (tz_offset t).

Definition signature_display (s : BitSignature) : bytes :=
  sig_name s ++ bs " <" ++ sig_email s ++ bs "> " ++ time_display (sig_time s).

(** ** FromStr *)

(** [FromStr for BitTimeZoneOffset]: slicing out of range panics, and so does a
    part that is not a number. *)
Definition tz_from_str (s : bytes) : BitResult Z :=
  sign ← match s with
         | x2b :: _ => Ok 1
         | x2d :: _ => Ok (-1)
         | _ => Panic
         end;
  _ ← assert_that (5 <=? length s)%nat;
  hours ← unwrap (parse_signed 10 32 (take 2 (drop 1 s)));
  minutes ← unwrap (parse_signed 10 32 (take 2 (drop 3 s)));
  Ok (sign * (minutes + hours * 60)).

Definition epoch_from_str (s : bytes) : BitResult Z := unwrap (parse_signed 10 64 s).

Definition time_from_str (s : bytes) : BitResult BitTime :=
  let splits := split_ascii_ws s in
  t ← unwrap (splits !! 0%nat);
  time ← epoch_from_str t;
  o ← unwrap (splits !! 1%nat);
  offset ← tz_from_str o;
  Ok (mk_BitTime time offset).

(** Whether the index is the start of a character of a UTF-8 string. *)
Definition is_char_boundary (s : bytes) (i : nat) : bool :=
  match s !! i with
  | Some b => negb ((128 <=? u8 b) && (u8 b <? 192))
  | None => (i =? length s)%nat
  end.

(** [&s[a..b]]: panics when the range is not ordered, out of range or off a
    character boundary. *)
Definition str_slice (s : bytes) (a b : nat) : BitResult bytes :=
  if (a <=? b)%nat && (b <=? length s)%nat && is_char_boundary s a && is_char_boundary s b
  then Ok (take (b - a) (drop a s)) else Panic.

Definition signature_from_str (s : bytes) : BitResult BitSignature :=
  email_start_idx ← unwrap (find_byte x3c s);
  email_end_idx ← unwrap (find_byte x3e s);
  _ ← assert_that (1 <=? email_start_idx)%nat;
  name ← str_slice s 0 (email_start_idx - 1);
  email ← str_slice s (email_start_idx + 1) email_end_idx;
  rest ← str_slice s (email_end_idx + 1) (length s);
  time ← time_from_str rest;
  Ok (mk_BitSignature name email time).

(** ** Well-formedness *)

(** Offsets below 100 hours (two digits are written). *)
Definition tz_wf (off : Z) : Prop := -6000 < off < 6000.

Definition time_wf (t : BitTime) : Prop :=
  - 2 ^ 63 ≤ epoch_time t < 2 ^ 63 ∧ tz_wf (tz_offset t).

(** "assumes no < or > in name". *)
Definition signature_wf (s : BitSignature) : Prop :=
  (x3c ∉ sig_name s) ∧ (x3e ∉ sig_name s) ∧ (x3e ∉ sig_email s) ∧ time_wf (sig_time s)
  ∧ utf8_valid (sig_name s) = true ∧ utf8_valid (sig_email s) = true.

(** ** Lemmas *)

Lemma two_digits n : 0 ≤ n < 100 →
  ∃ a b, pad_zero 2 (print_radix 10 n) = [a; b] ∧ is_digit a ∧ is_digit b
    ∧ parse_signed 10 32 [a; b] = Some n.
Proof.
  intros Hn. pose proof (print_radix_digits 10 n ltac:(lia) ltac:(lia)) as Hd.
  apply (pad_zero_digits 2) in Hd.
  assert (length (pad_zero 2 (print_radix 10 n)) = 2%nat) as Hl.
  { rewrite length_pad_zero. pose proof (print_radix_length 10 n 2 ltac:(lia) ltac:(lia) ltac:(lia)). lia. }
  destruct (pad_zero 2 (print_radix 10 n)) as [|a [|b [|]]] eqn:E; try done.
  inversion_clear Hd as [|?? Ha Hd']. inversion_clear Hd' as [|?? Hb _].
  exists a, b. split_and!; try done. rewrite parse_signed_digits by done.
  rewrite <- E. unfold pad_zero. rewrite parse_digits_zeros by lia.
  apply parse_digits_print; lia.
Qed.

Lemma tz_display_spec off : tz_wf off →
  ∃ h1 h2 m1 m2, Forall is_digit [h1; h2; m1; m2]
    ∧ tz_display off = [if 0 <=? off then x2b else x2d; h1; h2; m1; m2]
    ∧ parse_signed 10 32 [h1; h2] = Some (Z.abs off / 60)
    ∧ parse_signed 10 32 [m1; m2] = Some (Z.abs off mod 60).
Proof.
  unfold tz_wf. intros Hoff. unfold tz_display, abs32.
  destruct (Z.eqb_spec off (- 2 ^ 31)) as [->|_]; [lia|].
  assert (0 ≤ Z.abs off / 60 < 100) as Hh
    by (split; [apply Z.div_pos; lia|apply Z.div_lt_upper_bound; lia]).
  assert (0 ≤ Z.abs off mod 60 < 100) as Hm
    by (pose proof (Z.mod_pos_bound (Z.abs off) 60 ltac:(lia)); lia).
  rewrite Z.quot_div_nonneg, Z.rem_mod_nonneg by lia. unfold fmt_02.
  destruct (Z.ltb_spec (Z.abs off / 60) 0), (Z.ltb_spec (Z.abs off mod 60) 0); try lia.
  destruct (two_digits _ Hh) as (h1 & h2 & -> & ? & ? & ?).
  destruct (two_digits _ Hm) as (m1 & m2 & -> & ? & ? & ?).
  exists h1, h2, m1, m2. split_and!; try done. by rewrite !Forall_cons.
Qed.

Lemma tz_from_str_display off : tz_wf off → tz_from_str (tz_display off) = Ok off.
Proof.
  intros Hoff. destruct (tz_display_spec off Hoff) as (h1 & h2 & m1 & m2 & _ & -> & Hh & Hm).
  unfold tz_from_str. pose proof (Z.div_mod (Z.abs off) 60 ltac:(lia)).
  destruct (Z.leb_spec 0 off);
    cbn [mbind outcome_bind length take drop]; cbn [assert_that Nat.leb];
    cbn [mbind outcome_bind]; rewrite Hh; cbn [unwrap mbind outcome_bind]; rewrite Hm;
    cbn [unwrap mbind outcome_bind]; f_equal; lia.
Qed.

Definition no_ws (s : bytes) : Prop := Forall (λ b, is_ascii_ws b = false) s.

Lemma split_ascii_ws_word w rest :
  no_ws w → w ≠ [] → split_ascii_ws (w ++ x20 :: rest) = w :: split_ascii_ws rest.
Proof.
  intros Hw Hne. induction Hw as [|b w Hb Hw IH]; [done|].
  destruct w as [|c w].
  - simpl. by rewrite Hb.
  - specialize (IH ltac:(done)). inversion_clear Hw as [|?? Hc _].
    change ((b :: c :: w) ++ x20 :: rest) with (b :: c :: (w ++ x20 :: rest)).
    cbn [split_ascii_ws]. rewrite Hb, Hc. cbn [app split_ascii_ws] in IH. rewrite Hc in IH.
    by rewrite IH.
Qed.

Lemma split_ascii_ws_last w : no_ws w → w ≠ [] → split_ascii_ws w = [w].
Proof.
  intros Hw Hne. induction Hw as [|b w Hb Hw IH]; [done|].
  destruct w as [|c w]; [simpl; by rewrite Hb|].
  specialize (IH ltac:(done)). inversion_clear Hw as [|?? Hc _].
  cbn [split_ascii_ws]. rewrite Hb, Hc. cbn [split_ascii_ws] in IH. rewrite Hc in IH. by rewrite IH.
Qed.

Lemma digit_no_ws b : is_digit b → is_ascii_ws b = false.
Proof.
  intros Hb. assert (48 ≤ u8 b < 128) as Hr by (unfold is_digit in Hb; lia).
  destruct b; try done; unfold u8 in Hr; cbn in Hr; lia.
Qed.

Lemma no_ws_print_dec z : no_ws (print_dec z).
Proof.
  unfold print_dec. destruct (Z.ltb_spec z 0); [constructor; [done|]|];
    (eapply Forall_impl; [apply print_radix_digits; lia|]); intros b; apply digit_no_ws.
Qed.

Lemma print_dec_ne z : print_dec z ≠ [].
Proof. unfold print_dec. case_match; [done|apply print_radix_ne]. Qed.

Lemma no_ws_tz off : tz_wf off → no_ws (tz_display off) ∧ (tz_display off ≠ []).
Proof.
  intros Hoff. destruct (tz_display_spec off Hoff) as (h1 & h2 & m1 & m2 & Hd & -> & _).
  split; [|done]. constructor; [by case_match|].
  eapply Forall_impl; [exact Hd|]. intros b; apply digit_no_ws.
Qed.

Lemma time_from_str_display t : time_wf t → time_from_str (x20 :: time_display t) = Ok t.
Proof.
  destruct t as [e o]. intros [He Ho]. cbn in He, Ho. unfold time_from_str, time_display.
  cbn [epoch_time tz_offset]. destruct (no_ws_tz o Ho) as [Hn Hne].
  assert (split_ascii_ws (x20 :: print_dec e ++ bs " " ++ tz_display o)
    = [print_dec e; tz_display o]) as ->.
  { change (split_ascii_ws (x20 :: ?l)) with (split_ascii_ws l).
    change (bs " " ++ tz_display o) with (x20 :: tz_display o).
    rewrite split_ascii_ws_word by (apply no_ws_print_dec || apply print_dec_ne).
    by rewrite split_ascii_ws_last. }
  cbn [lookup list_lookup unwrap mbind outcome_bind]. unfold epoch_from_str.
  rewrite parse_print_signed by lia. cbn [unwrap mbind outcome_bind].
  rewrite tz_from_str_display by done. done.
Qed.

Lemma str_slice_app a s b :
  is_char_boundary (a ++ s ++ b) (length a) = true →
  is_char_boundary (a ++ s ++ b) (length a + length s) = true →
  str_slice (a ++ s ++ b) (length a) (length a + length s) = Ok s.
Proof.
  intros Ha Hb. unfold str_slice. rewrite Ha, Hb, !length_app.
  destruct (Nat.leb_spec (length a) (length a + length s)); [|lia].
  destruct (Nat.leb_spec (length a + length s) (length a + (length s + length b))); [|lia].
  cbn [andb]. rewrite drop_app_length. replace (length a + length s - length a)%nat with (length s) by lia.
  by rewrite take_app_length.
Qed.

Lemma utf8_head_boundary s i : utf8_valid s = true → i = O → is_char_boundary s i = true.
Proof.
  intros Hs ->. unfold is_char_boundary. destruct s as [|b s]; [done|]. simpl.
  destruct (Z.leb_spec 128 (u8 b)), (Z.ltb_spec (u8 b) 192); simpl; try done.
  exfalso. revert Hs. rewrite utf8_valid_run. simpl. unfold utf8_step.
  destruct (Z.ltb_spec (u8 b) 128); [lia|].
  destruct (Z.leb_spec 194 (u8 b)); [lia|]. simpl.
  destruct (Z.eqb_spec (u8 b) 224); [lia|]. destruct (Z.eqb_spec (u8 b) 237); [lia|].
  destruct (Z.leb_spec 225 (u8 b)); [lia|]. simpl.
  destruct (Z.eqb_spec (u8 b) 240); [lia|]. destruct (Z.leb_spec 241 (u8 b)); [lia|]. simpl.
  destruct (Z.eqb_spec (u8 b) 244); [lia|]. done.
Qed.

Lemma boundary_app a s i :
  utf8_valid s = true → i = length a → is_char_boundary (a ++ s) i = true.
Proof.
  intros Hs ->. pose proof (utf8_head_boundary s 0 Hs eq_refl) as H.
  unfold is_char_boundary in *. rewrite lookup_app_r, Nat.sub_diag by lia.
  destruct (s !! 0%nat) eqn:E; [done|].
  rewrite length_app. apply Nat.eqb_eq. apply Nat.eqb_eq in H. lia.
Qed.

Lemma utf8_time_display t : time_wf t → utf8_valid (time_display t) = true.
Proof.
  intros [_ Ho]. unfold time_display. rewrite app_assoc. apply utf8_valid_app.
  - apply utf8_valid_app; [apply utf8_print_dec|done].
  - destruct (tz_display_spec _ Ho) as (h1 & h2 & m1 & m2 & Hd & -> & _).
    apply (utf8_valid_app [_]); [by case_match|by apply utf8_digits].
Qed.

Lemma utf8_signature_display s : signature_wf s → utf8_valid (signature_display s) = true.
Proof.
  intros (_ & _ & _ & Ht & Hn & He). unfold signature_display.
  repeat (apply utf8_valid_app; [done|]). by apply utf8_time_display.
Qed.

Lemma str_slice_split s a x b i j :
  s = a ++ x ++ b → i = length a → j = (length a + length x)%nat →
  utf8_valid (x ++ b) = true → utf8_valid b = true → str_slice s i j = Ok x.
Proof.
  intros -> -> -> Hxb Hb. apply str_slice_app; [by apply boundary_app|].
  rewrite app_assoc. apply boundary_app; [done|by rewrite length_app].
Qed.

Lemma signature_round_trip_lemma s :
  signature_wf s → signature_from_str (signature_display s) = Ok s.
Proof.
  intros Hs. pose proof (utf8_signature_display s Hs) as Hu.
  destruct s as [n e t], Hs as (Hn1 & Hn2 & He & Ht & Hn & Hve).
  cbn [sig_name sig_email sig_time] in *. unfold signature_display in *.
  cbn [sig_name sig_email sig_time] in *.
  pose proof (utf8_time_display t Ht) as Hut. remember (time_display t) as ts eqn:Ets.
  unfold signature_from_str.
  assert (find_byte x3c (n ++ bs " <" ++ e ++ bs "> " ++ ts) = Some (length n + 1)%nat) as ->.
  { replace (n ++ bs " <" ++ e ++ bs "> " ++ ts) with ((n ++ [x20]) ++ x3c :: e ++ bs "> " ++ ts)
      by by rewrite <- app_assoc.
    rewrite find_byte_app by (rewrite not_elem_of_app; split; [done|vm_decide]).
    by rewrite length_app. }
  assert (find_byte x3e (n ++ bs " <" ++ e ++ bs "> " ++ ts)
    = Some (length n + 2 + length e)%nat) as ->.
  { replace (n ++ bs " <" ++ e ++ bs "> " ++ ts) with ((n ++ bs " <" ++ e) ++ x3e :: x20 :: ts)
      by by rewrite <- !app_assoc.
    rewrite find_byte_app by (rewrite !not_elem_of_app; split_and!; [done|vm_decide|done]).
    rewrite !length_app. f_equal. simpl. lia. }
  cbn [unwrap mbind outcome_bind]. unfold assert_that.
  destruct (Nat.leb_spec 1 (length n + 1)); [|lia]. cbn [mbind outcome_bind].
  rewrite Nat.add_sub.
  rewrite (str_slice_split _ [] n (bs " <" ++ e ++ bs "> " ++ ts) 0 (length n)) by
    (done || by repeat (apply utf8_valid_app; [done|])).
  cbn [mbind outcome_bind].
  rewrite (str_slice_split _ (n ++ bs " <") e (bs "> " ++ ts) (length n + 1 + 1));
    [|by rewrite <- !app_assoc|rewrite length_app; simpl; lia|rewrite length_app; simpl; lia
     |by repeat (apply utf8_valid_app; [done|])|by apply utf8_valid_app].
  cbn [mbind outcome_bind].
  rewrite (str_slice_split _ (n ++ bs " <" ++ e ++ bs ">") (x20 :: ts) []);
    [|by rewrite app_nil_r, <- !app_assoc|rewrite !length_app; simpl; lia
     |rewrite !length_app; simpl; lia|rewrite app_nil_r; by apply (utf8_valid_app [x20])|done].
  cbn [mbind outcome_bind]. by rewrite Ets, time_from_str_display.
Qed.


(** ** Theorems *)

(** Printing a signature and parsing the text gives the same signature, for
    every name without angle brackets, every email without [>], every i64 time
    and every offset whose hours have two digits, east or west of Greenwich. *)
Theorem signature_round_trip s : signature_wf s → signature_from_str (signature_display s) = Ok s.
Proof. apply signature_round_trip_lemma. Qed.

Lemma signature_round_trip_witness :
  signature_from_str (bs "Andy Yu <andyyu2004@gmail.com> 1616061862 -0330")
  = Ok (mk_BitSignature (bs "Andy Yu") (bs "andyyu2004@gmail.com") (mk_BitTime 1616061862 (-210))).
Proof.
  apply (signature_round_trip
    (mk_BitSignature (bs "Andy Yu") (bs "andyyu2004@gmail.com") (mk_BitTime 1616061862 (-210)))).
  split_and!; vm_decide.
Defined.
