(* ===== verification/Commit.v ===== *)
(** * Commit

    [libbit/src/obj/commit.rs]: commit objects, their text form and its parser. *)

From Stdlib Require Import ZArith Lia.
From Stdlib Require Import Strings.Byte.
From stdpp Require Import base tactics option list countable strings.
From S2P Require Import Prelude RustStd Data Io Hash Obj Signature.

#[local] Open Scope Z_scope.

Record CommitMessage := mk_CommitMessage { msg_subject : bytes; msg_message : bytes }.

#[export] Instance CommitMessage_eq_dec : EqDecision CommitMessage.
Proof. solve_decision. Defined.

(** [FromStr for CommitMessage]. *)
Definition commit_message_from_str (s : bytes) : CommitMessage :=
  match split_once_str [x0a; x0a] s with
  | Some (subject, message) => mk_CommitMessage subject message
  | None => mk_CommitMessage s []
  end.

(** [Display for CommitMessage]. *)
Definition commit_message_display (m : CommitMessage) : bytes :=
  msg_subject m ++ (if bool_decide (msg_message m = []) then [] else [x0a; x0a] ++ msg_message m).

(** [MergeTag] wraps the text of the field. *)
Record MutableCommit := mk_MutableCommit {
  c_tree : Oid;
  c_author : BitSignature;
  c_committer : BitSignature;
  c_message : CommitMessage;
  c_parents : list Oid;
  c_gpgsig : option bytes;
  c_mergetag : option bytes;
}.

#[export] Instance MutableCommit_eq_dec : EqDecision MutableCommit.
Proof. solve_decision. Defined.

(** [MutableCommit::new_with_gpg] and [MutableCommit::new]. *)
Definition commit_new_with_gpg (tree : Oid) (parents : list Oid) (message : CommitMessage)
    (author committer : BitSignature) (gpgsig : option bytes) : MutableCommit :=
  mk_MutableCommit tree author committer message parents gpgsig None.

Definition commit_new (tree : Oid) (parents : list Oid) (message : CommitMessage)
    (author committer : BitSignature) : MutableCommit :=
  commit_new_with_gpg tree parents message author committer None.

(** [MutableCommit::sole_parent]. *)
Definition sole_parent (c : MutableCommit) : BitResult Oid :=
  match c_parents c with [p] => Ok p | _ => Panic end.

(** The part of [read_commit_msg] after the editor has run: the lines that do not
    start with [#]. *)
Definition collect_commit_msg (file : bytes) : BitResult CommitMessage :=
  _ ← ensure (forallb utf8_valid (split_lines file)) Anyhow;
  let msg := concat (filter (λ l, starts_with [x23] l = false) (lines file)) in
  _ ← ensure (negb (bool_decide (msg = []))) Anyhow;
  Ok (commit_message_from_str msg).

Section text.
Context `{Hex}.

(** [w!(format!("{field} {value}"))]. *)
Definition write_field (field value : bytes) : bytes :=
  indent_lf (field ++ x20 :: value) ++ [x0a].

(** The fields that [serialize] writes, in order. *)
Definition commit_fields (c : MutableCommit) : list (bytes * bytes) :=
  [(bs "tree", oid_display (c_tree c))]
  ++ ((λ p, (bs "parent", oid_display p)) <$> c_parents c)
  ++ [(bs "author", signature_display (c_author c))]
  ++ [(bs "committer", signature_display (c_committer c))]
  ++ (match c_gpgsig c with Some g => [(bs "gpgsig", g)] | None => [] end)
  ++ (match c_mergetag c with Some m => [(bs "mergetab", m)] | None => [] end).

#[export] Instance commit_serialize : Serialize MutableCommit := λ c,
  Ok ((commit_fields c ≫= λ '(f, v), write_field f v)
      ++ [x0a] ++ commit_message_display (c_message c)).

#[export] Instance commit_writable : WritableObject MutableCommit := λ _, TCommit.

(** [CommitBuilder]; the message is set after the loop. *)
Record CommitBuilder := mk_CommitBuilder {
  b_tree : option Oid;
  b_author : option BitSignature;
  b_committer : option BitSignature;
  b_parents : list Oid;
  b_gpgsig : option bytes;
  b_mergetag : option bytes;
}.

Definition builder_default : CommitBuilder := mk_CommitBuilder None None None [] None None.

(** The [match field] of the parser. *)
Definition builder_field (b : CommitBuilder) (field value : bytes) : BitResult CommitBuilder :=
  let '(mk_CommitBuilder t a c ps g m) := b in
  if bool_decide (field = bs "parent") then
    p ← oid_from_str value; Ok (mk_CommitBuilder t a c (ps ++ [p]) g m)
  else if bool_decide (field = bs "tree") then
    t ← oid_from_str value; Ok (mk_CommitBuilder (Some t) a c ps g m)
  else if bool_decide (field = bs "author") then
    a ← signature_from_str value; Ok (mk_CommitBuilder t (Some a) c ps g m)
  else if bool_decide (field = bs "committer") then
    c ← signature_from_str value; Ok (mk_CommitBuilder t a (Some c) ps g m)
  else if bool_decide (field = bs "gpgsig") then Ok (mk_CommitBuilder t a c ps (Some value) m)
  else if bool_decide (field = bs "mergetag") then Ok (mk_CommitBuilder t a c ps g (Some value))
  else Ok b.

(** [CommitBuilder::build]. *)
Definition builder_build (b : CommitBuilder) (message : CommitMessage) : BitResult MutableCommit :=
  tree ← ok_or Anyhow (b_tree b);
  author ← ok_or Anyhow (b_author b);
  committer ← ok_or Anyhow (b_committer b);
  Ok (mk_MutableCommit tree author committer message (b_parents b) (b_gpgsig b) (b_mergetag b)).

(** The inner loop: the lines that continue a value. *)
Fixpoint take_continuations (value : bytes) (ls : list bytes) : bytes * list bytes :=
  match ls with
  | l :: ls' =>
      match strip_prefix [x20] l with
      | Some stripped => take_continuations (value ++ x0a :: stripped) ls'
      | None => (value, ls)
      end
  | [] => (value, [])
  end.

(** The outer loop, with the remaining lines; every iteration takes a line, so the
    number of lines bounds the iterations. *)
Fixpoint parse_fields (fuel : nat) (b : CommitBuilder) (ls : list bytes)
  : BitResult (CommitBuilder * list bytes) :=
  match ls, fuel with
  | [], _ => Ok (b, [])
  | _, O => Panic
  | line :: ls, S fuel =>
      if bool_decide (line = []) then Ok (b, ls)
      else
        '(field, value) ← unwrap (split_once x20 line);
        let '(value, ls) := take_continuations value ls in
        b ← builder_field b field value;
        parse_fields fuel b ls
  end.

Definition commit_parse (s : bytes) : BitResult MutableCommit :=
  _ ← assert_that (forallb utf8_valid (split_lines s));
  let ls := lines s in
  '(b, rest) ← parse_fields (length ls) builder_default ls;
  builder_build b (commit_message_from_str (join_byte x0a rest)).

#[export] Instance commit_deserialize_sized : DeserializeSized MutableCommit := λ size,
  take_all size (λ s, c ← commit_parse s; Ok (c, [])).

End text.

(** ** Well-formedness *)

Definition no_eol (s : bytes) : Prop := (x0a ∉ s) ∧ (x0d ∉ s).

#[export] Instance no_eol_dec s : Decision (no_eol s).
Proof. unfold no_eol. apply _. Defined.

(** A signature on one line. *)
Definition commit_signature_wf (s : BitSignature) : Prop :=
  signature_wf s ∧ no_eol (sig_name s) ∧ no_eol (sig_email s).

(** The subject does not run into the blank line after it. *)
Definition subject_wf (s : bytes) : Prop := split_once_str [x0a; x0a] (s ++ [x0a]) = None.

(** The message that is read from the text of [m], line by line. *)
Definition message_as_read (m : CommitMessage) : CommitMessage :=
  commit_message_from_str (join_byte x0a (lines (commit_message_display m))).

Definition commit_wf (c : MutableCommit) : Prop :=
  oid_wf (c_tree c) ∧ Forall oid_wf (c_parents c)
  ∧ commit_signature_wf (c_author c) ∧ commit_signature_wf (c_committer c)
  ∧ (∀ g, c_gpgsig c = Some g → (x0d ∉ g) ∧ utf8_valid g = true)
  ∧ (∀ m, c_mergetag c = Some m → (x0d ∉ m) ∧ utf8_valid m = true)
  ∧ utf8_valid (commit_message_display (c_message c)) = true.

(** ** Lemmas: messages *)

Lemma split_once_str_first a b :
  split_once_str [x0a; x0a] (a ++ [x0a]) = None →
  split_once_str [x0a; x0a] (a ++ [x0a; x0a] ++ b) = Some (a, b).
Proof.
  induction a as [|d a IH]; intros Ha; [done|].
  assert (starts_with [x0a; x0a] (d :: a ++ [x0a]) = false) as H1
    by (simpl app in Ha; cbn [split_once_str] in Ha; by destruct (starts_with _ (d :: _))).
  assert (split_once_str [x0a; x0a] (a ++ [x0a]) = None) as H2.
  { simpl app in Ha; cbn [split_once_str] in Ha; rewrite H1 in Ha.
    by destruct (split_once_str _ (a ++ [x0a])) as [[? ?]|]. }
  change ((d :: a) ++ [x0a; x0a] ++ b) with (d :: (a ++ [x0a; x0a] ++ b)).
  cbn [split_once_str]. rewrite IH by done.
  enough (starts_with [x0a; x0a] (d :: a ++ [x0a; x0a] ++ b) = false) as -> by done.
  revert H1. destruct a as [|d2 a]; cbn; by destruct (bool_decide (x0a = d)).
Qed.

Lemma split_once_str_none a :
  split_once_str [x0a; x0a] (a ++ [x0a]) = None → split_once_str [x0a; x0a] a = None.
Proof.
  induction a as [|d a IH]; intros Ha; [done|]. simpl app in Ha. cbn [split_once_str] in Ha |- *.
  destruct (starts_with [x0a; x0a] (d :: a ++ [x0a])) eqn:H1; [done|].
  rewrite IH by by destruct (split_once_str _ (a ++ [x0a])) as [[? ?]|].
  enough (starts_with [x0a; x0a] (d :: a) = false) as -> by done.
  revert H1. destruct a as [|d2 a]; cbn; by destruct (bool_decide (x0a = d)).
Qed.

Lemma commit_message_from_display m :
  subject_wf (msg_subject m) → commit_message_from_str (commit_message_display m) = m.
Proof.
  destruct m as [s m]. unfold subject_wf, commit_message_from_str, commit_message_display.
  cbn [msg_subject msg_message]. intros Hs. case_bool_decide; subst.
  - rewrite app_nil_r, split_once_str_none; done.
  - by rewrite split_once_str_first.
Qed.

(** What reading by lines does to a message: nothing to one without carriage returns that does
    not end in a line feed; it takes a final line feed off the body. *)
Lemma message_as_read_same m :
  subject_wf (msg_subject m) → x0d ∉ commit_message_display m → ends_with_lf (commit_message_display m) = false →
  message_as_read m = m.
Proof.
  intros Hs Hcr He. unfold message_as_read. rewrite lines_no_cr, join_split_lines by done.
  by apply commit_message_from_display.
Qed.

Lemma message_as_read_final_lf s b :
  subject_wf s → x0d ∉ s → x0d ∉ b → message_as_read (mk_CommitMessage s (b ++ [x0a])) = mk_CommitMessage s b.
Proof.
  intros Hs Hcs Hcb. unfold message_as_read, commit_message_display. cbn [msg_subject msg_message].
  rewrite bool_decide_false by by destruct b.
  assert (s ++ [x0a; x0a] ++ b ++ [x0a] = (s ++ [x0a; x0a] ++ b) ++ [x0a]) as -> by by rewrite <- !app_assoc.
  rewrite lines_no_cr, join_split_lines_lf.
  - unfold commit_message_from_str. by rewrite split_once_str_first.
  - rewrite !not_elem_of_app. split_and!; [done|vm_decide|done|vm_decide].
Qed.

(** ** Lemmas: fields *)

Definition field_name_ok (f : bytes) : Prop := (f ≠ []) ∧ (x20 ∉ f) ∧ (x0a ∉ f).

#[export] Instance field_name_ok_dec f : Decision (field_name_ok f).
Proof. unfold field_name_ok. apply _. Defined.

(** The lines a field is written as. *)
Definition field_lines (f v : bytes) : list bytes :=
  match split_byte x0a v with
  | s0 :: ss => (f ++ x20 :: s0) :: ((x20 ::.) <$> ss)
  | [] => []
  end.

Lemma write_field_lines f v :
  field_name_ok f →
  (∀ rest, split_lines (write_field f v ++ rest) = field_lines f v ++ split_lines rest).
Proof.
  intros (_ & _ & Hf) rest. unfold write_field, field_lines.
  pose proof (split_byte_ne x0a v). pose proof (split_byte_no x0a v) as Hno.
  rewrite <- (join_split_byte x0a v) at 1.
  destruct (split_byte x0a v) as [|s0 ss]; [done|]. inversion_clear Hno as [|?? Hs0 Hss].
  assert (f ++ x20 :: join_byte x0a (s0 :: ss) = join_byte x0a ((f ++ x20 :: s0) :: ss)) as ->
    by (destruct ss; [done|]; cbn [join_byte]; by rewrite <- app_assoc).
  assert (x0a ∉ f ++ x20 :: s0) as Hfs
    by (rewrite not_elem_of_app, not_elem_of_cons; done).
  rewrite indent_lf_join by done. rewrite <- app_assoc. cbn [app].
  rewrite split_lines_join; [done|done|]. constructor; [done|].
  apply Forall_fmap. eapply Forall_impl; [exact Hss|]. intros l Hl. cbn.
  by rewrite not_elem_of_cons.
Qed.

(** The line after a value does not continue it. *)
Definition stops (ls : list bytes) : Prop :=
  match ls with [] => True | l :: _ => strip_prefix [x20] l = None end.

Lemma take_continuations_ok ss value rest :
  stops rest →
  take_continuations value (((x20 ::.) <$> ss) ++ rest) = (join_byte x0a (value :: ss), rest).
Proof.
  revert value; induction ss as [|s ss IH]; intros value Hr.
  - destruct rest as [|l rest]; [done|]. cbn in *. by rewrite Hr.
  - cbn [fmap list_fmap app take_continuations].
    change (x20 :: s) with ([x20] ++ s). rewrite strip_prefix_app, IH by done.
    destruct ss; simpl; by rewrite <- ?app_assoc.
Qed.

Lemma starts_not_space f l : field_name_ok f → stops ((f ++ l) :: []).
Proof.
  intros (Hne & Hf & _). destruct f as [|c f]; [done|]. cbn.
  rewrite not_elem_of_cons in Hf. destruct Hf as [Hc _]. unfold strip_prefix. cbn.
  by rewrite bool_decide_false.
Qed.

Section fields.
Context `{Hex}.

Lemma parse_fields_step fuel b f v rest :
  field_name_ok f → stops rest →
  parse_fields (S fuel) b (field_lines f v ++ rest)
  = (b ← builder_field b f v; parse_fields fuel b rest).
Proof.
  intros Hf Hr. unfold field_lines. pose proof (split_byte_ne x0a v).
  rewrite <- (join_split_byte x0a v) at 2.
  destruct (split_byte x0a v) as [|s0 ss]; [done|]. cbn [app parse_fields].
  rewrite bool_decide_false by by destruct f. destruct Hf as (_ & Hf & _).
  rewrite split_once_app by done. cbn [unwrap mbind outcome_bind].
  by rewrite take_continuations_ok.
Qed.

Fixpoint builder_fields (b : CommitBuilder) (fs : list (bytes * bytes)) : BitResult CommitBuilder :=
  match fs with
  | [] => Ok b
  | (f, v) :: fs => b ← builder_field b f v; builder_fields b fs
  end.

Lemma stops_fields fs msg :
  Forall (λ fv, field_name_ok fv.1) fs → stops ((fs ≫= λ '(f, v), field_lines f v) ++ [] :: msg).
Proof.
  destruct 1 as [|[f v] fs Hf _]; [done|]. cbn.
  unfold field_lines. pose proof (split_byte_ne x0a v).
  destruct (split_byte x0a v) as [|s0 ss]; [done|]. cbn. apply (starts_not_space f _ Hf).
Qed.

Lemma parse_fields_ok fs : ∀ fuel b msg,
  Forall (λ fv, field_name_ok fv.1) fs → (length fs < fuel)%nat →
  parse_fields fuel b ((fs ≫= λ '(f, v), field_lines f v) ++ [] :: msg)
  = (b ← builder_fields b fs; Ok (b, msg)).
Proof.
  induction fs as [|[f v] fs IH]; intros fuel b msg Hfs Hf; (destruct fuel as [|fuel]; [simpl in Hf; lia|]).
  - done.
  - inversion_clear Hfs as [|?? Hok Hrest]. cbn [mbind list_bind]. rewrite <- app_assoc.
    pose proof (stops_fields fs msg Hrest) as Hst. cbn [mbind] in Hst.
    rewrite parse_fields_step by done. cbn [builder_fields].
    destruct (builder_field b f v) as [b'| |]; [|done..]. cbn [mbind outcome_bind].
    rewrite IH; [done|done|]. simpl in Hf. lia.
Qed.

Lemma split_lines_fields fs rest :
  Forall (λ fv, field_name_ok fv.1) fs →
  split_lines ((fs ≫= λ '(f, v), write_field f v) ++ rest)
  = (fs ≫= λ '(f, v), field_lines f v) ++ split_lines rest.
Proof.
  induction 1 as [|[f v] fs Hf _ IH]; [done|]. cbn [mbind list_bind].
  rewrite <- !app_assoc, write_field_lines by done. by rewrite IH.
Qed.

Lemma commit_fields_names c : Forall (λ fv, field_name_ok fv.1) (commit_fields c).
Proof.
  unfold commit_fields. repeat (apply Forall_app; split); repeat constructor;
    try (cbn; vm_decide).
  - apply Forall_fmap, Forall_true. intros p. cbn. vm_decide.
  - case_match; repeat constructor; cbn; vm_decide.
  - case_match; repeat constructor; cbn; vm_decide.
Qed.
End fields.

Lemma write_field_no_cr f v : x0d ∉ f → x0d ∉ v → x0d ∉ write_field f v.
Proof.
  intros Hf Hv. unfold write_field. rewrite not_elem_of_app. split; [|vm_decide].
  intros [Hin|?]%elem_of_indent; [|done]. revert Hin.
  rewrite elem_of_app, elem_of_cons. intros [?|[?|?]]; done.
Qed.

Lemma write_field_utf8 f v :
  utf8_valid f = true → utf8_valid v = true → utf8_valid (write_field f v) = true.
Proof.
  intros Hf Hv. unfold write_field. apply utf8_valid_app; [|done]. apply utf8_indent.
  apply utf8_valid_app; [done|]. by apply (utf8_valid_app [x20]).
Qed.

Lemma time_display_no_eol t : time_wf t → no_eol (time_display t).
Proof.
  intros [_ Ho]. unfold time_display.
  destruct (tz_display_spec _ Ho) as (h1 & h2 & m1 & m2 & Hd & -> & _).
  split; rewrite !not_elem_of_app, not_elem_of_cons; split_and!;
    try (apply print_dec_no; [nondigit|done]); try vm_decide;
    try (by case_match); (eapply not_digit; [exact Hd|nondigit]).
Qed.

Lemma signature_display_no_cr s : commit_signature_wf s → x0d ∉ signature_display s.
Proof.
  intros ((_ & _ & _ & Ht & _) & Hn & He). unfold signature_display.
  rewrite !not_elem_of_app. split_and!; [apply Hn|vm_decide|apply He|vm_decide|].
  by apply time_display_no_eol.
Qed.

Section round_trip.
Context `{Hex}.

(** A field that is read back as it was written. *)
Definition field_clean (fv : bytes * bytes) : Prop :=
  (x0d ∉ fv.1) ∧ (x0d ∉ fv.2) ∧ utf8_valid fv.1 = true ∧ utf8_valid fv.2 = true.

Lemma oid_field_clean f oid : x0d ∉ f → utf8_valid f = true → field_clean (f, oid_display oid).
Proof.
  intros Hf Hu. pose proof (oid_display_digits oid) as Hd. split_and!; cbn; try done.
  - eapply not_digit; [exact Hd|nondigit].
  - by apply utf8_digits.
Qed.

Lemma signature_field_clean f s :
  x0d ∉ f → utf8_valid f = true → commit_signature_wf s → field_clean (f, signature_display s).
Proof.
  intros Hf Hu Hs. split_and!; try done; [by apply signature_display_no_cr|].
  by apply utf8_signature_display, Hs.
Qed.

Lemma commit_fields_clean c : commit_wf c → Forall field_clean (commit_fields c).
Proof.
  intros (Ht & Hp & Ha & Hc & Hg & Hm & _). unfold commit_fields.
  rewrite !Forall_app, !Forall_singleton. split_and!.
  - apply oid_field_clean; vm_decide.
  - apply Forall_fmap, Forall_true. intros p. apply oid_field_clean; vm_decide.
  - apply signature_field_clean; [vm_decide|done|done].
  - apply signature_field_clean; [vm_decide|done|done].
  - destruct (c_gpgsig c) as [g|]; [|done]. destruct (Hg g eq_refl).
    apply Forall_singleton. split_and!; try done. vm_decide.
  - destruct (c_mergetag c) as [g|]; [|done]. destruct (Hm g eq_refl).
    apply Forall_singleton. split_and!; try done. vm_decide.
Qed.

Lemma fields_text_clean fs :
  Forall field_clean fs →
  (x0d ∉ fs ≫= λ '(f, v), write_field f v) ∧ utf8_valid (fs ≫= λ '(f, v), write_field f v) = true.
Proof.
  induction 1 as [|[f v] fs (Hf & Hv & Huf & Huv) _ [IH1 IH2]]; cbn [mbind list_bind];
    [split; [apply not_elem_of_nil|done]|]. split.
  - rewrite not_elem_of_app. split; [by apply write_field_no_cr|done].
  - apply utf8_valid_app; [by apply write_field_utf8|done].
Qed.

Lemma builder_fields_app b fs1 fs2 :
  builder_fields b (fs1 ++ fs2) = (b ← builder_fields b fs1; builder_fields b fs2).
Proof.
  revert b; induction fs1 as [|[f v] fs1 IH]; intros b; [done|]. cbn.
  destruct (builder_field b f v); cbn; [apply IH|done|done].
Qed.

Lemma oid_from_display oid : oid_wf oid → oid_from_str (oid_display oid) = Ok oid.
Proof.
  intros Ho. pose proof (oid_from_str_display oid [] Ho (Forall_nil_2 _)) as E.
  by rewrite app_nil_r in E.
Qed.

Lemma builder_parents t a c g m ps ps' :
  Forall oid_wf ps' →
  builder_fields (mk_CommitBuilder t a c ps g m) ((λ p, (bs "parent", oid_display p)) <$> ps')
  = Ok (mk_CommitBuilder t a c (ps ++ ps') g m).
Proof.
  intros Hps. revert ps. induction Hps as [|p ps' Hp _ IH]; intros ps; cbn [fmap list_fmap];
    [by rewrite app_nil_r|].
  cbn [builder_fields]. unfold builder_field. rewrite bool_decide_true by done.
  rewrite oid_from_display by done. cbn [mbind outcome_bind]. rewrite IH.
  by rewrite <- app_assoc.
Qed.

Lemma builder_commit_fields c :
  commit_wf c →
  builder_fields builder_default (commit_fields c)
  = Ok (mk_CommitBuilder (Some (c_tree c)) (Some (c_author c)) (Some (c_committer c))
          (c_parents c) (c_gpgsig c) None).
Proof.
  intros (Ht & Hp & [Ha _] & [Hc _] & Hg & Hm & _). unfold commit_fields.
  rewrite builder_fields_app. cbn [builder_fields]. unfold builder_field at 1, builder_default.
  rewrite bool_decide_false, bool_decide_true by done.
  rewrite oid_from_display by done. cbn [mbind outcome_bind].
  rewrite builder_fields_app, builder_parents by done. cbn [mbind outcome_bind].
  rewrite builder_fields_app. cbn [builder_fields builder_field].
  rewrite bool_decide_false, bool_decide_false, bool_decide_true by done.
  rewrite signature_round_trip_lemma by done. cbn [mbind outcome_bind].
  rewrite builder_fields_app. cbn [builder_fields builder_field].
  rewrite !bool_decide_false, bool_decide_true by done.
  rewrite signature_round_trip_lemma by done. cbn [mbind outcome_bind].
  by destruct (c_gpgsig c), (c_mergetag c).
Qed.

(** The commit that is read back: the message as it is read by lines, and no mergetag. *)
Definition commit_as_read (c : MutableCommit) : MutableCommit :=
  mk_MutableCommit (c_tree c) (c_author c) (c_committer c) (message_as_read (c_message c)) (c_parents c)
    (c_gpgsig c) None.

Lemma commit_reads c :
  commit_wf c →
  ∃ w, serialize c = Ok w ∧ reads (deserialize_sized (Z.of_nat (length w))) w (commit_as_read c).
Proof.
  intros Hc. eexists. split; [reflexivity|]. apply reads_take_all; [done|].
  enough (commit_parse ((commit_fields c ≫= λ '(f, v), write_field f v)
      ++ [x0a] ++ commit_message_display (c_message c)) = Ok (commit_as_read c)) as -> by done.
  pose proof (commit_fields_names c) as Hn.
  destruct (fields_text_clean _ (commit_fields_clean c Hc)) as [Hcr Hu].
  pose proof Hc as (_ & _ & _ & _ & _ & _ & Hmu). unfold commit_parse.
  rewrite utf8_split_lines by (apply utf8_valid_app; [done|by apply (utf8_valid_app [x0a])]).
  cbn [assert_that mbind outcome_bind app].
  rewrite lines_app, lines_no_cr by (rewrite not_elem_of_app; split; [done|vm_decide]).
  rewrite split_lines_fields by done. change (split_lines [x0a]) with [[] : bytes].
  rewrite <- app_assoc. cbn [app]. rewrite parse_fields_ok; [|done|].
  - by rewrite builder_commit_fields.
  - rewrite length_app. cbn [length]. enough (length (commit_fields c) ≤
      length (commit_fields c ≫= λ '(f, v), field_lines f v))%nat by lia.
    apply length_bind_ge. intros [f v] _. unfold field_lines.
    pose proof (split_byte_ne x0a v). destruct (split_byte x0a v); [done|]. simpl. lia.
Qed.


(** ** Theorems *)

(** C35: A commit that is written and parsed keeps its tree, its parents in order, both signatures and
    a multi-line [gpgsig].  The message is read line by line: it comes back unchanged when its text
    has no carriage return and does not end in a line feed, and without its final line feed when the
    body ends in one; a mergetag is lost. *)
Theorem commit_round_trip c :
  commit_wf c →
  (∃ w, serialize c = Ok w
    ∧ reads (deserialize_sized (Z.of_nat (length w))) w
        (mk_MutableCommit (c_tree c) (c_author c) (c_committer c) (message_as_read (c_message c)) (c_parents c)
           (c_gpgsig c) None))
  ∧ (subject_wf (msg_subject (c_message c)) → x0d ∉ commit_message_display (c_message c) →
      (ends_with_lf (commit_message_display (c_message c)) = false → message_as_read (c_message c) = c_message c)
      ∧ ∀ b, msg_message (c_message c) = b ++ [x0a] →
          message_as_read (c_message c) = mk_CommitMessage (msg_subject (c_message c)) b).
Proof.
  intros Hc. split; [exact (commit_reads c Hc)|]. intros Hs Hcr. split; [by apply message_as_read_same|].
  destruct (c_message c) as [s m]. intros b Hm. cbn [msg_message msg_subject] in *. subst m.
  unfold commit_message_display in Hcr. cbn [msg_message msg_subject] in Hcr.
  rewrite bool_decide_false in Hcr by by destruct b. rewrite !not_elem_of_app in Hcr.
  destruct Hcr as (? & _ & ? & _). by apply message_as_read_final_lf.
Qed.

(** The mergetag of a commit is written under the name [mergetab], which the
    parser does not know: reading the commit back gives a commit without it. *)
Theorem mergetag_lost c tag :
  commit_wf c → c_mergetag c = Some tag →
  ∃ w, serialize c = Ok w
    ∧ reads (deserialize_sized (Z.of_nat (length w))) w (commit_as_read c)
    ∧ c_mergetag (commit_as_read c) = None ∧ commit_as_read c ≠ c.
Proof.
  intros Hc Hm. destruct (commit_reads c Hc) as (w & Hw & Hr). exists w. split_and!; try done.
  intros E. by rewrite <- E in Hm.
Qed.

End round_trip.

Definition sample_signature : BitSignature :=
  mk_BitSignature (bs "A U Thor") (bs "a@b.c") (mk_BitTime 1234567890 780).

(** A merge commit with a multi-line signature and a body that ends in a line feed. *)
Definition sample_commit : MutableCommit :=
  mk_MutableCommit EMPTY_TREE sample_signature sample_signature
    (mk_CommitMessage (bs "subject") (bs "body" ++ [x0a])) [EMPTY_BLOB; EMPTY_TREE]
    (Some (bs "-----BEGIN" ++ [x0a; x0a] ++ bs "-----END")) None.

Lemma sample_commit_wf : commit_wf sample_commit.
Proof.
  split_and!; try vm_decide; try (split_and!; vm_decide).
  - intros g [= <-]. split; vm_decide.
  - done.
Qed.

Lemma commit_round_trip_witness :
  ∃ w, serialize sample_commit = Ok w
    ∧ reads (deserialize_sized (Z.of_nat (length w))) w
        (mk_MutableCommit EMPTY_TREE sample_signature sample_signature (mk_CommitMessage (bs "subject") (bs "body"))
           [EMPTY_BLOB; EMPTY_TREE] (Some (bs "-----BEGIN" ++ [x0a; x0a] ++ bs "-----END")) None).
Proof.
  destruct (commit_round_trip sample_commit sample_commit_wf) as [(w & Hw & Hr) Hm].
  exists w. split; [exact Hw|]. destruct Hm as [_ Hm]; [reflexivity|vm_decide|].
  rewrite (Hm (bs "body") eq_refl) in Hr. exact Hr.
Defined.

Definition sample_tagged_commit : MutableCommit :=
  mk_MutableCommit EMPTY_TREE sample_signature sample_signature
    (mk_CommitMessage (bs "subject") []) [] None (Some (bs "object 1")).

Lemma mergetag_lost_witness :
  ∃ w, serialize sample_tagged_commit = Ok w
    ∧ reads (deserialize_sized (Z.of_nat (length w))) w (commit_as_read sample_tagged_commit)
    ∧ c_mergetag (commit_as_read sample_tagged_commit) = None
    ∧ commit_as_read sample_tagged_commit ≠ sample_tagged_commit.
Proof.
  apply (mergetag_lost sample_tagged_commit (bs "object 1")); [|reflexivity].
  split_and!; try vm_decide; try (split_and!; vm_decide).
  - done.
  - intros g [= <-]. split; vm_decide.
Defined.
