(* ===== verification/Delta.v ===== *)
(** * Delta

    [libbit/src/delta.rs]: the deltas of packfiles, their decoder and their
    application to a base object; [BitPackObjRaw::expand_with_delta] of
    [libbit/src/pack.rs]. *)

From Stdlib Require Import ZArith Lia.
From Stdlib Require Import Strings.Byte.
From stdpp Require Import base tactics option list countable strings.
From S2P Require Import Prelude RustStd Data Io Varint Obj.

#[local] Open Scope Z_scope.

Inductive DeltaOp :=
| Copy (offset size : Z)
| Insert (b : bytes).

#[export] Instance DeltaOp_eq_dec : EqDecision DeltaOp.
Proof. solve_decision. Defined.

Record Delta := mk_Delta { source_size : Z; target_size : Z; delta_ops : list DeltaOp }.

#[export] Instance Delta_eq_dec : EqDecision Delta.
Proof. solve_decision. Defined.

(** [Deserialize for DeltaOp]. *)
#[export] Instance delta_op_deserialize : Deserialize DeltaOp :=
  byte ← read_u8;
  if negb (Z.land byte 0x80 =? 0) then
    n ← read_le_packed byte;
    let offset := Z.land n 0xFFFFFFFF in
    let size := Z.shiftr n 32 in
    let size := if size =? 0 then 0x10000 else size in
    mret (Copy offset size)
  else
    _ ← lift (assert_that (negb (byte =? 0)));
    let n := Z.land byte 0x7f in
    bytes ← take_all n read_to_vec;
    mret (Insert bytes).

(** [DeserializeSized for Delta]: the limit [size] starts after the two sizes. *)
#[export] Instance delta_deserialize_sized : DeserializeSized Delta := λ size,
  source_size ← read_size;
  target_size ← read_size;
  ops ← take_all size (read_to_eof (deserialize (A:=DeltaOp)));
  mret (mk_Delta source_size target_size ops).

(** [&bytes[offset..offset + size]]. *)
Definition slice_range (b : bytes) (offset size : Z) : BitResult bytes :=
  if (0 <=? offset) && (0 <=? size) && (offset + size <=? Z.of_nat (length b))
  then Ok (take (Z.to_nat size) (drop (Z.to_nat offset) b)) else Panic.

(** The loop of [expand] over the operations. *)
Fixpoint expand_ops (b : bytes) (ops : list DeltaOp) (expanded : bytes) : BitResult bytes :=
  match ops with
  | [] => Ok expanded
  | op :: ops =>
      slice ← match op with
              | Copy offset size => slice_range b offset size
              | Insert slice => Ok slice
              end;
      expand_ops b ops (expanded ++ slice)
  end.

(** [Delta::expand]. *)
Definition expand (d : Delta) (b : bytes) : BitResult bytes :=
  _ ← ensure (source_size d =? Z.of_nat (length b)) Anyhow;
  expanded ← expand_ops b (delta_ops d) [];
  _ ← ensure (target_size d =? Z.of_nat (length expanded)) Anyhow;
  Ok expanded.

(** [BitPackObjRaw::expand_with_delta] and [expand_with_delta_bytes]. *)
Definition expand_with_delta (raw : BitPackObjRaw) (d : Delta) : BitResult BitPackObjRaw :=
  b ← expand d (raw_bytes raw);
  Ok (mk_BitPackObjRaw (raw_obj_type raw) b).

Definition expand_with_delta_bytes (raw : BitPackObjRaw) (delta_bytes : bytes)
  : BitResult BitPackObjRaw :=
  d ← deserialize_from_slice delta_bytes;
  expand_with_delta raw d.

(** ** Specification *)

(** The encodings of an operation: a copy with any header whose bits announce
    every byte of offset and size that is not zero (size 0x10000 may be left
    out), or an insertion of 1 to 127 bytes. *)
Inductive op_encodes : DeltaOp → bytes → Prop :=
| enc_copy h offset size n :
    128 ≤ h < 256 → 0 ≤ offset < 2 ^ 32 → 0 ≤ n < 2 ^ 24 →
    size = (if n =? 0 then 0x10000 else n) →
    packed_covers h (offset + n * 2 ^ 32) →
    op_encodes (Copy offset size) (byte_of_Z h :: packed_encode 7 h (offset + n * 2 ^ 32))
| enc_insert b :
    (1 ≤ length b ≤ 127)%nat →
    op_encodes (Insert b) (byte_of_Z (Z.of_nat (length b)) :: b).

(** The encodings of a delta. *)
Definition delta_encodes (d : Delta) (w : bytes) : Prop :=
  fits 64 (source_size d) ∧ fits 64 (target_size d) ∧
  ∃ ws, Forall2 op_encodes (delta_ops d) ws ∧
    w = size_encode_with 0 0 (source_size d) ++ size_encode_with 0 0 (target_size d) ++ concat ws.

(** What an operation contributes to the target, when it stays in the base. *)
Definition op_bytes (b : bytes) (op : DeltaOp) : bytes :=
  match op with
  | Copy offset size => take (Z.to_nat size) (drop (Z.to_nat offset) b)
  | Insert slice => slice
  end.

Definition op_in_range (b : bytes) (op : DeltaOp) : Prop :=
  match op with
  | Copy offset size => 0 ≤ offset ∧ 0 ≤ size ∧ offset + size ≤ Z.of_nat (length b)
  | Insert _ => True
  end.

#[export] Instance op_in_range_dec b op : Decision (op_in_range b op).
Proof. destruct op; apply _. Defined.

(** ** Lemmas *)

Lemma reads_size n : fits 64 n → reads read_size (size_encode_with 0 0 n) n.
Proof.
  intros Hn. eapply reads_eq.
  - apply reads_fmap. apply (reads_le_varint_with_shift 0 0 n); [lia|lia|done].
  - done.
Qed.

Lemma low_high_split offset n :
  0 ≤ offset < 2 ^ 32 → 0 ≤ n →
  Z.land (offset + n * 2 ^ 32) 0xFFFFFFFF = offset ∧ Z.shiftr (offset + n * 2 ^ 32) 32 = n.
Proof.
  intros Ho Hn. split.
  - change 0xFFFFFFFF with (Z.ones 32). rewrite Z.land_ones by lia.
    rewrite Z.mod_add by lia. by apply Z.mod_small.
  - rewrite Z.shiftr_div_pow2, Z.div_add, Z.div_small by lia. done.
Qed.

Lemma op_encodes_reads op w :
  op_encodes op w → reads deserialize w op ∧ (1 ≤ length w)%nat.
Proof.
  intros Henc. split; [|destruct Henc; simpl; lia].
  unfold deserialize, delta_op_deserialize. destruct Henc as [h o s n Hh Ho Hn -> Hc|b Hb].
  - change (byte_of_Z h :: ?l) with (write_u8 h ++ l).
    eapply reads_bind; [apply reads_u8; unfold fits; lia|].
    rewrite msb_set by lia. cbn [negb].
    eapply reads_bind_last; [apply reads_le_packed; [lia|done]|].
    destruct (low_high_split o n Ho ltac:(lia)) as [-> ->]. apply reads_ret.
  - change (byte_of_Z ?h :: ?l) with (write_u8 h ++ l).
    eapply reads_bind; [apply reads_u8; unfold fits; lia|].
    rewrite msb_clear by lia. cbn [negb].
    eapply reads_bind_nil.
    { apply reads_lift. destruct (Z.eqb_spec (Z.of_nat (length b)) 0); [lia|done]. }
    rewrite land_7f, Z.mod_small by lia.
    eapply reads_bind_last; [by apply (reads_take_all read_to_vec b b)|]. apply reads_ret.
Qed.

Lemma read_ops ops ws :
  Forall2 op_encodes ops ws → ∀ fuel acc, (length ops ≤ fuel)%nat →
  read_to_eof_loop (deserialize (A:=DeltaOp)) fuel acc (concat ws) = Ok (acc ++ ops, []).
Proof.
  induction 1 as [|op w ops ws Hop _ IH]; intros fuel acc Hf.
  - destruct fuel; cbn; by rewrite app_nil_r.
  - destruct fuel as [|fuel]; [simpl in Hf; lia|]. cbn [concat].
    destruct (op_encodes_reads op w Hop) as [Hr Hl]. specialize (Hr (concat ws)).
    destruct (w ++ concat ws) as [|c s] eqn:Es.
    + apply (f_equal length) in Es. rewrite length_app in Es. simpl in Es. lia.
    + cbn [read_to_eof_loop]. rewrite Hr. cbn. rewrite IH by (simpl in Hf; lia).
      by rewrite <- app_assoc.
Qed.

Lemma ops_length ops ws : Forall2 op_encodes ops ws → (length ops ≤ length (concat ws))%nat.
Proof.
  induction 1 as [|op w ops ws Hop _ IH]; cbn; [lia|].
  destruct (op_encodes_reads op w Hop) as [_ Hl]. rewrite length_app. lia.
Qed.

Lemma delta_from_slice d w : delta_encodes d w → deserialize_from_slice w = Ok d.
Proof.
  intros (Hs & Ht & ws & Hws & ->). unfold deserialize_from_slice, deserialize_sized.
  unfold delta_deserialize_sized. destruct d as [ss ts ops]. cbn in *.
  unfold mbind at 1, reader_bind at 1. rewrite (reads_size ss Hs).
  unfold mbind at 1, reader_bind at 1. rewrite (reads_size ts Ht).
  unfold mbind, reader_bind, take_all. rewrite take_ge by (rewrite !length_app; lia).
  unfold read_to_eof. by rewrite (read_ops ops ws Hws) by by apply ops_length.
Qed.

Lemma expand_ops_ok b ops acc :
  Forall (op_in_range b) ops → expand_ops b ops acc = Ok (acc ++ (ops ≫= op_bytes b)).
Proof.
  intros H. revert acc. induction H as [|op ops Hop _ IH]; intros acc; cbn;
    [by rewrite app_nil_r|].
  assert (match op with Copy offset size => slice_range b offset size | Insert s => Ok s end
    = Ok (op_bytes b op)) as ->.
  { destruct op as [o s|s]; [|done]. cbn in Hop |- *. unfold slice_range.
    destruct (Z.leb_spec 0 o), (Z.leb_spec 0 s), (Z.leb_spec (o + s) (Z.of_nat (length b)));
      try lia. done. }
  cbn. rewrite IH, <- app_assoc. done.
Qed.

Lemma expand_ops_panic b ops acc :
  ¬ Forall (op_in_range b) ops → expand_ops b ops acc = Panic.
Proof.
  revert acc. induction ops as [|op ops IH]; intros acc Hn; [destruct Hn; constructor|].
  cbn. destruct (decide (op_in_range b op)) as [Hop|Hop].
  - assert (¬ Forall (op_in_range b) ops) as Hn' by (intros ?; apply Hn; by constructor).
    destruct op as [o s|s]; cbn; [|by apply IH].
    destruct (slice_range b o s) eqn:E; cbn; [by apply IH| |done].
    unfold slice_range in E. by case_match.
  - destruct op as [o s|s]; [|by destruct Hop]. cbn in Hop. unfold slice_range.
    destruct (Z.leb_spec 0 o), (Z.leb_spec 0 s), (Z.leb_spec (o + s) (Z.of_nat (length b)));
      try done. lia.
Qed.

(** ** Theorems *)

(** Decoding is complete: whichever headers an encoder chose for the copies,
    [Delta::deserialize_from_slice] recovers the sizes and the operations of
    every delta that the format can express. *)
Theorem delta_decodes d w : delta_encodes d w → deserialize_from_slice w = Ok d.
Proof. apply delta_from_slice. Qed.

(** The delta "copy 3 bytes at 2, insert xy". *)
Definition sample_delta : Delta := mk_Delta 5 5 [Copy 2 3; Insert (bs "xy")].

Lemma sample_delta_encodes : delta_encodes sample_delta (x05 :: x05 :: x91 :: x02 :: x03 :: x02 :: bs "xy").
Proof.
  split; [vm_decide|]. split; [vm_decide|].
  exists [[x91; x02; x03]; x02 :: bs "xy"]. split; [|reflexivity].
  constructor; [|constructor; [|constructor]].
  - apply (enc_copy 145 2 3 3); try lia; try done.
    intros i Hi Ht. assert (i = 0 ∨ i = 1 ∨ i = 2 ∨ i = 3 ∨ i = 4 ∨ i = 5 ∨ i = 6) as Hc by lia.
    repeat (destruct Hc as [->|Hc]; [first [reflexivity|discriminate Ht]|]).
    subst i. reflexivity.
  - apply (enc_insert (bs "xy")). cbn. lia.
Qed.

Lemma delta_decodes_witness :
  deserialize_from_slice (x05 :: x05 :: x91 :: x02 :: x03 :: x02 :: bs "xy") = Ok sample_delta.
Proof. apply (delta_decodes sample_delta). apply sample_delta_encodes. Defined.

(** [Delta::expand] on every branch: an error when the base does not have the
    announced size; otherwise a panic when a copy leaves the base; otherwise an
    error when the result does not have the announced size; otherwise exactly the
    concatenation of what the operations stand for. *)
Theorem expand_correct d b :
  expand d b =
    if decide (source_size d = Z.of_nat (length b)) then
      if decide (Forall (op_in_range b) (delta_ops d)) then
        let out := delta_ops d ≫= op_bytes b in
        if decide (target_size d = Z.of_nat (length out)) then Ok out else Err Anyhow
      else Panic
    else Err Anyhow.
Proof.
  unfold expand, ensure. destruct (Z.eqb_spec (source_size d) (Z.of_nat (length b))) as [E|E];
    [rewrite decide_True by done|by rewrite decide_False]. cbn [mbind outcome_bind].
  destruct (decide (Forall (op_in_range b) (delta_ops d))) as [Hr|Hr].
  - rewrite expand_ops_ok by done. cbn [mbind outcome_bind app]. cbv zeta.
    destruct (Z.eqb_spec (target_size d) (Z.of_nat (length (delta_ops d ≫= op_bytes b))));
      case_decide; done.
  - by rewrite expand_ops_panic.
Qed.
