(* ===== verification/IndexEntry.v ===== *)
(** * IndexEntry

    [libbit/src/index/index_entry.rs]: the entries of the index file, their flags
    and their binary format, and [MergeStage] of [libbit/src/index.rs]. *)

From Stdlib Require Import ZArith Lia.
From Stdlib Require Import Strings.Byte.
From stdpp Require Import base tactics option list countable strings.
From S2P Require Import Prelude RustStd Data Io Hash Path BTree Obj Tree.

#[local] Open Scope Z_scope.

(** ** MergeStage *)

Inductive MergeStage := NONE | BASE | OURS | THEIRS.

#[export] Instance MergeStage_eq_dec : EqDecision MergeStage.
Proof. solve_decision. Defined.

Definition stage_as_u8 (s : MergeStage) : Z :=
  match s with NONE => 0 | BASE => 1 | OURS => 2 | THEIRS => 3 end.

(** [TryFromPrimitive]. *)
Definition stage_try_from (u : Z) : option MergeStage :=
  find (λ s, stage_as_u8 s =? u) [NONE; BASE; OURS; THEIRS].

Definition is_unmerged (s : MergeStage) : bool := 0 <? stage_as_u8 s.

(** The derived [Ord]. *)
Definition stage_cmp (a b : MergeStage) : comparison := Z.compare (stage_as_u8 a) (stage_as_u8 b).

(** ** BitIndexEntryFlags *)

(** [with_path_len]: [std::cmp::min(0xFFF, len as u16)]. *)
Definition flags_with_path_len (len : nat) : Z := Z.min 0xFFF (wrap 16 (Z.of_nat len)).

Definition assume_valid (f : Z) : bool := negb (Z.land f 0x8000 =? 0).
Definition extended (f : Z) : bool := negb (Z.land f 0x4000 =? 0).

Definition flags_stage (f : Z) : BitResult MergeStage :=
  unwrap (stage_try_from (Z.shiftr (Z.land f 0x3000) 12)).

Definition flags_set_stage (f : Z) (stage : MergeStage) : BitResult Z :=
  let f := Z.lor (Z.land f 0xCFFF) (Z.shiftl (stage_as_u8 stage) 12) in
  s ← flags_stage f;
  _ ← assert_that (bool_decide (s = stage));
  Ok f.

Definition path_len (f : Z) : Z := Z.land f 0x0FFF.

(** ** BitIndexEntry *)

Record BitIndexEntry := mk_BitIndexEntry {
  ie_ctime : Timespec;
  ie_mtime : Timespec;
  ie_device : Z;
  ie_inode : Z;
  ie_mode : FileMode;
  ie_uid : Z;
  ie_gid : Z;
  ie_filesize : Z;
  ie_oid : Oid;
  ie_flags : Z;
  ie_extended_flags : Z;
  ie_path : BitPath;
}.

#[export] Instance BitIndexEntry_eq_dec : EqDecision BitIndexEntry.
Proof. solve_decision. Defined.

#[export] Instance index_entry_is_entry : BitEntry BitIndexEntry :=
  {| entry_oid := ie_oid; entry_path := ie_path; entry_mode := ie_mode |}.

Definition UNKNOWN_SIZE : Z := u32_max.
Definition timespec_zero : Timespec := mk_Timespec 0 0.

(** [From<TreeEntry> for BitIndexEntry]. *)
Definition index_entry_from_tree_entry (e : TreeEntry) : BitIndexEntry :=
  mk_BitIndexEntry timespec_zero timespec_zero 0 0 (te_mode e) 0 0 UNKNOWN_SIZE (te_oid e)
    (flags_with_path_len (length (te_path e))) 0 (te_path e).

(** [From<BitIndexEntry> for TreeEntry]. *)
Definition tree_entry_from_index_entry (e : BitIndexEntry) : TreeEntry :=
  mk_TreeEntry (ie_mode e) (ie_path e) (ie_oid e).

(** [Timespec::new_i64]: the casts [as u32]. *)
Definition timespec_new_i64 (sec nano : Z) : Timespec := mk_Timespec (wrap 32 sec) (wrap 32 nano).

(** [BitIndexEntry::new], given the metadata of the file. *)
Definition index_entry_new (md : Metadata) (relative_path : BitPath) : BitIndexEntry :=
  mk_BitIndexEntry
    (timespec_new_i64 (fst (md_ctime md)) (snd (md_ctime md)))
    (timespec_new_i64 (fst (md_mtime md)) (snd (md_mtime md)))
    (wrap 32 (md_dev md)) (wrap 32 (md_ino md)) (filemode_from_metadata md)
    (md_uid md) (md_gid md) (wrap 32 (md_size md)) Hash.UNKNOWN
    (flags_with_path_len (length relative_path)) 0 relative_path.

Definition is_filled (e : BitIndexEntry) : bool :=
  negb (ie_inode e =? 0) && negb (ie_filesize e =? UNKNOWN_SIZE).

Definition entry_stage (e : BitIndexEntry) : BitResult MergeStage := flags_stage (ie_flags e).

Definition with_flags (e : BitIndexEntry) (f : Z) : BitIndexEntry :=
  mk_BitIndexEntry (ie_ctime e) (ie_mtime e) (ie_device e) (ie_inode e) (ie_mode e) (ie_uid e)
    (ie_gid e) (ie_filesize e) (ie_oid e) f (ie_extended_flags e) (ie_path e).

Definition with_oid (e : BitIndexEntry) (oid : Oid) : BitIndexEntry :=
  mk_BitIndexEntry (ie_ctime e) (ie_mtime e) (ie_device e) (ie_inode e) (ie_mode e) (ie_uid e)
    (ie_gid e) (ie_filesize e) oid (ie_flags e) (ie_extended_flags e) (ie_path e).

Definition set_stage (e : BitIndexEntry) (stage : MergeStage) : BitResult BitIndexEntry :=
  f ← flags_set_stage (ie_flags e) stage;
  Ok (with_flags e f).

(** ctime, mtime, device, inode, mode, uid, gid, filesize, hash and flags. *)
Definition ENTRY_SIZE_WITHOUT_FILEPATH : nat := 8 + 8 + 4 + 4 + 4 + 4 + 4 + 4 + OID_SIZE + 2.

Definition padding_len_for_filepath (filepath_len : nat) (is_extended : bool) : nat :=
  let entry_size := (ENTRY_SIZE_WITHOUT_FILEPATH + filepath_len + if is_extended then 2 else 0)%nat in
  let next_multiple_of_8 := ((entry_size + 8) / 8 * 8)%nat in
  (next_multiple_of_8 - entry_size)%nat.

Definition padding_len (e : BitIndexEntry) : nat :=
  padding_len_for_filepath (length (ie_path e)) (extended (ie_flags e)).

#[export] Instance index_entry_serialize : Serialize BitIndexEntry := λ e,
  _ ← assert_that (is_relative (ie_path e));
  Ok (write_timespec (ie_ctime e) ++ write_timespec (ie_mtime e)
      ++ write_u32 (ie_device e) ++ write_u32 (ie_inode e) ++ write_u32 (as_u32 (ie_mode e))
      ++ write_u32 (ie_uid e) ++ write_u32 (ie_gid e) ++ write_u32 (ie_filesize e)
      ++ write_oid (ie_oid e) ++ write_u16 (ie_flags e)
      ++ (if extended (ie_flags e) then write_u16 (ie_extended_flags e) else [])
      ++ ie_path e ++ replicate (padding_len e) x00).

#[export] Instance index_entry_deserialize : Deserialize BitIndexEntry :=
  ctime ← read_timespec;
  mtime ← read_timespec;
  device ← read_u32;
  inode ← read_u32;
  m ← read_u32;
  mode ← lift (filemode_new m);
  uid ← read_u32;
  gid ← read_u32;
  filesize ← read_u32;
  oid ← read_oid;
  flags ← read_u16;
  extended_flags ← if extended flags then read_u16 else mret 0;
  path ← read_null_terminated_path_skip_n (Z.to_nat (path_len flags));
  let entry := mk_BitIndexEntry ctime mtime device inode mode uid gid filesize oid flags
                 extended_flags path in
  _ ← read_exact (padding_len entry - 1);
  mret entry.

(** ** Well-formedness *)

(** What can be stored: values of their width, a relative path without NUL, a
    path length in the flags that does not exceed the path's, and extended flags
    only where the flags announce them. *)
Definition index_entry_wf (e : BitIndexEntry) : Prop :=
  timespec_wf (ie_ctime e) ∧ timespec_wf (ie_mtime e)
  ∧ fits 32 (ie_device e) ∧ fits 32 (ie_inode e) ∧ fits 32 (ie_uid e) ∧ fits 32 (ie_gid e)
  ∧ fits 32 (ie_filesize e) ∧ oid_wf (ie_oid e) ∧ fits 16 (ie_flags e)
  ∧ fits 16 (ie_extended_flags e)
  ∧ (extended (ie_flags e) = false → ie_extended_flags e = 0)
  ∧ (x00 ∉ ie_path e) ∧ is_relative (ie_path e) = true
  ∧ path_len (ie_flags e) ≤ Z.of_nat (length (ie_path e)).

(** ** Lemmas *)

#[export] Instance stage_ord_laws : OrdLaws stage_cmp.
Proof. split; [by intros [] []|by intros [] []|by intros [] [] []]. Qed.

#[export] Instance path_ord_laws : OrdLaws path_cmp.
Proof.
  split; intros; rewrite !path_cmp_bytes in *;
    [apply bytes_compare_eq|apply bytes_compare_antisym|by eapply bytes_compare_trans].
Qed.

(** Every 16-bit flag word has a stage. *)
Lemma flags_stage_total f : fits 16 f → ∃ s, flags_stage f = Ok s.
Proof.
  intros [Hf0 Hf]. unfold flags_stage.
  assert (Z.shiftr (Z.land f 0x3000) 12 = Z.shiftr f 12 mod 4) as ->.
  { rewrite Z.shiftr_land. change (Z.shiftr 0x3000 12) with (Z.ones 2). by rewrite Z.land_ones. }
  pose proof (Z.mod_pos_bound (Z.shiftr f 12) 4 ltac:(lia)).
  assert (Z.shiftr f 12 mod 4 = 0 ∨ Z.shiftr f 12 mod 4 = 1 ∨ Z.shiftr f 12 mod 4 = 2
          ∨ Z.shiftr f 12 mod 4 = 3) as [->|[->|[->| ->]]] by lia; eexists; reflexivity.
Qed.

Lemma flags_set_stage_ok f s :
  flags_set_stage f s = Ok (Z.lor (Z.land f 0xCFFF) (Z.shiftl (stage_as_u8 s) 12)).
Proof.
  unfold flags_set_stage.
  assert (flags_stage (Z.lor (Z.land f 0xCFFF) (Z.shiftl (stage_as_u8 s) 12)) = Ok s) as ->.
  { unfold flags_stage. rewrite Z.land_lor_distr_l, <- Z.land_assoc.
    change (Z.land 0xCFFF 0x3000) with 0. rewrite Z.land_0_r, Z.lor_0_l. by destruct s. }
  cbn [mbind outcome_bind]. by rewrite bool_decide_true.
Qed.

Lemma padding_len_bounds n ext :
  (1 ≤ padding_len_for_filepath n ext ≤ 8)%nat
  ∧ ((ENTRY_SIZE_WITHOUT_FILEPATH + n + (if ext then 2 else 0)
      + padding_len_for_filepath n ext) mod 8 = 0)%nat.
Proof.
  unfold padding_len_for_filepath.
  set (k := (ENTRY_SIZE_WITHOUT_FILEPATH + n + if ext then 2 else 0)%nat).
  pose proof (Nat.div_mod_eq (k + 8) 8). pose proof (Nat.mod_upper_bound (k + 8) 8).
  split; [lia|].
  replace (k + ((k + 8) / 8 * 8 - k))%nat with ((k + 8) / 8 * 8)%nat by lia.
  apply Nat.Div0.mod_mul.
Qed.

Lemma read_null_padding p k :
  x00 ∉ p → (1 ≤ k)%nat →
  p ++ replicate k x00 = (p ++ [x00]) ++ replicate (k - 1) x00.
Proof.
  intros _ Hk. destruct k as [|k]; [lia|]. rewrite <- app_assoc. cbn. by rewrite Nat.sub_0_r.
Qed.

#[export] Instance index_entry_round_trip_inst : RoundTrip BitIndexEntry index_entry_wf.
Proof.
  intros e (Hc & Hm & Hd & Hi & Hu & Hg & Hs & Ho & Hf & Hx & Hext & Hp & Hrel & Hlen).
  unfold serialize, index_entry_serialize. rewrite Hrel. cbn [assert_that mbind outcome_bind].
  eexists. split; [reflexivity|]. unfold deserialize, index_entry_deserialize.
  eapply reads_bind; [by apply reads_timespec|].
  eapply reads_bind; [by apply reads_timespec|].
  eapply reads_bind; [by apply reads_u32|].
  eapply reads_bind; [by apply reads_u32|].
  eapply reads_bind; [apply reads_u32, as_u32_fits|].
  eapply reads_bind_nil; [apply reads_lift; unfold filemode_new; by rewrite filemode_try_from_as_u32|].
  eapply reads_bind; [by apply reads_u32|].
  eapply reads_bind; [by apply reads_u32|].
  eapply reads_bind; [by apply reads_u32|].
  eapply reads_bind; [by apply reads_oid|].
  eapply reads_bind; [by apply reads_u16|].
  eapply reads_bind with (a := ie_extended_flags e).
  { destruct (extended (ie_flags e)); [by apply reads_u16|]. rewrite Hext by done. apply reads_ret. }
  pose proof (padding_len_bounds (length (ie_path e)) (extended (ie_flags e))) as [Hpad _].
  rewrite read_null_padding by (done || apply Hpad).
  eapply reads_bind; [apply reads_path_skip_n; [done|lia]|].
  eapply reads_bind_last; [apply reads_read_exact, length_replicate|].
  destruct e. apply reads_ret.
Qed.

Lemma path_len_with_path_len n : path_len (flags_with_path_len n) ≤ Z.of_nat n.
Proof.
  unfold path_len, flags_with_path_len. change 0x0FFF with (Z.ones 12).
  rewrite Z.land_ones by lia.
  assert (0 ≤ wrap 16 (Z.of_nat n) ≤ Z.of_nat n).
  { unfold wrap. split; [apply Z.mod_pos_bound; lia|apply Z.mod_le; lia]. }
  rewrite Z.mod_small; change (Z.ones 12) with 4095; lia.
Qed.

Lemma land_lor_disjoint f s m :
  Z.land 0xCFFF m = m → Z.land (Z.shiftl (stage_as_u8 s) 12) m = 0 →
  Z.land (Z.lor (Z.land f 0xCFFF) (Z.shiftl (stage_as_u8 s) 12)) m = Z.land f m.
Proof.
  intros Hm Hs. by rewrite Z.land_lor_distr_l, <- Z.land_assoc, Hm, Hs, Z.lor_0_r.
Qed.

Lemma set_stage_fits f s :
  fits 16 f → fits 16 (Z.lor (Z.land f 0xCFFF) (Z.shiftl (stage_as_u8 s) 12)).
Proof.
  intros [Hf0 Hf]. set (z := Z.lor _ _).
  assert (Z.land z (Z.ones 16) = z) as <-.
  { unfold z. rewrite Z.land_lor_distr_l, <- Z.land_assoc. f_equal. by destruct s. }
  rewrite Z.land_ones by lia. apply Z.mod_pos_bound. lia.
Qed.

Lemma flags_set_stage_spec f s :
  fits 16 f →
  ∃ f', flags_set_stage f s = Ok f' ∧ flags_stage f' = Ok s ∧ fits 16 f'
    ∧ path_len f' = path_len f ∧ assume_valid f' = assume_valid f ∧ extended f' = extended f.
Proof.
  intros Hf. rewrite flags_set_stage_ok. eexists. split; [reflexivity|].
  split_and!.
  - pose proof (flags_set_stage_ok f s) as E. unfold flags_set_stage in E.
    destruct (flags_stage _) as [s'| |] eqn:Es; cbn in E; try done.
    case_bool_decide; [by subst|done].
  - by apply set_stage_fits.
  - unfold path_len. apply land_lor_disjoint; by destruct s.
  - unfold assume_valid. rewrite land_lor_disjoint; by destruct s.
  - unfold extended. rewrite land_lor_disjoint; by destruct s.
Qed.

(** ** Theorems *)

(** An index entry survives being written and read, with or without extended
    flags, at any path length (also where the 12-bit length field saturates), and
    reading it consumes exactly its bytes, padding included. *)
Theorem index_entry_round_trip e :
  index_entry_wf e → ∃ w, serialize e = Ok w ∧ reads deserialize w e.
Proof. apply round_trip. Qed.

Definition sample_entry : BitIndexEntry :=
  mk_BitIndexEntry (mk_Timespec 1 2) (mk_Timespec 3 4) 5 6 REG 7 8 9 EMPTY_BLOB
    (flags_with_path_len 5) 0 (bs "a/b.c").

Lemma index_entry_round_trip_witness :
  ∃ w, serialize sample_entry = Ok w ∧ reads deserialize w sample_entry.
Proof. apply (index_entry_round_trip sample_entry). split_and!; vm_decide. Defined.

(** Every entry is written with 1 to 8 NUL bytes behind its path, so that its
    size is a multiple of 8 and the path is always terminated. *)
Theorem index_entry_aligned e w :
  oid_wf (ie_oid e) → serialize e = Ok w →
  (length w mod 8 = 0)%nat ∧ ∃ pre, w = pre ++ ie_path e ++ replicate (padding_len e) x00
    ∧ (1 ≤ padding_len e ≤ 8)%nat.
Proof.
  intros Ho Hw. unfold serialize, index_entry_serialize in Hw.
  pose proof (padding_len_bounds (length (ie_path e)) (extended (ie_flags e))) as [Hpad Hmod].
  destruct (is_relative (ie_path e)); cbn [assert_that mbind outcome_bind] in Hw; [|done].
  apply Ok_inj in Hw as <-. split.
  - etransitivity; [|exact Hmod]. f_equal. unfold write_timespec, write_u32, write_u16, write_oid.
    rewrite !length_app, !length_be_encode, length_replicate. unfold padding_len. rewrite Ho.
    destruct (extended (ie_flags e)); rewrite ?length_be_encode; simpl; lia.
  - eexists. split; [|done]. rewrite !app_assoc. reflexivity.
Qed.

Lemma index_entry_aligned_witness :
  ∃ w, serialize sample_entry = Ok w ∧ (length w mod 8 = 0)%nat.
Proof.
  eexists. split; [reflexivity|].
  refine (proj1 (index_entry_aligned sample_entry _ _ _)); reflexivity.
Defined.

(** [set_stage] never trips its assertion; it gives the entry exactly the stage
    asked for and leaves the other flag bits and the width alone. *)
Theorem set_stage_correct f s :
  fits 16 f →
  ∃ f', flags_set_stage f s = Ok f' ∧ flags_stage f' = Ok s ∧ fits 16 f'
    ∧ path_len f' = path_len f ∧ assume_valid f' = assume_valid f ∧ extended f' = extended f.
Proof. apply flags_set_stage_spec. Qed.

Lemma set_stage_correct_witness :
  flags_set_stage 0xD005 OURS = Ok 0xE005 ∧ flags_stage 0xE005 = Ok OURS.
Proof.
  destruct (set_stage_correct 0xD005 OURS) as (f' & Hf & Hs & _); [vm_decide|].
  injection Hf as <-. split; [reflexivity|exact Hs].
Defined.
