(* ===== verification/TreeCache.v ===== *)
(** * TreeCache

    [libbit/src/index/tree_cache.rs]: the cache of the trees that the index covers.
    The children are an association list in the order the map iterates (the
    insertion order of [IndexMap]; [FxHashMap] promises no order).  Trees are read
    through [read_obj_tree] of the repository, a parameter here; the recursion
    over trees is bounded by [fuel], the depth of the tree. *)

From Stdlib Require Import ZArith Lia.
From Stdlib Require Import Strings.Byte.
From stdpp Require Import base tactics option list countable strings.
From S2P Require Import Prelude RustStd Data Io Hash Path Obj Tree.

#[local] Open Scope Z_scope.

#[warnings="-register-all"]
Inductive BitTreeCache :=
  mk_TreeCache (tc_path : BitPath) (tc_tree_oid : Oid) (tc_entry_count : Z)
    (tc_children : list (BitPath * BitTreeCache)).

Definition tc_path (c : BitTreeCache) : BitPath := let '(mk_TreeCache p _ _ _) := c in p.
Definition tc_tree_oid (c : BitTreeCache) : Oid := let '(mk_TreeCache _ o _ _) := c in o.
Definition tc_entry_count (c : BitTreeCache) : Z := let '(mk_TreeCache _ _ n _) := c in n.
Definition tc_children (c : BitTreeCache) : list (BitPath * BitTreeCache) :=
  let '(mk_TreeCache _ _ _ ch) := c in ch.

Definition tc_default : BitTreeCache := mk_TreeCache EMPTY UNKNOWN (-1) [].

(** ** Maps from a path component to a child *)

Fixpoint map_get {V} (k : BitPath) (m : list (BitPath * V)) : option V :=
  match m with
  | [] => None
  | (k', v) :: m => if bool_decide (k = k') then Some v else map_get k m
  end.

(** [insert]: replaces the value of a present key, appends otherwise. *)
Fixpoint map_insert {V} (k : BitPath) (v : V) (m : list (BitPath * V)) : list (BitPath * V) :=
  match m with
  | [] => [(k, v)]
  | (k', v') :: m =>
      if bool_decide (k = k') then (k', v) :: m else (k', v') :: map_insert k v m
  end.

(** ** Lookup and invalidation *)

Definition is_valid (c : BitTreeCache) : bool := 0 <=? tc_entry_count c.

Fixpoint find_child_internal (c : BitTreeCache) (components : list BitPath) : option BitTreeCache :=
  match components with
  | [] => Some c
  | k :: components =>
      child ← map_get k (tc_children c);
      find_child_internal child components
  end.

Definition find_child (c : BitTreeCache) (path : BitPath) : option BitTreeCache :=
  find_child_internal c (components path).

Definition find_valid_child (c : BitTreeCache) (path : BitPath) : option BitTreeCache :=
  match find_child c path with
  | Some child => if 0 <? tc_entry_count child then Some child else None
  | None => None
  end.

Definition invalidate (c : BitTreeCache) : BitTreeCache :=
  mk_TreeCache (tc_path c) UNKNOWN (-1) (tc_children c).

(** [invalidate_path_internal]: the nodes on the way are invalidated in place; the
    walk stops at the first component that has no child. *)
Fixpoint invalidate_components (c : BitTreeCache) (components : list BitPath) : BitTreeCache :=
  match components with
  | [] => invalidate c
  | k :: components =>
      mk_TreeCache (tc_path c) UNKNOWN (-1)
        match map_get k (tc_children c) with
        | Some child => map_insert k (invalidate_components child components) (tc_children c)
        | None => tc_children c
        end
  end.

Definition invalidate_path (c : BitTreeCache) (path : BitPath) : BitTreeCache :=
  invalidate_components c (components path).

Fixpoint is_fully_valid (c : BitTreeCache) : bool :=
  let '(mk_TreeCache _ _ n ch) := c in
  (0 <=? n) && forallb (λ '(_, child), is_fully_valid child) ch.

(** ** Reading and updating from trees *)

(** [obj::Tree]: its id and its entries. *)
Record TreeObj := mk_TreeObj { t_oid : Oid; t_entries : list TreeEntry }.

Section repo.
Variable read_obj_tree : Oid → BitResult TreeObj.

(** The loop of [read_tree_internal] over the entries; [rec] reads a subtree. *)
Fixpoint read_entries_into (rec : TreeObj → BitPath → BitResult BitTreeCache)
    (entries : list TreeEntry) (count : Z) (ch : list (BitPath * BitTreeCache))
  : BitResult (Z * list (BitPath * BitTreeCache)) :=
  match entries with
  | [] => Ok (count, ch)
  | e :: entries =>
      match te_mode e with
      | REG | LINK | EXEC => read_entries_into rec entries (count + 1) ch
      | TREE =>
          subtree ← read_obj_tree (te_oid e);
          child ← rec subtree (te_path e);
          read_entries_into rec entries (count + tc_entry_count child)
            (map_insert (te_path e) child ch)
      | GITLINK => Panic
      end
  end.

Fixpoint read_tree_internal (fuel : nat) (tree : TreeObj) (path : BitPath)
  : BitResult BitTreeCache :=
  match fuel with
  | O => Panic
  | S fuel =>
      '(count, ch) ← read_entries_into (read_tree_internal fuel) (t_entries tree) 0 [];
      Ok (mk_TreeCache path (t_oid tree) count ch)
  end.

Definition read_tree (fuel : nat) (tree : TreeObj) : BitResult BitTreeCache :=
  read_tree_internal fuel tree EMPTY.

(** The loop of [update_internal]: [old] is the old map of children, out of which
    children are taken with [std::mem::take]. *)
Fixpoint update_entries (upd : BitTreeCache → TreeObj → BitResult BitTreeCache)
    (rd : TreeObj → BitPath → BitResult BitTreeCache) (entries : list TreeEntry) (count : Z)
    (old new : list (BitPath * BitTreeCache)) : BitResult (Z * list (BitPath * BitTreeCache)) :=
  match entries with
  | [] => Ok (count, new)
  | e :: entries =>
      match te_mode e with
      | REG | EXEC | LINK => update_entries upd rd entries (count + 1) old new
      | TREE =>
          match map_get (te_path e) old with
          | Some child =>
              child ← (if negb (is_valid child) || negb (bool_decide (tc_tree_oid child = te_oid e))
                       then subtree ← read_obj_tree (te_oid e); upd child subtree
                       else Ok child);
              update_entries upd rd entries count (map_insert (te_path e) tc_default old)
                (map_insert (te_path e) child new)
          | None =>
              subtree ← read_obj_tree (te_oid e);
              child ← rd subtree (te_path e);
              update_entries upd rd entries count old (map_insert (te_path e) child new)
          end
      | GITLINK => Panic
      end
  end.

Definition sum_counts (ch : list (BitPath * BitTreeCache)) : Z :=
  foldr (λ kc acc, tc_entry_count kc.2 + acc) 0 ch.

Fixpoint update_internal (fuel : nat) (c : BitTreeCache) (tree : TreeObj)
  : BitResult BitTreeCache :=
  match fuel with
  | O => Panic
  | S fuel =>
      '(count, new) ← update_entries (update_internal fuel) (read_tree_internal fuel)
                        (t_entries tree) 0 (tc_children c) [];
      Ok (mk_TreeCache (tc_path c) (t_oid tree) (count + sum_counts new) new)
  end.

(** [update]. *)
Definition tc_update (fuel : nat) (c : BitTreeCache) (tree : TreeObj) : BitResult BitTreeCache :=
  _ ← assert_that (bool_decide (tc_path c = EMPTY));
  update_internal fuel c tree.

End repo.

(** ** Serialisation *)

Fixpoint tc_bytes (c : BitTreeCache) : bytes :=
  let '(mk_TreeCache p o n ch) := c in
  write_null_terminated_path p ++ write_ascii_num n x20
  ++ write_ascii_num (Z.of_nat (length ch)) x0a
  ++ (if 0 <=? n then write_oid o else [])
  ++ concat ((λ kc : BitPath * BitTreeCache, tc_bytes kc.2) <$> ch).

#[export] Instance tc_serialize : Serialize BitTreeCache := λ c, Ok (tc_bytes c).

(** Every node takes at least a byte, so the number of bytes bounds the depth. *)
Fixpoint deserialize_inner (fuel : nat) : reader BitTreeCache :=
  match fuel with
  | O => λ _, Panic
  | S fuel =>
      path ← read_null_terminated_path;
      entry_count ← read_ascii_num x20;
      children_count ← read_ascii_num x0a;
      oid ← if 0 <=? entry_count then read_oid else mret UNKNOWN;
      children ← read_vec (deserialize_inner fuel) (Z.to_nat (wrap 64 children_count));
      mret (mk_TreeCache path oid entry_count
              (foldl (λ m c, map_insert (tc_path c) c m) [] children))
  end.

#[export] Instance tc_deserialize : Deserialize BitTreeCache := λ s,
  '(c, rest) ← deserialize_inner (length s) s;
  _ ← assert_that (bool_decide (rest = []));
  Ok (c, rest).

(** ** Induction on caches *)

Section induction.
Variable P : BitTreeCache → Prop.
Hypothesis Hnode : ∀ p o n ch, Forall (λ kc : BitPath * BitTreeCache, P kc.2) ch →
  P (mk_TreeCache p o n ch).

Fixpoint tc_induction (c : BitTreeCache) : P c :=
  match c with
  | mk_TreeCache p o n ch =>
      Hnode p o n ch
        ((fix go (ch : list (BitPath * BitTreeCache)) : Forall (λ kc, P kc.2) ch :=
            match ch with
            | [] => Forall_nil_2 _
            | kc :: ch => Forall_cons_2 _ kc ch (tc_induction kc.2) (go ch)
            end) ch)
  end.
End induction.

(** ** Lemmas: maps *)

Section maps.
Context {V : Type}.
Implicit Type (m : list (BitPath * V)).

Lemma map_get_insert k k' v m :
  map_get k' (map_insert k v m) = if bool_decide (k' = k) then Some v else map_get k' m.
Proof.
  induction m as [|[k1 v1] m IH]; cbn; [done|].
  destruct (decide (k = k1)) as [H1|H1];
    [rewrite (bool_decide_true (k = k1)) by done|rewrite (bool_decide_false (k = k1)) by done]; cbn.
  - subst k1. by destruct (bool_decide (k' = k)).
  - rewrite IH. destruct (decide (k' = k1)) as [->|]; [|by rewrite (bool_decide_false (k' = k1))].
    rewrite (bool_decide_true (k1 = k1)) by done. by rewrite bool_decide_false by congruence.
Qed.

Lemma map_get_Some_in k v m : map_get k m = Some v → (k, v) ∈ m.
Proof.
  induction m as [|[k1 v1] m IH]; cbn; [done|]. rewrite elem_of_cons.
  case_bool_decide; [intros [= ->]; left; by subst|auto].
Qed.

Lemma elem_of_map_insert k v m kv : kv ∈ map_insert k v m → kv = (k, v) ∨ kv ∈ m.
Proof.
  induction m as [|[k1 v1] m IH]; cbn; [rewrite list_elem_of_singleton; by left|].
  case_bool_decide; rewrite !elem_of_cons; [subst; tauto|tauto].
Qed.

Lemma map_insert_fresh k v m : map_get k m = None → map_insert k v m = m ++ [(k, v)].
Proof.
  induction m as [|[k1 v1] m IH]; cbn; [done|]. case_bool_decide; [done|].
  intros Hg. by rewrite IH.
Qed.

Lemma map_get_None k m : k ∉ m.*1 → map_get k m = None.
Proof.
  induction m as [|[k1 v1] m IH]; cbn; [done|]. rewrite not_elem_of_cons. intros [? ?].
  rewrite bool_decide_false; auto.
Qed.
End maps.

(** ** Lemmas: invalidation *)

Lemma find_invalidated q : ∀ c cs,
  find_child_internal (invalidate_components c cs) q =
    if decide (q `prefix_of` cs)
    then (λ n, invalidate_components n (drop (length q) cs)) <$> find_child_internal c q
    else find_child_internal c q.
Proof.
  induction q as [|k q IH]; intros c cs.
  - rewrite decide_True by apply prefix_nil. done.
  - destruct cs as [|k' cs].
    + rewrite decide_False by (intros [? ?]; done). done.
    + cbn [invalidate_components find_child_internal tc_children].
      destruct (decide (k = k')) as [<-|Hne].
      * destruct (map_get k (tc_children c)) as [child|] eqn:Eg.
        -- rewrite map_get_insert, bool_decide_true by done. cbn. rewrite IH.
           destruct (decide (q `prefix_of` cs)) as [Hp|Hp].
           ++ rewrite decide_True by by apply prefix_cons. done.
           ++ rewrite decide_False by (intros ?%prefix_cons_inv_2; done). done.
        -- rewrite Eg. by case_decide.
      * rewrite decide_False by (intros ?%prefix_cons_inv_1; done).
        destruct (map_get k' (tc_children c)) as [child|] eqn:Eg; [|done].
        by rewrite map_get_insert, bool_decide_false.
Qed.

Lemma invalidated_invalid c cs :
  is_valid (invalidate_components c cs) = false ∧ tc_tree_oid (invalidate_components c cs) = UNKNOWN.
Proof. by destruct cs. Qed.

(** ** Consistency with the object store *)

Section consistent.
Variable read_obj_tree : Oid → BitResult TreeObj.

(** A valid node is what a fresh read of its tree gives, and so are the valid
    nodes below; a child is stored under its own path. *)
#[warnings="-register-all"]
Inductive tc_consistent : BitTreeCache → Prop :=
| tc_consistent_node c :
    (is_valid c = true → ∃ fuel t, read_obj_tree (tc_tree_oid c) = Ok t
       ∧ read_tree_internal read_obj_tree fuel t (tc_path c) = Ok c) →
    Forall (λ kc : BitPath * BitTreeCache, tc_path kc.2 = kc.1 ∧ tc_consistent kc.2) (tc_children c) →
    tc_consistent c.

Lemma consistent_invalidate c cs : tc_consistent c → tc_consistent (invalidate_components c cs).
Proof.
  revert c. induction cs as [|k cs IH]; intros c Hc; destruct Hc as [c _ Hch]; cbn.
  - by constructor.
  - constructor; [done|]. cbn [tc_children].
    destruct (map_get k (tc_children c)) as [child|] eqn:Eg; [|done].
    apply map_get_Some_in in Eg. rewrite Forall_forall in Hch |- *.
    intros kc [->|Hin]%elem_of_map_insert; [|by apply Hch].
    destruct (Hch _ Eg) as [Hp Hc]. cbn in *. split; [by destruct cs|by apply IH].
Qed.

Lemma read_entries_into_mono rec1 rec2 entries count ch r :
  (∀ t p c, rec1 t p = Ok c → rec2 t p = Ok c) →
  read_entries_into read_obj_tree rec1 entries count ch = Ok r →
  read_entries_into read_obj_tree rec2 entries count ch = Ok r.
Proof.
  intros Hrec. revert count ch. induction entries as [|e entries IH]; intros count ch; cbn; [done|].
  destruct (te_mode e); auto. intros H. inv_ok. cbn.
  rewrite (Hrec _ _ _ E0). cbn. auto.
Qed.

Lemma read_tree_mono fuel fuel' t p c :
  read_tree_internal read_obj_tree fuel t p = Ok c → (fuel ≤ fuel')%nat →
  read_tree_internal read_obj_tree fuel' t p = Ok c.
Proof.
  revert fuel' t p c. induction fuel as [|fuel IH]; intros fuel' t p c; [done|].
  destruct fuel' as [|fuel']; [lia|]. cbn [read_tree_internal]. intros H Hle. inv_ok.
  destruct a as [count ch].
  rewrite (read_entries_into_mono (read_tree_internal read_obj_tree fuel)
    (read_tree_internal read_obj_tree fuel') _ _ _ _ (λ t p c Hr, IH fuel' t p c Hr ltac:(lia)) E).
  done.
Qed.

(** Two fresh reads that return agree. *)
Lemma read_tree_det fuel fuel' t p c c' :
  read_tree_internal read_obj_tree fuel t p = Ok c →
  read_tree_internal read_obj_tree fuel' t p = Ok c' → c = c'.
Proof.
  intros H1 H2.
  apply (read_tree_mono _ (Nat.max fuel fuel')) in H1; [|lia].
  apply (read_tree_mono _ (Nat.max fuel fuel')) in H2; [|lia]. congruence.
Qed.

Lemma read_tree_path fuel t p c :
  read_tree_internal read_obj_tree fuel t p = Ok c → tc_path c = p ∧ tc_tree_oid c = t_oid t.
Proof.
  destruct fuel; [done|]. cbn. intros H. inv_ok. by destruct a; inv_ok.
Qed.

(** The names of the subtrees of a tree. *)
Definition subtree_names (entries : list TreeEntry) : list BitPath :=
  te_path <$> filter (λ e, te_mode e = TREE) entries.

Lemma subtree_names_file e entries :
  te_mode e ≠ TREE → subtree_names (e :: entries) = subtree_names entries.
Proof. intros He. unfold subtree_names. by rewrite filter_cons_False. Qed.

Lemma subtree_names_tree e entries :
  te_mode e = TREE → subtree_names (e :: entries) = te_path e :: subtree_names entries.
Proof. intros He. unfold subtree_names. by rewrite filter_cons_True. Qed.

Lemma sum_counts_app ch ch' : sum_counts (ch ++ ch') = sum_counts ch + sum_counts ch'.
Proof.
  unfold sum_counts. induction ch as [|kc ch IH]; cbn [app foldr]; [lia|]. rewrite IH. lia.
Qed.

(** What stores promise: a tree is stored under its id, and the names of its
    subtrees are distinct. *)
Hypothesis read_obj_tree_oid : ∀ oid t, read_obj_tree oid = Ok t → t_oid t = oid.
Hypothesis read_obj_tree_names :
  ∀ oid t, read_obj_tree oid = Ok t → NoDup (subtree_names (t_entries t)).

Lemma read_entries_children (Q : BitPath * BitTreeCache → Prop) rec entries : ∀ count ch n ch',
  (∀ e t c, e ∈ entries → te_mode e = TREE → read_obj_tree (te_oid e) = Ok t →
     rec t (te_path e) = Ok c → Q (te_path e, c)) →
  Forall Q ch → read_entries_into read_obj_tree rec entries count ch = Ok (n, ch') → Forall Q ch'.
Proof.
  induction entries as [|e entries IH]; intros count ch n ch' HQ Hch; cbn.
  - by intros [= _ <-].
  - assert (∀ e0 t c, e0 ∈ entries → te_mode e0 = TREE → read_obj_tree (te_oid e0) = Ok t →
      rec t (te_path e0) = Ok c → Q (te_path e0, c)) as HQ'
      by (intros e0 t c He; apply HQ, elem_of_cons; by right).
    destruct (te_mode e) eqn:Em; try (by eapply IH); [|done]. intros H. inv_ok.
    eapply IH; [done| |exact H]. rewrite Forall_forall in Hch |- *.
    intros kc [->|Hin]%elem_of_map_insert; [|auto].
    by eapply HQ; [apply list_elem_of_here|..].
Qed.

(** A fresh read is consistent. *)
Lemma fresh_consistent fuel : ∀ t p c,
  read_obj_tree (t_oid t) = Ok t → read_tree_internal read_obj_tree fuel t p = Ok c →
  tc_consistent c.
Proof.
  induction fuel as [|fuel IH]; intros t p c Ht Hr; [done|].
  pose proof (read_tree_path _ _ _ _ Hr) as [Hp Ho].
  constructor; [intros _; exists (S fuel), t; by rewrite Ho, Hp|].
  cbn [read_tree_internal] in Hr. inv_ok. destruct a as [n ch]. inv_ok. cbn [tc_children].
  eapply read_entries_children; [|constructor|exact E].
  intros e t' c' _ _ Ht' Hc'. cbn. pose proof (read_tree_path _ _ _ _ Hc') as [Hp' _].
  split; [done|]. eapply IH; [|exact Hc']. by rewrite (read_obj_tree_oid _ _ Ht').
Qed.

Lemma update_entries_fresh fuel upd entries : ∀ count ucount old ch n ch',
  (∀ child t r, tc_consistent child → NoDup (subtree_names (t_entries t)) →
     read_tree_internal read_obj_tree fuel t (tc_path child) = Ok r → upd child t = Ok r) →
  NoDup (subtree_names entries) →
  (∀ k, k ∈ subtree_names entries → map_get k ch = None) →
  (∀ k child, k ∈ subtree_names entries → map_get k old = Some child →
     tc_path child = k ∧ tc_consistent child) →
  count = ucount + sum_counts ch →
  read_entries_into read_obj_tree (read_tree_internal read_obj_tree fuel) entries count ch = Ok (n, ch') →
  ∃ ucount',
    update_entries read_obj_tree upd (read_tree_internal read_obj_tree fuel) entries ucount old ch
    = Ok (ucount', ch') ∧ n = ucount' + sum_counts ch'.
Proof.
  induction entries as [|e entries IH]; intros count ucount old ch n ch' Hupd Hnd Hch Hold Hcount;
    cbn [read_entries_into update_entries].
  { intros [= <- <-]. eauto. }
  destruct (te_mode e) eqn:Em; try done;
    [rewrite subtree_names_file in Hnd, Hch, Hold by (by rewrite Em);
     apply (IH (count + 1)); done || lia..|].
  rewrite subtree_names_tree in Hnd, Hch, Hold by done. apply NoDup_cons in Hnd as [Hnew Hnd].
  intros Hr. destruct (read_obj_tree (te_oid e)) as [sub| |] eqn:Esub; cbn in Hr; try done.
  destruct (read_tree_internal read_obj_tree fuel sub (te_path e)) as [c| |] eqn:Ec; cbn in Hr; try done.
  assert (map_get (te_path e) ch = None) as Hfresh by (apply Hch, list_elem_of_here).
  assert (∀ k, k ∈ subtree_names entries → map_get k (map_insert (te_path e) c ch) = None) as Hch'.
  { intros k Hk. rewrite map_get_insert, bool_decide_false by (intros ->; done).
    apply Hch, elem_of_cons. by right. }
  assert (count + tc_entry_count c = ucount + sum_counts (map_insert (te_path e) c ch)) as Hc'.
  { rewrite map_insert_fresh, sum_counts_app by done. cbn. lia. }
  destruct (map_get (te_path e) old) as [child|] eqn:Eold.
  - destruct (Hold _ _ (list_elem_of_here _ _) Eold) as [Hpath Hcons].
    assert ((if negb (is_valid child) || negb (bool_decide (tc_tree_oid child = te_oid e))
             then subtree ← Ok sub; upd child subtree else Ok child) = Ok c) as Hchild.
    { destruct (is_valid child) eqn:Ev; [case_bool_decide as Eoid|]; cbn;
        [|apply Hupd; try done; [by eapply read_obj_tree_names|by rewrite Hpath]..].
      f_equal. destruct Hcons as [child Hval _]. destruct (Hval Ev) as (fuel0 & t0 & Ht0 & Hr0).
      rewrite Eoid, Esub in Ht0. injection Ht0 as <-. rewrite Hpath in Hr0.
      by eapply read_tree_det. }
    rewrite Hchild. cbn. apply (IH (count + tc_entry_count c)); try done.
    intros k child' Hk. rewrite map_get_insert, bool_decide_false by (intros ->; done).
    apply Hold, elem_of_cons. by right.
  - cbn. rewrite Ec. cbn. apply (IH (count + tc_entry_count c)); try done.
    intros k child' Hk. apply Hold, elem_of_cons. by right.
Qed.

Lemma update_fresh fuel : ∀ c t r,
  tc_consistent c → NoDup (subtree_names (t_entries t)) →
  read_tree_internal read_obj_tree fuel t (tc_path c) = Ok r →
  update_internal read_obj_tree fuel c t = Ok r.
Proof.
  induction fuel as [|fuel IH]; intros c t r Hc Hnd Hr; [done|].
  cbn [read_tree_internal update_internal] in *. inv_ok. destruct a as [n ch']. inv_ok.
  destruct Hc as [c _ Hch].
  destruct (update_entries_fresh fuel (update_internal read_obj_tree fuel) (t_entries t)
    0 0 (tc_children c) [] n ch') as (u & Hu & ->); try done.
  - intros k child _ Hg. apply map_get_Some_in in Hg.
    rewrite Forall_forall in Hch. apply (Hch _ Hg).
  - by rewrite Hu.
Qed.

End consistent.

(** ** Lemmas: serialisation *)

(** What is stored of a cache: an invalid node has no id, the children are under
    their own, distinct paths. *)
#[warnings="-register-all"]
Inductive tc_wf : BitTreeCache → Prop :=
| tc_wf_node p o n ch :
    (x00 ∉ p) → utf8_valid p = true →
    - 2 ^ 63 ≤ n < 2 ^ 63 → oid_wf o → (n < 0 → o = UNKNOWN) →
    Z.of_nat (length ch) < 2 ^ 63 → NoDup ch.*1 →
    Forall (λ kc : BitPath * BitTreeCache, kc.1 = tc_path kc.2 ∧ tc_wf kc.2) ch →
    tc_wf (mk_TreeCache p o n ch).

Lemma concat_children (ch : list (BitPath * BitTreeCache)) :
  concat ((λ kc : BitPath * BitTreeCache, tc_bytes kc.2) <$> ch) = ch.*2 ≫= tc_bytes.
Proof. induction ch as [|kc ch IH]; cbn in *; [done|]. by rewrite IH. Qed.

Lemma length_concat_elem {A} (ls : list (list A)) l :
  l ∈ ls → (length l ≤ length (concat ls))%nat.
Proof.
  induction ls as [|l' ls IH]; [by intros []%elem_of_nil|].
  rewrite elem_of_cons. cbn. rewrite length_app. intros [->|Hl%IH]; lia.
Qed.

Lemma collect_children ch acc :
  NoDup (acc ++ ch).*1 →
  Forall (λ kc : BitPath * BitTreeCache, kc.1 = tc_path kc.2) ch →
  foldl (λ m c, map_insert (tc_path c) c m) acc ch.*2 = acc ++ ch.
Proof.
  revert acc. induction ch as [|[k c] ch IH]; intros acc Hnd Hk; cbn; [by rewrite app_nil_r|].
  inversion_clear Hk as [|?? Hkc Hrest]. cbn in Hkc. subst k.
  assert (map_get (tc_path c) acc = None) as Hf.
  { apply map_get_None. rewrite fmap_app in Hnd. apply NoDup_app in Hnd as (_ & Hd & _).
    intros Hin. apply (Hd _ Hin). cbn. apply list_elem_of_here. }
  rewrite map_insert_fresh by done. rewrite IH; rewrite <- ?app_assoc; done.
Qed.

Lemma reads_tree_cache c : tc_wf c → ∀ fuel, (length (tc_bytes c) ≤ fuel)%nat →
  reads (deserialize_inner fuel) (tc_bytes c) c.
Proof.
  induction c as [p o n ch IH] using tc_induction. intros Hwf fuel Hf.
  inversion_clear Hwf as [? ? ? ? Hp Hu Hn Ho Hinv Hlen Hnd Hch].
  destruct fuel as [|fuel].
  { exfalso. cbn [tc_bytes] in Hf. unfold write_null_terminated_path in Hf.
    rewrite !length_app in Hf. simpl in Hf. lia. }
  cbn [tc_bytes deserialize_inner].
  eapply reads_bind; [by apply reads_null_terminated_path|].
  eapply reads_bind; [apply reads_ascii_num; [nondigit|done|lia]|].
  eapply reads_bind; [apply reads_ascii_num; [nondigit|done|lia]|].
  eapply reads_bind with (a := o).
  { destruct (Z.leb_spec 0 n); [by apply reads_oid|]. rewrite Hinv by done. apply reads_ret. }
  eapply reads_bind_last with (a := ch.*2).
  - rewrite wrap_fits, Nat2Z.id, concat_children by (unfold fits; lia).
    rewrite <- (length_fmap snd ch). apply reads_vec. apply Forall_fmap.
    rewrite Forall_forall in IH, Hch |- *. intros kc Hin. cbn.
    apply IH; [done|by apply Hch|].
    pose proof (length_concat_elem ((λ kc : BitPath * BitTreeCache, tc_bytes kc.2) <$> ch)
      (tc_bytes kc.2) (list_elem_of_fmap_2 _ _ _ Hin)) as Hl.
    cbn [tc_bytes] in Hf. unfold write_null_terminated_path in Hf.
    rewrite !length_app in Hf. simpl in Hf. lia.
  - rewrite collect_children; [apply reads_ret|done|].
    eapply Forall_impl; [exact Hch|]. by intros kc [? _].
Qed.

(** ** Theorems *)

(** The tree-cache extension survives being written and read: every node with
    its path, count and id, and the children in order. *)
Theorem tree_cache_round_trip c :
  tc_wf c → ∃ w, serialize c = Ok w ∧ deserialize w = Ok (c, []).
Proof.
  intros Hc. exists (tc_bytes c). split; [done|]. unfold deserialize, tc_deserialize.
  pose proof (reads_tree_cache c Hc (length (tc_bytes c)) ltac:(lia) []) as Hr.
  rewrite app_nil_r in Hr. by rewrite Hr.
Qed.

(** A root whose subtree is invalid. *)
Definition sample_cache : BitTreeCache :=
  mk_TreeCache [] UNKNOWN (-1)
    [(bs "src", mk_TreeCache (bs "src") EMPTY_TREE 2 []);
     (bs "doc", mk_TreeCache (bs "doc") UNKNOWN (-1) [])].

Lemma sample_cache_wf : tc_wf sample_cache.
Proof.
  repeat first [constructor | vm_decide | intros ?; lia].
  all: try (intros _; reflexivity).
  all: try (intros H; by vm_compute in H).
Qed.

Lemma tree_cache_round_trip_witness :
  ∃ w, serialize sample_cache = Ok w ∧ deserialize w = Ok (sample_cache, []).
Proof. apply (tree_cache_round_trip sample_cache), sample_cache_wf. Defined.

(** After [invalidate_path] exactly the nodes of the directories on the path
    (the root, each parent, the path itself) are invalid and have lost their id;
    every other node, in particular every sibling subtree, is unchanged. *)
Theorem invalidate_path_correct c path q :
  (q `prefix_of` components path → ∀ n,
     find_child_internal (invalidate_path c path) q = Some n →
     is_valid n = false ∧ tc_tree_oid n = UNKNOWN)
  ∧ (¬ q `prefix_of` components path →
     find_child_internal (invalidate_path c path) q = find_child_internal c q).
Proof.
  unfold invalidate_path. rewrite find_invalidated. split; intros Hq.
  - rewrite decide_True by done. intros n Hn. apply fmap_Some in Hn as (n' & _ & ->).
    apply invalidated_invalid.
  - by rewrite decide_False.
Qed.

Lemma invalidate_path_correct_witness :
  find_child_internal (invalidate_path sample_cache (bs "doc/a")) [bs "src"]
  = find_child_internal sample_cache [bs "src"].
Proof.
  refine (proj2 (invalidate_path_correct sample_cache (bs "doc/a") [bs "src"]) _).
  intros [k Hk]. vm_compute in Hk. discriminate.
Defined.

(** The caches of the index over its life: read from a stored tree, invalidated
    when entries change, updated to another stored tree. *)
Inductive tc_reachable (read_obj_tree : Oid → BitResult TreeObj) : BitTreeCache → Prop :=
| reach_read fuel t c :
    read_obj_tree (t_oid t) = Ok t → read_tree read_obj_tree fuel t = Ok c →
    tc_reachable read_obj_tree c
| reach_default : tc_reachable read_obj_tree tc_default
| reach_invalidate c path :
    tc_reachable read_obj_tree c → tc_reachable read_obj_tree (invalidate_path c path)
| reach_update fuel c t r c' :
    tc_reachable read_obj_tree c → read_obj_tree (t_oid t) = Ok t →
    read_tree read_obj_tree fuel t = Ok r → tc_update read_obj_tree fuel c t = Ok c' →
    tc_reachable read_obj_tree c'.

(** What the object store promises: a tree is stored under its id, and the names
    of its subtrees are distinct. *)
Definition store_ok (read_obj_tree : Oid → BitResult TreeObj) : Prop :=
  (∀ oid t, read_obj_tree oid = Ok t → t_oid t = oid)
  ∧ (∀ oid t, read_obj_tree oid = Ok t → NoDup (subtree_names (t_entries t))).

Lemma tc_update_fresh read_obj_tree fuel c t r :
  store_ok read_obj_tree → tc_consistent read_obj_tree c → tc_path c = EMPTY →
  read_obj_tree (t_oid t) = Ok t → read_tree read_obj_tree fuel t = Ok r →
  tc_update read_obj_tree fuel c t = Ok r.
Proof.
  intros [_ Hnames] Hc Hp Ht Hr. unfold tc_update. rewrite bool_decide_true by done.
  cbn [assert_that mbind outcome_bind]. apply update_fresh; try done; [by eapply Hnames|].
  by rewrite Hp.
Qed.

Lemma reachable_consistent read_obj_tree c :
  store_ok read_obj_tree → tc_reachable read_obj_tree c →
  tc_consistent read_obj_tree c ∧ tc_path c = EMPTY.
Proof.
  intros Hstore. pose proof Hstore as [Hoid _].
  induction 1 as [fuel t c Ht Hr| |c path _ [IH1 IH2]|fuel c t r c' _ [IH1 IH2] Ht Hr Hu].
  - split; [by apply (fresh_consistent read_obj_tree Hoid fuel t EMPTY c)|].
    by apply read_tree_path in Hr as [? _].
  - split; [by constructor|done].
  - split; [by apply consistent_invalidate|].
    unfold invalidate_path. by destruct (components path).
  - rewrite (tc_update_fresh _ _ _ _ r) in Hu by done. injection Hu as <-.
    split; [by apply (fresh_consistent read_obj_tree Hoid fuel t EMPTY r)|].
    by apply read_tree_path in Hr as [? _].
Qed.

(** The invariant of the tree cache: however the index has read, invalidated
    and updated its cache, every node that is still valid is what a fresh read of
    its tree gives, at every depth. *)
Theorem tree_cache_invariant read_obj_tree c :
  store_ok read_obj_tree → tc_reachable read_obj_tree c → tc_consistent read_obj_tree c.
Proof. intros Hs Hr. by apply reachable_consistent. Qed.

(** Updating the cache of the index to a stored tree gives exactly what reading
    the tree afresh gives, whichever subtrees of the old cache are reused (the
    assertion that the code checks in debug builds). *)
Theorem update_is_fresh_read read_obj_tree fuel c t r :
  store_ok read_obj_tree → tc_reachable read_obj_tree c → read_obj_tree (t_oid t) = Ok t →
  read_tree read_obj_tree fuel t = Ok r →
  tc_update read_obj_tree fuel c t = Ok r.
Proof.
  intros Hs Hc Ht Hr. destruct (reachable_consistent _ _ Hs Hc) as [Hcons Hp].
  by apply tc_update_fresh.
Qed.

(** A store with two versions of a root that share the subtree [src]. *)
Definition sample_oid (b : byte) : Oid := replicate 20 b.
Definition sample_src : TreeObj :=
  mk_TreeObj (sample_oid x01) [mk_TreeEntry REG (bs "b") EMPTY_BLOB].
Definition sample_root (b : byte) (name : string) : TreeObj :=
  mk_TreeObj (sample_oid b)
    [mk_TreeEntry REG (bs name) EMPTY_BLOB; mk_TreeEntry TREE (bs "src") (sample_oid x01)].
Definition sample_store (oid : Oid) : BitResult TreeObj :=
  if bool_decide (oid = sample_oid x01) then Ok sample_src
  else if bool_decide (oid = sample_oid x02) then Ok (sample_root x02 "a")
  else if bool_decide (oid = sample_oid x03) then Ok (sample_root x03 "c")
  else Err Anyhow.

Lemma sample_store_ok : store_ok sample_store.
Proof.
  split; intros oid t; unfold sample_store; repeat case_bool_decide; intros [= <-]; subst;
    try reflexivity; vm_decide.
Qed.

Definition sample_read : BitTreeCache :=
  mk_TreeCache [] (sample_oid x02) 2 [(bs "src", mk_TreeCache (bs "src") (sample_oid x01) 1 [])].

Lemma sample_read_reachable : tc_reachable sample_store (invalidate_path sample_read (bs "a")).
Proof. apply reach_invalidate, (reach_read _ 3 (sample_root x02 "a")); reflexivity. Qed.

Lemma tree_cache_invariant_witness :
  tc_consistent sample_store (invalidate_path sample_read (bs "a")).
Proof. apply (tree_cache_invariant sample_store); [apply sample_store_ok|apply sample_read_reachable]. Defined.

Lemma update_is_fresh_read_witness :
  tc_update sample_store 3 (invalidate_path sample_read (bs "a")) (sample_root x03 "c")
  = Ok (mk_TreeCache [] (sample_oid x03) 2
          [(bs "src", mk_TreeCache (bs "src") (sample_oid x01) 1 [])]).
Proof.
  apply (update_is_fresh_read sample_store);
    [apply sample_store_ok|apply sample_read_reachable|reflexivity|reflexivity].
Defined.
