(* ===== verification/Index.v ===== *)
(** * Index

    [libbit/src/index/index_inner.rs], [libbit/src/index/reuc.rs] and the operations
    of [libbit/src/index.rs] that change the index: the staging area, its file
    format and its conflict handling.  [sha1] is the digest of the crate [sha1]. *)

From Stdlib Require Import ZArith Lia Sorted.
From Stdlib Require Import Strings.Byte.
From stdpp Require Import base tactics option list countable strings sorting.
From S2P Require Import Prelude RustStd Data Io Hash Path BTree Obj Tree IndexEntry TreeCache.

#[local] Open Scope Z_scope.

Abbreviation index_key := (BitPath * MergeStage)%type.

Definition key_cmp : index_key → index_key → comparison := pair_cmp path_cmp stage_cmp.

(** [BitIndexEntries]: the entries in key order. *)
Abbreviation BitIndexEntries := (list (index_key * BitIndexEntry)).

Record BitIndexInner := mk_BitIndexInner {
  idx_entries : BitIndexEntries;
  idx_tree_cache : option BitTreeCache;
  idx_reuc : option bytes;
}.

(** [BitIndexEntry::key]. *)
Definition entry_key (e : BitIndexEntry) : BitResult index_key :=
  stage ← entry_stage e;
  Ok (ie_path e, stage).

(** ** Mutators *)

Definition invalidate_tree_cache_path (idx : BitIndexInner) (path : BitPath) : BitIndexInner :=
  mk_BitIndexInner (idx_entries idx)
    ((λ c, invalidate_path c path) <$> idx_tree_cache idx) (idx_reuc idx).

Definition set_entries (idx : BitIndexInner) (es : BitIndexEntries) : BitIndexInner :=
  mk_BitIndexInner es (idx_tree_cache idx) (idx_reuc idx).

Definition insert_entry (idx : BitIndexInner) (e : BitIndexEntry) : BitResult BitIndexInner :=
  key ← entry_key e;
  Ok (invalidate_tree_cache_path (set_entries idx (bt_insert key_cmp key e (idx_entries idx)))
        (ie_path e)).

Definition remove_entry (idx : BitIndexInner) (key : index_key) : BitIndexInner :=
  let exists_ := bool_decide (is_Some (bt_get key_cmp key (idx_entries idx))) in
  let idx := set_entries idx (bt_remove key_cmp key (idx_entries idx)) in
  if exists_ then invalidate_tree_cache_path idx key.1 else idx.

Definition remove_conflicted (idx : BitIndexInner) (path : BitPath) : BitIndexInner :=
  remove_entry (remove_entry (remove_entry idx (path, BASE)) (path, OURS)) (path, THEIRS).

Definition find_entry (idx : BitIndexInner) (key : index_key) : option BitIndexEntry :=
  bt_get key_cmp key (idx_entries idx).

Definition remove_entries (idx : BitIndexInner) (keys : list index_key) : BitIndexInner :=
  foldl remove_entry idx keys.

Definition remove_file_dir_collisions (idx : BitIndexInner) (path : BitPath) : BitIndexInner :=
  remove_entries idx ((λ c, (c, NONE)) <$> cumulative_components path).

Fixpoint take_while {A} (f : A → bool) (l : list A) : list A :=
  match l with
  | [] => []
  | x :: l => if f x then x :: take_while f l else []
  end.

Definition remove_directory (idx : BitIndexInner) (entry_path : BitPath) : BitIndexInner :=
  let range := bt_range_from key_cmp (join entry_path [], NONE) (idx_entries idx) in
  let subentries := take_while (λ kv, path_starts_with kv.1.1 entry_path) range in
  remove_entries idx (filter (λ k, k.2 = NONE) subentries.*1).

(** The entries from [(path, NONE)] up to the key [(path ++ "a", NONE)], without the
    first one. *)
Definition has_dir_collision (idx : BitIndexInner) (path : BitPath) : BitResult bool :=
  succ ← approximate_lexicographical_successor path;
  let range := filter (λ kv, key_cmp kv.1 (succ, NONE) = Lt)
                 (bt_range_from key_cmp (path, NONE) (idx_entries idx)) in
  Ok (existsb (λ kv, path_starts_with kv.1.1 path) (drop 1 range)).

Definition remove_dir_file_collisions (idx : BitIndexInner) (path : BitPath)
  : BitResult BitIndexInner :=
  has_collision ← has_dir_collision idx path;
  Ok (if has_collision : bool then remove_directory idx path else idx).

Definition remove_collisions (idx : BitIndexInner) (path : BitPath) : BitResult BitIndexInner :=
  remove_dir_file_collisions (remove_file_dir_collisions idx path) path.

Definition has_conflicts (idx : BitIndexInner) : bool :=
  existsb (λ kv, is_unmerged kv.1.2) (idx_entries idx).

(** [std_iter]: submodules are filtered out. *)
Definition std_iter (idx : BitIndexInner) : list BitIndexEntry :=
  filter (λ e, entry_is_gitlink e = false) (idx_entries idx).*2.

(** ** Conflicts *)

Inductive ConflictType :=
| BothModified | BothAdded | ModifyDelete | DeleteModify | AddedByUs | AddedByThem.

#[export] Instance ConflictType_eq_dec : EqDecision ConflictType.
Proof. solve_decision. Defined.

Definition conflict_type_new (stages : list MergeStage) : BitResult ConflictType :=
  match stages with
  | [BASE; OURS; THEIRS] => Ok BothModified
  | [OURS; THEIRS] => Ok BothAdded
  | [BASE; OURS] => Ok ModifyDelete
  | [BASE; THEIRS] => Ok DeleteModify
  | [OURS] => Ok AddedByUs
  | [THEIRS] => Ok AddedByThem
  | _ => Panic
  end.

(** [entry(path).or_default().push(stage)]; an [ArrayVec<_, 3>] panics when full. *)
Definition push_stage (m : list (BitPath * list MergeStage)) (path : BitPath) (stage : MergeStage)
  : BitResult (list (BitPath * list MergeStage)) :=
  let old := default [] (map_get path m) in
  _ ← assert_that (length old <? 3)%nat;
  Ok (map_insert path (old ++ [stage]) m).

Fixpoint conflict_map (es : list BitIndexEntry) (m : list (BitPath * list MergeStage))
  : BitResult (list (BitPath * list MergeStage)) :=
  match es with
  | [] => Ok m
  | e :: es =>
      stage ← entry_stage e;
      m ← (if is_unmerged stage then push_stage m (ie_path e) stage else Ok m);
      conflict_map es m
  end.

Definition conflicts (idx : BitIndexInner) : BitResult (list (BitPath * ConflictType)) :=
  m ← conflict_map (idx_entries idx).*2 [];
  collect (λ '(path, stages), ty ← conflict_type_new stages; Ok (path, ty)) m.

(** ** The file format *)

Definition BIT_INDEX_HEADER_SIG : bytes := bs "DIRC".
Definition BIT_INDEX_TREECACHE_SIG : bytes := bs "TREE".
Definition BIT_INDEX_REUC_SIG : bytes := bs "REUC".
Definition BIT_INDEX_VERSION : Z := 2.

Record BitIndexHeader := mk_BitIndexHeader { ih_signature : bytes; ih_version : Z; ih_entryc : Z }.

Definition header_bytes (h : BitIndexHeader) : bytes :=
  ih_signature h ++ write_u32 (ih_version h) ++ write_u32 (ih_entryc h).

Definition parse_header : reader BitIndexHeader :=
  signature ← read_exact 4;
  _ ← lift (assert_that (bool_decide (signature = BIT_INDEX_HEADER_SIG)));
  version ← read_u32;
  _ ← lift (ensure ((version =? 2) || (version =? 3)) Anyhow);
  entryc ← read_u32;
  mret (mk_BitIndexHeader signature version entryc).

(** [while buf.len() > OID_SIZE]: every extension takes at least 8 bytes, so the
    number of bytes bounds the iterations.  Slices out of range panic. *)
Fixpoint parse_extensions (fuel : nat) (buf : bytes) (exts : list (bytes * bytes))
  : BitResult (list (bytes * bytes)) :=
  if (length buf <=? OID_SIZE)%nat then Ok exts
  else match fuel with
       | O => Panic
       | S fuel =>
           let signature := take 4 buf in
           let size := Z.to_nat (be_decode (take 4 (drop 4 buf))) in
           _ ← assert_that (8 + size <=? length buf)%nat;
           let data := take size (drop 8 buf) in
           parse_extensions fuel (drop (8 + size) buf) (map_insert signature data exts)
       end.

(** The extension with its signature and size. *)
Definition write_ext (signature data : bytes) : bytes :=
  signature ++ write_u32 (wrap 32 (Z.of_nat (length data))) ++ data.

Section sha1.
Variable sha1 : bytes → Oid.

Definition index_body (idx : BitIndexInner) : BitResult bytes :=
  entries ← write_iter (idx_entries idx).*2;
  Ok (header_bytes (mk_BitIndexHeader BIT_INDEX_HEADER_SIG BIT_INDEX_VERSION
                      (wrap 32 (Z.of_nat (length (idx_entries idx)))))
      ++ entries
      ++ (match idx_tree_cache idx with
          | Some c => write_ext BIT_INDEX_TREECACHE_SIG (tc_bytes c)
          | None => []
          end)
      ++ (match idx_reuc idx with
          | Some data => write_ext BIT_INDEX_REUC_SIG data
          | None => []
          end)).

(** [Serialize for BitIndexInner]: the body and its hash. *)
Definition index_serialize (idx : BitIndexInner) : BitResult bytes :=
  body ← index_body idx;
  Ok (fst (write_hash sha1 body)).

(** [collect::<Result<BitIndexEntries, _>>()]. *)
Definition collect_entries (es : list BitIndexEntry) : BitResult BitIndexEntries :=
  kvs ← collect (λ e, k ← entry_key e; Ok (k, e)) es;
  Ok (bt_from_list key_cmp kvs).

(** [Deserialize for BitIndexInner] on the whole file. *)
Definition index_deserialize (buf : bytes) : BitResult BitIndexInner :=
  '(header, r) ← parse_header buf;
  '(es, remainder) ← read_vec (deserialize (A:=BitIndexEntry)) (Z.to_nat (ih_entryc header)) r;
  entries ← collect_entries es;
  _ ← assert_that (OID_SIZE <=? length remainder)%nat;
  exts ← parse_extensions (length remainder) remainder [];
  tree_cache ← match map_get BIT_INDEX_TREECACHE_SIG exts with
               | Some data => Some ∘ fst <$> deserialize (A:=BitTreeCache) data
               | None => Ok None
               end;
  let reuc := map_get BIT_INDEX_REUC_SIG exts in
  let n := (length buf - OID_SIZE)%nat in
  _ ← ensure (bool_decide (sha1 (take n buf) = drop n buf)) Anyhow;
  Ok (mk_BitIndexInner entries tree_cache reuc).
End sha1.

(** ** index.rs *)

(** What [BitIndex] uses of the repository: the metadata of a file of the worktree,
    and writing the file as a blob to the object store. *)
Section repo.
Variable stat : BitPath → BitResult Metadata.
Variable write_worktree_blob : BitPath → BitResult Oid.

(** [BitIndexEntry::fill]. *)
Definition fill (e : BitIndexEntry) : BitResult BitIndexEntry :=
  if is_filled e then Ok e
  else md ← stat (ie_path e); Ok (with_oid (index_entry_new md (ie_path e)) (ie_oid e)).

(** [BitEntry::write]. *)
Definition entry_write (e : BitIndexEntry) : BitResult Oid :=
  if is_known (ie_oid e) then Ok (ie_oid e) else write_worktree_blob (ie_path e).

Definition add_entry_common (idx : BitIndexInner) (e : BitIndexEntry) : BitResult BitIndexInner :=
  idx ← remove_collisions idx (ie_path e);
  oid ← entry_write e;
  insert_entry idx (with_oid e oid).

Definition add_entry (idx : BitIndexInner) (e : BitIndexEntry) : BitResult BitIndexInner :=
  e ← fill e;
  add_entry_common (remove_conflicted idx (ie_path e)) e.

Definition add_conflicted_entry (idx : BitIndexInner) (e : BitIndexEntry) (stage : MergeStage)
  : BitResult BitIndexInner :=
  _ ← assert_that (is_known (ie_oid e));
  let idx := remove_entry idx (ie_path e, NONE) in
  e ← set_stage e stage;
  add_entry_common idx e.
End repo.

(** [BitIndex::is_racy_entry], given the modification time of the index file. *)
Definition timespec_le (a b : Timespec) : bool :=
  match then_with (Z.compare (sec a) (sec b)) (Z.compare (nano a) (nano b)) with
  | Gt => false | _ => true
  end.

Definition is_racy_entry (index_mtime : option Timespec) (e : BitIndexEntry) : bool :=
  match index_mtime with
  | Some mtime => timespec_le mtime (ie_mtime e)
  | None => true
  end.

(** ** Invariant *)

#[export] Instance key_ord_laws : OrdLaws key_cmp.
Proof. apply pair_ord_laws; apply _. Qed.

(** The entries are sorted, each is stored under its own key, and what it holds
    fits the file format; the paths are normalised. *)
Definition index_wf (idx : BitIndexInner) : Prop :=
  bt_sorted key_cmp (idx_entries idx)
  ∧ Forall (λ kv, entry_key kv.2 = Ok kv.1 ∧ index_entry_wf kv.2 ∧ norm_path kv.1.1)
      (idx_entries idx).

(** ** Lemmas: removal *)

Lemma remove_entry_entries idx key :
  bt_sorted key_cmp (idx_entries idx) →
  idx_entries (remove_entry idx key) = filter (λ kv, kv.1 ≠ key) (idx_entries idx).
Proof.
  intros Hs. rewrite <- (bt_remove_filter key_cmp) by done. unfold remove_entry. by case_match.
Qed.

Lemma remove_entries_entries keys : ∀ idx,
  bt_sorted key_cmp (idx_entries idx) →
  idx_entries (remove_entries idx keys) = filter (λ kv, kv.1 ∉ keys) (idx_entries idx).
Proof.
  induction keys as [|k keys IH]; intros idx Hs; cbn.
  - symmetry. apply filter_all. intros kv _. apply not_elem_of_nil.
  - unfold remove_entries in IH. rewrite IH; rewrite remove_entry_entries by done;
      [|by apply bt_sorted_filter].
    rewrite list_filter_filter. apply list_filter_iff. intros kv.
    rewrite not_elem_of_cons. tauto.
Qed.

Lemma index_wf_filter (P : index_key * BitIndexEntry → Prop) `{!∀ x, Decision (P x)} idx idx' :
  index_wf idx → idx_entries idx' = filter P (idx_entries idx) → index_wf idx'.
Proof.
  intros [Hs Hk] E. unfold index_wf. rewrite E. split; [by apply bt_sorted_filter|].
  rewrite Forall_forall in Hk |- *. intros kv [_ Hin]%list_elem_of_filter. by apply Hk.
Qed.

Lemma take_while_filter {A} (f : A → bool) (l : list A) :
  (∀ i j x y, l !! i = Some x → l !! j = Some y → (i < j)%nat → f y = true → f x = true) →
  take_while f l = filter (λ x, f x = true) l.
Proof.
  induction l as [|x l IH]; intros Hc; cbn [take_while]; [done|]. rewrite filter_cons.
  destruct (f x) eqn:Ex.
  - rewrite decide_True by done. f_equal. apply IH. intros i j a b Hi Hj Hij.
    apply (Hc (S i) (S j)); [done|done|lia].
  - rewrite decide_False by done. symmetry. apply filter_none. intros y Hy Hfy. apply list_elem_of_lookup in Hy as [j Hj].
    rewrite (Hc 0%nat (S j) x y) in Ex; try done. lia.
Qed.

Lemma join_empty d : norm_path d → join d [] = d ++ [x2f].
Proof.
  intros Hd. unfold join. cbn. destruct (last d) as [c|] eqn:El.
  - case_bool_decide; [|done]. subst. exfalso.
    apply last_Some in El as [d' ->]. unfold norm_path, split_slash in Hd.
    rewrite split_byte_app_cons in Hd. apply Forall_app in Hd as [_ Hd].
    inversion_clear Hd as [|?? [Hn _] _]. done.
  - apply last_None in El as ->. unfold norm_path in Hd. cbn in Hd.
    inversion_clear Hd as [|?? [Hn _] _]. done.
Qed.

Lemma key_cmp_path p s q : path_cmp p q ≠ Eq → key_cmp (p, s) (q, NONE) = path_cmp p q.
Proof. unfold key_cmp, pair_cmp. cbn. by destruct (path_cmp p q). Qed.

(** Where the range of [remove_directory] starts: everything below the directory is
    in it, and in it only what is below the directory starts with it. *)
Lemma range_under d p s :
  norm_path p → norm_path d → under d p → key_cmp (p, s) (d ++ [x2f], NONE) ≠ Lt.
Proof.
  intros Hp Hd [r ->]. change (x2f :: r) with ([x2f] ++ r). rewrite app_assoc.
  pose proof (bytes_compare_prefix (d ++ [x2f]) r) as E. rewrite <- path_cmp_bytes in E.
  unfold key_cmp, pair_cmp. cbn. rewrite E. destruct r; [|done]. cbn.
  by destruct s.
Qed.

Lemma range_starts_with d p s :
  norm_path p → norm_path d → key_cmp (p, s) (d ++ [x2f], NONE) ≠ Lt →
  path_starts_with p d = true ↔ under d p.
Proof.
  intros Hp Hd Hk. rewrite path_starts_with_norm by done. split; [|by right].
  intros [->|?]; [|done]. exfalso. apply Hk. unfold key_cmp, pair_cmp. cbn.
  assert (path_cmp d (d ++ [x2f]) = Lt) as ->; [|done].
  rewrite path_cmp_bytes, bytes_compare_antisym, bytes_compare_prefix. done.
Qed.

Lemma under_convex d p s q s' :
  norm_path d → key_cmp (p, s) (d ++ [x2f], NONE) ≠ Lt →
  key_cmp (p, s) (q, s') = Lt → under d q → under d p.
Proof.
  intros Hd Hp Hpq [r ->]. unfold key_cmp, pair_cmp in *. cbn in *. rewrite path_cmp_bytes in *.
  change (d ++ x2f :: r) with (d ++ [x2f] ++ r) in Hpq. rewrite app_assoc in Hpq.
  destruct (bytes_compare p ((d ++ [x2f]) ++ r)) eqn:E; cbn in Hpq; try done.
  - apply bytes_compare_eq in E as ->. exists r. by rewrite <- app_assoc.
  - destruct (prefix_convex (d ++ [x2f]) p r) as [r' ->]; [|done|].
    + intros E'. by rewrite E' in Hp.
    + exists r'. by rewrite <- app_assoc.
Qed.

Lemma remove_directory_entries idx d :
  index_wf idx → norm_path d →
  idx_entries (remove_directory idx d)
  = filter (λ kv, ¬ (kv.1.2 = NONE ∧ under d kv.1.1)) (idx_entries idx).
Proof.
  intros [Hs Hk] Hd. unfold remove_directory. rewrite remove_entries_entries, join_empty by done.
  rewrite Forall_forall in Hk.
  set (range := bt_range_from key_cmp (d ++ [x2f], NONE) (idx_entries idx)).
  assert (∀ kv, kv ∈ range ↔ key_cmp kv.1 (d ++ [x2f], NONE) ≠ Lt ∧ kv ∈ idx_entries idx) as Hrange
    by (intros kv; unfold range, bt_range_from; by rewrite list_elem_of_filter).
  assert (take_while (λ kv, path_starts_with kv.1.1 d) range
    = filter (λ kv, path_starts_with kv.1.1 d = true) range) as ->.
  { apply take_while_filter. intros i j [[p s] e] [[q s'] e'] Hi Hj Hij.
    assert (((p, s), e) ∈ range) as [Hp Hpi]%Hrange by (by eapply list_elem_of_lookup_2).
    assert (((q, s'), e') ∈ range) as [Hq Hqi]%Hrange by (by eapply list_elem_of_lookup_2).
    cbn in *. rewrite (range_starts_with d q s'), (range_starts_with d p s);
      [|by apply (Hk _ Hpi)|done|done|by apply (Hk _ Hqi)|done|done].
    apply under_convex with (s := s) (s' := s'); [done|done|].
    assert (bt_sorted key_cmp range) as Hsr by by apply bt_sorted_filter.
    exact (sorted_lookup _ _ _ _ _ _ Hsr Hi Hj Hij). }
  apply filter_ext_in. intros [[p s] e] Hin. cbn. apply not_iff_compat.
  rewrite list_elem_of_filter, list_elem_of_fmap. cbn. split.
  - intros [-> (kv & Ekv & [Hst Hr]%list_elem_of_filter)]. split; [done|].
    apply Hrange in Hr as [Hge Hin']. destruct kv as [[p' s'] e']. cbn in Ekv, Hst, Hge. simplify_eq.
    apply (range_starts_with d p' NONE) in Hst; [done|by apply (Hk _ Hin)|done|done].
  - intros [-> Hu]. split; [done|]. exists ((p, NONE), e). split; [done|].
    destruct (Hk _ Hin) as (_ & _ & Hnp). cbn in Hnp.
    pose proof (range_under d p NONE Hnp Hd Hu) as Hge. rewrite list_elem_of_filter. cbn. split.
    + by apply (range_starts_with d p NONE).
    + by apply Hrange.
Qed.

(** ** Lemmas: adding entries *)

Lemma entry_key_path e k : entry_key e = Ok k → k.1 = ie_path e ∧ flags_stage (ie_flags e) = Ok k.2.
Proof. unfold entry_key, entry_stage. intros H. by inv_ok. Qed.

Lemma insert_entry_ok idx e k :
  index_wf idx → entry_key e = Ok k → index_entry_wf e → norm_path k.1 →
  ∃ idx', insert_entry idx e = Ok idx' ∧ index_wf idx'
    ∧ ∀ kv, kv ∈ idx_entries idx' ↔ kv = (k, e) ∨ (kv ∈ idx_entries idx ∧ kv.1 ≠ k).
Proof.
  intros [Hs Hk] He Hwf Hn. unfold insert_entry. rewrite He. cbn [mbind outcome_bind].
  eexists. split; [reflexivity|]. cbn [invalidate_tree_cache_path set_entries idx_entries].
  assert (∀ kv, kv ∈ bt_insert key_cmp k e (idx_entries idx) ↔
    kv = (k, e) ∨ (kv ∈ idx_entries idx ∧ kv.1 ≠ k)) as Hin
    by (intros kv; by rewrite (elem_of_bt_insert key_cmp) by done).
  split; [|exact Hin]. split; cbn [idx_entries]; [by apply (bt_sorted_insert key_cmp)|].
  rewrite Forall_forall in Hk |- *. intros kv [->|[Hkv _]]%Hin; [done|by apply Hk].
Qed.

Lemma cumulative_collision p q : q ∈ cumulative_components p ↔ q = p ∨ under q p.
Proof.
  unfold cumulative_components. rewrite elem_of_cumulative_from. cbn. split.
  - intros [?|(t & r & -> & ->)]; [by left|]. right. by exists r.
  - intros [?|[r ->]]; [by left|]. right. by exists q, r.
Qed.

Lemma remove_file_dir_entries idx p :
  bt_sorted key_cmp (idx_entries idx) →
  idx_entries (remove_file_dir_collisions idx p)
  = filter (λ kv, ¬ (kv.1.2 = NONE ∧ (kv.1.1 = p ∨ under kv.1.1 p))) (idx_entries idx).
Proof.
  intros Hs. unfold remove_file_dir_collisions. rewrite remove_entries_entries by done.
  apply filter_ext_in. intros [[q s] e] _. cbn. apply not_iff_compat.
  rewrite list_elem_of_fmap. setoid_rewrite cumulative_collision. naive_solver.
Qed.

Lemma remove_conflicted_entries idx p :
  bt_sorted key_cmp (idx_entries idx) →
  idx_entries (remove_conflicted idx p)
  = filter (λ kv, ¬ (kv.1.1 = p ∧ kv.1.2 ≠ NONE)) (idx_entries idx).
Proof.
  intros Hs. assert (remove_conflicted idx p
    = remove_entries idx [(p, BASE); (p, OURS); (p, THEIRS)]) as -> by done.
  rewrite remove_entries_entries by done. apply filter_ext_in. intros [[q s] e] _. cbn.
  rewrite !not_elem_of_cons. split.
  - intros (H1 & H2 & H3 & _) [-> Hs']. destruct s; congruence.
  - intros Hn. split_and!; try (intros [= -> ->]; by apply Hn). apply not_elem_of_nil.
Qed.

Lemma collision_range p r s :
  key_cmp (p ++ x2f :: r, s) (p, NONE) ≠ Lt ∧ key_cmp (p ++ x2f :: r, s) (p ++ [x61], NONE) = Lt.
Proof.
  unfold key_cmp, pair_cmp. cbn. rewrite !path_cmp_bytes. split.
  - rewrite bytes_compare_prefix. done.
  - assert (bytes_compare (p ++ x2f :: r) (p ++ [x61]) = Lt) as ->; [|done].
    induction p as [|c p IH]; [done|]. cbn. by rewrite Z.compare_refl.
Qed.

(** In an ordered list, what is behind the first element has a smaller one before it. *)
Lemma existsb_tail (f : index_key * BitIndexEntry → bool) l :
  bt_sorted key_cmp l →
  existsb f (drop 1 l) = true ↔ ∃ x y, x ∈ l ∧ y ∈ l ∧ key_cmp y.1 x.1 = Lt ∧ f x = true.
Proof.
  intros Hs. destruct Hs as [|z l Hs Hz]; cbn [drop].
  - split; [done|]. by intros (x & y & []%elem_of_nil & _).
  - rewrite drop_0, existsb_exists. rewrite Forall_forall in Hz. split.
    + intros (x & Hx%list_elem_of_In & Hf). exists x, z.
      split_and!; [by apply elem_of_cons; right|by apply elem_of_cons; left|by apply (Hz x Hx)|done].
    + intros (x & y & [->|Hx]%elem_of_cons & Hy & Hlt & Hf); [|exists x; split; [by apply list_elem_of_In|done]].
      exfalso. apply elem_of_cons in Hy as [->|Hy]; [by rewrite (ord_refl key_cmp) in Hlt|].
      apply Hz in Hy. apply (ord_gt key_cmp) in Hlt. congruence.
Qed.

(** The collision with the directory [p] is noticed: an entry is below it, and another one that is not
    before [p] comes before that entry. *)
Definition dir_collision (idx : BitIndexInner) (p : BitPath) : Prop :=
  ∃ x y, x ∈ idx_entries idx ∧ y ∈ idx_entries idx ∧ under p x.1.1
    ∧ key_cmp y.1 (p, NONE) ≠ Lt ∧ key_cmp y.1 x.1 = Lt.

Lemma has_dir_collision_ok idx p :
  index_wf idx → norm_path p → utf8_valid p = true → (∀ kv, kv ∈ idx_entries idx → kv.1.1 ≠ p) →
  ∃ b, has_dir_collision idx p = Ok b ∧ (b = true ↔ dir_collision idx p).
Proof.
  intros [Hs Hk] Hp Hu Hno. unfold has_dir_collision.
  unfold approximate_lexicographical_successor. rewrite Hu. cbn [mbind outcome_bind].
  eexists. split; [reflexivity|]. rewrite Forall_forall in Hk.
  rewrite existsb_tail by by do 2 apply bt_sorted_filter. unfold dir_collision, bt_range_from.
  setoid_rewrite list_elem_of_filter. setoid_rewrite list_elem_of_filter.
  split.
  - intros (x & y & (_ & _ & Hx) & (_ & Hy & Hyi) & Hlt & Hst). exists x, y. split_and!; try done.
    apply path_starts_with_norm in Hst as [E|?]; [by destruct (Hno x Hx)|done|by apply Hk|done].
  - intros (x & y & Hx & Hy & Hux & Hge & Hlt). exists x, y.
    destruct x as [[q s] e]. cbn in Hux. destruct Hux as [r ->]. cbn in Hlt |- *.
    destruct (collision_range p r s) as [Hc1 Hc2]. split_and!; try done.
    + by eapply (ord_trans key_cmp).
    + apply path_starts_with_norm; [by apply (Hk _ Hx)|done|right; by exists r].
Qed.

(** Two different entries below [p] are enough. *)
Lemma dir_collision_two idx p x y :
  index_wf idx → x ∈ idx_entries idx → y ∈ idx_entries idx → x ≠ y → under p x.1.1 → under p y.1.1 →
  dir_collision idx p.
Proof.
  intros [Hs _] Hx Hy Hne Hux Huy.
  assert (∀ z : index_key * BitIndexEntry, under p z.1.1 → key_cmp z.1 (p, NONE) ≠ Lt) as Hge.
  { intros [[q s] e] [r Hq]. cbn in Hq |- *. subst q. by destruct (collision_range p r s). }
  destruct (key_cmp x.1 y.1) eqn:E.
  - exfalso. apply Hne. apply (ord_eq key_cmp) in E. destruct x as [k1 e1], y as [k2 e2]. cbn in E. subst k2.
    apply (bt_get_Some key_cmp _ _ _ Hs) in Hx, Hy. congruence.
  - exists y, x. by split_and!; try apply Hge.
  - apply (ord_gt key_cmp) in E. exists x, y. by split_and!; try apply Hge.
Qed.

(** The index after the collisions of [p] were looked for. *)
Lemma remove_collisions_ok idx p :
  index_wf idx → norm_path p → utf8_valid p = true →
  ∃ idx' (collided : bool), remove_collisions idx p = Ok idx' ∧ index_wf idx'
    ∧ (∀ kv, kv ∈ idx_entries idx' ↔ kv ∈ idx_entries idx
         ∧ ¬ (kv.1.2 = NONE ∧ (kv.1.1 = p ∨ under kv.1.1 p))
         ∧ (collided = true → ¬ (kv.1.2 = NONE ∧ under p kv.1.1)))
    ∧ ((∀ kv, kv ∈ idx_entries idx → kv.1.1 = p → kv.1.2 = NONE) →
       (collided = true ↔ dir_collision (remove_file_dir_collisions idx p) p)).
Proof.
  intros Hwf Hp Hu. unfold remove_collisions, remove_dir_file_collisions.
  pose proof (remove_file_dir_entries idx p (proj1 Hwf)) as E1.
  set (idx1 := remove_file_dir_collisions idx p) in *.
  assert (index_wf idx1) as Hwf1 by (by eapply index_wf_filter).
  assert (∃ b, has_dir_collision idx1 p = Ok b) as [b Hb].
  { unfold has_dir_collision, approximate_lexicographical_successor. rewrite Hu. cbn. eauto. }
  rewrite Hb. cbn [mbind outcome_bind].
  eexists (if b then remove_directory idx1 p else idx1), b. split; [done|].
  assert (∀ kv, kv ∈ idx_entries idx1 ↔
    kv ∈ idx_entries idx ∧ ¬ (kv.1.2 = NONE ∧ (kv.1.1 = p ∨ under kv.1.1 p))) as Hin1
    by (intros kv; rewrite E1, list_elem_of_filter; tauto).
  split_and!.
  - destruct b; [|done]. eapply index_wf_filter; [exact Hwf1|by apply remove_directory_entries].
  - intros kv. destruct b.
    + rewrite remove_directory_entries, list_elem_of_filter, Hin1 by done. tauto.
    + rewrite Hin1. naive_solver.
  - intros Hc. destruct (has_dir_collision_ok idx1 p Hwf1 Hp Hu) as (b' & Hb' & Hiff).
    + intros kv [Hkv Hnot]%Hin1 E. apply Hnot. auto.
    + rewrite Hb in Hb'. injection Hb' as ->. exact Hiff.
Qed.

(** Nothing else in the index is below [p] or between [p] and the entry. *)
Definition alone_below (idx : BitIndexInner) (p : BitPath) (kv : index_key * BitIndexEntry) : Prop :=
  ∀ kv2, kv2 ∈ idx_entries idx → kv2 ≠ kv → kv2.1.1 ≠ p →
    ¬ under p kv2.1.1 ∧ ¬ (path_cmp p kv2.1.1 = Lt ∧ path_cmp kv2.1.1 kv.1.1 = Lt).

Lemma under_ne d p : under d p → d ≠ p.
Proof. intros [r Hr] ->. apply (f_equal length) in Hr. rewrite length_app in Hr. cbn in Hr. lia. Qed.

Lemma under_cmp d p : under d p → path_cmp d p = Lt.
Proof.
  intros [r ->]. rewrite path_cmp_bytes, bytes_compare_antisym, bytes_compare_prefix. done.
Qed.

(** What is left of an index when its conflicts at [p] and its entries at and above [p] are removed. *)
Lemma alone_no_collision idx idx1 p kv :
  index_wf idx1 →
  (∀ kv, kv ∈ idx_entries idx1 ↔ kv ∈ idx_entries idx ∧ kv.1.1 ≠ p ∧ ¬ (kv.1.2 = NONE ∧ under kv.1.1 p)) →
  kv ∈ idx_entries idx → under p kv.1.1 →
  alone_below idx p kv ↔ ¬ dir_collision idx1 p.
Proof.
  intros Hwf1 Hin Hkv Hu.
  assert (∀ x, x ∈ idx_entries idx → under p x.1.1 → x ∈ idx_entries idx1) as Hbelow.
  { intros x Hx Hux. apply Hin. split_and!; [done|intros E; by apply (under_ne p x.1.1)|].
    intros [_ Hxu]. apply under_cmp in Hux, Hxu. apply (ord_gt path_cmp) in Hxu. congruence. }
  split.
  - intros Ha (x & y & Hx & Hy & Hux & Hge & Hlt). apply Hin in Hx as (Hx & Hxp & _), Hy as (Hy & Hyp & _).
    destruct (decide (x = kv)) as [->|Hne]; [|by destruct (Ha x Hx Hne Hxp)].
    assert (y ≠ kv) as Hykv by (intros ->; by rewrite (ord_refl key_cmp) in Hlt).
    destruct (Ha y Hy Hykv Hyp) as [Hnu Hnb]. destruct y as [[q s] e], kv as [[q' s'] e']. cbn in *.
    assert (path_cmp q' q ≠ Lt) as Hq.
    { intros E. unfold key_cmp, pair_cmp in Hlt. cbn in Hlt. apply (ord_gt path_cmp) in E. by rewrite E in Hlt. }
    destruct (path_cmp q q') eqn:E; [|apply Hnb; split; [|done]|by apply (ord_gt path_cmp) in E].
    + apply (ord_eq path_cmp) in E. by subst.
    + destruct (path_cmp p q) eqn:Epq; [by apply (ord_eq path_cmp) in Epq; subst|done|].
      exfalso. apply Hge. apply (ord_gt path_cmp) in Epq. rewrite key_cmp_path; [done|]. by rewrite Epq.
  - intros Hnc kv2 Hkv2 Hne Hp2. split.
    + intros Hu2. apply Hnc. eapply (dir_collision_two idx1 p kv2 kv); auto.
    + intros [H1 H2]. apply Hnc. exists kv, kv2. split_and!; [by apply Hbelow| |done| |].
      * apply Hin. split_and!; [done|done|]. intros [_ Hu2]. apply under_cmp in Hu2.
        apply (ord_gt path_cmp) in Hu2. congruence.
      * apply (ord_gt path_cmp) in H1. destruct kv2 as [[q s] e]. cbn in *. rewrite key_cmp_path; by rewrite H1.
      * unfold key_cmp, pair_cmp. by rewrite H2.
Qed.

(** ** Theorems: mutators *)

(** [remove_directory] removes from the index exactly the unconflicted entries
    strictly below the directory: the range that starts at the path with a
    trailing slash misses none of them, and no file whose name merely starts with
    the directory's name is touched. *)
Theorem remove_directory_correct idx d :
  index_wf idx → norm_path d →
  index_wf (remove_directory idx d)
  ∧ idx_entries (remove_directory idx d)
    = filter (λ kv, ¬ (kv.1.2 = NONE ∧ under d kv.1.1)) (idx_entries idx).
Proof.
  intros Hwf Hd. pose proof (remove_directory_entries idx d Hwf Hd) as E.
  split; [by eapply index_wf_filter|done].
Qed.

Definition plain_entry (path : BitPath) : BitIndexEntry :=
  mk_BitIndexEntry timespec_zero timespec_zero 0 1 REG 0 0 0 EMPTY_BLOB
    (flags_with_path_len (length path)) 0 path.

Definition plain_index (paths : list BitPath) : BitIndexInner :=
  mk_BitIndexInner ((λ p, ((p, NONE), plain_entry p)) <$> paths) None None.

Lemma plain_index_wf_3 :
  index_wf (plain_index [bs "dir.c"; bs "dir/a"; bs "dir/b/c"; bs "dir2"]).
Proof.
  split.
  - repeat constructor.
  - repeat (apply Forall_cons_2; [split; [reflexivity|split; [split_and!; vm_decide|vm_decide]]|]).
    constructor.
Qed.

Lemma remove_directory_correct_witness :
  (idx_entries (remove_directory
     (plain_index [bs "dir.c"; bs "dir/a"; bs "dir/b/c"; bs "dir2"]) (bs "dir"))).*1
  = [(bs "dir.c", NONE); (bs "dir2", NONE)].
Proof.
  rewrite (proj2 (remove_directory_correct
    (plain_index [bs "dir.c"; bs "dir/a"; bs "dir/b/c"; bs "dir2"]) (bs "dir")
    plain_index_wf_3 ltac:(vm_decide))).
  vm_compute. reflexivity.
Defined.

Lemma add_entry_ok stat write_blob idx e e1 oid :
  index_wf idx → fill stat e = Ok e1 → entry_write write_blob e1 = Ok oid →
  entry_key e1 = Ok (ie_path e1, NONE) → index_entry_wf (with_oid e1 oid) →
  norm_path (ie_path e1) → utf8_valid (ie_path e1) = true →
  ∃ idx', add_entry stat write_blob idx e = Ok idx' ∧ index_wf idx'
    ∧ (∀ s e2, ((ie_path e1, s), e2) ∈ idx_entries idx' ↔ s = NONE ∧ e2 = with_oid e1 oid)
    ∧ (∀ q e2, under q (ie_path e1) → ((q, NONE), e2) ∉ idx_entries idx')
    ∧ (∀ kv, kv ∈ idx_entries idx' → kv.1.1 ≠ ie_path e1 → kv ∈ idx_entries idx)
    ∧ (∀ kv, kv ∈ idx_entries idx → kv.1.1 ≠ ie_path e1 →
         ¬ (kv.1.2 = NONE ∧ (under kv.1.1 (ie_path e1) ∨ under (ie_path e1) kv.1.1)) →
         kv ∈ idx_entries idx')
    ∧ (∀ kv, kv ∈ idx_entries idx → kv.1.2 = NONE → under (ie_path e1) kv.1.1 →
         (kv ∈ idx_entries idx' ↔ alone_below idx (ie_path e1) kv)).
Proof.
  intros Hwf Hfill Hw Hkey Hewf Hn Hu. set (p := ie_path e1) in *.
  unfold add_entry. rewrite Hfill. cbn [mbind outcome_bind]. fold p.
  pose proof (remove_conflicted_entries idx p (proj1 Hwf)) as E0.
  set (idx0 := remove_conflicted idx p) in *.
  assert (index_wf idx0) as Hwf0 by (by eapply index_wf_filter).
  destruct (remove_collisions_ok idx0 p Hwf0 Hn Hu) as (idx1 & b & E1 & Hwf1 & Hin1 & Hb).
  unfold add_entry_common. fold p. rewrite E1. cbn [mbind outcome_bind]. rewrite Hw.
  cbn [mbind outcome_bind].
  destruct (insert_entry_ok idx1 (with_oid e1 oid) (p, NONE) Hwf1 Hkey Hewf Hn)
    as (idx' & E' & Hwf' & Hin').
  exists idx'. split; [exact E'|]. split; [exact Hwf'|].
  assert (∀ kv, kv ∈ idx_entries idx0 ↔ kv ∈ idx_entries idx ∧ ¬ (kv.1.1 = p ∧ kv.1.2 ≠ NONE)) as Hin0
    by (intros kv; rewrite E0, list_elem_of_filter; tauto).
  split_and!.
  - intros s e2. rewrite Hin', Hin1, Hin0. cbn. split.
    + intros [[= -> ->]|(((_ & Hc) & Hn1 & _) & Hne)]; [done|].
      exfalso. destruct (decide (s = NONE)) as [->|]; [by apply Hne|by apply Hc].
    + intros [-> ->]. by left.
  - intros q e2 Hq. rewrite Hin', Hin1, Hin0. cbn.
    intros [[= -> ->]|((_ & Hn1 & _) & _)]; [by apply (under_ne p p)|apply Hn1; auto].
  - intros kv. rewrite Hin', Hin1, Hin0. intros [->|?]; [done|tauto].
  - intros kv Hkv Hne Hnc. rewrite Hin', Hin1, Hin0. right.
    split_and!; try done; [tauto|tauto|tauto|]. intros E. apply Hne. by rewrite E.
  - intros kv Hkv Hnone Hukv.
    assert (kv.1.1 ≠ p) as Hnp by (intros E; by apply (under_ne p kv.1.1)).
    rewrite (alone_no_collision idx (remove_file_dir_collisions idx0 p) p kv); [| | |done|done].
    + rewrite <- Hb by (intros kv' [_ Hc]%Hin0 E; apply dec_stable; naive_solver).
      rewrite Hin', Hin1, Hin0. split.
      * intros [->|((_ & _ & Hc) & _)] Ht; [done|by apply Hc].
      * intros Hf. right. split_and!; try done.
        -- by intros [? _].
        -- intros [_ [?|Hu2]]; [done|]. apply under_cmp in Hukv, Hu2. apply (ord_gt path_cmp) in Hu2. congruence.
        -- intros E. apply Hnp. by rewrite E.
    + eapply index_wf_filter; [exact Hwf0|by apply remove_file_dir_entries, Hwf0].
    + intros kv'. rewrite remove_file_dir_entries by apply Hwf0. rewrite list_elem_of_filter, Hin0.
      destruct (decide (kv'.1.2 = NONE)); naive_solver.
Qed.

(** C23: [add_entry] on an index that satisfies its invariant, when the file can be stated and stored:
    it succeeds; afterwards the new entry is the only one of its path (every conflict stage is gone), no
    parent directory of it is tracked as a file, every entry that does not collide with the new one is
    kept, and the invariant holds.  An unconflicted entry below the path is removed, unless it is the
    only entry below the path and no other one sorts between the path and it: that one is missed, and is
    in the index beside the new entry. *)
Theorem add_entry_correct stat write_blob idx e e1 oid :
  index_wf idx → fill stat e = Ok e1 → entry_write write_blob e1 = Ok oid →
  entry_key e1 = Ok (ie_path e1, NONE) → index_entry_wf (with_oid e1 oid) →
  norm_path (ie_path e1) → utf8_valid (ie_path e1) = true →
  ∃ idx', add_entry stat write_blob idx e = Ok idx' ∧ index_wf idx'
    ∧ (∀ s e2, ((ie_path e1, s), e2) ∈ idx_entries idx' ↔ s = NONE ∧ e2 = with_oid e1 oid)
    ∧ (∀ q e2, under q (ie_path e1) → ((q, NONE), e2) ∉ idx_entries idx')
    ∧ (∀ kv, kv ∈ idx_entries idx' → kv.1.1 ≠ ie_path e1 → kv ∈ idx_entries idx)
    ∧ (∀ kv, kv ∈ idx_entries idx → kv.1.1 ≠ ie_path e1 →
         ¬ (kv.1.2 = NONE ∧ (under kv.1.1 (ie_path e1) ∨ under (ie_path e1) kv.1.1)) →
         kv ∈ idx_entries idx')
    ∧ (∀ kv, kv ∈ idx_entries idx → kv.1.2 = NONE → under (ie_path e1) kv.1.1 →
         (kv ∈ idx_entries idx' ↔ alone_below idx (ie_path e1) kv)).
Proof. apply add_entry_ok. Qed.

(** The parameters of the witnesses: nothing has to be stated or stored. *)
Definition no_stat (_ : BitPath) : BitResult Metadata := Err Anyhow.
Definition no_write (_ : BitPath) : BitResult Oid := Err Anyhow.

Lemma add_entry_correct_witness :
  ∃ idx', add_entry no_stat no_write
            (plain_index [bs "dir.c"; bs "dir/a"; bs "dir/b/c"; bs "dir2"]) (plain_entry (bs "dir"))
          = Ok idx' ∧ index_wf idx' ∧ (idx_entries idx').*1 = [(bs "dir", NONE); (bs "dir.c", NONE); (bs "dir2", NONE)].
Proof.
  destruct (add_entry_correct no_stat no_write
    (plain_index [bs "dir.c"; bs "dir/a"; bs "dir/b/c"; bs "dir2"]) (plain_entry (bs "dir"))
    (plain_entry (bs "dir")) EMPTY_BLOB) as (idx' & E & Hwf & _).
  - apply plain_index_wf_3.
  - reflexivity.
  - reflexivity.
  - reflexivity.
  - split_and!; vm_decide.
  - vm_decide.
  - reflexivity.
  - exists idx'. split; [exact E|]. split; [exact Hwf|].
    vm_compute in E. injection E as <-. reflexivity.
Defined.

(** Where exactly one tracked file lies below the path and nothing else is in
    the index, [add_entry] does not notice that the path was a directory (the
    first entry of the range is skipped, but the entry of the path itself is no
    longer in the range): afterwards the index holds the file and the file below
    it. *)
Theorem dir_file_collision_missed stat write_blob idx e e1 oid r x :
  index_wf idx → fill stat e = Ok e1 → entry_write write_blob e1 = Ok oid →
  entry_key e1 = Ok (ie_path e1, NONE) → index_entry_wf (with_oid e1 oid) →
  norm_path (ie_path e1) → utf8_valid (ie_path e1) = true →
  idx_entries idx = [((ie_path e1 ++ x2f :: r, NONE), x)] →
  ∃ idx', add_entry stat write_blob idx e = Ok idx'
    ∧ ((ie_path e1, NONE), with_oid e1 oid) ∈ idx_entries idx'
    ∧ ((ie_path e1 ++ x2f :: r, NONE), x) ∈ idx_entries idx'.
Proof.
  intros Hwf Hfill Hw Hkey Hewf Hn Hu Hidx. set (p := ie_path e1) in *.
  unfold add_entry. rewrite Hfill. cbn [mbind outcome_bind]. fold p.
  assert (p ++ x2f :: r ≠ p) as Hne.
  { intros E. apply (f_equal length) in E. rewrite length_app in E. cbn in E. lia. }
  assert (¬ under (p ++ x2f :: r) p) as Hnu.
  { intros [r' E]. apply (f_equal length) in E. rewrite !length_app in E. cbn in E. lia. }
  pose proof (remove_conflicted_entries idx p (proj1 Hwf)) as E0.
  rewrite Hidx, filter_cons_True, filter_nil in E0 by (cbn; tauto).
  set (idx0 := remove_conflicted idx p) in *.
  assert (index_wf idx0) as Hwf0.
  { unfold index_wf. rewrite E0, <- Hidx. exact Hwf. }
  pose proof (remove_file_dir_entries idx0 p (proj1 Hwf0)) as E1.
  rewrite E0, filter_cons_True, filter_nil in E1 by (cbn; tauto).
  unfold add_entry_common, remove_collisions, remove_dir_file_collisions. fold p.
  set (idx1 := remove_file_dir_collisions idx0 p) in *.
  assert (has_dir_collision idx1 p = Ok false) as Hb.
  { unfold has_dir_collision, approximate_lexicographical_successor, bt_range_from. rewrite Hu, E1.
    destruct (collision_range p r NONE) as [Hc1 Hc2].
    rewrite (filter_cons_True (λ kv : index_key * BitIndexEntry, key_cmp kv.1 (p, NONE) ≠ Lt)) by done.
    rewrite filter_nil. cbn [mbind outcome_bind].
    rewrite filter_cons_True, filter_nil by done. done. }
  rewrite Hb. cbn [mbind outcome_bind]. rewrite Hw. cbn [mbind outcome_bind].
  assert (index_wf idx1) as Hwf1.
  { unfold index_wf. rewrite E1, <- E0. exact Hwf0. }
  destruct (insert_entry_ok idx1 (with_oid e1 oid) (p, NONE) Hwf1 Hkey Hewf Hn)
    as (idx' & E' & _ & Hin').
  exists idx'. split; [exact E'|]. rewrite !Hin', !E1, !list_elem_of_singleton. split; [by left|].
  right. split; [done|]. cbn. congruence.
Qed.

Lemma dir_file_collision_missed_witness :
  ∃ idx', add_entry no_stat no_write (plain_index [bs "foo/bar"]) (plain_entry (bs "foo")) = Ok idx'
    ∧ ((bs "foo", NONE), plain_entry (bs "foo")) ∈ idx_entries idx'
    ∧ ((bs "foo/bar", NONE), plain_entry (bs "foo/bar")) ∈ idx_entries idx'.
Proof.
  apply (dir_file_collision_missed no_stat no_write (plain_index [bs "foo/bar"])
    (plain_entry (bs "foo")) (plain_entry (bs "foo")) EMPTY_BLOB (bs "bar") (plain_entry (bs "foo/bar"))).
  - split; [repeat constructor|]. apply Forall_cons_2; [|constructor].
    split; [reflexivity|split; [split_and!; vm_decide|vm_decide]].
  - reflexivity.
  - reflexivity.
  - reflexivity.
  - split_and!; vm_decide.
  - vm_decide.
  - reflexivity.
  - reflexivity.
Defined.
