(* ===== verification/IndexFile.v ===== *)
(** * IndexFile

    The theorems on the index file of [libbit/src/index/index_inner.rs]: what
    [Serialize] writes is what [Deserialize] reads, and a file that is read has an
    intact checksum; and the summary of conflicts. *)

From Stdlib Require Import ZArith Lia Sorted.
From Stdlib Require Import Strings.Byte.
From stdpp Require Import base tactics option list countable strings sorting.
From S2P Require Import Prelude RustStd Data Io Hash Path BTree Obj Tree IndexEntry TreeCache Index.

#[local] Open Scope Z_scope.

(** ** Lemmas *)

Lemma reads_parse_header n :
  fits 32 n →
  reads parse_header (header_bytes (mk_BitIndexHeader BIT_INDEX_HEADER_SIG BIT_INDEX_VERSION n))
    (mk_BitIndexHeader BIT_INDEX_HEADER_SIG BIT_INDEX_VERSION n).
Proof.
  intros Hn. unfold parse_header, header_bytes. cbn [ih_signature ih_version ih_entryc].
  eapply reads_bind; [by apply reads_read_exact|].
  eapply reads_bind_nil; [by apply reads_lift|].
  eapply reads_bind; [by apply reads_u32|].
  eapply reads_bind_nil; [by apply reads_lift|].
  eapply reads_bind_last; [by apply reads_u32|]. apply reads_ret.
Qed.

Lemma collect_entries_ok (es : BitIndexEntries) :
  bt_sorted key_cmp es → Forall (λ kv, entry_key kv.2 = Ok kv.1) es →
  collect_entries es.*2 = Ok es.
Proof.
  intros Hs Hk. unfold collect_entries.
  assert (collect (λ e, k ← entry_key e; Ok (k, e)) es.*2 = Ok es) as ->.
  { clear Hs. induction Hk as [|[k e] es Hke _ IH]; [done|]. cbn in *. by rewrite Hke, IH. }
  cbn [mbind outcome_bind]. f_equal. by apply (bt_from_list_sorted key_cmp).
Qed.

(** Data whose size fits the size field. *)
Definition ext_ok (data : bytes) : Prop := Z.of_nat (length data) < 2 ^ 32.

Lemma parse_extensions_ext fuel sig data rest exts :
  length sig = 4%nat → ext_ok data → (20 ≤ length rest)%nat →
  parse_extensions (S fuel) (write_ext sig data ++ rest) exts
  = parse_extensions fuel rest (map_insert sig data exts).
Proof.
  intros Hsig Hd Hr. unfold ext_ok in Hd. unfold write_ext. rewrite wrap_fits by (unfold fits; lia).
  set (buf := (sig ++ write_u32 (Z.of_nat (length data)) ++ data) ++ rest).
  assert (buf = sig ++ write_u32 (Z.of_nat (length data)) ++ data ++ rest) as Hbuf
    by (unfold buf; by rewrite <- !app_assoc).
  pose proof (length_be_encode 4 (Z.of_nat (length data))) as H4.
  assert (length buf = 8 + length data + length rest)%nat as Hlen
    by (rewrite Hbuf, !length_app, Hsig; unfold write_u32; lia).
  assert (take 4 buf = sig) as E1 by (rewrite Hbuf, <- Hsig; apply take_app_length).
  assert (drop 4 buf = write_u32 (Z.of_nat (length data)) ++ data ++ rest) as E2
    by (rewrite Hbuf, <- Hsig; apply drop_app_length).
  assert (take 4 (drop 4 buf) = write_u32 (Z.of_nat (length data))) as E3
    by (rewrite E2; by apply take_app_length').
  assert (drop 8 buf = data ++ rest) as E4.
  { change 8%nat with (4 + 4)%nat. rewrite <- drop_drop, E2. by apply drop_app_length'. }
  cbn [parse_extensions].
  destruct (Nat.leb_spec (length buf) OID_SIZE) as [Hle|Hgt]; [unfold OID_SIZE in Hle; lia|].
  rewrite E3. unfold write_u32 at 1 2 3. rewrite be_decode_encode_id by (unfold fits; lia).
  rewrite Nat2Z.id. destruct (Nat.leb_spec (8 + length data) (length buf)); [|lia].
  cbn [assert_that mbind outcome_bind]. rewrite E1.
  rewrite <- drop_drop, E4, take_app_length, drop_app_length. done.
Qed.

Lemma parse_extensions_done fuel rest exts :
  length rest = 20%nat → parse_extensions fuel rest exts = Ok exts.
Proof. intros Hr. destruct fuel; cbn; by rewrite Hr. Qed.

(** ** Well-formed index files *)

(** What fits the file: an index that satisfies its invariant, with counts and
    extensions whose sizes fit their 32-bit fields. *)
Definition index_file_wf (idx : BitIndexInner) : Prop :=
  index_wf idx ∧ Z.of_nat (length (idx_entries idx)) < 2 ^ 32
  ∧ (∀ c, idx_tree_cache idx = Some c → tc_wf c ∧ ext_ok (tc_bytes c))
  ∧ (∀ data, idx_reuc idx = Some data → ext_ok data).

(** The extensions as they are written. *)
Definition ext_bytes (idx : BitIndexInner) : bytes :=
  (match idx_tree_cache idx with
   | Some c => write_ext BIT_INDEX_TREECACHE_SIG (tc_bytes c)
   | None => []
   end)
  ++ (match idx_reuc idx with
      | Some data => write_ext BIT_INDEX_REUC_SIG data
      | None => []
      end).

Definition ext_map (idx : BitIndexInner) : list (bytes * bytes) :=
  (match idx_tree_cache idx with Some c => [(BIT_INDEX_TREECACHE_SIG, tc_bytes c)] | None => [] end)
  ++ (match idx_reuc idx with Some data => [(BIT_INDEX_REUC_SIG, data)] | None => [] end).

Lemma parse_extensions_ok idx hash fuel :
  index_file_wf idx → length hash = 20%nat → (2 ≤ fuel)%nat →
  parse_extensions fuel (ext_bytes idx ++ hash) [] = Ok (ext_map idx).
Proof.
  intros (_ & _ & Htc & Hre) Hh Hf. destruct fuel as [|[|fuel]]; [lia|lia|].
  unfold ext_bytes, ext_map.
  destruct (idx_tree_cache idx) as [c|], (idx_reuc idx) as [d|]; cbn [app].
  - rewrite <- app_assoc, parse_extensions_ext; [|done|by apply Htc|rewrite length_app; lia].
    rewrite parse_extensions_ext; [|done|by apply Hre|lia]. by rewrite parse_extensions_done.
  - rewrite app_nil_r, parse_extensions_ext; [|done|by apply Htc|lia].
    by rewrite parse_extensions_done.
  - rewrite parse_extensions_ext; [|done|by apply Hre|lia]. by rewrite parse_extensions_done.
  - by rewrite parse_extensions_done.
Qed.

Lemma ext_map_lookup idx :
  map_get BIT_INDEX_TREECACHE_SIG (ext_map idx) = tc_bytes <$> idx_tree_cache idx
  ∧ map_get BIT_INDEX_REUC_SIG (ext_map idx) = idx_reuc idx.
Proof. unfold ext_map. by destruct (idx_tree_cache idx), (idx_reuc idx). Qed.

Lemma tree_cache_reads c : tc_wf c → deserialize (tc_bytes c) = Ok (c, []).
Proof.
  intros Hc. unfold deserialize, tc_deserialize.
  pose proof (reads_tree_cache c Hc (length (tc_bytes c)) ltac:(lia) []) as Hr.
  rewrite app_nil_r in Hr. by rewrite Hr.
Qed.

(** ** What a file that is read holds *)

Lemma reader_bind_inv {A B} (m : reader A) (f : A → reader B) s b s' :
  (m ≫= f) s = Ok (b, s') → ∃ a s1, m s = Ok (a, s1) ∧ f a s1 = Ok (b, s').
Proof. unfold mbind, reader_bind. destruct (m s) as [[a s1]| |]; [|done..]. eauto. Qed.

Lemma read_exact_inv n s a s' : read_exact n s = Ok (a, s') → length a = n ∧ s = a ++ s'.
Proof.
  unfold read_exact. destruct (Nat.leb_spec n (length s)); [|done]. intros [= <- <-].
  by rewrite length_take_le, take_drop by done.
Qed.

Lemma read_be_inv n s a s' : (be_decode <$> read_exact n) s = Ok (a, s') → fits (8 * Z.of_nat n) a.
Proof.
  unfold fmap, reader_fmap. destruct (read_exact n s) as [[b s1]| |] eqn:E; [|done..].
  intros [= <- <-]. apply read_exact_inv in E as [<- _]. apply be_decode_bound.
Qed.

Lemma read_timespec_inv s a s' : read_timespec s = Ok (a, s') → timespec_wf a.
Proof.
  intros H. unfold read_timespec in H. apply reader_bind_inv in H as (x & s1 & Hx & H).
  apply reader_bind_inv in H as (y & s2 & Hy & H). injection H as <- <-.
  split; by eapply (read_be_inv 4).
Qed.

(** When something follows the path, it was ended by its NUL. *)
Lemma read_path_inv n s p s' : read_null_terminated_path_skip_n n s = Ok (p, s') → s' ≠ [] →
  (n ≤ length p)%nat ∧ x00 ∉ drop n p.
Proof.
  intros H Hs. unfold read_null_terminated_path_skip_n in H.
  apply reader_bind_inv in H as (a & s1 & Ha & H). apply reader_bind_inv in H as (b & s2 & Hb & H).
  apply read_exact_inv in Ha as [Hn ->]. injection Hb as Hb.
  assert (∃ c, b = c ++ [x00] ∧ x00 ∉ c) as (c & -> & Hc).
  { destruct (decide (x00 ∈ s1)) as [Hin|Hin].
    - apply list_elem_of_split_l in Hin as (l & l' & -> & Hl). rewrite read_until_app in Hb by done.
      injection Hb as <- <-. eauto.
    - rewrite read_until_none in Hb by done. injection Hb as <- <-.
      unfold lift in H. by destruct (but_last _); simplify_eq. }
  unfold lift, but_last in H. destruct (a ++ c ++ [x00]) eqn:E; [by destruct a, c|]. rewrite <- E in H.
  injection H as <- <-. rewrite app_assoc, length_app, Nat.add_sub, take_app_length.
  rewrite length_app, <- Hn, drop_app_length. split; [lia|done].
Qed.

(** What can be said of an entry that was read: the values have their widths, there are extended flags
    only where the flags announce them, and the path is as long as the flags say at least, with no NUL
    behind that. *)
Definition entry_typed (e : BitIndexEntry) : Prop :=
  timespec_wf (ie_ctime e) ∧ timespec_wf (ie_mtime e)
  ∧ fits 32 (ie_device e) ∧ fits 32 (ie_inode e) ∧ fits 32 (ie_uid e) ∧ fits 32 (ie_gid e)
  ∧ fits 32 (ie_filesize e) ∧ oid_wf (ie_oid e) ∧ fits 16 (ie_flags e) ∧ fits 16 (ie_extended_flags e)
  ∧ (extended (ie_flags e) = false → ie_extended_flags e = 0)
  ∧ path_len (ie_flags e) ≤ Z.of_nat (length (ie_path e))
  ∧ x00 ∉ drop (Z.to_nat (path_len (ie_flags e))) (ie_path e).

Lemma entry_typed_wf e : entry_typed e → x00 ∉ ie_path e → is_relative (ie_path e) = true → index_entry_wf e.
Proof. unfold entry_typed, index_entry_wf. naive_solver. Qed.

Lemma path_len_nonneg f : fits 16 f → 0 ≤ path_len f.
Proof. intros [Hf _]. unfold path_len. apply Z.land_nonneg. lia. Qed.

Lemma read_entry_typed s e s' : deserialize (A:=BitIndexEntry) s = Ok (e, s') → s' ≠ [] → entry_typed e.
Proof.
  intros H Hs. unfold deserialize, index_entry_deserialize in H.
  apply reader_bind_inv in H as (ctime & s1 & E1 & H). apply reader_bind_inv in H as (mtime & s2 & E2 & H).
  apply reader_bind_inv in H as (device & s3 & E3 & H). apply reader_bind_inv in H as (inode & s4 & E4 & H).
  apply reader_bind_inv in H as (m & s5 & E5 & H). apply reader_bind_inv in H as (mode & s6 & E6 & H).
  apply reader_bind_inv in H as (uid & s7 & E7 & H). apply reader_bind_inv in H as (gid & s8 & E8 & H).
  apply reader_bind_inv in H as (filesize & s9 & E9 & H). apply reader_bind_inv in H as (oid & s10 & E10 & H).
  apply reader_bind_inv in H as (flags & s11 & E11 & H). apply reader_bind_inv in H as (ext & s12 & E12 & H).
  apply reader_bind_inv in H as (path & s13 & E13 & H). apply reader_bind_inv in H as (pad & s14 & E14 & H).
  injection H as <- <-. apply read_exact_inv in E14 as [_ ->].
  apply (read_be_inv 2) in E11. pose proof (path_len_nonneg flags E11).
  destruct (read_path_inv _ _ _ _ E13) as [Hn Hp]; [by destruct pad|].
  apply read_exact_inv in E10 as [Hoid _].
  split_and!; simpl; try (by eapply (read_be_inv 4)); try (by eapply read_timespec_inv); try done; [| |lia].
  - destruct (extended flags); [by apply (read_be_inv 2) in E12|]. injection E12 as <- _. unfold fits. lia.
  - intros Hx. rewrite Hx in E12. by injection E12 as <- _.
Qed.

Lemma read_vec_nil n es s' : read_vec (deserialize (A:=BitIndexEntry)) n [] = Ok (es, s') → s' = [].
Proof. destruct n; [by intros [= <- <-]|done]. Qed.

Lemma read_entries_typed n s es s' :
  read_vec (deserialize (A:=BitIndexEntry)) n s = Ok (es, s') → s' ≠ [] → Forall entry_typed es ∧ length es = n.
Proof.
  revert s es. induction n as [|n IH]; intros s es H Hs; [by injection H as <- <-|]. cbn in H.
  apply reader_bind_inv in H as (e & s1 & E1 & H). apply reader_bind_inv in H as (es' & s2 & E2 & H).
  injection H as <- <-. destruct (IH _ _ E2 Hs) as [? <-]. split; [|done]. constructor; [|done].
  apply (read_entry_typed _ _ _ E1). intros ->. by apply read_vec_nil in E2.
Qed.

Lemma bt_insert_typed (P : index_key * BitIndexEntry → Prop) k e m :
  P (k, e) → Forall P m → Forall P (bt_insert key_cmp k e m) ∧ (length (bt_insert key_cmp k e m) ≤ S (length m))%nat.
Proof.
  intros Hp. induction m as [|[k' e'] m IH]; intros Hm; simpl; [split; [by repeat constructor|lia]|].
  inversion_clear Hm as [|?? Hk Hm']. destruct (key_cmp k k') eqn:E; simpl.
  - apply (ord_eq key_cmp) in E as <-. split; [by constructor|lia].
  - split; [by repeat constructor|lia].
  - destruct (IH Hm'). split; [by constructor|lia].
Qed.

Lemma collect_entries_inv es m (P : BitIndexEntry → Prop) : collect_entries es = Ok m → Forall P es →
  bt_sorted key_cmp m ∧ (length m ≤ length es)%nat ∧ Forall (λ kv, entry_key kv.2 = Ok kv.1 ∧ P kv.2) m.
Proof.
  unfold collect_entries. intros H HP. inv_ok. rename a into kvs.
  split; [apply (bt_sorted_from_list key_cmp)|].
  assert (length kvs = length es ∧ Forall (λ kv, entry_key kv.2 = Ok kv.1 ∧ P kv.2) kvs) as [<- Hkvs].
  { revert kvs E. induction HP as [|e es He _ IH]; intros kvs E; cbn in E; inv_ok; [by split|].
    destruct (IH _ eq_refl) as [? ?]. split; [simpl; congruence|]. by constructor. }
  unfold bt_from_list. clear E.
  change (length kvs) with (length (@nil (index_key * BitIndexEntry)) + length kvs)%nat.
  assert (Forall (λ kv : index_key * BitIndexEntry, entry_key kv.2 = Ok kv.1 ∧ P kv.2) []) as Hm by constructor.
  revert Hm. generalize (@nil (index_key * BitIndexEntry)).
  induction Hkvs as [|[k e] kvs Hk _ IH]; intros acc Hacc; simpl; [split; [lia|done]|].
  destruct (bt_insert_typed (λ kv, entry_key kv.2 = Ok kv.1 ∧ P kv.2) k e acc Hk Hacc) as [Hi Hl].
  destruct (IH _ Hi) as [Hl' Hf]. split; [lia|done].
Qed.

Lemma parse_header_entryc s h s' : parse_header s = Ok (h, s') → fits 32 (ih_entryc h).
Proof.
  intros H. unfold parse_header in H.
  repeat (apply reader_bind_inv in H as (? & ? & ? & H)). injection H as <- <-. by eapply (read_be_inv 4).
Qed.

Section sha1.
Variable sha1 : bytes → Oid.
Hypothesis sha1_length : ∀ s, length (sha1 s) = 20%nat.

Lemma index_body_ok idx :
  index_file_wf idx →
  ∃ w, write_iter (idx_entries idx).*2 = Ok w
    ∧ reads (read_vec deserialize (length (idx_entries idx))) w (idx_entries idx).*2
    ∧ index_body idx
      = Ok (header_bytes (mk_BitIndexHeader BIT_INDEX_HEADER_SIG BIT_INDEX_VERSION
              (Z.of_nat (length (idx_entries idx)))) ++ w ++ ext_bytes idx).
Proof.
  intros ((Hs & Hk) & Hlen & _).
  destruct (write_iter_reads (wf:=index_entry_wf) (idx_entries idx).*2) as (w & Hw & Hr).
  { apply Forall_fmap. eapply Forall_impl; [exact Hk|]. by intros kv (_ & ? & _). }
  rewrite length_fmap in Hr. exists w. split_and!; [done|done|].
  unfold index_body. rewrite Hw. cbn [mbind outcome_bind]. by rewrite wrap_fits by (unfold fits; lia).
Qed.

Lemma index_round_trip_lemma idx :
  index_file_wf idx → ∃ w, index_serialize sha1 idx = Ok w ∧ index_deserialize sha1 w = Ok idx.
Proof.
  intros Hwf. pose proof Hwf as ((Hs & Hk) & Hlen & Htc & Hre).
  destruct (index_body_ok idx Hwf) as (w & _ & Hr & Hbody). unfold index_serialize.
  rewrite Hbody. cbn [mbind outcome_bind]. eexists. split; [reflexivity|].
  set (body := header_bytes _ ++ w ++ ext_bytes idx) in *. cbn [write_hash fst].
  unfold write_oid. unfold index_deserialize.
  assert (body ++ sha1 body = header_bytes (mk_BitIndexHeader BIT_INDEX_HEADER_SIG BIT_INDEX_VERSION
    (Z.of_nat (length (idx_entries idx)))) ++ w ++ (ext_bytes idx ++ sha1 body)) as Hbuf
    by (unfold body; by rewrite <- !app_assoc).
  rewrite Hbuf at 1. rewrite reads_parse_header by (unfold fits; lia).
  cbn [mbind outcome_bind ih_entryc]. rewrite Nat2Z.id, Hr. cbn [mbind outcome_bind].
  rewrite collect_entries_ok; [|done|eapply Forall_impl; [exact Hk|]; by intros kv (? & _)].
  cbn [mbind outcome_bind].
  assert (20 ≤ length (ext_bytes idx ++ sha1 body))%nat as Hrem
    by (rewrite length_app, sha1_length; lia).
  assert ((OID_SIZE <=? length (ext_bytes idx ++ sha1 body))%nat = true) as ->
    by (apply Nat.leb_le; unfold OID_SIZE; lia).
  cbn [assert_that mbind outcome_bind].
  rewrite parse_extensions_ok by (done || apply sha1_length || lia).
  cbn [mbind outcome_bind]. destruct (ext_map_lookup idx) as [-> ->].
  assert (length (body ++ sha1 body) - OID_SIZE = length body)%nat as ->
    by (rewrite length_app, sha1_length; unfold OID_SIZE; lia).
  rewrite take_app_length, drop_app_length, bool_decide_true by done.
  destruct idx as [es [c|] re]; cbn [idx_tree_cache idx_reuc fmap option_fmap option_map].
  - rewrite tree_cache_reads by by apply (Htc c). done.
  - done.
Qed.

(** ** Theorems *)

(** C31: An index survives being written to its file and read back: all entries with
    their stages in order, the tree cache and the recorded resolutions, and the
    checksum is accepted. *)
Theorem index_round_trip idx :
  index_file_wf idx → ∃ w, index_serialize sha1 idx = Ok w ∧ index_deserialize sha1 w = Ok idx.
Proof. apply index_round_trip_lemma. Qed.

(** A file that [Deserialize] accepts is intact: its last 20 bytes are the hash
    of everything before them; an index of any other file is never returned. *)
Theorem index_integrity buf idx :
  index_deserialize sha1 buf = Ok idx →
  ∃ body, buf = body ++ sha1 body.
Proof.
  intros H. unfold index_deserialize in H. inv_ok.
  destruct a as [header r]. inv_ok. destruct a as [es remainder]. inv_ok.
  unfold ensure in *. case_bool_decide as Hh; [|done].
  exists (take (length buf - OID_SIZE) buf). by rewrite Hh, take_drop.
Qed.
(** C30: Whatever file an index is read from: its entries are in the order of their keys, each under its
    own path and stage, and every value has its width; when the paths are normalised and hold no NUL,
    which the reader does not look at, the index is well formed. *)
Theorem read_index_typed buf idx :
  index_deserialize sha1 buf = Ok idx →
  bt_sorted key_cmp (idx_entries idx) ∧ Z.of_nat (length (idx_entries idx)) < 2 ^ 32
  ∧ Forall (λ kv, entry_key kv.2 = Ok kv.1 ∧ entry_typed kv.2) (idx_entries idx)
  ∧ (Forall (λ kv, norm_path kv.1.1 ∧ x00 ∉ kv.1.1) (idx_entries idx) → index_wf idx).
Proof.
  intros H. unfold index_deserialize in H. inv_ok. destruct a as [header r]. inv_ok.
  destruct a as [es remainder]. inv_ok. simpl.
  match goal with Hl : assert_that (OID_SIZE <=? length remainder)%nat = Ok _ |- _ => rename Hl into Hrem end.
  destruct (read_entries_typed _ _ _ _ E0) as [Hes Hn]; [by intros ->|].
  destruct (collect_entries_inv _ _ _ E1 Hes) as (Hs & Hl & Hk).
  apply parse_header_entryc in E. split_and!; [done|unfold fits in E; lia|done|].
  intros Hp. split; [done|]. eapply Forall_impl; [apply Forall_and; exact (conj Hk Hp)|].
  intros [k e] [[He Ht] [Hnorm Hz]]. simpl in *. split; [done|]. split; [|done].
  unfold entry_key in He. inv_ok. simpl in *. by apply entry_typed_wf, norm_relative.
Qed.
End sha1.

(** ** Witnesses *)

Definition sample_index : BitIndexInner :=
  mk_BitIndexInner
    (idx_entries (plain_index [bs "dir.c"; bs "dir/a"; bs "dir/b/c"; bs "dir2"]))
    (Some sample_cache) (Some (bs "resolved")).

Definition sample_index_file : bytes :=
  match index_serialize toy_sha1 sample_index with Ok w => w | _ => [] end.

Lemma sample_index_file_wf : index_file_wf sample_index.
Proof.
  split; [apply plain_index_wf_3|split; [vm_decide|split]].
  - intros c [= <-]. split; [apply sample_cache_wf|]. unfold ext_ok. vm_decide.
  - intros data [= <-]. unfold ext_ok. vm_decide.
Qed.

Lemma index_round_trip_witness :
  ∃ w, index_serialize toy_sha1 sample_index = Ok w
    ∧ index_deserialize toy_sha1 w = Ok sample_index.
Proof.
  apply (index_round_trip toy_sha1 toy_sha1_length sample_index), sample_index_file_wf.
Defined.

Lemma index_integrity_witness :
  ∃ body, sample_index_file = body ++ toy_sha1 body.
Proof.
  apply (index_integrity toy_sha1 sample_index_file sample_index). vm_compute. reflexivity.
Defined.

Lemma read_index_typed_witness :
  bt_sorted key_cmp (idx_entries sample_index) ∧ Z.of_nat (length (idx_entries sample_index)) < 2 ^ 32
  ∧ Forall (λ kv, entry_key kv.2 = Ok kv.1 ∧ entry_typed kv.2) (idx_entries sample_index)
  ∧ (Forall (λ kv, norm_path kv.1.1 ∧ x00 ∉ kv.1.1) (idx_entries sample_index) → index_wf sample_index).
Proof.
  apply (read_index_typed toy_sha1 sample_index_file sample_index). vm_compute. reflexivity.
Defined.
