(* ===== verification/State.v ===== *)
(** * State

    Code that takes [&mut self] and returns a [BitResult]: a function of the state
    that gives the outcome and the state it leaves behind.  The state survives an
    error, as it does in Rust, so what a failed call has cached stays cached. *)

From Stdlib Require Import ZArith Lia.
From stdpp Require Import base tactics option list.
From S2P Require Import Prelude Data.

Definition st (S A : Type) : Type := S → BitResult A * S.

#[export] Instance st_ret S : MRet (st S) := λ A a s, (Ok a, s).
#[export] Instance st_bind S : MBind (st S) := λ A B f m s,
  match m s with
  | (Ok a, s') => f a s'
  | (Err e, s') => (Err e, s')
  | (Panic, s') => (Panic, s')
  end.

(** Code that does not touch the state. *)
Definition st_lift {S A} (r : BitResult A) : st S A := λ s, (r, s).

(** Reading the state and replacing it. *)
Definition st_get {S} : st S S := λ s, (Ok s, s).
Definition st_put {S} (s : S) : st S unit := λ _, (Ok tt, s).

(** [match m { Ok(a) => f(a), Err(e) => g(e) }]. *)
Definition st_match {S A B} (m : st S A) (f : A → st S B) (g : BitGenericError → st S B) : st S B :=
  λ s, match m s with
       | (Ok a, s') => f a s'
       | (Err e, s') => g e s'
       | (Panic, s') => (Panic, s')
       end.

(** [expect]: an error panics too. *)
Definition expect_ok {S A} (m : st S A) : st S A := st_match m mret (λ _, st_lift Panic).

(** Code on a part of the state. *)
Definition st_zoom {S T A} (get : S → T) (set : S → T → S) (m : st T A) : st S A := λ s,
  let '(r, t) := m (get s) in (r, set s t).

(** [for] with [?], and [try_for_each]. *)
Fixpoint st_for_each {S A} (f : A → st S unit) (l : list A) : st S unit :=
  match l with
  | [] => mret tt
  | a :: l => _ ← f a; st_for_each f l
  end.

Lemma st_bind_ok {S A B} (m : st S A) (f : A → st S B) s s' a :
  m s = (Ok a, s') → (m ≫= f) s = f a s'.
Proof. unfold mbind, st_bind. by intros ->. Qed.

Lemma st_bind_err {S A B} (m : st S A) (f : A → st S B) s s' e :
  m s = (Err e, s') → (m ≫= f) s = (Err e, s').
Proof. unfold mbind, st_bind. by intros ->. Qed.

Lemma st_bind_panic {S A B} (m : st S A) (f : A → st S B) s s' :
  m s = (Panic, s') → (m ≫= f) s = (Panic, s').
Proof. unfold mbind, st_bind. by intros ->. Qed.

Lemma st_get_bind {S A} (f : S → st S A) s : (st_get ≫= f) s = f s s.
Proof. done. Qed.

Lemma st_put_bind {S A} (f : unit → st S A) s s' : (st_put s' ≫= f) s = f tt s'.
Proof. done. Qed.

Lemma st_lift_bind {S A B} (a : A) (f : A → st S B) s : (st_lift (Ok a) ≫= f) s = f a s.
Proof. done. Qed.

Lemma expect_ok_ok {S A} (m : st S A) s s' a : m s = (Ok a, s') → expect_ok m s = (Ok a, s').
Proof. unfold expect_ok, st_match. by intros ->. Qed.
