(* ===== verification/PackIndex.v ===== *)
(** * PackIndex

    The pack index of [libbit/src/pack.rs]: [PackIndex] and its file format, the
    fanout table, and [PackIndexReader], which looks objects up in the file through
    two caches. *)

From Stdlib Require Import ZArith Lia Sorted.
From Stdlib Require Import Strings.Byte.
From stdpp Require Import base tactics option list countable strings sorting gmap.
From S2P Require Import Prelude RustStd Data Io Hash BTree State.

#[local] Open Scope Z_scope.

(** ** Constants *)

Definition PACK_IDX_MAGIC : Z := 0xff744f63.
Definition FANOUT_ENTRYC : nat := 256.
Definition FANOUT_ENTRY_SIZE : Z := 4.
Definition FANOUT_SIZE : Z := Z.of_nat FANOUT_ENTRYC * FANOUT_ENTRY_SIZE.
Definition PACK_IDX_HEADER_SIZE : Z := 8.
Definition CRC_SIZE : Z := 4.
Definition OFFSET_SIZE : Z := 4.
Definition EXT_OFFSET_SIZE : Z := 8.
Definition MAX_OFFSET : Z := 0x7fffffff.

(** ** PackIndex *)

Record PackIndex := mk_PackIndex {
  fanout : list Z;
  oids : list Oid;
  crcs : list Z;
  offsets : list Z;
  pack_hash : Oid;
}.

#[export] Instance PackIndex_eq_dec : EqDecision PackIndex.
Proof. solve_decision. Defined.

(** [oid[0] as usize]. *)
Definition oid0 (oid : Oid) : nat :=
  match oid with b :: _ => Z.to_nat (u8 b) | [] => 0 end.

(** [fanout[oid[0] as usize] += 1]. *)
Definition count_oid (fanout : list Z) (oid : Oid) : list Z :=
  alter (λ n, wrap 32 (n + 1)) (oid0 oid) fanout.

(** [for i in 1..FANOUT_ENTRYC { fanout[i] += fanout[i - 1]; }], from the entry
    after [prev]. *)
Fixpoint accumulate (prev : Z) (fanout : list Z) : list Z :=
  match fanout with
  | [] => []
  | n :: fanout => let n := wrap 32 (n + prev) in n :: accumulate n fanout
  end.

Definition build_fanout (oids : list Oid) : list Z :=
  match foldl count_oid (replicate FANOUT_ENTRYC 0) oids with
  | n :: fanout => n :: accumulate n fanout
  | [] => []
  end.

Definition serialize_u32 : Serialize Z := λ u, Ok (write_u32 u).
Definition serialize_oid : Serialize Oid := λ oid, Ok (write_oid oid).

(** [PackIndex::parse_header]. *)
Definition pack_index_parse_header : reader unit :=
  magic ← read_u32;
  _ ← lift (ensure (magic =? PACK_IDX_MAGIC) Anyhow);
  version ← read_u32;
  lift (ensure (version =? 2) Anyhow).

Section sha1.
Variable sha1 : bytes → Oid.

(** What goes through the [HashWriter]. *)
Definition pack_index_body (idx : PackIndex) : BitResult bytes :=
  f ← write_iter (H:=serialize_u32) (fanout idx);
  o ← write_iter (H:=serialize_oid) (oids idx);
  c ← write_iter (H:=serialize_u32) (crcs idx);
  s ← write_iter (H:=serialize_u32) (offsets idx);
  Ok (write_u32 PACK_IDX_MAGIC ++ write_u32 2 ++ f ++ o ++ c ++ s ++ write_oid (pack_hash idx)).

(** [Serialize for PackIndex]. *)
Definition pack_index_serialize (idx : PackIndex) : BitResult bytes :=
  body ← pack_index_body idx;
  Ok (fst (write_hash sha1 body)).

(** What [Deserialize for PackIndex] reads before it takes the hash. *)
Definition pack_index_read : reader PackIndex :=
  _ ← pack_index_parse_header;
  fanout ← read_array read_u32 FANOUT_ENTRYC;
  n ← lift (Z.to_nat <$> unwrap (fanout !! (FANOUT_ENTRYC - 1)%nat));
  oids ← read_vec read_oid n;
  crcs ← read_vec read_u32 n;
  offsets ← read_vec read_u32 n;
  pack_hash ← read_oid;
  mret (mk_PackIndex fanout oids crcs offsets pack_hash).

(** [Deserialize for PackIndex]. *)
Definition pack_index_deserialize (s : bytes) : BitResult PackIndex :=
  '(idx, r) ← through_hash pack_index_read (hash_reader_new s);
  let '(hash, r) := finalize_reset sha1 r in
  '(idx_hash, r) ← through_hash read_oid r;
  _ ← ensure (bool_decide (idx_hash = hash)) Anyhow;
  '(eof, _) ← through_hash is_at_eof r;
  _ ← assert_that eof;
  Ok idx.
End sha1.

(** ** PackIndexReader *)

(** The reader is an open file that is sought before every read: its bytes. *)
Record PackIndexReader := mk_PackIndexReader {
  ir_reader : bytes;
  ir_fanout : list Z;
  oid_cache : gmap Z (list Oid);
  crc_offset_cache : gmap (list byte) (Z * Z);
  ir_n : Z;
}.

Inductive Layer := LOid | LCrc | LOfs | LExt.

Definition layer_to_usize (l : Layer) : nat :=
  match l with LOid => 0 | LCrc => 1 | LOfs => 2 | LExt => 3 end.

Definition pack_index_reader_new (reader : bytes) : BitResult PackIndexReader :=
  '(_, r) ← pack_index_parse_header reader;
  '(fanout, _) ← read_array read_u32 FANOUT_ENTRYC r;
  n ← unwrap (fanout !! (FANOUT_ENTRYC - 1)%nat);
  Ok (mk_PackIndexReader reader fanout ∅ ∅ n).

Definition LAYER_SIZE : list Z := [Z.of_nat OID_SIZE; CRC_SIZE; OFFSET_SIZE; EXT_OFFSET_SIZE].

Definition offset_of (n : Z) (layer : Layer) (index : Z) : Z :=
  let layer := layer_to_usize layer in
  let base := PACK_IDX_HEADER_SIZE + FANOUT_SIZE
              + foldr Z.add 0 ((λ size, size * n) <$> take layer LAYER_SIZE) in
  wrap 64 (base + index * nth layer LAYER_SIZE 0).

(** [seek(SeekFrom::Start(offset))] and a read. *)
Definition read_at {A} (m : reader A) (offset : Z) (file : bytes) : BitResult A :=
  fst <$> m (drop (Z.to_nat offset) file).

Definition read_from {A} (m : reader A) (layer : Layer) (index : Z) : st PackIndexReader A := λ r,
  (read_at m (offset_of (ir_n r) layer index) (ir_reader r), r).

Definition read_oid_at (index : Z) : st PackIndexReader Oid := read_from read_oid LOid index.

(** [slice::binary_search]: the position of the element, or where it would be
    inserted.  The interval halves, so the length bounds the iterations. *)
Fixpoint binary_search_loop (fuel : nat) (l : list Oid) (oid : Oid) (left right : nat) : nat + nat :=
  match fuel with
  | O => inr left
  | S fuel =>
      if (left <? right)%nat then
        let mid := (left + (right - left) / 2)%nat in
        match l !! mid with
        | Some x =>
            match oid_cmp x oid with
            | Lt => binary_search_loop fuel l oid (S mid) right
            | Gt => binary_search_loop fuel l oid left mid
            | Eq => inl mid
            end
        | None => inr left
        end
      else inr left
  end.

Definition binary_search (l : list Oid) (oid : Oid) : nat + nat :=
  binary_search_loop (S (length l)) l oid 0 (length l).

(** The bounds [low..high] of the oids that start with the byte [prefix]. *)
Definition bucket_low (fanout : list Z) (prefix : nat) : BitResult Z :=
  match prefix with O => Ok 0 | S p => unwrap (fanout !! p) end.

(** The closure [search]. *)
Definition search (oid : Oid) (low : Z) (l : list Oid) : BitResult Z :=
  match binary_search l oid with
  | inl idx => Ok (low + Z.of_nat idx)
  | inr idx => Err (AnyhowBit (ObjectNotFoundInPackIndex oid (low + Z.of_nat idx)))
  end.

Definition set_oid_cache (r : PackIndexReader) (c : gmap Z (list Oid)) : PackIndexReader :=
  mk_PackIndexReader (ir_reader r) (ir_fanout r) c (crc_offset_cache r) (ir_n r).

Definition set_crc_offset_cache (r : PackIndexReader) (c : gmap (list byte) (Z * Z))
  : PackIndexReader :=
  mk_PackIndexReader (ir_reader r) (ir_fanout r) (oid_cache r) c (ir_n r).

(** [find_oid_index].  A [high] below [low] makes the capacity of the vector
    overflow, which panics, like every failure of the read, which is unwrapped. *)
Definition find_oid_index (oid : Oid) : st PackIndexReader Z :=
  r ← st_get;
  let prefix := oid0 oid in
  low ← st_lift (bucket_low (ir_fanout r) prefix);
  high ← st_lift (unwrap (ir_fanout r !! prefix));
  match oid_cache r !! low with
  | Some l => st_lift (search oid low l)
  | None =>
      _ ← st_lift (assert_that (low <=? high));
      match read_at (read_vec read_oid (Z.to_nat (high - low)))
              (PACK_IDX_HEADER_SIZE + FANOUT_SIZE + low * Z.of_nat OID_SIZE) (ir_reader r) with
      | Ok l =>
          _ ← st_put (set_oid_cache r (<[low := l]> (oid_cache r)));
          st_lift (search oid low l)
      | _ => st_lift Panic
      end
  end.

Definition find_oid_crc_offset_inner (oid : Oid) : st PackIndexReader (Z * Z) :=
  index ← find_oid_index oid;
  crc ← read_from read_u32 LCrc index;
  offset ← read_from read_u32 LOfs index;
  offset ← (if MAX_OFFSET <? offset
            then read_from read_u64 LExt (Z.land offset MAX_OFFSET)
            else mret offset);
  mret (crc, offset).

Definition find_oid_crc_offset (oid : Oid) : st PackIndexReader (Z * Z) :=
  r ← st_get;
  match crc_offset_cache r !! oid with
  | Some crc_offset => mret crc_offset
  | None =>
      crc_offset ← find_oid_crc_offset_inner oid;
      r ← st_get;
      _ ← st_put (set_crc_offset_cache r (<[oid := crc_offset]> (crc_offset_cache r)));
      mret crc_offset
  end.

(** [oid_iter(start).take_while(|oid| oid.has_prefix(prefix)).collect()]: the
    iterator stops at [n], so [n - start] bounds the iterations. *)
Fixpoint collect_matches `{Hex} (fuel : nat) (prefix : PartialOid) (index : Z)
  : st PackIndexReader (list Oid) :=
  match fuel with
  | O => mret []
  | S fuel =>
      r ← st_get;
      if ir_n r <=? index then mret []
      else
        oid ← read_oid_at index;
        b ← st_lift (has_prefix oid prefix);
        if (b : bool) then
          l ← collect_matches fuel prefix (index + 1);
          mret (oid :: l)
        else mret []
  end.

(** ** The fanout table *)

(** The number of oids whose first byte is below [p]. *)
Definition count_below (l : list Oid) (p : nat) : nat :=
  length (filter (λ oid, (oid0 oid < p)%nat) l).

Lemma count_below_S l p :
  (count_below l (S p) = count_below l p + length (filter (λ oid, oid0 oid = p) l))%nat.
Proof.
  unfold count_below. induction l as [|oid l IH]; [done|]. rewrite !filter_cons.
  repeat case_decide; cbn [length]; lia.
Qed.

Lemma count_below_mono l p q : (p ≤ q)%nat → (count_below l p ≤ count_below l q)%nat.
Proof.
  induction 1 as [|q _ IH]; [done|]. rewrite count_below_S. lia.
Qed.

Lemma count_below_length l p : (count_below l p ≤ length l)%nat.
Proof. apply length_filter. Qed.

Lemma oid0_bound oid : (oid0 oid < 256)%nat.
Proof. destruct oid as [|b oid]; cbn; [lia|]. pose proof (u8_range b). lia. Qed.

Lemma count_below_all l p : (256 ≤ p)%nat → count_below l p = length l.
Proof.
  intros Hp. unfold count_below. rewrite filter_all; [done|].
  intros oid _. pose proof (oid0_bound oid). lia.
Qed.

Lemma wrap_add_l w x y : wrap w (wrap w x + y) = wrap w (x + y).
Proof. unfold wrap. apply Zplus_mod_idemp_l. Qed.

Lemma counts_spec l : ∀ f i n,
  f !! i = Some n → fits 32 n →
  foldl count_oid f l !! i
  = Some (wrap 32 (n + Z.of_nat (length (filter (λ oid, oid0 oid = i) l)))).
Proof.
  induction l as [|oid l IH]; intros f i n Hf Hn; cbn [foldl].
  { cbn. by rewrite Z.add_0_r, wrap_fits. }
  rewrite filter_cons. unfold count_oid at 2. case_decide as Hi.
  - subst i. rewrite (IH _ _ (wrap 32 (n + 1))).
    + f_equal. rewrite wrap_add_l. f_equal. cbn [length]. lia.
    + by rewrite list_lookup_alter, decide_True, Hf.
    + by apply fits_wrap.
  - apply IH; [|done]. by rewrite list_lookup_alter, decide_False.
Qed.

Lemma length_counts l f : length (foldl count_oid f l) = length f.
Proof.
  revert f. induction l as [|oid l IH]; intros f; cbn; [done|]. rewrite IH. apply length_alter.
Qed.

Lemma accumulate_spec (C : nat → Z) : ∀ f j,
  (∀ k, fits 32 (C k)) →
  (∀ k x, f !! k = Some x → wrap 32 x = wrap 32 (C (S (j + k)) - C (j + k)%nat)) →
  ∀ k, (k < length f)%nat → accumulate (C j) f !! k = Some (C (S (j + k))).
Proof.
  induction f as [|x f IH]; intros j HC Hf k Hk; cbn [length] in Hk; [lia|].
  cbn [accumulate].
  assert (wrap 32 (x + C j) = C (S j)) as E.
  { rewrite <- wrap_add_l, (Hf 0%nat x eq_refl), wrap_add_l, Nat.add_0_r.
    rewrite Z.sub_add. by apply wrap_fits. }
  rewrite E. destruct k as [|k]; cbn [lookup list_lookup]; [by rewrite Nat.add_0_r|].
  rewrite (IH (S j) HC); [by rewrite <- Nat.add_succ_comm| |lia].
  intros k' x' Hk'. rewrite (Hf (S k') x' Hk'). by rewrite Nat.add_succ_comm.
Qed.

Lemma build_fanout_lookup l i :
  Z.of_nat (length l) < 2 ^ 32 → (i < FANOUT_ENTRYC)%nat →
  build_fanout l !! i = Some (Z.of_nat (count_below l (S i))).
Proof.
  intros Hl Hi. unfold build_fanout.
  pose proof (length_counts l (replicate FANOUT_ENTRYC 0)) as Hlen.
  rewrite length_replicate in Hlen.
  assert (∀ k, fits 32 (Z.of_nat (count_below l k))) as Hfit.
  { intros k. pose proof (count_below_length l k). unfold fits. lia. }
  assert (∀ k x, foldl count_oid (replicate FANOUT_ENTRYC 0) l !! k = Some x →
    x = Z.of_nat (count_below l (S k)) - Z.of_nat (count_below l k)) as Hc.
  { intros k x Hk. assert (k < FANOUT_ENTRYC)%nat by (rewrite <- Hlen; by eapply lookup_lt_Some).
    rewrite (counts_spec l _ k 0) in Hk; [|by apply lookup_replicate_2|unfold fits; lia].
    simplify_eq. pose proof (Hfit (S k)). rewrite count_below_S in *. unfold fits in *.
    rewrite wrap_fits by (unfold fits; lia). lia. }
  destruct (foldl _ _ _) as [|x f]; [done|]. cbn [length] in Hlen.
  pose proof (Hc 0%nat x eq_refl) as Hx.
  assert (count_below l 0 = 0%nat) as H0.
  { unfold count_below. rewrite filter_none; [done|]. intros; lia. }
  rewrite H0, Z.sub_0_r in Hx. subst x. destruct i as [|i]; [done|]. cbn [lookup list_lookup].
  apply (accumulate_spec (λ k, Z.of_nat (count_below l k)) f 1%nat); [done| |lia].
  intros k x Hk. by rewrite (Hc (S k) x Hk).
Qed.

Lemma length_build_fanout l : length (build_fanout l) = FANOUT_ENTRYC.
Proof.
  unfold build_fanout. pose proof (length_counts l (replicate FANOUT_ENTRYC 0)) as Hlen.
  rewrite length_replicate in Hlen. destruct (foldl _ _ _) as [|x f]; [done|].
  cbn [length] in *. rewrite <- Hlen. f_equal. clear. revert x.
  induction f as [|y f IH]; intros x; [done|]. cbn. by rewrite IH.
Qed.

(** ** The file format *)

Definition oid_lt (a b : Oid) : Prop := oid_cmp a b = Lt.

(** A pack index as the indexer builds it: the oids are sorted, the fanout table
    is theirs, and every field fits. *)
Definition pack_index_wf (idx : PackIndex) : Prop :=
  fanout idx = build_fanout (oids idx)
  ∧ Z.of_nat (length (oids idx)) < 2 ^ 32
  ∧ StronglySorted oid_lt (oids idx) ∧ Forall oid_wf (oids idx)
  ∧ length (crcs idx) = length (oids idx) ∧ Forall (fits 32) (crcs idx)
  ∧ length (offsets idx) = length (oids idx) ∧ Forall (fits 32) (offsets idx)
  ∧ oid_wf (pack_hash idx).

Lemma write_iter_map {A} (s : Serialize A) (enc : A → bytes) l :
  (∀ a, s a = Ok (enc a)) → write_iter (H:=s) l = Ok (l ≫= enc).
Proof.
  intros Hs. induction l as [|a l IH]; [done|]. cbn [write_iter]. unfold serialize at 1.
  by rewrite Hs, IH.
Qed.

(** The bytes of the index before its own hash. *)
Definition pack_index_bytes (idx : PackIndex) : bytes :=
  write_u32 PACK_IDX_MAGIC ++ write_u32 2 ++ (fanout idx ≫= write_u32)
  ++ (oids idx ≫= write_oid) ++ (crcs idx ≫= write_u32) ++ (offsets idx ≫= write_u32)
  ++ write_oid (pack_hash idx).

Lemma pack_index_body_eq idx : pack_index_body idx = Ok (pack_index_bytes idx).
Proof.
  unfold pack_index_body.
  rewrite !(write_iter_map serialize_u32 write_u32) by done.
  by rewrite (write_iter_map serialize_oid write_oid) by done.
Qed.

Lemma reads_pack_index_header :
  reads pack_index_parse_header (write_u32 PACK_IDX_MAGIC ++ write_u32 2) tt.
Proof.
  unfold pack_index_parse_header.
  eapply reads_bind; [apply reads_u32; unfold fits, PACK_IDX_MAGIC; lia|].
  eapply reads_bind_nil; [by apply reads_lift|].
  eapply reads_bind_last; [apply reads_u32; unfold fits, PACK_IDX_MAGIC; lia|]. by apply reads_lift.
Qed.

Lemma reads_u32s l : Forall (fits 32) l → reads (read_vec read_u32 (length l)) (l ≫= write_u32) l.
Proof. intros Hl. apply reads_vec. eapply Forall_impl; [exact Hl|]. apply reads_u32. Qed.

Lemma reads_oids l : Forall oid_wf l → reads (read_vec read_oid (length l)) (l ≫= write_oid) l.
Proof. intros Hl. apply reads_vec. eapply Forall_impl; [exact Hl|]. apply reads_oid. Qed.

Lemma build_fanout_fits l : Z.of_nat (length l) < 2 ^ 32 → Forall (fits 32) (build_fanout l).
Proof.
  intros Hl. apply Forall_lookup_2. intros i x Hi.
  assert (i < FANOUT_ENTRYC)%nat by (rewrite <- (length_build_fanout l); by eapply lookup_lt_Some).
  rewrite build_fanout_lookup in Hi by done. simplify_eq.
  pose proof (count_below_length l (S i)). unfold fits. lia.
Qed.

Lemma reads_fanout l :
  Z.of_nat (length l) < 2 ^ 32 →
  reads (read_array read_u32 FANOUT_ENTRYC) (build_fanout l ≫= write_u32) (build_fanout l).
Proof.
  intros Hl. unfold read_array. rewrite <- (length_build_fanout l) at 1.
  by apply reads_u32s, build_fanout_fits.
Qed.

Lemma fanout_last l :
  Z.of_nat (length l) < 2 ^ 32 →
  build_fanout l !! (FANOUT_ENTRYC - 1)%nat = Some (Z.of_nat (length l)).
Proof.
  intros Hl. rewrite build_fanout_lookup by (done || unfold FANOUT_ENTRYC; lia).
  by rewrite count_below_all by (unfold FANOUT_ENTRYC; lia).
Qed.

Lemma reads_pack_index idx :
  pack_index_wf idx → reads pack_index_read (pack_index_bytes idx) idx.
Proof.
  destruct idx as [fo os cs ofs ph].
  intros (Hf & Hn & _ & Ho & Hlc & Hc & Hls & Hs & Hp).
  cbn in Hf, Hn, Ho, Hlc, Hc, Hls, Hs, Hp. subst fo.
  unfold pack_index_read, pack_index_bytes. cbn [fanout oids crcs offsets pack_hash].
  rewrite (app_assoc (write_u32 PACK_IDX_MAGIC)).
  eapply reads_bind; [apply reads_pack_index_header|].
  eapply reads_bind; [by apply reads_fanout|].
  eapply reads_bind_nil; [apply reads_lift; by rewrite fanout_last|].
  cbn [fmap outcome_fmap]. rewrite Nat2Z.id.
  eapply reads_bind; [by apply reads_oids|].
  eapply reads_bind; [rewrite <- Hlc; by apply reads_u32s|].
  eapply reads_bind; [rewrite <- Hls; by apply reads_u32s|].
  eapply reads_bind_last; [by apply reads_oid|]. apply reads_ret.
Qed.

Lemma through_hash_reads {A} (m : reader A) w a rest h n :
  reads m w a →
  through_hash m (mk_HashReader (w ++ rest) h n)
  = Ok (a, mk_HashReader rest (h ++ w) (n + Z.of_nat (length w))).
Proof.
  intros Hm. unfold through_hash. cbn [hr_reader hr_hasher hr_bytes_hashed].
  rewrite Hm. cbn [mbind outcome_bind]. rewrite length_app, Nat.add_sub, take_app_length. done.
Qed.

Section sha1.
Variable sha1 : bytes → Oid.
Hypothesis sha1_length : ∀ s, length (sha1 s) = 20%nat.

(** A pack index survives being written to its file and read back, and the
    checksum that is written is the one that is accepted. *)
Theorem pack_index_round_trip idx :
  pack_index_wf idx →
  ∃ w, pack_index_serialize sha1 idx = Ok w ∧ pack_index_deserialize sha1 w = Ok idx.
Proof.
  intros Hwf. unfold pack_index_serialize. rewrite pack_index_body_eq. cbn [mbind outcome_bind].
  eexists. split; [reflexivity|]. cbn [write_hash fst]. unfold pack_index_deserialize, hash_reader_new.
  erewrite through_hash_reads; [|by apply reads_pack_index]. cbn [mbind outcome_bind finalize_reset].
  cbn [hr_hasher hr_reader hr_bytes_hashed app].
  unfold write_oid. rewrite <- (app_nil_r (sha1 _)) at 1.
  erewrite through_hash_reads; [|apply reads_oid, sha1_length]. cbn [mbind outcome_bind].
  by rewrite bool_decide_true.
Qed.
End sha1.

Definition sample_pack_oid (b : byte) : Oid := replicate 20 b.

Definition sample_pack_index : PackIndex :=
  let os := [sample_pack_oid x02; sample_pack_oid x05; replicate 19 x05 ++ [x07]] in
  mk_PackIndex (build_fanout os) os [1; 2; 3] [12; 34; 56] (sample_pack_oid x11).

Lemma sample_pack_index_wf : pack_index_wf sample_pack_index.
Proof.
  split_and!; [reflexivity|vm_decide| |vm_decide|reflexivity|vm_decide|reflexivity|vm_decide|vm_decide].
  repeat constructor.
Qed.

Lemma pack_index_round_trip_witness :
  ∃ w, pack_index_serialize toy_sha1 sample_pack_index = Ok w
    ∧ pack_index_deserialize toy_sha1 w = Ok sample_pack_index.
Proof.
  apply (pack_index_round_trip toy_sha1 toy_sha1_length), sample_pack_index_wf.
Defined.
