(* ===== verification/PackLookup.v ===== *)
(** * PackLookup

    The theorems on [PackIndexReader] of [libbit/src/pack.rs]: a lookup goes through
    the fanout table, a binary search in the bucket of the first byte and the layers
    of the file; the caches are right as long as only objects of the pack are looked
    up, and wrong after some failed lookups. *)

From Stdlib Require Import ZArith Lia Sorted.
From Stdlib Require Import Strings.Byte.
From stdpp Require Import base tactics option list countable strings sorting gmap.
From S2P Require Import Prelude RustStd Data Io Hash BTree State PackIndex.

#[local] Open Scope Z_scope.

(** ** Buckets *)

Lemma oid_lt_oid0 a b : oid_lt a b → (oid0 a ≤ oid0 b)%nat.
Proof.
  unfold oid_lt, oid_cmp. destruct a as [|x a], b as [|y b]; cbn; try done; [lia|].
  pose proof (u8_range x). destruct (Z.compare_spec (u8 x) (u8 y)); [lia|lia|done].
Qed.

(** The oids that start with the byte [p]. *)
Definition bucket (l : list Oid) (p : nat) : list Oid := filter (λ oid, oid0 oid = p) l.

Lemma bucket_slice l p :
  StronglySorted oid_lt l →
  take (count_below l (S p) - count_below l p) (drop (count_below l p) l) = bucket l p.
Proof.
  intros Hl. rewrite count_below_S.
  pose proof (sorted_filter_split oid_lt (λ oid, (oid0 oid < p)%nat) l Hl) as E.
  assert (drop (count_below l p) l = filter (λ oid, ¬ (oid0 oid < p)%nat) l) as ->.
  { rewrite E at 2; [by apply drop_app_length|]. intros x y ?%oid_lt_oid0. lia. }
  clear E. set (l' := filter (λ oid, ¬ (oid0 oid < p)%nat) l).
  assert (StronglySorted oid_lt l') as Hl' by by apply sorted_filter.
  pose proof (sorted_filter_split oid_lt (λ oid, (oid0 oid < S p)%nat) l' Hl') as E.
  assert (filter (λ oid, (oid0 oid < S p)%nat) l' = bucket l p) as Eb.
  { unfold l', bucket. rewrite list_filter_filter. apply filter_ext_in. intros; lia. }
  fold (bucket l p). rewrite Eb in E.
  rewrite E; [apply take_app_length'; lia|]. intros x y ?%oid_lt_oid0. lia.
Qed.

(** ** Reading from the file *)

Lemma length_bind_fixed {A} (enc : A → bytes) n l :
  Forall (λ a, length (enc a) = n) l → length (l ≫= enc) = (length l * n)%nat.
Proof.
  induction 1 as [|a l Ha _ IH]; [done|]. cbn [mbind list_bind length].
  rewrite length_app, Ha. cbn. f_equal. apply IH.
Qed.

Lemma drop_bind_fixed {A} (enc : A → bytes) n k l :
  Forall (λ a, length (enc a) = n) l → (k ≤ length l)%nat →
  drop (k * n) (l ≫= enc) = drop k l ≫= enc.
Proof.
  intros Hl Hk. rewrite <- (take_drop k l) at 1. rewrite bind_app.
  apply drop_app_length'. rewrite (length_bind_fixed enc n) by by apply Forall_take.
  by rewrite length_take, Nat.min_l.
Qed.

(** A run of [j] elements of fixed size, at index [k] of a layer that starts behind
    [pre]. *)
Lemma read_at_layer {A} (d : reader A) (enc : A → bytes) n l pre post k j off :
  Forall (λ a, length (enc a) = n ∧ reads d (enc a) a) l → (k + j ≤ length l)%nat →
  off = Z.of_nat (length pre + k * n) →
  read_at (read_vec d j) off (pre ++ (l ≫= enc) ++ post) = Ok (take j (drop k l)).
Proof.
  intros Hl Hk ->. unfold read_at. rewrite Nat2Z.id, <- drop_drop, drop_app_length.
  assert (Forall (λ a, length (enc a) = n) l) as Hn by (eapply Forall_impl; [exact Hl|]; by intros a []).
  rewrite drop_app_le by (rewrite (length_bind_fixed enc n) by done; nia).
  rewrite (drop_bind_fixed enc n) by (done || lia).
  rewrite <- (take_drop j (drop k l)) at 1. rewrite bind_app, <- app_assoc.
  assert (length (take j (drop k l)) = j) as Hj by (rewrite length_take, length_drop; lia).
  rewrite <- Hj at 1. rewrite (reads_vec d enc); [done|].
  apply Forall_take, Forall_drop. eapply Forall_impl; [exact Hl|]. by intros a [].
Qed.

Lemma read_at_elem {A} (d : reader A) (enc : A → bytes) n l pre post k a off :
  Forall (λ a, length (enc a) = n ∧ reads d (enc a) a) l → l !! k = Some a →
  off = Z.of_nat (length pre + k * n) →
  read_at d off (pre ++ (l ≫= enc) ++ post) = Ok a.
Proof.
  intros Hl Hk Hoff. pose proof (lookup_lt_Some _ _ _ Hk) as Hlt.
  pose proof (read_at_layer d enc n l pre post k 1 off Hl ltac:(lia) Hoff) as H.
  rewrite (drop_S _ a k Hk) in H. cbn in H. unfold read_at in *.
  unfold mbind, reader_bind, mret, reader_ret in H. cbn in H.
  destruct (d _) as [[x s]| |]; cbn in *; congruence.
Qed.

(** ** Binary search *)

#[export] Instance oid_lt_dec a b : Decision (oid_lt a b).
Proof. unfold oid_lt. destruct (oid_cmp a b); [right|left|right]; done. Defined.

(** Everything before [i] is below [oid] and everything from [i] on is not. *)
Definition insertion_point (l : list Oid) (oid : Oid) : nat :=
  length (filter (λ x, oid_lt x oid) l).

Lemma insertion_point_lookup l oid i x :
  StronglySorted oid_lt l → l !! i = Some x →
  oid_lt x oid ↔ (i < insertion_point l oid)%nat.
Proof.
  intros Hl Hx. unfold insertion_point.
  pose proof (sorted_filter_split oid_lt (λ x, oid_lt x oid) l Hl) as E.
  rewrite E in Hx by (intros a b Hab Hb; by eapply bytes_compare_trans).
  apply lookup_app_Some in Hx as [Hx|[Hi Hx]].
  - pose proof (lookup_lt_Some _ _ _ Hx). apply list_elem_of_lookup_2 in Hx.
    apply list_elem_of_filter in Hx as [? _]. tauto.
  - apply list_elem_of_lookup_2 in Hx. apply list_elem_of_filter in Hx as [? _].
    split; [done|lia].
Qed.

Lemma insertion_point_length l oid : (insertion_point l oid ≤ length l)%nat.
Proof. apply length_filter. Qed.

Lemma binary_search_loop_spec l oid : StronglySorted oid_lt l → ∀ fuel left right,
  (left ≤ insertion_point l oid ≤ right)%nat → (right ≤ length l)%nat →
  (right - left < fuel)%nat →
  (∀ i, l !! i = Some oid → (left ≤ i < right)%nat) →
  match binary_search_loop fuel l oid left right with
  | inl i => l !! i = Some oid
  | inr i => i = insertion_point l oid ∧ oid ∉ l
  end.
Proof.
  intros Hl. induction fuel as [|fuel IH]; intros left right Hip Hr Hf Hin; [lia|].
  cbn [binary_search_loop]. destruct (Nat.ltb_spec left right) as [Hlt|Hge].
  - pose proof (Nat.div_lt (right - left) 2 ltac:(lia) ltac:(lia)) as Hdiv.
    set (mid := (left + (right - left) / 2)%nat) in *.
    assert (left ≤ mid < right)%nat as Hmid by lia.
    destruct (lookup_lt_is_Some_2 l mid ltac:(lia)) as [x Hx]. rewrite Hx.
    pose proof (insertion_point_lookup l oid mid x Hl Hx) as Hxi. unfold oid_lt in Hxi.
    destruct (oid_cmp x oid) eqn:E.
    + apply bytes_compare_eq in E. by subst.
    + assert (mid < insertion_point l oid)%nat by by apply Hxi.
      apply IH; [lia|lia|lia|]. intros i Hi. pose proof (Hin i Hi).
      destruct (decide (i = mid)) as [->|]; [|].
      * rewrite Hx in Hi. simplify_eq. unfold oid_cmp in E. by rewrite bytes_compare_refl in E.
      * destruct (decide (i < mid)%nat); [|lia].
        pose proof (sorted_lookup oid_lt l i mid oid x Hl Hi Hx ltac:(lia)) as Hlt'.
        unfold oid_lt, oid_cmp in *. rewrite bytes_compare_antisym, E in Hlt'. done.
    + assert (¬ (mid < insertion_point l oid)%nat) by (intros ?%Hxi; done).
      apply IH; [lia|lia|lia|]. intros i Hi. pose proof (Hin i Hi).
      destruct (decide (i = mid)) as [->|]; [|].
      * rewrite Hx in Hi. simplify_eq. unfold oid_cmp in E. by rewrite bytes_compare_refl in E.
      * destruct (decide (mid < i)%nat); [|lia].
        pose proof (sorted_lookup oid_lt l mid i x oid Hl Hx Hi ltac:(lia)) as Hlt'.
        unfold oid_lt, oid_cmp in *. by rewrite E in Hlt'.
  - split; [lia|]. intros [i Hi]%list_elem_of_lookup. pose proof (Hin i Hi). lia.
Qed.

(** [binary_search] on a sorted slice finds the element when it is there, and
    otherwise gives the position where it belongs. *)
Lemma binary_search_spec l oid :
  StronglySorted oid_lt l →
  match binary_search l oid with
  | inl i => l !! i = Some oid
  | inr i => i = insertion_point l oid ∧ oid ∉ l
  end.
Proof.
  intros Hl. apply binary_search_loop_spec; [done| |done|lia|].
  - pose proof (insertion_point_length l oid). lia.
  - intros i Hi%lookup_lt_Some. lia.
Qed.

(** ** Lookups *)

(** [r] is a reader of a file that holds [idx]. *)
Definition reader_of (r : PackIndexReader) (idx : PackIndex) : Prop :=
  ir_fanout r = fanout idx ∧ ir_n r = Z.of_nat (length (oids idx))
  ∧ ∃ tail, ir_reader r = pack_index_bytes idx ++ tail.

Lemma oid0_lt_oid_lt a b : (oid0 a < oid0 b)%nat → oid_lt a b.
Proof.
  unfold oid_lt, oid_cmp. destruct a as [|x a], b as [|y b]; cbn; intros H; try lia; [done|].
  destruct (Z.compare_spec (u8 x) (u8 y)); [lia|done|lia].
Qed.

Lemma insertion_point_bucket l oid :
  insertion_point l oid
  = (count_below l (oid0 oid) + insertion_point (bucket l (oid0 oid)) oid)%nat.
Proof.
  unfold insertion_point, count_below, bucket. induction l as [|x l IH]; [done|].
  pose proof (oid0_lt_oid_lt x oid). pose proof (oid_lt_oid0 x oid).
  rewrite !filter_cons. repeat case_decide; rewrite ?filter_cons; repeat case_decide;
    cbn [length]; try lia; exfalso; intuition lia.
Qed.

Lemma search_bucket l oid :
  StronglySorted oid_lt l →
  search oid (Z.of_nat (count_below l (oid0 oid))) (bucket l (oid0 oid))
  = match list_find (λ x, x = oid) l with
    | Some (i, _) => Ok (Z.of_nat i)
    | None => Err (AnyhowBit (ObjectNotFoundInPackIndex oid (Z.of_nat (insertion_point l oid))))
    end.
Proof.
  intros Hl. unfold search.
  pose proof (binary_search_spec (bucket l (oid0 oid)) oid (sorted_filter _ _ _ Hl)) as Hs.
  destruct (binary_search _ _) as [i|i].
  - rewrite <- bucket_slice in Hs by done. apply lookup_take_Some in Hs as [Hs _].
    rewrite lookup_drop in Hs. rewrite <- Nat2Z.inj_add.
    assert (list_find (λ x, x = oid) l = Some ((count_below l (oid0 oid) + i)%nat, oid)) as ->.
    { apply list_find_Some. split_and!; [done|done|]. intros j y Hy Hj ->.
      pose proof (sorted_lookup oid_lt l _ _ _ _ Hl Hy Hs Hj) as H.
      unfold oid_lt, oid_cmp in H. by rewrite bytes_compare_refl in H. }
    done.
  - destruct Hs as [-> Hn].
    assert (list_find (λ x, x = oid) l = None) as ->.
    { apply list_find_None, Forall_forall. intros x Hx ->. apply Hn, list_elem_of_filter. done. }
    by rewrite (insertion_point_bucket l), Nat2Z.inj_add.
Qed.

Lemma length_idx_header : length (write_u32 PACK_IDX_MAGIC ++ write_u32 2) = 8%nat.
Proof. by rewrite length_app. Qed.

(** The bytes of a file that holds [idx], cut at the layer of oids. *)
Lemma idx_file_split idx tail :
  pack_index_wf idx →
  ∃ pre, length pre = 1032%nat
    ∧ pack_index_bytes idx ++ tail
      = pre ++ (oids idx ≫= write_oid) ++ (crcs idx ≫= write_u32) ++ (offsets idx ≫= write_u32)
        ++ write_oid (pack_hash idx) ++ tail.
Proof.
  intros (Hf & Hn & _). exists ((write_u32 PACK_IDX_MAGIC ++ write_u32 2) ++ (fanout idx ≫= write_u32)).
  split.
  - rewrite length_app, length_idx_header, (length_bind_fixed write_u32 4), Hf, length_build_fanout.
    + done.
    + apply Forall_true. intros; apply length_be_encode.
  - unfold pack_index_bytes. by rewrite <- !app_assoc.
Qed.

Lemma oids_layer (l : list Oid) :
  Forall oid_wf l → Forall (λ a, length (write_oid a) = 20%nat ∧ reads read_oid (write_oid a) a) l.
Proof. intros Hl. eapply Forall_impl; [exact Hl|]. intros a Ha. split; [done|by apply reads_oid]. Qed.

Lemma u32s_layer l :
  Forall (fits 32) l → Forall (λ a, length (write_u32 a) = 4%nat ∧ reads read_u32 (write_u32 a) a) l.
Proof.
  intros Hl. eapply Forall_impl; [exact Hl|]. intros a Ha.
  split; [apply length_be_encode|by apply reads_u32].
Qed.

Lemma offset_of_small n layer i :
  0 ≤ n < 2 ^ 32 → 0 ≤ i < 2 ^ 32 →
  offset_of n layer i = 1032 + match layer with
                               | LOid => i * 20
                               | LCrc => n * 20 + i * 4
                               | LOfs => n * 24 + i * 4
                               | LExt => n * 28 + i * 8
                               end.
Proof.
  intros Hn Hi. unfold offset_of. rewrite wrap_fits;
    [|unfold fits]; destruct layer; unfold PACK_IDX_HEADER_SIZE, FANOUT_SIZE, FANOUT_ENTRYC,
      FANOUT_ENTRY_SIZE, LAYER_SIZE, OID_SIZE, CRC_SIZE, OFFSET_SIZE, EXT_OFFSET_SIZE; cbn -[Z.mul Z.add Z.lt Z.le Z.pow]; lia.
Qed.

Lemma bucket_bounds r idx p :
  pack_index_wf idx → reader_of r idx → (p < 256)%nat →
  bucket_low (ir_fanout r) p = Ok (Z.of_nat (count_below (oids idx) p))
  ∧ unwrap (ir_fanout r !! p) = @Ok BitGenericError _ (Z.of_nat (count_below (oids idx) (S p))).
Proof.
  intros (Hf & Hn & _) (-> & _ & _) Hp. rewrite Hf. unfold FANOUT_ENTRYC. split.
  - destruct p as [|p]; cbn [bucket_low].
    + unfold count_below. rewrite filter_none; [done|]. intros; lia.
    + by rewrite build_fanout_lookup by (done || unfold FANOUT_ENTRYC; lia).
  - by rewrite build_fanout_lookup by (done || unfold FANOUT_ENTRYC; lia).
Qed.

Lemma read_bucket r idx p :
  pack_index_wf idx → reader_of r idx →
  let low := Z.of_nat (count_below (oids idx) p) in
  let high := Z.of_nat (count_below (oids idx) (S p)) in
  read_at (read_vec read_oid (Z.to_nat (high - low)))
    (PACK_IDX_HEADER_SIZE + FANOUT_SIZE + low * Z.of_nat OID_SIZE) (ir_reader r)
  = Ok (bucket (oids idx) p).
Proof.
  intros Hwf (_ & _ & tail & ->). pose proof (idx_file_split idx tail Hwf) as (pre & Hpre & ->).
  destruct Hwf as (_ & _ & Hs & Ho & _). cbn zeta. rewrite <- bucket_slice by done.
  pose proof (count_below_mono (oids idx) p (S p) ltac:(lia)).
  pose proof (count_below_length (oids idx) (S p)).
  replace (Z.to_nat _) with (count_below (oids idx) (S p) - count_below (oids idx) p)%nat by lia.
  eapply read_at_layer; [by apply oids_layer|lia|].
  rewrite Hpre. unfold PACK_IDX_HEADER_SIZE, FANOUT_SIZE, FANOUT_ENTRYC, FANOUT_ENTRY_SIZE, OID_SIZE. lia.
Qed.

(** [find_oid_index] with the bucket in the cache, and without it. *)
Lemma find_oid_index_cached r idx oid l :
  pack_index_wf idx → reader_of r idx →
  oid_cache r !! Z.of_nat (count_below (oids idx) (oid0 oid)) = Some l →
  find_oid_index oid r = (search oid (Z.of_nat (count_below (oids idx) (oid0 oid))) l, r).
Proof.
  intros Hwf Hr Hc. unfold find_oid_index.
  destruct (bucket_bounds r idx (oid0 oid) Hwf Hr (oid0_bound oid)) as [Hlo Hhi].
  unfold mbind, st_bind, st_get, st_lift. by rewrite Hlo, Hhi, Hc.
Qed.

Lemma find_oid_index_uncached r idx oid :
  pack_index_wf idx → reader_of r idx →
  let low := Z.of_nat (count_below (oids idx) (oid0 oid)) in
  oid_cache r !! low = None →
  find_oid_index oid r
  = (search oid low (bucket (oids idx) (oid0 oid)),
     set_oid_cache r (<[low := bucket (oids idx) (oid0 oid)]> (oid_cache r))).
Proof.
  intros Hwf Hr low Hc. unfold find_oid_index.
  destruct (bucket_bounds r idx (oid0 oid) Hwf Hr (oid0_bound oid)) as [Hlo Hhi].
  pose proof (read_bucket r idx (oid0 oid) Hwf Hr) as Hb. cbn zeta in Hb.
  unfold mbind, st_bind, st_get, st_lift, st_put. rewrite Hlo, Hhi. fold low. rewrite Hc.
  pose proof (count_below_mono (oids idx) (oid0 oid) (S (oid0 oid)) ltac:(lia)).
  assert ((low <=? Z.of_nat (count_below (oids idx) (S (oid0 oid)))) = true) as ->
    by (apply Z.leb_le; lia).
  cbn [assert_that]. fold low in Hb. by rewrite Hb.
Qed.

(** The crc and offset that [idx] has for [oid]. *)
Definition index_entry_of (idx : PackIndex) (oid : Oid) (e : Z * Z) : Prop :=
  ∃ i, oids idx !! i = Some oid ∧ crcs idx !! i = Some e.1 ∧ offsets idx !! i = Some e.2.

Lemma read_crc_offset r idx i c o :
  pack_index_wf idx → reader_of r idx →
  (i < length (oids idx))%nat → crcs idx !! i = Some c → offsets idx !! i = Some o →
  read_from read_u32 LCrc (Z.of_nat i) r = (Ok c, r)
  ∧ read_from read_u32 LOfs (Z.of_nat i) r = (Ok o, r).
Proof.
  intros Hwf (_ & Hn & tail & Hfile) Hi Hc Ho.
  pose proof (idx_file_split idx tail Hwf) as (pre & Hpre & E).
  destruct Hwf as (_ & Hlen & _ & Hos & Hlc & Hcs & Hlo & Hofs & _).
  unfold read_from. rewrite Hfile, E, Hn, !offset_of_small by lia.
  assert (length (oids idx ≫= write_oid) = length (oids idx) * 20)%nat as H20
    by (apply length_bind_fixed; eapply Forall_impl; [exact Hos|]; done).
  assert (length (crcs idx ≫= write_u32) = length (oids idx) * 4)%nat as H4.
  { rewrite <- Hlc. apply length_bind_fixed, Forall_true. intros; apply length_be_encode. }
  split; f_equal.
  - rewrite (app_assoc pre). eapply read_at_elem; [by apply u32s_layer|done|].
    rewrite length_app, Hpre, H20. lia.
  - rewrite (app_assoc pre), (app_assoc (pre ++ _)).
    eapply read_at_elem; [by apply u32s_layer|done|].
    rewrite !length_app, Hpre, H20, H4. lia.
Qed.

(** ** The invariant of the caches *)

(** Every cached bucket is the bucket of an object of the pack, under its own key,
    and every cached pair is the one of the index. *)
Definition reader_inv (r : PackIndexReader) (idx : PackIndex) : Prop :=
  reader_of r idx
  ∧ (∀ low l, oid_cache r !! low = Some l →
       ∃ oid, oid ∈ oids idx ∧ low = Z.of_nat (count_below (oids idx) (oid0 oid))
         ∧ l = bucket (oids idx) (oid0 oid))
  ∧ (∀ oid e, crc_offset_cache r !! oid = Some e → index_entry_of idx oid e).

(** Buckets that are not empty start at different indices. *)
Lemma bucket_low_inj l a b :
  a ∈ l → b ∈ l → count_below l (oid0 a) = count_below l (oid0 b) → oid0 a = oid0 b.
Proof.
  intros Ha Hb E.
  assert (∀ x, x ∈ l → count_below l (oid0 x) < count_below l (S (oid0 x)))%nat as Hlt.
  { intros x Hx. rewrite count_below_S.
    assert (x ∈ filter (λ oid, oid0 oid = oid0 x) l) as Hin by by apply list_elem_of_filter.
    destruct (filter _ _); [by apply elem_of_nil in Hin|]. cbn. lia. }
  pose proof (Hlt a Ha). pose proof (Hlt b Hb).
  destruct (Nat.lt_trichotomy (oid0 a) (oid0 b)) as [Hab|[?|Hba]]; [|done|].
  - pose proof (count_below_mono l (S (oid0 a)) (oid0 b) ltac:(lia)). lia.
  - pose proof (count_below_mono l (S (oid0 b)) (oid0 a) ltac:(lia)). lia.
Qed.

Lemma list_find_sorted l i oid :
  StronglySorted oid_lt l → l !! i = Some oid → list_find (λ x, x = oid) l = Some (i, oid).
Proof.
  intros Hl Hi. apply list_find_Some. split_and!; [done|done|]. intros j y Hy Hj ->.
  pose proof (sorted_lookup oid_lt l _ _ _ _ Hl Hy Hi Hj) as H.
  unfold oid_lt, oid_cmp in H. by rewrite bytes_compare_refl in H.
Qed.

Lemma find_oid_index_present r idx oid i :
  pack_index_wf idx → reader_inv r idx → oids idx !! i = Some oid →
  ∃ r', find_oid_index oid r = (Ok (Z.of_nat i), r') ∧ reader_inv r' idx
    ∧ crc_offset_cache r' = crc_offset_cache r.
Proof.
  intros Hwf (Hr & Hoc & Hcc) Hi. pose proof Hwf as (_ & _ & Hs & _).
  assert (oid ∈ oids idx) as Hin by by eapply list_elem_of_lookup_2.
  assert (search oid (Z.of_nat (count_below (oids idx) (oid0 oid))) (bucket (oids idx) (oid0 oid))
          = Ok (Z.of_nat i)) as Hsearch
    by by rewrite search_bucket, (list_find_sorted _ i oid).
  destruct (oid_cache r !! Z.of_nat (count_below (oids idx) (oid0 oid))) as [l|] eqn:Hc.
  - exists r. rewrite (find_oid_index_cached r idx oid l) by done.
    destruct (Hoc _ _ Hc) as (o & Ho & Hlow & ->). apply Nat2Z.inj in Hlow.
    apply bucket_low_inj in Hlow; [|done..]. rewrite <- Hlow, Hsearch. done.
  - eexists. rewrite (find_oid_index_uncached r idx oid) by done. rewrite Hsearch.
    split; [reflexivity|]. split; [|done]. split; [done|]. split; [|done].
    cbn [oid_cache set_oid_cache]. intros low l [[<- <-]|[_ Hl]]%lookup_insert_Some; [|by apply Hoc].
    by exists oid.
Qed.

Definition small_offsets (idx : PackIndex) : Prop := Forall (λ o, o ≤ MAX_OFFSET) (offsets idx).

Lemma find_oid_crc_offset_present r idx oid :
  pack_index_wf idx → small_offsets idx → reader_inv r idx → oid ∈ oids idx →
  ∃ r' e, find_oid_crc_offset oid r = (Ok e, r') ∧ reader_inv r' idx ∧ index_entry_of idx oid e.
Proof.
  intros Hwf Hsm Hinv Hin. pose proof Hinv as (Hr & Hoc & Hcc).
  unfold find_oid_crc_offset. rewrite (st_bind_ok _ _ r r r) by done.
  destruct (crc_offset_cache r !! oid) as [e|] eqn:E; [exists r, e; naive_solver|].
  apply list_elem_of_lookup in Hin as [i Hi].
  destruct (find_oid_index_present r idx oid i Hwf Hinv Hi) as (r1 & H1 & Hinv1 & Hcc1).
  pose proof (lookup_lt_Some _ _ _ Hi) as Hlt. pose proof Hwf as (_ & _ & _ & _ & Hlc & _ & Hlo & _).
  destruct (lookup_lt_is_Some_2 (crcs idx) i ltac:(lia)) as [c Hc].
  destruct (lookup_lt_is_Some_2 (offsets idx) i ltac:(lia)) as [o Ho].
  pose proof Hinv1 as (Hr1 & Hoc1 & Hcc1').
  destruct (read_crc_offset r1 idx i c o Hwf Hr1 Hlt Hc Ho) as [Rc Ro].
  assert (find_oid_crc_offset_inner oid r = (Ok (c, o), r1)) as Hinner.
  { unfold find_oid_crc_offset_inner, mbind, st_bind. rewrite H1, Rc, Ro.
    unfold small_offsets in Hsm. rewrite Forall_forall in Hsm.
    assert ((MAX_OFFSET <? o) = false) as -> by (apply Z.ltb_ge, Hsm; by eapply list_elem_of_lookup_2).
    done. }
  rewrite (st_bind_ok _ _ r r1 (c, o)) by done.
  exists (set_crc_offset_cache r1 (<[oid := (c, o)]> (crc_offset_cache r1))), (c, o).
  assert (index_entry_of idx oid (c, o)) as He by by exists i.
  split; [done|]. split; [|done]. split; [done|]. split; [done|].
  cbn [crc_offset_cache set_crc_offset_cache].
  intros oid' e' [[<- <-]|[_ Hl]]%lookup_insert_Some; [done|by apply Hcc1'].
Qed.

(** Looking up a sequence of objects. *)
Fixpoint find_all (qs : list Oid) : st PackIndexReader (list (Z * Z)) :=
  match qs with
  | [] => mret []
  | q :: qs => e ← find_oid_crc_offset q; es ← find_all qs; mret (e :: es)
  end.

Lemma find_all_present idx qs : ∀ r,
  pack_index_wf idx → small_offsets idx → reader_inv r idx → Forall (.∈ oids idx) qs →
  ∃ r' es, find_all qs r = (Ok es, r') ∧ reader_inv r' idx ∧ Forall2 (index_entry_of idx) qs es.
Proof.
  induction qs as [|q qs IH]; intros r Hwf Hsm Hr Hqs.
  - exists r, []. by split_and!; [| |constructor].
  - apply Forall_cons in Hqs as [Hq Hqs].
    destruct (find_oid_crc_offset_present r idx q Hwf Hsm Hr Hq) as (r1 & e & H1 & Hr1 & He).
    destruct (IH r1 Hwf Hsm Hr1 Hqs) as (r2 & es & H2 & Hr2 & Hes).
    exists r2, (e :: es). cbn [find_all]. unfold mbind, st_bind in *. rewrite H1, H2.
    by split_and!; [| |constructor].
Qed.

Lemma pack_index_reader_new_ok idx tail :
  pack_index_wf idx →
  pack_index_reader_new (pack_index_bytes idx ++ tail)
  = Ok (mk_PackIndexReader (pack_index_bytes idx ++ tail) (fanout idx) ∅ ∅
          (Z.of_nat (length (oids idx)))).
Proof.
  intros (Hf & Hn & _). unfold pack_index_reader_new.
  assert (pack_index_bytes idx ++ tail
    = (write_u32 PACK_IDX_MAGIC ++ write_u32 2) ++ (fanout idx ≫= write_u32)
      ++ ((oids idx ≫= write_oid) ++ (crcs idx ≫= write_u32) ++ (offsets idx ≫= write_u32)
          ++ write_oid (pack_hash idx) ++ tail)) as E
    by (unfold pack_index_bytes; by rewrite <- !app_assoc).
  rewrite E at 1. rewrite reads_pack_index_header. cbn [mbind outcome_bind]. rewrite Hf.
  rewrite reads_fanout by done. cbn [mbind outcome_bind]. by rewrite fanout_last.
Qed.

Lemma fresh_reader_inv idx tail :
  reader_inv (mk_PackIndexReader (pack_index_bytes idx ++ tail) (fanout idx) ∅ ∅
                (Z.of_nat (length (oids idx)))) idx.
Proof.
  split; [split_and!; [done|done|by exists tail]|]. cbn.
  split; [intros low l H|intros oid e H]; by rewrite lookup_empty in H.
Qed.

(** ** Theorems *)

Section sha1.
Variable sha1 : bytes → Oid.

Lemma pack_index_serialize_eq idx :
  pack_index_serialize sha1 idx = Ok (pack_index_bytes idx ++ sha1 (pack_index_bytes idx)).
Proof. unfold pack_index_serialize. by rewrite pack_index_body_eq. Qed.

(** C16: For a pack index written to its file, a new reader of the file answers any
    sequence of lookups of objects of the pack, through its two caches, with the crc
    and the offset that the index has for each of them. *)
Theorem pack_lookup_correct idx qs :
  pack_index_wf idx → small_offsets idx → Forall (.∈ oids idx) qs →
  ∃ w r r' es, pack_index_serialize sha1 idx = Ok w ∧ pack_index_reader_new w = Ok r
    ∧ find_all qs r = (Ok es, r') ∧ Forall2 (index_entry_of idx) qs es.
Proof.
  intros Hwf Hsm Hqs. rewrite pack_index_serialize_eq. eexists. 
  destruct (find_all_present idx qs _ Hwf Hsm
    (fresh_reader_inv idx (sha1 (pack_index_bytes idx))) Hqs) as (r' & es & H & _ & Hes).
  eexists _, r', es. rewrite pack_index_reader_new_ok by done. done.
Qed.

(** An object that is not in the pack is reported as such by a new reader, with
    the index where its oid would be inserted, which is what the search for a
    prefix continues from. *)
Theorem pack_lookup_absent idx oid :
  pack_index_wf idx → (oid ∉ oids idx) →
  ∃ w r r', pack_index_serialize sha1 idx = Ok w ∧ pack_index_reader_new w = Ok r
    ∧ find_oid_crc_offset oid r
      = (Err (AnyhowBit (ObjectNotFoundInPackIndex oid
           (Z.of_nat (insertion_point (oids idx) oid)))), r')
    ∧ (∀ i x, oids idx !! i = Some x → oid_lt x oid ↔ (i < insertion_point (oids idx) oid)%nat).
Proof.
  intros Hwf Hout. pose proof Hwf as (_ & _ & Hs & _). rewrite pack_index_serialize_eq.
  set (r := mk_PackIndexReader (pack_index_bytes idx ++ sha1 (pack_index_bytes idx)) (fanout idx) ∅ ∅
              (Z.of_nat (length (oids idx)))).
  destruct (fresh_reader_inv idx (sha1 (pack_index_bytes idx))) as [Hr _].
  eexists _, r, _. rewrite pack_index_reader_new_ok by done.
  split_and!; [done|done| |by intros i x; apply insertion_point_lookup].
  unfold find_oid_crc_offset. rewrite (st_bind_ok _ _ r r r) by done. cbn [crc_offset_cache r].
  rewrite lookup_empty. unfold find_oid_crc_offset_inner. erewrite st_bind_err; [done|].
  apply st_bind_err. rewrite (find_oid_index_uncached r idx oid) by (done || apply lookup_empty).
  rewrite search_bucket by done.
  assert (list_find (λ x, x = oid) (oids idx) = None) as ->; [|reflexivity].
  apply list_find_None, Forall_forall. by intros x Hx ->.
Qed.

(** The cache of buckets is keyed by the index where a bucket starts, which an
    empty bucket shares with the next one: after the lookup of an absent object in
    an empty bucket, every object of the next bucket is reported as missing although
    it is in the pack. *)
Theorem pack_lookup_stale_bucket idx a b :
  pack_index_wf idx → b ∈ oids idx → (oid0 a < oid0 b)%nat →
  (∀ x, x ∈ oids idx → ¬ (oid0 a ≤ oid0 x < oid0 b)%nat) →
  ∃ w r r1 r2 i j, pack_index_serialize sha1 idx = Ok w ∧ pack_index_reader_new w = Ok r
    ∧ find_oid_crc_offset a r = (Err (AnyhowBit (ObjectNotFoundInPackIndex a i)), r1)
    ∧ find_oid_crc_offset b r1 = (Err (AnyhowBit (ObjectNotFoundInPackIndex b j)), r2).
Proof.
  intros Hwf Hb Hab Hgap. pose proof Hwf as (_ & _ & Hs & _). rewrite pack_index_serialize_eq.
  set (r := mk_PackIndexReader (pack_index_bytes idx ++ sha1 (pack_index_bytes idx)) (fanout idx) ∅ ∅
              (Z.of_nat (length (oids idx)))).
  destruct (fresh_reader_inv idx (sha1 (pack_index_bytes idx))) as [Hr _]. fold r in Hr.
  assert (bucket (oids idx) (oid0 a) = []) as Hempty
    by (apply filter_none; intros x Hx; specialize (Hgap x Hx); lia).
  assert (count_below (oids idx) (oid0 a) = count_below (oids idx) (oid0 b)) as Hlow.
  { unfold count_below. f_equal. apply filter_ext_in. intros x Hx. specialize (Hgap x Hx). lia. }
  set (low := Z.of_nat (count_below (oids idx) (oid0 b))).
  set (r1 := set_oid_cache r {[low := []]}).
  assert (find_oid_index a r = (Err (AnyhowBit (ObjectNotFoundInPackIndex a (low + 0))), r1)) as Ha.
  { rewrite (find_oid_index_uncached r idx a) by (done || apply lookup_empty).
    by rewrite Hempty, Hlow. }
  assert (find_oid_index b r1 = (Err (AnyhowBit (ObjectNotFoundInPackIndex b (low + 0))), r1)) as Hb1.
  { rewrite (find_oid_index_cached r1 idx b []); [done|done|done|apply lookup_singleton_eq]. }
  eexists _, r, r1, r1, _, _. rewrite pack_index_reader_new_ok by done.
  split_and!; [done|done|..]; unfold find_oid_crc_offset.
  - rewrite (st_bind_ok _ _ r r r) by done. cbn [crc_offset_cache r]. rewrite lookup_empty.
    unfold find_oid_crc_offset_inner. erewrite st_bind_err; [done|]. apply st_bind_err, Ha.
  - rewrite (st_bind_ok _ _ r1 r1 r1) by done. cbn [crc_offset_cache r1 set_oid_cache r].
    rewrite lookup_empty.
    unfold find_oid_crc_offset_inner. erewrite st_bind_err; [done|]. apply st_bind_err, Hb1.
Qed.
End sha1.

(** ** Witnesses *)

Lemma pack_lookup_correct_witness :
  ∃ w r r' es, pack_index_serialize toy_sha1 sample_pack_index = Ok w
    ∧ pack_index_reader_new w = Ok r
    ∧ find_all [sample_pack_oid x05; sample_pack_oid x02; sample_pack_oid x05] r = (Ok es, r')
    ∧ Forall2 (index_entry_of sample_pack_index)
        [sample_pack_oid x05; sample_pack_oid x02; sample_pack_oid x05] es.
Proof.
  apply (pack_lookup_correct toy_sha1 sample_pack_index); [apply sample_pack_index_wf| |].
  - repeat constructor; vm_decide.
  - repeat constructor; vm_decide.
Defined.

Lemma pack_lookup_absent_witness :
  ∃ w r r', pack_index_serialize toy_sha1 sample_pack_index = Ok w
    ∧ pack_index_reader_new w = Ok r
    ∧ find_oid_crc_offset (sample_pack_oid x04) r
      = (Err (AnyhowBit (ObjectNotFoundInPackIndex (sample_pack_oid x04) 1)), r').
Proof.
  destruct (pack_lookup_absent toy_sha1 sample_pack_index (sample_pack_oid x04)) as (w & r & r' & H).
  - apply sample_pack_index_wf.
  - vm_decide.
  - exists w, r, r'. destruct H as (H1 & H2 & H3 & _). split_and!; [exact H1|exact H2|exact H3].
Defined.

Lemma pack_lookup_stale_bucket_witness :
  ∃ w r r1 r2 i j, pack_index_serialize toy_sha1 sample_pack_index = Ok w
    ∧ pack_index_reader_new w = Ok r
    ∧ find_oid_crc_offset (sample_pack_oid x04) r
      = (Err (AnyhowBit (ObjectNotFoundInPackIndex (sample_pack_oid x04) i)), r1)
    ∧ find_oid_crc_offset (sample_pack_oid x05) r1
      = (Err (AnyhowBit (ObjectNotFoundInPackIndex (sample_pack_oid x05) j)), r2).
Proof.
  apply (pack_lookup_stale_bucket toy_sha1 sample_pack_index (sample_pack_oid x04) (sample_pack_oid x05)).
  - apply sample_pack_index_wf.
  - vm_decide.
  - vm_compute. lia.
  - apply Forall_forall. repeat constructor; vm_compute; lia.
Defined.
