(* ===== verification/Pack.v ===== *)
(** * Pack

    The packfile of [libbit/src/pack.rs]: [PackfileReader], which reads the objects
    of a packfile, and [Pack], which looks objects up in the index and expands the
    chains of deltas, through a cache.  The decompressor of the crate flate2 is a
    parameter, the class [Flate2], with its documented behaviour as the class
    [Flate2Laws]. *)

From Stdlib Require Import ZArith Lia Sorted.
From Stdlib Require Import Strings.Byte.
From stdpp Require Import base tactics option list countable strings sorting gmap.
From S2P Require Import Prelude RustStd Data Io Varint Hash BTree Obj Delta State PackIndex PackLookup.

#[local] Open Scope Z_scope.

(** ** The decompressor *)

Inductive Status := StOk | StBufError | StStreamEnd.

(** [flate2::Decompress]: [decompress_vec d input room finish] consumes some bytes of
    [input], appends at most [room] bytes to the output and gives the new
    state, the number of bytes consumed, the bytes appended and the status, or fails.
    [fill_buf] is the part of the rest of the stream that is in the buffer. *)
Class Flate2 := {
  Decompress : Type;
  decompress_new : Decompress;
  decompress_vec : Decompress → bytes → nat → bool → option (Decompress * nat * bytes * Status);
  fill_buf : bytes → bytes;
}.

(** [deflates data z]: [z] is a zlib stream of [data].  [pending d z o]: in the state
    [d], the stream goes on with [z] and decompresses to [o].  With room for [o],
    every call consumes a part of [z], appends a part of [o] and makes progress, and the
    call that ends the stream has consumed [z] and nothing behind it. *)
Class Flate2Laws (F : Flate2) := {
  deflates : bytes → bytes → Prop;
  pending : Decompress → bytes → bytes → Prop;
  pending_new data z : deflates data z → pending decompress_new z data;
  fill_buf_prefix s : fill_buf s `prefix_of` s;
  fill_buf_nil s : fill_buf s = [] → s = [];
  decompress_step d z o rest input room finish :
    pending d z o → (length o ≤ room)%nat →
    input `prefix_of` z ++ rest → (input = [] → z ++ rest = []) →
    ∃ d' n p o' st, decompress_vec d input room finish = Some (d', n, p, st)
      ∧ (n ≤ length z)%nat ∧ o = p ++ o'
      ∧ ((st = StStreamEnd ∧ n = length z ∧ o' = [])
         ∨ (st ≠ StStreamEnd ∧ pending d' (drop n z) o' ∧ (0 < n ∨ 0 < length p)%nat));
}.

(** ** Objects in a packfile *)

Inductive BitPackObjType := PCommit | PTree | PBlob | PTag | POfsDelta | PRefDelta.

#[export] Instance BitPackObjType_eq_dec : EqDecision BitPackObjType.
Proof. solve_decision. Defined.

Definition pack_objtype_as_u8 (t : BitPackObjType) : Z :=
  match t with
  | PCommit => 1 | PTree => 2 | PBlob => 3 | PTag => 4 | POfsDelta => 6 | PRefDelta => 7
  end.

Definition pack_objtype_try_from_u8 (ty : Z) : BitResult BitPackObjType :=
  ok_or Anyhow (find (λ t, pack_objtype_as_u8 t =? ty)
                  [PCommit; PTree; PBlob; PTag; POfsDelta; PRefDelta]).

(** [From<BitPackObjType> for BitObjType]. *)
Definition objtype_from_pack (t : BitPackObjType) : BitResult BitObjType :=
  match t with
  | PCommit => Ok TCommit | PTree => Ok TTree | PBlob => Ok TBlob | PTag => Ok TTag
  | POfsDelta | PRefDelta => Panic
  end.

Record BitPackObjHeader := mk_BitPackObjHeader { ph_obj_type : BitPackObjType; ph_size : Z }.

Definition header_from_pack (h : BitPackObjHeader) : BitResult BitObjHeader :=
  t ← objtype_from_pack (ph_obj_type h);
  Ok (mk_BitObjHeader t (ph_size h)).

Inductive BitPackObjRawDeltified :=
| Raw (raw : BitPackObjRaw)
| Ofs (offset : Z) (delta : bytes)
| Ref (oid : Oid) (delta : bytes).

(** ** PackfileReader *)

Definition PACK_SIGNATURE : bytes := bs "PACK".

(** [PackfileReader::parse_header]. *)
Definition packfile_parse_header : reader Z :=
  sig ← read_exact 4;
  _ ← lift (ensure (bool_decide (sig = PACK_SIGNATURE)) Anyhow);
  version ← read_u32;
  _ ← lift (ensure (version =? 2) Anyhow);
  read_u32.

Definition read_pack_obj_header : reader BitPackObjHeader :=
  '(ty, size) ← read_le_varint_with_shift 3;
  obj_type ← lift (pack_objtype_try_from_u8 ty);
  mret (mk_BitPackObjHeader obj_type size).

Section flate2.
Context `{F : Flate2}.

(** The [loop] of [inflate].  On a zlib stream of [size] bytes it ends within the
    fuel ([reads_inflate]); on a stream that is truncated or too long it does not
    end, and the fuel runs out. *)
Fixpoint inflate_loop (fuel : nat) (d : Decompress) (capacity : nat) (output : bytes) (s : bytes)
  : BitResult (bytes * bytes) :=
  match fuel with
  | O => Panic
  | S fuel =>
      let input := fill_buf s in
      let at_eof := match input with [] => true | _ => false end in
      match decompress_vec d input (capacity - length output) at_eof with
      | None => Err Anyhow
      | Some (d, consumed, appended, status) =>
          let s := drop consumed s in
          let output := output ++ appended in
          match status with
          | StOk | StBufError => inflate_loop fuel d capacity output s
          | StStreamEnd => Ok (output, s)
          end
      end
  end.

Definition inflate (size : Z) : reader bytes := λ s,
  '(output, s) ← inflate_loop (S (length s + Z.to_nat size)) decompress_new (Z.to_nat size) [] s;
  _ ← assert_that (Z.of_nat (length output) =? size);
  Ok (output, s).

Definition read_pack_obj : reader BitPackObjRawDeltified :=
  h ← read_pack_obj_header;
  match ph_obj_type h with
  | PCommit | PTree | PBlob | PTag =>
      t ← lift (objtype_from_pack (ph_obj_type h));
      bytes ← inflate (ph_size h);
      mret (Raw (mk_BitPackObjRaw t bytes))
  | POfsDelta =>
      offset ← read_offset;
      delta ← inflate (ph_size h);
      mret (Ofs offset delta)
  | PRefDelta =>
      oid ← read_oid;
      delta ← inflate (ph_size h);
      mret (Ref oid delta)
  end.

(** ** Pack *)

Record Pack := mk_Pack {
  pack_reader : bytes;
  idx_reader : PackIndexReader;
  pack_obj_cache : gmap Z BitPackObjRaw;
}.

(** [Pack::new], given the contents of the two files. *)
Definition pack_new (pack idx : bytes) : BitResult Pack :=
  _ ← packfile_parse_header pack;
  idx_reader ← pack_index_reader_new idx;
  Ok (mk_Pack pack idx_reader ∅).

Definition set_idx_reader (p : Pack) (r : PackIndexReader) : Pack :=
  mk_Pack (pack_reader p) r (pack_obj_cache p).

Definition set_pack_obj_cache (p : Pack) (c : gmap Z BitPackObjRaw) : Pack :=
  mk_Pack (pack_reader p) (idx_reader p) c.

Definition obj_crc_offset (oid : Oid) : st Pack (Z * Z) :=
  st_zoom idx_reader set_idx_reader (find_oid_crc_offset oid).

Definition obj_offset (oid : Oid) : st Pack Z :=
  '(_, offset) ← obj_crc_offset oid;
  mret offset.

Definition prefix_matches `{Hex} (prefix : PartialOid) : st Pack (list Oid) :=
  extended ← st_lift (partial_into_oid prefix);
  st_match (obj_offset extended)
    (λ _, mret [extended])
    (λ err,
       '(_, idx) ← st_lift (try_into_obj_not_found_in_pack_index_err err);
       p ← st_get;
       st_zoom idx_reader set_idx_reader
         (collect_matches (Z.to_nat (ir_n (idx_reader p) - idx)) prefix idx)).

Definition obj_exists (oid : Oid) : st Pack bool :=
  st_match (obj_offset oid)
    (λ _, mret true)
    (λ err, if err_is_not_found_err err then mret false else st_lift (Err err)).

Definition read_obj_from_offset_raw (file : bytes) (offset : Z) : BitResult BitPackObjRawDeltified :=
  read_at read_pack_obj offset file.

(** [read_obj_raw], given [read_obj_raw_at]. *)
Definition read_obj_raw_with (read_obj_raw_at : Z → st Pack BitPackObjRaw) (oid : Oid)
  : st Pack BitPackObjRaw :=
  offset ← obj_offset oid;
  read_obj_raw_at offset.

(** [expand_raw_obj], given [read_obj_raw_at]. *)
Definition expand_raw_obj (read_obj_raw_at : Z → st Pack BitPackObjRaw)
  (raw_kind : BitPackObjRawDeltified) (base_offset : Z) : st Pack BitPackObjRaw :=
  match raw_kind with
  | Raw raw => mret raw
  | Ofs offset delta =>
      base ← read_obj_raw_at (wrap 64 (base_offset - offset));
      st_lift (expand_with_delta_bytes base delta)
  | Ref base_oid delta =>
      base ← read_obj_raw_with read_obj_raw_at base_oid;
      st_lift (expand_with_delta_bytes base delta)
  end.

(** [read_obj_raw_at]; the recursion follows a chain of deltas. *)
Fixpoint read_obj_raw_at (fuel : nat) (offset : Z) : st Pack BitPackObjRaw :=
  match fuel with
  | O => st_lift Panic
  | S fuel =>
      p ← st_get;
      match pack_obj_cache p !! offset with
      | Some raw => mret raw
      | None =>
          raw ← st_lift (read_obj_from_offset_raw (pack_reader p) offset);
          expanded ← expand_raw_obj (read_obj_raw_at fuel) raw offset;
          p ← st_get;
          _ ← st_put (set_pack_obj_cache p (<[offset := expanded]> (pack_obj_cache p)));
          mret expanded
      end
  end.

(** [read_obj_raw].  The objects of a chain have different offsets in the file, so
    its length bounds the recursion of a chain that ends. *)
Definition read_obj_raw (oid : Oid) : st Pack BitPackObjRaw :=
  p ← st_get;
  read_obj_raw_with (read_obj_raw_at (S (length (pack_reader p)))) oid.

(** [read_obj_header_at] and [read_obj_header]: the size is the one of the object
    itself, the type the one of the base at the end of the chain. *)
Fixpoint pack_read_obj_header_at (fuel : nat) (offset : Z) : st Pack BitObjHeader :=
  match fuel with
  | O => st_lift Panic
  | S fuel =>
      p ← st_get;
      '(h, rest) ← st_lift (read_pack_obj_header (drop (Z.to_nat offset) (pack_reader p)));
      match ph_obj_type h with
      | PCommit | PTree | PBlob | PTag => st_lift (header_from_pack h)
      | POfsDelta =>
          '(ofs, _) ← st_lift (read_offset rest);
          base ← pack_read_obj_header_at fuel (wrap 64 (offset - ofs));
          mret (mk_BitObjHeader (oh_obj_type base) (ph_size h))
      | PRefDelta =>
          '(oid, _) ← st_lift (read_oid rest);
          '(_, offset) ← obj_crc_offset oid;
          base ← pack_read_obj_header_at fuel offset;
          mret (mk_BitObjHeader (oh_obj_type base) (ph_size h))
      end
  end.

Definition pack_read_obj_header (oid : Oid) : st Pack BitObjHeader :=
  '(_, offset) ← obj_crc_offset oid;
  p ← st_get;
  pack_read_obj_header_at (S (length (pack_reader p))) offset.
End flate2.

(** ** Decoding objects *)

Section laws.
Context {F : Flate2} {FL : Flate2Laws F}.

Lemma inflate_loop_ok fuel : ∀ d capacity output z o rest,
  pending d z o → (length output + length o ≤ capacity)%nat → (length z + length o < fuel)%nat →
  inflate_loop fuel d capacity output (z ++ rest) = Ok (output ++ o, rest).
Proof.
  induction fuel as [|fuel IH]; intros d capacity output z o rest Hp Hcap Hf; [lia|].
  cbn [inflate_loop].
  destruct (decompress_step d z o rest (fill_buf (z ++ rest)) (capacity - length output)
    (match fill_buf (z ++ rest) with [] => true | _ => false end) Hp ltac:(lia)
    (fill_buf_prefix _) (fill_buf_nil _)) as (d' & n & p & o' & st & -> & Hn & -> & Hst).
  rewrite drop_app_le by done. rewrite length_app in Hcap, Hf.
  destruct Hst as [(-> & -> & ->)|(Hst & Hp' & Hprog)].
  - by rewrite drop_all, app_nil_r.
  - assert (inflate_loop fuel d' capacity (output ++ p) (drop n z ++ rest)
            = Ok (output ++ p ++ o', rest)) as E.
    { rewrite app_assoc. apply IH; [done|rewrite length_app; lia|rewrite length_drop; lia]. }
    by destruct st.
Qed.

(** [inflate] reads a zlib stream of [size] bytes and nothing behind it. *)
Lemma reads_inflate data z :
  deflates data z → reads (inflate (Z.of_nat (length data))) z data.
Proof.
  intros Hz rest. unfold inflate. rewrite Nat2Z.id.
  rewrite (inflate_loop_ok _ decompress_new (length data) [] z data rest);
    [|by apply pending_new|cbn; lia|rewrite length_app; lia].
  cbn [mbind outcome_bind app]. by rewrite Z.eqb_refl.
Qed.

Lemma reads_pack_obj_header t size :
  fits 64 size →
  reads read_pack_obj_header (size_encode_with 3 (pack_objtype_as_u8 t) size) (mk_BitPackObjHeader t size).
Proof.
  intros Hs. unfold read_pack_obj_header.
  eapply reads_bind_last; [apply reads_le_varint_with_shift; [lia|by destruct t|done]|].
  cbn beta iota. eapply reads_bind_nil; [apply reads_lift; by destruct t|]. apply reads_ret.
Qed.

(** The encodings of an object of a packfile. *)
Inductive obj_encodes : BitPackObjRawDeltified → bytes → Prop :=
| encodes_raw (t : BitPackObjType) ty data z :
    objtype_from_pack t = Ok ty → deflates data z → Z.of_nat (length data) < 2 ^ 64 →
    obj_encodes (Raw (mk_BitPackObjRaw ty data))
      (size_encode_with 3 (pack_objtype_as_u8 t) (Z.of_nat (length data)) ++ z)
| encodes_ofs offset delta z :
    deflates delta z → Z.of_nat (length delta) < 2 ^ 64 → fits 64 offset →
    obj_encodes (Ofs offset delta)
      (size_encode_with 3 6 (Z.of_nat (length delta)) ++ offset_encode offset ++ z)
| encodes_ref oid delta z :
    deflates delta z → Z.of_nat (length delta) < 2 ^ 64 → oid_wf oid →
    obj_encodes (Ref oid delta)
      (size_encode_with 3 7 (Z.of_nat (length delta)) ++ oid ++ z).

Lemma reads_pack_obj obj w : obj_encodes obj w → reads read_pack_obj w obj.
Proof.
  destruct 1 as [t ty data z Ht Hz Hd|offset delta z Hz Hd Ho|oid delta z Hz Hd Ho];
    unfold read_pack_obj.
  - eapply reads_bind; [apply reads_pack_obj_header; unfold fits; lia|]. cbn [ph_obj_type ph_size].
    assert (reads (t0 ← lift (objtype_from_pack t); b ← inflate (Z.of_nat (length data));
                   mret (Raw (mk_BitPackObjRaw t0 b))) z (Raw (mk_BitPackObjRaw ty data))) as Hr.
    { rewrite Ht. eapply reads_bind_nil; [by apply reads_lift|].
      eapply reads_bind_last; [by apply reads_inflate|]. apply reads_ret. }
    by destruct t.
  - eapply reads_bind; [apply (reads_pack_obj_header POfsDelta); unfold fits; lia|].
    cbn [ph_obj_type ph_size]. eapply reads_bind; [by apply reads_offset|].
    eapply reads_bind_last; [by apply reads_inflate|]. apply reads_ret.
  - eapply reads_bind; [apply (reads_pack_obj_header PRefDelta); unfold fits; lia|].
    cbn [ph_obj_type ph_size]. eapply reads_bind; [by apply reads_oid|].
    eapply reads_bind_last; [by apply reads_inflate|]. apply reads_ret.
Qed.
End laws.

(** ** Reading objects *)

Section reading.
Context {F : Flate2}.
Variable file : bytes.
Variable idx : PackIndex.

(** The object at an offset of the packfile, by a chain of [n] objects. *)
Inductive obj_at : nat → Z → BitPackObjRaw → Prop :=
| at_raw n off raw :
    read_obj_from_offset_raw file off = Ok (Raw raw) → obj_at (S n) off raw
| at_ofs n off o delta base raw :
    read_obj_from_offset_raw file off = Ok (Ofs o delta) →
    obj_at n (wrap 64 (off - o)) base → expand_with_delta_bytes base delta = Ok raw →
    obj_at (S n) off raw
| at_ref n off oid delta crc off' base raw :
    read_obj_from_offset_raw file off = Ok (Ref oid delta) →
    index_entry_of idx oid (crc, off') →
    obj_at n off' base → expand_with_delta_bytes base delta = Ok raw →
    obj_at (S n) off raw.

Lemma index_entry_of_det oid e1 e2 :
  pack_index_wf idx → index_entry_of idx oid e1 → index_entry_of idx oid e2 → e1 = e2.
Proof.
  intros (_ & _ & Hs & _) (i & Hi & Hc & Ho) (j & Hj & Hc' & Ho').
  pose proof (list_find_sorted _ i oid Hs Hi). pose proof (list_find_sorted _ j oid Hs Hj).
  destruct e1, e2; cbn in *. simplify_eq. congruence.
Qed.

Lemma obj_at_det n m off r1 r2 :
  pack_index_wf idx → obj_at n off r1 → obj_at m off r2 → r1 = r2.
Proof.
  intros Hwf H1. revert m r2. induction H1 as
    [n off raw Hr|n off o delta base raw Hr _ IH He|n off oid delta crc off' base raw Hr Hi _ IH He];
    intros m r2 H2; inversion H2; clear H2; simplify_eq;
    match goal with H : read_obj_from_offset_raw file off = _ |- _ =>
      rewrite Hr in H; try discriminate H; injection H as H; subst end.
  - done.
  - assert (base = base0) as -> by by eapply IH. congruence.
  - assert ((crc, off') = (crc0, off'0)) as [= -> ->] by by eapply index_entry_of_det.
    assert (base = base0) as -> by by eapply IH. congruence.
Qed.

(** The state of a [Pack] on this file and index: the caches hold what is there. *)
Definition pack_inv (p : Pack) : Prop :=
  pack_reader p = file ∧ reader_inv (idx_reader p) idx
  ∧ (∀ off raw, pack_obj_cache p !! off = Some raw → ∃ n, obj_at n off raw).

Lemma obj_offset_ok p oid crc off :
  pack_index_wf idx → small_offsets idx → pack_inv p → index_entry_of idx oid (crc, off) →
  ∃ p', obj_offset oid p = (Ok off, p') ∧ pack_inv p'.
Proof.
  intros Hwf Hsm (Hf & Hr & Hc) He.
  assert (oid ∈ oids idx) as Hin by (destruct He as (i & Hi & _); by eapply list_elem_of_lookup_2).
  destruct (find_oid_crc_offset_present _ idx oid Hwf Hsm Hr Hin) as (r' & e & H & Hr' & He').
  assert (e = (crc, off)) as -> by by eapply index_entry_of_det.
  exists (set_idx_reader p r'). unfold obj_offset, obj_crc_offset, mbind, st_bind, st_zoom. rewrite H.
  done.
Qed.

(** One step of the recursion, from the cache or from the file. *)
Lemma read_obj_raw_at_step fuel off p obj raw n :
  pack_index_wf idx → pack_inv p → obj_at n off raw →
  read_obj_from_offset_raw file off = Ok obj →
  (∃ p1, expand_raw_obj (read_obj_raw_at fuel) obj off p = (Ok raw, p1) ∧ pack_inv p1) →
  ∃ p', read_obj_raw_at (S fuel) off p = (Ok raw, p') ∧ pack_inv p'.
Proof.
  intros Hwf (Hfile & Hidx & Hcache) Hat Hr (p1 & He & (Hf1 & Hi1 & Hc1)).
  cbn [read_obj_raw_at]. rewrite (st_bind_ok _ _ p p p) by done.
  destruct (pack_obj_cache p !! off) as [raw'|] eqn:Hcp.
  - destruct (Hcache _ _ Hcp) as [m Hm]. rewrite (obj_at_det _ _ _ _ _ Hwf Hm Hat). by exists p.
  - rewrite (st_bind_ok _ _ p p obj) by (unfold st_lift; by rewrite Hfile, Hr).
    rewrite (st_bind_ok _ _ p p1 raw) by done.
    exists (set_pack_obj_cache p1 (<[off := raw]> (pack_obj_cache p1))).
    split; [done|]. split_and!; [done|done|]. cbn [pack_obj_cache set_pack_obj_cache].
    intros o r [[<- <-]|[_ H]]%lookup_insert_Some; [by exists n|by apply Hc1].
Qed.

Lemma read_obj_raw_at_ok n off raw : pack_index_wf idx → small_offsets idx → obj_at n off raw →
  ∀ fuel p, (n ≤ fuel)%nat → pack_inv p →
  ∃ p', read_obj_raw_at fuel off p = (Ok raw, p') ∧ pack_inv p'.
Proof.
  intros Hwf Hsm Hat. induction Hat as
    [n off raw Hr|n off o delta base raw Hr Hat IH He|n off oid delta crc off' base raw Hr Hi Hat IH He];
    intros fuel p Hf Hinv; (destruct fuel as [|fuel]; [lia|]).
  - eapply (read_obj_raw_at_step fuel off p _ raw (S n)); [done|done|by apply at_raw|done|].
    by exists p.
  - eapply (read_obj_raw_at_step fuel off p _ raw (S n)); [done|done|by eapply at_ofs|done|].
    destruct (IH fuel p ltac:(lia) Hinv) as (p1 & H1 & Hinv1). exists p1. split; [|done].
    cbn [expand_raw_obj]. rewrite (st_bind_ok _ _ p p1 base) by done. unfold st_lift. by rewrite He.
  - eapply (read_obj_raw_at_step fuel off p _ raw (S n)); [done|done|by eapply at_ref|done|].
    destruct (obj_offset_ok p oid crc off' Hwf Hsm Hinv Hi) as (p1 & H1 & Hinv1).
    destruct (IH fuel p1 ltac:(lia) Hinv1) as (p2 & H2 & Hinv2). exists p2. split; [|done].
    cbn [expand_raw_obj]. rewrite (st_bind_ok _ _ p p2 base).
    + unfold st_lift. by rewrite He.
    + unfold read_obj_raw_with. by rewrite (st_bind_ok _ _ p p1 off').
Qed.

Lemma read_obj_raw_ok p oid crc off raw n :
  pack_index_wf idx → small_offsets idx → pack_inv p →
  index_entry_of idx oid (crc, off) → obj_at n off raw → (n ≤ S (length file))%nat →
  ∃ p', read_obj_raw oid p = (Ok raw, p') ∧ pack_inv p'.
Proof.
  intros Hwf Hsm Hinv He Hat Hn. unfold read_obj_raw. rewrite (st_bind_ok _ _ p p p) by done.
  destruct (obj_offset_ok p oid crc off Hwf Hsm Hinv He) as (p1 & H1 & Hinv1).
  unfold read_obj_raw_with. rewrite (st_bind_ok _ _ p p1 off) by done.
  destruct Hinv as (-> & _). by eapply read_obj_raw_at_ok.
Qed.
End reading.

(** ** A decompressor that satisfies the laws *)

(** Data without NUL, stored as it is and ended by a NUL, read in chunks of three
    bytes. *)
Fixpoint toy_inflate (input : bytes) (room : nat) : nat * bytes * Status :=
  match input with
  | [] => (0%nat, [], StOk)
  | b :: input =>
      if bool_decide (b = x00) then (1%nat, [], StStreamEnd)
      else match room with
           | O => (0%nat, [], StBufError)
           | S room => let '(n, p, st) := toy_inflate input room in (S n, b :: p, st)
           end
  end.

#[export] Instance toy_flate2 : Flate2 := {
  Decompress := unit;
  decompress_new := tt;
  decompress_vec d input room _ := let '(n, p, st) := toy_inflate input room in Some (d, n, p, st);
  fill_buf s := take 3 s;
}.

Lemma toy_inflate_ok o : ∀ input rest room,
  (x00 ∉ o) → (length o ≤ room)%nat → input `prefix_of` (o ++ [x00]) ++ rest →
  ∃ n p o' st, toy_inflate input room = (n, p, st) ∧ (n ≤ S (length o))%nat ∧ o = p ++ o'
    ∧ ((st = StStreamEnd ∧ n = S (length o) ∧ o' = [])
       ∨ (st ≠ StStreamEnd ∧ n = length p ∧ (input ≠ [] → 0 < n)%nat)).
Proof.
  induction o as [|b o IH]; intros input rest room Hno Hroom Hpre.
  - destruct input as [|c input]; [by exists 0%nat, [], [], StOk; split_and!; [|lia| |right]|].
    apply prefix_cons_inv_1 in Hpre as ->. cbn. exists 1%nat, [], [], StStreamEnd.
    split_and!; [done|lia|done|by left].
  - apply not_elem_of_cons in Hno as [Hb Hno].
    destruct input as [|c input]; [by exists 0%nat, [], (b :: o), StOk; split_and!; [|lia| |right]|].
    pose proof (prefix_cons_inv_1 _ _ _ _ Hpre) as ->. apply prefix_cons_inv_2 in Hpre.
    destruct room as [|room]; [cbn in Hroom; lia|].
    destruct (IH input rest room Hno ltac:(cbn in Hroom; lia) Hpre) as (n & p & o' & st & E & Hn & -> & Hst).
    cbn [toy_inflate]. rewrite bool_decide_false by done. rewrite E.
    exists (S n), (b :: p), o', st. split_and!; [done|cbn; lia|done|]. cbn [length].
    destruct Hst as [(-> & -> & ->)|(Hst & -> & _)]; [by left|right]. split_and!; [done|done|lia].
Qed.

#[export] Instance toy_flate2_laws : Flate2Laws toy_flate2.
Proof.
  refine (Build_Flate2Laws toy_flate2
    (λ data z, (x00 ∉ data) ∧ z = data ++ [x00]) (λ _ z o, (x00 ∉ o) ∧ z = o ++ [x00]) _ _ _ _).
  - intros data z H. exact H.
  - intros s. exists (drop 3 s). symmetry. apply take_drop.
  - by intros [|b s].
  - intros d z o rest input room finish [Hno ->] Hroom Hpre Hin.
    destruct (toy_inflate_ok o input rest room Hno Hroom Hpre) as (n & p & o' & st & E & Hn & -> & Hst).
    exists d, n, p, o', st. cbn. rewrite E. rewrite length_app. cbn [length].
    split_and!; [done|lia|done|].
    destruct Hst as [(-> & -> & ->)|(Hst & -> & Hprog)]; [left; split_and!; [done|lia|done]|right].
    split_and!; [done| | |].
    + apply not_elem_of_app in Hno as [_ Hno]. done.
    + rewrite <- app_assoc. apply drop_app_length.
    + left. apply Hprog. intros ->. specialize (Hin eq_refl). by destruct p, o'.
Defined.
