(* ===== verification/PackPrefix.v ===== *)
(** * PackPrefix

    The search of a pack for the objects whose id starts with some digits ([Pack::prefix_matches]
    of [libbit/src/pack.rs]): it gives exactly these objects.  The digits are extended by zeros,
    the index is searched for the extended id, and the ids are scanned from where it would be. *)

From Stdlib Require Import ZArith Lia Sorted.
From Stdlib Require Import Strings.Byte.
From stdpp Require Import base tactics option list countable strings sorting gmap.
From S2P Require Import Prelude RustStd Data Io Hash BTree State PackIndex PackLookup Pack.

#[local] Open Scope Z_scope.

(** ** Ids as sequences of digits *)

Fixpoint zs_compare (a b : list Z) : comparison :=
  match a, b with
  | [], [] => Eq
  | [], _ :: _ => Lt
  | _ :: _, [] => Gt
  | x :: a, y :: b => then_with (Z.compare x y) (zs_compare a b)
  end.

Lemma nibbles_compare a b : zs_compare (nibbles a) (nibbles b) = bytes_compare a b.
Proof.
  revert b. induction a as [|x a IH]; intros [|y b]; try done; rewrite ?nibbles_cons; [done..|].
  cbn [zs_compare bytes_compare]. rewrite IH.
  pose proof (Z.div_mod (u8 x) 16 ltac:(lia)). pose proof (Z.mod_pos_bound (u8 x) 16 ltac:(lia)).
  pose proof (Z.div_mod (u8 y) 16 ltac:(lia)). pose proof (Z.mod_pos_bound (u8 y) 16 ltac:(lia)).
  destruct (Z.compare_spec (u8 x / 16) (u8 y / 16)), (Z.compare_spec (u8 x mod 16) (u8 y mod 16)),
    (Z.compare_spec (u8 x) (u8 y)); cbn; try done; lia.
Qed.

(** Sequences between a prefix that is filled up with zeros and one that starts with the prefix
    start with it. *)
Lemma zs_prefix_convex v z x y :
  Forall (λ d, d = 0) z → zs_compare x (v ++ z) ≠ Lt → zs_compare x y ≠ Gt → v `prefix_of` y → v `prefix_of` x.
Proof.
  intros Hz. revert x y. induction v as [|d v IH]; intros x y Hlo Hhi Hp; [apply prefix_nil|].
  destruct y as [|c y]; [by apply prefix_nil_not in Hp|]. pose proof (prefix_cons_inv_1 _ _ _ _ Hp) as <-.
  apply prefix_cons_inv_2 in Hp. destruct x as [|b x]; [done|]. cbn in Hlo, Hhi.
  destruct (Z.compare_spec b d) as [->|?|?]; cbn in Hlo, Hhi; [|done..].
  apply prefix_cons. by eapply IH.
Qed.

(** The extended id is below every id that starts with the digits. *)
Lemma zs_prefix_low v z y :
  Forall (λ d, d = 0) z → Forall (λ d, 0 ≤ d) y → length y = length (v ++ z) → v `prefix_of` y →
  zs_compare y (v ++ z) ≠ Lt.
Proof.
  intros Hz. revert y. induction v as [|d v IH]; intros y Hy Hl Hp.
  - cbn [app] in *. clear Hp. revert y Hy Hl. induction Hz as [|d z -> _ IHz]; intros [|c y] Hy Hl; try done.
    apply Forall_cons in Hy as [Hc Hy]. cbn. destruct (Z.compare_spec c 0); cbn; [|lia|done].
    apply IHz; [done|]. by injection Hl.
  - destruct y as [|c y]; [done|]. pose proof (prefix_cons_inv_1 _ _ _ _ Hp) as <-.
    apply prefix_cons_inv_2 in Hp. apply Forall_cons in Hy as [_ Hy]. cbn. rewrite Z.compare_refl.
    apply IH; [done| |done]. by injection Hl.
Qed.

Section prefix.
Context `{Hex}.
Context (s : bytes) (prefix : PartialOid) (Hp : partial_oid_from_str s = Ok prefix).

(** The id starts with the digits, in either case. *)
Definition starts_with_digits (oid : Oid) : Prop := (nibble <$> s) `prefix_of` nibbles oid.

#[export] Instance starts_with_digits_dec oid : Decision (starts_with_digits oid).
Proof. unfold starts_with_digits. apply _. Defined.

Definition extended : Oid := pack_nibbles ((nibble <$> s) ++ replicate (40 - length s) 0).

Lemma nibbles_extended : nibbles extended = (nibble <$> s) ++ replicate (40 - length s) 0.
Proof.
  pose proof Hp as (Hl & _ & _)%partial_oid_from_str_ok. unfold extended. apply nibbles_of_pack.
  - apply Forall_app. split; [apply Forall_fmap, Forall_true; intros; apply nibble_wf_nibble|].
    apply Forall_replicate. unfold nibble_wf. lia.
  - rewrite length_app, length_fmap, length_replicate.
    by replace (length s + (40 - length s))%nat with 40%nat by lia.
Qed.

Lemma digits_low oid : oid_wf oid → starts_with_digits oid → ¬ oid_lt oid extended.
Proof.
  intros Hw Hs. unfold oid_lt, oid_cmp. rewrite <- nibbles_compare, nibbles_extended.
  apply zs_prefix_low; [by apply Forall_replicate| | |done].
  - eapply Forall_impl; [apply nibbles_wf|]. unfold nibble_wf. lia.
  - pose proof Hp as (Hl & _ & _)%partial_oid_from_str_ok.
    rewrite length_nibbles, Hw, length_app, length_fmap, length_replicate. lia.
Qed.

Lemma digits_convex a b :
  ¬ oid_lt a extended → oid_lt a b → starts_with_digits b → starts_with_digits a.
Proof.
  unfold oid_lt, oid_cmp. rewrite <- !nibbles_compare, nibbles_extended. intros Hlo Hab.
  apply zs_prefix_convex with (z := replicate (40 - length s) 0); [by apply Forall_replicate|done|by rewrite Hab].
Qed.

(** In sorted ids, those that start with the digits are together, from where the extended id would
    be. *)
Fixpoint take_digits (l : list Oid) : list Oid :=
  match l with
  | [] => []
  | oid :: l => if decide (starts_with_digits oid) then oid :: take_digits l else []
  end.

Lemma take_digits_filter l :
  StronglySorted oid_lt l → Forall (λ oid, ¬ oid_lt oid extended) l → take_digits l = filter starts_with_digits l.
Proof.
  induction 1 as [|a l Hs IH Ha]; intros Hlo; [done|]. apply Forall_cons in Hlo as [Hlo1 Hlo].
  cbn [take_digits]. rewrite filter_cons. case_decide as Hd; [by rewrite IH|].
  symmetry. apply filter_none. intros b Hb Hb'. apply Hd. eapply digits_convex; [done| |done].
  rewrite Forall_forall in Ha. by apply Ha.
Qed.

Lemma filter_from_insertion l :
  StronglySorted oid_lt l → Forall oid_wf l →
  take_digits (drop (insertion_point l extended) l) = filter starts_with_digits l.
Proof.
  intros Hs Hw. set (k := insertion_point l extended). rewrite take_digits_filter.
  - rewrite <- (take_drop k l) at 2. rewrite filter_app, (filter_none _ (take k l)); [done|].
    intros x Hx Hd. apply list_elem_of_lookup in Hx as [i Hi]. apply lookup_take_Some in Hi as [Hi Hk].
    apply (insertion_point_lookup l extended i x Hs Hi) in Hk. eapply digits_low; [|done|done].
    rewrite Forall_forall in Hw. apply Hw. by eapply list_elem_of_lookup_2.
  - rewrite <- (take_drop k l) in Hs. by apply StronglySorted_app in Hs as (_ & _ & ?).
  - apply Forall_forall. intros x Hx Hlt. apply list_elem_of_lookup in Hx as [i Hi]. rewrite lookup_drop in Hi.
    apply (insertion_point_lookup l extended _ x Hs Hi) in Hlt. unfold k in Hlt. lia.
Qed.
End prefix.

(** ** The search *)

Section search.
Context `{Hex} {F : Flate2}.
Context (s : bytes) (prefix : PartialOid) (Hp : partial_oid_from_str s = Ok prefix).
Context (idx : PackIndex) (Hwf : pack_index_wf idx).

(** Some object of the pack is in the bucket where [oid] is searched. *)
Definition occupied (oid : Oid) : Prop := ∃ x, x ∈ oids idx ∧ oid0 x = oid0 oid.

(** An absent id is reported with its place in the index; unless its bucket is empty, the caches stay
    right. *)
Lemma find_absent r oid :
  reader_inv r idx → (oid ∉ oids idx) →
  ∃ r', find_oid_crc_offset oid r
    = (Err (AnyhowBit (ObjectNotFoundInPackIndex oid (Z.of_nat (insertion_point (oids idx) oid)))), r')
    ∧ reader_of r' idx ∧ (occupied oid → reader_inv r' idx).
Proof.
  intros (Hr & Hc & Ho) Hn. pose proof Hwf as (_ & _ & Hs & _). unfold find_oid_crc_offset. rewrite st_get_bind.
  destruct (crc_offset_cache r !! oid) as [e|] eqn:E.
  { destruct (Ho _ _ E) as (i & Hi & _). exfalso. by eapply Hn, list_elem_of_lookup_2. }
  assert (∃ r', find_oid_index oid r
    = (Err (AnyhowBit (ObjectNotFoundInPackIndex oid (Z.of_nat (insertion_point (oids idx) oid)))), r')
    ∧ reader_of r' idx ∧ (occupied oid → reader_inv r' idx)) as (r' & Hf & Hr').
  { assert (list_find (λ x, x = oid) (oids idx) = None) as Hnone by (apply list_find_None, Forall_forall; by intros x Hx ->).
    pose proof (search_bucket (oids idx) oid Hs) as Hsearch. rewrite Hnone in Hsearch.
    destruct (oid_cache r !! Z.of_nat (count_below (oids idx) (oid0 oid))) as [l|] eqn:El.
    - rewrite (find_oid_index_cached r idx oid l) by done. exists r. split; [|done]. f_equal.
      destruct (Hc _ _ El) as (oid' & Hin & Hlow & ->). apply Nat2Z.inj in Hlow.
      destruct (decide (oid0 oid = oid0 oid')) as [<-|Hne]; [done|].
      assert (count_below (oids idx) (oid0 oid') < count_below (oids idx) (S (oid0 oid')))%nat as Hpos.
      { rewrite count_below_S. destruct (filter _ _) eqn:Ef; [|cbn; lia].
        assert (oid' ∈ filter (λ oid, oid0 oid = oid0 oid') (oids idx)) as Hin' by by apply list_elem_of_filter.
        rewrite Ef in Hin'. by apply elem_of_nil in Hin'. }
      assert (oid0 oid < oid0 oid')%nat as Hlt.
      { destruct (decide (oid0 oid < oid0 oid')%nat); [done|].
        pose proof (count_below_mono (oids idx) (S (oid0 oid')) (oid0 oid) ltac:(lia)). lia. }
      assert (bucket (oids idx) (oid0 oid) = []) as Hempty.
      { apply nil_length_inv. unfold bucket. pose proof (count_below_S (oids idx) (oid0 oid)).
        pose proof (count_below_mono (oids idx) (S (oid0 oid)) (oid0 oid') ltac:(lia)). lia. }
      unfold search.
      pose proof (binary_search_spec (bucket (oids idx) (oid0 oid')) oid (sorted_filter _ _ _ Hs)) as Hb.
      assert (insertion_point (bucket (oids idx) (oid0 oid')) oid = 0%nat) as Hip.
      { unfold insertion_point. apply length_zero_iff_nil, elem_of_nil_inv. intros x Hx.
        apply list_elem_of_filter in Hx as [Hx1 Hx2]. apply list_elem_of_filter in Hx2 as [Hx2 _].
        apply oid_lt_oid0 in Hx1. lia. }
      destruct (binary_search _ _) as [i|i].
      + exfalso. apply list_elem_of_lookup_2, list_elem_of_filter in Hb as [_ Hb]. done.
      + destruct Hb as [-> _]. rewrite Hip, (insertion_point_bucket (oids idx) oid), Hempty. do 3 f_equal.
        change (insertion_point [] oid) with 0%nat. lia.
    - rewrite (find_oid_index_uncached r idx oid) by done. rewrite Hsearch. eexists. split; [done|].
      split; [done|]. intros (x & Hx & Ex). split; [done|]. split; [|done]. cbn [oid_cache set_oid_cache].
      intros low l [[<- <-]|[_ Hl]]%lookup_insert_Some; [|by apply Hc]. exists x. by rewrite Ex. }
  exists r'. split; [|done]. unfold find_oid_crc_offset_inner.
  erewrite st_bind_err; [done|]. by apply st_bind_err.
Qed.

Lemma read_oid_at_ok r i oid :
  reader_of r idx → oids idx !! i = Some oid → read_oid_at (Z.of_nat i) r = (Ok oid, r).
Proof.
  intros (_ & Hn & tail & Hfile) Hi. pose proof (lookup_lt_Some _ _ _ Hi) as Hlt.
  pose proof (idx_file_split idx tail Hwf) as (pre & Hpre & E).
  destruct Hwf as (_ & Hlen & _ & Hos & _). unfold read_oid_at, read_from. f_equal.
  rewrite Hfile, E, Hn, offset_of_small by lia. eapply read_at_elem; [by apply oids_layer|done|]. lia.
Qed.

Lemma collect_matches_ok r : reader_of r idx → ∀ fuel i, (fuel = length (oids idx) - i)%nat →
  collect_matches fuel prefix (Z.of_nat i) r = (Ok (take_digits s (drop i (oids idx))), r).
Proof.
  intros Hr. pose proof Hwf as (_ & _ & _ & Hos & _). induction fuel as [|fuel IH]; intros i Hf; cbn [collect_matches].
  - by rewrite drop_ge by lia.
  - rewrite st_get_bind. destruct Hr as (Hr1 & Hn & Hr2). rewrite Hn.
    destruct (Z.leb_spec (Z.of_nat (length (oids idx))) (Z.of_nat i)); [lia|].
    destruct (lookup_lt_is_Some_2 (oids idx) i ltac:(lia)) as [oid Hi].
    rewrite (st_bind_ok _ _ _ _ _ (read_oid_at_ok r i oid (conj Hr1 (conj Hn Hr2)) Hi)).
    assert (oid_wf oid) as Hw by (rewrite Forall_forall in Hos; by eapply Hos, list_elem_of_lookup_2).
    rewrite (has_prefix_correct oid s prefix Hw Hp), st_lift_bind, (drop_S _ _ _ Hi). cbn [take_digits].
    fold (starts_with_digits s oid). case_bool_decide as Hd; [rewrite decide_True by done|by rewrite decide_False by done].
    replace (Z.of_nat i + 1) with (Z.of_nat (S i)) by lia.
    by rewrite (st_bind_ok _ _ _ _ _ (IH (S i) ltac:(lia))).
Qed.

Lemma prefix_matches_ok file p :
  small_offsets idx → pack_inv file idx p →
  ∃ p', prefix_matches prefix p
        = (Ok (if decide (extended s ∈ oids idx) then [extended s]
               else filter (starts_with_digits s) (oids idx)), p')
    ∧ (occupied (extended s) → pack_inv file idx p').
Proof.
  intros Hsm (Hfile & Hr & Hobjs). pose proof Hwf as (_ & _ & Hs & Hos & _).
  unfold prefix_matches. rewrite (partial_into_oid_ok s prefix Hp), st_lift_bind. fold (extended s).
  case_decide as Hx.
  - destruct (find_oid_crc_offset_present (idx_reader p) idx (extended s) Hwf Hsm Hr Hx) as (r' & [c o] & Hf & Hr' & _).
    eexists. unfold st_match, obj_offset, obj_crc_offset, mbind, st_bind, st_zoom. rewrite Hf.
    split; [reflexivity|]. by intros _.
  - destruct (find_absent (idx_reader p) (extended s) Hr Hx) as (r' & Hf & Hr' & Hkeep).
    assert (obj_offset (extended s) p = (Err (AnyhowBit (ObjectNotFoundInPackIndex (extended s)
      (Z.of_nat (insertion_point (oids idx) (extended s))))), set_idx_reader p r')) as Ho.
    { unfold obj_offset, obj_crc_offset. apply st_bind_err. unfold st_zoom. by rewrite Hf. }
    unfold st_match. rewrite Ho. rewrite try_into_pack_index_err_spec, st_lift_bind. cbn beta iota. rewrite st_get_bind.
    unfold st_zoom. cbn [idx_reader set_idx_reader]. pose proof Hr' as (_ & Hn & _). rewrite Hn.
    rewrite (collect_matches_ok r' Hr') by lia. eexists. split.
    + do 2 f_equal. by apply (filter_from_insertion s prefix Hp).
    + intros Hocc. split_and!; [done|by apply Hkeep|done].
Qed.

(** A failed lookup leaves the caches right too, unless the bucket of the id is empty. *)
Lemma failed_lookup_keeps file p oid :
  pack_inv file idx p → (oid ∉ oids idx) → occupied oid →
  ∃ e p', obj_offset oid p = (Err e, p') ∧ pack_inv file idx p'.
Proof.
  intros (Hfile & Hr & Hobjs) Hn Hocc. destruct (find_absent (idx_reader p) oid Hr Hn) as (r' & Hf & _ & Hkeep).
  eexists _, (set_idx_reader p r'). split.
  - unfold obj_offset, obj_crc_offset. apply st_bind_err. unfold st_zoom. by rewrite Hf.
  - split_and!; [done|by apply Hkeep|done].
Qed.

(** C19: The search of a pack for a partial id gives exactly the objects whose id starts with its
    digits, in order; only when an id is the digits followed by zeros, it is the one that is given.  It
    needs that the cache of the index holds only buckets with objects in them, as a new reader does.  A search
    for digits whose first byte (with a zero for a missing digit) some object has leaves that so, as do
    a successful lookup and a failed one for an id with such a first byte.  (After a search in an empty
    bucket the cache can be wrong, as [pack_lookup_stale_bucket] shows.) *)
Theorem prefix_matches_correct file p :
  small_offsets idx → pack_inv file idx p →
  ∃ p', prefix_matches prefix p
        = (Ok (if decide (extended s ∈ oids idx) then [extended s]
               else filter (starts_with_digits s) (oids idx)), p')
    ∧ (occupied (extended s) → pack_inv file idx p').
Proof. apply prefix_matches_ok. Qed.
End search.

(** ** Witnesses *)

(** A pack with an empty packfile and the sample index. *)
Definition sample_pack : Pack :=
  mk_Pack [] (mk_PackIndexReader (pack_index_bytes sample_pack_index ++ []) (fanout sample_pack_index) ∅ ∅ 3) ∅.

Lemma sample_pack_inv : pack_inv [] sample_pack_index sample_pack.
Proof. split; [done|]. split; [apply fresh_reader_inv|]. intros off raw. cbn. by rewrite lookup_empty. Qed.

(** Two searches in a row: the first one misses, in a bucket that is not empty. *)
Lemma prefix_matches_correct_witness :
  ∃ p1 p2, prefix_matches (mk_PartialOid (bs "0506" ++ replicate 36 x30) 4) sample_pack = (Ok [], p1)
    ∧ prefix_matches (mk_PartialOid (bs "05050" ++ replicate 35 x30) 5) p1
      = (Ok [sample_pack_oid x05; replicate 19 x05 ++ [x07]], p2).
Proof.
  assert (small_offsets sample_pack_index) as Hs by (repeat constructor; vm_decide).
  destruct (prefix_matches_correct (bs "0506") (mk_PartialOid (bs "0506" ++ replicate 36 x30) 4) eq_refl
    sample_pack_index sample_pack_index_wf [] sample_pack Hs sample_pack_inv) as (p1 & E1 & H1).
  destruct (prefix_matches_correct (bs "05050") (mk_PartialOid (bs "05050" ++ replicate 35 x30) 5) eq_refl
    sample_pack_index sample_pack_index_wf [] p1 Hs) as (p2 & E2 & _).
  { apply H1. exists (sample_pack_oid x05). split; vm_decide. }
  exists p1, p2. split; [exact E1|exact E2].
Defined.
