(* ===== verification/PackIndexer.v ===== *)
(** * PackIndexer

    [libbit/src/pack/indexer.rs]: [PackIndexer] reads a packfile once and builds its
    index; and the theorem that every object of the packfile can be read back
    through that index. *)

From Stdlib Require Import ZArith Lia Sorted.
From Stdlib Require Import Strings.Byte.
From stdpp Require Import base tactics option list countable strings sorting gmap.
From S2P Require Import Prelude RustStd Data Io Varint Hash BTree Obj Delta State PackIndex PackLookup Pack.

#[local] Open Scope Z_scope.

Record PackIndexer := mk_PackIndexer {
  ix_reader : HashReader;
  ix_objectc : Z;
  raw_objects : gmap Z BitPackObjRaw;
  oid_to_offset : gmap (list byte) Z;
  ix_sorted : list (Oid * (Z * Z));
}.

Section indexer.
Context {F : Flate2}.
Variable sha1 : bytes → Oid.
Variable crc32 : bytes → Z.

(** [with_crc32]: the crc of the bytes that the closure consumes. *)
Definition with_crc32 {A} (m : reader A) : reader (Z * A) := λ s,
  '(a, rest) ← m s;
  Ok ((crc32 (take (length s - length rest) s), a), rest).

Definition read_pack_obj_with_crc : reader (Z * BitPackObjRawDeltified) := with_crc32 read_pack_obj.

(** [PackIndexer::new]. *)
Definition indexer_new (reader : bytes) : BitResult PackIndexer :=
  '(objectc, r) ← through_hash packfile_parse_header (hash_reader_new reader);
  Ok (mk_PackIndexer r objectc ∅ ∅ []).

(** [expand_deltas]; indexing a map panics when the key is missing. *)
Definition expand_deltas (ix : PackIndexer) (obj : BitPackObjRawDeltified) (base_offset : Z)
  : BitResult BitPackObjRaw :=
  let expand_at offset delta :=
    base ← unwrap (raw_objects ix !! offset);
    expand_with_delta_bytes base delta in
  match obj with
  | Raw raw => Ok raw
  | Ofs offset delta => expand_at (wrap 64 (base_offset - offset)) delta
  | Ref base_oid delta =>
      offset ← unwrap (oid_to_offset ix !! base_oid);
      expand_at offset delta
  end.

(** The body of the loop of [index_pack]. *)
Definition index_object (ix : PackIndexer) : BitResult PackIndexer :=
  let offset := hr_bytes_hashed (ix_reader ix) in
  '((crc, deltified), r) ← through_hash read_pack_obj_with_crc (ix_reader ix);
  raw_pack_obj ← expand_deltas ix deltified offset;
  let oid := raw_oid sha1 raw_pack_obj in
  Ok (mk_PackIndexer r (ix_objectc ix)
        (<[offset := raw_pack_obj]> (raw_objects ix))
        (<[oid := offset]> (oid_to_offset ix))
        (bt_insert oid_cmp oid (offset, crc) (ix_sorted ix))).

Fixpoint index_objects (n : nat) (ix : PackIndexer) : BitResult PackIndexer :=
  match n with
  | O => Ok ix
  | S n => ix ← index_object ix; index_objects n ix
  end.

Definition index_pack (ix : PackIndexer) : BitResult PackIndex :=
  ix ← index_objects (Z.to_nat (ix_objectc ix)) ix;
  let '(pack_hash, r) := finalize_reset sha1 (ix_reader ix) in
  '(expected_hash, r) ← through_hash read_oid r;
  '(eof, _) ← through_hash is_at_eof r;
  _ ← assert_that eof;
  _ ← ensure (bool_decide (expected_hash = pack_hash)) Anyhow;
  offsets ← collect (λ '(_, (offset, _)),
                       _ ← assert_that (offset <? MAX_OFFSET); Ok (wrap 32 offset)) (ix_sorted ix);
  let oids := (ix_sorted ix).*1 in
  let crcs := (ix_sorted ix).*2.*2 in
  Ok (mk_PackIndex (build_fanout oids) oids crcs offsets pack_hash).

(** [write_pack_index], up to the file that holds the index. *)
Definition write_pack_index (pack : bytes) : BitResult (PackIndex * bytes) :=
  indexer ← indexer_new pack;
  pack_index ← index_pack indexer;
  w ← pack_index_serialize sha1 pack_index;
  Ok (pack_index, w).
End indexer.

(** ** Specification *)

(** An object of a packfile: its bytes in the file, what they decode to and the
    object after its deltas are applied. *)
Record PackItem := mk_PackItem {
  item_bytes : bytes;
  item_obj : BitPackObjRawDeltified;
  item_raw : BitPackObjRaw;
}.

Section items.
Context {F : Flate2} {FL : Flate2Laws F}.
Variable sha1 : bytes → Oid.
Variable crc32 : bytes → Z.

(** [obj] at [off] expands to [raw] with the help of the objects before it. *)
Definition expands (prev : list (Z * PackItem)) (off : Z) (obj : BitPackObjRawDeltified)
  (raw : BitPackObjRaw) : Prop :=
  match obj with
  | Raw r => r = raw
  | Ofs o delta =>
      ∃ off' it, (off', it) ∈ prev ∧ o = off - off'
        ∧ expand_with_delta_bytes (item_raw it) delta = Ok raw
  | Ref oid delta =>
      ∃ off' it, (off', it) ∈ prev ∧ raw_oid sha1 (item_raw it) = oid
        ∧ expand_with_delta_bytes (item_raw it) delta = Ok raw
  end.

(** The objects of a packfile with their offsets, and the offset behind them: every
    object is encoded, has a base before it if it is a delta, and occurs once. *)
Inductive pack_items : list (Z * PackItem) → Z → Prop :=
| items_nil : pack_items [] 12
| items_snoc prev off w obj raw :
    pack_items prev off → obj_encodes obj w → expands prev off obj raw →
    (∀ off' it, (off', it) ∈ prev → raw_oid sha1 (item_raw it) ≠ raw_oid sha1 raw) →
    pack_items (prev ++ [(off, mk_PackItem w obj raw)]) (off + Z.of_nat (length w)).

Definition pack_body (items : list (Z * PackItem)) : bytes :=
  PACK_SIGNATURE ++ write_u32 2 ++ write_u32 (Z.of_nat (length items))
  ++ (items.*2 ≫= item_bytes).

(** The packfile that holds the objects. *)
Definition pack_file (items : list (Z * PackItem)) : bytes :=
  pack_body items ++ sha1 (pack_body items).

(** ** Lemmas *)

Lemma obj_encodes_length obj w : obj_encodes obj w → (1 ≤ length w)%nat.
Proof.
  assert (∀ t n z, 1 ≤ length (size_encode_with 3 t n ++ z))%nat as H.
  { intros t n z. rewrite length_app. unfold size_encode_with. case_match; cbn; lia. }
  destruct 1; apply H.
Qed.

Lemma pack_items_end items off :
  pack_items items off → off = 12 + Z.of_nat (length (items.*2 ≫= item_bytes)).
Proof.
  induction 1 as [|prev off w obj raw _ IH _ _ _]; [done|].
  rewrite fmap_app, bind_app, length_app. cbn. rewrite app_nil_r. lia.
Qed.

Lemma pack_items_lookup items off k o it :
  pack_items items off → items !! k = Some (o, it) →
  pack_items (take k items) o ∧ obj_encodes (item_obj it) (item_bytes it)
  ∧ expands (take k items) o (item_obj it) (item_raw it).
Proof.
  induction 1 as [|prev off w obj raw Hp IH Hw He Hn]; intros Hk; [done|].
  apply lookup_app_Some in Hk as [Hk|[Hlen Hk]].
  - rewrite take_app_le by (apply lookup_lt_Some in Hk; lia). by apply IH.
  - apply list_lookup_singleton_Some in Hk as [Hk [= <- <-]].
    assert (k = length prev) as -> by lia. rewrite take_app_length. done.
Qed.

Lemma length_pack_header n :
  length (PACK_SIGNATURE ++ write_u32 2 ++ write_u32 n) = 12%nat.
Proof. by rewrite !length_app. Qed.

Lemma items_bytes_split (items : list (Z * PackItem)) k o it :
  items !! k = Some (o, it) →
  items.*2 ≫= item_bytes
  = ((take k items).*2 ≫= item_bytes) ++ item_bytes it ++ ((drop (S k) items).*2 ≫= item_bytes).
Proof.
  intros Hk. rewrite <- (take_drop_middle items k (o, it) Hk) at 1. by rewrite fmap_app, bind_app.
Qed.

Lemma read_item items off k o it rest :
  pack_items items off → items !! k = Some (o, it) →
  read_obj_from_offset_raw (pack_body items ++ rest) o = Ok (item_obj it).
Proof.
  intros Hp Hk. destruct (pack_items_lookup items off k o it Hp Hk) as (Hpre & Hw & _).
  apply pack_items_end in Hpre. unfold read_obj_from_offset_raw, read_at, pack_body.
  rewrite (items_bytes_split items k o it Hk), (app_assoc (write_u32 2)), (app_assoc PACK_SIGNATURE).
  set (hdr := PACK_SIGNATURE ++ _). assert (length hdr = 12%nat) as Hhdr by apply length_pack_header.
  set (pre := (take k items).*2 ≫= item_bytes) in *.
  replace (Z.to_nat o) with (length (hdr ++ pre)) by (rewrite length_app; lia).
  set (post := _ ≫= item_bytes).
  replace ((hdr ++ pre ++ item_bytes it ++ post) ++ rest)
    with ((hdr ++ pre) ++ item_bytes it ++ post ++ rest) by by rewrite <- !app_assoc.
  by rewrite drop_app_length, (reads_pack_obj _ _ Hw).
Qed.

Lemma item_offset_bounds items off k o it :
  pack_items items off → items !! k = Some (o, it) → 12 ≤ o < off.
Proof.
  intros Hp Hk. destruct (pack_items_lookup items off k o it Hp Hk) as (Hpre & Hw & _).
  apply pack_items_end in Hpre. apply pack_items_end in Hp. apply obj_encodes_length in Hw.
  rewrite (items_bytes_split items k o it Hk), !length_app in Hp. lia.
Qed.

(** Every object is where the index says, behind a chain of objects before it. *)
Lemma items_obj_at items off idx rest :
  pack_items items off → off < 2 ^ 64 →
  (∀ o it, (o, it) ∈ items → ∃ crc, index_entry_of idx (raw_oid sha1 (item_raw it)) (crc, o)) →
  ∀ n k o it, (k < n)%nat → items !! k = Some (o, it) →
  obj_at (pack_body items ++ rest) idx n o (item_raw it).
Proof.
  intros Hp Hoff Hidx. induction n as [|n IH]; intros k o it Hk Hit; [lia|].
  pose proof (read_item items off k o it rest Hp Hit) as Hr.
  pose proof (item_offset_bounds items off k o it Hp Hit) as Ho.
  destruct (pack_items_lookup items off k o it Hp Hit) as (_ & _ & He).
  assert (∀ x, x ∈ take k items → ∃ j, (j < n)%nat ∧ items !! j = Some x) as Htake.
  { intros x [j Hj]%list_elem_of_lookup. apply lookup_take_Some in Hj as [? ?].
    exists j. split; [lia|done]. }
  destruct (item_obj it) as [raw|o' delta|oid delta]; cbn in He.
  - subst. by apply at_raw.
  - destruct He as (off' & it' & (j & Hj & Hjt)%Htake & -> & He).
    eapply at_ofs; [exact Hr| |exact He].
    replace (o - (o - off')) with off' by lia. pose proof (item_offset_bounds items off j off' it' Hp Hjt).
    rewrite wrap_fits by (unfold fits; lia). by eapply IH.
  - destruct He as (off' & it' & (j & Hj & Hjt)%Htake & <- & He).
    destruct (Hidx off' it') as [crc Hc]; [by eapply list_elem_of_lookup_2|].
    eapply at_ref; [exact Hr|exact Hc| |exact He]. by eapply IH.
Qed.

#[local] Instance oid_ord_laws : OrdLaws oid_cmp := bytes_ord_laws.

(** What the indexer knows after the objects [items], with [rest] still to read. *)
Definition ix_inv (ix : PackIndexer) (objectc : Z) (hdr : bytes) (items : list (Z * PackItem))
  (off : Z) (rest : bytes) : Prop :=
  ix_reader ix = mk_HashReader rest (hdr ++ (items.*2 ≫= item_bytes)) off
  ∧ ix_objectc ix = objectc
  ∧ (∀ o it, (o, it) ∈ items → raw_objects ix !! o = Some (item_raw it))
  ∧ (∀ o it, (o, it) ∈ items → oid_to_offset ix !! raw_oid sha1 (item_raw it) = Some o)
  ∧ bt_sorted oid_cmp (ix_sorted ix)
  ∧ (∀ kv, kv ∈ ix_sorted ix ↔
       ∃ o it, (o, it) ∈ items ∧ kv = (raw_oid sha1 (item_raw it), (o, crc32 (item_bytes it))))
  ∧ (length (ix_sorted ix) ≤ length items)%nat.

Lemma reads_with_crc obj w :
  obj_encodes obj w → reads (read_pack_obj_with_crc crc32) w (crc32 w, obj).
Proof.
  intros Hw rest. unfold read_pack_obj_with_crc, with_crc32.
  rewrite (reads_pack_obj _ _ Hw). cbn [mbind outcome_bind].
  by rewrite length_app, Nat.add_sub, take_app_length.
Qed.

Lemma expand_deltas_ok ix objectc hdr items off rest obj raw :
  ix_inv ix objectc hdr items off rest → pack_items items off → off < 2 ^ 64 →
  expands items off obj raw → expand_deltas ix obj off = Ok raw.
Proof.
  intros (_ & _ & Hraw & Hoid & _) Hp Hoff He. destruct obj as [r|o delta|oid delta]; cbn in He |- *.
  - by subst.
  - destruct He as (off' & it & Hin & -> & He). replace (off - (off - off')) with off' by lia.
    pose proof Hin as [k Hk]%list_elem_of_lookup.
    pose proof (item_offset_bounds items off k off' it Hp Hk).
    rewrite wrap_fits by (unfold fits; lia). by rewrite (Hraw off' it Hin).
  - destruct He as (off' & it & Hin & <- & He). by rewrite (Hoid off' it Hin); cbn; rewrite (Hraw off' it Hin).
Qed.

Lemma length_bt_insert {V} (k : Oid) (v : V) m :
  (length (bt_insert oid_cmp k v m) ≤ S (length m))%nat.
Proof. induction m as [|[k' v'] m IH]; cbn; [lia|]. destruct (oid_cmp k k'); cbn; lia. Qed.

Lemma index_object_ok ix objectc hdr items off w obj raw rest :
  ix_inv ix objectc hdr items off (w ++ rest) → pack_items items off → off < 2 ^ 64 →
  obj_encodes obj w → expands items off obj raw →
  (∀ off' it, (off', it) ∈ items → raw_oid sha1 (item_raw it) ≠ raw_oid sha1 raw) →
  ∃ ix', index_object sha1 crc32 ix = Ok ix'
    ∧ ix_inv ix' objectc hdr (items ++ [(off, mk_PackItem w obj raw)])
        (off + Z.of_nat (length w)) rest.
Proof.
  intros Hinv Hp Hoff Hw He Hfresh. pose proof Hinv as (Hrd & Hc & Hraw & Hoid & Hs & Hel & Hlen).
  unfold index_object. rewrite Hrd. cbn [hr_bytes_hashed].
  erewrite through_hash_reads; [|by apply reads_with_crc]. cbn [mbind outcome_bind].
  rewrite (expand_deltas_ok ix objectc hdr items off (w ++ rest) obj raw) by done.
  cbn [mbind outcome_bind]. eexists. split; [reflexivity|].
  unfold ix_inv. cbn [ix_reader ix_objectc raw_objects oid_to_offset ix_sorted].
  split_and!.
  - rewrite fmap_app, bind_app. cbn. by rewrite app_nil_r, app_assoc.
  - done.
  - intros o it [Hin|[= -> ->]%list_elem_of_singleton]%elem_of_app; [|apply lookup_insert_eq].
    pose proof Hin as [k Hk]%list_elem_of_lookup.
    pose proof (item_offset_bounds items off k o it Hp Hk).
    rewrite lookup_insert_ne by lia. by apply Hraw.
  - intros o it [Hin|[= -> ->]%list_elem_of_singleton]%elem_of_app; [|apply lookup_insert_eq].
    rewrite lookup_insert_ne by (apply not_eq_sym, (Hfresh o it Hin)). by apply Hoid.
  - by apply (bt_sorted_insert oid_cmp).
  - intros kv. rewrite (elem_of_bt_insert oid_cmp) by done. rewrite Hel.
    setoid_rewrite elem_of_app. setoid_rewrite list_elem_of_singleton. split.
    + intros [->|[(o & it & Hin & ->) _]]; [|by exists o, it; eauto].
      exists off, (mk_PackItem w obj raw). eauto.
    + intros (o & it & [Hin|[= -> ->]] & ->); [right|by left].
      split; [by exists o, it|]. apply (Hfresh o it Hin).
  - rewrite length_app. cbn. pose proof (length_bt_insert (raw_oid sha1 raw) (off, crc32 w) (ix_sorted ix)).
    lia.
Qed.

Lemma index_objects_snoc n ix :
  index_objects sha1 crc32 (S n) ix = ix ← index_objects sha1 crc32 n ix; index_object sha1 crc32 ix.
Proof.
  revert ix. induction n as [|n IH]; intros ix; cbn [index_objects] in *.
  - cbn. by destruct (index_object sha1 crc32 ix).
  - destruct (index_object sha1 crc32 ix) as [ix1| |]; cbn [mbind outcome_bind] in *; [|done..].
    apply IH.
Qed.

Lemma index_objects_ok items off objectc hdr :
  pack_items items off → off < 2 ^ 64 → ∀ ix rest,
  ix_inv ix objectc hdr [] 12 ((items.*2 ≫= item_bytes) ++ rest) →
  ∃ ix', index_objects sha1 crc32 (length items) ix = Ok ix' ∧ ix_inv ix' objectc hdr items off rest.
Proof.
  induction 1 as [|prev off w obj raw Hp IH Hw He Hf]; intros Hoff ix rest Hinv.
  - by exists ix.
  - rewrite fmap_app, bind_app in Hinv. cbn in Hinv. rewrite app_nil_r, <- app_assoc in Hinv.
    destruct (IH ltac:(lia) ix (w ++ rest) Hinv) as (ix1 & H1 & Hinv1).
    rewrite length_app, Nat.add_1_r, index_objects_snoc, H1. cbn [mbind outcome_bind].
    apply index_object_ok; [done|done|lia|done..].
Qed.

Lemma keys_sorted {V} (m : list (Oid * V)) :
  bt_sorted oid_cmp m → StronglySorted oid_lt m.*1.
Proof.
  induction 1 as [|[k v] m Hm IH Hk]; cbn; constructor; [done|].
  apply Forall_fmap. eapply Forall_impl; [exact Hk|]. done.
Qed.

Lemma items_length items off : pack_items items off → Z.of_nat (length items) ≤ off - 12.
Proof.
  induction 1 as [|prev off w obj raw _ IH Hw _ _]; [done|].
  apply obj_encodes_length in Hw. rewrite length_app. cbn. lia.
Qed.

Lemma collect_offsets (m : list (Oid * (Z * Z))) :
  Forall (λ kv, 0 ≤ kv.2.1 < MAX_OFFSET) m →
  collect (λ '(_, (offset, _)), _ ← assert_that (offset <? MAX_OFFSET); Ok (wrap 32 offset)) m
  = @Ok BitGenericError _ m.*2.*1.
Proof.
  induction 1 as [|[k [o c]] m Ho _ IH]; [done|]. cbn [collect]. rewrite IH. cbn in Ho.
  assert ((o <? MAX_OFFSET) = true) as -> by (apply Z.ltb_lt; lia).
  cbn -[wrap]. by rewrite wrap_fits by (unfold fits, MAX_OFFSET in *; lia).
Qed.

Lemma reads_packfile_header n :
  fits 32 n →
  reads packfile_parse_header (PACK_SIGNATURE ++ write_u32 2 ++ write_u32 n) n.
Proof.
  intros Hn. unfold packfile_parse_header. eapply reads_bind; [by apply reads_read_exact|].
  eapply reads_bind_nil; [by apply reads_lift|].
  eapply reads_bind; [apply reads_u32; unfold fits; lia|].
  eapply reads_bind_nil; [by apply reads_lift|]. by apply reads_u32.
Qed.

Section hashes.
Hypothesis sha1_length : ∀ s, length (sha1 s) = 20%nat.
Hypothesis crc32_fits : ∀ s, fits 32 (crc32 s).

Lemma indexer_new_ok items off :
  pack_items items off → off < MAX_OFFSET →
  ∃ ix, indexer_new (pack_file items) = Ok ix
    ∧ ix_inv ix (Z.of_nat (length items))
        (PACK_SIGNATURE ++ write_u32 2 ++ write_u32 (Z.of_nat (length items))) [] 12
        ((items.*2 ≫= item_bytes) ++ sha1 (pack_body items)).
Proof.
  intros Hp Hoff. pose proof (items_length items off Hp) as Hlen. unfold MAX_OFFSET in Hoff.
  set (n := Z.of_nat (length items)) in *.
  set (hdr := PACK_SIGNATURE ++ write_u32 2 ++ write_u32 n).
  assert (pack_file items = hdr ++ ((items.*2 ≫= item_bytes) ++ sha1 (pack_body items))) as ->.
  { unfold pack_file. unfold pack_body at 1. fold n. unfold hdr. by rewrite <- !app_assoc. }
  assert (reads packfile_parse_header hdr n) as Hhdr
    by (apply reads_packfile_header; unfold fits; lia).
  unfold indexer_new, hash_reader_new. erewrite through_hash_reads; [|exact Hhdr].
  cbn [mbind outcome_bind]. eexists. split; [reflexivity|].
  split_and!; cbn [ix_reader ix_objectc raw_objects oid_to_offset ix_sorted];
    [|done| | |constructor| |done].
  - cbn [app fmap list_fmap mbind list_bind]. rewrite app_nil_r. by f_equal.
  - intros o it Hin%elem_of_nil. done.
  - intros o it Hin%elem_of_nil. done.
  - intros kv. split; [by intros ?%elem_of_nil|]. by intros (o & it & ?%elem_of_nil & _).
Qed.

(** The index built from what the indexer knows in the end. *)
Lemma sorted_index_ok ix objectc hdr items off rest ph :
  ix_inv ix objectc hdr items off rest → pack_items items off → off < MAX_OFFSET →
  oid_wf ph →
  let idx := mk_PackIndex (build_fanout (ix_sorted ix).*1) (ix_sorted ix).*1 (ix_sorted ix).*2.*2
               (ix_sorted ix).*2.*1 ph in
  pack_index_wf idx ∧ small_offsets idx
  ∧ (∀ o it, (o, it) ∈ items →
       index_entry_of idx (raw_oid sha1 (item_raw it)) (crc32 (item_bytes it), o))
  ∧ (∀ oid, oid ∈ oids idx → ∃ o it, (o, it) ∈ items ∧ oid = raw_oid sha1 (item_raw it)).
Proof.
  intros (_ & _ & _ & _ & Hs & Hel & Hlen) Hp Hoff Hph. pose proof (items_length items off Hp) as Hlen'.
  unfold MAX_OFFSET in Hoff.
  assert (∀ kv, kv ∈ ix_sorted ix →
    oid_wf kv.1 ∧ 0 ≤ kv.2.1 < off ∧ fits 32 kv.2.2) as Hkv.
  { intros kv (o & it & Hin & ->)%Hel. cbn. pose proof Hin as [k Hk]%list_elem_of_lookup.
    pose proof (item_offset_bounds items off k o it Hp Hk).
    split_and!; [apply sha1_length|lia|lia|apply crc32_fits]. }
  intros idx. split_and!.
  - unfold pack_index_wf, idx. cbn [fanout oids crcs offsets pack_hash]. rewrite !length_fmap.
    split_and!; [done|lia|by apply keys_sorted| |done| |done| |done];
      rewrite !Forall_fmap; apply Forall_forall; intros kv (? & ? & ?)%Hkv; cbn; unfold fits; try done; lia.
  - unfold small_offsets, idx. cbn [offsets]. rewrite !Forall_fmap. apply Forall_forall.
    intros kv (? & ? & ?)%Hkv. cbn. unfold MAX_OFFSET. lia.
  - intros o it Hin. assert ((raw_oid sha1 (item_raw it), (o, crc32 (item_bytes it))) ∈ ix_sorted ix) as Hk
      by (apply Hel; eauto).
    apply list_elem_of_lookup in Hk as [i Hi]. exists i. cbn [oids crcs offsets idx].
    by rewrite !list_lookup_fmap, Hi.
  - intros oid (kv & -> & (o & it & Hin & ->)%Hel)%list_elem_of_fmap. by exists o, it.
Qed.

Lemma index_pack_ok items off :
  pack_items items off → off < MAX_OFFSET →
  ∃ ix idx, indexer_new (pack_file items) = Ok ix ∧ index_pack sha1 crc32 ix = Ok idx
    ∧ pack_index_wf idx ∧ small_offsets idx
    ∧ (∀ o it, (o, it) ∈ items →
         index_entry_of idx (raw_oid sha1 (item_raw it)) (crc32 (item_bytes it), o))
    ∧ (∀ oid, oid ∈ oids idx → ∃ o it, (o, it) ∈ items ∧ oid = raw_oid sha1 (item_raw it)).
Proof.
  intros Hp Hoff. destruct (indexer_new_ok items off Hp Hoff) as (ix0 & H0 & Hinv0).
  destruct (index_objects_ok items off _ _ Hp ltac:(unfold MAX_OFFSET in *; lia) ix0 _ Hinv0)
    as (ix & Hix & Hinv).
  pose proof Hinv0 as (_ & Hc0 & _). pose proof Hinv as (Hrd & _ & _ & _ & Hs & Hel & _).
  exists ix0. unfold index_pack. rewrite Hc0, Nat2Z.id, Hix. cbn [mbind outcome_bind]. rewrite Hrd.
  cbn [finalize_reset hr_hasher hr_reader hr_bytes_hashed].
  rewrite <- (app_nil_r (sha1 (pack_body items))).
  erewrite through_hash_reads; [|apply reads_oid, sha1_length]. cbn [mbind outcome_bind].
  assert (PACK_SIGNATURE ++ write_u32 2 ++ write_u32 (Z.of_nat (length items))
          ++ (items.*2 ≫= item_bytes) = pack_body items) as Hbody by done.
  rewrite <- !app_assoc, Hbody. cbn [through_hash is_at_eof hr_reader mbind outcome_bind assert_that].
  rewrite bool_decide_true by done. cbn [ensure mbind outcome_bind].
  rewrite collect_offsets.
  - eexists. split; [done|]. split; [reflexivity|].
    eapply sorted_index_ok; [exact Hinv|done|done|apply sha1_length].
  - apply Forall_forall. intros kv (o & it & Hin & ->)%Hel. cbn.
    apply list_elem_of_lookup in Hin as [k Hk].
    pose proof (item_offset_bounds items off k o it Hp Hk). lia.
Qed.

(** For a packfile of encoded objects, whole or deltas on earlier ones, each once,
    the indexer succeeds, and the index it builds is well formed, has exactly the
    oids of the objects, and for each of them the crc of its bytes and its offset. *)
Theorem index_pack_correct items off :
  pack_items items off → off < MAX_OFFSET →
  ∃ ix idx, indexer_new (pack_file items) = Ok ix ∧ index_pack sha1 crc32 ix = Ok idx
    ∧ pack_index_wf idx
    ∧ (∀ o it, (o, it) ∈ items →
         index_entry_of idx (raw_oid sha1 (item_raw it)) (crc32 (item_bytes it), o))
    ∧ (∀ oid, oid ∈ oids idx → ∃ o it, (o, it) ∈ items ∧ oid = raw_oid sha1 (item_raw it)).
Proof.
  intros Hp Hoff. destruct (index_pack_ok items off Hp Hoff) as (ix & idx & ? & ? & ? & _ & ? & ?).
  by exists ix, idx.
Qed.

(** Reading a sequence of objects. *)
Fixpoint read_all (qs : list Oid) : st Pack (list BitPackObjRaw) :=
  match qs with
  | [] => mret []
  | q :: qs => raw ← read_obj_raw q; raws ← read_all qs; mret (raw :: raws)
  end.

Lemma read_all_ok file idx (qs : list (Oid * BitPackObjRaw)) : ∀ p,
  pack_index_wf idx → small_offsets idx → pack_inv file idx p →
  Forall (λ q, ∃ crc off n, index_entry_of idx q.1 (crc, off)
                 ∧ obj_at file idx n off q.2 ∧ (n ≤ S (length file))%nat) qs →
  ∃ p', read_all qs.*1 p = (Ok qs.*2, p').
Proof.
  induction qs as [|[oid raw] qs IH]; intros p Hwf Hsm Hinv Hqs; [by exists p|].
  apply Forall_cons in Hqs as [(crc & off & n & He & Hat & Hn) Hqs]. cbn in He, Hat.
  destruct (read_obj_raw_ok file idx p oid crc off raw n Hwf Hsm Hinv He Hat Hn) as (p1 & H1 & Hinv1).
  destruct (IH p1 Hwf Hsm Hinv1 Hqs) as (p2 & H2). exists p2. cbn [fmap list_fmap fst snd read_all].
  rewrite (st_bind_ok _ _ p p1 raw) by done. by rewrite (st_bind_ok _ _ p1 p2 qs.*2).
Qed.

(** C1: Any sequence of objects of a packfile, whole ones and deltas by offset or by
    oid, is read back, with their deltas applied, through the index that the indexer
    writes for the packfile and through the caches. *)
Theorem pack_read_back items off (qs : list (Z * PackItem)) :
  pack_items items off → off < MAX_OFFSET → Forall (.∈ items) qs →
  ∃ idx w p p', write_pack_index sha1 crc32 (pack_file items) = Ok (idx, w)
    ∧ pack_new (pack_file items) w = Ok p
    ∧ read_all ((λ q, raw_oid sha1 (item_raw q.2)) <$> qs) p = (Ok ((λ q, item_raw q.2) <$> qs), p').
Proof.
  intros Hp Hoff Hqs.
  destruct (index_pack_ok items off Hp Hoff) as (ix & idx & H1 & H2 & Hwf & Hsm & Hent & _).
  pose proof (items_length items off Hp) as Hlen. unfold MAX_OFFSET in Hoff.
  set (file := pack_file items).
  set (p := mk_Pack file (mk_PackIndexReader (pack_index_bytes idx ++ sha1 (pack_index_bytes idx))
              (fanout idx) ∅ ∅ (Z.of_nat (length (oids idx)))) ∅).
  assert (pack_inv file idx p) as Hinv.
  { split_and!; [done|apply fresh_reader_inv|]. cbn [pack_obj_cache p].
    intros o raw H. by rewrite lookup_empty in H. }
  destruct (read_all_ok file idx ((λ q, (raw_oid sha1 (item_raw q.2), item_raw q.2)) <$> qs) p Hwf Hsm Hinv)
    as (p' & H).
  { apply Forall_fmap. eapply Forall_impl; [exact Hqs|]. intros [o it] Hin.
    pose proof Hin as [k Hk]%list_elem_of_lookup. eexists _, o, (S k).
    split_and!; [by apply Hent| |].
    - apply (items_obj_at items off) with (k := k); [done|lia| |lia|done]. eauto.
    - pose proof (lookup_lt_Some _ _ _ Hk). pose proof (pack_items_end items off Hp).
      unfold file, pack_file, pack_body. rewrite !length_app. lia. }
  rewrite <- !list_fmap_compose in H. exists idx, (pack_index_bytes idx ++ sha1 (pack_index_bytes idx)), p, p'.
  split_and!; [| |done].
  - unfold write_pack_index. fold file in H1. rewrite H1. cbn [mbind outcome_bind]. rewrite H2.
    cbn [mbind outcome_bind]. by rewrite pack_index_serialize_eq.
  - unfold pack_new. unfold file, pack_file, pack_body.
    rewrite <- !app_assoc, (app_assoc (write_u32 2)), (app_assoc PACK_SIGNATURE).
    rewrite reads_packfile_header by (unfold fits; lia). cbn [mbind outcome_bind].
    by rewrite pack_index_reader_new_ok.
Qed.
End hashes.
End items.

(** ** Witnesses *)

Definition sample_blob : BitPackObjRaw := mk_BitPackObjRaw TBlob (bs "hi").
Definition sample_blob2 : BitPackObjRaw := mk_BitPackObjRaw TBlob (bs "hi!").
Definition sample_delta_bytes : bytes := [x02; x03; x90; x02; x01; x21].

Definition sample_item : PackItem :=
  mk_PackItem (size_encode_with 3 3 2 ++ (bs "hi" ++ [x00])) (Raw sample_blob) sample_blob.

Definition sample_item2 : PackItem :=
  mk_PackItem (size_encode_with 3 6 6 ++ offset_encode 4 ++ (sample_delta_bytes ++ [x00]))
    (Ofs 4 sample_delta_bytes) sample_blob2.

Definition sample_items : list (Z * PackItem) := [(12, sample_item); (16, sample_item2)].

Definition toy_crc32 (s : bytes) : Z := be_decode (take 4 s).

Lemma toy_crc32_fits s : fits 32 (toy_crc32 s).
Proof.
  unfold toy_crc32, fits. pose proof (be_decode_bound (take 4 s)) as H. rewrite length_take in H.
  split; [lia|]. eapply Z.lt_le_trans; [apply H|]. apply Z.pow_le_mono_r; lia.
Qed.

Lemma sample_items_ok : pack_items toy_sha1 sample_items 25.
Proof.
  apply (items_snoc toy_sha1 [(12, sample_item)] 16).
  - apply (items_snoc toy_sha1 [] 12); [constructor| |done|intros ? ? []%elem_of_nil].
    apply (encodes_raw PBlob TBlob (bs "hi")); [done|by split; [vm_decide|]|vm_decide].
  - apply encodes_ofs; [by split; [vm_decide|]|vm_decide|vm_decide].
  - exists 12, sample_item. split_and!; [vm_decide || by apply list_elem_of_singleton|done|].
    vm_compute. reflexivity.
  - intros off it [= -> ->]%list_elem_of_singleton. vm_decide.
Qed.

Lemma index_pack_correct_witness :
  ∃ ix idx, indexer_new (pack_file toy_sha1 sample_items) = Ok ix
    ∧ index_pack toy_sha1 toy_crc32 ix = Ok idx ∧ pack_index_wf idx
    ∧ index_entry_of idx (raw_oid toy_sha1 sample_blob2) (toy_crc32 (item_bytes sample_item2), 16).
Proof.
  destruct (index_pack_correct toy_sha1 toy_crc32 toy_sha1_length toy_crc32_fits sample_items 25
    sample_items_ok ltac:(vm_decide)) as (ix & idx & H1 & H2 & H3 & H4 & _).
  exists ix, idx. split_and!; [done|done|done|]. apply (H4 16 sample_item2).
  apply elem_of_cons. right. by apply list_elem_of_singleton.
Defined.

Lemma pack_read_back_witness :
  ∃ idx w p p', write_pack_index toy_sha1 toy_crc32 (pack_file toy_sha1 sample_items) = Ok (idx, w)
    ∧ pack_new (pack_file toy_sha1 sample_items) w = Ok p
    ∧ read_all [raw_oid toy_sha1 sample_blob2; raw_oid toy_sha1 sample_blob; raw_oid toy_sha1 sample_blob2] p
      = (Ok [sample_blob2; sample_blob; sample_blob2], p').
Proof.
  apply (pack_read_back toy_sha1 toy_crc32 toy_sha1_length toy_crc32_fits sample_items 25
    [(16, sample_item2); (12, sample_item); (16, sample_item2)] sample_items_ok).
  - vm_decide.
  - repeat constructor.
Defined.
