(* ===== verification/Lockfile.v ===== *)
(** * Lockfile

    [libbit/src/lockfile.rs]: [Lockfile], which replaces a file by writing a
    lockfile and renaming it, and [Filelock], which keeps a value of the file under
    the lock.  The file system is modelled down to inodes, because the lockfile is
    written through a buffer and an open handle, which go on working after the
    rename. *)

From Stdlib Require Import ZArith Lia.
From Stdlib Require Import Strings.Byte.
From stdpp Require Import base tactics option list countable strings gmap.
From S2P Require Import Prelude RustStd Data Io Path State.

(** ** The file system *)

Inductive Node := NFile (ino : nat) | NDir.

#[export] Instance Node_eq_dec : EqDecision Node.
Proof. solve_decision. Defined.

Record Inode := mk_Inode { i_data : bytes; i_readonly : bool }.

Record Fs := mk_Fs { names : gmap (list byte) Node; inodes : gmap nat Inode; next_ino : nat }.

Definition set_names (fs : Fs) (n : gmap (list byte) Node) : Fs :=
  mk_Fs n (inodes fs) (next_ino fs).

(** [Path::try_exists] and [Path::is_file]. *)
Definition fs_exists (fs : Fs) (p : BitPath) : bool := bool_decide (is_Some (names fs !! p)).

Definition fs_is_file (fs : Fs) (p : BitPath) : bool :=
  match names fs !! p with Some (NFile _) => true | _ => false end.

(** The contents and the read-only bit of a file. *)
Definition fs_file (fs : Fs) (p : BitPath) : option Inode :=
  match names fs !! p with Some (NFile ino) => inodes fs !! ino | _ => None end.

Definition fs_read (fs : Fs) (p : BitPath) : option bytes := i_data <$> fs_file fs p.

(** [std::fs::create_dir_all]: the parents of a path are shorter than it. *)
Fixpoint create_dir_all (fuel : nat) (p : BitPath) : st Fs unit :=
  fs ← st_get;
  match fuel with
  | O => mret tt
  | S fuel =>
      if Path.is_empty p then mret tt
      else match names fs !! p with
           | Some NDir => mret tt
           | Some (NFile _) => st_lift bail
           | None =>
               _ ← match parent p with Some q => create_dir_all fuel q | None => mret tt end;
               fs ← st_get;
               st_put (set_names fs (<[p := NDir]> (names fs)))
           end
  end.

(** [File::options().create_new(true).write(true).open(p)]. *)
Definition create_new (p : BitPath) : st Fs nat :=
  fs ← st_get;
  if fs_exists fs p then st_lift bail
  else
    let ino := next_ino fs in
    _ ← st_put (mk_Fs (<[p := NFile ino]> (names fs)) (<[ino := mk_Inode [] false]> (inodes fs)) (S ino));
    mret ino.

(** A write through a handle. *)
Definition fs_append (ino : nat) (data : bytes) (fs : Fs) : Fs :=
  mk_Fs (names fs) (alter (λ i, mk_Inode (i_data i ++ data) (i_readonly i)) ino (inodes fs)) (next_ino fs).

(** [std::fs::rename] of a file. *)
Definition fs_rename (a b : BitPath) : st Fs unit :=
  fs ← st_get;
  match names fs !! a, names fs !! b with
  | Some (NFile ino), (None | Some (NFile _)) =>
      st_put (set_names fs (<[b := NFile ino]> (delete a (names fs))))
  | _, _ => st_lift bail
  end.

(** [std::fs::remove_file]. *)
Definition fs_remove_file (p : BitPath) : st Fs unit :=
  fs ← st_get;
  if fs_is_file fs p then st_put (set_names fs (delete p (names fs))) else st_lift bail.

(** [permissions.set_readonly(b)] and [std::fs::set_permissions]. *)
Definition fs_set_readonly (b : bool) (p : BitPath) : st Fs unit :=
  fs ← st_get;
  match names fs !! p with
  | Some (NFile ino) =>
      st_put (mk_Fs (names fs) (alter (λ i, mk_Inode (i_data i) b) ino (inodes fs)) (next_ino fs))
  | Some NDir => mret tt
  | None => st_lift bail
  end.

(** *** [BufWriter<File>] *)

Record BufWriter := mk_BufWriter { bw_ino : nat; bw_buf : bytes }.

Definition BUF_CAPACITY : nat := 8 * 1024.

Definition bw_flush (w : BufWriter) (fs : Fs) : BufWriter * Fs :=
  (mk_BufWriter (bw_ino w) [], fs_append (bw_ino w) (bw_buf w) fs).

Definition bw_write (data : bytes) (w : BufWriter) (fs : Fs) : BufWriter * Fs :=
  let spare := (BUF_CAPACITY - length (bw_buf w))%nat in
  if (length data <? spare)%nat then (mk_BufWriter (bw_ino w) (bw_buf w ++ data), fs)
  else
    let '(w, fs) := if (spare <? length data)%nat then bw_flush w fs else (w, fs) in
    if (BUF_CAPACITY <=? length data)%nat then (w, fs_append (bw_ino w) data fs)
    else (mk_BufWriter (bw_ino w) (bw_buf w ++ data), fs).

(** ** Lockfile *)

Definition LOCK_FILE_EXT : bytes := bs "lock".

(** [LockfileFlags] has the one flag [SET_READONLY]. *)
Record Lockfile := mk_Lockfile {
  lf_file : option nat;
  lf_lockfile : BufWriter;
  set_readonly : bool;
  lf_path : BitPath;
  lockfile_path : BitPath;
  committed : bool;
  rolled_back : bool;
}.

Definition lock_path (path : BitPath) : BitPath := with_extension LOCK_FILE_EXT path.

Definition lockfile_open (path : BitPath) (flags : bool) : st Fs Lockfile :=
  fs ← st_get;
  _ ← st_lift (assert_that (negb (fs_exists fs path) || fs_is_file fs path));
  let lockfile_path := lock_path path in
  _ ← match parent path with Some dir => create_dir_all (S (length dir)) dir | None => mret tt end;
  lockfile ← create_new lockfile_path;
  fs ← st_get;
  let file := match names fs !! path with Some (NFile ino) => Some ino | _ => None end in
  mret (mk_Lockfile file (mk_BufWriter lockfile []) flags path lockfile_path false false).

(** [Write for Lockfile]. *)
Definition lockfile_write (data : bytes) : st (Fs * Lockfile) unit := λ '(fs, lf),
  let '(w, fs) := bw_write data (lf_lockfile lf) fs in
  (Ok tt, (fs, mk_Lockfile (lf_file lf) w (set_readonly lf) (lf_path lf) (lockfile_path lf)
                 (committed lf) (rolled_back lf))).

Definition lockfile_rollback (lf : Lockfile) : Lockfile :=
  mk_Lockfile (lf_file lf) (lf_lockfile lf) (set_readonly lf) (lf_path lf) (lockfile_path lf)
    (committed lf) true.

Definition set_committed (lf : Lockfile) : Lockfile :=
  mk_Lockfile (lf_file lf) (lf_lockfile lf) (set_readonly lf) (lf_path lf) (lockfile_path lf)
    true (rolled_back lf).

(** The part of [commit] up to the rename, and the part behind it. *)
Definition commit_rename (lf : Lockfile) : st Fs unit :=
  fs ← st_get;
  _ ← (if set_readonly lf && fs_exists fs (lf_path lf)
       then fs_set_readonly false (lf_path lf) else mret tt);
  fs_rename (lockfile_path lf) (lf_path lf).

Definition lockfile_commit : st (Fs * Lockfile) unit := λ '(fs, lf),
  if rolled_back lf then (Ok tt, (fs, lf))
  else
    match commit_rename lf fs with
    | (Ok _, fs) =>
        let lf := set_committed lf in
        let '(r, fs) := (if set_readonly lf then fs_set_readonly true (lf_path lf) else mret tt) fs in
        (r, (fs, lf))
    | (r, fs) => (r, (fs, lf))
    end.

(** [Drop for Lockfile], and then the drop of its fields, which flushes the
    buffer. *)
Definition lockfile_drop (lf : Lockfile) : st Fs unit := λ fs,
  let '(r, fs) :=
    (if rolled_back lf && committed lf then (Panic, fs)
     else if rolled_back lf || negb (committed lf) then
       match fs_remove_file (lockfile_path lf) fs with
       | (Ok _, fs) => (Ok tt, fs)
       | (_, fs) => (Panic, fs)
       end
     else (Ok tt, fs)) in
  (r, snd (bw_flush (lf_lockfile lf) fs)).

(** A value or a panic, after the drop that ends the scope of the lockfile. *)
Definition then_drop {A} (r : BitResult A) (lf : Lockfile) : st Fs A := λ fs,
  let '(d, fs) := lockfile_drop lf fs in
  (match d with Ok _ => r | _ => Panic end, fs).

(** [with_readonly]. *)
Definition with_readonly {A} (path : BitPath) (flags : bool) (f : Lockfile → st Fs A) : st Fs A :=
  lf ← lockfile_open path flags;
  (λ fs, let '(r, fs) := f lf fs in
         match r with
         | Panic => then_drop Panic lf fs
         | r => then_drop r (lockfile_rollback lf) fs
         end) : st Fs A.

(** [with_mut]. *)
Definition with_mut {A} (path : BitPath) (flags : bool) (f : st (Fs * Lockfile) A) : st Fs A :=
  lf ← lockfile_open path flags;
  (λ fs, let '(r, (fs, lf)) := f (fs, lf) in
         match r with
         | Ok a =>
             let '(c, (fs, lf)) := lockfile_commit (fs, lf) in
             then_drop (_ ← c; Ok a) lf fs
         | Err e => then_drop (Err e) (lockfile_rollback lf) fs
         | Panic => then_drop Panic lf fs
         end) : st Fs A.

(** ** Filelock *)

Record Filelock (T : Type) := mk_Filelock {
  fl_data : T;
  fl_lockfile : Lockfile;
  dirty : bool;
  fl_rolled_back : bool;
}.
Arguments mk_Filelock {T}.
Arguments fl_data {T}.
Arguments fl_lockfile {T}.
Arguments dirty {T}.
Arguments fl_rolled_back {T}.

Section filelock.
Context {T : Type} `{Serialize T, Deserialize T}.
Variable default : T.

Definition lock_with_flags (path : BitPath) (flags : bool) : st Fs (Filelock T) :=
  lockfile ← lockfile_open path flags;
  (λ fs, match (match lf_file lockfile with
                | Some ino =>
                    fst <$> deserialize (match inodes fs !! ino with Some i => i_data i | None => [] end)
                | None => Ok default
                end) with
         | Ok data => (Ok (mk_Filelock data lockfile false false), fs)
         | Err e => then_drop (Err e) lockfile fs
         | Panic => then_drop Panic lockfile fs
         end) : st Fs (Filelock T).

Definition filelock_lock (path : BitPath) : st Fs (Filelock T) := lock_with_flags path false.

Definition filelock_rollback (l : Filelock T) : Filelock T :=
  mk_Filelock (fl_data l) (lockfile_rollback (fl_lockfile l)) (dirty l) true.

(** [Deref] and [DerefMut]: a read of the value, and a change of it. *)
Definition filelock_deref (l : Filelock T) : BitResult T :=
  _ ← assert_that (negb (fl_rolled_back l));
  Ok (fl_data l).

Definition filelock_update (f : T → T) (l : Filelock T) : BitResult (Filelock T) :=
  _ ← assert_that (negb (fl_rolled_back l));
  Ok (mk_Filelock (f (fl_data l)) (fl_lockfile l) true (fl_rolled_back l)).

(** [Drop for Filelock], and then the drop of its lockfile. *)
Definition filelock_drop (l : Filelock T) : st Fs unit := λ fs,
  if fl_rolled_back l || negb (dirty l) then then_drop (Ok tt) (fl_lockfile l) fs
  else
    match serialize (fl_data l) with
    | Ok w =>
        let '(_, (fs, lf)) := lockfile_write w (fs, fl_lockfile l) in
        let '(c, (fs, lf)) := lockfile_commit (fs, lf) in
        then_drop (match c with Ok _ => Ok tt | _ => Panic end) lf fs
    | _ => then_drop Panic (fl_lockfile l) fs
    end.
End filelock.

(** ** Lemmas *)

(** Every name of a file leads to an inode. *)
Definition fs_wf (fs : Fs) : Prop :=
  ∀ p ino, names fs !! p = Some (NFile ino) → (ino < next_ino fs)%nat ∧ is_Some (inodes fs !! ino).

(** The contents of an inode. *)
Definition ino_data (fs : Fs) (ino : nat) : option bytes := i_data <$> inodes fs !! ino.

Lemma fs_read_eq fs p :
  fs_read fs p = match names fs !! p with Some (NFile ino) => ino_data fs ino | _ => None end.
Proof. unfold fs_read, fs_file. by destruct (names fs !! p) as [[]|]. Qed.

Lemma ino_data_append ino data fs i :
  ino_data (fs_append ino data fs) i
  = if decide (i = ino) then (.++ data) <$> ino_data fs i else ino_data fs i.
Proof.
  unfold ino_data, fs_append. cbn [inodes]. case_decide as Hi.
  - subst. rewrite lookup_alter_eq. by destruct (inodes fs !! ino).
  - by rewrite lookup_alter_ne.
Qed.

(** Directories are added, and nothing else changes. *)
Lemma create_dir_all_spec fuel d : ∀ fs r fs',
  create_dir_all fuel d fs = (r, fs') →
  inodes fs' = inodes fs ∧ next_ino fs' = next_ino fs
  ∧ ∀ p ino, names fs' !! p = Some (NFile ino) ↔ names fs !! p = Some (NFile ino).
Proof.
  revert d. induction fuel as [|fuel IH]; intros d fs r fs'; cbn [create_dir_all];
    rewrite (st_bind_ok _ _ fs fs fs) by done; [by intros [= <- <-]|].
  destruct (Path.is_empty d); [by intros [= <- <-]|].
  destruct (names fs !! d) as [[ino|]|] eqn:Hd; [by intros [= <- <-]..|].
  destruct (match parent d with Some q => create_dir_all fuel q | None => mret tt end fs)
    as [r1 fs1] eqn:E1.
  assert (inodes fs1 = inodes fs ∧ next_ino fs1 = next_ino fs
    ∧ ∀ p ino, names fs1 !! p = Some (NFile ino) ↔ names fs !! p = Some (NFile ino)) as (Hi & Hn & Hp).
  { destruct (parent d) as [q|]; [by eapply IH|]. by injection E1 as <- <-. }
  unfold mbind, st_bind, st_get, st_put. rewrite E1. destruct r1 as [[]| |]; intros [= <- <-]; [|done..].
  cbn. split_and!; [done|done|]. intros p ino. rewrite <- Hp.
  destruct (decide (p = d)) as [->|]; [|by rewrite lookup_insert_ne].
  rewrite lookup_insert_eq. split; [done|]. rewrite Hp, Hd. done.
Qed.

(** *** The buffer *)

(** [w] writes to the inode [ino], whose contents and the buffer together are
    [content]; the rest of the file system is the one of [fs0]. *)
Definition writing (fs0 : Fs) (ino : nat) (content : bytes) (w : BufWriter) (fs : Fs) : Prop :=
  bw_ino w = ino ∧ names fs = names fs0 ∧ next_ino fs = next_ino fs0
  ∧ (∀ i, i ≠ ino → inodes fs !! i = inodes fs0 !! i)
  ∧ ∃ d, ino_data fs ino = Some d ∧ d ++ bw_buf w = content.

Lemma writing_append fs0 ino content w fs data buf :
  writing fs0 ino content w fs → content = (default [] (ino_data fs ino)) ++ data ++ buf →
  writing fs0 ino content (mk_BufWriter ino buf) (fs_append ino data fs).
Proof.
  intros (Hi & Hn & Hnx & Ho & d & Hd & Hc) Hb. rewrite Hd in Hb. cbn in Hb.
  split_and!; [done|done|done| |].
  - intros i Hne. unfold fs_append. cbn [inodes]. rewrite lookup_alter_ne by done. by apply Ho.
  - exists (d ++ data). rewrite ino_data_append, decide_True, Hd by done.
    split; [done|]. cbn [bw_buf]. by rewrite Hb, app_assoc.
Qed.

Lemma writing_flush fs0 ino content w fs :
  writing fs0 ino content w fs →
  writing fs0 ino content (mk_BufWriter ino []) (fs_append ino (bw_buf w) fs).
Proof.
  intros Hw. pose proof Hw as (_ & _ & _ & _ & d & Hd & Hc). eapply writing_append; [done|].
  by rewrite app_nil_r, Hd.
Qed.

Lemma writing_more fs0 ino content w fs data :
  writing fs0 ino content w fs →
  writing fs0 ino (content ++ data) (mk_BufWriter ino (bw_buf w ++ data)) fs.
Proof.
  intros (Hi & Hn & Hnx & Ho & d & Hd & Hc). split_and!; [done..|]. exists d. split; [done|].
  cbn [bw_buf]. by rewrite app_assoc, Hc.
Qed.

Lemma writing_direct fs0 ino content w fs data :
  writing fs0 ino content w fs → bw_buf w = [] →
  writing fs0 ino (content ++ data) w (fs_append ino data fs).
Proof.
  intros Hw Hb. pose proof Hw as (Hi & _ & _ & _ & d & Hd & Hc).
  assert (w = mk_BufWriter ino []) as -> by (destruct w; cbn in *; by subst).
  eapply writing_append; [by apply writing_more|]. cbn in *. by rewrite Hd, app_nil_r, <- Hc, app_nil_r.
Qed.

Lemma bw_write_ok fs0 ino content w fs data w' fs' :
  writing fs0 ino content w fs → bw_write data w fs = (w', fs') →
  writing fs0 ino (content ++ data) w' fs'.
Proof.
  intros Hw. pose proof Hw as (Hi & _). unfold bw_write, bw_flush. rewrite Hi.
  destruct (Nat.ltb_spec (length data) (BUF_CAPACITY - length (bw_buf w))) as [|Hge].
  { intros [= <- <-]. by apply writing_more. }
  destruct (Nat.ltb_spec (BUF_CAPACITY - length (bw_buf w)) (length data)) as [Hgt|Hle];
    destruct (Nat.leb_spec BUF_CAPACITY (length data)); intros [= <- <-]; cbn [bw_ino bw_buf].
  - by apply writing_direct; [apply writing_flush|].
  - by apply (writing_more _ _ _ (mk_BufWriter ino [])), writing_flush.
  - rewrite Hi. apply writing_direct; [done|]. apply nil_length_inv. unfold BUF_CAPACITY in *. lia.
  - rewrite Hi. by apply writing_more.
Qed.

(** *** Opening a lockfile *)

(** The directories that [open] creates. *)
Definition create_dirs (path : BitPath) : st Fs unit :=
  match parent path with Some dir => create_dir_all (S (length dir)) dir | None => mret tt end.

Lemma create_dirs_spec path fs r fs1 :
  create_dirs path fs = (r, fs1) →
  inodes fs1 = inodes fs ∧ next_ino fs1 = next_ino fs
  ∧ ∀ p ino, names fs1 !! p = Some (NFile ino) ↔ names fs !! p = Some (NFile ino).
Proof.
  unfold create_dirs. destruct (parent path); [apply create_dir_all_spec|]. by intros [= <- <-].
Qed.

(** The lock can be taken: the path is no directory, its parents can be created and
    nobody holds the lock. *)
Definition lockable (path : BitPath) (fs fs1 : Fs) : Prop :=
  fs_wf fs ∧ (negb (fs_exists fs path) || fs_is_file fs path) = true
  ∧ create_dirs path fs = (Ok tt, fs1)
  ∧ names fs1 !! lock_path path = None ∧ (names fs1 !! path ≠ Some NDir) ∧ path ≠ lock_path path.

(** The lock on [path] has been taken in [fs1], and [content] written to it. *)
Definition locked (path : BitPath) (flags : bool) (fs1 : Fs) (content : bytes) (lf : Lockfile) (fs : Fs)
  : Prop :=
  lf_path lf = path ∧ lockfile_path lf = lock_path path ∧ set_readonly lf = flags
  ∧ committed lf = false ∧ rolled_back lf = false
  ∧ writing (mk_Fs (<[lock_path path := NFile (next_ino fs1)]> (names fs1)) (inodes fs1)
               (S (next_ino fs1))) (next_ino fs1) content (lf_lockfile lf) fs.

Lemma lockfile_open_ok path flags fs fs1 :
  lockable path fs fs1 →
  ∃ lf fs2, lockfile_open path flags fs = (Ok lf, fs2) ∧ locked path flags fs1 [] lf fs2
    ∧ lf_file lf = match names fs !! path with Some (NFile ino) => Some ino | _ => None end.
Proof.
  intros (Hwf & Ha & Hd & Hl & Hnd & Hne). unfold lockfile_open.
  rewrite (st_bind_ok _ _ fs fs fs) by done. rewrite (st_bind_ok _ _ fs fs tt) by (unfold st_lift; by rewrite Ha).
  fold (create_dirs path). rewrite (st_bind_ok _ _ fs fs1 tt) by done.
  set (n := next_ino fs1).
  set (fs2 := mk_Fs (<[lock_path path := NFile n]> (names fs1)) (<[n := mk_Inode [] false]> (inodes fs1)) (S n)).
  rewrite (st_bind_ok _ _ fs1 fs2 n).
  - rewrite (st_bind_ok _ _ fs2 fs2 fs2) by done. eexists _, fs2. split; [reflexivity|]. split.
    + split_and!; [done..|]. split_and!; [done|done|done| |].
      * intros i Hi. cbn [inodes fs2]. by rewrite lookup_insert_ne.
      * exists []. split; [|done]. unfold ino_data. cbn [inodes fs2]. by rewrite lookup_insert_eq.
    + cbn [lf_file names fs2]. rewrite lookup_insert_ne by done.
      destruct (create_dirs_spec path fs (Ok tt) fs1 Hd) as (_ & _ & Hp).
      destruct (names fs1 !! path) as [[ino|]|] eqn:E1.
      * apply Hp in E1. by rewrite E1.
      * done.
      * destruct (names fs !! path) as [[ino|]|] eqn:E; [|done|done]. apply Hp in E. congruence.
  - unfold create_new. rewrite (st_bind_ok _ _ fs1 fs1 fs1) by done.
    unfold fs_exists. by rewrite bool_decide_false by (rewrite Hl; by intros []).
Qed.

(** *** Writing, committing and dropping *)

Fixpoint lockfile_write_all (chunks : list bytes) : st (Fs * Lockfile) unit :=
  match chunks with
  | [] => mret tt
  | c :: chunks => _ ← lockfile_write c; lockfile_write_all chunks
  end.

Lemma lockfile_write_ok path flags fs1 content lf fs data :
  locked path flags fs1 content lf fs →
  ∃ fs' lf', lockfile_write data (fs, lf) = (Ok tt, (fs', lf'))
    ∧ locked path flags fs1 (content ++ data) lf' fs' ∧ lf_file lf' = lf_file lf.
Proof.
  intros (? & ? & ? & ? & ? & Hw). unfold lockfile_write.
  destruct (bw_write data (lf_lockfile lf) fs) as [w' fs'] eqn:E. eexists _, _.
  split; [reflexivity|]. split; [|done]. split_and!; [done..|]. by eapply bw_write_ok.
Qed.

Lemma lockfile_write_all_ok path flags fs1 chunks : ∀ content lf fs,
  locked path flags fs1 content lf fs →
  ∃ fs' lf', lockfile_write_all chunks (fs, lf) = (Ok tt, (fs', lf'))
    ∧ locked path flags fs1 (content ++ mjoin chunks) lf' fs'.
Proof.
  induction chunks as [|c chunks IH]; intros content lf fs Hl; cbn [lockfile_write_all].
  - exists fs, lf. cbn. by rewrite app_nil_r.
  - destruct (lockfile_write_ok path flags fs1 content lf fs c Hl) as (fs2 & lf2 & H2 & Hl2 & _).
    rewrite (st_bind_ok _ _ _ _ _ H2). destruct (IH _ _ _ Hl2) as (fs3 & lf3 & H3 & Hl3).
    exists fs3, lf3. split; [done|]. cbn. by rewrite app_assoc.
Qed.

Lemma fs_set_readonly_ok b p fs ino :
  names fs !! p = Some (NFile ino) →
  ∃ fs', fs_set_readonly b p fs = (Ok tt, fs') ∧ names fs' = names fs ∧ next_ino fs' = next_ino fs
    ∧ ∀ i, ino_data fs' i = ino_data fs i.
Proof.
  intros Hp. unfold fs_set_readonly. rewrite (st_bind_ok _ _ fs fs fs) by done. rewrite Hp.
  eexists. split; [reflexivity|]. split_and!; [done|done|]. intros i. unfold ino_data. cbn [inodes].
  destruct (decide (i = ino)) as [->|]; [|by rewrite lookup_alter_ne].
  rewrite lookup_alter_eq. by destruct (inodes fs !! ino).
Qed.

(** The rename has happened: [path] names the inode of the lockfile. *)
Definition renamed (path : BitPath) (fs1 fs2 fs3 : Fs) : Prop :=
  names fs3 = <[path := NFile (next_ino fs1)]> (delete (lock_path path) (names fs2))
  ∧ next_ino fs3 = next_ino fs2
  ∧ ∀ i, ino_data fs3 i = ino_data fs2 i.

Lemma commit_rename_ok path flags fs fs1 content lf fs2 :
  lockable path fs fs1 → locked path flags fs1 content lf fs2 →
  ∃ fs3, commit_rename lf fs2 = (Ok tt, fs3) ∧ renamed path fs1 fs2 fs3.
Proof.
  intros (_ & _ & _ & _ & Hnd & Hne) (Hp & Hlp & _ & _ & _ & (_ & Hn & _)).
  cbn [names] in Hn. unfold commit_rename. rewrite (st_bind_ok _ _ fs2 fs2 fs2) by done.
  assert (names fs2 !! path = names fs1 !! path) as Hpath by (by rewrite Hn, lookup_insert_ne).
  assert (∃ fs2', (if set_readonly lf && fs_exists fs2 (lf_path lf)
    then fs_set_readonly false (lf_path lf) else mret tt) fs2 = (Ok tt, fs2')
    ∧ names fs2' = names fs2 ∧ next_ino fs2' = next_ino fs2
    ∧ ∀ i, ino_data fs2' i = ino_data fs2 i) as (fs2' & H & Hn' & Hx' & Hi').
  { destruct (set_readonly lf && fs_exists fs2 (lf_path lf)) eqn:E; [|by exists fs2].
    apply andb_true_iff in E as [_ E]. unfold fs_exists in E. apply bool_decide_eq_true in E as [node E].
    rewrite Hp in *. rewrite Hpath in E. destruct node as [ino|]; [|done].
    apply (fs_set_readonly_ok false path fs2 ino). by rewrite Hpath. }
  rewrite (st_bind_ok _ _ _ _ _ H). unfold fs_rename. rewrite (st_bind_ok _ _ fs2' fs2' fs2') by done.
  rewrite Hn', Hp, Hlp, Hpath, Hn, lookup_insert_eq.
  exists (set_names fs2' (<[path := NFile (next_ino fs1)]> (delete (lock_path path) (names fs2)))).
  split; [|by split_and!]. rewrite Hn. by destruct (names fs1 !! path) as [[]|].
Qed.

Lemma lockfile_commit_ok path flags fs fs1 content lf fs2 :
  lockable path fs fs1 → locked path flags fs1 content lf fs2 →
  ∃ fs3, lockfile_commit (fs2, lf) = (Ok tt, (fs3, set_committed lf)) ∧ renamed path fs1 fs2 fs3.
Proof.
  intros Hl Hk. destruct (commit_rename_ok path flags fs fs1 content lf fs2 Hl Hk) as (fs3 & H & Hn & Hx & Hi).
  pose proof Hk as (Hp & _ & _ & _ & Hrb & _). unfold lockfile_commit. rewrite Hrb, H.
  change (set_readonly (set_committed lf)) with (set_readonly lf).
  change (lf_path (set_committed lf)) with (lf_path lf).
  destruct (set_readonly lf).
  - destruct (fs_set_readonly_ok true path fs3 (next_ino fs1)) as (fs4 & H4 & Hn4 & Hx4 & Hi4).
    { by rewrite Hn, lookup_insert_eq. }
    rewrite Hp, H4. exists fs4. split; [done|]. split; [by rewrite Hn4|]. split; [by rewrite Hx4|].
    intros i. by rewrite Hi4, Hi.
  - by exists fs3.
Qed.

(** What a reader sees after the rename: other files as before, and at [path] the
    part of the contents that has left the buffer. *)
Lemma renamed_read path flags fs fs1 content lf fs2 fs3 :
  lockable path fs fs1 → locked path flags fs1 content lf fs2 → renamed path fs1 fs2 fs3 →
  names fs3 !! lock_path path = None
  ∧ fs_read fs3 path = ino_data fs2 (next_ino fs1)
  ∧ ∀ q, q ≠ path → fs_read fs3 q = fs_read fs q.
Proof.
  intros (Hwf & _ & Hd & Hlk & Hnd & Hne) (_ & _ & _ & _ & _ & (_ & Hn2 & _ & Ho & _)) (Hn & _ & Hi).
  cbn [names] in Hn2. destruct (create_dirs_spec path fs (Ok tt) fs1 Hd) as (Hin & Hnx & Hp).
  split_and!.
  - by rewrite Hn, lookup_insert_ne, lookup_delete_eq.
  - by rewrite fs_read_eq, Hn, lookup_insert_eq, Hi.
  - intros q Hq. rewrite !fs_read_eq, Hn, lookup_insert_ne by done.
    destruct (decide (q = lock_path path)) as [->|Hql].
    + rewrite lookup_delete_eq. destruct (names fs !! lock_path path) as [[ino|]|] eqn:E; [|done|done].
      apply Hp in E. congruence.
    + rewrite lookup_delete_ne, Hn2, lookup_insert_ne by done.
      destruct (names fs1 !! q) as [[ino|]|] eqn:E1.
      * apply Hp in E1. rewrite E1. rewrite Hi. unfold ino_data.
        destruct (Hwf q ino E1) as [Hlt _]. rewrite Ho by lia. by rewrite <- Hin.
      * destruct (names fs !! q) as [[ino|]|] eqn:E; [|done|done]. apply Hp in E. congruence.
      * destruct (names fs !! q) as [[ino|]|] eqn:E; [|done|done]. apply Hp in E. congruence.
Qed.

Lemma drop_committed {A} (r : BitResult A) path flags fs fs1 content lf fs2 fs3 :
  lockable path fs fs1 → locked path flags fs1 content lf fs2 → renamed path fs1 fs2 fs3 →
  ∃ fs4, then_drop r (set_committed lf) fs3 = (r, fs4)
    ∧ names fs4 !! lock_path path = None ∧ fs_read fs4 path = Some content
    ∧ ∀ q, q ≠ path → fs_read fs4 q = fs_read fs q.
Proof.
  intros Hl Hk Hr. destruct (renamed_read path flags fs fs1 content lf fs2 fs3 Hl Hk Hr) as (H1 & H2 & H3).
  pose proof Hk as (_ & _ & _ & _ & Hrb & (Hino & Hn2 & _ & _ & d & Hd & Hc)).
  pose proof Hr as (Hn & _ & Hi). pose proof Hl as (Hwf & _ & Hdirs & _ & _ & Hne).
  destruct (create_dirs_spec path fs (Ok tt) fs1 Hdirs) as (_ & Hnx & Hp).
  unfold then_drop, lockfile_drop. cbn [rolled_back committed set_committed lf_lockfile bw_flush snd].
  rewrite Hrb. cbn [andb orb negb]. eexists. split; [reflexivity|].
  cbn [names fs_append]. split; [done|]. split.
  - rewrite fs_read_eq. cbn [names fs_append]. rewrite Hn, lookup_insert_eq, ino_data_append, decide_True by done.
    rewrite Hi, Hd. cbn. by rewrite Hc.
  - intros q Hq. rewrite <- (H3 q Hq), !fs_read_eq. cbn [names fs_append].
    destruct (names fs3 !! q) as [[ino|]|] eqn:E; [|done|done].
    rewrite ino_data_append, decide_False; [done|]. rewrite Hino. intros ->.
    rewrite Hn, lookup_insert_ne in E by done.
    destruct (decide (q = lock_path path)) as [->|]; [by rewrite lookup_delete_eq in E|].
    rewrite lookup_delete_ne, Hn2 in E by done. cbn [names] in E. rewrite lookup_insert_ne in E by done.
    apply Hp, Hwf in E. lia.
Qed.

Lemma drop_uncommitted {A} (r : BitResult A) path flags fs fs1 content lf lf' fs2 :
  lockable path fs fs1 → locked path flags fs1 content lf fs2 →
  lf' = lf ∨ lf' = lockfile_rollback lf →
  ∃ fs4, then_drop r lf' fs2 = (r, fs4)
    ∧ names fs4 !! lock_path path = None ∧ ∀ q, fs_read fs4 q = fs_read fs q.
Proof.
  intros (Hwf & _ & Hdirs & Hlk & _ & Hne) (_ & Hlp & _ & Hcm & Hrb & (Hino & Hn2 & _ & Ho & d & Hd & Hc)) Hlf.
  destruct (create_dirs_spec path fs (Ok tt) fs1 Hdirs) as (Hin & Hnx & Hp). cbn [names] in Hn2.
  assert (fs_remove_file (lock_path path) fs2 = (Ok tt, set_names fs2 (delete (lock_path path) (names fs2)))) as Hrm.
  { unfold fs_remove_file. rewrite (st_bind_ok _ _ fs2 fs2 fs2) by done.
    unfold fs_is_file. by rewrite Hn2, lookup_insert_eq. }
  exists (fs_append (next_ino fs1) (bw_buf (lf_lockfile lf)) (set_names fs2 (delete (lock_path path) (names fs2)))).
  split.
  { unfold then_drop, lockfile_drop.
    destruct Hlf as [->| ->]; cbn [rolled_back committed lockfile_path lf_lockfile lockfile_rollback];
      rewrite ?Hrb, Hcm, Hlp, Hrm; cbn [andb orb negb bw_flush snd]; by rewrite Hino. }
  cbn [names fs_append set_names]. rewrite lookup_delete_eq. split; [done|].
  intros q. rewrite !fs_read_eq. cbn [names fs_append set_names].
  destruct (decide (q = lock_path path)) as [->|Hql].
  - rewrite lookup_delete_eq. destruct (names fs !! lock_path path) as [[ino|]|] eqn:E; [|done|done].
    apply Hp in E. congruence.
  - rewrite lookup_delete_ne, Hn2, lookup_insert_ne by done.
    destruct (names fs1 !! q) as [[ino|]|] eqn:E1.
    + apply Hp in E1. rewrite E1. destruct (Hwf q ino E1) as [Hlt _].
      rewrite ino_data_append, decide_False by lia. unfold ino_data. cbn [inodes set_names].
      rewrite Ho by lia. cbn [inodes]. by rewrite Hin.
    + destruct (names fs !! q) as [[ino|]|] eqn:E; [|done|done]. apply Hp in E. congruence.
    + destruct (names fs !! q) as [[ino|]|] eqn:E; [|done|done]. apply Hp in E. congruence.
Qed.

(** A file that is written in one go: the names and the invariant of the file system. *)
Lemma with_mut_written path flags fs fs1 chunks :
  lockable path fs fs1 →
  ∃ fs', with_mut path flags (lockfile_write_all chunks) fs = (Ok tt, fs')
    ∧ names fs' = <[path := NFile (next_ino fs1)]> (names fs1) ∧ fs_wf fs'
    ∧ fs_read fs' path = Some (mjoin chunks)
    ∧ ∀ q, q ≠ path → fs_read fs' q = fs_read fs q.
Proof.
  intros Hl. destruct (lockfile_open_ok path flags fs fs1 Hl) as (lf & fs2 & Ho & Hk & _).
  unfold with_mut. rewrite (st_bind_ok _ _ fs fs2 lf) by done.
  destruct (lockfile_write_all_ok path flags fs1 chunks [] lf fs2 Hk) as (fs3 & lf3 & -> & Hk3).
  destruct (lockfile_commit_ok path flags fs fs1 _ lf3 fs3 Hl Hk3) as (fs4 & -> & Hr).
  cbn [mbind outcome_bind]. destruct (drop_committed (Ok tt) path flags fs fs1 _ lf3 fs3 fs4 Hl Hk3 Hr)
    as (fs5 & H5 & _ & Hp & Hq).
  exists fs5. split; [done|].
  assert (names fs5 = <[path := NFile (next_ino fs1)]> (names fs1) ∧ next_ino fs5 = S (next_ino fs1)) as [Hn Hx].
  { pose proof Hk3 as (_ & _ & _ & _ & Hrb & (_ & Hn3 & Hx3 & _)). destruct Hr as (Hn4 & Hx4 & _).
    destruct Hl as (_ & _ & _ & Hlk & _). cbn [names next_ino] in *.
    unfold then_drop, lockfile_drop in H5. cbn [rolled_back committed set_committed] in H5.
    rewrite Hrb in H5. cbn [andb orb negb] in H5. injection H5 as <-. cbn [names next_ino fs_append bw_flush snd].
    rewrite Hn4, Hx4, Hn3, Hx3. split; [|done]. f_equal. rewrite delete_insert_id by done. done. }
  split_and!; [done| |done|done]. intros p ino Hpi. rewrite Hn in Hpi.
  destruct Hl as (Hwf & _ & Hd & _). destruct (create_dirs_spec path fs _ fs1 Hd) as (_ & Hnx & Hf).
  assert (is_Some (fs_read fs5 p)) as [d Hd5].
  { apply lookup_insert_Some in Hpi as [[<- [= <-]]|[Hne Hpi]]; [by eexists|].
    rewrite Hq by done. apply Hf in Hpi as Hpi'. destruct (Hwf p ino Hpi') as [_ [i Hi]].
    exists (i_data i). rewrite fs_read_eq, Hpi'. unfold ino_data. by rewrite Hi. }
  split.
  - rewrite Hx. apply lookup_insert_Some in Hpi as [[<- [= <-]]|[Hne Hpi]]; [lia|].
    apply Hf, Hwf in Hpi as [? _]. lia.
  - rewrite fs_read_eq, Hn, Hpi in Hd5. unfold ino_data in Hd5. by destruct (inodes fs5 !! ino).
Qed.

(** *** The lock can be taken again *)

Definition dirs_exist (path : BitPath) (fs : Fs) : Prop :=
  match parent path with Some d => d = [] ∨ names fs !! d = Some NDir | None => True end.

Lemma create_dirs_made path fs fs1 : create_dirs path fs = (Ok tt, fs1) → dirs_exist path fs1.
Proof.
  unfold create_dirs, dirs_exist. destruct (parent path) as [d|]; [|done].
  cbn [create_dir_all]. rewrite (st_bind_ok _ _ fs fs fs) by done.
  destruct (Path.is_empty d) eqn:Hd.
  { intros _. left. unfold Path.is_empty in Hd. by apply bool_decide_eq_true in Hd. }
  destruct (names fs !! d) as [[]|] eqn:E; [done|intros [= <-]; by right|].
  destruct (match parent d with Some q => create_dir_all (length d) q | None => mret tt end fs)
    as [r fs'] eqn:E1.
  unfold mbind, st_bind, st_get, st_put. rewrite E1. destruct r as [[]| |]; intros [= <-].
  right. cbn. by rewrite lookup_insert_eq.
Qed.

Lemma create_dirs_idem path fs : dirs_exist path fs → create_dirs path fs = (Ok tt, fs).
Proof.
  unfold create_dirs, dirs_exist. destruct (parent path) as [d|]; [|done].
  cbn [create_dir_all]. rewrite (st_bind_ok _ _ fs fs fs) by done.
  intros [->|Hd]; [done|]. destruct (Path.is_empty d); [done|]. by rewrite Hd.
Qed.

Lemma lockable_again path fs fs1 fs4 :
  lockable path fs fs1 → next_ino fs4 = S (next_ino fs1) →
  (∀ i, (i < next_ino fs1)%nat → is_Some (inodes fs1 !! i) → is_Some (inodes fs4 !! i)) →
  is_Some (inodes fs4 !! next_ino fs1) →
  names fs4 !! lock_path path = None →
  (∀ p, p ≠ path → p ≠ lock_path path → names fs4 !! p = names fs1 !! p) →
  names fs4 !! path = names fs1 !! path ∨ names fs4 !! path = Some (NFile (next_ino fs1)) →
  lockable path fs4 fs4.
Proof.
  intros (Hwf & _ & Hd & Hl & Hnd & Hne) Hx Hi Hn Hl4 Ho Hp.
  destruct (create_dirs_spec path fs (Ok tt) fs1 Hd) as (Hin & Hnx & Hnames).
  assert (names fs4 !! path ≠ Some NDir) as Hnd4 by (destruct Hp as [-> | ->]; done).
  split_and!; [| | |done|done|done].
  - assert (∀ p ino, names fs1 !! p = Some (NFile ino) →
      (ino < next_ino fs4)%nat ∧ is_Some (inodes fs4 !! ino)) as Hold.
    { intros p ino E. apply Hnames in E. destruct (Hwf p ino E) as [Hlt Hs]. split; [lia|].
      apply Hi; [lia|]. by rewrite Hin. }
    intros p ino E. destruct (decide (p = path)) as [->|Hpp].
    + destruct Hp as [Hp|Hp]; rewrite Hp in E; [by eapply Hold|]. injection E as <-. split; [lia|done].
    + destruct (decide (p = lock_path path)) as [->|]; [congruence|].
      rewrite Ho in E by done. by eapply Hold.
  - unfold fs_exists, fs_is_file. destruct (names fs4 !! path) as [[]|]; [by rewrite orb_true_r|done|].
    by rewrite bool_decide_false by by intros [].
  - apply create_dirs_idem. pose proof (create_dirs_made path fs fs1 Hd) as Hm.
    unfold dirs_exist in *. destruct (parent path) as [d|]; [|done].
    destruct Hm as [->|Hm]; [by left|right]. rewrite Ho; [done| |]; intros ->; congruence.
Qed.

Lemma is_Some_ino_data fs i : is_Some (inodes fs !! i) ↔ is_Some (ino_data fs i).
Proof. unfold ino_data. by rewrite fmap_is_Some. Qed.

Lemma is_Some_append ino data fs i :
  is_Some (ino_data fs i) → is_Some (ino_data (fs_append ino data fs) i).
Proof. intros [x Hx]. rewrite ino_data_append. case_decide; rewrite Hx; cbn; eauto. Qed.

Lemma lockable_committed {A} (r : BitResult A) path flags fs fs1 content lf fs2 fs3 fs4 :
  lockable path fs fs1 → locked path flags fs1 content lf fs2 → renamed path fs1 fs2 fs3 →
  then_drop r (set_committed lf) fs3 = (r, fs4) → lockable path fs4 fs4.
Proof.
  intros Hl (_ & _ & _ & _ & Hrb & (Hino & Hn2 & Hx2 & Ho & d & Hd & Hc)) (Hn & Hx & Hi) Hdrop.
  pose proof Hl as (_ & _ & _ & _ & _ & Hne). cbn [names next_ino inodes] in *.
  assert (fs4 = fs_append (next_ino fs1) (bw_buf (lf_lockfile lf)) fs3) as ->.
  { unfold then_drop, lockfile_drop in Hdrop.
    cbn [rolled_back committed set_committed lf_lockfile bw_flush snd] in Hdrop.
    rewrite Hrb, Hino in Hdrop. cbn [andb orb negb] in Hdrop. by injection Hdrop. }
  eapply lockable_again; [exact Hl| | | | | |]; cbn [names next_ino fs_append].
  - by rewrite Hx, Hx2.
  - intros i Hlt Hs. apply is_Some_ino_data, is_Some_append. rewrite Hi.
    apply is_Some_ino_data. rewrite Ho by lia. done.
  - apply is_Some_ino_data, is_Some_append. rewrite Hi, Hd. eauto.
  - by rewrite Hn, lookup_insert_ne, lookup_delete_eq.
  - intros p Hp Hpl. by rewrite Hn, lookup_insert_ne, lookup_delete_ne, Hn2, lookup_insert_ne.
  - right. by rewrite Hn, lookup_insert_eq.
Qed.

Lemma lockable_uncommitted {A} (r : BitResult A) path flags fs fs1 content lf lf' fs2 fs4 :
  lockable path fs fs1 → locked path flags fs1 content lf fs2 →
  lf' = lf ∨ lf' = lockfile_rollback lf →
  then_drop r lf' fs2 = (r, fs4) → lockable path fs4 fs4.
Proof.
  intros Hl (_ & Hlp & _ & Hcm & Hrb & (Hino & Hn2 & Hx2 & Ho & d & Hd & Hc)) Hlf Hdrop.
  pose proof Hl as (_ & _ & _ & _ & _ & Hne). cbn [names next_ino inodes] in *.
  assert (fs_remove_file (lock_path path) fs2 = (Ok tt, set_names fs2 (delete (lock_path path) (names fs2)))) as Hrm.
  { unfold fs_remove_file. rewrite (st_bind_ok _ _ fs2 fs2 fs2) by done.
    unfold fs_is_file. by rewrite Hn2, lookup_insert_eq. }
  assert (fs4 = fs_append (next_ino fs1) (bw_buf (lf_lockfile lf))
                  (set_names fs2 (delete (lock_path path) (names fs2)))) as ->.
  { unfold then_drop, lockfile_drop in Hdrop.
    destruct Hlf as [->| ->]; cbn [rolled_back committed lockfile_path lf_lockfile lockfile_rollback] in Hdrop;
      rewrite ?Hrb, Hcm, Hlp, Hrm in Hdrop; cbn [andb orb negb bw_flush snd] in Hdrop;
      rewrite Hino in Hdrop; by injection Hdrop. }
  eapply lockable_again; [exact Hl| | | | | |]; cbn [names next_ino fs_append set_names].
  - done.
  - intros i Hlt Hs. apply is_Some_ino_data, is_Some_append, is_Some_ino_data. cbn [inodes set_names].
    rewrite Ho by lia. done.
  - apply is_Some_ino_data, is_Some_append. unfold ino_data in *. cbn [inodes set_names]. rewrite Hd. eauto.
  - by rewrite lookup_delete_eq.
  - intros p Hp Hpl. by rewrite lookup_delete_ne, Hn2, lookup_insert_ne.
  - left. by rewrite lookup_delete_ne, Hn2, lookup_insert_ne.
Qed.

(** *** What the clients of a lock rely on *)

(** Writing a file under its lock. *)
Lemma with_mut_write path flags fs fs1 w :
  lockable path fs fs1 →
  ∃ fs', with_mut path flags (lockfile_write w) fs = (Ok tt, fs') ∧ lockable path fs' fs'
    ∧ fs_read fs' path = Some w ∧ ∀ q, q ≠ path → fs_read fs' q = fs_read fs q.
Proof.
  intros Hl. destruct (lockfile_open_ok path flags fs fs1 Hl) as (lf & fs2 & Ho & Hk & _).
  unfold with_mut. rewrite (st_bind_ok _ _ fs fs2 lf) by done.
  destruct (lockfile_write_ok path flags fs1 [] lf fs2 w Hk) as (fs3 & lf3 & Hw & Hk3 & _).
  rewrite Hw. cbn [app] in Hk3.
  destruct (lockfile_commit_ok path flags fs fs1 _ lf3 fs3 Hl Hk3) as (fs4 & -> & Hr).
  cbn [mbind outcome_bind].
  destruct (drop_committed (Ok tt) path flags fs fs1 _ lf3 fs3 fs4 Hl Hk3 Hr) as (fs5 & H5 & _ & Hp & Hq).
  exists fs5. split_and!; [done|by eapply lockable_committed|done|done].
Qed.

(** Reading a file under its lock, once its directory exists: nothing changes but
    the number of inodes. *)
Lemma with_readonly_read {A} path flags fs (f : Lockfile → st Fs A) (r : BitResult A) :
  lockable path fs fs → r ≠ Panic →
  (∀ lf fs2, names fs2 = <[lock_path path := NFile (next_ino fs)]> (names fs) →
     (∀ q, q ≠ lock_path path → fs_read fs2 q = fs_read fs q) →
     match lf_file lf with Some ino => ino_data fs2 ino | None => None end = fs_read fs path →
     f lf fs2 = (r, fs2)) →
  ∃ fs', with_readonly path flags f fs = (r, fs') ∧ names fs' = names fs ∧ fs_wf fs'
    ∧ ∀ q, fs_read fs' q = fs_read fs q.
Proof.
  intros Hl Hr Hf. destruct (lockfile_open_ok path flags fs fs Hl) as (lf & fs2 & Ho & Hk & Hfile).
  pose proof Hl as (Hwf & _ & _ & Hlk & _ & Hne).
  pose proof Hk as (_ & _ & _ & _ & _ & (_ & Hn2 & _ & Hoth & _)). cbn [names inodes] in Hn2, Hoth.
  assert (∀ q, q ≠ lock_path path → fs_read fs2 q = fs_read fs q) as Hread.
  { intros q Hq. rewrite !fs_read_eq, Hn2, lookup_insert_ne by done.
    destruct (names fs !! q) as [[ino|]|] eqn:E; [|done|done].
    unfold ino_data. destruct (Hwf q ino E) as [Hlt _]. by rewrite Hoth by lia. }
  unfold with_readonly. rewrite (st_bind_ok _ _ fs fs2 lf) by done.
  rewrite (Hf lf fs2 Hn2 Hread).
  2: { rewrite Hfile, fs_read_eq. destruct (names fs !! path) as [[ino|]|] eqn:E; [|done|done].
       unfold ino_data. destruct (Hwf path ino E) as [Hlt _]. by rewrite Hoth by lia. }
  destruct (drop_uncommitted r path flags fs fs [] lf (lockfile_rollback lf) fs2 Hl Hk ltac:(by right))
    as (fs4 & H4 & _ & Hq4).
  exists fs4. split; [by destruct r|].
  pose proof (lockable_uncommitted r path flags fs fs [] lf (lockfile_rollback lf) fs2 fs4 Hl Hk
    ltac:(by right) H4) as (Hwf4 & _).
  split_and!; [|done|done].
  assert (names fs4 = delete (lock_path path) (names fs2)) as ->.
  { pose proof Hk as (_ & Hlp & _ & Hcm & Hrb & _).
    unfold then_drop, lockfile_drop in H4. cbn [rolled_back committed lockfile_path lockfile_rollback] in H4.
    rewrite Hcm, Hlp in H4. cbn [andb orb negb] in H4.
    unfold fs_remove_file in H4. rewrite (st_bind_ok _ _ fs2 fs2 fs2) in H4 by done.
    unfold fs_is_file in H4. rewrite Hn2, lookup_insert_eq in H4. cbn [st_put] in H4.
    injection H4 as <-. by rewrite Hn2. }
  rewrite Hn2, delete_insert_eq, delete_id by done. done.
Qed.

Lemma lockable_same_names path fs fs' :
  lockable path fs fs → names fs' = names fs → fs_wf fs' → lockable path fs' fs'.
Proof.
  intros (_ & Ha & Hd & Hl & Hnd & Hne) Hn Hwf. split_and!; [done| | | | |done].
  - unfold fs_exists, fs_is_file in *. by rewrite Hn.
  - apply create_dirs_idem. apply create_dirs_made in Hd. unfold dirs_exist in *. by rewrite Hn.
  - by rewrite Hn.
  - by rewrite Hn.
Qed.

Lemma create_dir_all_res fuel d fs r fs' :
  create_dir_all fuel d fs = (r, fs') → r = Ok tt ∨ r = Err Anyhow.
Proof.
  revert d fs r fs'. induction fuel as [|fuel IH]; intros d fs r fs'; cbn [create_dir_all];
    rewrite (st_bind_ok _ _ fs fs fs) by done; [intros [= <- _]; by left|].
  destruct (Path.is_empty d); [intros [= <- _]; by left|].
  destruct (names fs !! d) as [[]|]; [intros [= <- _]; by right|intros [= <- _]; by left|].
  destruct (match parent d with Some q => create_dir_all fuel q | None => mret tt end fs)
    as [r1 fs1] eqn:E1.
  assert (r1 = Ok tt ∨ r1 = Err Anyhow) as Hr1.
  { destruct (parent d); [by eapply IH|]. injection E1 as <- _. by left. }
  unfold mbind, st_bind, st_get, st_put. rewrite E1.
  destruct Hr1 as [-> | ->]; intros [= <- _]; [by left|by right].
Qed.

Lemma same_files_read fs fs' :
  inodes fs' = inodes fs → (∀ p ino, names fs' !! p = Some (NFile ino) ↔ names fs !! p = Some (NFile ino)) →
  ∀ q, fs_read fs' q = fs_read fs q.
Proof.
  intros Hi Hp q. rewrite !fs_read_eq. unfold ino_data. rewrite Hi.
  destruct (names fs' !! q) as [[ino|]|] eqn:E'; [apply Hp in E'; by rewrite E'|..];
    (destruct (names fs !! q) as [[ino|]|] eqn:E; [apply Hp in E; congruence|done..]).
Qed.

(** ** Theorems *)

(** A closure that writes [chunks] to the lockfile and returns [r]. *)
Definition write_then {A} (chunks : list bytes) (r : BitResult A) : st (Fs * Lockfile) A := λ s,
  let '(_, s) := lockfile_write_all chunks s in (r, s).

(** C20: [with_mut] is all or nothing: once it has returned, the file holds exactly
    what the closure wrote if the closure succeeded, and is unchanged if the closure failed or
    panicked; in every case the lock is released, every other file is unchanged and
    the result is the closure's. *)
Theorem with_mut_all_or_nothing {A} path flags fs fs1 chunks (r : BitResult A) :
  lockable path fs fs1 →
  ∃ fs', with_mut path flags (write_then chunks r) fs = (r, fs')
    ∧ names fs' !! lock_path path = None
    ∧ fs_read fs' path = (if is_ok r then Some (mjoin chunks) else fs_read fs path)
    ∧ ∀ q, q ≠ path → fs_read fs' q = fs_read fs q.
Proof.
  intros Hl. destruct (lockfile_open_ok path flags fs fs1 Hl) as (lf & fs2 & Ho & Hk & _).
  unfold with_mut. rewrite (st_bind_ok _ _ fs fs2 lf) by done.
  destruct (lockfile_write_all_ok path flags fs1 chunks [] lf fs2 Hk) as (fs3 & lf3 & Hw & Hk3).
  unfold write_then. rewrite Hw. cbn [app] in Hk3. destruct r as [a|e|].
  - destruct (lockfile_commit_ok path flags fs fs1 _ lf3 fs3 Hl Hk3) as (fs4 & -> & Hr).
    cbn [mbind outcome_bind]. destruct (drop_committed (Ok a) path flags fs fs1 _ lf3 fs3 fs4 Hl Hk3 Hr)
      as (fs5 & H5 & ? & ? & ?). by exists fs5.
  - destruct (drop_uncommitted (Err e : BitResult A) path flags fs fs1 _ lf3 (lockfile_rollback lf3) fs3 Hl Hk3
      ltac:(by right)) as (fs5 & H5 & ? & ?). by exists fs5.
  - destruct (drop_uncommitted (Panic : BitResult A) path flags fs fs1 _ lf3 lf3 fs3 Hl Hk3
      ltac:(by left)) as (fs5 & H5 & ? & ?). by exists fs5.
Qed.

(** The lock is exclusive: while a lockfile is open, opening it again fails, and
    the failed attempt changes no file. *)
Theorem lockfile_exclusive path flags flags' fs fs1 :
  lockable path fs fs1 →
  ∃ lf fs2 fs3, lockfile_open path flags fs = (Ok lf, fs2)
    ∧ lockfile_open path flags' fs2 = (Err Anyhow, fs3)
    ∧ ∀ q, fs_read fs3 q = fs_read fs2 q.
Proof.
  intros Hl. destruct (lockfile_open_ok path flags fs fs1 Hl) as (lf & fs2 & Ho & Hk & _).
  pose proof Hk as (_ & _ & _ & _ & _ & (_ & Hn & _)). pose proof Hl as (_ & _ & _ & _ & Hnd & Hne).
  cbn [names] in Hn. destruct (create_dirs path fs2) as [r fs3] eqn:Hd. exists lf, fs2, fs3.
  pose proof (create_dirs_spec path fs2 r fs3 Hd) as (Hi & _ & Hp).
  split_and!; [done| |by apply same_files_read].
  unfold lockfile_open. rewrite (st_bind_ok _ _ fs2 fs2 fs2) by done.
  rewrite (st_bind_ok _ _ fs2 fs2 tt).
  2: { unfold st_lift, fs_exists, fs_is_file. rewrite Hn, lookup_insert_ne by done.
       destruct (names fs1 !! path) as [[]|] eqn:E; [|done|by rewrite bool_decide_false by by intros []].
       by rewrite orb_true_r. }
  fold (create_dirs path).
  assert (r = Ok tt ∨ r = Err Anyhow) as [-> | ->].
  { unfold create_dirs in Hd. destruct (parent path); [by eapply create_dir_all_res|].
    injection Hd as <- _. by left. }
  - rewrite (st_bind_ok _ _ _ _ _ Hd). apply st_bind_err. unfold create_new.
    rewrite (st_bind_ok _ _ fs3 fs3 fs3) by done. unfold fs_exists.
    rewrite bool_decide_true; [done|]. exists (NFile (next_ino fs1)). apply Hp. by rewrite Hn, lookup_insert_eq.
  - by apply st_bind_err.
Qed.

(** While the contents fit the buffer, nothing reaches the lockfile. *)
Lemma write_all_buffered chunks : ∀ lf fs,
  (length (bw_buf (lf_lockfile lf)) + length (mjoin chunks) < BUF_CAPACITY)%nat →
  ∃ lf', lockfile_write_all chunks (fs, lf) = (Ok tt, (fs, lf')).
Proof.
  induction chunks as [|c chunks IH]; intros lf fs Hlen; cbn [lockfile_write_all]; [by exists lf|].
  change (mjoin (c :: chunks)) with (c ++ mjoin chunks) in Hlen. rewrite length_app in Hlen.
  assert (bw_write c (lf_lockfile lf) fs
    = (mk_BufWriter (bw_ino (lf_lockfile lf)) (bw_buf (lf_lockfile lf) ++ c), fs)) as E.
  { unfold bw_write. destruct (Nat.ltb_spec (length c) (BUF_CAPACITY - length (bw_buf (lf_lockfile lf))));
      [done|lia]. }
  erewrite st_bind_ok; [|unfold lockfile_write; rewrite E; reflexivity].
  apply IH. cbn [lf_lockfile bw_buf]. rewrite length_app. lia.
Qed.

(** The commit renames the lockfile before the buffer is flushed, which only
    happens when the lockfile is dropped: between the two, a file of less than the
    8192 bytes of the buffer is empty for everybody who reads it. *)
Theorem commit_renames_before_flush path flags fs fs1 chunks :
  lockable path fs fs1 → (length (mjoin chunks) < BUF_CAPACITY)%nat →
  ∃ lf fs2 lf2 fs3 lf3, lockfile_open path flags fs = (Ok lf, fs2)
    ∧ lockfile_write_all chunks (fs2, lf) = (Ok tt, (fs2, lf2))
    ∧ lockfile_commit (fs2, lf2) = (Ok tt, (fs3, lf3))
    ∧ fs_read fs3 path = Some [].
Proof.
  intros Hl Hlen. destruct (lockfile_open_ok path flags fs fs1 Hl) as (lf & fs2 & Ho & Hk & _).
  pose proof Hk as (_ & _ & _ & _ & _ & (_ & _ & _ & _ & d & Hd & Hc)).
  apply app_eq_nil in Hc as [-> Hb].
  destruct (write_all_buffered chunks lf fs2) as [lf2 Hw]; [by rewrite Hb|].
  destruct (lockfile_write_all_ok path flags fs1 chunks [] lf fs2 Hk) as (fs2' & lf2' & Hw' & Hk2).
  rewrite Hw in Hw'. injection Hw' as <- <-.
  destruct (lockfile_commit_ok path flags fs fs1 _ lf2 fs2 Hl Hk2) as (fs3 & Hcm & Hr).
  destruct (renamed_read path flags fs fs1 _ lf2 fs2 fs3 Hl Hk2 Hr) as (_ & Hread & _).
  exists lf, fs2, lf2, fs3, (set_committed lf2). rewrite Hread, Hd. done.
Qed.

Section filelock_theorems.
Context {T : Type} `{Serialize T, Deserialize T}.

(** A value under a [Filelock]: the lock gives the value of the file, or the
    default when there is no file; dropping it writes the file only if the value was
    accessed mutably and not rolled back, and then the file holds the new value and nothing else
    changes; and the lock is released. *)
Theorem filelock_transaction (dflt old : T) (g : T → T) path fs fs1 w :
  lockable path fs fs1 →
  match fs_read fs path with Some s => fst <$> deserialize s | None => Ok dflt end = Ok old →
  serialize (g old) = Ok w →
  ∃ l fs2 l' fsa fsb fsc,
    filelock_lock dflt path fs = (Ok l, fs2) ∧ filelock_deref l = Ok old
    ∧ filelock_update g l = Ok l'
    ∧ (filelock_drop l fs2 = (Ok tt, fsa) ∧ ∀ q, fs_read fsa q = fs_read fs q)
    ∧ (filelock_drop (filelock_rollback l') fs2 = (Ok tt, fsb) ∧ ∀ q, fs_read fsb q = fs_read fs q)
    ∧ (filelock_drop l' fs2 = (Ok tt, fsc)
       ∧ ∀ q, fs_read fsc q = if decide (q = path) then Some w else fs_read fs q)
    ∧ names fsa !! lock_path path = None ∧ names fsb !! lock_path path = None
    ∧ names fsc !! lock_path path = None.
Proof.
  intros Hl Hold Hser. destruct (lockfile_open_ok path false fs fs1 Hl) as (lf & fs2 & Ho & Hk & Hfile).
  pose proof Hl as (Hwf & _ & Hdirs & _ & _ & Hne).
  destruct (create_dirs_spec path fs (Ok tt) fs1 Hdirs) as (Hin & Hnx & Hp).
  set (l := mk_Filelock old lf false false). set (l' := mk_Filelock (g old) lf true false).
  assert (filelock_lock dflt path fs = (Ok l, fs2)) as Hlock.
  { unfold filelock_lock, lock_with_flags. rewrite (st_bind_ok _ _ fs fs2 lf) by done. rewrite Hfile.
    rewrite fs_read_eq in Hold. destruct (names fs !! path) as [[ino|]|] eqn:E.
    - pose proof Hk as (_ & _ & _ & _ & _ & (_ & _ & _ & Hoth & _)). cbn [inodes] in Hoth.
      destruct (Hwf path ino E) as [Hlt [i Hi]]. unfold ino_data in Hold. rewrite Hi in Hold.
      rewrite Hoth, Hin, Hi by lia. cbn in Hold. by rewrite Hold.
    - by injection Hold as <-.
    - by injection Hold as <-. }
  destruct (drop_uncommitted (Ok tt) path false fs fs1 [] lf lf fs2 Hl Hk ltac:(by left))
    as (fsa & Ha & Hna & Hra).
  destruct (drop_uncommitted (Ok tt) path false fs fs1 [] lf (lockfile_rollback lf) fs2 Hl Hk ltac:(by right))
    as (fsb & Hb & Hnb & Hrb).
  destruct (lockfile_write_ok path false fs1 [] lf fs2 w Hk) as (fs3 & lf3 & Hw & Hk3 & _).
  destruct (lockfile_commit_ok path false fs fs1 _ lf3 fs3 Hl Hk3) as (fs4 & Hcm & Hr4).
  destruct (drop_committed (Ok tt) path false fs fs1 _ lf3 fs3 fs4 Hl Hk3 Hr4) as (fsc & Hc & Hnc & Hrc & Hrest).
  exists l, fs2, l', fsa, fsb, fsc. split_and!; try done.
  - unfold filelock_drop. cbn [fl_rolled_back dirty l' orb negb fl_data fl_lockfile].
    by rewrite Hser, Hw, Hcm.
  - intros q. case_decide as Hq; [by subst|by apply Hrest].
Qed.
End filelock_theorems.

(** ** Witnesses *)

Definition sample_fs : Fs :=
  mk_Fs {[ bs "/git" := NDir; bs "/git/index" := NFile 0; bs "/git/HEAD" := NFile 1 ]}
    {[ 0%nat := mk_Inode (bs "old") false; 1%nat := mk_Inode (bs "ref") false ]} 2.

Lemma sample_fs_lockable : lockable (bs "/git/index") sample_fs sample_fs.
Proof.
  split_and!; [|by vm_compute|by vm_compute|by vm_compute|by vm_compute|by vm_compute].
  intros p ino Hp. unfold sample_fs in *. cbn [names inodes next_ino] in *.
  apply lookup_insert_Some in Hp as [[_ ?]|[_ Hp]]; [done|].
  apply lookup_insert_Some in Hp as [[_ [= <-]]|[_ Hp]]; [by split; [lia|vm_compute; eauto]|].
  apply lookup_singleton_Some in Hp as [_ [= <-]]. by split; [lia|vm_compute; eauto].
Qed.

Lemma with_mut_all_or_nothing_witness :
  ∃ fs', with_mut (bs "/git/index") true (write_then [bs "ne"; bs "w"] (Ok tt)) sample_fs = (Ok tt, fs')
    ∧ fs_read fs' (bs "/git/index") = Some (bs "new").
Proof.
  destruct (with_mut_all_or_nothing (bs "/git/index") true sample_fs sample_fs [bs "ne"; bs "w"] (Ok tt)
    sample_fs_lockable) as (fs' & H1 & _ & H2 & _). by exists fs'.
Defined.

Lemma lockfile_exclusive_witness :
  ∃ lf fs2 fs3, lockfile_open (bs "/git/index") false sample_fs = (Ok lf, fs2)
    ∧ lockfile_open (bs "/git/index") false fs2 = (Err Anyhow, fs3)
    ∧ ∀ q, fs_read fs3 q = fs_read fs2 q.
Proof.
  apply (lockfile_exclusive (bs "/git/index") false false sample_fs sample_fs), sample_fs_lockable.
Defined.

Lemma commit_renames_before_flush_witness :
  ∃ lf fs2 lf2 fs3 lf3, lockfile_open (bs "/git/index") false sample_fs = (Ok lf, fs2)
    ∧ lockfile_write_all [bs "new"] (fs2, lf) = (Ok tt, (fs2, lf2))
    ∧ lockfile_commit (fs2, lf2) = (Ok tt, (fs3, lf3))
    ∧ fs_read fs3 (bs "/git/index") = Some [].
Proof.
  apply (commit_renames_before_flush (bs "/git/index") false sample_fs sample_fs [bs "new"]).
  - apply sample_fs_lockable.
  - unfold BUF_CAPACITY. cbn. lia.
Defined.

(** [Vec<u8>] under a lock. *)
#[local] Instance bytes_serialize : Serialize bytes := λ b, Ok b.
#[local] Instance bytes_deserialize : Deserialize bytes := read_to_vec.

Lemma filelock_transaction_witness :
  ∃ l fs2 l' fsc,
    filelock_lock [] (bs "/git/index") sample_fs = (Ok l, fs2)
    ∧ filelock_update (.++ bs "er") l = Ok l'
    ∧ filelock_drop l' fs2 = (Ok tt, fsc)
    ∧ fs_read fsc (bs "/git/index") = Some (bs "older").
Proof.
  destruct (filelock_transaction [] (bs "old") (.++ bs "er") (bs "/git/index") sample_fs sample_fs (bs "older")
    sample_fs_lockable ltac:(by vm_compute) ltac:(by vm_compute))
    as (l & fs2 & l' & fsa & fsb & fsc & H1 & _ & H2 & _ & _ & [H3 H4] & _).
  exists l, fs2, l', fsc. split_and!; [done|done|done|]. rewrite H4. by rewrite decide_True.
Defined.
