(* ===== verification/Refs.v ===== *)
(** * Refs

    [libbit/src/refs.rs]: reference names, symbolic references and their kinds, and
    the contents of reference files; [libbit/src/refs/reflog.rs]: the logs of
    references. *)

From Stdlib Require Import ZArith Lia.
From Stdlib Require Import Strings.Byte.
From stdpp Require Import base tactics option list countable strings.
From S2P Require Import Prelude RustStd Data Io Hash Path Signature.

#[local] Open Scope Z_scope.

(** ** Names *)

(** One alternative of a regular expression: a literal anywhere in the string, at
    its start ([^]) or at its end ([$]). *)
Inductive Alternative := Anywhere (lit : bytes) | AtStart (lit : bytes) | AtEnd (lit : bytes).

Fixpoint contains (lit s : bytes) : bool :=
  starts_with lit s || match s with [] => false | _ :: s => contains lit s end.

Definition ends_with (lit s : bytes) : bool :=
  (length lit <=? length s)%nat && bool_decide (drop (length s - length lit) s = lit).

Definition alternative_matches (s : bytes) (a : Alternative) : bool :=
  match a with
  | Anywhere lit => contains lit s
  | AtStart lit => starts_with lit s
  | AtEnd lit => ends_with lit s
  end.

Definition INVALID_REF_REGEX : list Alternative :=
  [AtStart (bs "."); Anywhere (bs "/."); Anywhere (bs ".."); Anywhere (bs "*"); Anywhere (bs ":");
   Anywhere (bs "?"); Anywhere (bs "["); Anywhere (bs "\"); Anywhere (bs "^"); Anywhere (bs "~");
   Anywhere (bs " "); Anywhere [x09]; AtEnd (bs "/"); AtEnd (bs ".lock"); Anywhere (bs "@{")].

Definition is_valid_name (s : bytes) : bool :=
  negb (existsb (alternative_matches s) INVALID_REF_REGEX).

(** ** Symbolic references *)

Definition HEAD : BitPath := bs "HEAD".
Definition ATSYM : BitPath := bs "@".
Definition REFS_HEADS : BitPath := bs "refs/heads".
Definition REFS_TAGS : BitPath := bs "refs/tags".
Definition REFS_REMOTES : BitPath := bs "refs/remotes".
Definition REFS_STASH : BitPath := bs "refs/stash".
Definition MASTER : BitPath := bs "refs/heads/master".

Definition calculate_kind (path : BitPath) : SymbolicRefKind :=
  if bool_decide (path = HEAD) then KHead
  else if path_starts_with path REFS_HEADS then KBranch
  else if path_starts_with path REFS_REMOTES then KRemote
  else if path_starts_with path REFS_TAGS then KTag
  else if bool_decide (path = REFS_STASH) then KStash
  else KUnknown.

Definition symref_new (path : BitPath) : SymbolicRef := mk_SymbolicRef path (calculate_kind path).

Definition symref_new_valid (path : BitPath) : BitResult SymbolicRef :=
  let sym := symref_new path in
  _ ← ensure (bool_decide (sym_kind sym ≠ KUnknown)) Anyhow;
  Ok (mk_SymbolicRef path (calculate_kind path)).

Definition SYM_HEAD : SymbolicRef := mk_SymbolicRef HEAD KHead.
Definition SYM_MASTER : SymbolicRef := mk_SymbolicRef MASTER KBranch.

Definition symref_is_remote (sym : SymbolicRef) : bool := bool_decide (sym_kind sym = KRemote).
Definition symref_is_local (sym : SymbolicRef) : bool := negb (symref_is_remote sym).

Definition symref_new_branch (name : bytes) : BitResult SymbolicRef :=
  match symref_new_valid (bs "refs/heads/" ++ name) with Ok sym => Ok sym | _ => Panic end.

(** [derive(Ord)] on the kinds, and [Ord for SymbolicRef]. *)
Definition kind_as_u8 (k : SymbolicRefKind) : Z :=
  match k with KHead => 0 | KRemote => 1 | KBranch => 2 | KTag => 3 | KStash => 4 | KUnknown => 5 end.

Definition symref_cmp (a b : SymbolicRef) : comparison :=
  then_with (Z.compare (kind_as_u8 (sym_kind a)) (kind_as_u8 (sym_kind b)))
    (path_cmp (sym_path a) (sym_path b)).

(** [Path::strip_prefix]: the segments behind [k] components. *)
Fixpoint drop_components (k : nat) (segs : list bytes) : list bytes :=
  match segs with
  | [] => []
  | s :: rest =>
      if is_junk false s then drop_components k rest
      else match k with O => segs | S k => drop_components k rest end
  end.

Definition path_strip_prefix (p base : BitPath) : option BitPath :=
  if path_starts_with p base
  then Some (join_slash (drop_components (length (path_components base)) (body_segments p)))
  else None.

Definition symref_short (sym : SymbolicRef) : BitPath :=
  match find (path_starts_with (sym_path sym)) [REFS_HEADS; REFS_TAGS; REFS_REMOTES] with
  | Some prefix => default (sym_path sym) (path_strip_prefix (sym_path sym) prefix)
  | None => sym_path sym
  end.

(** [Display for SymbolicRef]. *)
Definition symref_display (alternate : bool) (sym : SymbolicRef) : bytes :=
  if alternate then default (sym_path sym) (path_strip_prefix (sym_path sym) (bs "refs/heads/"))
  else sym_path sym.

Definition SYMBOLIC_REF_PREFIX : bytes := bs "ref: ".

(** [FromStr for SymbolicRef]. *)
Definition symref_from_str (s : bytes) : BitResult SymbolicRef :=
  let r := trim_end (if starts_with SYMBOLIC_REF_PREFIX s
                     then drop (length SYMBOLIC_REF_PREFIX) s else s) in
  let path := if bool_decide (r = ATSYM) then HEAD else r in
  Ok (symref_new path).

(** ** References *)

Inductive BitRef := Direct (oid : Oid) | Symbolic (sym : SymbolicRef).

#[export] Instance BitRef_eq_dec : EqDecision BitRef.
Proof. solve_decision. Defined.

Section hex.
Context `{Hex}.

Definition bitref_display (r : BitRef) : bytes :=
  match r with Direct oid => oid_display oid | Symbolic sym => symref_display false sym end.

#[export] Instance bitref_serialize : Serialize BitRef := λ r,
  Ok (match r with
      | Direct oid => oid_display oid
      | Symbolic sym => bs "ref: " ++ symref_display false sym
      end).

(** [FromStr for BitRef]: [if let Ok(oid) = Oid::from_str(s)]. *)
Definition bitref_from_str (s : bytes) : BitResult BitRef :=
  match oid_from_str s with
  | Ok oid => Ok (Direct oid)
  | Err _ => Symbolic <$> symref_from_str s
  | Panic => Panic
  end.

#[export] Instance bitref_deserialize : Deserialize BitRef :=
  s ← read_to_str;
  lift (bitref_from_str s).

(** ** reflog.rs *)

Record BitReflogEntry := mk_BitReflogEntry {
  old_oid : Oid;
  new_oid : Oid;
  rl_committer : BitSignature;
  rl_message : bytes;
}.

(** [Serialize for BitReflogEntry]: the line without its end. *)
Definition reflog_line (e : BitReflogEntry) : bytes :=
  oid_display (old_oid e) ++ [x20] ++ oid_display (new_oid e) ++ [x20]
  ++ signature_display (rl_committer e) ++ [x09] ++ rl_message e.

#[export] Instance reflog_entry_serialize : Serialize BitReflogEntry := λ e,
  Ok (reflog_line e ++ [x0a]).

(** [BitReflog]: the entries, the most recent one last. *)
Record BitReflog := mk_BitReflog { rl_entries : list BitReflogEntry }.

Definition reflog_default : BitReflog := mk_BitReflog [].

(** [Index]: back to front. *)
Definition reflog_index (l : BitReflog) (index : nat) : BitResult BitReflogEntry :=
  _ ← assert_that (index + 1 <=? length (rl_entries l))%nat;
  unwrap (rl_entries l !! (length (rl_entries l) - index - 1)%nat).

Definition reflog_get (l : BitReflog) (index : nat) : BitResult (option BitReflogEntry) :=
  if (length (rl_entries l) <=? index)%nat then Ok None
  else Some <$> reflog_index l index.

Definition reflog_append (l : BitReflog) (oid : Oid) (committer : BitSignature) (msg : bytes) : BitReflog :=
  let old := match last (rl_entries l) with Some e => new_oid e | None => UNKNOWN end in
  mk_BitReflog (rl_entries l ++ [mk_BitReflogEntry old oid committer msg]).

(** [FromStr for BitReflogEntry]. *)
Definition reflog_entry_from_str (s : bytes) : BitResult BitReflogEntry :=
  '(old, s) ← unwrap (split_once x20 s);
  '(new, s) ← unwrap (split_once x20 s);
  '(committer, message) ← unwrap (split_once x09 s);
  old ← oid_from_str old;
  new ← oid_from_str new;
  committer ← signature_from_str committer;
  Ok (mk_BitReflogEntry old new committer message).

(** [FromStr for BitReflog]. *)
Definition reflog_from_str (s : bytes) : BitResult BitReflog :=
  mk_BitReflog <$> collect reflog_entry_from_str (lines s).

#[export] Instance reflog_serialize : Serialize BitReflog := λ l, write_iter (rl_entries l).

#[export] Instance reflog_deserialize : Deserialize BitReflog :=
  s ← read_to_str;
  lift (reflog_from_str s).
End hex.

(** ** Lemmas *)

Lemma contains_spec lit s : contains lit s = true ↔ ∃ a b, s = a ++ lit ++ b.
Proof.
  induction s as [|c s IH]; cbn [contains]; rewrite orb_true_iff, starts_with_spec.
  - split; [intros [[t ->]|?]; [by exists [], t|done]|].
    intros (a & b & E). left. exists b. by destruct a.
  - rewrite IH. split.
    + intros [[t ->]|(a & b & ->)]; [by exists [], t|by exists (c :: a), b].
    + intros ([|x a] & b & E); [left; by exists b|right]. exists a, b. by injection E.
Qed.

Lemma ends_with_spec lit s : ends_with lit s = true ↔ ∃ a, s = a ++ lit.
Proof.
  unfold ends_with. rewrite andb_true_iff, Nat.leb_le, bool_decide_eq_true. split.
  - intros [Hl Hd]. exists (take (length s - length lit) s). rewrite <- Hd at 2. by rewrite take_drop.
  - intros [a ->]. rewrite length_app. split; [lia|]. by rewrite Nat.add_sub, drop_app_length.
Qed.

Lemma contains_char c s : contains [c] s = true ↔ c ∈ s.
Proof.
  rewrite contains_spec. split.
  - intros (a & b & ->). apply elem_of_app. right. apply list_elem_of_here.
  - intros (a & b & ->)%list_elem_of_split. by exists a, b.
Qed.

(** A component that starts with a dot. *)
Definition dotted (comp : bytes) : Prop := head comp = Some x2e.

#[export] Instance dotted_dec comp : Decision (dotted comp).
Proof. unfold dotted. apply _. Defined.

Lemma starts_with_dot s : starts_with [x2e] s = true ↔ dotted s.
Proof.
  unfold dotted. destruct s as [|c s]; cbn; [done|]. rewrite andb_true_r, bool_decide_eq_true.
  split; congruence.
Qed.

Lemma split_byte_cons_eq c s : split_byte c (c :: s) = [] :: split_byte c s.
Proof. cbn. by rewrite bool_decide_true. Qed.

Lemma split_byte_cons_ne c d s : d ≠ c →
  ∃ x xs, split_byte c s = x :: xs ∧ split_byte c (d :: s) = (d :: x) :: xs.
Proof.
  intros Hd. pose proof (split_byte_ne c s) as Hne. cbn. rewrite bool_decide_false by done.
  destruct (split_byte c s) as [|x xs]; [done|]. by exists x, xs.
Qed.

Lemma dotted_components s :
  Exists dotted (split_slash s) ↔ starts_with (bs ".") s = true ∨ contains (bs "/.") s = true.
Proof.
  unfold split_slash. change (bs ".") with [x2e]. change (bs "/.") with [x2f; x2e].
  enough (∀ x xs, split_byte x2f s = x :: xs →
    (dotted x ↔ starts_with [x2e] s = true) ∧ (Exists dotted xs ↔ contains [x2f; x2e] s = true)) as H.
  { pose proof (split_byte_ne x2f s). destruct (split_byte x2f s) as [|x xs]; [done|].
    destruct (H x xs eq_refl) as [H1 H2]. rewrite Exists_cons, H1, H2. done. }
  induction s as [|d s IH]; intros x xs E.
  - injection E as <- <-. cbn. rewrite Exists_nil. unfold dotted. cbn. naive_solver.
  - destruct (decide (d = x2f)) as [->|Hd].
    + rewrite split_byte_cons_eq in E. injection E as <- <-. split; [unfold dotted; cbn; naive_solver|].
      pose proof (split_byte_ne x2f s). destruct (split_byte x2f s) as [|y ys]; [done|].
      destruct (IH y ys eq_refl) as [H1 H2]. rewrite Exists_cons, H1, H2.
      cbn [contains]. rewrite orb_true_iff. cbn [starts_with]. by rewrite bool_decide_true.
    + destruct (split_byte_cons_ne x2f d s Hd) as (y & ys & Ey & Eyd). rewrite Eyd in E. injection E as <- <-.
      destruct (IH y ys Ey) as [H1 H2]. split.
      * unfold dotted. cbn. rewrite andb_true_r, bool_decide_eq_true. naive_solver.
      * rewrite H2. cbn [contains starts_with]. rewrite bool_decide_false by done. done.
Qed.

(** The bytes that a name may not contain. *)
Definition forbidden (b : byte) : Prop := b ∈ bs "*:?[\^~ " ++ [x09].

(** [is_valid_name] rejects exactly the names its comment lists: a component that
    begins with a dot, two dots in a row, a forbidden character, a slash or [.lock]
    at the end, or an [@] before a brace. *)
Theorem is_valid_name_correct s :
  is_valid_name s = true ↔
  Forall (λ comp, ¬ dotted comp) (split_slash s)
  ∧ (¬ ∃ a b, s = a ++ bs ".." ++ b)
  ∧ (∀ b, b ∈ s → ¬ forbidden b)
  ∧ (¬ ∃ a, s = a ++ bs "/") ∧ (¬ ∃ a, s = a ++ bs ".lock")
  ∧ (¬ ∃ a b, s = a ++ bs "@{" ++ b).
Proof.
  assert (Forall (λ comp, ¬ dotted comp) (split_slash s) ↔ ¬ Exists dotted (split_slash s)) as ->
    by (rewrite Forall_forall, Exists_exists; naive_solver).
  rewrite dotted_components, <- !contains_spec, <- !ends_with_spec.
  assert ((∀ b, b ∈ s → ¬ forbidden b) ↔ ¬ Exists (λ c, contains [c] s = true) (bs "*:?[\^~ " ++ [x09])) as ->.
  { rewrite Exists_exists. setoid_rewrite contains_char. unfold forbidden. naive_solver. }
  unfold is_valid_name, INVALID_REF_REGEX. rewrite negb_true_iff, <- not_true_iff_false.
  cbn [existsb alternative_matches]. rewrite !orb_true_iff.
  change (bs "*:?[\^~ " ++ [x09]) with [x2a; x3a; x3f; x5b; x5c; x5e; x7e; x20; x09].
  rewrite !Exists_cons, Exists_nil.
  change (bs "*") with [x2a]. change (bs ":") with [x3a]. change (bs "?") with [x3f].
  change (bs "[") with [x5b]. change (bs "\") with [x5c]. change (bs "^") with [x5e].
  change (bs "~") with [x7e]. change (bs " ") with [x20].
  intuition congruence.
Qed.

Section hex_theorems.
Context `{Hex}.

(** A reference as the program writes it. *)
Definition bitref_wf (r : BitRef) : Prop :=
  match r with
  | Direct oid => oid_wf oid
  | Symbolic sym =>
      sym = symref_new (sym_path sym) ∧ (sym_path sym ≠ ATSYM)
      ∧ no_trailing_ws (bs "ref: " ++ sym_path sym) ∧ no_trailing_ws (sym_path sym)
      ∧ utf8_valid (sym_path sym) = true
  end.

Lemma oid_from_str_symref path :
  no_trailing_ws (bs "ref: " ++ path) → oid_from_str (bs "ref: " ++ path) = Err Anyhow.
Proof.
  intros Hp. unfold oid_from_str. rewrite trim_end_id by done.
  destruct (_ =? 40)%nat; [|done]. cbn [ensure mbind outcome_bind].
  rewrite (from_hex_invalid _ x72); [done|apply list_elem_of_here|done|done].
Qed.

Lemma reads_bitref r : bitref_wf r → ∃ w, serialize r = Ok w ∧ deserialize w = Ok (r, []).
Proof.
  intros Hr. destruct r as [oid|[path kind]]; eexists; (split; [reflexivity|]);
    unfold deserialize, bitref_deserialize, mbind, reader_bind, read_to_str.
  - rewrite utf8_digits by apply oid_display_digits. unfold lift, bitref_from_str.
    pose proof (oid_from_str_display oid [] Hr (Forall_nil_2 _)) as E. rewrite app_nil_r in E. by rewrite E.
  - destruct Hr as (Hk & Hat & Hws & Hws' & Hu). cbn [sym_path symref_display] in *.
    rewrite utf8_valid_app by done. unfold lift, bitref_from_str. rewrite oid_from_str_symref by done.
    unfold symref_from_str. change SYMBOLIC_REF_PREFIX with (bs "ref: ").
    rewrite starts_with_app, drop_app_length, trim_end_id, bool_decide_false by done.
    cbn [fmap outcome_fmap]. by rewrite Hk.
Qed.

(** A reference, direct or symbolic, survives being written to its file and read
    back; in particular the text of a symbolic reference is never taken for an oid. *)
Theorem bitref_round_trip r :
  bitref_wf r → ∃ w, serialize r = Ok w ∧ deserialize w = Ok (r, []).
Proof. apply reads_bitref. Qed.

(** ** Reflogs *)

(** An entry whose line can be cut apart again. *)
Definition reflog_entry_wf (e : BitReflogEntry) : Prop :=
  oid_wf (old_oid e) ∧ oid_wf (new_oid e) ∧ signature_wf (rl_committer e)
  ∧ (x09 ∉ sig_name (rl_committer e)) ∧ (x09 ∉ sig_email (rl_committer e))
  ∧ (x0a ∉ sig_name (rl_committer e)) ∧ (x0a ∉ sig_email (rl_committer e))
  ∧ (x0d ∉ sig_name (rl_committer e)) ∧ (x0d ∉ sig_email (rl_committer e))
  ∧ (x0a ∉ rl_message e) ∧ (x0d ∉ rl_message e) ∧ utf8_valid (rl_message e) = true.

Lemma time_display_no c t :
  time_wf t → ¬ is_digit c → (c ∉ [x20; x2b; x2d]) → c ∉ time_display t.
Proof.
  intros [_ Ho] Hc Hs. rewrite !not_elem_of_cons in Hs. destruct Hs as (H20 & H2b & H2d & _).
  unfold time_display. destruct (tz_display_spec _ Ho) as (h1 & h2 & m1 & m2 & Hd & -> & _).
  rewrite !not_elem_of_app, not_elem_of_cons. split_and!.
  - by apply print_dec_no.
  - by intros ?%list_elem_of_singleton.
  - by case_match.
  - by eapply not_digit.
Qed.

Lemma reflog_signature_no c e :
  reflog_entry_wf e → c ∈ [x09; x0a; x0d] → c ∉ signature_display (rl_committer e).
Proof.
  intros (_ & _ & (_ & _ & _ & Ht & _) & ? & ? & ? & ? & ? & ? & _) Hc. unfold signature_display.
  assert (c ∉ time_display (sig_time (rl_committer e))) as Htd.
  { rewrite !elem_of_cons, elem_of_nil in Hc.
    destruct Hc as [->|[->|[->|[]]]]; (apply time_display_no; [done|nondigit|vm_decide]). }
  rewrite !elem_of_cons, elem_of_nil in Hc.
  destruct Hc as [->|[->|[->|[]]]]; rewrite !not_elem_of_app;
    (split_and!; [done|vm_decide|done|vm_decide|done]).
Qed.

Lemma oid_display_no oid c : ¬ is_digit c → c ∉ oid_display oid.
Proof. intros Hc. by eapply not_digit; [apply oid_display_digits|]. Qed.

Lemma reflog_line_no c e : reflog_entry_wf e → c ∈ [x0a; x0d] → c ∉ reflog_line e.
Proof.
  intros He Hc. pose proof (reflog_signature_no c e He) as Hs.
  pose proof He as (_ & _ & _ & _ & _ & _ & _ & _ & _ & ? & ? & _).
  rewrite !elem_of_cons, elem_of_nil in Hc. unfold reflog_line. rewrite !not_elem_of_app.
  destruct Hc as [->|[->|[]]]; (split_and!;
    [apply oid_display_no; nondigit|by intros ?%list_elem_of_singleton|apply oid_display_no; nondigit
    |by intros ?%list_elem_of_singleton|apply Hs; vm_decide|by intros ?%list_elem_of_singleton|done]).
Qed.

Lemma reflog_entry_from_line e : reflog_entry_wf e → reflog_entry_from_str (reflog_line e) = Ok e.
Proof.
  intros He. pose proof He as (Ho & Hn & Hs & _). unfold reflog_entry_from_str, reflog_line. cbn [app].
  rewrite split_once_app by (apply oid_display_no; nondigit). cbn [unwrap mbind outcome_bind].
  rewrite split_once_app by (apply oid_display_no; nondigit). cbn [unwrap mbind outcome_bind].
  rewrite split_once_app by (apply reflog_signature_no; [done|vm_decide]). cbn [unwrap mbind outcome_bind].
  pose proof (oid_from_str_display (old_oid e) [] Ho (Forall_nil_2 _)) as Eo.
  pose proof (oid_from_str_display (new_oid e) [] Hn (Forall_nil_2 _)) as En. rewrite app_nil_r in Eo, En.
  rewrite Eo. cbn [mbind outcome_bind]. rewrite En. cbn [mbind outcome_bind].
  rewrite signature_round_trip_lemma by done. cbn [mbind outcome_bind]. by destruct e.
Qed.

Lemma reflog_line_utf8 e : reflog_entry_wf e → utf8_valid (reflog_line e) = true.
Proof.
  intros He. pose proof He as (_ & _ & Hs & _ & _ & _ & _ & _ & _ & _ & _ & Hm). unfold reflog_line.
  repeat (apply utf8_valid_app; [first [apply utf8_digits, oid_display_digits|done|by apply utf8_signature_display]|]).
  done.
Qed.

(** A reflog survives being written to its file and read back. *)
Theorem reflog_round_trip l :
  Forall reflog_entry_wf (rl_entries l) → ∃ w, serialize l = Ok w ∧ deserialize w = Ok (l, []).
Proof.
  intros Hl. destruct l as [es]. cbn [rl_entries] in Hl.
  exists (es ≫= λ e, reflog_line e ++ [x0a]). split.
  { unfold serialize, reflog_serialize. cbn [rl_entries]. clear Hl.
    induction es as [|e es IH]; [done|]. cbn [write_iter]. by rewrite IH. }
  assert (utf8_valid (es ≫= λ e, reflog_line e ++ [x0a]) = true
    ∧ (x0d ∉ es ≫= λ e, reflog_line e ++ [x0a])
    ∧ split_lines (es ≫= λ e, reflog_line e ++ [x0a]) = reflog_line <$> es) as (Hu & Hcr & Hsp).
  { induction Hl as [|e es He _ (IHu & IHc & IHs)]; [by split_and!; [|apply not_elem_of_nil|]|].
    cbn [mbind list_bind fmap list_fmap]. split_and!.
    - apply utf8_valid_app; [|done]. apply utf8_valid_app; [by apply reflog_line_utf8|done].
    - rewrite !not_elem_of_app. split_and!; [apply reflog_line_no; [done|vm_decide]|vm_decide|done].
    - rewrite <- app_assoc. cbn [app]. rewrite split_lines_app by (apply reflog_line_no; [done|vm_decide]).
      by f_equal. }
  set (w := es ≫= λ e, reflog_line e ++ [x0a]) in *.
  unfold deserialize, reflog_deserialize, mbind, reader_bind, read_to_str. rewrite Hu.
  unfold lift, reflog_from_str. rewrite lines_no_cr, Hsp by done.
  assert (collect reflog_entry_from_str (reflog_line <$> es) = Ok es) as ->; [|done].
  clear Hu Hcr Hsp. induction Hl as [|e es He _ IH]; [done|]. cbn [fmap list_fmap collect].
  rewrite reflog_entry_from_line by done. by rewrite IH.
Qed.
End hex_theorems.

(** In a log that grows by [append], every entry starts where the one before it
    ended, and the first one at nothing. *)
Fixpoint reflog_chain (old : Oid) (es : list BitReflogEntry) : Prop :=
  match es with
  | [] => True
  | e :: es => old_oid e = old ∧ reflog_chain (new_oid e) es
  end.

(** [append] records the move from where the log ended to the new oid: the log
    stays a chain of moves that starts at the null oid, the new entry is the one
    found under index 0, and every other entry moves up by one. *)
Theorem reflog_append_correct l oid committer msg :
  reflog_chain UNKNOWN (rl_entries l) →
  let l' := reflog_append l oid committer msg in
  reflog_chain UNKNOWN (rl_entries l')
  ∧ (∃ e, reflog_get l' 0 = Ok (Some e) ∧ new_oid e = oid ∧ rl_committer e = committer
       ∧ rl_message e = msg)
  ∧ (∀ i, reflog_get l' (S i) = reflog_get l i).
Proof.
  intros Hl l'. destruct l as [es]. cbn [rl_entries] in Hl. unfold l', reflog_append.
  cbn [rl_entries]. clear l'. split_and!.
  - revert Hl. generalize UNKNOWN as old. intros old Hl.
    assert (∀ old es, reflog_chain old es → ∀ e,
      old_oid e = match last es with Some e => new_oid e | None => old end → reflog_chain old (es ++ [e])) as H.
    { clear. intros old es. revert old. induction es as [|e es IH]; intros old Hl e' He; [by split|].
      destruct Hl as [He0 Hl]. split; [done|]. apply IH; [done|]. rewrite He, last_cons.
      by destruct (last es). }
    by apply H.
  - eexists. unfold reflog_get, reflog_index. cbn [rl_entries]. rewrite length_app, Nat.add_1_r.
    cbn [length Nat.leb assert_that mbind outcome_bind Nat.add].
    replace (S (length es) - 0 - 1)%nat with (length es) by lia.
    rewrite list_lookup_middle by done. by split_and!.
  - intros i. unfold reflog_get, reflog_index. cbn [rl_entries]. rewrite length_app, Nat.add_1_r.
    cbn [Nat.leb]. destruct (Nat.leb_spec (length es) i) as [|Hi]; [done|].
    rewrite !(proj2 (Nat.leb_le _ _)) by lia. cbn [assert_that mbind outcome_bind].
    rewrite lookup_app_l by lia. by replace (S (length es) - S i - 1)%nat with (length es - i - 1)%nat by lia.
Qed.

(** ** Witnesses *)

Lemma bitref_round_trip_witness :
  ∃ w, serialize (Symbolic (symref_new (bs "refs/heads/master"))) = Ok w
    ∧ deserialize w = Ok (Symbolic (symref_new (bs "refs/heads/master")), []).
Proof. apply (bitref_round_trip (Symbolic (symref_new (bs "refs/heads/master")))). split_and!; vm_decide. Defined.

Definition sample_reflog_entry : BitReflogEntry :=
  mk_BitReflogEntry UNKNOWN EMPTY_TREE
    (mk_BitSignature (bs "Andy Yu") (bs "andyyu2004@gmail.com") (mk_BitTime 1622453485 720))
    (bs "commit: some commit message").

Lemma reflog_round_trip_witness :
  ∃ w, serialize (mk_BitReflog [sample_reflog_entry]) = Ok w
    ∧ deserialize w = Ok (mk_BitReflog [sample_reflog_entry], []).
Proof.
  apply (reflog_round_trip (mk_BitReflog [sample_reflog_entry])).
  apply Forall_singleton. split_and!; vm_decide.
Defined.

Lemma reflog_append_correct_witness :
  reflog_get (reflog_append (mk_BitReflog [sample_reflog_entry]) EMPTY_BLOB
    (rl_committer sample_reflog_entry) (bs "reset")) 1 = Ok (Some sample_reflog_entry).
Proof.
  destruct (reflog_append_correct (mk_BitReflog [sample_reflog_entry]) EMPTY_BLOB
    (rl_committer sample_reflog_entry) (bs "reset")) as (_ & _ & H); [by split|].
  rewrite (H 0%nat). reflexivity.
Defined.
