(* ===== verification/RefDb.v ===== *)
(** * RefDb

    [libbit/src/refs/refdb.rs]: the database of references, files below the
    directory of the repository that are read and replaced under their locks; and the
    functions of [libbit/src/repo.rs] that resolve references. *)

From Stdlib Require Import ZArith Lia.
From Stdlib Require Import Strings.Byte.
From stdpp Require Import base tactics option list countable strings gmap.
From S2P Require Import Prelude RustStd Data Io Hash Path Signature State Lockfile Refs.

(** ** What is recorded in a reflog *)

Inductive RefUpdateCommitKind := CommitAmend | CommitInitial | CommitNormal.
Inductive MergeStrategy := FastForward | Recursive.

Inductive RefUpdateCause :=
| NewBranch (from : BitRef)
| CauseCommit (subject : bytes) (kind : RefUpdateCommitKind)
| CauseCheckout (from to : BitRef)
| CauseReset (target : BitRef)
| CauseMerge (theirs : BitRef) (strategy : MergeStrategy)
| CauseFetch (to : BitRef).

Section refdb.
Context `{Hex}.

(** [Display for RefUpdateCause]. *)
Definition cause_display (c : RefUpdateCause) : bytes :=
  match c with
  | NewBranch from => bs "branch: Created from " ++ bitref_display from
  | CauseCommit subject CommitNormal => bs "commit: " ++ subject
  | CauseCommit subject CommitAmend => bs "commit (amend): " ++ subject
  | CauseCommit subject CommitInitial => bs "commit (initial): " ++ subject
  | CauseCheckout from to =>
      bs "checkout: moving from `" ++ bitref_display from ++ bs "` to `" ++ bitref_display to ++ bs "`"
  | CauseReset target => bs "reset: moving to `" ++ bitref_display target ++ bs "`"
  | CauseMerge theirs FastForward => bs "merge `" ++ bitref_display theirs ++ bs "`: fast-forward"
  | CauseMerge theirs Recursive => bs "merge `" ++ bitref_display theirs ++ bs "`: recursive"
  | CauseFetch _ => bs "fetch"
  end.

(** ** BitRefDb *)

(** The directory of the repository, and what the database uses of the rest of the
    repository. *)
Variable bitdir : BitPath.
Variable ensure_obj_is_commit : Oid → BitResult unit.
Variable user_signature : BitResult BitSignature.

Definition refdb_join (path : BitPath) : BitPath := join bitdir path.

Definition join_log (path : BitPath) : BitPath := join (join bitdir (bs "logs")) path.

Definition set_ref_unvalidated (sym : SymbolicRef) (to : BitRef) : st Fs unit :=
  with_mut (refdb_join (sym_path sym)) true
    (λ s, match serialize to with
          | Ok w => lockfile_write w s
          | Err e => (Err e, s)
          | Panic => (Panic, s)
          end).

Definition refdb_exists (sym : SymbolicRef) : st Fs bool :=
  fs ← st_get;
  mret (fs_exists fs (refdb_join (sym_path sym))).

(** The loop of [expand_symref] over the prefixes. *)
Fixpoint expand_with (prefixes : list BitPath) (sym : SymbolicRef) : st Fs SymbolicRef :=
  match prefixes with
  | [] => st_lift (bail_bit (NonExistentSymRef sym))
  | prefix :: prefixes =>
      let path := join prefix (sym_path sym) in
      fs ← st_get;
      if fs_exists fs (refdb_join path) then st_lift (symref_new_valid path)
      else expand_with prefixes sym
  end.

Definition expand_symref (sym : SymbolicRef) : st Fs SymbolicRef :=
  expand_with [EMPTY; REFS_HEADS; REFS_TAGS; REFS_REMOTES] sym.

Definition refdb_validate (reference : BitRef) : st Fs BitRef :=
  match reference with
  | Direct oid => _ ← st_lift (ensure_obj_is_commit oid); mret reference
  | Symbolic sym => sym ← expand_symref sym; mret (Symbolic sym)
  end.

(** The closure of [read]. *)
Definition read_ref_file (lf : Lockfile) : st Fs BitRef :=
  fs ← st_get;
  data ← st_lift (ino ← unwrap (lf_file lf); unwrap (ino_data fs ino));
  r ← st_lift (fst <$> deserialize (A:=BitRef) data);
  refdb_validate r.

Definition refdb_read (sym : SymbolicRef) : st Fs BitRef :=
  expanded ← expand_symref sym;
  with_readonly (refdb_join (sym_path expanded)) true read_ref_file.

Definition set_ref (sym : SymbolicRef) (to : BitRef) : st Fs unit :=
  validated ← refdb_validate to;
  set_ref_unvalidated sym validated.

Definition partially_resolve (reference : BitRef) : st Fs BitRef :=
  match reference with
  | Direct _ => refdb_validate reference
  | Symbolic sym => refdb_read sym
  end.

(** [resolve] follows symbolic references; references that point at each other
    make it recurse forever, and the fuel runs out. *)
Fixpoint resolve (fuel : nat) (reference : BitRef) : st Fs BitRef :=
  match fuel with
  | O => st_lift Panic
  | S fuel =>
      st_match (partially_resolve reference)
        (λ partial,
           match partial with
           | Direct _ => mret partial
           | Symbolic sym => resolve fuel (Symbolic sym)
           end)
        (λ err, st_lift (Symbolic <$> try_into_nonexistent_symref_err err))
  end.

Definition fully_resolve (fuel : nat) (reference : BitRef) : st Fs Oid :=
  r ← resolve fuel reference;
  match r with Direct oid => mret oid | Symbolic _ => st_lift bail end.

(** [BitRepo::try_fully_resolve_ref] and [BitRepo::read_head]. *)
Definition try_fully_resolve_ref (fuel : nat) (reference : BitRef) : st Fs (option Oid) :=
  r ← resolve fuel reference;
  match r with Direct oid => mret (Some oid) | Symbolic _ => mret None end.

Definition read_head : st Fs BitRef :=
  st_match (refdb_read SYM_HEAD) (λ r, mret r)
    (λ err, st_lift (Symbolic <$> try_into_nonexistent_symref_err err)).

Definition read_reflog (sym : SymbolicRef) : st Fs (Filelock BitReflog) :=
  expanded ← expand_symref sym;
  filelock_lock reflog_default (join_log (sym_path expanded)).

(** [log]: the guard is dropped at the end of the statement. *)
Definition refdb_log (sym : SymbolicRef) (new_oid : Oid) (committer : BitSignature) (msg : bytes)
  : st Fs unit :=
  l ← read_reflog sym;
  l ← st_lift (filelock_update (λ log, reflog_append log new_oid committer msg) l);
  filelock_drop l.

Definition refdb_update (fuel : nat) (sym : SymbolicRef) (to : BitRef) (cause : RefUpdateCause)
  : st Fs unit :=
  _ ← set_ref sym to;
  new_oid ← fully_resolve fuel to;
  committer ← st_lift user_signature;
  let cause_str := cause_display cause in
  head ← read_head;
  _ ← (if bool_decide (head = Symbolic sym) then refdb_log SYM_HEAD new_oid committer cause_str
       else mret tt);
  refdb_log sym new_oid committer cause_str.

Definition create_branch (fuel : nat) (sym : SymbolicRef) (from : BitRef) : st Fs unit :=
  e ← refdb_exists sym;
  if (e : bool) then st_lift bail
  else
    oid ← try_fully_resolve_ref fuel from;
    match oid with
    | Some oid => refdb_update fuel sym (Direct oid) (NewBranch from)
    | None => set_ref_unvalidated SYM_HEAD (Symbolic sym)
    end.

(** ** Lemmas *)

(** A reference that has its full path. *)
Definition full_symref (sym : SymbolicRef) : Prop :=
  sym = symref_new (sym_path sym) ∧ sym_kind sym ≠ KUnknown.

(** A reference that [validate] accepts as it is. *)
Definition ref_valid (fs : Fs) (r : BitRef) : Prop :=
  match r with
  | Direct oid => ensure_obj_is_commit oid = Ok tt
  | Symbolic sym => full_symref sym ∧ is_Some (fs_read fs (refdb_join (sym_path sym)))
  end.

Lemma join_EMPTY p : join EMPTY p = p.
Proof. unfold join, EMPTY. cbn. by destruct (is_absolute p). Qed.

Lemma fs_read_exists fs p : is_Some (fs_read fs p) → fs_exists fs p = true.
Proof.
  rewrite fs_read_eq. unfold fs_exists. rewrite bool_decide_eq_true.
  destruct (names fs !! p); [eauto|by intros []].
Qed.

Lemma expand_symref_full fs sym :
  full_symref sym → is_Some (fs_read fs (refdb_join (sym_path sym))) →
  expand_symref sym fs = (Ok sym, fs).
Proof.
  intros [Hs Hk] He. unfold expand_symref. cbn [expand_with]. rewrite (st_bind_ok _ _ fs fs fs) by done.
  rewrite join_EMPTY, fs_read_exists by done. unfold st_lift, symref_new_valid.
  rewrite Hs in Hk. cbn [sym_kind symref_new]. rewrite bool_decide_true by done. cbn.
  by rewrite Hs at 3.
Qed.

Lemma validate_valid fs r : ref_valid fs r → refdb_validate r fs = (Ok r, fs).
Proof.
  destruct r as [oid|sym]; cbn [ref_valid refdb_validate].
  - intros Ho. by rewrite (st_bind_ok _ _ fs fs tt) by (unfold st_lift; by rewrite Ho).
  - intros [Hf He]. by rewrite (st_bind_ok _ _ fs fs sym) by by apply expand_symref_full.
Qed.

(** [read] of a reference whose file is there and holds [r]. *)
Lemma refdb_read_file fs sym full r res :
  expand_symref sym fs = (Ok full, fs) → bitref_wf r →
  lockable (refdb_join (sym_path full)) fs fs →
  (∃ w, fs_read fs (refdb_join (sym_path full)) = Some w ∧ serialize r = Ok w) →
  res ≠ Panic →
  (∀ fs2, names fs2 = <[lock_path (refdb_join (sym_path full)) := NFile (next_ino fs)]> (names fs) →
     (∀ q, q ≠ lock_path (refdb_join (sym_path full)) → fs_read fs2 q = fs_read fs q) →
     refdb_validate r fs2 = (res, fs2)) →
  ∃ fs', refdb_read sym fs = (res, fs') ∧ names fs' = names fs ∧ fs_wf fs'
    ∧ ∀ q, fs_read fs' q = fs_read fs q.
Proof.
  intros Hf Hr Hl (w & Hw & Hser) Hres Hval. unfold refdb_read.
  rewrite (st_bind_ok _ _ fs fs full) by done.
  apply with_readonly_read; [done|done|]. intros lf fs2 Hn Hq Hfile. unfold read_ref_file.
  rewrite (st_bind_ok _ _ fs2 fs2 fs2) by done.
  rewrite (st_bind_ok _ _ fs2 fs2 w).
  2: { rewrite Hw in Hfile. destruct (lf_file lf) as [ino|]; [|done].
       unfold st_lift. cbn [unwrap mbind outcome_bind]. by rewrite Hfile. }
  destruct (reads_bitref r Hr) as (w' & Hw' & Hd). rewrite Hser in Hw'. injection Hw' as <-.
  rewrite (st_bind_ok _ _ fs2 fs2 r) by (unfold st_lift; by rewrite Hd). by apply Hval.
Qed.

(** The paths [expand_symref] looks at. *)
Definition candidates (sym : SymbolicRef) : list BitPath :=
  (λ prefix, refdb_join (join prefix (sym_path sym))) <$> [EMPTY; REFS_HEADS; REFS_TAGS; REFS_REMOTES].

Lemma expand_symref_names fs fs2 sym res :
  (∀ q, q ∈ candidates sym → names fs2 !! q = names fs !! q) →
  expand_symref sym fs = (res, fs) → expand_symref sym fs2 = (res, fs2).
Proof.
  unfold expand_symref, candidates.
  induction [EMPTY; REFS_HEADS; REFS_TAGS; REFS_REMOTES] as [|p ps IH]; cbn [expand_with fmap list_fmap].
  { intros _ E. unfold st_lift in *. by injection E as <-. }
  intros Hq. rewrite (st_bind_ok _ _ fs fs fs), (st_bind_ok _ _ fs2 fs2 fs2) by done.
  assert (fs_exists fs2 (refdb_join (join p (sym_path sym))) = fs_exists fs (refdb_join (join p (sym_path sym)))) as ->.
  { unfold fs_exists. by rewrite Hq by apply list_elem_of_here. }
  destruct (fs_exists fs _).
  - unfold st_lift. intros E. by injection E as ->.
  - apply IH. intros q Hin. apply Hq, elem_of_cons. by right.
Qed.

(** Reading a reference gives what was set: [set_ref] replaces the file of the
    reference under its lock and changes no other file, and [read] then parses and validates the
    same reference. *)
Theorem set_ref_read sym r fs fs1 :
  full_symref sym → bitref_wf r → ref_valid fs r →
  lockable (refdb_join (sym_path sym)) fs fs1 →
  lock_path (refdb_join (sym_path sym)) ≠ refdb_join (match r with Symbolic s => sym_path s | _ => [] end) →
  ∃ fs2 fs3, set_ref sym r fs = (Ok tt, fs2) ∧ refdb_read sym fs2 = (Ok r, fs3)
    ∧ ∀ q, q ≠ refdb_join (sym_path sym) → fs_read fs3 q = fs_read fs q.
Proof.
  intros Hf Hr Hv Hl Hne. unfold set_ref. rewrite (st_bind_ok _ _ fs fs r) by by apply validate_valid.
  destruct (reads_bitref r Hr) as (w & Hw & _).
  destruct (with_mut_write (refdb_join (sym_path sym)) true fs fs1 w Hl) as (fs2 & H2 & Hl2 & Hr2 & Hq2).
  assert (ref_valid fs2 r) as Hv2.
  { destruct r as [oid|s]; [done|]. destruct Hv as [Hs He]. split; [done|].
    destruct (decide (refdb_join (sym_path s) = refdb_join (sym_path sym))) as [E|E].
    - rewrite E, Hr2. eauto.
    - by rewrite Hq2. }
  destruct (refdb_read_file fs2 sym sym r (Ok r)) as (fs3 & H3 & _ & _ & Hq3); try done; [|by exists w| |].
  { apply expand_symref_full; [done|rewrite Hr2; eauto]. }
  { intros fs' Hn Hq. apply validate_valid. destruct r as [oid|s]; [done|].
    destruct Hv2 as [Hs He]. split; [done|]. by rewrite Hq. }
  exists fs2, fs3. split_and!; [|done|].
  - unfold set_ref_unvalidated. by rewrite Hw.
  - intros q Hqp. by rewrite Hq3, Hq2.
Qed.
(** ** Resolution *)

(** The file of [full] holds [r] and can be locked. *)
Definition holds (fs : Fs) (full : SymbolicRef) (r : BitRef) : Prop :=
  bitref_wf r ∧ lockable (refdb_join (sym_path full)) fs fs
  ∧ ∃ w, fs_read fs (refdb_join (sym_path full)) = Some w ∧ serialize r = Ok w.

(** [resolves_to fs n r r']: following the files of [fs] from [r] for [n] steps ends in [r'], an
    object that is a commit or a reference that has no file. *)
Inductive resolves_to (fs : Fs) : nat → BitRef → BitRef → Prop :=
| resolves_direct oid :
    ensure_obj_is_commit oid = Ok tt → resolves_to fs 1 (Direct oid) (Direct oid)
| resolves_missing sym :
    (∀ q, q ∈ candidates sym → names fs !! q = None) →
    resolves_to fs 1 (Symbolic sym) (Symbolic sym)
| resolves_file_direct sym full oid :
    expand_symref sym fs = (Ok full, fs) → holds fs full (Direct oid) →
    ensure_obj_is_commit oid = Ok tt →
    resolves_to fs 1 (Symbolic sym) (Direct oid)
| resolves_file_dangling sym full sym' :
    expand_symref sym fs = (Ok full, fs) → holds fs full (Symbolic sym') →
    (lock_path (refdb_join (sym_path full)) ∉ candidates sym') →
    (∀ q, q ∈ candidates sym' → names fs !! q = None) →
    resolves_to fs 1 (Symbolic sym) (Symbolic sym')
| resolves_file_symbolic sym full sym' full' n r :
    expand_symref sym fs = (Ok full, fs) → holds fs full (Symbolic sym') →
    (lock_path (refdb_join (sym_path full)) ∉ candidates sym') →
    expand_symref sym' fs = (Ok full', fs) →
    resolves_to fs n (Symbolic full') r →
    resolves_to fs (S n) (Symbolic sym) r.

Lemma expand_symref_missing fs sym :
  (∀ q, q ∈ candidates sym → names fs !! q = None) →
  expand_symref sym fs = (bail_bit (NonExistentSymRef sym), fs).
Proof.
  unfold expand_symref, candidates.
  induction [EMPTY; REFS_HEADS; REFS_TAGS; REFS_REMOTES] as [|p ps IH]; cbn [expand_with fmap list_fmap]; [done|].
  intros Hq. rewrite (st_bind_ok _ _ fs fs fs) by done.
  unfold fs_exists. rewrite Hq by apply list_elem_of_here. apply IH.
  intros q Hin. apply Hq, elem_of_cons. by right.
Qed.

(** File systems that differ only in the inodes that no name reaches. *)
Definition same_files (fs fs' : Fs) : Prop :=
  names fs' = names fs ∧ fs_wf fs' ∧ ∀ q, fs_read fs' q = fs_read fs q.

Lemma same_files_refdb_read fs0 fs sym full r res :
  same_files fs0 fs → expand_symref sym fs0 = (Ok full, fs0) → holds fs0 full r → res ≠ Panic →
  (∀ fs2, (∀ q, q ≠ lock_path (refdb_join (sym_path full)) → names fs2 !! q = names fs0 !! q) →
     refdb_validate r fs2 = (res, fs2)) →
  ∃ fs', refdb_read sym fs = (res, fs') ∧ same_files fs0 fs'.
Proof.
  intros (Hn & Hwf & Hq) He (Hr & Hl & w & Hw & Hser) Hres Hval.
  destruct (refdb_read_file fs sym full r res) as (fs' & H1 & Hn' & Hwf' & Hq'); try done.
  - by apply (expand_symref_names fs0); [rewrite Hn|].
  - by apply (lockable_same_names _ fs0).
  - exists w. by rewrite Hq.
  - intros fs2 Hn2 _. apply Hval. intros q Hne. by rewrite Hn2, lookup_insert_ne, Hn.
  - exists fs'. split; [done|]. split_and!; [by rewrite Hn'|done|]. intros q. by rewrite Hq', Hq.
Qed.

Lemma resolve_follows fs0 n r r' : resolves_to fs0 n r r' →
  ∀ fs fuel, same_files fs0 fs → (n ≤ fuel)%nat →
  ∃ fs', resolve fuel r fs = (Ok r', fs') ∧ same_files fs0 fs'.
Proof.
  induction 1 as [oid Ho|sym Hm|sym full oid He Hh Ho|sym full s' He Hh Hne Hm|sym full s' full' n r He Hh Hne He' _ IH];
    intros fs [|fuel] Hs Hle; try lia; cbn [resolve]; unfold st_match; cbn [partially_resolve].
  - cbn [refdb_validate]. rewrite (st_bind_ok _ _ fs fs tt) by (unfold st_lift; by rewrite Ho). by exists fs.
  - unfold refdb_read. rewrite (st_bind_err _ _ fs fs (AnyhowBit (NonExistentSymRef sym))).
    2: { apply expand_symref_missing. destruct Hs as (-> & _). done. }
    by exists fs.
  - destruct (same_files_refdb_read fs0 fs sym full (Direct oid) (Ok (Direct oid))) as (fs' & -> & Hs'); try done.
    { intros fs2 _. by apply validate_valid. }
    by exists fs'.
  - destruct (same_files_refdb_read fs0 fs sym full (Symbolic s') (bail_bit (NonExistentSymRef s')))
      as (fs' & -> & Hs'); try done.
    { intros fs2 Hn. cbn [refdb_validate]. unfold bail_bit. erewrite st_bind_err; [done|].
      apply expand_symref_missing. intros q Hq. rewrite Hn by congruence. by apply Hm. }
    by exists fs'.
  - destruct (same_files_refdb_read fs0 fs sym full (Symbolic s') (Ok (Symbolic full'))) as (fs1 & -> & Hs1); try done.
    { intros fs2 Hn. cbn [refdb_validate]. rewrite (st_bind_ok _ _ fs2 fs2 full'); [done|].
      apply (expand_symref_names fs0); [|done]. intros q Hq. apply Hn. congruence. }
    apply IH; [done|lia].
Qed.

(** C24: [resolve] follows symbolic references, files that hold the name of another reference,
    through as many layers as there are: it ends with the commit of the last one, or with the
    first name that has no file, and it leaves every file as it was. *)
Theorem resolve_correct fs n r r' fuel :
  resolves_to fs n r r' → fs_wf fs → (n ≤ fuel)%nat →
  ∃ fs', resolve fuel r fs = (Ok r', fs') ∧ names fs' = names fs ∧ ∀ q, fs_read fs' q = fs_read fs q.
Proof.
  intros Hr Hwf Hle. destruct (resolve_follows fs n r r' Hr fs fuel) as (fs' & H1 & H2 & _ & H3); [|done|].
  - by split_and!.
  - by exists fs'.
Qed.
End refdb.

(** ** Witnesses *)

Definition sym_master : SymbolicRef := symref_new (bs "refs/heads/master").

(** A repository with a branch [master] that [HEAD] points at. *)
Definition sample_repo : Fs :=
  mk_Fs {[ bs "/git" := NDir; bs "/git/refs" := NDir; bs "/git/refs/heads" := NDir;
           bs "/git/HEAD" := NFile 0; bs "/git/refs/heads/master" := NFile 1 ]}
    {[ 0%nat := mk_Inode (bs "ref: refs/heads/master") false;
       1%nat := mk_Inode (bs "4b825dc642cb6eb9a060e54bf8d69288fbee4904") false ]} 2.

Lemma sample_repo_wf : fs_wf sample_repo.
Proof.
  intros p ino Hp. unfold sample_repo in *. cbn [names inodes next_ino] in *.
  repeat (apply lookup_insert_Some in Hp as [[_ Hp]|[_ Hp]];
          [first [discriminate Hp|injection Hp as <-; split; [lia|vm_compute; eauto]]|]).
  apply lookup_singleton_Some in Hp as [_ [= <-]]. split; [lia|vm_compute; eauto].
Qed.

Lemma sample_repo_lockable p :
  p ∈ [bs "/git/HEAD"; bs "/git/refs/heads/master"] → lockable p sample_repo sample_repo.
Proof.
  rewrite elem_of_cons, list_elem_of_singleton. intros [-> | ->];
    (split_and!; [apply sample_repo_wf|by vm_compute|apply create_dirs_idem; right; by vm_compute|by vm_compute..]).
Qed.

Lemma set_ref_read_witness :
  ∃ fs2 fs3,
    set_ref (bs "/git") (λ _, Ok tt) SYM_HEAD (Symbolic sym_master) sample_repo = (Ok tt, fs2)
    ∧ refdb_read (bs "/git") (λ _, Ok tt) SYM_HEAD fs2 = (Ok (Symbolic sym_master), fs3)
    ∧ ∀ q, q ≠ bs "/git/HEAD" → fs_read fs3 q = fs_read sample_repo q.
Proof.
  refine (set_ref_read (bs "/git") (λ _, Ok tt) SYM_HEAD (Symbolic sym_master) sample_repo sample_repo _ _ _ _ _).
  - by split.
  - split_and!; vm_decide.
  - split; [by split|by vm_compute; eauto].
  - apply sample_repo_lockable, list_elem_of_here.
  - vm_decide.
Defined.

Lemma resolve_correct_witness :
  ∃ fs', resolve (bs "/git") (λ _, Ok tt) 2 (Symbolic SYM_HEAD) sample_repo = (Ok (Direct EMPTY_TREE), fs')
    ∧ names fs' = names sample_repo ∧ ∀ q, fs_read fs' q = fs_read sample_repo q.
Proof.
  refine (resolve_correct (bs "/git") (λ _, Ok tt) sample_repo 2 (Symbolic SYM_HEAD) (Direct EMPTY_TREE) 2 _
    sample_repo_wf _); [|lia].
  refine (resolves_file_symbolic _ _ _ SYM_HEAD SYM_HEAD sym_master sym_master 1 _ _ _ _ _ _).
  - apply expand_symref_full; [by split|by vm_compute; eauto].
  - split_and!; [vm_decide..| |].
    + apply sample_repo_lockable, list_elem_of_here.
    + exists (bs "ref: refs/heads/master"). by vm_compute.
  - vm_decide.
  - apply expand_symref_full; [by split|by vm_compute; eauto].
  - refine (resolves_file_direct _ _ _ sym_master sym_master EMPTY_TREE _ _ _); [| |done];
      [apply expand_symref_full; [by split|by vm_compute; eauto]|].
    split_and!; [vm_decide| |].
    + apply sample_repo_lockable. vm_decide.
    + exists (bs "4b825dc642cb6eb9a060e54bf8d69288fbee4904"). by vm_compute.
Defined.
