(* ===== verification/CommitGraph.v ===== *)
(** * CommitGraph

    The commits that the walks of [libbit/src/rev/revwalk.rs] and the search for merge
    bases of [libbit/src/merge.rs] visit, and the priority queue both of them keep: a
    [BinaryHeap] of commits ordered by committer time and then by the order of insertion
    (each file declares the same [CommitNode]).  Commits are read through
    [read_obj_commit] of the repository, a parameter; what the walks rely on is the
    class [CommitGraph]. *)

From Stdlib Require Import ZArith Lia.
From Stdlib Require Import Strings.Byte.
From stdpp Require Import base tactics option list countable strings gmap relations.
From S2P Require Import Prelude RustStd Data Hash Signature Commit.

(** A [Commit]: the object id it is cached under and the commit itself. *)
Record Commit := mk_Commit { commit_oid : Oid; commit_inner : MutableCommit }.

#[export] Instance Commit_eq_dec : EqDecision Commit.
Proof. solve_decision. Defined.

Definition commit_parents (c : Commit) : list Oid := c_parents (commit_inner c).
Definition commit_time (c : Commit) : BitTime := sig_time (c_committer (commit_inner c)).

Record CommitNode := mk_CommitNode { node_commit : Commit; node_index : nat }.

Definition node_oid (n : CommitNode) : Oid := commit_oid (node_commit n).

(** [Ord for CommitNode]: the latest commit is the greatest, among those of the same time
    the one inserted first.  Equal indices are a [bug!()]; the indices in a queue
    are distinct ([indices_distinct] below). *)
Definition node_cmp (a b : CommitNode) : comparison :=
  then_with (time_cmp (commit_time (node_commit a)) (commit_time (node_commit b)))
    (Nat.compare (node_index b) (node_index a)).

(** [BinaryHeap::pop]: a greatest element, and the others. *)
Fixpoint heap_pop (h : list CommitNode) : option (CommitNode * list CommitNode) :=
  match h with
  | [] => None
  | x :: h =>
      match heap_pop h with
      | None => Some (x, [])
      | Some (y, h') =>
          match node_cmp x y with
          | Lt => Some (y, x :: h')
          | _ => Some (x, y :: h')
          end
      end
  end.

(** ** The order of times *)

Definition time_lt (a b : BitTime) : Prop := time_cmp a b = Lt.
Definition time_le (a b : BitTime) : Prop := time_cmp b a ≠ Lt.

Ltac solve_time :=
  unfold time_lt, time_le, time_cmp, then_with in *;
  repeat match goal with
  | a : BitTime |- _ => destruct a
  | |- context [Z.compare ?x ?y] => destruct (Z.compare_spec x y)
  | H : context [Z.compare ?x ?y] |- _ => destruct (Z.compare_spec x y)
  end; cbn [epoch_time tz_offset] in *; try congruence; try lia; try done.

Lemma time_lt_irrefl a : ¬ time_lt a a.
Proof. solve_time. Qed.
Lemma time_lt_trans a b c : time_lt a b → time_lt b c → time_lt a c.
Proof. solve_time. Qed.
Lemma time_lt_le a b : time_lt a b → time_le a b.
Proof. solve_time. Qed.
Lemma time_le_refl a : time_le a a.
Proof. solve_time. Qed.
Lemma time_le_trans a b c : time_le a b → time_le b c → time_le a c.
Proof. solve_time. Qed.
Lemma time_lt_not_le a b : time_lt a b → ¬ time_le b a.
Proof. solve_time. Qed.
Lemma time_le_lt_trans a b c : time_le a b → time_lt b c → time_lt a c.
Proof. solve_time. Qed.

#[export] Hint Resolve time_le_refl time_lt_le : bit.

(** ** The queue *)

Lemma heap_pop_spec h :
  match heap_pop h with
  | None => h = []
  | Some (x, h') =>
      h ≡ₚ x :: h' ∧ ∀ y, y ∈ h' → time_le (commit_time (node_commit y)) (commit_time (node_commit x))
  end.
Proof.
  induction h as [|x h IH]; [done|]. cbn [heap_pop].
  destruct (heap_pop h) as [[y h']|]; [|subst h; split; [done|by intros ? ?%not_elem_of_nil]].
  destruct IH as [Hp Hle].
  assert (∀ z, z ∈ y :: h' → time_le (commit_time (node_commit z)) (commit_time (node_commit y))) as Hle'.
  { intros z [->|Hz]%elem_of_cons; [apply time_le_refl|by apply Hle]. }
  destruct (node_cmp x y) eqn:E.
  2: { split; [by rewrite Hp, Permutation_swap|]. intros z [->|Hz]%elem_of_cons; [|by apply Hle].
       unfold node_cmp in E. generalize dependent (commit_time (node_commit x)).
       generalize (commit_time (node_commit y)). clear. intros. solve_time. }
  all: split; [by rewrite Hp|]; intros z Hz%Hle'; eapply time_le_trans; [done|];
    unfold node_cmp in E; generalize dependent (commit_time (node_commit x));
    generalize (commit_time (node_commit y)); clear; intros; solve_time.
Qed.

(** The indices that [mk_node] has given out are distinct, so that [cmp] never sees two
    equal ones. *)
Definition indices_distinct (index : nat) (h : list CommitNode) : Prop :=
  NoDup (node_index <$> h) ∧ Forall (λ n, node_index n < index)%nat h.

Lemma indices_distinct_push index c h :
  indices_distinct index h → indices_distinct (S index) (mk_CommitNode c index :: h).
Proof.
  intros [Hn Hf]. split; cbn [fmap list_fmap].
  - apply NoDup_cons. split; [|done]. intros (n & E & Hin)%list_elem_of_fmap.
    rewrite Forall_forall in Hf. specialize (Hf n Hin). cbn [node_index] in *. lia.
  - constructor; [cbn; lia|]. eapply Forall_impl; [done|]. cbn. lia.
Qed.

Lemma indices_distinct_pop index x h h' :
  h ≡ₚ x :: h' → indices_distinct index h → indices_distinct index h'.
Proof.
  intros Hp [Hn Hf]. rewrite Hp in Hn, Hf. cbn [fmap list_fmap] in Hn.
  apply NoDup_cons in Hn as [_ Hn]. by apply Forall_cons in Hf as [_ Hf].
Qed.

Lemma indices_distinct_cmp index h a b i j :
  indices_distinct index h → h !! i = Some a → h !! j = Some b → node_cmp a b = Eq → i = j.
Proof.
  intros [Hn _] Ha Hb E. eapply NoDup_lookup; [done| |]; rewrite list_lookup_fmap.
  - by rewrite Ha.
  - rewrite Hb. cbn. f_equal. unfold node_cmp, then_with in E.
    destruct (time_cmp _ _); [|done..]. by apply Nat.compare_eq in E.
Qed.

(** ** The graph *)

Section graph.
Context (read_obj_commit : Oid → BitResult Commit).

(** [D] is a set of commits that can be read, each under its own id, and that contains the
    parents of its commits. *)
Class CommitGraph (D : gset (list byte)) : Prop := {
  graph_read : ∀ o, o ∈ D → ∃ c, read_obj_commit o = Ok c ∧ commit_oid c = o;
  graph_closed : ∀ o c p, o ∈ D → read_obj_commit o = Ok c → p ∈ commit_parents c → p ∈ D;
}.

(** [p] is a parent of [o]. *)
Definition parent_of (o p : Oid) : Prop :=
  ∃ c, read_obj_commit o = Ok c ∧ p ∈ commit_parents c.

Definition oid_time (o : Oid) : BitTime :=
  match read_obj_commit o with Ok c => commit_time c | _ => mk_BitTime 0 0 end.

(** A commit is younger than its parents. *)
Class TimesIncrease (D : gset (list byte)) : Prop :=
  times_increase : ∀ o p, o ∈ D → parent_of o p → time_lt (oid_time p) (oid_time o).

(** [p] is [o] or an ancestor of [o]. *)
Definition reaches : Oid → Oid → Prop := rtc parent_of.

Definition reaches_from (s : list Oid) (o : Oid) : Prop := ∃ r, r ∈ s ∧ reaches r o.

(** The node of a commit of [D]. *)
Definition node_ok (D : gset (list byte)) (n : CommitNode) : Prop :=
  node_oid n ∈ D ∧ read_obj_commit (node_oid n) = Ok (node_commit n).

Section facts.
Context (D : gset (list byte)) `{!CommitGraph D}.

Lemma reaches_closed o p : reaches o p → o ∈ D → p ∈ D.
Proof. induction 1 as [|o p q (c & Hc & Hp) _ IH]; [done|]. intros Ho. by eapply IH, graph_closed. Qed.

Lemma node_ok_read o c i : o ∈ D → read_obj_commit o = Ok c → node_oid (mk_CommitNode c i) = o ∧ node_ok D (mk_CommitNode c i).
Proof.
  intros Ho Hc. destruct (graph_read o Ho) as (c' & Hc' & Hoid).
  assert (c' = c) as -> by congruence. unfold node_ok, node_oid. cbn [node_commit]. by rewrite Hoid.
Qed.

Lemma node_ok_time n : node_ok D n → oid_time (node_oid n) = commit_time (node_commit n).
Proof. intros [_ Hn]. unfold oid_time. by rewrite Hn. Qed.

Lemma node_ok_parent n p : node_ok D n → p ∈ commit_parents (node_commit n) ↔ parent_of (node_oid n) p.
Proof.
  intros [_ Hn]. split; [by exists (node_commit n)|]. intros (c & Hc & Hp).
  by assert (c = node_commit n) as <- by congruence.
Qed.

Context `{!TimesIncrease D}.

Lemma reaches_time o p : reaches o p → o ∈ D → o = p ∨ time_lt (oid_time p) (oid_time o).
Proof.
  induction 1 as [|o p q Hp Hr IH]; [by left|]. intros Ho. right.
  assert (p ∈ D) as Hpd by (destruct Hp as (c & ? & ?); by eapply graph_closed).
  destruct (IH Hpd) as [<-|Hlt]; [by apply times_increase|].
  eapply time_lt_trans; [done|by apply times_increase].
Qed.

Lemma reaches_time_le o p : reaches o p → o ∈ D → time_le (oid_time p) (oid_time o).
Proof. intros Hr Ho. destruct (reaches_time o p Hr Ho) as [<-|?]; [apply time_le_refl|by apply time_lt_le]. Qed.
End facts.
End graph.

Arguments node_ok_time {_ _ _} _.

(** ** A repository given by the list of its commits *)

Definition lookup_commit (cs : list Commit) (o : Oid) : BitResult Commit :=
  match list_find (λ c, commit_oid c = o) cs with
  | Some (_, c) => Ok c
  | None => bail_bit (ObjectNotFound (Full o))
  end.

Definition commits_dom (cs : list Commit) : gset (list byte) := list_to_set (commit_oid <$> cs).

Lemma lookup_commit_Ok cs o c : lookup_commit cs o = Ok c → c ∈ cs ∧ commit_oid c = o.
Proof.
  unfold lookup_commit. destruct (list_find _ _) as [[i c']|] eqn:E; [|done]. intros [= <-].
  apply list_find_Some in E as (Hl & Ho & _). split; [by eapply list_elem_of_lookup_2|done].
Qed.

Lemma lookup_commit_graph cs :
  Forall (λ c, Forall (.∈ commit_oid <$> cs) (commit_parents c)) cs →
  CommitGraph (lookup_commit cs) (commits_dom cs).
Proof.
  intros Hp. split.
  - intros o (c & -> & Hc)%elem_of_list_to_set%list_elem_of_fmap. unfold lookup_commit.
    destruct (list_find_elem_of (λ c', commit_oid c' = commit_oid c) cs c Hc eq_refl) as [[i c'] E].
    rewrite E. exists c'. split; [done|]. by apply list_find_Some in E as (_ & ? & _).
  - intros o c p _ [Hc _]%lookup_commit_Ok Hpp. apply elem_of_list_to_set.
    rewrite Forall_forall in Hp. specialize (Hp c Hc). rewrite Forall_forall in Hp. by apply Hp.
Qed.

Lemma lookup_commit_times cs :
  Forall (λ c, Forall (λ p, time_lt (oid_time (lookup_commit cs) p) (commit_time c)) (commit_parents c)) cs →
  TimesIncrease (lookup_commit cs) (commits_dom cs).
Proof.
  intros Ht o p _ (c & Hc & Hp). unfold oid_time at 2. rewrite Hc.
  apply lookup_commit_Ok in Hc as [Hc _]. rewrite Forall_forall in Ht. specialize (Ht c Hc).
  rewrite Forall_forall in Ht. by apply Ht.
Qed.

(** The commit with the id of twenty bytes [o]. *)
Definition commit_at (o : byte) (time : Z) (parents : list byte) : Commit :=
  let sig := mk_BitSignature (bs "Andy Yu") (bs "andyyu2004@gmail.com") (mk_BitTime time 720) in
  mk_Commit (replicate 20 o)
    (mk_MutableCommit EMPTY_TREE sig sig (mk_CommitMessage (bs "commit") []) (replicate 20 <$> parents) None None).
