(* ===== verification/RevWalk.v ===== *)
(** * RevWalk

    [libbit/src/rev/revwalk.rs]: [RevWalk], which yields the commits that are reachable
    from some roots and not from the excluded commits, the latest first. *)

From Stdlib Require Import ZArith Lia Sorted.
From Stdlib Require Import Strings.Byte.
From stdpp Require Import base tactics option list countable strings gmap relations sorting.
From S2P Require Import Prelude RustStd Data Hash Signature Commit State CommitGraph.

(** [bitflags! struct CommitNodeFlags]. *)
Record CommitNodeFlags := mk_CommitNodeFlags { YIELDED : bool; ENQUEUED : bool; UNINTERESTING : bool }.

Definition flags_default : CommitNodeFlags := mk_CommitNodeFlags false false false.

(** [flags.insert]. *)
Definition flags_insert (f g : CommitNodeFlags) : CommitNodeFlags :=
  mk_CommitNodeFlags (YIELDED f || YIELDED g) (ENQUEUED f || ENQUEUED g) (UNINTERESTING f || UNINTERESTING g).

Definition f_yielded : CommitNodeFlags := mk_CommitNodeFlags true false false.
Definition f_enqueued : CommitNodeFlags := mk_CommitNodeFlags false true false.
Definition f_uninteresting : CommitNodeFlags := mk_CommitNodeFlags false false true.

Record RevWalk := mk_RevWalk {
  rw_flags : gmap (list byte) CommitNodeFlags;
  rw_pqueue : list CommitNode;
  rw_index : nat;
}.

Definition rw_empty : RevWalk := mk_RevWalk ∅ [] 0.

(** [self.flags.entry(oid).or_default()]. *)
Definition flags_of (w : RevWalk) (o : Oid) : CommitNodeFlags := default flags_default (rw_flags w !! o).

Definition set_flags (w : RevWalk) (o : Oid) (f : CommitNodeFlags) : RevWalk :=
  mk_RevWalk (<[o := f]> (rw_flags w)) (rw_pqueue w) (rw_index w).

Definition set_pqueue (w : RevWalk) (q : list CommitNode) : RevWalk := mk_RevWalk (rw_flags w) q (rw_index w).

(** [mk_node] and [self.pqueue.push]. *)
Definition push_node (w : RevWalk) (c : Commit) : RevWalk :=
  mk_RevWalk (rw_flags w) (mk_CommitNode c (rw_index w) :: rw_pqueue w) (S (rw_index w)).

Definition enqueue_commit_with_flags (c : Commit) (init_flags : CommitNodeFlags) (w : RevWalk) : RevWalk :=
  let f := flags_of w (commit_oid c) in
  let w := set_flags w (commit_oid c) f in
  if ENQUEUED f || YIELDED f then w
  else push_node (set_flags w (commit_oid c) (flags_insert f (flags_insert init_flags f_enqueued))) c.

Definition enqueue_commit (c : Commit) : RevWalk → RevWalk := enqueue_commit_with_flags c flags_default.

Definition mark_parents_uninteresting (node : CommitNode) (w : RevWalk) : RevWalk :=
  foldl (λ w parent, set_flags w parent (flags_insert (flags_of w parent) f_uninteresting)) w
    (commit_parents (node_commit node)).

(** [still_interesting]: [self.flags[&oid]] panics when there is no entry. *)
Fixpoint any_interesting (flags : gmap (list byte) CommitNodeFlags) (q : list CommitNode) : BitResult bool :=
  match q with
  | [] => Ok false
  | node :: q =>
      f ← unwrap (flags !! node_oid node);
      if negb (UNINTERESTING f) then Ok true else any_interesting flags q
  end.

Definition still_interesting (w : RevWalk) : BitResult bool := any_interesting (rw_flags w) (rw_pqueue w).

(** [RevWalk::new], [RevWalk::walk_commits] and [RevWalkBuilder::build]. *)
Definition revwalk_new (roots : list Commit) : BitResult RevWalk :=
  match roots with
  | [] => Panic
  | _ => Ok (foldl (λ w c, enqueue_commit c w) rw_empty roots)
  end.

Definition walk_commits (roots : list Commit) : BitResult RevWalk :=
  _ ← ensure (negb (bool_decide (roots = []))) Anyhow;
  revwalk_new roots.

Definition revwalk_build (roots exclude : list Commit) : RevWalk :=
  let w := foldl (λ w c, enqueue_commit_with_flags c f_uninteresting w) rw_empty exclude in
  foldl (λ w c, enqueue_commit c w) w roots.

Section revwalk.
Context (read_obj_commit : Oid → BitResult Commit).

(** The loop of [next] over the parents. *)
Fixpoint enqueue_parents (parents : list Oid) : st RevWalk unit :=
  match parents with
  | [] => mret tt
  | parent :: parents =>
      c ← st_lift (read_obj_commit parent);
      w ← st_get;
      _ ← st_put (enqueue_commit c w);
      enqueue_parents parents
  end.

(** [next]; [fuel] bounds the iterations of its loop. *)
Fixpoint revwalk_next (fuel : nat) : st RevWalk (option Commit) :=
  match fuel with
  | O => st_lift Panic
  | S fuel =>
      w ← st_get;
      interesting ← st_lift (still_interesting w);
      if (interesting : bool) then
        match heap_pop (rw_pqueue w) with
        | None => mret None
        | Some (node, q) =>
            _ ← st_put (set_pqueue w q);
            _ ← enqueue_parents (commit_parents (node_commit node));
            w ← st_get;
            let flags := flags_insert (flags_of w (node_oid node)) f_yielded in
            let w := set_flags w (node_oid node) flags in
            if UNINTERESTING flags then
              _ ← st_put (mark_parents_uninteresting node w);
              revwalk_next fuel
            else
              _ ← st_put w;
              mret (Some (node_commit node))
        end
      else mret None
  end.

(** Collecting the walk: [next] until it gives nothing. *)
Fixpoint revwalk_collect (fuel : nat) (n : nat) : st RevWalk (list Commit) :=
  match n with
  | O => st_lift Panic
  | S n =>
      c ← revwalk_next fuel;
      match c with
      | None => mret []
      | Some c => cs ← revwalk_collect fuel n; mret (c :: cs)
      end
  end.

(** ** The invariant of the walk *)

Context (D : gset (list byte)) `{!CommitGraph read_obj_commit D}.

Abbreviation reaches_from := (reaches_from read_obj_commit).
Abbreviation oid_time := (oid_time read_obj_commit).
Abbreviation parent_of := (parent_of read_obj_commit).
Abbreviation node_ok := (node_ok read_obj_commit D).

(** [P] are the commits popped so far: a commit has been enqueued when it has been popped or
    is in the queue, once. *)
Record queue_inv (w : RevWalk) (P : list Oid) : Prop := {
  qi_nodes : Forall node_ok (rw_pqueue w);
  qi_nodup : NoDup (P ++ (node_oid <$> rw_pqueue w));
  qi_enqueued : ∀ o, ENQUEUED (flags_of w o) = true ↔ o ∈ P ++ (node_oid <$> rw_pqueue w);
  qi_yielded : ∀ o, YIELDED (flags_of w o) = true → o ∈ P;
  qi_entries : ∀ o, o ∈ node_oid <$> rw_pqueue w → is_Some (rw_flags w !! o);
  qi_popped : ∀ o, o ∈ P → o ∈ D;
  qi_indices : indices_distinct (rw_index w) (rw_pqueue w);
}.

Lemma flags_of_set_flags w o f o' : flags_of (set_flags w o f) o' = if decide (o = o') then f else flags_of w o'.
Proof.
  unfold flags_of, set_flags. cbn [rw_flags]. case_decide as E; [subst|].
  - by rewrite lookup_insert_eq.
  - by rewrite lookup_insert_ne.
Qed.

(** What [enqueue_commit_with_flags] does to a queue. *)
Lemma enqueue_spec w P c f :
  queue_inv w P → commit_oid c ∈ D → read_obj_commit (commit_oid c) = Ok c →
  YIELDED f = false →
  let w' := enqueue_commit_with_flags c f w in
  queue_inv w' P
  ∧ (∀ o, ENQUEUED (flags_of w' o) = true ↔ ENQUEUED (flags_of w o) = true ∨ o = commit_oid c)
  ∧ (∀ o, UNINTERESTING (flags_of w' o) = true ↔ UNINTERESTING (flags_of w o) = true
       ∨ o = commit_oid c ∧ UNINTERESTING f = true ∧ ENQUEUED (flags_of w o) = false)
  ∧ (∀ n, n ∈ rw_pqueue w' → n ∈ rw_pqueue w ∨ node_oid n = commit_oid c).
Proof.
  intros [Hn Hnd He Hy Hs HP Hi] Hc Hr Hf0. unfold enqueue_commit_with_flags.
  set (o := commit_oid c) in *. set (g := flags_of w o).
  assert (ENQUEUED g || YIELDED g = ENQUEUED g) as ->.
  { destruct (ENQUEUED g) eqn:E1, (YIELDED g) eqn:E2; try done. apply Hy in E2.
    assert (ENQUEUED g = true); [|congruence]. apply He, elem_of_app. by left. }
  destruct (ENQUEUED g) eqn:Eg; cbn zeta.
  - assert (∀ o', flags_of (set_flags w o g) o' = flags_of w o') as Hf.
    { intros o'. rewrite flags_of_set_flags. by case_decide; subst. }
    split_and!; [split; try done| | |].
    + intros o'. rewrite Hf. apply He.
    + intros o'. rewrite Hf. apply Hy.
    + intros o' Ho'. unfold set_flags. cbn [rw_flags]. destruct (decide (o = o')) as [->|].
      * rewrite lookup_insert_eq. eauto.
      * rewrite lookup_insert_ne by done. by apply Hs.
    + intros o'. rewrite Hf. split; [by left|]. by intros [?| ->].
    + intros o'. rewrite Hf. split; [by left|]. intros [?|(-> & _ & ?)]; [done|]. unfold g in Eg. congruence.
    + by left.
  - assert (∀ o', flags_of (push_node (set_flags (set_flags w o g) o (flags_insert g (flags_insert f f_enqueued))) c) o'
        = if decide (o = o') then flags_insert g (flags_insert f f_enqueued) else flags_of w o') as Hf.
    { intros o'. unfold push_node. change (flags_of (mk_RevWalk ?x _ _)) with (flags_of (mk_RevWalk x [] 0)).
      change (flags_of (mk_RevWalk (rw_flags ?w) [] 0) o') with (flags_of w o').
      rewrite !flags_of_set_flags. by repeat case_decide. }
    assert (o ∉ P ++ (node_oid <$> rw_pqueue w)) as Hnew by (rewrite <- He; fold g; congruence).
    split_and!; [split; cbn [push_node rw_pqueue rw_index set_flags rw_flags fmap list_fmap]; try done| | |].
    + by constructor.
    + change (node_oid _) with o. rewrite <- Permutation_middle. by apply NoDup_cons.
    + intros o'. rewrite Hf. change (node_oid _) with o. rewrite <- Permutation_middle, elem_of_cons, <- He.
      case_decide as E; [subst o'|naive_solver].
      cbn [flags_insert ENQUEUED f_enqueued]. rewrite !orb_true_r. naive_solver.
    + intros o'. rewrite Hf. case_decide as E; [subst o'|apply Hy].
      cbn [flags_insert YIELDED f_enqueued]. rewrite Hf0, orb_false_r. apply Hy.
    + intros o' Ho'. destruct (decide (o = o')) as [->|Hne].
      * rewrite lookup_insert_eq. eauto.
      * rewrite !lookup_insert_ne by done. apply Hs. by apply elem_of_cons in Ho' as [->|?].
    + by apply indices_distinct_push.
    + intros o'. rewrite Hf. case_decide as E; [subst o'|naive_solver].
      cbn [flags_insert ENQUEUED f_enqueued]. rewrite !orb_true_r. naive_solver.
    + intros o'. rewrite Hf. case_decide as E; [subst o'|naive_solver].
      cbn [flags_insert UNINTERESTING f_enqueued]. rewrite orb_false_r, orb_true_iff.
      unfold g in *. naive_solver.
    + intros n [->|?]%elem_of_cons; [by right|by left].
Qed.

Definition commit_ok (c : Commit) : Prop := commit_oid c ∈ D ∧ read_obj_commit (commit_oid c) = Ok c.

(** What enqueueing the commits of [os] without flags does. *)
Definition enqueued_all (os : list Oid) (w : RevWalk) (P : list Oid) (w' : RevWalk) : Prop :=
  queue_inv w' P
  ∧ (∀ o, ENQUEUED (flags_of w' o) = true ↔ ENQUEUED (flags_of w o) = true ∨ o ∈ os)
  ∧ (∀ o, UNINTERESTING (flags_of w' o) = true ↔ UNINTERESTING (flags_of w o) = true)
  ∧ (∀ n, n ∈ rw_pqueue w' → n ∈ rw_pqueue w ∨ node_oid n ∈ os).

Lemma enqueued_all_nil w P : queue_inv w P → enqueued_all [] w P w.
Proof. intros Hw. split_and!; [done| |done|by left]. set_solver. Qed.

Lemma enqueued_all_cons c os w P w' :
  queue_inv w P → commit_ok c → enqueued_all os (enqueue_commit c w) P w' →
  enqueued_all (commit_oid c :: os) w P w'.
Proof.
  intros Hw [Hd Hr] (H1 & H2 & H3 & H4).
  destruct (enqueue_spec w P c flags_default Hw Hd Hr eq_refl) as (_ & He & Hu & Hq).
  fold (enqueue_commit c w) in *. split_and!; [done| | |].
  - intros o. rewrite H2, He, elem_of_cons. naive_solver.
  - intros o. rewrite H3, Hu. naive_solver.
  - intros n [?|?]%H4; [|right; apply elem_of_cons; by right].
    destruct (Hq n) as [?|E]; [done|by left|right]. rewrite E. apply list_elem_of_here.
Qed.

Lemma enqueue_commit_inv c w P : queue_inv w P → commit_ok c → queue_inv (enqueue_commit c w) P.
Proof. intros Hw [Hd Hr]. by apply (enqueue_spec w P c flags_default). Qed.

Lemma enqueue_roots roots w P :
  queue_inv w P → Forall commit_ok roots →
  enqueued_all (commit_oid <$> roots) w P (foldl (λ w c, enqueue_commit c w) w roots).
Proof.
  intros Hw Hr. revert w Hw. induction Hr as [|c cs Hc _ IH]; intros w Hw; [by apply enqueued_all_nil|].
  cbn [foldl fmap list_fmap]. apply enqueued_all_cons; [done|done|]. by apply IH, enqueue_commit_inv.
Qed.

Lemma enqueue_parents_spec ps w P :
  queue_inv w P → (∀ p, p ∈ ps → p ∈ D) →
  ∃ w', enqueue_parents ps w = (Ok tt, w') ∧ enqueued_all ps w P w'.
Proof.
  revert w. induction ps as [|p ps IH]; intros w Hw Hps; cbn [enqueue_parents].
  { exists w. split; [done|by apply enqueued_all_nil]. }
  destruct (graph_read read_obj_commit p) as (c & Hc & <-); [apply Hps, list_elem_of_here|].
  assert (commit_ok c) as Hok by (split; [apply Hps, list_elem_of_here|done]).
  destruct (IH (enqueue_commit c w)) as (w' & Hw' & Ha).
  - by apply enqueue_commit_inv.
  - intros q Hq. apply Hps, elem_of_cons. by right.
  - exists w'. rewrite (st_bind_ok _ _ w w c) by (unfold st_lift; by rewrite Hc).
    rewrite (st_bind_ok _ _ w w w) by done.
    rewrite (st_bind_ok _ _ w (enqueue_commit c w) tt) by done. split; [done|by apply enqueued_all_cons].
Qed.

Lemma enqueue_excluded exclude w P :
  queue_inv w P → Forall commit_ok exclude →
  (∀ o, UNINTERESTING (flags_of w o) = true ↔ ENQUEUED (flags_of w o) = true) →
  let w' := foldl (λ w c, enqueue_commit_with_flags c f_uninteresting w) w exclude in
  queue_inv w' P
  ∧ (∀ o, ENQUEUED (flags_of w' o) = true ↔ ENQUEUED (flags_of w o) = true ∨ o ∈ commit_oid <$> exclude)
  ∧ (∀ o, UNINTERESTING (flags_of w' o) = true ↔ ENQUEUED (flags_of w' o) = true).
Proof.
  intros Hw Hr. revert w Hw. induction Hr as [|c cs [Hd Hc] _ IH]; intros w Hw Hu; cbn [foldl fmap list_fmap].
  { split_and!; [done| |done]. set_solver. }
  destruct (enqueue_spec w P c f_uninteresting Hw Hd Hc eq_refl) as (Hw1 & He1 & Hu1 & _).
  destruct (IH (enqueue_commit_with_flags c f_uninteresting w) Hw1) as (Hw2 & He2 & Hu2).
  { intros o. rewrite He1, Hu1, Hu. destruct (ENQUEUED (flags_of w o)); naive_solver. }
  split_and!; [done| |done]. intros o. rewrite He2, He1, elem_of_cons. naive_solver.
Qed.

Lemma mark_parents_spec node w o :
  let w' := mark_parents_uninteresting node w in
  (UNINTERESTING (flags_of w' o) = true ↔
     UNINTERESTING (flags_of w o) = true ∨ o ∈ commit_parents (node_commit node))
  ∧ ENQUEUED (flags_of w' o) = ENQUEUED (flags_of w o) ∧ YIELDED (flags_of w' o) = YIELDED (flags_of w o)
  ∧ rw_pqueue w' = rw_pqueue w ∧ rw_index w' = rw_index w
  ∧ (is_Some (rw_flags w !! o) → is_Some (rw_flags w' !! o)).
Proof.
  unfold mark_parents_uninteresting. revert w.
  induction (commit_parents (node_commit node)) as [|p ps IH]; intros w; cbn [foldl].
  { split_and!; [|done..]. set_solver. }
  destruct (IH (set_flags w p (flags_insert (flags_of w p) f_uninteresting))) as (H1 & H2 & H3 & H4 & H5 & H6).
  rewrite H1, H2, H3, H4, H5, flags_of_set_flags, elem_of_cons. split_and!; try done.
  - case_decide as E; [subst|naive_solver]. cbn [UNINTERESTING flags_insert f_uninteresting].
    rewrite orb_true_r. naive_solver.
  - case_decide as E; [subst|done]. cbn [ENQUEUED flags_insert f_uninteresting]. by rewrite orb_false_r.
  - case_decide as E; [subst|done]. cbn [YIELDED flags_insert f_uninteresting]. by rewrite orb_false_r.
  - intros Hs. apply H6. unfold set_flags. cbn [rw_flags]. rewrite lookup_insert_is_Some'. by right.
Qed.

Context `{!TimesIncrease read_obj_commit D} (roots excl : list Oid).

(** The invariant: [P] are the popped commits, in order, and [out] those that were yielded. *)
Record walk_inv (w : RevWalk) (P : list Oid) (out : list Commit) : Prop := {
  wi_queue : queue_inv w P;
  wi_roots : ∀ o, o ∈ excl ++ roots → ENQUEUED (flags_of w o) = true;
  wi_parents : ∀ o p, o ∈ P → parent_of o p → ENQUEUED (flags_of w p) = true;
  wi_from : ∀ o, ENQUEUED (flags_of w o) = true → reaches_from (excl ++ roots) o;
  wi_uni_excl : ∀ o, o ∈ excl → UNINTERESTING (flags_of w o) = true;
  wi_uni_sound : ∀ o, UNINTERESTING (flags_of w o) = true → reaches_from excl o;
  wi_uni_parents : ∀ o p, o ∈ P → UNINTERESTING (flags_of w o) = true → parent_of o p →
    UNINTERESTING (flags_of w p) = true;
  wi_uni_complete : ∀ o, o ∈ P → reaches_from excl o → UNINTERESTING (flags_of w o) = true;
  wi_time : ∀ o n, o ∈ P → n ∈ rw_pqueue w → time_le (oid_time (node_oid n)) (oid_time o);
  wi_sorted : StronglySorted (λ a b, time_le (oid_time b) (oid_time a)) P;
  wi_out_ok : Forall commit_ok out;
  wi_out_sub : (commit_oid <$> out) `sublist_of` P;
  wi_out : ∀ o, o ∈ P → o ∈ commit_oid <$> out ↔ ¬ reaches_from excl o;
}.

Lemma reaches_from_step s o p : reaches_from s o → parent_of o p → reaches_from s p.
Proof. intros (r & Hr & Ho) Hp. exists r. split; [done|]. by eapply rtc_r. Qed.

(** A commit that is yet to be popped is an ancestor of one in the queue. *)
Lemma walk_frontier w P out o :
  walk_inv w P out → reaches_from (excl ++ roots) o →
  o ∈ P ∨ ∃ n, n ∈ rw_pqueue w ∧ reaches read_obj_commit (node_oid n) o.
Proof.
  intros Hw (r & Hr & Ho). apply (wi_roots _ _ _ Hw) in Hr.
  induction Ho as [r|r p o Hp Ho IH]; apply (qi_enqueued _ _ (wi_queue _ _ _ Hw)), elem_of_app in Hr as [Hr|Hr].
  - by left.
  - apply list_elem_of_fmap in Hr as (n & -> & Hn). right. exists n. split; [done|apply rtc_refl].
  - apply IH. by eapply wi_parents.
  - apply list_elem_of_fmap in Hr as (n & -> & Hn). right. exists n. split; [done|by eapply rtc_l].
Qed.

(** When a commit is popped, its descendants have been. *)
Lemma popped_descendants w P out node q y :
  walk_inv w P out → heap_pop (rw_pqueue w) = Some (node, q) →
  reaches_from (excl ++ roots) y → parent_of y (node_oid node) → y ∈ P.
Proof.
  intros Hw Hpop Hy Hp. destruct (walk_frontier w P out y Hw Hy) as [?|(n & Hn & Hr)]; [done|]. exfalso.
  pose proof (heap_pop_spec (rw_pqueue w)) as Hs. rewrite Hpop in Hs. destruct Hs as [Hperm Hmax].
  pose proof (qi_nodes _ _ (wi_queue _ _ _ Hw)) as Hok. rewrite Forall_forall in Hok.
  assert (node_ok node) as Hnode by (apply Hok; rewrite Hperm; apply list_elem_of_here).
  assert (node_ok n) as Hnok by by apply Hok.
  assert (y ∈ D) as Hyd by (eapply (reaches_closed read_obj_commit D); [done..|apply Hnok]).
  apply (time_lt_not_le (oid_time (node_oid node)) (oid_time y)); [by apply (times_increase read_obj_commit (D:=D))|].
  eapply time_le_trans; [eapply (reaches_time_le read_obj_commit D); [done..|apply Hnok]|].
  rewrite (node_ok_time Hnok), (node_ok_time Hnode).
  rewrite Hperm in Hn. apply elem_of_cons in Hn as [->|Hn]; [apply time_le_refl|by apply Hmax].
Qed.

Lemma popped_uninteresting w P out node q :
  walk_inv w P out → heap_pop (rw_pqueue w) = Some (node, q) →
  reaches_from excl (node_oid node) → UNINTERESTING (flags_of w (node_oid node)) = true.
Proof.
  intros Hw Hpop (e & He & Hr). apply rtc_inv_r in Hr as [<-|(y & Hy & Hp)]; [by eapply wi_uni_excl|].
  assert (y ∈ P) as HyP.
  { eapply popped_descendants; [done..| |done]. exists e. split; [apply elem_of_app; by left|done]. }
  eapply wi_uni_parents; [done|done| |done]. eapply wi_uni_complete; [done|done|]. by exists e.
Qed.

(** The queue after a pop, with the popped commit among [P]. *)
Lemma queue_inv_pop w P node q :
  queue_inv w P → heap_pop (rw_pqueue w) = Some (node, q) → queue_inv (set_pqueue w q) (P ++ [node_oid node]).
Proof.
  intros [Hn Hnd He Hy Hs HP Hi] Hpop. pose proof (heap_pop_spec (rw_pqueue w)) as Hp. rewrite Hpop in Hp.
  destruct Hp as [Hperm _].
  assert ((P ++ [node_oid node]) ++ (node_oid <$> q) ≡ₚ P ++ (node_oid <$> rw_pqueue w)) as Hpp.
  { rewrite Hperm, <- (assoc_L app). done. }
  rewrite Hperm in Hn. apply Forall_cons in Hn as [Hnode Hq].
  split; cbn [set_pqueue rw_pqueue rw_index rw_flags]; try done.
  - by rewrite Hpp.
  - intros o. rewrite Hpp. apply He.
  - intros o Ho. apply elem_of_app. left. by apply Hy.
  - intros o Ho. apply Hs. rewrite Hperm. cbn [fmap list_fmap]. apply elem_of_cons. by right.
  - intros o [?| ->%list_elem_of_singleton]%elem_of_app; [by apply HP|apply Hnode].
  - by eapply indices_distinct_pop.
Qed.

(** Changing the flags without touching [ENQUEUED], [YIELDED] only for popped commits. *)
Lemma queue_inv_flags w w' P :
  queue_inv w P → rw_pqueue w' = rw_pqueue w → rw_index w' = rw_index w →
  (∀ o, ENQUEUED (flags_of w' o) = ENQUEUED (flags_of w o)) →
  (∀ o, YIELDED (flags_of w' o) = true → YIELDED (flags_of w o) = true ∨ o ∈ P) →
  (∀ o, is_Some (rw_flags w !! o) → is_Some (rw_flags w' !! o)) → queue_inv w' P.
Proof.
  intros [Hn Hnd He Hy Hs HP Hi] Hq Hx He' Hy' Hs'. split; rewrite ?Hq, ?Hx; try done.
  - intros o. by rewrite He'.
  - intros o [?|?]%Hy'; [by apply Hy|done].
  - intros o Ho. by apply Hs', Hs.
Qed.

(** One pop, from what it does to the flags and the queue. *)
Lemma walk_inv_popped w P out node q w' out' :
  walk_inv w P out → heap_pop (rw_pqueue w) = Some (node, q) →
  queue_inv w' (P ++ [node_oid node]) →
  (∀ o, ENQUEUED (flags_of w' o) = true ↔ ENQUEUED (flags_of w o) = true ∨ parent_of (node_oid node) o) →
  (∀ o, UNINTERESTING (flags_of w' o) = true ↔ UNINTERESTING (flags_of w o) = true
     ∨ UNINTERESTING (flags_of w (node_oid node)) = true ∧ parent_of (node_oid node) o) →
  (∀ n, n ∈ rw_pqueue w' → n ∈ q ∨ parent_of (node_oid node) (node_oid n)) →
  out' = out ++ (if UNINTERESTING (flags_of w (node_oid node)) then [] else [node_commit node]) →
  walk_inv w' (P ++ [node_oid node]) out'.
Proof.
  intros Hw Hpop Hq' He Hu Hn ->. set (x := node_oid node) in *.
  pose proof (heap_pop_spec (rw_pqueue w)) as Hs. rewrite Hpop in Hs. destruct Hs as [Hperm Hmax].
  pose proof (qi_nodes _ _ (wi_queue _ _ _ Hw)) as Hok. rewrite Hperm in Hok.
  apply Forall_cons in Hok as [Hnode Hqok]. rewrite Forall_forall in Hqok.
  assert (node ∈ rw_pqueue w) as Hin by (rewrite Hperm; apply list_elem_of_here).
  assert (ENQUEUED (flags_of w x) = true) as Hxe.
  { apply (qi_enqueued _ _ (wi_queue _ _ _ Hw)), elem_of_app. right. by apply list_elem_of_fmap_2. }
  assert (x ∉ P) as HxP.
  { pose proof (qi_nodup _ _ Hq') as Hnd. apply NoDup_app in Hnd as (Hnd & _ & _).
    apply NoDup_app in Hnd as (_ & Hd & _). intros HxP. apply (Hd x HxP). by apply list_elem_of_singleton. }
  assert (reaches_from excl x ↔ UNINTERESTING (flags_of w x) = true) as Hxu.
  { split; [by eapply popped_uninteresting|by eapply wi_uni_sound]. }
  assert (∀ o, o ∈ P → time_le (oid_time x) (oid_time o)) as HxT by (intros o Ho; by eapply wi_time).
  assert (∀ o, UNINTERESTING (flags_of w' o) = true → reaches_from excl o) as Hsound.
  { intros o [?|[Hx Hp]]%Hu; [by eapply wi_uni_sound|]. eapply reaches_from_step; [by apply Hxu|done]. }
  split.
  - done.
  - intros o Ho. apply He. left. by eapply wi_roots.
  - intros o p [Ho| ->%list_elem_of_singleton]%elem_of_app Hp; apply He; [left; by eapply wi_parents|by right].
  - intros o [?|Hp]%He; [by eapply wi_from|]. eapply reaches_from_step; [|done]. by eapply wi_from.
  - intros o Ho. apply Hu. left. by eapply wi_uni_excl.
  - done.
  - intros o p [Ho| ->%list_elem_of_singleton]%elem_of_app Ho' Hp; apply Hu.
    + left. eapply wi_uni_parents; [done|done| |done]. eapply wi_uni_complete; [done|done|]. by apply Hsound.
    + apply Hsound, Hxu in Ho'. by right.
  - intros o [Ho| ->%list_elem_of_singleton]%elem_of_app Hr; apply Hu; left; [by eapply wi_uni_complete|by apply Hxu].
  - assert (∀ n, n ∈ rw_pqueue w' → time_le (oid_time (node_oid n)) (oid_time x)) as Hle.
    { intros n [Hnq|Hp]%Hn.
      - unfold x. rewrite (node_ok_time (Hqok n Hnq)), (node_ok_time Hnode). by apply Hmax.
      - apply time_lt_le, (times_increase read_obj_commit (D:=D)); [apply Hnode|done]. }
    intros o n [Ho| ->%list_elem_of_singleton]%elem_of_app Hnn; [|by apply Hle].
    eapply time_le_trans; [by apply Hle|by apply HxT].
  - apply StronglySorted_app_2; [|by eapply wi_sorted|by repeat constructor].
    intros a b Ha ->%list_elem_of_singleton. by apply HxT.
  - apply Forall_app. split; [by eapply wi_out_ok|]. by destruct (UNINTERESTING _); [apply Forall_nil|apply Forall_singleton].
  - rewrite fmap_app. apply sublist_app; [by eapply wi_out_sub|]. by destruct (UNINTERESTING _); [apply sublist_nil_l|].
  - intros o Ho. rewrite fmap_app, elem_of_app.
    assert (o ∈ commit_oid <$> (if UNINTERESTING (flags_of w x) then [] else [node_commit node])
            ↔ o = x ∧ UNINTERESTING (flags_of w x) = false) as ->.
    { destruct (UNINTERESTING _); cbn [fmap list_fmap].
      - split; [by intros ?%not_elem_of_nil|by intros [_ ?]].
      - rewrite list_elem_of_singleton. naive_solver. }
    apply elem_of_app in Ho as [Ho| ->%list_elem_of_singleton].
    + rewrite (wi_out _ _ _ Hw o Ho). naive_solver.
    + rewrite Hxu, not_true_iff_false. split; [|by right].
      intros [Hx|[_ ?]]; [|done]. exfalso. apply HxP. eapply elem_of_sublist; [done|by eapply wi_out_sub].
Qed.

Lemma any_interesting_spec w q :
  (∀ o, o ∈ node_oid <$> q → is_Some (rw_flags w !! o)) →
  ∃ b, any_interesting (rw_flags w) q = Ok b
    ∧ if b then q ≠ [] else ∀ n, n ∈ q → UNINTERESTING (flags_of w (node_oid n)) = true.
Proof.
  induction q as [|n q IH]; cbn [any_interesting]; intros Hs.
  { exists false. split; [done|by intros ? ?%not_elem_of_nil]. }
  destruct (Hs (node_oid n)) as [f Hf]; [apply list_elem_of_here|]. rewrite Hf.
  cbn [unwrap mbind outcome_bind]. destruct (negb (UNINTERESTING f)) eqn:E; [by exists true|].
  destruct IH as (b & Hb & Hq).
  { intros o Ho. apply Hs. cbn [fmap list_fmap]. apply elem_of_cons. by right. }
  exists b. split; [done|]. destruct b; [done|]. intros m [->|Hm]%elem_of_cons; [|by apply Hq].
  unfold flags_of. rewrite Hf. by apply negb_false_iff.
Qed.

(** The body of the loop. *)
Lemma walk_step w P out node q :
  walk_inv w P out → heap_pop (rw_pqueue w) = Some (node, q) →
  ∃ w2, enqueue_parents (commit_parents (node_commit node)) (set_pqueue w q) = (Ok tt, w2)
    ∧ let flags := flags_insert (flags_of w2 (node_oid node)) f_yielded in
      let w3 := set_flags w2 (node_oid node) flags in
      if UNINTERESTING flags
      then walk_inv (mark_parents_uninteresting node w3) (P ++ [node_oid node]) out
      else walk_inv w3 (P ++ [node_oid node]) (out ++ [node_commit node]).
Proof.
  intros Hw Hpop. pose proof (queue_inv_pop w P node q (wi_queue _ _ _ Hw) Hpop) as Hq1.
  assert (node_ok node) as Hnode.
  { pose proof (heap_pop_spec (rw_pqueue w)) as Hs. rewrite Hpop in Hs. destruct Hs as [Hperm _].
    pose proof (qi_nodes _ _ (wi_queue _ _ _ Hw)) as Hok. rewrite Hperm in Hok. by apply Forall_cons in Hok as [? _]. }
  pose proof (λ p, node_ok_parent read_obj_commit D node p Hnode) as Hpar.
  destruct (enqueue_parents_spec (commit_parents (node_commit node)) (set_pqueue w q) _ Hq1) as (w2 & Hw2 & Hq2 & He2 & Hu2 & Hn2).
  { intros p (c & Hc & Hp)%Hpar. by eapply (graph_closed read_obj_commit); [apply Hnode|..]. }
  exists w2. split; [done|]. cbn zeta. set (x := node_oid node) in *.
  set (w3 := set_flags w2 x (flags_insert (flags_of w2 x) f_yielded)).
  change (flags_of (set_pqueue w q)) with (flags_of w) in *. cbn [set_pqueue rw_pqueue] in Hn2.
  assert (∀ o, ENQUEUED (flags_of w3 o) = ENQUEUED (flags_of w2 o)) as He3.
  { intros o. unfold w3. rewrite flags_of_set_flags. case_decide; [subst|done]. cbn. by rewrite orb_false_r. }
  assert (∀ o, UNINTERESTING (flags_of w3 o) = UNINTERESTING (flags_of w2 o)) as Hu3.
  { intros o. unfold w3. rewrite flags_of_set_flags. case_decide; [subst|done]. cbn. by rewrite orb_false_r. }
  assert (queue_inv w3 (P ++ [x])) as Hq3.
  { apply (queue_inv_flags w2); try done; unfold w3.
    - intros o. rewrite flags_of_set_flags. case_decide; [subst|by left]. intros _. right.
      apply elem_of_app. right. by apply list_elem_of_singleton.
    - intros o Ho. unfold set_flags. cbn [rw_flags]. apply lookup_insert_is_Some'. by right. }
  assert (UNINTERESTING (flags_insert (flags_of w2 x) f_yielded) = UNINTERESTING (flags_of w x)) as ->.
  { cbn [flags_insert UNINTERESTING f_yielded]. rewrite orb_false_r. apply eq_true_iff_eq. by rewrite Hu2. }
  destruct (UNINTERESTING (flags_of w x)) eqn:Hux.
  - pose proof (mark_parents_spec node w3) as Hm.
    apply (walk_inv_popped w P out node q); try done; fold x.
    + apply (queue_inv_flags w3); try apply (Hm x); try done; intros o; try apply (Hm o).
      intros Hy. left. destruct (Hm o) as (_ & _ & E & _). by rewrite <- E.
    + intros o. destruct (Hm o) as (_ & -> & _). by rewrite He3, He2, Hpar.
    + intros o. destruct (Hm o) as (-> & _). rewrite Hu3, Hu2, Hpar. naive_solver.
    + intros n. destruct (Hm x) as (_ & _ & _ & -> & _). rewrite <- Hpar. apply Hn2.
    + rewrite Hux. by rewrite app_nil_r.
  - apply (walk_inv_popped w P out node q); try done; fold x.
    + intros o. by rewrite He3, He2, Hpar.
    + intros o. rewrite Hu3, Hu2. naive_solver congruence.
    + intros n Hn. rewrite <- Hpar. by apply Hn2.
    + by rewrite Hux.
Qed.

Lemma walk_popped_bound w P out : walk_inv w P out → (length P ≤ size D)%nat.
Proof.
  intros Hw. pose proof (wi_queue _ _ _ Hw) as [_ Hnd _ _ _ HP _]. apply NoDup_app in Hnd as (Hnd & _ & _).
  rewrite <- (size_list_to_set (C:=gset (list byte)) P Hnd). apply subseteq_size. intros o Ho.
  apply HP. by apply elem_of_list_to_set in Ho.
Qed.

(** [next] yields a commit, or has nothing interesting left. *)
Lemma revwalk_next_spec fuel w P out :
  walk_inv w P out → (size D < fuel + length P)%nat →
  ∃ r w' P', revwalk_next fuel w = (Ok r, w') ∧ walk_inv w' P' (out ++ option_list r)
    ∧ match r with
      | Some _ => (length P < length P')%nat
      | None => ∀ n, n ∈ rw_pqueue w' → UNINTERESTING (flags_of w' (node_oid n)) = true
      end.
Proof.
  revert w P. induction fuel as [|fuel IH]; intros w P Hw Hf.
  { pose proof (walk_popped_bound w P out Hw). lia. }
  cbn [revwalk_next]. rewrite (st_bind_ok _ _ w w w) by done.
  destruct (any_interesting_spec w (rw_pqueue w) (qi_entries _ _ (wi_queue _ _ _ Hw))) as (b & Hb & Hb').
  rewrite (st_bind_ok _ _ w w b) by (unfold st_lift, still_interesting; by rewrite Hb).
  destruct b.
  2: { exists None, w, P. cbn [option_list]. by rewrite app_nil_r. }
  pose proof (heap_pop_spec (rw_pqueue w)) as Hs.
  destruct (heap_pop (rw_pqueue w)) as [[node q]|] eqn:Hpop; [|done]. clear Hs.
  rewrite (st_bind_ok _ _ w (set_pqueue w q) tt) by done.
  destruct (walk_step w P out node q Hw Hpop) as (w2 & Hw2 & Hinv).
  rewrite (st_bind_ok _ _ _ w2 tt) by done. rewrite (st_bind_ok _ _ w2 w2 w2) by done. cbn zeta in *.
  destruct (UNINTERESTING _).
  - rewrite (st_bind_ok _ _ w2 (mark_parents_uninteresting node
      (set_flags w2 (node_oid node) (flags_insert (flags_of w2 (node_oid node)) f_yielded))) tt) by done.
    destruct (IH _ _ Hinv) as (r & w' & P' & H1 & H2 & H3).
    { rewrite length_app. cbn [length]. lia. }
    exists r, w', P'. split_and!; [done|done|]. destruct r; [|done].
    rewrite length_app in H3. cbn [length] in H3. lia.
  - eexists (Some (node_commit node)), _, _. split; [reflexivity|]. split; [exact Hinv|].
    rewrite length_app. cbn [length]. lia.
Qed.

Lemma revwalk_collect_spec fuel n w P out :
  walk_inv w P out → (size D < fuel + length P)%nat → (size D < n + length P)%nat →
  ∃ cs w' P', revwalk_collect fuel n w = (Ok cs, w') ∧ walk_inv w' P' (out ++ cs)
    ∧ ∀ n, n ∈ rw_pqueue w' → UNINTERESTING (flags_of w' (node_oid n)) = true.
Proof.
  revert w P out. induction n as [|n IH]; intros w P out Hw Hf Hn.
  { pose proof (walk_popped_bound w P out Hw). lia. }
  cbn [revwalk_collect]. destruct (revwalk_next_spec fuel w P out Hw Hf) as (r & w1 & P1 & H1 & Hw1 & Hr).
  rewrite (st_bind_ok _ _ w w1 r) by done. destruct r as [c|]; cbn [option_list] in Hw1.
  - destruct (IH w1 P1 (out ++ [c]) Hw1) as (cs & w2 & P2 & H2 & Hw2 & Hu); [lia..|].
    exists (c :: cs), w2, P2. rewrite (st_bind_ok _ _ w1 w2 cs) by done.
    rewrite <- (assoc_L app) in Hw2. by split_and!.
  - exists [], w1, P1. by split_and!.
Qed.

(** When nothing interesting is left, everything that had to be yielded was. *)
Lemma walk_done w P out :
  walk_inv w P out → (∀ n, n ∈ rw_pqueue w → UNINTERESTING (flags_of w (node_oid n)) = true) →
  ∀ o, o ∈ commit_oid <$> out ↔ reaches_from roots o ∧ ¬ reaches_from excl o.
Proof.
  intros Hw Hu o. split.
  - intros Ho. assert (o ∈ P) as HP by (eapply elem_of_sublist; [done|by eapply wi_out_sub]).
    apply (wi_out _ _ _ Hw o HP) in Ho. split; [|done].
    destruct (wi_from _ _ _ Hw o) as (r & [Hr|Hr]%elem_of_app & Hro).
    + apply (qi_enqueued _ _ (wi_queue _ _ _ Hw)), elem_of_app. by left.
    + destruct Ho. by exists r.
    + by exists r.
  - intros [(r & Hr & Hro) Hne]. destruct (walk_frontier w P out o Hw) as [HP|(n & Hn & Hno)].
    + exists r. split; [apply elem_of_app; by right|done].
    + by apply (wi_out _ _ _ Hw o HP).
    + destruct Hne. destruct (wi_uni_sound _ _ _ Hw (node_oid n) (Hu n Hn)) as (e & He & Hen).
      exists e. split; [done|by etrans].
Qed.
End revwalk.

(** Generic facts on sorted lists. *)
Section theorems.
Context (read_obj_commit : Oid → BitResult Commit) (D : gset (list byte)).
Context `{!CommitGraph read_obj_commit D, !TimesIncrease read_obj_commit D}.

Lemma rw_empty_inv : queue_inv read_obj_commit D rw_empty [].
Proof.
  split; cbn [rw_empty rw_pqueue rw_index rw_flags fmap list_fmap app]; try (by constructor);
    try by intros ? ?%not_elem_of_nil.
  - intros o. unfold flags_of. cbn [rw_flags rw_empty]. rewrite lookup_empty. cbn. split; [done|by intros ?%not_elem_of_nil].
  - intros o. unfold flags_of. cbn [rw_flags rw_empty]. by rewrite lookup_empty.
  - by split; constructor.
Qed.

Lemma revwalk_build_inv (roots exclude : list Commit) :
  Forall (commit_ok read_obj_commit D) roots → Forall (commit_ok read_obj_commit D) exclude →
  walk_inv read_obj_commit D (commit_oid <$> roots) (commit_oid <$> exclude) (revwalk_build roots exclude) [] [].
Proof.
  intros Hr Hx. unfold revwalk_build. assert (∀ o, flags_of rw_empty o = flags_default) as Hf0.
  { intros o. unfold flags_of. cbn [rw_flags rw_empty]. by rewrite lookup_empty. }
  destruct (enqueue_excluded read_obj_commit D exclude rw_empty [] rw_empty_inv Hx) as (Hq1 & He1 & Hu1).
  { intros o. by rewrite Hf0. }
  set (w1 := foldl _ rw_empty exclude) in *.
  destruct (enqueue_roots read_obj_commit D roots w1 [] Hq1 Hr) as (Hq2 & He2 & Hu2 & _).
  assert (∀ o, ENQUEUED (flags_of w1 o) = true ↔ o ∈ commit_oid <$> exclude) as He.
  { intros o. rewrite He1, Hf0. naive_solver. }
  split; try done; try (by intros ? ?%not_elem_of_nil); try (by intros ? ? ?%not_elem_of_nil); try by constructor.
  - intros o [Ho|Ho]%elem_of_app; apply He2; [left; by apply He|by right].
  - intros o Ho. exists o. split; [|apply rtc_refl]. apply elem_of_app. apply He2 in Ho as [?|?]; [left; by apply He|by right].
  - intros o Ho. apply Hu2, Hu1. by apply He.
  - intros o Ho. exists o. split; [|apply rtc_refl]. by apply He, Hu1, Hu2.
Qed.

(** C3: For commits that are younger than their parents, [RevWalk] yields exactly the commits that
    are reachable from the roots and not from an excluded commit, each once, in the order of
    their times, a commit always before its parents; the walk terminates after at most as
    many steps as there are commits. *)
Theorem revwalk_correct (roots exclude : list Commit) fuel :
  Forall (commit_ok read_obj_commit D) roots → Forall (commit_ok read_obj_commit D) exclude →
  (size D < fuel)%nat →
  ∃ cs w', revwalk_collect read_obj_commit fuel fuel (revwalk_build roots exclude) = (Ok cs, w')
    ∧ NoDup (commit_oid <$> cs)
    ∧ (∀ c, c ∈ cs → read_obj_commit (commit_oid c) = Ok c)
    ∧ (∀ o, o ∈ commit_oid <$> cs ↔
         reaches_from read_obj_commit (commit_oid <$> roots) o
         ∧ ¬ reaches_from read_obj_commit (commit_oid <$> exclude) o)
    ∧ (∀ i j c d, cs !! i = Some c → cs !! j = Some d → (i < j)%nat → time_le (commit_time d) (commit_time c))
    ∧ (∀ i j c d, cs !! i = Some c → cs !! j = Some d → commit_oid d ∈ commit_parents c → (i < j)%nat).
Proof.
  intros Hr Hx Hf.
  destruct (revwalk_collect_spec read_obj_commit D (commit_oid <$> roots) (commit_oid <$> exclude) fuel fuel
    _ _ _ (revwalk_build_inv roots exclude Hr Hx)) as (cs & w' & P & Hc & Hw & Hu); [cbn [length]; lia..|].
  exists cs, w'. cbn [app] in Hw.
  assert (∀ c, c ∈ cs → commit_ok read_obj_commit D c) as Hok by (apply Forall_forall; by eapply wi_out_ok).
  assert (∀ i j c d, cs !! i = Some c → cs !! j = Some d → (i < j)%nat → time_le (commit_time d) (commit_time c)) as Hs.
  { intros i j c d Hi Hj Hlt.
    assert (∀ c, c ∈ cs → oid_time read_obj_commit (commit_oid c) = commit_time c) as Ht.
    { intros c' [_ Hc']%Hok. unfold oid_time. by rewrite Hc'. }
    rewrite <- (Ht c), <- (Ht d) by (by eapply list_elem_of_lookup_2).
    apply (StronglySorted_lookup (λ a b, time_le (oid_time read_obj_commit b) (oid_time read_obj_commit a))
      (commit_oid <$> cs) i j); [|by rewrite list_lookup_fmap, ?Hi, ?Hj..|done].
    eapply StronglySorted_sublist; [by eapply wi_out_sub|by eapply wi_sorted]. }
  split_and!; [done| | | |done|].
  - eapply sublist_NoDup; [|by eapply wi_out_sub].
    pose proof (qi_nodup _ _ _ _ (wi_queue _ _ _ _ _ _ _ Hw)) as Hnd. by apply NoDup_app in Hnd as (? & _).
  - intros c Hcc. by apply Hok.
  - by eapply walk_done.
  - intros i j c d Hi Hj Hp. assert (c ∈ cs) as [Hcd Hcr]%Hok by by eapply list_elem_of_lookup_2.
    assert (d ∈ cs) as [Hdd Hdr]%Hok by by eapply list_elem_of_lookup_2.
    assert (time_lt (commit_time d) (commit_time c)) as Hlt.
    { pose proof (times_increase read_obj_commit (D:=D) (commit_oid c) (commit_oid d) Hcd) as HT.
      unfold oid_time in HT. rewrite Hcr, Hdr in HT. apply HT. by exists c. }
    destruct (Nat.lt_trichotomy i j) as [?|[->|Hji]]; [done| |].
    + assert (c = d) as -> by congruence. by apply time_lt_irrefl in Hlt.
    + apply time_lt_not_le in Hlt. destruct Hlt. by eapply Hs.
Qed.
End theorems.

(** ** Witness *)

(** A merge [4] of [2] and [3], which branch off [1]. *)
Definition diamond : list Commit :=
  [commit_at x01 1 []; commit_at x02 2 [x01]; commit_at x03 3 [x01];
   commit_at x04 4 [x02; x03]].

#[local] Instance diamond_graph : CommitGraph (lookup_commit diamond) (commits_dom diamond).
Proof. apply lookup_commit_graph. vm_decide. Qed.

#[local] Instance diamond_times : TimesIncrease (lookup_commit diamond) (commits_dom diamond).
Proof. apply lookup_commit_times. unfold time_lt. vm_decide. Qed.

Lemma revwalk_correct_witness :
  ∃ cs w',
    revwalk_collect (lookup_commit diamond) 5 5
      (revwalk_build [commit_at x04 4 [x02; x03]] [commit_at x03 3 [x01]]) = (Ok cs, w')
    ∧ cs = [commit_at x04 4 [x02; x03]; commit_at x02 2 [x01]]
    ∧ NoDup (commit_oid <$> cs).
Proof.
  destruct (revwalk_correct (lookup_commit diamond) (commits_dom diamond)
    [commit_at x04 4 [x02; x03]] [commit_at x03 3 [x01]] 5) as (cs & w' & Hc & Hnd & _).
  - apply Forall_singleton. split; [vm_decide|by vm_compute].
  - apply Forall_singleton. split; [vm_decide|by vm_compute].
  - vm_decide.
  - exists cs, w'. split_and!; [done| |done].
    assert (fst (revwalk_collect (lookup_commit diamond) 5 5
      (revwalk_build [commit_at x04 4 [x02; x03]] [commit_at x03 3 [x01]]))
      = Ok [commit_at x04 4 [x02; x03]; commit_at x02 2 [x01]]) as E by by vm_compute.
    rewrite Hc in E. by apply Ok_inj in E.
Defined.

(** The order of the times is needed: where all commits have the same time, which the comments of
    [CommitNode] allow for, a commit that an excluded one reaches through a longer path is
    yielded. *)
Definition same_times : list Commit :=
  [commit_at x01 0 []; commit_at x02 0 [x01]; commit_at x03 0 [x02]; commit_at x04 0 [x03];
   commit_at x05 0 [x01]].

Lemma revwalk_same_times_wrong :
  reaches_from (lookup_commit same_times) [replicate 20 x04] (replicate 20 x01)
  ∧ fst (revwalk_collect (lookup_commit same_times) 9 9
           (revwalk_build [commit_at x05 0 [x01]] [commit_at x04 0 [x03]]))
    = Ok [commit_at x05 0 [x01]; commit_at x01 0 []].
Proof.
  split; [|by vm_compute]. exists (replicate 20 x04). split; [apply list_elem_of_here|].
  apply (rtc_l _ _ (replicate 20 x03)); [eexists; split; [by vm_compute|vm_decide]|].
  apply (rtc_l _ _ (replicate 20 x02)); [eexists; split; [by vm_compute|vm_decide]|].
  apply rtc_once. eexists; split; [by vm_compute|vm_decide].
Qed.
