(* ===== verification/MergeBase.v ===== *)
(** * MergeBase

    [MergeBaseCtxt] of [libbit/src/merge.rs]: the search for the merge bases of two commits,
    the common ancestors that no other common ancestor descends from. *)

From Stdlib Require Import ZArith Lia Sorted.
From Stdlib Require Import Strings.Byte.
From stdpp Require Import base tactics option list countable strings gmap relations.
From S2P Require Import Prelude RustStd Data Hash Signature Commit State CommitGraph.

(** [bitflags! struct NodeFlags]. *)
Record NodeFlags := mk_NodeFlags { PARENT1 : bool; PARENT2 : bool; RESULT : bool; STALE : bool }.

#[export] Instance NodeFlags_eq_dec : EqDecision NodeFlags.
Proof. solve_decision. Defined.

Definition nf_default : NodeFlags := mk_NodeFlags false false false false.

(** [flags.insert]. *)
Definition nf_insert (f g : NodeFlags) : NodeFlags :=
  mk_NodeFlags (PARENT1 f || PARENT1 g) (PARENT2 f || PARENT2 g) (RESULT f || RESULT g) (STALE f || STALE g).

Definition f_parent1 : NodeFlags := mk_NodeFlags true false false false.
Definition f_parent2 : NodeFlags := mk_NodeFlags false true false false.
Definition f_result : NodeFlags := mk_NodeFlags false false true false.
Definition f_stale : NodeFlags := mk_NodeFlags false false false true.

(** [*flags & !NodeFlags::RESULT]. *)
Definition without_result (f : NodeFlags) : NodeFlags := mk_NodeFlags (PARENT1 f) (PARENT2 f) false (STALE f).

(** [flags.contains(PARENT1 | PARENT2)]. *)
Definition nf_both (f : NodeFlags) : bool := PARENT1 f && PARENT2 f.

Record MergeBaseCtxt := mk_MergeBaseCtxt {
  mb_candidates : list Commit;
  mb_pqueue : list CommitNode;
  mb_flags : gmap (list byte) NodeFlags;
  mb_index : nat;
}.

Definition mb_empty : MergeBaseCtxt := mk_MergeBaseCtxt [] [] ∅ 0.

(** [self.node_flags.entry(oid).or_default()]. *)
Definition nf_of (s : MergeBaseCtxt) (o : Oid) : NodeFlags := default nf_default (mb_flags s !! o).

Definition mb_set_flags (s : MergeBaseCtxt) (o : Oid) (f : NodeFlags) : MergeBaseCtxt :=
  mk_MergeBaseCtxt (mb_candidates s) (mb_pqueue s) (<[o := f]> (mb_flags s)) (mb_index s).

Definition mb_set_pqueue (s : MergeBaseCtxt) (q : list CommitNode) : MergeBaseCtxt :=
  mk_MergeBaseCtxt (mb_candidates s) q (mb_flags s) (mb_index s).

(** [mk_node] and [self.pqueue.push]. *)
Definition mb_push (s : MergeBaseCtxt) (c : Commit) : MergeBaseCtxt :=
  mk_MergeBaseCtxt (mb_candidates s) (mk_CommitNode c (mb_index s) :: mb_pqueue s) (mb_flags s) (S (mb_index s)).

(** [still_interesting]. *)
Fixpoint any_not_stale (flags : gmap (list byte) NodeFlags) (q : list CommitNode) : BitResult bool :=
  match q with
  | [] => Ok false
  | node :: q =>
      f ← unwrap (flags !! node_oid node);
      if negb (STALE f) then Ok true else any_not_stale flags q
  end.

Definition mb_still_interesting (s : MergeBaseCtxt) : BitResult bool := any_not_stale (mb_flags s) (mb_pqueue s).

(** The closure [push_init]. *)
Definition push_init (c : Commit) (f : NodeFlags) (s : MergeBaseCtxt) : MergeBaseCtxt :=
  mb_push (mb_set_flags s (commit_oid c) (nf_insert (nf_of s (commit_oid c)) f)) c.

(** [parent_flags]: the flags a commit passes on to its parents. *)
Definition parent_flags (f : NodeFlags) : NodeFlags :=
  if nf_both f then nf_insert (without_result f) f_stale else without_result f.

(** The candidate is recorded where it is neither a result nor stale. *)
Definition add_candidate (node : CommitNode) (f : NodeFlags) (s : MergeBaseCtxt) : MergeBaseCtxt :=
  if nf_both f && negb (RESULT f || STALE f) then
    let s := mb_set_flags s (node_oid node) (nf_insert f f_result) in
    mk_MergeBaseCtxt (mb_candidates s ++ [node_commit node]) (mb_pqueue s) (mb_flags s) (mb_index s)
  else s.

(** [retain] of [merge_bases_all]. *)
Fixpoint retain_not_stale (flags : gmap (list byte) NodeFlags) (cs : list Commit) : BitResult (list Commit) :=
  match cs with
  | [] => Ok []
  | c :: cs =>
      f ← unwrap (flags !! commit_oid c);
      cs ← retain_not_stale flags cs;
      Ok (if STALE f then cs else c :: cs)
  end.

Section merge_base.
Context (read_obj_commit : Oid → BitResult Commit).

(** The loop of [build_candidates] over the parents. *)
Fixpoint push_parents (parents : list Oid) (f : NodeFlags) : st MergeBaseCtxt unit :=
  match parents with
  | [] => mret tt
  | parent :: parents =>
      s ← st_get;
      let pflags := nf_of s parent in
      _ ← st_put (mb_set_flags s parent pflags);
      if bool_decide (pflags = f) then push_parents parents f
      else
        c ← st_lift (read_obj_commit parent);
        _ ← st_put (mb_push (mb_set_flags (mb_set_flags s parent pflags) parent (nf_insert pflags f)) c);
        push_parents parents f
  end.

(** The loop of [build_candidates]; [fuel] bounds its iterations. *)
Fixpoint build_loop (fuel : nat) : st MergeBaseCtxt unit :=
  match fuel with
  | O => st_lift Panic
  | S fuel =>
      s ← st_get;
      interesting ← st_lift (mb_still_interesting s);
      if (interesting : bool) then
        match heap_pop (mb_pqueue s) with
        | None => mret tt
        | Some (node, q) =>
            flags ← st_lift (unwrap (mb_flags s !! node_oid node));
            _ ← st_put (add_candidate node flags (mb_set_pqueue s q));
            _ ← push_parents (commit_parents (node_commit node)) (parent_flags flags);
            build_loop fuel
        end
      else mret tt
  end.

Definition build_candidates (fuel : nat) (a b : Commit) : st MergeBaseCtxt unit :=
  s ← st_get;
  _ ← st_put (push_init b f_parent2 (push_init a f_parent1 s));
  build_loop fuel.

Definition merge_bases_all (fuel : nat) (a b : Commit) : st MergeBaseCtxt (list Commit) :=
  _ ← build_candidates fuel a b;
  s ← st_get;
  st_lift (retain_not_stale (mb_flags s) (mb_candidates s)).

Definition find_merge_bases (fuel : nat) (a b : Commit) : BitResult (list Commit) :=
  fst (merge_bases_all fuel a b mb_empty).

(** [swap_remove(0)] of a nonempty vector gives its first element. *)
Definition find_merge_base (fuel : nat) (a b : Commit) : BitResult (option Commit) :=
  merge_bases ← find_merge_bases fuel a b;
  Ok (head merge_bases).

(** [BitRepo::merge_bases] and [BitRepo::merge_base]; [peel] reads the object of an id, an
    error where it is not a commit. *)
Definition repo_merge_bases (peel : Oid → BitResult Commit) (fuel : nat) (a b : Oid) : BitResult (list Commit) :=
  a ← peel a;
  b ← peel b;
  find_merge_bases fuel a b.

Definition repo_merge_base (peel : Oid → BitResult Commit) (fuel : nat) (a b : Oid) : BitResult (option Commit) :=
  commit_a ← peel a;
  commit_b ← peel b;
  find_merge_base fuel commit_a commit_b.

(** ** Flags *)

Definition nf_le (f g : NodeFlags) : Prop := nf_insert g f = g.

Lemma nf_insert_default f : nf_insert f nf_default = f.
Proof. by destruct f as [[] [] [] []]. Qed.
Lemma nf_insert_idem f g : nf_insert (nf_insert f g) g = nf_insert f g.
Proof. by destruct f as [[] [] [] []], g as [[] [] [] []]. Qed.
Lemma nf_insert_assoc_comm f g h : nf_insert (nf_insert f g) h = nf_insert (nf_insert f h) g.
Proof. by destruct f as [[] [] [] []], g as [[] [] [] []], h as [[] [] [] []]. Qed.
Lemma nf_le_insert f g h : nf_le f g → nf_le f (nf_insert g h).
Proof. unfold nf_le. intros E. by rewrite nf_insert_assoc_comm, E. Qed.
Lemma nf_le_insert_r f g : nf_le g (nf_insert f g).
Proof. apply nf_insert_idem. Qed.
Lemma nf_le_default f : nf_le nf_default f.
Proof. apply nf_insert_default. Qed.

Lemma nf_of_set_flags s o f o' : nf_of (mb_set_flags s o f) o' = if decide (o = o') then f else nf_of s o'.
Proof.
  unfold nf_of, mb_set_flags. cbn [mb_flags]. case_decide as E; [subst|].
  - by rewrite lookup_insert_eq.
  - by rewrite lookup_insert_ne.
Qed.

(** ** The loop over the parents *)

Context (D : gset (list byte)) `{!CommitGraph read_obj_commit D}.

Abbreviation node_ok := (node_ok read_obj_commit D).
Abbreviation reaches := (reaches read_obj_commit).
Abbreviation parent_of := (parent_of read_obj_commit).
Abbreviation oid_time := (oid_time read_obj_commit).

(** [s'] is [s] after [f] was passed on to [ps]: the commits whose flags changed are in the
    queue. *)
Record pushed (ps : list Oid) (f : NodeFlags) (s s' : MergeBaseCtxt) : Prop := {
  pu_flags : ∀ o, nf_of s' o = if decide (o ∈ ps) then nf_insert (nf_of s o) f else nf_of s o;
  pu_queue : ∃ os, os `sublist_of` ps ∧ node_oid <$> mb_pqueue s' ≡ₚ os ++ (node_oid <$> mb_pqueue s);
  pu_changed : ∀ o, nf_of s' o ≠ nf_of s o → o ∈ node_oid <$> mb_pqueue s';
  pu_nodes : Forall node_ok (mb_pqueue s) → Forall node_ok (mb_pqueue s');
  pu_entries : (∀ o, o ∈ node_oid <$> mb_pqueue s → is_Some (mb_flags s !! o)) →
    ∀ o, o ∈ node_oid <$> mb_pqueue s' → is_Some (mb_flags s' !! o);
  pu_some : ∀ o, is_Some (mb_flags s !! o) → is_Some (mb_flags s' !! o);
  pu_candidates : mb_candidates s' = mb_candidates s;
  pu_indices : indices_distinct (mb_index s) (mb_pqueue s) → indices_distinct (mb_index s') (mb_pqueue s');
}.

Lemma pushed_nil f s : pushed [] f s s.
Proof.
  split; try done.
  exists []. split; [done|]. done.
Qed.

Lemma pushed_cons p ps f s c s' :
  p ∈ D → read_obj_commit p = Ok c →
  let s1 := if bool_decide (nf_of s p = f) then mb_set_flags s p (nf_of s p)
            else mb_push (mb_set_flags (mb_set_flags s p (nf_of s p)) p (nf_insert (nf_of s p) f)) c in
  pushed ps f s1 s' → pushed (p :: ps) f s s'.
Proof.
  intros Hp Hc s1. destruct (node_ok_read read_obj_commit D p c (mb_index s) Hp Hc) as [Hoid Hok].
  assert (∀ o, nf_of s1 o = if decide (p = o) then nf_insert (nf_of s o) f else nf_of s o) as Hf1.
  { intros o. unfold s1. case_bool_decide as E.
    - rewrite nf_of_set_flags. destruct (decide (p = o)) as [<-|]; [|done]. rewrite <- E.
      by destruct (nf_of s p) as [[] [] [] []].
    - change (nf_of (mb_push ?x c)) with (nf_of x). rewrite !nf_of_set_flags. by destruct (decide (p = o)) as [<-|]. }
  assert (∀ o, is_Some (mb_flags s !! o) ∨ o = p → is_Some (mb_flags s1 !! o)) as Hs1.
  { intros o Ho. unfold s1. case_bool_decide; cbn [mb_push mb_set_flags mb_flags];
      rewrite !lookup_insert_is_Some'; naive_solver. }
  intros [Hf Hq Hch Hn He Hs Hcand Hi]. split.
  - intros o. rewrite Hf, Hf1. destruct (decide (o ∈ p :: ps)) as [Hin|Hin].
    + apply elem_of_cons in Hin as [->|Hin].
      * rewrite (decide_True (P:=p = p)) by done. case_decide; [apply nf_insert_idem|done].
      * rewrite (decide_True (P:=o ∈ ps)) by done. case_decide; [apply nf_insert_idem|done].
    + apply not_elem_of_cons in Hin as [Hne Hin]. by rewrite !decide_False by congruence.
  - destruct Hq as (os & Hsub & Hperm). unfold s1 in Hperm. case_bool_decide.
    + exists os. split; [by constructor|done].
    + exists (p :: os). split; [by constructor|]. rewrite Hperm. cbn [mb_push mb_pqueue fmap list_fmap].
      change (node_oid (mk_CommitNode c _)) with (node_oid (mk_CommitNode c (mb_index s))). rewrite Hoid.
      by rewrite <- Permutation_middle.
  - intros o Ho. destruct (decide (nf_of s' o = nf_of s1 o)) as [E|E]; [|by apply Hch].
    rewrite E, Hf1 in Ho. case_decide; [subst o|done].
    destruct Hq as (os & _ & Hperm). rewrite Hperm. apply elem_of_app. right. unfold s1.
    rewrite bool_decide_false.
    2: { intros Ef. apply Ho. rewrite Ef. by destruct f as [[] [] [] []]. }
    cbn [mb_push mb_pqueue fmap list_fmap].
    change (node_oid (mk_CommitNode c _)) with (node_oid (mk_CommitNode c (mb_index s))).
    rewrite Hoid. apply list_elem_of_here.
  - intros Hns. apply Hn. unfold s1. case_bool_decide; [done|]. cbn [mb_push mb_pqueue]. by constructor.
  - intros Hes. apply He. intros o. unfold s1 at 1. case_bool_decide; cbn [mb_push mb_set_flags mb_pqueue fmap list_fmap].
    + intros Ho. apply Hs1. left. by apply Hes.
    + intros [->|Ho]%elem_of_cons; apply Hs1; [by right|left; by apply Hes].
  - intros o Ho. apply Hs, Hs1. by left.
  - rewrite Hcand. unfold s1. by case_bool_decide.
  - intros Hix. apply Hi. unfold s1. case_bool_decide; [done|]. by apply indices_distinct_push.
Qed.

Lemma push_parents_spec ps f s :
  (∀ p, p ∈ ps → p ∈ D) → ∃ s', push_parents ps f s = (Ok tt, s') ∧ pushed ps f s s'.
Proof.
  revert s. induction ps as [|p ps IH]; intros s Hps; cbn [push_parents].
  { exists s. split; [done|apply pushed_nil]. }
  assert (p ∈ D) as Hp by apply Hps, list_elem_of_here.
  destruct (graph_read read_obj_commit p Hp) as (c & Hc & _).
  assert (∀ q, q ∈ ps → q ∈ D) as Hps' by (intros q Hq; apply Hps, elem_of_cons; by right).
  pose proof (λ s', pushed_cons p ps f s c s' Hp Hc) as Hcons. cbn zeta in Hcons.
  rewrite (st_bind_ok _ _ s s s) by done. cbn zeta.
  rewrite (st_bind_ok _ _ s (mb_set_flags s p (nf_of s p)) tt) by done.
  case_bool_decide as E.
  - destruct (IH (mb_set_flags s p (nf_of s p)) Hps') as (s' & Hs' & Hpu). exists s'.
    split; [done|]. by apply Hcons.
  - set (s1 := mb_set_flags s p (nf_of s p)) in *. rewrite (st_bind_ok _ _ s1 s1 c) by (unfold st_lift; by rewrite Hc).
    set (s2 := mb_push (mb_set_flags s1 p (nf_insert (nf_of s p) f)) c) in *.
    rewrite (st_bind_ok _ _ s1 s2 tt) by done.
    destruct (IH s2 Hps') as (s' & Hs' & Hpu). exists s'. split; [done|]. by apply Hcons.
Qed.

(** ** The invariant of the search *)

Context (a b : Oid).

Definition common (o : Oid) : Prop := reaches a o ∧ reaches b o.

(** An ancestor of another common ancestor. *)
Definition redundant (o : Oid) : Prop := ∃ c y, common c ∧ reaches c y ∧ parent_of y o.

(** The flags of [o] have been passed on, and it has been considered as a candidate. *)
Definition settled (s : MergeBaseCtxt) (o : Oid) : Prop :=
  (∀ p, parent_of o p → nf_le (parent_flags (nf_of s o)) (nf_of s p))
  ∧ (nf_both (nf_of s o) = true → RESULT (nf_of s o) = true ∨ STALE (nf_of s o) = true).

Record mb_inv (s : MergeBaseCtxt) : Prop := {
  mi_nodes : Forall node_ok (mb_pqueue s);
  mi_entries : ∀ o, o ∈ node_oid <$> mb_pqueue s → is_Some (mb_flags s !! o);
  mi_indices : indices_distinct (mb_index s) (mb_pqueue s);
  mi_parent1 : ∀ o, PARENT1 (nf_of s o) = true → reaches a o;
  mi_parent2 : ∀ o, PARENT2 (nf_of s o) = true → reaches b o;
  mi_stale : ∀ o, STALE (nf_of s o) = true → redundant o;
  mi_a : PARENT1 (nf_of s a) = true;
  mi_b : PARENT2 (nf_of s b) = true;
  mi_settled : ∀ o, o ∈ node_oid <$> mb_pqueue s ∨ settled s o;
  mi_result : ∀ o, RESULT (nf_of s o) = true ↔ o ∈ commit_oid <$> mb_candidates s;
  mi_both : ∀ o, RESULT (nf_of s o) = true → nf_both (nf_of s o) = true;
  mi_nodup : NoDup (commit_oid <$> mb_candidates s);
  mi_candidates : Forall (λ c, commit_oid c ∈ D ∧ read_obj_commit (commit_oid c) = Ok c) (mb_candidates s);
}.

Lemma redundant_step o p : redundant o → parent_of o p → redundant p.
Proof. intros (c & y & Hc & Hy & Ho) Hp. exists c, o. split_and!; [done| |done]. by eapply rtc_r. Qed.

Lemma redundant_reaches o p : redundant o → reaches o p → redundant p.
Proof. intros Ho Hp. induction Hp as [|o q p Hq _ IH]; [done|]. apply IH. by eapply redundant_step. Qed.

Lemma parent_flags_result f : parent_flags (nf_insert f f_result) = parent_flags f.
Proof. by destruct f as [[] [] [] []]. Qed.

Lemma nf_of_add_candidate node f s o :
  nf_of (add_candidate node f s) o
  = if decide (node_oid node = o)
    then if nf_both f && negb (RESULT f || STALE f) then nf_insert f f_result else nf_of s o
    else nf_of s o.
Proof.
  unfold add_candidate. destruct (nf_both f && negb (RESULT f || STALE f)).
  - change (nf_of (mk_MergeBaseCtxt (?c ++ _) (mb_pqueue ?s) (mb_flags ?s) (mb_index ?s)) o) with (nf_of s o).
    by rewrite nf_of_set_flags.
  - by case_decide.
Qed.

(** The sound part of the flags, after a step. *)
Lemma mb_step_sound s node f s1 s2 :
  mb_inv s → node_ok node → nf_of s (node_oid node) = f →
  (∀ o, PARENT1 (nf_of s1 o) = PARENT1 (nf_of s o) ∧ PARENT2 (nf_of s1 o) = PARENT2 (nf_of s o)
        ∧ STALE (nf_of s1 o) = STALE (nf_of s o)) →
  pushed (commit_parents (node_commit node)) (parent_flags f) s1 s2 →
  ∀ o, (PARENT1 (nf_of s2 o) = true → reaches a o) ∧ (PARENT2 (nf_of s2 o) = true → reaches b o)
       ∧ (STALE (nf_of s2 o) = true → redundant o).
Proof.
  intros Hi Hnode Hf Hs1 Hpu o. destruct (Hs1 o) as (E1 & E2 & E3). rewrite (pu_flags _ _ _ _ Hpu o).
  destruct (decide (o ∈ commit_parents (node_commit node))) as [Hp|Hp].
  2: { rewrite E1, E2, E3. split_and!; [by eapply mi_parent1|by eapply mi_parent2|by eapply mi_stale]. }
  apply (node_ok_parent read_obj_commit D node o Hnode) in Hp.
  cbn [nf_insert PARENT1 PARENT2 STALE]. rewrite E1, E2, E3, !orb_true_iff.
  assert (PARENT1 (parent_flags f) = PARENT1 f) as -> by by destruct f as [[] [] [] []].
  assert (PARENT2 (parent_flags f) = PARENT2 f) as -> by by destruct f as [[] [] [] []].
  assert (STALE (parent_flags f) = STALE f || nf_both f) as -> by by destruct f as [[] [] [] []].
  subst f. split_and!; (intros [?|Hx]; [by (eapply mi_parent1 || eapply mi_parent2 || eapply mi_stale)|]).
  - eapply rtc_r; [by eapply mi_parent1|done].
  - eapply rtc_r; [by eapply mi_parent2|done].
  - apply orb_true_iff in Hx as [Hx|[H1 H2]%andb_true_iff].
    + eapply redundant_step; [by eapply mi_stale|done].
    + exists (node_oid node), (node_oid node). split_and!; [|apply rtc_refl|done].
      split; [by eapply mi_parent1|by eapply mi_parent2].
Qed.

(** The worklist part: a commit is in the queue or settled. *)
Lemma mb_step_settled s node q f s1 s2 :
  mb_inv s → node_ok node → mb_pqueue s ≡ₚ node :: q → mb_pqueue s1 = q → nf_of s (node_oid node) = f →
  s1 = add_candidate node f (mb_set_pqueue s q) →
  pushed (commit_parents (node_commit node)) (parent_flags f) s1 s2 →
  ∀ o, o ∈ node_oid <$> mb_pqueue s2 ∨ settled s2 o.
Proof.
  intros Hi Hnode Hperm Hq Hf Hs1 Hpu o. set (x := node_oid node) in *.
  assert (∀ o, nf_of s1 o = if decide (x = o)
            then if nf_both f && negb (RESULT f || STALE f) then nf_insert f f_result else nf_of s o
            else nf_of s o) as Hf1
    by (intros o'; rewrite Hs1; exact (nf_of_add_candidate node f (mb_set_pqueue s q) o')).
  assert (∀ o, o ∈ node_oid <$> q → o ∈ node_oid <$> mb_pqueue s2) as Hq2.
  { intros o' Ho'. destruct (pu_queue _ _ _ _ Hpu) as (os & _ & ->). apply elem_of_app. right. by rewrite Hq. }
  destruct (decide (nf_of s2 o = nf_of s1 o)) as [E2|E2]; [|left; by eapply pu_changed].
  destruct (decide (o = x)) as [->|Hox].
  - right. split; rewrite E2.
    + intros p Hp. assert (parent_flags (nf_of s1 x) = parent_flags f) as ->.
      { rewrite Hf1, decide_True by done. destruct (_ && _); [apply parent_flags_result|by rewrite Hf]. }
      rewrite (pu_flags _ _ _ _ Hpu p), decide_True by by apply (node_ok_parent read_obj_commit D node p Hnode).
      apply nf_le_insert_r.
    + rewrite Hf1, decide_True, Hf by done. destruct f as [[] [] [] []]; cbn; naive_solver.
  - assert (nf_of s1 o = nf_of s o) as E1 by by rewrite Hf1, decide_False.
    destruct (mi_settled _ Hi o) as [Ho|[Hp Hb]].
    + left. apply Hq2. rewrite Hperm in Ho. cbn [fmap list_fmap] in Ho. by apply elem_of_cons in Ho as [?|?].
    + right. split; rewrite E2, E1; [|done]. intros p Hop. rewrite (pu_flags _ _ _ _ Hpu p).
      assert (nf_le (parent_flags (nf_of s o)) (nf_of s1 p)) as Hle.
      { rewrite Hf1. destruct (decide (x = p)) as [<-|]; [|by apply Hp].
        destruct (_ && _); [apply nf_le_insert; rewrite <- Hf|]; by apply Hp. }
      case_decide; [by apply nf_le_insert|done].
Qed.

(** What [add_candidate] does to a popped commit. *)
Lemma add_candidate_spec s node q f :
  nf_of s (node_oid node) = f →
  let s1 := add_candidate node f (mb_set_pqueue s q) in
  let new := nf_both f && negb (RESULT f || STALE f) in
  mb_pqueue s1 = q ∧ mb_index s1 = mb_index s
  ∧ mb_candidates s1 = mb_candidates s ++ (if new then [node_commit node] else [])
  ∧ (∀ o, is_Some (mb_flags s !! o) → is_Some (mb_flags s1 !! o))
  ∧ (∀ o, PARENT1 (nf_of s1 o) = PARENT1 (nf_of s o) ∧ PARENT2 (nf_of s1 o) = PARENT2 (nf_of s o)
          ∧ STALE (nf_of s1 o) = STALE (nf_of s o)
          ∧ (RESULT (nf_of s1 o) = true ↔ RESULT (nf_of s o) = true ∨ node_oid node = o ∧ new = true)).
Proof.
  intros Hf s1 new. unfold s1, add_candidate. fold new. destruct new eqn:Hnew; unfold new in Hnew.
  - split_and!; [done..| |].
    + intros o Ho. apply lookup_insert_is_Some'. by right.
    + intros o. pose proof (nf_of_add_candidate node f (mb_set_pqueue s q) o) as E.
      unfold add_candidate in E. rewrite Hnew in E. rewrite E. change (nf_of (mb_set_pqueue s q) o) with (nf_of s o).
      destruct (decide (node_oid node = o)) as [<-|]; [|naive_solver]. rewrite Hf.
      split_and!; [by destruct f as [[] [] [] []]..|]. cbn [nf_insert RESULT f_result]. rewrite orb_true_r. naive_solver.
  - split_and!; [done|done|by rewrite app_nil_r|done|]. intros o. change (nf_of (mb_set_pqueue s q) o) with (nf_of s o).
    naive_solver.
Qed.

(** One iteration of the loop. *)
Lemma mb_step s node q :
  mb_inv s → heap_pop (mb_pqueue s) = Some (node, q) →
  ∃ f s2, mb_flags s !! node_oid node = Some f
    ∧ push_parents (commit_parents (node_commit node)) (parent_flags f)
        (add_candidate node f (mb_set_pqueue s q)) = (Ok tt, s2)
    ∧ mb_inv s2
    ∧ (∃ os, os `sublist_of` commit_parents (node_commit node)
         ∧ node_oid <$> mb_pqueue s2 ≡ₚ os ++ (node_oid <$> q))
    ∧ (∀ c, c ∈ mb_candidates s2 → c ∈ mb_candidates s ∨ c = node_commit node).
Proof.
  intros Hi Hpop. pose proof (heap_pop_spec (mb_pqueue s)) as Hs. rewrite Hpop in Hs. destruct Hs as [Hperm _].
  pose proof (mi_nodes _ Hi) as Hn. rewrite Hperm in Hn. apply Forall_cons in Hn as [Hnode Hqok].
  destruct (mi_entries _ Hi (node_oid node)) as [f Hf]; [rewrite Hperm; apply list_elem_of_here|].
  assert (nf_of s (node_oid node) = f) as Hfx by (unfold nf_of; by rewrite Hf).
  destruct (add_candidate_spec s node q f Hfx) as (Hq1 & Hx1 & Hc1 & He1 & Hf1).
  destruct (push_parents_spec (commit_parents (node_commit node)) (parent_flags f)
    (add_candidate node f (mb_set_pqueue s q))) as (s2 & Hs2 & Hpu).
  { intros p (c & Hc & Hp)%(node_ok_parent read_obj_commit D node p Hnode).
    by eapply (graph_closed read_obj_commit); [apply Hnode|..]. }
  exists f, s2. split; [done|]. split; [done|].
  pose proof (mb_step_settled s node q f _ s2 Hi Hnode Hperm Hq1 Hfx eq_refl Hpu) as Hsettled.
  set (s1 := add_candidate node f (mb_set_pqueue s q)) in *. clearbody s1.
  assert (∀ o, PARENT1 (nf_of s1 o) = PARENT1 (nf_of s o) ∧ PARENT2 (nf_of s1 o) = PARENT2 (nf_of s o)
            ∧ STALE (nf_of s1 o) = STALE (nf_of s o)) as Hsame by (intros o; by destruct (Hf1 o) as (? & ? & ? & _)).
  pose proof (mb_step_sound s node f s1 s2 Hi Hnode Hfx Hsame Hpu) as Hsound.
  set (new := nf_both f && negb (RESULT f || STALE f)) in *.
  assert (∀ o, RESULT (nf_of s2 o) = true ↔ RESULT (nf_of s o) = true ∨ node_oid node = o ∧ new = true) as Hres.
  { intros o. destruct (Hf1 o) as (_ & _ & _ & <-). rewrite (pu_flags _ _ _ _ Hpu o). case_decide; [|done].
    cbn [nf_insert RESULT]. assert (RESULT (parent_flags f) = false) as -> by by destruct f as [[] [] [] []].
    by rewrite orb_false_r. }
  assert (∀ o, (PARENT1 (nf_of s o) = true → PARENT1 (nf_of s2 o) = true)
            ∧ (PARENT2 (nf_of s o) = true → PARENT2 (nf_of s2 o) = true)) as Hmono.
  { intros o. destruct (Hsame o) as (<- & <- & _). rewrite (pu_flags _ _ _ _ Hpu o).
    case_decide; [|done]. cbn [nf_insert PARENT1 PARENT2]. split; by intros ->. }
  assert (∀ o, nf_both (nf_of s o) = true → nf_both (nf_of s2 o) = true) as Hbm.
  { intros o [H1 H2]%andb_true_iff. apply andb_true_iff. split; by apply Hmono. }
  assert (new = true → nf_both f = true ∧ RESULT f = false) as Hnew.
  { unfold new. destruct (nf_both f), (RESULT f), (STALE f); naive_solver. }
  pose proof (pu_candidates _ _ _ _ Hpu) as Hc2. rewrite Hc1 in Hc2.
  split_and!.
  2: { destruct (pu_queue _ _ _ _ Hpu) as (os & ? & ?). exists os. by rewrite <- Hq1. }
  2: { intros c. rewrite Hc2, elem_of_app. intros [?|Hc]; [by left|right]. destruct new;
       [by apply list_elem_of_singleton in Hc|by apply not_elem_of_nil in Hc]. }
  split.
  - apply (pu_nodes _ _ _ _ Hpu). by rewrite Hq1.
  - apply (pu_entries _ _ _ _ Hpu). intros o Ho. apply He1, (mi_entries _ Hi). rewrite Hperm.
    rewrite Hq1 in Ho. cbn [fmap list_fmap]. apply elem_of_cons. by right.
  - apply (pu_indices _ _ _ _ Hpu). rewrite Hq1, Hx1. eapply indices_distinct_pop; [done|apply (mi_indices _ Hi)].
  - apply Hsound.
  - apply Hsound.
  - apply Hsound.
  - apply Hmono, (mi_a _ Hi).
  - apply Hmono, (mi_b _ Hi).
  - done.
  - intros o. rewrite Hres, Hc2, fmap_app, elem_of_app, (mi_result _ Hi). destruct new; cbn [fmap list_fmap].
    + rewrite list_elem_of_singleton. naive_solver.
    + rewrite elem_of_nil. naive_solver.
  - intros o [Ho|[<- Ho]]%Hres; apply Hbm; [by apply (mi_both _ Hi)|]. rewrite Hfx. by apply Hnew.
  - rewrite Hc2, fmap_app. apply NoDup_app. split_and!; [apply (mi_nodup _ Hi)| |by destruct new; repeat constructor; set_solver].
    intros o Ho. destruct new; [|by apply not_elem_of_nil]. intros ->%list_elem_of_singleton.
    apply (mi_result _ Hi) in Ho. change (commit_oid (node_commit node)) with (node_oid node) in Ho.
    rewrite Hfx in Ho. destruct Hnew; congruence.
  - rewrite Hc2. apply Forall_app. split; [apply (mi_candidates _ Hi)|].
    destruct new; [by apply Forall_singleton|by apply Forall_nil].
Qed.

(** ** Termination *)

(** No commit is its own ancestor: there is a rank that decreases towards the parents. *)
Context (rank : Oid → nat) (Hrank : ∀ o p, o ∈ D → parent_of o p → (rank p < rank o)%nat).

Definition parents_of (o : Oid) : list Oid :=
  match read_obj_commit o with Ok c => commit_parents c | _ => [] end.

(** The number of paths from [o] to an ancestor, up to a length. *)
Fixpoint paths (k : nat) (o : Oid) : nat :=
  match k with
  | O => 1
  | S k => S (sum_list_with (paths k) (parents_of o))
  end.

Definition weight (o : Oid) : nat := paths (rank o) o.

Lemma parent_of_parents o p : parent_of o p ↔ p ∈ parents_of o.
Proof.
  unfold parent_of, parents_of. destruct (read_obj_commit o) as [c| |]; [naive_solver|..];
    rewrite elem_of_nil; naive_solver.
Qed.

Lemma sum_list_with_ext (f g : Oid → nat) l : (∀ x, x ∈ l → f x = g x) → sum_list_with f l = sum_list_with g l.
Proof.
  induction l as [|x l IH]; intros H; [done|]. cbn. rewrite (H x) by apply list_elem_of_here.
  f_equal. apply IH. intros y Hy. apply H, elem_of_cons. by right.
Qed.

Lemma sum_list_with_sublist (f : Oid → nat) l k :
  l `sublist_of` k → (sum_list_with f l ≤ sum_list_with f k)%nat.
Proof. induction 1; cbn; lia. Qed.

Lemma paths_stable k o : o ∈ D → (rank o ≤ k)%nat → paths k o = weight o.
Proof.
  revert o. induction k as [k IH] using lt_wf_ind. intros o Ho Hk. unfold weight.
  assert (∀ j, (rank o ≤ j ≤ k)%nat → paths j o = S (sum_list_with weight (parents_of o))) as Hj.
  { intros [|j] Hj.
    - assert (parents_of o = []) as ->; [|done]. destruct (parents_of o) as [|p ps] eqn:E; [done|].
      assert (rank p < rank o)%nat; [|lia]. apply Hrank; [done|]. apply parent_of_parents. rewrite E.
      apply list_elem_of_here.
    - cbn [paths]. f_equal. apply sum_list_with_ext. intros p Hp%parent_of_parents.
      pose proof (Hrank o p Ho Hp). apply IH; [lia| |lia].
      destruct Hp as (c & ? & ?). by eapply (graph_closed read_obj_commit). }
  by rewrite !Hj by lia.
Qed.

Lemma weight_parents o : o ∈ D → weight o = S (sum_list_with weight (parents_of o)).
Proof.
  intros Ho. rewrite <- (paths_stable (S (rank o)) o Ho) by lia. cbn [paths]. f_equal.
  apply sum_list_with_ext. intros p Hp%parent_of_parents. pose proof (Hrank o p Ho Hp).
  apply paths_stable; [|lia]. destruct Hp as (c & ? & ?). by eapply (graph_closed read_obj_commit).
Qed.

Definition queue_weight (s : MergeBaseCtxt) : nat := sum_list_with weight (node_oid <$> mb_pqueue s).

Lemma sum_list_with_perm (f : Oid → nat) l k : l ≡ₚ k → sum_list_with f l = sum_list_with f k.
Proof. induction 1; cbn; lia. Qed.

Lemma sum_list_with_app (f : Oid → nat) l k : sum_list_with f (l ++ k) = (sum_list_with f l + sum_list_with f k)%nat.
Proof. induction l; cbn; lia. Qed.

Lemma any_not_stale_spec s q :
  (∀ o, o ∈ node_oid <$> q → is_Some (mb_flags s !! o)) →
  ∃ b, any_not_stale (mb_flags s) q = Ok b
    ∧ if b then q ≠ [] else ∀ n, n ∈ q → STALE (nf_of s (node_oid n)) = true.
Proof.
  induction q as [|n q IH]; cbn [any_not_stale]; intros Hs.
  { exists false. split; [done|by intros ? ?%not_elem_of_nil]. }
  destruct (Hs (node_oid n)) as [f Hf]; [apply list_elem_of_here|]. rewrite Hf.
  cbn [unwrap mbind outcome_bind]. destruct (negb (STALE f)) eqn:E; [by exists true|].
  destruct IH as (c & Hc & Hq).
  { intros o Ho. apply Hs. cbn [fmap list_fmap]. apply elem_of_cons. by right. }
  exists c. split; [done|]. destruct c; [done|]. intros m [->|Hm]%elem_of_cons; [|by apply Hq].
  unfold nf_of. rewrite Hf. by apply negb_false_iff.
Qed.

(** The loop keeps a property that its iterations keep, and stops when only stale commits are
    left. *)
Lemma build_loop_spec (I : MergeBaseCtxt → Prop) fuel s :
  (∀ s node q s2, mb_inv s → I s → heap_pop (mb_pqueue s) = Some (node, q) →
     (∃ os, os `sublist_of` commit_parents (node_commit node)
        ∧ node_oid <$> mb_pqueue s2 ≡ₚ os ++ (node_oid <$> q)) →
     (∀ c, c ∈ mb_candidates s2 → c ∈ mb_candidates s ∨ c = node_commit node) → mb_inv s2 → I s2) →
  mb_inv s → I s → (queue_weight s < fuel)%nat →
  ∃ s', build_loop fuel s = (Ok tt, s') ∧ mb_inv s' ∧ I s'
    ∧ ∀ n, n ∈ mb_pqueue s' → STALE (nf_of s' (node_oid n)) = true.
Proof.
  intros HI. revert s. induction fuel as [|fuel IH]; intros s Hi His Hw; [lia|]. cbn [build_loop].
  rewrite (st_bind_ok _ _ s s s) by done.
  destruct (any_not_stale_spec s (mb_pqueue s) (mi_entries _ Hi)) as (c & Hc & Hc').
  rewrite (st_bind_ok _ _ s s c) by (unfold st_lift, mb_still_interesting; by rewrite Hc).
  destruct c; [|by exists s].
  pose proof (heap_pop_spec (mb_pqueue s)) as Hs.
  destruct (heap_pop (mb_pqueue s)) as [[node q]|] eqn:Hpop; [|done]. destruct Hs as [Hperm _].
  destruct (mb_step s node q Hi Hpop) as (f & s2 & Hf & Hs2 & Hi2 & Hq2 & Hc2).
  rewrite (st_bind_ok _ _ s s f) by (unfold st_lift; by rewrite Hf).
  rewrite (st_bind_ok _ _ s (add_candidate node f (mb_set_pqueue s q)) tt) by done.
  rewrite (st_bind_ok _ _ _ s2 tt) by done. apply IH; [done|by apply (HI s node q s2)|].
  destruct Hq2 as (os & Hsub & Hq2). unfold queue_weight in *.
  rewrite (sum_list_with_perm _ _ _ Hq2), sum_list_with_app.
  rewrite (sum_list_with_perm _ _ (node_oid <$> node :: q)) in Hw by by rewrite Hperm.
  cbn [fmap list_fmap sum_list_with] in Hw.
  pose proof (mi_nodes _ Hi) as Hn. rewrite Hperm in Hn. apply Forall_cons in Hn as [[Hnd Hnr] _].
  rewrite (weight_parents (node_oid node) Hnd) in Hw. unfold parents_of in Hw. rewrite Hnr in Hw.
  pose proof (sum_list_with_sublist weight _ _ Hsub). lia.
Qed.

(** ** The result *)

(** The flags follow the paths through commits that are settled. *)
Lemma flags_follow s (good : Oid → Prop) (sel : NodeFlags → bool) r y :
  (∀ f g, nf_le f g → sel f = true → sel g = true) → (∀ f, sel f = true → sel (parent_flags f) = true) →
  sel (nf_of s r) = true →
  (∀ z y, reaches r z → parent_of z y → good y → good z ∧ settled s z) →
  reaches r y → good y → sel (nf_of s y) = true.
Proof.
  intros Hle Hpf Hr Hgood Hy. revert y Hy. apply (rtc_ind_r (λ y, good y → sel (nf_of s y) = true)); [done|].
  intros z y Hz Hzy IH Hg. destruct (Hgood z y Hz Hzy Hg) as [Hgz [Hs _]].
  by apply (Hle _ _ (Hs y Hzy)), Hpf, IH.
Qed.

(** The selectors that are used. *)
Definition monotone (sel : NodeFlags → bool) : Prop :=
  (∀ f g, nf_le f g → sel f = true → sel g = true) ∧ (∀ f, sel f = true → sel (parent_flags f) = true).

Lemma monotone_parent1 : monotone PARENT1.
Proof.
  split; [|by intros [[] [] [] []]]. intros [p1 ? ? ?] [q1 ? ? ?] [= E _ _ _]. cbn in *. intros ->.
  by rewrite orb_true_r in E.
Qed.
Lemma monotone_parent2 : monotone PARENT2.
Proof.
  split; [|by intros [[] [] [] []]]. intros [? p1 ? ?] [? q1 ? ?] [= _ E _ _]. cbn in *. intros ->.
  by rewrite orb_true_r in E.
Qed.
Lemma monotone_stale : monotone (λ f, STALE (parent_flags f)).
Proof. split; [|by intros [[] [] [] []]]. by intros [[] [] [] []] [[] [] [] []]. Qed.

(** Every merge base is found, whatever the times. *)
Lemma search_complete s o :
  mb_inv s → (∀ n, n ∈ mb_pqueue s → STALE (nf_of s (node_oid n)) = true) →
  common o → ¬ redundant o → o ∈ commit_oid <$> mb_candidates s.
Proof.
  intros Hi Hst [Ha Hb] Hnr.
  assert (∀ z, reaches z o → settled s z) as Hz.
  { intros z Hzo. destruct (mi_settled _ Hi z) as [(n & -> & Hn)%list_elem_of_fmap|?]; [|done].
    destruct Hnr. eapply redundant_reaches; [|done]. by apply (mi_stale _ Hi), Hst. }
  assert (∀ sel r, monotone sel → sel (nf_of s r) = true → reaches r o → sel (nf_of s o) = true) as Hsel.
  { intros sel r [H1 H2] H3 H4. apply (flags_follow s (λ y, reaches y o) sel r); try done.
    intros z y _ Hzy Hy. assert (reaches z o) by by eapply rtc_l. split; [done|by apply Hz]. }
  pose proof (Hsel _ _ monotone_parent1 (mi_a _ Hi) Ha) as H1.
  pose proof (Hsel _ _ monotone_parent2 (mi_b _ Hi) Hb) as H2.
  apply (mi_result _ Hi). destruct (Hz o (rtc_refl _ _)) as [_ Hs].
  destruct Hs as [?|Hs]; [unfold nf_both; by rewrite H1, H2|done|]. destruct Hnr. by apply (mi_stale _ Hi).
Qed.

(** The candidates were popped before everything that is still in the queue. *)
Definition candidates_first (s : MergeBaseCtxt) : Prop :=
  ∀ c n, c ∈ mb_candidates s → n ∈ mb_pqueue s → time_le (oid_time (node_oid n)) (oid_time (commit_oid c)).

Lemma candidates_first_step `{!TimesIncrease read_obj_commit D} s node q s2 :
  mb_inv s → candidates_first s → heap_pop (mb_pqueue s) = Some (node, q) →
  (∃ os, os `sublist_of` commit_parents (node_commit node)
     ∧ node_oid <$> mb_pqueue s2 ≡ₚ os ++ (node_oid <$> q)) →
  (∀ c, c ∈ mb_candidates s2 → c ∈ mb_candidates s ∨ c = node_commit node) → mb_inv s2 → candidates_first s2.
Proof.
  intros Hi Hcf Hpop (os & Hsub & Hq2) Hc2 _ c n Hc Hn.
  pose proof (heap_pop_spec (mb_pqueue s)) as Hs. rewrite Hpop in Hs. destruct Hs as [Hperm Hmax].
  pose proof (mi_nodes _ Hi) as Hns. rewrite Hperm in Hns. apply Forall_cons in Hns as [Hnode Hqok].
  assert (time_le (oid_time (node_oid n)) (oid_time (node_oid node))) as Hle.
  { assert (node_oid n ∈ os ++ (node_oid <$> q)) as [Ho|(m & -> & Hm)%list_elem_of_fmap]%elem_of_app.
    - rewrite <- Hq2. by apply list_elem_of_fmap_2.
    - apply time_lt_le, (times_increase read_obj_commit (D:=D)); [apply Hnode|].
      apply (node_ok_parent read_obj_commit D node _ Hnode). by eapply elem_of_sublist.
    - rewrite Forall_forall in Hqok. rewrite (node_ok_time (Hqok m Hm)), (node_ok_time Hnode). by apply Hmax. }
  destruct (Hc2 c Hc) as [Hc'| ->]; [|done]. eapply time_le_trans; [done|]. apply Hcf; [done|].
  rewrite Hperm. apply list_elem_of_here.
Qed.

(** With increasing times the redundant candidates are known to be stale. *)
Lemma search_exact `{!TimesIncrease read_obj_commit D} s c :
  a ∈ D → b ∈ D → mb_inv s → candidates_first s → c ∈ mb_candidates s →
  redundant (commit_oid c) → STALE (nf_of s (commit_oid c)) = true.
Proof.
  intros HaD HbD Hi Hcf Hc (d & y & [Had Hbd] & Hdy & Hyx). set (x := commit_oid c) in *.
  set (good := λ z, time_le (oid_time x) (oid_time z)).
  assert (∀ z, z ∈ D → time_lt (oid_time x) (oid_time z) → settled s z) as Hsettled.
  { intros z HzD Hz. destruct (mi_settled _ Hi z) as [(n & -> & Hn)%list_elem_of_fmap|?]; [|done].
    apply time_lt_not_le in Hz. destruct Hz. by apply Hcf. }
  assert (∀ r z y, r ∈ D → reaches r z → parent_of z y → good y → good z ∧ settled s z) as Hgood.
  { intros r z y' Hr Hrz Hzy Hg. assert (z ∈ D) as HzD by by eapply (reaches_closed read_obj_commit D).
    assert (time_lt (oid_time x) (oid_time z)) as Hlt.
    { eapply time_le_lt_trans; [done|]. by apply (times_increase read_obj_commit (D:=D)). }
    split; [by apply time_lt_le|by apply Hsettled]. }
  assert (d ∈ D) as HdD by by eapply (reaches_closed read_obj_commit D).
  assert (good x) as Hgx by apply time_le_refl.
  destruct (Hgood d y x HdD Hdy Hyx Hgx) as [Hgy Hys].
  assert (good d) as Hgd.
  { unfold good in *. eapply time_le_trans; [exact Hgy|]. by eapply (reaches_time_le read_obj_commit D). }
  assert (∀ sel r z, monotone sel → sel (nf_of s r) = true → r ∈ D → reaches r z → good z → sel (nf_of s z) = true) as Hsel.
  { intros sel r z [H1 H2] H3 H4 H5 H6. apply (flags_follow s good sel r z); try done. intros. by eapply Hgood. }
  pose proof (Hsel _ _ d monotone_parent1 (mi_a _ Hi) HaD Had Hgd) as H1.
  pose proof (Hsel _ _ d monotone_parent2 (mi_b _ Hi) HbD Hbd Hgd) as H2.
  assert (STALE (parent_flags (nf_of s d)) = true) as H3.
  { unfold parent_flags, nf_both. rewrite H1, H2. cbn. by rewrite orb_true_r. }
  pose proof (Hsel (λ f, STALE (parent_flags f)) d y monotone_stale H3 HdD Hdy Hgy) as H4. cbn beta in H4.
  destruct Hys as [Hys _]. specialize (Hys x Hyx). unfold nf_le in Hys.
  destruct (nf_of s x) as [? ? ? sx]. injection Hys as _ _ _ E. cbn [STALE nf_insert]. rewrite H4 in E.
  by rewrite orb_true_r in E.
Qed.
End merge_base.

Section theorems.
Context (read_obj_commit : Oid → BitResult Commit) (D : gset (list byte)) `{!CommitGraph read_obj_commit D}.

Lemma retain_not_stale_spec s cs :
  (∀ c, c ∈ cs → is_Some (mb_flags s !! commit_oid c)) →
  retain_not_stale (mb_flags s) cs = Ok (filter (λ c, STALE (nf_of s (commit_oid c)) = false) cs).
Proof.
  induction cs as [|c cs IH]; intros Hs; cbn [retain_not_stale]; [done|].
  destruct (Hs c (list_elem_of_here _ _)) as [f Hf]. rewrite Hf. cbn [unwrap mbind outcome_bind].
  rewrite IH by (intros d Hd; apply Hs, elem_of_cons; by right). cbn [outcome_bind].
  assert (nf_of s (commit_oid c) = f) as E by (unfold nf_of; by rewrite Hf).
  rewrite filter_cons. destruct (STALE f) eqn:Es.
  - by rewrite decide_False by (rewrite E; congruence).
  - by rewrite decide_True by (rewrite E; congruence).
Qed.

Lemma mb_init_inv ca cb :
  commit_oid ca ∈ D → read_obj_commit (commit_oid ca) = Ok ca →
  commit_oid cb ∈ D → read_obj_commit (commit_oid cb) = Ok cb →
  mb_inv read_obj_commit D (commit_oid ca) (commit_oid cb) (push_init cb f_parent2 (push_init ca f_parent1 mb_empty)).
Proof.
  intros Ha Hra Hb Hrb. set (s := push_init cb f_parent2 (push_init ca f_parent1 mb_empty)).
  assert (∀ o, nf_of s o = nf_insert (if decide (commit_oid ca = o) then f_parent1 else nf_default)
                             (if decide (commit_oid cb = o) then f_parent2 else nf_default)) as Hf.
  { intros o. unfold s, push_init. change (nf_of (mb_push ?x _)) with (nf_of x). rewrite nf_of_set_flags.
    change (nf_of (mb_push ?x _)) with (nf_of x). rewrite !nf_of_set_flags.
    assert (∀ o, nf_of mb_empty o = nf_default) as E by (intros o'; unfold nf_of; cbn; by rewrite lookup_empty).
    rewrite !E. destruct (decide (commit_oid cb = o)) as [<-|]; by repeat case_decide. }
  split; try (by repeat constructor).
  - intros o [->|[->|?%not_elem_of_nil]%elem_of_cons]%elem_of_cons; [..|done];
      cbn [push_init mb_push mb_set_flags mb_flags s]; rewrite !lookup_insert_is_Some'; auto.
  - by apply indices_distinct_push, indices_distinct_push; split; constructor.
  - intros o. rewrite Hf. destruct (decide (commit_oid ca = o)) as [<-|]; [intros _; apply rtc_refl|by case_decide].
  - intros o. rewrite Hf. destruct (decide (commit_oid cb = o)) as [<-|]; [intros _; apply rtc_refl|by case_decide].
  - intros o. rewrite Hf. by repeat case_decide.
  - rewrite Hf. by rewrite decide_True by done.
  - rewrite Hf. rewrite (decide_True (P:=commit_oid cb = commit_oid cb)) by done. by case_decide.
  - intros o. destruct (decide (commit_oid ca = o)) as [<-|Hna]; [left; right; left|].
    destruct (decide (commit_oid cb = o)) as [<-|Hnb]; [left; left|].
    right. unfold settled. rewrite Hf, !decide_False by done. split; [|done]. intros p _. apply nf_le_default.
  - intros o. rewrite Hf. cbn [s push_init mb_push mb_set_flags mb_candidates mb_empty fmap list_fmap].
    rewrite elem_of_nil. by repeat case_decide.
  - intros o. rewrite Hf. by repeat case_decide.
Qed.

(** The merge bases of [a] and [b]: the common ancestors that are no ancestor of another one. *)
Definition merge_base_of (a b o : Oid) : Prop :=
  common read_obj_commit a b o ∧ ¬ redundant read_obj_commit a b o.

(** The result of a search, from the state it ends in. *)
Lemma find_merge_bases_spec (I : MergeBaseCtxt → Prop) rank ca cb fuel :
  (∀ o p, o ∈ D → parent_of read_obj_commit o p → (rank p < rank o)%nat) →
  commit_oid ca ∈ D → read_obj_commit (commit_oid ca) = Ok ca →
  commit_oid cb ∈ D → read_obj_commit (commit_oid cb) = Ok cb →
  (weight read_obj_commit rank (commit_oid ca) + weight read_obj_commit rank (commit_oid cb) < fuel)%nat →
  I (push_init cb f_parent2 (push_init ca f_parent1 mb_empty)) →
  (∀ s node q s2, mb_inv read_obj_commit D (commit_oid ca) (commit_oid cb) s → I s →
     heap_pop (mb_pqueue s) = Some (node, q) →
     (∃ os, os `sublist_of` commit_parents (node_commit node)
        ∧ node_oid <$> mb_pqueue s2 ≡ₚ os ++ (node_oid <$> q)) →
     (∀ c, c ∈ mb_candidates s2 → c ∈ mb_candidates s ∨ c = node_commit node) →
     mb_inv read_obj_commit D (commit_oid ca) (commit_oid cb) s2 → I s2) →
  ∃ s, find_merge_bases read_obj_commit fuel ca cb
       = Ok (filter (λ c, STALE (nf_of s (commit_oid c)) = false) (mb_candidates s))
    ∧ mb_inv read_obj_commit D (commit_oid ca) (commit_oid cb) s ∧ I s
    ∧ ∀ n, n ∈ mb_pqueue s → STALE (nf_of s (node_oid n)) = true.
Proof.
  intros Hrank Ha Hra Hb Hrb Hf HI0 HI. pose proof (mb_init_inv ca cb Ha Hra Hb Hrb) as Hi0.
  destruct (build_loop_spec read_obj_commit D (commit_oid ca) (commit_oid cb) rank Hrank I fuel _ HI Hi0 HI0)
    as (s & Hs & Hi & HIs & Hst).
  { unfold queue_weight. cbn [push_init mb_push mb_pqueue mb_set_flags mb_empty fmap list_fmap sum_list_with].
    change (node_oid (mk_CommitNode ?c _)) with (commit_oid c). lia. }
  exists s. split_and!; [|done..]. unfold find_merge_bases, merge_bases_all, build_candidates.
  rewrite (st_bind_ok _ _ mb_empty s tt).
  2: { rewrite (st_bind_ok _ _ mb_empty mb_empty mb_empty) by done. by erewrite st_bind_ok. }
  rewrite (st_bind_ok _ _ s s s) by done. unfold st_lift. cbn [fst]. apply retain_not_stale_spec.
  intros c Hc. apply (list_elem_of_fmap_2 commit_oid), (mi_result _ _ _ _ _ Hi) in Hc.
  unfold nf_of in Hc. destruct (mb_flags s !! commit_oid c); [eauto|done].
Qed.

(** What a search finds, whatever the times. *)
Lemma found_common a b s :
  mb_inv read_obj_commit D a b s →
  ∀ o, o ∈ commit_oid <$> filter (λ c, STALE (nf_of s (commit_oid c)) = false) (mb_candidates s) →
  common read_obj_commit a b o.
Proof.
  intros Hi o (c & -> & [_ Hc]%list_elem_of_filter)%list_elem_of_fmap.
  apply (list_elem_of_fmap_2 commit_oid), (mi_result _ _ _ _ _ Hi) in Hc.
  apply (mi_both _ _ _ _ _ Hi), andb_true_iff in Hc as [H1 H2].
  split; [by apply (mi_parent1 _ _ _ _ _ Hi)|by apply (mi_parent2 _ _ _ _ _ Hi)].
Qed.

Lemma found_complete a b s o :
  mb_inv read_obj_commit D a b s → (∀ n, n ∈ mb_pqueue s → STALE (nf_of s (node_oid n)) = true) →
  merge_base_of a b o →
  o ∈ commit_oid <$> filter (λ c, STALE (nf_of s (commit_oid c)) = false) (mb_candidates s).
Proof.
  intros Hi Hst [Hc Hn]. pose proof (search_complete read_obj_commit D a b s o Hi Hst Hc Hn) as Ho.
  apply list_elem_of_fmap in Ho as (c & -> & Hcc).
  apply list_elem_of_fmap_2, list_elem_of_filter. split; [|done]. apply not_true_iff_false. intros Hs.
  by apply Hn, (mi_stale _ _ _ _ _ Hi).
Qed.

Lemma found_commits a b s :
  mb_inv read_obj_commit D a b s →
  NoDup (commit_oid <$> filter (λ c, STALE (nf_of s (commit_oid c)) = false) (mb_candidates s))
  ∧ ∀ c, c ∈ filter (λ c, STALE (nf_of s (commit_oid c)) = false) (mb_candidates s) →
      read_obj_commit (commit_oid c) = Ok c.
Proof.
  intros Hi. split.
  - eapply sublist_NoDup; [apply (mi_nodup _ _ _ _ _ Hi)|]. apply fmap_sublist, sublist_filter.
  - intros c [_ Hc]%list_elem_of_filter. pose proof (mi_candidates _ _ _ _ _ Hi) as Hall.
    rewrite Forall_forall in Hall. by apply Hall.
Qed.

(** The number of older commits ranks the commits. *)
Definition time_rank (o : Oid) : nat :=
  size (filter (λ y, time_cmp (oid_time read_obj_commit y) (oid_time read_obj_commit o) = Lt) D).

Lemma time_rank_decreases `{!TimesIncrease read_obj_commit D} o p :
  o ∈ D → parent_of read_obj_commit o p → (time_rank p < time_rank o)%nat.
Proof.
  intros Ho Hp. pose proof (times_increase read_obj_commit (D:=D) o p Ho Hp) as Ht.
  assert (p ∈ D) as HpD by (destruct Hp as (c & ? & ?); by eapply (graph_closed read_obj_commit)).
  unfold time_rank. apply (subset_size (C:=gset (list byte))). split.
  - intros y [Hy HyD]%elem_of_filter. apply elem_of_filter. split; [|done]. by eapply time_lt_trans.
  - intros Hsub. apply (time_lt_irrefl (oid_time read_obj_commit p)).
    assert (p ∈ filter (λ y, time_cmp (oid_time read_obj_commit y) (oid_time read_obj_commit p) = Lt) D) as Hin
      by (apply Hsub, elem_of_filter; by split).
    by apply elem_of_filter in Hin as [? _].
Qed.

(** C2: For commits that are younger than their parents, [find_merge_bases] terminates and gives
    exactly the merge bases, each once: the common ancestors of the two commits that are not an
    ancestor of another common ancestor. *)
Theorem merge_bases_correct ca cb :
  TimesIncrease read_obj_commit D →
  commit_oid ca ∈ D → read_obj_commit (commit_oid ca) = Ok ca →
  commit_oid cb ∈ D → read_obj_commit (commit_oid cb) = Ok cb →
  ∃ fuel0, ∀ fuel, (fuel0 ≤ fuel)%nat →
  ∃ cs, find_merge_bases read_obj_commit fuel ca cb = Ok cs
    ∧ NoDup (commit_oid <$> cs) ∧ (∀ c, c ∈ cs → read_obj_commit (commit_oid c) = Ok c)
    ∧ ∀ o, o ∈ commit_oid <$> cs ↔ merge_base_of (commit_oid ca) (commit_oid cb) o.
Proof.
  intros HT Ha Hra Hb Hrb. eexists (S _). intros fuel Hf.
  destruct (find_merge_bases_spec (candidates_first read_obj_commit) time_rank ca cb fuel)
    as (s & Hs & Hi & Hcf & Hst); try done.
  - intros o p. apply time_rank_decreases.
  - by intros c n ?%not_elem_of_nil.
  - intros s node q s2. by apply candidates_first_step.
  - eexists. split; [exact Hs|]. destruct (found_commits _ _ s Hi) as [Hnd Hr]. split_and!; [done|done|].
    intros o. split; [|by apply found_complete]. intros Ho. split; [by eapply found_common|]. intros Hred.
    apply list_elem_of_fmap in Ho as (c & -> & [Hc Hcc]%list_elem_of_filter).
    apply not_true_iff_false in Hc. destruct Hc. by apply (search_exact read_obj_commit D (commit_oid ca) (commit_oid cb)).
Qed.

(** C34: Whatever the times of the commits, as long as no commit is its own ancestor,
    [find_merge_bases] terminates, gives only common ancestors, each once, and misses no
    merge base. *)
Theorem merge_bases_complete rank ca cb :
  (∀ o p, o ∈ D → parent_of read_obj_commit o p → (rank p < rank o)%nat) →
  commit_oid ca ∈ D → read_obj_commit (commit_oid ca) = Ok ca →
  commit_oid cb ∈ D → read_obj_commit (commit_oid cb) = Ok cb →
  ∃ fuel0, ∀ fuel, (fuel0 ≤ fuel)%nat →
  ∃ cs, find_merge_bases read_obj_commit fuel ca cb = Ok cs
    ∧ NoDup (commit_oid <$> cs)
    ∧ (∀ o, o ∈ commit_oid <$> cs → common read_obj_commit (commit_oid ca) (commit_oid cb) o)
    ∧ ∀ o, merge_base_of (commit_oid ca) (commit_oid cb) o → o ∈ commit_oid <$> cs.
Proof.
  intros Hrank Ha Hra Hb Hrb. eexists (S _). intros fuel Hf.
  destruct (find_merge_bases_spec (λ _, True) rank ca cb fuel) as (s & Hs & Hi & _ & Hst); try done.
  eexists. split; [exact Hs|]. destruct (found_commits _ _ s Hi) as [Hnd _]. split_and!; [done| |].
  - by apply found_common.
  - intros o. by apply found_complete.
Qed.
End theorems.

(** ** Witnesses *)

(** A criss-cross: [4] and [5] both merge [2] and [3]. *)
Definition crisscross : list Commit :=
  [commit_at x01 1 []; commit_at x02 2 [x01]; commit_at x03 3 [x01];
   commit_at x04 4 [x02; x03]; commit_at x05 5 [x02; x03]].

#[local] Instance crisscross_graph : CommitGraph (lookup_commit crisscross) (commits_dom crisscross).
Proof. apply lookup_commit_graph. vm_decide. Qed.

Example crisscross_bases :
  find_merge_bases (lookup_commit crisscross) 20 (commit_at x04 4 [x02; x03]) (commit_at x05 5 [x02; x03])
  = Ok [commit_at x03 3 [x01]; commit_at x02 2 [x01]].
Proof. by vm_compute. Qed.

Lemma merge_bases_correct_witness :
  ∃ fuel cs,
    find_merge_bases (lookup_commit crisscross) fuel (commit_at x04 4 [x02; x03])
      (commit_at x05 5 [x02; x03]) = Ok cs
    ∧ ∀ o, o ∈ commit_oid <$> cs ↔
        merge_base_of (lookup_commit crisscross) (replicate 20 x04) (replicate 20 x05) o.
Proof.
  destruct (merge_bases_correct (lookup_commit crisscross) (commits_dom crisscross)
    (commit_at x04 4 [x02; x03]) (commit_at x05 5 [x02; x03])) as [fuel Hf].
  - apply lookup_commit_times. unfold time_lt. vm_decide.
  - vm_decide.
  - by vm_compute.
  - vm_decide.
  - by vm_compute.
  - destruct (Hf fuel (Nat.le_refl _)) as (cs & Hc & _ & _ & Ho). by exists fuel, cs.
Defined.

(** Commits of the same time: [6] and [7] have [1] as a parent and reach [3] through [4] and
    [5], and [1] is an ancestor of [3] through [2]. *)
Definition skewed : list Commit :=
  [commit_at x01 0 []; commit_at x02 0 [x01]; commit_at x03 0 [x02];
   commit_at x04 0 [x03]; commit_at x05 0 [x03];
   commit_at x06 0 [x01; x04]; commit_at x07 0 [x01; x05]].

#[local] Instance skewed_graph : CommitGraph (lookup_commit skewed) (commits_dom skewed).
Proof. apply lookup_commit_graph. vm_decide. Qed.

Definition first_byte (o : Oid) : nat := match o with b :: _ => Byte.to_nat b | [] => 0%nat end.

Lemma skewed_ranked o p :
  o ∈ commits_dom skewed → parent_of (lookup_commit skewed) o p → (first_byte p < first_byte o)%nat.
Proof.
  intros _ (c & [Hc <-]%lookup_commit_Ok & Hp).
  assert (Forall (λ c, Forall (λ p, first_byte p < first_byte (commit_oid c))%nat (commit_parents c)) skewed) as Hall
    by vm_decide.
  rewrite Forall_forall in Hall. specialize (Hall c Hc). rewrite Forall_forall in Hall. by apply Hall.
Qed.

Lemma merge_bases_complete_witness :
  ∃ fuel cs,
    find_merge_bases (lookup_commit skewed) fuel (commit_at x06 0 [x01; x04])
      (commit_at x07 0 [x01; x05]) = Ok cs
    ∧ ∀ o, merge_base_of (lookup_commit skewed) (replicate 20 x06) (replicate 20 x07) o → o ∈ commit_oid <$> cs.
Proof.
  destruct (merge_bases_complete (lookup_commit skewed) (commits_dom skewed) first_byte
    (commit_at x06 0 [x01; x04]) (commit_at x07 0 [x01; x05])) as [fuel Hf].
  - apply skewed_ranked.
  - vm_decide.
  - by vm_compute.
  - vm_decide.
  - by vm_compute.
  - destruct (Hf fuel (Nat.le_refl _)) as (cs & Hc & _ & _ & Ho). by exists fuel, cs.
Defined.

(** The path from [o] through [l]. *)
Fixpoint path_to (o : byte) (l : list byte) (e : byte) : Prop :=
  match l with
  | [] => o = e
  | p :: l => replicate 20 p ∈ parents_of (lookup_commit skewed) (replicate 20 o) ∧ path_to p l e
  end.

Lemma skewed_reaches l o e : path_to o l e → reaches (lookup_commit skewed) (replicate 20 o) (replicate 20 e).
Proof.
  revert o. induction l as [|p l IH]; intros o; cbn [path_to]; [intros ->; apply rtc_refl|].
  intros [Hp Hl]. eapply rtc_l; [by apply parent_of_parents|by apply IH].
Qed.

(** Where the times do not increase, the search can stop before it has ruled out every candidate:
    here it gives [1] besides [3], although [1] is an ancestor of the common ancestor [3],
    and [find_merge_base] gives [1]. *)
Lemma merge_bases_same_times_wrong :
  find_merge_bases (lookup_commit skewed) 20 (commit_at x06 0 [x01; x04]) (commit_at x07 0 [x01; x05])
  = Ok [commit_at x01 0 []; commit_at x03 0 [x02]]
  ∧ find_merge_base (lookup_commit skewed) 20 (commit_at x06 0 [x01; x04]) (commit_at x07 0 [x01; x05])
    = Ok (Some (commit_at x01 0 []))
  ∧ redundant (lookup_commit skewed) (replicate 20 x06) (replicate 20 x07) (replicate 20 x01).
Proof.
  split_and!; [by vm_compute|by vm_compute|]. exists (replicate 20 x03), (replicate 20 x02). split_and!.
  - split; [apply (skewed_reaches [x04; x03])|apply (skewed_reaches [x05; x03])]; (cbn [path_to]; split_and!; [vm_decide..|done]).
  - apply (skewed_reaches [x02]). split; [vm_decide|done].
  - apply parent_of_parents. vm_decide.
Qed.
