(* ===== verification/TreeIter.v ===== *)
(** * TreeIter

    [libbit/src/iter/tree_iter.rs] and [TreeEntryIter] of [libbit/src/iter.rs]: iterators over
    trees that can step over whole subtrees, as a class with laws that the differs and the walks
    rely on, and the iterator over a tree object. *)

From Stdlib Require Import ZArith Lia Sorted.
From Stdlib Require Import Strings.Byte.
From stdpp Require Import base tactics option list countable strings sorting.
From S2P Require Import Prelude RustStd Data State Hash Path BTree Obj Tree IndexEntry TreeCache.

(** ** The trait [BitTreeIterator] *)

(** The constructors [Tree], [Index] and [Worktree] of [IterKind]. *)
Inductive IterKind := KTree | KIndex | KWorktree.

#[export] Instance IterKind_eq_dec : EqDecision IterKind.
Proof. solve_decision. Defined.

Class BitTreeIterator (S : Type) := {
  it_kind : S → IterKind;
  it_next : st S (option BitIndexEntry);
  it_over : st S (option BitIndexEntry);
  it_peek : st S (option BitIndexEntry);
}.

(** [entry] lies in the subtree at [dir] (or is the tree itself). *)
Definition within (dir : BitPath) (entry : BitIndexEntry) : bool :=
  path_starts_with (ie_path entry) dir.

Section operations.
Context {S} `{BitTreeIterator S}.

(** [peek()?.map(|next| next.path().starts_with(path)).unwrap_or(false)]. *)
Definition next_within (path : BitPath) : st S bool :=
  next ← it_peek;
  mret (match next with Some next => within path next | None => false end).

(** The loop of [collect_over_tree_filtered]: [container] is what it has gathered. *)
Fixpoint collect_within (fuel : nat) (path : BitPath) (predicate : BitIndexEntry → bool)
    (container : list BitIndexEntry) : st S (list BitIndexEntry) :=
  match fuel with
  | O => st_lift Panic
  | Datatypes.S fuel =>
      b ← next_within path;
      if b : bool then
        next ← it_next;
        entry ← st_lift (unwrap next);
        collect_within fuel path predicate
          (if predicate entry then container ++ [entry] else container)
      else mret container
  end.

Definition collect_over_tree_filtered (fuel : nat) (predicate : BitIndexEntry → bool)
    (container : list BitIndexEntry) : st S (BitIndexEntry * list BitIndexEntry) :=
  next ← it_next;
  tree_entry ← st_lift (unwrap next);
  container ← collect_within fuel (ie_path tree_entry) predicate container;
  mret (tree_entry, container).

Definition collect_over_tree_blobs (fuel : nat) :=
  collect_over_tree_filtered fuel entry_is_blob.

Definition collect_over_tree_all (fuel : nat) :=
  collect_over_tree_filtered fuel (λ _, true).

(** [FallibleIterator::collect], which [for_each] and [count] traverse alike. *)
Fixpoint iter_collect (fuel : nat) (acc : list BitIndexEntry) : st S (list BitIndexEntry) :=
  match fuel with
  | O => st_lift Panic
  | Datatypes.S fuel =>
      next ← it_next;
      match next with
      | Some entry => iter_collect fuel (acc ++ [entry])
      | None => mret acc
      end
  end.
End operations.

(** *** CollectSubtree *)

Record CollectSubtree (S : Type) := mk_CollectSubtree { cs_tree_entry : TreeEntry; cs_iter : S }.
Arguments mk_CollectSubtree {S}.
Arguments cs_tree_entry {S}.
Arguments cs_iter {S}.

Section collect_subtree.
Context {S} `{BitTreeIterator S}.

(** Code on the borrowed iterator. *)
Definition on_iter {A} (m : st S A) : st (CollectSubtree S) A :=
  st_zoom cs_iter (λ c s, mk_CollectSubtree (cs_tree_entry c) s) m.

Definition in_subtree : st (CollectSubtree S) bool := λ c,
  on_iter (next_within (te_path (cs_tree_entry c))) c.

Definition collect_subtree_step (m : st S (option BitIndexEntry))
    : st (CollectSubtree S) (option BitIndexEntry) :=
  b ← in_subtree;
  if b : bool then
    next ← on_iter m;
    entry ← st_lift (unwrap next);
    mret (Some entry)
  else mret None.

#[export] Instance collect_subtree_iterator : BitTreeIterator (CollectSubtree S) := {|
  it_kind c := it_kind (cs_iter c);
  it_next := collect_subtree_step it_next;
  it_over := collect_subtree_step it_over;
  it_peek := collect_subtree_step it_peek;
|}.

(** [collect_over_tree_iter]. *)
Definition collect_over_tree_iter : st S TreeEntry :=
  next ← expect_ok it_peek;
  entry ← st_lift (unwrap next);
  _ ← st_lift (assert_that (bool_decide (ie_mode entry = TREE)));
  mret (tree_entry_from_index_entry entry).
End collect_subtree.

(** *** Filter *)

(** [fallible_iterator::Filter]: [next] is the library's, [over] and [peek] are those of the
    source.  The predicate is pure. *)
Record Filter (S : Type) := mk_Filter { fl_it : S; fl_f : BitIndexEntry → bool }.
Arguments mk_Filter {S}.
Arguments fl_it {S}.
Arguments fl_f {S}.

Section filter.
Context {S} `{BitTreeIterator S}.

(** Step by [m] until an entry is accepted. *)
Fixpoint filter_until (fuel : nat) (m : st S (option BitIndexEntry)) (f : BitIndexEntry → bool)
    : st S (option BitIndexEntry) :=
  match fuel with
  | O => st_lift Panic
  | Datatypes.S fuel =>
      next ← m;
      match next with
      | Some x => if f x then mret (Some x) else filter_until fuel m f
      | None => mret None
      end
  end.

Fixpoint filter_peek_loop (fuel : nat) (f : BitIndexEntry → bool) : st S unit :=
  match fuel with
  | O => st_lift Panic
  | Datatypes.S fuel =>
      next ← it_peek;
      match next with
      | Some x => if f x then mret tt else _ ← it_next; filter_peek_loop fuel f
      | None => mret tt
      end
  end.

Definition on_filtered {A} (m : (BitIndexEntry → bool) → st S A) : st (Filter S) A := λ c,
  st_zoom fl_it (λ c s, mk_Filter s (fl_f c)) (m (fl_f c)) c.

Definition filter_iterator (fuel : nat) : BitTreeIterator (Filter S) := {|
  it_kind c := it_kind (fl_it c);
  it_next := on_filtered (filter_until fuel it_next);
  it_over := on_filtered (filter_until fuel it_over);
  it_peek := on_filtered (λ f, _ ← filter_peek_loop fuel f; it_peek);
|}.
End filter.

(** *** [build_tree] *)

Section build_tree.
Context {S} `{BitTreeIterator S}.
(** [BitRepo::write_obj] on trees. *)
Context (write_tree : MutableTree → BitResult Oid).

(** [find_valid_child(entry.path)], valid and of the same oid. *)
Definition tree_exists (tree_cache : option BitTreeCache) (entry : BitIndexEntry) : bool :=
  match tree_cache ≫= λ cache, find_valid_child cache (ie_path entry) with
  | Some cache => is_valid cache && bool_decide (tc_tree_oid cache = ie_oid entry)
  | None => false
  end.

(** One call of [build_tree_internal] ([entries = Some base]), or what is left of its loop. *)
Fixpoint build_tree_internal (fuel : nat) (tree_cache : option BitTreeCache) (base_path : BitPath)
    (entries : list TreeEntry) : st S Oid :=
  match fuel with
  | O => st_lift Panic
  | Datatypes.S fuel =>
      next ← it_peek;
      match next with
      | Some entry =>
          if within base_path entry then
            e ← (match ie_mode entry with
                 | REG | EXEC | LINK =>
                     _ ← it_next;
                     mret (mk_TreeEntry (ie_mode entry) (file_name (ie_path entry)) (ie_oid entry))
                 | TREE =>
                     oid ← (if tree_exists tree_cache entry then
                              o ← it_over;
                              tree ← st_lift (unwrap o);
                              mret (ie_oid tree)
                            else
                              _ ← it_next;
                              build_tree_internal fuel tree_cache (ie_path entry) []);
                     mret (mk_TreeEntry TREE (file_name (ie_path entry)) oid)
                 | GITLINK => st_lift Panic
                 end);
            build_tree_internal fuel tree_cache base_path (entries ++ [e])
          else st_lift (write_tree (mutable_tree_new entries))
      | None => st_lift (write_tree (mutable_tree_new entries))
      end
  end.

Definition build_tree (fuel : nat) (tree_cache : option BitTreeCache) : st S Oid :=
  next ← it_next;
  _ ← st_lift (unwrap next);
  build_tree_internal fuel tree_cache EMPTY [].
End build_tree.

(** ** TreeIter *)

(** The stack with its top first. *)
Record TreeIter := mk_TreeIter { entry_stack : list TreeEntry; previous_len : nat }.

Definition root_entry (oid : Oid) : TreeEntry :=
  mk_TreeEntry TREE EMPTY (if is_known oid then oid else EMPTY_TREE).

Definition tree_iter_new (oid : Oid) : TreeIter := mk_TreeIter [root_entry oid] 0.

(** The entries that [next] pushes for a tree at [path]. *)
Definition child_entries (path : BitPath) (entries : list TreeEntry) : list TreeEntry :=
  (λ e, mk_TreeEntry (te_mode e) (join path (te_path e)) (te_oid e))
    <$> filter (λ e, te_mode e ≠ GITLINK) entries.

Section tree_iter.
(** [Oid::treeish]: the entries of the tree with the oid, or of the tree of the commit. *)
Context (treeish : Oid → BitResult (list TreeEntry)).

Fixpoint tree_iter_pop (stack : list TreeEntry) (previous : nat)
    : BitResult (option BitIndexEntry) * TreeIter :=
  match stack with
  | [] => (Ok None, mk_TreeIter [] previous)
  | entry :: stack =>
      match te_mode entry with
      | TREE =>
          if is_unknown (te_oid entry) then
            (Ok (Some (index_entry_from_tree_entry entry)), mk_TreeIter stack previous)
          else
            match treeish (te_oid entry) with
            | Ok entries =>
                (Ok (Some (index_entry_from_tree_entry entry)),
                 mk_TreeIter (child_entries (te_path entry) entries ++ stack) (length stack))
            | Err e => (Err e, mk_TreeIter stack previous)
            | Panic => (Panic, mk_TreeIter stack previous)
            end
      | REG | LINK | EXEC =>
          (Ok (Some (index_entry_from_tree_entry entry)), mk_TreeIter stack previous)
      | GITLINK => tree_iter_pop stack previous
      end
  end.

Definition tree_iter_next : st TreeIter (option BitIndexEntry) := λ it,
  tree_iter_pop (entry_stack it) (previous_len it).

(** [Vec::truncate]. *)
Definition truncate_stack (it : TreeIter) : TreeIter :=
  mk_TreeIter (drop (length (entry_stack it) - previous_len it) (entry_stack it)) (previous_len it).

Definition tree_iter_over : st TreeIter (option BitIndexEntry) :=
  next ← tree_iter_next;
  match next with
  | Some entry =>
      it ← st_get;
      _ ← st_put (if bool_decide (ie_mode entry = TREE) then truncate_stack it else it);
      mret (Some entry)
  | None => mret None
  end.

Definition tree_iter_peek : st TreeIter (option BitIndexEntry) := λ it,
  (Ok (index_entry_from_tree_entry <$> head (entry_stack it)), it).

#[export] Instance tree_iter_iterator : BitTreeIterator TreeIter := {|
  it_kind _ := KTree;
  it_next := tree_iter_next;
  it_over := tree_iter_over;
  it_peek := tree_iter_peek;
|}.

(** [TreeEntryIter::next]. *)
Fixpoint tree_entry_iter_next (fuel : nat) : st TreeIter (option BitIndexEntry) :=
  match fuel with
  | O => st_lift Panic
  | S fuel =>
      next ← tree_iter_next;
      match next with
      | Some entry => if entry_is_blob entry then mret (Some entry) else tree_entry_iter_next fuel
      | None => mret None
      end
  end.
End tree_iter.

(** The iterator of [empty_tree_iter]. *)
Inductive EmptyTreeIter := mk_EmptyTreeIter.

#[export] Instance empty_tree_iterator : BitTreeIterator EmptyTreeIter := {|
  it_kind _ := KTree;
  it_next := mret None;
  it_over := mret None;
  it_peek := mret None;
|}.

(** ** The laws of tree iterators *)

(** The entries below [dir] at the front of a list, and what follows them. *)
Fixpoint take_within (dir : BitPath) (l : list BitIndexEntry) : list BitIndexEntry :=
  match l with
  | [] => []
  | x :: l => if within dir x then x :: take_within dir l else []
  end.

Fixpoint drop_within (dir : BitPath) (l : list BitIndexEntry) : list BitIndexEntry :=
  match l with
  | [] => []
  | x :: l' => if within dir x then drop_within dir l' else l
  end.

(** What stepping over the first entry leaves: its subtree goes with a tree. *)
Definition over_list (l : list BitIndexEntry) : list BitIndexEntry :=
  match l with
  | [] => []
  | e :: l => if entry_is_tree e then drop_within (ie_path e) l else l
  end.

(** The next entry is a tree. *)
Definition at_tree (l : list BitIndexEntry) : Prop :=
  match l with x :: _ => entry_is_tree x = true | [] => False end.

(** What the clients of a tree iterator rely on: it behaves as a cursor in a list.  [over] need
    only step over a tree that has been peeked ([peeked]): an adaptor may have entries in front
    of the next one that it rejects, and whose subtrees it would skip, and the iterator over the
    worktree panics at a file. *)
Class TreeIterLaws (S : Type) `{BitTreeIterator S} := {
  yields : S → list BitIndexEntry → Prop;
  peeked : S → list BitIndexEntry → Prop;
  peeked_yields s l : peeked s l → yields s l;
  law_peek s l : yields s l →
    ∃ s', it_peek s = (Ok (head l), s') ∧ peeked s' l ∧ it_kind s' = it_kind s;
  law_next s l : yields s l →
    ∃ s', it_next s = (Ok (head l), s') ∧ yields s' (tail l) ∧ it_kind s' = it_kind s;
  law_over s l : peeked s l → at_tree l →
    ∃ s', it_over s = (Ok (head l), s') ∧ yields s' (over_list l) ∧ it_kind s' = it_kind s;
}.

#[export] Hint Resolve peeked_yields : bit.

Lemma take_drop_within dir l : take_within dir l ++ drop_within dir l = l.
Proof. induction l as [|x l IH]; cbn; [done|]. case_match; cbn; [by rewrite IH|done]. Qed.

Lemma take_within_all dir l r :
  Forall (λ x, within dir x = true) l → take_within dir (l ++ r) = l ++ take_within dir r.
Proof. induction 1 as [|x l Hx _ IH]; cbn; [done|]. by rewrite Hx, IH. Qed.

Lemma drop_within_all dir l r :
  Forall (λ x, within dir x = true) l → drop_within dir (l ++ r) = drop_within dir r.
Proof. induction 1 as [|x l Hx _ IH]; cbn; [done|]. by rewrite Hx. Qed.

Lemma take_within_Forall dir l : Forall (λ x, within dir x = true) (take_within dir l).
Proof. induction l as [|x l IH]; cbn; [done|]. case_match; by constructor. Qed.

(** The next entry, if there is one, lies outside of [dir]. *)
Definition outside (dir : BitPath) (l : list BitIndexEntry) : Prop :=
  match l with [] => True | x :: _ => within dir x = false end.

Lemma drop_within_outside dir l : outside dir (drop_within dir l).
Proof. induction l as [|x l IH]; cbn; [done|]. by case_match. Qed.

Lemma outside_take dir l : outside dir l → take_within dir l = [].
Proof. destruct l as [|x l]; cbn; [done|]. by intros ->. Qed.

Lemma outside_drop dir l : outside dir l → drop_within dir l = l.
Proof. destruct l as [|x l]; cbn; [done|]. by intros ->. Qed.

Lemma length_drop_within dir l : length (drop_within dir l) ≤ length l.
Proof. induction l as [|x l IH]; cbn; [done|]. case_match; cbn; lia. Qed.

Section laws.
Context {S} `{TreeIterLaws S}.

Lemma next_within_spec p s l :
  yields s l → ∃ s', next_within p s =
    (Ok (match l with x :: _ => within p x | [] => false end), s')
    ∧ peeked s' l ∧ it_kind s' = it_kind s.
Proof.
  intros Hy. destruct (law_peek s l Hy) as (s' & E & Hp & Hk). exists s'. unfold next_within.
  rewrite (st_bind_ok _ _ _ _ _ E). by destruct l.
Qed.

Lemma collect_within_spec fuel p f acc s l :
  yields s l → length l < fuel →
  ∃ s', collect_within fuel p f acc s
        = (Ok (acc ++ List.filter f (take_within p l)), s')
    ∧ peeked s' (drop_within p l) ∧ it_kind s' = it_kind s.
Proof.
  revert acc s l. induction fuel as [|fuel IH]; intros acc s l Hy Hf; [lia|].
  cbn [collect_within]. destruct (next_within_spec p s l Hy) as (s1 & E1 & Hp1 & Hk1).
  rewrite (st_bind_ok _ _ _ _ _ E1).
  destruct l as [|x l]; cbn; [exists s1; by rewrite app_nil_r|].
  destruct (within p x) eqn:Hx; [|exists s1; by rewrite app_nil_r].
  destruct (law_next s1 _ (peeked_yields _ _ Hp1)) as (s2 & E2 & Hy2 & Hk2).
  rewrite (st_bind_ok _ _ _ _ _ E2). cbn [head unwrap].
  rewrite (st_bind_ok _ _ s2 s2 x) by done.
  destruct (IH (if f x then acc ++ [x] else acc) s2 l Hy2) as (s3 & E3 & Hp3 & Hk3); [cbn in Hf; lia|].
  exists s3. rewrite E3. split_and!; [|done|congruence].
  cbn [List.filter]. destruct (f x); by rewrite <- ?app_assoc.
Qed.

Lemma collect_over_tree_filtered_spec fuel f acc s e l :
  yields s (e :: l) → length l < fuel →
  ∃ s', collect_over_tree_filtered fuel f acc s
        = (Ok (e, acc ++ List.filter f (take_within (ie_path e) l)), s')
    ∧ yields s' (drop_within (ie_path e) l) ∧ it_kind s' = it_kind s.
Proof.
  intros Hy Hf. unfold collect_over_tree_filtered.
  destruct (law_next s _ Hy) as (s1 & E1 & Hy1 & Hk1). rewrite (st_bind_ok _ _ _ _ _ E1).
  cbn [head unwrap]. rewrite (st_bind_ok _ _ s1 s1 e) by done.
  destruct (collect_within_spec fuel (ie_path e) f acc s1 l Hy1 Hf) as (s2 & E2 & Hp2 & Hk2).
  rewrite (st_bind_ok _ _ _ _ _ E2). exists s2. split_and!; [done|auto with bit|congruence].
Qed.

Lemma iter_collect_spec fuel acc s l :
  yields s l → length l < fuel →
  ∃ s', iter_collect fuel acc s = (Ok (acc ++ l), s') ∧ yields s' [] ∧ it_kind s' = it_kind s.
Proof.
  revert acc s l. induction fuel as [|fuel IH]; intros acc s l Hy Hf; [lia|].
  cbn [iter_collect]. destruct (law_next s _ Hy) as (s1 & E1 & Hy1 & Hk1).
  rewrite (st_bind_ok _ _ _ _ _ E1). destruct l as [|x l]; cbn.
  - exists s1. by rewrite app_nil_r.
  - destruct (IH (acc ++ [x]) s1 l Hy1) as (s2 & E2 & Hy2 & Hk2); [cbn in Hf; lia|].
    exists s2. rewrite E2, <- app_assoc. split_and!; [done|done|congruence].
Qed.
End laws.

(** *** [Path::starts_with] is a prefix order on components *)

Lemma path_starts_with_prefix p b :
  path_starts_with p b = true ↔ path_components b `prefix_of` path_components p.
Proof.
  unfold path_starts_with. rewrite bool_decide_eq_true. split.
  - intros E. exists (drop (length (path_components b)) (path_components p)).
    rewrite <- E at 1. by rewrite take_drop.
  - intros [r ->]. apply take_app_length.
Qed.

Lemma path_starts_with_false p b :
  path_starts_with p b = false ↔ ¬ path_components b `prefix_of` path_components p.
Proof. rewrite <- path_starts_with_prefix. by destruct (path_starts_with p b). Qed.

Lemma within_refl e : within (ie_path e) e = true.
Proof. by apply path_starts_with_prefix. Qed.

Lemma within_trans d e x : within d e = true → within (ie_path e) x = true → within d x = true.
Proof. unfold within. rewrite !path_starts_with_prefix. by intros; etrans. Qed.

Lemma within_empty e : within EMPTY e = true.
Proof. apply path_starts_with_prefix. apply prefix_nil. Qed.

Lemma outside_within d e r : within d e = true → outside d r → outside (ie_path e) r.
Proof.
  destruct r as [|x r]; [done|]. cbn. intros He Hx.
  destruct (within (ie_path e) x) eqn:E; [|done]. by rewrite (within_trans d e x) in Hx.
Qed.

Lemma drop_within_app p l r : outside p r → drop_within p (l ++ r) = drop_within p l ++ r.
Proof.
  intros Hr. induction l as [|x l IH]; cbn; [by apply outside_drop|]. by case_match.
Qed.

Lemma drop_within_Forall P p l : Forall P l → Forall P (drop_within p l).
Proof. induction 1 as [|x l Hx Hl IH]; cbn; [done|]. case_match; [done|by constructor]. Qed.

Lemma over_list_app d l r :
  Forall (λ x, within d x = true) l → outside d r → l ≠ [] →
  over_list (l ++ r) = over_list l ++ r ∧ Forall (λ x, within d x = true) (over_list l).
Proof.
  intros Hl Hr Hne. destruct Hl as [|e l He Hl]; [done|]. cbn. case_match; [|done]. split.
  - apply drop_within_app. by apply (outside_within d).
  - by apply drop_within_Forall.
Qed.

(** *** The laws of [CollectSubtree] *)

Section collect_subtree_laws.
Context {S} `{TreeIterLaws S}.

(** The adaptor of the tree [te] yields [l], and the iterator it borrows goes on with [r]. *)
Context (te : TreeEntry) (r : list BitIndexEntry).

Definition subtree_of (c : CollectSubtree S) (l : list BitIndexEntry) : Prop :=
  cs_tree_entry c = te
  ∧ Forall (λ x, within (te_path te) x = true) l ∧ outside (te_path te) r.

Definition cs_yields (c : CollectSubtree S) (l : list BitIndexEntry) :=
  yields (cs_iter c) (l ++ r) ∧ subtree_of c l.

Definition cs_peeked (c : CollectSubtree S) (l : list BitIndexEntry) :=
  peeked (cs_iter c) (l ++ r) ∧ subtree_of c l.

Lemma collect_subtree_step_spec m (g : list BitIndexEntry → list BitIndexEntry)
    (Y : S → list BitIndexEntry → Prop) c l :
  (∀ s, l ≠ [] → peeked s (l ++ r) →
     ∃ s', m s = (Ok (head (l ++ r)), s') ∧ Y s' (g (l ++ r)) ∧ it_kind s' = it_kind s) →
  (∀ s u, peeked s u → outside (te_path te) u → Y s u) →
  cs_yields c l →
  ∃ c', collect_subtree_step m c = (Ok (head l), c')
    ∧ Y (cs_iter c') (match l with [] => r | _ => g (l ++ r) end)
    ∧ cs_tree_entry c' = te ∧ it_kind c' = it_kind c.
Proof.
  intros Hm Hout [Hy (Hte & Hl & Hr)]. unfold collect_subtree_step.
  destruct (next_within_spec (te_path te) _ _ Hy) as (s1 & E1 & Hp1 & Hk1).
  set (c1 := mk_CollectSubtree te s1).
  assert (in_subtree c = (Ok (match l with [] => false | _ => true end), c1)) as Ei.
  { unfold in_subtree, on_iter, st_zoom. rewrite Hte, E1. f_equal. f_equal.
    destruct Hl as [|x l Hx Hl]; cbn; [by destruct r|done]. }
  rewrite (st_bind_ok _ _ _ _ _ Ei). destruct l as [|x l].
  - exists c1. split_and!; [done| |done|done]. by apply Hout.
  - destruct (Hm s1 ltac:(done) Hp1) as (s2 & E2 & Hy2 & Hk2).
    rewrite (st_bind_ok _ _ c1 (mk_CollectSubtree te s2) (Some x)).
    + exists (mk_CollectSubtree te s2).
      split_and!; [done|done|done|]. cbn. congruence.
    + unfold on_iter, st_zoom. cbn [cs_iter c1]. by rewrite E2.
Qed.

#[export] Program Instance collect_subtree_laws :
    TreeIterLaws (CollectSubtree S) :=
  {| yields := cs_yields; peeked := cs_peeked |}.
Next Obligation. intros c l [Hp Hl]. split; [auto with bit|done]. Qed.
Next Obligation.
  intros c l Hy. pose proof Hy as [_ Hs].
  edestruct (collect_subtree_step_spec it_peek (λ u, u) peeked c l) as (c' & E & Hp & Ht & Hk);
    [intros s _ Hp; by apply law_peek; auto with bit|done|done|].
  exists c'. split_and!; [done| |done]. split; [by destruct l|]. by destruct Hs as (_ & ? & ?).
Qed.
Next Obligation.
  intros c l Hy. pose proof Hy as [_ (Hte & Hl & Hr)].
  edestruct (collect_subtree_step_spec it_next (@tail _) yields c l) as (c' & E & Hp & Ht & Hk);
    [intros s _ Hp; by apply law_next; auto with bit|by intros; auto with bit|done|].
  exists c'. split_and!; [done| |done]. split; [by destruct l|]. split_and!; [done|by destruct Hl|done].
Qed.
Next Obligation.
  intros c l [Hp (Hte & Hl & Hr)] Ht.
  edestruct (collect_subtree_step_spec it_over over_list yields c l) as (c' & E & Hy & Hte' & Hk);
    [intros s _ Hu; apply law_over; [done|by destruct l]|by intros; auto with bit|split; [auto with bit|by split_and!]|].
  exists c'. split_and!; [done| |done]. unfold cs_yields, subtree_of.
  destruct Hl as [|x l Hx Hl]; [by cbn|].
  edestruct (over_list_app (te_path te) (x :: l) r) as [Eo Ho]; [by constructor|done|done|].
  rewrite <- Eo. done.
Qed.
End collect_subtree_laws.

(** Every subtree is one contiguous run behind its tree entry. *)
Fixpoint contiguous (l : list BitIndexEntry) : Prop :=
  match l with
  | [] => True
  | e :: l =>
      (entry_is_tree e = true → Forall (λ x, within (ie_path e) x = false) (drop_within (ie_path e) l))
      ∧ contiguous l
  end.

Lemma contiguous_drop_within p l : contiguous l → contiguous (drop_within p l).
Proof. induction l as [|x l IH]; cbn; [done|]. intros [Hx Hl]. by case_match; [apply IH|]. Qed.

Lemma contiguous_over_list l : contiguous l → contiguous (over_list l).
Proof.
  destruct l as [|x l]; [done|]. cbn. intros [_ Hl]. case_match; [|done].
  by apply contiguous_drop_within.
Qed.

Lemma filter_drop_within f p l :
  Forall (λ x, within p x = false) (drop_within p l) →
  List.filter f (drop_within p l) = drop_within p (List.filter f l).
Proof.
  intros Hd. rewrite <- (take_drop_within p l) at 2. rewrite List.filter_app, drop_within_all.
  - symmetry. apply outside_drop. destruct Hd as [|x l' Hx Hl']; cbn; [done|].
    case_match; [done|]. induction Hl' as [|y l' Hy _ IH]; cbn; [done|]. by case_match.
  - pose proof (take_within_Forall p l) as Ht. rewrite Forall_forall in Ht |- *.
    intros x Hx%list_elem_of_In. apply List.filter_In in Hx as [Hx%list_elem_of_In _]. by apply Ht.
Qed.

(** *** The laws of [Filter] *)

Section filter_laws.
Context {S} `{TreeIterLaws S}.
Context (fuel : nat).

(** The filtered iterator yields [u], of which the adaptor lets [l] through. *)
Definition filter_of (c : Filter S) (u l : list BitIndexEntry) : Prop :=
  l = List.filter (fl_f c) u ∧ length u < fuel ∧ contiguous u.

Definition filter_yields (c : Filter S) (l : list BitIndexEntry) : Prop :=
  ∃ u, yields (fl_it c) u ∧ filter_of c u l.

Definition filter_peeked (c : Filter S) (l : list BitIndexEntry) : Prop :=
  ∃ u, peeked (fl_it c) u ∧ filter_of c u l ∧ (∀ x, head u = Some x → fl_f c x = true).

Lemma filter_until_next_spec n f s u :
  yields s u → length u < n → contiguous u →
  ∃ s' u', filter_until n it_next f s = (Ok (head (List.filter f u)), s')
    ∧ yields s' u' ∧ contiguous u' ∧ length u' ≤ length u
    ∧ List.filter f u' = tail (List.filter f u) ∧ it_kind s' = it_kind s.
Proof.
  revert s u. induction n as [|n IH]; intros s u Hy Hn Hc; [lia|]. cbn [filter_until].
  destruct (law_next s u Hy) as (s1 & E1 & Hy1 & Hk1). rewrite (st_bind_ok _ _ _ _ _ E1).
  destruct u as [|x u]; cbn [head tail List.filter] in *; [by exists s1, []|].
  destruct Hc as [_ Hc]. cbn in Hn. destruct (f x).
  - exists s1, u. split_and!; try done. cbn. lia.
  - destruct (IH s1 u Hy1 ltac:(lia) Hc) as (s2 & u' & E2 & Hy2 & Hc2 & Hl2 & Hu2 & Hk2).
    exists s2, u'. rewrite E2. split_and!; try done; [cbn; lia|congruence].
Qed.

Lemma filter_peek_loop_spec n f s u :
  yields s u → length u < n → contiguous u →
  ∃ s' u', filter_peek_loop n f s = (Ok tt, s')
    ∧ yields s' u' ∧ contiguous u' ∧ length u' ≤ length u
    ∧ List.filter f u' = List.filter f u ∧ (∀ x, head u' = Some x → f x = true)
    ∧ it_kind s' = it_kind s.
Proof.
  revert s u. induction n as [|n IH]; intros s u Hy Hn Hc; [lia|]. cbn [filter_peek_loop].
  destruct (law_peek s u Hy) as (s1 & E1 & Hp1 & Hk1). rewrite (st_bind_ok _ _ _ _ _ E1).
  apply peeked_yields in Hp1. destruct u as [|x u]; cbn [head List.filter] in *; [by exists s1, []|].
  destruct (f x) eqn:Hx.
  - exists s1, (x :: u). cbn [List.filter]. rewrite Hx. split_and!; try done. by intros ? [= <-].
  - destruct (law_next s1 _ Hp1) as (s2 & E2 & Hy2 & Hk2). rewrite (st_bind_ok _ _ _ _ _ E2).
    destruct Hc as [_ Hc]. cbn in Hn.
    destruct (IH s2 u Hy2 ltac:(lia) Hc) as (s3 & u' & E3 & Hy3 & Hc3 & Hl3 & Hu3 & Hh3 & Hk3).
    exists s3, u'. rewrite E3. split_and!; try done; [cbn; lia|congruence].
Qed.

#[export] Program Instance filter_laws : @TreeIterLaws (Filter S) (filter_iterator fuel) :=
  {| yields := filter_yields; peeked := filter_peeked |}.
Next Obligation. intros c l (u & Hp & Hu & _). exists u. auto with bit. Qed.
Next Obligation.
  intros c l (u & Hy & -> & Hn & Hc). cbn. unfold on_filtered, st_zoom.
  destruct (filter_peek_loop_spec fuel (fl_f c) _ u Hy Hn Hc)
    as (s1 & u1 & E1 & Hy1 & Hc1 & Hl1 & Hu1 & Hh1 & Hk1).
  destruct (law_peek s1 u1 Hy1) as (s2 & E2 & Hp2 & Hk2).
  rewrite (st_bind_ok _ _ _ _ _ E1), E2. eexists. split; [|split].
  - do 2 f_equal. rewrite <- Hu1. destruct u1 as [|x u1]; [done|]. cbn. by rewrite Hh1.
  - exists u1. split; [done|]. split; [|done]. split_and!; [done|lia|done].
  - cbn. congruence.
Qed.
Next Obligation.
  intros c l (u & Hy & -> & Hn & Hc). cbn. unfold on_filtered, st_zoom.
  destruct (filter_until_next_spec fuel (fl_f c) _ u Hy Hn Hc)
    as (s1 & u1 & E1 & Hy1 & Hc1 & Hl1 & Hu1 & Hk1).
  rewrite E1. eexists. split_and!; [done| |done].
  exists u1. split; [done|]. split_and!; [done|lia|done].
Qed.
Next Obligation.
  intros c l (u & Hp & (-> & Hn & Hc) & Hh) Ht. cbn. unfold on_filtered, st_zoom.
  assert (at_tree u) as Htu.
  { destruct u as [|x u]; [done|]. cbn in Ht. by rewrite (Hh x) in Ht. }
  destruct (law_over _ u Hp Htu) as (s1 & E1 & Hy1 & Hk1).
  destruct fuel as [|n] eqn:Hfuel; [lia|]. cbn [filter_until].
  rewrite (st_bind_ok _ _ _ _ _ E1).
  assert (length (over_list u) < Datatypes.S n) as Hlen.
  { destruct u as [|x u]; cbn in *; [lia|]. case_match; [|lia].
    pose proof (length_drop_within (ie_path x) u). lia. }
  destruct u as [|x u]; cbn [head] in *.
  - eexists. split_and!; [done| |done]. exists []. split; [done|]. split_and!; [done|cbn; lia|done].
  - rewrite (Hh x) by done. cbn [List.filter]. rewrite (Hh x) by done.
    eexists. split_and!; [done| |done]. exists (over_list (x :: u)). split; [done|].
    split_and!; [|lia|by apply contiguous_over_list].
    cbn. destruct Hc as [Hx _]. destruct (entry_is_tree x); [|done].
    symmetry. apply filter_drop_within. by apply Hx.
Qed.
End filter_laws.

(** ** The entries of a tree *)

(** The empty path of the root, or a normalised relative path. *)
Definition rel_path (p : BitPath) : Prop := p = EMPTY ∨ norm_path p.

(** A name that a tree entry can have. *)
Definition entry_name (n : BitPath) : Prop := name_ok n ∧ x2f ∉ n.

#[export] Instance entry_name_dec n : Decision (entry_name n).
Proof. unfold entry_name. apply _. Defined.

Lemma split_slash_name n : x2f ∉ n → split_slash n = [n].
Proof. apply split_byte_name. Qed.

Lemma entry_name_norm n : entry_name n → norm_path n.
Proof. intros [Hn Hs]. unfold norm_path. rewrite split_slash_name by done. by apply Forall_singleton. Qed.

Lemma norm_path_last p : norm_path p → ∃ c, last p = Some c ∧ c ≠ x2f.
Proof.
  intros Hp. destruct p as [|c p] using rev_ind.
  - unfold norm_path in Hp. cbn in Hp. apply Forall_inv in Hp. by destruct Hp.
  - exists c. rewrite last_snoc. split; [done|]. intros ->. unfold norm_path, split_slash in Hp.
    rewrite split_byte_app_cons, Forall_app in Hp. destruct Hp as [_ Hp]. apply Forall_inv in Hp.
    by destruct Hp.
Qed.

Lemma join_norm d n : norm_path d → entry_name n → join d n = d ++ x2f :: n.
Proof.
  intros Hd Hn. unfold join. pose proof (norm_relative n (entry_name_norm n Hn)) as Hr.
  unfold is_relative in Hr. destruct (is_absolute n); [done|].
  destruct (norm_path_last d Hd) as (c & -> & Hc). by rewrite bool_decide_false.
Qed.

Lemma join_empty_l n : join EMPTY n = n.
Proof. unfold join. by destruct (is_absolute n). Qed.

Lemma rel_path_inj p q : rel_path p → rel_path q → path_components p = path_components q → p = q.
Proof.
  assert (∀ p, norm_path p → path_components p ≠ []) as Hne.
  { intros p' Hp'. rewrite norm_components by done. unfold split_slash.
    pose proof (split_byte_ne x2f p'). by destruct (split_byte x2f p'). }
  intros [->|Hp] [->|Hq] E; [done|by destruct (Hne q)|by destruct (Hne p)|].
  rewrite !norm_components in E by done.
  rewrite <- (join_split_byte x2f p), <- (join_split_byte x2f q).
  fold (split_slash p) (split_slash q). f_equal. revert E. apply list_fmap_eq_inj. by intros ?? [=].
Qed.

Lemma rel_join d n :
  rel_path d → entry_name n →
  norm_path (join d n) ∧ path_components (join d n) = path_components d ++ [Normal n].
Proof.
  intros [->|Hd] Hn.
  - rewrite join_empty_l. pose proof (entry_name_norm n Hn) as Hn'. split; [done|].
    rewrite norm_components by done. by rewrite (split_slash_name n) by apply Hn.
  - rewrite join_norm by done. assert (norm_path (d ++ x2f :: n)) as Hj.
    { unfold norm_path, split_slash in *. rewrite split_byte_app_cons, Forall_app. split; [done|].
      by apply entry_name_norm. }
    split; [done|]. rewrite !norm_components by done. unfold split_slash at 1.
    rewrite split_byte_app_cons. fold (split_slash n). rewrite (split_slash_name n) by apply Hn.
    by rewrite fmap_app.
Qed.

Lemma rel_join_inj d n m :
  rel_path d → entry_name n → entry_name m →
  path_components (join d n) `prefix_of` path_components (join d m) → n = m.
Proof.
  intros Hd Hn Hm. destruct (rel_join d n Hd Hn) as [_ ->]. destruct (rel_join d m Hd Hm) as [_ ->].
  intros Hp%prefix_app_inv. apply prefix_cons_inv_1 in Hp. by injection Hp.
Qed.

Lemma join_within d n : rel_path d → entry_name n → path_starts_with (join d n) d = true.
Proof.
  intros Hd Hn. apply path_starts_with_prefix. destruct (rel_join d n Hd Hn) as [_ ->].
  by apply prefix_app_r.
Qed.

Lemma join_file_name d n : rel_path d → entry_name n → file_name (join d n) = n.
Proof.
  intros Hd Hn. destruct (rel_join d n Hd Hn) as [Hj _].
  unfold file_name, path_file_name, body_segments, path_body.
  pose proof (norm_relative _ Hj) as Hr. unfold is_relative in Hr.
  destruct (is_absolute (join d n)); [done|]. cbn [negb].
  assert (∃ l, split_slash (join d n) = l ++ [n]) as [l El].
  { destruct Hd as [->|Hd]; [exists []; by rewrite join_empty_l, split_slash_name by apply Hn|].
    exists (split_slash d). rewrite join_norm by done. unfold split_slash at 1.
    rewrite split_byte_app_cons. fold (split_slash n). by rewrite (split_slash_name n) by apply Hn. }
  assert (∀ b (l : list bytes), trim_junk b (l ++ [n]) = l ++ [n]) as Ht.
  { destruct Hn as [(H1 & H2 & _) _]. intros b l'. revert b.
    induction l' as [|s l' IH]; intros b; cbn [app trim_junk].
    - unfold is_junk. by rewrite !bool_decide_false.
    - rewrite IH. by destruct l'. }
  rewrite El, Ht, last_snoc. destruct Hn as [(H1 & H2 & H3) _]. by rewrite !bool_decide_false.
Qed.

(** Neither path lies below the other. *)
Definition incomparable (p q : BitPath) : Prop :=
  ¬ path_components p `prefix_of` path_components q
  ∧ ¬ path_components q `prefix_of` path_components p.

Lemma incomparable_join d p n :
  rel_path p → entry_name n → incomparable d p → incomparable d (join p n).
Proof.
  intros Hp Hn [H1 H2]. destruct (rel_join p n Hp Hn) as [_ E]. unfold incomparable. rewrite E.
  split; intros [r Hr].
  - destruct r as [|x r _] using rev_ind.
    + apply H2. exists [Normal n]. by rewrite app_nil_r in Hr.
    + rewrite app_assoc in Hr. apply app_inj_tail in Hr as [Hr _]. apply H1. by exists r.
  - apply H2. exists (Normal n :: r). by rewrite Hr, <- app_assoc.
Qed.

Lemma incomparable_sym p q : incomparable p q → incomparable q p.
Proof. intros []; by split. Qed.

(** What the entries of a tree object satisfy that git writes: names that are components, all
    different. *)
Definition entries_ok (kids : list TreeEntry) : Prop :=
  Forall (λ k, entry_name (te_path k)) kids ∧ NoDup (te_path <$> kids).

#[export] Instance entries_ok_dec kids : Decision (entries_ok kids).
Proof. unfold entries_ok. apply _. Defined.

Lemma elem_of_child_entries p kids c :
  c ∈ child_entries p kids ↔
  ∃ k, k ∈ kids ∧ te_mode k ≠ GITLINK
    ∧ c = mk_TreeEntry (te_mode k) (join p (te_path k)) (te_oid k).
Proof.
  unfold child_entries. rewrite list_elem_of_fmap. setoid_rewrite list_elem_of_filter. naive_solver.
Qed.

Section listing.
Context (treeish : Oid → BitResult (list TreeEntry)).

(** [listing es l]: [l] is what is found below the entries [es], whose paths are full, in the
    order of the trees: an entry before what is in it. *)
Inductive listing : list TreeEntry → list BitIndexEntry → Prop :=
| listing_nil : listing [] []
| listing_blob e es l :
    is_blob (te_mode e) = true → listing es l →
    listing (e :: es) (index_entry_from_tree_entry e :: l)
| listing_tree e es kids l1 l2 :
    te_mode e = TREE → is_known (te_oid e) = true →
    treeish (te_oid e) = Ok kids → entries_ok kids →
    listing (child_entries (te_path e) kids) l1 → listing es l2 →
    listing (e :: es) (index_entry_from_tree_entry e :: l1 ++ l2).

(** The entries on the stack have full paths, none of which lies below another. *)
Definition stack_ok (stack : list TreeEntry) : Prop :=
  Forall (λ e, rel_path (te_path e)) stack
  ∧ StronglySorted (λ a b, incomparable (te_path a) (te_path b)) stack.

Lemma stack_ok_children p kids :
  rel_path p → entries_ok kids → stack_ok (child_entries p kids).
Proof.
  intros Hp [Hn Hd]. unfold stack_ok, child_entries.
  assert (Forall (λ k, entry_name (te_path k)) (filter (λ e, te_mode e ≠ GITLINK) kids)) as Hn'.
  { rewrite Forall_forall in Hn |- *. intros k [_ Hk]%list_elem_of_filter. by apply Hn. }
  assert (NoDup (te_path <$> filter (λ e, te_mode e ≠ GITLINK) kids)) as Hd'.
  { eapply sublist_NoDup; [exact Hd|]. apply fmap_sublist, sublist_filter. }
  clear Hn Hd. induction (filter _ kids) as [|k ks IH]; [by repeat constructor|].
  inversion_clear Hn' as [|?? Hk Hks]. cbn in Hd'. apply NoDup_cons in Hd' as [Hnin Hd'].
  destruct (IH Hks Hd') as [IH1 IH2]. cbn [fmap list_fmap]. split.
  - constructor; [|done]. cbn. right. by apply (rel_join p).
  - constructor; [done|]. rewrite Forall_forall. intros c (k' & -> & Hk')%list_elem_of_fmap. cbn.
    rewrite Forall_forall in Hks. specialize (Hks _ Hk') as Hn'.
    assert (te_path k ≠ te_path k') by (intros E; apply Hnin; rewrite E; by apply list_elem_of_fmap_2).
    split; intros Hpre%rel_join_inj; by auto.
Qed.

Lemma stack_ok_push e es kids :
  stack_ok (e :: es) → entries_ok kids → stack_ok (child_entries (te_path e) kids ++ es).
Proof.
  intros [Hr Hs] Hk. inversion_clear Hr as [|?? Hre Hres]. inversion_clear Hs as [|?? Hs' He].
  destruct (stack_ok_children (te_path e) kids Hre Hk) as [Hc1 Hc2]. split.
  - by apply Forall_app.
  - apply StronglySorted_app_2; [|done|done].
    intros c b (k & Hk1 & _ & ->)%elem_of_child_entries Hb. cbn.
    destruct Hk as [Hn _]. rewrite Forall_forall in Hn, He.
    apply incomparable_sym, incomparable_join; auto using incomparable_sym.
Qed.

Lemma listing_app es1 es2 l1 l2 : listing es1 l1 → listing es2 l2 → listing (es1 ++ es2) (l1 ++ l2).
Proof.
  induction 1 as [|e es l Hb Hl IH|e es kids l l' Hm Hk Ht Hok Hl1 IH1 Hl2 IH2]; intros H2; cbn.
  - done.
  - apply listing_blob; auto.
  - rewrite <- app_assoc. eapply listing_tree; eauto.
Qed.

Lemma listing_head es l :
  listing es l → head l = index_entry_from_tree_entry <$> head es.
Proof. by destruct 1. Qed.

Lemma child_entries_rel p kids :
  rel_path p → entries_ok kids → Forall (λ e, rel_path (te_path e)) (child_entries p kids).
Proof. intros Hp Hk. by apply (stack_ok_children p kids). Qed.

(** Everything in a listing lies below one of the entries listed. *)
Lemma listing_below (P : BitPath → Prop) es l :
  (∀ p n, rel_path p → entry_name n → P p → P (join p n)) →
  listing es l → Forall (λ e, rel_path (te_path e)) es → Forall (λ e, P (te_path e)) es →
  Forall (λ x, P (ie_path x)) l.
Proof.
  intros HP. induction 1 as [|e es l Hb Hl IH|e es kids l l' Hm Hk Ht Hok Hl1 IH1 Hl2 IH2];
    intros Hr Hes; [done|..]; inversion_clear Hr; inversion_clear Hes; (constructor; [done|]).
  - by apply IH.
  - apply Forall_app. split; [|by apply IH2]. apply IH1; [by apply child_entries_rel|].
    rewrite Forall_forall. intros c (k & Hk1 & _ & ->)%elem_of_child_entries. cbn.
    destruct Hok as [Hn _]. rewrite Forall_forall in Hn. auto.
Qed.

Lemma listing_children_within p kids l :
  rel_path p → entries_ok kids → listing (child_entries p kids) l →
  Forall (λ x, within p x = true) l.
Proof.
  intros Hp Hk Hl. apply (listing_below (λ q, path_starts_with q p = true) _ _) in Hl; [done|..].
  - intros q n Hq Hn. rewrite !path_starts_with_prefix. destruct (rel_join q n Hq Hn) as [_ ->].
    by apply prefix_app_r.
  - by apply child_entries_rel.
  - rewrite Forall_forall. intros c (k & Hk1 & _ & ->)%elem_of_child_entries. cbn.
    destruct Hk as [Hn _]. rewrite Forall_forall in Hn. apply join_within; auto.
Qed.

Lemma listing_incomparable p es l :
  stack_ok es → Forall (λ e, incomparable p (te_path e)) es → listing es l →
  Forall (λ x, within p x = false) l.
Proof.
  intros [Hr _] Hp Hl. eapply Forall_impl; [apply (listing_below (incomparable p) es l); auto|].
  - intros q n. apply incomparable_join.
  - intros x [Hx _]. by apply path_starts_with_false.
Qed.

Lemma stack_ok_tail e es :
  stack_ok (e :: es) →
  rel_path (te_path e) ∧ stack_ok es ∧ Forall (λ b, incomparable (te_path e) (te_path b)) es.
Proof. intros [Hr Hs]. inversion_clear Hr. inversion_clear Hs. by repeat split. Qed.

Lemma listing_contiguous es l : stack_ok es → listing es l → contiguous l.
Proof.
  intros Hs Hl. revert Hs.
  induction Hl as [|e es l Hb Hl IH|e es kids l l' Hm Hk Ht Hok Hl1 IH1 Hl2 IH2]; intros Hs; [done|..];
    destruct (stack_ok_tail _ _ Hs) as (Hre & Hs' & Hinc); cbn.
  - split; [|by apply IH]. unfold entry_is_tree. cbn. by destruct (te_mode e).
  - pose proof (listing_incomparable _ _ _ Hs' Hinc Hl2) as Ho.
    pose proof (listing_children_within _ _ _ Hre Hok Hl1) as Hw. split.
    + intros _. rewrite drop_within_all by done. by apply drop_within_Forall.
    + clear - IH1 IH2 Hs' Hl1 Hl2 Hok Hre Hw Ho.
      specialize (IH1 (stack_ok_children _ _ Hre Hok)). specialize (IH2 Hs'). clear Hl1 Hl2.
      induction l as [|x l IH]; [done|]. cbn in *. destruct IH1 as [Hx IH1].
      inversion_clear Hw as [|?? Hwx Hwl]. split; [|by apply IH]. intros Htx.
      assert (outside (ie_path x) l') as Hol.
      { apply (outside_within (te_path e)); [done|]. destruct Ho; cbn; auto. }
      rewrite drop_within_app by done. apply Forall_app. split; [by apply Hx|].
      eapply Forall_impl; [exact Ho|]. intros y Hy. cbn in Hy |- *.
      destruct (within (ie_path x) y) eqn:E; [|done].
      by rewrite (within_trans (te_path e) x y) in Hy.
Qed.

(** *** The laws of [TreeIter] *)

Definition tree_iter_yields (it : TreeIter) (l : list BitIndexEntry) : Prop :=
  stack_ok (entry_stack it) ∧ listing (entry_stack it) l.

Lemma tree_iter_next_spec it l :
  tree_iter_yields it l →
  ∃ it', tree_iter_next treeish it = (Ok (head l), it') ∧ tree_iter_yields it' (tail l)
    ∧ (∀ e r, l = e :: r → entry_is_tree e = true →
         tree_iter_yields (truncate_stack it') (drop_within (ie_path e) r)).
Proof.
  destruct it as [stack prev]. intros [Hs Hl]. cbn in Hs, Hl.
  destruct Hl as [|e es l Hb Hl|e es kids l l' Hm Hk Ht Hok Hl1 Hl2]; cbn.
  - eexists. split_and!; [done|split; [done|constructor]|done].
  - destruct (stack_ok_tail _ _ Hs) as (Hre & Hs' & Hinc).
    exists (mk_TreeIter es prev). split_and!; [unfold tree_iter_next; by destruct e as [[] ? ?]|done|].
    intros e' r [= <- <-]. unfold entry_is_tree. cbn. by destruct (te_mode e).
  - unfold tree_iter_next. cbn. rewrite Hm, Ht.
    assert (is_unknown (te_oid e) = false) as ->.
    { unfold is_unknown, is_known in *. apply bool_decide_eq_true in Hk. by apply bool_decide_eq_false. }
    destruct (stack_ok_tail _ _ Hs) as (Hre & Hs' & Hinc).
    eexists. split_and!; [done|split; [by apply stack_ok_push|by apply listing_app]|].
    intros e' r [= <- <-] _. unfold truncate_stack, tree_iter_yields. cbn.
    rewrite length_app, Nat.add_sub, drop_app_length.
    rewrite drop_within_all by by eapply listing_children_within.
    rewrite outside_drop; [done|]. pose proof (listing_incomparable _ _ _ Hs' Hinc Hl2) as Ho.
    by destruct Ho.
Qed.

Lemma tree_iter_over_spec it l :
  tree_iter_yields it l → ∃ it', tree_iter_over treeish it = (Ok (head l), it')
    ∧ tree_iter_yields it' (over_list l) ∧ KTree = KTree.
Proof.
  intros Hy. destruct (tree_iter_next_spec it l Hy) as (it' & E & Hy' & Ht).
  unfold tree_iter_over. rewrite (st_bind_ok _ _ _ _ _ E). destruct l as [|e l]; cbn in *.
  - by exists it'.
  - unfold entry_is_tree at 1. cbn. case_bool_decide as Hm.
    + exists (truncate_stack it'). split_and!; [done| |done]. rewrite Hm. cbn.
      apply Ht; [done|]. unfold entry_is_tree. cbn. by rewrite Hm.
    + exists it'. split_and!; [done| |done]. by destruct (ie_mode e).
Qed.

#[export] Program Instance tree_iter_laws :
    @TreeIterLaws TreeIter (tree_iter_iterator treeish) :=
  {| yields := tree_iter_yields; peeked := tree_iter_yields |}.
Next Obligation. done. Qed.
Next Obligation.
  intros it l Hy. exists it. split_and!; [|done|done]. cbn. unfold tree_iter_peek.
  by rewrite (listing_head _ l) by apply Hy.
Qed.
Next Obligation.
  intros it l Hy. destruct (tree_iter_next_spec it l Hy) as (it' & E & Hy' & _). by exists it'.
Qed.
Next Obligation. intros it l Hy _. by apply tree_iter_over_spec. Qed.

(** The iterator of a tree yields the tree itself and then its listing. *)
Lemma tree_iter_new_yields oid kids l :
  treeish (te_oid (root_entry oid)) = Ok kids → entries_ok kids →
  listing (child_entries EMPTY kids) l →
  tree_iter_yields (tree_iter_new oid) (index_entry_from_tree_entry (root_entry oid) :: l).
Proof.
  intros Ht Hk Hl. split; cbn.
  - split; constructor; [by left|constructor|constructor|constructor].
  - rewrite <- (app_nil_r l). eapply listing_tree; try done; [|constructor].
    cbn. by destruct (is_known oid) eqn:E.
Qed.
End listing.

(** ** Sequences of operations *)

Inductive cursor_op := OpNext | OpOver | OpPeek.

Fixpoint run_ops {S} `{BitTreeIterator S} (ops : list cursor_op) : st S (list (option BitIndexEntry)) :=
  match ops with
  | [] => mret []
  | op :: ops =>
      o ← (match op with OpNext => it_next | OpOver => it_over | OpPeek => it_peek end);
      os ← run_ops ops;
      mret (o :: os)
  end.

(** The same on the list of what is left. *)
Fixpoint run_cursor (ops : list cursor_op) (l : list BitIndexEntry) : list (option BitIndexEntry) :=
  match ops with
  | [] => []
  | op :: ops =>
      head l :: run_cursor ops (match op with OpNext => tail l | OpOver => over_list l | OpPeek => l end)
  end.

Section run.
Context {S} `{TreeIterLaws S}.

Lemma run_ops_spec ops s l :
  (∀ s l, yields (S := S) s l →
     ∃ s', it_over s = (Ok (head l), s') ∧ yields s' (over_list l) ∧ it_kind s' = it_kind s) →
  yields s l → ∃ s', run_ops ops s = (Ok (run_cursor ops l), s').
Proof.
  intros Hp. revert s l. induction ops as [|op ops IH]; intros s l Hy; [by exists s|].
  cbn [run_ops run_cursor].
  assert (∃ s1, (match op with OpNext => it_next | OpOver => it_over | OpPeek => it_peek end) s
      = (Ok (head l), s1)
    ∧ yields s1 (match op with OpNext => tail l | OpOver => over_list l | OpPeek => l end))
    as (s1 & E1 & Hy1).
  { destruct op; [destruct (law_next s l Hy) as (s1 & ? & ? & _)
      |destruct (Hp s l Hy) as (s1 & ? & ? & _)
      |destruct (law_peek s l Hy) as (s1 & ? & ? & _)]; exists s1; auto with bit. }
  rewrite (st_bind_ok _ _ _ _ _ E1). destruct (IH s1 _ Hy1) as (s2 & E2).
  exists s2. by rewrite (st_bind_ok _ _ _ _ _ E2).
Qed.
End run.

(** ** Building a tree from an iterator *)

Section build_tree_spec.
Context {S} `{TreeIterLaws S}.
Context (treeish : Oid → BitResult (list TreeEntry)).
Context (write_tree : MutableTree → BitResult Oid).
Context (tree_cache : option BitTreeCache).

(** The tree [x] holds no submodule, and writing its entries gives its oid. *)
Definition stored_tree (x : BitIndexEntry) : Prop :=
  entry_is_tree x = true → ∃ kids, treeish (ie_oid x) = Ok kids
    ∧ Forall (λ k, te_mode k ≠ GITLINK) kids ∧ write_tree (mutable_tree_new kids) = Ok (ie_oid x).

Lemma child_entries_plain p kids :
  Forall (λ k, te_mode k ≠ GITLINK) kids →
  child_entries p kids = (λ e, mk_TreeEntry (te_mode e) (join p (te_path e)) (te_oid e)) <$> kids.
Proof.
  intros Hk. unfold child_entries. f_equal. induction Hk as [|k kids Hk _ IH]; [done|].
  by rewrite filter_cons_True, IH.
Qed.

Lemma build_tree_internal_end fuel base acc s r :
  yields s r → outside base r →
  ∃ s', build_tree_internal write_tree (Datatypes.S fuel) tree_cache base acc s
        = (write_tree (mutable_tree_new acc), s') ∧ yields s' r.
Proof.
  intros Hy Hr. cbn [build_tree_internal]. destruct (law_peek s r Hy) as (s1 & E1 & Hp1 & _).
  rewrite (st_bind_ok _ _ _ _ _ E1). exists s1. destruct r as [|x r]; cbn; [auto with bit|].
  cbn in Hr. rewrite Hr. auto with bit.
Qed.

(** What the loop does with one entry. *)
Definition step_entry (fuel : nat) (entry : BitIndexEntry) : st S TreeEntry :=
  match ie_mode entry with
  | REG | EXEC | LINK =>
      _ ← it_next;
      mret (mk_TreeEntry (ie_mode entry) (file_name (ie_path entry)) (ie_oid entry))
  | TREE =>
      oid ← (if tree_exists tree_cache entry then
               o ← it_over; tree ← st_lift (unwrap o); mret (ie_oid tree)
             else _ ← it_next; build_tree_internal write_tree fuel tree_cache (ie_path entry) []);
      mret (mk_TreeEntry TREE (file_name (ie_path entry)) oid)
  | GITLINK => st_lift Panic
  end.

Lemma build_tree_internal_step fuel base acc s x l e l' :
  yields s (x :: l) → within base x = true →
  (∀ s1, peeked s1 (x :: l) → ∃ s2, step_entry fuel x s1 = (Ok e, s2) ∧ yields s2 l') →
  ∃ s3, build_tree_internal write_tree (Datatypes.S fuel) tree_cache base acc s
        = build_tree_internal write_tree fuel tree_cache base (acc ++ [e]) s3 ∧ yields s3 l'.
Proof.
  intros Hy Hx Hstep. cbn [build_tree_internal]. destruct (law_peek s _ Hy) as (s1 & E1 & Hp1 & _).
  rewrite (st_bind_ok _ _ _ _ _ E1). cbn [head]. rewrite Hx.
  destruct (Hstep s1 Hp1) as (s2 & E2 & Hy2). exists s2. split; [|done].
  by rewrite (st_bind_ok _ _ _ _ _ E2).
Qed.

Lemma step_entry_blob fuel x s l :
  entry_is_blob x = true → peeked s (x :: l) →
  ∃ s', step_entry fuel x s = (Ok (mk_TreeEntry (ie_mode x) (file_name (ie_path x)) (ie_oid x)), s')
    ∧ yields s' l.
Proof.
  intros Hb Hp. destruct (law_next s _ (peeked_yields _ _ Hp)) as (s1 & E1 & Hy1 & _).
  exists s1. split; [|done]. unfold step_entry, entry_is_blob in *. cbn in Hb.
  destruct (ie_mode x); try done; by rewrite (st_bind_ok _ _ _ _ _ E1).
Qed.

Lemma step_entry_tree fuel x s l r :
  ie_mode x = TREE → peeked s (x :: l ++ r) →
  Forall (λ y, within (ie_path x) y = true) l → outside (ie_path x) r →
  (∀ s1, yields s1 (l ++ r) → ∃ s2,
     build_tree_internal write_tree fuel tree_cache (ie_path x) [] s1 = (Ok (ie_oid x), s2)
     ∧ yields s2 r) →
  ∃ s', step_entry fuel x s = (Ok (mk_TreeEntry TREE (file_name (ie_path x)) (ie_oid x)), s')
    ∧ yields s' r.
Proof.
  intros Hm Hp Hl Hr Hb. unfold step_entry. rewrite Hm. destruct (tree_exists tree_cache x).
  - destruct (law_over s _ Hp) as (s1 & E1 & Hy1 & _); [unfold at_tree, entry_is_tree; cbn; by rewrite Hm|]. exists s1. split.
    + rewrite (st_bind_ok _ _ s s1 (ie_oid x)); [done|]. by rewrite (st_bind_ok _ _ _ _ _ E1).
    + cbn in Hy1. unfold entry_is_tree in Hy1. cbn in Hy1. rewrite Hm in Hy1. cbn in Hy1.
      by rewrite drop_within_all, outside_drop in Hy1.
  - destruct (law_next s _ (peeked_yields _ _ Hp)) as (s1 & E1 & Hy1 & _).
    destruct (Hb s1 Hy1) as (s2 & E2 & Hy2). exists s2. split; [|done].
    rewrite (st_bind_ok _ _ s s2 (ie_oid x)); [done|]. by rewrite (st_bind_ok _ _ _ _ _ E1).
Qed.

Lemma build_tree_internal_spec es l :
  listing treeish es l →
  ∀ base ks acc fuel s r,
    rel_path base → Forall (λ k, entry_name (te_path k)) ks →
    es = (λ e, mk_TreeEntry (te_mode e) (join base (te_path e)) (te_oid e)) <$> ks →
    stack_ok es → outside base r → Forall stored_tree l → length l < fuel →
    yields s (l ++ r) →
    ∃ s', build_tree_internal write_tree fuel tree_cache base acc s
          = (write_tree (mutable_tree_new (acc ++ ks)), s') ∧ yields s' r.
Proof.
  induction 1 as [|e es l Hb Hl IH|e es kids l l' Hm Hk Ht Hok Hl1 IH1 Hl2 IH2];
    intros base ks acc fuel s r Hbase Hn Hes Hs Hr Hst Hf Hy;
    (destruct fuel as [|fuel]; [lia|]); destruct ks as [|k ks]; try done; cbn in Hes.
  - rewrite app_nil_r. by apply build_tree_internal_end.
  - injection Hes as -> Hes. inversion_clear Hn as [|?? Hnk Hnks]. inversion_clear Hst as [|?? _ Hst'].
    destruct (stack_ok_tail _ _ Hs) as (Hre & Hs' & Hinc).
    destruct (build_tree_internal_step fuel base acc s _ _ k (l ++ r) Hy) as (s3 & -> & Hy3).
    { by apply join_within. }
    { intros s1 Hp1. 
      destruct (step_entry_blob fuel (index_entry_from_tree_entry
        (mk_TreeEntry (te_mode k) (join base (te_path k)) (te_oid k))) s1 (l ++ r) Hb Hp1)
        as (s2 & E2 & Hy2).
      exists s2. split; [|done]. rewrite E2. cbn. rewrite join_file_name by done. by destruct k. }
    replace (acc ++ k :: ks) with ((acc ++ [k]) ++ ks) by by rewrite <- app_assoc.
    apply IH; try done. cbn in Hf. lia.
  - injection Hes as -> Hes. inversion_clear Hn as [|?? Hnk Hnks]. inversion_clear Hst as [|?? Hx Hst'].
    apply Forall_app in Hst' as [Hst1 Hst2]. cbn in Hf, Hm, Ht, Hl1, IH1, Hx. rewrite length_app in Hf.
    destruct (stack_ok_tail _ _ Hs) as (Hre & Hs' & Hinc). cbn in Hre, Hinc.
    destruct Hx as (kids' & Ht' & Hg & Hw); [unfold entry_is_tree; cbn; by rewrite Hm|].
    cbn in Ht', Hw. rewrite Ht in Ht'. injection Ht' as <-.
    assert (outside (join base (te_path k)) (l' ++ r)) as Hor.
    { pose proof (listing_incomparable _ _ _ _ Hs' Hinc Hl2) as Ho. destruct Ho; [|done]. cbn.
      by apply (outside_within base (index_entry_from_tree_entry
        (mk_TreeEntry TREE (join base (te_path k)) []))); [apply join_within|]. }
    cbn [app] in Hy. rewrite <- app_assoc in Hy.
    destruct (build_tree_internal_step fuel base acc s _ _ k (l' ++ r) Hy) as (s3 & -> & Hy3).
    { by apply join_within. }
    { intros s1 Hp1. 
      edestruct (step_entry_tree fuel (index_entry_from_tree_entry
        (mk_TreeEntry (te_mode k) (join base (te_path k)) (te_oid k))) s1 l (l' ++ r) Hm Hp1)
        as (s2 & E2 & Hy2);
        [by eapply listing_children_within|done| |].
      { intros s2 Hy2. cbn. edestruct (IH1 _ kids [] fuel s2 (l' ++ r) Hre) as (s3 & -> & Hy3);
          [apply Hok|by rewrite child_entries_plain|by apply stack_ok_children|done|done|lia|done|].
        exists s3. cbn [app]. by rewrite Hw. }
      exists s2. split; [|done]. rewrite E2. cbn. rewrite join_file_name by done.
      destruct k; cbn in *. by rewrite Hm. }
    replace (acc ++ k :: ks) with ((acc ++ [k]) ++ ks) by by rewrite <- app_assoc.
    apply IH2; try done. lia.
Qed.
End build_tree_spec.

(** ** Theorems *)

Section tree_iter_theorems.
Context (treeish : Oid → BitResult (list TreeEntry)).
#[local] Instance this_tree_iterator : BitTreeIterator TreeIter := tree_iter_iterator treeish.
#[local] Instance this_tree_laws : TreeIterLaws TreeIter := tree_iter_laws treeish.

Lemma tree_entry_iter_next_spec fuel it l :
  yields it l → length l < fuel →
  ∃ it' u, tree_entry_iter_next treeish fuel it = (Ok (head (List.filter entry_is_blob l)), it')
    ∧ yields it' u ∧ List.filter entry_is_blob u = tail (List.filter entry_is_blob l)
    ∧ length u ≤ length l.
Proof.
  revert it l. induction fuel as [|fuel IH]; intros it l Hy Hf; [lia|]. cbn [tree_entry_iter_next].
  destruct (law_next it l Hy) as (it1 & E1 & Hy1 & _). cbn in E1.
  rewrite (st_bind_ok _ _ _ _ _ E1). destruct l as [|x l]; [by exists it1, []|].
  cbn [head tail List.filter] in *. destruct (entry_is_blob x).
  - exists it1, l. split_and!; try done. cbn. lia.
  - destruct (IH it1 l Hy1) as (it2 & u & E2 & Hy2 & Hu & Hlen); [cbn in Hf; lia|].
    exists it2, u. split_and!; try done. cbn. lia.
Qed.

(** A [TreeIter] refines a cursor in the listing of its tree (the root, then every entry
    before what is in it, with full paths and without submodules): for any sequence of [next], [over] and
    [peek], it gives what the cursor gives, where [over] on a tree drops everything whose path
    starts with the tree's path. *)
Theorem tree_iter_refines_cursor oid kids l ops :
  treeish (te_oid (root_entry oid)) = Ok kids → entries_ok kids → listing treeish (child_entries EMPTY kids) l →
  fst (run_ops ops (tree_iter_new oid))
  = Ok (run_cursor ops (index_entry_from_tree_entry (root_entry oid) :: l)).
Proof.
  intros Ht Hk Hl.
  assert (yields (tree_iter_new oid) (index_entry_from_tree_entry (root_entry oid) :: l)) as Hy
    by by apply (tree_iter_new_yields treeish oid kids l).
  edestruct (run_ops_spec ops) as (s' & E); [|exact Hy|by rewrite E].
  intros s l' Hs. by apply (tree_iter_over_spec treeish).
Qed.

(** Building a tree from the iterator over a stored tree gives that tree back, for every
    tree cache: [build_tree] returns, reads the iterator to its end and writes the entries
    of the root, whether it steps over the subtrees that the cache knows or rebuilds them. *)
Theorem build_tree_correct write_tree tree_cache oid kids l :
  treeish (te_oid (root_entry oid)) = Ok kids → entries_ok kids → Forall (λ k, te_mode k ≠ GITLINK) kids →
  listing treeish (child_entries EMPTY kids) l → Forall (stored_tree treeish write_tree) l →
  ∃ it, build_tree write_tree (S (length l)) tree_cache (tree_iter_new oid)
        = (write_tree (mutable_tree_new kids), it)
    ∧ yields it [].
Proof.
  intros Ht Hk Hg Hl Hst.
  assert (yields (tree_iter_new oid) (index_entry_from_tree_entry (root_entry oid) :: l)) as Hy
    by by apply (tree_iter_new_yields treeish oid kids l). unfold build_tree.
  destruct (law_next _ _ Hy) as (it1 & E1 & Hy1 & _).
  rewrite (st_bind_ok _ _ _ _ _ E1). cbn [head unwrap tail] in *.
  rewrite (st_bind_ok _ _ it1 it1 (index_entry_from_tree_entry (root_entry oid)))
    by done.
  edestruct (build_tree_internal_spec treeish write_tree tree_cache _ l Hl EMPTY kids [] (S (length l))
    it1 []) as (it2 & E2 & Hy2); try done.
  - by left.
  - apply Hk.
  - by apply child_entries_plain.
  - apply stack_ok_children; [by left|done].
  - lia.
  - by rewrite app_nil_r.
  - by exists it2.
Qed.
End tree_iter_theorems.

(** A tree with a file [a] and a directory [d] that holds the file [b]. *)
Definition sample_oid (b : byte) : Oid := replicate 20 b.
Definition sample_root : list TreeEntry :=
  [mk_TreeEntry REG (bs "a") (sample_oid x0a); mk_TreeEntry TREE (bs "d") (sample_oid x02)].
Definition sample_dir : list TreeEntry := [mk_TreeEntry EXEC (bs "b") (sample_oid x0b)].

Definition sample_treeish (oid : Oid) : BitResult (list TreeEntry) :=
  if bool_decide (oid = sample_oid x01) then Ok sample_root
  else if bool_decide (oid = sample_oid x02) then Ok sample_dir else Err Anyhow.

Definition sample_write (t : MutableTree) : BitResult Oid :=
  if bool_decide (mt_entries t = sample_root) then Ok (sample_oid x01)
  else if bool_decide (mt_entries t = sample_dir) then Ok (sample_oid x02) else Err Anyhow.

Definition sample_listing : list BitIndexEntry :=
  index_entry_from_tree_entry <$>
    [mk_TreeEntry REG (bs "a") (sample_oid x0a); mk_TreeEntry TREE (bs "d") (sample_oid x02);
     mk_TreeEntry EXEC (bs "d/b") (sample_oid x0b)].

Lemma sample_is_listing : listing sample_treeish (child_entries EMPTY sample_root) sample_listing.
Proof.
  change (child_entries EMPTY sample_root) with sample_root. unfold sample_root.
  apply listing_blob; [done|].
  apply (listing_tree _ _ [] sample_dir
    [index_entry_from_tree_entry (mk_TreeEntry EXEC (bs "d/b") (sample_oid x0b))] []);
    [done|done|vm_compute; reflexivity|vm_decide| |constructor].
  apply listing_blob; [done|constructor].
Qed.

Lemma tree_iter_refines_cursor_witness :
  fst (run_ops (H := tree_iter_iterator sample_treeish) [OpNext; OpPeek; OpNext; OpOver; OpNext]
         (tree_iter_new (sample_oid x01)))
  = Ok (run_cursor [OpNext; OpPeek; OpNext; OpOver; OpNext]
         (index_entry_from_tree_entry (root_entry (sample_oid x01)) :: sample_listing))
  ∧ (∃ a, run_cursor [OpNext; OpPeek; OpNext; OpOver; OpNext]
         (index_entry_from_tree_entry (root_entry (sample_oid x01)) :: sample_listing)
       = [a; sample_listing !! 0; sample_listing !! 0; sample_listing !! 1; None]).
Proof.
  split; [|eexists; vm_compute; reflexivity].
  apply (tree_iter_refines_cursor sample_treeish (sample_oid x01) sample_root sample_listing);
    [vm_compute; reflexivity|vm_decide|apply sample_is_listing].
Defined.

Lemma build_tree_correct_witness :
  fst (build_tree (H := tree_iter_iterator sample_treeish) sample_write 4 None
         (tree_iter_new (sample_oid x01)))
  = Ok (sample_oid x01).
Proof.
  destruct (build_tree_correct sample_treeish sample_write None (sample_oid x01) sample_root
    sample_listing) as (it & E & _).
  - vm_compute. reflexivity.
  - vm_decide.
  - vm_decide.
  - apply sample_is_listing.
  - repeat constructor; try (intros ?; discriminate). intros _. exists sample_dir.
    split_and!; [vm_compute; reflexivity|vm_decide|vm_compute; reflexivity].
  - change (length sample_listing) with 3 in E.
    unfold this_tree_iterator in E. rewrite E. vm_compute. reflexivity.
Defined.

(** The adaptors make search for an iterator on an unknown type endless. *)
#[export] Hint Mode BitTreeIterator ! : typeclass_instances.
#[export] Hint Mode TreeIterLaws ! - : typeclass_instances.

#[export] Program Instance empty_tree_laws : TreeIterLaws EmptyTreeIter :=
  {| yields _ l := l = []; peeked _ l := l = [] |}.
Next Obligation. done. Qed.
Next Obligation. intros s l ->. by exists s. Qed.
Next Obligation. intros s l ->. by exists s. Qed.
Next Obligation. by intros s l ->. Qed.
