(* ===== verification/TreeDiff.v ===== *)
(** * TreeDiff

    [libbit/src/diff/tree_diff.rs] and the parts of [libbit/src/diff.rs] over it: the
    simultaneous walk of two tree iterators, the differs that it drives, [WorkspaceStatus] and
    [EntryDiffIter].  The theorems say what a diff contains. *)

From Stdlib Require Import ZArith Lia Sorted.
From Stdlib Require Import Strings.Byte.
From stdpp Require Import base tactics option list countable strings sorting.
From S2P Require Import Prelude RustStd Data State Hash Path BTree Obj Tree IndexEntry TreeCache TreeIter.

(** ** WorkspaceStatus *)

Record WorkspaceStatus := mk_WorkspaceStatus {
  ws_new : list BitIndexEntry;
  ws_modified : list (BitIndexEntry * BitIndexEntry);
  ws_deleted : list BitIndexEntry;
}.

#[export] Instance WorkspaceStatus_eq_dec : EqDecision WorkspaceStatus.
Proof. solve_decision. Defined.

Definition status_default : WorkspaceStatus := mk_WorkspaceStatus [] [] [].

Definition status_len (s : WorkspaceStatus) : nat :=
  length (ws_new s) + length (ws_modified s) + length (ws_deleted s).

Definition status_is_empty (s : WorkspaceStatus) : bool :=
  bool_decide (ws_new s = []) && bool_decide (ws_deleted s = []) && bool_decide (ws_modified s = []).

Definition iter_paths (s : WorkspaceStatus) : list BitPath :=
  (entry_path <$> ws_deleted s) ++ (entry_path ∘ snd <$> ws_modified s)
  ++ (entry_path <$> ws_deleted s).

Definition push_new (l : list BitIndexEntry) (s : WorkspaceStatus) : WorkspaceStatus :=
  mk_WorkspaceStatus (ws_new s ++ l) (ws_modified s) (ws_deleted s).
Definition push_modified (l : list (BitIndexEntry * BitIndexEntry)) (s : WorkspaceStatus) :=
  mk_WorkspaceStatus (ws_new s) (ws_modified s ++ l) (ws_deleted s).
Definition push_deleted (l : list BitIndexEntry) (s : WorkspaceStatus) : WorkspaceStatus :=
  mk_WorkspaceStatus (ws_new s) (ws_modified s) (ws_deleted s ++ l).

(** ** DiffOpts *)

Definition INCLUDE_UNMODIFIED : Z := 1.
Record DiffOpts := mk_DiffOpts { opt_flags : Z }.
Definition diff_opts_default : DiffOpts := mk_DiffOpts 0.

(** [self.flags.contains(INCLUDE_UNMODIFIED)]. *)
Definition include_unmodified (opts : DiffOpts) : bool :=
  (Z.land (opt_flags opts) INCLUDE_UNMODIFIED =? INCLUDE_UNMODIFIED)%Z.

(** ** TreeEntriesConsumer

    A consumer is the exclusive borrow of an iterator whose next entry is a tree: its methods run
    on that iterator.  [drop] steps over the tree when none of them has been called. *)

Section consumer.
Context {S} `{BitTreeIterator S}.
Context (fuel : nat).

Definition consumer_peek : st S BitIndexEntry :=
  entry ← expect_ok it_peek;
  st_lift (unwrap entry).

Definition consumer_drop : st S unit :=
  _ ← expect_ok it_over;
  mret tt.

Definition step_over : st S BitIndexEntry :=
  entry ← it_over;
  st_lift (unwrap entry).

Definition collect_over_all (container : list BitIndexEntry) : st S (BitIndexEntry * list BitIndexEntry) :=
  collect_over_tree_all fuel container.

Definition collect_over_files (container : list BitIndexEntry)
    : st S (BitIndexEntry * list BitIndexEntry) :=
  collect_over_tree_blobs fuel container.

Definition on_subtree {A} (tree_entry : TreeEntry) (m : st (CollectSubtree S) A) : st S A := λ s,
  let '(r, c) := m (mk_CollectSubtree tree_entry s) in (r, cs_iter c).

(** Runs [m] on a [CollectSubtree] over the iterator and drops it: what it has not yielded is
    consumed. *)
Definition with_subtree {A} (m : st (CollectSubtree S) A) : st S A :=
  tree_entry ← collect_over_tree_iter (S := S);
  a ← on_subtree tree_entry m;
  _ ← expect_ok (on_subtree tree_entry (iter_collect fuel []));
  mret a.

(** The entries that [for_each] (or [collect]) meets on [iter_files]. *)
Definition iter_files : st S (list BitIndexEntry) :=
  with_subtree (λ c,
    let '(r, f) :=
      iter_collect (S := Filter (CollectSubtree S)) (H := filter_iterator fuel) fuel []
        (mk_Filter c entry_is_blob) in
    (r, fl_it f)).

(** [collect]: everything that [iter] yields, the tree itself first. *)
Definition consumer_collect : st S (list BitIndexEntry) := with_subtree (iter_collect fuel []).
End consumer.

(** ** TreeDiffEntry *)

(** The iterator that a consumer borrows. *)
Inductive TreeEntriesConsumer := OldEntries | NewEntries.

Inductive TreeDiffEntry :=
| DeletedBlob (old : BitIndexEntry)
| CreatedBlob (new : BitIndexEntry)
| ModifiedBlob (old new : BitIndexEntry)
| MaybeModifiedTree (entry : BitIndexEntry)
| UnmodifiedBlob (entry : BitIndexEntry)
| UnmodifiedTree (entries : TreeEntriesConsumer)
| DeletedTree (old_entries : TreeEntriesConsumer)
| CreatedTree (new_entries : TreeEntriesConsumer)
| BlobToTree (blob : BitIndexEntry) (tree : TreeEntriesConsumer)
| TreeToBlob (tree : TreeEntriesConsumer) (blob : BitIndexEntry).

(** ** TreeDiffIter *)

Record TreeDiffIter (R I J : Type) := mk_TreeDiffIter {
  td_repo : R; td_old : I; td_new : J; td_opts : DiffOpts }.
Arguments mk_TreeDiffIter {R I J}.
Arguments td_repo {R I J}.
Arguments td_old {R I J}.
Arguments td_new {R I J}.
Arguments td_opts {R I J}.

Section tree_diff.
Context {R I J : Type} `{BitTreeIterator I} `{BitTreeIterator J}.
(** [repo.index_mut()?.is_worktree_entry_modified(&mut new)?]: whether the entry has changed,
    and the entry with its hash filled in. *)
Context (is_worktree_entry_modified : BitIndexEntry → st R (bool * BitIndexEntry)).
Context (fuel : nat).

Abbreviation iter := (TreeDiffIter R I J).

Definition tree_diff_new (repo : R) (old : I) (new : J) (opts : DiffOpts) : BitResult iter :=
  _ ← assert_that (bool_decide (it_kind old ≠ KWorktree));
  Ok (mk_TreeDiffIter repo old new opts).

Definition on_old {A} (m : st I A) : st iter A :=
  st_zoom td_old (λ t i, mk_TreeDiffIter (td_repo t) i (td_new t) (td_opts t)) m.
Definition on_new {A} (m : st J A) : st iter A :=
  st_zoom td_new (λ t j, mk_TreeDiffIter (td_repo t) (td_old t) j (td_opts t)) m.
Definition on_repo {A} (m : st R A) : st iter A :=
  st_zoom td_repo (λ t r, mk_TreeDiffIter r (td_old t) (td_new t) (td_opts t)) m.

Definition on_created (new : BitIndexEntry) : st iter (option TreeDiffEntry) :=
  if entry_is_tree new then mret (Some (CreatedTree NewEntries))
  else _ ← on_new it_next; mret (Some (CreatedBlob new)).

Definition on_deleted (old : BitIndexEntry) : st iter (option TreeDiffEntry) :=
  if entry_is_tree old then mret (Some (DeletedTree OldEntries))
  else _ ← on_old it_next; mret (Some (DeletedBlob old)).

(** [has_changed] of two blobs with the same path, and the new entry. *)
Definition blob_has_changed (old new : BitIndexEntry) : st iter (bool * BitIndexEntry) :=
  t ← st_get;
  if bool_decide (it_kind (td_new t) = KWorktree) then on_repo (is_worktree_entry_modified new)
  else mret (bool_decide (ie_oid old ≠ ie_oid new), new).

(** The entries match: [None] goes on with the loop. *)
Definition on_matched (old new : BitIndexEntry) : st iter (option TreeDiffEntry) :=
  t ← st_get;
  match ie_mode old, ie_mode new with
  | GITLINK, _ | _, GITLINK => st_lift Panic
  | TREE, TREE =>
      if is_known (ie_oid old) && bool_decide (old = new) then
        if include_unmodified (td_opts t) then
          _ ← on_old it_over;
          mret (Some (UnmodifiedTree NewEntries))
        else _ ← on_old it_over; _ ← on_new it_over; mret None
      else
        _ ← on_old it_next; _ ← on_new it_next; mret (Some (MaybeModifiedTree new))
  | TREE, _ => _ ← on_new it_next; mret (Some (TreeToBlob OldEntries new))
  | _, TREE => _ ← on_old it_next; mret (Some (BlobToTree old NewEntries))
  | _, _ =>
      '(has_changed, new) ← blob_has_changed old new;
      _ ← on_old it_next;
      _ ← on_new it_next;
      mret (if has_changed : bool then Some (ModifiedBlob old new)
            else if include_unmodified (td_opts t) then Some (UnmodifiedBlob new) else None)
  end.

Fixpoint tree_diff_next (n : nat) : st iter (option TreeDiffEntry) :=
  match n with
  | O => st_lift Panic
  | S n =>
      old ← on_old it_peek;
      new ← on_new it_peek;
      match old, new with
      | None, None => mret None
      | None, Some new => on_created new
      | Some old, None => on_deleted old
      | Some old, Some new =>
          match diff_cmp old new with
          | Lt => on_deleted old
          | Gt => on_created new
          | Eq =>
              o ← on_matched old new;
              match o with Some e => mret (Some e) | None => tree_diff_next n end
          end
      end
  end.

(** [TreeDiffEntry::index_entry]. *)
Definition tree_diff_index_entry (e : TreeDiffEntry) : st iter BitIndexEntry :=
  match e with
  | DeletedBlob old => mret old
  | CreatedBlob new => mret new
  | ModifiedBlob _ new => mret new
  | MaybeModifiedTree entry => mret entry
  | UnmodifiedBlob entry => mret entry
  | TreeToBlob _ new => mret new
  | UnmodifiedTree c | DeletedTree c | CreatedTree c | BlobToTree _ c =>
      match c with OldEntries => on_old consumer_peek | NewEntries => on_new consumer_peek end
  end.
End tree_diff.

(** ** The trait [TreeDiffer]

    A method that takes a consumer runs on the differ and on the iterator that is borrowed. *)

Class TreeDiffer (D : Type) := {
  created_tree : ∀ U `{BitTreeIterator U}, st (D * U) unit;
  created_blob : BitIndexEntry → st D unit;
  deleted_tree : ∀ U `{BitTreeIterator U}, st (D * U) unit;
  deleted_blob : BitIndexEntry → st D unit;
  modified_blob : BitIndexEntry → BitIndexEntry → st D unit;
  tree_to_blob : ∀ U `{BitTreeIterator U}, BitIndexEntry → st (D * U) unit;
  blob_to_tree : ∀ U `{BitTreeIterator U}, BitIndexEntry → st (D * U) unit;
}.

Section run_diff.
Context {R I J D : Type} `{BitTreeIterator I} `{BitTreeIterator J} `{TreeDiffer D}.
Context (is_worktree_entry_modified : BitIndexEntry → st R (bool * BitIndexEntry)).
Context (fuel : nat).

Abbreviation iter := (TreeDiffIter R I J).

Definition on_differ {A} (m : st D A) : st (D * iter) A := st_zoom fst (λ s d, (d, snd s)) m.
Definition on_diff {A} (m : st iter A) : st (D * iter) A := st_zoom snd (λ s i, (fst s, i)) m.

(** Code on the differ and the borrowed iterator. *)
Definition with_consumer {A} (c : TreeEntriesConsumer)
    (m : ∀ U, BitTreeIterator U → st (D * U) A) : st (D * iter) A := λ s,
  let '(d, t) := s in
  match c with
  | OldEntries =>
      let '(r, (d, i)) := m I _ (d, td_old t) in
      (r, (d, mk_TreeDiffIter (td_repo t) i (td_new t) (td_opts t)))
  | NewEntries =>
      let '(r, (d, j)) := m J _ (d, td_new t) in
      (r, (d, mk_TreeDiffIter (td_repo t) (td_old t) j (td_opts t)))
  end.

(** The body of the loop of [run_diff]. *)
Definition diff_dispatch (e : TreeDiffEntry) : st (D * iter) unit :=
  match e with
  | DeletedBlob old => on_differ (deleted_blob old)
  | CreatedBlob new => on_differ (created_blob new)
  | ModifiedBlob old new => on_differ (modified_blob old new)
  | DeletedTree c => with_consumer c (λ U HU, deleted_tree U)
  | CreatedTree c => with_consumer c (λ U HU, created_tree U)
  | BlobToTree blob c => with_consumer c (λ U HU, blob_to_tree U blob)
  | TreeToBlob c blob => with_consumer c (λ U HU, tree_to_blob U blob)
  | MaybeModifiedTree _ => mret tt
  | UnmodifiedBlob _ | UnmodifiedTree _ => st_lift Panic
  end.

Fixpoint run_diff_loop (n : nat) : st (D * iter) unit :=
  match n with
  | O => st_lift Panic
  | S n =>
      o ← on_diff (tree_diff_next is_worktree_entry_modified fuel);
      match o with
      | Some e => _ ← diff_dispatch e; run_diff_loop n
      | None => mret tt
      end
  end.

(** [TreeDiffer::run_diff]: the differ and the repository afterwards. *)
Definition run_diff (d : D) (repo : R) (old : I) (new : J) (opts : DiffOpts) : BitResult (D * R) :=
  t ← tree_diff_new repo old new opts;
  match run_diff_loop fuel (d, t) with
  | (Ok _, (d, t)) => Ok (d, td_repo t)
  | (Err e, _) => Err e
  | (Panic, _) => Panic
  end.
End run_diff.

(** ** TreeStatusDiffer *)

(** The status that the differ holds. *)
Definition on_status {U A} (m : st WorkspaceStatus A) : st (WorkspaceStatus * U) A :=
  st_zoom fst (λ s d, (d, snd s)) m.
Definition on_borrowed {U A} (m : st U A) : st (WorkspaceStatus * U) A :=
  st_zoom snd (λ s u, (fst s, u)) m.
Definition st_modify {S} (f : S → S) : st S unit := λ s, (Ok tt, f s).

Definition tree_status_differ (fuel : nat) : TreeDiffer WorkspaceStatus := {|
  created_tree U _ :=
    status ← on_status st_get;
    '(_, new) ← on_borrowed (collect_over_files fuel (ws_new status));
    on_status (st_put (mk_WorkspaceStatus new (ws_modified status) (ws_deleted status)));
  created_blob new := st_modify (push_new [new]);
  deleted_tree U _ :=
    status ← on_status st_get;
    '(_, deleted) ← on_borrowed (collect_over_files fuel (ws_deleted status));
    on_status (st_put (mk_WorkspaceStatus (ws_new status) (ws_modified status) deleted));
  deleted_blob old := st_modify (push_deleted [old]);
  modified_blob old new := st_modify (push_modified [(old, new)]);
  tree_to_blob U _ new :=
    files ← on_borrowed (iter_files fuel);
    _ ← on_status (st_modify (push_deleted files));
    on_status (st_modify (push_new [new]));
  blob_to_tree U _ old :=
    _ ← on_status (st_modify (push_deleted [old]));
    files ← on_borrowed (iter_files fuel);
    on_status (st_modify (push_new files));
|}.

Section diffs.
Context {R I J : Type} `{BitTreeIterator I} `{BitTreeIterator J}.
Context (is_worktree_entry_modified : BitIndexEntry → st R (bool * BitIndexEntry)).
Context (fuel : nat).

(** [diff_iterators_with_opts]: the status and the repository afterwards. *)
Definition diff_iterators_with_opts (repo : R) (a : I) (b : J) (opts : DiffOpts)
    : BitResult (WorkspaceStatus * R) :=
  run_diff (H1 := tree_status_differ fuel) is_worktree_entry_modified fuel status_default repo a b opts.

Definition diff_iterators (repo : R) (a : I) (b : J) : BitResult (WorkspaceStatus * R) :=
  diff_iterators_with_opts repo a b diff_opts_default.

(** The consumer of an entry that is dropped without having been used. *)
Definition drop_entry (e : TreeDiffEntry) : st (TreeDiffIter R I J) unit :=
  match e with
  | UnmodifiedTree c | DeletedTree c | CreatedTree c | BlobToTree _ c | TreeToBlob c _ =>
      match c with OldEntries => on_old consumer_drop | NewEntries => on_new consumer_drop end
  | _ => mret tt
  end.

Fixpoint trees_are_diff_loop (n : nat) : st (TreeDiffIter R I J) bool :=
  match n with
  | O => st_lift Panic
  | S n =>
      o ← tree_diff_next is_worktree_entry_modified fuel;
      match o with
      | Some e =>
          _ ← drop_entry e;
          match e with
          | MaybeModifiedTree _ | UnmodifiedBlob _ | UnmodifiedTree _ => trees_are_diff_loop n
          | _ => mret true
          end
      | None => mret false
      end
  end.

Definition trees_are_diff (repo : R) (a : I) (b : J) : BitResult bool :=
  t ← tree_diff_new repo a b diff_opts_default;
  fst (trees_are_diff_loop fuel t).
End diffs.

(** [BitRepo::diff_tree_to_tree]: no worktree is involved, so the repository has no state. *)
Definition diff_tree_to_tree (treeish : Oid → BitResult (list TreeEntry)) (fuel : nat) (a b : Oid)
    : BitResult WorkspaceStatus :=
  fst <$> diff_iterators (H := tree_iter_iterator treeish) (H0 := tree_iter_iterator treeish)
            (λ e, st_lift Panic) fuel tt (tree_iter_new a) (tree_iter_new b).

(** ** What a diff contains

    The specification on the lists [O] and [N] that the two iterators yield: [chg] says whether
    two blobs at the same path differ, and [upd] is what the comparison makes of the new one. *)

Section spec.
Context (chg : BitIndexEntry → BitIndexEntry → bool) (upd : BitIndexEntry → BitIndexEntry → BitIndexEntry).

Definition find_blob (p : BitPath) (l : list BitIndexEntry) : option BitIndexEntry :=
  List.find (λ y, entry_is_blob y && bool_decide (ie_path y = p)) l.

Definition absent (p : BitPath) (l : list BitIndexEntry) : bool :=
  match find_blob p l with Some _ => false | None => true end.

(** The files at paths that are only in the other list. *)
Definition only_in (l other : list BitIndexEntry) : list BitIndexEntry :=
  List.filter (λ y, entry_is_blob y && absent (ie_path y) other) l.

Definition modified_pair (N : list BitIndexEntry) (x : BitIndexEntry)
    : option (BitIndexEntry * BitIndexEntry) :=
  if entry_is_blob x then
    match find_blob (ie_path x) N with
    | Some y => if chg x y then Some (x, upd x y) else None
    | None => None
    end
  else None.

Definition diff_spec (O N : list BitIndexEntry) : WorkspaceStatus :=
  mk_WorkspaceStatus (only_in N O) (omap (modified_pair N) O) (only_in O N).

Definition status_app (s t : WorkspaceStatus) : WorkspaceStatus :=
  mk_WorkspaceStatus (ws_new s ++ ws_new t) (ws_modified s ++ ws_modified t)
    (ws_deleted s ++ ws_deleted t).

Lemma find_blob_app p l1 l2 :
  find_blob p (l1 ++ l2) = match find_blob p l1 with Some y => Some y | None => find_blob p l2 end.
Proof. induction l1 as [|x l1 IH]; cbn; [done|]. by destruct (_ && _). Qed.

Lemma find_blob_None p l : find_blob p l = None ↔ ∀ y, y ∈ l → entry_is_blob y = true → ie_path y ≠ p.
Proof.
  unfold find_blob. split.
  - intros E y Hy%list_elem_of_In Hb Hp. apply (List.find_none _ _ E) in Hy.
    by rewrite Hb, bool_decide_true in Hy.
  - intros Hl. destruct (List.find _ l) as [y|] eqn:E; [|done].
    apply List.find_some in E as [Hy%list_elem_of_In [Hb Hp%bool_decide_eq_true]%andb_true_iff].
    by destruct (Hl y Hy Hb).
Qed.

Lemma find_blob_Some p l y :
  find_blob p l = Some y → y ∈ l ∧ entry_is_blob y = true ∧ ie_path y = p.
Proof.
  intros [Hy%list_elem_of_In [Hb Hp%bool_decide_eq_true]%andb_true_iff]%List.find_some. done.
Qed.

Definition disjoint_paths (l1 l2 : list BitIndexEntry) : Prop :=
  ∀ x y, x ∈ l1 → y ∈ l2 → ie_path x ≠ ie_path y.

Lemma only_in_app l1 l2 o1 o2 :
  disjoint_paths l1 o2 → disjoint_paths o1 l2 →
  only_in (l1 ++ l2) (o1 ++ o2) = only_in l1 o1 ++ only_in l2 o2.
Proof.
  intros H1 H2. unfold only_in. rewrite List.filter_app. f_equal; apply List.filter_ext_in;
    intros y Hy%list_elem_of_In; f_equal; unfold absent; rewrite find_blob_app.
  - assert (find_blob (ie_path y) o2 = None) as ->.
    { apply find_blob_None. intros z Hz _ E. by apply (H1 y z). }
    by destruct (find_blob (ie_path y) o1).
  - assert (find_blob (ie_path y) o1 = None) as ->; [|done].
    apply find_blob_None. intros z Hz _ E. by apply (H2 z y).
Qed.

Lemma omap_ext_in {A B} (f g : A → option B) (l : list A) : (∀ x, x ∈ l → f x = g x) → omap f l = omap g l.
Proof.
  induction l as [|x l IH]; intros Hl; [done|]. cbn. rewrite Hl by apply list_elem_of_here.
  rewrite IH; [done|]. intros y Hy. apply Hl. by right.
Qed.

Lemma bool_filter_none {A} (f : A → bool) l : (∀ x, x ∈ l → f x = false) → List.filter f l = [].
Proof.
  induction l as [|x l IH]; intros Hl; [done|]. cbn. rewrite Hl by apply list_elem_of_here.
  apply IH. intros y Hy. apply Hl. by right.
Qed.

Lemma omap_none {A B} (f : A → option B) (l : list A) : (∀ x, x ∈ l → f x = None) → omap f l = [].
Proof.
  induction l as [|x l IH]; intros Hl; [done|]. cbn. rewrite Hl by apply list_elem_of_here.
  apply IH. intros y Hy. apply Hl. by right.
Qed.

Lemma diff_spec_app O1 O2 N1 N2 :
  disjoint_paths O1 N2 → disjoint_paths O2 N1 →
  diff_spec (O1 ++ O2) (N1 ++ N2) = status_app (diff_spec O1 N1) (diff_spec O2 N2).
Proof.
  intros H1 H2. unfold diff_spec, status_app. cbn. f_equal.
  - apply only_in_app; intros x y Hx Hy E; [by apply (H2 y x)|by apply (H1 x y)].
  - rewrite omap_app. f_equal; apply omap_ext_in; intros x Hx; unfold modified_pair; case_match; try done;
      rewrite find_blob_app.
    + assert (find_blob (ie_path x) N2 = None) as ->; [|by destruct (find_blob _ N1)].
      apply find_blob_None. intros z Hz _ E. by apply (H1 x z).
    + assert (find_blob (ie_path x) N1 = None) as ->; [|done].
      apply find_blob_None. intros z Hz _ E. by apply (H2 x z).
  - apply only_in_app; [done|]. intros x y Hx Hy E. by apply (H2 y x).
Qed.

(** *** The lists that the theorems are about *)

(** Strictly increasing paths, files and trees only, every subtree in one run. *)
Definition diff_list (l : list BitIndexEntry) : Prop :=
  StronglySorted (λ a b, path_cmp (ie_path a) (ie_path b) = Lt) l
  ∧ Forall (λ e, ie_mode e ≠ GITLINK) l
  ∧ contiguous l.

(** What lies below a tree of [l] in the other list lies there below a tree with the same path. *)
Definition covered (l other : list BitIndexEntry) : Prop :=
  ∀ t q, t ∈ l → entry_is_tree t = true → q ∈ other →
    within (ie_path t) q = true → ie_path q ≠ ie_path t →
    ∃ t', t' ∈ other ∧ entry_is_tree t' = true ∧ ie_path t' = ie_path t.

(** A tree that both lists have, with a known oid, has the same files in both. *)
Definition same_trees (O N : list BitIndexEntry) : Prop :=
  ∀ t, t ∈ O → t ∈ N → entry_is_tree t = true → is_known (ie_oid t) = true →
    (∀ x, x ∈ O → entry_is_blob x = true → within (ie_path t) x = true →
       ∃ y, y ∈ N ∧ entry_is_blob y = true ∧ ie_path y = ie_path x ∧ chg x y = false)
    ∧ (∀ y, y ∈ N → entry_is_blob y = true → within (ie_path t) y = true →
       ∃ x, x ∈ O ∧ entry_is_blob x = true ∧ ie_path x = ie_path y).

Definition comparable (O N : list BitIndexEntry) : Prop :=
  diff_list O ∧ diff_list N ∧ covered O N ∧ covered N O ∧ same_trees O N.

Lemma diff_list_app l1 l2 : diff_list (l1 ++ l2) → diff_list l2.
Proof.
  intros (Hs & Hg & Hc). apply Forall_app in Hg as [_ Hg]. refine (conj _ (conj Hg _)); clear Hg.
  - clear Hc. induction l1; [assumption|]. inversion_clear Hs; auto.
  - clear Hs. induction l1; [assumption|]. destruct Hc; auto.
Qed.

Lemma covered_app l1 l2 o1 o2 :
  disjoint_paths o1 l2 → covered (l1 ++ l2) (o1 ++ o2) → covered l2 o2.
Proof.
  intros Hd Hc t q Ht Htt Hq Hw Hp.
  destruct (Hc t q) as (t' & Ht' & Htt' & Hp'); [apply elem_of_app; by right|done
    |apply elem_of_app; by right|done|done|].
  exists t'. split_and!; [|done|done]. apply elem_of_app in Ht' as [Ht'|]; [|done].
  by destruct (Hd t' t).
Qed.

Lemma comparable_app O1 O2 N1 N2 :
  disjoint_paths O1 N2 → disjoint_paths O2 N1 →
  comparable (O1 ++ O2) (N1 ++ N2) → comparable O2 N2.
Proof.
  intros H1 H2 (HO & HN & HC1 & HC2 & HS). refine (conj _ (conj _ (conj _ (conj _ _)))).
  - by eapply diff_list_app.
  - by eapply diff_list_app.
  - eapply covered_app; [|exact HC1]. intros x y Hx Hy E. by apply (H2 y x).
  - by eapply covered_app.
  - intros t Ht1 Ht2 Htt Hk.
    destruct (HS t) as [Ha Hb]; [by apply elem_of_app; right..|done|done|]. split.
    + intros x Hx Hbx Hw. destruct (Ha x) as (y & Hy & ? & Ep & ?); [by apply elem_of_app; right|done|done|].
      exists y. split_and!; try done. apply elem_of_app in Hy as [Hy|]; [|done]. by destruct (H2 x y).
    + intros y Hy Hby Hw. destruct (Hb y) as (x & Hx & ? & Ep); [by apply elem_of_app; right|done|done|].
      exists x. split_and!; try done. apply elem_of_app in Hx as [Hx|]; [|done]. by destruct (H1 x y).
Qed.

(** *** One round of the walk on the lists

    [None] at the end of both; otherwise the entry, if the round gives one, and the lists as the
    two iterators then stand, the tree of a consumer at the head of its list. *)
Definition created_event (y : BitIndexEntry) (O N : list BitIndexEntry) :=
  if entry_is_tree y then (Some (CreatedTree NewEntries), (O, N))
  else (Some (CreatedBlob y), (O, tail N)).

Definition deleted_event (x : BitIndexEntry) (O N : list BitIndexEntry) :=
  if entry_is_tree x then (Some (DeletedTree OldEntries), (O, N))
  else (Some (DeletedBlob x), (tail O, N)).

Definition matched_event (x y : BitIndexEntry) (O N : list BitIndexEntry)
    : option TreeDiffEntry * (list BitIndexEntry * list BitIndexEntry) :=
  if entry_is_tree x then
    if entry_is_tree y then
      if is_known (ie_oid x) && bool_decide (x = y) then (None, (over_list O, over_list N))
      else (Some (MaybeModifiedTree y), (tail O, tail N))
    else (Some (TreeToBlob OldEntries y), (O, tail N))
  else if entry_is_tree y then (Some (BlobToTree x NewEntries), (tail O, N))
  else (if chg x y then Some (ModifiedBlob x (upd x y)) else None, (tail O, tail N)).

Definition diff_event (O N : list BitIndexEntry)
    : option (option TreeDiffEntry * (list BitIndexEntry * list BitIndexEntry)) :=
  match O, N with
  | [], [] => None
  | [], y :: _ => Some (created_event y O N)
  | x :: _, [] => Some (deleted_event x O N)
  | x :: _, y :: _ =>
      Some match diff_cmp x y with
           | Lt => deleted_event x O N
           | Gt => created_event y O N
           | Eq => matched_event x y O N
           end
  end.

(** The lists when the consumer has been used up. *)
Definition after_event (e : option TreeDiffEntry) (O N : list BitIndexEntry)
    : list BitIndexEntry * list BitIndexEntry :=
  match e with
  | Some (DeletedTree _ | TreeToBlob _ _) => (over_list O, N)
  | Some (CreatedTree _ | BlobToTree _ _) => (O, over_list N)
  | _ => (O, N)
  end.

(** The files of the tree at the head. *)
Definition tree_files (l : list BitIndexEntry) : list BitIndexEntry :=
  match l with
  | [] => []
  | t :: l => List.filter entry_is_blob (take_within (ie_path t) l)
  end.

(** What the entry adds to a status. *)
Definition event_status (e : option TreeDiffEntry) (O N : list BitIndexEntry) : WorkspaceStatus :=
  match e with
  | Some (DeletedBlob x) => mk_WorkspaceStatus [] [] [x]
  | Some (CreatedBlob y) => mk_WorkspaceStatus [y] [] []
  | Some (ModifiedBlob x y) => mk_WorkspaceStatus [] [(x, y)] []
  | Some (DeletedTree _) => mk_WorkspaceStatus [] [] (tree_files O)
  | Some (CreatedTree _) => mk_WorkspaceStatus (tree_files N) [] []
  | Some (BlobToTree x _) => mk_WorkspaceStatus (tree_files N) [] [x]
  | Some (TreeToBlob _ y) => mk_WorkspaceStatus [y] [] (tree_files O)
  | _ => status_default
  end.

(** *** Every round accounts for what it consumes *)

(** The round [(e, (O1, N1))] on [O] and [N] took the prefixes [so] and [sn] away. *)
Lemma round_accounts O N so sn O' N' :
  O = so ++ O' → N = sn ++ N' → disjoint_paths so N' → disjoint_paths O' sn → comparable O N →
  comparable O' N' ∧ diff_spec O N = status_app (diff_spec so sn) (diff_spec O' N').
Proof.
  intros -> -> H1 H2 HC. split; [by eapply comparable_app|by apply diff_spec_app].
Qed.

Lemma path_lt_ne x y : path_cmp (ie_path x) (ie_path y) = Lt → ie_path x ≠ ie_path y.
Proof. intros H E. by rewrite E, (proj2 (proj1 (proj2 (path_cmp_total_order _ _ []))) eq_refl) in H. Qed.

Lemma diff_list_head_lt x l y :
  diff_list (x :: l) → y ∈ l → path_cmp (ie_path x) (ie_path y) = Lt.
Proof.
  intros [Hs _] Hy. inversion_clear Hs as [|?? _ Hx]. rewrite Forall_forall in Hx. by apply Hx.
Qed.

Lemma diff_list_lt_all x l p y :
  diff_list (x :: l) → path_cmp p (ie_path x) = Lt → y ∈ x :: l → path_cmp p (ie_path y) = Lt.
Proof.
  intros Hl Hp [->|Hy]%elem_of_cons; [done|].
  eapply (proj2 (proj2 (proj2 (path_cmp_total_order p (ie_path x) (ie_path y))))); [done|].
  by eapply diff_list_head_lt.
Qed.

Lemma disjoint_head l x y other :
  ie_path x = ie_path y → diff_list (y :: other) → l = [x] → disjoint_paths l other.
Proof.
  intros E Hd -> a b ->%list_elem_of_singleton Hb Eab. rewrite E in Eab.
  eapply path_lt_ne; [by eapply diff_list_head_lt|exact Eab].
Qed.

(** A subtree shares no path with a list that has neither its tree nor an entry at its path. *)
Lemma disjoint_subtree t l other all :
  covered (t :: l) all → entry_is_tree t = true →
  (∀ q, q ∈ other → q ∈ all ∧ ie_path q ≠ ie_path t) →
  (∀ q, q ∈ all → entry_is_tree q = true → ie_path q ≠ ie_path t) →
  disjoint_paths other (t :: take_within (ie_path t) l).
Proof.
  intros Hc Ht Hoth Hall q y Hq Hy E. apply elem_of_cons in Hy as [->|Hy]; [by apply (Hoth q)|].
  pose proof (take_within_Forall (ie_path t) l) as Hw. rewrite Forall_forall in Hw.
  specialize (Hw y Hy).
  destruct (Hc t q) as (t' & Ht' & Htt & Ep);
    [apply list_elem_of_here|done|by apply Hoth| |by apply Hoth|by apply (Hall t')].
  unfold within in *. by rewrite E.
Qed.

Lemma over_list_tree t l :
  entry_is_tree t = true → t :: l = (t :: take_within (ie_path t) l) ++ over_list (t :: l).
Proof. intros Ht. cbn. rewrite Ht. by rewrite take_drop_within. Qed.

Lemma files_of_tree t l : entry_is_tree t = true →
  List.filter entry_is_blob (t :: take_within (ie_path t) l) = tree_files (t :: l).
Proof.
  intros Ht. cbn. unfold entry_is_tree, entry_is_blob in *. by destruct (entry_mode t).
Qed.

Lemma only_in_nil l : only_in l [] = List.filter entry_is_blob l.
Proof. unfold only_in. apply List.filter_ext. intros x. cbn. by rewrite andb_true_r. Qed.

(** No file of the one list has the path of a file of the other. *)
Definition disjoint_files (l1 l2 : list BitIndexEntry) : Prop :=
  ∀ x y, x ∈ l1 → y ∈ l2 → entry_is_blob x = true → entry_is_blob y = true → ie_path x ≠ ie_path y.

Lemma only_in_disjoint l other :
  disjoint_files l other → only_in l other = List.filter entry_is_blob l.
Proof.
  intros Hd. unfold only_in. apply List.filter_ext_in. intros x Hx%list_elem_of_In.
  destruct (entry_is_blob x) eqn:Hb; [|done]. cbn. unfold absent.
  assert (find_blob (ie_path x) other = None) as ->; [|done].
  apply find_blob_None. intros y Hy Hby E. by apply (Hd x y).
Qed.

Lemma modified_disjoint O N : disjoint_files O N → omap (modified_pair N) O = [].
Proof.
  intros Hd. apply omap_none. intros x Hx. unfold modified_pair. destruct (entry_is_blob x) eqn:Hb; [|done].
  assert (find_blob (ie_path x) N = None) as ->; [|done].
  apply find_blob_None. intros y Hy Hby E. by apply (Hd x y).
Qed.

Lemma diff_spec_disjoint O N :
  disjoint_files O N →
  diff_spec O N = mk_WorkspaceStatus (List.filter entry_is_blob N) [] (List.filter entry_is_blob O).
Proof.
  intros Hd. assert (disjoint_files N O) as Hd' by (intros x y Hx Hy ?? E; by apply (Hd y x)).
  unfold diff_spec. by rewrite modified_disjoint, !only_in_disjoint by done.
Qed.

(** [e] with the lists [O1] and [N1] accounts for what it takes of [O] and [N]. *)
Definition accounts (O N : list BitIndexEntry) (e : option TreeDiffEntry)
    (O1 N1 : list BitIndexEntry) : Prop :=
  let '(O', N') := after_event e O1 N1 in
  comparable O' N'
  ∧ diff_spec O N = status_app (event_status e O1 N1) (diff_spec O' N')
  ∧ length O' + length N' < length O + length N.

Lemma accounts_round O N e O1 N1 so sn :
  let '(O', N') := after_event e O1 N1 in
  comparable O N → O = so ++ O' → N = sn ++ N' →
  disjoint_paths so N' → disjoint_paths O' sn → so ++ sn ≠ [] →
  diff_spec so sn = event_status e O1 N1 → accounts O N e O1 N1.
Proof.
  unfold accounts. destruct (after_event e O1 N1) as [O' N']. intros HC HO HN H1 H2 Hne Hst.
  destruct (round_accounts O N so sn O' N' HO HN H1 H2 HC) as [HC' Hs].
  split_and!; try apply HC'; [by rewrite <- Hst|]. subst O N. rewrite !length_app.
  enough (0 < length so + length sn) by lia. destruct so, sn; cbn; [done|lia..].
Qed.

Lemma disjoint_nil_l l : disjoint_paths [] l.
Proof. by intros x y []%elem_of_nil. Qed.
Lemma disjoint_nil_r l : disjoint_paths l [].
Proof. by intros x y _ []%elem_of_nil. Qed.
Lemma disjoint_sym l1 l2 : disjoint_paths l1 l2 → disjoint_paths l2 l1.
Proof. intros H x y Hx Hy E. by apply (H y x). Qed.

#[local] Hint Resolve disjoint_nil_l disjoint_nil_r : core.

Lemma created_accounts y O N e O1 N1 :
  comparable O (y :: N) → (∀ q, q ∈ O → path_cmp (ie_path y) (ie_path q) = Lt) →
  created_event y O (y :: N) = (e, (O1, N1)) → accounts O (y :: N) e O1 N1.
Proof.
  intros HC Hlt. pose proof HC as (_ & HN & _ & HC2 & _). unfold created_event.
  assert (∀ q, q ∈ O → ie_path q ≠ ie_path y) as Hne.
  { intros q Hq E. by apply (path_lt_ne y q); [apply Hlt|]. }
  destruct (entry_is_tree y) eqn:Ht; intros [= <- <- <-].
  - apply (accounts_round O (y :: N) (Some (CreatedTree NewEntries)) O (y :: N) []
      (y :: take_within (ie_path y) N)); auto; [by apply over_list_tree| |].
    + apply (disjoint_subtree y N O O); auto.
    + rewrite diff_spec_disjoint by by intros ?? []%elem_of_nil. cbn [event_status]. by rewrite files_of_tree.
  - apply (accounts_round O (y :: N) (Some (CreatedBlob y)) O N [] [y]); auto.
    + intros q z Hq ->%list_elem_of_singleton. auto.
    + rewrite diff_spec_disjoint by by intros ?? []%elem_of_nil. cbn. unfold entry_is_blob, entry_is_tree in *.
      destruct HN as (_ & Hg & _). apply Forall_inv in Hg. cbn in *. by destruct (ie_mode y).
Qed.

Lemma deleted_accounts x O N e O1 N1 :
  comparable (x :: O) N → (∀ q, q ∈ N → path_cmp (ie_path x) (ie_path q) = Lt) →
  deleted_event x (x :: O) N = (e, (O1, N1)) → accounts (x :: O) N e O1 N1.
Proof.
  intros HC Hlt. pose proof HC as (HO & _ & HC1 & _ & _). unfold deleted_event.
  assert (∀ q, q ∈ N → ie_path q ≠ ie_path x) as Hne.
  { intros q Hq E. by apply (path_lt_ne x q); [apply Hlt|]. }
  destruct (entry_is_tree x) eqn:Ht; intros [= <- <- <-].
  - apply (accounts_round (x :: O) N (Some (DeletedTree OldEntries)) (x :: O) N
      (x :: take_within (ie_path x) O) []); auto; [by apply over_list_tree| |].
    + apply disjoint_sym, (disjoint_subtree x O N N); auto.
    + rewrite diff_spec_disjoint by by intros ? ? ? []%elem_of_nil. cbn [event_status]. by rewrite files_of_tree.
  - apply (accounts_round (x :: O) N (Some (DeletedBlob x)) O N [x] []); auto.
    + intros z q ->%list_elem_of_singleton Hq E. by apply (Hne q).
    + rewrite diff_spec_disjoint by by intros ? ? ? []%elem_of_nil. cbn. unfold entry_is_blob, entry_is_tree in *.
      destruct HO as (_ & Hg & _). apply Forall_inv in Hg. cbn in *. by destruct (ie_mode x).
Qed.

Lemma diff_list_tail_ne x l q : diff_list (x :: l) → q ∈ l → ie_path q ≠ ie_path x.
Proof. intros Hd Hq E. by eapply path_lt_ne; [eapply diff_list_head_lt|]. Qed.

Lemma diff_list_inj l x y : diff_list l → x ∈ l → y ∈ l → ie_path x = ie_path y → x = y.
Proof.
  induction l as [|z l IH]; intros Hd Hx Hy E; [by apply elem_of_nil in Hx|].
  apply elem_of_cons in Hx as [->|Hx], Hy as [->|Hy]; [done|..].
  - by destruct (diff_list_tail_ne z l y Hd Hy).
  - by destruct (diff_list_tail_ne z l x Hd Hx).
  - apply IH; try done. by apply (diff_list_app [z]).
Qed.

Lemma drop_not_within t l q :
  diff_list (t :: l) → entry_is_tree t = true → q ∈ drop_within (ie_path t) l →
  within (ie_path t) q = false.
Proof.
  intros (_ & _ & Hc & _) Ht Hq. specialize (Hc Ht). rewrite Forall_forall in Hc. by apply Hc.
Qed.

Lemma elem_of_take_drop p l q : q ∈ l ↔ q ∈ take_within p l ∨ q ∈ drop_within p l.
Proof. rewrite <- (take_drop_within p l) at 1. apply elem_of_app. Qed.

Lemma blob_not_tree e : entry_is_blob e = true → entry_is_tree e = true → False.
Proof. unfold entry_is_blob, entry_is_tree. by destruct (entry_mode e). Qed.

(** Equal subtrees are disjoint from the rest of the other list. *)
Lemma disjoint_equal_subtrees x O y N :
  diff_list (y :: N) → entry_is_tree y = true → ie_path x = ie_path y →
  disjoint_paths (x :: take_within (ie_path x) O) (drop_within (ie_path y) N).
Proof.
  intros HN Ht E a b Ha Hb Eab. pose proof (drop_not_within y N b HN Ht Hb) as Hw.
  apply elem_of_cons in Ha as [->|Ha].
  - unfold within in Hw. rewrite <- Eab, E in Hw. pose proof (within_refl y). unfold within in *. congruence.
  - pose proof (take_within_Forall (ie_path x) O) as Hx. rewrite Forall_forall in Hx.
    specialize (Hx a Ha). unfold within in *. rewrite E, Eab in Hx. congruence.
Qed.

Lemma equal_trees_spec t O N :
  comparable (t :: O) (t :: N) → entry_is_tree t = true → is_known (ie_oid t) = true →
  diff_spec (t :: take_within (ie_path t) O) (t :: take_within (ie_path t) N) = status_default.
Proof.
  intros (HO & HN & _ & _ & Hsame) Ht Hk.
  destruct (Hsame t) as [Hx Hy]; [apply list_elem_of_here..|done|done|].
  pose proof (take_within_Forall (ie_path t) O) as HwO. rewrite Forall_forall in HwO.
  pose proof (take_within_Forall (ie_path t) N) as HwN. rewrite Forall_forall in HwN.
  assert (∀ l q, (∀ z, z ∈ take_within (ie_path t) l → within (ie_path t) z = true) →
    q ∈ t :: take_within (ie_path t) l → entry_is_blob q = true →
    q ∈ t :: l ∧ within (ie_path t) q = true) as Hmem.
  { intros l q Hl [->|Hq]%elem_of_cons Hb; [by destruct (blob_not_tree t)|].
    split; [|by apply Hl]. rewrite elem_of_cons, (elem_of_take_drop (ie_path t)). auto. }
  assert (∀ l q, diff_list (t :: l) → q ∈ t :: l → within (ie_path t) q = true →
    q ∈ t :: take_within (ie_path t) l) as Hback.
  { intros l q Hd Hq Hw. apply elem_of_cons in Hq as [->|Hq]; [apply list_elem_of_here|].
    apply (elem_of_take_drop (ie_path t)) in Hq as [Hq|Hq]; [by right|].
    by rewrite (drop_not_within t l q) in Hw. }
  unfold diff_spec, status_default. f_equal.
  - unfold only_in. apply bool_filter_none. intros q Hq. destruct (entry_is_blob q) eqn:Hb; [|done]. cbn.
    destruct (Hmem N q HwN Hq Hb) as [Hq' Hw]. destruct (Hy q Hq' Hb Hw) as (z & Hz & Hbz & E).
    unfold absent. destruct (find_blob (ie_path q) _) eqn:Ef; [done|].
    rewrite find_blob_None in Ef. exfalso. apply (Ef z); [|done|done].
    apply Hback; [done|done|]. unfold within in *. by rewrite E.
  - apply omap_none. intros q Hq.
    unfold modified_pair. destruct (entry_is_blob q) eqn:Hb; [|done].
    destruct (find_blob _ _) as [z|] eqn:Ef; [|done].
    apply find_blob_Some in Ef as (Hz & Hbz & E). destruct (Hmem O q HwO Hq Hb) as [Hq' Hw].
    destruct (Hmem N z HwN Hz Hbz) as [Hz' _].
    destruct (Hx q Hq' Hb Hw) as (z' & Hz2 & _ & E' & Hc).
    assert (z = z') as -> by (apply (diff_list_inj (t :: N)); [done|done|done|congruence]).
    by rewrite Hc.
  - unfold only_in. apply bool_filter_none. intros q Hq. destruct (entry_is_blob q) eqn:Hb; [|done]. cbn.
    destruct (Hmem O q HwO Hq Hb) as [Hq' Hw]. destruct (Hx q Hq' Hb Hw) as (z & Hz & Hbz & E & _).
    unfold absent. destruct (find_blob (ie_path q) _) eqn:Ef; [done|].
    rewrite find_blob_None in Ef. exfalso. apply (Ef z); [|done|done].
    apply Hback; [done|done|]. unfold within in *. by rewrite E.
Qed.

Lemma not_tree_blob e : ie_mode e ≠ GITLINK → entry_is_tree e = false → entry_is_blob e = true.
Proof. unfold entry_is_blob, entry_is_tree. cbn. by destruct (ie_mode e). Qed.

(** A tree against a file at the same path: no file of the one is a file of the other. *)
Lemma disjoint_tree_file t l y :
  diff_list (t :: l) → entry_is_tree t = true → ie_path y = ie_path t →
  disjoint_files (t :: take_within (ie_path t) l) [y].
Proof.
  intros Hd Ht E x z Hx ->%list_elem_of_singleton Hbx Hbz Exz.
  apply elem_of_cons in Hx as [->|Hx]; [by apply (blob_not_tree t)|].
  apply (diff_list_tail_ne t l x); [done| |congruence].
  apply (elem_of_take_drop (ie_path t)). by left.
Qed.

Lemma diff_spec_trees x y :
  entry_is_tree x = true → entry_is_tree y = true → diff_spec [x] [y] = status_default.
Proof.
  intros Hx Hy. rewrite diff_spec_disjoint; cbn [List.filter].
  - destruct (entry_is_blob x) eqn:Hbx; [by destruct (blob_not_tree x)|].
    by destruct (entry_is_blob y) eqn:Hby; [destruct (blob_not_tree y)|].
  - intros a b ->%list_elem_of_singleton _ Hb. by destruct (blob_not_tree x).
Qed.

Lemma diff_spec_files x y :
  entry_is_blob x = true → entry_is_blob y = true → ie_path x = ie_path y →
  diff_spec [x] [y]
  = if chg x y then mk_WorkspaceStatus [] [(x, upd x y)] [] else status_default.
Proof.
  intros Hx Hy E. unfold diff_spec, only_in, modified_pair, absent, find_blob.
  cbn [List.filter List.find omap list_omap].
  rewrite Hx, Hy, !bool_decide_true by done. cbn. by destruct (chg x y).
Qed.

Lemma matched_accounts x y O N e O1 N1 :
  comparable (x :: O) (y :: N) → ie_path x = ie_path y →
  matched_event x y (x :: O) (y :: N) = (e, (O1, N1)) → accounts (x :: O) (y :: N) e O1 N1.
Proof.
  intros HC E. pose proof HC as (HO & HN & HC1 & HC2 & _).
  pose proof (diff_list_tail_ne x O) as HneO. pose proof (diff_list_tail_ne y N) as HneN.
  assert (∀ l, [x] ++ l = x :: l ∧ [y] ++ l = y :: l) as Hcons by done.
  assert (disjoint_paths [x] N) as Hx.
  { intros a q ->%list_elem_of_singleton Hq Eq. apply (HneN q); [done|done|congruence]. }
  assert (disjoint_paths O [y]) as Hy.
  { intros q a Hq ->%list_elem_of_singleton Eq. apply (HneO q); [done|done|congruence]. }
  pose proof HO as (_ & Hgx%Forall_inv & _). pose proof HN as (_ & Hgy%Forall_inv & _).
  unfold matched_event. destruct (entry_is_tree x) eqn:Htx, (entry_is_tree y) eqn:Hty.
  - destruct (is_known (ie_oid x)) eqn:Hk; cbn [andb]; [case_bool_decide as Exy|].
    + subst y. intros [= <- <- <-].
      apply (accounts_round _ _ None _ _ (x :: take_within (ie_path x) O) (x :: take_within (ie_path x) N));
        [done|by apply over_list_tree|by apply over_list_tree| | |done|].
      * cbn. rewrite Htx. by apply disjoint_equal_subtrees.
      * apply disjoint_sym. cbn. rewrite Htx. by apply disjoint_equal_subtrees.
      * by apply equal_trees_spec.
    + intros [= <- <- <-]. apply (accounts_round _ _ (Some (MaybeModifiedTree y)) O N [x] [y]); try done.
      by apply diff_spec_trees.
    + intros [= <- <- <-]. apply (accounts_round _ _ (Some (MaybeModifiedTree y)) O N [x] [y]); try done.
      by apply diff_spec_trees.
  - intros [= <- <- <-]. pose proof (not_tree_blob y Hgy Hty) as Hby.
    apply (accounts_round _ _ (Some (TreeToBlob OldEntries y)) (x :: O) N
      (x :: take_within (ie_path x) O) [y]); [done|by apply over_list_tree|done| | |done|].
    + apply disjoint_sym, (disjoint_subtree x O N (y :: N)); [done|done| |].
      * intros q Hq. split; [by right|]. rewrite E. by apply HneN.
      * intros q [->|Hq]%elem_of_cons Ht; [congruence|]. rewrite E. by apply HneN.
    + intros q a Hq ->%list_elem_of_singleton. rewrite <- E. apply HneO; [done|].
      cbn in Hq. rewrite Htx in Hq. apply (elem_of_take_drop (ie_path x)). by right.
    + rewrite diff_spec_disjoint by by apply disjoint_tree_file.
      rewrite files_of_tree by done. cbn [List.filter]. by rewrite Hby.
  - intros [= <- <- <-]. pose proof (not_tree_blob x Hgx Htx) as Hbx.
    apply (accounts_round _ _ (Some (BlobToTree x NewEntries)) O (y :: N)
      [x] (y :: take_within (ie_path y) N)); [done|done|by apply over_list_tree| | |done|].
    + intros a q ->%list_elem_of_singleton Hq Eq. apply (HneN q); [done| |congruence].
      cbn in Hq. rewrite Hty in Hq. apply (elem_of_take_drop (ie_path y)). by right.
    + apply (disjoint_subtree y N O (x :: O)); [done|done| |].
      * intros q Hq. split; [by right|]. rewrite <- E. by apply HneO.
      * intros q [->|Hq]%elem_of_cons Ht; [congruence|]. rewrite <- E. by apply HneO.
    + rewrite diff_spec_disjoint.
      { rewrite files_of_tree by done. cbn [List.filter]. by rewrite Hbx. }
      intros a b Ha Hb ?? Eab. by apply (disjoint_tree_file y N x HN Hty E b a).
  - pose proof (not_tree_blob y Hgy Hty) as Hby. pose proof (not_tree_blob x Hgx Htx) as Hbx.
    destruct (chg x y) eqn:Hc; intros [= <- <- <-].
    + apply (accounts_round _ _ (Some (ModifiedBlob x (upd x y))) O N [x] [y]); try done.
      by rewrite diff_spec_files, Hc.
    + apply (accounts_round _ _ None O N [x] [y]); try done. by rewrite diff_spec_files, Hc.
Qed.

Lemma event_accounts O N e O1 N1 :
  comparable O N → diff_event O N = Some (e, (O1, N1)) → accounts O N e O1 N1.
Proof.
  intros HC. destruct O as [|x O], N as [|y N]; cbn [diff_event]; [done|..].
  - intros [= He]. apply (created_accounts y [] N); [done|by intros ? []%elem_of_nil|done].
  - intros [= He]. apply (deleted_accounts x O []); [done|by intros ? []%elem_of_nil|done].
  - pose proof HC as (HO & HN & _). destruct (path_cmp_total_order (ie_path x) (ie_path y) [])
      as (_ & Heq & Hanti & _).
    unfold diff_cmp. cbn [entry_path index_entry_is_entry].
    destruct (path_cmp (ie_path x) (ie_path y)) eqn:E; intros [= He].
    + apply (matched_accounts x y O N); [done|by apply Heq|done].
    + apply deleted_accounts; [done| |done]. intros q Hq. by eapply diff_list_lt_all.
    + apply created_accounts; [done| |done]. intros q Hq.
      apply (diff_list_lt_all x O); [done|by rewrite Hanti|done].
Qed.

Lemma diff_event_end O N : diff_event O N = None → O = [] ∧ N = [].
Proof. by destruct O, N. Qed.
End spec.

(** ** The iterators implement the walk *)

Section simulation.
Context {R I J : Type} `{TreeIterLaws I} `{TreeIterLaws J}.
Context (is_worktree_entry_modified : BitIndexEntry → st R (bool * BitIndexEntry)).
Context (chg : BitIndexEntry → BitIndexEntry → bool) (upd : BitIndexEntry → BitIndexEntry → BitIndexEntry).
Context (kind : IterKind).

(** What compares two blobs, by the kind of the new iterator. *)
Definition compare_blobs (x y : BitIndexEntry) : st R (bool * BitIndexEntry) :=
  if bool_decide (kind = KWorktree) then is_worktree_entry_modified y
  else mret (bool_decide (ie_oid x ≠ ie_oid y), y).

(** The states of the repository in which the entries [good] can be compared. *)
Context (inv : R → Prop) (good : BitIndexEntry → Prop).
Context (Hcompare : ∀ x y r, inv r → good y → entry_is_blob y = true →
  ∃ y' r', compare_blobs x y r = (Ok (chg x y, y'), r') ∧ inv r' ∧ (chg x y = true → y' = upd x y)).

Abbreviation iter := (TreeDiffIter R I J).

(** Whether unmodified entries are given. *)
Context (unmod : bool).

(** The differ stands at the lists [O] and [N]. *)
Record at_lists (t : iter) (O N : list BitIndexEntry) : Prop := {
  at_old : yields (td_old t) O;
  at_new : yields (td_new t) N;
  at_kind : it_kind (td_new t) = kind;
  at_inv : inv (td_repo t);
  at_good : Forall good N;
  at_opts : include_unmodified (td_opts t) = unmod;
}.

(** ... and the iterator that the entry's consumer borrows has been peeked. *)
Definition at_event (e : option TreeDiffEntry) (t : iter) (O N : list BitIndexEntry) : Prop :=
  at_lists t O N
  ∧ match e with
    | Some (DeletedTree _ | TreeToBlob _ _) => peeked (td_old t) O
    | Some (CreatedTree _ | BlobToTree _ _) => peeked (td_new t) N
    | _ => True
    end.

Lemma Forall_over_list {P} l : Forall P l → Forall P (over_list l).
Proof. destruct 1; cbn; [done|]. case_match; [by apply drop_within_Forall|done]. Qed.

Lemma Forall_tail {A} (P : A → Prop) l : Forall P l → Forall P (tail l).
Proof. by destruct 1. Qed.

Lemma old_peek t O N : at_lists t O N →
  ∃ t', on_old it_peek t = (Ok (head O), t') ∧ at_lists t' O N
    ∧ peeked (td_old t') O ∧ td_new t' = td_new t.
Proof.
  intros []. destruct (law_peek (td_old t) O) as (i & E & Hp & Hk); [done|].
  unfold on_old, st_zoom. rewrite E. eexists. split; [done|]. cbn.
  split; [by split; cbn; auto with bit|done].
Qed.

Lemma new_peek t O N : at_lists t O N →
  ∃ t', on_new it_peek t = (Ok (head N), t') ∧ at_lists t' O N
    ∧ peeked (td_new t') N ∧ td_old t' = td_old t.
Proof.
  intros []. destruct (law_peek (td_new t) N) as (i & E & Hp & Hk); [done|].
  unfold on_new, st_zoom. rewrite E. eexists. split; [done|]. cbn.
  split; [by split; cbn; auto with bit; congruence|done].
Qed.

Lemma old_next t O N : at_lists t O N →
  ∃ t', on_old it_next t = (Ok (head O), t') ∧ at_lists t' (tail O) N ∧ td_new t' = td_new t.
Proof.
  intros []. destruct (law_next (td_old t) O) as (i & E & Hp & Hk); [done|].
  unfold on_old, st_zoom. rewrite E. eexists. split; [done|]. by split.
Qed.

Lemma new_next t O N : at_lists t O N →
  ∃ t', on_new it_next t = (Ok (head N), t') ∧ at_lists t' O (tail N) ∧ td_old t' = td_old t.
Proof.
  intros []. destruct (law_next (td_new t) N) as (i & E & Hp & Hk); [done|].
  unfold on_new, st_zoom. rewrite E. eexists. split; [done|].
  split; [|done]. split; cbn; try done; [congruence|by apply Forall_tail].
Qed.

Lemma old_over t O N : at_lists t O N → peeked (td_old t) O → at_tree O →
  ∃ t', on_old it_over t = (Ok (head O), t') ∧ at_lists t' (over_list O) N ∧ td_new t' = td_new t.
Proof.
  intros [] Hp Ht. destruct (law_over (td_old t) O Hp Ht) as (i & E & Hy & Hk).
  unfold on_old, st_zoom. rewrite E. eexists. split; [done|]. by split.
Qed.

Lemma new_over t O N : at_lists t O N → peeked (td_new t) N → at_tree N →
  ∃ t', on_new it_over t = (Ok (head N), t') ∧ at_lists t' O (over_list N) ∧ td_old t' = td_old t.
Proof.
  intros [] Hp Ht. destruct (law_over (td_new t) N Hp Ht) as (i & E & Hy & Hk).
  unfold on_new, st_zoom. rewrite E. eexists. split; [done|].
  split; [|done]. split; cbn; try done; [congruence|by apply Forall_over_list].
Qed.

Lemma on_created_spec y t O N e O1 N1 :
  at_lists t O (y :: N) → peeked (td_new t) (y :: N) →
  created_event y O (y :: N) = (e, (O1, N1)) →
  ∃ t', on_created y t = (Ok e, t') ∧ at_event e t' O1 N1 ∧ e ≠ None.
Proof.
  intros Ha Hp. unfold created_event, on_created. destruct (entry_is_tree y); intros [= <- <- <-].
  - by exists t.
  - destruct (new_next t _ _ Ha) as (t' & E & Ha' & _). exists t'.
    by rewrite (st_bind_ok _ _ _ _ _ E).
Qed.

Lemma on_deleted_spec x t O N e O1 N1 :
  at_lists t (x :: O) N → peeked (td_old t) (x :: O) →
  deleted_event x (x :: O) N = (e, (O1, N1)) →
  ∃ t', on_deleted x t = (Ok e, t') ∧ at_event e t' O1 N1 ∧ e ≠ None.
Proof.
  intros Ha Hp. unfold deleted_event, on_deleted. destruct (entry_is_tree x); intros [= <- <- <-].
  - by exists t.
  - destruct (old_next t _ _ Ha) as (t' & E & Ha' & _). exists t'.
    by rewrite (st_bind_ok _ _ _ _ _ E).
Qed.

Lemma blob_has_changed_spec x y t O N :
  at_lists t O N → good y → entry_is_blob y = true →
  ∃ y' t', blob_has_changed is_worktree_entry_modified x y t = (Ok (chg x y, y'), t')
    ∧ at_lists t' O N ∧ (chg x y = true → y' = upd x y).
Proof.
  intros [] Hy Hb. destruct (Hcompare x y (td_repo t) at_inv0 Hy Hb) as (y' & r & E & Hr & Hu). exists y'.
  unfold blob_has_changed, compare_blobs in *. rewrite (st_bind_ok _ _ t t t) by done.
  rewrite at_kind0. case_bool_decide.
  - unfold on_repo, st_zoom. rewrite E. eexists. split; [done|]. split; [by split|done].
  - unfold mret, st_ret in *. injection E as E1 E2 <-. exists t. rewrite E1, <- E2 in *.
    split; [done|]. split; [by split|done].
Qed.

Lemma on_matched_modes x y (t : iter) :
  ie_mode x ≠ GITLINK → ie_mode y ≠ GITLINK →
  on_matched is_worktree_entry_modified x y t
  = (if entry_is_tree x then
       if entry_is_tree y then
         if is_known (ie_oid x) && bool_decide (x = y) then
           if include_unmodified (td_opts t) then
             _ ← on_old it_over; mret (Some (UnmodifiedTree NewEntries))
           else _ ← on_old it_over; _ ← on_new it_over; mret None
         else _ ← on_old it_next; _ ← on_new it_next; mret (Some (MaybeModifiedTree y))
       else _ ← on_new it_next; mret (Some (TreeToBlob OldEntries y))
     else if entry_is_tree y then _ ← on_old it_next; mret (Some (BlobToTree x NewEntries))
     else
       '(has_changed, y) ← blob_has_changed is_worktree_entry_modified x y;
       _ ← on_old it_next; _ ← on_new it_next;
       mret (if has_changed : bool then Some (ModifiedBlob x y)
             else if include_unmodified (td_opts t) then Some (UnmodifiedBlob y) else None)
     : st iter (option TreeDiffEntry)) t.
Proof.
  intros Hx Hy. unfold on_matched, entry_is_tree. rewrite (st_bind_ok _ _ t t t) by done. cbn.
  by destruct (ie_mode x), (ie_mode y).
Qed.

Lemma on_matched_spec x y t O N e O1 N1 :
  at_lists t (x :: O) (y :: N) → peeked (td_old t) (x :: O) → peeked (td_new t) (y :: N) →
  unmod = false → ie_mode x ≠ GITLINK → ie_mode y ≠ GITLINK →
  matched_event chg upd x y (x :: O) (y :: N) = (e, (O1, N1)) →
  ∃ t', on_matched is_worktree_entry_modified x y t = (Ok e, t') ∧ at_event e t' O1 N1.
Proof.
  intros Ha Hpo Hpn Hun Hx Hy. rewrite on_matched_modes, (at_opts _ _ _ Ha), Hun by done.
  unfold matched_event. destruct (entry_is_tree x) eqn:Htx, (entry_is_tree y) eqn:Hty.
  - destruct (_ && _); intros [= <- <- <-].
    + destruct (old_over t _ _ Ha Hpo Htx) as (t1 & E1 & Ha1 & En). rewrite (st_bind_ok _ _ _ _ _ E1).
      destruct (new_over t1 _ _ Ha1) as (t2 & E2 & Ha2 & _); [by rewrite En|done|].
      exists t2. rewrite (st_bind_ok _ _ _ _ _ E2). split; [done|]. by split.
    + destruct (old_next t _ _ Ha) as (t1 & E1 & Ha1 & _). rewrite (st_bind_ok _ _ _ _ _ E1).
      destruct (new_next t1 _ _ Ha1) as (t2 & E2 & Ha2 & _).
      exists t2. by rewrite (st_bind_ok _ _ _ _ _ E2).
  - intros [= <- <- <-]. destruct (new_next t _ _ Ha) as (t1 & E1 & Ha1 & Eo). exists t1.
    rewrite (st_bind_ok _ _ _ _ _ E1). split; [done|]. split; [done|]. by rewrite Eo.
  - intros [= <- <- <-]. destruct (old_next t _ _ Ha) as (t1 & E1 & Ha1 & En). exists t1.
    rewrite (st_bind_ok _ _ _ _ _ E1). split; [done|]. split; [done|]. by rewrite En.
  - pose proof (Forall_inv (at_good _ _ _ Ha)) as Hg.
    destruct (blob_has_changed_spec x y t _ _ Ha Hg (not_tree_blob y Hy Hty)) as (y' & t0 & E0 & Ha0 & Hu).
    rewrite (st_bind_ok _ _ _ _ _ E0).
    destruct (old_next t0 _ _ Ha0) as (t1 & E1 & Ha1 & _). rewrite (st_bind_ok _ _ _ _ _ E1).
    destruct (new_next t1 _ _ Ha1) as (t2 & E2 & Ha2 & _). rewrite (st_bind_ok _ _ _ _ _ E2).
    destruct (chg x y); [rewrite Hu by done|]; intros [= <- <- <-]; by exists t2.
Qed.

(** The rounds up to the next entry, or to the end. *)
Inductive next_event :
    list BitIndexEntry → list BitIndexEntry → option TreeDiffEntry →
    list BitIndexEntry → list BitIndexEntry → Prop :=
| next_end : next_event [] [] None [] []
| next_entry O N e O1 N1 :
    diff_event chg upd O N = Some (Some e, (O1, N1)) → next_event O N (Some e) O1 N1
| next_skip O N O1 N1 e O2 N2 :
    diff_event chg upd O N = Some (None, (O1, N1)) → next_event O1 N1 e O2 N2 →
    next_event O N e O2 N2.

Lemma comparable_modes O N x y l m :
  comparable chg O N → O = x :: l → N = y :: m → ie_mode x ≠ GITLINK ∧ ie_mode y ≠ GITLINK.
Proof. intros ((_ & Hx & _) & (_ & Hy & _) & _) -> ->. split; [by inversion Hx|by inversion Hy]. Qed.

(** One round of the loop. *)
Lemma tree_diff_round n t O N :
  unmod = false → at_lists t O N → comparable chg O N →
  match diff_event chg upd O N with
  | None => ∃ t', tree_diff_next is_worktree_entry_modified (S n) t = (Ok None, t') ∧ at_lists t' O N
  | Some (e, (O1, N1)) => ∃ t', at_event e t' O1 N1
      ∧ tree_diff_next is_worktree_entry_modified (S n) t
        = match e with
          | Some e => (Ok (Some e), t')
          | None => tree_diff_next is_worktree_entry_modified n t'
          end
  end.
Proof.
  intros Hun Ha HC. cbn [tree_diff_next].
  destruct (old_peek t _ _ Ha) as (t1 & E1 & Ha1 & Hp1 & _). rewrite (st_bind_ok _ _ _ _ _ E1).
  destruct (new_peek t1 _ _ Ha1) as (t2 & E2 & Ha2 & Hp2 & Eo). rewrite (st_bind_ok _ _ _ _ _ E2).
  rewrite <- Eo in Hp1. destruct O as [|x O], N as [|y N]; cbn [head diff_event].
  - by exists t2.
  - destruct (created_event y [] (y :: N)) as [e [O1 N1]] eqn:E.
    destruct (on_created_spec y t2 _ _ _ _ _ Ha2 Hp2 E) as (t3 & E3 & Ha3 & He).
    exists t3. split; [done|]. by destruct e.
  - destruct (deleted_event x (x :: O) []) as [e [O1 N1]] eqn:E.
    destruct (on_deleted_spec x t2 _ _ _ _ _ Ha2 Hp1 E) as (t3 & E3 & Ha3 & He).
    exists t3. split; [done|]. by destruct e.
  - destruct (comparable_modes _ _ x y O N HC eq_refl eq_refl) as [Hx Hy].
    destruct (diff_cmp x y).
    + destruct (matched_event _ _ x y (x :: O) (y :: N)) as [e [O1 N1]] eqn:E.
      destruct (on_matched_spec x y t2 _ _ _ _ _ Ha2 Hp1 Hp2 Hun Hx Hy E) as (t3 & E3 & Ha3).
      exists t3. split; [done|]. rewrite (st_bind_ok _ _ _ _ _ E3). by destruct e.
    + destruct (deleted_event x (x :: O) (y :: N)) as [e [O1 N1]] eqn:E.
      destruct (on_deleted_spec x t2 _ _ _ _ _ Ha2 Hp1 E) as (t3 & E3 & Ha3 & He).
      exists t3. split; [done|]. by destruct e.
    + destruct (created_event y (x :: O) (y :: N)) as [e [O1 N1]] eqn:E.
      destruct (on_created_spec y t2 _ _ _ _ _ Ha2 Hp2 E) as (t3 & E3 & Ha3 & He).
      exists t3. split; [done|]. by destruct e.
Qed.

Lemma tree_diff_next_spec n t O N :
  unmod = false → at_lists t O N → comparable chg O N → length O + length N < n →
  ∃ e O1 N1 t', next_event O N e O1 N1 ∧ at_event e t' O1 N1
    ∧ tree_diff_next is_worktree_entry_modified n t = (Ok e, t').
Proof.
  intros Hun. revert t O N. induction n as [|n IH]; intros t O N Ha HC Hn; [lia|].
  pose proof (tree_diff_round n t O N Hun Ha HC) as Hr.
  destruct (diff_event chg upd O N) as [[[e|] [O1 N1]]|] eqn:E.
  - destruct Hr as (t' & Ha' & Er). exists (Some e), O1, N1, t'. split_and!; [|done|done].
    by apply next_entry.
  - destruct Hr as (t' & [Ha' _] & Er).
    pose proof (event_accounts chg upd O N None O1 N1 HC E) as (HC' & _ & Hlen).
    destruct (IH t' O1 N1 Ha' HC') as (e & O2 & N2 & t2 & Hne & Ha2 & E2); [lia|].
    exists e, O2, N2, t2. split_and!; [by apply (next_skip O N O1 N1)|done|]. by rewrite Er, E2.
  - destruct Hr as (t' & Er & Ha'). destruct (diff_event_end _ _ _ _ E) as [-> ->].
    exists None, [], [], t'. split; [apply next_end|]. by split.
Qed.

(** What the rounds to the next entry account for. *)
Lemma next_event_accounts O N e O1 N1 :
  next_event O N e O1 N1 → comparable chg O N →
  match e with
  | Some e =>
      let '(O', N') := after_event (Some e) O1 N1 in
      comparable chg O' N' ∧ length O' + length N' < length O + length N
      ∧ diff_spec chg upd O N = status_app (event_status (Some e) O1 N1) (diff_spec chg upd O' N')
  | None => diff_spec chg upd O N = status_default
  end.
Proof.
  induction 1 as [|O N e O1 N1 E|O N O1 N1 e O2 N2 E Hne IH]; intros HC.
  - done.
  - pose proof (event_accounts chg upd O N (Some e) O1 N1 HC E) as Hacc. unfold accounts in Hacc.
    destruct (after_event (Some e) O1 N1). naive_solver.
  - pose proof (event_accounts chg upd O N None O1 N1 HC E) as (HC' & Hs & Hlen).
    specialize (IH HC'). assert (diff_spec chg upd O N = diff_spec chg upd O1 N1) as ->.
    { rewrite Hs. by destruct (diff_spec chg upd O1 N1). }
    destruct e as [e|]; [|done]. destruct (after_event (Some e) O2 N2).
    destruct IH as (? & ? & ?). split_and!; [done|lia|done].
Qed.
End simulation.

(** ** Consumers *)

Lemma contiguous_prefix l1 l2 : contiguous (l1 ++ l2) → contiguous l1.
Proof.
  induction l1 as [|x l1 IH]; cbn; [done|]. intros [Hx Hl]. split; [|by apply IH]. intros Ht.
  specialize (Hx Ht). clear - Hx. induction l1 as [|y l1 IH]; cbn in *; [done|].
  case_match; [by apply IH|]. by apply (Forall_app _ (y :: l1)) in Hx as [Hx _].
Qed.

Lemma contiguous_subtree t l : contiguous (t :: l) → contiguous (t :: take_within (ie_path t) l).
Proof.
  intros Hc. apply (contiguous_prefix _ (drop_within (ie_path t) l)). cbn [app].
  by rewrite take_drop_within.
Qed.

Section consumer_spec.
Context {S} `{TreeIterLaws S}.
Context (fuel : nat).

Lemma collect_over_files_spec acc (s : S) t l :
  yields s (t :: l) → length l < fuel →
  ∃ s', collect_over_files fuel acc s = (Ok (t, acc ++ tree_files (t :: l)), s')
    ∧ yields s' (drop_within (ie_path t) l) ∧ it_kind s' = it_kind s.
Proof. apply collect_over_tree_filtered_spec. Qed.

Lemma consumer_drop_spec (s : S) l :
  peeked s l → at_tree l → ∃ s', consumer_drop s = (Ok tt, s') ∧ yields s' (over_list l) ∧ it_kind s' = it_kind s.
Proof.
  intros Hp Ht. destruct (law_over s l Hp Ht) as (s' & E & Hy & Hk). exists s'.
  unfold consumer_drop, expect_ok, st_match. by rewrite (st_bind_ok _ _ s s' (head l)) by by rewrite E.
Qed.

(** The iterator over a subtree, when it is dropped with [u] left. *)
Lemma subtree_drop_spec te r (s : S) u :
  cs_yields te r (mk_CollectSubtree te s) u → length u < fuel →
  ∃ s', expect_ok (on_subtree te (iter_collect fuel [])) s = (Ok u, s') ∧ yields s' r
    ∧ it_kind s' = it_kind s.
Proof.
  intros Hy Hf.
  destruct (iter_collect_spec (H0 := collect_subtree_laws te r) fuel []
    (mk_CollectSubtree te s) u Hy Hf) as (c & E & [Hy' _] & Hk).
  exists (cs_iter c). unfold expect_ok, st_match, on_subtree. by rewrite E.
Qed.

Lemma collect_over_tree_iter_spec (s : S) t l :
  yields s (t :: l) → entry_is_tree t = true →
  ∃ s', collect_over_tree_iter s = (Ok (tree_entry_from_index_entry t), s')
    ∧ yields s' (t :: l) ∧ it_kind s' = it_kind s
    ∧ cs_yields (tree_entry_from_index_entry t) (drop_within (ie_path t) l)
        (mk_CollectSubtree (tree_entry_from_index_entry t) s') (t :: take_within (ie_path t) l).
Proof.
  intros Hy Ht. destruct (law_peek s _ Hy) as (s1 & E1 & Hp1 & Hk1). exists s1.
  unfold collect_over_tree_iter. rewrite (st_bind_ok _ _ _ _ _ (expect_ok_ok _ _ _ _ E1)). cbn [head unwrap].
  rewrite (st_bind_ok _ _ s1 s1 t) by done. unfold entry_is_tree in Ht. cbn in Ht.
  rewrite bool_decide_true by by destruct (ie_mode t). 
  split; [done|]. split; [auto with bit|]. split; [done|]. split.
  - cbn. rewrite take_drop_within. auto with bit.
  - split; [done|]. split; [|apply drop_within_outside].
    constructor; [apply within_refl|apply take_within_Forall].
Qed.

(** [iter_files] meets the files of the tree and leaves the iterator behind it. *)
Lemma iter_files_spec (s : S) t l :
  yields s (t :: l) → entry_is_tree t = true → contiguous (t :: l) → length (t :: l) < fuel →
  ∃ s', iter_files fuel s = (Ok (tree_files (t :: l)), s')
    ∧ yields s' (drop_within (ie_path t) l) ∧ it_kind s' = it_kind s.
Proof.
  intros Hy Ht Hc Hf. set (te := tree_entry_from_index_entry t).
  set (r := drop_within (ie_path t) l). set (u := t :: take_within (ie_path t) l).
  destruct (collect_over_tree_iter_spec s t l Hy Ht) as (s1 & E1 & _ & Hk1 & Hcs).
  unfold iter_files, with_subtree. rewrite (st_bind_ok _ _ _ _ _ E1). fold te r u in Hcs |- *.
  assert (length u < fuel) as Hu.
  { unfold u. cbn in Hf |- *. rewrite <- (take_drop_within (ie_path t) l), length_app in Hf. lia. }
  set (c1 := mk_Filter (mk_CollectSubtree te s1) entry_is_blob).
  assert (filter_yields (H0 := collect_subtree_laws te r) fuel c1 (List.filter entry_is_blob u)) as Hfy.
  { exists u. split; [exact Hcs|]. split_and!; [done|done|by apply contiguous_subtree]. }
  assert (length (List.filter entry_is_blob u) < fuel) as Hfu.
  { pose proof (List.filter_length_le entry_is_blob u). lia. }
  destruct (iter_collect_spec (H0 := filter_laws (H0 := collect_subtree_laws te r) fuel)
    fuel [] c1 _ Hfy Hfu) as (f2 & E2 & (u2 & Hy2 & _ & Hl2 & _) & Hk2).
  rewrite app_nil_l in E2.
  destruct f2 as [[te2 s2] f]. cbn in Hy2, Hk2. pose proof Hy2 as (_ & Hte & _). cbn in Hte. subst te2.
  rewrite (st_bind_ok _ _ s1 s2 (List.filter entry_is_blob u)).
  2: { unfold on_subtree. fold c1. rewrite E2. done. }
  destruct (subtree_drop_spec te r s2 u2 Hy2 Hl2) as (s3 & E3 & Hy3 & Hk3).
  rewrite (st_bind_ok _ _ _ _ _ E3). exists s3. unfold mret, st_ret.
  rewrite <- files_of_tree by done. split_and!; [done|done|congruence].
Qed.
End consumer_spec.

(** ** Running a diff *)

(** An entry's consumer borrows an iterator that stands at a tree. *)
Definition event_ok (e : TreeDiffEntry) (O N : list BitIndexEntry) : Prop :=
  match e with
  | DeletedTree c | TreeToBlob c _ => c = OldEntries ∧ ∃ t l, O = t :: l ∧ entry_is_tree t = true
  | CreatedTree c | BlobToTree _ c => c = NewEntries ∧ ∃ t l, N = t :: l ∧ entry_is_tree t = true
  | UnmodifiedTree _ | UnmodifiedBlob _ => False
  | _ => True
  end.

Lemma diff_event_ok chg upd O N e O1 N1 :
  diff_event chg upd O N = Some (Some e, (O1, N1)) → event_ok e O1 N1.
Proof.
  unfold diff_event, created_event, deleted_event, matched_event.
  destruct O as [|x O], N as [|y N]; [done|..];
    repeat (case_match; simplify_eq/=; try done); naive_solver.
Qed.

Lemma next_event_ok chg upd O N e O1 N1 :
  next_event chg upd O N (Some e) O1 N1 → event_ok e O1 N1.
Proof.
  intros Hne. remember (Some e) as o eqn:Eo. induction Hne as [| |? ? ? ? ? ? ? ? _ IH]; [done| |by apply IH].
  simplify_eq. by eapply diff_event_ok.
Qed.

(** One step of an iterator. *)
Definition step_of (l l' : list BitIndexEntry) : Prop := l' = l ∨ l' = tail l ∨ l' = over_list l.

Lemma step_of_parts l l' :
  step_of l l' → (contiguous l → contiguous l') ∧ length l' ≤ length l.
Proof.
  intros [->|[->| ->]]; split; try done.
  - destruct l; cbn; naive_solver.
  - destruct l; cbn; lia.
  - apply contiguous_over_list.
  - destruct l as [|x l]; cbn; [done|]. pose proof (length_drop_within (ie_path x) l). case_match; lia.
Qed.

Lemma diff_event_steps chg upd O N e O1 N1 :
  diff_event chg upd O N = Some (e, (O1, N1)) → step_of O O1 ∧ step_of N N1.
Proof.
  unfold diff_event, created_event, deleted_event, matched_event, step_of.
  destruct O as [|x O], N as [|y N]; [done|..];
    repeat (case_match; try done); intros; simplify_eq; auto.
Qed.

(** The lists at the entry are parts of those at the start of the rounds. *)
Lemma diff_event_parts chg upd O N e O1 N1 :
  diff_event chg upd O N = Some (e, (O1, N1)) →
  (contiguous O → contiguous O1) ∧ (contiguous N → contiguous N1)
  ∧ length O1 ≤ length O ∧ length N1 ≤ length N.
Proof.
  intros [HO%step_of_parts HN%step_of_parts]%diff_event_steps. naive_solver.
Qed.

Lemma next_event_parts chg upd O N e O1 N1 :
  next_event chg upd O N e O1 N1 →
  (contiguous O → contiguous O1) ∧ (contiguous N → contiguous N1)
  ∧ length O1 ≤ length O ∧ length N1 ≤ length N.
Proof.
  induction 1 as [|O N e O1 N1 E|O N O1 N1 e O2 N2 E Hne IH]; [done|by eapply diff_event_parts|].
  apply diff_event_parts in E as (? & ? & ? & ?). destruct IH as (? & ? & ? & ?). split_and!; auto; lia.
Qed.

Section status_diff.
Context {R I J : Type} `{TreeIterLaws I} `{TreeIterLaws J}.
Context (is_worktree_entry_modified : BitIndexEntry → st R (bool * BitIndexEntry)).
Context (chg : BitIndexEntry → BitIndexEntry → bool) (upd : BitIndexEntry → BitIndexEntry → BitIndexEntry).
Context (kind : IterKind) (inv : R → Prop) (good : BitIndexEntry → Prop).
Context (Hcompare : ∀ x y r, inv r → good y → entry_is_blob y = true →
  ∃ y' r', compare_blobs is_worktree_entry_modified kind x y r = (Ok (chg x y, y'), r') ∧ inv r'
    ∧ (chg x y = true → y' = upd x y)).
Context (fuel : nat).

#[local] Instance the_differ : TreeDiffer WorkspaceStatus := tree_status_differ fuel.
Abbreviation iter := (TreeDiffIter R I J).
Abbreviation at_lists := (at_lists (R := R) (I := I) (J := J) kind inv good false).
Abbreviation at_event := (at_event (R := R) (I := I) (J := J) kind inv good false).

(** A method that runs on a borrowed iterator. *)
Lemma with_old_spec (m : ∀ U, BitTreeIterator U → st (WorkspaceStatus * U) unit) d d' (t : iter) O O' N :
  at_lists t O N →
  (∃ i, m I _ (d, td_old t) = (Ok tt, (d', i)) ∧ yields i O') →
  ∃ t', with_consumer OldEntries m (d, t) = (Ok tt, (d', t')) ∧ at_lists t' O' N.
Proof.
  intros [] (i & E & Hy). unfold with_consumer. rewrite E. eexists. split; [done|]. by split.
Qed.

Lemma with_new_spec (m : ∀ U, BitTreeIterator U → st (WorkspaceStatus * U) unit) d d' (t : iter) O N N' :
  at_lists t O N → Forall good N' →
  (∃ j, m J _ (d, td_new t) = (Ok tt, (d', j)) ∧ yields j N' ∧ it_kind j = it_kind (td_new t)) →
  ∃ t', with_consumer NewEntries m (d, t) = (Ok tt, (d', t')) ∧ at_lists t' O N'.
Proof.
  intros [] Hg (j & E & Hy & Hk). unfold with_consumer. rewrite E. eexists. split; [done|].
  split; cbn; try done. congruence.
Qed.

Section methods.
Context {U} `{TreeIterLaws U}.

Lemma borrowed_spec {A} (m : st U A) (d : WorkspaceStatus) u a u' :
  m u = (Ok a, u') → on_borrowed m (d, u) = (Ok a, (d, u')).
Proof. intros E. unfold on_borrowed, st_zoom. cbn. by rewrite E. Qed.

Lemma status_append s t : mk_WorkspaceStatus (ws_new s ++ ws_new t) (ws_modified s ++ ws_modified t)
    (ws_deleted s ++ ws_deleted t) = status_app s t.
Proof. done. Qed.

Lemma created_tree_spec d (u : U) t l :
  yields u (t :: l) → length l < fuel →
  ∃ u', created_tree U (d, u) = (Ok tt, (status_app d (mk_WorkspaceStatus (tree_files (t :: l)) [] []), u'))
    ∧ yields u' (drop_within (ie_path t) l) ∧ it_kind u' = it_kind u.
Proof.
  intros Hy Hf. destruct (collect_over_files_spec fuel (ws_new d) u t l Hy Hf) as (u' & E & Hy' & Hk).
  exists u'. split; [|done]. cbn [created_tree the_differ tree_status_differ].
  rewrite (st_bind_ok _ _ (d, u) (d, u) d) by done.
  rewrite (st_bind_ok _ _ _ _ _ (borrowed_spec _ _ _ _ _ E)).
  unfold status_app. cbn. by rewrite !app_nil_r.
Qed.

Lemma deleted_tree_spec d (u : U) t l :
  yields u (t :: l) → length l < fuel →
  ∃ u', deleted_tree U (d, u) = (Ok tt, (status_app d (mk_WorkspaceStatus [] [] (tree_files (t :: l))), u'))
    ∧ yields u' (drop_within (ie_path t) l) ∧ it_kind u' = it_kind u.
Proof.
  intros Hy Hf. destruct (collect_over_files_spec fuel (ws_deleted d) u t l Hy Hf) as (u' & E & Hy' & Hk).
  exists u'. split; [|done]. cbn [deleted_tree the_differ tree_status_differ].
  rewrite (st_bind_ok _ _ (d, u) (d, u) d) by done.
  rewrite (st_bind_ok _ _ _ _ _ (borrowed_spec _ _ _ _ _ E)).
  unfold status_app. cbn. by rewrite !app_nil_r.
Qed.

Lemma tree_to_blob_spec d (u : U) y t l :
  yields u (t :: l) → entry_is_tree t = true → contiguous (t :: l) → length (t :: l) < fuel →
  ∃ u', tree_to_blob U y (d, u)
        = (Ok tt, (status_app d (mk_WorkspaceStatus [y] [] (tree_files (t :: l))), u'))
    ∧ yields u' (drop_within (ie_path t) l) ∧ it_kind u' = it_kind u.
Proof.
  intros Hy Ht Hc Hf. destruct (iter_files_spec fuel u t l Hy Ht Hc Hf) as (u' & E & Hy' & Hk).
  exists u'. split; [|done]. cbn [tree_to_blob the_differ tree_status_differ].
  rewrite (st_bind_ok _ _ _ _ _ (borrowed_spec _ _ _ _ _ E)).
  unfold status_app, on_status, st_zoom, st_modify, mbind, st_bind. cbn. by rewrite !app_nil_r.
Qed.

Lemma blob_to_tree_spec d (u : U) x t l :
  yields u (t :: l) → entry_is_tree t = true → contiguous (t :: l) → length (t :: l) < fuel →
  ∃ u', blob_to_tree U x (d, u)
        = (Ok tt, (status_app d (mk_WorkspaceStatus (tree_files (t :: l)) [] [x]), u'))
    ∧ yields u' (drop_within (ie_path t) l) ∧ it_kind u' = it_kind u.
Proof.
  intros Hy Ht Hc Hf. destruct (iter_files_spec fuel u t l Hy Ht Hc Hf) as (u' & E & Hy' & Hk).
  exists u'. split; [|done]. cbn [blob_to_tree the_differ tree_status_differ].
  rewrite (st_bind_ok _ _ (d, u) (push_deleted [x] d, u) tt) by done.
  rewrite (st_bind_ok _ _ _ _ _ (borrowed_spec _ (push_deleted [x] d) _ _ _ E)).
  unfold status_app, on_status, st_zoom, st_modify. cbn. by rewrite !app_nil_r.
Qed.
End methods.

(** The body of the loop adds what the entry stands for, and leaves the iterators behind it. *)
Lemma diff_dispatch_spec e d t O N :
  at_event (Some e) t O N → event_ok e O N → contiguous O → contiguous N →
  length O < fuel → length N < fuel →
  let '(O', N') := after_event (Some e) O N in
  ∃ t', diff_dispatch e (d, t) = (Ok tt, (status_app d (event_status (Some e) O N), t'))
    ∧ at_lists t' O' N'.
Proof.
  intros [Ha Hp] Hok HcO HcN HfO HfN.
  assert (Forall good (over_list N)) as Hgood by (eapply Forall_over_list, at_good; exact Ha).
  destruct e; cbn [after_event event_status event_ok diff_dispatch] in *; try done.
  - exists t. split; [|done]. unfold status_app. cbn. by rewrite !app_nil_r.
  - exists t. split; [|done]. unfold status_app. cbn. by rewrite !app_nil_r.
  - exists t. split; [|done]. unfold status_app. cbn. by rewrite !app_nil_r.
  - exists t. split; [|done]. unfold status_app. cbn. by rewrite !app_nil_r; destruct d.
  - destruct Hok as (-> & x & l & -> & Hx). cbn [length] in HfO. cbn [over_list]. rewrite Hx.
    eapply with_old_spec; [exact Ha|].
    destruct (deleted_tree_spec d (td_old t) x l) as (i & E & Hy & _); [apply peeked_yields, Hp|lia|]. by exists i.
  - destruct Hok as (-> & y & l & -> & Hy). cbn [length] in HfN. cbn [over_list] in *. rewrite Hy in *.
    eapply with_new_spec; [exact Ha|done|].
    destruct (created_tree_spec d (td_new t) y l) as (j & E & Hyj & Hk); [apply peeked_yields, Hp|lia|]. by exists j.
  - destruct Hok as (-> & y & l & -> & Hy). cbn [over_list] in *. rewrite Hy in *.
    eapply with_new_spec; [exact Ha|done|].
    destruct (blob_to_tree_spec d (td_new t) blob y l) as (j & E & Hyj & Hk); [apply peeked_yields, Hp|done..|]. by exists j.
  - destruct Hok as (-> & x & l & -> & Hx). cbn [over_list]. rewrite Hx.
    eapply with_old_spec; [exact Ha|].
    destruct (tree_to_blob_spec d (td_old t) blob x l) as (i & E & Hy & _); [apply peeked_yields, Hp|done..|]. by exists i.
Qed.

Lemma status_app_assoc a b c : status_app (status_app a b) c = status_app a (status_app b c).
Proof. unfold status_app. cbn. by rewrite <- !app_assoc. Qed.

Lemma status_app_default a : status_app a status_default = a.
Proof. unfold status_app. cbn. rewrite !app_nil_r. by destruct a. Qed.

Lemma run_diff_loop_spec n d t O N :
  at_lists t O N → comparable chg O N → length O + length N < n → length O + length N < fuel →
  ∃ t', run_diff_loop is_worktree_entry_modified fuel n (d, t)
        = (Ok tt, (status_app d (diff_spec chg upd O N), t'))
    ∧ at_lists t' [] [].
Proof.
  revert d t O N. induction n as [|n IH]; intros d t O N Ha HC Hn Hf; [lia|]. cbn [run_diff_loop].
  destruct (tree_diff_next_spec _ _ _ _ _ _ Hcompare false fuel t O N eq_refl Ha HC Hf)
    as (e & O1 & N1 & t1 & Hne & Ha1 & E1).
  rewrite (st_bind_ok _ _ (d, t) (d, t1) e) by by (unfold on_diff, st_zoom; cbn; rewrite E1).
  pose proof (next_event_accounts _ _ _ _ _ _ _ Hne HC) as Hacc. destruct e as [e|].
  - pose proof (next_event_ok _ _ _ _ _ _ _ Hne) as Hok.
    destruct (next_event_parts _ _ _ _ _ _ _ Hne) as (HcO & HcN & HlO & HlN).
    pose proof HC as ((_ & _ & HO) & (_ & _ & HN) & _).
    pose proof (diff_dispatch_spec e d t1 O1 N1 Ha1 Hok (HcO HO) (HcN HN) ltac:(lia) ltac:(lia)) as Hd.
    destruct (after_event (Some e) O1 N1) as [O' N']. destruct Hd as (t2 & E2 & Ha2).
    rewrite (st_bind_ok _ _ _ _ _ E2). destruct Hacc as (HC' & Hlen & ->).
    rewrite <- status_app_assoc. apply IH; [done|done|lia|lia].
  - exists t1. rewrite Hacc, status_app_default. split; [done|].
    assert (O1 = [] ∧ N1 = []) as [-> ->]; [|apply Ha1].
    clear - Hne. remember None as o eqn:Eo. induction Hne; [done|done|by auto].
Qed.

Lemma diff_iterators_core repo (a : I) (b : J) O N :
  yields a O → yields b N → it_kind a ≠ KWorktree → it_kind b = kind → inv repo → Forall good N →
  comparable chg O N → length O + length N < fuel →
  ∃ repo', diff_iterators is_worktree_entry_modified fuel repo a b
           = Ok (diff_spec chg upd O N, repo')
    ∧ inv repo'.
Proof.
  intros Ha Hb Hka Hkb Hi Hg HC Hf. unfold diff_iterators, diff_iterators_with_opts, run_diff, tree_diff_new.
  rewrite bool_decide_true by done. cbn [assert_that mbind outcome_bind].
  destruct (run_diff_loop_spec fuel status_default (mk_TreeDiffIter repo a b diff_opts_default) O N)
    as (t' & E & Ha'); [by split|done|done|done|].
  exists (td_repo t'). split; [|apply Ha']. unfold the_differ in E. rewrite E. by destruct (diff_spec chg upd O N).
Qed.

(** C4: The status that a diff of two tree iterators computes, when they can be compared ([comparable]: each
    yields files and directories in strictly increasing order of paths, what is below a directory in one run
    behind it; a file below a directory of the other iterator has that directory too; directories with the
    same path and the same known id have the same files).  Then it is exact: [new] holds the files
    whose path only the new iterator has, [deleted] those whose path only the old one has, and
    [modified] the pairs of files with the same path that compare as different, each in the
    order of the iterators.  The diff returns (the length of the listings bounds the rounds), and both iterators
    are read to the end.  Trees in git's order with a name like [foo.txt] beside a directory [foo] are not in
    the order of paths, and there the diff is wrong ([TreeListing.diff_tree_to_tree_wrong_order]). *)
Theorem diff_iterators_correct repo (a : I) (b : J) O N :
  yields a O → yields b N → it_kind a ≠ KWorktree → it_kind b = kind → inv repo → Forall good N →
  comparable chg O N → length O + length N < fuel →
  ∃ repo', diff_iterators is_worktree_entry_modified fuel repo a b
           = Ok (diff_spec chg upd O N, repo')
    ∧ inv repo'.
Proof. apply diff_iterators_core. Qed.
End status_diff.

(** Everything in the sample tree is new when there was no tree before. *)
Lemma diff_iterators_correct_witness :
  diff_iterators (H := empty_tree_iterator) (H0 := tree_iter_iterator sample_treeish)
    (λ e, st_lift (S := unit) Panic) 10 tt mk_EmptyTreeIter (tree_iter_new (sample_oid x01))
  = Ok (mk_WorkspaceStatus (List.filter entry_is_blob sample_listing) [] [], tt)
  ∧ List.filter entry_is_blob sample_listing
    = index_entry_from_tree_entry <$> [mk_TreeEntry REG (bs "a") (sample_oid x0a);
                                       mk_TreeEntry EXEC (bs "d/b") (sample_oid x0b)].
Proof.
  split; [|vm_compute; reflexivity].
  assert (∀ (x y : BitIndexEntry) (r : unit), True → True → entry_is_blob y = true → ∃ y' r',
    compare_blobs (λ e, st_lift Panic) KTree x y r
    = (Ok (bool_decide (ie_oid x ≠ ie_oid y), y'), r') ∧ True
    ∧ (bool_decide (ie_oid x ≠ ie_oid y) = true → y' = y)) as Hcmp.
  { intros x y r _ _ _. exists y, r. split; [|done]. unfold compare_blobs. by rewrite bool_decide_false. }
  edestruct (diff_iterators_correct (H0 := empty_tree_laws) (H2 := tree_iter_laws sample_treeish)
    (λ e : BitIndexEntry, st_lift (S := unit) Panic) (λ x y, bool_decide (ie_oid x ≠ ie_oid y)) (λ _ y, y) KTree
    (λ _, True) (λ _, True) Hcmp 10) as (repo & E & _).
  - reflexivity.
  - apply (tree_iter_new_yields sample_treeish (sample_oid x01) sample_root sample_listing);
      [vm_compute; reflexivity|vm_decide|apply sample_is_listing].
  - discriminate.
  - reflexivity.
  - exact I.
  - by apply Forall_true.
  - refine (conj _ (conj _ (conj _ (conj _ _)))).
    + split; [constructor|]. by split; [constructor|].
    + split; [repeat constructor|]. split; [repeat (constructor; [discriminate|]); constructor|].
      split_and!; try done; intros _; vm_decide.
    + intros t q Ht. by apply elem_of_nil in Ht.
    + intros t q Ht Htt Hq. by apply elem_of_nil in Hq.
    + intros t Ht. by apply elem_of_nil in Ht.
  - vm_compute. lia.
  - destruct repo. rewrite E. vm_compute. reflexivity.
Defined.
