(* ===== verification/TreeListing.v ===== *)
(** * TreeListing

    What the listings of stored trees ([TreeIter.listing]) satisfy: their order, the parents of
    an entry, the subtrees; and with it the diff of two stored trees. *)

From Stdlib Require Import ZArith Lia Sorted.
From Stdlib Require Import Strings.Byte.
From stdpp Require Import base tactics option list countable strings sorting.
From S2P Require Import Prelude RustStd Data State Hash Path BTree Obj Tree IndexEntry TreeCache TreeIter.
From S2P Require Import TreeDiff.

(** ** Diffs of stored trees *)

Lemma bytes_compare_app_ne k b r s :
  bytes_compare k b = Lt → ¬ k `prefix_of` b → bytes_compare (k ++ r) (b ++ s) = Lt.
Proof.
  revert b. induction k as [|x k IH]; intros b Hlt Hp; [destruct Hp; apply prefix_nil|].
  destruct b as [|y b]; [done|]. cbn in *.
  destruct (Z.compare_spec (u8 x) (u8 y)) as [E|E|E]; cbn in *; try done.
  apply u8_inj in E as ->. apply IH; [done|]. intros Hp'. by apply Hp, prefix_cons.
Qed.

Lemma bytes_compare_app_r a b s : bytes_compare a b = Lt → bytes_compare a (b ++ s) = Lt.
Proof.
  revert b. induction a as [|x a IH]; intros [|y b]; cbn; try done.
  destruct (Z.compare (u8 x) (u8 y)); cbn; auto.
Qed.

Lemma bytes_compare_app_l p a b : bytes_compare (p ++ a) (p ++ b) = bytes_compare a b.
Proof. induction p as [|x p IH]; cbn; [done|]. by rewrite Z.compare_refl. Qed.

(** A tree none of whose names sorts between the name of a directory and that name followed by a
    slash: its order of entries is the order of their names, and so is that of all paths below. *)
Definition plain_tree (kids : list TreeEntry) : Prop :=
  StronglySorted (λ a b, bytes_compare (tree_key a) (te_path b) = Lt) kids.

Section stored.
Context (treeish : Oid → BitResult (list TreeEntry)).
Context (Hplain : ∀ oid kids, treeish oid = Ok kids → plain_tree kids).

(** [p] is the path of [e], or, when [e] is a tree, below it. *)
Definition at_or_under (e : TreeEntry) (p : BitPath) : Prop :=
  p = te_path e ∨ is_tree (te_mode e) = true ∧ ∃ r, p = join (te_path e) r ∧ rel_path (te_path e)
    ∧ r ≠ [] ∧ is_absolute r = false.

Lemma rel_join_bytes d r :
  rel_path d → is_absolute r = false → join d r = match d with [] => r | _ => d ++ x2f :: r end.
Proof.
  intros [->|Hd] Hr; unfold join; rewrite Hr; [done|].
  destruct (norm_path_last d Hd) as (c & El & Hc). rewrite El, bool_decide_false by done.
  by destruct d.
Qed.

Lemma entry_name_facts n : entry_name n → n ≠ [] ∧ is_absolute n = false.
Proof.
  intros Hn. split; [apply Hn|]. pose proof (norm_relative n (entry_name_norm n Hn)) as Hr.
  unfold is_relative in Hr. by destruct (is_absolute n).
Qed.

Lemma join_join d n r :
  rel_path d → entry_name n → r ≠ [] → is_absolute r = false →
  ∃ r', join (join d n) r = join d r' ∧ r' ≠ [] ∧ is_absolute r' = false ∧ r' = n ++ x2f :: r.
Proof.
  intros Hd Hn Hr Ha. destruct (entry_name_facts n Hn) as [Hne Han].
  destruct (rel_join d n Hd Hn) as [Hj _]. exists (n ++ x2f :: r).
  assert (is_absolute (n ++ x2f :: r) = false) as Ha' by by destruct n as [|[] n].
  rewrite !rel_join_bytes by (try done; by right).
  split_and!; [|by destruct n|done|done].
  destruct d as [|c d]; [by destruct n|]. cbn. by rewrite <- app_assoc.
Qed.

Lemma listing_at_or_under es l :
  listing treeish es l → Forall (λ e, rel_path (te_path e)) es →
  ∀ x, x ∈ l → ∃ e, e ∈ es ∧ at_or_under e (ie_path x).
Proof.
  induction 1 as [|e es l Hb Hl IH|e es kids l l' Hm Hk Ht Hok Hl1 IH1 Hl2 IH2]; intros Hr x Hx.
  - by apply elem_of_nil in Hx.
  - inversion_clear Hr. apply elem_of_cons in Hx as [->|Hx].
    + exists e. split; [apply list_elem_of_here|by left].
    + destruct (IH ltac:(done) x Hx) as (e' & ? & ?). exists e'. split; [by right|done].
  - inversion_clear Hr as [|?? Hre Hres]. apply elem_of_cons in Hx as [->|Hx].
    + exists e. split; [apply list_elem_of_here|by left].
    + apply elem_of_app in Hx as [Hx|Hx].
      * exists e. split; [apply list_elem_of_here|]. right. split; [by rewrite Hm|].
        destruct (IH1 (child_entries_rel _ _ Hre Hok) x Hx) as (c & Hc & Hu).
        apply elem_of_child_entries in Hc as (k & Hk1 & _ & ->).
        destruct Hok as [Hn _]. rewrite Forall_forall in Hn. specialize (Hn k Hk1).
        destruct (entry_name_facts _ Hn) as [Hne Ha]. destruct Hu as [->|(_ & r & -> & _ & Hr & Har)].
        -- cbn. by exists (te_path k).
        -- cbn. destruct (join_join (te_path e) (te_path k) r Hre Hn Hr Har) as (r' & -> & ? & ? & _).
           by exists r'.
      * destruct (IH2 Hres x Hx) as (e' & ? & ?). exists e'. split; [by right|done].
Qed.

(** What is below an earlier entry of a plain tree sorts before what is below a later one. *)
Lemma plain_order d a b p q :
  rel_path d → entry_name (te_path a) → entry_name (te_path b) →
  bytes_compare (tree_key a) (te_path b) = Lt →
  at_or_under (mk_TreeEntry (te_mode a) (join d (te_path a)) (te_oid a)) p →
  at_or_under (mk_TreeEntry (te_mode b) (join d (te_path b)) (te_oid b)) q →
  path_cmp p q = Lt.
Proof.
  intros Hd Ha Hb Hlt Hp Hq. rewrite path_cmp_bytes.
  destruct (entry_name_facts _ Ha) as [Hna Haa]. destruct (entry_name_facts _ Hb) as [Hnb Hab].
  assert (∃ s, q = join d (te_path b ++ s) ∧ is_absolute (te_path b ++ s) = false) as (s & -> & Hs).
  { destruct Hq as [->|(_ & r & -> & _ & Hr & Har)]; cbn.
    - exists []. by rewrite app_nil_r.
    - destruct (join_join d (te_path b) r Hd Hb Hr Har) as (r' & -> & _ & ? & ->). by exists (x2f :: r). }
  assert (∀ x y, is_absolute x = false → is_absolute y = false →
    bytes_compare (join d x) (join d y) = bytes_compare x y) as Hj.
  { intros x y Hx Hy. rewrite !rel_join_bytes by done. destruct d as [|c d]; [done|].
    rewrite bytes_compare_app_l. done. }
  unfold tree_key in Hlt. cbn in Hp. destruct Hp as [->|(Ht & r & -> & _ & Hr & Har)]; cbn in *.
  - rewrite Hj by done. apply bytes_compare_app_r. unfold dir_slash in Hlt.
    destruct (is_tree (te_mode a)); [|by rewrite app_nil_r in Hlt].
    eapply bytes_compare_trans; [|exact Hlt].
    rewrite <- (app_nil_r (te_path a)) at 1. by rewrite bytes_compare_app_l.
  - rewrite Ht in Hlt. cbn in Hlt.
    destruct (join_join d (te_path a) r Hd Ha Hr Har) as (r' & -> & _ & Har' & ->).
    rewrite Hj by done. change (x2f :: r) with ([x2f] ++ r). rewrite app_assoc.
    apply bytes_compare_app_ne; [done|]. intros [t Et]. destruct Hb as [_ Hb]. apply Hb.
    rewrite Et, elem_of_app. left. apply elem_of_app. right. apply list_elem_of_here.
Qed.

Definition sorted_paths (l : list BitIndexEntry) : Prop :=
  StronglySorted (λ a b, path_cmp (ie_path a) (ie_path b) = Lt) l.

Lemma plain_listing_sorted es l :
  listing treeish es l →
  ∀ d ks, rel_path d → Forall (λ k, entry_name (te_path k)) ks → plain_tree ks →
    es = (λ k, mk_TreeEntry (te_mode k) (join d (te_path k)) (te_oid k)) <$> ks →
    sorted_paths l.
Proof.
  induction 1 as [|e es l Hb Hl IH|e es kids l l' Hm Hk Ht Hok Hl1 IH1 Hl2 IH2];
    intros d ks Hd Hn Hp Hes; [constructor|..]; (destruct ks as [|k ks]; [done|]); cbn in Hes;
    injection Hes as -> Hes; inversion_clear Hn as [|?? Hnk Hnks]; inversion_clear Hp as [|?? Hpks Hk2].
  all: assert (Forall (λ e, rel_path (te_path e)) es) as Hres by
    (rewrite Forall_forall; rewrite Forall_forall in Hnks;
     intros c Hc; rewrite Hes in Hc; apply list_elem_of_fmap in Hc as (k' & -> & Hk');
     right; by apply (rel_join d); auto).
  all: assert (∀ p y lb, listing treeish es lb → y ∈ lb →
    at_or_under (mk_TreeEntry (te_mode k) (join d (te_path k)) (te_oid k)) p →
    path_cmp p (ie_path y) = Lt) as Hlt by
    (intros p y lb Hlb Hy Hpu; destruct (listing_at_or_under es lb Hlb Hres y Hy) as (c & Hc & Hu);
     rewrite Hes in Hc; apply list_elem_of_fmap in Hc as (k' & -> & Hk');
     rewrite Forall_forall in Hk2, Hnks; by apply (plain_order d k k'); auto).
  - constructor; [by apply (IH d ks)|]. rewrite Forall_forall. intros y Hy.
    apply (Hlt _ y l); [done|done|by left].
  - assert (rel_path (join d (te_path k))) as Hrk by (right; by apply (rel_join d)).
    cbn in Hm, Ht, Hl1, IH1.
    assert (listing treeish [mk_TreeEntry TREE (join d (te_path k)) (te_oid k)]
      (index_entry_from_tree_entry (mk_TreeEntry TREE (join d (te_path k)) (te_oid k)) :: l)) as Hl0.
    { rewrite <- (app_nil_r l). eapply listing_tree; cbn; [done|done|done|done|done|constructor]. }
    assert (∀ y, y ∈ l → at_or_under (mk_TreeEntry (te_mode k) (join d (te_path k)) (te_oid k)) (ie_path y)) as Hul.
    { intros y Hy. destruct (listing_at_or_under _ _ Hl0 ltac:(by apply Forall_singleton) y) as (c & Hc & Hu);
        [by right|]. apply list_elem_of_singleton in Hc as ->. by rewrite Hm. }
    unfold sorted_paths. rewrite app_comm_cons. apply StronglySorted_app_2.
    + intros a b [->|Ha]%elem_of_cons Hb; apply (Hlt _ b l'); auto; by left.
    + constructor.
      * apply (IH1 (join d (te_path k)) (filter (λ e, te_mode e ≠ GITLINK) kids) Hrk); [| |done].
        -- destruct Hok as [Hok _]. rewrite Forall_forall in Hok |- *.
           intros k' [_ Hk']%list_elem_of_filter. by apply Hok.
        -- eapply StronglySorted_sublist; [|by apply (Hplain _ _ Ht)]. apply sublist_filter.
      * rewrite Forall_forall. intros y Hy. destruct (listing_at_or_under _ _ Hl1
          (child_entries_rel _ _ Hrk Hok) y Hy) as (c & Hc & Hu).
        apply elem_of_child_entries in Hc as (k' & Hk1 & _ & ->).
        destruct Hok as [Hok _]. rewrite Forall_forall in Hok. specialize (Hok _ Hk1).
        assert (∃ r, ie_path y = join (join d (te_path k)) r ∧ r ≠ [] ∧ is_absolute r = false) as (r & -> & Hr & Har).
        { destruct (entry_name_facts _ Hok). destruct Hu as [->|(_ & r & -> & _ & Hr & Har)]; cbn;
            [by eexists|]. destruct (join_join _ (te_path k') r Hrk Hok Hr Har) as (r' & -> & ? & ? & _).
          by exists r'. }
        rewrite path_cmp_bytes, (rel_join_bytes _ r) by done. cbn [ie_path index_entry_from_tree_entry te_path].
        destruct (join d (te_path k)) as [|c0 p0] eqn:Ej; [by destruct r|].
        rewrite <- (app_nil_r (c0 :: p0)) at 1. by rewrite bytes_compare_app_l.
    + by apply (IH2 d ks).
Qed.

(** *** Parents *)

(** A directory above an entry of a listing is listed, unless it is above what the listing starts
    from. *)
Lemma listing_parents es l :
  listing treeish es l → Forall (λ e, rel_path (te_path e)) es →
  ∀ q p, q ∈ l → rel_path p → path_components p `prefix_of` path_components (ie_path q) →
  (∃ e, e ∈ es ∧ path_components p `prefix_of` path_components (te_path e) ∧ p ≠ te_path e)
  ∨ ∃ t, t ∈ l ∧ ie_path t = p ∧ (t = q ∨ entry_is_tree t = true).
Proof.
  induction 1 as [|e es l Hb Hl IH|e es kids l l' Hm Hk Ht Hok Hl1 IH1 Hl2 IH2]; intros Hr q p Hq Hp Hpre.
  - by apply elem_of_nil in Hq.
  - inversion_clear Hr as [|?? Hre Hres]. apply elem_of_cons in Hq as [->|Hq].
    + destruct (decide (p = te_path e)) as [->|Hne].
      * right. eexists. split; [apply list_elem_of_here|]. auto.
      * left. exists e. split; [apply list_elem_of_here|done].
    + destruct (IH Hres q p Hq Hp Hpre) as [(e' & ? & ?)|(t & ? & ?)].
      * left. exists e'. split; [by right|done].
      * right. exists t. split; [by right|done].
  - inversion_clear Hr as [|?? Hre Hres].
    assert (path_components p `prefix_of` path_components (te_path e) →
      (∃ e0, e0 ∈ e :: es ∧ path_components p `prefix_of` path_components (te_path e0) ∧ p ≠ te_path e0)
      ∨ ∃ t, t ∈ index_entry_from_tree_entry e :: l ++ l' ∧ ie_path t = p ∧ (t = q ∨ entry_is_tree t = true))
      as Habove.
    { intros Hpe. destruct (decide (p = te_path e)) as [->|Hne].
      - right. eexists. split; [apply list_elem_of_here|]. split; [done|]. right.
        unfold entry_is_tree. cbn. by rewrite Hm.
      - left. exists e. split; [apply list_elem_of_here|done]. }
    apply elem_of_cons in Hq as [->|Hq]; [by apply Habove|].
    apply elem_of_app in Hq as [Hq|Hq].
    + destruct (IH1 (child_entries_rel _ _ Hre Hok) q p Hq Hp Hpre) as [(c & Hc & Hpc & Hne)|(t & ? & ?)].
      * apply elem_of_child_entries in Hc as (k & Hk1 & _ & ->). cbn in *.
        destruct Hok as [Hn _]. rewrite Forall_forall in Hn. specialize (Hn k Hk1).
        destruct (rel_join (te_path e) (te_path k) Hre Hn) as [Hj Ej]. apply Habove.
        destruct Hpc as [r Er]. rewrite Ej in Er. destruct r as [|c r _] using rev_ind.
        -- destruct Hne. apply rel_path_inj; [done|by right|]. rewrite Ej, Er. by rewrite app_nil_r.
        -- rewrite app_assoc in Er. apply app_inj_tail in Er as [Er _]. by exists r.
      * right. exists t. split; [by right; apply elem_of_app; left|done].
    + destruct (IH2 Hres q p Hq Hp Hpre) as [(e' & ? & ?)|(t & ? & ?)].
      * left. exists e'. split; [by right|done].
      * right. exists t. split; [by right; apply elem_of_app; right|done].
Qed.

(** *** Subtrees *)

Lemma listing_det es l l' : listing treeish es l → listing treeish es l' → l = l'.
Proof.
  intros Hl. revert l'. induction Hl as [|e es l Hb Hl IH|e es kids l1 l2 Hm Hk Ht Hok Hl1 IH1 Hl2 IH2];
    intros l' Hl'; inversion Hl' as [|? ? ? Hb' Hl2'|? ? kids' ? ? Hm' Hk' Ht' Hok' Hl1' Hl2']; subst; try done.
  - by rewrite (IH _ Hl2').
  - rewrite Hm' in Hb. done.
  - rewrite Hm in Hb'. done.
  - rewrite Ht in Ht'. injection Ht' as <-. by rewrite (IH1 _ Hl1'), (IH2 _ Hl2').
Qed.

Lemma listing_rel es l :
  listing treeish es l → Forall (λ e, rel_path (te_path e)) es → Forall (λ x, rel_path (ie_path x)) l.
Proof.
  intros Hl Hr. eapply (listing_below treeish rel_path); [|exact Hl|done|done].
  intros p n Hp Hn _. right. by apply rel_join.
Qed.

(** What is in a directory has a longer path. *)
Lemma listing_children_strict p kids l :
  rel_path p → entries_ok kids → listing treeish (child_entries p kids) l →
  Forall (λ x, ¬ path_components (ie_path x) `prefix_of` path_components p) l.
Proof.
  intros Hp Hok Hl.
  apply (listing_below treeish (λ q, ¬ path_components q `prefix_of` path_components p)
    (child_entries p kids) l); [|exact Hl|..].
  - intros q n Hq Hn Hno Hpre. apply Hno. destruct (rel_join q n Hq Hn) as [_ Ej].
    rewrite Ej in Hpre. etrans; [|exact Hpre]. by apply prefix_app_r.
  - by apply child_entries_rel.
  - rewrite Forall_forall. intros c (k & Hk1 & _ & ->)%elem_of_child_entries Hpre. cbn in Hpre.
    destruct Hok as [Hn _]. rewrite Forall_forall in Hn.
    destruct (rel_join _ _ Hp (Hn k Hk1)) as [_ Ej]. rewrite Ej in Hpre.
    destruct Hpre as [r Er]. rewrite <- app_assoc in Er.
    rewrite <- (app_nil_r (path_components p)) in Er at 1. by apply app_inv_head in Er.
Qed.

(** The listing of a tree that is listed. *)
Lemma listing_subtree es l :
  listing treeish es l → stack_ok es →
  ∀ t, t ∈ l → entry_is_tree t = true →
  ∃ kids A, treeish (ie_oid t) = Ok kids ∧ listing treeish (child_entries (ie_path t) kids) A
    ∧ (∀ x, x ∈ A → x ∈ l) ∧ (∀ x, x ∈ l → within (ie_path t) x = true → x = t ∨ x ∈ A).
Proof.
  induction 1 as [|e es l Hb Hl IH|e es kids l l' Hm Hk Ht Hok Hl1 IH1 Hl2 IH2]; intros Hs t Hmem Htt.
  - by apply elem_of_nil in Hmem.
  - destruct (stack_ok_tail _ _ Hs) as (Hre & Hs' & Hinc).
    apply elem_of_cons in Hmem as [->|Hmem]; [by unfold entry_is_tree in Htt; cbn in Htt; destruct (te_mode e)|].
    destruct (IH Hs' t Hmem Htt) as (ks & A & ? & ? & HA & HB). exists ks, A. split_and!; [done|done|by right; auto|].
    intros x [->|Hx]%elem_of_cons Hw; [|by apply HB].
    pose proof (listing_below treeish (incomparable (te_path e)) es l
      (incomparable_join (te_path e)) Hl (proj1 Hs') Hinc) as Hout.
    rewrite Forall_forall in Hout. destruct (Hout t Hmem) as [_ Hno]. destruct Hno.
    by apply path_starts_with_prefix.
  - destruct (stack_ok_tail _ _ Hs) as (Hre & Hs' & Hinc).
    pose proof (listing_below treeish (incomparable (te_path e)) es l'
      (incomparable_join (te_path e)) Hl2 (proj1 Hs') Hinc) as Hout. rewrite Forall_forall in Hout.
    pose proof (listing_children_within treeish _ _ _ Hre Hok Hl1) as Hin. rewrite Forall_forall in Hin.
    apply elem_of_cons in Hmem as [->|Hmem]; [|apply elem_of_app in Hmem as [Hmem|Hmem]].
    + exists kids, l. split_and!; [done|done|by intros; right; apply elem_of_app; left|].
      intros x [->|Hx]%elem_of_cons Hw; [by left|]. right.
      apply elem_of_app in Hx as [|Hx]; [done|]. destruct (Hout x Hx) as [Hno _]. destruct Hno.
      by apply path_starts_with_prefix.
    + destruct (IH1 (stack_ok_children _ _ Hre Hok) t Hmem Htt) as (ks & A & ? & ? & HA & HB).
      exists ks, A. split_and!; [done|done|by intros; right; apply elem_of_app; left; auto|].
      intros x Hx Hw. pose proof (Hin t Hmem) as Hwt. unfold within in Hw, Hwt.
      rewrite path_starts_with_prefix in Hw, Hwt. apply elem_of_cons in Hx as [->|Hx].
      { exfalso. pose proof (listing_children_strict _ _ _ Hre Hok Hl1) as Hno.
        rewrite Forall_forall in Hno. by apply (Hno t). }
      apply elem_of_app in Hx as [Hx|Hx]; [by apply HB; [|apply path_starts_with_prefix]|].
      exfalso. destruct (Hout x Hx) as [Hno _]. apply Hno. by etrans.
    + destruct (IH2 Hs' t Hmem Htt) as (ks & A & ? & ? & HA & HB).
      exists ks, A. split_and!; [done|done|by intros; right; apply elem_of_app; right; auto|].
      destruct (Hout t Hmem) as [Hno1 Hno2].
      intros x Hx Hw. unfold within in Hw. rewrite path_starts_with_prefix in Hw.
      apply elem_of_cons in Hx as [->|Hx]; [done|].
      apply elem_of_app in Hx as [Hx|Hx]; [|by apply HB; [|apply path_starts_with_prefix]].
      exfalso. pose proof (Hin x Hx) as Hwx. unfold within in Hwx. rewrite path_starts_with_prefix in Hwx.
      destruct (prefix_weak_total _ _ _ Hw Hwx); done.
Qed.

(** *** What two stored trees list can be compared *)

(** The listing of the tree (or of the tree of the commit) [oid], the root first. *)
Definition tree_listing (oid : Oid) (l : list BitIndexEntry) : Prop :=
  ∃ kids l', treeish (te_oid (root_entry oid)) = Ok kids ∧ entries_ok kids
    ∧ listing treeish (child_entries EMPTY kids) l'
    ∧ l = index_entry_from_tree_entry (root_entry oid) :: l'.

Lemma root_rel oid : Forall (λ e, rel_path (te_path e)) [root_entry oid].
Proof. apply Forall_singleton. by left. Qed.

Lemma root_stack_ok oid : stack_ok [root_entry oid].
Proof. split; [apply root_rel|]. constructor; constructor. Qed.

Lemma tree_listing_listing oid l : tree_listing oid l → listing treeish [root_entry oid] l.
Proof.
  intros (kids & l' & Ht & Hk & Hl & ->). rewrite <- (app_nil_r l').
  eapply listing_tree; try done; [|constructor]. cbn. by destruct (is_known oid) eqn:E.
Qed.

Lemma tree_listing_yields oid l :
  tree_listing oid l → tree_iter_yields treeish (tree_iter_new oid) l.
Proof. intros (kids & l' & Ht & Hk & Hl & ->). by eapply tree_iter_new_yields. Qed.

Lemma listing_modes es l :
  listing treeish es l →
  Forall (λ x, ie_mode x ≠ GITLINK ∧ (entry_is_tree x = true → is_known (ie_oid x) = true)) l.
Proof.
  induction 1 as [|e es l Hb Hl IH|e es kids l1 l2 Hm Hk Ht Hok Hl1 IH1 Hl2 IH2]; constructor; try done.
  - unfold entry_is_tree. cbn. by destruct (te_mode e).
  - unfold entry_is_tree. cbn. by rewrite Hm.
  - by apply Forall_app.
Qed.

Lemma tree_listing_diff_list oid l : tree_listing oid l → diff_list l.
Proof.
  intros Hl. pose proof (tree_listing_listing oid l Hl) as Hll. split; [|split].
  - destruct Hl as (kids & l' & Ht & Hok & Hl & ->). constructor.
    + apply (plain_listing_sorted _ _ Hl EMPTY (filter (λ e, te_mode e ≠ GITLINK) kids));
        [by left| | |done].
      * destruct Hok as [Hok _]. rewrite Forall_forall in Hok |- *.
        intros k' [_ Hk']%list_elem_of_filter. by apply Hok.
      * eapply StronglySorted_sublist; [|by apply (Hplain _ _ Ht)]. apply sublist_filter.
    + rewrite Forall_forall. intros y Hy.
      pose proof (listing_children_strict EMPTY kids l' ltac:(by left) Hok Hl) as Hs.
      rewrite Forall_forall in Hs. specialize (Hs y Hy). cbn.
      rewrite path_cmp_bytes. destruct (ie_path y) eqn:E; [|done]. by destruct Hs.
  - eapply Forall_impl; [by apply (listing_modes [root_entry oid])|]. by intros x [? _].
  - apply (listing_contiguous treeish [root_entry oid]); [apply root_stack_ok|done].
Qed.

Lemma tree_listing_covered a b O N : tree_listing a O → tree_listing b N → covered O N.
Proof.
  intros HO%tree_listing_listing HN%tree_listing_listing t q Ht Htt Hq Hw Hne.
  pose proof (listing_rel _ _ HO (root_rel a)) as Hrel. rewrite Forall_forall in Hrel.
  specialize (Hrel t Ht). apply path_starts_with_prefix in Hw.
  destruct (listing_parents _ _ HN (root_rel b) q (ie_path t) Hq Hrel Hw)
    as [(e & ->%list_elem_of_singleton & Hpre & Hn)|(t' & Ht' & E & [->|Htr])].
  - destruct Hn. apply rel_path_inj; [done|by left|]. apply (anti_symm prefix); [done|apply prefix_nil].
  - by destruct Hne.
  - by exists t'.
Qed.

Definition oid_differs (x y : BitIndexEntry) : bool := bool_decide (ie_oid x ≠ ie_oid y).

Lemma tree_listing_same a b O N :
  tree_listing a O → tree_listing b N → same_trees oid_differs O N.
Proof.
  intros HO%tree_listing_listing HN%tree_listing_listing t Ht1 Ht2 Htt _.
  destruct (listing_subtree _ _ HO (root_stack_ok a) t Ht1 Htt) as (k1 & A1 & E1 & L1 & I1 & W1).
  destruct (listing_subtree _ _ HN (root_stack_ok b) t Ht2 Htt) as (k2 & A2 & E2 & L2 & I2 & W2).
  rewrite E1 in E2. injection E2 as <-. pose proof (listing_det _ _ _ L1 L2) as <-.
  assert (∀ x, entry_is_blob x = true → x ≠ t) as Hxt by (intros x Hb ->; by apply (blob_not_tree t)).
  split.
  - intros x Hx Hb Hw. destruct (W1 x Hx Hw) as [->|Hx']; [by destruct (Hxt t)|].
    exists x. split_and!; [by apply I2|done|done|]. by apply bool_decide_eq_false; intros [].
  - intros y Hy Hb Hw. destruct (W2 y Hy Hw) as [->|Hy']; [by destruct (Hxt t)|].
    exists y. split_and!; [by apply I1|done|done].
Qed.

Lemma tree_listing_comparable a b O N :
  tree_listing a O → tree_listing b N → comparable oid_differs O N.
Proof.
  intros HO HN. refine (conj _ (conj _ (conj _ (conj _ _)))).
  - by eapply tree_listing_diff_list.
  - by eapply tree_listing_diff_list.
  - by eapply tree_listing_covered.
  - by eapply tree_listing_covered.
  - by eapply tree_listing_same.
Qed.

(** The diff of two stored trees is exact when their entries are ordered alike by name and
    by git's order ([plain_tree]): the files whose path only the new tree has, those whose path
    only the old tree has, and the pairs of files with the same path and different contents; and
    it returns.  Subtrees with equal ids are skipped without being read. *)
Theorem diff_tree_to_tree_correct fuel a b O N :
  tree_listing a O → tree_listing b N → length O + length N < fuel →
  diff_tree_to_tree treeish fuel a b = Ok (diff_spec oid_differs (λ _ y, y) O N).
Proof.
  intros HO HN Hf. unfold diff_tree_to_tree.
  edestruct (diff_iterators_core (H0 := tree_iter_laws treeish) (H2 := tree_iter_laws treeish)
    (λ e : BitIndexEntry, st_lift (S := unit) Panic) oid_differs (λ _ y, y) KTree (λ _, True) (λ _, True))
    as (repo & E & _).
  - intros x y r _ _ _. exists y, r. split; [|done]. unfold compare_blobs. by rewrite bool_decide_false.
  - apply tree_listing_yields, HO.
  - apply tree_listing_yields, HN.
  - done.
  - done.
  - done.
  - by apply Forall_true.
  - by apply (tree_listing_comparable a b).
  - exact Hf.
  - rewrite E. done.
Qed.
End stored.

(** ** Examples *)

(** The sample tree with another [a], a new file [c], and the same directory [d]. *)
Definition sample_root2 : list TreeEntry :=
  [mk_TreeEntry REG (bs "a") (sample_oid x1a); mk_TreeEntry REG (bs "c") (sample_oid x0c);
   mk_TreeEntry TREE (bs "d") (sample_oid x02)].

Definition sample_treeish2 (oid : Oid) : BitResult (list TreeEntry) :=
  if bool_decide (oid = sample_oid x03) then Ok sample_root2 else sample_treeish oid.

Definition file_at (path : bytes) (oid : byte) : BitIndexEntry :=
  index_entry_from_tree_entry (mk_TreeEntry REG path (sample_oid oid)).
Definition dir_at (path : bytes) (oid : byte) : BitIndexEntry :=
  index_entry_from_tree_entry (mk_TreeEntry TREE path (sample_oid oid)).

Definition sample_listing2 : list BitIndexEntry :=
  [dir_at EMPTY x03; file_at (bs "a") x1a; file_at (bs "c") x0c; dir_at (bs "d") x02;
   index_entry_from_tree_entry (mk_TreeEntry EXEC (bs "d/b") (sample_oid x0b))].

Lemma sample_plain oid kids : sample_treeish2 oid = Ok kids → plain_tree kids.
Proof.
  unfold sample_treeish2, sample_treeish. repeat case_bool_decide; intros [= <-]; unfold plain_tree;
    repeat constructor.
Qed.

Lemma sample_listing_1 :
  tree_listing sample_treeish2 (sample_oid x01) (dir_at EMPTY x01 :: sample_listing).
Proof.
  exists sample_root, sample_listing. split_and!; [vm_compute; reflexivity|vm_decide..| |done].
  apply listing_blob; [done|].
  apply (listing_tree _ _ [] sample_dir
    [index_entry_from_tree_entry (mk_TreeEntry EXEC (bs "d/b") (sample_oid x0b))] []);
    [done|done|vm_compute; reflexivity|vm_decide| |constructor].
  apply listing_blob; [done|constructor].
Qed.

Lemma sample_listing_2 : tree_listing sample_treeish2 (sample_oid x03) sample_listing2.
Proof.
  eexists sample_root2, _. split_and!; [vm_compute; reflexivity|vm_decide..| |reflexivity].
  apply listing_blob; [done|]. apply listing_blob; [done|].
  apply (listing_tree _ _ [] sample_dir
    [index_entry_from_tree_entry (mk_TreeEntry EXEC (bs "d/b") (sample_oid x0b))] []);
    [done|done|vm_compute; reflexivity|vm_decide| |constructor].
  apply listing_blob; [done|constructor].
Qed.

Lemma diff_tree_to_tree_correct_witness :
  diff_tree_to_tree sample_treeish2 20 (sample_oid x01) (sample_oid x03)
  = Ok (mk_WorkspaceStatus [file_at (bs "c") x0c] [(file_at (bs "a") x0a, file_at (bs "a") x1a)] []).
Proof.
  rewrite (diff_tree_to_tree_correct sample_treeish2 sample_plain 20 _ _ _ _ sample_listing_1
    sample_listing_2); [vm_compute; reflexivity|cbn; lia].
Defined.

(** The file [foo.txt] beside the directory [foo] with the file [a], and the directory alone. *)
Definition order_treeish (oid : Oid) : BitResult (list TreeEntry) :=
  if bool_decide (oid = sample_oid x01) then
    Ok [mk_TreeEntry REG (bs "foo.txt") (sample_oid x0a); mk_TreeEntry TREE (bs "foo") (sample_oid x03)]
  else if bool_decide (oid = sample_oid x02) then Ok [mk_TreeEntry TREE (bs "foo") (sample_oid x03)]
  else if bool_decide (oid = sample_oid x03) then Ok [mk_TreeEntry REG (bs "a") (sample_oid x0b)]
  else Err Anyhow.

(** Where a name sorts between a directory's name and that name with a slash, the diff of
    two stored trees is wrong: the walk compares plain paths, but the iterators follow git's order,
    in which the file [foo.txt] comes before the directory [foo].  When [foo.txt] is deleted and
    [foo] has not changed, the diff also reports [foo/a] as deleted and as new. *)
Theorem diff_tree_to_tree_wrong_order :
  tree_sorted [mk_TreeEntry REG (bs "foo.txt") (sample_oid x0a); mk_TreeEntry TREE (bs "foo") (sample_oid x03)]
  ∧ (∃ O N, tree_listing order_treeish (sample_oid x01) O ∧ tree_listing order_treeish (sample_oid x02) N
      ∧ diff_spec oid_differs (λ _ y, y) O N = mk_WorkspaceStatus [] [] [file_at (bs "foo.txt") x0a])
  ∧ diff_tree_to_tree order_treeish 20 (sample_oid x01) (sample_oid x02)
    = Ok (mk_WorkspaceStatus [file_at (bs "foo/a") x0b] []
            [file_at (bs "foo.txt") x0a; file_at (bs "foo/a") x0b]).
Proof.
  split; [repeat constructor|]. split; [|vm_compute; reflexivity].
  eexists _, _. split; [|split].
  - eexists _, _. split_and!; [vm_compute; reflexivity|vm_decide..| |reflexivity].
    apply listing_blob; [done|].
    eapply (listing_tree _ _ [] _ _ []); [done|done|vm_compute; reflexivity|vm_decide| |constructor].
    apply listing_blob; [done|constructor].
  - eexists _, _. split_and!; [vm_compute; reflexivity|vm_decide..| |reflexivity].
    eapply (listing_tree _ _ [] _ _ []); [done|done|vm_compute; reflexivity|vm_decide| |constructor].
    apply listing_blob; [done|constructor].
  - vm_compute. reflexivity.
Qed.
