(* ===== verification/IndexDiff.v ===== *)
(** * IndexDiff

    The differs of [libbit/src/diff.rs] that are not walks of trees: comparing an entry of the
    index with a file of the worktree, the diff of the index against the worktree, and the
    entry-wise view of a tree diff. *)

From Stdlib Require Import ZArith Lia Sorted.
From Stdlib Require Import Strings.Byte.
From stdpp Require Import base tactics option list countable strings sorting.
From S2P Require Import Prelude RustStd Data State Io Hash Path BTree Obj Tree IndexEntry TreeCache Index.
From S2P Require Import TreeIter TreeDiff.

Inductive DiffEntry :=
| Deleted (old : BitIndexEntry)
| Modified (old new : BitIndexEntry)
| Created (new : BitIndexEntry).

#[export] Instance DiffEntry_eq_dec : EqDecision DiffEntry.
Proof. solve_decision. Defined.

(** ** The traits [Differ] and [Diff] *)

Class Differ (D : Type) := {
  differ_on_created : BitIndexEntry → st D unit;
  differ_on_modified : BitIndexEntry → BitIndexEntry → st D unit;
  differ_on_deleted : BitIndexEntry → st D unit;
}.

Section apply.
Context {D} `{Differ D}.

(** [Diff for &WorkspaceStatus]. *)
Definition apply_with (s : WorkspaceStatus) : st D unit :=
  _ ← st_for_each differ_on_deleted (ws_deleted s);
  _ ← st_for_each (λ p, differ_on_modified p.1 p.2) (ws_modified s);
  st_for_each differ_on_created (ws_new s).

(** What [for_each] does with an entry. *)
Definition dispatch_entry (e : DiffEntry) : st D unit :=
  match e with
  | Deleted old => differ_on_deleted old
  | Modified old new => differ_on_modified old new
  | Created new => differ_on_created new
  end.
End apply.

(** ** Comparing an index entry with the worktree *)

Inductive Changed := Yes | No | Maybe.

#[export] Instance Changed_eq_dec : EqDecision Changed.
Proof. solve_decision. Defined.

Section repo.
(** The metadata of a file, storing a file as a blob, and the hash of a file as a blob. *)
Variable stat : BitPath → BitResult Metadata.
Variable write_worktree_blob : BitPath → BitResult Oid.
Variable hash_blob_from_worktree : BitPath → BitResult Oid.
(** The modification time of the index file. *)
Variable index_mtime : option Timespec.

Definition has_changes_inner (idxe wte : BitIndexEntry) : Changed :=
  if bool_decide (ie_oid idxe = ie_oid wte) then No
  else if is_known (ie_oid wte) then Yes
  else if bool_decide (ie_mtime idxe = ie_mtime wte) && negb (is_racy_entry index_mtime idxe) then No
  else if bool_decide (ie_filesize idxe ≠ ie_filesize wte) then Yes
  else if bool_decide (ie_inode idxe ≠ ie_inode wte) then Yes
  else if negb (mode_eq idxe wte) then Yes
  else Maybe.

(** [self.add_entry(..)]; after an error the index is not used any more. *)
Definition st_add_entry (e : BitIndexEntry) : st BitIndexInner unit := λ idx,
  match add_entry stat write_worktree_blob idx e with
  | Ok idx' => (Ok tt, idx')
  | Err err => (Err err, idx)
  | Panic => (Panic, idx)
  end.

(** The result and the worktree entry, whose hash may have been filled in. *)
Definition has_changes (index_entry worktree_entry : BitIndexEntry)
    : st BitIndexInner (bool * BitIndexEntry) :=
  match has_changes_inner index_entry worktree_entry with
  | Yes => mret (true, worktree_entry)
  | No => mret (false, worktree_entry)
  | Maybe =>
      oid ← (if is_unknown (ie_oid worktree_entry)
             then st_lift (hash_blob_from_worktree (ie_path worktree_entry))
             else mret (ie_oid worktree_entry));
      let worktree_entry := with_oid worktree_entry oid in
      let changed := bool_decide (ie_oid index_entry ≠ ie_oid worktree_entry) in
      _ ← (if changed then mret tt else st_add_entry worktree_entry);
      mret (changed, worktree_entry)
  end.

Definition is_worktree_entry_modified (worktree_entry : BitIndexEntry)
    : st BitIndexInner (bool * BitIndexEntry) :=
  key ← st_lift (entry_key worktree_entry);
  idx ← st_get;
  match find_entry idx key with
  | Some index_entry => has_changes index_entry worktree_entry
  | None => mret (true, worktree_entry)
  end.

(** ** IndexWorktreeDiffIter

    A [Peekable<Fuse<I>>] is the list of the results that the iterator has still to give. *)

Record IndexWorktreeDiffIter := mk_IndexWorktreeDiffIter {
  iw_index : BitIndexInner;
  iw_old : list (BitResult BitIndexEntry);
  iw_new : list (BitResult BitIndexEntry);
}.

(** [peek()?]: an error is taken from the iterator. *)
Definition stream_peek : st (list (BitResult BitIndexEntry)) (option BitIndexEntry) := λ l,
  match l with
  | [] => (Ok None, [])
  | Ok e :: _ => (Ok (Some e), l)
  | Err err :: l => (Err err, l)
  | Panic :: l => (Panic, l)
  end.

Definition stream_next : st (list (BitResult BitIndexEntry)) (option BitIndexEntry) := λ l,
  match l with
  | [] => (Ok None, [])
  | Ok e :: l => (Ok (Some e), l)
  | Err err :: l => (Err err, l)
  | Panic :: l => (Panic, l)
  end.

Definition iw_on_old {A} (m : st (list (BitResult BitIndexEntry)) A) : st IndexWorktreeDiffIter A :=
  st_zoom iw_old (λ t o, mk_IndexWorktreeDiffIter (iw_index t) o (iw_new t)) m.
Definition iw_on_new {A} (m : st (list (BitResult BitIndexEntry)) A) : st IndexWorktreeDiffIter A :=
  st_zoom iw_new (λ t n, mk_IndexWorktreeDiffIter (iw_index t) (iw_old t) n) m.
Definition iw_on_index {A} (m : st BitIndexInner A) : st IndexWorktreeDiffIter A :=
  st_zoom iw_index (λ t i, mk_IndexWorktreeDiffIter i (iw_old t) (iw_new t)) m.

Definition iw_on_created (new : BitIndexEntry) : st IndexWorktreeDiffIter (option DiffEntry) :=
  _ ← iw_on_new stream_next; mret (Some (Created new)).

Definition iw_on_deleted (old : BitIndexEntry) : st IndexWorktreeDiffIter (option DiffEntry) :=
  _ ← iw_on_old stream_next; mret (Some (Deleted old)).

(** [on_modified!]: [None] goes on with the loop. *)
Definition iw_on_modified (old new : BitIndexEntry) : st IndexWorktreeDiffIter (option DiffEntry) :=
  '(changed, new) ← iw_on_index (has_changes old new);
  _ ← iw_on_old stream_next;
  _ ← iw_on_new stream_next;
  mret (if changed : bool then Some (Modified old new) else None).

Fixpoint index_worktree_next (n : nat) : st IndexWorktreeDiffIter (option DiffEntry) :=
  match n with
  | O => st_lift Panic
  | S n =>
      old ← iw_on_old stream_peek;
      new ← iw_on_new stream_peek;
      match old, new with
      | None, None => mret None
      | None, Some new => iw_on_created new
      | Some old, None => iw_on_deleted old
      | Some old, Some new =>
          match diff_cmp old new with
          | Lt => iw_on_deleted old
          | Gt => iw_on_created new
          | Eq =>
              o ← iw_on_modified old new;
              match o with Some e => mret (Some e) | None => index_worktree_next n end
          end
      end
  end.

(** [IndexWorktreeDiffDriver::run_diff]. *)
Fixpoint index_worktree_run {D} `{Differ D} (fuel n : nat) : st (D * IndexWorktreeDiffIter) unit :=
  match n with
  | O => st_lift Panic
  | S n =>
      o ← st_zoom snd (λ s i, (fst s, i)) (index_worktree_next fuel);
      match o with
      | Some e =>
          _ ← st_zoom fst (λ s d, (d, snd s)) (dispatch_entry e);
          index_worktree_run fuel n
      | None => mret tt
      end
  end.

(** [Differ for IndexWorktreeDiffer]. *)
#[export] Instance index_worktree_differ : Differ WorkspaceStatus := {|
  differ_on_created new := st_modify (push_new [new]);
  differ_on_modified old new := st_modify (push_modified [(old, new)]);
  differ_on_deleted old := st_modify (push_deleted [old]);
|}.

(** [IndexWorktreeDiffer::build_diff]: the entries of the index and of the worktree, filtered by
    [matches], which is [Pathspec::matches_path]; the status and the index afterwards. *)
Definition diff_worktree (fuel : nat) (matches : BitPath → bool)
    (worktree_iter : list (BitResult BitIndexEntry)) : st BitIndexInner WorkspaceStatus := λ idx,
  let keep := λ r : BitResult BitIndexEntry, match r with Ok e => matches (ie_path e) | _ => true end in
  let old := List.filter keep (Ok <$> std_iter idx) in
  let new := List.filter keep worktree_iter in
  match index_worktree_run fuel fuel (status_default, mk_IndexWorktreeDiffIter idx old new) with
  | (Ok _, (d, t)) => (Ok d, iw_index t)
  | (Err e, (_, t)) => (Err e, iw_index t)
  | (Panic, (_, t)) => (Panic, iw_index t)
  end.

(** ** Applying a diff to the index *)

(** [Differ for IndexApplier]. *)
Definition index_applier : Differ BitIndexInner := {|
  differ_on_created new := st_add_entry new;
  differ_on_modified _ new := st_add_entry new;
  differ_on_deleted old :=
    key ← st_lift (entry_key old);
    st_modify (λ idx, remove_entry idx key);
|}.

Definition apply_diff (s : WorkspaceStatus) : st BitIndexInner unit := apply_with (H := index_applier) s.

(** [BitIndex::add_all]. *)
Definition add_all (fuel : nat) (worktree_iter : list (BitResult BitIndexEntry)) : st BitIndexInner unit :=
  diff ← diff_worktree fuel (λ _, true) worktree_iter;
  apply_diff diff.
End repo.

(** ** EntryDiffIter *)

Record EntryDiffIter (R I J : Type) := mk_EntryDiffIter {
  ed_iter : TreeDiffIter R I J; ed_queue : list DiffEntry }.
Arguments mk_EntryDiffIter {R I J}.
Arguments ed_iter {R I J}.
Arguments ed_queue {R I J}.

Section entry_diff.
Context {R I J : Type} `{BitTreeIterator I} `{BitTreeIterator J}.
Context (is_worktree_entry_modified : BitIndexEntry → st R (bool * BitIndexEntry)).
Context (fuel : nat).

Abbreviation iter := (TreeDiffIter R I J).

(** [entries.iter_files()...collect()]. *)
Definition consumer_files (c : TreeEntriesConsumer) : st iter (list BitIndexEntry) :=
  match c with
  | OldEntries => on_old (iter_files fuel)
  | NewEntries => on_new (iter_files fuel)
  end.

(** What an entry of the tree diff gives: the entry that ends the loop, or the new queue. *)
Definition entry_queue (e : TreeDiffEntry) : st iter (DiffEntry + list DiffEntry) :=
  match e with
  | DeletedBlob deleted => mret (inl (Deleted deleted))
  | CreatedBlob created => mret (inl (Created created))
  | ModifiedBlob old new => mret (inl (Modified old new))
  | DeletedTree c => files ← consumer_files c; mret (inr (Deleted <$> files))
  | CreatedTree c => files ← consumer_files c; mret (inr (Created <$> files))
  | BlobToTree blob c => files ← consumer_files c; mret (inr (Deleted blob :: (Created <$> files)))
  | TreeToBlob c blob => files ← consumer_files c; mret (inr ((Deleted <$> files) ++ [Created blob]))
  | MaybeModifiedTree _ | UnmodifiedBlob _ => mret (inr [])
  | UnmodifiedTree _ => _ ← drop_entry e; mret (inr [])
  end.

Fixpoint entry_diff_next (n : nat) : st (EntryDiffIter R I J) (option DiffEntry) :=
  match n with
  | O => st_lift Panic
  | S n => λ s,
      match ed_queue s with
      | e :: queue => (Ok (Some e), mk_EntryDiffIter (ed_iter s) queue)
      | [] =>
          (o ← st_zoom ed_iter (λ s t, mk_EntryDiffIter t (ed_queue s))
                 (tree_diff_next is_worktree_entry_modified fuel);
           match o with
           | None => mret None
           | Some e =>
               next ← st_zoom ed_iter (λ s t, mk_EntryDiffIter t (ed_queue s)) (entry_queue e);
               match next with
               | inl e => mret (Some e)
               | inr queue =>
                   _ ← st_modify (λ s, mk_EntryDiffIter (ed_iter s) queue);
                   entry_diff_next n
               end
           end) s
      end
  end.

(** [Diff for EntryDiffIter]: the entries that [for_each] meets. *)
Fixpoint entry_diff_collect (n : nat) (acc : list DiffEntry) : st (EntryDiffIter R I J) (list DiffEntry) :=
  match n with
  | O => st_lift Panic
  | S n =>
      o ← entry_diff_next fuel;
      match o with
      | Some e => entry_diff_collect n (acc ++ [e])
      | None => mret acc
      end
  end.
End entry_diff.

(** ** Comparing an entry: what the answer means *)

Section compare.
Variable stat : BitPath → BitResult Metadata.
Variable write_worktree_blob : BitPath → BitResult Oid.
Variable hash_blob_from_worktree : BitPath → BitResult Oid.
Variable index_mtime : option Timespec.
(** The hash of what a file of the worktree contains. *)
Variable content : BitPath → Oid.

(** What racy git assumes: a file whose modification time is the recorded one has not been
    written to, unless it was recorded no earlier than the index was written.  A hash that the
    entry carries is the one of the file. *)
Definition honest (idxe wte : BitIndexEntry) : Prop :=
  (ie_mtime idxe = ie_mtime wte → is_racy_entry index_mtime idxe = false →
     content (ie_path wte) = ie_oid idxe)
  ∧ (is_known (ie_oid wte) = true → ie_oid wte = content (ie_path wte))
  ∧ is_known (ie_oid idxe) = true.

(** The hash that [has_changes] compares. *)
Definition wte_oid (wte : BitIndexEntry) : Oid :=
  if is_unknown (ie_oid wte) then content (ie_path wte) else ie_oid wte.

(** What [has_changes] answers, and the entry it leaves. *)
Definition changed_spec (idxe wte : BitIndexEntry) : bool :=
  match has_changes_inner index_mtime idxe wte with
  | Yes => true
  | No => false
  | Maybe => bool_decide (ie_oid idxe ≠ wte_oid wte)
  end.

Definition updated_spec (idxe wte : BitIndexEntry) : BitIndexEntry :=
  match has_changes_inner index_mtime idxe wte with
  | Maybe => with_oid wte (wte_oid wte)
  | _ => wte
  end.

(** [has_changes] refreshes the index when only the hash shows that the file is the same. *)
Definition refreshes (idxe wte : BitIndexEntry) : bool :=
  match has_changes_inner index_mtime idxe wte with
  | Maybe => bool_decide (ie_oid idxe = wte_oid wte)
  | _ => false
  end.

Lemma has_changes_eq idxe wte idx :
  hash_blob_from_worktree (ie_path wte) = Ok (content (ie_path wte)) →
  has_changes stat write_worktree_blob hash_blob_from_worktree index_mtime idxe wte idx
  = if refreshes idxe wte then
      (_ ← st_add_entry stat write_worktree_blob (updated_spec idxe wte);
       mret (false, updated_spec idxe wte)) idx
    else (Ok (changed_spec idxe wte, updated_spec idxe wte), idx).
Proof.
  intros Hhash. unfold has_changes, refreshes, changed_spec, updated_spec.
  destruct (has_changes_inner index_mtime idxe wte); [done|done|].
  rewrite (st_bind_ok _ _ idx idx (wte_oid wte)).
  2: { unfold wte_oid. destruct (is_unknown (ie_oid wte)); [|done]. by rewrite Hhash. }
  cbn [ie_oid with_oid]. rewrite bool_decide_not.
  by destruct (bool_decide (ie_oid idxe = wte_oid wte)).
Qed.

Lemma wte_oid_content idxe wte : honest idxe wte → wte_oid wte = content (ie_path wte).
Proof.
  intros (_ & Hk & _). unfold wte_oid. destruct (is_unknown (ie_oid wte)) eqn:E; [done|].
  apply Hk. unfold is_unknown, is_known in *. rewrite bool_decide_not. by rewrite E.
Qed.

Lemma has_changes_inner_cases idxe wte :
  match has_changes_inner index_mtime idxe wte with
  | No => ie_oid idxe = ie_oid wte
          ∨ ie_mtime idxe = ie_mtime wte ∧ is_racy_entry index_mtime idxe = false
  | Yes => (ie_oid idxe ≠ ie_oid wte ∧ is_known (ie_oid wte) = true)
           ∨ ie_filesize idxe ≠ ie_filesize wte ∨ ie_inode idxe ≠ ie_inode wte
           ∨ ie_mode idxe ≠ ie_mode wte
  | Maybe => True
  end.
Proof.
  unfold has_changes_inner, mode_eq. cbn.
  destruct (bool_decide_reflect (ie_oid idxe = ie_oid wte)); [by left|].
  destruct (is_known (ie_oid wte)); [by left|].
  destruct (bool_decide_reflect (ie_mtime idxe = ie_mtime wte)),
    (is_racy_entry index_mtime idxe); cbn [andb negb]; try tauto;
    repeat match goal with
    | |- context [bool_decide ?P] => destruct (bool_decide_reflect P); cbn [negb]
    end; tauto.
Qed.

Lemma unchanged_content idxe wte :
  honest idxe wte → changed_spec idxe wte = false → content (ie_path wte) = ie_oid idxe.
Proof.
  intros Hh. pose proof (wte_oid_content _ _ Hh) as Hw. pose proof Hh as (Hm & Hk & Hki).
  unfold changed_spec. pose proof (has_changes_inner_cases idxe wte) as Hc.
  destruct (has_changes_inner index_mtime idxe wte); [done| |].
  - intros _. destruct Hc as [E|[E1 E2]]; [|by apply Hm].
    rewrite E. symmetry. apply Hk. by rewrite <- E.
  - rewrite bool_decide_not. destruct (bool_decide_reflect (ie_oid idxe = wte_oid wte)); [|done].
    congruence.
Qed.

Lemma changed_reason idxe wte :
  honest idxe wte → changed_spec idxe wte = true →
  content (ie_path wte) ≠ ie_oid idxe ∨ ie_filesize idxe ≠ ie_filesize wte
  ∨ ie_inode idxe ≠ ie_inode wte ∨ ie_mode idxe ≠ ie_mode wte.
Proof.
  intros Hh. pose proof (wte_oid_content _ _ Hh) as Hw. pose proof Hh as (Hm & Hk & Hki).
  unfold changed_spec. pose proof (has_changes_inner_cases idxe wte) as Hc.
  destruct (has_changes_inner index_mtime idxe wte); [|done|].
  - intros _. destruct Hc as [[Hne Hkn]|Hc]; [|by right]. left. rewrite <- Hk by done. congruence.
  - rewrite bool_decide_not. destruct (bool_decide_reflect (ie_oid idxe = wte_oid wte)); [done|].
    left. congruence.
Qed.

(** C33: A comparison with the worktree is safe: a file that [has_changes] calls unchanged has the
    content that the index records, and for one it calls changed the content, the size, the
    inode or the mode differs.  The answer does not depend on the entries of the index, and the
    index is left alone unless hashing showed that the file is the same. *)
Theorem has_changes_sound idxe wte idx :
  honest idxe wte → hash_blob_from_worktree (ie_path wte) = Ok (content (ie_path wte)) →
  match has_changes stat write_worktree_blob hash_blob_from_worktree index_mtime idxe wte idx with
  | (Ok (false, wte'), _) => content (ie_path wte) = ie_oid idxe ∧ ie_path wte' = ie_path wte
  | (Ok (true, wte'), idx') =>
      (content (ie_path wte) ≠ ie_oid idxe ∨ ie_filesize idxe ≠ ie_filesize wte
       ∨ ie_inode idxe ≠ ie_inode wte ∨ ie_mode idxe ≠ ie_mode wte)
      ∧ ie_path wte' = ie_path wte ∧ idx' = idx
  | (Err _, _) | (Panic, _) =>
      content (ie_path wte) = ie_oid idxe
      ∧ is_ok (fst (st_add_entry stat write_worktree_blob (with_oid wte (content (ie_path wte))) idx)) = false
  end.
Proof.
  intros Hh Hhash. rewrite has_changes_eq by done.
  assert (ie_path (updated_spec idxe wte) = ie_path wte) as Hp.
  { unfold updated_spec. by destruct (has_changes_inner _ _ _). }
  destruct (refreshes idxe wte) eqn:Hr.
  - assert (changed_spec idxe wte = false ∧ updated_spec idxe wte = with_oid wte (content (ie_path wte))) as [Hc Hu].
    { unfold refreshes, changed_spec, updated_spec in *. rewrite <- (wte_oid_content _ _ Hh).
      destruct (has_changes_inner _ _ _); [done|done|]. apply bool_decide_eq_true in Hr.
      split; [|done]. rewrite bool_decide_not. by rewrite bool_decide_true. }
    pose proof (unchanged_content _ _ Hh Hc) as Hcont.
    unfold mbind, st_bind. rewrite <- Hu.
    destruct (st_add_entry _ _ _ idx) as [[[]|e|] idx'] eqn:E; cbn; try done; split; done.
  - destruct (changed_spec idxe wte) eqn:Hc.
    + split; [by apply changed_reason|done].
    + split; [by apply unchanged_content|done].
Qed.
End compare.

Definition with_stat (e : BitIndexEntry) (mtime : Timespec) (inode : Z) (mode : FileMode) (oid : Oid) :=
  mk_BitIndexEntry (ie_ctime e) mtime (ie_device e) inode mode (ie_uid e) (ie_gid e) (ie_filesize e)
    oid (ie_flags e) (ie_extended_flags e) (ie_path e).

(** The file of [plain_entry], touched since, and hashed to the recorded content. *)
Definition touched_entry : BitIndexEntry :=
  with_stat (plain_entry (bs "a")) (mk_Timespec 9 9) (ie_inode (plain_entry (bs "a")))
    (ie_mode (plain_entry (bs "a"))) UNKNOWN.

Lemma has_changes_sound_witness :
  honest (Some (mk_Timespec 5 0)) (λ _, EMPTY_BLOB) (plain_entry (bs "a")) touched_entry
  ∧ fst (has_changes no_stat no_write (λ _, Ok EMPTY_BLOB) (Some (mk_Timespec 5 0))
           (plain_entry (bs "a")) touched_entry (plain_index [bs "a"]))
    = Ok (false, with_oid touched_entry EMPTY_BLOB)
  ∧ EMPTY_BLOB = ie_oid (plain_entry (bs "a")).
Proof.
  assert (honest (Some (mk_Timespec 5 0)) (λ _, EMPTY_BLOB) (plain_entry (bs "a")) touched_entry) as Hh.
  { split_and!; [done|done|reflexivity]. }
  split; [exact Hh|].
  pose proof (has_changes_sound no_stat no_write (λ _, Ok EMPTY_BLOB) (Some (mk_Timespec 5 0))
    (λ _, EMPTY_BLOB) (plain_entry (bs "a")) touched_entry (plain_index [bs "a"]) Hh eq_refl) as H.
  destruct (has_changes _ _ _ _ _ _ _) as [r idx'] eqn:E.
  assert (r = Ok (false, with_oid touched_entry EMPTY_BLOB)) as ->.
  { apply (f_equal fst) in E. cbn in E. rewrite <- E. vm_compute. reflexivity. }
  split; [reflexivity|]. apply H.
Defined.

(** ** The diff of the index against the worktree *)

(** Files only, with strictly increasing paths. *)
Definition flat_list (l : list BitIndexEntry) : Prop :=
  StronglySorted (λ a b, path_cmp (ie_path a) (ie_path b) = Lt) l
  ∧ Forall (λ e, entry_is_blob e = true) l.

Lemma flat_no_tree l x : flat_list l → x ∈ l → entry_is_tree x = false.
Proof.
  intros [_ Hb] Hx. rewrite Forall_forall in Hb. specialize (Hb x Hx).
  unfold entry_is_blob, entry_is_tree in *. by destruct (entry_mode x).
Qed.

Lemma flat_tail x l : flat_list (x :: l) → flat_list l.
Proof. intros [Hs Hb]. inversion_clear Hs. by inversion_clear Hb. Qed.

Lemma flat_diff_list l : flat_list l → diff_list l.
Proof.
  intros Hl. split; [apply Hl|]. split.
  - eapply Forall_impl; [apply Hl|]. intros x. unfold entry_is_blob. cbn. by destruct (ie_mode x).
  - induction l as [|x l IH]; [done|]. split; [|by apply IH, (flat_tail x)].
    by rewrite (flat_no_tree _ x Hl) by apply list_elem_of_here.
Qed.

Lemma flat_comparable chg O N : flat_list O → flat_list N → comparable chg O N.
Proof.
  intros HO HN. refine (conj _ (conj _ (conj _ (conj _ _)))); [by apply flat_diff_list..| | |].
  - intros t q Ht. by rewrite (flat_no_tree O t).
  - intros t q Ht. by rewrite (flat_no_tree N t).
  - intros t Ht. by rewrite (flat_no_tree O t).
Qed.

Section index_worktree.
Variable stat : BitPath → BitResult Metadata.
Variable write_worktree_blob : BitPath → BitResult Oid.
Variable hash_blob_from_worktree : BitPath → BitResult Oid.
Variable index_mtime : option Timespec.
Variable chg : BitIndexEntry → BitIndexEntry → bool.
Variable upd : BitIndexEntry → BitIndexEntry → BitIndexEntry.
Variable inv : BitIndexInner → Prop.
Variables O0 N0 : list BitIndexEntry.
Hypothesis Hcompare : ∀ x y idx, x ∈ O0 → y ∈ N0 → ie_path x = ie_path y → inv idx →
  ∃ idx', has_changes stat write_worktree_blob hash_blob_from_worktree index_mtime x y idx
          = (Ok (chg x y, upd x y), idx') ∧ inv idx'.

Abbreviation next := (index_worktree_next stat write_worktree_blob hash_blob_from_worktree index_mtime).

(** The differ with the lists still to come. *)
Definition iw_at (idx : BitIndexInner) (O N : list BitIndexEntry) : IndexWorktreeDiffIter :=
  mk_IndexWorktreeDiffIter idx (Ok <$> O) (Ok <$> N).

Definition entry_of (e : TreeDiffEntry) : option DiffEntry :=
  match e with
  | DeletedBlob x => Some (Deleted x)
  | CreatedBlob y => Some (Created y)
  | ModifiedBlob x y => Some (Modified x y)
  | _ => None
  end.

(** One round of the loop is one of the walk of trees, of which only the cases for files occur. *)
Lemma index_worktree_round n idx O N :
  inv idx → flat_list O → flat_list N → O ⊆ O0 → N ⊆ N0 →
  match diff_event chg upd O N with
  | None => next (S n) (iw_at idx O N) = (Ok None, iw_at idx O N)
  | Some (e, (O1, N1)) => ∃ idx', inv idx'
      ∧ next (S n) (iw_at idx O N)
        = match e with
          | Some e => (Ok (entry_of e), iw_at idx' O1 N1)
          | None => next n (iw_at idx' O1 N1)
          end
      ∧ after_event e O1 N1 = (O1, N1) ∧ (∀ e', e = Some e' → is_Some (entry_of e'))
  end.
Proof.
  intros Hi HO HN HsO HsN. destruct O as [|x O], N as [|y N]; cbn [diff_event].
  - done.
  - unfold created_event. rewrite (flat_no_tree _ y HN) by apply list_elem_of_here.
    exists idx. split_and!; [done|done|done|]. by intros ? [= <-].
  - unfold deleted_event. rewrite (flat_no_tree _ x HO) by apply list_elem_of_here.
    exists idx. split_and!; [done|done|done|]. by intros ? [= <-].
  - pose proof (flat_no_tree _ x HO (list_elem_of_here _ _)) as Hx.
    pose proof (flat_no_tree _ y HN (list_elem_of_here _ _)) as Hy.
    unfold created_event, deleted_event, matched_event. rewrite Hx, Hy.
    destruct (path_cmp_total_order (ie_path x) (ie_path y) []) as (_ & Heq & _).
    unfold next. cbn [index_worktree_next].
    rewrite (st_bind_ok _ _ (iw_at idx (x :: O) (y :: N)) (iw_at idx (x :: O) (y :: N)) (Some x)) by done.
    rewrite (st_bind_ok _ _ (iw_at idx (x :: O) (y :: N)) (iw_at idx (x :: O) (y :: N)) (Some y)) by done.
    destruct (diff_cmp x y) eqn:E.
    + destruct (Hcompare x y idx) as (idx' & Ec & Hi');
        [apply HsO, list_elem_of_here|apply HsN, list_elem_of_here|by apply Heq|done|].
      exists idx'. split; [done|].
      assert (iw_on_modified stat write_worktree_blob hash_blob_from_worktree index_mtime x y
          (iw_at idx (x :: O) (y :: N))
        = (Ok (if chg x y then Some (Modified x (upd x y)) else None), iw_at idx' O N)) as Em.
      { unfold iw_on_modified. rewrite (st_bind_ok _ _ _ (iw_at idx' (x :: O) (y :: N)) (chg x y, upd x y)).
        - done.
        - unfold iw_on_index, st_zoom, iw_at. cbn. by rewrite Ec. }
      rewrite (st_bind_ok _ _ _ _ _ Em). destruct (chg x y); (split_and!; [done|done|]);
        [by intros ? [= <-]|done].
    + exists idx. split_and!; [done|done|done|]. by intros ? [= <-].
    + exists idx. split_and!; [done|done|done|]. by intros ? [= <-].
Qed.

Lemma step_of_subset (l l' : list BitIndexEntry) : step_of l l' → flat_list l → l' ⊆ l ∧ flat_list l'.
Proof.
  intros [->|[->| ->]] Hl; [done|..]; destruct l as [|x l]; cbn; try done.
  - split; [by apply list_subseteq_cons|by eapply flat_tail].
  - rewrite (flat_no_tree _ x Hl) by apply list_elem_of_here.
    split; [by apply list_subseteq_cons|by eapply flat_tail].
Qed.

Lemma index_worktree_next_spec n idx O N :
  inv idx → flat_list O → flat_list N → O ⊆ O0 → N ⊆ N0 → length O + length N < n →
  ∃ e O1 N1 idx', next_event chg upd O N e O1 N1 ∧ inv idx'
    ∧ next n (iw_at idx O N) = (Ok (e ≫= entry_of), iw_at idx' O1 N1)
    ∧ after_event e O1 N1 = (O1, N1) ∧ (∀ e', e = Some e' → is_Some (entry_of e'))
    ∧ (O1 ⊆ O ∧ flat_list O1) ∧ (N1 ⊆ N ∧ flat_list N1).
Proof.
  revert idx O N. induction n as [|n IH]; intros idx O N Hi HO HN HsO HsN Hn; [lia|].
  pose proof (index_worktree_round n idx O N Hi HO HN HsO HsN) as Hr.
  destruct (diff_event chg upd O N) as [[[e|] [O1 N1]]|] eqn:E.
  - destruct Hr as (idx' & Hi' & Er & Ha & He).
    destruct (diff_event_steps _ _ _ _ _ _ _ E) as [S1 S2].
    exists (Some e), O1, N1, idx'. split; [by apply next_entry|].
    split; [done|]. split; [by rewrite Er|]. split; [done|]. split; [done|].
    split; by apply step_of_subset.
  - destruct Hr as (idx' & Hi' & Er & _ & _).
    destruct (diff_event_steps _ _ _ _ _ _ _ E) as [S1 S2].
    destruct (step_of_subset _ _ S1 HO) as [I1 F1]. destruct (step_of_subset _ _ S2 HN) as [I2 F2].
    pose proof (event_accounts chg upd O N None O1 N1 (flat_comparable _ _ _ HO HN) E) as (_ & _ & Hlen).
    destruct (IH idx' O1 N1 Hi' F1 F2) as (e & O2 & N2 & idx2 & Hne & Hi2 & E2 & Ha & He & [? ?] & [? ?]);
      [by etrans|by etrans|lia|].
    exists e, O2, N2, idx2. split; [by apply (next_skip _ _ O N O1 N1)|]. rewrite Er.
    split; [done|]. split; [done|]. split; [done|]. split; [done|]. split; (split; [by etrans|done]).
  - destruct (diff_event_end _ _ _ _ E) as [-> ->].
    exists None, [], [], idx. split; [apply next_end|]. by split_and!.
Qed.

Lemma index_worktree_run_spec fuel n d idx O N :
  inv idx → flat_list O → flat_list N → O ⊆ O0 → N ⊆ N0 →
  length O + length N < n → length O + length N < fuel →
  ∃ idx', index_worktree_run (H := index_worktree_differ)
            stat write_worktree_blob hash_blob_from_worktree index_mtime fuel n (d, iw_at idx O N)
          = (Ok tt, (status_app d (diff_spec chg upd O N), iw_at idx' [] [])) ∧ inv idx'.
Proof.
  revert d idx O N. induction n as [|n IH]; intros d idx O N Hi HO HN HsO HsN Hn Hf; [lia|].
  cbn [index_worktree_run].
  destruct (index_worktree_next_spec fuel idx O N Hi HO HN HsO HsN Hf)
    as (e & O1 & N1 & idx1 & Hne & Hi1 & E1 & Ha & He & [I1 F1] & [I2 F2]).
  rewrite (st_bind_ok _ _ (d, iw_at idx O N) (d, iw_at idx1 O1 N1) (e ≫= entry_of))
    by by (unfold st_zoom; cbn [snd fst]; rewrite E1).
  pose proof (next_event_accounts _ _ _ _ _ _ _ Hne (flat_comparable _ _ _ HO HN)) as Hacc.
  destruct e as [e|]; cbn [mbind option_bind].
  - rewrite Ha in Hacc. destruct Hacc as (_ & Hlen & ->). destruct (He e eq_refl) as [de Ede].
    rewrite Ede. rewrite <- status_app_assoc.
    rewrite (st_bind_ok _ _ (d, iw_at idx1 O1 N1)
      (status_app d (event_status (Some e) O1 N1), iw_at idx1 O1 N1) tt).
    + apply IH; [done|done|done|by etrans|by etrans|lia|lia].
    + unfold st_zoom, status_app. destruct e; cbn in Ede; try done; injection Ede as <-; cbn;
        by rewrite !app_nil_r.
  - exists idx1. rewrite Hacc, status_app_default. split; [|done].
    assert (O1 = [] ∧ N1 = []) as [-> ->]; [|done].
    clear - Hne. remember None as o eqn:Eo. induction Hne; [done|done|by auto].
Qed.
End index_worktree.

(** ** The index and the worktree together *)

(** No path lies below another one. *)
Definition prefix_free (W : list BitPath) : Prop := ∀ p q, p ∈ W → q ∈ W → ¬ under p q.

(** A valid index without conflicts, all of whose paths are in [W]. *)
Definition clean (W : list BitPath) (idx : BitIndexInner) : Prop :=
  index_wf idx ∧ ∀ kv, kv ∈ idx_entries idx → kv.1.2 = NONE ∧ kv.1.1 ∈ W.

(** The paths have the same hashes in both. *)
Definition same_oids (idx0 idx : BitIndexInner) : Prop :=
  ∀ k o, (∃ e, (k, e) ∈ idx_entries idx ∧ ie_oid e = o) ↔ (∃ e, (k, e) ∈ idx_entries idx0 ∧ ie_oid e = o).

Section worktree.
Variable stat : BitPath → BitResult Metadata.
Variable write_worktree_blob : BitPath → BitResult Oid.
Variable hash_blob_from_worktree : BitPath → BitResult Oid.
Variable index_mtime : option Timespec.
Variable content : BitPath → Oid.

(** An entry as the worktree iterator makes it: its metadata is filled in, the file can be hashed and
    stored, and the hash of the entry, when it has one, is that of the file. *)
Definition worktree_entry_ok (y : BitIndexEntry) : Prop :=
  entry_is_blob y = true ∧ is_filled y = true ∧ entry_key y = Ok (ie_path y, NONE)
  ∧ index_entry_wf (with_oid y (content (ie_path y))) ∧ norm_path (ie_path y)
  ∧ utf8_valid (ie_path y) = true
  ∧ (is_known (ie_oid y) = true → ie_oid y = content (ie_path y))
  ∧ hash_blob_from_worktree (ie_path y) = Ok (content (ie_path y))
  ∧ write_worktree_blob (ie_path y) = Ok (content (ie_path y)).

Lemma entry_write_ok y :
  worktree_entry_ok y → entry_write write_worktree_blob y = Ok (content (ie_path y)).
Proof.
  intros (_ & _ & _ & _ & _ & _ & Hk & _ & Hw). unfold entry_write. destruct (is_known (ie_oid y)); [|done].
  by rewrite Hk.
Qed.

Lemma worktree_entry_ok_oid y :
  worktree_entry_ok y → worktree_entry_ok (with_oid y (content (ie_path y))).
Proof. intros (? & ? & ? & ? & ? & ? & Hk & ? & ?). by split_and!. Qed.

Lemma add_clean W idx y :
  prefix_free W → clean W idx → ie_path y ∈ W → worktree_entry_ok y →
  ∃ idx', st_add_entry stat write_worktree_blob y idx = (Ok tt, idx') ∧ clean W idx'
    ∧ ∀ kv, kv ∈ idx_entries idx' ↔
        kv = ((ie_path y, NONE), with_oid y (content (ie_path y)))
        ∨ kv ∈ idx_entries idx ∧ kv.1.1 ≠ ie_path y.
Proof.
  intros HW [Hwf Hc] Hy Hok. pose proof Hok as (_ & Hfill & Hkey & Hewf & Hn & Hu & _).
  destruct (add_entry_ok stat write_worktree_blob idx y y (content (ie_path y)) Hwf)
    as (idx' & E & Hwf' & Hat & _ & Hsub & Hkeep & _); try done.
  { unfold fill. by rewrite Hfill. }
  { by apply entry_write_ok. }
  assert (∀ kv, kv ∈ idx_entries idx' ↔
    kv = ((ie_path y, NONE), with_oid y (content (ie_path y)))
    ∨ kv ∈ idx_entries idx ∧ kv.1.1 ≠ ie_path y) as Hin.
  { intros [[p s] e]. cbn. destruct (decide (p = ie_path y)) as [->|Hne].
    - rewrite Hat. split; [intros [-> ->]; by left|]. intros [[= -> ->]|[_ ?]]; done.
    - split.
      + intros H. right. split; [|done]. by apply (Hsub _ H).
      + intros [[= ? ? ?]|[H _]]; [done|]. apply (Hkeep _ H Hne). intros [_ Hun].
        destruct (Hc _ H) as [_ HpW]. cbn in *.
        destruct Hun as [Hun|Hun]; by eapply HW; [| |exact Hun]. }
  exists idx'. unfold st_add_entry. rewrite E. split; [done|]. split; [|done]. split; [done|].
  intros kv [->|[H _]]%Hin; [done|by apply Hc].
Qed.

(** Adding entries one after the other: [G] is what is known to be up to date. *)
Lemma add_all_clean {A} (f : A → BitIndexEntry) W l G idx :
  prefix_free W → clean W idx →
  Forall (λ a, worktree_entry_ok (f a) ∧ ie_path (f a) ∈ W) l →
  (∀ kv, kv ∈ idx_entries idx → kv.1.1 ∈ G → ie_oid kv.2 = content kv.1.1) →
  (∀ p, p ∈ G → ∃ e, ((p, NONE), e) ∈ idx_entries idx) →
  ∃ idx', st_for_each (λ a, st_add_entry stat write_worktree_blob (f a)) l idx = (Ok tt, idx') ∧ clean W idx'
    ∧ (∀ kv, kv ∈ idx_entries idx' → kv.1.1 ∈ G ++ ((λ a, ie_path (f a)) <$> l) →
         ie_oid kv.2 = content kv.1.1)
    ∧ (∀ p, p ∈ G ++ ((λ a, ie_path (f a)) <$> l) → ∃ e, ((p, NONE), e) ∈ idx_entries idx').
Proof.
  intros HW. revert G idx. induction l as [|a l IH]; intros G idx Hc Hl Hup Hpres.
  - exists idx. cbn. rewrite app_nil_r. done.
  - inversion_clear Hl as [|?? [Ha HaW] Hl'].
    destruct (add_clean W idx (f a) HW Hc HaW Ha) as (idx1 & E1 & Hc1 & Hin1).
    destruct (IH (G ++ [ie_path (f a)]) idx1 Hc1 Hl') as (idx2 & E2 & Hc2 & Hup2 & Hp2).
    + intros kv [->|[H Hne]]%Hin1; [done|]. rewrite elem_of_app, list_elem_of_singleton.
      intros [HG|?]; [by apply Hup|done].
    + intros p. rewrite elem_of_app, list_elem_of_singleton. intros [HG| ->].
      * destruct (decide (p = ie_path (f a))) as [->|Hne]; [eexists; apply Hin1; by left|].
        destruct (Hpres p HG) as [e He]. exists e. apply Hin1. by right.
      * eexists. apply Hin1. by left.
    + exists idx2. cbn [st_for_each fmap list_fmap]. rewrite (st_bind_ok _ _ _ _ _ E1).
      rewrite <- app_assoc in Hup2, Hp2. done.
Qed.

(** Removing entries one after the other. *)
Lemma remove_all_clean W l idx :
  clean W idx → Forall (λ x, entry_key x = Ok (ie_path x, NONE)) l →
  ∃ idx', st_for_each (differ_on_deleted (Differ := index_applier stat write_worktree_blob)) l idx
          = (Ok tt, idx') ∧ clean W idx'
    ∧ ∀ kv, kv ∈ idx_entries idx' ↔ kv ∈ idx_entries idx ∧ kv.1.1 ∉ ie_path <$> l.
Proof.
  intros Hc Hl. revert idx Hc. induction Hl as [|x l Hx Hl IH]; intros idx Hc.
  - exists idx. split; [done|]. split; [done|]. intros kv. cbn. rewrite elem_of_nil. tauto.
  - pose proof Hc as [Hwf Hk]. set (idx1 := remove_entry idx (ie_path x, NONE)).
    pose proof (remove_entry_entries idx (ie_path x, NONE) (proj1 Hwf)) as E1. fold idx1 in E1.
    assert (clean W idx1) as Hc1.
    { split; [by eapply index_wf_filter|]. intros kv. rewrite E1, list_elem_of_filter.
      intros [_ H]. by apply Hk. }
    destruct (IH idx1 Hc1) as (idx2 & E2 & Hc2 & Hin2). exists idx2. cbn [st_for_each].
    rewrite (st_bind_ok _ _ idx idx1 tt).
    2: { cbn. by rewrite (st_bind_ok _ _ idx idx (ie_path x, NONE)) by by rewrite Hx. }
    split; [done|]. split; [done|]. intros kv. rewrite Hin2, E1, list_elem_of_filter. cbn.
    rewrite not_elem_of_cons. split.
    + intros [[H1 H2] H3]. split_and!; [done| |done]. intros Ep. apply H1.
      destruct kv as [[p s] e]. cbn in *. destruct (Hk _ H2) as [Hs _]. cbn in Hs. by subst.
    + intros [H1 [H2 H3]]. split_and!; [|done|done]. intros Ek. by rewrite Ek in H2.
Qed.

Lemma clean_entry W idx kv :
  clean W idx → kv ∈ idx_entries idx →
  kv.1 = (ie_path kv.2, NONE) ∧ entry_key kv.2 = Ok (ie_path kv.2, NONE) ∧ ie_path kv.2 ∈ W.
Proof.
  intros [[_ Hf] Hc] Hin. rewrite Forall_forall in Hf. destruct (Hf kv Hin) as (Hkey & _ & _).
  destruct (Hc kv Hin) as [Hs HW]. destruct kv as [[p s] e]. cbn in *. subst s.
  unfold entry_key in *. destruct (entry_stage e); cbn in *; [|done|done].
  injection Hkey as -> ->. done.
Qed.

Lemma elem_of_std_iter idx e :
  e ∈ std_iter idx ↔ entry_is_gitlink e = false ∧ ∃ k, (k, e) ∈ idx_entries idx.
Proof.
  unfold std_iter. rewrite list_elem_of_filter, list_elem_of_fmap.
  split; intros [H1 H2]; (split; [done|]); [destruct H2 as ([k e'] & -> & ?); by exists k|].
  destruct H2 as [k ?]. by exists (k, e).
Qed.

(** The index has files only, no submodules. *)
Definition files_only (idx : BitIndexInner) : Prop :=
  Forall (λ kv, entry_is_blob kv.2 = true) (idx_entries idx).

Lemma clean_flat W idx : clean W idx → files_only idx → flat_list (std_iter idx).
Proof.
  intros Hc Hb. split.
  - eapply StronglySorted_sublist; [apply sublist_filter|].
    pose proof Hc as [[Hs _] _]. unfold bt_sorted in Hs.
    assert (∀ kv, kv ∈ idx_entries idx → kv.1 = (ie_path kv.2, NONE)) as Hk
      by (intros kv Hin; by apply (clean_entry W idx)).
    clear Hc Hb. induction Hs as [|kv l Hs IH Hkv]; [constructor|]. cbn. constructor.
    + apply IH. intros kv' Hin. apply Hk. by right.
    + apply Forall_forall. intros e ([k' e'] & -> & Hin)%list_elem_of_fmap.
      pose proof (proj1 (Forall_forall _ _) Hkv _ Hin) as Hlt. cbn in Hlt |- *.
      rewrite (Hk kv) in Hlt by apply list_elem_of_here. pose proof (Hk (k', e')) as Hk'.
      cbn in Hk'. rewrite Hk' in Hlt by by right. unfold key_cmp, pair_cmp in Hlt. cbn in Hlt.
      by destruct (path_cmp (ie_path kv.2) (ie_path e')).
  - rewrite Forall_forall. intros e (_ & k & Hin)%elem_of_std_iter.
    unfold files_only in Hb. rewrite Forall_forall in Hb. by apply (Hb (k, e)).
Qed.

Lemma same_oids_refl idx : same_oids idx idx.
Proof. done. Qed.

Lemma flat_inj l x y : flat_list l → x ∈ l → y ∈ l → ie_path x = ie_path y → x = y.
Proof. intros Hl. by apply diff_list_inj, flat_diff_list. Qed.

Lemma index_functional idx k e e' :
  index_wf idx → (k, e) ∈ idx_entries idx → (k, e') ∈ idx_entries idx → e = e'.
Proof.
  intros [Hs _] H1 H2. apply (bt_get_Some key_cmp) in H1, H2; [|done..]. congruence.
Qed.

(** A comparison keeps the paths and hashes of the index. *)
Lemma has_changes_keeps W idx0 x y idx :
  prefix_free W → clean W idx0 → clean W idx → same_oids idx0 idx → x ∈ std_iter idx0 →
  ie_path x = ie_path y → worktree_entry_ok y → honest index_mtime content x y →
  ∃ idx', has_changes stat write_worktree_blob hash_blob_from_worktree index_mtime x y idx
          = (Ok (changed_spec index_mtime content x y, updated_spec index_mtime content x y), idx')
    ∧ clean W idx' ∧ same_oids idx0 idx'.
Proof.
  intros HW Hc0 Hc Hsame Hx Ep Hy Hh.
  rewrite (has_changes_eq _ _ _ _ content) by apply Hy.
  destruct (refreshes index_mtime content x y) eqn:Hr; [|by exists idx].
  assert (changed_spec index_mtime content x y = false
    ∧ updated_spec index_mtime content x y = with_oid y (content (ie_path y))) as [Hch Hu].
  { unfold refreshes, changed_spec, updated_spec in *. rewrite <- (wte_oid_content _ _ _ _ Hh).
    destruct (has_changes_inner _ _ _); [done|done|]. apply bool_decide_eq_true in Hr.
    split; [|done]. rewrite bool_decide_not. by rewrite bool_decide_true. }
  pose proof (unchanged_content _ _ _ _ Hh Hch) as Hcont. rewrite Hch, Hu.
  apply elem_of_std_iter in Hx as (_ & k & Hkx).
  destruct (clean_entry W idx0 (k, x) Hc0 Hkx) as (Ekx & _ & HxW). cbn in Ekx, HxW. subst k.
  destruct (add_clean W idx (with_oid y (content (ie_path y))) HW Hc) as (idx' & E & Hc' & Hin);
    [by rewrite Ep in HxW|by apply worktree_entry_ok_oid|].
  exists idx'. rewrite (st_bind_ok _ _ _ _ _ E). split; [done|]. split; [done|].
  intros k o. rewrite <- (Hsame k o). cbn in Hin. split.
  - intros (e & [[= -> ->]|[He _]]%Hin & Ho); [|by exists e].
    cbn in Ho. subst o. apply (Hsame (ie_path y, NONE) _). exists x. rewrite <- Ep. split; [done|].
    by rewrite <- Hcont, Ep.
  - intros (e & He & Ho). destruct (decide (k.1 = ie_path y)) as [Ek|Hne].
    + destruct (clean_entry W idx (k, e) Hc He) as (Ek' & _ & _). cbn in Ek'.
      assert (k = (ie_path y, NONE)) as -> by (rewrite Ek' in *; cbn in Ek; by rewrite Ek).
      eexists. split; [apply Hin; by left|]. cbn.
      destruct (proj1 (Hsame _ _) (ex_intro _ e (conj He Ho))) as (e0 & He0 & <-).
      rewrite Hcont. f_equal. apply (index_functional idx0 (ie_path y, NONE)); [apply Hc0| |done].
      by rewrite <- Ep.
    + exists e. split; [|done]. apply Hin. by right.
Qed.

Abbreviation chg := (changed_spec index_mtime content).
Abbreviation upd := (updated_spec index_mtime content).

(** Matching entries are files whose recorded state is honest. *)
Definition honest_worktree (idx : BitIndexInner) (N : list BitIndexEntry) : Prop :=
  ∀ x y, x ∈ std_iter idx → y ∈ N → ie_path x = ie_path y → honest index_mtime content x y.

Lemma flat_filter (f : BitIndexEntry → bool) l : flat_list l → flat_list (List.filter f l).
Proof.
  intros [Hs Hb]. split.
  - induction Hs as [|x l Hs IH Hx]; cbn; [constructor|]. inversion_clear Hb.
    destruct (f x); [|by apply IH]. constructor; [by apply IH|].
    apply Forall_forall. intros y Hy%list_elem_of_In. apply List.filter_In in Hy as [Hy%list_elem_of_In _].
    by apply (proj1 (Forall_forall _ _) Hx).
  - apply Forall_forall. intros y Hy%list_elem_of_In. apply List.filter_In in Hy as [Hy%list_elem_of_In _].
    by apply (proj1 (Forall_forall _ _) Hb).
Qed.

Lemma filter_subset (f : BitIndexEntry → bool) l : List.filter f l ⊆ l.
Proof. intros x Hx%list_elem_of_In. apply List.filter_In in Hx as [Hx _]. by apply list_elem_of_In. Qed.

Lemma filter_ok (matches : BitPath → bool) l :
  List.filter (λ r : BitResult BitIndexEntry, match r with Ok e => matches (ie_path e) | _ => true end)
    (Ok <$> l)
  = Ok <$> List.filter (λ e, matches (ie_path e)) l.
Proof. induction l as [|x l IH]; cbn; [done|]. rewrite IH. by destruct (matches (ie_path x)). Qed.

Lemma filter_length_bool {A} (f : A → bool) l : length (List.filter f l) ≤ length l.
Proof. induction l as [|x l IH]; cbn; [done|]. destruct (f x); cbn; lia. Qed.

Lemma diff_worktree_ok fuel matches W idx N :
  prefix_free W → clean W idx → files_only idx → flat_list N → Forall worktree_entry_ok N →
  honest_worktree idx N → length (std_iter idx) + length N < fuel →
  ∃ idx', diff_worktree stat write_worktree_blob hash_blob_from_worktree index_mtime fuel matches
            (Ok <$> N) idx
          = (Ok (diff_spec chg upd (List.filter (λ e, matches (ie_path e)) (std_iter idx))
                   (List.filter (λ e, matches (ie_path e)) N)), idx')
    ∧ clean W idx' ∧ same_oids idx idx'.
Proof.
  intros HW Hc Hb HN Hok Hh Hf. unfold diff_worktree. rewrite !filter_ok.
  set (O1 := List.filter _ (std_iter idx)). set (N1 := List.filter _ N).
  assert (length O1 ≤ length (std_iter idx)) by apply filter_length_bool.
  assert (length N1 ≤ length N) by apply filter_length_bool.
  destruct (index_worktree_run_spec stat write_worktree_blob hash_blob_from_worktree index_mtime chg upd
    (λ i, clean W i ∧ same_oids idx i) (std_iter idx) N) with (fuel := fuel) (n := fuel)
    (d := status_default) (idx := idx) (O := O1) (N := N1) as (idx' & E & Hc' & Hs');
    [|by split| | | | |lia|lia|].
  - intros x y i Hx Hy Ep [Hci Hsi]. apply has_changes_keeps; try done.
    + by apply (proj1 (Forall_forall _ _) Hok).
    + by apply Hh.
  - by apply flat_filter, (clean_flat W).
  - by apply flat_filter.
  - apply filter_subset.
  - apply filter_subset.
  - exists idx'. unfold iw_at in E. rewrite E. by destruct (diff_spec chg upd O1 N1).
Qed.

(** The diff of the index against the worktree is exact: the untracked files, the tracked
    files that are gone, and the files that the comparison calls changed, within the pathspec; it
    returns, and the index it leaves behind has the same paths with the same hashes (entries may be refreshed).  It
    holds for a valid index of files without conflicts, in which no path lies below another. *)
Theorem diff_worktree_correct fuel matches W idx N :
  prefix_free W → clean W idx → files_only idx → flat_list N → Forall worktree_entry_ok N →
  honest_worktree idx N → length (std_iter idx) + length N < fuel →
  ∃ idx', diff_worktree stat write_worktree_blob hash_blob_from_worktree index_mtime fuel matches
            (Ok <$> N) idx
          = (Ok (diff_spec chg upd (List.filter (λ e, matches (ie_path e)) (std_iter idx))
                   (List.filter (λ e, matches (ie_path e)) N)), idx')
    ∧ clean W idx' ∧ same_oids idx idx'.
Proof. apply diff_worktree_ok. Qed.

Lemma filter_match_all l : List.filter (λ e : BitIndexEntry, (λ _ : BitPath, true) (ie_path e)) l = l.
Proof. induction l as [|x l IH]; cbn; [done|]. by rewrite IH. Qed.

Lemma elem_of_only_in l o y :
  y ∈ only_in l o ↔ y ∈ l ∧ entry_is_blob y = true ∧ find_blob (ie_path y) o = None.
Proof.
  unfold only_in. rewrite list_elem_of_In, List.filter_In, <- list_elem_of_In, andb_true_iff.
  unfold absent. destruct (find_blob (ie_path y) o); naive_solver.
Qed.

Lemma find_blob_flat l y : flat_list l → y ∈ l → find_blob (ie_path y) l = Some y.
Proof.
  intros Hl Hy. destruct (find_blob (ie_path y) l) as [z|] eqn:E.
  - apply find_blob_Some in E as (Hz & _ & Ep). f_equal. by apply (flat_inj l).
  - rewrite find_blob_None in E. exfalso. apply (E y); [done| |done].
    by apply (proj1 (Forall_forall _ _) (proj2 Hl)).
Qed.

Lemma updated_spec_ok x y :
  worktree_entry_ok y → honest index_mtime content x y →
  worktree_entry_ok (upd x y) ∧ ie_path (upd x y) = ie_path y.
Proof.
  intros Hy Hh. unfold updated_spec. rewrite (wte_oid_content _ _ _ _ Hh).
  destruct (has_changes_inner _ _ _); try done. split; [by apply worktree_entry_ok_oid|done].
Qed.

(** *** The phases of [add_all] *)

Section phases.
Variables (W : list BitPath) (idx : BitIndexInner) (N : list BitIndexEntry).
Hypothesis HW : prefix_free W.
Hypothesis Hc : clean W idx.
Hypothesis Hb : files_only idx.
Hypothesis HN : flat_list N.
Hypothesis Hok : Forall worktree_entry_ok N.
Hypothesis HWN : prefix_free (ie_path <$> N).
Hypothesis Hh : honest_worktree idx N.

Abbreviation O := (std_iter idx).
Abbreviation status := (diff_spec chg upd O N).

Lemma tracked_entry x : x ∈ O → ((ie_path x, NONE), x) ∈ idx_entries idx ∧ entry_key x = Ok (ie_path x, NONE).
Proof.
  intros (_ & k & Hk)%elem_of_std_iter. destruct (clean_entry W idx (k, x) Hc Hk) as (Ek & ? & _).
  cbn in Ek. by subst k.
Qed.

Lemma tracked_elem k x : (k, x) ∈ idx_entries idx → x ∈ O ∧ k = (ie_path x, NONE).
Proof.
  intros Hx. destruct (clean_entry W idx (k, x) Hc Hx) as (Ek & _ & _). split; [|done].
  apply elem_of_std_iter. split; [|by eexists]. pose proof (proj1 (Forall_forall _ _) Hb _ Hx) as Hbx.
  cbn in Hbx. unfold entry_is_blob, entry_is_gitlink in *. by destruct (entry_mode x).
Qed.

Lemma worktree_entry y : y ∈ N → worktree_entry_ok y.
Proof. by apply (proj1 (Forall_forall _ _) Hok). Qed.

Lemma matching_entry p y :
  find_blob p N = Some y ↔ y ∈ N ∧ ie_path y = p.
Proof.
  split; [by intros (? & _ & ?)%find_blob_Some|]. intros [Hy <-]. by apply find_blob_flat.
Qed.

(** What is left when the files that are gone have been removed from [idx1]. *)
Definition after_removal (idx1 idx2 : BitIndexInner) : Prop :=
  clean W idx2 ∧ same_oids idx idx1
  ∧ ∀ kv, kv ∈ idx_entries idx2 ↔ kv ∈ idx_entries idx1 ∧ kv.1.1 ∉ ie_path <$> ws_deleted status.

Lemma removal_keeps idx1 idx2 kv :
  after_removal idx1 idx2 → kv ∈ idx_entries idx2 →
  ∃ x y, x ∈ O ∧ y ∈ N ∧ ie_path x = ie_path y ∧ kv.1 = (ie_path x, NONE) ∧ ie_oid kv.2 = ie_oid x.
Proof.
  intros (_ & Hs1 & Hin2). destruct kv as [k e]. intros [Hkv Hnd]%Hin2. cbn in *.
  destruct (proj1 (Hs1 k (ie_oid e))) as (x & Hx & Ho); [by exists e|].
  destruct (tracked_elem k x Hx) as [HxO ->]. cbn in Hnd.
  destruct (find_blob (ie_path x) N) as [y|] eqn:Ef.
  - apply matching_entry in Ef as [Hy Ep]. by exists x, y.
  - destruct Hnd. apply list_elem_of_fmap_2. apply elem_of_only_in.
    split_and!; [done|by apply (proj1 (Forall_forall _ _) (proj2 (clean_flat W idx Hc Hb)))|done].
Qed.

Lemma removal_clean idx1 idx2 : after_removal idx1 idx2 → clean (ie_path <$> N) idx2.
Proof.
  intros Ha. split; [apply Ha|]. intros kv Hkv.
  destruct (removal_keeps idx1 idx2 kv Ha Hkv) as (x & y & _ & Hy & Ep & -> & _).
  cbn. split; [done|]. rewrite Ep. by apply list_elem_of_fmap_2.
Qed.

(** The files that the comparison calls unchanged. *)
Definition unchanged (y : BitIndexEntry) : bool :=
  match find_blob (ie_path y) O with Some x => negb (chg x y) | None => false end.

Definition unchanged_paths : list BitPath := ie_path <$> List.filter unchanged N.

Lemma elem_of_unchanged p :
  p ∈ unchanged_paths ↔
  ∃ x y, x ∈ O ∧ y ∈ N ∧ p = ie_path y ∧ ie_path x = ie_path y ∧ chg x y = false.
Proof.
  unfold unchanged_paths. rewrite list_elem_of_fmap. split.
  - intros (y & -> & Hy). apply list_elem_of_In, List.filter_In in Hy as [Hy Hu]. apply list_elem_of_In in Hy.
    unfold unchanged in Hu. destruct (find_blob (ie_path y) O) as [x|] eqn:Ef; [|done].
    apply find_blob_Some in Ef as (Hx & _ & Ep). apply negb_true_iff in Hu. by exists x, y.
  - intros (x & y & Hx & Hy & -> & Ep & Hu). exists y. split; [done|].
    apply list_elem_of_In, List.filter_In. split; [by apply list_elem_of_In|].
    unfold unchanged. rewrite <- Ep, (find_blob_flat O x) by (done || by eapply clean_flat). by rewrite Hu.
Qed.

Lemma unchanged_up_to_date idx1 idx2 :
  after_removal idx1 idx2 →
  (∀ kv, kv ∈ idx_entries idx2 → kv.1.1 ∈ unchanged_paths → ie_oid kv.2 = content kv.1.1)
  ∧ (∀ p, p ∈ unchanged_paths → ∃ e, ((p, NONE), e) ∈ idx_entries idx2).
Proof.
  intros Ha. split.
  - intros kv Hkv (x & y & Hx & Hy & Ey & Ep & Hu)%elem_of_unchanged.
    destruct (removal_keeps idx1 idx2 kv Ha Hkv) as (x' & _ & Hx' & _ & _ & Ek & ->).
    rewrite Ek in Ey |- *. cbn in *.
    assert (x' = x) as -> by (apply (flat_inj O); [by eapply clean_flat|done|done|congruence]).
    rewrite <- (unchanged_content index_mtime content x y); [by rewrite Ep|by apply Hh|done].
  - intros p (x & y & Hx & Hy & -> & Ep & _)%elem_of_unchanged. destruct Ha as (_ & Hs1 & Hin2).
    destruct (proj2 (Hs1 (ie_path y, NONE) (ie_oid x))) as (e & He & _).
    { exists x. rewrite <- Ep. split; [by apply tracked_entry|done]. }
    exists e. apply Hin2. split; [done|]. cbn. intros (z & Ez & Hz)%list_elem_of_fmap.
    apply elem_of_only_in in Hz as (_ & _ & Hz). rewrite <- Ez in Hz.
    by rewrite (proj2 (matching_entry _ y)) in Hz by done.
Qed.

Lemma modified_entries :
  Forall (λ p, worktree_entry_ok p.2 ∧ ie_path p.2 ∈ ie_path <$> N) (ws_modified status).
Proof.
  apply Forall_forall. intros [x y] (x' & Hx' & E)%list_elem_of_omap. cbn. unfold modified_pair in E.
  destruct (entry_is_blob x'); [|done]. destruct (find_blob (ie_path x') N) as [y0|] eqn:Ef; [|done].
  destruct (chg x' y0); [|done]. injection E as <- <-. apply matching_entry in Ef as [Hy Ep].
  destruct (updated_spec_ok x' y0) as [? ->]; [by apply worktree_entry|by apply Hh|].
  split; [done|]. by apply list_elem_of_fmap_2.
Qed.

Lemma new_entries :
  Forall (λ y, worktree_entry_ok (id y) ∧ ie_path (id y) ∈ ie_path <$> N) (ws_new status).
Proof.
  apply Forall_forall. intros y (Hy & _ & _)%elem_of_only_in.
  split; [by apply worktree_entry|by apply list_elem_of_fmap_2].
Qed.

(** Every file of the worktree is unchanged, modified or new. *)
Lemma phases_cover y :
  y ∈ N →
  ie_path y ∈ (unchanged_paths ++ ((λ a, ie_path a.2) <$> ws_modified status))
              ++ ((λ a, ie_path (id a)) <$> ws_new status).
Proof.
  intros Hy. rewrite !elem_of_app. destruct (find_blob (ie_path y) O) as [x|] eqn:Ef.
  - left. apply find_blob_Some in Ef as (Hx & Hbx & Ep). destruct (chg x y) eqn:Ec.
    + right. apply list_elem_of_fmap. exists (x, upd x y). cbn.
      destruct (updated_spec_ok x y) as [_ ->]; [by apply worktree_entry|by apply Hh|]. split; [done|].
      apply list_elem_of_omap. exists x. split; [done|]. unfold modified_pair.
      by rewrite Hbx, (proj2 (matching_entry _ y)), Ec.
    + left. apply elem_of_unchanged. by exists x, y.
  - right. apply list_elem_of_fmap. exists y. split; [done|]. apply elem_of_only_in.
    split_and!; [done|by apply (proj1 (Forall_forall _ _) (proj2 HN))|done].
Qed.
End phases.

(** C5: [add_all] makes the index match the worktree: afterwards its paths are exactly those of the
    worktree's files, each with the hash of the file's content, and the index is still valid.  It
    composes the diff, the removal of what is gone and the addition of what is new or changed. *)
Theorem add_all_correct fuel W idx N :
  prefix_free W → clean W idx → files_only idx → flat_list N → Forall worktree_entry_ok N →
  prefix_free (ie_path <$> N) → honest_worktree idx N → length (std_iter idx) + length N < fuel →
  ∃ idx', add_all stat write_worktree_blob hash_blob_from_worktree index_mtime fuel (Ok <$> N) idx
          = (Ok tt, idx')
    ∧ index_wf idx'
    ∧ (∀ kv, kv ∈ idx_entries idx' →
         kv.1.2 = NONE ∧ kv.1.1 ∈ ie_path <$> N ∧ ie_oid kv.2 = content kv.1.1)
    ∧ (∀ y, y ∈ N → ∃ e, ((ie_path y, NONE), e) ∈ idx_entries idx').
Proof.
  intros HW Hc Hb HN Hok HWN Hh Hf.
  destruct (diff_worktree_ok fuel (λ _, true) W idx N) as (idx1 & E1 & Hc1 & Hs1); try done.
  rewrite !filter_match_all in E1. set (s := diff_spec chg upd (std_iter idx) N) in *.
  unfold add_all. rewrite (st_bind_ok _ _ _ _ _ E1). unfold apply_diff, apply_with.
  destruct (remove_all_clean W (ws_deleted s) idx1 Hc1) as (idx2 & E2 & Hc2 & Hin2).
  { apply Forall_forall. intros x (Hx & _ & _)%elem_of_only_in. by apply (tracked_entry W idx Hc). }
  rewrite (st_bind_ok _ _ _ _ _ E2).
  assert (after_removal W idx N idx1 idx2) as Ha by (split; [exact Hc2|by split]).
  destruct (unchanged_up_to_date W idx N Hc Hb HN Hh idx1 idx2 Ha) as [Hup Hpres].
  destruct (add_all_clean (λ p, p.2) (ie_path <$> N) (ws_modified s) (unchanged_paths idx N) idx2 HWN)
    as (idx3 & E3 & Hc3 & Hup3 & Hp3); [by apply (removal_clean W idx N) with idx1|by apply (modified_entries idx N)|done|done|].
  cbn [differ_on_modified index_applier]. rewrite (st_bind_ok _ _ _ _ _ E3).
  destruct (add_all_clean id (ie_path <$> N) (ws_new s)
    (unchanged_paths idx N ++ ((λ a, ie_path a.2) <$> ws_modified s)) idx3 HWN Hc3)
    as (idx4 & E4 & Hc4 & Hup4 & Hp4); [by apply (new_entries idx N)|exact Hup3|exact Hp3|].
  exists idx4. split; [exact E4|]. split; [apply Hc4|]. split.
  - intros kv Hkv. destruct (proj2 Hc4 kv Hkv) as [Hst Hp]. split; [done|]. split; [done|].
    apply Hup4; [done|]. apply list_elem_of_fmap in Hp as (y & -> & Hy). by apply (phases_cover W).
  - intros y Hy. apply Hp4. by apply (phases_cover W).
Qed.
End worktree.

(** ** Examples *)

(** A file of the worktree: its hash is not known yet. *)
Definition worktree_file (path : BitPath) (mtime : Timespec) (size : Z) : BitIndexEntry :=
  mk_BitIndexEntry timespec_zero mtime 0 1 REG 0 0 size UNKNOWN (flags_with_path_len (length path)) 0 path.

(** [a] has not been touched, [b] has been written to, [c] is new and [d] is gone. *)
Definition sample_index : BitIndexInner := plain_index [bs "a"; bs "b"; bs "d"].
Definition sample_worktree : list BitIndexEntry :=
  [worktree_file (bs "a") timespec_zero 0; worktree_file (bs "b") (mk_Timespec 9 0) 7;
   worktree_file (bs "c") (mk_Timespec 9 0) 3].
Definition sample_content (p : BitPath) : Oid :=
  if bool_decide (p = bs "b") then sample_oid x0b else EMPTY_BLOB.
Definition sample_mtime : option Timespec := Some (mk_Timespec 5 0).

Lemma sample_prefix_free (W : list BitPath) :
  forallb (λ p, forallb (λ q, bool_decide (¬ under p q)) W) W = true → prefix_free W.
Proof.
  intros H p q Hp Hq. rewrite forallb_forall in H. specialize (H p).
  rewrite forallb_forall in H. apply (bool_decide_eq_true (¬ under p q)).
  apply H; by apply list_elem_of_In.
Qed.

Lemma sample_clean : clean [bs "a"; bs "b"; bs "d"] sample_index.
Proof.
  split; [split|].
  - unfold bt_sorted. vm_compute. repeat constructor.
  - repeat (apply Forall_cons; split; [split; [reflexivity|split; [split_and!; vm_decide|vm_decide]]|]).
    apply Forall_nil. done.
  - intros kv Hkv. unfold sample_index, plain_index in Hkv. cbn [idx_entries] in Hkv.
    apply list_elem_of_fmap in Hkv as (p & -> & Hp). done.
Qed.

Lemma sample_worktree_ok :
  Forall (worktree_entry_ok (λ p, Ok (sample_content p)) (λ p, Ok (sample_content p)) sample_content) sample_worktree.
Proof.
  repeat (apply Forall_cons; split; [split_and!; try reflexivity; try vm_decide; try discriminate|]).
  by apply Forall_nil.
Qed.

Lemma sample_flat : flat_list sample_worktree.
Proof. split; [vm_compute; repeat constructor|repeat constructor]. Qed.

Lemma sample_honest : honest_worktree sample_mtime sample_content sample_index sample_worktree.
Proof.
  assert (forallb (λ x, forallb (λ y, bool_decide (ie_path x = ie_path y → ie_mtime x = ie_mtime y →
      sample_content (ie_path y) = ie_oid x)) sample_worktree) (std_iter sample_index) = true) as H
    by (vm_compute; reflexivity).
  intros x y Hx Hy Ep. rewrite forallb_forall in H. specialize (H x (proj1 (list_elem_of_In _ _) Hx)).
  rewrite forallb_forall in H. specialize (H y (proj1 (list_elem_of_In _ _) Hy)).
  apply bool_decide_eq_true in H. split; [intros Em _; by apply H|]. split.
  - assert (Forall (λ y, is_known (ie_oid y) = false) sample_worktree) as Hu by vm_decide.
    intros Hk. by rewrite (proj1 (Forall_forall _ _) Hu y Hy) in Hk.
  - assert (Forall (λ x, is_known (ie_oid x) = true) (std_iter sample_index)) as Hu by vm_decide.
    by apply (proj1 (Forall_forall _ _) Hu).
Qed.

Lemma diff_worktree_correct_witness :
  fst (diff_worktree no_stat (λ p, Ok (sample_content p)) (λ p, Ok (sample_content p)) sample_mtime 20
         (λ _, true) (Ok <$> sample_worktree) sample_index)
  = Ok (mk_WorkspaceStatus [worktree_file (bs "c") (mk_Timespec 9 0) 3]
          [(plain_entry (bs "b"), worktree_file (bs "b") (mk_Timespec 9 0) 7)] [plain_entry (bs "d")]).
Proof.
  destruct (diff_worktree_correct no_stat (λ p, Ok (sample_content p)) (λ p, Ok (sample_content p))
    sample_mtime sample_content 20 (λ _, true) [bs "a"; bs "b"; bs "d"]
    sample_index sample_worktree) as (idx' & E & _).
  - by apply sample_prefix_free.
  - apply sample_clean.
  - vm_decide.
  - apply sample_flat.
  - apply sample_worktree_ok.
  - apply sample_honest.
  - vm_compute. lia.
  - rewrite E. vm_compute. reflexivity.
Defined.

Lemma add_all_correct_witness :
  ∃ idx', add_all no_stat (λ p, Ok (sample_content p)) (λ p, Ok (sample_content p)) sample_mtime 20
            (Ok <$> sample_worktree) sample_index = (Ok tt, idx')
    ∧ (λ kv, (kv.1.1, ie_oid kv.2)) <$> idx_entries idx'
      = [(bs "a", EMPTY_BLOB); (bs "b", sample_oid x0b); (bs "c", EMPTY_BLOB)].
Proof.
  destruct (add_all_correct no_stat (λ p, Ok (sample_content p)) (λ p, Ok (sample_content p))
    sample_mtime sample_content 20 [bs "a"; bs "b"; bs "d"]
    sample_index sample_worktree) as (idx' & E & _).
  - by apply sample_prefix_free.
  - apply sample_clean.
  - vm_decide.
  - apply sample_flat.
  - apply sample_worktree_ok.
  - by apply sample_prefix_free.
  - apply sample_honest.
  - vm_compute. lia.
  - exists idx'. split; [exact E|]. vm_compute in E. injection E as <-. reflexivity.
Defined.

(** A change of mode alone is missed: an entry with the recorded modification time is called
    unchanged before its mode is looked at (changing the mode of a file leaves its modification time
    as it is), whatever the two modes are. *)
Theorem has_changes_misses_mode stat write_blob hash index_mtime idxe wte idx :
  is_known (ie_oid idxe) = true → is_unknown (ie_oid wte) = true →
  ie_mtime idxe = ie_mtime wte → is_racy_entry index_mtime idxe = false →
  has_changes stat write_blob hash index_mtime idxe wte idx = (Ok (false, wte), idx).
Proof.
  intros Hk Hu Hm Hr. unfold has_changes, has_changes_inner.
  unfold is_known, is_unknown in *. apply bool_decide_eq_true in Hk, Hu.
  rewrite bool_decide_false by congruence. rewrite (bool_decide_false (ie_oid wte ≠ _)) by naive_solver.
  by rewrite bool_decide_true, Hr.
Qed.

Lemma has_changes_misses_mode_witness :
  ie_mode (with_stat (worktree_file (bs "a") timespec_zero 0) timespec_zero 1 EXEC UNKNOWN)
    ≠ ie_mode (plain_entry (bs "a"))
  ∧ fst (has_changes no_stat no_write no_write sample_mtime (plain_entry (bs "a"))
           (with_stat (worktree_file (bs "a") timespec_zero 0) timespec_zero 1 EXEC UNKNOWN) sample_index)
    = Ok (false, with_stat (worktree_file (bs "a") timespec_zero 0) timespec_zero 1 EXEC UNKNOWN).
Proof.
  split; [discriminate|]. by rewrite (has_changes_misses_mode no_stat no_write no_write sample_mtime).
Defined.
