(* ===== verification/IndexIter.v ===== *)
(** * IndexIter

    [libbit/src/iter/index_tree_iter.rs]: the index as a tree iterator, whose directories are
    made up from the paths of the entries, and its laws. *)

From Stdlib Require Import ZArith Lia Sorted.
From Stdlib Require Import Strings.Byte.
From stdpp Require Import base tactics option list countable strings sorting.
From S2P Require Import Prelude RustStd Data State Hash Path BTree Obj Tree IndexEntry TreeCache.
From S2P Require Import Index TreeIter.

(** ** IndexTreeIter *)

(** [xi_pseudotrees]: the directories that have been yielded; only membership counts. *)
Record IndexTreeIter := mk_IndexTreeIter {
  xi_index : BitIndexInner;
  xi_entry_iter : list BitIndexEntry;
  xi_pseudotrees : list BitPath;
  xi_peeked : option BitIndexEntry;
}.

Definition index_iter_new (index : BitIndexInner) : IndexTreeIter :=
  mk_IndexTreeIter index (std_iter index) [] None.

(** The part of the tree cache for a directory, if it is valid. *)
Definition valid_child (index : BitIndexInner) (path : BitPath) : option BitTreeCache :=
  idx_tree_cache index ≫= λ cache, find_valid_child cache path.

Definition create_pseudotree (index : BitIndexInner) (path : BitPath) : BitIndexEntry :=
  index_entry_from_tree_entry
    (mk_TreeEntry TREE path (default UNKNOWN (tc_tree_oid <$> valid_child index path))).

(** The first of the directories that has not been yielded yet is, and is remembered. *)
Fixpoint yield_pseudotree (parents : list BitPath) (it : IndexTreeIter)
    : option (BitIndexEntry * IndexTreeIter) :=
  match parents with
  | [] => None
  | parent :: parents =>
      if bool_decide (parent ∈ xi_pseudotrees it) then yield_pseudotree parents it
      else Some (create_pseudotree (xi_index it) parent,
                 mk_IndexTreeIter (xi_index it) (xi_entry_iter it) (parent :: xi_pseudotrees it)
                   (xi_peeked it))
  end.

Definition set_entry_iter (it : IndexTreeIter) (es : list BitIndexEntry) : IndexTreeIter :=
  mk_IndexTreeIter (xi_index it) es (xi_pseudotrees it) (xi_peeked it).

Definition set_peeked (it : IndexTreeIter) (o : option BitIndexEntry) : IndexTreeIter :=
  mk_IndexTreeIter (xi_index it) (xi_entry_iter it) (xi_pseudotrees it) o.

Definition index_iter_next : st IndexTreeIter (option BitIndexEntry) := λ it,
  match yield_pseudotree [EMPTY] it with
  | Some (root, it) => (Ok (Some root), it)
  | None =>
      match xi_peeked it with
      | Some peeked => (Ok (Some peeked), set_peeked it None)
      | None =>
          match xi_entry_iter it with
          | [] => (Ok None, it)
          | entry :: entries =>
              match parent (ie_path entry) with
              | None => (Panic, it)
              | Some dir =>
                  match yield_pseudotree (cumulative_components dir) it with
                  | Some (tree, it) => (Ok (Some tree), it)
                  | None => (Ok (Some entry), set_entry_iter it entries)
                  end
              end
          end
      end
  end.

Definition index_iter_peek : st IndexTreeIter (option BitIndexEntry) := λ it,
  match xi_peeked it with
  | Some peeked => (Ok (Some peeked), it)
  | None =>
      match index_iter_next it with
      | (Ok peeked, it) => (Ok peeked, set_peeked it peeked)
      | failed => failed
      end
  end.

(** The loop of [step_over_tree] for a tree that the cache does not know. *)
Fixpoint step_children (over : st IndexTreeIter (option BitIndexEntry)) (fuel : nat) (path : BitPath)
    : st IndexTreeIter unit :=
  match fuel with
  | O => st_lift Panic
  | S fuel =>
      next ← index_iter_peek;
      if (match next with Some next => within path next | None => false end) : bool then
        _ ← over; step_children over fuel path
      else mret tt
  end.

(** [nth(n - 1)] of the entries of the index takes [n] of them. *)
Definition step_over_tree (over : st IndexTreeIter (option BitIndexEntry)) (fuel : nat)
    (entry : BitIndexEntry) : st IndexTreeIter (option BitIndexEntry) := λ it,
  match valid_child (xi_index it) (ie_path entry) with
  | Some cache =>
      (Ok (Some entry),
       set_entry_iter it (drop (Z.to_nat (tc_entry_count cache - 1) + 1) (xi_entry_iter it)))
  | None => ((_ ← step_children over fuel (ie_path entry); mret (Some entry)) : st _ _) it
  end.

Fixpoint index_iter_over (fuel : nat) : st IndexTreeIter (option BitIndexEntry) :=
  match fuel with
  | O => st_lift Panic
  | S fuel =>
      next ← index_iter_next;
      match next with
      | None => mret None
      | Some entry =>
          match ie_mode entry with
          | TREE => step_over_tree (index_iter_over fuel) fuel entry
          | REG | EXEC | LINK => mret (Some entry)
          | GITLINK => st_lift Panic
          end
      end
  end.

Definition index_tree_iterator (fuel : nat) : BitTreeIterator IndexTreeIter := {|
  it_kind _ := KIndex;
  it_next := index_iter_next;
  it_over := index_iter_over fuel;
  it_peek := index_iter_peek;
|}.

(** ** The directories of a path *)

(** What [next] goes through for an entry at [p]. *)
Definition dirs (p : BitPath) : list BitPath :=
  match parent p with Some dir => cumulative_components dir | None => [] end.

Lemma trim_junk_names b segs : Forall name_ok segs → trim_junk b segs = segs.
Proof.
  intros Hs. revert b. induction Hs as [|s segs (H1 & H2 & H3) _ IH]; intros b; cbn; [done|].
  rewrite IH. destruct segs; [|done]. unfold is_junk. by rewrite !bool_decide_false.
Qed.

Lemma body_segments_norm p : norm_path p → body_segments p = split_slash p.
Proof.
  intros Hp. unfold body_segments, path_body. pose proof (norm_relative p Hp) as Hr.
  unfold is_relative in Hr. destruct (is_absolute p); [done|]. by apply trim_junk_names.
Qed.

Lemma split_slash_join d n :
  norm_path d → entry_name n → split_slash (join d n) = split_slash d ++ [n].
Proof.
  intros Hd Hn. rewrite join_norm by done. unfold split_slash at 1. rewrite split_byte_app_cons.
  fold (split_slash n). by rewrite (split_slash_name n) by apply Hn.
Qed.

Lemma parent_join d n : rel_path d → entry_name n → parent (join d n) = Some d.
Proof.
  intros Hd Hn. destruct (rel_join d n Hd Hn) as [Hj _].
  unfold parent, with_root. rewrite body_segments_norm by done.
  pose proof (norm_relative _ Hj) as Hr. rewrite Hr. unfold is_relative in Hr.
  destruct (is_absolute (join d n)); [done|]. destruct Hd as [->|Hd].
  - rewrite join_empty_l, split_slash_name by apply Hn. done.
  - rewrite split_slash_join by done. destruct (split_slash d ++ [n]) eqn:E; [by destruct (split_slash d)|].
    rewrite <- E, removelast_last, trim_junk_names by done.
    cbn [app]. unfold join_slash, split_slash. by rewrite join_split_byte.
Qed.

Lemma norm_snoc p : norm_path p → ∃ d n, rel_path d ∧ entry_name n ∧ p = join d n.
Proof.
  intros Hp. unfold norm_path in Hp. pose proof (join_split_byte x2f p) as Ej.
  fold (split_slash p) in Ej. pose proof (split_byte_no x2f p) as Hpieces.
  fold (split_slash p) in Hpieces.
  pose proof (split_byte_ne x2f p : split_slash p ≠ []) as Hsegs.
  destruct (split_slash p) as [|n segs _] using rev_ind; [done|].
  apply Forall_app in Hp as [Hs Hn]. apply Forall_app in Hpieces as [Hs' Hn'].
  apply Forall_inv in Hn, Hn'. assert (entry_name n) as Hname by exact (conj Hn Hn').
  exists (join_byte x2f segs), n. destruct segs as [|s segs'] eqn:Es; [cbn in *|rewrite <- Es in *].
  - split_and!; [by left|done|]. by rewrite join_empty_l.
  - assert (norm_path (join_byte x2f segs)) as Hd.
    { unfold norm_path, split_slash. rewrite split_join_byte; [done|by subst|done]. }
    split_and!; [by right|done|]. rewrite join_norm by done. rewrite <- Ej.
    rewrite join_byte_app by by subst. done.
Qed.

Lemma cumulative_from_app pre a b :
  cumulative_from pre (a ++ x2f :: b) = cumulative_from pre a ++ cumulative_from (pre ++ a ++ [x2f]) b.
Proof.
  revert pre. induction a as [|c a IH]; intros pre; cbn; [by rewrite bool_decide_true|].
  case_bool_decide; rewrite IH, <- app_assoc; done.
Qed.

Lemma cumulative_from_name pre n : x2f ∉ n → cumulative_from pre n = [pre ++ n].
Proof.
  revert pre. induction n as [|c n IH]; intros pre; cbn; [by rewrite app_nil_r|].
  rewrite not_elem_of_cons. intros [Hc Hn]. rewrite bool_decide_false by congruence.
  rewrite IH by done. by rewrite <- app_assoc.
Qed.

Lemma cumulative_join d n :
  norm_path d → entry_name n →
  cumulative_components (join d n) = cumulative_components d ++ [join d n].
Proof.
  intros Hd Hn. rewrite join_norm by done. unfold cumulative_components.
  rewrite cumulative_from_app, (cumulative_from_name _ n) by apply Hn. cbn. by rewrite <- app_assoc.
Qed.

Lemma cumulative_top n : entry_name n → cumulative_components n = [n].
Proof. intros [_ Hn]. by apply cumulative_from_name. Qed.

Lemma dirs_join d n : rel_path d → entry_name n → dirs (join d n) = cumulative_components d.
Proof. intros Hd Hn. unfold dirs. by rewrite parent_join. Qed.

(** [q] is a directory on the way to [p], the root included. *)
Definition above (q p : BitPath) : Prop :=
  rel_path q ∧ q ≠ p ∧ path_components q `prefix_of` path_components p.

Lemma prefix_snoc_inv {A} (l k : list A) x : l `prefix_of` k ++ [x] → l = k ++ [x] ∨ l `prefix_of` k.
Proof.
  intros [r Hr]. destruct r as [|y r _] using rev_ind.
  - left. by rewrite app_nil_r in Hr.
  - right. rewrite app_assoc in Hr. apply app_inj_tail in Hr as [-> _]. by exists r.
Qed.

Lemma above_join q d n :
  rel_path d → entry_name n → above q (join d n) ↔ q = d ∨ above q d.
Proof.
  intros Hd Hn. destruct (rel_join d n Hd Hn) as [Hj E]. unfold above. rewrite E. split.
  - intros (Hq & Hne & Hp). apply prefix_snoc_inv in Hp as [Hp|Hp].
    + exfalso. apply Hne, rel_path_inj; [done|by right|congruence].
    + destruct (decide (q = d)); [by left|by right].
  - assert (∀ x, path_components x `prefix_of` path_components d → x ≠ join d n) as Hx.
    { intros x Hx ->. rewrite E in Hx. apply prefix_length in Hx. rewrite length_app in Hx.
      cbn in Hx. lia. }
    intros [->|(Hq & Hne & Hp)]; (split_and!; [done|by apply Hx|by apply prefix_app_r]).
Qed.

Lemma above_empty q : ¬ above q EMPTY.
Proof.
  intros (Hq & Hne & Hp). apply Hne, rel_path_inj; [done|by left|].
  by apply prefix_nil_inv in Hp.
Qed.

Lemma rel_cases p : rel_path p → p = EMPTY ∨ ∃ d n, rel_path d ∧ entry_name n ∧ p = join d n.
Proof. intros [->|Hp]; [by left|right; by apply norm_snoc]. Qed.

(** Induction along the directories of a path. *)
Lemma rel_path_ind (P : BitPath → Prop) :
  P EMPTY → (∀ d n, rel_path d → entry_name n → P d → P (join d n)) → ∀ p, rel_path p → P p.
Proof.
  intros H0 HS p. remember (length (path_components p)) as k eqn:Hk. revert p Hk.
  induction k as [k IH] using lt_wf_ind. intros p Hk Hp.
  destruct (rel_cases p Hp) as [->|(d & n & Hd & Hn & ->)]; [done|].
  apply HS; [done..|]. eapply IH; [|done|done].
  destruct (rel_join d n Hd Hn) as [_ ->] in Hk. rewrite length_app in Hk. cbn in Hk. lia.
Qed.

Lemma elem_of_cumulative p q :
  norm_path p → q ∈ cumulative_components p ↔ q ≠ EMPTY ∧ (q = p ∨ above q p).
Proof.
  intros Hp. assert (p ≠ EMPTY) as Hne by (intros ->; by apply (norm_path_last EMPTY) in Hp as (? & ? & _)).
  assert (rel_path p) as Hr by by right. revert Hp Hne. pattern p. apply rel_path_ind; [done| |done].
  clear p Hr. intros d n Hd Hn IH Hp Hne. rewrite above_join by done. destruct Hd as [->|Hd].
  - rewrite join_empty_l in *. rewrite cumulative_top, list_elem_of_singleton by done. split.
    + intros ->. by split; [|left].
    + intros [Hq [->|[->|[]%above_empty]]]; done.
  - rewrite cumulative_join, elem_of_app, list_elem_of_singleton, IH; try done.
    + split; [intros [[??]| ->]; naive_solver|naive_solver].
    + intros ->. by apply (norm_path_last EMPTY) in Hd as (? & ? & _).
Qed.

Lemma elem_of_dirs p q :
  norm_path p → q ∈ EMPTY :: dirs p ↔ above q p.
Proof.
  intros Hp. destruct (norm_snoc p Hp) as (d & n & Hd & Hn & ->).
  rewrite dirs_join, above_join, elem_of_cons by done. destruct Hd as [->|Hd].
  - change (cumulative_components EMPTY) with [EMPTY]. rewrite list_elem_of_singleton.
    split; [naive_solver|]. intros [?|[]%above_empty]. by left.
  - rewrite elem_of_cumulative by done. assert (d ≠ EMPTY) as Hne.
    { intros ->. by apply (norm_path_last EMPTY) in Hd as (? & ? & _). }
    destruct (decide (q = EMPTY)) as [->|Hq]; [|naive_solver]. split; [|by left]. intros _. right.
    split_and!; [by left|congruence|apply prefix_nil].
Qed.

(** ** The listing of an index *)

Lemma path_starts_above q p :
  rel_path q → path_starts_with p q = true ↔ q = p ∨ above q p.
Proof.
  intros Hq. rewrite path_starts_with_prefix. unfold above. split; [|by intros [->|(_ & _ & ?)]].
  destruct (decide (q = p)); [by left|by right].
Qed.

Lemma above_trans a b c : above a b → above b c → above a c.
Proof.
  intros (Ha & Hne & Hab) (Hb & Hne' & Hbc). split_and!; [done| |by etrans].
  intros ->. apply Hne', rel_path_inj; [done|done|]. apply (anti_symm prefix); done.
Qed.

Lemma above_comparable a b p : above a p → above b p → a = b ∨ above a b ∨ above b a.
Proof.
  intros (Ha & _ & Hap) (Hb & _ & Hbp). destruct (decide (a = b)) as [|Hne]; [by left|right].
  destruct (prefix_weak_total _ _ _ Hap Hbp); [left|right]; by split_and!.
Qed.

Section listing.
(** The entry made up for a directory. *)
Context (mk : BitPath → BitIndexEntry).
Context (mk_path : ∀ p, ie_path (mk p) = p) (mk_tree : ∀ p, ie_mode (mk p) = TREE).

(** The directories of [p] that are not among those already [seen]. *)
Definition new_dirs (seen : list BitPath) (p : BitPath) : list BitPath := filter (.∉ seen) (dirs p).

(** What the iterator yields for the entries [es]: each directory before the first entry below. *)
Fixpoint index_listing (seen : list BitPath) (es : list BitIndexEntry) : list BitIndexEntry :=
  match es with
  | [] => []
  | e :: es =>
      (mk <$> new_dirs seen (ie_path e)) ++ e :: index_listing (new_dirs seen (ie_path e) ++ seen) es
  end.

Lemma index_listing_ext seen seen' es :
  (∀ e q, e ∈ es → q ∈ dirs (ie_path e) → q ∈ seen ↔ q ∈ seen') →
  index_listing seen es = index_listing seen' es.
Proof.
  revert seen seen'. induction es as [|e es IH]; intros seen seen' H; cbn; [done|].
  assert (new_dirs seen (ie_path e) = new_dirs seen' (ie_path e)) as ->.
  { unfold new_dirs. assert (∀ q, q ∈ dirs (ie_path e) → q ∈ seen ↔ q ∈ seen') as Hq
      by (intros q; apply H, list_elem_of_here).
    clear H IH. induction (dirs (ie_path e)) as [|q l IH]; [done|].
    rewrite !filter_cons. rewrite IH by (intros q' ?; apply Hq; by right).
    pose proof (Hq q ltac:(by left)). repeat case_decide; tauto. }
  do 2 f_equal. apply IH. intros e' q He' Hq. rewrite !elem_of_app, (H e' q) by (done || by right). done.
Qed.

(** The directories of all the entries. *)
Definition all_dirs (es : list BitIndexEntry) : list BitPath := es ≫= λ e, dirs (ie_path e).

Lemma index_listing_app seen es1 es2 :
  index_listing seen (es1 ++ es2) = index_listing seen es1 ++ index_listing (all_dirs es1 ++ seen) es2.
Proof.
  revert seen. induction es1 as [|e es1 IH]; intros seen; cbn; [done|].
  rewrite IH, <- app_assoc. cbn. do 3 f_equal. apply index_listing_ext. intros e' q _ _.
  unfold new_dirs. rewrite !elem_of_app, list_elem_of_filter.
  destruct (decide (q ∈ seen)); tauto.
Qed.

(** Everything that is yielded is an entry or a directory on the way to one. *)
Lemma index_listing_elem seen es x :
  x ∈ index_listing seen es →
  x ∈ es ∨ ∃ e q, e ∈ es ∧ q ∈ dirs (ie_path e) ∧ (q ∉ seen) ∧ x = mk q.
Proof.
  revert seen. induction es as [|e es IH]; intros seen; cbn; [by intros ?%elem_of_nil|].
  rewrite elem_of_app, elem_of_cons, list_elem_of_fmap. intros [(q & -> & Hq)|[->|Hx]].
  - apply list_elem_of_filter in Hq as [Hs Hq]. right. exists e, q. by split_and!; [left| | |].
  - left. by left.
  - destruct (IH _ Hx) as [?|(e' & q & He & Hq & Hs & ->)]; [left; by right|right].
    exists e', q. split_and!; [by right|done| |done]. intros ?. apply Hs, elem_of_app. by right.
Qed.

(** [seen] has [d] and everything above it. *)
Definition seen_to (seen : list BitPath) (d : BitPath) : Prop := ∀ q, q = d ∨ above q d → q ∈ seen.

Lemma listing_below_within seen d es x :
  rel_path d → seen_to seen d → Forall (λ e, norm_path (ie_path e)) es →
  Forall (λ e, above d (ie_path e)) es → x ∈ index_listing seen es → above d (ie_path x).
Proof.
  intros Hd Hs Hn Hb Hx. rewrite Forall_forall in Hn, Hb.
  apply index_listing_elem in Hx as [?|(e & q & He & Hq & Hns & ->)]; [by apply Hb|].
  rewrite mk_path. assert (above q (ie_path e)) as Hqe.
  { apply elem_of_dirs; [by apply Hn|by right]. }
  destruct (above_comparable q d (ie_path e) Hqe (Hb _ He)) as [->|[Hqd|?]]; [|by exfalso; auto..|done].
  exfalso. apply Hns, Hs. by left.
Qed.

Lemma listing_outside_within seen d es :
  rel_path d → Forall (λ e, norm_path (ie_path e)) es →
  Forall (λ e, within d e = false) es →
  Forall (λ x, within d x = false) (index_listing seen es).
Proof.
  intros Hd Hn Hb. rewrite Forall_forall in Hn, Hb |- *. intros x Hx.
  apply index_listing_elem in Hx as [?|(e & q & He & Hq & Hns & ->)]; [by apply Hb|].
  assert (above q (ie_path e)) as Hqe by (apply elem_of_dirs; [by apply Hn|by right]).
  destruct (within d (mk q)) eqn:E; [|done]. unfold within in *. rewrite mk_path in E.
  apply path_starts_above in E; [|done]. rewrite <- (Hb _ He). symmetry.
  apply path_starts_above; [done|]. right. destruct E as [->|E]; [done|by eapply above_trans].
Qed.

(** The entries below a directory list on their own. *)
Lemma index_listing_block seen d B R :
  rel_path d → seen_to seen d →
  Forall (λ e, norm_path (ie_path e)) (B ++ R) →
  Forall (λ e, above d (ie_path e)) B → Forall (λ e, within d e = false) R →
  index_listing seen (B ++ R) = index_listing seen B ++ index_listing seen R.
Proof.
  intros Hd Hs [HnB HnR]%Forall_app HB HR. rewrite index_listing_app. f_equal.
  apply index_listing_ext. intros e q He Hq. rewrite elem_of_app. split; [|by right].
  intros [Hall|?]; [|done]. unfold all_dirs in Hall. apply list_elem_of_bind in Hall as (b & Hqb & Hb).
  rewrite Forall_forall in HnB, HnR, HB, HR.
  assert (above q (ie_path b)) as Hqb' by (apply elem_of_dirs; [by apply HnB|by right]).
  assert (above q (ie_path e)) as Hqe by (apply elem_of_dirs; [by apply HnR|by right]).
  destruct (above_comparable q d (ie_path b) Hqb' (HB _ Hb)) as [->|[Hqd|Hdq]];
    [apply Hs; by left|apply Hs; by right|].
  exfalso. specialize (HR _ He). unfold within in HR.
  assert (path_starts_with (ie_path e) d = true); [|congruence].
  apply path_starts_above; [done|]. right. by eapply above_trans.
Qed.
End listing.

(** *** Sorted entries *)

Definition paths_sorted (es : list BitIndexEntry) : Prop :=
  StronglySorted (λ a b, path_cmp (ie_path a) (ie_path b) ≠ Gt) es.

Lemma above_under d p : norm_path d → norm_path p → above d p ↔ under d p.
Proof.
  intros Hd Hp. split.
  - intros (_ & Hne & Hpre). apply path_starts_with_prefix, path_starts_with_norm in Hpre; [|done..].
    destruct Hpre as [->|?]; done.
  - intros Hu. split_and!; [by right| |].
    + intros ->. destruct Hu as [r Hr]. apply (f_equal length) in Hr. rewrite length_app in Hr.
      cbn in Hr. lia.
    + apply path_starts_with_prefix, path_starts_with_norm; [done..|by right].
Qed.

(** A directory comes before what is in it. *)
Lemma above_cmp d p : rel_path p → above d p → path_cmp d p = Lt.
Proof.
  intros [->|Hp] Hab; [by apply above_empty in Hab|]. pose proof Hab as (Hd & _).
  rewrite path_cmp_bytes. destruct Hd as [->|Hd].
  - destruct p; [|done]. by apply (norm_path_last []) in Hp as (? & ? & _).
  - apply above_under in Hab as [r ->]; [|done..]. apply (ord_gt bytes_compare).
    by rewrite bytes_compare_prefix.
Qed.

Lemma above_bounds d p q r :
  rel_path d → norm_path p → norm_path q → norm_path r → above d p → path_starts_with r d = true →
  path_cmp p q ≠ Gt → path_cmp q r ≠ Gt → above d q.
Proof.
  intros Hd Hp Hq Hr Hdp Hdr Hpq Hqr. destruct Hd as [->|Hd].
  { split_and!; [by left| |apply prefix_nil].
    intros <-. by apply (norm_path_last EMPTY) in Hq as (? & ? & _). }
  rewrite above_under in * by done. destruct Hdp as [s ->]. rewrite !path_cmp_bytes in *.
  apply path_starts_with_norm in Hdr; [|done..].
  assert (∀ x, bytes_compare (d ++ x2f :: s) x = Lt → bytes_compare x d ≠ Lt
    ∧ bytes_compare x (d ++ [x2f]) ≠ Lt) as Hlow.
  { intros x Hx. change (x2f :: s) with ([x2f] ++ s) in Hx. split; intros Hxd;
      pose proof (ord_trans bytes_compare _ _ _ Hx Hxd) as H.
    - by rewrite bytes_compare_prefix in H.
    - rewrite app_assoc, bytes_compare_prefix in H. by destruct s. }
  destruct (bytes_compare (d ++ x2f :: s) q) eqn:E1; [|clear Hpq|done].
  { apply (proj1 (bytes_compare_eq _ _)) in E1 as <-. by exists s. }
  destruct Hdr as [->|[t ->]].
  - exfalso. destruct (Hlow q E1) as [Hq' _]. destruct (bytes_compare q d) eqn:E2; try done.
    apply (proj1 (bytes_compare_eq _ _)) in E2 as ->. change (x2f :: s) with ([x2f] ++ s) in E1.
    by rewrite bytes_compare_prefix in E1.
  - destruct (bytes_compare q (d ++ x2f :: t)) eqn:E2; [|clear Hqr|done].
    + apply (proj1 (bytes_compare_eq _ _)) in E2 as ->. by exists t.
    + change (x2f :: t) with ([x2f] ++ t) in E2. rewrite app_assoc in E2.
      destruct (prefix_convex (d ++ [x2f]) q t) as [t' ->]; [by apply Hlow|done|].
      exists t'. by rewrite <- app_assoc.
Qed.

(** The entries below a directory come in one block. *)
Lemma entries_block d e es :
  rel_path d → paths_sorted (e :: es) → Forall (λ x, norm_path (ie_path x)) (e :: es) →
  above d (ie_path e) →
  Forall (λ x, above d (ie_path x)) (take_within d (e :: es))
  ∧ Forall (λ x, within d x = false) (drop_within d (e :: es)).
Proof.
  intros Hd Hs Hn He. apply StronglySorted_inv in Hs as [Hs Hes]. inversion_clear Hn as [|?? Hne Hnes].
  cbn. assert (within d e = true) as ->.
  { apply path_starts_above; [done|by right]. }
  rewrite Forall_cons. revert Hs Hes Hnes. clear -Hd He Hne.
  induction es as [|x es IH]; intros Hs Hes Hnes; [done|].
  apply StronglySorted_inv in Hs as [Hs Hx]. inversion_clear Hes as [|?? Hex Hes'].
  inversion_clear Hnes as [|?? Hnx Hnes']. cbn. destruct (within d x) eqn:Ew.
  - destruct (IH Hs Hes' Hnes') as [[_ IH1] IH2]. split; [|done]. split; [done|].
    constructor; [|done]. apply (above_bounds d (ie_path e) (ie_path x) (ie_path x)); try done.
    by rewrite (ord_refl path_cmp).
  - split; [by split|]. constructor; [done|]. rewrite Forall_forall in Hx, Hnes' |- *. intros y Hy.
    destruct (within d y) eqn:Ey; [|done]. rewrite <- Ew. symmetry.
    apply path_starts_above; [done|]. right.
    apply (above_bounds d (ie_path e) (ie_path x) (ie_path y)); auto.
Qed.

(** *** The laws *)

Lemma above_irrefl q : ¬ above q q.
Proof. by intros (_ & ? & _). Qed.

(** The directories come outermost first. *)
Lemma cumulative_sorted d :
  rel_path d → StronglySorted (λ a b, a ≠ b ∧ ¬ above b a) (cumulative_components d).
Proof.
  intros Hd. pattern d. apply rel_path_ind; [by repeat constructor| |done].
  clear d Hd. intros d n Hd Hn IH. destruct Hd as [->|Hd].
  { rewrite join_empty_l, cumulative_top by done. by repeat constructor. }
  rewrite cumulative_join by done. apply StronglySorted_app_2; [|done|by repeat constructor].
  intros a b Ha ->%list_elem_of_singleton.
  assert (above a (join d n)) as Hab.
  { apply elem_of_cumulative in Ha; [|done]. apply above_join; [by right|done|tauto]. }
  split; [by intros ->; apply above_irrefl in Hab|].
  intros Hba. by apply (above_irrefl a), (above_trans a (join d n)).
Qed.

Lemma dirs_sorted p : norm_path p → StronglySorted (λ a b, a ≠ b ∧ ¬ above b a) (dirs p).
Proof.
  intros Hp. destruct (norm_snoc p Hp) as (d & n & Hd & Hn & ->). rewrite dirs_join by done.
  by apply cumulative_sorted.
Qed.

Lemma above_rel q p : above q p → rel_path q.
Proof. by intros (? & _). Qed.

Lemma above_root p : norm_path p → above EMPTY p.
Proof.
  intros Hp. split_and!; [by left| |apply prefix_nil].
  intros <-. by apply (norm_path_last EMPTY) in Hp as (? & ? & _).
Qed.

Lemma yield_pseudotree_eq ps it :
  yield_pseudotree ps it =
  match filter (.∉ xi_pseudotrees it) ps with
  | [] => None
  | q :: _ => Some (create_pseudotree (xi_index it) q,
      mk_IndexTreeIter (xi_index it) (xi_entry_iter it) (q :: xi_pseudotrees it) (xi_peeked it))
  end.
Proof.
  induction ps as [|p ps IH]; [done|]. cbn [yield_pseudotree].
  case_bool_decide; [by rewrite filter_cons_False, IH by auto|by rewrite filter_cons_True].
Qed.

(** The entries of an index strictly below a directory. *)
Definition entries_below (p : BitPath) (es : list BitIndexEntry) : list BitIndexEntry :=
  List.filter (λ e, within p e && negb (bool_decide (ie_path e = p))) es.

(** What the iterator relies on: files in path order, and a tree cache that counts them. *)
Definition index_listable (idx : BitIndexInner) : Prop :=
  paths_sorted (std_iter idx) ∧ Forall (λ e, norm_path (ie_path e) ∧ entry_is_blob e = true) (std_iter idx)
  ∧ ∀ p child, rel_path p → valid_child idx p = Some child →
      tc_entry_count child = Z.of_nat (length (entries_below p (std_iter idx))).

Section index_laws.
Context (idx : BitIndexInner) (fuel : nat) (listable : index_listable idx).

Abbreviation pseudo := (create_pseudotree idx).

(** The state of an iterator that has taken the entries [consumed]. *)
Record cursor_ok (it : IndexTreeIter) (consumed : list BitIndexEntry) : Prop := {
  co_index : xi_index it = idx;
  co_split : std_iter idx = consumed ++ xi_entry_iter it;
  co_closed : ∀ q q', q ∈ xi_pseudotrees it → above q' q → q' ∈ xi_pseudotrees it;
  co_rel : Forall rel_path (xi_pseudotrees it);
  co_consumed : ∀ c q, c ∈ consumed → above q (ie_path c) →
    q ∈ xi_pseudotrees it ∨ Forall (λ r, ¬ above q (ie_path r)) (xi_entry_iter it);
  co_start : EMPTY ∉ xi_pseudotrees it →
    xi_pseudotrees it = [] ∧ consumed = [] ∧ xi_peeked it = None;
}.

(** What is still to come, but for the peeked entry. *)
Definition to_come (it : IndexTreeIter) : list BitIndexEntry :=
  if bool_decide (EMPTY ∈ xi_pseudotrees it)
  then index_listing pseudo (xi_pseudotrees it) (xi_entry_iter it)
  else pseudo EMPTY :: index_listing pseudo [EMPTY] (xi_entry_iter it).

(** A directory that has just been made up: nothing below it has been taken. *)
Definition fresh_tree (it : IndexTreeIter) (consumed : list BitIndexEntry) (t : BitIndexEntry) : Prop :=
  rel_path (ie_path t) ∧ ie_path t ∈ xi_pseudotrees it
  ∧ Forall (λ c, ¬ above (ie_path t) (ie_path c)) consumed
  ∧ (∀ e, head (xi_entry_iter it) = Some e → above (ie_path t) (ie_path e)).

Definition cursor_at (it : IndexTreeIter) (consumed l : list BitIndexEntry) : Prop :=
  cursor_ok it consumed ∧
  match xi_peeked it with
  | None => l = to_come it
  | Some t => EMPTY ∈ xi_pseudotrees it ∧ l = t :: to_come it ∧ ie_mode t ≠ GITLINK
      ∧ (entry_is_tree t = true → fresh_tree it consumed t)
  end.

Lemma all_norm : Forall (λ e, norm_path (ie_path e)) (std_iter idx).
Proof. destruct listable as (_ & H & _). eapply Forall_impl; [exact H|]. by intros ? []. Qed.

Lemma entries_norm it c : cursor_ok it c → Forall (λ e, norm_path (ie_path e)) (xi_entry_iter it).
Proof. intros Hc. pose proof all_norm as H. rewrite (co_split _ _ Hc) in H. by apply Forall_app in H as [_ ?]. Qed.

Lemma entries_sorted it c : cursor_ok it c → paths_sorted (xi_entry_iter it).
Proof.
  intros Hc. destruct listable as (H & _). rewrite (co_split _ _ Hc) in H.
  eapply StronglySorted_sublist; [|exact H]. by apply sublist_inserts_l.
Qed.

Lemma next_unpeeked it c :
  cursor_ok it c → xi_peeked it = None →
  ∃ it' c', index_iter_next it = (Ok (head (to_come it)), it') ∧ cursor_ok it' c'
    ∧ to_come it' = tail (to_come it) ∧ xi_peeked it' = None ∧ EMPTY ∈ xi_pseudotrees it'
    ∧ (∀ t, head (to_come it) = Some t → entry_is_tree t = true → fresh_tree it' c' t).
Proof.
  intros Hc Hpk. pose proof (entries_norm it c Hc) as Hnorm. pose proof Hc as [Hidx Hsplit Hcl Hrel Hcon Hst].
  unfold index_iter_next. rewrite yield_pseudotree_eq. unfold to_come at 1 3 4.
  case_bool_decide as HE; cycle 1.
  { rewrite filter_cons_True by done. destruct (Hst HE) as (Hpt & -> & _). rewrite Hidx, Hpt, Hpk.
    eexists _, []. split_and!; [done| | |done|cbn; by left|].
    - split; cbn; try done.
      + intros q q' ->%list_elem_of_singleton []%above_empty.
      + apply Forall_singleton. by left.
      + intros ? ? []%elem_of_nil.
      + intros []. by left.
    - unfold to_come. cbn. by rewrite bool_decide_true by by left.
    - intros t [= <-] _. split_and!; [by left|cbn; by left|done|]. cbn. intros e He.
      apply above_root. rewrite Forall_forall in Hnorm. apply Hnorm.
      destruct (xi_entry_iter it); [done|]. injection He as ->. by left. }
  rewrite filter_cons_False by auto. cbn [filter list_filter]. rewrite Hpk.
  destruct (xi_entry_iter it) as [|e es] eqn:Hes.
  { exists it, c. split_and!; try done. unfold to_come. by rewrite bool_decide_true, Hes. }
  inversion_clear Hnorm as [|?? Hne Hnes]. cbn [index_listing].
  pose proof (dirs_sorted _ Hne) as Hds. unfold new_dirs.
  assert (∃ d, parent (ie_path e) = Some d ∧ dirs (ie_path e) = cumulative_components d) as (d & Ed & Hd).
  { destruct (norm_snoc _ Hne) as (d & n & Hd & Hn & ->). exists d. by rewrite dirs_join, parent_join. }
  rewrite Ed, yield_pseudotree_eq, <- Hd. destruct (filter (.∉ xi_pseudotrees it) (dirs (ie_path e))) as [|q qs] eqn:Hq.
  - exists (set_entry_iter it es), (c ++ [e]). cbn [fmap list_fmap app]. split_and!; try done.
    + split; try done; cbn.
      * by rewrite Hsplit, <- app_assoc.
      * intros c' q' [Hc'| ->%list_elem_of_singleton]%elem_of_app Hab.
        -- destruct (Hcon c' q' Hc' Hab) as [?|Hf]; [by left|right]. by inversion_clear Hf.
        -- left. apply elem_of_dirs, elem_of_cons in Hab as [->|Hin]; [done| |done].
           destruct (decide (q' ∈ xi_pseudotrees it)) as [|Hn]; [done|].
           assert (q' ∈ filter (.∉ xi_pseudotrees it) (dirs (ie_path e))) as Hin'
             by by apply list_elem_of_filter.
           rewrite Hq in Hin'. by apply elem_of_nil in Hin'.
    + unfold to_come. by rewrite bool_decide_true.
    + intros t [= <-] Ht. exfalso. destruct listable as (_ & Hb & _). rewrite Hsplit in Hb.
      apply Forall_app in Hb as [_ Hb]. inversion_clear Hb as [|?? [_ Hbl] _].
      unfold entry_is_tree, entry_is_blob in *. cbn in *. by destruct (ie_mode e).
  - assert (q ∈ dirs (ie_path e) ∧ q ∉ xi_pseudotrees it) as [Hqd Hqn].
    { assert (q ∈ q :: qs) as H by by left. rewrite <- Hq in H. by apply list_elem_of_filter in H as []. }
    assert (above q (ie_path e)) as Hqe by (apply elem_of_dirs; [done|by right]).
    pose proof (StronglySorted_sublist _ _ _ (sublist_filter (.∉ xi_pseudotrees it) _) Hds) as Hqs.
    rewrite Hq in Hqs. apply StronglySorted_inv in Hqs as [_ Hqs]. rewrite Forall_forall in Hqs.
    eexists _, c. rewrite Hidx, Hes, Hpk. split_and!; [done| | |done|cbn; by right|].
    + split; cbn; try done.
      * intros a a' [->|Ha]%elem_of_cons Hab; [|apply elem_of_cons; right; by eapply Hcl].
        apply elem_of_cons. destruct (decide (a' ∈ xi_pseudotrees it)) as [|Hn]; [by right|].
        assert (a' ∈ EMPTY :: dirs (ie_path e)) as Ha'
          by (apply elem_of_dirs; [done|by eapply above_trans]).
        apply elem_of_cons in Ha' as [->|Ha']; [done|].
        assert (a' ∈ filter (.∉ xi_pseudotrees it) (dirs (ie_path e))) as Hin by by apply list_elem_of_filter.
        rewrite Hq in Hin. apply elem_of_cons in Hin as [->|Hin]; [by left|].
        destruct (Hqs _ Hin) as [_ []]. done.
      * constructor; [by eapply above_rel|done].
      * intros c' q' Hc' Hab. rewrite elem_of_cons. destruct (Hcon c' q' Hc' Hab); tauto.
      * intros []. by right.
    + unfold to_come. cbn [xi_pseudotrees xi_entry_iter]. rewrite bool_decide_true by by right.
      cbn [index_listing fmap list_fmap app tail]. unfold new_dirs.
      assert (filter (.∉ q :: xi_pseudotrees it) (dirs (ie_path e)) = qs) as ->.
      { transitivity (filter (.≠ q) (filter (.∉ xi_pseudotrees it) (dirs (ie_path e)))).
        - rewrite list_filter_filter. apply list_filter_iff. intros a. rewrite not_elem_of_cons. tauto.
        - rewrite Hq, filter_cons_False by auto. clear - Hqs. induction qs as [|a qs IH]; [done|].
          rewrite filter_cons_True by (destruct (Hqs a ltac:(by left)); congruence).
          f_equal. apply IH. intros x Hx. apply Hqs. by right. }
      do 2 f_equal. apply index_listing_ext. intros ???? . rewrite !elem_of_app, !elem_of_cons, !elem_of_app. tauto.
    + intros t [= <-] _. split_and!; cbn; [by eapply above_rel|by left| |by intros ? [= <-]].
      apply Forall_forall. intros c' Hc' Hab.
      destruct (Hcon c' q Hc' Hab) as [?|Hf]; [done|]. by inversion_clear Hf.
Qed.

Lemma to_come_mode it c x : cursor_ok it c → x ∈ to_come it → ie_mode x ≠ GITLINK.
Proof.
  intros Hc Hx. assert (∀ seen, x ∈ index_listing pseudo seen (xi_entry_iter it) → ie_mode x ≠ GITLINK) as Hl.
  { intros seen [Hin|(? & ? & _ & _ & _ & ->)]%index_listing_elem; [|done].
    destruct listable as (_ & Hb & _). rewrite (co_split _ _ Hc), Forall_app in Hb.
    destruct Hb as [_ Hb]. rewrite Forall_forall in Hb. destruct (Hb _ Hin) as [_ Hbl].
    unfold entry_is_blob in Hbl. cbn in Hbl. by destruct (ie_mode x). }
  unfold to_come in Hx. case_bool_decide; [by eapply Hl|].
  apply elem_of_cons in Hx as [->|Hx]; [done|by eapply Hl].
Qed.

Lemma next_at it c l :
  cursor_at it c l →
  ∃ it' c', index_iter_next it = (Ok (head l), it') ∧ cursor_ok it' c'
    ∧ to_come it' = tail l ∧ xi_peeked it' = None ∧ EMPTY ∈ xi_pseudotrees it'
    ∧ (∀ t, head l = Some t → ie_mode t ≠ GITLINK ∧ (entry_is_tree t = true → fresh_tree it' c' t)).
Proof.
  intros [Hc Hp]. destruct (xi_peeked it) as [t|] eqn:Epk.
  2: { subst l. destruct (next_unpeeked it c Hc Epk) as (it' & c' & ? & ? & ? & ? & ? & Hf).
    exists it', c'. split_and!; try done. intros t Ht. split; [|by apply Hf].
    apply (to_come_mode it c); [done|]. destruct (to_come it); [done|]. injection Ht as ->. by left. }
  destruct Hp as (HE & -> & Hg & Hf). exists (set_peeked it None), c. unfold index_iter_next.
  rewrite yield_pseudotree_eq, filter_cons_False by auto. cbn [filter list_filter]. rewrite Epk.
  refine (conj eq_refl (conj _ (conj eq_refl (conj eq_refl (conj HE _))))).
  - destruct Hc. by split.
  - intros t' [= <-]. exact (conj Hg Hf).
Qed.

Lemma cursor_at_unpeeked it c : cursor_ok it c → xi_peeked it = None → cursor_at it c (to_come it).
Proof. intros Hc Hp. split; [done|]. by rewrite Hp. Qed.

Lemma peek_at it c l :
  cursor_at it c l →
  ∃ it' c', index_iter_peek it = (Ok (head l), it') ∧ cursor_at it' c' l.
Proof.
  intros Hat. unfold index_iter_peek. destruct (xi_peeked it) as [t|] eqn:Epk.
  - exists it, c. split; [|done]. destruct Hat as [_ Hp]. rewrite Epk in Hp.
    by destruct Hp as (_ & -> & _ & _).
  - destruct (next_at it c l Hat) as (it' & c' & -> & Hc & Hr & Hpk & HE & Hf).
    exists (set_peeked it' (head l)), c'. split; [done|].
    assert (cursor_ok (set_peeked it' (head l)) c') as Hc'.
    { destruct Hc. split; try done. }
    split; [done|]. destruct l as [|t l]; cbn [head set_peeked xi_peeked].
    + done.
    + destruct (Hf t eq_refl) as [Hg Hft]. refine (conj HE (conj _ (conj Hg Hft))). cbn in Hr. by rewrite <- Hr.
Qed.

(** After a made-up directory, the next entries are those below it. *)
Lemma fresh_block it c t :
  cursor_ok it c → EMPTY ∈ xi_pseudotrees it → fresh_tree it c t →
  let B := take_within (ie_path t) (xi_entry_iter it) in
  let R := drop_within (ie_path t) (xi_entry_iter it) in
  Forall (λ e, above (ie_path t) (ie_path e)) B ∧ Forall (λ e, within (ie_path t) e = false) R
  ∧ xi_entry_iter it = B ++ R
  ∧ drop_within (ie_path t) (to_come it) = index_listing pseudo (xi_pseudotrees it) R.
Proof.
  intros Hc HE (Hr & Hin & Hcons & Hhd) B R.
  assert (Forall (λ e, above (ie_path t) (ie_path e)) B ∧ Forall (λ e, within (ie_path t) e = false) R)
    as [HB HR].
  { unfold B, R. pose proof (entries_norm _ _ Hc) as Hn. pose proof (entries_sorted _ _ Hc) as Hs.
    destruct (xi_entry_iter it) as [|e es]; [done|]. apply entries_block; auto. }
  assert (xi_entry_iter it = B ++ R) as Hsplit by by unfold B, R; rewrite take_drop_within.
  split_and!; [done..|]. unfold to_come. rewrite bool_decide_true by done.
  assert (seen_to (xi_pseudotrees it) (ie_path t)) as Hseen.
  { intros q [->|Hq]; [done|]. by eapply co_closed. }
  pose proof (entries_norm _ _ Hc) as Hn. rewrite Hsplit in Hn.
  rewrite Hsplit, (index_listing_block _ _ (ie_path t)) by done.
  apply Forall_app in Hn as [HnB HnR]. rewrite drop_within_all.
  - apply outside_drop.
    pose proof (listing_outside_within pseudo (λ p, eq_refl) (xi_pseudotrees it) (ie_path t) R Hr HnR HR) as Ho.
    by destruct Ho.
  - apply Forall_forall. intros x Hx. apply path_starts_above; [done|]. right.
    by apply (listing_below_within pseudo (λ p, eq_refl) (xi_pseudotrees it) (ie_path t) B).
Qed.

Lemma entries_below_none p es :
  rel_path p → Forall (λ e, ¬ above p (ie_path e)) es → entries_below p es = [].
Proof.
  intros Hp. unfold entries_below. induction 1 as [|e es He _ IH]; [done|]. cbn. rewrite IH.
  destruct (within p e && negb (bool_decide (ie_path e = p))) eqn:E; [|done]. exfalso. apply He.
  apply andb_prop in E as [E1 E2]. apply path_starts_above in E1 as [->|?]; [|done..].
  by rewrite bool_decide_true in E2.
Qed.

Lemma entries_below_all p es :
  rel_path p → Forall (λ e, above p (ie_path e)) es → entries_below p es = es.
Proof.
  intros Hp. unfold entries_below. induction 1 as [|e es He _ IH]; [done|]. cbn.
  assert (within p e = true) as -> by (apply path_starts_above; [done|by right]).
  rewrite bool_decide_false by (intros E; by destruct He as (_ & [] & _)). cbn. by rewrite IH.
Qed.

Lemma entries_below_app p es1 es2 : entries_below p (es1 ++ es2) = entries_below p es1 ++ entries_below p es2.
Proof. apply List.filter_app. Qed.

Lemma within_not_above p e : within p e = false → ¬ above p (ie_path e).
Proof.
  intros Hw Ha. assert (within p e = true); [|congruence].
  apply path_starts_above; [by eapply above_rel|by right].
Qed.

(** Skipping as many entries as the cache counts. *)
Lemma cached_step it c t child :
  cursor_ok it c → xi_peeked it = None → EMPTY ∈ xi_pseudotrees it → fresh_tree it c t →
  valid_child idx (ie_path t) = Some child → (0 < tc_entry_count child)%Z →
  ∃ c', cursor_at (set_entry_iter it (drop (Z.to_nat (tc_entry_count child - 1) + 1) (xi_entry_iter it))) c'
          (drop_within (ie_path t) (to_come it)).
Proof.
  intros Hc Hpk HE Hf Hv Hpos. pose proof Hf as (Hr & Hin & Hcons & _).
  destruct (fresh_block it c t Hc HE Hf) as (HB & HR & Hsplit & ->).
  set (B := take_within (ie_path t) (xi_entry_iter it)) in *.
  set (R := drop_within (ie_path t) (xi_entry_iter it)) in *.
  assert (tc_entry_count child = Z.of_nat (length B)) as Hcount.
  { destruct listable as (_ & _ & Hcounts). rewrite (Hcounts _ _ Hr Hv).
    rewrite (co_split _ _ Hc), Hsplit, !entries_below_app.
    assert (Forall (λ e, ¬ above (ie_path t) (ie_path e)) R) as HR'
      by (eapply Forall_impl; [exact HR|intros ?; apply within_not_above]).
    rewrite entries_below_none, (entries_below_all _ B), (entries_below_none _ R) by done.
    by rewrite app_nil_r. }
  assert (drop (Z.to_nat (tc_entry_count child - 1) + 1) (xi_entry_iter it) = R) as ->.
  { rewrite Hsplit. replace (Z.to_nat (tc_entry_count child - 1) + 1)%nat with (length B) by lia.
    apply drop_app_length. }
  exists (c ++ B). split; [|cbn; rewrite Hpk; unfold to_come; cbn; by rewrite bool_decide_true].
  pose proof (entries_norm _ _ Hc) as Hn. rewrite Hsplit in Hn. apply Forall_app in Hn as [HnB HnR].
  destruct Hc as [Hidx Hsp Hcl Hrel Hcon Hst]. split; cbn; try done.
  - by rewrite Hsp, Hsplit, <- app_assoc.
  - intros e q [He|He]%elem_of_app Hq.
    + destruct (Hcon e q He Hq) as [?|H]; [by left|right]. rewrite Hsplit in H.
      by apply Forall_app in H as [_ ?].
    + rewrite Forall_forall in HB. destruct (above_comparable q (ie_path t) (ie_path e) Hq (HB _ He))
        as [->|[H|H]]; [by left|left; by eapply Hcl|right].
      eapply Forall_impl; [exact HR|]. intros r Hw Hqr. apply within_not_above in Hw.
      by apply Hw, (above_trans _ q).
Qed.

Lemma over_list_drop p x l :
  within p x = true → drop_within p (over_list (x :: l)) = drop_within p (x :: l).
Proof.
  intros Hx. cbn. rewrite Hx. case_match; [|done]. rewrite <- (take_drop_within (ie_path x) l) at 2.
  rewrite drop_within_all; [done|]. eapply Forall_impl; [apply take_within_Forall|].
  intros y Hy. by apply (within_trans p x).
Qed.

Lemma length_over_list x l : length (over_list (x :: l)) ≤ length l.
Proof. cbn. case_match; [apply length_drop_within|done]. Qed.

Definition over_spec (n : nat) : Prop := ∀ it c l,
  cursor_at it c l → length l < n →
  ∃ it' c', index_iter_over n it = (Ok (head l), it') ∧ cursor_at it' c' (over_list l).

Lemma step_children_spec n m p it c l :
  over_spec n → cursor_at it c l → length l < n → length l < m →
  ∃ it' c', step_children (index_iter_over n) m p it = (Ok tt, it')
    ∧ cursor_at it' c' (drop_within p l).
Proof.
  intros Hov. revert it c l. induction m as [|m IH]; intros it c l Hat Hn Hm; [lia|].
  cbn [step_children]. destruct (peek_at it c l Hat) as (it1 & c1 & E1 & Hat1).
  rewrite (st_bind_ok _ _ _ _ _ E1). destruct l as [|x l]; [by exists it1, c1|]. cbn [head].
  destruct (within p x) eqn:Hx; [|exists it1, c1; cbn; by rewrite Hx].
  destruct (Hov it1 c1 _ Hat1 Hn) as (it2 & c2 & E2 & Hat2). rewrite (st_bind_ok _ _ _ _ _ E2).
  pose proof (length_over_list x l) as Hl. cbn in Hn, Hm.
  destruct (IH it2 c2 _ Hat2) as (it3 & c3 & E3 & Hat3); [cbn in *; lia..|].
  exists it3, c3. by rewrite <- over_list_drop.
Qed.

Lemma index_iter_over_spec n : over_spec n.
Proof.
  induction n as [|n IH]; intros it c l Hat Hn; [lia|]. cbn [index_iter_over].
  destruct (next_at it c l Hat) as (it1 & c1 & E1 & Hc1 & Hr1 & Hpk1 & HE1 & Hf1).
  rewrite (st_bind_ok _ _ _ _ _ E1). destruct l as [|t l]; cbn [head tail over_list] in *.
  { exists it1, c1. split; [done|]. rewrite <- Hr1. by apply cursor_at_unpeeked. }
  assert (cursor_at it1 c1 l) as Hat1 by (rewrite <- Hr1; by apply cursor_at_unpeeked).
  destruct (Hf1 t eq_refl) as [Hg Hft]. unfold entry_is_tree in *. cbn in Hft |- *.
  destruct (ie_mode t) eqn:Hm; cbn; try by exists it1, c1.
  unfold step_over_tree. rewrite (co_index _ _ Hc1). destruct (valid_child idx (ie_path t)) as [child|] eqn:Hv.
  - assert (0 < tc_entry_count child)%Z as Hpos.
    { unfold valid_child, find_valid_child in Hv. destruct (idx_tree_cache idx); [cbn in Hv|done].
      repeat case_match; try done. injection Hv as <-. lia. }
    destruct (cached_step it1 c1 t child Hc1 Hpk1 HE1 (Hft eq_refl) Hv Hpos) as (c2 & Hat2).
    eexists _, c2. split; [done|]. by rewrite Hr1 in Hat2.
  - destruct (step_children_spec n n (ie_path t) it1 c1 l IH Hat1) as (it2 & c2 & E2 & Hat2);
      [cbn in Hn; lia..|].
    exists it2, c2. by rewrite (st_bind_ok _ _ _ _ _ E2).
Qed.

End index_laws.

Section index_laws_instance.
Context (idx : BitIndexInner) (fuel : nat) (listable : index_listable idx).

(** Everything that the iterator over the index yields. *)
Definition index_tree_listing : list BitIndexEntry :=
  create_pseudotree idx EMPTY :: index_listing (create_pseudotree idx) [EMPTY] (std_iter idx).

Definition index_yields (it : IndexTreeIter) (l : list BitIndexEntry) : Prop :=
  (∃ c, cursor_at idx it c l) ∧ length l < fuel.

Lemma index_over_yields it l :
  index_yields it l → ∃ it', index_iter_over fuel it = (Ok (head l), it')
    ∧ index_yields it' (over_list l) ∧ KIndex = KIndex.
Proof.
  intros [[c Hat] Hf].
  destruct (index_iter_over_spec idx listable fuel it c l Hat Hf) as (it' & c' & E & Hat').
  exists it'. split_and!; [done| |done]. split; [by exists c'|].
  destruct l as [|x l]; [done|]. pose proof (length_over_list x l). cbn in *. lia.
Qed.

#[export] Program Instance index_tree_laws : @TreeIterLaws IndexTreeIter (index_tree_iterator fuel) :=
  {| yields := index_yields; peeked := index_yields |}.
Next Obligation. done. Qed.
Next Obligation.
  intros it l [[c Hat] Hf]. destruct (peek_at idx listable it c l Hat) as (it' & c' & E & Hat').
  exists it'. split_and!; [done| |done]. split; [by exists c'|done].
Qed.
Next Obligation.
  intros it l [[c Hat] Hf].
  destruct (next_at idx listable it c l Hat) as (it' & c' & E & Hc & Hr & Hpk & _).
  exists it'. split_and!; [done| |done]. split; [|destruct l; cbn in *; lia].
  exists c'. rewrite <- Hr. by apply cursor_at_unpeeked.
Qed.
Next Obligation. intros it l Hy _. by apply index_over_yields. Qed.

Lemma index_iter_new_yields :
  length index_tree_listing < fuel → index_yields (index_iter_new idx) index_tree_listing.
Proof.
  intros Hf. split; [|done]. exists []. split; [|done].
  split; cbn; try done; [by intros ?? ?%elem_of_nil|by intros ?? ?%elem_of_nil].
Qed.
End index_laws_instance.

Lemma components_join d n :
  rel_path d → entry_name n → components (join d n) = components d ++ [n].
Proof.
  intros Hd Hn. unfold components. destruct (rel_join d n Hd Hn) as [_ ->]. by rewrite fmap_app.
Qed.

Lemma foldl_join_components d : rel_path d → foldl join EMPTY (components d) = d.
Proof.
  intros Hd. pattern d. apply rel_path_ind; [done| |done]. clear d Hd. intros d n Hd Hn IH.
  by rewrite components_join, foldl_app, IH.
Qed.


(** An index with the files [a], [d/b] and [d/c], whose tree cache knows the directory [d]. *)
Definition cached_index : BitIndexInner :=
  mk_BitIndexInner (idx_entries (plain_index [bs "a"; bs "d/b"; bs "d/c"; bs "e"]))
    (Some (mk_TreeCache EMPTY UNKNOWN (-1) [(bs "d", mk_TreeCache (bs "d") EMPTY_BLOB 2 [])])) None.

Lemma cached_index_listable : index_listable cached_index.
Proof.
  split_and!.
  - repeat constructor; discriminate.
  - repeat constructor; vm_decide.
  - intros p child Hp Hv.
    assert (components p = [bs "d"] ∧ tc_entry_count child = 2%Z) as [Hc Hn].
    { unfold valid_child, find_valid_child, find_child in Hv. cbn [cached_index idx_tree_cache] in Hv.
      destruct (components p) as [|c [|c' cs]]; [discriminate Hv|..];
        cbn in Hv; unfold mbind, option_bind in Hv; case_bool_decide; cbn in Hv; by simplify_eq. }
    rewrite <- (foldl_join_components p Hp), Hc, Hn. vm_compute. reflexivity.
Qed.

