(* ===== verification/Pathspec.v ===== *)
(** * Pathspec

    [libbit/src/pathspec.rs]: parsing a pathspec, and the filters that it puts on the iterators. *)

From Stdlib Require Import ZArith Lia Sorted.
From Stdlib Require Import Strings.Byte.
From stdpp Require Import base tactics option list countable strings.
From S2P Require Import Prelude RustStd Data State Io Hash Path BTree Obj Tree IndexEntry TreeCache Index.
From S2P Require Import TreeIter TreeDiff IndexIter.

Record Pathspec := mk_Pathspec { ps_prefix : BitPath }.

#[export] Instance Pathspec_eq_dec : EqDecision Pathspec.
Proof. solve_decision. Defined.

Definition MATCH_ALL : Pathspec := mk_Pathspec EMPTY.

Definition is_match_all (p : Pathspec) : bool := bool_decide (p = MATCH_ALL).

(** ** Characters *)

(** A byte that is not the first of a character. *)
Definition is_continuation (b : byte) : bool := ((128 <=? u8 b) && (u8 b <? 192))%Z.

(** [str::chars], each character as its bytes. *)
Definition push_byte (b : byte) (cs : list bytes) : list bytes :=
  match cs with
  | (c0 :: c) :: cs' => if is_continuation c0 then (b :: c0 :: c) :: cs' else [b] :: cs
  | _ => [b] :: cs
  end.

Definition chars (s : bytes) : list bytes := foldr push_byte [] s.

(** [&s[..i]]: panics unless [i] is a character boundary. *)
Definition str_prefix (s : bytes) (i : nat) : BitResult bytes :=
  if (i <=? length s) && negb (match s !! i with Some b => is_continuation b | None => false end)
  then Ok (take i s) else Panic.

Definition is_wildcard (c : bytes) : bool := bool_decide (c ∈ [[x2a]; [x3f]; [x5b]]).

Definition find_prefix_end (s : bytes) : option nat :=
  let chars := chars s in
  fst <$> List.find (λ '(i, c), is_wildcard c
                       && (bool_decide (i = 0) || negb (bool_decide (chars !! (i - 1) = Some [x5c]))))
            (imap pair chars).

Definition pathspec_from_str (s : bytes) : BitResult Pathspec :=
  if bool_decide (s = bs ".") then Ok MATCH_ALL
  else
    prefix ← (match find_prefix_end s with Some i => str_prefix s i | None => Ok s end);
    Ok (mk_Pathspec prefix).

(** ** Matching *)

Definition matches_path (p : Pathspec) (path : BitPath) : bool := path_starts_with path (ps_prefix p).

Definition match_entry (p : Pathspec) (entry : BitIndexEntry) : bool := matches_path p (ie_path entry).

(** The adaptor is run by [filter_iterator]. *)
Definition match_tree_iter {S} (p : Pathspec) (iterator : S) : Filter S := mk_Filter iterator (match_entry p).

(** The results of a [BitEntryIterator]: an error is let through. *)
Definition match_entry_iterator (p : Pathspec) (iterator : list (BitResult BitIndexEntry))
    : list (BitResult BitIndexEntry) :=
  List.filter (λ r, match r with Ok entry => match_entry p entry | _ => true end) iterator.

(** *** Sanity checks: the unit tests of pathspec.rs *)

Example pathspec_prefix_test :
  (find_prefix_end (bs "\*"), find_prefix_end (bs "*"), find_prefix_end (bs "abc?")) = (None, Some 0, Some 3).
Proof. vm_compute. reflexivity. Qed.

Example pathspec_matches_test :
  (pathspec_from_str (bs "path") ≫= λ p, Ok (matches_path p (bs "path/to/dir"))) = Ok true.
Proof. vm_compute. reflexivity. Qed.

(** ** What a pathspec is *)

Lemma find_ext {A} (f g : A → bool) l : (∀ x, f x = g x) → List.find f l = List.find g l.
Proof. intros H. induction l as [|x l IH]; [done|]. cbn. by rewrite H, IH. Qed.

Lemma find_imap {A} (f : nat → A → bool) k l :
  match List.find (λ ic, f ic.1 ic.2) (imap (λ n c, (k + n, c)) l) with
  | Some (i, _) => ∃ n c, i = k + n ∧ l !! n = Some c ∧ f i c = true
      ∧ ∀ m d, m < n → l !! m = Some d → f (k + m) d = false
  | None => ∀ m d, l !! m = Some d → f (k + m) d = false
  end.
Proof.
  revert k. induction l as [|x l IH]; intros k; cbn; [done|].
  replace (k + 0) with k by lia. destruct (f k x) eqn:Hx.
  - exists 0, x. split_and!; [lia|done|done|]. lia.
  - specialize (IH (S k)). erewrite (imap_ext _ (λ n c, (S k + n, c))) by (intros; cbn; f_equal; lia).
    assert (∀ m d, (x :: l) !! m = Some d → (∀ m', m = S m' → f (S k + m') d = false) → f (k + m) d = false) as Hc.
    { intros [|m] d; cbn; [intros [= <-] _; by replace (k + 0) with k by lia|].
      intros _ Hm. replace (k + S m) with (S k + m) by lia. by apply Hm. }
    destruct (List.find _ _) as [[i c0]|].
    + destruct IH as (n & c & -> & Hn & Hf & Hm). exists (S n), c. split_and!; [lia|done|done|].
      intros m d Hlt Hd. apply Hc; [done|]. intros m' ->. apply Hm; [lia|done].
    + intros m d Hd. apply Hc; [done|]. intros m' ->. by apply IH.
Qed.

(** A wildcard that no backslash precedes, at the [i]-th byte. *)
Definition unescaped_wildcard (s : bytes) (i : nat) : Prop :=
  (∃ b, s !! i = Some b ∧ b ∈ [x2a; x3f; x5b]) ∧ (i = 0 ∨ s !! (i - 1) ≠ Some x5c).

Lemma ascii_starts_char b : is_ascii b = true → is_continuation b = false.
Proof. unfold is_ascii, is_continuation. lia. Qed.

Lemma chars_ascii s : Forall (λ b, is_ascii b = true) s → chars s = (λ b, [b]) <$> s.
Proof.
  induction 1 as [|b s Hb Hs IH]; [done|]. cbn. change (foldr push_byte [] s) with (chars s). rewrite IH.
  destruct Hs as [|c s Hc Hs]; [done|]. cbn. by rewrite ascii_starts_char.
Qed.

Lemma singleton_lookup (s : bytes) i b : ((λ b, [b]) <$> s : list bytes) !! i = Some [b] ↔ s !! i = Some b.
Proof. rewrite list_lookup_fmap, fmap_Some. naive_solver. Qed.

Lemma is_wildcard_byte b : is_wildcard [b] = true ↔ b ∈ [x2a; x3f; x5b].
Proof.
  unfold is_wildcard. rewrite bool_decide_eq_true, !elem_of_cons, !elem_of_nil.
  split; [intros [[=]|[[=]|[[=]|[]]]]; auto|intros [->|[->|[->|[]]]]; auto].
Qed.

Lemma find_prefix_end_ascii s :
  Forall (λ b, is_ascii b = true) s →
  match find_prefix_end s with
  | Some n => unescaped_wildcard s n ∧ ∀ i, i < n → ¬ unescaped_wildcard s i
  | None => ∀ i, ¬ unescaped_wildcard s i
  end.
Proof.
  intros Hs. unfold find_prefix_end. rewrite (chars_ascii s Hs).
  set (g := λ (i : nat) (c : bytes), is_wildcard c
    && (bool_decide (i = 0) || negb (bool_decide (((λ b, [b]) <$> s : list bytes) !! (i - 1) = Some [x5c])))).
  assert (∀ i b, s !! i = Some b → g i [b] = true ↔ unescaped_wildcard s i) as Hg.
  { intros i b Hb. unfold g, unescaped_wildcard.
    rewrite andb_true_iff, orb_true_iff, negb_true_iff, is_wildcard_byte,
      bool_decide_eq_false, bool_decide_eq_true, singleton_lookup.
    split; intros [H1 H2]; (split; [|done]); [by exists b|].
    destruct H1 as (b' & E & H1). rewrite Hb in E. by injection E as <-. }
  pose proof (find_imap g 0 ((λ b, [b]) <$> s)) as H.
  cbn [Nat.add] in H. rewrite (find_ext _ (λ ic, g ic.1 ic.2)) by by intros [].
  clearbody g.
  change (imap pair _) with (imap (λ n (c : bytes), (n, c)) ((λ b, [b]) <$> s)).
  destruct (List.find _ _) as [[i c0]|]; cbn.
  - destruct H as (n & c & -> & Hn & Hf & Hm). cbn in *.
    rewrite list_lookup_fmap in Hn. apply fmap_Some in Hn as (b & Hb & ->). split; [by apply (Hg n b)|].
    intros i Hi Hu. pose proof Hu as [(b' & Hb' & _) _]. apply (Hg i b' Hb') in Hu.
    rewrite (Hm i [b']) in Hu; [done|done|]. by apply singleton_lookup.
  - intros i Hu. pose proof Hu as [(b' & Hb' & _) _]. apply (Hg i b' Hb') in Hu.
    cbn in H. rewrite (H i [b']) in Hu; [done|]. by apply singleton_lookup.
Qed.

(** A pathspec of ASCII characters other than [.] always parses, and its prefix ends right before
    the first wildcard that no backslash precedes, or is the whole text when it has none. *)
Theorem pathspec_from_str_correct s :
  Forall (λ b, is_ascii b = true) s → s ≠ bs "." →
  ∃ n, pathspec_from_str s = Ok (mk_Pathspec (take n s)) ∧ n ≤ length s
    ∧ (∀ i, i < n → ¬ unescaped_wildcard s i) ∧ (n < length s → unescaped_wildcard s n).
Proof.
  intros Hs Hdot. unfold pathspec_from_str. rewrite bool_decide_false by done.
  pose proof (find_prefix_end_ascii s Hs) as H. destruct (find_prefix_end s) as [n|].
  - destruct H as [Hn Hlt]. exists n. pose proof Hn as [(b & Hb & _) _].
    pose proof (lookup_lt_Some _ _ _ Hb). unfold str_prefix. rewrite Hb.
    rewrite (ascii_starts_char b) by by apply (Forall_lookup_1 (λ b, is_ascii b = true) s n b).
    rewrite (proj2 (Nat.leb_le _ _)) by lia. split_and!; [done|lia|done|done].
  - exists (length s). rewrite take_ge by lia. split_and!; [done|lia|by intros i _|lia].
Qed.

(** A pathspec matches the file or directory that it names and what lies below it. *)
Lemma matches_path_spec d p :
  rel_path d → matches_path (mk_Pathspec d) p = true ↔ d = p ∨ above d p.
Proof. apply path_starts_above. Qed.

Lemma match_all_path p : matches_path MATCH_ALL p = true.
Proof. unfold matches_path, path_starts_with. cbn. apply bool_decide_true. by destruct (path_components p). Qed.

Lemma match_all_filter l : List.filter (match_entry MATCH_ALL) l = l.
Proof. induction l as [|x l IH]; [done|]. cbn. rewrite IH. unfold match_entry. by rewrite match_all_path. Qed.

(** A wildcard behind a character of several bytes: the position that is found counts characters and
    the text is cut at that byte, in the middle of the character. *)
Theorem pathspec_multibyte_panics b c s w rest :
  is_ascii b = false → is_continuation b = false → Forall (λ b, is_continuation b = true) (c :: s) →
  w ∈ [x2a; x3f; x5b] → Forall (λ b, is_ascii b = true) rest →
  pathspec_from_str (b :: c :: s ++ w :: rest) = Panic.
Proof.
  intros Hb Hb' Hs Hw Hr.
  assert (is_ascii w = true) as Hwa.
  { rewrite !elem_of_cons, elem_of_nil in Hw. by destruct Hw as [->|[->|[->|[]]]]. }
  pose proof (chars_ascii (w :: rest) ltac:(by constructor)) as Ew. rewrite fmap_cons in Ew.
  assert (∀ s', Forall (λ b, is_continuation b = true) s' → ∀ b0, chars (b0 :: s' ++ w :: rest)
    = (b0 :: s') :: chars (w :: rest)) as Hch.
  { intros s' Hs'. induction Hs' as [|c' s' Hc' _ IH]; intros b0.
    - change (chars (b0 :: [] ++ w :: rest)) with (push_byte b0 (chars (w :: rest))). rewrite Ew. cbn.
      by rewrite (ascii_starts_char w Hwa).
    - change (chars (b0 :: (c' :: s') ++ w :: rest)) with (push_byte b0 (chars (c' :: s' ++ w :: rest))).
      rewrite IH. cbn. by rewrite Hc'. }
  pose proof (Hch (c :: s) Hs b) as E. cbn [app] in E. rewrite Ew in E.
  unfold pathspec_from_str. rewrite bool_decide_false by done.
  assert (is_wildcard (b :: c :: s) = false) as Hnw.
  { unfold is_wildcard. apply bool_decide_false. rewrite !elem_of_cons, elem_of_nil. naive_solver. }
  unfold find_prefix_end. rewrite E, imap_cons. cbn [List.find]. rewrite Hnw. cbn [andb].
  rewrite imap_cons. cbn [List.find compose]. rewrite (proj2 (is_wildcard_byte w) Hw).
  rewrite (bool_decide_false (_ = Some [x5c])) by done.
  inversion_clear Hs as [|?? Hc _].
  assert (str_prefix (b :: c :: s ++ w :: rest) 1 = Panic) as Ep.
  { unfold str_prefix. cbn -[is_continuation]. by rewrite Hc. }
  rewrite orb_true_r. cbn -[str_prefix]. by rewrite Ep.
Qed.

Lemma pathspec_from_str_correct_witness :
  ∃ n, pathspec_from_str (bs "src/*.rs") = Ok (mk_Pathspec (take n (bs "src/*.rs"))) ∧ n = 4.
Proof.
  destruct (pathspec_from_str_correct (bs "src/*.rs")) as (n & E & _ & Hb & Hn).
  - repeat (constructor; [reflexivity|]). constructor.
  - done.
  - exists n. split; [done|]. vm_compute in E. destruct n as [|[|[|[|[|n]]]]]; try done.
Defined.

Lemma pathspec_multibyte_panics_witness :
  ∃ s, utf8_valid s = true ∧ pathspec_from_str s = Panic.
Proof.
  exists (xc3 :: xa9 :: [] ++ x2a :: []). split; [reflexivity|].
  apply pathspec_multibyte_panics; [reflexivity|reflexivity|by repeat constructor|by left|constructor].
Defined.

(** ** Filtered listings *)

Section filtered.
Context (keep : BitPath → bool).
#[local] Abbreviation kept := (List.filter (λ e, keep (ie_path e))).

Lemma elem_of_kept l x : x ∈ kept l ↔ x ∈ l ∧ keep (ie_path x) = true.
Proof. by rewrite !list_elem_of_In, List.filter_In. Qed.

Lemma kept_sorted {R : BitIndexEntry → BitIndexEntry → Prop} l : StronglySorted R l → StronglySorted R (kept l).
Proof.
  induction 1 as [|x l _ IH Hx]; cbn; [constructor|]. case_match; [|done]. constructor; [done|].
  rewrite Forall_forall in Hx |- *. intros y [Hy _]%elem_of_kept. by apply Hx.
Qed.

Lemma kept_contiguous l : contiguous l → contiguous (kept l).
Proof.
  induction l as [|x l IH]; [done|]. cbn. intros [Hx Hl]. case_match; [|by apply IH]. split; [|by apply IH].
  intros Ht. specialize (Hx Ht). rewrite <- filter_drop_within by done.
  rewrite Forall_forall in Hx |- *. intros y [Hy _]%elem_of_kept. by apply Hx.
Qed.

Lemma kept_diff_list l : diff_list l → diff_list (kept l).
Proof.
  intros (Hs & Hm & Hc). split; [by apply kept_sorted|]. split; [|by apply kept_contiguous].
  rewrite Forall_forall in Hm |- *. intros y [Hy _]%elem_of_kept. by apply Hm.
Qed.

Lemma kept_covered l other : covered l other → covered (kept l) (kept other).
Proof.
  intros Hcov t q [Ht Hkt]%elem_of_kept Htt [Hq _]%elem_of_kept Hw Hne.
  destruct (Hcov t q Ht Htt Hq Hw Hne) as (t' & Ht' & Htt' & Hp).
  exists t'. rewrite elem_of_kept, Hp. done.
Qed.

Lemma kept_comparable chg O N :
  (∀ d p, keep d = true → path_starts_with p d = true → keep p = true) →
  comparable chg O N → comparable chg (kept O) (kept N).
Proof.
  intros Hk (HO & HN & HcO & HcN & Hs).
  split; [by apply kept_diff_list|]. split; [by apply kept_diff_list|].
  split; [by apply kept_covered|]. split; [by apply kept_covered|].
  intros t [Ht Hkt]%elem_of_kept [Ht' _]%elem_of_kept Htt Hkn. destruct (Hs t Ht Ht' Htt Hkn) as [H1 H2]. split.
  - intros x [Hx Hkx]%elem_of_kept Hb Hw. destruct (H1 x Hx Hb Hw) as (y & Hy & ? & Hp & ?).
    exists y. rewrite elem_of_kept, Hp. done.
  - intros y [Hy Hky]%elem_of_kept Hb Hw. destruct (H2 y Hy Hb Hw) as (x & Hx & ? & Hp).
    exists x. rewrite elem_of_kept, Hp. done.
Qed.

(** The changes at the paths that are kept. *)
Definition kept_status (s : WorkspaceStatus) : WorkspaceStatus :=
  mk_WorkspaceStatus (kept (ws_new s)) (List.filter (λ xy, keep (ie_path xy.1)) (ws_modified s)) (kept (ws_deleted s)).

Lemma find_blob_kept p l : keep p = true → find_blob p (kept l) = find_blob p l.
Proof.
  intros Hp. unfold find_blob. induction l as [|x l IH]; [done|]. cbn [List.filter].
  destruct (keep (ie_path x)) eqn:Hx; cbn [List.find]; rewrite IH; [done|].
  rewrite bool_decide_false by congruence. by rewrite andb_false_r.
Qed.

Lemma absent_kept p l : keep p = true → absent p (kept l) = absent p l.
Proof. intros Hp. unfold absent. by rewrite find_blob_kept. Qed.

Lemma only_in_kept l other : only_in (kept l) (kept other) = kept (only_in l other).
Proof.
  unfold only_in. induction l as [|x l IH]; [done|]. cbn. destruct (keep (ie_path x)) eqn:Hx; cbn.
  - rewrite absent_kept, IH by done. destruct (_ && _); cbn; by rewrite ?Hx.
  - rewrite IH. destruct (_ && _); cbn; by rewrite ?Hx.
Qed.

Lemma diff_spec_kept chg upd O N : diff_spec chg upd (kept O) (kept N) = kept_status (diff_spec chg upd O N).
Proof.
  unfold diff_spec, kept_status. cbn. rewrite !only_in_kept. f_equal.
  induction O as [|x O IH]; [done|].
  assert (keep (ie_path x) = true → modified_pair chg upd (kept N) x = modified_pair chg upd N x) as Hm.
  { intros Hx. unfold modified_pair. by rewrite find_blob_kept. }
  assert (∀ xy, modified_pair chg upd N x = Some xy → xy.1 = x) as Hf.
  { unfold modified_pair. intros xy. repeat case_match; intros [= <-]; done. }
  cbn [List.filter omap list_omap]. destruct (keep (ie_path x)) eqn:Hx.
  - cbn [omap list_omap]. rewrite Hm by done. destruct (modified_pair chg upd N x) as [xy|]; [|done].
    cbn [List.filter]. by rewrite (Hf xy), Hx, IH.
  - rewrite IH. destruct (modified_pair chg upd N x) as [xy|]; [|done].
    cbn [List.filter]. by rewrite (Hf xy), Hx.
Qed.
End filtered.

Lemma matches_path_below p d q : matches_path p d = true → path_starts_with q d = true → matches_path p q = true.
Proof. unfold matches_path. rewrite !path_starts_with_prefix. intros. by etrans. Qed.

Section match_tree.
Context {S} `{TreeIterLaws S}.

(** The filtered iterator yields the entries at the paths that match. *)
Lemma match_tree_iter_yields fuel p (it : S) l :
  yields it l → contiguous l → length l < fuel →
  yields (TreeIterLaws := filter_laws fuel) (match_tree_iter p it) (List.filter (match_entry p) l).
Proof. intros Hy Hc Hf. by exists l. Qed.
End match_tree.
