(* ===== verification/Walk.v ===== *)
(** * Walk

    [libbit/src/iter/walk.rs]: the simultaneous walk of several tree iterators
    ([WalkTreeIterators]), which yields for every path the entries that the iterators have there
    and steps over subtrees that are equal.  The number of iterators is the length of the list. *)

From Stdlib Require Import ZArith Lia Sorted.
From Stdlib Require Import Strings.Byte.
From stdpp Require Import base tactics option list countable strings sorting.
From S2P Require Import Prelude RustStd Data State Hash Path BTree Obj Tree IndexEntry TreeCache TreeIter.
From S2P Require Import TreeDiff TreeListing IndexIter.

(** ** WalkTreeIterators *)

(** [[Option<BitIndexEntry>; N]]. *)
Abbreviation walk_entries := (list (option BitIndexEntry)).

(** The body of the loop of [walk_common!] for the entry of the iterator [i]: the entries that
    match so far and the first of them. *)
Definition scan_entry (n i : nat) (entry : BitIndexEntry)
    (acc : walk_entries * option BitIndexEntry) : walk_entries * option BitIndexEntry :=
  let '(next_entries, first_match) := acc in
  let next_entries := <[i := Some entry]> next_entries in
  match first_match with
  | None => (next_entries, Some entry)
  | Some fst_entry =>
      match diff_cmp entry fst_entry with
      | Lt => (<[i := Some entry]> (replicate n None), Some entry)
      | Eq => (next_entries, first_match)
      | Gt => (<[i := None]> next_entries, first_match)
      end
  end.

(** Whether the entries are trees with the same id, and how many were counted. *)
Fixpoint same_tree (oid : option Oid) (count : nat) (entries : list BitIndexEntry) : bool * nat :=
  match entries with
  | [] => (true, count)
  | entry :: entries =>
      if negb (entry_is_tree entry) then (false, count)
      else match oid with
           | Some oid' =>
               if bool_decide (ie_oid entry ≠ oid') then (false, count)
               else same_tree oid (S count) entries
           | None => same_tree (Some (ie_oid entry)) (S count) entries
           end
  end.

(** [should_step_over && count > 1]. *)
Definition steps_over (row : walk_entries) : bool :=
  let '(should_step_over, count) := same_tree None 0 (omap id row) in
  should_step_over && (1 <? count)%nat.

Section walk.
Context {S} `{BitTreeIterator S}.

Definition on_nth {A} (i : nat) (m : st S A) : st (list S) A := λ its,
  match its !! i with
  | Some it => let '(r, it) := m it in (r, <[i := it]> its)
  | None => (Panic, its)
  end.

(** [walk_common!]. *)
Fixpoint walk_scan (n : nat) (ixs : list nat) (acc : walk_entries * option BitIndexEntry)
    : st (list S) (walk_entries * option BitIndexEntry) :=
  match ixs with
  | [] => mret acc
  | i :: ixs =>
      entry ← on_nth i it_peek;
      walk_scan n ixs (match entry with Some entry => scan_entry n i entry acc | None => acc end)
  end.

(** Advances the iterators whose entries are used. *)
Fixpoint walk_advance (over : bool) (i : nat) (row : walk_entries) : st (list S) unit :=
  match row with
  | [] => mret tt
  | None :: row => walk_advance over (Datatypes.S i) row
  | Some _ :: row =>
      _ ← on_nth i (if over then it_over else it_next);
      walk_advance over (Datatypes.S i) row
  end.

Definition walk_next : st (list S) (option walk_entries) := λ its,
  let n := length its in
  ('(next_entries, first_match) ← walk_scan n (seq 0 n) (replicate n None, None);
   match first_match with
   | None => mret None
   | Some _ => _ ← walk_advance (steps_over next_entries) 0 next_entries; mret (Some next_entries)
   end : st _ _) its.

(** Everything that a walk yields. *)
Fixpoint walk_collect (fuel : nat) : st (list S) (list walk_entries) :=
  match fuel with
  | O => st_lift Panic
  | Datatypes.S fuel =>
      row ← walk_next;
      match row with
      | Some row => rows ← walk_collect fuel; mret (row :: rows)
      | None => mret []
      end
  end.
End walk.

(** ** What a step of the walk does *)

(** The entry that a list has at the path, when it comes first. *)
Definition head_at (m : BitPath) (l : list BitIndexEntry) : option BitIndexEntry :=
  match l with
  | x :: _ => if bool_decide (ie_path x = m) then Some x else None
  | [] => None
  end.

Definition row_at (m : BitPath) (ls : list (list BitIndexEntry)) : walk_entries := head_at m <$> ls.

(** [m] is the least of the paths that come first. *)
Definition least_head (m : BitPath) (ls : list (list BitIndexEntry)) : Prop :=
  (∃ x l, (x :: l) ∈ ls ∧ ie_path x = m)
  ∧ ∀ x l, (x :: l) ∈ ls → path_cmp m (ie_path x) ≠ Gt.

Definition step_list (over : bool) (l : list BitIndexEntry) (o : option BitIndexEntry) :=
  match o with Some _ => if over then over_list l else tail l | None => l end.

(** What the iterators yield after the step at [m]. *)
Definition step_lists (m : BitPath) (ls : list (list BitIndexEntry)) : list (list BitIndexEntry) :=
  (λ l, step_list (steps_over (row_at m ls)) l (head_at m l)) <$> ls.

(** The scan of the first [i] lists: the first match and the entries that match it. *)
Definition scan_ok (ls : list (list BitIndexEntry)) (i : nat)
    (acc : walk_entries * option BitIndexEntry) : Prop :=
  match acc.2 with
  | None => acc.1 = replicate (length ls) None ∧ ∀ l, l ∈ take i ls → l = []
  | Some f =>
      acc.1 = row_at (ie_path f) (take i ls) ++ replicate (length ls - i) None
      ∧ least_head (ie_path f) (take i ls)
  end.

Lemma diff_cmp_paths (x y : BitIndexEntry) : diff_cmp x y = path_cmp (ie_path x) (ie_path y).
Proof. done. Qed.

Lemma row_at_none m ls : (∀ x l, x :: l ∈ ls → ie_path x ≠ m) → row_at m ls = replicate (length ls) None.
Proof.
  unfold row_at. induction ls as [|l ls IH]; intros Hx; [done|]. cbn. rewrite IH by (intros x k Hk; apply (Hx x k); by right).
  f_equal. destruct l as [|x l]; [done|]. cbn. rewrite bool_decide_false; [done|]. apply (Hx x l). by left.
Qed.

Lemma scan_step ls i l acc :
  ls !! i = Some l → scan_ok ls i acc →
  scan_ok ls (S i) (match head l with Some entry => scan_entry (length ls) i entry acc | None => acc end).
Proof.
  intros Hl Hok. pose proof (lookup_lt_Some _ _ _ Hl) as Hi.
  assert (take (S i) ls = take i ls ++ [l]) as Et by by apply take_S_r.
  assert (length (take i ls) = i) as Elen by (rewrite length_take; lia).
  assert (∀ (k : walk_entries) o, length k = i →
    <[i := o]> (k ++ replicate (length ls - i) None) = k ++ o :: replicate (length ls - S i) None) as Eins.
  { intros k o <-. rewrite insert_app_r_alt by done. rewrite Nat.sub_diag.
    replace (length ls - length k) with (S (length ls - S (length k))) by lia. done. }
  assert (∀ o : option BitIndexEntry, <[i := o]> (replicate (length ls) None)
    = replicate i None ++ o :: replicate (length ls - S i) None) as Erep.
  { intros o. rewrite <- Eins by apply length_replicate. rewrite <- replicate_add. do 2 f_equal. lia. }
  unfold scan_ok in *. rewrite Et. destruct acc as [ne [f|]], l as [|x l]; cbn [fst snd head scan_entry] in *.
  - destruct Hok as [-> (H1 & H2)]. split.
    + unfold row_at. rewrite fmap_app, <- app_assoc. cbn. f_equal.
      by replace (length ls - i) with (S (length ls - S i)) by lia.
    + destruct H1 as (x & k & Hk & Hx). split.
      * exists x, k. split; [|done]. apply elem_of_app. by left.
      * intros y u [Hu|Hu%list_elem_of_singleton]%elem_of_app; [by eapply H2|done].
  - destruct Hok as [-> (H1 & H2)]. rewrite diff_cmp_paths.
    assert (length (row_at (ie_path f) (take i ls)) = i) as Er by by (unfold row_at; rewrite length_fmap).
    destruct (path_cmp (ie_path x) (ie_path f)) eqn:E; cbn [fst snd].
    + apply (ord_eq path_cmp) in E. split.
      * rewrite Eins by done. unfold row_at. rewrite fmap_app, <- app_assoc. cbn.
        by rewrite bool_decide_true.
      * destruct H1 as (y & k & Hk & Hy). split.
        -- exists y, k. split; [|done]. apply elem_of_app. by left.
        -- intros z u [Hu|Hu%list_elem_of_singleton]%elem_of_app; [by eapply H2|].
           injection Hu as -> _. by rewrite E, (ord_refl path_cmp).
    + split.
      * rewrite Erep. unfold row_at. rewrite fmap_app, <- app_assoc. cbn.
        rewrite bool_decide_true by done. f_equal. rewrite <- Elen. symmetry. rewrite length_take_le by lia.
        replace (replicate i None) with (replicate (length (take i ls)) (@None BitIndexEntry)) by by rewrite Elen.
        apply row_at_none. intros y u Hu Ey.
        apply (H2 y u Hu). rewrite Ey. by apply (ord_gt path_cmp).
      * split.
        -- exists x, l. split; [|done]. apply elem_of_app. right. by left.
        -- intros z u [Hu|Hu%list_elem_of_singleton]%elem_of_app.
           ++ intros Hgt. apply (H2 z u Hu).
              apply (ord_gt path_cmp) in Hgt. apply (ord_gt path_cmp). by eapply (ord_trans path_cmp).
           ++ injection Hu as -> _. by rewrite (ord_refl path_cmp).
    + split.
      * rewrite list_insert_insert_eq, Eins by done. unfold row_at. rewrite fmap_app, <- app_assoc. cbn.
        rewrite bool_decide_false; [done|]. intros Ex. rewrite Ex, (ord_refl path_cmp) in E. done.
      * destruct H1 as (y & k & Hk & Hy). split.
        -- exists y, k. split; [|done]. apply elem_of_app. by left.
        -- intros z u [Hu|Hu%list_elem_of_singleton]%elem_of_app; [by eapply H2|].
           injection Hu as -> _. apply (ord_gt path_cmp) in E. by rewrite E.
  - destruct Hok as [-> H]. split; [done|].
    intros u [Hu|Hu%list_elem_of_singleton]%elem_of_app; [by apply H|done].
  - destruct Hok as [-> H]. split.
    + rewrite Erep. unfold row_at. rewrite fmap_app, <- app_assoc. cbn.
      rewrite bool_decide_true by done. f_equal. symmetry.
      replace (replicate i None) with (replicate (length (take i ls)) (@None BitIndexEntry)) by by rewrite Elen.
      apply row_at_none. intros y u Hu. by apply H in Hu.
    + split.
      * exists x, l. split; [|done]. apply elem_of_app. right. by left.
      * intros z u [Hu|Hu%list_elem_of_singleton]%elem_of_app; [by apply H in Hu|].
        injection Hu as -> _. by rewrite (ord_refl path_cmp).
Qed.

(** *** When a step goes over subtrees *)

Lemma same_tree_spec es : ∀ oid n b n',
  same_tree (Some oid) n es = (b, n') →
  b = true ↔ Forall (λ e, entry_is_tree e = true ∧ ie_oid e = oid) es.
Proof.
  induction es as [|e es IH]; intros oid n b n'; cbn [same_tree].
  - intros [= <- _]. split; [by constructor|done].
  - destruct (entry_is_tree e) eqn:He; cbn [negb].
    + case_bool_decide as Ho; intros E.
      * injection E as <- _. split; [done|]. intros Hf. inversion_clear Hf as [|?? [_ ?] _]. done.
      * rewrite (IH _ _ _ _ E), Forall_cons. tauto.
    + intros [= <- _]. split; [done|]. intros Hf. inversion_clear Hf as [|?? [? _] _]. congruence.
Qed.

Lemma same_tree_count es : ∀ oid n n',
  same_tree oid n es = (true, n') → n' = n + length es.
Proof.
  induction es as [|e es IH]; intros oid n n'; cbn [same_tree length]; [intros [= ->]; lia|].
  destruct (entry_is_tree e); cbn [negb]; [|done]. destruct oid as [oid|].
  - case_bool_decide; [done|]. intros E%IH. lia.
  - intros E%IH. lia.
Qed.

(** A step goes over subtrees exactly if two or more iterators have an entry there and these are
    trees with the same id. *)
Lemma steps_over_spec row :
  steps_over row = true ↔
  2 ≤ length (omap id row)
  ∧ ∃ oid, ∀ x, Some x ∈ row → entry_is_tree x = true ∧ ie_oid x = oid.
Proof.
  unfold steps_over. assert (∀ x, Some x ∈ row ↔ x ∈ omap id row) as Hin.
  { intros x. rewrite list_elem_of_omap. split; [by exists (Some x)|]. intros (o & Ho & E).
    unfold id in E. by subst. }
  setoid_rewrite Hin. clear Hin. destruct (same_tree None 0 (omap id row)) as [b n] eqn:E.
  rewrite andb_true_iff, Nat.ltb_lt.
  assert (b = true → n = length (omap id row)) as Hn.
  { intros ->. by apply same_tree_count in E. }
  destruct (omap id row) as [|e es]; cbn [same_tree length] in *.
  { injection E as <- <-. split; intros []; lia. }
  destruct (entry_is_tree e) eqn:He; cbn [negb] in E.
  - pose proof (same_tree_spec _ _ _ _ _ E) as Hs. rewrite Forall_forall in Hs. split.
    + intros [Hb ?]. split; [rewrite <- Hn by done; lia|]. exists (ie_oid e).
      intros x [->|Hx]%elem_of_cons; [done|]. by apply Hs.
    + intros (Hlen & oid & Ho). assert (b = true) as Hb.
      { apply Hs. intros x Hx. destruct (Ho e ltac:(by left)) as [_ <-]. apply Ho. by right. }
      split; [done|]. rewrite Hn by done. lia.
  - injection E as <- <-. split; [by intros []|]. intros (_ & oid & Ho).
    destruct (Ho e ltac:(by left)). congruence.
Qed.

Lemma head_at_Some m l x : head_at m l = Some x → x ∈ l ∧ ie_path x = m ∧ ∃ l', l = x :: l'.
Proof.
  destruct l as [|y l]; [done|]. cbn. case_bool_decide; [|done]. intros [= ->].
  split_and!; [by left|done|by eexists].
Qed.

(** *** The step on the iterators *)

Section walk_laws.
Context {S} `{TreeIterLaws S}.

Lemma on_nth_ok {A} (m : st S A) (its : list S) i it r it' :
  its !! i = Some it → m it = (r, it') → on_nth i m its = (r, <[i := it']> its).
Proof. intros Hi Em. unfold on_nth. by rewrite Hi, Em. Qed.

(** The iterators below [i] have been peeked. *)
Definition scanned (i : nat) (its : list S) (ls : list (list BitIndexEntry)) : Prop :=
  length its = length ls
  ∧ ∀ j it l, its !! j = Some it → ls !! j = Some l → if decide (j < i) then peeked it l else yields it l.

Lemma scanned_start its ls : Forall2 yields its ls → scanned 0 its ls.
Proof.
  intros Hy. split; [by eapply Forall2_length|]. intros j it l Hi Hl.
  rewrite decide_False by lia. by eapply Forall2_lookup_lr.
Qed.

Lemma walk_scan_spec ls k : ∀ i (its : list S) acc,
  i + k = length ls → scanned i its ls → scan_ok ls i acc →
  ∃ acc' (its' : list S), walk_scan (length ls) (seq i k) acc its = (Ok acc', its')
    ∧ scanned (length ls) its' ls ∧ scan_ok ls (length ls) acc'.
Proof.
  induction k as [|k IH]; intros i its acc Hk Hs Ha; cbn [seq walk_scan].
  - exists acc, its. rewrite Nat.add_0_r in Hk. by subst.
  - destruct Hs as [Hlen Hs]. destruct (lookup_lt_is_Some_2 its i ltac:(lia)) as [it Hit].
    destruct (lookup_lt_is_Some_2 ls i ltac:(lia)) as [l Hl].
    pose proof (Hs i it l Hit Hl) as Hy. rewrite decide_False in Hy by lia.
    destruct (law_peek it l Hy) as (it' & E & Hp & _).
    rewrite (st_bind_ok _ _ _ _ _ (on_nth_ok _ _ _ _ _ _ Hit E)).
    apply IH; [lia| |by apply scan_step].
    split; [by rewrite length_insert|]. intros j it2 l2 Hj Hl2. destruct (decide (j = i)) as [->|Hne].
    + rewrite list_lookup_insert_eq in Hj by lia. injection Hj as <-.
      rewrite Hl in Hl2. injection Hl2 as <-. by rewrite decide_True by lia.
    + rewrite list_lookup_insert_ne in Hj by done. specialize (Hs j it2 l2 Hj Hl2).
      repeat case_decide; try done; lia.
Qed.

(** Advancing the iterators from [i] on; those below [i] have been advanced. *)
Lemma walk_advance_spec over (ls : list (list BitIndexEntry * option BitIndexEntry)) k : ∀ i (its : list S),
  i + k = length ls → length its = length ls →
  (∀ j it l, its !! j = Some it → ls !! j = Some l →
     (l.2 = None ∨ l.2 = head l.1 ∧ (over = true → at_tree l.1)) ∧
     if decide (i ≤ j) then peeked it l.1 else yields it (step_list over l.1 l.2)) →
  ∃ its' : list S, walk_advance over i (drop i ls).*2 its = (Ok tt, its')
    ∧ Forall2 yields its' ((λ l, step_list over l.1 l.2) <$> ls).
Proof.
  induction k as [|k IH]; intros i its Hk Hlen Hs.
  - rewrite drop_ge by lia. exists its. split; [done|].
    apply Forall2_same_length_lookup. split; [by rewrite length_fmap|].
    intros j it u Hj Hu. rewrite list_lookup_fmap in Hu. apply fmap_Some in Hu as (l & Hl & ->).
    destruct (Hs j it l Hj Hl) as [_ Hy]. apply lookup_lt_Some in Hl. by rewrite decide_False in Hy by lia.
  - destruct (lookup_lt_is_Some_2 its i ltac:(lia)) as [it Hit].
    destruct (lookup_lt_is_Some_2 ls i ltac:(lia)) as [l Hl].
    rewrite (drop_S _ _ _ Hl). cbn [fmap list_fmap walk_advance].
    destruct (Hs i it l Hit Hl) as [Hh Hp]. rewrite decide_True in Hp by lia.
    destruct l as [l [x|]]; cbn [fst snd] in *.
    + destruct Hh as [?|[Hh Ht]]; [done|].
      assert (∃ it', (if over then it_over else it_next) it = (Ok (head l), it')
        ∧ yields it' (step_list over l (Some x))) as (it' & E & Hy).
      { destruct over; [destruct (law_over it l Hp (Ht eq_refl)) as (it' & E & Hy & _)
          |destruct (law_next it l (peeked_yields _ _ Hp)) as (it' & E & Hy & _)]; by exists it'. }
      rewrite (st_bind_ok _ _ _ _ _ (on_nth_ok _ _ _ _ _ _ Hit E)).
      apply IH; [lia|by rewrite length_insert|]. intros j it2 l2 Hj Hl2.
      destruct (decide (j = i)) as [->|Hne].
      * rewrite list_lookup_insert_eq in Hj by lia. injection Hj as <-.
        rewrite Hl in Hl2. injection Hl2 as <-. split; [by right|]. by rewrite decide_False by lia.
      * rewrite list_lookup_insert_ne in Hj by done. destruct (Hs j it2 l2 Hj Hl2) as [? Hy2].
        split; [done|]. repeat case_decide; try done; lia.
    + apply IH; [lia|done|]. intros j it2 l2 Hj Hl2. destruct (Hs j it2 l2 Hj Hl2) as [? Hy2].
      split; [done|]. destruct (decide (j = i)) as [->|Hne]; [|by repeat case_decide; try done; lia].
      rewrite decide_False by lia. rewrite Hl in Hl2. injection Hl2 as <-.
      rewrite Hit in Hj. injection Hj as <-. by apply peeked_yields.
Qed.

(** A step of the walk: the entries at the least path that comes first, and every iterator that has
    one is behind it, or behind its subtree; the end when nothing is left. *)
Lemma walk_next_spec (its : list S) ls :
  Forall2 yields its ls →
  ∃ its' : list S, Forall2 yields its' ls ∧ walk_next its = (Ok None, its') ∧ Forall (.= []) ls
  ∨ ∃ m, least_head m ls ∧ walk_next its = (Ok (Some (row_at m ls)), its')
      ∧ Forall2 yields its' (step_lists m ls).
Proof.
  intros Hy. pose proof (Forall2_length _ _ _ Hy) as Hlen.
  destruct (walk_scan_spec ls (length ls) 0 its (replicate (length ls) None, None))
    as ([ne fm] & its1 & E & Hs & Hok); [done|by apply scanned_start|by split; [|intros l []%elem_of_nil]|].
  unfold walk_next. rewrite Hlen, (st_bind_ok _ _ _ _ _ E). destruct Hs as [Hlen1 Hs].
  assert (∀ j it l, its1 !! j = Some it → ls !! j = Some l → peeked it l) as Hp.
  { intros j it l Hj Hl. specialize (Hs j it l Hj Hl). apply lookup_lt_Some in Hl.
    by rewrite decide_True in Hs. }
  unfold scan_ok in Hok. rewrite firstn_all in Hok. destruct fm as [f|]; cbn [fst snd] in Hok.
  - destruct Hok as [-> Hleast]. rewrite Nat.sub_diag. cbn [replicate]. rewrite app_nil_r.
    set (m := ie_path f) in *.
    destruct (walk_advance_spec (steps_over (row_at m ls)) ((λ l, (l, head_at m l)) <$> ls)
      (length ls) 0 its1) as (its2 & E2 & Hy2).
    + by rewrite length_fmap.
    + by rewrite length_fmap.
    + intros j it u Hj Hu. rewrite list_lookup_fmap in Hu. apply fmap_Some in Hu as (l & Hl & ->). cbn.
      split; [|by eapply Hp]. destruct (head_at m l) as [x|] eqn:Ex; [|by left]. right.
      pose proof (head_at_Some _ _ _ Ex) as (_ & _ & l' & ->). split; [done|].
      intros (_ & oid & Ho)%steps_over_spec. apply (Ho x). apply list_elem_of_fmap.
      exists (x :: l'). split; [done|]. by eapply list_elem_of_lookup_2.
    + exists its2. right. exists m. split; [done|]. rewrite drop_0 in E2.
      rewrite <- list_fmap_compose in E2, Hy2. split; [|exact Hy2].
      by rewrite (st_bind_ok _ _ _ _ _ E2).
  - destruct Hok as [-> Hnil]. exists its1. left. split_and!; [|done|by apply Forall_forall].
    apply Forall2_same_length_lookup. split; [done|]. intros j it l Hj Hl.
    by eapply peeked_yields, Hp.
Qed.
End walk_laws.

(** ** What a walk visits *)

(** The listings of trees that a walk goes through: what lies below a tree of one lies below the
    same tree in another, if that has it at all. *)
Definition walk_list (l : list BitIndexEntry) : Prop :=
  diff_list l ∧ Forall (λ x, rel_path (ie_path x)) l.

Definition walk_lists (ls : list (list BitIndexEntry)) : Prop :=
  Forall walk_list ls ∧ ∀ l l', l ∈ ls → l' ∈ ls → covered l l'.

Section step.
Context (m : BitPath) (ls : list (list BitIndexEntry)) (wf : walk_lists ls) (least : least_head m ls).

Lemma list_sorted_tail x l y : diff_list (x :: l) → y ∈ l → path_cmp (ie_path x) (ie_path y) = Lt.
Proof.
  intros [Hs _] Hy. apply StronglySorted_inv in Hs as [_ Hs]. rewrite Forall_forall in Hs. by apply Hs.
Qed.

Lemma step_diff_list l : l ∈ ls → diff_list l.
Proof. destruct wf as [Hl _]. rewrite Forall_forall in Hl. apply Hl. Qed.

Lemma step_rel l x : l ∈ ls → x ∈ l → rel_path (ie_path x).
Proof.
  intros Hin Hx. destruct wf as [Hl _]. rewrite Forall_forall in Hl. destruct (Hl l Hin) as [_ Hr].
  rewrite Forall_forall in Hr. by apply Hr.
Qed.

(** The entry at [m] comes first. *)
Lemma head_at_elem l x : l ∈ ls → x ∈ l → ie_path x = m → head_at m l = Some x.
Proof.
  intros Hl Hx Em. destruct l as [|y l]; [by apply elem_of_nil in Hx|]. cbn.
  apply elem_of_cons in Hx as [->|Hx]; [by rewrite bool_decide_true|]. exfalso.
  pose proof (list_sorted_tail y l x (step_diff_list _ Hl) Hx) as Hlt. rewrite Em in Hlt.
  destruct least as [_ Hle]. apply (Hle y l Hl). by apply (ord_gt path_cmp).
Qed.

Lemma step_after l x : l ∈ ls → x ∈ l → ie_path x ≠ m → path_cmp m (ie_path x) = Lt.
Proof.
  intros Hl Hx Hne. destruct l as [|y l]; [by apply elem_of_nil in Hx|].
  destruct least as [_ Hle]. pose proof (Hle y l Hl) as Hy.
  assert (path_cmp m (ie_path y) = Lt ∨ m = ie_path y) as Hm.
  { destruct (path_cmp m (ie_path y)) eqn:E; [right; by apply (ord_eq path_cmp)|by left|done]. }
  apply elem_of_cons in Hx as [->|Hx]; [destruct Hm; congruence|].
  pose proof (list_sorted_tail y l x (step_diff_list _ Hl) Hx) as Hlt.
  destruct Hm as [Hm| ->]; [by eapply (ord_trans path_cmp)|done].
Qed.

(** Where the step goes over subtrees, only the iterators that have an entry at [m] have entries
    below. *)
Lemma step_below l x :
  l ∈ ls → steps_over (row_at m ls) = true → x ∈ l → within m x = true → ie_path x ≠ m →
  ∃ t, head_at m l = Some t ∧ entry_is_tree t = true.
Proof.
  intros Hl (Hlen & oid & Ho)%steps_over_spec Hx Hw Hne.
  assert (∃ t, Some t ∈ row_at m ls) as (t & Ht).
  { destruct (omap id (row_at m ls)) as [|t r] eqn:E; [cbn in Hlen; lia|].
    assert (t ∈ omap id (row_at m ls)) as Hin by (rewrite E; by left).
    apply list_elem_of_omap in Hin as (o & Hin & Eo). unfold id in Eo. subst. by exists t. }
  destruct (Ho t Ht) as [Htt _]. apply list_elem_of_fmap in Ht as (l0 & Et & Hl0).
  symmetry in Et. apply head_at_Some in Et as (Ht & Em & _).
  destruct wf as [_ Hc]. rewrite <- Em in Hw, Hne.
  destruct (Hc l0 l Hl0 Hl t x Ht Htt Hx Hw Hne) as (t' & Ht' & Htt' & E).
  exists t'. split; [|done]. apply head_at_elem; [done|done|congruence].
Qed.

Lemma elem_of_drop_within p l x :
  contiguous l → (∀ y, y ∈ l → within p y = true → Forall (λ z, within p z = false) (drop_within p l)) →
  x ∈ drop_within p l ↔ x ∈ l ∧ within p x = false.
Proof.
  intros Hc Hd. split.
  - intros Hx. pose proof (take_drop_within p l) as E.
    assert (x ∈ l) as Hl by (rewrite <- E; apply elem_of_app; by right). split; [done|].
    destruct (within p x) eqn:Hw; [|done]. specialize (Hd x Hl Hw). rewrite Forall_forall in Hd.
    by rewrite Hd in Hw.
  - intros [Hx Hw]. rewrite <- (take_drop_within p l), elem_of_app in Hx.
    destruct Hx as [Hx|]; [|done]. pose proof (take_within_Forall p l) as Ht.
    rewrite Forall_forall in Ht. by rewrite Ht in Hw.
Qed.

(** What is left after the step: everything but the entries at [m] and what is stepped over. *)
Lemma elem_of_step l x :
  l ∈ ls →
  x ∈ step_list (steps_over (row_at m ls)) l (head_at m l) ↔
  x ∈ l ∧ ie_path x ≠ m ∧ ¬ (steps_over (row_at m ls) = true ∧ within m x = true).
Proof.
  intros Hl. destruct (head_at m l) as [t|] eqn:Eh.
  - pose proof (head_at_Some _ _ _ Eh) as (Ht & Em & k & ->). cbn [step_list].
    assert (∀ y, y ∈ k → ie_path y ≠ m) as Hk.
    { intros y Hy E. pose proof (list_sorted_tail t k y (step_diff_list _ Hl) Hy) as Hlt.
      by rewrite Em, E, (ord_refl path_cmp) in Hlt. }
    destruct (steps_over (row_at m ls)) eqn:Eo.
    + assert (entry_is_tree t = true) as Htt.
      { apply steps_over_spec in Eo as (_ & oid & Ho). apply (Ho t). apply list_elem_of_fmap.
        by exists (t :: k). }
      cbn [over_list]. rewrite Htt, Em. destruct (step_diff_list _ Hl) as (_ & _ & Hc).
      destruct Hc as [Hd Hc]. rewrite Em in Hd.
      rewrite elem_of_drop_within by (done || by intros; apply Hd). rewrite elem_of_cons. split.
      * intros [Hx Hw]. split_and!; [by right|by apply Hk|]. rewrite Hw. by intros [].
      * intros ([->|Hx] & Hne & Hn); [done|]. split; [done|]. destruct (within m x); [|done]. by destruct Hn.
    + cbn [tail]. rewrite elem_of_cons. split.
      * intros Hx. split_and!; [by right|by apply Hk|]. by intros [].
      * by intros ([->|Hx] & Hne & _).
  - cbn [step_list]. split; [|by intros []]. intros Hx.
    assert (ie_path x ≠ m) as Hne by (intros E; by rewrite (head_at_elem l x) in Eh).
    split_and!; [done..|]. intros [Ho Hw]. destruct (step_below l x) as (t & Et & _); [done..|congruence].
Qed.

Lemma step_suffix over l o : ∃ k, l = k ++ step_list over l o.
Proof.
  destruct o as [t|]; [|by exists []]. cbn. destruct l as [|x l]; [by exists []; destruct over|].
  destruct over; cbn; [|by exists [x]]. destruct (entry_is_tree x); [|by exists [x]].
  exists (x :: take_within (ie_path x) l). cbn. by rewrite take_drop_within.
Qed.

Lemma elem_of_step_lists l' :
  l' ∈ step_lists m ls → ∃ l, l ∈ ls ∧ l' = step_list (steps_over (row_at m ls)) l (head_at m l).
Proof. intros (l & -> & Hl)%list_elem_of_fmap. by exists l. Qed.

Lemma step_walk_lists : walk_lists (step_lists m ls).
Proof.
  split.
  - apply Forall_forall. intros l' (l & Hl & ->)%elem_of_step_lists.
    destruct (step_suffix (steps_over (row_at m ls)) l (head_at m l)) as [k E].
    split; [apply (diff_list_app k); rewrite <- E; by apply step_diff_list|].
    apply Forall_forall. intros x [Hx _]%elem_of_step; [|done]. by eapply step_rel.
  - intros l1' l2' (l1 & Hl1 & ->)%elem_of_step_lists (l2 & Hl2 & ->)%elem_of_step_lists.
    intros t q (Ht & Htm & Hts)%elem_of_step Htt (Hq & Hqm & Hqs)%elem_of_step Hw Hne; [|done..].
    destruct wf as [_ Hc]. destruct (Hc l1 l2 Hl1 Hl2 t q Ht Htt Hq Hw Hne) as (t' & Ht' & Htt' & E).
    exists t'. split_and!; [|done|done]. apply elem_of_step; [done|]. unfold within in *. rewrite E. by split_and!.
Qed.

Lemma step_head_nonempty : ∃ l x k, l ∈ ls ∧ l = x :: k ∧ ie_path x = m ∧ head_at m l = Some x.
Proof.
  destruct least as [(x & k & Hl & Em) _]. exists (x :: k), x, k. split_and!; [done..|].
  cbn. by rewrite bool_decide_true.
Qed.

Lemma step_decreases : sum_list_with length (step_lists m ls) < sum_list_with length ls.
Proof.
  destruct step_head_nonempty as (l0 & x0 & k0 & Hl0 & E0 & _ & Eh0).
  unfold step_lists. clear wf least. generalize (steps_over (row_at m ls)). intros over.
  assert (∀ l, length (step_list over l (head_at m l)) ≤ length l) as Hle.
  { intros l. destruct (step_suffix over l (head_at m l)) as [k E].
    apply (f_equal length) in E. rewrite length_app in E. lia. }
  assert (length (step_list over l0 (head_at m l0)) < length l0) as Hlt.
  { rewrite Eh0, E0. cbn. destruct over; cbn; [|lia].
    destruct (entry_is_tree x0); [|lia]. pose proof (length_drop_within (ie_path x0) k0). lia. }
  induction ls as [|l k IH]; [by apply elem_of_nil in Hl0|]. cbn.
  apply elem_of_cons in Hl0 as [->|Hl0].
  - assert (sum_list_with length ((λ l, step_list over l (head_at m l)) <$> k) ≤ sum_list_with length k); [|lia].
    clear -Hle. induction k as [|u k IH]; cbn; [done|]. specialize (Hle u). lia.
  - specialize (IH Hl0). specialize (Hle l). lia.
Qed.
End step.

(** *** The whole walk *)

Definition find_at (m : BitPath) (l : list BitIndexEntry) : option BitIndexEntry :=
  List.find (λ x, bool_decide (ie_path x = m)) l.

(** The path lies in a subtree that a step at one of the paths [ms] goes over. *)
Definition stepped_over (ls : list (list BitIndexEntry)) (ms : list BitPath) (p : BitPath) : Prop :=
  ∃ m, m ∈ ms ∧ steps_over (find_at m <$> ls) = true ∧ path_starts_with p m = true ∧ p ≠ m.

Lemma find_at_Some m l x :
  diff_list l → find_at m l = Some x ↔ x ∈ l ∧ ie_path x = m.
Proof.
  intros Hl. unfold find_at. split.
  - intros [Hx%list_elem_of_In E%bool_decide_eq_true]%List.find_some. done.
  - intros [Hx E]. induction l as [|y l IH]; [by apply elem_of_nil in Hx|]. cbn.
    apply elem_of_cons in Hx as [->|Hx]; [by rewrite bool_decide_true|].
    rewrite bool_decide_false; [apply IH; [by apply (diff_list_app [y])|done]|].
    intros Ey. pose proof (list_sorted_tail y l x Hl Hx) as Hlt. by rewrite Ey, E, (ord_refl path_cmp) in Hlt.
Qed.

Lemma find_at_ext m l l' :
  diff_list l → diff_list l' → (∀ x, ie_path x = m → x ∈ l ↔ x ∈ l') → find_at m l = find_at m l'.
Proof.
  intros Hl Hl' Hx. apply option_eq. intros x. rewrite !find_at_Some by done.
  split; intros [? ?]; (split; [|done]); by apply Hx.
Qed.

Section whole_step.
Context (m : BitPath) (ls : list (list BitIndexEntry)) (wf : walk_lists ls) (least : least_head m ls).

Lemma row_at_find : row_at m ls = find_at m <$> ls.
Proof.
  apply list_fmap_ext. intros i l Hl%list_elem_of_lookup_2. apply option_eq. intros x.
  rewrite (find_at_Some m l x (step_diff_list ls wf l Hl)). split.
  - intros (? & ? & _)%head_at_Some. done.
  - intros [? ?]. by eapply head_at_elem.
Qed.

(** The paths that are still to come. *)
Lemma step_paths_to_come l x :
  l ∈ step_lists m ls → x ∈ l →
  path_cmp m (ie_path x) = Lt ∧ (steps_over (row_at m ls) = true → within m x = false).
Proof.
  intros (l0 & Hl0 & ->)%elem_of_step_lists (Hx & Hne & Hs)%elem_of_step; [|done..].
  split; [by eapply step_after|]. intros Ho. destruct (within m x); [|done]. by destruct Hs.
Qed.

Lemma find_at_step m' y l :
  (∃ l, l ∈ step_lists m ls ∧ y ∈ l) → ie_path y = m' → l ∈ ls →
  find_at m' (step_list (steps_over (row_at m ls)) l (head_at m l)) = find_at m' l.
Proof.
  intros (l0 & Hl0 & Hy) <- Hl. destruct (step_paths_to_come l0 y Hl0 Hy) as [Hlt Hw].
  apply find_at_ext; [|by apply (step_diff_list ls)|].
  - destruct (step_walk_lists m ls wf least) as [Hwf _]. rewrite Forall_forall in Hwf.
    apply Hwf. apply list_elem_of_fmap. by exists l.
  - intros x Ex. rewrite elem_of_step by done. unfold within in *. rewrite Ex. split; [by intros []|].
    intros Hx. split_and!; [done| |].
    + intros E. by rewrite E, (ord_refl path_cmp) in Hlt.
    + intros [Ho Hx']. by rewrite Hw in Hx'.
Qed.
End whole_step.

(** One step of a walk, and the paths [ms] that are visited after it. *)
Section visited.
Context (m : BitPath) (ls : list (list BitIndexEntry)) (ms : list BitPath).
Context (Hwf : walk_lists ls) (Hm : least_head m ls).
Context (Hms : ∀ m', m' ∈ ms → ∃ l x, l ∈ step_lists m ls ∧ x ∈ l ∧ ie_path x = m').

Lemma rows_after m' : m' ∈ ms → find_at m' <$> step_lists m ls = find_at m' <$> ls.
Proof.
  intros Hm'. destruct (Hms m' Hm') as (l0 & y & Hl0 & Hy0 & Em). unfold step_lists.
  rewrite <- list_fmap_compose. apply list_fmap_ext. intros i l Hl%list_elem_of_lookup_2.
  apply (find_at_step m ls Hwf Hm m' y l); [by exists l0|done|done].
Qed.

Lemma paths_after m' : m' ∈ ms →
  path_cmp m m' = Lt ∧ (steps_over (row_at m ls) = true → path_starts_with m' m = false).
Proof.
  intros Hm'. destruct (Hms m' Hm') as (l0 & y & Hl0 & Hy0 & <-).
  by apply (step_paths_to_come m ls Hwf Hm l0).
Qed.

Lemma stepped_over_after p : stepped_over ls (m :: ms) p ↔
  steps_over (row_at m ls) = true ∧ path_starts_with p m = true ∧ p ≠ m
  ∨ stepped_over (step_lists m ls) ms p.
Proof.
  unfold stepped_over. rewrite (row_at_find m ls Hwf Hm). split.
  - intros (m' & [->|Hm']%elem_of_cons & Ho & Hrest); [by left|right].
    exists m'. by rewrite rows_after.
  - intros [?|(m' & Hm' & Ho & Hrest)]; [exists m; split; [by left|done]|].
    exists m'. rewrite rows_after in Ho by done. split; [by right|done].
Qed.

Context (Hv : ∀ l x, l ∈ step_lists m ls → x ∈ l →
  ie_path x ∈ ms ↔ ¬ stepped_over (step_lists m ls) ms (ie_path x)).

Lemma visited_after l x : l ∈ ls → x ∈ l → ie_path x ∈ m :: ms ↔ ¬ stepped_over ls (m :: ms) (ie_path x).
Proof.
  intros Hl Hx. rewrite elem_of_cons, stepped_over_after.
  destruct (decide (ie_path x = m)) as [Em|Hne].
  - split; [|by left]. intros _ [(_ & _ & ?)|(m' & Hm' & Ho & Hw & Hne)]; [done|].
    destruct (paths_after m' Hm') as [Hlt _]. rewrite Em in Hw.
    destruct (Hms m' Hm') as (l' & y & (l0 & Hl0 & ->)%elem_of_step_lists & (Hy0 & _)%elem_of_step & Ey); [|done..].
    pose proof (step_rel ls Hwf l0 y Hl0 Hy0) as Hr'. pose proof (step_rel ls Hwf l x Hl Hx) as Hr.
    rewrite Ey in Hr'. rewrite Em in Hr. apply path_starts_above in Hw as [->|Hab]; [by rewrite (ord_refl path_cmp) in Hlt| |done].
    apply above_cmp in Hab; [|done]. apply (ord_gt path_cmp) in Hab. congruence.
  - destruct (decide (steps_over (row_at m ls) = true ∧ within m x = true)) as [[Ho Hw]|Hn].
    + split; [|by intros []; left]. intros [?|Hin]; [done|].
      destruct (paths_after _ Hin) as [_ Hg]. unfold within in Hw. rewrite Hg in Hw; done.
    + set (l' := step_list (steps_over (row_at m ls)) l (head_at m l)).
      assert (l' ∈ step_lists m ls) as Hl' by (apply list_elem_of_fmap; by exists l).
      assert (x ∈ l') as Hx' by by apply elem_of_step.
      specialize (Hv l' x Hl' Hx'). unfold within in Hn. tauto.
Qed.
End visited.

(** C14: What a walk over several tree iterators yields, when their listings are in the order of paths
    ([walk_lists]: relative paths in strictly increasing order, what is below a directory in one run behind it, and
    a path below a directory of another listing has that directory in its own; so no name like [foo.txt]
    beside a directory [foo]): it ends, goes through paths in order, and yields for each of them exactly the
    entries that the iterators have there; every entry is visited but those in subtrees that are stepped over,
    which two or more iterators have with the same id, and nothing is visited there. *)
Theorem walk_correct {S} `{TreeIterLaws S} fuel (its : list S) ls :
  Forall2 yields its ls → walk_lists ls → sum_list_with length ls < fuel →
  ∃ ms its', walk_collect fuel its = (Ok ((λ m, find_at m <$> ls) <$> ms), its')
    ∧ StronglySorted (λ a b, path_cmp a b = Lt) ms
    ∧ (∀ m, m ∈ ms → ∃ l x, l ∈ ls ∧ x ∈ l ∧ ie_path x = m)
    ∧ (∀ l x, l ∈ ls → x ∈ l → ie_path x ∈ ms ↔ ¬ stepped_over ls ms (ie_path x)).
Proof.
  revert its ls. induction fuel as [|fuel IH]; intros its ls Hy Hwf Hf; [lia|]. cbn [walk_collect].
  destruct (walk_next_spec its ls Hy) as (its1 & [(Hy1 & E & Hnil)|(m & Hm & E & Hy1)]).
  - rewrite (st_bind_ok _ _ _ _ _ E). exists [], its1. split_and!; [done|constructor|by intros m []%elem_of_nil|].
    intros l x Hl Hx. rewrite Forall_forall in Hnil. apply Hnil in Hl as ->. by apply elem_of_nil in Hx.
  - rewrite (st_bind_ok _ _ _ _ _ E).
    destruct (IH its1 (step_lists m ls) Hy1 (step_walk_lists m ls Hwf Hm)) as (ms & its2 & E2 & Hs & Hms & Hv).
    { pose proof (step_decreases m ls Hm). lia. }
    rewrite (st_bind_ok _ _ _ _ _ E2). exists (m :: ms), its2. split_and!.
    + unfold mret, st_ret. do 2 f_equal. cbn [fmap list_fmap]. rewrite (row_at_find m ls Hwf Hm). f_equal.
      apply list_fmap_ext. intros i m' Hm'%list_elem_of_lookup_2. by apply (rows_after m ls ms).
    + constructor; [done|]. apply Forall_forall. intros m' Hm'. by apply (paths_after m ls ms).
    + intros m' [->|Hm']%elem_of_cons.
      * destruct Hm as [(x & k & Hl & Em) _]. exists (x :: k), x. split_and!; [done|by left|done].
      * destruct (Hms m' Hm') as (l' & x & (l & Hl & ->)%elem_of_step_lists & (Hx & _)%elem_of_step & Em); [|done..].
        by exists l, x.
    + intros l x. by apply visited_after.
Qed.

(** ** Stored trees *)

Lemma tree_listing_walk_lists treeish oids ls :
  (∀ oid kids, treeish oid = Ok kids → plain_tree kids) →
  Forall2 (tree_listing treeish) oids ls → walk_lists ls.
Proof.
  intros Hplain Hl. assert (∀ l, l ∈ ls → ∃ oid, tree_listing treeish oid l) as Hin.
  { intros l [i Hi]%list_elem_of_lookup. destruct (Forall2_lookup_r _ _ _ _ _ Hl Hi) as (oid & _ & Ho).
    by exists oid. }
  split.
  - apply Forall_forall. intros l (oid & Ho)%Hin. split; [by eapply tree_listing_diff_list|].
    eapply listing_rel; [by apply tree_listing_listing|apply root_rel].
  - intros l l' (a & Ha)%Hin (b & Hb)%Hin. by eapply tree_listing_covered.
Qed.

(** The two sample trees: the directory [d] is stepped over. *)
Lemma walk_correct_witness :
  ∃ rows its', walk_collect (H := tree_iter_iterator sample_treeish2) 20
      [tree_iter_new (sample_oid x01); tree_iter_new (sample_oid x03)] = (Ok rows, its')
  ∧ rows = [[Some (dir_at EMPTY x01); Some (dir_at EMPTY x03)];
            [Some (file_at (bs "a") x0a); Some (file_at (bs "a") x1a)];
            [None; Some (file_at (bs "c") x0c)]; [Some (dir_at (bs "d") x02); Some (dir_at (bs "d") x02)]].
Proof.
  destruct (walk_correct (H := tree_iter_iterator sample_treeish2)
    (H0 := tree_iter_laws sample_treeish2) 20 [tree_iter_new (sample_oid x01); tree_iter_new (sample_oid x03)]
    [dir_at EMPTY x01 :: sample_listing; sample_listing2]) as (ms & its' & E & _).
  - constructor; [apply (tree_listing_yields sample_treeish2), sample_listing_1|].
    constructor; [apply (tree_listing_yields sample_treeish2), sample_listing_2|constructor].
  - apply (tree_listing_walk_lists sample_treeish2 [sample_oid x01; sample_oid x03]); [apply sample_plain|].
    constructor; [apply sample_listing_1|constructor; [apply sample_listing_2|constructor]].
  - cbn. lia.
  - eexists _, its'. split; [exact E|].
    match type of E with ?x = _ => let y := eval vm_compute in (fst x) in
      assert (fst x = y) as E1 by (vm_compute; reflexivity) end.
    rewrite E in E1. cbn [fst] in E1. injection E1 as E1. etransitivity; [exact E1|vm_compute; reflexivity].
Defined.
