(* ===== verification/WriteTree.v ===== *)
(** * WriteTree

    The operations of [libbit/src/index.rs] that turn the index into trees: [write_tree] and
    [update_cache_tree], on the iterator of IndexIter.v and [build_tree] of TreeIter.v.  What the
    index yields is a forest: the files and directories of each directory, with distinct names. *)

From Stdlib Require Import ZArith Lia Sorted.
From Stdlib Require Import Strings.Byte.
From stdpp Require Import base tactics option list countable strings sorting.
From S2P Require Import Prelude RustStd Data State Hash Path BTree Obj Tree IndexEntry TreeCache.
From S2P Require Import Index TreeIter TreeDiff IndexDiff IndexIter.

(** ** Trees from the index *)

Section write_tree.
(** [Oid::treeish] and [BitRepo::read_obj_tree], and [BitRepo::write_obj] on trees. *)
Variable read_obj_tree : Oid → BitResult TreeObj.
Variable write_obj : MutableTree → BitResult Oid.

(** [BitIndex::update_cache_tree].  (After an error the code leaves a cache that is updated in
    parts; here it is unchanged.) *)
Definition update_cache_tree (fuel : nat) (tree : Oid) : st BitIndexInner unit := λ idx,
  match (tree ← read_obj_tree tree;
         match idx_tree_cache idx with
         | Some cache => tc_update read_obj_tree fuel cache tree
         | None => read_tree read_obj_tree fuel tree
         end) with
  | Ok cache => (Ok tt, mk_BitIndexInner (idx_entries idx) (Some cache) (idx_reuc idx))
  | Err e => (Err e, idx)
  | Panic => (Panic, idx)
  end.

(** [BitIndex::write_tree]; [depth] bounds the depth of the tree that is read back. *)
Definition write_tree (fuel depth : nat) : st BitIndexInner Oid := λ idx,
  if has_conflicts idx then (Err Anyhow, idx)
  else
    (tree_oid ← st_lift (fst (build_tree (H := index_tree_iterator fuel) write_obj fuel
                                (idx_tree_cache idx) (index_iter_new idx)));
     _ ← update_cache_tree depth tree_oid;
     mret tree_oid : st _ _) idx.
End write_tree.

(** ** The directories as a forest *)

Section forest.
Context (mk : BitPath → BitIndexEntry).
Context (mk_path : ∀ p, ie_path (mk p) = p) (mk_tree : ∀ p, ie_mode (mk p) = TREE).
Context (all : list BitIndexEntry).

(** [forest base ns l]: [l] lists the files and directories with the names [ns] of the directory
    [base], each directory followed by what is in it. *)
Inductive forest (base : BitPath) : list BitPath → list BitIndexEntry → Prop :=
| forest_nil : forest base [] []
| forest_file n x ns l :
    entry_name n → plain_name n → (n ∉ ns) → ie_path x = join base n → entry_is_blob x = true →
    forest base ns l → forest base (n :: ns) (x :: l)
| forest_dir n ms ns l1 l2 :
    entry_name n → plain_name n → (n ∉ ns) → List.filter entry_is_blob l1 = entries_below (join base n) all →
    forest (join base n) ms l1 → forest base ns l2 →
    forest base (n :: ns) (mk (join base n) :: l1 ++ l2).

(** Files, in order, none of which is a directory of another. *)
Definition files_ok (es : list BitIndexEntry) : Prop :=
  paths_sorted es ∧ NoDup (ie_path <$> es)
  ∧ Forall (λ e, (norm_path (ie_path e) ∧ x00 ∉ ie_path e) ∧ entry_is_blob e = true) es
  ∧ (∀ e e', e ∈ es → e' ∈ es → ¬ above (ie_path e) (ie_path e')).

Lemma files_ok_sublist es es' : es' `sublist_of` es → files_ok es → files_ok es'.
Proof.
  intros Hs (H1 & H2 & H3 & H4). pose proof (sublist_subseteq _ _ Hs) as Hsub. split_and!.
  - by eapply StronglySorted_sublist.
  - eapply sublist_NoDup; [exact H2|]. by apply fmap_sublist.
  - rewrite Forall_forall in H3 |- *. auto.
  - auto.
Qed.

Lemma above_next base p :
  norm_path p → above base p →
  ∃ n, entry_name n ∧ (p = join base n ∨ above (join base n) p).
Proof.
  intros Hp Hb. assert (rel_path p) as Hr by by right. revert Hb. pattern p.
  apply rel_path_ind; [by intros ?%above_empty| |done]. clear p Hp Hr. intros d n Hd Hn IH Hb.
  apply above_join in Hb; [|done..]. destruct Hb as [->|Hb]; [exists n; split; [done|by left]|].
  destruct (IH Hb) as (m & Hm & Hd'). exists m. split; [done|right].
  apply above_join; [done..|]. destruct Hd' as [->|?]; [by left|by right].
Qed.

Lemma above_plain base n p :
  rel_path base → entry_name n → norm_path p → x00 ∉ p → p = join base n ∨ above (join base n) p →
  plain_name n.
Proof.
  intros Hb Hn Hp H0 Hj. split; [by apply Hn|]. intros Hin. apply H0.
  assert (x00 ∈ join base n) as Hin'.
  { destruct Hb as [->|Hb]; [by rewrite join_empty_l|]. rewrite join_norm by done.
    apply elem_of_app. right. by right. }
  destruct Hj as [->|Hj]; [done|]. apply above_under in Hj; [|by apply rel_join|done].
  destruct Hj as [r ->]. apply elem_of_app. by left.
Qed.

(** How far the entries lie below [base], in all. *)
Definition depth_sum (base : BitPath) (es : list BitIndexEntry) : nat :=
  sum_list_with (λ e, length (path_components (ie_path e)) - length (path_components base)) es.

Lemma depth_sum_app base es1 es2 : depth_sum base (es1 ++ es2) = depth_sum base es1 + depth_sum base es2.
Proof. apply sum_list_with_app. Qed.

Lemma above_length q p :
  rel_path p → above q p → length (path_components q) < length (path_components p).
Proof.
  intros Hp (Hq & Hne & Hpre). pose proof (prefix_length _ _ Hpre).
  destruct (decide (length (path_components q) = length (path_components p))) as [E|]; [|lia].
  exfalso. apply Hne, rel_path_inj; [done..|]. by apply prefix_length_eq; [|lia].
Qed.

Lemma depth_sum_deeper base n es :
  rel_path base → entry_name n → Forall (λ e, norm_path (ie_path e)) es →
  Forall (λ e, above (join base n) (ie_path e)) es →
  es ≠ [] → depth_sum (join base n) es < depth_sum base es.
Proof.
  intros Hb Hn Hnorm He Hne. destruct (rel_join base n Hb Hn) as [Hj Ej].
  assert (∀ l, Forall (λ e, above (join base n) (ie_path e)) l → Forall (λ e, norm_path (ie_path e)) l →
    depth_sum (join base n) l + length l ≤ depth_sum base l) as H.
  { induction 1 as [|e l Hel _ IH]; intros Hnl; [done|]. inversion_clear Hnl as [|?? Hne' Hnl'].
    specialize (IH Hnl'). pose proof (above_length _ _ (or_intror Hne') Hel) as Hlen.
    unfold depth_sum in *. cbn [sum_list_with length] in *. rewrite Ej, length_app in *. cbn in *. lia. }
  specialize (H es He Hnorm). destruct es; [done|]. cbn in *. lia.
Qed.

Lemma new_dirs_none seen base n :
  rel_path base → entry_name n → seen_to seen base → new_dirs seen (join base n) = [].
Proof.
  intros Hb Hn Hs. unfold new_dirs. rewrite dirs_join by done.
  assert (∀ q, q ∈ cumulative_components base → q ∈ seen) as Hin.
  { intros q Hq. apply Hs. destruct Hb as [->|Hb]; [left; by apply list_elem_of_singleton in Hq|].
    apply elem_of_cumulative in Hq; [tauto|done]. }
  induction (cumulative_components base) as [|q qs IH]; [done|].
  rewrite filter_cons_False by (intros Hq; by apply Hq, Hin; left).
  apply IH. intros q' Hq'. apply Hin. by right.
Qed.

(** The first directory that is new is the one right below [base]. *)
Lemma new_dirs_first seen base n p :
  rel_path base → entry_name n → seen_to seen base → norm_path p → above (join base n) p →
  join base n ∉ seen →
  new_dirs seen p = join base n :: new_dirs (join base n :: seen) p.
Proof.
  intros Hb Hn Hs Hp Hab Hns. destruct (rel_join base n Hb Hn) as [Hj Ej].
  pose proof (StronglySorted_sublist _ _ _ (sublist_filter (.∉ seen) _) (dirs_sorted p Hp)) as Hsort.
  assert (join base n ∈ filter (.∉ seen) (dirs p)) as Hin.
  { apply list_elem_of_filter. split; [done|]. apply elem_of_dirs, elem_of_cons in Hab; [|done].
    destruct Hab as [E|?]; [|done]. rewrite E in Hj. by apply (norm_path_last EMPTY) in Hj as (? & ? & _). }
  assert (filter (.∉ join base n :: seen) (dirs p)
          = filter (.≠ join base n) (filter (.∉ seen) (dirs p))) as E2.
  { rewrite list_filter_filter. apply list_filter_iff. intros a. rewrite not_elem_of_cons. tauto. }
  unfold new_dirs. rewrite E2. clear E2.
  destruct (filter (.∉ seen) (dirs p)) as [|q qs] eqn:Eq; [by apply elem_of_nil in Hin|].
  apply StronglySorted_inv in Hsort as [_ Hsort]. rewrite Forall_forall in Hsort.
  assert (q = join base n) as ->.
  { apply elem_of_cons in Hin as [?|Hin]; [done|]. destruct (Hsort _ Hin) as [_ Hna].
    assert (q ∈ filter (.∉ seen) (dirs p)) as Hq by (rewrite Eq; by left).
    apply list_elem_of_filter in Hq as [Hqs Hq].
    assert (above q p) as Hqp by (apply elem_of_dirs; [done|by right]).
    destruct (above_comparable q (join base n) p Hqp Hab) as [?|[H|?]]; [done| |done].
    exfalso. apply Hqs, Hs. by apply above_join in H. }
  f_equal. rewrite filter_cons_False by auto. symmetry. clear - Hsort.
  induction qs as [|a qs IH]; [done|].
  rewrite filter_cons_True by (destruct (Hsort a ltac:(by left)); congruence).
  f_equal. apply IH. intros x Hx. apply Hsort. by right.
Qed.

(** What the induction over the directories knows of the entries [es] below [base]. *)
Record forest_block (base : BitPath) (seen : list BitPath) (es : list BitIndexEntry) : Prop := {
  fb_files : files_ok es;
  fb_below : Forall (λ e, above base (ie_path e)) es;
  fb_seen : seen_to seen base;
  fb_new : ∀ e q, e ∈ es → above base q → above q (ie_path e) → q ∉ seen;
  fb_all : ∀ e q, e ∈ es → above base q → above q (ie_path e) → entries_below q all = entries_below q es;
}.

Lemma filter_blob_listing seen es :
  Forall (λ e, entry_is_blob e = true) es →
  List.filter entry_is_blob (index_listing mk seen es) = es.
Proof.
  intros Hb. revert seen. induction Hb as [|e es He Hb IH]; intros seen; [done|]. cbn [index_listing].
  rewrite List.filter_app. cbn [List.filter]. rewrite He, IH.
  enough (List.filter entry_is_blob (mk <$> new_dirs seen (ie_path e)) = []) as -> by done.
  induction (new_dirs seen (ie_path e)) as [|q qs IHq]; [done|]. cbn.
  unfold entry_is_blob at 1. cbn. by rewrite mk_tree.
Qed.

Lemma depth_sum_pos base e es :
  norm_path (ie_path e) → above base (ie_path e) → depth_sum base es < depth_sum base (e :: es).
Proof.
  intros Hn Hb. pose proof (above_length _ _ (or_intror Hn) Hb). unfold depth_sum. cbn. lia.
Qed.

Lemma entries_below_cons_out q e es :
  rel_path q → ¬ above q (ie_path e) → entries_below q (e :: es) = entries_below q es.
Proof.
  intros Hq He. change (e :: es) with ([e] ++ es). rewrite entries_below_app.
  rewrite entries_below_none; [done..|]. by apply Forall_singleton.
Qed.

Lemma above_antisym p q : above p q → ¬ above q p.
Proof. intros Hpq Hqp. by apply (above_irrefl p), (above_trans p q). Qed.

(** The rest of a block behind a file. *)
Lemma forest_block_file base seen e es n :
  rel_path base → entry_name n → ie_path e = join base n →
  forest_block base seen (e :: es) → forest_block base seen es.
Proof.
  intros Hbase Hname He [Hf Hb Hs Hn Ha]. inversion_clear Hb as [|?? Hbe Hbes].
  assert (es `sublist_of` e :: es) as Hsub by by apply sublist_cons.
  split; [by eapply files_ok_sublist|done|done|intros e' q Hin; apply Hn; by right|].
  intros e' q Hin Hq Hqe. rewrite (Ha e') by (done || by right).
  apply entries_below_cons_out; [by eapply above_rel|]. rewrite He, above_join by done.
  intros [->|Habs]; [by apply above_irrefl in Hq|by apply above_antisym in Habs].
Qed.

(** A directory takes the entries below it, and the rest of the block goes on behind them. *)
Lemma forest_block_dir base seen e es n (d := join base n) :
  rel_path base → entry_name n → above d (ie_path e) → forest_block base seen (e :: es) →
  let B := take_within d (e :: es) in
  let R := drop_within d (e :: es) in
  forest_block d (d :: seen) B ∧ forest_block base (d :: seen) R ∧ e ∈ B
  ∧ Forall (λ x, within d x = false) R ∧ entries_below d all = B.
Proof.
  intros Hbase Hname He [Hf Hb Hs Hn Ha] B R.
  destruct (rel_join base n Hbase Hname) as [Hd Ed]. fold d in Hd, Ed.
  assert (above base d) as Hbd by (apply above_join; [done|done|by left]).
  pose proof Hf as (Hsort & _ & Hblob & _).
  assert (Forall (λ x, norm_path (ie_path x)) (e :: es)) as Hnorm
    by (eapply Forall_impl; [exact Hblob|by intros ? [[]]]).
  destruct (entries_block d e es (or_intror Hd) Hsort Hnorm He) as [HB HR]. fold B in HB. fold R in HR.
  pose proof (take_drop_within d (e :: es)) as Esplit. fold B R in Esplit.
  assert (B `sublist_of` e :: es) as HsB by (rewrite <- Esplit; by apply sublist_inserts_r).
  assert (R `sublist_of` e :: es) as HsR by (rewrite <- Esplit; by apply sublist_inserts_l).
  pose proof (sublist_subseteq _ _ HsB) as HinB. pose proof (sublist_subseteq _ _ HsR) as HinR.
  assert (∀ q x, x ∈ R → above base q → above q (ie_path x) → q ≠ d ∧ ¬ above d q) as Hout.
  { rewrite Forall_forall in HR. intros q x Hx Hq Hqx. specialize (HR x Hx). apply within_not_above in HR.
    split; [intros ->; done|]. intros Hdq. by apply HR, (above_trans d q). }
  rewrite Forall_forall in Hb. split_and!.
  - split; [by eapply files_ok_sublist|done| |..].
    + intros q [->|Hq]; [by left|]. right. apply Hs. by apply above_join in Hq.
    + intros x q Hx Hq Hqx [->|Hin]%elem_of_cons; [by apply above_irrefl in Hq|].
      apply (Hn x q (HinB _ Hx)); [by eapply above_trans|done|done].
    + intros x q Hx Hq Hqx. rewrite (Ha x) by (auto; by eapply above_trans).
      rewrite <- Esplit, entries_below_app, (entries_below_none q R), app_nil_r; [done|by eapply above_rel|].
      rewrite Forall_forall in HR |- *. intros y Hy Hqy. apply (within_not_above d y); [by apply HR|].
      by eapply above_trans.
  - split; [by eapply files_ok_sublist| | |..].
    + apply Forall_forall. auto.
    + intros q Hq. right. by apply Hs.
    + intros x q Hx Hq Hqx. destruct (Hout q x Hx Hq Hqx) as [Hqd _].
      intros [?|Hin]%elem_of_cons; [done|]. by apply (Hn x q (HinR _ Hx)).
    + intros x q Hx Hq Hqx. rewrite (Ha x) by auto. destruct (Hout q x Hx Hq Hqx) as [Hqd Hndq].
      rewrite <- Esplit, entries_below_app, (entries_below_none q B); [done|by eapply above_rel|].
      rewrite Forall_forall in HB |- *. intros y Hy Hqy.
      destruct (above_comparable q d (ie_path y) Hqy (HB y Hy)) as [?|[H|?]]; [done| |done].
      apply above_join in H as [->|H]; [by apply above_irrefl in Hq|by apply above_antisym in H|done|done].
  - unfold B. cbn. assert (within d e = true) as ->; [|by left].
    apply path_starts_above; [by right|by right].
  - done.
  - rewrite (Ha e d) by (done || by left). rewrite <- Esplit, entries_below_app.
    rewrite (entries_below_all d B), (entries_below_none d R), app_nil_r; [done|by right| |by right|done].
    eapply Forall_impl; [exact HR|]. intros x. apply within_not_above.
Qed.

Lemma listing_forest base seen es :
  rel_path base → forest_block base seen es →
  ∃ ns, forest base ns (index_listing mk seen es)
    ∧ ∀ n, n ∈ ns → ∃ e, e ∈ es ∧ (ie_path e = join base n ∨ above (join base n) (ie_path e)).
Proof.
  remember (depth_sum base es) as k eqn:Hk. revert base seen es Hk.
  induction k as [k IH] using lt_wf_ind. intros base seen es -> Hbase Hblk.
  destruct es as [|e es]; [exists []; split; [constructor|by intros ? ?%elem_of_nil]|].
  pose proof Hblk as [Hf Hb Hs Hn Ha]. pose proof Hf as (Hsort & Hnd & Hblob & Hpf).
  inversion_clear Hblob as [|?? [[Hne Hnul] Hbe] _]. inversion_clear Hb as [|?? Hbelow _].
  destruct (above_next base (ie_path e) Hne Hbelow) as (n & Hname & He).
  assert (plain_name n) as Hplain by by eapply above_plain.
  destruct He as [He|He].
  - cbn [index_listing]. rewrite He, new_dirs_none by done. cbn [fmap list_fmap app].
    destruct (IH (depth_sum base es)) with (base := base) (seen := seen) (es := es)
      as (ns & Hns & Hin); [by apply depth_sum_pos|done|done|by eapply forest_block_file|].
    exists (n :: ns). split.
    + apply forest_file; try done. intros Hnns. destruct (Hin n Hnns) as (e' & He' & [E|E]).
      * apply NoDup_cons in Hnd as [Hnd _]. apply Hnd. rewrite He, <- E. by apply list_elem_of_fmap_2.
      * rewrite <- He in E. by apply (Hpf e e'); [left|right|].
    + intros m [->|Hm]%elem_of_cons; [exists e; split; [by left|by left]|].
      destruct (Hin m Hm) as (e' & ? & ?). exists e'. split; [by right|done].
  - destruct (forest_block_dir base seen e es n Hbase Hname He Hblk) as (HB & HR & HeB & Hout & Hall).
    set (d := join base n) in *. set (B := take_within d (e :: es)) in *.
    set (R := drop_within d (e :: es)) in *.
    pose proof (take_drop_within d (e :: es)) as Esplit. fold B R in Esplit.
    assert (index_listing mk seen (e :: es)
            = mk d :: index_listing mk (d :: seen) B ++ index_listing mk (d :: seen) R) as ->.
    { transitivity (mk d :: index_listing mk (d :: seen) (e :: es)).
      - cbn [index_listing]. rewrite (new_dirs_first seen base n) by (done || by apply (Hn e); [left|apply above_join; auto|]).
        fold d. cbn [fmap list_fmap app]. do 3 f_equal. apply index_listing_ext. intros ????.
        rewrite !elem_of_cons, !elem_of_app, !elem_of_cons. tauto.
      - f_equal. rewrite <- Esplit at 1. destruct (rel_join base n Hbase Hname) as [Hd _].
        apply (index_listing_block mk (d :: seen) d); [by right| | |apply HB|done].
        + intros q Hq. by apply HB.
        + rewrite Esplit. eapply Forall_impl; [apply Hf|]. by intros ? [[]]. }
    destruct (rel_join base n Hbase Hname) as [Hd _]. fold d in Hd.
    assert (depth_sum base (e :: es) = depth_sum base B + depth_sum base R) as Hsum
      by by rewrite <- Esplit, depth_sum_app.
    assert (Forall (λ x, norm_path (ie_path x)) B) as HnB.
    { eapply Forall_impl; [apply (fb_files _ _ _ HB)|]. by intros ? [[]]. }
    assert (depth_sum d B < depth_sum base B) as HltB.
    { apply depth_sum_deeper; try done; [apply HB|]. intros E. rewrite E in HeB. by apply elem_of_nil in HeB. }
    destruct (IH (depth_sum d B)) with (base := d) (seen := d :: seen) (es := B)
      as (ms & Hms & _); [lia|done|by right|done|].
    assert (depth_sum base R < depth_sum base (e :: es)) as HltR by lia.
    destruct (IH (depth_sum base R)) with (base := base) (seen := d :: seen) (es := R)
      as (ns & Hns & Hin); [lia|done|done|done|].
    exists (n :: ns). split.
    + eapply forest_dir; try done.
      * intros Hnns. destruct (Hin n Hnns) as (y & Hy & Hyd). rewrite Forall_forall in Hout.
        specialize (Hout y Hy). fold d in Hyd. assert (within d y = true); [|congruence].
        apply path_starts_above; [by right|]. destruct Hyd; [by left|by right].
      * rewrite filter_blob_listing; [done|]. eapply Forall_impl; [apply (fb_files _ _ _ HB)|].
        by intros ? [].
    + intros m [->|Hm]%elem_of_cons.
      * exists e. split; [by left|by right].
      * destruct (Hin m Hm) as (y & Hy & ?). exists y. split; [|done]. rewrite <- Esplit.
        apply elem_of_app. by right.
Qed.

(** *** What a forest looks like *)

Lemma forest_names base ns l :
  forest base ns l → Forall (λ n, entry_name n ∧ plain_name n) ns ∧ NoDup ns.
Proof.
  induction 1 as [base|base n x ns l Hn Hp Hnin _ _ _ [IH1 IH2]
    |base n ms ns l1 l2 Hn Hp Hnin _ _ _ _ [IH1 IH2]]; [by repeat constructor|..];
    (split; by constructor).
Qed.

Lemma forest_elem base ns l x :
  forest base ns l → rel_path base → x ∈ l →
  ∃ n, n ∈ ns ∧ (ie_path x = join base n ∨ above (join base n) (ie_path x)).
Proof.
  intros Hf. revert x. induction Hf as [base|base n y ns l Hn Hp Hnin Hy Hb _ IH
    |base n ms ns l1 l2 Hn Hp Hnin Hl1 H1 IH1 H2 IH2]; intros x Hbase Hx; [by apply elem_of_nil in Hx|..].
  - apply elem_of_cons in Hx as [->|Hx]; [exists n; split; [by left|by left]|].
    destruct (IH x Hbase Hx) as (m & ? & ?). exists m. split; [by right|done].
  - apply elem_of_cons in Hx as [->|[Hx|Hx]%elem_of_app].
    + exists n. rewrite mk_path. split; [by left|by left].
    + destruct (rel_join base n Hbase Hn) as [Hj _].
      destruct (IH1 x (or_intror Hj) Hx) as (m & Hm & Hxm). exists n. split; [by left|right].
      destruct (forest_names _ _ _ H1) as [Hms _]. rewrite Forall_forall in Hms.
      destruct (Hms m Hm) as [Hnm _].
      assert (above (join base n) (join (join base n) m)) as Hab
        by (apply above_join; [by right|done|by left]).
      destruct Hxm as [->|?]; [done|by eapply above_trans].
    + destruct (IH2 x Hbase Hx) as (m & ? & ?). exists m. split; [by right|done].
Qed.

Lemma join_above_ne base n m p :
  rel_path base → entry_name n → entry_name m → n ≠ m →
  p = join base m ∨ above (join base m) p → path_starts_with p (join base n) = false.
Proof.
  intros Hb Hn Hm Hne Hp. destruct (path_starts_with p (join base n)) eqn:E; [|done]. exfalso.
  apply path_starts_with_prefix in E.
  assert (path_components (join base m) `prefix_of` path_components p) as Hpm
    by (destruct Hp as [->|(_ & _ & ?)]; done).
  destruct (prefix_weak_total _ _ _ E Hpm) as [H|H]; apply rel_join_inj in H; by try done.
Qed.

Lemma forest_outside base n ns l r :
  forest base ns l → rel_path base → entry_name n → n ∉ ns → outside base r →
  outside (join base n) (l ++ r).
Proof.
  intros Hf Hb Hn Hnin Hr. destruct l as [|x l]; cbn.
  - apply (outside_within base (mk (join base n))) in Hr; [by rewrite mk_path in Hr|].
    unfold within. rewrite mk_path. by apply join_within.
  - destruct (forest_elem base ns (x :: l) x Hf Hb ltac:(by left)) as (m & Hm & Hx).
    destruct (forest_names _ _ _ Hf) as [Hns _]. rewrite Forall_forall in Hns.
    destruct (Hns m Hm) as [Hnm _]. apply (join_above_ne base n m); try done. by intros ->.
Qed.

Lemma forest_inside base n ms l :
  forest (join base n) ms l → rel_path base → entry_name n →
  Forall (λ x, within (join base n) x = true) l.
Proof.
  intros Hf Hb Hn. destruct (rel_join base n Hb Hn) as [Hj _]. apply Forall_forall. intros x Hx.
  destruct (forest_elem _ _ _ x Hf (or_intror Hj) Hx) as (m & Hm & Hxm).
  destruct (forest_names _ _ _ Hf) as [Hms _]. rewrite Forall_forall in Hms.
  destruct (Hms m Hm) as [Hnm _].
  assert (above (join base n) (join (join base n) m)) as Hab by (apply above_join; [by right|done|by left]).
  apply path_starts_above; [by right|]. right. destruct Hxm as [->|?]; [done|by eapply above_trans].
Qed.
End forest.

(** ** Building the trees of a forest *)

(** What a listing says of the files: mode, path and id. *)
Definition files (l : list BitIndexEntry) : list TreeEntry :=
  tree_entry_from_index_entry <$> List.filter entry_is_blob l.

#[export] Instance files_proper : Proper ((≡ₚ) ==> (≡ₚ)) files.
Proof.
  intros l l' Hl. unfold files. f_equiv. induction Hl as [|x l l' _ IH|x y l|l l' l'' _ IH1 _ IH2]; cbn.
  - done.
  - destruct (entry_is_blob x); [by rewrite IH|done].
  - destruct (entry_is_blob x), (entry_is_blob y); done || apply Permutation_swap.
  - by etrans.
Qed.

Lemma files_app l1 l2 : files (l1 ++ l2) = files l1 ++ files l2.
Proof. unfold files. by rewrite List.filter_app, fmap_app. Qed.

Lemma files_blob x l :
  entry_is_blob x = true → files (x :: l) = tree_entry_from_index_entry x :: files l.
Proof. intros Hx. unfold files. cbn. by rewrite Hx. Qed.

Lemma files_tree x l : ie_mode x = TREE → files (x :: l) = files l.
Proof. intros Hx. unfold files, entry_is_blob. cbn. by rewrite Hx. Qed.

Section store.
Context (treeish : Oid → BitResult (list TreeEntry)).

(** No tree of a listing holds a submodule. *)
Definition link_free (l : list BitIndexEntry) : Prop :=
  ∀ x kids, x ∈ l → entry_is_tree x = true → treeish (ie_oid x) = Ok kids →
    Forall (λ k, te_mode k ≠ GITLINK) kids.

(** The stored tree [oid], read as the directory [d], has the files [fs], and no submodules. *)
Definition holds_files (oid : Oid) (d : BitPath) (fs : list TreeEntry) : Prop :=
  ∃ kids l, is_known oid = true ∧ treeish oid = Ok kids ∧ entries_ok kids
    ∧ Forall (λ k, te_mode k ≠ GITLINK) kids
    ∧ listing treeish (child_entries d kids) l ∧ files l ≡ₚ fs ∧ link_free l.

Lemma link_free_app l1 l2 : link_free (l1 ++ l2) ↔ link_free l1 ∧ link_free l2.
Proof.
  unfold link_free. setoid_rewrite elem_of_app. split; [|by intros [H1 H2] x kids [?|?]; eauto].
  intros Hl. split; intros x kids Hx; apply Hl; auto.
Qed.

Lemma link_free_perm l l' : l ≡ₚ l' → link_free l → link_free l'.
Proof. intros Hp Hl x kids Hx. apply Hl. by rewrite Hp. Qed.

Lemma listing_perm es es' l :
  es ≡ₚ es' → listing treeish es l → ∃ l', listing treeish es' l' ∧ l' ≡ₚ l.
Proof.
  intros Hp. revert l. induction Hp as [|e es es' Hp IH|e1 e2 es|es es' es'' Hp1 IH1 Hp2 IH2]; intros l Hl.
  - by exists l.
  - inversion Hl as [|? ? l0 Hb Hl0|? ? kids l1 l2 Hm Hk Ht Hok Hl1 Hl2]; subst.
    + destruct (IH _ Hl0) as (l' & Hl' & Hf). eexists. split; [by apply listing_blob|].
      by rewrite Hf.
    + destruct (IH _ Hl2) as (l' & Hl' & Hf). eexists. split; [by eapply listing_tree|].
      by rewrite Hf.
  - assert (∃ h1 h2 r, listing treeish [e1] h1 ∧ listing treeish [e2] h2 ∧ listing treeish es r
      ∧ l = h2 ++ h1 ++ r) as (h1 & h2 & r & H1 & H2 & Hr & ->).
    { assert (∀ e es l, listing treeish (e :: es) l → ∃ h r, listing treeish [e] h ∧ listing treeish es r
        ∧ l = h ++ r) as Hcut.
      { intros e es0 l0 Hl0. inversion Hl0 as [|? ? l1 Hb Hl1|? ? kids l1 l2 Hm Hk Ht Hok Hl1 Hl2]; subst.
        - eexists [_], l1. split_and!; [apply listing_blob; [done|constructor]|done|done].
        - eexists (_ :: l1), l2. split_and!; [|done|done]. rewrite <- (app_nil_r l1).
          eapply listing_tree; try done. constructor. }
      destruct (Hcut _ _ _ Hl) as (h2 & r2 & H2 & Hr2 & ->).
      destruct (Hcut _ _ _ Hr2) as (h1 & r & H1 & Hr & ->). by exists h1, h2, r. }
    exists (h1 ++ h2 ++ r). split.
    + change (e1 :: e2 :: es) with ([e1] ++ [e2] ++ es). by repeat apply listing_app.
    + rewrite !app_assoc. f_equiv. apply Permutation_app_comm.
  - destruct (IH1 _ Hl) as (l' & Hl' & Hf). destruct (IH2 _ Hl') as (l'' & Hl'' & Hf').
    exists l''. split; [done|]. by rewrite Hf'.
Qed.

Lemma child_entries_perm d ks ks' : ks ≡ₚ ks' → child_entries d ks ≡ₚ child_entries d ks'.
Proof. intros Hp. unfold child_entries. by rewrite Hp. Qed.

Lemma entries_ok_perm ks ks' : ks ≡ₚ ks' → entries_ok ks → entries_ok ks'.
Proof. intros Hp [H1 H2]. split; by rewrite <- Hp. Qed.
End store.

(** *** A tree of entries with distinct names *)

Lemma entry_cmp_plain a b :
  plain_name (te_path a) → plain_name (te_path b) → te_path a ≠ te_path b → entry_cmp a b ≠ Eq.
Proof.
  intros Ha Hb Hne. unfold entry_cmp. cbn. rewrite path_cmp_explicit_slash by done.
  intros E%bytes_compare_eq. destruct Ha as [Ha _], Hb as [Hb _].
  assert (∀ s t u v : bytes, x2f ∉ s → x2f ∉ t → s ++ u = t ++ v → (u = [] ∨ u = [x2f]) →
    (v = [] ∨ v = [x2f]) → s = t) as Hcancel.
  { induction s as [|c s IH]; intros t u v Hs Ht E' Hu Hv; destruct t as [|c' t]; [done|..]; cbn in E'.
    - destruct Hu as [->| ->]; [done|]. injection E' as <- _. exfalso. apply Ht. by left.
    - destruct Hv as [->| ->]; [done|]. injection E' as -> _. exfalso. apply Hs. by left.
    - injection E' as -> E'. rewrite not_elem_of_cons in Hs, Ht. f_equal. apply (IH t u v); tauto. }
  apply Hne, (Hcancel _ _ _ _ Ha Hb E); unfold dir_slash; case_match; auto.
Qed.

Lemma set_insert_perm {A} (cmp : A → A → comparison) x l :
  (∀ y, y ∈ l → cmp x y ≠ Eq) → set_insert cmp x l ≡ₚ x :: l.
Proof.
  induction l as [|y l IH]; intros Hl; cbn; [done|].
  destruct (cmp x y) eqn:E; [by destruct (Hl y ltac:(by left))|done|].
  rewrite IH by (intros z Hz; apply Hl; by right). apply Permutation_swap.
Qed.

Lemma mutable_tree_perm ks :
  Forall (λ k, plain_name (te_path k)) ks → NoDup (te_path <$> ks) →
  mt_entries (mutable_tree_new ks) ≡ₚ ks.
Proof.
  unfold mutable_tree_new. cbn [mt_entries].
  enough (∀ acc, Forall (λ k, plain_name (te_path k)) (acc ++ ks) → NoDup (te_path <$> (acc ++ ks)) →
    foldl (λ s e, set_insert entry_cmp e s) acc ks ≡ₚ acc ++ ks) as H by apply (H []).
  induction ks as [|k ks IH]; intros acc Hp Hnd; cbn; [by rewrite app_nil_r|].
  assert (set_insert entry_cmp k acc ≡ₚ k :: acc) as E.
  { apply set_insert_perm. intros y Hy. apply Forall_app in Hp as [Hpa Hpk].
    inversion_clear Hpk as [|?? Hk _]. rewrite Forall_forall in Hpa.
    apply entry_cmp_plain; [done|by apply Hpa|]. rewrite fmap_app in Hnd.
    apply NoDup_app in Hnd as (_ & Hd & _). intros Eq. apply (Hd (te_path y)).
    - by apply list_elem_of_fmap_2.
    - rewrite <- Eq. by left. }
  assert (acc ++ k :: ks ≡ₚ set_insert entry_cmp k acc ++ ks) as E'.
  { rewrite E. cbn. symmetry. apply Permutation_middle. }
  rewrite IH; [by rewrite E'|by rewrite <- E'|by rewrite <- E'].
Qed.

(** *** The loop of [build_tree] on a forest *)

Definition not_ok {A} (r : BitResult A) : Prop := match r with Ok _ => False | _ => True end.

Section build.
Context {S} `{TreeIterLaws S}.
Context (treeish : Oid → BitResult (list TreeEntry)).
Context (write_obj : MutableTree → BitResult Oid).
Context (tree_cache : option BitTreeCache).
Context (mk : BitPath → BitIndexEntry).
Context (mk_path : ∀ p, ie_path (mk p) = p) (mk_tree : ∀ p, ie_mode (mk p) = TREE).
Context (all : list BitIndexEntry).

(** A tree that has been written can be read. *)
Context (write_reads : ∀ t oid, write_obj t = Ok oid → is_known oid = true ∧ treeish oid = Ok (mt_entries t)).

(** What the cache says of a directory holds its files. *)
Context (cached : ∀ d, rel_path d → tree_exists tree_cache (mk d) = true →
  holds_files treeish (ie_oid (mk d)) d (files (entries_below d all))).

(** The entries [ks] make a tree of the directory [base] with the files of [l]. *)
Definition tree_built (base : BitPath) (ns : list BitPath) (l : list BitIndexEntry)
    (ks : list TreeEntry) : Prop :=
  te_path <$> ks = ns ∧ Forall (λ k, te_mode k ≠ GITLINK) ks
  ∧ ∃ l', listing treeish (child_entries base ks) l' ∧ files l' ≡ₚ files l ∧ link_free treeish l'.

(** The loop ends in writing these entries, or in the failure of writing some tree. *)
Definition builds (base : BitPath) (ns : list BitPath) (l r : list BitIndexEntry)
    (acc : list TreeEntry) (res : BitResult Oid * S) : Prop :=
  (∃ ks, tree_built base ns l ks ∧ res.1 = write_obj (mutable_tree_new (acc ++ ks)) ∧ yields res.2 r)
  ∨ (not_ok res.1 ∧ ∃ t, write_obj t = res.1).

Lemma build_tree_internal_unfold fuel base acc (s : S) x l :
  yields s (x :: l) → within base x = true →
  ∃ s1, peeked s1 (x :: l) ∧
    build_tree_internal write_obj (Datatypes.S fuel) tree_cache base acc s
    = (e ← step_entry write_obj tree_cache fuel x;
       build_tree_internal write_obj fuel tree_cache base (acc ++ [e])) s1.
Proof.
  intros Hy Hx. cbn [build_tree_internal]. destruct (law_peek s _ Hy) as (s1 & E1 & Hp1 & _).
  rewrite (st_bind_ok _ _ _ _ _ E1). cbn [head]. rewrite Hx. by exists s1.
Qed.

(** A directory is a tree that holds its files. *)
Lemma written_holds d ms l ks oid :
  rel_path d → Forall (λ n, entry_name n ∧ plain_name n) ms → NoDup ms →
  tree_built d ms l ks → write_obj (mutable_tree_new ks) = Ok oid →
  holds_files treeish oid d (files l).
Proof.
  intros Hd Hms Hnd (Hnames & Hg & l' & Hl' & Hf & Hlf) Hw.
  destruct (write_reads _ _ Hw) as [Hk Ht].
  assert (mt_entries (mutable_tree_new ks) ≡ₚ ks) as Hp.
  { apply mutable_tree_perm; [|by rewrite Hnames]. rewrite <- Hnames, Forall_fmap in Hms.
    eapply Forall_impl; [exact Hms|]. by intros k []. }
  destruct (listing_perm treeish _ (child_entries d (mt_entries (mutable_tree_new ks))) _
    (child_entries_perm d _ _ (symmetry Hp)) Hl') as (l'' & Hl'' & Hf').
  exists (mt_entries (mutable_tree_new ks)), l''. split_and!; try done.
  - eapply entries_ok_perm; [by symmetry|]. split; [|by rewrite Hnames].
    rewrite <- Hnames, Forall_fmap in Hms. eapply Forall_impl; [exact Hms|]. by intros k [].
  - by rewrite Hp.
  - by rewrite Hf'.
  - by eapply link_free_perm.
Qed.

Lemma tree_built_file base ns l ks n x :
  entry_name n → rel_path base → ie_path x = join base n → entry_is_blob x = true →
  tree_built base ns l ks →
  tree_built base (n :: ns) (x :: l) (mk_TreeEntry (ie_mode x) (file_name (ie_path x)) (ie_oid x) :: ks).
Proof.
  intros Hn Hb Hx Hbl (Hnames & Hg & l' & Hl' & Hf & Hlf). rewrite Hx, join_file_name by done.
  assert (ie_mode x ≠ GITLINK) as Hm by (unfold entry_is_blob in Hbl; cbn in Hbl; by destruct (ie_mode x)).
  split_and!; [cbn; by rewrite Hnames|by constructor|].
  unfold child_entries. rewrite filter_cons_True by done. cbn [fmap list_fmap te_mode te_path te_oid].
  eexists. split; [apply listing_blob; [exact Hbl|exact Hl']|]. split.
  - rewrite !files_blob by done. rewrite Hf. unfold tree_entry_from_index_entry. cbn. by rewrite Hx.
  - intros y kids [->|Hy]%elem_of_cons Hty; [|by apply Hlf]. exfalso. clear - Hbl Hty.
    unfold entry_is_blob, entry_is_tree in *. cbn in *. by destruct (ie_mode x).
Qed.

Lemma tree_built_dir base ns l1 l2 ks n t oid :
  entry_name n → rel_path base → ie_mode t = TREE →
  holds_files treeish oid (join base n) (files l1) → tree_built base ns l2 ks →
  tree_built base (n :: ns) (t :: l1 ++ l2) (mk_TreeEntry TREE n oid :: ks).
Proof.
  intros Hn Hb Hm (kids & l1' & Hk & Ht & Hok & Hg1 & Hl1 & Hf1 & Hlf1) (Hnames & Hg & l2' & Hl2 & Hf2 & Hlf2).
  split_and!; [cbn; by rewrite Hnames|by constructor|].
  unfold child_entries. rewrite filter_cons_True by done. cbn [fmap list_fmap te_mode te_path te_oid].
  eexists. split; [by eapply listing_tree|]. split.
  - rewrite !files_tree, !files_app by done. by rewrite Hf1, Hf2.
  - intros y kids' [->|Hy]%elem_of_cons Hty Hy'.
    + cbn in Hy'. rewrite Ht in Hy'. by injection Hy' as <-.
    + assert (link_free treeish (l1' ++ l2')) as Hlf by by apply link_free_app. by eapply Hlf.
Qed.

Lemma builds_cons base ns l r acc k fuel (s1 : S) x n l1 :
  (∀ ks, tree_built base ns l ks → tree_built base (n :: ns) (x :: l1 ++ l) (k :: ks)) →
  builds base ns l r (acc ++ [k]) (build_tree_internal write_obj fuel tree_cache base (acc ++ [k]) s1) →
  builds base (n :: ns) (x :: l1 ++ l) r acc
    (build_tree_internal write_obj fuel tree_cache base (acc ++ [k]) s1).
Proof.
  intros Hk [(ks & Hks & E & Hy)|?]; [left|by right]. exists (k :: ks).
  rewrite E, <- app_assoc. auto.
Qed.

(** What taking a directory gives: the id of a tree with its files, or a failed write. *)
Lemma step_entry_dir fuel n base ms l1 l2 r (s : S) :
  rel_path base → entry_name n → forest mk all (join base n) ms l1 →
  List.filter entry_is_blob l1 = entries_below (join base n) all →
  outside (join base n) (l2 ++ r) → peeked s (mk (join base n) :: l1 ++ l2 ++ r) →
  (∀ s1, yields s1 (l1 ++ l2 ++ r) →
     builds (join base n) ms l1 (l2 ++ r) []
       (build_tree_internal write_obj fuel tree_cache (join base n) [] s1)) →
  (∃ oid s', step_entry write_obj tree_cache fuel (mk (join base n)) s = (Ok (mk_TreeEntry TREE n oid), s')
     ∧ holds_files treeish oid (join base n) (files l1) ∧ yields s' (l2 ++ r))
  ∨ (∃ o s', step_entry write_obj tree_cache fuel (mk (join base n)) s = (o, s') ∧ not_ok o
     ∧ ∃ t, write_obj t = (match o with Ok _ => Panic | Err e => Err e | Panic => Panic end)).
Proof.
  intros Hb Hn Hf Hcut Hout Hp Hrec. destruct (rel_join base n Hb Hn) as [Hj _].
  pose proof (forest_inside mk mk_path all _ _ _ _ Hf Hb Hn) as Hin.
  destruct (forest_names mk all _ _ _ Hf) as [Hms Hnd].
  unfold step_entry. rewrite mk_tree, mk_path, join_file_name by done. set (d := join base n) in *.
  destruct (tree_exists tree_cache (mk d)) eqn:Ec.
  - left. destruct (law_over s _ Hp) as (s1 & E1 & Hy1 & _);
      [unfold at_tree, entry_is_tree; cbn; by rewrite mk_tree|]. exists (ie_oid (mk d)), s1. split_and!.
    + rewrite (st_bind_ok _ _ s s1 (ie_oid (mk d))); [done|]. by rewrite (st_bind_ok _ _ _ _ _ E1).
    + pose proof (cached d (or_intror Hj) Ec) as Hh. unfold files in *. rewrite Hcut.
      assert (List.filter entry_is_blob (entries_below d all) = entries_below d all) as E2; [|by rewrite E2 in Hh].
      rewrite <- Hcut. clear. induction l1 as [|x l IH]; [done|]. cbn. destruct (entry_is_blob x) eqn:E; [|done].
      cbn. by rewrite E, IH.
    + cbn [over_list] in Hy1. unfold entry_is_tree in Hy1. cbn in Hy1. rewrite mk_tree, mk_path in Hy1.
      cbn in Hy1. by rewrite drop_within_all, outside_drop in Hy1.
  - destruct (law_next s _ (peeked_yields _ _ Hp)) as (s1 & E1 & Hy1 & _). cbn [tail] in Hy1.
    specialize (Hrec s1 Hy1). destruct (build_tree_internal write_obj fuel tree_cache d [] s1) as [o s2] eqn:E2.
    destruct Hrec as [(ks & Hks & Eo & Hy2)|[Hno (t & Et)]]; cbn in *.
    + destruct o as [oid|e|].
      * left. exists oid, s2. split_and!; [|by apply (written_holds d ms l1 ks); [by right|..]|done].
        rewrite (st_bind_ok _ _ s s2 oid); [done|]. by rewrite (st_bind_ok _ _ _ _ _ E1).
      * right. exists (Err e), s2. split_and!; [|done|by eexists].
        rewrite (st_bind_err _ _ s s2 e); [done|]. by rewrite (st_bind_ok _ _ _ _ _ E1).
      * right. exists Panic, s2. split_and!; [|done|by eexists].
        rewrite (st_bind_panic _ _ s s2); [done|]. by rewrite (st_bind_ok _ _ _ _ _ E1).
    + right. destruct o as [?|e|]; [done|..].
      * exists (Err e), s2. split_and!; [|done|by exists t].
        rewrite (st_bind_err _ _ s s2 e); [done|]. by rewrite (st_bind_ok _ _ _ _ _ E1).
      * exists Panic, s2. split_and!; [|done|by exists t].
        rewrite (st_bind_panic _ _ s s2); [done|]. by rewrite (st_bind_ok _ _ _ _ _ E1).
Qed.

Lemma build_forest base ns l :
  forest mk all base ns l → ∀ acc fuel (s : S) r,
  rel_path base → outside base r → length l < fuel → yields s (l ++ r) →
  builds base ns l r acc (build_tree_internal write_obj fuel tree_cache base acc s).
Proof.
  induction 1 as [base|base n x ns l Hn Hpl Hnin Hx Hbl Hf IH
    |base n ms ns l1 l2 Hn Hpl Hnin Hcut Hf1 IH1 Hf2 IH2]; intros acc fuel s r Hb Hr Hfuel Hy;
    (destruct fuel as [|fuel]; [lia|]).
  - left. exists []. split; [split_and!; [done|done|exists []; split_and!; [constructor|done|by intros ? ? ?%elem_of_nil]]|].
    destruct (build_tree_internal_end write_obj tree_cache fuel base acc s r Hy Hr) as (s' & -> & Hy').
    by rewrite app_nil_r.
  - destruct (build_tree_internal_unfold fuel base acc s x (l ++ r) Hy) as (s1 & Hp1 & ->).
    { apply path_starts_above; [done|]. right. rewrite Hx. apply above_join; [done..|by left]. }
    destruct (step_entry_blob write_obj tree_cache fuel x s1 (l ++ r) Hbl Hp1) as (s2 & E2 & Hy2).
    rewrite (st_bind_ok _ _ _ _ _ E2). apply (builds_cons base ns l r acc _ fuel s2 x n []).
    + intros ks. by apply tree_built_file.
    + apply IH; try done. cbn in Hfuel. lia.
  - cbn [length] in Hfuel. rewrite length_app in Hfuel. destruct (rel_join base n Hb Hn) as [Hj _].
    pose proof (forest_outside mk mk_path all base n ns l2 r Hf2 Hb Hn Hnin Hr) as Hout.
    assert (yields s (mk (join base n) :: l1 ++ l2 ++ r)) as Hy0
      by by rewrite (app_assoc l1 l2 r).
    destruct (build_tree_internal_unfold fuel base acc s _ _ Hy0) as (s1 & Hp1 & ->).
    { unfold within. rewrite mk_path. by apply join_within. }
    destruct (step_entry_dir fuel n base ms l1 l2 r s1 Hb Hn Hf1 Hcut Hout Hp1)
      as [(oid & s2 & E2 & Hh & Hy2)|(o & s2 & E2 & Hno & t & Ht)].
    { intros s2 Hy2. apply IH1; [by right|done|lia|done]. }
    + rewrite (st_bind_ok _ _ _ _ _ E2). apply (builds_cons base ns l2).
      * intros ks Hks. by apply tree_built_dir.
      * apply IH2; try done. lia.
    + right. destruct o as [?|e|]; [done|..].
      * rewrite (st_bind_err _ _ _ _ _ E2). split; [done|by exists t].
      * rewrite (st_bind_panic _ _ _ _ E2). split; [done|by exists t].
Qed.
End build.

(** ** Reading the tree cache of a stored tree *)

Definition blobs (l : list BitIndexEntry) : list BitIndexEntry := List.filter entry_is_blob l.

Lemma blobs_app l1 l2 : blobs (l1 ++ l2) = blobs l1 ++ blobs l2.
Proof. apply List.filter_app. Qed.

Section fresh.
Context (read_obj_tree : Oid → BitResult TreeObj).

(** The entries of a stored tree. *)
Definition tree_entries (oid : Oid) : BitResult (list TreeEntry) :=
  tree ← read_obj_tree oid; Ok (t_entries tree).

Lemma tree_entries_ok oid kids :
  tree_entries oid = Ok kids → ∃ t, read_obj_tree oid = Ok t ∧ t_entries t = kids.
Proof.
  unfold tree_entries. destruct (read_obj_tree oid) as [t| |]; [|done..]. intros [= <-]. by exists t.
Qed.

(** Reading a tree ends, and counts its files. *)
Lemma read_entries_listing es l :
  listing tree_entries es l → link_free tree_entries l →
  ∀ d ks fuel count ch,
  es = (λ e, mk_TreeEntry (te_mode e) (join d (te_path e)) (te_oid e)) <$> ks → length l < fuel →
  ∃ n ch', read_entries_into read_obj_tree (read_tree_internal read_obj_tree fuel) ks count ch = Ok (n, ch')
    ∧ n = (count + Z.of_nat (length (blobs l)))%Z.
Proof.
  induction 1 as [|e es l Hb Hl IH|e es kids l1 l2 Hm Hk Ht Hok Hl1 IH1 Hl2 IH2];
    intros Hlf d ks fuel count ch Hes Hfuel; destruct ks as [|k ks]; try done; cbn in Hes.
  - exists count, ch. split; [done|]. cbn. lia.
  - injection Hes as -> Hes. cbn in Hb, Hfuel.
    change (_ :: l) with ([index_entry_from_tree_entry (mk_TreeEntry (te_mode k) (join d (te_path k)) (te_oid k))] ++ l) in Hlf.
    apply link_free_app in Hlf as [_ Hlf].
    destruct (IH Hlf d ks fuel (count + 1)%Z ch Hes) as (n & ch' & E & Hn); [lia|].
    exists n, ch'. split; [cbn; by destruct (te_mode k)|]. unfold blobs in *. cbn.
    unfold entry_is_blob at 1. cbn. rewrite Hb. cbn. lia.
  - injection Hes as -> Hes. cbn in Hm, Ht, Hfuel, Hl1, IH1. rewrite length_app in Hfuel.
    pose proof (Hlf _ kids (list_elem_of_here _ _)) as Hg. unfold entry_is_tree in Hg. cbn in Hg.
    rewrite Hm in Hg. specialize (Hg eq_refl Ht).
    assert (link_free tree_entries l1 ∧ link_free tree_entries l2) as [Hlf1 Hlf2].
    { apply link_free_app. intros y ks' Hy. apply Hlf. by right. }
    destruct (tree_entries_ok _ _ Ht) as (t & Hr & Htk).
    destruct fuel as [|fuel]; [lia|].
    destruct (IH1 Hlf1 (join d (te_path k)) kids fuel 0%Z []) as (n1 & ch1 & E1 & Hn1);
      [by rewrite child_entries_plain|lia|].
    destruct (IH2 Hlf2 d ks (S fuel) (count + n1)%Z
      (map_insert (te_path k) (mk_TreeCache (te_path k) (t_oid t) n1 ch1) ch) Hes) as (n & ch' & E2 & Hn); [lia|].
    exists n, ch'. split.
    + cbn [read_entries_into]. rewrite Hm, Hr. cbn [mbind outcome_bind]. cbn [read_tree_internal].
      rewrite Htk, E1. cbn [mbind outcome_bind]. exact E2.
    + subst n1. unfold blobs in *. cbn [List.filter]. unfold entry_is_blob at 1. cbn. rewrite Hm. cbn.
      rewrite List.filter_app, length_app. lia.
Qed.

Lemma read_tree_listing t d l p fuel :
  Forall (λ k, te_mode k ≠ GITLINK) (t_entries t) →
  listing tree_entries (child_entries d (t_entries t)) l → link_free tree_entries l → length l < fuel →
  ∃ c, read_tree_internal read_obj_tree (S fuel) t p = Ok c
    ∧ tc_entry_count c = Z.of_nat (length (blobs l)).
Proof.
  intros Hg Hl Hlf Hf.
  destruct (read_entries_listing _ l Hl Hlf d (t_entries t) fuel 0 []) as (n & ch & E & Hn);
    [by rewrite child_entries_plain|done|].
  eexists. cbn [read_tree_internal]. rewrite E. cbn. split; [done|]. cbn. lia.
Qed.

Lemma entries_below_outside p q l :
  rel_path q → q = p ∨ above p q → Forall (λ x, within p x = false) l → entries_below q (blobs l) = [].
Proof.
  intros Hq Hpq Hl. apply entries_below_none; [done|]. unfold blobs. rewrite Forall_forall in Hl |- *.
  intros x Hx Hqx. apply list_elem_of_In, List.filter_In in Hx as [Hx _].
  apply list_elem_of_In in Hx. apply (within_not_above p x (Hl x Hx)).
  destruct Hpq as [->|Hpq]; [done|by eapply above_trans].
Qed.

#[local] Arguments entries_below : simpl never.

(** A subtree in a listing: what is listed below it, which nothing else of the listing is. *)
Lemma listing_child_tree es l e :
  listing tree_entries es l → stack_ok es → link_free tree_entries l → e ∈ es → te_mode e = TREE →
  ∃ kids l1, is_known (te_oid e) = true ∧ tree_entries (te_oid e) = Ok kids ∧ entries_ok kids
    ∧ Forall (λ k, te_mode k ≠ GITLINK) kids
    ∧ listing tree_entries (child_entries (te_path e) kids) l1 ∧ link_free tree_entries l1
    ∧ ∀ q, rel_path q → q = te_path e ∨ above (te_path e) q →
        entries_below q (blobs l) = entries_below q (blobs l1).
Proof.
  induction 1 as [|e' es l Hb Hl IH|e' es kids l1 l2 Hm Hk Ht Hok Hl1 IH1 Hl2 IH2];
    intros Hs Hlf He Hme; [by apply elem_of_nil in He|..];
    destruct (stack_ok_tail _ _ Hs) as (Hre & Hs' & Hinc); apply elem_of_cons in He as [->|He].
  - by rewrite Hme in Hb.
  - destruct IH as (kids & l1 & Hk & Ht & Hok & Hg & Hl1 & Hlf1 & Hq); try done.
    { intros x ks Hx. apply Hlf. by right. }
    exists kids, l1. split_and!; try done. intros q Hrq Hqe. rewrite <- Hq by done.
    unfold blobs. cbn [List.filter]. unfold entry_is_blob at 1. cbn. rewrite Hb.
    apply entries_below_cons_out; [done|]. cbn. rewrite Forall_forall in Hinc.
    destruct (Hinc e He) as [_ Hni]. intros Hqx. apply Hni.
    assert (path_components (te_path e) `prefix_of` path_components q) as Hpre
      by (destruct Hqe as [->|(_ & _ & ?)]; done).
    etrans; [exact Hpre|]. by destruct Hqx as (_ & _ & ?).
  - exists kids, l1. split_and!; try done.
    + apply (Hlf (index_entry_from_tree_entry e')); [by left| |done].
      unfold entry_is_tree. cbn. by rewrite Hm.
    + intros x ks Hx. apply Hlf. right. apply elem_of_app. by left.
    + intros q Hrq Hqe. unfold blobs. cbn [List.filter]. unfold entry_is_blob at 1. cbn. rewrite Hm. cbn.
      fold (blobs (l1 ++ l2)) (blobs l1). rewrite blobs_app, entries_below_app.
      rewrite (entries_below_outside (te_path e') q l2), app_nil_r; [done..|].
      by eapply listing_incomparable.
  - destruct IH2 as (kids' & l1' & Hk' & Ht' & Hok' & Hg' & Hl1' & Hlf1' & Hq); try done.
    { intros x ks Hx. apply Hlf. right. apply elem_of_app. by right. }
    exists kids', l1'. split_and!; try done. intros q Hrq Hqe. rewrite <- Hq by done.
    unfold blobs. cbn [List.filter]. unfold entry_is_blob at 1. cbn. rewrite Hm. cbn.
    fold (blobs (l1 ++ l2)) (blobs l2). rewrite blobs_app, entries_below_app.
    rewrite (entries_below_outside (te_path e) q l1); [done..|].
    rewrite Forall_forall in Hinc. destruct (Hinc e He) as [Hn1 Hn2].
    pose proof (listing_children_within _ _ _ _ Hre Hok Hl1) as Hw.
    eapply Forall_impl; [exact Hw|]. intros x Hx. apply path_starts_with_prefix in Hx.
    destruct (within (te_path e) x) eqn:E; [|done]. apply path_starts_with_prefix in E. exfalso.
    destruct (prefix_weak_total _ _ _ Hx E); done.
Qed.

Lemma child_entries_elem d ks k :
  k ∈ ks → te_mode k ≠ GITLINK →
  mk_TreeEntry (te_mode k) (join d (te_path k)) (te_oid k) ∈ child_entries d ks.
Proof. intros Hk Hm. apply elem_of_child_entries. by exists k. Qed.

Lemma foldl_join_rel d cs :
  rel_path d → Forall entry_name cs → rel_path (foldl join d cs) ∧ (foldl join d cs = d ∨ above d (foldl join d cs)).
Proof.
  revert d. induction cs as [|c cs IH]; intros d Hd Hcs; cbn; [by split; [|left]|].
  inversion_clear Hcs as [|?? Hc Hcs']. destruct (rel_join d c Hd Hc) as [Hj _].
  destruct (IH (join d c) (or_intror Hj) Hcs') as [Hr Hab]. split; [done|right].
  assert (above d (join d c)) as Hdc by (apply above_join; [done|done|by left]).
  destruct Hab as [->|Hab]; [done|by eapply above_trans].
Qed.

Lemma listing_strictly_below d kids l :
  rel_path d → entries_ok kids → listing tree_entries (child_entries d kids) l →
  Forall (λ x, above d (ie_path x)) l.
Proof.
  intros Hd Hok Hl. eapply (listing_below tree_entries (above d) _ l); [|exact Hl|by apply child_entries_rel|].
  - intros q n Hq Hn Hdq. apply above_join; [done..|by right].
  - apply Forall_forall. intros c (k & Hk & _ & ->)%elem_of_child_entries. cbn.
    destruct Hok as [Hn _]. rewrite Forall_forall in Hn. apply above_join; [done|by apply Hn|by left].
Qed.

Lemma blobs_Forall (P : BitIndexEntry → Prop) l : Forall P l → Forall P (blobs l).
Proof.
  rewrite !Forall_forall. intros Hl x Hx. apply list_elem_of_In, List.filter_In in Hx as [Hx _].
  apply Hl. by apply list_elem_of_In.
Qed.

(** Every node of a cache that is read from a stored tree describes the directory it is for. *)
Lemma fresh_describes fuel t p c d l :
  (∀ oid t, read_obj_tree oid = Ok t → t_oid t = oid) →
  read_tree_internal read_obj_tree fuel t p = Ok c →
  read_obj_tree (t_oid t) = Ok t → is_known (t_oid t) = true → rel_path d →
  entries_ok (t_entries t) → Forall (λ k, te_mode k ≠ GITLINK) (t_entries t) →
  listing tree_entries (child_entries d (t_entries t)) l → link_free tree_entries l →
  ∀ cs child, find_child_internal c cs = Some child →
    Forall entry_name cs ∧
    ∃ l', holds_files tree_entries (tc_tree_oid child) (foldl join d cs) (files l')
      ∧ tc_entry_count child = Z.of_nat (length (blobs l'))
      ∧ entries_below (foldl join d cs) (blobs l) = blobs l'.
Proof.
  intros Hoid. revert t p c d l. induction fuel as [|fuel IH]; intros t p c d l Hr Ht Hk Hd Hok Hg Hl Hlf cs child Hc;
    [done|].
  pose proof (read_tree_path _ _ _ _ _ Hr) as [Hpath Hco].
  destruct cs as [|n cs].
  - injection Hc as <-. split; [constructor|]. exists l. cbn [foldl]. split_and!.
    + exists (t_entries t), l. rewrite Hco. split_and!; try done. unfold tree_entries. by rewrite Ht.
    + destruct (read_tree_listing t d l p (S (length l)) Hg Hl Hlf ltac:(lia)) as (c' & Hr' & Hn).
      by rewrite (read_tree_det _ _ _ _ _ _ _ Hr Hr').
    + apply entries_below_all; [done|]. apply blobs_Forall. by eapply listing_strictly_below.
  - cbn [find_child_internal] in Hc. destruct (map_get n (tc_children c)) as [c1|] eqn:Eg; [|done].
    change (find_child_internal c1 cs = Some child) in Hc.
    apply map_get_Some_in in Eg. cbn [read_tree_internal] in Hr. inv_ok. destruct a as [cnt ch]. inv_ok.
    cbn [tc_children] in Eg.
    pose proof (read_entries_children read_obj_tree
      (λ kc, ∃ e t', e ∈ t_entries t ∧ te_mode e = TREE ∧ te_path e = kc.1 ∧ read_obj_tree (te_oid e) = Ok t'
         ∧ read_tree_internal read_obj_tree fuel t' kc.1 = Ok kc.2) _ _ _ _ _ _
      ltac:(intros e t' c' He Hm Hrt Hrr; by exists e, t') (Forall_nil_2 _) E) as HQ.
    rewrite Forall_forall in HQ. destruct (HQ _ Eg) as (e & t' & He & Hm & Hn & Hrt & Hrr). cbn in Hn, Hrr.
    assert (te_mode e ≠ GITLINK) as Hmg by congruence.
    destruct (listing_child_tree _ l _ Hl (stack_ok_children d _ Hd Hok) Hlf (child_entries_elem d _ e He Hmg) Hm)
      as (kids & l1 & Hk1 & Hte & Hok1 & Hg1 & Hl1 & Hlf1 & Hbelow). cbn in Hk1, Hte, Hl1, Hbelow.
    apply tree_entries_ok in Hte as (t'' & Hrt' & <-). rewrite Hrt in Hrt'. injection Hrt' as <-.
    assert (entry_name (te_path e)) as Hname.
    { destruct Hok as [Hnames _]. rewrite Forall_forall in Hnames. by apply Hnames. }
    destruct (rel_join d (te_path e) Hd Hname) as [Hj _].
    pose proof (Hoid _ _ Hrt) as Eoid. rewrite <- Eoid in Hrt, Hk1.
    destruct (IH t' n c1 (join d (te_path e)) l1 Hrr Hrt Hk1 (or_intror Hj) Hok1 Hg1 Hl1 Hlf1 cs child Hc)
      as (Hcs & l' & Hh & Hcount & Hb).
    rewrite Hn in Hh, Hb, Hbelow, Hname. split; [by constructor|]. exists l'. cbn [foldl]. split_and!; [done..|].
    destruct (foldl_join_rel (join d n) cs) as [Hr' Hab]; [right; by rewrite <- Hn|done|].
    rewrite Hbelow; [done..|]. destruct Hab as [->|?]; [by left|by right].
Qed.
End fresh.

(** ** write_tree *)

Definition file_below (p : BitPath) (k : TreeEntry) : bool :=
  path_starts_with (te_path k) p && negb (bool_decide (te_path k = p)).

Lemma files_below p l : files (entries_below p l) = List.filter (file_below p) (files l).
Proof.
  unfold files, entries_below. induction l as [|x l IH]; [done|]. cbn.
  destruct (entry_is_blob x) eqn:Hb; cbn; unfold file_below at 1, within; cbn.
  - destruct (path_starts_with (ie_path x) p && negb (bool_decide (ie_path x = p))); cbn;
      by rewrite ?Hb, <- ?IH.
  - destruct (path_starts_with (ie_path x) p && negb (bool_decide (ie_path x = p))); cbn;
      by rewrite ?Hb, <- ?IH.
Qed.

Lemma files_blobs l : files (blobs l) = files l.
Proof.
  unfold files, blobs. induction l as [|x l IH]; [done|]. cbn. destruct (entry_is_blob x) eqn:Hb; cbn;
    by rewrite ?Hb; cbn; rewrite ?IH.
Qed.

Lemma length_files l : length (files l) = length (blobs l).
Proof. apply length_fmap. Qed.

Lemma bool_filter_perm {A} (f : A → bool) l l' : l ≡ₚ l' → List.filter f l ≡ₚ List.filter f l'.
Proof.
  induction 1 as [|x l l' _ IH|x y l|l l' l'' _ IH1 _ IH2]; cbn; [done|..].
  - destruct (f x); by rewrite IH.
  - destruct (f x), (f y); done || apply Permutation_swap.
  - by etrans.
Qed.

(** An index that can be written: no conflicts, no file below another. *)
Lemma clean_files_ok W idx :
  prefix_free W → clean W idx → files_only idx → files_ok (std_iter idx) ∧ has_conflicts idx = false.
Proof.
  intros HW Hc Hb. destruct (clean_flat W idx Hc Hb) as [Hs Hblob].
  assert (∀ e, e ∈ std_iter idx → ie_path e ∈ W ∧ norm_path (ie_path e) ∧ (x00 ∉ ie_path e)) as Helem.
  { intros e (_ & k & Hin)%elem_of_std_iter. destruct (clean_entry W idx _ Hc Hin) as (Hk & _ & HpW).
    cbn in Hk, HpW. split; [done|]. destruct Hc as [[_ Hf] _]. rewrite Forall_forall in Hf.
    destruct (Hf _ Hin) as (_ & Hwf & Hn). cbn in Hn, Hwf. subst k. split; [done|]. by apply Hwf. }
  split.
  - split_and!.
    + unfold paths_sorted. clear -Hs. induction Hs as [|x l Hs IH Hx]; constructor; [done|].
      eapply Forall_impl; [exact Hx|]. cbn. congruence.
    + clear -Hs. induction Hs as [|x l Hs IH Hx]; constructor; [|done].
      intros (y & E & Hy)%list_elem_of_fmap. rewrite Forall_forall in Hx. specialize (Hx y Hy). cbn in Hx.
      rewrite E in Hx. by rewrite (ord_refl path_cmp) in Hx.
    + rewrite Forall_forall in Hblob |- *. intros e He. destruct (Helem e He) as (_ & ? & ?).
      split; [done|by apply Hblob].
    + intros e e' He He' Hab. destruct (Helem e He) as (H1 & Hn1 & _). destruct (Helem e' He') as (H2 & Hn2 & _).
      apply above_under in Hab; [|done..]. by apply (HW _ _ H1 H2).
  - unfold has_conflicts. apply not_true_iff_false. intros (kv & Hin%list_elem_of_In & Hu)%existsb_exists.
    destruct Hc as [_ Hc]. destruct (Hc kv Hin) as [Hs' _]. by rewrite Hs' in Hu.
Qed.

Lemma bool_filter_id {A} (f : A → bool) l : (∀ x, x ∈ l → f x = true) → List.filter f l = l.
Proof.
  induction l as [|x l IH]; intros Hf; [done|]. cbn. rewrite Hf by by left. f_equal.
  apply IH. intros y Hy. apply Hf. by right.
Qed.

Section write_tree_theorem.
Context (read_obj_tree : Oid → BitResult TreeObj) (write_obj : MutableTree → BitResult Oid).
(** Trees are stored under their ids, and can be read once they have been written. *)
Context (store : store_ok read_obj_tree).
Context (write_reads : ∀ t oid, write_obj t = Ok oid →
  is_known oid = true ∧ tree_entries read_obj_tree oid = Ok (mt_entries t)).

(** The tree cache of an index agrees with the object store, and each valid node with the entries:
    it counts the files of its directory, and its tree holds them. *)
Definition cache_ok (idx : BitIndexInner) : Prop :=
  ∀ cache, idx_tree_cache idx = Some cache →
    tc_consistent read_obj_tree cache ∧ tc_path cache = EMPTY
    ∧ ∀ d child, rel_path d → find_valid_child cache d = Some child →
        tc_entry_count child = Z.of_nat (length (entries_below d (std_iter idx)))
        ∧ holds_files (tree_entries read_obj_tree) (tc_tree_oid child) d
            (files (entries_below d (std_iter idx))).

Lemma cache_ok_valid idx d child :
  cache_ok idx → rel_path d → valid_child idx d = Some child →
  tc_entry_count child = Z.of_nat (length (entries_below d (std_iter idx)))
  ∧ holds_files (tree_entries read_obj_tree) (tc_tree_oid child) d
      (files (entries_below d (std_iter idx))).
Proof.
  intros Hc Hd Hv. unfold valid_child in Hv. destruct (idx_tree_cache idx) as [cache|] eqn:E; [|done].
  destruct (Hc cache E) as (_ & _ & H). by apply H.
Qed.

Lemma cache_ok_listable idx : cache_ok idx → files_ok (std_iter idx) → index_listable idx.
Proof.
  intros Hc (Hs & _ & Hb & _). split_and!; [done| |].
  - eapply Forall_impl; [exact Hb|]. by intros e [[]].
  - intros p child Hp Hv. by apply cache_ok_valid.
Qed.

Lemma std_forest_block idx :
  files_ok (std_iter idx) → forest_block (std_iter idx) EMPTY [EMPTY] (std_iter idx).
Proof.
  intros Hf. pose proof Hf as (_ & _ & Hb & _). split; [done| | |..].
  - eapply Forall_impl; [exact Hb|]. intros e [[Hn _] _]. by apply above_root.
  - intros q [->|[]%above_empty]. by left.
  - intros e q _ Hq _ ->%list_elem_of_singleton. by apply above_irrefl in Hq.
  - done.
Qed.

Lemma tree_exists_cached idx d :
  cache_ok idx → rel_path d → tree_exists (idx_tree_cache idx) (create_pseudotree idx d) = true →
  holds_files (tree_entries read_obj_tree) (ie_oid (create_pseudotree idx d)) d
    (files (entries_below d (std_iter idx))).
Proof.
  intros Hc Hd Ht. unfold tree_exists in Ht. unfold create_pseudotree in *. cbn in *.
  fold (valid_child idx d) in Ht. destruct (valid_child idx d) as [child|] eqn:Hv; [|done].
  cbn. by apply cache_ok_valid.
Qed.

(** What a fresh read of the written tree says of the index. *)
Lemma fresh_cache_ok idx t l fuel c :
  read_obj_tree (t_oid t) = Ok t → is_known (t_oid t) = true → entries_ok (t_entries t) →
  Forall (λ k, te_mode k ≠ GITLINK) (t_entries t) →
  listing (tree_entries read_obj_tree) (child_entries EMPTY (t_entries t)) l →
  link_free (tree_entries read_obj_tree) l → files l ≡ₚ files (std_iter idx) →
  Forall (λ e, entry_is_blob e = true) (std_iter idx) →
  read_tree_internal read_obj_tree fuel t EMPTY = Ok c →
  cache_ok (mk_BitIndexInner (idx_entries idx) (Some c) (idx_reuc idx)).
Proof.
  intros Ht Hk Hok Hg Hl Hlf Hf Hb Hr cache [= <-]. destruct store as [Hoid Hnames].
  split; [by apply (fresh_consistent read_obj_tree Hoid fuel t EMPTY c)|].
  split; [by apply read_tree_path in Hr as []|]. intros d child Hd Hv.
  assert (find_child_internal c (components d) = Some child) as Hfind.
  { unfold find_valid_child, find_child in Hv. repeat case_match; congruence. }
  destruct (fresh_describes read_obj_tree fuel t EMPTY c EMPTY l Hoid Hr Ht Hk (or_introl eq_refl) Hok Hg
    Hl Hlf _ _ Hfind) as (_ & l' & Hh & Hcount & Hbelow).
  rewrite foldl_join_components in Hh, Hbelow by done.
  change (std_iter (mk_BitIndexInner (idx_entries idx) (Some c) (idx_reuc idx))) with (std_iter idx).
  assert (files l' ≡ₚ files (entries_below d (std_iter idx))) as Hfl.
  { rewrite <- (files_blobs l'), <- Hbelow, !files_below, files_blobs. by apply bool_filter_perm. }
  split.
  - rewrite Hcount, <- length_files, Hfl, length_files. do 2 f_equal. unfold blobs.
    apply bool_filter_id. intros x Hx. unfold entries_below in Hx.
    apply list_elem_of_In, List.filter_In in Hx as [Hx%list_elem_of_In _].
    rewrite Forall_forall in Hb. by apply Hb.
  - destruct Hh as (kids & l0 & H1 & H2 & H3 & H4 & H5 & H6 & H7). exists kids, l0.
    split_and!; try done. by rewrite H6.
Qed.

Lemma update_cache_tree_ok idx oid :
  cache_ok idx → Forall (λ e, entry_is_blob e = true) (std_iter idx) →
  holds_files (tree_entries read_obj_tree) oid EMPTY (files (std_iter idx)) →
  ∃ n, ∀ depth, n ≤ depth → ∃ cache idx', update_cache_tree read_obj_tree depth oid idx = (Ok tt, idx')
    ∧ idx' = mk_BitIndexInner (idx_entries idx) (Some cache) (idx_reuc idx) ∧ cache_ok idx'.
Proof.
  intros Hc Hb (kids & l & Hk & Ht & Hok & Hg & Hl & Hf & Hlf).
  destruct (tree_entries_ok _ _ _ Ht) as (t & Hrt & <-). pose proof store as [Hoid _].
  exists (S (S (length l))). intros depth Hd. destruct depth as [|depth]; [lia|].
  destruct (read_tree_listing read_obj_tree t EMPTY l EMPTY depth Hg Hl Hlf ltac:(lia)) as (c & Hr & _).
  pose proof (Hoid _ _ Hrt) as E. rewrite <- E in Hrt, Hk.
  exists c, (mk_BitIndexInner (idx_entries idx) (Some c) (idx_reuc idx)). split_and!; [|done|].
  - unfold update_cache_tree. rewrite <- E, Hrt. cbn [mbind outcome_bind].
    destruct (idx_tree_cache idx) as [cache|] eqn:Ecache.
    + destruct (Hc cache Ecache) as (Hcons & Hp & _).
      by rewrite (tc_update_fresh read_obj_tree (S depth) cache t c store Hcons Hp Hrt Hr).
    + unfold read_tree. by rewrite Hr.
  - by eapply fresh_cache_ok.
Qed.

(** Building a tree from the index: a tree with its files, unless a tree cannot be written. *)
Lemma build_index_tree idx fuel :
  files_ok (std_iter idx) → cache_ok idx → length (index_tree_listing idx) < fuel →
  let res := fst (build_tree (H := index_tree_iterator fuel) write_obj fuel (idx_tree_cache idx)
                    (index_iter_new idx)) in
  (∃ oid, res = Ok oid ∧ holds_files (tree_entries read_obj_tree) oid EMPTY (files (std_iter idx)))
  ∨ not_ok res ∧ ∃ t, write_obj t = res.
Proof.
  intros Hf Hc Hlen res. subst res. pose proof (cache_ok_listable idx Hc Hf) as Hlist.
  set (I := index_tree_iterator fuel). set (L := index_tree_laws idx fuel Hlist).
  pose proof (index_iter_new_yields idx fuel Hlen) as Hy.
  destruct (listing_forest (create_pseudotree idx) (λ p, eq_refl) (std_iter idx) EMPTY [EMPTY] (std_iter idx))
    as (ns & Hns & _); [by left|by apply std_forest_block|].
  destruct (law_next (H := I) (TreeIterLaws := L) _ _ Hy) as (it1 & E1 & Hy1 & _). cbn [tail index_tree_listing] in Hy1.
  unfold build_tree. rewrite (st_bind_ok _ _ _ _ _ E1). cbn [head index_tree_listing unwrap].
  rewrite (st_bind_ok _ _ it1 it1 (create_pseudotree idx EMPTY)) by done.
  destruct (build_forest (H := I) (H0 := L) (tree_entries read_obj_tree) write_obj (idx_tree_cache idx)
    (create_pseudotree idx) (λ p, eq_refl) (λ p, eq_refl) (std_iter idx) write_reads
    (λ d Hd, tree_exists_cached idx d Hc Hd) EMPTY ns _ Hns [] fuel it1 [])
    as [(ks & Hks & E & _)|[Hno Ht]]; [by left|done|cbn in Hlen; lia|by rewrite app_nil_r| |right; by split].
  rewrite E. destruct (write_obj (mutable_tree_new ([] ++ ks))) as [oid|e|] eqn:Ew;
    [|right; split; [done|by eexists]..].
  left. exists oid. split; [done|]. destruct (forest_names _ _ _ _ _ Hns) as [Hn1 Hn2].
  pose proof (written_holds (tree_entries read_obj_tree) write_obj write_reads EMPTY ns _ ks oid
    (or_introl eq_refl) Hn1 Hn2 Hks Ew) as Hh.
  assert (files (index_listing (create_pseudotree idx) [EMPTY] (std_iter idx)) = files (std_iter idx)) as E2.
  { unfold files. rewrite filter_blob_listing, bool_filter_id; [done| |done|].
    - destruct Hf as (_ & _ & Hb & _). rewrite Forall_forall in Hb. intros x Hx. by apply Hb.
    - destruct Hf as (_ & _ & Hb & _). eapply Forall_impl; [exact Hb|]. by intros ? []. }
  by rewrite E2 in Hh.
Qed.

Lemma write_tree_ok W idx fuel :
  prefix_free W → clean W idx → files_only idx → cache_ok idx →
  length (index_tree_listing idx) < fuel →
  (∃ oid, holds_files (tree_entries read_obj_tree) oid EMPTY (files (std_iter idx))
     ∧ ∃ n, ∀ depth, n ≤ depth → ∃ idx',
         write_tree read_obj_tree write_obj fuel depth idx = (Ok oid, idx')
         ∧ idx_entries idx' = idx_entries idx ∧ cache_ok idx')
  ∨ (∃ o, not_ok o ∧ (∃ t, write_obj t = o)
     ∧ ∀ depth, write_tree read_obj_tree write_obj fuel depth idx = (o, idx)).
Proof.
  intros HW Hclean Hfo Hc Hlen. destruct (clean_files_ok W idx HW Hclean Hfo) as [Hf Hconf].
  unfold write_tree. rewrite Hconf.
  destruct (build_index_tree idx fuel Hf Hc Hlen) as [(oid & E & Hh)|[Hno Ht]].
  - left. exists oid. split; [done|].
    destruct (update_cache_tree_ok idx oid Hc) as (n & Hn); [|done|].
    { destruct Hf as (_ & _ & Hb & _). eapply Forall_impl; [exact Hb|]. by intros ? []. }
    exists n. intros depth Hd. destruct (Hn depth Hd) as (cache & idx' & Eu & -> & Hc').
    exists (mk_BitIndexInner (idx_entries idx) (Some cache) (idx_reuc idx)). split_and!; [|done|done].
    rewrite (st_bind_ok _ _ idx idx oid) by by rewrite E. by rewrite (st_bind_ok _ _ _ _ _ Eu).
  - right. eexists. split_and!; [exact Hno|done|]. intros depth.
    destruct (fst (build_tree _ _ _ _)) as [?|e|] eqn:E; [done|..].
    + by rewrite (st_bind_err _ _ idx idx e).
    + by rewrite (st_bind_panic _ _ idx idx).
Qed.

End write_tree_theorem.

(** ** The tree cache stays in agreement *)

Section cache_invariant.
Context (read_obj_tree : Oid → BitResult TreeObj).

Abbreviation std es := (filter (λ e, entry_is_gitlink e = false) (snd <$> (es : list (index_key * BitIndexEntry)))).

(** A path that is not below [d] leaves what is below [d] alone. *)
Definition not_below (d p : BitPath) : Prop := path_starts_with p d && negb (bool_decide (p = d)) = false.

Lemma std_cons k e es :
  std ((k, e) :: es) = (if decide (entry_is_gitlink e = false) then [e] else []) ++ std es.
Proof. cbn. unfold list_filter. by repeat case_decide. Qed.

Lemma below_cons d k e es :
  not_below d (ie_path e) → entries_below d (std ((k, e) :: es)) = entries_below d (std es).
Proof.
  intros Hn. rewrite std_cons. case_decide; [|done]. unfold entries_below. cbn.
  unfold within. unfold not_below in Hn. by rewrite Hn.
Qed.

Lemma below_cons_same d k k' e es es' :
  entries_below d (std es) = entries_below d (std es') →
  entries_below d (std ((k, e) :: es)) = entries_below d (std ((k', e) :: es')).
Proof. intros E. rewrite !std_cons, !entries_below_app. by rewrite E. Qed.

Lemma below_insert d k e es :
  Forall (λ kv, ie_path kv.2 = kv.1.1) es → ie_path e = k.1 → not_below d k.1 →
  entries_below d (std (bt_insert key_cmp k e es)) = entries_below d (std es).
Proof.
  intros Hes He Hn. rewrite <- He in Hn. induction Hes as [|[k' e'] es Hk' Hes IH]; [by apply below_cons|].
  cbn [bt_insert]. destruct (key_cmp k k') eqn:E.
  - apply (ord_eq key_cmp) in E as <-. cbn in Hk'. rewrite !below_cons; [done| |done].
    by rewrite Hk', <- He.
  - by apply below_cons.
  - by apply below_cons_same.
Qed.

Lemma below_filter d (P : index_key * BitIndexEntry → Prop) `{!∀ kv, Decision (P kv)} es :
  (∀ kv, kv ∈ es → ¬ P kv → not_below d (ie_path kv.2)) →
  entries_below d (std (filter P es)) = entries_below d (std es).
Proof.
  induction es as [|[k e] es IH]; intros Hn; [done|]. rewrite filter_cons. case_decide as HP.
  - apply below_cons_same, IH. intros kv Hkv. apply Hn. by right.
  - rewrite below_cons; [|by apply (Hn (k, e)); [left|]]. apply IH. intros kv Hkv. apply Hn. by right.
Qed.

(** Where the cache is still valid after [invalidate_path], the path does not lie below. *)
Lemma valid_after_invalidate cache p d child :
  norm_path p → rel_path d → find_valid_child (invalidate_path cache p) d = Some child →
  find_valid_child cache d = Some child ∧ not_below d p.
Proof.
  intros Hp Hd Hv. unfold find_valid_child, find_child, invalidate_path in *.
  rewrite find_invalidated in Hv. destruct (decide (components d `prefix_of` components p)) as [Hpre|Hpre].
  - exfalso. destruct (find_child_internal cache (components d)) as [n|]; cbn in Hv; [|done].
    destruct (0 <? tc_entry_count _)%Z eqn:E; [|done].
    by destruct (drop (length (components d)) (components p)).
  - split; [done|]. unfold not_below. destruct (path_starts_with p d) eqn:E; [|done]. exfalso.
    apply Hpre. unfold components. apply path_starts_with_prefix in E as [r ->].
    rewrite fmap_app. by eexists.
Qed.

Lemma cache_ok_touched idx es reuc p :
  cache_ok read_obj_tree idx → norm_path p →
  (∀ d, not_below d p → entries_below d (std es) = entries_below d (std_iter idx)) →
  cache_ok read_obj_tree
    (invalidate_tree_cache_path (mk_BitIndexInner es (idx_tree_cache idx) reuc) p).
Proof.
  intros Hc Hp Hes cache' E. cbn in E. apply fmap_Some in E as (cache & Ecache & ->).
  destruct (Hc cache Ecache) as (Hcons & Hpath & Hv). split_and!.
  - by apply consistent_invalidate.
  - unfold invalidate_path. by destruct (components p).
  - intros d child Hd Hchild. apply valid_after_invalidate in Hchild as [Hchild Hnb]; [|done..].
    change (std_iter (invalidate_tree_cache_path (mk_BitIndexInner es (idx_tree_cache idx) reuc) p)) with (std es).
    rewrite Hes by done. by apply Hv.
Qed.

Lemma index_wf_paths idx : index_wf idx → Forall (λ kv, ie_path kv.2 = kv.1.1) (idx_entries idx).
Proof.
  intros [_ Hk]. eapply Forall_impl; [exact Hk|]. intros kv (He & _). by apply entry_key_path in He as [-> _].
Qed.

Lemma insert_cache_ok idx e k idx' :
  index_wf idx → cache_ok read_obj_tree idx → entry_key e = Ok k → norm_path k.1 →
  insert_entry idx e = Ok idx' → cache_ok read_obj_tree idx'.
Proof.
  intros Hwf Hc He Hn Hi. unfold insert_entry in Hi. rewrite He in Hi. cbn in Hi. injection Hi as <-.
  pose proof (entry_key_path e k He) as [Hp _]. rewrite <- Hp.
  apply (cache_ok_touched idx); [done|done|]. intros d Hd. unfold std_iter.
  apply below_insert; [by apply index_wf_paths|done|done].
Qed.

Lemma remove_cache_ok idx key :
  index_wf idx → cache_ok read_obj_tree idx → cache_ok read_obj_tree (remove_entry idx key).
Proof.
  intros Hwf Hc. pose proof (remove_entry_entries idx key (proj1 Hwf)) as E. unfold remove_entry in *.
  case_bool_decide as Hex; cbn in E.
  - destruct Hex as [e Hex]. apply (bt_get_Some key_cmp) in Hex; [|by destruct Hwf].
    destruct Hwf as [Hs Hk]. pose proof Hk as Hk'. rewrite Forall_forall in Hk'.
    destruct (Hk' _ Hex) as (_ & _ & Hn).
    apply (cache_ok_touched idx); [done|done|]. intros d Hd. rewrite E. apply below_filter.
    intros kv Hkv Hkey. destruct (decide (kv.1 = key)) as [Ek|]; [|by exfalso; apply Hkey].
    destruct (Hk' _ Hkv) as (Hkk & _ & _). apply entry_key_path in Hkk as [Hp _].
    by rewrite <- Hp, Ek.
  - enough (bt_remove key_cmp key (idx_entries idx) = idx_entries idx) as E'.
    { unfold set_entries. rewrite E'. by destruct idx. }
    rewrite E. apply filter_all. intros kv Hkv Hkey. apply Hex. exists kv.2.
    apply (bt_get_Some key_cmp); [by destruct Hwf|]. rewrite <- Hkey. by destruct kv.
Qed.
End cache_invariant.

(** The life of an index: entries are inserted and removed (every other operation that changes
    entries is made of these two), and trees are written from it (with enough depth to read the
    tree back) when it has only files, none of them in the place of a directory, and no conflicts; an
    index with conflicts refuses. *)
Inductive index_reachable (read_obj_tree : Oid → BitResult TreeObj) (write_obj : MutableTree → BitResult Oid)
    : BitIndexInner → Prop :=
| reach_empty reuc : index_reachable read_obj_tree write_obj (mk_BitIndexInner [] None reuc)
| reach_insert idx e k idx' :
    index_reachable read_obj_tree write_obj idx →
    entry_key e = Ok k → index_entry_wf e → norm_path k.1 → insert_entry idx e = Ok idx' →
    index_reachable read_obj_tree write_obj idx'
| reach_remove idx key :
    index_reachable read_obj_tree write_obj idx →
    index_reachable read_obj_tree write_obj (remove_entry idx key)
| reach_write W idx fuel oid idx' n :
    index_reachable read_obj_tree write_obj idx →
    prefix_free W → clean W idx → files_only idx → length (index_tree_listing idx) < fuel →
    (∀ depth, n ≤ depth → write_tree read_obj_tree write_obj fuel depth idx = (Ok oid, idx')) →
    index_reachable read_obj_tree write_obj idx'
| reach_conflicted idx fuel depth r idx' :
    index_reachable read_obj_tree write_obj idx → has_conflicts idx = true →
    write_tree read_obj_tree write_obj fuel depth idx = (r, idx') →
    index_reachable read_obj_tree write_obj idx'.

Lemma reachable_write read_obj_tree write_obj W idx fuel oid idx' n :
  store_ok read_obj_tree →
  (∀ t oid, write_obj t = Ok oid →
     is_known oid = true ∧ tree_entries read_obj_tree oid = Ok (mt_entries t)) →
  prefix_free W → clean W idx → files_only idx → cache_ok read_obj_tree idx →
  length (index_tree_listing idx) < fuel →
  (∀ depth, n ≤ depth → write_tree read_obj_tree write_obj fuel depth idx = (Ok oid, idx')) →
  index_wf idx' ∧ cache_ok read_obj_tree idx'.
Proof.
  intros Hs Hw HW Hc Hf Hcache Hlen Hrun.
  destruct (clean_files_ok W idx HW Hc Hf) as [Hfiles Hconf].
  pose proof (Hrun n ltac:(lia)) as Hn. unfold write_tree in Hn. rewrite Hconf in Hn.
  destruct (build_index_tree read_obj_tree write_obj Hw idx fuel Hfiles Hcache Hlen)
    as [(oid1 & E & Hh)|[Hno _]].
  2: { exfalso. destruct (fst (build_tree _ _ _ _)) as [?|e|] eqn:E; [done|..].
    - by rewrite (st_bind_err _ _ idx idx e) in Hn.
    - by rewrite (st_bind_panic _ _ idx idx) in Hn. }
  destruct (update_cache_tree_ok read_obj_tree Hs idx oid1 Hcache) as (m & Hm); [|done|].
  { destruct Hfiles as (_ & _ & Hb & _). eapply Forall_impl; [exact Hb|]. by intros ? []. }
  destruct (Hm (Nat.max n m) ltac:(lia)) as (cache & idx1 & Eu & -> & Hc1).
  specialize (Hrun (Nat.max n m) ltac:(lia)). unfold write_tree in Hrun. rewrite Hconf in Hrun.
  rewrite (st_bind_ok _ _ idx idx oid1) in Hrun by by rewrite E.
  rewrite (st_bind_ok _ _ _ _ _ Eu) in Hrun. injection Hrun as <- <-. split; [|done].
  destruct Hc as [Hwf _]. exact Hwf.
Qed.

(** C7: The invariant of the index and its tree cache: however entries have been inserted and
    removed, and trees been written whenever the index had only plain files, no path both as a file and as a
    directory and no conflicts, the index is well formed, every valid node of its tree cache
    counts the entries of its directory, and the stored tree of the node holds exactly these
    entries; what [write_tree] and the iterator over the index take from the cache is right.  It needs
    that a tree that has been written can be read back. *)
Theorem index_cache_invariant read_obj_tree write_obj idx :
  store_ok read_obj_tree →
  (∀ t oid, write_obj t = Ok oid →
     is_known oid = true ∧ tree_entries read_obj_tree oid = Ok (mt_entries t)) →
  index_reachable read_obj_tree write_obj idx → index_wf idx ∧ cache_ok read_obj_tree idx.
Proof.
  intros Hs Hw. induction 1 as [reuc|idx e k idx' _ [IH1 IH2] Hk He Hn Hi|idx key _ [IH1 IH2]
    |W idx fuel oid idx' n _ [IH1 IH2] HW Hc Hf Hlen Hrun|idx fuel depth r idx' _ IH Hc Hrun].
  - split; [|done]. split; [apply SSorted_nil|apply Forall_nil_2].
  - destruct (insert_entry_ok idx e k IH1 Hk He Hn) as (idx1 & E & Hwf & _).
    rewrite E in Hi. injection Hi as <-. split; [done|]. by apply (insert_cache_ok read_obj_tree idx e k idx1).
  - split; [|by apply remove_cache_ok].
    eapply index_wf_filter; [exact IH1|]. by apply remove_entry_entries; destruct IH1.
  - by eapply reachable_write.
  - unfold write_tree in Hrun. rewrite Hc in Hrun. by injection Hrun as <- <-.
Qed.

(** *** An index with a directory *)

Definition tree_paths : list BitPath := [bs "a"; bs "d/b"].
Definition tree_index : BitIndexInner := plain_index tree_paths.
Definition tree_dir : TreeObj := mk_TreeObj (replicate 20 x02) [mk_TreeEntry REG (bs "b") EMPTY_BLOB].
Definition tree_root : TreeObj := mk_TreeObj (replicate 20 x01)
  [mk_TreeEntry REG (bs "a") EMPTY_BLOB; mk_TreeEntry TREE (bs "d") (replicate 20 x02)].

Definition tree_store (oid : Oid) : BitResult TreeObj :=
  if bool_decide (oid = replicate 20 x01) then Ok tree_root
  else if bool_decide (oid = replicate 20 x02) then Ok tree_dir else Err Anyhow.

Definition tree_write (t : MutableTree) : BitResult Oid :=
  if bool_decide (mt_entries t = t_entries tree_root) then Ok (replicate 20 x01)
  else if bool_decide (mt_entries t = t_entries tree_dir) then Ok (replicate 20 x02) else Err Anyhow.

Lemma tree_store_ok : store_ok tree_store.
Proof.
  split; intros oid t; unfold tree_store; repeat case_bool_decide; intros [= <-]; subst;
    try reflexivity; vm_decide.
Qed.

Lemma tree_write_reads t oid :
  tree_write t = Ok oid → is_known oid = true ∧ tree_entries tree_store oid = Ok (mt_entries t).
Proof.
  unfold tree_write. case_bool_decide as E1; [|case_bool_decide as E2; [|done]]; intros [= <-];
    rewrite ?E1, ?E2; by split; vm_compute.
Qed.

Lemma tree_index_clean : clean tree_paths tree_index.
Proof.
  split; [split|].
  - unfold bt_sorted. vm_compute. repeat constructor.
  - repeat (apply Forall_cons; split; [split; [reflexivity|split; [split_and!; vm_decide|vm_decide]]|]).
    apply Forall_nil. done.
  - intros kv Hkv. unfold tree_index, plain_index in Hkv. cbn [idx_entries] in Hkv.
    apply list_elem_of_fmap in Hkv as (p & -> & Hp). done.
Qed.

Lemma tree_prefix_free : prefix_free tree_paths.
Proof. apply sample_prefix_free. vm_compute. reflexivity. Qed.


(** Two files are added and a tree is written, which fills the cache; one file is replaced, which makes
    the root of the cache invalid but not its directory, and a tree is written again. *)
Definition written_index : BitIndexInner := snd (write_tree tree_store tree_write 10 10 tree_index).
Definition replaced_index : BitIndexInner :=
  match insert_entry (remove_entry written_index (bs "a", NONE)) (plain_entry (bs "a")) with Ok idx => idx | _ => tree_index end.
Definition rewritten_index : BitIndexInner := snd (write_tree tree_store tree_write 10 10 replaced_index).

Lemma writes_tree idx depth : idx = tree_index ∨ idx = replaced_index → 10 ≤ depth →
  write_tree tree_store tree_write 10 depth idx
  = (Ok (replicate 20 x01), snd (write_tree tree_store tree_write 10 10 idx)).
Proof. intros Hidx Hd. do 10 (destruct depth as [|depth]; [lia|]). destruct Hidx as [->| ->]; vm_compute; reflexivity. Qed.

Lemma tree_files_only : files_only tree_index.
Proof. unfold files_only. vm_compute. repeat constructor. Qed.

Lemma replaced_entries : idx_entries replaced_index = idx_entries tree_index.
Proof. vm_compute. reflexivity. Qed.

Lemma index_cache_invariant_witness :
  tc_entry_count <$> valid_child written_index EMPTY = Some 2%Z
  ∧ valid_child replaced_index EMPTY = None ∧ tc_entry_count <$> valid_child replaced_index (bs "d") = Some 1%Z
  ∧ index_wf rewritten_index ∧ cache_ok tree_store rewritten_index
  ∧ ∃ child, valid_child rewritten_index (bs "d") = Some child ∧ tc_entry_count child = 1%Z
    ∧ holds_files (tree_entries tree_store) (tc_tree_oid child) (bs "d") [mk_TreeEntry REG (bs "d/b") EMPTY_BLOB].
Proof.
  destruct (index_cache_invariant tree_store tree_write rewritten_index tree_store_ok tree_write_reads) as [Hwf Hc].
  { eapply (reach_write _ _ tree_paths replaced_index 10 (replicate 20 x01) _ 10);
      [|apply tree_prefix_free|split|red; rewrite replaced_entries; apply tree_files_only|vm_compute; lia
      |intros depth Hd; apply writes_tree; [by right|done]].
    2: { red. rewrite replaced_entries. apply tree_index_clean. }
    2: { rewrite replaced_entries. apply tree_index_clean. }
    apply (reach_insert _ _ (remove_entry written_index (bs "a", NONE)) (plain_entry (bs "a")) (bs "a", NONE));
      [apply reach_remove|reflexivity|split_and!; vm_decide|vm_decide|vm_compute; reflexivity].
    eapply (reach_write _ _ tree_paths tree_index 10 (replicate 20 x01) _ 10);
      [|apply tree_prefix_free|apply tree_index_clean|apply tree_files_only|vm_compute; lia
      |intros depth Hd; apply writes_tree; [by left|done]].
    apply (reach_insert _ _ (plain_index [bs "a"]) (plain_entry (bs "d/b")) (bs "d/b", NONE));
      [|reflexivity|split_and!; vm_decide|vm_decide|reflexivity].
    apply (reach_insert _ _ (plain_index []) (plain_entry (bs "a")) (bs "a", NONE));
      [|reflexivity|split_and!; vm_decide|vm_decide|reflexivity].
    apply reach_empty. }
  split_and!; [vm_compute; reflexivity|vm_compute; reflexivity|vm_compute; reflexivity|exact Hwf|exact Hc|].
  destruct (valid_child rewritten_index (bs "d")) as [child|] eqn:E; [|vm_compute in E; discriminate E].
  destruct (cache_ok_valid tree_store rewritten_index (bs "d") child Hc ltac:(vm_decide) E) as [H1 H2].
  exists child. split; [reflexivity|]. split; [exact H1|exact H2].
Defined.
