(* ===== verification/WorktreeIter.v ===== *)
(** * WorktreeIter

    The iterators over the files of the worktree: [WorktreeRawIter] and [WorktreeIter] of
    [libbit/src/iter.rs] and [WorktreeTreeIter] of [libbit/src/iter/worktree_tree_iter.rs].  The
    crate [jwalk], which walks the directories, is the list of the results that it has still to
    give, and the crate [ignore] a parameter.  A path is relative to the root of the repository. *)

From Stdlib Require Import ZArith Lia.
From Stdlib Require Import Strings.Byte.
From stdpp Require Import base tactics option list countable strings sorting.
From S2P Require Import Prelude RustStd Data State Hash Path BTree Obj Tree IndexEntry TreeCache Index TreeIter TreeDiff.

Record DirEntry := mk_DirEntry { de_is_dir : bool; de_path : BitPath }.

(** ** Reading a directory *)

(** The closure of [sort_by]. *)
Definition children_cmp (a b : BitResult DirEntry) : comparison :=
  match a, b with
  | Ok a, Ok b => path_cmp_explicit (de_path a) (de_is_dir a) (de_path b) (de_is_dir b)
  | Ok _, _ => Lt
  | _, Ok _ => Gt
  | _, _ => Eq
  end.

Definition children_le (a b : BitResult DirEntry) : Prop := children_cmp a b ≠ Gt.

#[export] Instance children_le_dec a b : Decision (children_le a b).
Proof. unfold children_le. apply _. Defined.

(** The closure of [process_read_dir]: the children of a directory without [.git], sorted. *)
Definition process_read_dir (children : list (BitResult DirEntry)) : list (BitResult DirEntry) :=
  merge_sort children_le
    (List.filter (λ entry, match entry with
                           | Ok entry => negb (bool_decide (file_name (de_path entry) = bs ".git"))
                           | _ => true
                           end) children).

Section iterators.
Context {Gitignore : Type}.
(** [Gitignore::matched_path_or_any_parents(path, is_dir).is_ignore()]. *)
Context (is_ignore : Gitignore → BitPath → bool → bool).
(** What the operating system reports for a path. *)
Context (stat : BitPath → BitResult Metadata).

(** ** WorktreeRawIter *)

Record WorktreeRawIter := mk_WorktreeRawIter {
  tracked : list BitPath;
  ignore : list Gitignore;
  jwalk : list (BitResult DirEntry);
}.

(** [WorktreeRawIter::new] of an index, the root's [.gitignore] and a walk of the worktree. *)
Definition worktree_raw_new (index : BitIndexInner) (gitignore : Gitignore)
    (walk : list (BitResult DirEntry)) : WorktreeRawIter :=
  mk_WorktreeRawIter ((λ kv, kv.1.1) <$> idx_entries index) [gitignore] walk.

Definition is_ignored (it : WorktreeRawIter) (entry : DirEntry) : bool :=
  if bool_decide (de_path entry ∈ tracked it) then false
  else existsb (λ g, is_ignore g (de_path entry) (de_is_dir entry)) (ignore it).

Definition set_jwalk (it : WorktreeRawIter) (walk : list (BitResult DirEntry)) : WorktreeRawIter :=
  mk_WorktreeRawIter (tracked it) (ignore it) walk.

(** The loop of [WorktreeRawIter::next] on what the walk has left. *)
Fixpoint raw_next_in (it : WorktreeRawIter) (walk : list (BitResult DirEntry))
    : BitResult (option DirEntry) * WorktreeRawIter :=
  match walk with
  | [] => (Ok None, set_jwalk it [])
  | Ok entry :: walk =>
      if is_ignored it entry then raw_next_in it walk else (Ok (Some entry), set_jwalk it walk)
  | Err e :: walk => (Err e, set_jwalk it walk)
  | Panic :: walk => (Panic, set_jwalk it walk)
  end.

Definition raw_next : st WorktreeRawIter (option DirEntry) := λ it, raw_next_in it (jwalk it).

(** [BitIndexEntry::from_absolute_path]. *)
Definition from_absolute_path (p : BitPath) : BitResult BitIndexEntry :=
  md ← stat p;
  Ok (index_entry_new md p).

(** ** WorktreeIter *)

Fixpoint worktree_iter_next (fuel : nat) : st WorktreeRawIter (option BitIndexEntry) :=
  match fuel with
  | O => st_lift Panic
  | S fuel =>
      entry ← raw_next;
      match entry with
      | None => mret None
      | Some entry =>
          if de_is_dir entry then worktree_iter_next fuel
          else e ← st_lift (from_absolute_path (de_path entry)); mret (Some e)
      end
  end.

(** [collect]. *)
Fixpoint worktree_iter_collect (fuel : nat) (acc : list BitIndexEntry)
    : st WorktreeRawIter (list BitIndexEntry) :=
  match fuel with
  | O => st_lift Panic
  | S n =>
      next ← worktree_iter_next fuel;
      match next with
      | Some entry => worktree_iter_collect n (acc ++ [entry])
      | None => mret acc
      end
  end.

(** ** WorktreeTreeIter *)

Record WorktreeTreeIter := mk_WorktreeTreeIter {
  wti_inner : WorktreeRawIter; wti_peeked : option BitIndexEntry }.

Definition worktree_tree_iter_new (inner : WorktreeRawIter) : WorktreeTreeIter :=
  mk_WorktreeTreeIter inner None.

(** The entry of a file of the walk, or of a directory. *)
Definition worktree_entry (entry : DirEntry) : BitResult BitIndexEntry :=
  if de_is_dir entry then
    Ok (index_entry_from_tree_entry (mk_TreeEntry TREE (de_path entry) UNKNOWN))
  else from_absolute_path (de_path entry).

Definition worktree_tree_next : st WorktreeTreeIter (option BitIndexEntry) := λ it,
  match wti_peeked it with
  | Some peeked => (Ok (Some peeked), mk_WorktreeTreeIter (wti_inner it) None)
  | None =>
      (entry ← st_zoom wti_inner (λ it inner, mk_WorktreeTreeIter inner (wti_peeked it)) raw_next;
       match entry with
       | Some entry => e ← st_lift (worktree_entry entry); mret (Some e)
       | None => mret None
       end) it
  end.

Definition worktree_tree_peek : st WorktreeTreeIter (option BitIndexEntry) :=
  it ← st_get;
  match wti_peeked it with
  | Some peeked => mret (Some peeked)
  | None =>
      next ← worktree_tree_next;
      it ← st_get;
      _ ← st_put (mk_WorktreeTreeIter (wti_inner it) next);
      mret next
  end.

(** The iterator with its method [over]. *)
Definition worktree_tree_iterator_with (over : st WorktreeTreeIter (option BitIndexEntry))
    : BitTreeIterator WorktreeTreeIter := {|
  it_kind _ := KWorktree;
  it_next := worktree_tree_next;
  it_over := over;
  it_peek := worktree_tree_peek;
|}.

(** The result of [m] as a value. *)
Definition st_try {S A} (m : st S A) : st S (BitResult A) :=
  st_match m (λ a, mret (Ok a)) (λ e, mret (Err e)).

Lemma st_try_ok {S A} (m : st S A) s s' a : m s = (Ok a, s') → st_try m s = (Ok (Ok a), s').
Proof. unfold st_try, st_match. by intros ->. Qed.

(** [over]: the consumer's iterator calls [next] and [peek] only. *)
Definition worktree_tree_over (fuel : nat) : st WorktreeTreeIter (option BitIndexEntry) :=
  let H := worktree_tree_iterator_with (st_lift Panic) in
  tree_entry ← with_subtree (H := H) fuel (
    tree_entry ← st_try (collect_subtree_step (H := H) worktree_tree_next);
    _ ← iter_collect (H := collect_subtree_iterator (H := H)) fuel [];
    mret tree_entry);
  st_lift tree_entry.

Definition worktree_tree_iterator (fuel : nat) : BitTreeIterator WorktreeTreeIter :=
  worktree_tree_iterator_with (worktree_tree_over fuel).
End iterators.

(** ** The iterators as cursors *)

Section laws.
Context {Gitignore : Type} (is_ignore : Gitignore → BitPath → bool → bool).
Context (stat : BitPath → BitResult Metadata).

Abbreviation raw_iter := (WorktreeRawIter (Gitignore := Gitignore)).
Abbreviation tree_iter := (WorktreeTreeIter (Gitignore := Gitignore)).
Abbreviation raw_next := (raw_next is_ignore).
Abbreviation next := (worktree_tree_next is_ignore stat).
Abbreviation peek := (worktree_tree_peek is_ignore stat).

(** The entries of what a walk has left, without what is ignored. *)
Fixpoint worktree_listing (it : raw_iter) (walk : list (BitResult DirEntry)) : BitResult (list BitIndexEntry) :=
  match walk with
  | [] => Ok []
  | Ok entry :: walk =>
      if is_ignored is_ignore it entry then worktree_listing it walk
      else e ← worktree_entry stat entry; l ← worktree_listing it walk; Ok (e :: l)
  | Err e :: _ => Err e
  | Panic :: _ => Panic
  end.

Definition raw_yields (it : raw_iter) (l : list BitIndexEntry) : Prop :=
  worktree_listing it (jwalk it) = Ok l.

Lemma worktree_listing_set it walk w : worktree_listing (set_jwalk it walk) w = worktree_listing it w.
Proof. induction w as [|[entry|e|] w IH]; cbn [worktree_listing]; try done. by rewrite IH. Qed.

Lemma raw_next_yields it l :
  raw_yields it l →
  ∃ it', match l with
         | [] => raw_next it = (Ok None, it') ∧ raw_yields it' []
         | e :: l => ∃ entry, raw_next it = (Ok (Some entry), it')
             ∧ worktree_entry stat entry = Ok e ∧ raw_yields it' l
         end.
Proof.
  unfold raw_yields, WorktreeIter.raw_next. generalize (jwalk it). intros walk. revert l.
  induction walk as [|[entry|e|] walk IH]; intros l; cbn [worktree_listing raw_next_in]; try done.
  - intros [= <-]. by exists (set_jwalk it []).
  - destruct (is_ignored is_ignore it entry); [apply IH|].
    destruct (worktree_entry stat entry) as [e| |] eqn:Ee; try done.
    destruct (worktree_listing it walk) as [l'| |] eqn:El; try done.
    intros [= <-]. exists (set_jwalk it walk), entry. split_and!; [done|done|]. rewrite <- El.
    apply worktree_listing_set.
Qed.

Definition tree_iter_yields (it : tree_iter) (l : list BitIndexEntry) : Prop :=
  ∃ r, raw_yields (wti_inner it) r ∧ l = option_list (wti_peeked it) ++ r.

Lemma worktree_next_yields it l :
  tree_iter_yields it l → ∃ it', next it = (Ok (head l), it') ∧ tree_iter_yields it' (tail l).
Proof.
  intros (r & Hr & ->). unfold worktree_tree_next. destruct (wti_peeked it) as [e|] eqn:Ep; cbn [option_list].
  - eexists. split; [done|]. by exists r.
  - destruct (raw_next_yields _ r Hr) as (raw & Hn). cbn [app]. destruct r as [|e r].
    + destruct Hn as [En Hy]. exists (mk_WorktreeTreeIter raw None). split; [|by exists []].
      rewrite (st_bind_ok _ _ _ (mk_WorktreeTreeIter raw None) None); [done|].
      unfold st_zoom. by rewrite En, Ep.
    + destruct Hn as (entry & En & Ee & Hy). exists (mk_WorktreeTreeIter raw None). split; [|by exists r].
      rewrite (st_bind_ok _ _ _ (mk_WorktreeTreeIter raw None) (Some entry)).
      * by rewrite Ee.
      * unfold st_zoom. by rewrite En, Ep.
Qed.

Lemma worktree_peek_yields it l :
  tree_iter_yields it l → ∃ it', peek it = (Ok (head l), it') ∧ tree_iter_yields it' l.
Proof.
  intros Hy. unfold worktree_tree_peek. rewrite st_get_bind. destruct (wti_peeked it) as [e|] eqn:Ep.
  - exists it. split; [|done]. destruct Hy as (r & _ & ->). by rewrite Ep.
  - destruct (worktree_next_yields it l Hy) as (it1 & E1 & Hy1). rewrite (st_bind_ok _ _ _ _ _ E1).
    rewrite st_get_bind, st_put_bind. eexists. split; [done|].
    assert (wti_peeked it1 = None) as Ep1.
    { clear - E1 Ep. unfold worktree_tree_next in E1. rewrite Ep in E1.
      unfold mbind, st_bind, st_zoom, mret, st_ret, st_lift in E1.
      repeat case_match; by simplify_eq. }
    destruct Hy1 as (r & Hr & Er). rewrite Ep1 in Er. cbn in Er. exists r. split; [done|].
    cbn. destruct l as [|e l]; cbn in *; [|by subst].
    by destruct Hy as (? & ? & ?).
Qed.

(** *** [over] *)

(** Steps while the next entry lies below [p]. *)
Fixpoint skip_within (n : nat) (p : BitPath) : st tree_iter unit :=
  match n with
  | O => st_lift Panic
  | S n =>
      e ← peek;
      match e with
      | Some e => if within p e then _ ← next; skip_within n p else mret tt
      | None => mret tt
      end
  end.

Lemma skip_within_spec n p it l :
  tree_iter_yields it l → length l < n →
  ∃ it', skip_within n p it = (Ok tt, it') ∧ tree_iter_yields it' (drop_within p l).
Proof.
  revert it l. induction n as [|n IH]; intros it l Hy Hn; [lia|]. cbn [skip_within].
  destruct (worktree_peek_yields it l Hy) as (it1 & E1 & Hy1). rewrite (st_bind_ok _ _ _ _ _ E1).
  destruct l as [|e l]; cbn [head drop_within]; [by exists it1|].
  destruct (within p e); [|by exists it1].
  destruct (worktree_next_yields it1 _ Hy1) as (it2 & E2 & Hy2). rewrite (st_bind_ok _ _ _ _ _ E2).
  apply IH; [done|cbn in Hn; lia].
Qed.

Context (fuel : nat).

(** [over] as a loop. *)
Definition over_by_steps : st tree_iter (option BitIndexEntry) :=
  e ← next;
  match e with
  | Some e => if entry_is_tree e then _ ← skip_within fuel (ie_path e); mret (Some e) else mret (Some e)
  | None => mret None
  end.

Definition yields_within (it : tree_iter) (l : list BitIndexEntry) : Prop :=
  tree_iter_yields it l ∧ length l < fuel.

Program Definition stepping_laws : @TreeIterLaws tree_iter (worktree_tree_iterator_with is_ignore stat over_by_steps) :=
  @Build_TreeIterLaws tree_iter (worktree_tree_iterator_with is_ignore stat over_by_steps)
    yields_within yields_within _ _ _ _.
Next Obligation. done. Qed.
Next Obligation.
  intros it l [Hy Hl]. destruct (worktree_peek_yields it l Hy) as (it' & E & Hy'). by exists it'.
Qed.
Next Obligation.
  intros it l [Hy Hl]. destruct (worktree_next_yields it l Hy) as (it' & E & Hy'). exists it'.
  split_and!; [done| |done]. split; [done|]. destruct l; cbn in *; lia.
Qed.
Next Obligation.
  intros it [|e l] [Hy Hl]; [done|]. intros Ht. cbn in Ht |- *. rewrite Ht. cbn in Hl.
  destruct (worktree_next_yields it _ Hy) as (it1 & E1 & Hy1). cbn [tail] in Hy1.
  destruct (skip_within_spec fuel (ie_path e) it1 l Hy1) as (it2 & E2 & Hy2); [lia|].
  exists it2. unfold over_by_steps. rewrite (st_bind_ok _ _ _ _ _ E1). cbn [head].
  rewrite Ht, (st_bind_ok _ _ _ _ _ E2). split_and!; [done| |done]. split; [done|].
  pose proof (length_drop_within (ie_path e) l). lia.
Qed.

#[export] Program Instance worktree_tree_laws : @TreeIterLaws tree_iter (worktree_tree_iterator is_ignore stat fuel) :=
  @Build_TreeIterLaws tree_iter (worktree_tree_iterator is_ignore stat fuel)
    yields_within yields_within _ _ _ _.
Next Obligation. done. Qed.
Next Obligation. apply (law_peek (TreeIterLaws := stepping_laws)). Qed.
Next Obligation. apply (law_next (TreeIterLaws := stepping_laws)). Qed.
Next Obligation.
  intros it [|t l] Hp Ht; [done|]. cbn in Ht.
  set (H := worktree_tree_iterator_with is_ignore stat over_by_steps).
  set (te := tree_entry_from_index_entry t). set (r := drop_within (ie_path t) l).
  destruct (collect_over_tree_iter_spec (H0 := stepping_laws) it t l Hp Ht) as (it1 & E1 & _ & _ & Hcs).
  destruct (law_next (TreeIterLaws := collect_subtree_laws (H0 := stepping_laws) te r) _ _ Hcs)
    as ([te2 it2] & E2 & Hcs2 & _). cbn [head tail] in E2, Hcs2.
  pose proof Hcs2 as (_ & Hte & _). cbn in Hte. subst te2.
  assert (length (take_within (ie_path t) l) < fuel) as Hlen.
  { destruct Hp as [_ Hl]. cbn in Hl. rewrite <- (take_drop_within (ie_path t) l), length_app in Hl. lia. }
  destruct (iter_collect_spec (H0 := collect_subtree_laws (H0 := stepping_laws) te r) fuel [] _ _ Hcs2 Hlen)
    as ([te3 it3] & E3 & Hcs3 & _). pose proof Hcs3 as (_ & Hte & _). cbn in Hte. subst te3.
  destruct (subtree_drop_spec (H0 := stepping_laws) fuel te r it3 [] Hcs3) as (it4 & E4 & Hy4 & _); [cbn; lia|].
  exists it4. split_and!; [|cbn; rewrite Ht; exact Hy4|done].
  change (it_over it) with (worktree_tree_over is_ignore stat fuel it).
  unfold worktree_tree_over, with_subtree.
  rewrite (st_bind_ok _ _ it it4 (Ok (Some t))); [done|].
  rewrite (st_bind_ok _ _ _ _ _ E1), (st_bind_ok _ _ it1 it3 (Ok (Some t))).
  - by rewrite (st_bind_ok _ _ _ _ _ E4).
  - unfold on_subtree. rewrite (st_bind_ok _ _ _ (mk_CollectSubtree te it2) (Ok (Some t))).
    + by rewrite (st_bind_ok _ _ _ _ _ E3).
    + apply (st_try_ok _ _ _ _ E2).
Qed.

Lemma worktree_tree_iter_new_yields raw l :
  raw_yields raw l → length l < fuel → yields (worktree_tree_iter_new raw) l.
Proof. intros Hr Hl. split; [by exists l|done]. Qed.

(** *** The iterator over files *)

(** The walk and [stat] agree on what is a directory. *)
Definition walk_agrees (walk : list (BitResult DirEntry)) : Prop :=
  ∀ entry md, Ok entry ∈ walk → de_is_dir entry = false → stat (de_path entry) = Ok md →
    md_is_symlink md = true ∨ md_is_dir md = false.

Lemma worktree_entry_blob walk entry e :
  walk_agrees walk → Ok entry ∈ walk → worktree_entry stat entry = Ok e →
  entry_is_blob e = negb (de_is_dir entry) ∧ ie_path e = de_path entry.
Proof.
  intros Hw Hin. unfold worktree_entry, from_absolute_path. destruct (de_is_dir entry) eqn:Ed.
  - intros [= <-]. done.
  - destruct (stat (de_path entry)) as [md| |] eqn:Em; try done. intros [= <-]. split; [|done].
    unfold entry_is_blob. cbn. unfold filemode_from_metadata.
    destruct (Hw entry md Hin Ed Em) as [-> | ->]; [done|]. by repeat case_match.
Qed.

Lemma raw_next_walk it entry it' :
  raw_next it = (Ok (Some entry), it') → Ok entry ∈ jwalk it ∧ length (jwalk it') < length (jwalk it)
    ∧ ∀ x, x ∈ jwalk it' → x ∈ jwalk it.
Proof.
  unfold WorktreeIter.raw_next. generalize (jwalk it). intros walk.
  induction walk as [|[x|e|] walk IH]; cbn [raw_next_in length]; try done.
  destruct (is_ignored is_ignore it x).
  - intros (? & ? & ?)%IH. split_and!; [by right|lia|by intros; right; auto].
  - intros [= -> <-]. cbn. split_and!; [by left|lia|by intros; right].
Qed.

Lemma worktree_iter_next_spec n it l :
  raw_yields it l → walk_agrees (jwalk it) → length (jwalk it) < n →
  ∃ it' l', worktree_iter_next is_ignore stat n it = (Ok (head (List.filter entry_is_blob l)), it')
    ∧ raw_yields it' l' ∧ List.filter entry_is_blob l' = tail (List.filter entry_is_blob l)
    ∧ walk_agrees (jwalk it') ∧ (List.filter entry_is_blob l ≠ [] → length (jwalk it') < length (jwalk it)).
Proof.
  revert it l. induction n as [|n IH]; intros it l Hy Hw Hn; [lia|]. cbn [worktree_iter_next].
  destruct (raw_next_yields it l Hy) as (it1 & H1). destruct l as [|e l].
  - destruct H1 as [E1 Hy1]. exists it1, []. rewrite (st_bind_ok _ _ _ _ _ E1). split_and!; try done.
    assert (jwalk it1 = []) as ->; [|by intros ?? ?%elem_of_nil].
    clear - E1. unfold WorktreeIter.raw_next in E1. revert E1. generalize (jwalk it). intros walk.
    induction walk as [|[x|e|] walk IH]; cbn [raw_next_in]; try done; [by intros [= <-]|].
    by destruct (is_ignored is_ignore it x).
  - destruct H1 as (entry & E1 & Ee & Hy1). rewrite (st_bind_ok _ _ _ _ _ E1).
    destruct (raw_next_walk _ _ _ E1) as (Hin & Hlen & Hsub).
    destruct (worktree_entry_blob _ _ _ Hw Hin Ee) as [Hb _].
    assert (walk_agrees (jwalk it1)) as Hw1 by by intros x md Hx; apply Hw, Hsub.
    cbn [List.filter]. rewrite Hb. destruct (de_is_dir entry) eqn:Ed; cbn [negb].
    + destruct (IH it1 l Hy1 Hw1) as (it2 & l' & E2 & Hy2 & Hl2 & Hw2 & Hlen2); [lia|].
      exists it2, l'. split_and!; try done. intros Hne%Hlen2. lia.
    + exists it1, l. unfold worktree_entry in Ee. rewrite Ed in Ee. rewrite Ee. by split_and!.
Qed.

Lemma worktree_iter_collect_spec n acc it l :
  raw_yields it l → walk_agrees (jwalk it) → length (jwalk it) < n →
  ∃ it', worktree_iter_collect is_ignore stat n acc it = (Ok (acc ++ List.filter entry_is_blob l), it').
Proof.
  revert acc it l. induction n as [|n IH]; intros acc it l Hy Hw Hn; [lia|]. cbn [worktree_iter_collect].
  destruct (worktree_iter_next_spec (S n) it l Hy Hw Hn) as (it1 & l1 & E1 & Hy1 & Hl1 & Hw1 & Hlen).
  rewrite (st_bind_ok _ _ _ _ _ E1). destruct (List.filter entry_is_blob l) as [|e es] eqn:El; cbn [head tail] in *.
  - exists it1. by rewrite app_nil_r.
  - specialize (Hlen ltac:(done)). destruct (IH (acc ++ [e]) it1 l1 Hy1 Hw1) as (it2 & E2); [lia|].
    exists it2. by rewrite E2, Hl1, <- app_assoc.
Qed.

Definition kept (it : raw_iter) (entry : DirEntry) : Prop :=
  de_path entry ∈ tracked it ∨ ∀ g, g ∈ ignore it → is_ignore g (de_path entry) (de_is_dir entry) = false.

Lemma is_ignored_kept it entry : is_ignored is_ignore it entry = false ↔ kept it entry.
Proof.
  unfold is_ignored, kept. case_bool_decide as Ht; [naive_solver|].
  rewrite <- not_true_iff_false, List.existsb_exists. split.
  - intros Hn. right. intros g Hg. destruct (is_ignore g _ _) eqn:E; [|done].
    destruct Hn. exists g. by rewrite <- list_elem_of_In.
  - intros [?|Hall] (g & Hg%list_elem_of_In & E); [done|]. by rewrite Hall in E.
Qed.

Lemma worktree_entry_path entry e : worktree_entry stat entry = Ok e → ie_path e = de_path entry.
Proof.
  unfold worktree_entry, from_absolute_path. destruct (de_is_dir entry); [by intros [= <-]|].
  destruct (stat (de_path entry)); [by intros [= <-]|done..].
Qed.

Lemma worktree_listing_spec it walk l :
  worktree_listing it walk = Ok l →
  length l ≤ length walk
  ∧ ∀ p, p ∈ ie_path <$> l ↔ ∃ entry, Ok entry ∈ walk ∧ de_path entry = p ∧ kept it entry.
Proof.
  revert l. induction walk as [|[x|e|] walk IH]; intros l; cbn [worktree_listing length]; try done.
  - intros [= <-]. split; [done|]. intros p. split; [by intros []%elem_of_nil|by intros (? & []%elem_of_nil & _)].
  - destruct (is_ignored is_ignore it x) eqn:Ei.
    + intros [Hl Hp]%IH. split; [lia|]. intros p. rewrite Hp. split.
      * intros (entry & Hin & E). exists entry. split; [by right|done].
      * intros (entry & [[= ->]|Hin]%elem_of_cons & E & Hk); [|by exists entry].
        apply is_ignored_kept in Hk. congruence.
    + destruct (worktree_entry stat x) as [e| |] eqn:Ee; try done.
      destruct (worktree_listing it walk) as [l'| |] eqn:El; try done. intros [= <-].
      destruct (IH l' eq_refl) as [Hl Hp]. split; [cbn; lia|]. intros p. cbn [fmap list_fmap].
      rewrite elem_of_cons, Hp, (worktree_entry_path _ _ Ee). split.
      * intros [->|(entry & Hin & E)]; [|by exists entry; split; [right|]].
        exists x. split_and!; [by left|done|by apply is_ignored_kept].
      * intros (entry & [[= ->]|Hin]%elem_of_cons & <- & Hk); [by left|right; by exists entry].
Qed.

(** The iterators over the worktree agree with each other and with the walk they are made from:
    where the walk and the files can be read, both end; [WorktreeTreeIter] yields exactly the
    entries of the walk that are tracked or that no [.gitignore] matches, and [WorktreeIter] yields of
    these the ones that are not directories, in the same order. *)
Theorem worktree_iter_correct raw l :
  raw_yields raw l → walk_agrees (jwalk raw) → length (jwalk raw) < fuel →
  fst (worktree_iter_collect is_ignore stat fuel [] raw) = Ok (List.filter entry_is_blob l)
  ∧ fst (iter_collect (H := worktree_tree_iterator is_ignore stat fuel) fuel [] (worktree_tree_iter_new raw)) = Ok l
  ∧ ∀ p, p ∈ ie_path <$> l ↔ ∃ entry, Ok entry ∈ jwalk raw ∧ de_path entry = p ∧ kept raw entry.
Proof.
  intros Hy Hw Hf. destruct (worktree_listing_spec _ _ _ Hy) as [Hl Hp].
  destruct (worktree_iter_collect_spec fuel [] raw l Hy Hw Hf) as (raw' & ->).
  destruct (iter_collect_spec (H0 := worktree_tree_laws) fuel [] (worktree_tree_iter_new raw) l)
    as (it & -> & _); [apply worktree_tree_iter_new_yields; [done|lia]|lia|]. done.
Qed.
End laws.

(** A walk over the directory [d] with the files [d/b] and [d/a], of which [.gitignore] matches the
    directory and what is in it. *)
Definition sample_walk : list (BitResult DirEntry) :=
  [Ok (mk_DirEntry true EMPTY); Ok (mk_DirEntry true (bs "d")); Ok (mk_DirEntry false (bs "d/a"));
   Ok (mk_DirEntry false (bs "d/b"))].
Definition sample_matches (pattern path : BitPath) (is_dir : bool) : bool := path_starts_with path pattern.
Definition sample_stat (p : BitPath) : BitResult Metadata :=
  Ok (mk_Metadata false false 420 (1, 0)%Z (1, 0)%Z 1 1 1 1 5).
Definition sample_raw_iter : WorktreeRawIter (Gitignore := BitPath) :=
  mk_WorktreeRawIter [bs "d/b"] [bs "d"] sample_walk.

Lemma worktree_iter_correct_witness :
  fst (iter_collect (H := worktree_tree_iterator sample_matches sample_stat 10) 10 []
         (worktree_tree_iter_new sample_raw_iter))
  = Ok [index_entry_from_tree_entry (mk_TreeEntry TREE EMPTY UNKNOWN);
        index_entry_new (mk_Metadata false false 420 (1, 0)%Z (1, 0)%Z 1 1 1 1 5) (bs "d/b")].
Proof.
  eapply (worktree_iter_correct sample_matches sample_stat 10 sample_raw_iter).
  - vm_compute. reflexivity.
  - intros entry md _ _ [= <-]. by right.
  - vm_compute. lia.
Defined.

(** The directory of a tracked file is not yielded when it is ignored: the entry [d/b] comes without
    its tree [d]. *)
Lemma ignored_dir_of_tracked_file :
  worktree_listing sample_matches sample_stat sample_raw_iter sample_walk
  = Ok [index_entry_from_tree_entry (mk_TreeEntry TREE EMPTY UNKNOWN);
        index_entry_new (mk_Metadata false false 420 (1, 0)%Z (1, 0)%Z 1 1 1 1 5) (bs "d/b")].
Proof. reflexivity. Qed.
