(* ===== verification/Worktree.v ===== *)
(** * Worktree

    The files of a worktree, as far as the code that merges and checks out trees sees them
    through [std::fs], and the functions of [libbit/src/repo.rs], [libbit/src/fs.rs] and
    [libbit/src/iter.rs] on them.  A path is relative to the root of the repository; a symbolic
    link is a file of mode [LINK] whose data is its target, which is only followed at the end of a
    path. *)

From Stdlib Require Import ZArith Lia.
From Stdlib Require Import Strings.Byte.
From stdpp Require Import base tactics option list countable strings gmap.
From S2P Require Import Prelude RustStd Data State Hash Path Obj Tree IndexEntry TreeIter IndexIter.

Inductive node :=
| File (mode : FileMode) (data : bytes)
| Dir.

#[export] Instance node_eq_dec : EqDecision node.
Proof. solve_decision. Defined.

(** The root itself is always there. *)
Abbreviation Worktree := (gmap BitPath node).

(** ** std::fs *)

Definition is_dir_at (w : Worktree) (p : BitPath) : bool :=
  is_empty p || bool_decide (w !! p = Some Dir).

(** The directory that a path lies in. *)
Definition dir_of (p : BitPath) : BitPath := default EMPTY (parent p).

Definition fs_create_dir (p : BitPath) : st Worktree unit := λ w,
  match w !! p with
  | Some _ => (Err Anyhow, w)
  | None =>
      if negb (is_empty p) && is_dir_at w (dir_of p) then (Ok tt, <[p := Dir]> w) else (Err Anyhow, w)
  end.

Fixpoint create_dirs (ps : list BitPath) : st Worktree unit :=
  match ps with
  | [] => mret tt
  | p :: ps =>
      w ← st_get;
      if is_dir_at w p then create_dirs ps
      else _ ← fs_create_dir p; create_dirs ps
  end.

(** [create_dir_all]. *)
Definition fs_create_dir_all (p : BitPath) : st Worktree unit := create_dirs (cumulative_components p).

Definition fs_remove_file (p : BitPath) : st Worktree unit := λ w,
  match w !! p with
  | Some (File _ _) => (Ok tt, delete p w)
  | _ => (Err Anyhow, w)
  end.

(** [remove_dir_all]: a symbolic link is removed itself. *)
Definition fs_remove_dir_all (p : BitPath) : st Worktree unit := λ w,
  if is_dir_at w p then (Ok tt, filter (λ kv, path_starts_with kv.1 p = false) w)
  else match w !! p with
       | Some (File LINK _) => (Ok tt, delete p w)
       | _ => (Err Anyhow, w)
       end.

(** [File::options().create_new(true).write(true).open(path)] and [write_all]. *)
Definition fs_create_new (p : BitPath) (data : bytes) : st Worktree unit := λ w,
  match w !! p with
  | Some _ => (Err Anyhow, w)
  | None =>
      if negb (is_empty p) && is_dir_at w (dir_of p) then (Ok tt, <[p := File REG data]> w)
      else (Err Anyhow, w)
  end.

(** The file that a path leads to. *)
Fixpoint follow (fuel : nat) (w : Worktree) (p : BitPath) : BitPath :=
  match fuel, w !! p with
  | S fuel, Some (File LINK target) => follow fuel w (normalize (join (dir_of p) target))
  | _, _ => p
  end.

(** The kernel follows 40 links. *)
Definition resolve_links (w : Worktree) (p : BitPath) : BitPath := follow 40 w p.

(** [try_exists]. *)
Definition fs_exists (w : Worktree) (p : BitPath) : bool :=
  let q := resolve_links w p in
  is_empty q || match w !! q with Some (File LINK _) | None => false | Some _ => true end.

(** [File::options().write(true).open(path)] and [write_all] of a file that exists: what is written
    replaces as many bytes at the start of the file. *)
Definition fs_overwrite (p : BitPath) (data : bytes) : st Worktree unit := λ w,
  let q := resolve_links w p in
  match w !! q with
  | Some (File mode old) =>
      if bool_decide (mode = LINK) then (Err Anyhow, w)
      else (Ok tt, <[q := File mode (data ++ drop (length data) old)]> w)
  | _ => (Err Anyhow, w)
  end.

(** The path of an entry of [from] when [from] becomes [to]. *)
Definition moved_path (from to p : BitPath) : BitPath := to ++ drop (length from) p.

(** [rename] to a path that does not exist. *)
Definition fs_rename (from to : BitPath) : st Worktree unit := λ w,
  match w !! from, w !! to with
  | Some _, None =>
      if negb (is_empty to) && is_dir_at w (dir_of to) && negb (path_starts_with to from) then
        (Ok tt,
         filter (λ kv, path_starts_with kv.1 from = false) w
         ∪ list_to_map ((λ kv, (moved_path from to kv.1, kv.2)) <$>
             filter (λ kv, path_starts_with kv.1 from = true) (map_to_list w)))
      else (Err Anyhow, w)
  | _, _ => (Err Anyhow, w)
  end.

(** ** repo.rs *)

(** [BitRepo::read_blob_from_worktree]: of a link its target. *)
Definition read_blob_from_worktree (w : Worktree) (p : BitPath) : BitResult bytes :=
  match w !! p with
  | Some (File _ data) => Ok data
  | _ => Err Anyhow
  end.

Definition path_exists (p : BitPath) : st Worktree bool := λ w, (Ok (fs_exists w p), w).
Definition repo_mkdir (p : BitPath) : st Worktree unit := fs_create_dir p.
Definition repo_rmdir_all (p : BitPath) : st Worktree unit := fs_remove_dir_all p.
Definition repo_rm (p : BitPath) : st Worktree unit := fs_remove_file p.
Definition repo_mv (from to : BitPath) : st Worktree unit := fs_rename from to.

(** [BitRepo::touch], and what is written to the file. *)
Definition repo_touch (p : BitPath) (data : bytes) : st Worktree unit :=
  parent_dir ← st_lift (unwrap (parent p));
  _ ← fs_create_dir_all parent_dir;
  fs_create_new p data.

(** ** fs.rs *)

Definition RenameIndex : Type := option nat.
Definition rename_inc (i : RenameIndex) : RenameIndex := match i with Some i => Some (S i) | None => Some 0 end.
Definition rename_display (i : RenameIndex) : bytes :=
  match i with Some i => x5f :: print_dec (Z.of_nat i) | None => [] end.

(** [UniquePath::make]. *)
Fixpoint make_unique (fuel : nat) (base_path : BitPath) (i : RenameIndex) : st Worktree BitPath :=
  match fuel with
  | O => st_lift Panic
  | S fuel =>
      let moved_path := base_path ++ rename_display i in
      exists_ ← path_exists moved_path;
      if exists_ : bool then make_unique fuel base_path (rename_inc i) else mret moved_path
  end.

Definition unique_path (fuel : nat) (base_path : BitPath) : st Worktree BitPath :=
  make_unique fuel base_path None.

(** ** BitEntry *)

Section entries.
(** [BitRepo::read_obj], whose object must be a blob. *)
Variable read_blob : Oid → BitResult bytes.

(** [BitEntry::read_to_bytes]. *)
Definition read_to_bytes (w : Worktree) (e : BitIndexEntry) : BitResult bytes :=
  if is_known (ie_oid e) then
    match read_blob (ie_oid e) with
    | Ok data => Ok data
    | Err err => _ ← try_into_obj_not_found_err err; read_blob_from_worktree w (ie_path e)
    | Panic => Panic
    end
  else read_blob_from_worktree w (ie_path e).

Definition write_to_disk_at (e : BitIndexEntry) (p : BitPath) : st Worktree unit :=
  w ← st_get;
  data ← st_lift (read_to_bytes w e);
  repo_touch p data.

Definition write_to_disk (e : BitIndexEntry) : st Worktree unit := write_to_disk_at e (ie_path e).
End entries.

(** ** Lemmas *)

Lemma parent_join_dir d n : rel_path d → entry_name n → dir_of (join d n) = d.
Proof. intros Hd Hn. unfold dir_of. by rewrite parent_join. Qed.

Lemma norm_not_empty p : norm_path p → p ≠ EMPTY.
Proof. intros Hp ->. by apply (norm_path_last EMPTY) in Hp as (? & ? & _). Qed.

Definition no_file (w : Worktree) (p : BitPath) : Prop := ∀ mode data, w !! p ≠ Some (File mode data).

Lemma create_dirs_app ps q w w1 :
  create_dirs ps w = (Ok tt, w1) → create_dirs (ps ++ [q]) w = create_dirs [q] w1.
Proof.
  revert w. induction ps as [|p ps IH]; intros w; cbn [app create_dirs]; [by intros [= ->]|].
  rewrite (st_bind_ok _ _ w w w) by done. rewrite (st_bind_ok _ _ w w w) by done.
  destruct (is_dir_at w p); [by apply IH|].
  destruct (fs_create_dir p w) as [[[]|e|] w2] eqn:E.
  - rewrite !(st_bind_ok _ _ _ _ _ E). apply IH.
  - by rewrite (st_bind_err _ _ _ _ _ E).
  - by rewrite (st_bind_panic _ _ _ _ E).
Qed.

(** [create_dir_all] makes the directories that are missing. *)
Lemma fs_create_dir_all_ok d w :
  rel_path d → (∀ q, q = d ∨ above q d → no_file w q) →
  ∃ w', fs_create_dir_all d w = (Ok tt, w') ∧ is_dir_at w' d = true
    ∧ ∀ q, w' !! q = w !! q ∨ w !! q = None ∧ w' !! q = Some Dir ∧ (q = d ∨ above q d).
Proof.
  intros Hd. pattern d. apply rel_path_ind; [| |done].
  - intros _. exists w. split_and!; [done|done|by left].
  - clear d Hd. intros d n Hd Hn IH Hf.
    destruct (rel_join d n Hd Hn) as [Hj _].
    destruct IH as (w1 & E1 & Hdir & Hw1).
    { intros q Hq. apply Hf. right. by apply above_join. }
    assert (fs_create_dir_all (join d n) w = create_dirs [join d n] w1) as ->.
    { unfold fs_create_dir_all. destruct Hd as [->|Hd].
      - rewrite join_empty_l, cumulative_top by done. cbn in E1. by injection E1 as <-.
      - rewrite cumulative_join by done. by apply create_dirs_app. }
    assert (no_file w1 (join d n)) as Hn1.
    { intros mode data. specialize (Hf (join d n) (or_introl eq_refl) mode data).
      destruct (Hw1 (join d n)) as [->|(_ & -> & _)]; done. }
    assert (join d n ≠ EMPTY) as Hne by by apply norm_not_empty.
    cbn [create_dirs]. rewrite (st_bind_ok _ _ w1 w1 w1) by done.
    destruct (is_dir_at w1 (join d n)) eqn:Ed.
    + exists w1. split_and!; [done|done|]. intros q. destruct (Hw1 q) as [?|(? & ? & Hq)]; [by left|].
      right. split_and!; [done|done|]. right. by apply above_join.
    + assert (w1 !! join d n = None) as E0.
      { destruct (w1 !! join d n) as [[mode data|]|] eqn:E; [by destruct (Hn1 mode data)| |done].
        unfold is_dir_at in Ed. rewrite E, (bool_decide_true (Some Dir = Some Dir)), orb_true_r in Ed; done. }
      exists (<[join d n := Dir]> w1). split_and!.
      * rewrite (st_bind_ok _ _ w1 (<[join d n := Dir]> w1) tt); [done|].
        unfold fs_create_dir. rewrite E0, parent_join_dir, Hdir by done.
        unfold is_empty. by rewrite bool_decide_false.
      * unfold is_dir_at. by rewrite lookup_insert_eq, (bool_decide_true (Some Dir = Some Dir)), orb_true_r.
      * intros q. destruct (decide (q = join d n)) as [->|Hq].
        -- rewrite lookup_insert_eq. right. split_and!; [|done|by left].
           destruct (Hw1 (join d n)) as [<-|(? & ? & _)]; done.
        -- rewrite lookup_insert_ne by done. destruct (Hw1 q) as [?|(? & ? & Hq')]; [by left|].
           right. split_and!; [done|done|]. right. by apply above_join.
Qed.

(** [touch] makes a file where there was nothing, and the directories on the way. *)
Lemma repo_touch_ok p data w :
  norm_path p → w !! p = None → (∀ q, above q p → no_file w q) →
  ∃ w', repo_touch p data w = (Ok tt, w') ∧ w' !! p = Some (File REG data)
    ∧ ∀ q, q ≠ p → w' !! q = w !! q ∨ w !! q = None ∧ w' !! q = Some Dir ∧ above q p.
Proof.
  intros Hp E0 Hf. destruct (norm_snoc p Hp) as (d & n & Hd & Hn & ->).
  destruct (fs_create_dir_all_ok d w Hd) as (w1 & E1 & Hdir & Hw1).
  { intros q Hq. apply Hf. by apply above_join. }
  assert (w1 !! join d n = None) as E2.
  { destruct (Hw1 (join d n)) as [->|(_ & _ & [E|Hab])]; [done| |].
    - exfalso. assert (above d (join d n)) as (_ & Hne & _) by (apply above_join; [done..|by left]). done.
    - exfalso. assert (above d (join d n)) as Hab2 by (apply above_join; [done..|by left]).
      pose proof (above_trans _ _ _ Hab2 Hab) as (_ & Hne & _). done. }
  exists (<[join d n := File REG data]> w1). split_and!.
  - unfold repo_touch. rewrite (st_bind_ok _ _ w w d) by by rewrite parent_join.
    rewrite (st_bind_ok _ _ _ _ _ E1). unfold fs_create_new. rewrite E2, parent_join_dir, Hdir by done.
    unfold is_empty. rewrite bool_decide_false; [done|by apply norm_not_empty].
  - by rewrite lookup_insert_eq.
  - intros q Hq. rewrite lookup_insert_ne by done.
    destruct (Hw1 q) as [?|(? & ? & Hq')]; [by left|]. right. split_and!; [done|done|by apply above_join].
Qed.
