(* ===== verification/Merge.v ===== *)
(** * Merge

    [MergeCtxt] of [libbit/src/merge.rs]: the three-way merge of trees, which walks the base tree
    and both heads at once and brings what their head has changed into the index and the
    worktree, and the merge of several merge bases into a virtual one.  The crate [diffy], which
    merges the contents of files, is a parameter. *)

From Stdlib Require Import ZArith Lia.
From Stdlib Require Import Strings.Byte.
From stdpp Require Import base tactics option list countable strings gmap.
From S2P Require Import Prelude RustStd Data State Hash Path Obj Tree Commit IndexEntry TreeCache Index TreeIter.
From S2P Require Import CommitGraph MergeBase Walk WriteTree Worktree.

(** The entry of each variant is the new one, or the old one of a deletion. *)
Inductive MergeDiffEntry :=
| MDeletedBlob (entry : BitIndexEntry)
| MCreatedBlob (entry : BitIndexEntry)
| MModifiedBlob (entry : BitIndexEntry)
| MModifiedTree (entry : BitIndexEntry)
| MUnmodifiedBlob (entry : BitIndexEntry)
| MUnmodifiedTree (entry : BitIndexEntry)
| MDeletedTree (entry : BitIndexEntry)
| MCreatedTree (entry : BitIndexEntry)
| MBlobToTree (entry : BitIndexEntry)
| MTreeToBlob (entry : BitIndexEntry).

(** [MergeDiffEntry::entry]. *)
Definition merge_diff_entry (d : MergeDiffEntry) : BitIndexEntry :=
  match d with
  | MDeletedBlob entry | MCreatedBlob entry | MModifiedBlob entry | MModifiedTree entry
  | MUnmodifiedBlob entry | MUnmodifiedTree entry | MDeletedTree entry | MCreatedTree entry
  | MBlobToTree entry | MTreeToBlob entry => entry
  end.

Definition base_only (base : BitIndexEntry) : BitResult MergeDiffEntry :=
  match ie_mode base with
  | REG | EXEC | LINK => Ok (MDeletedBlob base)
  | TREE => Ok (MDeletedTree base)
  | GITLINK => Panic
  end.

Definition other_only (other : BitIndexEntry) : BitResult MergeDiffEntry :=
  match ie_mode other with
  | REG | EXEC | LINK => Ok (MCreatedBlob other)
  | TREE => Ok (MCreatedTree other)
  | GITLINK => Panic
  end.

Definition diff_base_to_other (base other : option BitIndexEntry) : BitResult (option MergeDiffEntry) :=
  match base, other with
  | None, None => Ok None
  | None, Some other => Some <$> other_only other
  | Some base, None => Some <$> base_only base
  | Some base, Some other =>
      match diff_cmp base other with
      | Lt => Some <$> base_only base
      | Gt => Some <$> other_only other
      | Eq =>
          _ ← assert_that (is_known (ie_oid base));
          _ ← assert_that (is_known (ie_oid other));
          match ie_mode base, ie_mode other with
          | GITLINK, _ | _, GITLINK => Panic
          | TREE, TREE =>
              if bool_decide (ie_oid base = ie_oid other) then Ok (Some (MUnmodifiedTree other))
              else Ok (Some (MModifiedTree other))
          | TREE, _ => Ok (Some (MTreeToBlob other))
          | _, TREE => Ok (Some (MBlobToTree other))
          | _, _ =>
              if bool_decide (ie_oid base = ie_oid other) then Ok (Some (MUnmodifiedBlob other))
              else Ok (Some (MModifiedBlob other))
          end
      end
  end.

(** The repository as the merge changes it, and the paths of uncommitted changes. *)
Record MergeCtxt := mk_MergeCtxt {
  mc_index : BitIndexInner;
  mc_worktree : Worktree;
  mc_uncommitted : list BitPath;
}.

Section merge.
(** What the operating system reports for a path. *)
Variable metadata : Worktree → BitPath → Metadata.
(** [BitRepo::read_obj] of a blob, and [BitRepo::write_obj] of one. *)
Variable read_blob : Oid → BitResult bytes.
Variable write_blob : bytes → BitResult Oid.
(** [diffy::MergeOptions::merge_bytes] in the configured style and with the markers of both sides:
    the merged text, or the text with conflict markers. *)
Variable merge_bytes : bytes → bytes → bytes → bytes → bytes → bytes + bytes.
Variable their_head_desc : bytes.
(** Bounds the search for a free path. *)
Variable fuel : nat.

Definition stat (w : Worktree) (p : BitPath) : BitResult Metadata :=
  match w !! p with Some _ => Ok (metadata w p) | None => Err Anyhow end.

Definition write_worktree_blob (w : Worktree) (p : BitPath) : BitResult Oid :=
  data ← read_blob_from_worktree w p;
  write_blob data.

Definition on_worktree {A} (m : st Worktree A) : st MergeCtxt A :=
  st_zoom mc_worktree (λ c w, mk_MergeCtxt (mc_index c) w (mc_uncommitted c)) m.

(** An operation on the index. *)
Definition on_index (f : Worktree → BitIndexInner → BitResult BitIndexInner) : st MergeCtxt unit := λ c,
  match f (mc_worktree c) (mc_index c) with
  | Ok idx => (Ok tt, mk_MergeCtxt idx (mc_worktree c) (mc_uncommitted c))
  | Err e => (Err e, c)
  | Panic => (Panic, c)
  end.

Definition push_uncommitted (p : BitPath) : st MergeCtxt unit := λ c,
  (Ok tt, mk_MergeCtxt (mc_index c) (mc_worktree c) (mc_uncommitted c ++ [p])).

(** *** index.rs *)

Definition idx_add_entry (e : BitIndexEntry) : st MergeCtxt unit :=
  on_index (λ w idx, add_entry (stat w) (write_worktree_blob w) idx e).

Definition idx_add_conflicted_entry (e : BitIndexEntry) (stage : MergeStage) : st MergeCtxt unit :=
  on_index (λ w idx, add_conflicted_entry (write_worktree_blob w) idx e stage).

Definition idx_remove_entry (e : BitIndexEntry) : st MergeCtxt unit :=
  on_index (λ _ idx, key ← entry_key e; Ok (remove_entry idx key)).

Definition idx_remove_directory (p : BitPath) : st MergeCtxt unit :=
  on_index (λ _ idx, Ok (remove_directory idx p)).

(** [BitIndex::add_entry_from_path]. *)
Definition add_entry_from_path (p : BitPath) : st MergeCtxt unit :=
  on_index (λ w idx,
    md ← stat w p;
    add_entry (stat w) (write_worktree_blob w) idx (index_entry_new md p)).

(** [BitIndex::write_and_add_blob]. *)
Definition write_and_add_blob (e : BitIndexEntry) : st MergeCtxt unit :=
  _ ← on_worktree (write_to_disk read_blob e);
  idx_add_entry e.

(** [BitIndex::update_blob]. *)
Definition update_blob (e : BitIndexEntry) : st MergeCtxt unit :=
  _ ← on_worktree (repo_rm (ie_path e));
  write_and_add_blob e.

(** *** The merge of entries *)

Definition base_to_ours_only (base_to_ours : MergeDiffEntry) : st MergeCtxt unit :=
  match base_to_ours with
  | MCreatedBlob entry => idx_add_entry entry
  | MCreatedTree _ => mret tt
  | _ => st_lift Panic
  end.

Definition base_to_theirs_only (base_to_theirs : MergeDiffEntry) : st MergeCtxt unit :=
  match base_to_theirs with
  | MCreatedBlob entry =>
      exists_ ← on_worktree (path_exists (ie_path entry));
      if exists_ : bool then push_uncommitted (ie_path entry) else write_and_add_blob entry
  | MCreatedTree tree => on_worktree (repo_mkdir (ie_path tree))
  | _ => st_lift Panic
  end.

Definition write_their_conflicted (theirs : BitIndexEntry) : st MergeCtxt unit :=
  on_worktree (
    moved_path ← unique_path fuel (ie_path theirs ++ bs "~" ++ their_head_desc);
    write_to_disk_at read_blob theirs moved_path).

Definition mv_our_conflicted (path : BitPath) : st MergeCtxt unit :=
  on_worktree (
    moved_path ← unique_path fuel (path ++ bs "~HEAD");
    repo_mv path moved_path).

(** The closure [three_way_merge] of [merge_entry]. *)
Definition three_way_merge (base : option BitIndexEntry) (ours theirs : BitIndexEntry)
    : st MergeCtxt unit :=
  let path := ie_path ours in
  c ← st_get;
  let w := mc_worktree c in
  base_bytes ← st_lift (match base with Some b => read_to_bytes read_blob w b | None => Ok [] end);
  _ ← st_lift (assert_that (bool_decide (ie_mode ours = ie_mode theirs)));
  _ ← on_worktree (fs_overwrite path []);
  our_bytes ← st_lift (read_to_bytes read_blob w ours);
  their_bytes ← st_lift (read_to_bytes read_blob w theirs);
  match merge_bytes (bs "HEAD") their_head_desc base_bytes our_bytes their_bytes with
  | inl merged =>
      _ ← on_worktree (fs_overwrite path merged);
      add_entry_from_path path
  | inr conflicted =>
      _ ← on_worktree (fs_overwrite path conflicted);
      _ ← (match base with Some b => idx_add_conflicted_entry b BASE | None => mret tt end);
      _ ← idx_add_conflicted_entry ours OURS;
      idx_add_conflicted_entry theirs THEIRS
  end.

(** [index.add_conflicted_entry(base.unwrap(), MergeStage::BASE)?]. *)
Definition add_conflicted_base (base : option BitIndexEntry) : st MergeCtxt unit :=
  base ← st_lift (unwrap base);
  idx_add_conflicted_entry base BASE.

Definition merge_entry (base : option BitIndexEntry) (base_to_ours base_to_theirs : MergeDiffEntry)
    : st MergeCtxt unit :=
  match base_to_ours, base_to_theirs with
  | MDeletedBlob entry, MDeletedBlob _ => idx_remove_entry entry
  | MDeletedBlob _, MModifiedBlob theirs =>
      _ ← add_conflicted_base base;
      _ ← idx_add_conflicted_entry theirs THEIRS;
      on_worktree (write_to_disk read_blob theirs)
  | MModifiedBlob ours, MDeletedBlob _ =>
      _ ← add_conflicted_base base;
      idx_add_conflicted_entry ours OURS
  | MDeletedBlob ours, MUnmodifiedBlob _ => idx_remove_entry ours
  | MCreatedBlob ours, MCreatedBlob theirs => three_way_merge base ours theirs
  | MModifiedBlob ours, MModifiedBlob theirs => three_way_merge base ours theirs
  | MModifiedBlob entry, MUnmodifiedBlob _ => idx_add_entry entry
  | MModifiedBlob ours, MBlobToTree tree =>
      _ ← add_conflicted_base base;
      _ ← idx_add_conflicted_entry ours OURS;
      _ ← mv_our_conflicted (ie_path ours);
      on_worktree (repo_mkdir (ie_path tree))
  | MBlobToTree _, MModifiedBlob theirs =>
      _ ← add_conflicted_base base;
      _ ← idx_add_conflicted_entry theirs THEIRS;
      write_their_conflicted theirs
  | MModifiedTree _, MTreeToBlob theirs =>
      _ ← idx_add_conflicted_entry theirs THEIRS;
      write_their_conflicted theirs
  | MTreeToBlob ours, MModifiedTree _ =>
      _ ← idx_add_conflicted_entry ours OURS;
      mv_our_conflicted (ie_path ours)
  | MUnmodifiedTree tree, MDeletedTree _ =>
      _ ← idx_remove_directory (ie_path tree);
      on_worktree (repo_rmdir_all (ie_path tree))
  | MUnmodifiedBlob _, MModifiedBlob theirs => update_blob theirs
  | MUnmodifiedBlob _, MBlobToTree tree =>
      _ ← on_worktree (repo_rm (ie_path tree));
      on_worktree (repo_mkdir (ie_path tree))
  | MCreatedBlob ours, MCreatedTree _ =>
      _ ← idx_add_conflicted_entry ours OURS;
      mv_our_conflicted (ie_path ours)
  | MCreatedTree _, MCreatedBlob theirs =>
      _ ← idx_add_conflicted_entry theirs THEIRS;
      write_their_conflicted theirs
  | MDeletedTree entry, MDeletedTree _ => idx_remove_directory (ie_path entry)
  | MUnmodifiedTree ours, MTreeToBlob theirs =>
      _ ← on_worktree (repo_rmdir_all (ie_path ours));
      _ ← on_worktree (write_to_disk read_blob theirs);
      idx_add_entry theirs
  | MUnmodifiedBlob _, MDeletedBlob theirs =>
      _ ← st_match (on_worktree (repo_rm (ie_path theirs))) mret (λ _, mret tt);
      idx_remove_entry theirs
  | MDeletedTree _, MTreeToBlob theirs =>
      _ ← on_worktree (write_to_disk read_blob theirs);
      idx_add_entry theirs
  | MTreeToBlob ours, MTreeToBlob theirs => three_way_merge None ours theirs
  | MModifiedTree _, MModifiedTree _ | MCreatedTree _, MCreatedTree _
  | MBlobToTree _, MUnmodifiedBlob _ | MBlobToTree _, MBlobToTree _
  | MModifiedTree _, MUnmodifiedTree _ | MUnmodifiedTree _, MModifiedTree _
  | MDeletedTree _, MModifiedTree _ | MUnmodifiedTree _, MUnmodifiedTree _
  | MBlobToTree _, MDeletedBlob _ | MUnmodifiedBlob _, MUnmodifiedBlob _
  | MDeletedBlob _, MBlobToTree _ | MModifiedTree _, MDeletedTree _
  | MTreeToBlob _, MUnmodifiedTree _ | MTreeToBlob _, MDeletedTree _
  | MDeletedTree _, MUnmodifiedTree _ => mret tt
  | _, _ => st_lift Panic
  end.

Definition merge_entries (base ours theirs : option BitIndexEntry) : st MergeCtxt unit :=
  base_to_ours ← st_lift (diff_base_to_other base ours);
  base_to_theirs ← st_lift (diff_base_to_other base theirs);
  match base_to_ours, base_to_theirs with
  | None, None => mret tt
  | None, Some base_to_theirs => base_to_theirs_only base_to_theirs
  | Some base_to_ours, None => base_to_ours_only base_to_ours
  | Some base_to_ours, Some base_to_theirs => merge_entry base base_to_ours base_to_theirs
  end.

(** *** The merge of trees *)

Section iterators.
Context {S} `{BitTreeIterator S}.

Fixpoint merge_walk (n : nat) : st (MergeCtxt * list S) unit :=
  match n with
  | O => st_lift Panic
  | Datatypes.S n =>
      row ← st_zoom snd (λ s its, (fst s, its)) walk_next;
      match row with
      | None => mret tt
      | Some [base; a; b] =>
          _ ← st_zoom fst (λ s c, (c, snd s)) (merge_entries base a b);
          merge_walk n
      | Some _ => st_lift Panic
      end
  end.

(** [merge_from_iterators]; [n] bounds the number of steps of the walk. *)
Definition merge_from_iterators (n : nat) (base_iter a_iter b_iter : S) : st MergeCtxt unit := λ c,
  let '(r, (c, _)) := merge_walk n (c, [base_iter; a_iter; b_iter]) in (r, c).
End iterators.

Definition merge_trees (treeish : Oid → BitResult (list TreeEntry)) (n : nat)
    (base_tree our_tree their_tree : Oid) : st MergeCtxt unit :=
  merge_from_iterators (H := tree_iter_iterator treeish) n
    (tree_iter_new base_tree) (tree_iter_new our_tree) (tree_iter_new their_tree).

(** *** The merge of commits *)

Section commits.
Variable treeish : Oid → BitResult (list TreeEntry).
Variable read_obj_tree : Oid → BitResult TreeObj.
Variable write_tree_obj : MutableTree → BitResult Oid.
Variable read_obj_commit : Oid → BitResult Commit.
(** [BitRepo::write_commit] of a tree, the parents and the message. *)
Variable write_commit : Oid → list Oid → CommitMessage → BitResult Oid.
(** Bounds the walks over trees and commits. *)
Variable n : nat.

Definition commit_tree_oid (c : Commit) : Oid := c_tree (commit_inner c).

Definition merge_commits (merge_base : option Commit) (our_head_commit their_head_commit : Commit)
    : st MergeCtxt unit :=
  let merge_base_tree := match merge_base with Some c => commit_tree_oid c | None => UNKNOWN end in
  merge_trees treeish n merge_base_tree (commit_tree_oid our_head_commit)
    (commit_tree_oid their_head_commit).

(** [make_virtual_base] of two merge bases, whose own base [merge_base] finds. *)
Definition make_virtual_base_with (merge_base_recursive : Commit → Commit → st MergeCtxt (option Commit))
    (our_head their_head : Commit) : st MergeCtxt Oid :=
  merge_base ← merge_base_recursive our_head their_head;
  _ ← merge_commits merge_base our_head their_head;
  merged_tree ← st_zoom mc_index (λ c idx, mk_MergeCtxt idx (mc_worktree c) (mc_uncommitted c))
    (write_tree read_obj_tree write_tree_obj n n);
  st_lift (write_commit merged_tree [commit_oid our_head; commit_oid their_head]
    (mk_CommitMessage (bs "generated virtual merge commit") [])).

Fixpoint merge_base_recursive (depth : nat) (our_head their_head : Commit) : st MergeCtxt (option Commit) :=
  match depth with
  | O => st_lift Panic
  | Datatypes.S depth =>
      merge_bases ← st_lift (find_merge_bases read_obj_commit n our_head their_head);
      match merge_bases with
      | [] => mret None
      | [merge_base] => mret (Some merge_base)
      | [a; b] =>
          oid ← make_virtual_base_with (merge_base_recursive depth) a b;
          commit ← st_lift (read_obj_commit oid);
          mret (Some commit)
      | _ => st_lift Panic
      end
  end.

Definition make_virtual_base (depth : nat) : Commit → Commit → st MergeCtxt Oid :=
  make_virtual_base_with (merge_base_recursive depth).
End commits.
End merge.
