(* ===== verification/MergeTrees.v ===== *)
(** * MergeTrees

    What the three-way merge of trees of Merge.v does: the operations on the index and on the
    worktree at one path, the merge of the entries at one path, and the merge of whole trees
    against the merge of each path on its own. *)

From Stdlib Require Import ZArith Lia Sorted.
From Stdlib Require Import Strings.Byte.
From stdpp Require Import base tactics option list countable strings gmap.
From S2P Require Import Prelude RustStd Data State Io Hash Path BTree Obj Tree IndexEntry TreeCache Index TreeIter.
From S2P Require Import TreeDiff TreeListing IndexDiff IndexIter Walk WriteTree Worktree Merge.

(** ** The index at a path *)

(** A valid index all of whose paths are in [W]. *)
Definition index_in (W : list BitPath) (idx : BitIndexInner) : Prop :=
  index_wf idx ∧ ∀ kv, kv ∈ idx_entries idx → kv.1.1 ∈ W.

(** The stages that the index has for a path, with the ids. *)
Definition index_has (idx : BitIndexInner) (p : BitPath) (m : list (MergeStage * Oid)) : Prop :=
  ∀ s o, (∃ e, ((p, s), e) ∈ idx_entries idx ∧ ie_oid e = o) ↔ (s, o) ∈ m.

(** Both have the same entries at the path. *)
Definition index_agree (idx idx' : BitIndexInner) (p : BitPath) : Prop :=
  ∀ s e, ((p, s), e) ∈ idx_entries idx' ↔ ((p, s), e) ∈ idx_entries idx.

Lemma index_has_agree idx idx' p m : index_agree idx idx' p → index_has idx p m → index_has idx' p m.
Proof. intros Ha Hi s o. rewrite <- (Hi s o). split; intros (e & He & Ho); exists e; (split; [by apply Ha|done]). Qed.

Lemma index_agree_trans idx1 idx2 idx3 p :
  index_agree idx1 idx2 p → index_agree idx2 idx3 p → index_agree idx1 idx3 p.
Proof. intros H1 H2 s e. by rewrite (H2 s e), (H1 s e). Qed.

(** What an entry that is put into the index must satisfy, its oid and stage aside. *)
Definition entry_storable (e : BitIndexEntry) : Prop :=
  entry_key e = Ok (ie_path e, NONE) ∧ index_entry_wf (with_oid e UNKNOWN)
  ∧ norm_path (ie_path e) ∧ utf8_valid (ie_path e) = true.

Lemma with_oid_wf e oid : index_entry_wf (with_oid e UNKNOWN) → oid_wf oid → index_entry_wf (with_oid e oid).
Proof. unfold index_entry_wf. cbn. tauto. Qed.

Lemma with_oid_same e : with_oid e (ie_oid e) = e.
Proof. by destruct e. Qed.

Section index_ops.
Context (W : list BitPath) (HW : prefix_free W).

Lemma not_under_in p q : p ∈ W → q ∈ W → ¬ under p q ∧ ¬ under q p.
Proof. intros Hp Hq. split; by apply HW. Qed.

Lemma index_in_ext idx idx' p :
  index_wf idx' → index_in W idx → p ∈ W → (∀ q, q ≠ p → index_agree idx idx' q) → index_in W idx'.
Proof.
  intros Hwf [_ Hin] Hp Ha. split; [done|]. intros [[q s] e] Hkv. cbn.
  destruct (decide (q = p)) as [->|Hq]; [done|]. apply (Ha q Hq) in Hkv. by apply Hin in Hkv.
Qed.

Lemma remove_entry_at idx p :
  index_in W idx → p ∈ W → (∀ s e, ((p, s), e) ∈ idx_entries idx → s = NONE) →
  let idx' := remove_entry idx (p, NONE) in
  index_in W idx' ∧ index_has idx' p [] ∧ ∀ q, q ≠ p → index_agree idx idx' q.
Proof.
  intros [Hwf Hin] Hp Hstage idx'.
  pose proof (remove_entry_entries idx (p, NONE) (proj1 Hwf)) as E. fold idx' in E.
  assert (∀ q, q ≠ p → index_agree idx idx' q) as Hagree.
  { intros q Hq s e. rewrite E, list_elem_of_filter. cbn. split; [by intros []|]. intros H.
    split; [by intros [=]|done]. }
  split_and!; [apply (index_in_ext idx _ p); [by eapply index_wf_filter|done..]| |done].
  intros s o. split; [|by intros ?%elem_of_nil]. intros (e & H & _). rewrite E, list_elem_of_filter in H.
  cbn in H. destruct H as [H1 H2]. pose proof (Hstage s e H2) as ->. done.
Qed.

Lemma remove_directory_at idx d :
  index_in W idx → norm_path d →
  let idx' := remove_directory idx d in
  index_in W idx' ∧ (∀ q, ¬ under d q → index_agree idx idx' q)
  ∧ ∀ q, under d q → (∀ s e, ((q, s), e) ∈ idx_entries idx → s = NONE) → index_has idx' q [].
Proof.
  intros [Hwf Hin] Hd idx'. pose proof (remove_directory_entries idx d Hwf Hd) as E. fold idx' in E.
  assert (∀ kv, kv ∈ idx_entries idx' ↔ kv ∈ idx_entries idx ∧ ¬ (kv.1.2 = NONE ∧ under d kv.1.1)) as Hall.
  { intros kv. rewrite E, list_elem_of_filter. tauto. }
  split_and!.
  - split; [by eapply index_wf_filter|]. intros kv [H _]%Hall. by apply Hin.
  - intros q Hq s e. rewrite Hall. cbn. tauto.
  - intros q Hq Hst s o. split; [|by intros ?%elem_of_nil]. intros (e & [H1 H2]%Hall & _). cbn in H2.
    by rewrite (Hst s e H1) in H2; tauto.
Qed.

Context (write_blob : BitPath → BitResult Oid).

Lemma add_conflicted_at idx e s :
  index_in W idx → is_known (ie_oid e) = true → s ≠ NONE →
  entry_storable e → oid_wf (ie_oid e) → ie_path e ∈ W →
  ∃ idx', add_conflicted_entry write_blob idx e s = Ok idx' ∧ index_in W idx'
    ∧ (∀ m, index_has idx (ie_path e) m →
         index_has idx' (ie_path e) ((s, ie_oid e) :: filter (λ so, so.1 ≠ NONE ∧ so.1 ≠ s) m))
    ∧ ∀ q, q ≠ ie_path e → index_agree idx idx' q.
Proof.
  intros [Hwf Hin] Hknown Hs (Hk & Hewf & Hn & Hu) Ho Hp. unfold add_conflicted_entry. rewrite Hknown.
  cbn [assert_that mbind outcome_bind]. set (idx0 := remove_entry idx (ie_path e, NONE)).
  pose proof (remove_entry_entries idx (ie_path e, NONE) (proj1 Hwf)) as E0. fold idx0 in E0.
  assert (index_wf idx0) as Hwf0 by by eapply index_wf_filter.
  destruct Hewf as (Hc & Hm & Hd & Hi & Hu1 & Hg & Hsz & _ & Hfl & Hxf & Hx & Hnul & Hrel & Hpl).
  destruct (flags_set_stage_spec (ie_flags e) s Hfl) as (f & Ef & Hfs & Hff & Hfp & _ & Hfx).
  unfold set_stage. rewrite Ef. cbn [mbind outcome_bind]. set (e1 := with_flags e f).
  assert (entry_key e1 = Ok (ie_path e, s)) as Hk1.
  { unfold entry_key, entry_stage. cbn [e1 ie_flags with_flags]. by rewrite Hfs. }
  assert (index_entry_wf e1) as Hwf1.
  { unfold index_entry_wf. cbn in *. rewrite Hfp, Hfx. tauto. }
  destruct (remove_collisions_ok idx0 (ie_path e) Hwf0 Hn Hu) as (idx1 & b & E1 & Hwf1' & Hin1 & _).
  unfold add_entry_common. cbn [e1 with_flags ie_path]. rewrite E1. cbn [mbind outcome_bind].
  unfold entry_write. change (ie_oid e1) with (ie_oid e). rewrite Hknown. cbn [mbind outcome_bind].
  assert (with_oid e1 (ie_oid e) = e1) as -> by by destruct e.
  destruct (insert_entry_ok idx1 e1 (ie_path e, s) Hwf1' Hk1 Hwf1 Hn) as (idx2 & E2 & Hwf2 & Hin2).
  exists idx2. split; [done|].
  assert (∀ kv, kv ∈ idx_entries idx0 ↔ kv ∈ idx_entries idx ∧ kv.1 ≠ (ie_path e, NONE)) as Hin0.
  { intros kv. rewrite E0, list_elem_of_filter. tauto. }
  assert (∀ kv, kv ∈ idx_entries idx2 ↔ kv = ((ie_path e, s), e1)
    ∨ kv ∈ idx_entries idx ∧ kv.1 ≠ (ie_path e, NONE) ∧ kv.1 ≠ (ie_path e, s)) as Hall.
  { intros kv. rewrite Hin2, Hin1, Hin0. split; [naive_solver|].
    intros [->|(H & H1 & H2)]; [by left|right]. destruct (not_under_in (ie_path e) kv.1.1 Hp (Hin _ H)) as [Hu2 Hu3].
    split; [|done]. split_and!; [done|done| |].
    - intros [Hst [Hpe|?]]; [|done]. apply H1. destruct kv as [[kp ks] ke]. cbn in *. by subst.
    - intros _ []. done. }
  assert (∀ q, q ≠ ie_path e → index_agree idx idx2 q) as Hagree.
  { intros q Hq s' e'. rewrite Hall. cbn. split; [by intros [[= ->]|[? _]]|].
    intros H. right. split_and!; [done|by intros [=]..]. }
  split_and!; [by apply (index_in_ext idx _ (ie_path e))| |done].
  intros m Hhas s' o. rewrite elem_of_cons, list_elem_of_filter. cbn. rewrite <- (Hhas s' o). split.
  - intros (e' & [[= -> ->]|(H & H1 & H2)]%Hall & Ho'); [left; by rewrite <- Ho'|right]. cbn in *.
    split; [|by exists e']. split; intros ->; [by apply H1|by apply H2].
  - intros [[= -> ->]|[[H1 H2] (e' & H & Ho')]]; [exists e1; split; [apply Hall; by left|done]|].
    exists e'. split; [|done]. apply Hall. right. cbn. split_and!; [done|congruence..].
Qed.

Context (stat : BitPath → BitResult Metadata).

Lemma add_entry_at idx e e1 oid :
  index_in W idx → fill stat e = Ok e1 → entry_write write_blob e1 = Ok oid →
  entry_storable e1 → oid_wf oid → ie_path e1 ∈ W →
  ∃ idx', add_entry stat write_blob idx e = Ok idx' ∧ index_in W idx'
    ∧ index_has idx' (ie_path e1) [(NONE, oid)] ∧ ∀ q, q ≠ ie_path e1 → index_agree idx idx' q.
Proof.
  intros [Hwf Hin] Hf Hw (Hk & Hewf & Hn & Hu) Ho Hp.
  destruct (add_entry_ok stat write_blob idx e e1 oid Hwf Hf Hw Hk (with_oid_wf _ _ Hewf Ho) Hn Hu)
    as (idx' & E & Hwf' & Hat & _ & Hsub & Hkeep & _).
  assert (∀ q, q ≠ ie_path e1 → index_agree idx idx' q) as Hagree.
  { intros q Hq s e2. split; [by intros H; apply (Hsub _ H)|]. intros H.
    apply (Hkeep _ H Hq). cbn. destruct (not_under_in (ie_path e1) q Hp (Hin _ H)). tauto. }
  exists idx'. split_and!; [done|by apply (index_in_ext idx _ (ie_path e1))| |done].
  intros s o. rewrite list_elem_of_singleton. split.
  - intros (e2 & [-> ->]%Hat & <-). done.
  - intros [= -> ->]. exists (with_oid e1 oid). split; [by apply Hat|done].
Qed.

End index_ops.

(** ** Entries that are merged *)

Lemma flags_with_path_len_range n : (0 ≤ flags_with_path_len n ≤ 0xFFF)%Z.
Proof.
  unfold flags_with_path_len. assert (0 ≤ wrap 16 (Z.of_nat n))%Z by (apply Z.mod_pos_bound; lia). lia.
Qed.

Lemma flags_with_path_len_land n m :
  (Z.land 0xFFF m = 0)%Z → Z.land (flags_with_path_len n) m = 0%Z.
Proof.
  intros Hm. pose proof (flags_with_path_len_range n) as Hr. set (f := flags_with_path_len n) in *.
  assert (Z.land f (Z.ones 12) = f) as <-.
  { rewrite Z.land_ones by lia. apply Z.mod_small. change (2 ^ 12)%Z with 4096%Z. lia. }
  change (Z.ones 12) with 0xFFF%Z. rewrite <- Z.land_assoc, Hm. apply Z.land_0_r.
Qed.

Lemma fresh_flags_storable e :
  ie_flags e = flags_with_path_len (length (ie_path e)) → ie_extended_flags e = 0%Z →
  (timespec_wf (ie_ctime e) ∧ timespec_wf (ie_mtime e)) →
  (fits 32 (ie_device e) ∧ fits 32 (ie_inode e) ∧ fits 32 (ie_uid e) ∧ fits 32 (ie_gid e)
   ∧ fits 32 (ie_filesize e)) →
  norm_path (ie_path e) → x00 ∉ ie_path e → utf8_valid (ie_path e) = true → entry_storable e.
Proof.
  intros Hf Hx (Hc & Hm) (Hd & Hi & Hui & Hg & Hs) Hn Hnul Hu. split_and!; [| |done|done].
  - unfold entry_key, entry_stage, flags_stage. rewrite Hf, flags_with_path_len_land by done. done.
  - unfold index_entry_wf. cbn. rewrite Hf, Hx.
    pose proof (flags_with_path_len_range (length (ie_path e))) as Hr.
    assert (fits 16 (flags_with_path_len (length (ie_path e)))) as Hfit by (unfold fits; lia).
    assert (fits 16 0) as Hfit0 by (unfold fits; lia).
    pose proof (path_len_with_path_len (length (ie_path e))) as Hl. pose proof (norm_relative _ Hn) as Hr'.
    assert (oid_wf UNKNOWN) as Ho by done. tauto.
Qed.

Lemma tree_entry_storable te :
  norm_path (te_path te) → x00 ∉ te_path te → utf8_valid (te_path te) = true →
  entry_storable (index_entry_from_tree_entry te).
Proof.
  intros Hn H0 Hu. by apply fresh_flags_storable.
Qed.

Lemma stat_entry_storable md p oid :
  fits 32 (md_uid md) → fits 32 (md_gid md) → norm_path p → x00 ∉ p → utf8_valid p = true →
  entry_storable (with_oid (index_entry_new md p) oid).
Proof.
  intros Hu Hg Hn H0 Hv. apply fresh_flags_storable; try done; cbn; split_and!; try done;
    try (split; cbn); by apply fits_wrap.
Qed.

(** What the merge relies on outside the code: the metadata of files fits the format, blobs can be
    written, under the hash of their content, and merging a text with itself gives that text. *)
Class MergeLaws (metadata : Worktree → BitPath → Metadata) (write_blob : bytes → BitResult Oid)
    (merge_bytes : bytes → bytes → bytes → bytes → bytes → bytes + bytes) (hash : bytes → Oid) : Prop := {
  ml_metadata w p : fits 32 (md_uid (metadata w p)) ∧ fits 32 (md_gid (metadata w p));
  ml_write d : write_blob d = Ok (hash d);
  ml_hash d : oid_wf (hash d);
  ml_same ours theirs base d : merge_bytes ours theirs base d d = inl d;
}.

(** ** The merge of one path *)

(** The stages of a path in the index, and its file. *)
Record merged := mk_merged {
  mg_stages : list (MergeStage * Oid);
  mg_file : option (FileMode * bytes);
}.

(** The worktree has exactly this file at the path, or nothing. *)
Definition file_has (w : Worktree) (p : BitPath) (f : option (FileMode * bytes)) : Prop :=
  w !! p = (λ md, File md.1 md.2) <$> f.

Section merge_path.
Context (merge_bytes : bytes → bytes → bytes → bytes → bytes → bytes + bytes) (desc : bytes).
Context (content : Oid → bytes) (hash : bytes → Oid).

Abbreviation E := BitIndexEntry.

(** As on our side. *)
Definition ours_at (o : option E) : merged :=
  match o with
  | Some o => mk_merged [(NONE, ie_oid o)] (Some (ie_mode o, content (ie_oid o)))
  | None => mk_merged [] None
  end.

(** Their file, which is created as a regular file. *)
Definition take_theirs (t : E) : merged := mk_merged [(NONE, ie_oid t)] (Some (REG, content (ie_oid t))).

(** What writing [new] over [old] without truncating it leaves. *)
Definition written_over (new old : bytes) : bytes := new ++ drop (length new) old.

(** Both sides have changed the contents. *)
Definition merge_contents (b : option E) (o t : E) : merged :=
  let base := match b with Some b => content (ie_oid b) | None => [] end in
  let ours := content (ie_oid o) in
  match merge_bytes (bs "HEAD") desc base ours (content (ie_oid t)) with
  | inl new =>
      mk_merged [(NONE, hash (written_over new ours))] (Some (ie_mode o, written_over new ours))
  | inr conflicted =>
      mk_merged ([(THEIRS, ie_oid t); (OURS, ie_oid o)]
                 ++ match b with Some b => [(BASE, ie_oid b)] | None => [] end)
        (Some (ie_mode o, written_over conflicted ours))
  end.

(** The merge of the file at one path: a change of one side is taken; where both have changed it,
    the contents are merged, and a deletion conflicts with a modification. *)
Definition merged_at (b o t : option E) : merged :=
  match b, o, t with
  | None, None, None => ours_at None
  | None, Some o, None => ours_at (Some o)
  | None, None, Some t => take_theirs t
  | None, Some o, Some t => merge_contents None o t
  | Some _, None, None => ours_at None
  | Some b, Some o, None =>
      if bool_decide (ie_oid b = ie_oid o) then ours_at None
      else mk_merged [(OURS, ie_oid o); (BASE, ie_oid b)] (mg_file (ours_at (Some o)))
  | Some b, None, Some t =>
      if bool_decide (ie_oid b = ie_oid t) then ours_at None
      else mk_merged [(THEIRS, ie_oid t); (BASE, ie_oid b)] (mg_file (take_theirs t))
  | Some b, Some o, Some t =>
      if bool_decide (ie_oid b = ie_oid t) then ours_at (Some o)
      else if bool_decide (ie_oid b = ie_oid o) then take_theirs t
      else merge_contents (Some b) o t
  end.

(** *** The three-way merge that is meant

    By ids: a change of the mode alone is no change.  Their file comes with its mode, and merged contents
    replace the file. *)

Definition merged_text (b : option E) (o t : E) : bytes + bytes :=
  merge_bytes (bs "HEAD") desc (match b with Some b => content (ie_oid b) | None => [] end)
    (content (ie_oid o)) (content (ie_oid t)).

Definition three_way_contents (b : option E) (o t : E) : merged :=
  match merged_text b o t with
  | inl new => mk_merged [(NONE, hash new)] (Some (ie_mode o, new))
  | inr conflicted =>
      mk_merged ([(THEIRS, ie_oid t); (OURS, ie_oid o)] ++ match b with Some b => [(BASE, ie_oid b)] | None => [] end)
        (Some (ie_mode o, conflicted))
  end.

Definition three_way (b o t : option E) : merged :=
  match b, o, t with
  | _, None, None => ours_at None
  | None, Some o, None => ours_at (Some o)
  | None, None, Some t => ours_at (Some t)
  | None, Some o, Some t => three_way_contents None o t
  | Some b, Some o, None =>
      if bool_decide (ie_oid b = ie_oid o) then ours_at None
      else mk_merged [(OURS, ie_oid o); (BASE, ie_oid b)] (mg_file (ours_at (Some o)))
  | Some b, None, Some t =>
      if bool_decide (ie_oid b = ie_oid t) then ours_at None
      else mk_merged [(THEIRS, ie_oid t); (BASE, ie_oid b)] (mg_file (ours_at (Some t)))
  | Some b, Some o, Some t =>
      if bool_decide (ie_oid b = ie_oid t) then ours_at (Some o)
      else if bool_decide (ie_oid b = ie_oid o) then ours_at (Some t)
      else three_way_contents (Some b) o t
  end.

(** Where the code does it: the file that is taken from their side is a regular file, and a text that is
    merged is not shorter than our file. *)
Definition long_enough (b : option E) (o t : E) : Prop :=
  length (content (ie_oid o)) ≤ length (match merged_text b o t with inl new => new | inr new => new end).

Definition merges_exactly (b o t : option E) : Prop :=
  match b, o, t with
  | None, Some o, Some t => long_enough None o t
  | Some b, Some o, Some t =>
      ie_oid b = ie_oid t
      ∨ ie_oid b = ie_oid o ∧ ie_mode t = REG
      ∨ ie_oid b ≠ ie_oid o ∧ long_enough (Some b) o t
  | None, None, Some t => ie_mode t = REG
  | Some b, None, Some t => ie_oid b = ie_oid t ∨ ie_mode t = REG
  | _, _, None => True
  end.

Lemma written_over_long new old : length old ≤ length new → written_over new old = new.
Proof. intros Hl. unfold written_over. by rewrite drop_ge, app_nil_r. Qed.

Lemma merge_contents_exact b o t : long_enough b o t → merge_contents b o t = three_way_contents b o t.
Proof.
  unfold long_enough, merge_contents, three_way_contents. fold (merged_text b o t).
  destruct (merged_text b o t) as [new|new]; intros Hl; by rewrite written_over_long.
Qed.

Lemma merged_at_exact b o t : merges_exactly b o t → merged_at b o t = three_way b o t.
Proof.
  destruct b as [b|], o as [o|], t as [t|]; cbn [merges_exactly merged_at three_way]; try done.
  - intros Hex. case_bool_decide; [done|]. case_bool_decide.
    + destruct Hex as [?|[[_ Hm]|[? _]]]; [done| |done]. unfold take_theirs, ours_at. by rewrite Hm.
    + destruct Hex as [?|[[? _]|[_ Hl]]]; [done|done|]. by apply merge_contents_exact.
  - intros Hex. case_bool_decide; [done|]. destruct Hex as [?|Hm]; [done|]. cbn. by rewrite Hm.
  - apply merge_contents_exact.
  - intros Hm. unfold take_theirs, ours_at. by rewrite Hm.
Qed.

(** Both sides have created or modified the file. *)
Definition both_changed (b o t : option E) : bool :=
  match o, t with
  | Some o, Some t =>
      match b with
      | Some b => bool_decide (ie_oid b ≠ ie_oid o) && bool_decide (ie_oid b ≠ ie_oid t)
      | None => true
      end
  | _, _ => false
  end.
End merge_path.

Section merge_entry.
Context (metadata : Worktree → BitPath → Metadata).
Context (read_blob : Oid → BitResult bytes) (write_blob : bytes → BitResult Oid).
Context (merge_bytes : bytes → bytes → bytes → bytes → bytes → bytes + bytes) (desc : bytes) (fuel : nat).
Context (content : Oid → bytes) (hash : bytes → Oid).
Context `{!MergeLaws metadata write_blob merge_bytes hash}.
Context (W : list BitPath) (HW : prefix_free W).

(** The entry of a file in a stored tree. *)
Record blob_ok (x : BitIndexEntry) : Prop := {
  bo_blob : entry_is_blob x = true;
  bo_tree : ∃ te, x = index_entry_from_tree_entry te;
  bo_path : norm_path (ie_path x) ∧ (x00 ∉ ie_path x) ∧ utf8_valid (ie_path x) = true;
  bo_oid : is_known (ie_oid x) = true ∧ oid_wf (ie_oid x);
  bo_read : read_blob (ie_oid x) = Ok (content (ie_oid x)) ∧ hash (content (ie_oid x)) = ie_oid x;
}.

Lemma blob_ok_storable x : blob_ok x → entry_storable x.
Proof. intros [_ [te ->] (? & ? & ?) _ _]. by apply tree_entry_storable. Qed.

Lemma blob_ok_bytes w x : blob_ok x → read_to_bytes read_blob w x = Ok (content (ie_oid x)).
Proof. intros [_ _ _ [Hk _] [Hr _]]. unfold read_to_bytes. by rewrite Hk, Hr. Qed.

Lemma blob_ok_mode x : blob_ok x → ie_mode x = REG ∨ ie_mode x = EXEC ∨ ie_mode x = LINK.
Proof.
  intros [Hb _ _ _ _]. unfold entry_is_blob in Hb. cbn in Hb. destruct (ie_mode x); auto; done.
Qed.

(** The merge has only changed the path [m], where it has left [mg]. *)
Record changes_only (m : BitPath) (mg : merged) (c c' : MergeCtxt) : Prop := {
  co_in : index_in W (mc_index c');
  co_has : index_has (mc_index c') m (mg_stages mg);
  co_agree : ∀ q, q ≠ m → index_agree (mc_index c) (mc_index c') q;
  co_file : file_has (mc_worktree c') m (mg_file mg);
  co_others : ∀ q, q ≠ m →
    mc_worktree c' !! q = mc_worktree c !! q
    ∨ mc_worktree c !! q = None ∧ mc_worktree c' !! q = Some Dir ∧ above q m;
  co_uncommitted : mc_uncommitted c' = mc_uncommitted c;
}.

Abbreviation stat := (stat metadata).
Abbreviation wblob := (write_worktree_blob write_blob).

(** *** The operations *)

Lemma on_worktree_ok {A} (m : st Worktree A) c a w :
  m (mc_worktree c) = (Ok a, w) →
  on_worktree m c = (Ok a, mk_MergeCtxt (mc_index c) w (mc_uncommitted c)).
Proof. intros E. unfold on_worktree, st_zoom. by rewrite E. Qed.

Lemma on_index_ok f c idx :
  f (mc_worktree c) (mc_index c) = Ok idx →
  on_index f c = (Ok tt, mk_MergeCtxt idx (mc_worktree c) (mc_uncommitted c)).
Proof. intros E. unfold on_index. by rewrite E. Qed.

(** Adding an entry whose file is there, from its stat data. *)
Lemma fill_ok w x d mode :
  blob_ok x → w !! ie_path x = Some (File mode d) →
  ∃ e, fill (stat w) x = Ok e ∧ entry_storable e ∧ ie_path e = ie_path x ∧ ie_oid e = ie_oid x.
Proof.
  intros Hx Hw. pose proof Hx as [_ [te ->] (Hn & H0 & Hu) _ _].
  unfold fill, is_filled. cbn. unfold stat, Merge.stat. cbn in *. rewrite Hw. cbn.
  eexists. split; [reflexivity|]. split; [|done].
  destruct (ml_metadata w (te_path te)). by apply stat_entry_storable.
Qed.

Lemma idx_add_entry_ok c x mode d :
  index_in W (mc_index c) → blob_ok x → ie_path x ∈ W →
  mc_worktree c !! ie_path x = Some (File mode d) →
  ∃ idx', idx_add_entry metadata write_blob x c
      = (Ok tt, mk_MergeCtxt idx' (mc_worktree c) (mc_uncommitted c))
    ∧ index_in W idx' ∧ index_has idx' (ie_path x) [(NONE, ie_oid x)]
    ∧ ∀ q, q ≠ ie_path x → index_agree (mc_index c) idx' q.
Proof.
  intros Hi Hx Hp Hw. destruct (fill_ok _ x d mode Hx Hw) as (e & Hf & Hs & Ep & Eo).
  pose proof Hx as [_ _ _ [Hk Ho] _]. rewrite <- Ep in Hp.
  destruct (add_entry_at W HW (wblob (mc_worktree c)) (stat (mc_worktree c)) (mc_index c) x e (ie_oid x))
    as (idx' & E & Hin & Hhas & Hag); try done.
  { unfold entry_write. by rewrite Eo, Hk. }
  rewrite Ep in Hhas, Hag. exists idx'. split; [|done]. by apply on_index_ok.
Qed.

Lemma add_entry_from_path_ok c p mode d :
  index_in W (mc_index c) → norm_path p → x00 ∉ p → utf8_valid p = true → p ∈ W →
  mc_worktree c !! p = Some (File mode d) →
  ∃ idx', add_entry_from_path metadata write_blob p c
      = (Ok tt, mk_MergeCtxt idx' (mc_worktree c) (mc_uncommitted c))
    ∧ index_in W idx' ∧ index_has idx' p [(NONE, hash d)]
    ∧ ∀ q, q ≠ p → index_agree (mc_index c) idx' q.
Proof.
  intros Hi Hn H0 Hu Hp Hw. set (md := metadata (mc_worktree c) p).
  assert (stat (mc_worktree c) p = Ok md) as Hst by (unfold stat, Merge.stat; by rewrite Hw).
  assert (with_oid (index_entry_new md p) UNKNOWN = index_entry_new md p) as Ew by done.
  destruct (ml_metadata (mc_worktree c) p) as [Hui Hgi].
  pose proof (stat_entry_storable md p UNKNOWN Hui Hgi Hn H0 Hu) as Hs. rewrite Ew in Hs.
  destruct (add_entry_at W HW (wblob (mc_worktree c)) (stat (mc_worktree c)) (mc_index c)
    (index_entry_new md p) (index_entry_new md p) (hash d)) as (idx' & E & Hin & Hhas & Hag); try done.
  - unfold fill. case_match; [done|]. cbn. rewrite Hst. done.
  - unfold entry_write. cbn. unfold write_worktree_blob, read_blob_from_worktree. rewrite Hw. cbn.
    apply ml_write.
  - apply ml_hash.
  - exists idx'. split; [|done]. unfold add_entry_from_path. apply on_index_ok. rewrite Hst. cbn. done.
Qed.

Lemma idx_add_conflicted_ok c x s l :
  index_in W (mc_index c) → blob_ok x → ie_path x ∈ W → s ≠ NONE →
  index_has (mc_index c) (ie_path x) l →
  ∃ idx', idx_add_conflicted_entry write_blob x s c
      = (Ok tt, mk_MergeCtxt idx' (mc_worktree c) (mc_uncommitted c))
    ∧ index_in W idx'
    ∧ index_has idx' (ie_path x) ((s, ie_oid x) :: filter (λ so, so.1 ≠ NONE ∧ so.1 ≠ s) l)
    ∧ ∀ q, q ≠ ie_path x → index_agree (mc_index c) idx' q.
Proof.
  intros Hi Hx Hp Hs Hl. pose proof Hx as [_ _ _ [Hk Ho] _].
  destruct (add_conflicted_at W HW (wblob (mc_worktree c)) (mc_index c) x s Hi Hk Hs
    (blob_ok_storable x Hx) Ho Hp) as (idx' & E & Hin & Hhas & Hag).
  exists idx'. split_and!; [|done|by apply Hhas|done]. by apply on_index_ok.
Qed.

Lemma write_to_disk_ok c x :
  blob_ok x → mc_worktree c !! ie_path x = None →
  (∀ q, above q (ie_path x) → no_file (mc_worktree c) q) →
  ∃ w', on_worktree (write_to_disk read_blob x) c = (Ok tt, mk_MergeCtxt (mc_index c) w' (mc_uncommitted c))
    ∧ w' !! ie_path x = Some (File REG (content (ie_oid x)))
    ∧ ∀ q, q ≠ ie_path x → w' !! q = mc_worktree c !! q
        ∨ mc_worktree c !! q = None ∧ w' !! q = Some Dir ∧ above q (ie_path x).
Proof.
  intros Hx H0 Hf. pose proof Hx as [_ _ (Hn & _) _ _].
  destruct (repo_touch_ok (ie_path x) (content (ie_oid x)) (mc_worktree c) Hn H0 Hf) as (w' & E & Hat & Hot).
  exists w'. split_and!; [|done|done]. apply on_worktree_ok. unfold write_to_disk, write_to_disk_at.
  rewrite (st_bind_ok _ _ (mc_worktree c) (mc_worktree c) (mc_worktree c)) by done.
  by rewrite (st_bind_ok _ _ (mc_worktree c) (mc_worktree c) (content (ie_oid x)))
    by (unfold st_lift; by rewrite blob_ok_bytes).
Qed.

Lemma fs_overwrite_ok w p mode old new :
  w !! p = Some (File mode old) → mode ≠ LINK →
  fs_overwrite p new w = (Ok tt, <[p := File mode (written_over new old)]> w).
Proof.
  intros Hw Hm. unfold fs_overwrite.
  assert (resolve_links w p = p) as ->.
  { unfold resolve_links. cbn [follow]. rewrite Hw. by destruct mode. }
  rewrite Hw. by rewrite bool_decide_false.
Qed.

(** *** The merge of the entries of a file *)

Definition classify (b o : option BitIndexEntry) : option MergeDiffEntry :=
  match b, o with
  | None, None => None
  | None, Some o => Some (MCreatedBlob o)
  | Some b, None => Some (MDeletedBlob b)
  | Some b, Some o =>
      Some (if bool_decide (ie_oid b = ie_oid o) then MUnmodifiedBlob o else MModifiedBlob o)
  end.

(** The entry of a file at [m], if there is one. *)
Definition blob_at (m : BitPath) (o : option BitIndexEntry) : Prop :=
  ∀ x, o = Some x → blob_ok x ∧ ie_path x = m.

Lemma diff_base_to_other_blobs m b o :
  blob_at m b → blob_at m o → diff_base_to_other b o = Ok (classify b o).
Proof.
  intros Hb Ho. destruct b as [b|], o as [o|]; cbn [classify diff_base_to_other].
  - destruct (Hb b eq_refl) as [Hb1 Eb], (Ho o eq_refl) as [Ho1 Eo].
    rewrite diff_cmp_paths, Eb, Eo, (ord_refl path_cmp).
    pose proof Hb1 as [_ _ _ [-> _] _]. pose proof Ho1 as [_ _ _ [-> _] _]. cbn [assert_that mbind outcome_bind].
    destruct (blob_ok_mode b Hb1) as [->|[->| ->]], (blob_ok_mode o Ho1) as [->|[->| ->]]; by case_bool_decide.
  - destruct (Hb b eq_refl) as [Hb1 _]. unfold base_only. by destruct (blob_ok_mode b Hb1) as [->|[->| ->]].
  - destruct (Ho o eq_refl) as [Ho1 _]. unfold other_only. by destruct (blob_ok_mode o Ho1) as [->|[->| ->]].
  - done.
Qed.

Lemma index_has_perm idx p l l' : (∀ x, x ∈ l ↔ x ∈ l') → index_has idx p l → index_has idx p l'.
Proof. intros Hl Hi s o. by rewrite <- Hl. Qed.

Lemma three_way_merge_ok m b o t c :
  blob_at m b → blob_at m (Some o) → blob_at m (Some t) → m ∈ W →
  index_in W (mc_index c) → index_has (mc_index c) m [(NONE, ie_oid o)] →
  mc_worktree c !! m = Some (File (ie_mode o) (content (ie_oid o))) →
  ie_mode o = ie_mode t → ie_mode o ≠ LINK →
  ∃ c', three_way_merge metadata read_blob write_blob merge_bytes desc b o t c = (Ok tt, c')
    ∧ changes_only m (merge_contents merge_bytes desc content hash b o t) c c'.
Proof.
  intros Hb Ho Ht Hm Hi Hhas Hw Hmode Hlink.
  destruct (Ho o eq_refl) as [Ho1 Eo], (Ht t eq_refl) as [Ht1 Et].
  unfold three_way_merge. rewrite st_get_bind, Eo.
  set (base := match b with Some b => content (ie_oid b) | None => [] end).
  rewrite (st_bind_ok _ _ c c base).
  2: { unfold st_lift, base. destruct b as [b|]; [|done]. destruct (Hb b eq_refl) as [Hb1 _].
       by rewrite blob_ok_bytes. }
  rewrite (st_bind_ok _ _ c c tt) by (unfold st_lift; by rewrite bool_decide_true).
  set (old := content (ie_oid o)) in *.
  assert (∀ new, on_worktree (fs_overwrite m new) c = (Ok tt,
    mk_MergeCtxt (mc_index c) (<[m := File (ie_mode o) (written_over new old)]> (mc_worktree c)) (mc_uncommitted c))) as Hov.
  { intros new. apply on_worktree_ok. by apply fs_overwrite_ok. }
  assert (mk_MergeCtxt (mc_index c) (<[m := File (ie_mode o) (written_over [] old)]> (mc_worktree c)) (mc_uncommitted c) = c) as E0.
  { unfold written_over. cbn [app length]. rewrite drop_0, insert_id by done. by destruct c. }
  rewrite (st_bind_ok _ _ c c tt) by by rewrite Hov, E0.
  rewrite (st_bind_ok _ _ c c old) by (unfold st_lift; by rewrite blob_ok_bytes).
  rewrite (st_bind_ok _ _ c c (content (ie_oid t))) by (unfold st_lift; by rewrite blob_ok_bytes).
  unfold merge_contents. fold base old. destruct (merge_bytes (bs "HEAD") desc base old (content (ie_oid t))) as [new|new].
  - rewrite (st_bind_ok _ _ _ _ _ (Hov new)). pose proof Ho1 as [_ _ (Hn & Hnul & Hu) _ _]. rewrite Eo in Hn, Hnul, Hu.
    set (c1 := mk_MergeCtxt _ _ _).
    destruct (add_entry_from_path_ok c1 m (ie_mode o) (written_over new old)) as (idx' & E & Hin & Hha & Hag); try done.
    { cbn. by rewrite lookup_insert_eq. }
    rewrite E. eexists. split; [reflexivity|]. split; cbn; try done.
    + unfold file_has. by rewrite lookup_insert_eq.
    + intros q Hq. left. by rewrite lookup_insert_ne.
  - rewrite (st_bind_ok _ _ _ _ _ (Hov new)). set (c1 := mk_MergeCtxt _ _ _).
    assert (∃ idx1, (match b with Some b => idx_add_conflicted_entry write_blob b BASE | None => mret tt end) c1
        = (Ok tt, mk_MergeCtxt idx1 (mc_worktree c1) (mc_uncommitted c1))
      ∧ index_in W idx1
      ∧ index_has idx1 m (match b with Some b => [(BASE, ie_oid b)] | None => [(NONE, ie_oid o)] end)
      ∧ ∀ q, q ≠ m → index_agree (mc_index c) idx1 q) as (idx1 & E1 & Hi1 & Hh1 & Ha1).
    { destruct b as [b|]; [|exists (mc_index c); by split_and!]. destruct (Hb b eq_refl) as [Hb1 Eb].
      destruct (idx_add_conflicted_ok c1 b BASE [(NONE, ie_oid o)]) as (idx1 & E1 & ? & ? & ?);
        rewrite ?Eb; try done. exists idx1. rewrite Eb in *. by split_and!. }
    rewrite (st_bind_ok _ _ _ _ _ E1).
    destruct (idx_add_conflicted_ok (mk_MergeCtxt idx1 (mc_worktree c1) (mc_uncommitted c1)) o OURS
      (match b with Some b => [(BASE, ie_oid b)] | None => [(NONE, ie_oid o)] end))
      as (idx2 & E2 & Hi2 & Hh2 & Ha2); rewrite ?Eo; try done. rewrite Eo in Hh2, Ha2. cbn in E2, Ha2.
    rewrite (st_bind_ok _ _ _ _ _ E2).
    match type of Hh2 with index_has _ _ ?l =>
      destruct (idx_add_conflicted_ok (mk_MergeCtxt idx2 (mc_worktree c1) (mc_uncommitted c1)) t THEIRS l)
        as (idx3 & E3 & Hi3 & Hh3 & Ha3); rewrite ?Et; try done end.
    rewrite Et in Hh3, Ha3. cbn in E3, Ha3. unfold c1. cbn. rewrite E3. eexists. split; [reflexivity|]. split; cbn.
    + done.
    + eapply index_has_perm; [|exact Hh3]. intros x. destruct b as [b|]; cbn; set_solver.
    + intros q Hq. eapply index_agree_trans; [|by apply Ha3]. eapply index_agree_trans; [|by apply Ha2]. by apply Ha1.
    + unfold file_has. by rewrite lookup_insert_eq.
    + intros q Hq. left. by rewrite lookup_insert_ne.
    + done.
Qed.

Lemma changes_none m mg c :
  index_in W (mc_index c) → index_has (mc_index c) m (mg_stages mg) →
  file_has (mc_worktree c) m (mg_file mg) → changes_only m mg c c.
Proof. intros ???. split; try done. by left. Qed.

Lemma idx_remove_entry_ok c x l :
  index_in W (mc_index c) → blob_ok x → ie_path x ∈ W → index_has (mc_index c) (ie_path x) l →
  (∀ s o, (s, o) ∈ l → s = NONE) →
  ∃ idx', idx_remove_entry x c = (Ok tt, mk_MergeCtxt idx' (mc_worktree c) (mc_uncommitted c))
    ∧ index_in W idx' ∧ index_has idx' (ie_path x) []
    ∧ ∀ q, q ≠ ie_path x → index_agree (mc_index c) idx' q.
Proof.
  intros Hi Hx Hp Hl Hst. destruct (blob_ok_storable x Hx) as (Hk & _).
  destruct (remove_entry_at W (mc_index c) (ie_path x) Hi Hp) as (Hin & Hhas & Hag).
  { intros s e He. apply (Hst s (ie_oid e)). apply (Hl s (ie_oid e)). by exists e. }
  exists (remove_entry (mc_index c) (ie_path x, NONE)). split; [|done].
  unfold idx_remove_entry. apply on_index_ok. by rewrite Hk.
Qed.

Lemma write_and_add_blob_ok c x :
  index_in W (mc_index c) → blob_ok x → ie_path x ∈ W →
  mc_worktree c !! ie_path x = None → (∀ q, above q (ie_path x) → no_file (mc_worktree c) q) →
  ∃ c', write_and_add_blob metadata read_blob write_blob x c = (Ok tt, c')
    ∧ changes_only (ie_path x) (take_theirs content x) c c'.
Proof.
  intros Hi Hx Hp H0 Hf. destruct (write_to_disk_ok c x Hx H0 Hf) as (w' & E & Hw & Hot).
  unfold write_and_add_blob. rewrite (st_bind_ok _ _ _ _ _ E).
  destruct (idx_add_entry_ok (mk_MergeCtxt (mc_index c) w' (mc_uncommitted c)) x REG (content (ie_oid x)))
    as (idx' & E2 & Hin & Hhas & Hag); [done..|].
  rewrite E2. eexists. split; [reflexivity|]. by split.
Qed.

Lemma update_blob_ok c x mode d :
  index_in W (mc_index c) → blob_ok x → ie_path x ∈ W →
  mc_worktree c !! ie_path x = Some (File mode d) → (∀ q, above q (ie_path x) → no_file (mc_worktree c) q) →
  ∃ c', update_blob metadata read_blob write_blob x c = (Ok tt, c')
    ∧ changes_only (ie_path x) (take_theirs content x) c c'.
Proof.
  intros Hi Hx Hp Hw Hf. unfold update_blob.
  set (c1 := mk_MergeCtxt (mc_index c) (delete (ie_path x) (mc_worktree c)) (mc_uncommitted c)).
  assert (on_worktree (repo_rm (ie_path x)) c = (Ok tt, c1)) as E1.
  { apply on_worktree_ok. unfold repo_rm, fs_remove_file. by rewrite Hw. }
  rewrite (st_bind_ok _ _ _ _ _ E1).
  destruct (write_and_add_blob_ok c1 x) as (c' & E & [H1 H2 H3 H4 H5 H6]); [done..| | |].
  - cbn. by rewrite lookup_delete_eq.
  - intros q Hq. intros mode' d'. cbn. rewrite lookup_delete_ne by (by destruct Hq as (_ & ? & _)). by apply Hf.
  - exists c'. split; [done|]. split; try done. intros q Hq. specialize (H5 q Hq). cbn in H5.
    by rewrite lookup_delete_ne in H5.
Qed.

Lemma add_conflicted_base_ok m b c l :
  blob_at m (Some b) → m ∈ W → index_in W (mc_index c) → index_has (mc_index c) m l →
  (∀ s o, (s, o) ∈ l → s = NONE) →
  ∃ idx', add_conflicted_base write_blob (Some b) c
      = (Ok tt, mk_MergeCtxt idx' (mc_worktree c) (mc_uncommitted c))
    ∧ index_in W idx' ∧ index_has idx' m [(BASE, ie_oid b)]
    ∧ ∀ q, q ≠ m → index_agree (mc_index c) idx' q.
Proof.
  intros Hb Hm Hi Hl Hst. destruct (Hb b eq_refl) as [Hb1 Eb].
  destruct (idx_add_conflicted_ok c b BASE l) as (idx' & E & Hin & Hhas & Hag); rewrite ?Eb; try done.
  rewrite Eb in *. exists idx'. split; [done|]. split_and!; [done| |done].
  rewrite filter_none in Hhas; [done|]. intros [s o] Hso [Hs _]. by apply Hs, (Hst s o).
Qed.

(** The merge of the entries of one file changes nothing but that file, and leaves there the merge
    of the contents. *)
Lemma merge_entries_blob m b o t c :
  blob_at m b → blob_at m o → blob_at m t → m ∈ W →
  index_in W (mc_index c) → index_has (mc_index c) m (mg_stages (ours_at content o)) →
  file_has (mc_worktree c) m (mg_file (ours_at content o)) →
  (∀ q, above q m → no_file (mc_worktree c) q) →
  (∀ o' t', o = Some o' → t = Some t' → both_changed b o t = true →
     ie_mode o' = ie_mode t' ∧ ie_mode o' ≠ LINK) →
  ∃ c', merge_entries metadata read_blob write_blob merge_bytes desc fuel b o t c = (Ok tt, c')
    ∧ changes_only m (merged_at merge_bytes desc content hash b o t) c c'.
Proof.
  intros Hb Ho Ht Hm Hi Hhas Hw Hab Hmodes. unfold merge_entries.
  rewrite (st_bind_ok _ _ c c (classify b o)) by (unfold st_lift; by rewrite (diff_base_to_other_blobs m)).
  rewrite (st_bind_ok _ _ c c (classify b t)) by (unfold st_lift; by rewrite (diff_base_to_other_blobs m)).
  assert (∀ s o', (s, o') ∈ mg_stages (ours_at content o) → s = NONE) as Hst.
  { intros s o' Hs. destruct o; cbn in Hs; [|by apply elem_of_nil in Hs].
    apply list_elem_of_singleton in Hs. by injection Hs. }
  destruct b as [b|], o as [o|], t as [t|]; cbn [classify merged_at both_changed ours_at mg_stages mg_file] in *.
  - destruct (Hb b eq_refl) as [Hb1 Eb], (Ho o eq_refl) as [Ho1 Eo], (Ht t eq_refl) as [Ht1 Et].
    destruct (decide (ie_oid b = ie_oid t)) as [Ebt|Nbt];
      [rewrite (bool_decide_true (ie_oid b = ie_oid t)) by done|rewrite (bool_decide_false (ie_oid b = ie_oid t)) by done];
      (destruct (decide (ie_oid b = ie_oid o)) as [Ebo|Nbo];
      [rewrite (bool_decide_true (ie_oid b = ie_oid o)) by done|rewrite (bool_decide_false (ie_oid b = ie_oid o)) by done]);
      cbn [merge_entry].
    + exists c. split; [done|]. by apply changes_none.
    + destruct (idx_add_entry_ok c o (ie_mode o) (content (ie_oid o))) as (idx' & E & ? & ? & ?); rewrite ?Eo; try done.
      rewrite E. eexists. split; [reflexivity|]. rewrite Eo in *. split; try done. by left.
    + destruct (update_blob_ok c t (ie_mode o) (content (ie_oid o))) as (c' & E & Hc); rewrite ?Et; try done.
      rewrite Et in Hc. by exists c'.
    + destruct (Hmodes o t eq_refl eq_refl) as [? ?]; [by rewrite !bool_decide_true|].
      by apply three_way_merge_ok.
  - destruct (Hb b eq_refl) as [Hb1 Eb], (Ho o eq_refl) as [Ho1 Eo].
    destruct (decide (ie_oid b = ie_oid o)) as [Ebo|Nbo];
      [rewrite (bool_decide_true (ie_oid b = ie_oid o)) by done|rewrite (bool_decide_false (ie_oid b = ie_oid o)) by done];
      cbn [merge_entry].
    + set (c1 := mk_MergeCtxt (mc_index c) (delete m (mc_worktree c)) (mc_uncommitted c)).
      assert (on_worktree (repo_rm (ie_path b)) c = (Ok tt, c1)) as E1.
      { apply on_worktree_ok. unfold repo_rm, fs_remove_file. unfold file_has in Hw. rewrite Eb, Hw. done. }
      rewrite (st_bind_ok _ _ c c1 tt) by (unfold st_match; by rewrite E1).
      destruct (idx_remove_entry_ok c1 b [(NONE, ie_oid o)]) as (idx' & E & ? & ? & ?); rewrite ?Eb; try done.
      rewrite E. eexists. split; [reflexivity|]. rewrite Eb in *. split; cbn; try done.
      * unfold file_has. by rewrite lookup_delete_eq.
      * intros q Hq. left. by rewrite lookup_delete_ne.
    + destruct (add_conflicted_base_ok m b c [(NONE, ie_oid o)]) as (idx1 & E1 & Hi1 & Hh1 & Ha1); [done..|].
      rewrite (st_bind_ok _ _ _ _ _ E1).
      destruct (idx_add_conflicted_ok (mk_MergeCtxt idx1 (mc_worktree c) (mc_uncommitted c)) o OURS [(BASE, ie_oid b)])
        as (idx2 & E2 & Hi2 & Hh2 & Ha2); rewrite ?Eo; try done.
      rewrite E2. eexists. split; [reflexivity|]. rewrite Eo in *. split; cbn; try done.
      * intros q Hq. eapply index_agree_trans; [by apply Ha1|by apply Ha2].
      * by left.
  - destruct (Hb b eq_refl) as [Hb1 Eb], (Ht t eq_refl) as [Ht1 Et].
    destruct (decide (ie_oid b = ie_oid t)) as [Ebt|Nbt];
      [rewrite (bool_decide_true (ie_oid b = ie_oid t)) by done|rewrite (bool_decide_false (ie_oid b = ie_oid t)) by done];
      cbn [merge_entry].
    + destruct (idx_remove_entry_ok c b []) as (idx' & E & ? & ? & ?); rewrite ?Eb; try done.
      rewrite E. eexists. split; [reflexivity|]. rewrite Eb in *. split; cbn; try done. by left.
    + destruct (add_conflicted_base_ok m b c []) as (idx1 & E1 & Hi1 & Hh1 & Ha1); [done..|].
      rewrite (st_bind_ok _ _ _ _ _ E1).
      destruct (idx_add_conflicted_ok (mk_MergeCtxt idx1 (mc_worktree c) (mc_uncommitted c)) t THEIRS [(BASE, ie_oid b)])
        as (idx2 & E2 & Hi2 & Hh2 & Ha2); rewrite ?Et; try done.
      rewrite (st_bind_ok _ _ _ _ _ E2). cbn.
      destruct (write_to_disk_ok (mk_MergeCtxt idx2 (mc_worktree c) (mc_uncommitted c)) t) as (w' & E3 & Hw' & Hot);
        rewrite ?Et; try done.
      rewrite E3. eexists. split; [reflexivity|]. rewrite Et in *. split; cbn; try done.
      intros q Hq. eapply index_agree_trans; [by apply Ha1|by apply Ha2].
  - destruct (Hb b eq_refl) as [Hb1 Eb]. cbn [merge_entry].
    destruct (idx_remove_entry_ok c b []) as (idx' & E & ? & ? & ?); rewrite ?Eb; try done.
    rewrite E. eexists. split; [reflexivity|]. rewrite Eb in *. split; cbn; try done. by left.
  - cbn [merge_entry]. destruct (Hmodes o t eq_refl eq_refl eq_refl) as [? ?].
    by apply three_way_merge_ok.
  - destruct (Ho o eq_refl) as [Ho1 Eo]. cbn [base_to_ours_only].
    destruct (idx_add_entry_ok c o (ie_mode o) (content (ie_oid o))) as (idx' & E & ? & ? & ?); rewrite ?Eo; try done.
    rewrite E. eexists. split; [reflexivity|]. rewrite Eo in *. split; try done. by left.
  - destruct (Ht t eq_refl) as [Ht1 Et]. cbn [base_to_theirs_only].
    pose proof Ht1 as [_ _ (Hn & _) _ _]. rewrite Et in Hn.
    rewrite (st_bind_ok _ _ c c false).
    2: { unfold path_exists, on_worktree, st_zoom, fs_exists, resolve_links. cbn [follow].
         unfold file_has in Hw. rewrite Et, Hw. cbn. rewrite Hw. unfold is_empty.
         rewrite bool_decide_false by by apply norm_not_empty. by destruct c. }
    destruct (write_and_add_blob_ok c t) as (c' & E & Hc); rewrite ?Et; try done.
    rewrite Et in Hc. by exists c'.
  - exists c. split; [done|]. by apply changes_none.
Qed.
End merge_entry.

(** ** The merge of trees *)

Definition has_dir (l : list BitIndexEntry) (d : BitPath) : Prop :=
  ∃ x, x ∈ l ∧ entry_is_tree x = true ∧ ie_path x = d.

Definition has_path (l : list BitIndexEntry) (d : BitPath) : Prop := ∃ x, x ∈ l ∧ ie_path x = d.

#[export] Instance has_dir_dec l d : Decision (has_dir l d).
Proof.
  refine (cast_if (decide (Exists (λ x, entry_is_tree x = true ∧ ie_path x = d) l)));
    rewrite Exists_exists in *; done.
Defined.

(** The listings of stored trees: a root, with every entry its directories, and the same entries
    below trees with the same id. *)
Record tree_lists (ls : list (list BitIndexEntry)) : Prop := {
  tl_walk : walk_lists ls;
  tl_root : ∀ l, l ∈ ls → has_dir l EMPTY;
  tl_closed : ∀ l x q, l ∈ ls → x ∈ l → above q (ie_path x) → has_dir l q;
  tl_same : ∀ l l' t t' x, l ∈ ls → l' ∈ ls → t ∈ l → t' ∈ l' →
    entry_is_tree t = true → entry_is_tree t' = true → ie_path t = ie_path t' → ie_oid t = ie_oid t' →
    x ∈ l → above (ie_path t) (ie_path x) → x ∈ l';
  tl_known : ∀ l t, l ∈ ls → t ∈ l → entry_is_tree t = true → is_known (ie_oid t) = true;
}.

(** No path is a file in one tree and a directory in another. *)
Definition no_clash (ls : list (list BitIndexEntry)) : Prop :=
  ∀ l l' x y, l ∈ ls → l' ∈ ls → x ∈ l → y ∈ l' → ie_path x = ie_path y →
    entry_is_tree x = entry_is_tree y.

(** The files of the trees. *)
Definition file_paths (ls : list (list BitIndexEntry)) : list BitPath :=
  ie_path <$> List.filter entry_is_blob (concat ls).

Lemma elem_of_file_paths ls p :
  p ∈ file_paths ls ↔ ∃ l x, l ∈ ls ∧ x ∈ l ∧ entry_is_blob x = true ∧ ie_path x = p.
Proof.
  unfold file_paths. rewrite list_elem_of_fmap. split.
  - intros (x & -> & Hx%list_elem_of_In). apply List.filter_In in Hx as [Hx%list_elem_of_In Hb].
    apply list_elem_of_In, in_concat in Hx as (l & Hl%list_elem_of_In & Hx%list_elem_of_In).
    by exists l, x.
  - intros (l & x & Hl & Hx & Hb & <-). exists x. split; [done|]. apply list_elem_of_In, List.filter_In.
    split; [|done]. apply in_concat. exists l. split; by apply list_elem_of_In.
Qed.

(** The path does not occur any more. *)
Definition settled (ls : list (list BitIndexEntry)) (p : BitPath) : Prop :=
  Forall (λ l, Forall (λ x, ie_path x ≠ p) l) ls.

#[export] Instance settled_dec ls p : Decision (settled ls p).
Proof. unfold settled. apply _. Defined.

Lemma settled_spec ls p : settled ls p ↔ ∀ l x, l ∈ ls → x ∈ l → ie_path x ≠ p.
Proof.
  unfold settled. rewrite Forall_forall. setoid_rewrite Forall_forall. naive_solver.
Qed.

Section lists.
Context (Ls : list (list BitIndexEntry)) (HLs : tree_lists Ls) (clash : no_clash Ls).

Lemma tl_rel l x : l ∈ Ls → x ∈ l → rel_path (ie_path x).
Proof.
  intros Hl Hx. destruct HLs as [[Hw _] _ _ _ _]. rewrite Forall_forall in Hw.
  destruct (Hw l Hl) as [_ Hr]. rewrite Forall_forall in Hr. by apply Hr.
Qed.

Lemma tl_diff l : l ∈ Ls → diff_list l.
Proof. intros Hl. destruct HLs as [[Hw _] _ _ _ _]. rewrite Forall_forall in Hw. apply (Hw l Hl). Qed.

Lemma file_path_no_dir p l : p ∈ file_paths Ls → l ∈ Ls → ¬ has_dir l p.
Proof.
  intros (l' & x & Hl' & Hx & Hb & Ep)%elem_of_file_paths Hl (y & Hy & Ht & Ey).
  rewrite (clash l l' y x) in Ht by (done || congruence). by apply (blob_not_tree x).
Qed.

Lemma file_path_rel p : p ∈ file_paths Ls → rel_path p.
Proof. intros (l & x & Hl & Hx & _ & <-)%elem_of_file_paths. by eapply tl_rel. Qed.

Lemma above_no_file p q l x : l ∈ Ls → x ∈ l → ie_path x = p → above q p → q ∉ file_paths Ls.
Proof.
  intros Hl Hx <- Hab Hq. apply (file_path_no_dir q l Hq Hl). by eapply (tl_closed Ls).
Qed.

Lemma file_paths_prefix_free : prefix_free (file_paths Ls).
Proof.
  intros p q Hp Hq Hu. pose proof Hq as (l & y & Hl & Hy & _ & Ey)%elem_of_file_paths.
  assert (∀ r, r ∈ file_paths Ls → norm_path r) as Hnorm.
  { intros r Hr. destruct (file_path_rel r Hr) as [->|?]; [|done]. exfalso.
    apply (file_path_no_dir EMPTY l Hr Hl). by apply (tl_root Ls). }
  apply (above_no_file q p l y Hl Hy Ey); [|done]. apply above_under; auto.
Qed.

Lemma file_path_norm p : p ∈ file_paths Ls → norm_path p.
Proof.
  intros Hp. pose proof Hp as (l & y & Hl & _ & _ & _)%elem_of_file_paths.
  destruct (file_path_rel p Hp) as [->|?]; [|done]. exfalso.
  apply (file_path_no_dir EMPTY l Hp Hl). by apply (tl_root Ls).
Qed.

(** At the path of a file, an entry is a file. *)
Lemma find_blob_find_at p l : p ∈ file_paths Ls → l ∈ Ls → find_blob p l = find_at p l.
Proof.
  intros Hp Hl. apply option_eq. intros x. rewrite (find_at_Some p l x (tl_diff l Hl)). split.
  - intros (? & _ & ?)%find_blob_Some. done.
  - intros [Hx Ex]. unfold find_blob.
    assert (List.find (λ y, entry_is_blob y && bool_decide (ie_path y = p)) l = find_at p l) as ->.
    + unfold find_at. clear x Hx Ex. assert (∀ y, y ∈ l → ie_path y = p → entry_is_blob y = true) as Hb.
      { intros y Hy Ey. pose proof (file_path_no_dir p l Hp Hl) as Hno. pose proof (tl_diff l Hl) as (_ & Hg & _).
        rewrite Forall_forall in Hg. specialize (Hg y Hy). unfold has_dir, entry_is_tree in Hno.
        assert (is_tree (entry_mode y) ≠ true) as Ht by (intros Ht; by apply Hno; exists y).
        unfold entry_is_blob. cbn in *. by destruct (ie_mode y). }
      clear Hl. induction l as [|y l IH]; [done|]. cbn. case_bool_decide as Ey.
      * rewrite (Hb y) by (done || by left). done.
      * rewrite andb_false_r. apply IH. intros z Hz. apply Hb. by right.
    + by apply (find_at_Some p l x (tl_diff l Hl)).
Qed.

Lemma entry_tree_or_blob l x : l ∈ Ls → x ∈ l → entry_is_tree x = true ∨ entry_is_blob x = true.
Proof.
  intros Hl Hx. pose proof (tl_diff l Hl) as (_ & Hg & _). rewrite Forall_forall in Hg. specialize (Hg x Hx).
  unfold entry_is_tree, entry_is_blob. cbn. destruct (ie_mode x); auto; done.
Qed.
End lists.

(** *** The walk as a sequence of settled paths *)

(** The entries of [Ls] that are not settled are those of [ls], which a walk has still to visit. *)
Record walking (Ls ls : list (list BitIndexEntry)) : Prop := {
  wk_lists : walk_lists ls;
  wk_rest : Forall2 (λ l L, ∀ x, x ∈ l ↔ x ∈ L ∧ ¬ settled ls (ie_path x)) ls Ls;
  wk_below : ∀ l x L y, l ∈ ls → x ∈ l → L ∈ Ls → y ∈ L → settled ls (ie_path y) →
    ¬ above (ie_path x) (ie_path y);
}.

Section walking.
Context (Ls : list (list BitIndexEntry)) (HLs : tree_lists Ls).

Lemma walking_start : walking Ls Ls.
Proof.
  split; [by apply tl_walk| |].
  - apply Forall2_same_length_lookup. split; [done|]. intros i l L Hi HL. rewrite Hi in HL. injection HL as <-.
    intros x. split; [|by intros []]. intros Hx. split; [done|]. rewrite settled_spec. intros Hs.
    apply list_elem_of_lookup_2 in Hi. by apply (Hs l x Hi Hx).
  - intros l x L y _ _ HL Hy Hs. rewrite settled_spec in Hs. by destruct (Hs L y HL Hy).
Qed.

Context (ls : list (list BitIndexEntry)) (m : BitPath) (Hwk : walking Ls ls) (least : least_head m ls).

Lemma walking_subset l x : l ∈ ls → x ∈ l → ∃ L, L ∈ Ls ∧ x ∈ L.
Proof.
  intros [i Hi]%list_elem_of_lookup Hx. destruct (Forall2_lookup_l _ _ _ _ _ (wk_rest _ _ Hwk) Hi) as (L & HL & HR).
  exists L. split; [by eapply list_elem_of_lookup_2|]. by apply HR.
Qed.

Lemma not_settled p : ¬ settled ls p ↔ ∃ l x, l ∈ ls ∧ x ∈ l ∧ ie_path x = p.
Proof.
  split.
  - intros Hn. unfold settled in Hn. apply not_Forall_Exists in Hn; [|apply _].
    apply Exists_exists in Hn as (l & Hl & Hn). apply not_Forall_Exists in Hn; [|apply _].
    apply Exists_exists in Hn as (x & Hx & Hn). exists l, x. split_and!; [done..|].
    destruct (decide (ie_path x = p)); [done|]. by destruct Hn.
  - intros (l & x & Hl & Hx & Ex) Hs. rewrite settled_spec in Hs. by apply (Hs l x).
Qed.

Lemma least_not_settled : ¬ settled ls m.
Proof.
  destruct least as [(x & k & Hl & Ex) _]. apply not_settled. exists (x :: k), x.
  split_and!; [done|by left|done].
Qed.

(** The entries at the path of the step are those of the whole listings. *)
Lemma walking_row : row_at m ls = find_at m <$> Ls.
Proof.
  rewrite (row_at_find m ls (wk_lists _ _ Hwk) least). apply list_eq. intros i. rewrite !list_lookup_fmap.
  destruct (ls !! i) as [l|] eqn:El.
  - destruct (Forall2_lookup_l _ _ _ _ _ (wk_rest _ _ Hwk) El) as (L & HL & HR). rewrite HL. cbn. f_equal.
    apply list_elem_of_lookup_2 in El, HL.
    apply find_at_ext; [by apply (step_diff_list ls (wk_lists _ _ Hwk))|by apply (tl_diff Ls)|].
    intros x Ex. rewrite HR, Ex. pose proof least_not_settled. tauto.
  - destruct (Ls !! i) as [L|] eqn:EL; [|done]. apply lookup_ge_None in El. apply lookup_lt_Some in EL.
    pose proof (Forall2_length _ _ _ (wk_rest _ _ Hwk)). lia.
Qed.

Lemma settled_step p :
  settled (step_lists m ls) p ↔
  settled ls p ∨ p = m ∨ steps_over (row_at m ls) = true ∧ path_starts_with p m = true.
Proof.
  split.
  - intros Hs. destruct (decide (settled ls p)) as [|Hn]; [by left|right].
    apply not_settled in Hn as (l & x & Hl & Hx & Ex).
    destruct (decide (p = m)) as [|Hne]; [by left|right].
    destruct (decide (steps_over (row_at m ls) = true ∧ path_starts_with p m = true)) as [|Hno]; [done|].
    exfalso. rewrite settled_spec in Hs.
    apply (Hs (step_list (steps_over (row_at m ls)) l (head_at m l)) x); [apply list_elem_of_fmap; by exists l| |done].
    apply elem_of_step; [by apply wk_lists with Ls|done|done|]. unfold within. rewrite Ex. by split_and!.
  - intros Hs. apply settled_spec. intros l' x (l & Hl & ->)%elem_of_step_lists Hx%elem_of_step Ex; [|by apply (wk_lists _ _ Hwk)|done|done].
    destruct Hx as (Hx & Hne & Hno). unfold within in Hno. rewrite Ex in Hno, Hne.
    destruct Hs as [Hs|[->|?]]; [|done|done]. rewrite settled_spec in Hs. by apply (Hs l x).
Qed.

Lemma walking_step : walking Ls (step_lists m ls).
Proof.
  pose proof (wk_lists _ _ Hwk) as Hwf. split; [by apply step_walk_lists| |].
  - apply Forall2_same_length_lookup. pose proof (wk_rest _ _ Hwk) as HR.
    split; [unfold step_lists; rewrite length_fmap; by eapply Forall2_length|].
    intros i l' L Hl' HL x. unfold step_lists in Hl'. rewrite list_lookup_fmap in Hl'.
    apply fmap_Some in Hl' as (l & Hl & ->). pose proof (Forall2_lookup_lr _ _ _ _ _ _ HR Hl HL) as Hx.
    apply list_elem_of_lookup_2 in Hl. cbn beta in Hx. rewrite elem_of_step, (Hx x), settled_step by done.
    unfold within. tauto.
  - intros l' x L y Hl' Hx HL Hy Hs Hab.
    pose proof (step_paths_to_come m ls Hwf least l' x Hl' Hx) as [Hlt Hw].
    apply elem_of_step_lists in Hl' as (l & Hl & ->). apply elem_of_step in Hx as (Hx & Hne & Hno); [|done..].
    assert (rel_path (ie_path x)) as Hrx by by (eapply step_rel; [exact Hwf|exact Hl|]).
    assert (rel_path m) as Hrm.
    { destruct least as [(z & k & Hk & <-) _]. eapply step_rel; [exact Hwf|exact Hk|by left]. }
    assert (¬ above (ie_path x) m) as Hxm.
    { intros Ha. apply above_cmp in Ha; [|done]. apply (ord_gt path_cmp) in Ha. congruence. }
    apply settled_step in Hs as [Hs|[Em|[Ho Hs]]]; [by eapply (wk_below _ _ Hwk)|by rewrite Em in Hab|].
    apply path_starts_above in Hs as [Em|Hmy]; [by rewrite <- Em in Hab| |done].
    destruct (above_comparable _ _ _ Hab Hmy) as [?|[?|Hmx]]; [done|done|].
    apply Hno. split; [done|]. unfold within. apply path_starts_above; [done|by right].
Qed.
End walking.

(** *** The merge of three trees *)

Section merge_trees.
Context (metadata : Worktree → BitPath → Metadata).
Context (read_blob : Oid → BitResult bytes) (write_blob : bytes → BitResult Oid).
Context (merge_bytes : bytes → bytes → bytes → bytes → bytes → bytes + bytes) (desc : bytes) (fuel : nat).
Context (content : Oid → bytes) (hash : bytes → Oid).
Context `{!MergeLaws metadata write_blob merge_bytes hash}.
Context (LB LO LT : list BitIndexEntry).

Abbreviation Ls := [LB; LO; LT].
Abbreviation W := (file_paths Ls).

(** What the three trees must satisfy: files can be read and stored, there is no clash between files
    and directories, where both sides have changed a file it has the same mode on both and is no
    link, and their side has no new directory in one that our side has deleted. *)
Record mergeable : Prop := {
  mt_clash : no_clash Ls;
  mt_blobs : ∀ l x, l ∈ Ls → x ∈ l → entry_is_blob x = true → blob_ok read_blob content hash x;
  mt_modes : ∀ p o t, find_blob p LO = Some o → find_blob p LT = Some t →
    both_changed (find_blob p LB) (Some o) (Some t) = true → ie_mode o = ie_mode t ∧ ie_mode o ≠ LINK;
  mt_dirs : ∀ d n, rel_path d → entry_name n → has_dir LT (join d n) → ¬ has_path LB (join d n) →
    has_path LB d → has_path LO d;
}.

Context (HL : tree_lists Ls) (HM : mergeable).

(** The merge of each path on its own. *)
Definition merge_result (p : BitPath) : merged :=
  merged_at merge_bytes desc content hash (find_blob p LB) (find_blob p LO) (find_blob p LT).

(** The index and the worktree, up to directories, hold this for every file. *)
Definition holds (c : MergeCtxt) (f : BitPath → merged) : Prop :=
  index_in W (mc_index c)
  ∧ (∀ p, p ∈ W → index_has (mc_index c) p (mg_stages (f p)))
  ∧ (∀ p, p ∈ W → file_has (mc_worktree c) p (mg_file (f p)))
  ∧ (∀ p, p ∉ W → no_file (mc_worktree c) p).

(** Our tree is checked out, without changes and without anything else. *)
Definition checked_out (c : MergeCtxt) : Prop :=
  holds c (λ p, ours_at content (find_blob p LO))
  ∧ (∀ d, mc_worktree c !! d = Some Dir → has_path LO d)
  ∧ (∀ d, has_dir LO d → is_dir_at (mc_worktree c) d = true).

(** In the middle of the walk: what is settled has been merged. *)
Definition state_at (ls : list (list BitIndexEntry)) (p : BitPath) : merged :=
  if decide (settled ls p) then merge_result p else ours_at content (find_blob p LO).

(** The directories that the code relies on. *)
Definition dir_needed (ls : list (list BitIndexEntry)) (d : BitPath) : Prop :=
  has_dir LO d ∧ (¬ settled ls d ∨ has_dir LT d)
  ∨ has_dir LT d ∧ ¬ has_path LB d ∧ settled ls d.

Record merging (ls : list (list BitIndexEntry)) (c : MergeCtxt) : Prop := {
  mi_walk : walking Ls ls;
  mi_holds : holds c (state_at ls);
  mi_dirs_known : ∀ d, mc_worktree c !! d = Some Dir →
    has_path LO d ∨ ∃ l x, l ∈ Ls ∧ x ∈ l ∧ settled ls (ie_path x) ∧ (d = ie_path x ∨ above d (ie_path x));
  mi_dirs : ∀ d, dir_needed ls d → is_dir_at (mc_worktree c) d = true;
}.

Lemma elem_Ls l : l ∈ Ls ↔ l = LB ∨ l = LO ∨ l = LT.
Proof. rewrite !elem_of_cons, elem_of_nil. naive_solver. Qed.

Section step.
Context (ls : list (list BitIndexEntry)) (c : MergeCtxt) (m : BitPath).
Context (HI : merging ls c) (least : least_head m ls).

Abbreviation ls' := (step_lists m ls).
Abbreviation b := (find_at m LB).
Abbreviation o := (find_at m LO).
Abbreviation t := (find_at m LT).

Lemma row_eq : row_at m ls = [b; o; t].
Proof. apply (walking_row Ls); [exact HL|apply HI|done]. Qed.

Lemma find_at_entry l x : l ∈ Ls → find_at m l = Some x ↔ x ∈ l ∧ ie_path x = m.
Proof. intros Hl. apply find_at_Some. eapply tl_diff; [exact HL|done]. Qed.

Lemma row_entry : ∃ l x, l ∈ Ls ∧ x ∈ l ∧ ie_path x = m ∧ find_at m l = Some x.
Proof.
  destruct least as [(x & k & Hl & Ex) _].
  destruct (walking_subset Ls ls (mi_walk _ _ HI) (x :: k) x Hl ltac:(by left)) as (L & HLs & Hx).
  exists L, x. split_and!; [done..|]. by apply find_at_entry.
Qed.

Lemma m_rel : rel_path m.
Proof. destruct row_entry as (l & x & Hl & Hx & <- & _). eapply tl_rel; [exact HL|exact Hl|done]. Qed.

Lemma settled_step_eq p :
  settled ls' p ↔ settled ls p ∨ p = m ∨ steps_over [b; o; t] = true ∧ path_starts_with p m = true.
Proof. rewrite <- row_eq. apply (settled_step Ls); [apply HI|done]. Qed.

Lemma m_not_settled : ¬ settled ls m.
Proof. by apply least_not_settled. Qed.

Lemma state_at_m : state_at ls m = ours_at content (find_blob m LO).
Proof. unfold state_at. by rewrite decide_False by apply m_not_settled. Qed.

Lemma state_at_keeps p : (settled ls' p ↔ settled ls p) → state_at ls' p = state_at ls p.
Proof. intros Hs. unfold state_at. repeat case_decide; tauto. Qed.

Lemma state_at_done p : settled ls' p → state_at ls' p = merge_result p.
Proof. intros Hs. unfold state_at. by rewrite decide_True. Qed.

Lemma dirs_known_mono d :
  (has_path LO d ∨ ∃ l x, l ∈ Ls ∧ x ∈ l ∧ settled ls (ie_path x) ∧ (d = ie_path x ∨ above d (ie_path x))) →
  has_path LO d ∨ ∃ l x, l ∈ Ls ∧ x ∈ l ∧ settled ls' (ie_path x) ∧ (d = ie_path x ∨ above d (ie_path x)).
Proof.
  intros [?|(l & x & ? & ? & ? & ?)]; [by left|right]. exists l, x. split_and!; try done.
  apply settled_step_eq. by left.
Qed.

(** *** The step at a file *)

Lemma row_blob_or_tree :
  m ∈ W ∨ ((m ∉ W) ∧ ∀ l x, l ∈ Ls → find_at m l = Some x → entry_is_tree x = true).
Proof.
  destruct row_entry as (l & x & Hl & Hx & Em & _).
  destruct (entry_tree_or_blob Ls HL l x Hl Hx) as [Ht|Hb].
  - right. split.
    + intros Hm. apply (file_path_no_dir Ls HM.(mt_clash) m l Hm Hl). by exists x.
    + intros l' y Hl' [Hy Ey]%find_at_entry; [|done].
      rewrite (HM.(mt_clash) l' l y x); [done..|congruence].
  - left. apply elem_of_file_paths. by exists l, x.
Qed.

Lemma blob_at_row l : m ∈ W → l ∈ Ls → blob_at read_blob content hash m (find_at m l).
Proof.
  intros Hm Hl x Hx. rewrite <- (find_blob_find_at Ls HL HM.(mt_clash)) in Hx by done.
  apply find_blob_Some in Hx as (Hx & Hb & Ex). split; [|done]. by eapply (mt_blobs HM).
Qed.

Lemma blob_step :
  m ∈ W →
  ∃ c', merge_entries metadata read_blob write_blob merge_bytes desc fuel b o t c = (Ok tt, c')
    ∧ merging ls' c' ∧ mc_uncommitted c' = mc_uncommitted c.
Proof.
  intros Hm. pose proof (mt_clash HM) as Hcl.
  assert (∀ l, l ∈ Ls → find_blob m l = find_at m l) as Hfb by (intros l Hl; by apply (find_blob_find_at Ls)).
  destruct (mi_holds _ _ HI) as (Hin & Hhas & Hfile & Hnof).
  pose proof (Hhas m Hm) as Hhm. pose proof (Hfile m Hm) as Hfm. rewrite state_at_m in Hhm, Hfm.
  assert (LB ∈ Ls ∧ LO ∈ Ls ∧ LT ∈ Ls) as (HB & HO & HT) by by rewrite !elem_Ls; auto.
  rewrite (Hfb LO HO) in Hhm, Hfm.
  destruct row_entry as (l0 & x0 & Hl0 & Hx0 & Em0 & _).
  assert (∀ q, above q m → q ∉ W) as Habw by (intros q Hq; by apply (above_no_file Ls HL Hcl m q l0 x0)).
  destruct (merge_entries_blob metadata read_blob write_blob merge_bytes desc fuel content hash W
    (file_paths_prefix_free Ls HL Hcl) m b o t c) as (c' & E & [Hin' Hhas' Hag Hfile' Hoth Hunc]);
    try done; try by apply blob_at_row.
  { intros q Hq. apply Hnof. by apply Habw. }
  { intros o' t' Eo Et Hb. apply (mt_modes HM m o' t'); [by rewrite Hfb|by rewrite Hfb|].
    by rewrite Hfb, <- Eo, <- Et. }
  exists c'. split; [done|]. split; [|done].
  assert (steps_over [b; o; t] = false) as Hno.
  { apply not_true_iff_false. intros (_ & oid & Ho)%steps_over_spec.
    assert (find_at m l0 = Some x0) as Ex0 by (apply find_at_entry; done).
    assert (Some x0 ∈ [b; o; t]) as Hx0r.
    { rewrite !elem_of_cons. apply elem_Ls in Hl0 as [->|[->| ->]]; rewrite Ex0; auto. }
    destruct (Ho x0 Hx0r) as [Ht _]. apply (file_path_no_dir Ls Hcl m l0 Hm Hl0). by exists x0. }
  assert (∀ p, settled ls' p ↔ settled ls p ∨ p = m) as Hset.
  { intros p. rewrite settled_step_eq, Hno. naive_solver. }
  assert (∀ p, p ≠ m → state_at ls' p = state_at ls p) as Hst.
  { intros p Hp. apply state_at_keeps. rewrite Hset. tauto. }
  assert (state_at ls' m = merged_at merge_bytes desc content hash b o t) as Hstm.
  { rewrite state_at_done by (rewrite Hset; by right). unfold merge_result. by rewrite !Hfb. }
  split.
  - apply walking_step; [apply HI|done].
  - split_and!; [done|..].
    + intros p Hp. destruct (decide (p = m)) as [->|Hne]; [by rewrite Hstm|]. rewrite Hst by done.
      by eapply index_has_agree; [apply Hag|apply Hhas].
    + intros p Hp. destruct (decide (p = m)) as [->|Hne]; [by rewrite Hstm|]. rewrite Hst by done.
      unfold file_has. destruct (Hoth p Hne) as [->|(_ & _ & Hab)]; [by apply Hfile|].
      by apply Habw in Hab.
    + intros p Hp. assert (p ≠ m) as Hne by by intros ->. intros mode d.
      destruct (Hoth p Hne) as [->|(_ & -> & _)]; [by apply Hnof|done].
  - intros d Hd. destruct (decide (d = m)) as [->|Hne].
    { unfold file_has in Hfile'. rewrite Hd in Hfile'. symmetry in Hfile'.
      by apply fmap_Some in Hfile' as (? & _ & ?). }
    destruct (Hoth d Hne) as [Ew|(_ & _ & Hab)].
    + apply dirs_known_mono, (mi_dirs_known _ _ HI). by rewrite <- Ew.
    + right. exists l0, x0. rewrite Em0. split_and!; [done|done|rewrite Hset; by right|by right].
  - intros d Hd. assert (d ≠ m) as Hne.
    { intros ->. destruct Hd as [[Hd _]|[Hd _]]; by apply (file_path_no_dir Ls Hcl m _ Hm) in Hd. }
    assert (is_dir_at (mc_worktree c) d = true) as Hdir.
    { apply (mi_dirs _ _ HI). unfold dir_needed in *. rewrite Hset in Hd. tauto. }
    unfold is_dir_at in *. destruct (Hoth d Hne) as [->|(E0 & -> & _)]; [done|].
    by rewrite (bool_decide_true (Some Dir = Some Dir)), orb_true_r.
Qed.

(** *** The step at a directory *)

Context (no_file_at_m : m ∉ W).
Context (row_trees : ∀ l x, l ∈ Ls → find_at m l = Some x → entry_is_tree x = true).

Abbreviation over := (steps_over [b; o; t]).

Lemma row_facts l x :
  l ∈ Ls → find_at m l = Some x →
  x ∈ l ∧ ie_path x = m ∧ entry_is_tree x = true ∧ is_known (ie_oid x) = true ∧ has_dir l m.
Proof.
  intros Hl Hx. pose proof Hx as [Hin Ex]%find_at_entry; [|done]. pose proof (row_trees l x Hl Hx) as Ht.
  split_and!; [done|done|done|by eapply (tl_known Ls HL)|by exists x].
Qed.

Lemma row_none l : l ∈ Ls → find_at m l = None → ¬ has_path l m.
Proof. intros Hl Hx (y & Hy & Ey). assert (find_at m l = Some y) by (by apply find_at_entry). congruence. Qed.

(** What lies below [m] is in no list that lacks [m], and in all that have [m] when these are
    stepped over. *)
Lemma below_row l x : l ∈ Ls → x ∈ l → above m (ie_path x) → is_Some (find_at m l).
Proof.
  intros Hl Hx Hab. destruct (tl_closed Ls HL l x m Hl Hx Hab) as (y & Hy & _ & Ey).
  exists y. by apply find_at_entry.
Qed.

Lemma row_elem l : l ∈ Ls → find_at m l ∈ [b; o; t].
Proof. intros Hl%elem_Ls. rewrite !elem_of_cons. destruct Hl as [->|[->| ->]]; auto. Qed.

Lemma below_shared l l' x :
  over = true → l ∈ Ls → l' ∈ Ls → x ∈ l → above m (ie_path x) → is_Some (find_at m l') → x ∈ l'.
Proof.
  intros (_ & oid & Ho)%steps_over_spec Hl Hl' Hx Hab [t' Ht'].
  destruct (below_row l x Hl Hx Hab) as [t0 Ht0].
  destruct (row_facts l t0 Hl Ht0) as (Hin0 & E0 & Htr0 & _). destruct (row_facts l' t' Hl' Ht') as (Hin1 & E1 & Htr1 & _).
  pose proof (row_elem l Hl) as R0. pose proof (row_elem l' Hl') as R1. rewrite Ht0 in R0. rewrite Ht' in R1.
  destruct (Ho t0 R0) as [_ O0], (Ho t' R1) as [_ O1].
  apply (tl_same Ls HL l l' t0 t' x); try done; congruence.
Qed.

Lemma skip_contents p :
  over = true → p ∈ W → path_starts_with p m = true →
  ∃ x, blob_ok read_blob content hash x
    ∧ ∀ l, l ∈ Ls → find_blob p l = match find_at m l with Some _ => Some x | None => None end.
Proof.
  intros Hov Hp Hs. pose proof (mt_clash HM) as Hcl.
  pose proof Hp as (l0 & x & Hl0 & Hx & Hb & Ex)%elem_of_file_paths.
  assert (above m p) as Hab.
  { apply path_starts_above in Hs as [->|?]; [done|done|apply m_rel]. }
  exists x. split; [by eapply (mt_blobs HM)|]. intros l Hl.
  rewrite (find_blob_find_at Ls HL Hcl p l Hp Hl). destruct (find_at m l) as [y|] eqn:Ey.
  - apply (find_at_Some p l x (tl_diff Ls HL l Hl)). split; [|done].
    apply (below_shared l0); try done; by rewrite ?Ex, ?Ey.
  - destruct (find_at p l) as [z|] eqn:Ez; [|done].
    apply (find_at_Some p l z (tl_diff Ls HL l Hl)) in Ez as [Hz Ezp].
    destruct (below_row l z Hl Hz) as [? ?]; [by rewrite Ezp|congruence].
Qed.

Lemma below_not_settled p : p ∈ W → above m p → ¬ settled ls p.
Proof.
  intros (l0 & x & Hl0 & Hx & _ & Ex)%elem_of_file_paths Hab Hs.
  destruct least as [(y & k & Hk & Ey) _].
  apply (wk_below Ls ls (mi_walk _ _ HI) (y :: k) y l0 x Hk ltac:(by left) Hl0 Hx); by rewrite ?Ex, ?Ey.
Qed.

Lemma starts_above_m p : p ∈ W → path_starts_with p m = true → above m p.
Proof. intros Hp Hs. apply path_starts_above in Hs as [->|?]; [done|done|apply m_rel]. Qed.

Lemma tree_merging c' :
  index_in W (mc_index c') →
  (∀ p, p ∈ W → ¬ (over = true ∧ path_starts_with p m = true) →
     index_agree (mc_index c) (mc_index c') p ∧ mc_worktree c' !! p = mc_worktree c !! p) →
  (∀ p, p ∈ W → over = true → path_starts_with p m = true →
     index_has (mc_index c') p (mg_stages (merge_result p)) ∧ file_has (mc_worktree c') p (mg_file (merge_result p))) →
  (∀ p, p ∉ W → no_file (mc_worktree c') p) →
  (∀ d, mc_worktree c' !! d = Some Dir → mc_worktree c !! d = Some Dir ∨ d = m) →
  (∀ d, dir_needed ls' d → is_dir_at (mc_worktree c') d = true) →
  merging ls' c'.
Proof.
  intros Hin Hkeep Hskip Hnof Hdirs Hneed. destruct (mi_holds _ _ HI) as (_ & Hhas & Hfile & _).
  assert (∀ p, p ∈ W → ¬ (over = true ∧ path_starts_with p m = true) → state_at ls' p = state_at ls p) as Hst.
  { intros p Hp Hn. apply state_at_keeps. rewrite settled_step_eq. split; [|by left].
    intros [?|[->|?]]; done. }
  split; [apply walking_step; [apply HI|done]| | |done].
  - split_and!; [done| | |done].
    + intros p Hp. destruct (decide (over = true ∧ path_starts_with p m = true)) as [[Ho Hs]|Hn].
      * rewrite state_at_done by (apply settled_step_eq; auto). by apply Hskip.
      * rewrite Hst by done. by eapply index_has_agree; [apply Hkeep|apply Hhas].
    + intros p Hp. destruct (decide (over = true ∧ path_starts_with p m = true)) as [[Ho Hs]|Hn].
      * rewrite state_at_done by (apply settled_step_eq; auto). by apply Hskip.
      * rewrite Hst by done. unfold file_has. destruct (Hkeep p Hp Hn) as [_ ->]. by apply Hfile.
  - intros d [Hd| ->]%Hdirs; [by apply dirs_known_mono, (mi_dirs_known _ _ HI)|].
    destruct row_entry as (l & x & Hl & Hx & Ex & _). right. exists l, x. rewrite Ex.
    split_and!; [done|done|apply settled_step_eq; auto|by left].
Qed.

(** The directories that are needed after the step were needed before. *)
Lemma dir_needed_step d :
  (b = None → o = None → t = None) → dir_needed ls' d → dir_needed ls d.
Proof.
  intros Hrow [[Ho [Hn|Ht]]|(Ht & Hb & Hs)].
  - left. split; [done|left]. intros Hs. apply Hn, settled_step_eq. by left.
  - left. split; [done|by right].
  - assert (LB ∈ Ls ∧ LO ∈ Ls ∧ LT ∈ Ls) as (HB & HO & HT) by by rewrite !elem_Ls; auto.
    destruct Ht as (x & Hx & Htx & Ex). destruct (decide (settled ls d)) as [|Hnot].
    { right. split_and!; [by exists x|done|done]. }
    left. split; [|right; by exists x]. destruct (decide (d = m)) as [->|Hne].
    + destruct o as [o'|] eqn:Eo; [by destruct (row_facts LO o' HO Eo) as (_ & _ & _ & _ & ?)|].
      destruct b as [b'|] eqn:Eb.
      { destruct Hb. destruct (row_facts LB b' HB Eb) as (? & ? & _). by exists b'. }
      exfalso. apply (row_none LT HT); [by apply Hrow|by exists x].
    + apply settled_step_eq in Hs as [?|[?|[Hov Hs]]]; [done|done|].
      apply path_starts_above in Hs as [?|Hab]; [done| |apply m_rel]. rewrite <- Ex in Hab.
      destruct (below_row LT x HT Hx Hab) as [t' Et].
      destruct o as [o'|] eqn:Eo.
      { exists x. split_and!; [|done|done]. apply (below_shared LT LO); rewrite ?Eo; done. }
      exfalso. apply Hb. exists x. split; [|done]. apply (below_shared LT LB); try done; [by rewrite Eo|].
      apply steps_over_spec in Hov as [Hlen _]. rewrite Et in Hlen.
      destruct b as [b'|]; [by exists b'|]. cbn in Hlen. lia.
Qed.

(** Where nothing happens. *)
Lemma tree_step_keeps :
  (b = None → o = None → t = None) → (over = true → is_Some b → is_Some o → is_Some t) → merging ls' c.
Proof.
  intros Hrow Hov. destruct (mi_holds _ _ HI) as (Hin & Hhas & Hfile & Hnof).
  assert (LB ∈ Ls ∧ LO ∈ Ls ∧ LT ∈ Ls) as (HB & HO & HT) by by rewrite !elem_Ls; auto.
  apply tree_merging; [done|by split| |done|by left|].
  - intros p Hp Ho Hs. pose proof (below_not_settled p Hp (starts_above_m p Hp Hs)) as Hns.
    assert (state_at ls p = merge_result p) as <-; [|by split; [apply Hhas|apply Hfile]].
    unfold state_at. rewrite decide_False by done.
    destruct (skip_contents p Ho Hp Hs) as (x & Hx & Hl). unfold merge_result. rewrite !Hl by done.
    specialize (Hov Ho). apply steps_over_spec in Ho as [Hlen _].
    destruct b as [b'|], o as [o'|], t as [t'|]; cbn in *; try done; try lia.
    + by rewrite bool_decide_true.
    + by destruct Hov.
    + by rewrite bool_decide_true.
    + destruct Hx as [_ _ _ _ [_ Hh]]. unfold merge_contents. rewrite (ml_same (hash := hash)).
      unfold written_over. by rewrite drop_ge, app_nil_r, Hh by done.
  - intros d Hd. apply (mi_dirs _ _ HI). by apply dir_needed_step.
Qed.

(** Their side has deleted a directory that our side has left alone. *)
Lemma tree_step_deleted b' o' c' :
  b = Some b' → o = Some o' → t = None → ie_oid b' = ie_oid o' →
  mc_index c' = remove_directory (mc_index c) m →
  mc_worktree c' = filter (λ kv, path_starts_with kv.1 m = false) (mc_worktree c) →
  merging ls' c'.
Proof.
  intros Eb Eo Et Eoid Ei Ew. destruct (mi_holds _ _ HI) as (Hin & Hhas & Hfile & Hnof).
  assert (LB ∈ Ls ∧ LO ∈ Ls ∧ LT ∈ Ls) as (HB & HO & HT) by by rewrite !elem_Ls; auto.
  assert (m ≠ EMPTY) as Hm0.
  { intros E0. apply (row_none LT HT Et). rewrite E0.
    destruct (tl_root Ls HL LT HT) as (x & ? & _ & ?). by exists x. }
  assert (norm_path m) as Hmn by by destruct m_rel.
  destruct (row_facts LB b' HB Eb) as (_ & _ & Hbt & _). destruct (row_facts LO o' HO Eo) as (_ & _ & Hot & _).
  assert (over = true) as Hov.
  { apply steps_over_spec. rewrite Eb, Eo, Et. split; [cbn; lia|]. exists (ie_oid o').
    intros x. rewrite !elem_of_cons. intros [[= ->]|[[= ->]|[?|?%elem_of_nil]]]; done. }
  assert (∀ p, p ∈ W → path_starts_with p m = true ↔ under m p) as Hunder.
  { intros p Hp. pose proof (file_path_norm Ls HL (mt_clash HM) p Hp) as Hpn.
    rewrite path_starts_with_norm by done. split; [intros [->|?]; done|by right]. }
  assert (∀ p, mc_worktree c' !! p = if path_starts_with p m then None else mc_worktree c !! p) as Hwt.
  { intros p. rewrite Ew. destruct (path_starts_with p m) eqn:E.
    - apply map_lookup_filter_None_2. right. intros n _ Hn. cbn in Hn. congruence.
    - destruct (mc_worktree c !! p) as [n|] eqn:En.
      + by apply map_lookup_filter_Some_2.
      + apply map_lookup_filter_None_2. by left. }
  destruct (remove_directory_at W (mc_index c) m Hin Hmn) as (Hin' & Hag & Hgone). rewrite <- Ei in *.
  apply tree_merging; [done|..].
  - intros p Hp Hn. assert (path_starts_with p m = false) as Es.
    { destruct (path_starts_with p m); [|done]. by destruct Hn. }
    split; [|by rewrite Hwt, Es]. apply Hag. rewrite <- Hunder by done. congruence.
  - intros p Hp _ Hs. pose proof (below_not_settled p Hp (starts_above_m p Hp Hs)) as Hns.
    destruct (skip_contents p Hov Hp Hs) as (x & Hx & Hl). unfold merge_result.
    rewrite !Hl, Eb, Eo, Et by done. cbn. rewrite bool_decide_true by done. cbn. split.
    + apply Hgone; [by apply Hunder|]. intros s e He. pose proof (Hhas p Hp) as Hh.
      unfold state_at in Hh. rewrite decide_False in Hh by done. rewrite Hl, Eo in Hh by done.
      assert ((s, ie_oid e) ∈ mg_stages (ours_at content (Some x))) as Hse by (apply Hh; by exists e).
      apply list_elem_of_singleton in Hse. by injection Hse.
    + unfold file_has. by rewrite Hwt, Hs.
  - intros p Hp mode d. rewrite Hwt. destruct (path_starts_with p m); [done|]. by apply Hnof.
  - intros d. rewrite Hwt. destruct (path_starts_with d m); [done|]. by left.
  - intros d Hd. assert (dir_needed ls d) as Hd0 by (apply dir_needed_step; [by rewrite Eb|done]).
    apply (mi_dirs _ _ HI) in Hd0. unfold is_dir_at in *. rewrite Hwt.
    destruct (path_starts_with d m) eqn:Es; [|done]. exfalso.
    assert (¬ has_dir LT d) as HnT.
    { intros (x & Hx & _ & Ex). apply path_starts_above in Es as [Ed|Hab]; [| |apply m_rel].
      - apply (row_none LT HT Et). exists x. split; [done|congruence].
      - rewrite <- Ex in Hab. destruct (below_row LT x HT Hx Hab). congruence. }
    destruct Hd as [[_ [Hn|?]]|(? & _)]; [|done|done]. apply Hn, settled_step_eq. auto.
Qed.

(** Their side has a directory that nobody else has. *)
Lemma tree_step_created t' c' :
  b = None → o = None → t = Some t' →
  mc_index c' = mc_index c → mc_worktree c' = <[m := Dir]> (mc_worktree c) → merging ls' c'.
Proof.
  intros Eb Eo Et Ei Ew. destruct (mi_holds _ _ HI) as (Hin & Hhas & Hfile & Hnof).
  assert (over = false) as Hov.
  { apply not_true_iff_false. intros (Hlen & _)%steps_over_spec. rewrite Eb, Eo, Et in Hlen. cbn in Hlen. lia. }
  apply tree_merging; rewrite ?Ei, ?Ew; [done|..].
  - intros p Hp _. split; [done|]. rewrite lookup_insert_ne by by intros ->. done.
  - intros p _ Ho. congruence.
  - intros p Hp mode d. destruct (decide (p = m)) as [->|Hne]; [by rewrite lookup_insert_eq|].
    rewrite lookup_insert_ne by done. by apply Hnof.
  - intros d. destruct (decide (d = m)) as [->|Hne]; [by right|]. rewrite lookup_insert_ne by done. by left.
  - intros d Hd. unfold is_dir_at. destruct (decide (d = m)) as [->|Hne].
    { by rewrite lookup_insert_eq, (bool_decide_true (Some Dir = Some Dir)), orb_true_r. }
    rewrite lookup_insert_ne by done. apply (mi_dirs _ _ HI).
    destruct Hd as [[Ho [Hn|Ht]]|(Ht & Hb & Hs)].
    + left. split; [done|left]. intros Hs. apply Hn, settled_step_eq. by left.
    + left. split; [done|by right].
    + right. split_and!; [done|done|]. apply settled_step_eq in Hs as [?|[?|[Ho _]]]; [done|done|congruence].
Qed.

Lemma created_dir_possible t' :
  b = None → o = None → t = Some t' →
  fs_create_dir m (mc_worktree c) = (Ok tt, <[m := Dir]> (mc_worktree c)).
Proof.
  intros Eb Eo Et. assert (LB ∈ Ls ∧ LO ∈ Ls ∧ LT ∈ Ls) as (HB & HO & HT) by by rewrite !elem_Ls; auto.
  destruct (row_facts LT t' HT Et) as (Ht' & Em & Htt & _ & _).
  assert (m ≠ EMPTY) as Hm0.
  { intros E0. apply (row_none LB HB Eb). rewrite E0.
    destruct (tl_root Ls HL LB HB) as (x & ? & _ & ?). by exists x. }
  unfold fs_create_dir. destruct (mi_holds _ _ HI) as (_ & _ & _ & Hnof).
  assert (mc_worktree c !! m = None) as ->.
  { destruct (mc_worktree c !! m) as [[mode d|]|] eqn:E; [by destruct (Hnof m no_file_at_m mode d)| |done].
    exfalso. apply (mi_dirs_known _ _ HI) in E as [Hp|(l & x & Hl & Hx & Hs & [Ex|Hab])].
    - by apply (row_none LO HO Eo).
    - by apply m_not_settled; rewrite Ex.
    - destruct least as [(y & k & Hk & Ey) _]. rewrite <- Ey in Hab.
      by apply (wk_below Ls ls (mi_walk _ _ HI) (y :: k) y l x Hk ltac:(by left) Hl Hx Hs). }
  unfold is_empty at 1. rewrite bool_decide_false by done. cbn [negb andb].
  assert (is_dir_at (mc_worktree c) (dir_of m) = true) as ->; [|done].
  destruct (norm_snoc m ltac:(by destruct m_rel)) as (d & n & Hd & Hn & Emd). rewrite Emd, parent_join_dir by done.
  assert (above d m) as Hdm by (rewrite Emd; apply above_join; [done|done|by left]).
  assert (has_dir LT d) as HdT by (rewrite <- Em in Hdm; by eapply (tl_closed Ls HL)).
  assert (settled ls d) as Hsd.
  { destruct (decide (settled ls d)) as [|Hns]; [done|]. exfalso.
    apply not_settled in Hns as (l & x & Hl & Hx & Ex). pose proof (above_cmp d m m_rel Hdm) as Hlt.
    destruct (decide (ie_path x = m)) as [Exm|Hne]; [rewrite <- Ex, Exm, (ord_refl path_cmp) in Hlt; done|].
    pose proof (step_after m ls (wk_lists _ _ (mi_walk _ _ HI)) least l x Hl Hx Hne) as Hgt.
    rewrite Ex in Hgt. apply (ord_gt path_cmp) in Hgt. congruence. }
  apply (mi_dirs _ _ HI). destruct (decide (has_dir LO d)) as [HdO|HnO]; [left; by split; [|right]|].
  right. split_and!; [done| |done]. intros HdB. apply HnO.
  destruct (mt_dirs HM d n Hd Hn) as (x & Hx & Ex); rewrite <- ?Emd; try done.
  - by exists t'.
  - by apply (row_none LB HB).
  - destruct HdT as (y & Hy & Hyt & Ey). exists x. split_and!; [done| |done].
    rewrite (mt_clash HM LO LT x y); try done. congruence.
Qed.

(** *** The step as a whole *)

Definition classify_tree (x y : option BitIndexEntry) : option MergeDiffEntry :=
  match x, y with
  | None, None => None
  | None, Some y => Some (MCreatedTree y)
  | Some x, None => Some (MDeletedTree x)
  | Some x, Some y =>
      Some (if bool_decide (ie_oid x = ie_oid y) then MUnmodifiedTree y else MModifiedTree y)
  end.

Lemma diff_base_to_other_trees l l' :
  l ∈ Ls → l' ∈ Ls → diff_base_to_other (find_at m l) (find_at m l') = Ok (classify_tree (find_at m l) (find_at m l')).
Proof.
  intros Hl Hl'. assert (∀ x, entry_is_tree x = true → ie_mode x = TREE) as Hmode.
  { intros x. unfold entry_is_tree. cbn. by destruct (ie_mode x). }
  destruct (find_at m l) as [x|] eqn:Ex; [destruct (row_facts l x Hl Ex) as (_ & Emx & Hx%Hmode & Hkx & _)|];
    (destruct (find_at m l') as [y|] eqn:Ey; [destruct (row_facts l' y Hl' Ey) as (_ & Emy & Hy%Hmode & Hky & _)|]);
    cbn [diff_base_to_other classify_tree].
  - rewrite diff_cmp_paths, Emx, Emy, (ord_refl path_cmp), Hkx, Hky, Hx, Hy.
    cbn [assert_that mbind outcome_bind]. by case_bool_decide.
  - unfold base_only. by rewrite Hx.
  - unfold other_only. by rewrite Hy.
  - done.
Qed.

(** Both sides have deleted a directory: there is nothing left of it in the index. *)
Lemma tree_step_both_deleted b' :
  b = Some b' → o = None → t = None →
  merging ls' (mk_MergeCtxt (remove_directory (mc_index c) m) (mc_worktree c) (mc_uncommitted c)).
Proof.
  intros Eb Eo Et. destruct (mi_holds _ _ HI) as (Hin & Hhas & Hfile & Hnof).
  assert (LB ∈ Ls ∧ LO ∈ Ls ∧ LT ∈ Ls) as (HB & HO & HT) by by rewrite !elem_Ls; auto.
  assert (norm_path m) as Hmn.
  { destruct m_rel as [E0|]; [|done]. exfalso. apply (row_none LT HT Et). rewrite E0.
    destruct (tl_root Ls HL LT HT) as (x & ? & _ & ?). by exists x. }
  assert (over = false) as Hov.
  { apply not_true_iff_false. intros (Hlen & _)%steps_over_spec. rewrite Eb, Eo, Et in Hlen. cbn in Hlen. lia. }
  destruct (remove_directory_at W (mc_index c) m Hin Hmn) as (Hin' & Hag & Hgone).
  apply tree_merging; cbn; [done|..].
  - intros p Hp _. split; [|done]. destruct (decide (under m p)) as [Hu|Hu]; [|by apply Hag].
    assert (above m p) as Hab.
    { apply above_under; [done| |done]. by apply (file_path_norm Ls HL (mt_clash HM)). }
    assert (index_has (mc_index c) p []) as Hp0.
    { pose proof (Hhas p Hp) as Hh. unfold state_at in Hh. rewrite decide_False in Hh by by apply below_not_settled.
      rewrite (find_blob_find_at Ls HL (mt_clash HM) p LO Hp HO) in Hh.
      destruct (find_at p LO) as [x|] eqn:Ex; [|done]. exfalso.
      apply (find_at_Some p LO x (tl_diff Ls HL LO HO)) in Ex as [Hx Exp].
      destruct (below_row LO x HO Hx) as [? ?]; [by rewrite Exp|congruence]. }
    assert (∀ idx s e, index_has idx p [] → ((p, s), e) ∉ idx_entries idx) as Hno.
    { intros idx s e Hh He. apply (elem_of_nil (s, ie_oid e)). apply (Hh s (ie_oid e)). by exists e. }
    assert (index_has (remove_directory (mc_index c) m) p []) as Hp1.
    { apply Hgone; [done|]. intros s e He. by destruct (Hno _ s e Hp0 He). }
    intros s e. split; intros He; by apply Hno in He.
  - intros p _ Ho. congruence.
  - done.
  - by left.
  - intros d Hd. apply (mi_dirs _ _ HI), dir_needed_step; [by rewrite Eb|done].
Qed.

Lemma tree_step :
  ∃ c', merge_entries metadata read_blob write_blob merge_bytes desc fuel b o t c = (Ok tt, c')
    ∧ merging ls' c' ∧ mc_uncommitted c' = mc_uncommitted c.
Proof.
  assert (LB ∈ Ls ∧ LO ∈ Ls ∧ LT ∈ Ls) as (HB & HO & HT) by by rewrite !elem_Ls; auto.
  unfold merge_entries.
  rewrite (st_bind_ok _ _ c c (classify_tree b o)) by (unfold st_lift; by rewrite diff_base_to_other_trees).
  rewrite (st_bind_ok _ _ c c (classify_tree b t)) by (unfold st_lift; by rewrite diff_base_to_other_trees).
  assert (∀ m' : st MergeCtxt unit, m' c = (Ok tt, c) →
    (b = None → o = None → t = None) → (over = true → is_Some b → is_Some o → is_Some t) →
    ∃ c', m' c = (Ok tt, c') ∧ merging ls' c' ∧ mc_uncommitted c' = mc_uncommitted c) as Hkeep.
  { intros m' E H1 H2. exists c. split; [done|]. split; [by apply tree_step_keeps|done]. }
  destruct b as [b'|] eqn:Eb, o as [o'|] eqn:Eo, t as [t'|] eqn:Et; cbn [classify_tree].
  - repeat case_bool_decide; (apply Hkeep; [done|done|by eexists]).
  - destruct (row_facts LO o' HO Eo) as (_ & Em & _). case_bool_decide as Eoid; cbn [merge_entry].
    + set (c1 := mk_MergeCtxt (remove_directory (mc_index c) m) (mc_worktree c) (mc_uncommitted c)).
      set (c2 := mk_MergeCtxt (mc_index c1) (filter (λ kv, path_starts_with kv.1 m = false) (mc_worktree c))
        (mc_uncommitted c)).
      rewrite Em. unfold idx_remove_directory. rewrite (st_bind_ok _ _ c c1 tt) by by apply on_index_ok.
      exists c2. split_and!; [|by eapply tree_step_deleted|done].
      apply (on_worktree_ok _ c1). unfold repo_rmdir_all, fs_remove_dir_all. cbn [c1 mc_worktree].
      assert (is_dir_at (mc_worktree c) m = true) as ->; [|done]. apply (mi_dirs _ _ HI). left.
      split; [by destruct (row_facts LO o' HO Eo) as (_ & _ & _ & _ & ?)|left; apply m_not_settled].
    + apply Hkeep; [done|done|]. intros (_ & oid & Ho)%steps_over_spec. destruct Eoid.
      destruct (Ho b') as [_ ->]; [by left|]. by destruct (Ho o') as [_ ->]; [by right; left|].
  - case_bool_decide; (apply Hkeep; [done|done|by intros _ _ [? ?]]).
  - destruct (row_facts LB b' HB Eb) as (_ & Em & _). cbn [merge_entry]. rewrite Em.
    eexists. split_and!; [by apply on_index_ok|by eapply tree_step_both_deleted|done].
  - apply Hkeep; [done|done|by eexists].
  - apply Hkeep; [done|done|by intros _ [? ?]].
  - destruct (row_facts LT t' HT Et) as (_ & Em & _). cbn [base_to_theirs_only]. rewrite Em. unfold repo_mkdir.
    eexists. split_and!; [by eapply on_worktree_ok, created_dir_possible|by eapply tree_step_created|done].
  - by apply Hkeep.
Qed.
End step.

(** *** The walk as a whole *)

Lemma merge_walk_ok {S} `{TreeIterLaws S} n : ∀ (its : list S) ls c,
  Forall2 yields its ls → merging ls c → sum_list_with length ls < n →
  ∃ its' c', merge_walk metadata read_blob write_blob merge_bytes desc fuel n (c, its) = (Ok tt, (c', its'))
    ∧ holds c' merge_result ∧ mc_uncommitted c' = mc_uncommitted c.
Proof.
  induction n as [|n IH]; intros its ls c Hy HI Hn; [lia|]. cbn [merge_walk].
  destruct (walk_next_spec its ls Hy) as (its1 & [(Hy1 & E & Hnil)|(m & Hm & E & Hy1)]).
  - rewrite (st_bind_ok _ _ _ (c, its1) None) by (unfold st_zoom; cbn [fst snd]; by rewrite E).
    exists its1, c. split_and!; [done| |done].
    assert (∀ p, settled ls p) as Hset.
    { intros p. unfold settled. eapply Forall_impl; [exact Hnil|]. intros l ->. constructor. }
    destruct (mi_holds _ _ HI) as (Hin & Hhas & Hfile & Hno).
    assert (∀ p, state_at ls p = merge_result p) as Hst by (intros p; unfold state_at; by rewrite decide_True).
    split_and!; [done|intros p Hp; rewrite <- Hst; by apply Hhas|intros p Hp; rewrite <- Hst; by apply Hfile|done].
  - rewrite (st_bind_ok _ _ _ (c, its1) (Some (row_at m ls))) by (unfold st_zoom; cbn [fst snd]; by rewrite E).
    rewrite (row_eq ls c m HI Hm).
    assert (∃ c', merge_entries metadata read_blob write_blob merge_bytes desc fuel
        (find_at m LB) (find_at m LO) (find_at m LT) c = (Ok tt, c')
      ∧ merging (step_lists m ls) c' ∧ mc_uncommitted c' = mc_uncommitted c) as (c1 & E1 & HI1 & Eu).
    { destruct (row_blob_or_tree ls c m HI Hm) as [Hw|[Hw Hr]]; [by apply blob_step|by apply tree_step]. }
    rewrite (st_bind_ok _ _ _ (c1, its1) tt) by (unfold st_zoom; cbn [fst snd]; by rewrite E1).
    destruct (IH its1 (step_lists m ls) c1 Hy1 HI1) as (its' & c' & E2 & Hh & Eu2).
    { pose proof (step_decreases m ls Hm). lia. }
    exists its', c'. split_and!; [done|done|congruence].
Qed.

Lemma merging_start c : checked_out c → merging Ls c.
Proof.
  intros ((Hin & Hhas & Hfile & Hno) & Hknown & Hdirs).
  assert (∀ p, p ∈ W → ¬ settled Ls p) as Hset.
  { intros p (l & x & Hl & Hx & _ & Ex)%elem_of_file_paths Hs. rewrite settled_spec in Hs. by apply (Hs l x). }
  assert (∀ p, p ∈ W → state_at Ls p = ours_at content (find_blob p LO)) as Hst.
  { intros p Hp. unfold state_at. rewrite decide_False by by apply Hset. done. }
  split; [by apply walking_start| | |].
  - split_and!; [done|intros p Hp; rewrite Hst by done; by apply Hhas
      |intros p Hp; rewrite Hst by done; by apply Hfile|done].
  - intros d Hd. left. by apply Hknown.
  - intros d [[Hd _]|(Hd & _ & Hs)]; [by apply Hdirs|]. destruct Hd as (x & Hx & _ & Ex).
    exfalso. rewrite settled_spec in Hs. by apply (Hs LT x); [apply elem_Ls; auto|..].
Qed.
End merge_trees.

(** ** The merge of stored trees *)

Lemma tree_listings_lists treeish oids ls :
  (∀ oid kids, treeish oid = Ok kids → plain_tree kids) →
  Forall2 (tree_listing treeish) oids ls → tree_lists ls.
Proof.
  intros Hplain Hl. assert (∀ l, l ∈ ls → ∃ oid, tree_listing treeish oid l) as Hin.
  { intros l [i Hi]%list_elem_of_lookup. destruct (Forall2_lookup_r _ _ _ _ _ Hl Hi) as (oid & _ & Ho).
    by exists oid. }
  split; [by eapply tree_listing_walk_lists|..].
  - intros l (oid & kids & l' & _ & _ & _ & ->)%Hin. eexists. split; [by left|done].
  - intros l x q (oid & Ho)%Hin Hx (Hq & Hne & Hpre).
    destruct (listing_parents treeish _ _ (tree_listing_listing treeish oid l Ho) (root_rel oid) x q Hx Hq Hpre)
      as [(e & ->%list_elem_of_singleton & Hpre' & Hn)|(t & Ht & E & [->|Htr])].
    + destruct Hn. apply rel_path_inj; [done|by left|]. apply (anti_symm prefix); [done|apply prefix_nil].
    + by destruct Hne.
    + by exists t.
  - intros l l' t t' x (a & Ha%tree_listing_listing)%Hin (b & Hb%tree_listing_listing)%Hin
      Ht Ht' Htt Htt' Ep Eo Hx (Hr & Hne & Hpre).
    destruct (listing_subtree treeish _ _ Ha (root_stack_ok a) t Ht Htt) as (k1 & A1 & E1 & L1 & _ & W1).
    destruct (listing_subtree treeish _ _ Hb (root_stack_ok b) t' Ht' Htt') as (k2 & A2 & E2 & L2 & I2 & _).
    rewrite <- Eo, E1 in E2. injection E2 as <-. rewrite <- Ep in L2.
    pose proof (listing_det treeish _ _ _ L1 L2) as <-.
    destruct (W1 x Hx) as [->|Hx']; [by apply path_starts_with_prefix|done|by apply I2].
  - intros l t (oid & Ho%tree_listing_listing)%Hin Ht Htt.
    pose proof (listing_modes treeish _ _ Ho) as Hm. rewrite Forall_forall in Hm. by apply (Hm t Ht).
Qed.

(** C8: The merge of three stored trees whose names are in the order of paths, with our tree checked out and
    nothing else, where no file of one tree is a directory of another, a file that both sides have changed
    has the same mode on both and is no link, and their side has no new directory in one that our side has deleted
    ([mergeable]).  It succeeds, and afterwards the index and the worktree hold for every path what the
    code makes of that path on its own ([merged_at]).  That is the three-way merge by contents ([three_way]:
    a change of one side is taken, the changes of both are merged, and a conflict leaves its stages in the
    index) wherever the merged text is not shorter than our file and a file that is taken from their side is a
    regular one; else the tail of our file is left behind the merged text ([written_over]), and the file that is
    taken is made a regular one.  Nothing is left of a file that is deleted. *)
Theorem merge_trees_correct metadata read_blob write_blob merge_bytes desc fuel content hash
    `{!MergeLaws metadata write_blob merge_bytes hash} treeish base ours theirs LB LO LT n c :
  (∀ oid kids, treeish oid = Ok kids → plain_tree kids) →
  Forall2 (tree_listing treeish) [base; ours; theirs] [LB; LO; LT] →
  mergeable read_blob content hash LB LO LT →
  checked_out content LB LO LT c →
  sum_list_with length [LB; LO; LT] < n →
  ∃ c', merge_trees metadata read_blob write_blob merge_bytes desc fuel treeish n base ours theirs c = (Ok tt, c')
    ∧ holds LB LO LT c' (merge_result merge_bytes desc content hash LB LO LT)
    ∧ (∀ p, p ∈ file_paths [LB; LO; LT] →
         let b := find_blob p LB in let o := find_blob p LO in let t := find_blob p LT in
         merges_exactly merge_bytes desc content b o t →
         index_has (mc_index c') p (mg_stages (three_way merge_bytes desc content hash b o t))
         ∧ file_has (mc_worktree c') p (mg_file (three_way merge_bytes desc content hash b o t)))
    ∧ mc_uncommitted c' = mc_uncommitted c.
Proof.
  intros Hplain Hl HM Hc Hn. pose proof (tree_listings_lists treeish _ _ Hplain Hl) as HL.
  unfold merge_trees, merge_from_iterators.
  destruct (merge_walk_ok metadata read_blob write_blob merge_bytes desc fuel content hash LB LO LT HL HM
    (H := tree_iter_iterator treeish) (H0 := tree_iter_laws treeish) n
    [tree_iter_new base; tree_iter_new ours; tree_iter_new theirs] [LB; LO; LT] c) as (its' & c' & E & Hh & Hu);
    [|by eapply merging_start|done|].
  - inversion_clear Hl as [|???? H1 Hl1]. inversion_clear Hl1 as [|???? H2 Hl2].
    inversion_clear Hl2 as [|???? H3 Hl3]. repeat constructor; by apply (tree_listing_yields treeish).
  - exists c'. rewrite E. split; [done|]. split; [exact Hh|]. split; [|exact Hu]. destruct Hh as (_ & Hhas & Hfile & _).
    intros p Hp Hex. rewrite <- (merged_at_exact merge_bytes desc content hash _ _ _ Hex).
    split; [by apply Hhas|by apply Hfile].
Qed.

(** ** Example *)

(** Their tree: another [a], a new directory [e] with a file, and no directory [d]. *)
Definition merge_treeish (oid : Oid) : BitResult (list TreeEntry) :=
  if bool_decide (oid = sample_oid x04) then
    Ok [mk_TreeEntry REG (bs "a") (sample_oid x2a); mk_TreeEntry TREE (bs "e") (sample_oid x05)]
  else if bool_decide (oid = sample_oid x05) then Ok [mk_TreeEntry REG (bs "f") (sample_oid x0f)]
  else sample_treeish2 oid.

Definition theirs_listing : list BitIndexEntry :=
  [dir_at EMPTY x04; file_at (bs "a") x2a; dir_at (bs "e") x05; file_at (bs "e/f") x0f].

(** Blobs of one byte, which make up their ids. *)
Definition toy_content (oid : Oid) : bytes := take 1 oid.
Definition toy_hash (d : bytes) : Oid := sample_oid (default x00 (head d)).

Definition toy_merge (_ _ base ours theirs : bytes) : bytes + bytes :=
  if bool_decide (ours = theirs) then inl ours
  else if bool_decide (base = ours) then inl theirs
  else if bool_decide (base = theirs) then inl ours
  else inr (ours ++ theirs).

Definition toy_metadata (_ : Worktree) (_ : BitPath) : Metadata :=
  mk_Metadata false false 420 (0, 0)%Z (0, 0)%Z 0 0 0 0 0.

#[export] Instance toy_laws : MergeLaws toy_metadata (λ d, Ok (toy_hash d)) toy_merge toy_hash.
Proof.
  split; [intros w p; vm_decide|done|done|]. intros ours theirs base d. unfold toy_merge. by rewrite bool_decide_true.
Qed.

Definition sample_ctxt : MergeCtxt :=
  mk_MergeCtxt
    (mk_BitIndexInner
      ((λ e, ((ie_path e, NONE), e)) <$>
        [file_at (bs "a") x1a; file_at (bs "c") x0c;
         index_entry_from_tree_entry (mk_TreeEntry EXEC (bs "d/b") (sample_oid x0b))]) None None)
    (list_to_map [(bs "a", File REG [x1a]); (bs "c", File REG [x0c]); (bs "d", Dir); (bs "d/b", File EXEC [x0b])])
    [].

Lemma merge_plain oid kids : merge_treeish oid = Ok kids → plain_tree kids.
Proof.
  unfold merge_treeish, sample_treeish2, sample_treeish. repeat case_bool_decide; intros [= <-]; unfold plain_tree;
    repeat constructor.
Qed.

Abbreviation base_listing := (dir_at EMPTY x01 :: sample_listing).

Lemma merge_listings :
  Forall2 (tree_listing merge_treeish) (sample_oid <$> [x01; x03; x04])
    [base_listing; sample_listing2; theirs_listing].
Proof.
  constructor; [|constructor; [|constructor; [|constructor]]].
  all: eexists _, _; split_and!; [vm_compute; reflexivity|vm_decide..| |reflexivity].
  all: repeat first [apply listing_blob; [done|]
    |eapply (listing_tree _ _ [] _ [_] []); [done|done|vm_compute; reflexivity|vm_decide| |]
    |apply listing_nil].
Qed.

Ltac in_lists :=
  repeat match goal with
  | H : _ ∈ _ :: _ |- _ => apply elem_of_cons in H as [->|H]
  | H : _ ∈ [] |- _ => by apply elem_of_nil in H
  | H : _ ∈ sample_listing |- _ => unfold sample_listing in H; cbn in H
  | H : _ ∈ sample_listing2 |- _ => unfold sample_listing2 in H; cbn in H
  | H : _ ∈ theirs_listing |- _ => unfold theirs_listing in H; cbn in H
  end.

Lemma sample_mergeable :
  mergeable (λ oid, Ok (toy_content oid)) toy_content toy_hash base_listing sample_listing2 theirs_listing.
Proof.
  split.
  - intros l l' x y Hl Hl' Hx Hy. revert x y Hx Hy.
    assert (Forall (λ l, Forall (λ l', Forall (λ x, Forall (λ y, ie_path x = ie_path y →
      entry_is_tree x = entry_is_tree y) l') l) [base_listing; sample_listing2; theirs_listing])
      [base_listing; sample_listing2; theirs_listing]) as H by vm_decide.
    rewrite Forall_forall in H. specialize (H l Hl). rewrite Forall_forall in H. specialize (H l' Hl').
    rewrite Forall_forall in H. setoid_rewrite Forall_forall in H. auto.
  - intros l x Hl Hx Hb. in_lists; try done.
    all: split; [done|by eexists|split_and!; vm_decide|split; vm_decide|split; vm_compute; reflexivity].
  - intros p o t (Ho & _ & Eo)%find_blob_Some (Ht & _ & Et)%find_blob_Some _. rewrite <- Et in Eo. clear Et.
    in_lists; try done.
  - intros d n Hd Hn (x & Hx & Htx & Ex) Hno _. exists (dir_at EMPTY x03). split; [by left|].
    destruct (rel_join d n Hd Hn) as [_ Ej]. rewrite <- Ex in *. symmetry.
    in_lists; try done; [by destruct Hno; eexists; split; [by left|]|].
    apply rel_path_inj; [done|by left|]. change (path_components EMPTY) with (@nil path_component).
    apply (f_equal length) in Ej. rewrite length_app in Ej. apply nil_length_inv.
    match type of Ej with ?x = _ => assert (x = 1) as E1 by done end. rewrite E1 in Ej. cbn [length] in Ej. lia.
Qed.

Lemma index_has_list idx p :
  index_has idx p ((λ kv, (kv.1.2, ie_oid kv.2)) <$> filter (λ kv, kv.1.1 = p) (idx_entries idx)).
Proof.
  intros s o. rewrite list_elem_of_fmap. split.
  - intros (e & He & <-). exists ((p, s), e). by rewrite list_elem_of_filter.
  - intros ([[q s'] e] & [= -> ->] & [Eq Hin]%list_elem_of_filter). cbn in Eq. subst. by exists e.
Qed.

Lemma sample_index_wf : index_wf (mc_index sample_ctxt).
Proof.
  split; [repeat constructor|]. apply Forall_forall. intros kv Hkv. unfold sample_ctxt in Hkv. cbn in Hkv.
  in_lists; split_and!; vm_decide.
Qed.

Lemma sample_checked_out : checked_out toy_content base_listing sample_listing2 theirs_listing sample_ctxt.
Proof.
  set (W := file_paths [base_listing; sample_listing2; theirs_listing]).
  assert (∀ p n, mc_worktree sample_ctxt !! p = Some n →
    (p, n) ∈ [(bs "a", File REG [x1a]); (bs "c", File REG [x0c]); (bs "d", Dir); (bs "d/b", File EXEC [x0b])]) as Hw.
  { intros p n. apply elem_of_list_to_map_2. }
  split; [split_and!|split].
  - split; [apply sample_index_wf|]. intros kv Hkv. unfold sample_ctxt in Hkv. cbn in Hkv. in_lists; vm_decide.
  - assert (Forall (λ p, (λ kv, (kv.1.2, ie_oid kv.2)) <$>
      filter (λ kv, kv.1.1 = p) (idx_entries (mc_index sample_ctxt))
      = mg_stages (ours_at toy_content (find_blob p sample_listing2))) W) as H by vm_decide.
    rewrite Forall_forall in H. intros p Hp. rewrite <- (H p Hp). apply index_has_list.
  - assert (Forall (λ p, mc_worktree sample_ctxt !! p =
      ((λ md, File md.1 md.2) <$> mg_file (ours_at toy_content (find_blob p sample_listing2)))) W) as H by vm_decide.
    rewrite Forall_forall in H. exact H.
  - intros p Hp mode d Hd%Hw. rewrite !elem_of_cons, elem_of_nil in Hd. destruct Hp.
    destruct_or! Hd; try done; injection Hd as -> _; vm_decide.
  - intros d Hd%Hw. rewrite !elem_of_cons, elem_of_nil in Hd. destruct_or! Hd; try done.
    injection Hd as ->. eexists. split; [by do 3 right; left|done].
  - intros d (x & Hx & Ht & <-). in_lists; try done; vm_decide.
Qed.

(** Ours and theirs conflict in [a]; [c] is ours; [d] is deleted and [e/f] created by theirs. *)
Lemma merge_trees_correct_witness :
  ∃ c', merge_trees toy_metadata (λ oid, Ok (toy_content oid)) (λ d, Ok (toy_hash d)) toy_merge (bs "theirs") 5
      merge_treeish 20 (sample_oid x01) (sample_oid x03) (sample_oid x04) sample_ctxt = (Ok tt, c')
  ∧ mc_worktree c' !! bs "a" = Some (File REG [x1a; x2a])
  ∧ index_has (mc_index c') (bs "a") [(THEIRS, sample_oid x2a); (OURS, sample_oid x1a); (BASE, sample_oid x0a)]
  ∧ mc_worktree c' !! bs "c" = Some (File REG [x0c])
  ∧ mc_worktree c' !! bs "d/b" = None ∧ index_has (mc_index c') (bs "d/b") []
  ∧ mc_worktree c' !! bs "e/f" = Some (File REG [x0f]) ∧ mc_uncommitted c' = [].
Proof.
  destruct (merge_trees_correct toy_metadata (λ oid, Ok (toy_content oid)) (λ d, Ok (toy_hash d)) toy_merge
    (bs "theirs") 5 toy_content toy_hash merge_treeish (sample_oid x01) (sample_oid x03) (sample_oid x04)
    base_listing sample_listing2 theirs_listing 20 sample_ctxt merge_plain merge_listings sample_mergeable
    sample_checked_out) as (c' & E & (_ & Hhas & Hfile & _) & Hexact & Hu); [cbn; lia|].
  exists c'. split; [exact E|].
  assert (bs "a" ∈ file_paths [base_listing; sample_listing2; theirs_listing]) as Ha by vm_decide.
  destruct (Hexact (bs "a") Ha) as [Hia Hfa]; [right; right; split; [vm_decide|vm_compute; lia]|].
  split_and!; [exact Hfa|exact Hia|apply (Hfile (bs "c")); vm_decide
    |apply (Hfile (bs "d/b")); vm_decide|apply (Hhas (bs "d/b")); vm_decide|apply (Hfile (bs "e/f")); vm_decide|exact Hu].
Defined.

(** The base has the directory [d] with the file [b], our side has deleted it, and their side has
    added the file [d/s/f]. *)
Definition deleted_dir_treeish (oid : Oid) : BitResult (list TreeEntry) :=
  if bool_decide (oid = sample_oid x01) then Ok [mk_TreeEntry TREE (bs "d") (sample_oid x02)]
  else if bool_decide (oid = sample_oid x02) then Ok [mk_TreeEntry REG (bs "b") (sample_oid x0b)]
  else if bool_decide (oid = sample_oid x03) then Ok []
  else if bool_decide (oid = sample_oid x04) then Ok [mk_TreeEntry TREE (bs "d") (sample_oid x05)]
  else if bool_decide (oid = sample_oid x05) then
    Ok [mk_TreeEntry REG (bs "b") (sample_oid x0b); mk_TreeEntry TREE (bs "s") (sample_oid x06)]
  else if bool_decide (oid = sample_oid x06) then Ok [mk_TreeEntry REG (bs "f") (sample_oid x0f)]
  else Err Anyhow.

(** A merge without any conflict can fail: where our side has deleted a directory in which
    their side has created another one, the merge does not make the outer directory but makes the
    inner one with [mkdir], which fails. *)
Theorem merge_new_dir_in_deleted_fails metadata read_blob write_blob merge_bytes desc fuel :
  merge_trees metadata read_blob write_blob merge_bytes desc fuel deleted_dir_treeish 20
    (sample_oid x01) (sample_oid x03) (sample_oid x04) (mk_MergeCtxt (mk_BitIndexInner [] None None) ∅ [])
  = (Err Anyhow, mk_MergeCtxt (mk_BitIndexInner [] None None) ∅ []).
Proof. vm_compute. reflexivity. Qed.
