(* ===== verification/Checkout.v ===== *)
(** * Checkout

    [CheckoutCtxt] of [libbit/src/checkout.rs]: the three-way comparison of the baseline, the
    target and the worktree that gives the [Migration] of a checkout or its conflicts.

    The environment of the walk is the context and the iterator over the worktree; it is the
    repository of the [TreeDiffIter] that compares baseline and target.  An error ends a checkout:
    the consumers and iterators that it drops on its way out are not run. *)

From Stdlib Require Import ZArith Lia.
From Stdlib Require Import Strings.Byte.
From stdpp Require Import base tactics option list countable strings.
From S2P Require Import Prelude RustStd Data State Hash Path Obj Tree IndexEntry TreeIter TreeDiff.

(** ** Options, migrations and conflicts *)

Inductive CheckoutStrategy := SNone | SSafe | SForce.

Definition strategy_level (s : CheckoutStrategy) : nat :=
  match s with SNone => 0 | SSafe => 1 | SForce => 2 end.

Record CheckoutOpts := mk_CheckoutOpts { strategy : CheckoutStrategy }.

Definition checkout_opts_default : CheckoutOpts := mk_CheckoutOpts SSafe.
Definition forced : CheckoutOpts := mk_CheckoutOpts SForce.

Definition is_forced (opts : CheckoutOpts) : bool :=
  (strategy_level SForce <=? strategy_level (strategy opts))%nat.
Definition is_safe (opts : CheckoutOpts) : bool :=
  (strategy_level SSafe <=? strategy_level (strategy opts))%nat.

Record Migration := mk_Migration {
  rmrfs : list TreeEntry;
  rms : list TreeEntry;
  mkdirs : list TreeEntry;
  creates : list TreeEntry;
}.

#[export] Instance Migration_eq_dec : EqDecision Migration.
Proof. solve_decision. Defined.

Definition migration_default : Migration := mk_Migration [] [] [] [].

Definition push_rmrf (e : TreeEntry) (m : Migration) : Migration :=
  mk_Migration (rmrfs m ++ [e]) (rms m) (mkdirs m) (creates m).
Definition push_rm (e : TreeEntry) (m : Migration) : Migration :=
  mk_Migration (rmrfs m) (rms m ++ [e]) (mkdirs m) (creates m).
Definition push_mkdir (e : TreeEntry) (m : Migration) : Migration :=
  mk_Migration (rmrfs m) (rms m) (mkdirs m ++ [e]) (creates m).
Definition push_create (e : TreeEntry) (m : Migration) : Migration :=
  mk_Migration (rmrfs m) (rms m) (mkdirs m) (creates m ++ [e]).

(** ** CheckoutCtxt *)

Record CheckoutCtxt (R : Type) := mk_CheckoutCtxt {
  cx_repo : R;
  cx_migration : Migration;
  cx_opts : CheckoutOpts;
  cx_conflicts : CheckoutConflicts;
}.
Arguments mk_CheckoutCtxt {R}.
Arguments cx_repo {R}.
Arguments cx_migration {R}.
Arguments cx_opts {R}.
Arguments cx_conflicts {R}.

Definition ctxt_new {R} (repo : R) (opts : CheckoutOpts) : CheckoutCtxt R :=
  mk_CheckoutCtxt repo migration_default opts (mk_CheckoutConflicts []).

Section ctxt.
Context {R : Type}.
Abbreviation ctxt := (CheckoutCtxt R).

Definition on_cx_repo {A} (m : st R A) : st ctxt A :=
  st_zoom cx_repo (λ c r, mk_CheckoutCtxt r (cx_migration c) (cx_opts c) (cx_conflicts c)) m.

Definition migrate (f : Migration → Migration) : st ctxt unit :=
  st_modify (λ c, mk_CheckoutCtxt (cx_repo c) (f (cx_migration c)) (cx_opts c) (cx_conflicts c)).

(** [self.opts.is_forced()] and [self.opts.is_safe()]. *)
Definition cx_forced : st ctxt bool := c ← st_get; mret (is_forced (cx_opts c)).
Definition cx_safe : st ctxt bool := c ← st_get; mret (is_safe (cx_opts c)).

Abbreviation into := tree_entry_from_index_entry.

Definition update (entry : BitIndexEntry) : st ctxt unit :=
  let entry := into entry in
  _ ← (match te_mode entry with
       | REG | EXEC | LINK => migrate (push_rm entry)
       | TREE => migrate (push_rmrf entry)
       | GITLINK => st_lift Panic
       end);
  migrate (push_create entry).

Definition conflict (entry : BitIndexEntry) : st ctxt unit :=
  st_modify (λ c, mk_CheckoutCtxt (cx_repo c) (cx_migration c) (cx_opts c)
                    (mk_CheckoutConflicts (cc_worktree (cx_conflicts c) ++ [into entry]))).

Definition create (entry : BitIndexEntry) : st ctxt unit := migrate (push_create (into entry)).
Definition mkdir (entry : BitIndexEntry) : st ctxt unit := migrate (push_mkdir (into entry)).
Definition delete (entry : BitIndexEntry) : st ctxt unit := migrate (push_rm (into entry)).
Definition delete_worktree_tree (tree : BitIndexEntry) : st ctxt unit := migrate (push_rmrf (into tree)).

(** *** Methods that take a consumer: they run on the context and on the iterator that it borrows *)

Section consumer.
Context {U : Type} `{BitTreeIterator U}.
Context (fuel : nat).

Definition on_ctxt {A} (m : st ctxt A) : st (ctxt * U) A := st_zoom fst (λ s c, (c, snd s)) m.
Definition on_tree {A} (m : st U A) : st (ctxt * U) A := st_zoom snd (λ s u, (fst s, u)) m.

Definition delete_tree : st (ctxt * U) unit :=
  tree ← on_tree step_over;
  on_ctxt (migrate (push_rmrf (into tree))).

(** [self.conflict(tree.step_over()?)]. *)
Definition conflict_tree : st (ctxt * U) unit :=
  tree ← on_tree step_over;
  on_ctxt (conflict tree).

(** The closure of [create_tree]. *)
Definition create_tree_entry (entry : BitIndexEntry) : st ctxt unit :=
  match ie_mode entry with
  | REG | EXEC | LINK => create entry
  | TREE => if bool_decide (ie_path entry ≠ EMPTY) then mkdir entry else mret tt
  | GITLINK => st_lift Panic
  end.

(** [tree.iter().for_each(..)]; the closure does not fail. *)
Definition create_tree : st (ctxt * U) unit :=
  entries ← on_tree (consumer_collect fuel);
  on_ctxt (st_for_each create_tree_entry entries).

Definition tree_to_blob (blob : BitIndexEntry) : st (ctxt * U) unit :=
  _ ← delete_tree;
  on_ctxt (create blob).

Definition blob_to_tree (blob : BitIndexEntry) : st (ctxt * U) unit :=
  _ ← on_ctxt (delete blob);
  create_tree.
End consumer.
End ctxt.

(** ** The walk *)

Section walk.
Context {R W : Type} `{BitTreeIterator W}.
(** [repo.index_mut()?.is_worktree_entry_modified(&mut entry)?]. *)
Context (is_worktree_entry_modified : BitIndexEntry → st R (bool * BitIndexEntry)).
(** Bounds the length of the iterators. *)
Context (fuel : nat).

Abbreviation ctxt := (CheckoutCtxt R).
(** The context and the iterator over the worktree. *)
Abbreviation env := (ctxt * W)%type.

Definition entry_modified (entry : BitIndexEntry) : st ctxt (bool * BitIndexEntry) :=
  on_cx_repo (is_worktree_entry_modified entry).

Definition env_modified (entry : BitIndexEntry) : st env (bool * BitIndexEntry) :=
  on_ctxt (entry_modified entry).

(** Code on the context and a tree of the walk. *)
Definition on_ctxt_tree {U A} (m : st (ctxt * U) A) : st (env * U) A :=
  st_zoom (λ s, (fst (fst s), snd s)) (λ s t, ((fst t, snd (fst s)), snd t)) m.
Definition on_env {U A} (m : st env A) : st (env * U) A := st_zoom fst (λ s e, (e, snd s)) m.

Definition worktree_only (worktree_entry : BitIndexEntry) : st env unit :=
  match ie_mode worktree_entry with
  | REG | EXEC | LINK =>
      _ ← on_tree it_next;
      forced ← on_ctxt cx_forced;
      if forced : bool then on_ctxt (delete worktree_entry) else mret tt
  | TREE =>
      forced ← on_ctxt cx_forced;
      if forced : bool then delete_tree else _ ← on_tree it_over; mret tt
  | GITLINK => st_lift Panic
  end.

(** *** Resetting a tree of the worktree *)

(** The body of the loop of [reset_worktree]: the tree that an entry's consumer borrows is one of
    the target ([OldEntries]) or of the worktree ([NewEntries]). *)
Section reset.
Context {I J : Type} `{BitTreeIterator I} `{BitTreeIterator J}.
Abbreviation iter := (TreeDiffIter ctxt I J).

Definition on_entries {A} (c : TreeEntriesConsumer)
    (m : ∀ U, BitTreeIterator U → st (ctxt * U) A) : st iter A := λ t,
  match c with
  | OldEntries =>
      let '(r, (cx, i)) := m I _ (td_repo t, td_old t) in
      (r, mk_TreeDiffIter cx i (td_new t) (td_opts t))
  | NewEntries =>
      let '(r, (cx, j)) := m J _ (td_repo t, td_new t) in
      (r, mk_TreeDiffIter cx (td_old t) j (td_opts t))
  end.

Definition reset_entry (e : TreeDiffEntry) : st iter unit :=
  match e with
  | DeletedBlob blob => on_repo (create blob)
  | CreatedBlob blob => on_repo (delete blob)
  | ModifiedBlob entry wt => _ ← on_repo (delete wt); on_repo (create entry)
  | UnmodifiedBlob _ => mret tt
  | MaybeModifiedTree _ => mret tt
  | UnmodifiedTree _ => st_lift Panic
  | DeletedTree tree => on_entries tree (λ U HU, create_tree fuel)
  | CreatedTree tree => on_entries tree (λ U HU, delete_tree)
  | BlobToTree blob tree => on_entries tree (λ U HU, tree_to_blob blob)
  | TreeToBlob tree blob => on_entries tree (λ U HU, blob_to_tree fuel blob)
  end.

Fixpoint reset_loop (n : nat) : st iter unit :=
  match n with
  | O => st_lift Panic
  | S n =>
      o ← tree_diff_next entry_modified fuel;
      match o with
      | Some e => _ ← reset_entry e; reset_loop n
      | None => mret tt
      end
  end.
End reset.

(** The assertion of [TreeDiffIter::new]. *)
Definition assert_old_kind {E I J} `{BitTreeIterator I} : st (TreeDiffIter E I J) unit :=
  t ← st_get;
  st_lift (assert_that (bool_decide (it_kind (td_old t) ≠ KWorktree))).

Section trees.
Context {U : Type} `{BitTreeIterator U}.

(** Runs code on a diff of the tree [te] that is iterated over, with an iterator [V] over the
    worktree or a part of it. *)
Definition with_diff {V A} (te : TreeEntry) (wrap : W → V) (unwrap : V → W) (opts : DiffOpts)
    (m : st (TreeDiffIter ctxt (CollectSubtree U) V) A) : st (env * U) A := λ s,
  let '((cx, w), u) := s in
  let '(r, t) := m (mk_TreeDiffIter cx (mk_CollectSubtree te u) (wrap w) opts) in
  (r, ((td_repo t, unwrap (td_new t)), cs_iter (td_old t))).

(** The entry of [tree.iter()]. *)
Definition tree_iter_entry : st (env * U) TreeEntry :=
  st_zoom snd (λ s u, (fst s, u)) collect_over_tree_iter.

(** [reset_worktree]: the worktree itself is the new iterator. *)
Definition reset_worktree : st (env * U) unit :=
  te ← tree_iter_entry;
  with_diff te id id (mk_DiffOpts INCLUDE_UNMODIFIED)
    (_ ← assert_old_kind; _ ← reset_loop fuel; _ ← on_old (expect_ok (iter_collect fuel [])); mret tt).

(** [self.repo.trees_are_diff(tree.iter(), worktree.as_consumer().iter())?]. *)
Definition has_local_changes : st (env * U) bool :=
  te ← tree_iter_entry;
  wt ← on_env (on_tree collect_over_tree_iter);
  with_diff te (mk_CollectSubtree wt) cs_iter diff_opts_default
    (_ ← assert_old_kind;
     has_local_changes ← trees_are_diff_loop entry_modified fuel fuel;
     _ ← on_old (expect_ok (iter_collect fuel []));
     _ ← on_new (expect_ok (iter_collect fuel []));
     mret has_local_changes).
End trees.

(** *** The entries of the comparison of baseline and target *)

(** The recursive call of [checkout] in [reset_created_worktree]. *)
Section entries.
Context (checkout_rec : ∀ I J, BitTreeIterator I → BitTreeIterator J → st (TreeDiffIter env I J) unit).

(** Runs code on a comparison of the empty tree with the tree [te] that is iterated over. *)
Definition with_created {U A} (te : TreeEntry)
    (m : st (TreeDiffIter env EmptyTreeIter (CollectSubtree U)) A) : st (env * U) A := λ s,
  let '(e, u) := s in
  let '(r, t) := m (mk_TreeDiffIter e mk_EmptyTreeIter (mk_CollectSubtree te u)
                      (mk_DiffOpts INCLUDE_UNMODIFIED)) in
  (r, (td_repo t, cs_iter (td_new t))).

Definition reset_created_worktree {U} `{BitTreeIterator U} : st (env * U) unit :=
  te ← tree_iter_entry;
  with_created te
    (root ← on_new it_next;
     root ← st_lift (unwrap root);
     _ ← on_repo (on_ctxt (mkdir root));
     _ ← assert_old_kind;
     _ ← checkout_rec EmptyTreeIter (CollectSubtree U) _ _;
     _ ← on_new (expect_ok (iter_collect fuel []));
     mret tt).

Context {I J : Type} `{BitTreeIterator I} `{BitTreeIterator J}.
Abbreviation iter := (TreeDiffIter env I J).

(** Code on the environment. *)
Definition cx_do {A} (m : st ctxt A) : st iter A := on_repo (on_ctxt m).
Definition wt_do {A} (m : st W A) : st iter A := on_repo (on_tree m).

(** Code on the environment and the tree of an entry, or on the context and the tree. *)
Definition on_tree_entries {A} (c : TreeEntriesConsumer)
    (m : ∀ U, BitTreeIterator U → st (env * U) A) : st iter A := λ t,
  match c with
  | OldEntries =>
      let '(r, (e, i)) := m I _ (td_repo t, td_old t) in
      (r, mk_TreeDiffIter e i (td_new t) (td_opts t))
  | NewEntries =>
      let '(r, (e, j)) := m J _ (td_repo t, td_new t) in
      (r, mk_TreeDiffIter e (td_old t) j (td_opts t))
  end.

Definition cx_tree_do {A} (c : TreeEntriesConsumer)
    (m : ∀ U, BitTreeIterator U → st (ctxt * U) A) : st iter A :=
  on_tree_entries c (λ U HU, on_ctxt_tree (m U HU)).

(** A consumer that goes out of scope without having been used. *)
Definition drop_unused (c : TreeEntriesConsumer) : st iter unit :=
  cx_tree_do c (λ U HU, on_tree consumer_drop).

(** [cond!(self.opts.is_forced() => a; b)]. *)
Definition if_forced {A} (a b : st iter A) : st iter A :=
  forced ← cx_do cx_forced;
  if forced : bool then a else b.

Definition if_safe (a b : st iter unit) : st iter unit :=
  safe ← cx_do cx_safe;
  if safe : bool then a else b.

(** [worktree.over()?]. *)
Definition worktree_over : st iter unit := _ ← wt_do it_over; mret tt.

Definition with_worktree_dir (e : TreeDiffEntry) (worktree_entry : BitIndexEntry) : st iter unit :=
  match e with
  | DeletedBlob blob =>
      _ ← cx_do (delete blob);
      if_forced (on_repo delete_tree) (mret tt)
  | CreatedBlob _ => st_lift Panic
  | ModifiedBlob _ entry => if_forced (on_repo (tree_to_blob entry)) (on_repo conflict_tree)
  | MaybeModifiedTree _ => _ ← wt_do it_next; mret tt
  | UnmodifiedBlob _ => st_lift Panic
  | UnmodifiedTree tree =>
      if_forced (on_tree_entries tree (λ U HU, reset_worktree))
        (_ ← worktree_over; drop_unused tree)
  | DeletedTree tree =>
      if_forced (_ ← cx_do (delete_worktree_tree worktree_entry); drop_unused tree)
        (has_local_changes ← on_tree_entries tree (λ U HU, has_local_changes);
         if has_local_changes : bool then cx_do (conflict worktree_entry)
         else cx_do (delete_worktree_tree worktree_entry))
  | CreatedTree tree | BlobToTree _ tree =>
      if_forced (on_tree_entries tree (λ U HU, reset_created_worktree))
        (_ ← worktree_over; cx_tree_do tree (λ U HU, conflict_tree))
  | TreeToBlob tree blob =>
      if_forced (cx_tree_do tree (λ U HU, tree_to_blob blob))
        (has_local_changes ← on_tree_entries tree (λ U HU, has_local_changes);
         if has_local_changes : bool then cx_do (conflict blob)
         else _ ← cx_do (delete_worktree_tree worktree_entry); cx_do (create blob))
  end.

Definition with_worktree (e : TreeDiffEntry) (worktree_entry : BitIndexEntry) : st iter unit :=
  if entry_is_tree worktree_entry then with_worktree_dir e worktree_entry
  else
    _ ← wt_do it_next;
    '(worktree_entry_modified, worktree_entry) ← cx_do (entry_modified worktree_entry);
    match e with
    | DeletedBlob entry =>
        if worktree_entry_modified : bool then
          if_forced (cx_do (delete worktree_entry)) (cx_do (conflict entry))
        else cx_do (delete entry)
    | CreatedBlob entry => if_forced (cx_do (update entry)) (cx_do (conflict entry))
    | ModifiedBlob _ entry =>
        if worktree_entry_modified then if_forced (cx_do (update entry)) (cx_do (conflict entry))
        else cx_do (update entry)
    | MaybeModifiedTree _ =>
        if_forced (cx_do (delete worktree_entry)) (cx_do (conflict worktree_entry))
    | UnmodifiedBlob entry =>
        if worktree_entry_modified then if_forced (cx_do (update entry)) (mret tt) else mret tt
    | UnmodifiedTree _ => st_lift Panic
    | DeletedTree tree =>
        if_forced (_ ← cx_do (delete worktree_entry); cx_tree_do tree (λ U HU, delete_tree))
          (_ ← cx_do (conflict worktree_entry); drop_unused tree)
    | CreatedTree tree =>
        if_forced (cx_tree_do tree (λ U HU, blob_to_tree fuel worktree_entry))
          (cx_tree_do tree (λ U HU, conflict_tree))
    | BlobToTree blob tree =>
        if worktree_entry_modified then
          if_forced (cx_tree_do tree (λ U HU, blob_to_tree fuel blob))
            (_ ← cx_do (conflict worktree_entry); drop_unused tree)
        else cx_tree_do tree (λ U HU, blob_to_tree fuel blob)
    | TreeToBlob tree blob =>
        if_forced (_ ← cx_do (delete worktree_entry); cx_tree_do tree (λ U HU, tree_to_blob blob))
          (_ ← cx_do (conflict worktree_entry); drop_unused tree)
    end.

Definition no_worktree (e : TreeDiffEntry) : st iter unit :=
  match e with
  | DeletedBlob entry => if_safe (cx_do (delete entry)) (mret tt)
  | CreatedBlob entry => if_safe (cx_do (create entry)) (mret tt)
  | ModifiedBlob _ entry => if_forced (cx_do (update entry)) (cx_do (conflict entry))
  | MaybeModifiedTree _ => mret tt
  | UnmodifiedBlob blob => if_forced (cx_do (create blob)) (mret tt)
  | UnmodifiedTree tree => if_forced (cx_tree_do tree (λ U HU, create_tree fuel)) (drop_unused tree)
  | DeletedTree tree => if_safe (cx_tree_do tree (λ U HU, delete_tree)) (drop_unused tree)
  | CreatedTree tree => cx_tree_do tree (λ U HU, create_tree fuel)
  | BlobToTree blob tree => cx_tree_do tree (λ U HU, blob_to_tree fuel blob)
  | TreeToBlob tree blob => cx_tree_do tree (λ U HU, tree_to_blob blob)
  end.

(** The inner loop of [checkout]: the worktree catches up with the entry. *)
Fixpoint match_worktree (n : nat) (e : TreeDiffEntry) : st iter unit :=
  match n with
  | O => st_lift Panic
  | S n =>
      worktree_entry ← wt_do it_peek;
      match worktree_entry with
      | Some worktree_entry =>
          entry ← tree_diff_index_entry e;
          match diff_cmp worktree_entry entry with
          | Lt => _ ← on_repo (worktree_only worktree_entry); match_worktree n e
          | Eq => with_worktree e worktree_entry
          | Gt => no_worktree e
          end
      | None => no_worktree e
      end
  end.
End entries.

(** The outer loop of [checkout], over a [TreeDiffIter] with unmodified entries. *)
Fixpoint checkout (n : nat) (I J : Type) (HI : BitTreeIterator I) (HJ : BitTreeIterator J)
    : st (TreeDiffIter env I J) unit :=
  match n with
  | O => st_lift Panic
  | S n =>
      o ← tree_diff_next env_modified fuel;
      match o with
      | Some e => _ ← match_worktree (checkout n) fuel e; checkout n I J HI HJ
      | None => mret tt
      end
  end.

(** [while let Some(worktree_entry) = worktree.peek()?]. *)
Fixpoint remaining_worktree (n : nat) : st env unit :=
  match n with
  | O => st_lift Panic
  | S n =>
      worktree_entry ← on_tree it_peek;
      match worktree_entry with
      | Some worktree_entry => _ ← worktree_only worktree_entry; remaining_worktree n
      | None => mret tt
      end
  end.

(** [generate]: the migration and the repository afterwards. *)
Definition generate {I J} `{BitTreeIterator I} `{BitTreeIterator J} (cx : ctxt)
    (baseline : I) (target : J) (worktree : W) : BitResult Migration * R :=
  let '(r, t) :=
    (_ ← assert_old_kind;
     _ ← checkout fuel I J _ _;
     _ ← on_repo (remaining_worktree fuel);
     c ← cx_do st_get;
     if bool_decide (cc_worktree (cx_conflicts c) = []) then mret (cx_migration c)
     else st_lift (bail_bit (CheckoutConflict (cx_conflicts c))))
    (mk_TreeDiffIter (cx, worktree) baseline target (mk_DiffOpts INCLUDE_UNMODIFIED)) in
  (r, cx_repo (fst (td_repo t))).

(** [BitRepo::generate_migration] and [Migration::generate]. *)
Definition generate_migration {I J} `{BitTreeIterator I} `{BitTreeIterator J} (repo : R) (opts : CheckoutOpts)
    (baseline : I) (target : J) (worktree : W) : BitResult Migration * R :=
  generate (ctxt_new repo opts) baseline target worktree.
End walk.
