(* ===== verification/CheckoutClean.v ===== *)
(** * CheckoutClean

    The safe checkout of a clean worktree: which migration [generate] makes when the files of the
    worktree are those of the baseline and none of them has been modified. *)

From Stdlib Require Import ZArith Lia Sorted.
From Stdlib Require Import Strings.Byte.
From stdpp Require Import base tactics option list countable strings sorting.
From S2P Require Import Prelude RustStd Data State Hash Path BTree Obj Tree IndexEntry TreeIter TreeDiff TreeListing.
From S2P Require Import IndexIter Walk Checkout.

(** ** The migration from one tree to another *)

Section spec.
Context (O N : list BitIndexEntry).

(** The same file with the same content. *)
Definition same_file (x y : BitIndexEntry) : bool :=
  entry_is_blob x && entry_is_blob y && bool_decide (ie_path x = ie_path y)
  && bool_decide (ie_oid x = ie_oid y).

Definition kept_in (l : list BitIndexEntry) (x : BitIndexEntry) : bool := existsb (same_file x) l.

Definition tree_at (p : BitPath) (l : list BitIndexEntry) : bool :=
  existsb (λ t, entry_is_tree t && bool_decide (ie_path t = p)) l.

(** A directory that the new tree does not have, and whether an entry lies below one. *)
Definition gone (t : BitIndexEntry) : bool := entry_is_tree t && negb (tree_at (ie_path t) N).
Definition in_gone (x : BitIndexEntry) : bool :=
  existsb (λ t, gone t && within (ie_path t) x && bool_decide (ie_path t ≠ ie_path x)) O.

(** The topmost directories that go, the other files that go or change, the new directories, and
    the new or changed files. *)
Definition gone_dirs : list BitPath :=
  ie_path <$> List.filter (λ t, gone t && negb (in_gone t)) O.
Definition gone_files : list BitPath :=
  ie_path <$> List.filter (λ x, entry_is_blob x && negb (kept_in N x) && negb (in_gone x)) O.
Definition new_dirs : list TreeEntry :=
  tree_entry_from_index_entry
    <$> List.filter (λ t, entry_is_tree t && bool_decide (ie_path t ≠ EMPTY) && negb (tree_at (ie_path t) O)) N.
Definition new_files : list TreeEntry :=
  tree_entry_from_index_entry <$> List.filter (λ y, entry_is_blob y && negb (kept_in O y)) N.

(** What a migration removes and makes. *)
Definition effect : Type := list BitPath * list BitPath * list TreeEntry * list TreeEntry.

Definition tree_effect : effect := (gone_dirs, gone_files, new_dirs, new_files).
End spec.

Definition migration_effect (m : Migration) : effect :=
  (te_path <$> rmrfs m, te_path <$> rms m, mkdirs m, creates m).

Definition effect_app (a b : effect) : effect :=
  (a.1.1.1 ++ b.1.1.1, a.1.1.2 ++ b.1.1.2, a.1.2 ++ b.1.2, a.2 ++ b.2).

(** *** Splitting the lists *)

(** The directories of [so] that are in [sn] apart, nothing of [O'] lies below one of [so]. *)
Definition apart (so sn O' : list BitIndexEntry) : Prop :=
  ∀ t x, t ∈ so → x ∈ O' → entry_is_tree t = true → tree_at (ie_path t) sn = false →
    within (ie_path t) x = false.

Lemma existsb_app_r {A} (f : A → bool) l1 l2 : (∀ x, x ∈ l2 → f x = false) → existsb f (l1 ++ l2) = existsb f l1.
Proof.
  intros Hl. rewrite List.existsb_app. assert (existsb f l2 = false) as ->; [|by rewrite orb_false_r].
  rewrite <- not_true_iff_false, List.existsb_exists. intros (x & Hx%list_elem_of_In & Hf).
  by rewrite Hl in Hf.
Qed.

Lemma existsb_app_l {A} (f : A → bool) l1 l2 : (∀ x, x ∈ l1 → f x = false) → existsb f (l1 ++ l2) = existsb f l2.
Proof.
  intros Hl. rewrite List.existsb_app. assert (existsb f l1 = false) as ->; [|done].
  rewrite <- not_true_iff_false, List.existsb_exists. intros (x & Hx%list_elem_of_In & Hf).
  by rewrite Hl in Hf.
Qed.

Lemma existsb_ext_in {A} (f g : A → bool) l : (∀ x, x ∈ l → f x = g x) → existsb f l = existsb g l.
Proof.
  induction l as [|x l IH]; intros Hl; [done|]. cbn. rewrite Hl by by left. f_equal.
  apply IH. intros y Hy. apply Hl. by right.
Qed.

Section split.
Context (so O' sn N' : list BitIndexEntry).
Context (Hd1 : disjoint_paths so N') (Hd2 : disjoint_paths O' sn).
Context (HO : walk_list (so ++ O')) (Hap : apart so sn O').

Lemma same_file_path x y : same_file x y = true → ie_path x = ie_path y.
Proof. unfold same_file. rewrite !andb_true_iff, bool_decide_eq_true. naive_solver. Qed.

Lemma kept_in_l x l1 l2 : (∀ y, y ∈ l2 → ie_path x ≠ ie_path y) → kept_in (l1 ++ l2) x = kept_in l1 x.
Proof.
  intros Hl. apply existsb_app_r. intros y Hy. destruct (same_file x y) eqn:E; [|done].
  apply same_file_path in E. by destruct (Hl y).
Qed.

Lemma kept_in_r x l1 l2 : (∀ y, y ∈ l1 → ie_path x ≠ ie_path y) → kept_in (l1 ++ l2) x = kept_in l2 x.
Proof.
  intros Hl. apply existsb_app_l. intros y Hy. destruct (same_file x y) eqn:E; [|done].
  apply same_file_path in E. by destruct (Hl y).
Qed.

Lemma tree_at_l p l1 l2 : (∀ y, y ∈ l2 → ie_path y ≠ p) → tree_at p (l1 ++ l2) = tree_at p l1.
Proof.
  intros Hl. apply existsb_app_r. intros y Hy. rewrite (bool_decide_false (ie_path y = p)) by auto.
  apply andb_false_r.
Qed.

Lemma tree_at_r p l1 l2 : (∀ y, y ∈ l1 → ie_path y ≠ p) → tree_at p (l1 ++ l2) = tree_at p l2.
Proof.
  intros Hl. apply existsb_app_l. intros y Hy. rewrite (bool_decide_false (ie_path y = p)) by auto.
  apply andb_false_r.
Qed.

Lemma gone_l t : t ∈ so → gone (sn ++ N') t = gone sn t.
Proof. intros Ht. unfold gone. rewrite tree_at_l; [done|]. intros y Hy E. by apply (Hd1 t y). Qed.

Lemma gone_r t : t ∈ O' → gone (sn ++ N') t = gone N' t.
Proof. intros Ht. unfold gone. rewrite tree_at_r; [done|]. intros y Hy E. by apply (Hd2 t y). Qed.

(** What comes later does not lie above. *)
Lemma later_not_above x t :
  x ∈ so → t ∈ O' → within (ie_path t) x = true → ie_path t ≠ ie_path x → False.
Proof.
  intros Hx Ht Hw Hne. destruct HO as [(Hs & _ & _) Hrel]. rewrite Forall_forall in Hrel.
  assert (path_cmp (ie_path x) (ie_path t) = Lt) as Hlt.
  { clear - Hs Hx Ht. induction so as [|z l IH]; [by apply elem_of_nil in Hx|]. cbn in Hs.
    apply StronglySorted_inv in Hs as [Hs Hz]. apply elem_of_cons in Hx as [->|Hx]; [|by apply IH].
    rewrite Forall_forall in Hz. apply Hz, elem_of_app. by right. }
  assert (path_cmp (ie_path t) (ie_path x) = Lt) as Hgt.
  { apply above_cmp; [apply Hrel, elem_of_app; by left|].
    apply path_starts_above in Hw as [?|?]; [done|done|]. apply Hrel, elem_of_app. by right. }
  apply (ord_gt path_cmp) in Hlt. congruence.
Qed.

Lemma in_gone_l x : x ∈ so → in_gone (so ++ O') (sn ++ N') x = in_gone so sn x.
Proof.
  intros Hx. unfold in_gone. rewrite existsb_app_r.
  - apply existsb_ext_in. intros t Ht. by rewrite gone_l.
  - intros t Ht. destruct (within (ie_path t) x) eqn:Hw; [|by rewrite andb_false_r].
    case_bool_decide; [|by rewrite andb_false_r]. by destruct (later_not_above x t).
Qed.

Lemma in_gone_r x : x ∈ O' → in_gone (so ++ O') (sn ++ N') x = in_gone O' N' x.
Proof.
  intros Hx. unfold in_gone. rewrite existsb_app_l.
  - apply existsb_ext_in. intros t Ht. by rewrite gone_r.
  - intros t Ht. rewrite gone_l by done. unfold gone.
    destruct (entry_is_tree t) eqn:Htt, (tree_at (ie_path t) sn) eqn:Ha; cbn; try done.
    by rewrite (Hap t x).
Qed.

Lemma filter_app_in {A} (f g h : A → bool) l1 l2 :
  (∀ x, x ∈ l1 → f x = g x) → (∀ x, x ∈ l2 → f x = h x) →
  List.filter f (l1 ++ l2) = List.filter g l1 ++ List.filter h l2.
Proof.
  intros H1 H2. rewrite List.filter_app.
  f_equal; apply List.filter_ext_in; intros x Hx%list_elem_of_In; auto.
Qed.

Lemma tree_effect_app :
  tree_effect (so ++ O') (sn ++ N') = effect_app (tree_effect so sn) (tree_effect O' N').
Proof.
  unfold tree_effect, effect_app. cbn [fst snd]. repeat f_equal.
  - unfold gone_dirs. rewrite <- fmap_app. f_equal. apply filter_app_in; intros x Hx.
    + by rewrite gone_l, in_gone_l.
    + by rewrite gone_r, in_gone_r.
  - unfold gone_files. rewrite <- fmap_app. f_equal. apply filter_app_in; intros x Hx.
    + rewrite in_gone_l, kept_in_l; [done|by intros y Hy; apply Hd1|done].
    + rewrite in_gone_r, kept_in_r; [done|by intros y Hy; apply Hd2|done].
  - unfold new_dirs. rewrite <- fmap_app. f_equal. apply filter_app_in; intros y Hy.
    + rewrite tree_at_l; [done|]. by intros x Hx; apply Hd2.
    + rewrite tree_at_r; [done|]. by intros x Hx; apply Hd1.
  - unfold new_files. rewrite <- fmap_app. f_equal. apply filter_app_in; intros y Hy.
    + rewrite kept_in_l; [done|]. intros x Hx E. by apply (Hd2 x y).
    + rewrite kept_in_r; [done|]. intros x Hx E. by apply (Hd1 x y).
Qed.
End split.

(** *** The effect of one entry of the comparison *)

(** A directory that both trees have with the same id has the same directories in both. *)
Definition same_dirs (O N : list BitIndexEntry) : Prop :=
  ∀ t, t ∈ O → t ∈ N → entry_is_tree t = true → is_known (ie_oid t) = true →
    (∀ x, x ∈ O → entry_is_tree x = true → within (ie_path t) x = true → tree_at (ie_path x) N = true)
    ∧ (∀ y, y ∈ N → entry_is_tree y = true → within (ie_path t) y = true → tree_at (ie_path y) O = true).

(** What the comparison needs of the baseline and the target. *)
Definition checkout_pair (O N : list BitIndexEntry) : Prop :=
  comparable oid_differs O N ∧ same_dirs O N ∧ walk_list O ∧ walk_list N.

Lemma tree_at_true p l : tree_at p l = true ↔ ∃ t, t ∈ l ∧ entry_is_tree t = true ∧ ie_path t = p.
Proof.
  unfold tree_at. rewrite List.existsb_exists. setoid_rewrite andb_true_iff.
  setoid_rewrite bool_decide_eq_true. setoid_rewrite <- list_elem_of_In. naive_solver.
Qed.

Lemma kept_in_true x l :
  kept_in l x = true ↔ ∃ y, y ∈ l ∧ entry_is_blob x = true ∧ entry_is_blob y = true
    ∧ ie_path x = ie_path y ∧ ie_oid x = ie_oid y.
Proof.
  unfold kept_in, same_file. rewrite List.existsb_exists. setoid_rewrite andb_true_iff.
  setoid_rewrite andb_true_iff. setoid_rewrite andb_true_iff.
  setoid_rewrite bool_decide_eq_true. setoid_rewrite <- list_elem_of_In. naive_solver.
Qed.

Lemma walk_list_app_r l1 l2 : walk_list (l1 ++ l2) → walk_list l2.
Proof. intros [Hd Hr%Forall_app]. split; [by eapply diff_list_app|by destruct Hr]. Qed.

Lemma checkout_pair_app so O' sn N' :
  disjoint_paths so N' → disjoint_paths O' sn → checkout_pair (so ++ O') (sn ++ N') → checkout_pair O' N'.
Proof.
  intros H1 H2 (HC & HS & HwO & HwN).
  split; [by eapply comparable_app|]. split; [|split; by eapply walk_list_app_r].
  intros t HtO HtN Htt Hk.
  destruct (HS t) as [Ha Hb]; [by apply elem_of_app; right..|done|done|]. split.
  - intros x Hx Hxt Hw. rewrite <- (tree_at_r _ sn).
    + apply Ha; [apply elem_of_app; by right|done|done].
    + intros y Hy E. by apply (H2 x y).
  - intros y Hy Hyt Hw. rewrite <- (tree_at_r _ so).
    + apply Hb; [apply elem_of_app; by right|done|done].
    + intros x Hx E. by apply (H1 x y).
Qed.

(** What [create_tree] makes of a list of entries. *)
Definition made (l : list BitIndexEntry) : effect :=
  ([], [], tree_entry_from_index_entry
             <$> List.filter (λ t, entry_is_tree t && bool_decide (ie_path t ≠ EMPTY)) l,
   tree_entry_from_index_entry <$> List.filter entry_is_blob l).

Definition removed_dir (p : BitPath) : effect := ([p], [], [], []).
Definition removed_file (p : BitPath) : effect := ([], [p], [], []).
Definition no_effect : effect := ([], [], [], []).

Lemma effect_app_no e : effect_app e no_effect = e.
Proof. destruct e as [[[a b] c] d]. unfold effect_app. cbn. by rewrite !app_nil_r. Qed.

Lemma effect_app_assoc a b c : effect_app (effect_app a b) c = effect_app a (effect_app b c).
Proof. unfold effect_app. cbn. by rewrite <- !app_assoc. Qed.

Definition removed (so sn : list BitIndexEntry) : list BitPath * list BitPath :=
  (gone_dirs so sn, gone_files so sn).

Lemma made_spec so sn :
  (∀ y, y ∈ sn → kept_in so y = false ∧ (entry_is_tree y = true → tree_at (ie_path y) so = false)) →
  tree_effect so sn = effect_app (gone_dirs so sn, gone_files so sn, [], []) (made sn).
Proof.
  intros Hy. unfold tree_effect, effect_app, made, new_dirs, new_files. cbn. rewrite !app_nil_r.
  f_equal; [f_equal|]; f_equal; apply List.filter_ext_in; intros y Hin%list_elem_of_In;
    destruct (Hy y Hin) as [Hk Ht].
  - destruct (entry_is_tree y); [|done]. by rewrite Ht, andb_true_r.
  - by rewrite Hk, andb_true_r.
Qed.

Lemma no_tree_at p l : (∀ t, t ∈ l → entry_is_tree t = false) → tree_at p l = false.
Proof.
  intros Hl. rewrite <- not_true_iff_false, tree_at_true. intros (t & Ht & E & _). by rewrite Hl in E.
Qed.

Lemma strictly_within_not t l x :
  walk_list (t :: l) → x ∈ take_within (ie_path t) l →
  within (ie_path t) x = true ∧ ie_path x ≠ ie_path t ∧ within (ie_path x) t = false.
Proof.
  intros [Hd Hr] Hx. pose proof (take_within_Forall (ie_path t) l) as Hw. rewrite Forall_forall in Hw.
  assert (x ∈ l) as Hxl by by apply (elem_of_take_drop (ie_path t)); left.
  pose proof (diff_list_tail_ne t l x Hd Hxl) as Hne. split_and!; [by apply Hw|done|].
  destruct (within (ie_path x) t) eqn:E; [|done]. rewrite Forall_forall in Hr. destruct Hne.
  apply rel_path_inj; [apply Hr; by right|apply Hr; by left|]. specialize (Hw x Hx).
  apply path_starts_with_prefix in E, Hw. by apply (anti_symm prefix).
Qed.

(** A directory that goes takes with it what is in it. *)
Lemma gone_tree_effect t l sn :
  walk_list (t :: l) → entry_is_tree t = true → (∀ p, tree_at p sn = false) →
  removed (t :: take_within (ie_path t) l) sn = ([ie_path t], []).
Proof.
  intros Hl Ht Hsn. set (so := t :: take_within (ie_path t) l).
  assert (in_gone so sn t = false) as Hnot.
  { rewrite <- not_true_iff_false. unfold in_gone. rewrite List.existsb_exists.
    intros (x & Hx%list_elem_of_In & E). rewrite !andb_true_iff, bool_decide_eq_true in E.
    destruct E as [[_ Hw] Hne]. apply elem_of_cons in Hx as [->|Hx]; [done|].
    destruct (strictly_within_not t l x Hl Hx) as (_ & _ & Hno). congruence. }
  assert (∀ x, x ∈ take_within (ie_path t) l → in_gone so sn x = true) as Hin.
  { intros x Hx. unfold in_gone. apply List.existsb_exists. exists t. split; [by left|].
    destruct (strictly_within_not t l x Hl Hx) as (Hw & Hne & _). unfold gone.
    rewrite Ht, Hsn, Hw. cbn. by apply bool_decide_eq_true. }
  assert (∀ f : BitIndexEntry → bool,
    List.filter (λ x, f x && negb (in_gone so sn x)) so = if f t then [t] else []) as Hf.
  { intros f. generalize (in_gone so sn) Hnot Hin. unfold so. intros g Hg1 Hg2. cbn [List.filter].
    rewrite Hg1, andb_true_r, (bool_filter_none _ (take_within _ _)); [done|].
    intros x Hx. by rewrite Hg2, andb_false_r. }
  unfold removed, gone_dirs, gone_files. rewrite !Hf. unfold gone. rewrite Ht, Hsn. cbn.
  destruct (entry_is_blob t) eqn:Hb; [by destruct (blob_not_tree t)|]. done.
Qed.

Lemma removed_effect so sn a b :
  removed so sn = (a, b) → (gone_dirs so sn, gone_files so sn, [], []) = ((a, b, [], []) : effect).
Proof. by intros [= -> ->]. Qed.

Lemma removed_blob x sn :
  entry_is_blob x = true → kept_in sn x = false → removed [x] sn = ([], [ie_path x]).
Proof.
  intros Hb Hk. unfold removed, gone_dirs, gone_files, gone, in_gone. cbn [List.filter existsb].
  destruct (entry_is_tree x) eqn:Ht; [by destruct (blob_not_tree x)|].
  unfold gone. rewrite Ht, Hb, Hk. done.
Qed.

Lemma not_kept_in l x : (∀ y, y ∈ l → entry_is_blob y = true → ie_path x ≠ ie_path y) → kept_in l x = false.
Proof.
  intros Hl. rewrite <- not_true_iff_false, kept_in_true. intros (y & Hy & _ & Hb & E & _).
  by apply (Hl y).
Qed.

Lemma effect_created sn : tree_effect [] sn = made sn.
Proof. rewrite made_spec; [done|]. by intros y _. Qed.

Lemma effect_deleted_tree t l :
  walk_list (t :: l) → entry_is_tree t = true →
  tree_effect (t :: take_within (ie_path t) l) [] = removed_dir (ie_path t).
Proof.
  intros Hl Ht. rewrite made_spec by by intros y ?%elem_of_nil.
  by rewrite (removed_effect _ _ _ _ (gone_tree_effect t l [] Hl Ht (λ _, eq_refl))).
Qed.

Lemma effect_deleted_blob x : entry_is_blob x = true → tree_effect [x] [] = removed_file (ie_path x).
Proof.
  intros Hb. rewrite made_spec by by intros y ?%elem_of_nil.
  by rewrite (removed_effect _ _ _ _ (removed_blob x [] Hb eq_refl)).
Qed.

Lemma effect_tree_to_blob t l y :
  walk_list (t :: l) → entry_is_tree t = true → entry_is_blob y = true → ie_path y = ie_path t →
  tree_effect (t :: take_within (ie_path t) l) [y]
  = effect_app (removed_dir (ie_path t)) (made [y]).
Proof.
  intros Hl Ht Hb E. assert (entry_is_tree y = false) as Hyt.
  { destruct (entry_is_tree y) eqn:Hy; [by destruct (blob_not_tree y)|done]. }
  rewrite made_spec.
  - rewrite (removed_effect _ _ _ _ (gone_tree_effect t l [y] Hl Ht ltac:(
      by intros p; apply no_tree_at; intros z ->%list_elem_of_singleton))). done.
  - intros z ->%list_elem_of_singleton. split; [|by rewrite Hyt]. apply not_kept_in.
    intros x [->|Hx]%elem_of_cons Hxb Ex; [by destruct (blob_not_tree t)|].
    destruct (strictly_within_not t l x Hl Hx) as (_ & Hne & _). congruence.
Qed.

Lemma effect_blob_to_tree x y m :
  walk_list (y :: m) → entry_is_blob x = true → entry_is_tree y = true → ie_path x = ie_path y →
  tree_effect [x] (y :: take_within (ie_path y) m)
  = effect_app (removed_file (ie_path x)) (made (y :: take_within (ie_path y) m)).
Proof.
  intros Hl Hb Ht E. assert (∀ z, z ∈ y :: take_within (ie_path y) m → entry_is_blob z = true → ie_path x ≠ ie_path z) as Hne.
  { intros z [->|Hz]%elem_of_cons Hzb; [by destruct (blob_not_tree y)|].
    destruct (strictly_within_not y m z Hl Hz) as (_ & Hne & _). congruence. }
  rewrite made_spec.
  - rewrite (removed_effect _ _ _ _ (removed_blob x _ Hb (not_kept_in _ _ Hne))). done.
  - intros z Hz. split.
    + rewrite <- not_true_iff_false, kept_in_true.
      intros (x' & ->%list_elem_of_singleton & Hzb & _ & E' & _). by apply (Hne z).
    + intros _. apply no_tree_at. intros x' ->%list_elem_of_singleton.
      destruct (entry_is_tree x) eqn:Hx; [by destruct (blob_not_tree x)|done].
Qed.

Lemma kept_in_one x y :
  entry_is_blob x = true → entry_is_blob y = true → ie_path x = ie_path y →
  kept_in [y] x = negb (oid_differs x y).
Proof.
  intros Hx Hy E. unfold kept_in, same_file, oid_differs. cbn. rewrite Hx, Hy, E, bool_decide_true by done.
  cbn. rewrite orb_false_r. by repeat case_bool_decide.
Qed.

Lemma effect_files x y :
  entry_is_blob x = true → entry_is_blob y = true → ie_path x = ie_path y →
  tree_effect [x] [y] = if oid_differs x y then effect_app (removed_file (ie_path x)) (made [y]) else no_effect.
Proof.
  intros Hx Hy E. assert (oid_differs y x = oid_differs x y) as Hs.
  { unfold oid_differs. apply bool_decide_ext. split; auto. }
  destruct (oid_differs x y) eqn:Hd.
  - rewrite made_spec.
    + rewrite (removed_effect _ _ _ _ (removed_blob x [y] Hx ltac:(by rewrite kept_in_one, Hd))). done.
    + intros z ->%list_elem_of_singleton. split; [by rewrite kept_in_one, Hs|].
      intros Ht. by destruct (blob_not_tree y).
  - unfold tree_effect, gone_dirs, gone_files, new_dirs, new_files. cbn [List.filter].
    rewrite !kept_in_one, Hs, Hd by done. cbn. unfold gone.
    destruct (entry_is_tree x) eqn:Hxt; [by destruct (blob_not_tree x)|].
    destruct (entry_is_tree y) eqn:Hyt; [by destruct (blob_not_tree y)|].
    cbn. by rewrite !andb_false_r.
Qed.

(** Nothing goes and nothing is made. *)
Lemma effect_nothing so sn :
  (∀ x, x ∈ so → entry_is_tree x = true → tree_at (ie_path x) sn = true) →
  (∀ y, y ∈ sn → entry_is_tree y = true → tree_at (ie_path y) so = true) →
  (∀ x, x ∈ so → entry_is_blob x = true → kept_in sn x = true) →
  (∀ y, y ∈ sn → entry_is_blob y = true → kept_in so y = true) →
  tree_effect so sn = no_effect.
Proof.
  intros H1 H2 H3 H4. unfold tree_effect, gone_dirs, gone_files, new_dirs, new_files, gone, no_effect.
  rewrite !bool_filter_none; [done|..]; intros x Hx;
    destruct (entry_is_tree x) eqn:Ht, (entry_is_blob x) eqn:Hb; cbn; try done;
    rewrite ?H1, ?H2, ?H3, ?H4 by done; by rewrite ?andb_false_r.
Qed.

Lemma effect_trees x y :
  entry_is_tree x = true → entry_is_tree y = true → ie_path x = ie_path y → tree_effect [x] [y] = no_effect.
Proof.
  intros Hx Hy E. apply effect_nothing; intros z ->%list_elem_of_singleton.
  - intros _. apply tree_at_true. exists y. by split; [left|].
  - intros _. apply tree_at_true. exists x. by split; [left|].
  - intros Hb. by destruct (blob_not_tree x).
  - intros Hb. by destruct (blob_not_tree y).
Qed.

Lemma effect_equal_trees t O N :
  checkout_pair (t :: O) (t :: N) → entry_is_tree t = true → is_known (ie_oid t) = true →
  tree_effect (t :: take_within (ie_path t) O) (t :: take_within (ie_path t) N) = no_effect.
Proof.
  intros ((HdO & HdN & _ & _ & Hsame) & Hdirs & _) Ht Hk.
  destruct (Hsame t) as [Hx Hy]; [by left..|done|done|].
  destruct (Hdirs t) as [Hdx Hdy]; [by left..|done|done|].
  assert (∀ l z, z ∈ t :: take_within (ie_path t) l → z ∈ t :: l ∧ within (ie_path t) z = true) as Hsub.
  { intros l z [->|Hz]%elem_of_cons; [split; [by left|apply within_refl]|]. split.
    - right. by apply (elem_of_take_drop (ie_path t)); left.
    - pose proof (take_within_Forall (ie_path t) l) as Hw. rewrite Forall_forall in Hw. by apply Hw. }
  assert (∀ l z, diff_list (t :: l) → z ∈ t :: l → within (ie_path t) z = true → z ∈ t :: take_within (ie_path t) l) as Hback.
  { intros l z Hd [->|Hz]%elem_of_cons Hw; [by left|]. right.
    apply (elem_of_take_drop (ie_path t)) in Hz as [Hz|Hz]; [done|].
    by rewrite (drop_not_within t l z Hd Ht Hz) in Hw. }
  apply effect_nothing.
  - intros x [Hin Hw]%Hsub Hxt. specialize (Hdx x Hin Hxt Hw). apply tree_at_true in Hdx as (y & Hyin & Hyt & E).
    apply tree_at_true. exists y. split_and!; [|done|done]. apply Hback; [done|done|]. unfold within in *; congruence.
  - intros y [Hin Hw]%Hsub Hyt. specialize (Hdy y Hin Hyt Hw). apply tree_at_true in Hdy as (x & Hxin & Hxt & E).
    apply tree_at_true. exists x. split_and!; [|done|done]. apply Hback; [done|done|]. unfold within in *; congruence.
  - intros x [Hin Hw]%Hsub Hb. destruct (Hx x Hin Hb Hw) as (y & Hyin & Hyb & E & Hc).
    apply kept_in_true. exists y. split_and!; [|done|done|done|by apply bool_decide_eq_false, dec_stable in Hc].
    apply Hback; [done|done|]. unfold within in *; congruence.
  - intros y [Hin Hw]%Hsub Hb. destruct (Hy y Hin Hb Hw) as (x & Hxin & Hxb & E).
    destruct (Hx x Hxin Hxb) as (y' & Hyin' & _ & E' & Hc); [unfold within in *; congruence|].
    assert (y' = y) as -> by (apply (diff_list_inj (t :: N)); [done|done|done|congruence]).
    apply kept_in_true. exists x. split_and!; [|done|done|done|by apply bool_decide_eq_false, dec_stable in Hc].
    apply Hback; [done|done|]. unfold within in *. congruence.
Qed.

(** ** The entries of the comparison, with the unmodified ones

    [step O N e so O' sn N']: the comparison of [O] and [N] gives [e], which stands for [so] and
    [sn], and goes on with [O'] and [N']. *)

Definition le_all (x : BitIndexEntry) (l : list BitIndexEntry) : Prop :=
  ∀ q, q ∈ l → path_cmp (ie_path x) (ie_path q) = Lt.

Inductive step : list BitIndexEntry → list BitIndexEntry → TreeDiffEntry →
    list BitIndexEntry → list BitIndexEntry → list BitIndexEntry → list BitIndexEntry → Prop :=
| step_deleted_blob x O N :
    entry_is_blob x = true → le_all x N → step (x :: O) N (DeletedBlob x) [x] O [] N
| step_deleted_tree t O N :
    entry_is_tree t = true → le_all t N →
    step (t :: O) N (DeletedTree OldEntries) (t :: take_within (ie_path t) O) (drop_within (ie_path t) O) [] N
| step_created_blob y O N :
    entry_is_blob y = true → le_all y O → step O (y :: N) (CreatedBlob y) [] O [y] N
| step_created_tree t O N :
    entry_is_tree t = true → le_all t O →
    step O (t :: N) (CreatedTree NewEntries) [] O (t :: take_within (ie_path t) N) (drop_within (ie_path t) N)
| step_unmodified_tree t O N :
    entry_is_tree t = true → is_known (ie_oid t) = true →
    step (t :: O) (t :: N) (UnmodifiedTree NewEntries)
      (t :: take_within (ie_path t) O) (drop_within (ie_path t) O)
      (t :: take_within (ie_path t) N) (drop_within (ie_path t) N)
| step_trees x y O N :
    entry_is_tree x = true → entry_is_tree y = true → ie_path x = ie_path y →
    step (x :: O) (y :: N) (MaybeModifiedTree y) [x] O [y] N
| step_tree_to_blob x y O N :
    entry_is_tree x = true → entry_is_blob y = true → ie_path x = ie_path y →
    step (x :: O) (y :: N) (TreeToBlob OldEntries y)
      (x :: take_within (ie_path x) O) (drop_within (ie_path x) O) [y] N
| step_blob_to_tree x y O N :
    entry_is_blob x = true → entry_is_tree y = true → ie_path x = ie_path y →
    step (x :: O) (y :: N) (BlobToTree x NewEntries)
      [x] O (y :: take_within (ie_path y) N) (drop_within (ie_path y) N)
| step_modified_blob x y O N :
    entry_is_blob x = true → entry_is_blob y = true → ie_path x = ie_path y → oid_differs x y = true →
    step (x :: O) (y :: N) (ModifiedBlob x y) [x] O [y] N
| step_unmodified_blob x y O N :
    entry_is_blob x = true → entry_is_blob y = true → ie_path x = ie_path y → oid_differs x y = false →
    step (x :: O) (y :: N) (UnmodifiedBlob y) [x] O [y] N.

Lemma step_parts O N e so O' sn N' :
  step O N e so O' sn N' → O = so ++ O' ∧ N = sn ++ N' ∧ 0 < length so + length sn.
Proof.
  destruct 1; cbn [app]; rewrite ?take_drop_within; split_and!; try done; cbn; lia.
Qed.

Lemma le_all_ne x l : le_all x l → ∀ q, q ∈ l → ie_path q ≠ ie_path x.
Proof. intros Hlt q Hq E. by apply (path_lt_ne x q); [apply Hlt|]. Qed.

Lemma apart_nil sn O' : apart [] sn O'.
Proof. by intros t x ?%elem_of_nil. Qed.

Lemma apart_blob x sn O' : entry_is_blob x = true → apart [x] sn O'.
Proof. intros Hb t q ->%list_elem_of_singleton _ Ht. by destruct (blob_not_tree x). Qed.

Lemma apart_tree x y O' : entry_is_tree y = true → ie_path x = ie_path y → apart [x] [y] O'.
Proof.
  intros Hy E t q ->%list_elem_of_singleton _ _ Ha. rewrite E in Ha.
  assert (tree_at (ie_path y) [y] = true) as Ht; [|congruence].
  apply tree_at_true. exists y. by split; [left|].
Qed.

Lemma apart_subtree t l sn :
  diff_list (t :: l) → entry_is_tree t = true → apart (t :: take_within (ie_path t) l) sn (drop_within (ie_path t) l).
Proof.
  intros Hd Ht x q Hx Hq _ _. destruct (within (ie_path x) q) eqn:E; [|done].
  pose proof (drop_not_within t l q Hd Ht Hq) as Hno. apply elem_of_cons in Hx as [->|Hx]; [congruence|].
  pose proof (take_within_Forall (ie_path t) l) as Hw. rewrite Forall_forall in Hw.
  by rewrite (within_trans (ie_path t) x q (Hw x Hx) E) in Hno.
Qed.

Lemma disjoint_one x l : (∀ q, q ∈ l → ie_path q ≠ ie_path x) → disjoint_paths [x] l.
Proof. intros Hl a b ->%list_elem_of_singleton Hb E. by apply (Hl b). Qed.

Lemma step_disjoint O N e so O' sn N' :
  step O N e so O' sn N' → comparable oid_differs O N →
  disjoint_paths so N' ∧ disjoint_paths O' sn ∧ apart so sn O'.
Proof.
  intros Hstep HC. pose proof HC as (HO & HN & HC1 & HC2 & _).
  assert (∀ x l q, diff_list (x :: l) → q ∈ drop_within (ie_path x) l → ie_path q ≠ ie_path x) as Hdrop.
  { intros x l q Hd Hq. apply (diff_list_tail_ne x l); [done|]. apply (elem_of_take_drop (ie_path x)). by right. }
  destruct Hstep as [x O N Hb Hlt|t O N Ht Hlt|y O N Hb Hlt|t O N Ht Hlt|t O N Ht Hk|x y O N Hx Hy E
    |x y O N Hx Hy E|x y O N Hx Hy E|x y O N Hx Hy E _|x y O N Hx Hy E _]; split_and!;
    try apply apart_nil; try (by apply apart_blob); try (by apply apart_tree); try (by apply apart_subtree);
    try apply disjoint_nil_l; try apply disjoint_nil_r.
  - apply disjoint_one, le_all_ne, Hlt.
  - apply disjoint_sym, (disjoint_subtree t O N N); [done|done| |].
    + intros q Hq. split; [done|]. by apply (le_all_ne t N).
    + intros q Hq _. by apply (le_all_ne t N).
  - apply disjoint_sym, disjoint_one, le_all_ne, Hlt.
  - apply (disjoint_subtree t N O O); [done|done| |].
    + intros q Hq. split; [done|]. by apply (le_all_ne t O).
    + intros q Hq _. by apply (le_all_ne t O).
  - by apply disjoint_equal_subtrees.
  - apply disjoint_sym. by apply disjoint_equal_subtrees.
  - apply disjoint_one. intros q Hq. rewrite E. by apply (diff_list_tail_ne y N).
  - apply disjoint_sym, disjoint_one. intros q Hq. rewrite <- E. by apply (diff_list_tail_ne x O).
  - apply disjoint_sym, (disjoint_subtree x O N (y :: N)); [done|done| |].
    + intros q Hq. split; [by right|]. rewrite E. by apply (diff_list_tail_ne y N).
    + intros q [->|Hq]%elem_of_cons Ht; [by destruct (blob_not_tree y)|]. rewrite E. by apply (diff_list_tail_ne y N).
  - apply disjoint_sym, disjoint_one. intros q Hq. rewrite <- E. by apply (Hdrop x O).
  - apply disjoint_one. intros q Hq. rewrite E. by apply (Hdrop y N).
  - apply (disjoint_subtree y N O (x :: O)); [done|done| |].
    + intros q Hq. split; [by right|]. rewrite <- E. by apply (diff_list_tail_ne x O).
    + intros q [->|Hq]%elem_of_cons Ht; [by destruct (blob_not_tree x)|]. rewrite <- E. by apply (diff_list_tail_ne x O).
  - apply disjoint_one. intros q Hq. rewrite E. by apply (diff_list_tail_ne y N).
  - apply disjoint_sym, disjoint_one. intros q Hq. rewrite <- E. by apply (diff_list_tail_ne x O).
  - apply disjoint_one. intros q Hq. rewrite E. by apply (diff_list_tail_ne y N).
  - apply disjoint_sym, disjoint_one. intros q Hq. rewrite <- E. by apply (diff_list_tail_ne x O).
Qed.

(** What an entry does to the worktree. *)
Definition step_effect (e : TreeDiffEntry) (so sn : list BitIndexEntry) : effect :=
  match e with
  | DeletedBlob x => removed_file (ie_path x)
  | CreatedBlob y => made [y]
  | ModifiedBlob _ y => effect_app (removed_file (ie_path y)) (made [y])
  | DeletedTree _ => match so with t :: _ => removed_dir (ie_path t) | [] => no_effect end
  | CreatedTree _ => made sn
  | BlobToTree x _ => effect_app (removed_file (ie_path x)) (made sn)
  | TreeToBlob _ y => effect_app (removed_dir (ie_path y)) (made [y])
  | MaybeModifiedTree _ | UnmodifiedBlob _ | UnmodifiedTree _ => no_effect
  end.

Lemma step_effect_spec O N e so O' sn N' :
  step O N e so O' sn N' → checkout_pair O N → tree_effect so sn = step_effect e so sn.
Proof.
  intros Hstep HP. pose proof HP as (_ & _ & HO & HN).
  destruct Hstep as [x O N Hb Hlt|t O N Ht Hlt|y O N Hb Hlt|t O N Ht Hlt|t O N Ht Hk|x y O N Hx Hy E
    |x y O N Hx Hy E|x y O N Hx Hy E|x y O N Hx Hy E Hd|x y O N Hx Hy E Hd]; cbn [step_effect].
  - by apply effect_deleted_blob.
  - by apply effect_deleted_tree.
  - apply effect_created.
  - apply effect_created.
  - by apply effect_equal_trees.
  - by apply effect_trees.
  - rewrite <- E. by apply effect_tree_to_blob.
  - by apply effect_blob_to_tree.
  - by rewrite effect_files, Hd, E.
  - by rewrite effect_files, Hd.
Qed.

Lemma step_rest O N e so O' sn N' :
  step O N e so O' sn N' → checkout_pair O N →
  checkout_pair O' N' ∧ tree_effect O N = effect_app (step_effect e so sn) (tree_effect O' N')
  ∧ length O' + length N' < length O + length N.
Proof.
  intros Hstep HP. destruct (step_parts _ _ _ _ _ _ _ Hstep) as (EO & EN & Hlen).
  destruct (step_disjoint _ _ _ _ _ _ _ Hstep (proj1 HP)) as (H1 & H2 & H3).
  rewrite <- (step_effect_spec _ _ _ _ _ _ _ Hstep HP). subst O N. split_and!.
  - by eapply checkout_pair_app.
  - apply tree_effect_app; [done|done|apply HP|done].
  - rewrite !length_app. lia.
Qed.

(** ** One entry of the comparison *)

Section simulation.
Context {R I J W : Type} `{TreeIterLaws I} `{TreeIterLaws J} `{TreeIterLaws W}.
Context (is_worktree_entry_modified : BitIndexEntry → st R (bool * BitIndexEntry)).
Context (fuel : nat).

Abbreviation env := (CheckoutCtxt R * W)%type.
Abbreviation iter := (TreeDiffIter env I J).
Abbreviation env_modified := (env_modified (W := W) is_worktree_entry_modified).

(** Where the two iterators stand when [e] has been given. *)
Definition positioned (e : TreeDiffEntry) (i : I) (j : J) (so O' sn N' : list BitIndexEntry) : Prop :=
  match e with
  | DeletedTree _ | TreeToBlob _ _ => peeked i (so ++ O') ∧ yields j N'
  | CreatedTree _ | BlobToTree _ _ | UnmodifiedTree _ => yields i O' ∧ peeked j (sn ++ N')
  | _ => yields i O' ∧ yields j N'
  end.

Definition unmodified_opts (o : DiffOpts) : Prop := include_unmodified o = true.

(** The comparison at the lists, in the environment [ev]. *)
Abbreviation at_env k ev := (at_lists (R := env) (I := I) (J := J) k (eq ev) (λ _, True) true).

Lemma at_env_new k (ev : env) (i : I) (j : J) o O N :
  yields i O → yields j N → it_kind j = k → unmodified_opts o →
  at_env k ev (mk_TreeDiffIter ev i j o) O N.
Proof. intros. split; cbn; try done. by apply Forall_true. Qed.

Lemma at_env_parts k ev t O N :
  at_env k ev t O N →
  ∃ i j o, t = mk_TreeDiffIter ev i j o ∧ yields i O ∧ yields j N ∧ it_kind j = k ∧ unmodified_opts o.
Proof. destruct t as [ev' i j o]. intros []. cbn in *. subst. by exists i, j, o. Qed.

(** The next entry. *)
Definition gives (k : IterKind) (ev : env) (O N : list BitIndexEntry)
    (r : BitResult (option TreeDiffEntry) * iter) : Prop :=
  ∃ e so O' sn N' i j o, r = (Ok (Some e), mk_TreeDiffIter ev i j o)
    ∧ step O N e so O' sn N' ∧ positioned e i j so O' sn N' ∧ it_kind j = k ∧ unmodified_opts o.

Lemma blob_or_tree x : ie_mode x ≠ GITLINK → entry_is_blob x = negb (entry_is_tree x).
Proof. unfold entry_is_blob, entry_is_tree. cbn. by destruct (ie_mode x). Qed.

Lemma gives_created k ev t y O N :
  at_env k ev t O (y :: N) → peeked (td_new t) (y :: N) → ie_mode y ≠ GITLINK → le_all y O →
  gives k ev O (y :: N) (on_created y t).
Proof.
  intros Ha Hp Hm Hlt. unfold on_created, gives. pose proof (blob_or_tree y Hm) as Hb.
  destruct (entry_is_tree y) eqn:Ht.
  - destruct (at_env_parts _ _ _ _ _ Ha) as (i & j & o & -> & Hi & Hj & Hk & Ho).
    do 4 eexists. exists (drop_within (ie_path y) N), i, j, o. split_and!; [done|by constructor| |done|done].
    split; [done|]. cbn [app]. by rewrite take_drop_within.
  - destruct (new_next _ _ _ _ t _ _ Ha) as (t' & E & Ha' & _).
    destruct (at_env_parts _ _ _ _ _ Ha') as (i & j & o & -> & Hi & Hj & Hk & Ho).
    do 4 eexists. exists N, i, j, o. rewrite (st_bind_ok _ _ _ _ _ E).
    split_and!; [done|by constructor|done|done|done].
Qed.

Lemma gives_deleted k ev t x O N :
  at_env k ev t (x :: O) N → peeked (td_old t) (x :: O) → ie_mode x ≠ GITLINK → le_all x N →
  gives k ev (x :: O) N (on_deleted x t).
Proof.
  intros Ha Hp Hm Hlt. unfold on_deleted, gives. pose proof (blob_or_tree x Hm) as Hb.
  destruct (entry_is_tree x) eqn:Ht.
  - destruct (at_env_parts _ _ _ _ _ Ha) as (i & j & o & -> & Hi & Hj & Hk & Ho).
    do 4 eexists. exists N, i, j, o. split_and!; [done|by constructor| |done|done].
    split; [|done]. cbn [app]. by rewrite take_drop_within.
  - destruct (old_next _ _ _ _ t _ _ Ha) as (t' & E & Ha' & _).
    destruct (at_env_parts _ _ _ _ _ Ha') as (i & j & o & -> & Hi & Hj & Hk & Ho).
    do 4 eexists. exists N, i, j, o. rewrite (st_bind_ok _ _ _ _ _ E).
    split_and!; [done|by constructor|done|done|done].
Qed.

Lemma gives_matched k ev t x y O N :
  k ≠ KWorktree → at_env k ev t (x :: O) (y :: N) → peeked (td_old t) (x :: O) → peeked (td_new t) (y :: N) →
  ie_mode x ≠ GITLINK → ie_mode y ≠ GITLINK → ie_path x = ie_path y →
  gives k ev (x :: O) (y :: N) (on_matched env_modified x y t).
Proof.
  intros Hkind Ha Hpo Hpn Hx Hy E. rewrite on_matched_modes, (at_opts _ _ _ _ _ _ _ Ha) by done.
  pose proof (blob_or_tree x Hx) as Hbx. pose proof (blob_or_tree y Hy) as Hby.
  unfold gives. destruct (entry_is_tree x) eqn:Htx, (entry_is_tree y) eqn:Hty; cbn [negb] in *.
  - destruct (is_known (ie_oid x)) eqn:Hk; cbn [andb]; [case_bool_decide as Exy|].
    + subst y. destruct (old_over _ _ _ _ t _ _ Ha Hpo Htx) as (t' & E' & Ha' & En).
      destruct (at_env_parts _ _ _ _ _ Ha') as (i & j & o & -> & Hi & Hj & Hkj & Ho).
      rewrite (st_bind_ok _ _ _ _ _ E'). do 4 eexists. exists (drop_within (ie_path x) N), i, j, o.
      split_and!; [done|by apply step_unmodified_tree| |done|done]. cbn in Hi. rewrite Htx in Hi. split; [done|].
      cbn [app td_new] in *. rewrite take_drop_within. by rewrite En.
    + destruct (old_next _ _ _ _ t _ _ Ha) as (t1 & E1 & Ha1 & _). rewrite (st_bind_ok _ _ _ _ _ E1).
      destruct (new_next _ _ _ _ t1 _ _ Ha1) as (t2 & E2 & Ha2 & _). rewrite (st_bind_ok _ _ _ _ _ E2).
      destruct (at_env_parts _ _ _ _ _ Ha2) as (i & j & o & -> & Hi & Hj & Hkj & Ho).
      do 4 eexists. exists N, i, j, o. split_and!; [done|by apply step_trees|done|done|done].
    + destruct (old_next _ _ _ _ t _ _ Ha) as (t1 & E1 & Ha1 & _). rewrite (st_bind_ok _ _ _ _ _ E1).
      destruct (new_next _ _ _ _ t1 _ _ Ha1) as (t2 & E2 & Ha2 & _). rewrite (st_bind_ok _ _ _ _ _ E2).
      destruct (at_env_parts _ _ _ _ _ Ha2) as (i & j & o & -> & Hi & Hj & Hkj & Ho).
      do 4 eexists. exists N, i, j, o. split_and!; [done|by apply step_trees|done|done|done].
  - destruct (new_next _ _ _ _ t _ _ Ha) as (t' & E' & Ha' & Eo). rewrite (st_bind_ok _ _ _ _ _ E').
    destruct (at_env_parts _ _ _ _ _ Ha') as (i & j & o & -> & Hi & Hj & Hkj & Ho).
    do 4 eexists. exists N, i, j, o. split_and!; [done|by apply step_tree_to_blob| |done|done].
    split; [|done]. cbn [app td_old] in *. rewrite take_drop_within. by rewrite Eo.
  - destruct (old_next _ _ _ _ t _ _ Ha) as (t' & E' & Ha' & En). rewrite (st_bind_ok _ _ _ _ _ E').
    destruct (at_env_parts _ _ _ _ _ Ha') as (i & j & o & -> & Hi & Hj & Hkj & Ho).
    do 4 eexists. exists (drop_within (ie_path y) N), i, j, o.
    split_and!; [done|by apply step_blob_to_tree| |done|done].
    split; [done|]. cbn [app td_new] in *. rewrite take_drop_within. by rewrite En.
  - rewrite (st_bind_ok _ _ t t (oid_differs x y, y)).
    2: { unfold blob_has_changed. rewrite st_get_bind, (at_kind _ _ _ _ _ _ _ Ha).
         by rewrite bool_decide_false. }
    destruct (old_next _ _ _ _ t _ _ Ha) as (t1 & E1 & Ha1 & _). rewrite (st_bind_ok _ _ _ _ _ E1).
    destruct (new_next _ _ _ _ t1 _ _ Ha1) as (t2 & E2 & Ha2 & _). rewrite (st_bind_ok _ _ _ _ _ E2).
    destruct (at_env_parts _ _ _ _ _ Ha2) as (i & j & o & -> & Hi & Hj & Hkj & Ho).
    destruct (oid_differs x y) eqn:Hd; do 4 eexists; exists N, i, j, o.
    + split_and!; [done|by apply step_modified_blob|done|done|done].
    + split_and!; [done|by eapply step_unmodified_blob|done|done|done].
Qed.

Lemma next_step k (ev : env) n (i : I) (j : J) o O N :
  k ≠ KWorktree → comparable oid_differs O N → yields i O → yields j N → it_kind j = k → unmodified_opts o → 0 < n →
  (O = [] ∧ N = [] ∧ ∃ i' j' o', tree_diff_next env_modified n (mk_TreeDiffIter ev i j o)
                    = (Ok None, mk_TreeDiffIter ev i' j' o')
                    ∧ yields i' [] ∧ yields j' [] ∧ it_kind j' = k ∧ unmodified_opts o')
  ∨ gives k ev O N (tree_diff_next env_modified n (mk_TreeDiffIter ev i j o)).
Proof.
  intros Hkind HC Hi Hj Hk Ho Hn. destruct n as [|n]; [lia|]. pose proof (at_env_new k ev i j o O N Hi Hj Hk Ho) as Ha.
  pose proof HC as (HO & HN & _). cbn [tree_diff_next].
  destruct (old_peek _ _ _ _ _ _ _ Ha) as (t1 & E1 & Ha1 & Hp1 & _). rewrite (st_bind_ok _ _ _ _ _ E1).
  destruct (new_peek _ _ _ _ t1 _ _ Ha1) as (t2 & E2 & Ha2 & Hp2 & Eo). rewrite (st_bind_ok _ _ _ _ _ E2).
  rewrite <- Eo in Hp1. pose proof HO as (_ & HgO & _). pose proof HN as (_ & HgN & _).
  destruct O as [|x O], N as [|y N]; cbn [head].
  - left. destruct (at_env_parts _ _ _ _ _ Ha2) as (i' & j' & o' & -> & Hi' & Hj' & Hk' & Ho').
    split; [done|]. split; [done|]. exists i', j', o'. by split_and!.
  - right. apply gives_created; [done|done|by apply Forall_inv in HgN|]. by intros q ?%elem_of_nil.
  - right. apply gives_deleted; [done|done|by apply Forall_inv in HgO|]. by intros q ?%elem_of_nil.
  - right. apply Forall_inv in HgO as Hx. apply Forall_inv in HgN as Hy.
    destruct (path_cmp_total_order (ie_path x) (ie_path y) []) as (_ & Heq & Hanti & _).
    unfold diff_cmp. cbn [entry_path index_entry_is_entry].
    destruct (path_cmp (ie_path x) (ie_path y)) eqn:E.
    + pose proof (proj1 Heq eq_refl) as Exy.
      destruct (gives_matched k ev t2 x y O N Hkind Ha2 Hp1 Hp2 Hx Hy Exy)
        as (e & so & O' & sn & N' & i' & j' & o' & Er & Hrest).
      exists e, so, O', sn, N', i', j', o'. split; [|done]. by rewrite (st_bind_ok _ _ _ _ _ Er).
    + apply gives_deleted; [done|done|done|]. intros q Hq. by eapply diff_list_lt_all.
    + apply gives_created; [done|done|done|]. intros q Hq.
      apply (diff_list_lt_all x O); [done|by rewrite Hanti|done].
Qed.
End simulation.

(** ** A directory of the worktree without changes *)

(** The worktree has the entries of the baseline, directories for directories. *)
Definition aligned_entry (x w : BitIndexEntry) : Prop :=
  ie_path x = ie_path w ∧ entry_is_tree x = entry_is_tree w ∧ ie_mode w ≠ GITLINK.

Definition aligned (O Wt : list BitIndexEntry) : Prop := Forall2 aligned_entry O Wt.

Lemma aligned_within p x w : aligned_entry x w → within p x = within p w.
Proof. intros (E & _). unfold within. by rewrite E. Qed.

Lemma aligned_take p O Wt : aligned O Wt → aligned (take_within p O) (take_within p Wt).
Proof.
  induction 1 as [|x w O Wt Hx _ IH]; cbn; [constructor|]. rewrite (aligned_within p x w Hx).
  case_match; [by constructor|constructor].
Qed.

Lemma aligned_drop p O Wt : aligned O Wt → aligned (drop_within p O) (drop_within p Wt).
Proof.
  induction 1 as [|x w O Wt Hx Hl IH]; cbn; [constructor|]. rewrite (aligned_within p x w Hx).
  case_match; [done|by constructor].
Qed.

Lemma aligned_paths O Wt : aligned O Wt → ie_path <$> O = ie_path <$> Wt.
Proof. induction 1 as [|x w O Wt (E & _) _ IH]; [done|]. cbn. by rewrite E, IH. Qed.

Lemma aligned_elem_r O Wt w : aligned O Wt → w ∈ Wt → ∃ x, x ∈ O ∧ aligned_entry x w.
Proof.
  induction 1 as [|x w' O Wt Hx _ IH]; [by intros ?%elem_of_nil|].
  intros [->|Hw]%elem_of_cons; [exists x; by split; [left|]|].
  destruct (IH Hw) as (x' & ? & ?). exists x'. by split; [right|].
Qed.

Lemma aligned_elem_l O Wt x : aligned O Wt → x ∈ O → ∃ w, w ∈ Wt ∧ aligned_entry x w.
Proof.
  induction 1 as [|x' w O Wt Hx _ IH]; [by intros ?%elem_of_nil|].
  intros [->|Hin]%elem_of_cons; [exists w; by split; [left|]|].
  destruct (IH Hin) as (w' & ? & ?). exists w'. by split; [right|].
Qed.

Lemma aligned_diff_list O Wt : aligned O Wt → diff_list O → diff_list Wt.
Proof.
  intros Ha (Hs & _ & Hc). split; [|split].
  - induction Ha as [|x w O Wt (E & _) Hl IH]; [constructor|].
    apply StronglySorted_inv in Hs as [Hs Hx]. destruct Hc as [_ Hc]. constructor; [by apply IH|].
    rewrite Forall_forall in Hx |- *. intros w' Hw'.
    destruct (aligned_elem_r _ _ _ Hl Hw') as (x' & Hx' & (E' & _)). rewrite <- E, <- E'. by apply Hx.
  - clear Hs Hc. induction Ha as [|x w O Wt (_ & _ & Hm) _ IH]; by constructor.
  - clear Hs. induction Ha as [|x w O Wt (E & Et & _) Hl IH]; [done|].
    destruct Hc as [Hx Hc]. split; [|by apply IH]. intros Ht. rewrite <- Et in Ht. specialize (Hx Ht).
    rewrite <- E. rewrite Forall_forall in Hx |- *. intros w' Hw'.
    destruct (aligned_elem_r _ _ _ (aligned_drop (ie_path x) _ _ Hl) Hw') as (x' & Hx' & Ha').
    rewrite <- (aligned_within _ _ _ Ha'). by apply Hx.
Qed.

Lemma aligned_comparable O Wt : aligned O Wt → diff_list O → comparable (λ _ _, false) O Wt.
Proof.
  intros Ha HO. pose proof (aligned_diff_list _ _ Ha HO) as HW.
  refine (conj HO (conj HW (conj _ (conj _ _)))).
  - intros t q Ht Htt _ _ _. destruct (aligned_elem_l _ _ _ Ha Ht) as (w & Hw & E & Et & _).
    exists w. split_and!; [done|congruence|done].
  - intros t q Ht Htt _ _ _. destruct (aligned_elem_r _ _ _ Ha Ht) as (x & Hx & E & Et & _).
    exists x. split_and!; [done|congruence|done].
  - intros t _ _ _ _. split.
    + intros x Hx Hb _. destruct (aligned_elem_l _ _ _ Ha Hx) as (w & Hw & E & Et & Hm).
      exists w. split_and!; [done| |done|done].
      apply not_tree_blob; [done|]. rewrite <- Et. destruct (entry_is_tree x) eqn:Ht; [by destruct (blob_not_tree x)|done].
    + intros w Hw Hb _. destruct (aligned_elem_r _ _ _ Ha Hw) as (x & Hx & E & Et & _).
      destruct HO as (_ & Hg & _). rewrite Forall_forall in Hg.
      exists x. split_and!; [done| |done]. apply not_tree_blob; [by apply Hg|].
      rewrite Et. destruct (entry_is_tree w) eqn:Ht; [by destruct (blob_not_tree w)|done].
Qed.

(** The walk over two aligned lists reports nothing but directories that it enters. *)
Lemma aligned_event upd O Wt e O1 W1 :
  next_event (λ _ _, false) upd O Wt e O1 W1 → aligned O Wt →
  aligned O1 W1 ∧ length W1 ≤ length Wt
  ∧ match e with
    | None => O1 = [] ∧ W1 = []
    | Some (MaybeModifiedTree _) => length W1 < length Wt
    | Some _ => False
    end.
Proof.
  assert (∀ O Wt e O1 W1, aligned O Wt → diff_event (λ _ _, false) upd O Wt = Some (e, (O1, W1)) →
    aligned O1 W1 ∧ length W1 < length Wt ∧ (e = None ∨ ∃ y, e = Some (MaybeModifiedTree y))) as Hone.
  { clear. intros O Wt e O1 W1 Ha. destruct Ha as [|x w O Wt (E & Et & Hm) Ha]; [done|].
    cbn [diff_event]. unfold diff_cmp. cbn [entry_path index_entry_is_entry].
    rewrite E, (ord_refl path_cmp). unfold matched_event. rewrite Et. destruct (entry_is_tree w) eqn:Hw.
    - destruct (_ && _); intros [= <- <- <-].
      + cbn. rewrite Et, Hw, E. split_and!; [by apply aligned_drop| |by left].
        pose proof (length_drop_within (ie_path w) Wt). lia.
      + cbn. split_and!; [done|lia|right; by eexists].
    - intros [= <- <- <-]. cbn. split_and!; [done|lia|by left]. }
  induction 1 as [|O N e O1 N1 E|O N O1 N1 e O2 N2 E Hne IH]; intros Ha.
  - done.
  - destruct (Hone _ _ _ _ _ Ha E) as (Ha1 & Hl & [?|(y & [= ->])]); [done|]. split_and!; [done|lia|done].
  - destruct (Hone _ _ _ _ _ Ha E) as (Ha1 & Hl & _). destruct (IH Ha1) as (Ha2 & Hl2 & He).
    split_and!; [done|lia|]. destruct e as [[]|]; try done. lia.
Qed.

Lemma aligned_lengths O Wt : aligned O Wt → length O = length Wt.
Proof. apply Forall2_length. Qed.

Section no_changes.
Context {E I J : Type} `{TreeIterLaws I} `{TreeIterLaws J}.
Context (modified : BitIndexEntry → st E (bool * BitIndexEntry)).
Context (inv : E → Prop) (clean : BitIndexEntry → Prop).
Context (unmodified : ∀ y e, inv e → clean y → entry_is_blob y = true →
  ∃ y' e', modified y e = (Ok (false, y'), e') ∧ inv e').
Context (fuel : nat).

Abbreviation at_clean := (at_lists (R := E) (I := I) (J := J) KWorktree inv clean false).

Lemma unmodified_compare x y e : inv e → clean y → entry_is_blob y = true →
  ∃ y' e', compare_blobs modified KWorktree x y e = (Ok (false, y'), e') ∧ inv e' ∧ (false = true → y' = y).
Proof. intros Hi Hc Hb. destruct (unmodified y e Hi Hc Hb) as (y' & e' & E1 & Hi'). by exists y', e'. Qed.

Lemma aligned_no_diff n (t : TreeDiffIter E I J) O Wt :
  at_clean t O Wt → aligned O Wt → diff_list O → length Wt < n → length O + length Wt < fuel →
  ∃ t', trees_are_diff_loop modified fuel n t = (Ok false, t') ∧ at_clean t' [] [].
Proof.
  revert t O Wt. induction n as [|n IH]; intros t O Wt Ht Ha HO Hn Hf; [lia|]. cbn [trees_are_diff_loop].
  pose proof (aligned_comparable O Wt Ha HO) as HC.
  destruct (tree_diff_next_spec modified (λ _ _, false) (λ _ y, y) KWorktree inv clean
    unmodified_compare false fuel t O Wt eq_refl Ht HC Hf) as (e & O1 & W1 & t1 & Hne & [Ht1 _] & E1).
  rewrite (st_bind_ok _ _ _ _ _ E1).
  destruct (aligned_event _ _ _ _ _ _ Hne Ha) as (Ha1 & Hl & He). destruct e as [[]|]; try done.
  - cbn [drop_entry]. rewrite (st_bind_ok _ _ t1 t1 tt) by done.
    pose proof (aligned_lengths _ _ Ha). pose proof (aligned_lengths _ _ Ha1).
    apply (IH t1 O1 W1); [done|done| |lia|lia].
    pose proof (next_event_accounts (λ _ _, false) (λ _ y, y) _ _ _ _ _ Hne HC) as Hacc.
    cbn [after_event] in Hacc. destruct Hacc as ((HO1 & _) & _). done.
  - destruct He as [-> ->]. by exists t1.
Qed.
End no_changes.

(** ** One entry on the worktree *)

Section clean_walk.
Context {R W : Type} `{TreeIterLaws W}.
Context (is_worktree_entry_modified : BitIndexEntry → st R (bool * BitIndexEntry)).
Context (inv : R → Prop) (clean : BitIndexEntry → Prop).
Context (unmodified : ∀ y r, inv r → clean y → entry_is_blob y = true →
  ∃ y' r', is_worktree_entry_modified y r = (Ok (false, y'), r') ∧ inv r').
Context (fuel : nat).

(** The context of a safe checkout without conflicts. *)
Definition safe_ctxt (r : R) (m : Migration) : CheckoutCtxt R :=
  mk_CheckoutCtxt r m checkout_opts_default (mk_CheckoutConflicts []).

Definition ctxt_inv (m : Migration) (c : CheckoutCtxt R) : Prop := ∃ r, inv r ∧ c = safe_ctxt r m.

Abbreviation entry_modified := (entry_modified is_worktree_entry_modified).

Lemma entry_unmodified m y c :
  ctxt_inv m c → clean y → entry_is_blob y = true →
  ∃ y' c', entry_modified y c = (Ok (false, y'), c') ∧ ctxt_inv m c'.
Proof.
  intros (r & Hr & ->) Hc Hb. destruct (unmodified y r Hr Hc Hb) as (y' & r' & E & Hr').
  exists y', (safe_ctxt r' m). split; [|by exists r']. unfold Checkout.entry_modified, on_cx_repo, st_zoom.
  cbn [cx_repo safe_ctxt]. by rewrite E.
Qed.

(** The subtrees of the baseline and of the worktree do not differ. *)
Lemma no_local_changes {U} `{TreeIterLaws U} r m (w : W) (u : U) t O tw Wt :
  inv r → yields u (t :: O) → yields w (tw :: Wt) → (∀ u : U, it_kind u ≠ KWorktree) → it_kind w = KWorktree →
  entry_is_tree t = true → aligned (t :: O) (tw :: Wt) → diff_list (t :: O) → Forall clean (tw :: Wt) →
  length (t :: O) + length (tw :: Wt) < fuel →
  ∃ r' w' u', has_local_changes is_worktree_entry_modified fuel ((safe_ctxt r m, w), u)
              = (Ok false, ((safe_ctxt r' m, w'), u'))
    ∧ inv r' ∧ yields u' (drop_within (ie_path t) O) ∧ yields w' (drop_within (ie_path t) Wt)
    ∧ it_kind w' = KWorktree.
Proof.
  intros Hr Hu Hw Hku Hkw Ht Ha HO Hcl Hf. pose proof (Forall2_cons_1 _ _ _ _ _ Ha) as [(Ep & Et & _) Ha'].
  rewrite Ht in Et. set (te := tree_entry_from_index_entry t). set (tew := tree_entry_from_index_entry tw).
  set (ro := drop_within (ie_path t) O). set (rw := drop_within (ie_path tw) Wt).
  destruct (collect_over_tree_iter_spec u t O Hu Ht) as (u1 & E1 & _ & Hk1 & Hcs1).
  destruct (collect_over_tree_iter_spec w tw Wt Hw ltac:(done)) as (w1 & E2 & _ & Hk2 & Hcs2).
  fold te ro in E1, Hcs1. fold tew rw in E2, Hcs2.
  assert (aligned (t :: take_within (ie_path t) O) (tw :: take_within (ie_path tw) Wt)) as Hal.
  { constructor; [by inversion Ha|]. rewrite <- Ep. by apply aligned_take. }
  assert (diff_list (t :: take_within (ie_path t) O)) as Hdl.
  { destruct HO as (Hs & Hg & Hc). split; [|split].
    - rewrite <- (take_drop_within (ie_path t) O) in Hs. by apply (StronglySorted_app _ (t :: _)) in Hs as (_ & ? & _).
    - rewrite <- (take_drop_within (ie_path t) O) in Hg. by apply (Forall_app _ (t :: _)) in Hg as [? _].
    - by apply contiguous_subtree. }
  set (cx := safe_ctxt r m).
  set (t0 := mk_TreeDiffIter cx (mk_CollectSubtree te u1) (mk_CollectSubtree tew w1) diff_opts_default).
  assert (at_lists (H0 := collect_subtree_laws te ro) (H2 := collect_subtree_laws tew rw)
    KWorktree (ctxt_inv m) clean false t0 (t :: take_within (ie_path t) O) (tw :: take_within (ie_path tw) Wt)) as Hat.
  { split; cbn; [exact Hcs1|exact Hcs2|congruence|by exists r| |done].
    rewrite <- (take_drop_within (ie_path tw) Wt) in Hcl. by apply (Forall_app _ (tw :: _)) in Hcl as [? _]. }
  assert (length (t :: take_within (ie_path t) O) + length (tw :: take_within (ie_path tw) Wt) < fuel) as Hf1.
  { cbn [length] in *. rewrite <- (take_drop_within (ie_path t) O), <- (take_drop_within (ie_path tw) Wt), !length_app in Hf.
    lia. }
  destruct (aligned_no_diff (H0 := collect_subtree_laws te ro) (H2 := collect_subtree_laws tew rw)
    entry_modified (ctxt_inv m) clean (entry_unmodified m) fuel fuel t0 _ _ Hat Hal Hdl ltac:(lia) Hf1)
    as ([cx' c1 c2 o'] & E3 & [Hy1 Hy2 Hk3 (r' & Hr' & Ecx) _ _]). cbn in Hy1, Hy2, Hk3, Ecx. subst cx'.
  destruct (iter_collect_spec (H0 := collect_subtree_laws te ro) fuel [] c1 [] Hy1) as (c1' & E4 & Hy1' & _);
    [cbn in Hf1 |- *; lia|].
  destruct (iter_collect_spec (H0 := collect_subtree_laws tew rw) fuel [] c2 [] Hy2) as (c2' & E5 & Hy2' & Hk5);
    [cbn in Hf1 |- *; lia|].
  exists r', (cs_iter c2'), (cs_iter c1'). split_and!; [|done|apply Hy1'|rewrite Ep; apply Hy2'|].
  - unfold has_local_changes. rewrite (st_bind_ok _ _ _ ((cx, w), u1) te).
    2: { unfold tree_iter_entry, st_zoom. cbn [fst snd]. by rewrite E1. }
    rewrite (st_bind_ok _ _ _ ((cx, w1), u1) tew).
    2: { unfold on_env, on_tree, st_zoom. cbn [fst snd]. by rewrite E2. }
    unfold with_diff. fold t0. rewrite (st_bind_ok _ _ t0 t0 tt).
    2: { unfold assert_old_kind. rewrite st_get_bind. cbn [td_old t0]. by rewrite bool_decide_true by apply Hku. }
    rewrite (st_bind_ok _ _ _ _ _ E3), (st_bind_ok _ _ _ (mk_TreeDiffIter (safe_ctxt r' m) c1' c2 o') []).
    2: { unfold on_old, st_zoom. cbn [td_old]. by rewrite (expect_ok_ok _ _ _ _ E4). }
    rewrite (st_bind_ok _ _ _ (mk_TreeDiffIter (safe_ctxt r' m) c1' c2' o') []).
    2: { unfold on_new, st_zoom. cbn [td_new]. by rewrite (expect_ok_ok _ _ _ _ E5). }
    done.
  - cbn in Hk5, Hk3. congruence.
Qed.

(** *** Making a subtree *)

Lemma create_entries_spec l r m :
  Forall (λ x, ie_mode x ≠ GITLINK) l →
  ∃ m', st_for_each create_tree_entry l (safe_ctxt r m) = (Ok tt, safe_ctxt r m')
    ∧ migration_effect m' = effect_app (migration_effect m) (made l).
Proof.
  intros Hl. revert m. induction Hl as [|x l Hx _ IH]; intros m; cbn [st_for_each].
  - exists m. split; [done|]. by rewrite effect_app_no.
  - assert (∃ m1, create_tree_entry x (safe_ctxt r m) = (Ok tt, safe_ctxt r m1)
      ∧ migration_effect m1 = effect_app (migration_effect m) (made [x])) as (m1 & E1 & Em1).
    { unfold create_tree_entry, made. cbn [List.filter]. unfold entry_is_blob, entry_is_tree.
      cbn [entry_mode index_entry_is_entry]. destruct (ie_mode x); try done; cbn; try case_bool_decide;
        eexists; (split; [reflexivity|]); unfold migration_effect, effect_app; cbn; by rewrite ?app_nil_r. }
    rewrite (st_bind_ok _ _ _ _ _ E1). destruct (IH m1) as (m2 & E2 & Em2). exists m2. split; [done|].
    rewrite Em2, Em1, effect_app_assoc. f_equal. unfold effect_app, made. cbn.
    by destruct (entry_is_blob x), (entry_is_tree x), (bool_decide (ie_path x ≠ EMPTY)).
Qed.

Section consumer.
Context {U} `{TreeIterLaws U}.

Lemma consumer_peek_spec (u : U) t l :
  peeked u (t :: l) → ∃ u', consumer_peek u = (Ok t, u') ∧ peeked u' (t :: l) ∧ it_kind u' = it_kind u.
Proof.
  intros Hp. destruct (law_peek u _ (peeked_yields _ _ Hp)) as (u' & E & Hp' & Hk). exists u'.
  unfold consumer_peek. by rewrite (st_bind_ok _ _ _ _ _ (expect_ok_ok _ _ _ _ E)).
Qed.

Lemma consumer_collect_spec (u : U) t l :
  yields u (t :: l) → entry_is_tree t = true → length (t :: l) < fuel →
  ∃ u', consumer_collect fuel u = (Ok (t :: take_within (ie_path t) l), u')
    ∧ yields u' (drop_within (ie_path t) l) ∧ it_kind u' = it_kind u.
Proof.
  intros Hu Ht Hf. set (te := tree_entry_from_index_entry t). set (r := drop_within (ie_path t) l).
  destruct (collect_over_tree_iter_spec u t l Hu Ht) as (u1 & E1 & _ & Hk1 & Hcs). fold te r in E1, Hcs.
  assert (length (t :: take_within (ie_path t) l) < fuel) as Hf1.
  { cbn [length] in *. rewrite <- (take_drop_within (ie_path t) l), length_app in Hf. lia. }
  destruct (iter_collect_spec (H0 := collect_subtree_laws te r) fuel [] _ _ Hcs Hf1)
    as ([te2 u2] & E2 & Hcs2 & Hk2). pose proof Hcs2 as (_ & Hte & _). cbn in Hte. subst te2.
  destruct (subtree_drop_spec fuel te r u2 [] Hcs2) as (u3 & E3 & Hy3 & Hk3); [cbn; lia|].
  exists u3. unfold consumer_collect, with_subtree. rewrite (st_bind_ok _ _ _ _ _ E1).
  rewrite (st_bind_ok _ _ u1 u2 (t :: take_within (ie_path t) l)).
  2: { unfold on_subtree. by rewrite E2. }
  rewrite (st_bind_ok _ _ _ _ _ E3). cbn in Hk2. split_and!; [done|done|congruence].
Qed.

Lemma create_tree_spec r m (u : U) t l :
  yields u (t :: l) → entry_is_tree t = true → Forall (λ x, ie_mode x ≠ GITLINK) (t :: l) →
  length (t :: l) < fuel →
  ∃ m' u', create_tree fuel (safe_ctxt r m, u) = (Ok tt, (safe_ctxt r m', u'))
    ∧ migration_effect m' = effect_app (migration_effect m) (made (t :: take_within (ie_path t) l))
    ∧ yields u' (drop_within (ie_path t) l) ∧ it_kind u' = it_kind u.
Proof.
  intros Hu Ht Hg Hf. destruct (consumer_collect_spec u t l Hu Ht Hf) as (u' & E & Hy & Hk).
  destruct (create_entries_spec (t :: take_within (ie_path t) l) r m) as (m' & E' & Em).
  { rewrite <- (take_drop_within (ie_path t) l) in Hg. by apply (Forall_app _ (t :: _)) in Hg as [? _]. }
  exists m', u'. split_and!; [|done|done|done]. unfold create_tree.
  rewrite (st_bind_ok _ _ _ (safe_ctxt r m, u') (t :: take_within (ie_path t) l)).
  - unfold on_ctxt, st_zoom. cbn [fst snd]. by rewrite E'.
  - unfold on_tree, st_zoom. cbn [fst snd]. by rewrite E.
Qed.
End consumer.

(** *** The worktree at an entry *)

Section entry.
Context {I J : Type} `{TreeIterLaws I} `{TreeIterLaws J}.
Context (old_kind : ∀ i : I, it_kind i ≠ KWorktree).
Context (checkout_rec : ∀ I J, BitTreeIterator I → BitTreeIterator J →
  st (TreeDiffIter (CheckoutCtxt R * W) I J) unit).

Abbreviation at_state cx w i j o := (mk_TreeDiffIter ((cx, w) : CheckoutCtxt R * W) (i : I) (j : J) o).
Abbreviation with_worktree := (with_worktree is_worktree_entry_modified fuel checkout_rec).
Abbreviation match_worktree := (match_worktree is_worktree_entry_modified fuel checkout_rec).

(** What the worktree has at the path of an entry, if the baseline has something there. *)
Definition creates_only (e : TreeDiffEntry) : bool :=
  match e with CreatedBlob _ | CreatedTree _ => true | _ => false end.

Definition at_path (e : TreeDiffEntry) (y : BitIndexEntry) (O : list BitIndexEntry) : Prop :=
  if creates_only e then le_all y O else ∃ x O0, O = x :: O0 ∧ ie_path x = ie_path y.

Lemma index_entry_spec O N e so O' sn N' (ev : CheckoutCtxt R * W) (i : I) (j : J) o :
  step O N e so O' sn N' → positioned e i j so O' sn N' →
  ∃ y (i' : I) (j' : J), tree_diff_index_entry e (mk_TreeDiffIter ev i j o) = (Ok y, mk_TreeDiffIter ev i' j' o)
    ∧ positioned e i' j' so O' sn N' ∧ it_kind j' = it_kind j ∧ at_path e y O.
Proof.
  intros Hs Hp. unfold at_path. destruct Hs as [x O N Hb Hlt|t O N Ht Hlt|y O N Hb Hlt|t O N Ht Hlt|t O N Ht Hk|x y O N Hx Hy E
    |x y O N Hx Hy E|x y O N Hx Hy E|x y O N Hx Hy E Hd|x y O N Hx Hy E Hd]; cbn [positioned creates_only app] in *.
  1, 3, 6, 7, 9, 10: by do 3 eexists; (split; [reflexivity|]); split; [exact Hp|];
    (split; [done|]); first [done|do 2 eexists].
  - destruct Hp as [Hp Hj]. destruct (consumer_peek_spec i t _ Hp) as (i' & Ei & Hp' & _).
    exists t, i', j. cbn [tree_diff_index_entry]. unfold on_old, st_zoom. cbn [td_old]. rewrite Ei.
    split; [done|]. split; [done|]. split; [done|]. by do 2 eexists.
  - destruct Hp as [Hi Hp]. destruct (consumer_peek_spec j t _ Hp) as (j' & Ej & Hp' & Hk').
    exists t, i, j'. cbn [tree_diff_index_entry]. unfold on_new, st_zoom. cbn [td_new]. by rewrite Ej.
  - destruct Hp as [Hi Hp]. destruct (consumer_peek_spec j t _ Hp) as (j' & Ej & Hp' & Hk').
    exists t, i, j'. cbn [tree_diff_index_entry]. unfold on_new, st_zoom. cbn [td_new]. rewrite Ej.
    split; [done|]. split; [done|]. split; [done|]. by do 2 eexists.
  - destruct Hp as [Hi Hp]. destruct (consumer_peek_spec j y _ Hp) as (j' & Ej & Hp' & Hk').
    exists y, i, j'. cbn [tree_diff_index_entry]. unfold on_new, st_zoom. cbn [td_new]. rewrite Ej.
    split; [done|]. split; [done|]. split; [done|]. by do 2 eexists.
Qed.

(** The worktree stands at the entry's path, or behind it if only the target has an entry there. *)
Lemma match_worktree_spec n O N e so O' sn N' Wt cx (w : W) (i : I) (j : J) o :
  step O N e so O' sn N' → positioned e i j so O' sn N' → yields w Wt → aligned O Wt → 0 < n →
  ∃ (w' : W) (i' : I) (j' : J), positioned e i' j' so O' sn N' ∧ it_kind j' = it_kind j ∧ it_kind w' = it_kind w
    ∧ peeked w' Wt
    ∧ (if creates_only e then
         match_worktree n e (at_state cx w i j o) = no_worktree fuel e (at_state cx w' i' j' o)
       else ∃ x w0 O0 Wt0, O = x :: O0 ∧ Wt = w0 :: Wt0 ∧
         match_worktree n e (at_state cx w i j o) = with_worktree e w0 (at_state cx w' i' j' o)).
Proof.
  intros Hs Hp Hw Ha Hn. destruct n as [|n]; [lia|].
  destruct (law_peek w Wt Hw) as (w' & Ew & Hpw & Hkw).
  destruct (index_entry_spec O N e so O' sn N' (cx, w') i j o Hs Hp) as (y & i' & j' & Ey & Hp' & Hk' & Hy).
  assert (wt_do it_peek (at_state cx w i j o) = (Ok (head Wt), at_state cx w' i j o)) as Ewt.
  { unfold wt_do, on_repo, on_tree, st_zoom. cbn [td_repo td_old td_new td_opts fst snd]. by rewrite Ew. }
  unfold at_path in Hy. destruct (creates_only e).
  - destruct Ha as [|x w0 O Wt (E & _) Ha].
    + exists w', i, j. split_and!; [done|done|done|done|].
      cbn [Checkout.match_worktree]. by rewrite (st_bind_ok _ _ _ _ _ Ewt).
    + exists w', i', j'. split_and!; [done|done|done|done|]. cbn [Checkout.match_worktree].
      rewrite (st_bind_ok _ _ _ _ _ Ewt). cbn [head]. rewrite (st_bind_ok _ _ _ _ _ Ey).
      unfold diff_cmp. cbn [entry_path index_entry_is_entry]. rewrite <- E.
      rewrite (proj2 (ord_gt path_cmp _ _) (Hy x ltac:(by left))). done.
  - destruct Hy as (x & O0 & -> & Exy). inversion Ha as [|? w0 ? Wt0 (E & _) Ha0]; subst.
    exists w', i', j'. split_and!; [done|done|done|done|]. exists x, w0, O0, Wt0. split_and!; [done|done|].
    cbn [Checkout.match_worktree]. rewrite (st_bind_ok _ _ _ _ _ Ewt). cbn [head].
    rewrite (st_bind_ok _ _ _ _ _ Ey). unfold diff_cmp. cbn [entry_path index_entry_is_entry].
    by rewrite <- E, Exy, (ord_refl path_cmp).
Qed.

Lemma cx_do_eq {A} (f : st (CheckoutCtxt R) A) cx (w : W) (i : I) (j : J) o a cx' :
  f cx = (a, cx') → cx_do f (at_state cx w i j o) = (a, at_state cx' w i j o).
Proof. intros E. unfold cx_do, on_repo, on_ctxt, st_zoom. cbn [td_repo td_old td_new td_opts fst snd]. by rewrite E. Qed.

Lemma wt_do_eq {A} (f : st W A) cx (w : W) (i : I) (j : J) o a w' :
  f w = (a, w') → wt_do f (at_state cx w i j o) = (a, at_state cx w' i j o).
Proof. intros E. unfold wt_do, on_repo, on_tree, st_zoom. cbn [td_repo td_old td_new td_opts fst snd]. by rewrite E. Qed.

Lemma cx_tree_old_eq (f : ∀ U, BitTreeIterator U → st (CheckoutCtxt R * U) unit) cx (w : W) (i : I) (j : J) o a cx' i' :
  f I _ (cx, i) = (a, (cx', i')) → cx_tree_do OldEntries f (at_state cx w i j o) = (a, at_state cx' w i' j o).
Proof.
  intros E. unfold cx_tree_do, on_tree_entries, on_ctxt_tree, st_zoom.
  cbn [td_repo td_old td_new td_opts fst snd]. by rewrite E.
Qed.

Lemma cx_tree_new_eq (f : ∀ U, BitTreeIterator U → st (CheckoutCtxt R * U) unit) cx (w : W) (i : I) (j : J) o a cx' j' :
  f J _ (cx, j) = (a, (cx', j')) → cx_tree_do NewEntries f (at_state cx w i j o) = (a, at_state cx' w i j' o).
Proof.
  intros E. unfold cx_tree_do, on_tree_entries, on_ctxt_tree, st_zoom.
  cbn [td_repo td_old td_new td_opts fst snd]. by rewrite E.
Qed.

Lemma if_forced_safe {A} (a b : st (TreeDiffIter (CheckoutCtxt R * W) I J) A) r m (w : W) (i : I) (j : J) o :
  if_forced a b (at_state (safe_ctxt r m) w i j o) = b (at_state (safe_ctxt r m) w i j o).
Proof. done. Qed.

(** The comparison, the worktree and the migration after an entry. *)
Definition lands (k : IterKind) (eff : effect) (O' N' : list BitIndexEntry)
    (res : BitResult unit * TreeDiffIter (CheckoutCtxt R * W) I J) : Prop :=
  ∃ r m w i j o Wt, res = (Ok tt, at_state (safe_ctxt r m) w i j o)
    ∧ inv r ∧ migration_effect m = eff ∧ (yields i O' ∧ yields j N' ∧ yields w Wt)
    ∧ (aligned O' Wt ∧ Forall clean Wt) ∧ (it_kind w = KWorktree ∧ it_kind j = k) ∧ unmodified_opts o.

(** What is done with an unmodified file of the worktree. *)
Definition unmodified_action (e : TreeDiffEntry) : st (TreeDiffIter (CheckoutCtxt R * W) I J) unit :=
  match e with
  | DeletedBlob entry => cx_do (delete entry)
  | ModifiedBlob _ entry => cx_do (update entry)
  | UnmodifiedBlob _ => mret tt
  | BlobToTree blob tree => cx_tree_do tree (λ U HU, blob_to_tree fuel blob)
  | _ => st_lift Panic
  end.

Definition on_file (e : TreeDiffEntry) : bool :=
  match e with DeletedBlob _ | ModifiedBlob _ _ | UnmodifiedBlob _ | BlobToTree _ _ => true | _ => false end.

Lemma with_worktree_file e r m (w : W) (i : I) (j : J) o w0 Wt :
  on_file e = true → inv r → peeked w (w0 :: Wt) → clean w0 → entry_is_blob w0 = true →
  ∃ r' w', with_worktree e w0 (at_state (safe_ctxt r m) w i j o)
           = unmodified_action e (at_state (safe_ctxt r' m) w' i j o)
    ∧ inv r' ∧ yields w' Wt ∧ it_kind w' = it_kind w.
Proof.
  intros He Hr Hp Hc Hb. destruct (law_next w _ (peeked_yields _ _ Hp)) as (w' & Ew & Hy & Hk).
  destruct (unmodified w0 r Hr Hc Hb) as (w1 & r' & Er & Hr').
  exists r', w'. split_and!; [|done|done|done]. unfold Checkout.with_worktree.
  destruct (entry_is_tree w0) eqn:Ht; [by destruct (blob_not_tree w0)|].
  rewrite (st_bind_ok _ _ _ _ _ (wt_do_eq _ _ _ _ _ _ _ _ Ew)).
  rewrite (st_bind_ok _ _ _ (at_state (safe_ctxt r' m) w' i j o) (false, w1)).
  - by destruct e.
  - apply cx_do_eq. unfold Checkout.entry_modified, on_cx_repo, st_zoom. cbn [cx_repo safe_ctxt]. by rewrite Er.
Qed.

Lemma effect_push_rm m e : migration_effect (push_rm e m) = effect_app (migration_effect m) (removed_file (te_path e)).
Proof. unfold migration_effect, effect_app. cbn. by rewrite fmap_app, !app_nil_r. Qed.

Lemma effect_push_rmrf m e : migration_effect (push_rmrf e m) = effect_app (migration_effect m) (removed_dir (te_path e)).
Proof. unfold migration_effect, effect_app. cbn. by rewrite fmap_app, !app_nil_r. Qed.

Lemma effect_push_create m y : entry_is_blob y = true →
  migration_effect (push_create (tree_entry_from_index_entry y) m) = effect_app (migration_effect m) (made [y]).
Proof.
  intros Hb. unfold migration_effect, effect_app, made. cbn. rewrite Hb.
  destruct (entry_is_tree y) eqn:Ht; [by destruct (blob_not_tree y)|]. cbn. by rewrite !app_nil_r.
Qed.

Lemma update_spec r m y :
  entry_is_blob y = true →
  ∃ m', update y (safe_ctxt r m) = (Ok tt, safe_ctxt r m')
    ∧ migration_effect m' = effect_app (migration_effect m) (effect_app (removed_file (ie_path y)) (made [y])).
Proof.
  intros Hb. exists (push_create (tree_entry_from_index_entry y) (push_rm (tree_entry_from_index_entry y) m)). split.
  - unfold update. unfold entry_is_blob in Hb. cbn in Hb |- *. by destruct (ie_mode y).
  - by rewrite effect_push_create, effect_push_rm, effect_app_assoc.
Qed.

Abbreviation no_gitlinks := (Forall (λ x, ie_mode x ≠ GITLINK)).

(** Only the target has something there. *)
Lemma lands_created k O N e so O' sn N' r m (w : W) (i : I) (j : J) o Wt :
  step O N e so O' sn N' → creates_only e = true → positioned e i j so O' sn N' →
  inv r → yields w Wt → aligned O Wt → Forall clean Wt → it_kind w = KWorktree → it_kind j = k →
  unmodified_opts o → no_gitlinks N → length N < fuel →
  lands k (effect_app (migration_effect m) (step_effect e so sn)) O' N'
    (no_worktree fuel e (at_state (safe_ctxt r m) w i j o)).
Proof.
  intros Hs He Hp Hr Hw Ha Hc Hkw Hkj Ho Hg Hf. unfold lands.
  destruct Hs as [| |y O N Hb Hlt|t O N Ht Hlt| | | | | |]; try done; cbn [positioned app step_effect] in *.
  - destruct Hp as [Hi Hj]. exists r, (push_create (tree_entry_from_index_entry y) m), w, i, j, o, Wt.
    split; [done|]. by rewrite effect_push_create.
  - destruct Hp as [Hi Hj]. rewrite take_drop_within in Hj.
    destruct (create_tree_spec r m j t N) as (m' & j' & E & Em & Hy & Hk); [by apply peeked_yields|done..|].
    exists r, m', w, i, j', o, Wt. split.
    + cbn [no_worktree]. exact (cx_tree_new_eq (λ U HU, create_tree fuel) _ _ _ _ _ _ _ _ E).
    + split_and!; try done. congruence.
Qed.

(** The worktree has a file there, which has not been modified. *)
Lemma lands_file k O N e so O' sn N' r m (w : W) (i : I) (j : J) o w0 Wt :
  step O N e so O' sn N' → on_file e = true → positioned e i j so O' sn N' →
  inv r → peeked w (w0 :: Wt) → aligned O (w0 :: Wt) → Forall clean (w0 :: Wt) → it_kind w = KWorktree →
  it_kind j = k → unmodified_opts o → no_gitlinks N → length N < fuel →
  lands k (effect_app (migration_effect m) (step_effect e so sn)) O' N'
    (with_worktree e w0 (at_state (safe_ctxt r m) w i j o)).
Proof.
  intros Hs He Hp Hr Hw Ha Hc Hkw Hkj Ho Hg Hf.
  pose proof (Forall_inv Hc) as Hc0. pose proof (Forall_inv_tail Hc) as Hct.
  assert (∃ x O0, O = x :: O0 ∧ entry_is_blob x = true ∧ O' = O0) as (x0 & O0 & -> & Hxb & ->).
  { destruct Hs; try done; by eexists _, _. }
  inversion Ha as [|? ? ? ? (Ep & Et & Hm) Ha']; subst.
  assert (entry_is_blob w0 = true) as Hwb.
  { apply not_tree_blob; [done|]. rewrite <- Et. destruct (entry_is_tree x0) eqn:Ht; [by destruct (blob_not_tree x0)|done]. }
  destruct (with_worktree_file e r m w i j o w0 Wt He Hr Hw Hc0 Hwb) as (r' & w' & -> & Hr' & Hw' & Hk').
  unfold lands. inversion Hs as [x O N0 Hb Hlt| | | | | | |x y O N0 Hx Hy E|x y O N0 Hx Hy E Hd|x y O N0 Hx Hy E Hd];
    subst; try done; cbn [positioned app step_effect unmodified_action] in *.
  - destruct Hp as [Hi Hj]. exists r', (push_rm (tree_entry_from_index_entry x0) m), w', i, j, o, Wt.
    split; [done|]. rewrite effect_push_rm. split_and!; try done. congruence.
  - destruct Hp as [Hi Hj]. rewrite take_drop_within in Hj.
    destruct (create_tree_spec r' (push_rm (tree_entry_from_index_entry x0) m) j y N0)
      as (m' & j' & E' & Em & Hyj & Hk); [by apply peeked_yields|done..|].
    exists r', m', w', i, j', o, Wt. split.
    + apply cx_tree_new_eq. unfold blob_to_tree.
      by rewrite (st_bind_ok _ _ _ (safe_ctxt r' (push_rm (tree_entry_from_index_entry x0) m), j) tt).
    + rewrite Em, effect_push_rm, effect_app_assoc. split_and!; try done; congruence.
  - destruct Hp as [Hi Hj]. destruct (update_spec r' m y Hy) as (m' & E' & Em).
    exists r', m', w', i, j, o, Wt. split; [by apply cx_do_eq|].
    split_and!; try done. congruence.
  - destruct Hp as [Hi Hj]. exists r', m, w', i, j, o, Wt. split; [done|].
    rewrite effect_app_no. split_and!; try done. congruence.
Qed.

(** The worktree has a directory there, in which nothing has been modified. *)
Lemma lands_dir k O N e so O' sn N' r m (w : W) (i : I) (j : J) o w0 Wt :
  step O N e so O' sn N' → on_file e = false → creates_only e = false → positioned e i j so O' sn N' →
  inv r → peeked w (w0 :: Wt) → aligned O (w0 :: Wt) → Forall clean (w0 :: Wt) → it_kind w = KWorktree →
  it_kind j = k → unmodified_opts o → diff_list O → length O + length (w0 :: Wt) < fuel →
  lands k (effect_app (migration_effect m) (step_effect e so sn)) O' N'
    (with_worktree e w0 (at_state (safe_ctxt r m) w i j o)).
Proof.
  intros Hs He1 He2 Hp Hr Hw Ha Hc Hkw Hkj Ho HO Hf.
  pose proof (Forall_inv Hc) as Hc0. pose proof (Forall_inv_tail Hc) as Hct.
  assert (∃ x O0, O = x :: O0 ∧ entry_is_tree x = true) as (x0 & O0 & -> & Hxt).
  { destruct Hs; try done; by eexists _, _. }
  inversion Ha as [|? ? ? ? (Ep & Et & Hm) Ha']; subst. rewrite Hxt in Et.
  unfold Checkout.with_worktree. rewrite <- Et. unfold lands.
  inversion Hs as [|t O N0 Ht Hlt| | |t O N0 Ht Hk|x y O N0 Hx Hy E|x y O N0 Hx Hy E| | |];
    subst; try done; cbn [positioned app step_effect with_worktree_dir] in *; rewrite ?if_forced_safe.
  - destruct Hp as [Hi Hj]. rewrite take_drop_within in Hi.
    destruct (no_local_changes r m w i x0 O0 w0 Wt) as (r' & w' & i' & E' & Hr' & Hi' & Hw' & Hk');
      [done|by apply peeked_yields|by apply peeked_yields|done..|].
    exists r', (push_rmrf (tree_entry_from_index_entry w0) m), w', i', j, o, (drop_within (ie_path x0) Wt). split.
    + rewrite (st_bind_ok _ _ _ (at_state (safe_ctxt r' m) w' i' j o) false); [done|].
      unfold on_tree_entries. cbn [td_repo td_old td_new td_opts]. by rewrite E'.
    + rewrite effect_push_rmrf. cbn [te_path tree_entry_from_index_entry]. rewrite <- Ep.
      split_and!; try done; [by apply aligned_drop|by apply drop_within_Forall].
  - destruct Hp as [Hi Hj]. destruct (law_over w _ Hw) as (w' & Ew & Hw' & Hk'); [by symmetry|].
    rewrite take_drop_within in Hj.
    destruct (consumer_drop_spec j _ Hj) as (j' & Ej & Hj' & Hkj'); [done|].
    exists r, m, w', i, j', o, (drop_within (ie_path x0) Wt). split.
    + rewrite (st_bind_ok _ _ _ (at_state (safe_ctxt r m) w' i j o) tt).
      * unfold drop_unused. apply cx_tree_new_eq. unfold on_tree, st_zoom. cbn [fst snd]. by rewrite Ej.
      * unfold worktree_over. by rewrite (st_bind_ok _ _ _ _ _ (wt_do_eq _ _ _ _ _ _ _ _ Ew)).
    + cbn [over_list] in Hj', Hw'. rewrite Ht in Hj'. rewrite <- Et, <- Ep in Hw'. rewrite effect_app_no.
      split_and!; try done; [by apply aligned_drop|by apply drop_within_Forall|congruence..].
  - destruct Hp as [Hi Hj]. destruct (law_next w _ (peeked_yields _ _ Hw)) as (w' & Ew & Hw' & Hk').
    exists r, m, w', i, j, o, Wt. split.
    + by rewrite (st_bind_ok _ _ _ _ _ (wt_do_eq _ _ _ _ _ _ _ _ Ew)).
    + rewrite effect_app_no. split_and!; try done. congruence.
  - destruct Hp as [Hi Hj]. rewrite take_drop_within in Hi.
    destruct (no_local_changes r m w i x0 O0 w0 Wt) as (r' & w' & i' & E' & Hr' & Hi' & Hw' & Hk');
      [done|by apply peeked_yields|by apply peeked_yields|done..|].
    exists r', (push_create (tree_entry_from_index_entry y) (push_rmrf (tree_entry_from_index_entry w0) m)),
      w', i', j, o, (drop_within (ie_path x0) Wt). split.
    + rewrite (st_bind_ok _ _ _ (at_state (safe_ctxt r' m) w' i' j o) false); [done|].
      unfold on_tree_entries. cbn [td_repo td_old td_new td_opts]. by rewrite E'.
    + rewrite effect_push_create, effect_push_rmrf, effect_app_assoc by done.
      cbn [te_path tree_entry_from_index_entry]. rewrite <- Ep.
      split_and!; try done; [by rewrite E|by apply aligned_drop|by apply drop_within_Forall].
Qed.

(** An entry on the worktree. *)
Lemma lands_step k O N e so O' sn N' r m (w : W) (i : I) (j : J) o Wt :
  step O N e so O' sn N' → positioned e i j so O' sn N' →
  inv r → yields w Wt → aligned O Wt → Forall clean Wt → it_kind w = KWorktree → it_kind j = k →
  unmodified_opts o → diff_list O → no_gitlinks N → length O + length N + length Wt < fuel →
  lands k (effect_app (migration_effect m) (step_effect e so sn)) O' N'
    (match_worktree fuel e (at_state (safe_ctxt r m) w i j o)).
Proof.
  intros Hs Hp Hr Hw Ha Hc Hkw Hkj Ho HO Hg Hf.
  destruct (match_worktree_spec fuel O N e so O' sn N' Wt (safe_ctxt r m) w i j o Hs Hp Hw Ha ltac:(lia))
    as (w' & i' & j' & Hp' & Hkj' & Hkw' & Hpw & Hm).
  destruct (creates_only e) eqn:He.
  - rewrite Hm. eapply lands_created; try done; [by apply peeked_yields|congruence|congruence|lia].
  - destruct Hm as (x & w0 & O0 & Wt0 & -> & -> & ->). destruct (on_file e) eqn:Hof.
    + eapply lands_file; try done; [congruence|congruence|lia].
    + eapply lands_dir; try done; [congruence|congruence|lia].
Qed.
End entry.

(** ** The whole checkout *)

Section whole.
Context {I J : Type} `{TreeIterLaws I} `{TreeIterLaws J}.
Context (old_kind : ∀ i : I, it_kind i ≠ KWorktree).

Lemma checkout_spec k n O N r m (w : W) (i : I) (j : J) o Wt :
  k ≠ KWorktree → checkout_pair O N → yields i O → yields j N → yields w Wt → inv r → aligned O Wt →
  Forall clean Wt → it_kind w = KWorktree → it_kind j = k → unmodified_opts o →
  length O + length N < n → length O + length N + length Wt < fuel →
  lands k (effect_app (migration_effect m) (tree_effect O N)) [] []
    (checkout is_worktree_entry_modified fuel n I J _ _
       (mk_TreeDiffIter (safe_ctxt r m, w) i j o)).
Proof.
  intros Hk. revert O N r m w i j o Wt.
  induction n as [|n IH]; intros O N r m w i j o Wt HP Hi Hj Hw Hr Ha Hc Hkw Hkj Ho Hn Hf; [lia|].
  cbn [checkout]. pose proof (proj1 HP) as HC.
  destruct (next_step is_worktree_entry_modified k (safe_ctxt r m, w) fuel i j o O N Hk HC Hi Hj Hkj Ho ltac:(lia))
    as [(-> & -> & i' & j' & o' & E & Hi' & Hj' & Hkj' & Ho')
       |(e & so & O' & sn & N' & i' & j' & o' & E & Hs & Hp & Hkj' & Ho')].
  - rewrite (st_bind_ok _ _ _ _ _ E). exists r, m, w, i', j', o', Wt.
    rewrite effect_created, effect_app_no. inversion Ha; subst. by split_and!.
  - rewrite (st_bind_ok _ _ _ _ _ E).
    pose proof HC as (HO & (_ & HgN & _) & _).
    destruct (lands_step old_kind (checkout is_worktree_entry_modified fuel n) k O N e so O' sn N' r m w i' j' o' Wt
      Hs Hp Hr Hw Ha Hc Hkw Hkj' Ho' HO HgN Hf)
      as (r1 & m1 & w1 & i1 & j1 & o1 & Wt1 & E1 & Hr1 & Em1 & (Hi1 & Hj1 & Hw1) & (Ha1 & Hc1) & (Hkw1 & Hkj1) & Ho1).
    rewrite (st_bind_ok _ _ _ _ _ E1).
    destruct (step_rest _ _ _ _ _ _ _ Hs HP) as (HP' & Eeff & Hlen).
    rewrite Eeff, <- effect_app_assoc, <- Em1.
    destruct (step_parts _ _ _ _ _ _ _ Hs) as (EO & EN & _).
    apply (IH O' N' r1 m1 w1 i1 j1 o1 Wt1); try done; [lia|].
    pose proof (aligned_lengths _ _ Ha). pose proof (aligned_lengths _ _ Ha1).
    assert (length O' ≤ length O) by (subst O; rewrite length_app; lia). lia.
Qed.

Lemma remaining_nothing n cx (w : W) :
  yields w [] → 0 < n →
  ∃ w', remaining_worktree n (cx : CheckoutCtxt R, w) = (Ok tt, (cx, w')).
Proof.
  intros Hw Hn. destruct n as [|n]; [lia|]. destruct (law_peek w [] Hw) as (w' & E & _). exists w'.
  cbn [remaining_worktree]. rewrite (st_bind_ok _ _ _ (cx, w') None); [done|].
  unfold on_tree, st_zoom. cbn [fst snd]. by rewrite E.
Qed.

Lemma generate_clean O N r (w : W) (i : I) (j : J) Wt :
  checkout_pair O N → yields i O → yields j N → yields w Wt → inv r → aligned O Wt →
  Forall clean Wt → it_kind w = KWorktree → it_kind j ≠ KWorktree → length O + length N + length Wt < fuel →
  ∃ m r', generate_migration is_worktree_entry_modified fuel r checkout_opts_default i j w = (Ok m, r')
    ∧ inv r' ∧ migration_effect m = tree_effect O N.
Proof.
  intros HP Hi Hj Hw Hr Ha Hc Hkw Hkj Hf.
  destruct (checkout_spec (it_kind j) fuel O N r migration_default w i j (mk_DiffOpts INCLUDE_UNMODIFIED) Wt)
    as (r1 & m1 & w1 & i1 & j1 & o1 & Wt1 & E1 & Hr1 & Em1 & (Hi1 & Hj1 & Hw1) & (Ha1 & _) & _); try done; [lia|].
  inversion Ha1; subst. destruct (remaining_nothing fuel (safe_ctxt r1 m1) w1 Hw1 ltac:(lia)) as (w2 & E2).
  exists m1, r1. split_and!; [|done|done]. unfold generate_migration, generate. fold (safe_ctxt r migration_default).
  set (t0 := mk_TreeDiffIter (ctxt_new r checkout_opts_default, w) i j _).
  rewrite (st_bind_ok _ _ t0 t0 tt).
  2: { unfold assert_old_kind. rewrite st_get_bind. cbn [td_old t0]. by rewrite bool_decide_true by apply old_kind. }
  rewrite (st_bind_ok _ _ _ _ _ E1).
  rewrite (st_bind_ok _ _ _ (mk_TreeDiffIter (safe_ctxt r1 m1, w2) i1 j1 o1) tt).
  2: { unfold on_repo, st_zoom. cbn [td_repo td_old td_new td_opts]. by rewrite E2. }
  done.
Qed.
End whole.
End clean_walk.
