(* ===== verification/Migrate.v ===== *)
(** * Migrate

    The rest of [libbit/src/checkout.rs]: applying a [Migration] to the worktree and the index, and
    the checkout of trees, of the index and of references. *)

From Stdlib Require Import ZArith Lia.
From Stdlib Require Import Strings.Byte.
From stdpp Require Import base tactics option list countable strings gmap.
From S2P Require Import Prelude RustStd Data State Io Hash Path Obj Tree Signature IndexEntry TreeCache Index TreeIter TreeDiff.
From S2P Require Import Lockfile Refs RefDb.
From S2P Require Import IndexDiff IndexIter WriteTree WorktreeIter Worktree Merge Checkout.

(** ** std::fs *)

(** [Path::is_dir] and [Path::is_file] follow symbolic links. *)
Definition fs_is_dir (w : Worktree) (p : BitPath) : bool := is_dir_at w (resolve_links w p).

Definition fs_is_file (w : Worktree) (p : BitPath) : bool :=
  match w !! resolve_links w p with Some (File mode _) => bool_decide (mode ≠ LINK) | _ => false end.

(** [read_dir()?.next().is_none()]: the root holds the directory of the repository. *)
Definition fs_dir_is_empty (w : Worktree) (d : BitPath) : bool :=
  negb (is_empty d) && bool_decide (map_Forall (λ p _, dir_of p ≠ d) w).

Definition fs_remove_dir (d : BitPath) : st Worktree unit := λ w,
  if bool_decide (w !! d = Some Dir) && fs_dir_is_empty w d then (Ok tt, base.delete d w) else (Err Anyhow, w).

Definition fs_symlink (target : bytes) (p : BitPath) : st Worktree unit := λ w,
  match w !! p with
  | Some _ => (Err Anyhow, w)
  | None =>
      if negb (is_empty p) && is_dir_at w (dir_of p) then (Ok tt, <[p := File LINK target]> w)
      else (Err Anyhow, w)
  end.

(** [set_permissions] of a file that is open: of the mode only the permissions count. *)
Definition fs_set_permissions (p : BitPath) (mode : FileMode) : st Worktree unit := λ w,
  match w !! p with
  | Some (File _ data) =>
      (Ok tt, <[p := File (if bool_decide (mode = EXEC) then EXEC else REG) data]> w)
  | _ => (Err Anyhow, w)
  end.

(** ** Applying a migration *)

Record RepoState := mk_RepoState { rs_index : BitIndexInner; rs_worktree : Worktree }.

Section apply.
(** What the operating system reports for a path. *)
Variable metadata : Worktree → BitPath → Metadata.
(** [BitRepo::read_obj] of a blob, and [BitRepo::write_obj] of one. *)
Variable read_blob : Oid → BitResult bytes.
Variable write_blob : bytes → BitResult Oid.

Definition on_files {A} (m : st Worktree A) : st RepoState A :=
  st_zoom rs_worktree (λ s w, mk_RepoState (rs_index s) w) m.

Definition on_index_mut (f : Worktree → BitIndexInner → BitResult BitIndexInner) : st RepoState unit := λ s,
  match f (rs_worktree s) (rs_index s) with
  | Ok idx => (Ok tt, mk_RepoState idx (rs_worktree s))
  | Err e => (Err e, s)
  | Panic => (Panic, s)
  end.

Definition apply_rmrf (rmrf : TreeEntry) : st RepoState unit :=
  s ← st_get;
  _ ← (if fs_is_dir (rs_worktree s) (te_path rmrf) then on_files (fs_remove_dir_all (te_path rmrf)) else mret tt);
  on_index_mut (λ _ idx, Ok (remove_directory idx (te_path rmrf))).

(** The removal of a file and of the directory that it leaves empty. *)
Definition remove_file_and_parent (p : BitPath) : st Worktree unit :=
  _ ← fs_remove_file p;
  parent ← st_lift (unwrap (parent p));
  w ← st_get;
  if fs_dir_is_empty w parent then fs_remove_dir parent else mret tt.

Definition apply_rm (rm : TreeEntry) : st RepoState unit :=
  s ← st_get;
  _ ← (if fs_is_file (rs_worktree s) (te_path rm) then on_files (remove_file_and_parent (te_path rm)) else mret tt);
  on_index_mut (λ _ idx, Ok (remove_entry idx (te_path rm, NONE))).

Definition apply_mkdir (mkdir : TreeEntry) : st RepoState unit :=
  on_files (fs_create_dir_all (te_path mkdir)).

Definition create_file (create : TreeEntry) : st Worktree unit :=
  w ← st_get;
  bytes ← st_lift (read_to_bytes read_blob w (index_entry_from_tree_entry create));
  parent ← st_lift (unwrap (parent (te_path create)));
  _ ← fs_create_dir_all parent;
  if bool_decide (te_mode create = LINK) then fs_symlink bytes (te_path create)
  else
    _ ← fs_create_new (te_path create) bytes;
    fs_set_permissions (te_path create) (te_mode create).

Definition apply_create (create : TreeEntry) : st RepoState unit :=
  _ ← on_files (create_file create);
  on_index_mut (λ w idx,
    index_entry ← from_absolute_path (stat metadata w) (te_path create);
    add_entry (stat metadata w) (write_worktree_blob write_blob w) idx
      (with_oid index_entry (te_oid create))).

Definition apply_migration (migration : Migration) : st RepoState unit :=
  _ ← st_for_each apply_rmrf (rmrfs migration);
  _ ← st_for_each apply_rm (rms migration);
  _ ← st_for_each apply_mkdir (mkdirs migration);
  st_for_each apply_create (creates migration).

(** ** Checkout *)

(** The hash of a file of the worktree as a blob, and the modification time of the index file. *)
Variable hash_blob : bytes → Oid.
Variable index_mtime : option Timespec.
(** [jwalk] over the worktree, and the crate [ignore]. *)
Context {Gitignore : Type} (is_ignore : Gitignore → BitPath → bool → bool) (gitignore : Gitignore).
Variable walk_dir : Worktree → list (BitResult DirEntry).
(** [Oid::treeish], the tree of [HEAD], and the tree objects. *)
Variable treeish : Oid → BitResult (list TreeEntry).
Variable head_tree : BitResult Oid.
Variable read_obj_tree : Oid → BitResult TreeObj.
(** Bounds the walks. *)
Variable fuel : nat.

Definition hash_blob_from_worktree (w : Worktree) (p : BitPath) : BitResult Oid :=
  data ← read_blob_from_worktree w p;
  Ok (hash_blob data).

(** [repo.index_mut()?.is_worktree_entry_modified(..)] on the worktree [w]. *)
Definition index_entry_modified (w : Worktree) : BitIndexEntry → st BitIndexInner (bool * BitIndexEntry) :=
  is_worktree_entry_modified (stat metadata w) (write_worktree_blob write_blob w)
    (hash_blob_from_worktree w) index_mtime.

(** [index.worktree_tree_iter()]. *)
Definition worktree_of (idx : BitIndexInner) (w : Worktree) : WorktreeTreeIter :=
  worktree_tree_iter_new (worktree_raw_new idx gitignore (walk_dir w)).

Definition checkout_iterator {J} `{BitTreeIterator J} (target : J) (opts : CheckoutOpts) : st RepoState unit :=
  baseline ← st_lift (tree_iter_new <$> head_tree);
  s ← st_get;
  let '(migration, idx) :=
    generate_migration (H := worktree_tree_iterator is_ignore (stat metadata (rs_worktree s)) fuel)
      (H0 := tree_iter_iterator treeish)
      (index_entry_modified (rs_worktree s)) fuel (rs_index s) opts
      baseline target (worktree_of (rs_index s) (rs_worktree s)) in
  _ ← st_put (mk_RepoState idx (rs_worktree s));
  migration ← st_lift migration;
  apply_migration migration.

(** [checkout_tree_with_opts] of what [treeish_oid] gives. *)
Definition checkout_tree_with_opts (treeish_oid : BitResult Oid) (opts : CheckoutOpts) : st RepoState unit :=
  target_tree ← st_lift treeish_oid;
  _ ← checkout_iterator (H := tree_iter_iterator treeish) (tree_iter_new target_tree) opts;
  if is_forced opts then
    st_zoom rs_index (λ s idx, mk_RepoState idx (rs_worktree s)) (update_cache_tree read_obj_tree fuel target_tree)
  else mret tt.

Definition checkout_tree (treeish_oid : BitResult Oid) : st RepoState unit :=
  checkout_tree_with_opts treeish_oid checkout_opts_default.
Definition force_checkout_tree (treeish_oid : BitResult Oid) : st RepoState unit :=
  checkout_tree_with_opts treeish_oid forced.

(** The iterator is over a copy of the index. *)
Definition checkout_index (opts : CheckoutOpts) : st RepoState unit :=
  s ← st_get;
  checkout_iterator (H := index_tree_iterator fuel) (index_iter_new (rs_index s)) opts.

Section references.
Context `{Hex}.
Variable bitdir : BitPath.
Variable ensure_obj_is_commit : Oid → BitResult unit.
Variable user_signature : BitResult BitSignature.
(** [Treeish::treeish_oid] of a commit. *)
Variable treeish_oid : Oid → BitResult Oid.

Definition bitref_is_remote (r : BitRef) : bool :=
  match r with Direct _ => false | Symbolic sym => bool_decide (sym_kind sym = KRemote) end.

Definition update_head_for_checkout (to : BitRef) : st Fs unit :=
  from ← read_head bitdir ensure_obj_is_commit;
  refdb_update bitdir ensure_obj_is_commit user_signature fuel SYM_HEAD to (CauseCheckout from to).

(** [checkout]: the worktree and the index, and the references; the new [HEAD]. *)
Definition checkout_reference (reference : BitRef) (opts : CheckoutOpts) : st (RepoState * Fs) BitRef :=
  _ ← st_lift (assert_that (bool_decide (reference ≠ Symbolic SYM_HEAD)));
  commit_oid ← st_zoom snd (λ s fs, (fst s, fs)) (fully_resolve bitdir ensure_obj_is_commit fuel reference);
  _ ← st_zoom fst (λ s r, (r, snd s)) (checkout_tree_with_opts (treeish_oid commit_oid) opts);
  let new_head := if bitref_is_remote reference then Direct commit_oid else reference in
  _ ← st_zoom snd (λ s fs, (fst s, fs)) (update_head_for_checkout new_head);
  mret new_head.
End references.
End apply.
