(* ===== verification/MigrateClean.v ===== *)
(** * MigrateClean

    Applying the migration that a safe checkout of a clean worktree makes: what the operations of
    [apply_migration] do to the index and the worktree, and that the migration from one tree to
    another leaves the other tree checked out. *)

From Stdlib Require Import ZArith Lia Sorted.
From Stdlib Require Import Strings.Byte.
From stdpp Require Import base tactics option list countable strings gmap.
From S2P Require Import Prelude RustStd Data State Io Hash Path BTree Obj Tree IndexEntry TreeCache Index TreeIter.
From S2P Require Import TreeDiff TreeListing IndexDiff IndexIter Walk WriteTree WorktreeIter Worktree Merge MergeTrees.
From S2P Require Import Checkout CheckoutClean Migrate.

(** ** Worktrees *)

(** Every path is a relative one and lies in a directory. *)
Definition fs_closed (w : Worktree) : Prop :=
  ∀ p, is_Some (w !! p) → norm_path p ∧ is_dir_at w (dir_of p) = true.

Definition worktree_file (w : Worktree) (p : BitPath) : option (FileMode * bytes) :=
  match w !! p with Some (File mode data) => Some (mode, data) | _ => None end.

Lemma is_dir_at_true w p : is_dir_at w p = true ↔ p = EMPTY ∨ w !! p = Some Dir.
Proof.
  unfold is_dir_at, is_empty. rewrite orb_true_iff, !bool_decide_eq_true. done.
Qed.

Lemma worktree_file_Some w p mode data : worktree_file w p = Some (mode, data) ↔ w !! p = Some (File mode data).
Proof. unfold worktree_file. destruct (w !! p) as [[]|]; naive_solver. Qed.

Lemma worktree_file_None w p : worktree_file w p = None ↔ w !! p = None ∨ w !! p = Some Dir.
Proof. unfold worktree_file. destruct (w !! p) as [[]|]; naive_solver. Qed.

Lemma worktree_file_no_file w p : worktree_file w p = None ↔ no_file w p.
Proof.
  rewrite worktree_file_None. unfold no_file. destruct (w !! p) as [[]|]; naive_solver.
Qed.

(** Everything on the way to a path is a directory. *)
Lemma closed_above w p q : fs_closed w → is_Some (w !! p) → above q p → is_dir_at w q = true.
Proof.
  intros Hw Hp Hq. assert (rel_path p) as Hr by (right; by apply Hw). revert Hp Hq. pattern p.
  apply rel_path_ind; [| |done].
  - intros _ []%above_empty.
  - clear p Hr. intros d n Hd Hn IH Hp Hq. destruct (Hw _ Hp) as [_ Hdir].
    rewrite parent_join_dir in Hdir by done. apply (above_join q d n Hd Hn) in Hq as [->|Hq]; [done|].
    apply IH; [|done]. apply is_dir_at_true in Hdir as [->| ->]; [by apply above_empty in Hq|done].
Qed.

Lemma dir_of_above p : norm_path p → above (dir_of p) p.
Proof.
  intros (d & n & Hd & Hn & ->)%norm_snoc. rewrite parent_join_dir by done. apply above_join; auto.
Qed.

Lemma parent_dir_of p : norm_path p → parent p = Some (dir_of p).
Proof.
  intros (d & n & Hd & Hn & ->)%norm_snoc. rewrite parent_join_dir by done. by apply parent_join.
Qed.

(** A path that is no link is not followed. *)
Lemma resolve_self w p : (∀ target, w !! p ≠ Some (File LINK target)) → resolve_links w p = p.
Proof. intros Hp. unfold resolve_links. cbn [follow]. destruct (w !! p) as [[[] data|]|]; try done. by destruct (Hp data). Qed.

Lemma closed_remove_below w d :
  fs_closed w → norm_path d → fs_closed (filter (λ kv, path_starts_with kv.1 d = false) w).
Proof.
  intros Hw Hd p [x [Hx Hp]%map_lookup_filter_Some]. cbn in Hp.
  destruct (Hw p ltac:(by eauto)) as [Hn Hdir]. split; [done|]. apply is_dir_at_true in Hdir as [->|Hdir]; [done|].
  apply is_dir_at_true. right. apply map_lookup_filter_Some. split; [done|]. cbn.
  destruct (path_starts_with (dir_of p) d) eqn:E; [|done]. rewrite <- Hp. symmetry.
  pose proof (dir_of_above p Hn) as Hab. apply path_starts_above in E; [|by right].
  apply path_starts_above; [by right|]. right. destruct E as [->|E]; [done|by eapply above_trans].
Qed.

Lemma closed_delete_file w p mode data : fs_closed w → w !! p = Some (File mode data) → fs_closed (base.delete p w).
Proof.
  intros Hw Hp q Hq. destruct (decide (q = p)) as [->|Hne]; [by rewrite lookup_delete_eq in Hq; destruct Hq|].
  rewrite lookup_delete_ne in Hq by done. destruct (Hw q Hq) as [Hn Hdir]. split; [done|].
  apply is_dir_at_true in Hdir as [->|Hdir]; [done|]. apply is_dir_at_true. right.
  rewrite lookup_delete_ne; [done|]. intros E. rewrite <- E in Hdir. congruence.
Qed.

Lemma closed_delete_empty w d : fs_closed w → fs_dir_is_empty w d = true → fs_closed (base.delete d w).
Proof.
  unfold fs_dir_is_empty. rewrite andb_true_iff, bool_decide_eq_true. intros Hw [_ He] q Hq.
  destruct (decide (q = d)) as [->|Hne]; [by rewrite lookup_delete_eq in Hq; destruct Hq|].
  rewrite lookup_delete_ne in Hq by done. destruct (Hw q Hq) as [Hn Hdir]. split; [done|].
  apply is_dir_at_true in Hdir as [->|Hdir]; [done|]. apply is_dir_at_true. right.
  rewrite lookup_delete_ne; [done|]. intros E. destruct Hq as [x Hx]. by apply (He q x Hx).
Qed.

Lemma closed_insert w p x :
  fs_closed w → norm_path p → is_dir_at w (dir_of p) = true → (w !! p = None ∨ w !! p ≠ Some Dir) →
  fs_closed (<[p := x]> w).
Proof.
  intros Hw Hn Hd Hp q Hq. assert (∀ e, is_dir_at w e = true → is_dir_at (<[p := x]> w) e = true) as Hmono.
  { intros e [->|He]%is_dir_at_true; [done|]. apply is_dir_at_true. right. rewrite lookup_insert_ne; [done|].
    intros ->. destruct Hp; congruence. }
  destruct (decide (q = p)) as [->|Hne]; [by auto|]. rewrite lookup_insert_ne in Hq by done.
  destruct (Hw q Hq). auto.
Qed.

Lemma closed_create_dirs ps w w' :
  fs_closed w → Forall norm_path ps → create_dirs ps w = (Ok tt, w') → fs_closed w'.
Proof.
  intros Hw Hps. revert w Hw. induction Hps as [|p ps Hp _ IH]; intros w Hw; cbn [create_dirs]; [by intros [= <-]|].
  rewrite st_get_bind. destruct (is_dir_at w p); [by apply IH|]. unfold fs_create_dir, mbind, st_bind.
  destruct (w !! p) eqn:E0; [done|]. destruct (is_empty p); [done|]. cbn [negb andb].
  destruct (is_dir_at w (dir_of p)) eqn:Ed; [|done]. apply IH, closed_insert; auto.
Qed.

Lemma closed_create_dir_all d w w' :
  fs_closed w → rel_path d → fs_create_dir_all d w = (Ok tt, w') → fs_closed w'.
Proof.
  intros Hw [->|Hd] E; [by injection E as <-|]. eapply closed_create_dirs; [done| |done].
  apply Forall_forall. intros q [Hne Hq]%elem_of_cumulative; [|done].
  destruct Hq as [->|([->|?] & _)]; done.
Qed.

(** ** The state of a checkout *)

(** The mode and the id of the file at a path. *)
Abbreviation files := (BitPath → option (FileMode * Oid)).

Definition stages (f : option (FileMode * Oid)) : list (MergeStage * Oid) :=
  match f with Some (_, oid) => [(NONE, oid)] | None => [] end.

Section operations.
Context (content : Oid → bytes).

Definition with_content (f : option (FileMode * Oid)) : option (FileMode * bytes) :=
  (λ f, (f.1, content f.2)) <$> f.

(** The index and the worktree hold exactly these files, and all directories satisfy [D]. *)
Record repo_at (g : files) (D : BitPath → Prop) (s : RepoState) : Prop := {
  ra_index : index_wf (rs_index s);
  ra_entries p : index_has (rs_index s) p (stages (g p));
  ra_files p : worktree_file (rs_worktree s) p = with_content (g p);
  ra_closed : fs_closed (rs_worktree s);
  ra_dirs d : rs_worktree s !! d = Some Dir → D d;
}.

Lemma repo_at_ext g g' (D D' : BitPath → Prop) s :
  (∀ p, g p = g' p) → (∀ d, D d → D' d) → repo_at g D s → repo_at g' D' s.
Proof.
  intros Hg HD [H1 H2 H3 H4 H5]. split; [done|by intros p; rewrite <- Hg..|done|auto].
Qed.

Lemma repo_file g D s p mode oid :
  repo_at g D s → g p = Some (mode, oid) → rs_worktree s !! p = Some (File mode (content oid)).
Proof. intros H Hg. apply worktree_file_Some. by rewrite (ra_files _ _ _ H), Hg. Qed.

Lemma repo_no_file g D s p : repo_at g D s → g p = None → no_file (rs_worktree s) p.
Proof. intros H Hg. apply worktree_file_no_file. by rewrite (ra_files _ _ _ H), Hg. Qed.

Lemma repo_file_norm g D s p : repo_at g D s → is_Some (g p) → norm_path p.
Proof.
  intros H [[mode oid] Hg]. apply (ra_closed _ _ _ H). by rewrite (repo_file g D s p mode oid).
Qed.

Lemma repo_index_in W g D s :
  repo_at g D s → (∀ p, is_Some (g p) → p ∈ W) → index_in W (rs_index s).
Proof.
  intros H HW. split; [apply (ra_index _ _ _ H)|]. intros [[p st] e] Hin. apply HW.
  assert ((st, ie_oid e) ∈ stages (g p)) as Hst by (apply (ra_entries _ _ _ H); by exists e).
  cbn. destruct (g p) as [|]; [done|by apply elem_of_nil in Hst].
Qed.

Lemma repo_stage g D s p st e :
  repo_at g D s → ((p, st), e) ∈ idx_entries (rs_index s) → st = NONE.
Proof.
  intros H Hin. assert ((st, ie_oid e) ∈ stages (g p)) as Hst by (apply (ra_entries _ _ _ H); by exists e).
  destruct (g p) as [[mode oid]|]; [|by apply elem_of_nil in Hst]. by apply list_elem_of_singleton in Hst as [= -> _].
Qed.

(** Some list with all paths of the index. *)
Lemma repo_paths s : index_wf (rs_index s) →
  index_in ((λ kv, kv.1.1) <$> idx_entries (rs_index s)) (rs_index s).
Proof. intros H. split; [done|]. intros kv Hkv. apply list_elem_of_fmap. by exists kv. Qed.

Lemma index_in_mono W W' idx : (∀ p, p ∈ W → p ∈ W') → index_in W idx → index_in W' idx.
Proof. intros HW [H1 H2]. split; [done|]. auto. Qed.

(** *** Running *)

Lemma on_files_ok {A} (m : st Worktree A) s a w :
  m (rs_worktree s) = (Ok a, w) → on_files m s = (Ok a, mk_RepoState (rs_index s) w).
Proof. intros E. unfold on_files, st_zoom. by rewrite E. Qed.

Lemma on_index_mut_ok f s idx :
  f (rs_worktree s) (rs_index s) = Ok idx → on_index_mut f s = (Ok tt, mk_RepoState idx (rs_worktree s)).
Proof. intros E. unfold on_index_mut. by rewrite E. Qed.

(** *** Removing a directory *)

Lemma apply_rmrf_ok g D s e :
  repo_at g D s → norm_path (te_path e) → g (te_path e) = None →
  ∃ s', apply_rmrf e s = (Ok tt, s')
    ∧ repo_at (λ p, if path_starts_with p (te_path e) then None else g p)
        (λ d, D d ∧ path_starts_with d (te_path e) = false) s'.
Proof.
  set (d := te_path e). intros H Hd Hg. pose proof (repo_no_file _ _ _ _ H Hg) as Hnf.
  pose proof (ra_closed _ _ _ H) as Hcl.
  assert (∃ w', (if fs_is_dir (rs_worktree s) d then on_files (fs_remove_dir_all d) else mret tt) s
      = (Ok tt, mk_RepoState (rs_index s) w')
    ∧ w' = filter (λ kv, path_starts_with kv.1 d = false) (rs_worktree s)) as (w' & E1 & Ew).
  { unfold fs_is_dir. rewrite resolve_self by by intros target; apply Hnf.
    eexists. split; [|done]. destruct (is_dir_at (rs_worktree s) d) eqn:Ed.
    - apply on_files_ok. unfold fs_remove_dir_all. by rewrite Ed.
    - destruct s as [idx w]. cbn in *. do 2 f_equal. symmetry. apply map_filter_id. intros p x Hp. cbn.
      destruct (path_starts_with p d) eqn:Es; [|done]. apply path_starts_above in Es as [<-|Es]; [| |by right].
      + destruct x as [mode data|]; [by destruct (Hnf mode data)|].
        rewrite (proj2 (is_dir_at_true w d)) in Ed; [done|by right].
      + rewrite (closed_above w p d) in Ed; [done|done|by eauto|done]. }
  destruct (remove_directory_at _ (rs_index s) d (repo_paths s (ra_index _ _ _ H)) Hd) as ([Hwf _] & Hag & Hat).
  exists (mk_RepoState (remove_directory (rs_index s) d) w'). split.
  - unfold apply_rmrf. rewrite st_get_bind. fold d. rewrite (st_bind_ok _ _ _ _ _ E1).
    by apply on_index_mut_ok.
  - split; cbn; [done| | |subst w'; by apply closed_remove_below|].
    + intros p. destruct (decide (under d p)) as [Hu|Hu].
      * assert (index_has (remove_directory (rs_index s) d) p []) as Hnil.
        { apply Hat; [done|]. intros st e'. apply (repo_stage _ _ _ _ _ _ H). }
        assert (stages (if path_starts_with p d then None else g p) = []) as ->; [|done].
        destruct (path_starts_with p d) eqn:Es; [done|]. destruct (g p) as [f|] eqn:Ef; [|done].
        rewrite (proj2 (path_starts_with_norm p d (repo_file_norm _ _ _ p H ltac:(by eauto)) Hd)) in Es;
          [done|by right].
      * assert (stages (if path_starts_with p d then None else g p) = stages (g p)) as ->.
        { destruct (path_starts_with p d) eqn:Es; [|done]. destruct (g p) as [f|] eqn:Ef; [|done].
          apply path_starts_with_norm in Es; [|by eapply repo_file_norm; eauto|done]. naive_solver. }
        by apply (index_has_agree _ _ _ _ (Hag p Hu)), (ra_entries _ _ _ H).
    + intros p. subst w'. unfold worktree_file. destruct (path_starts_with p d) eqn:Es.
      * rewrite map_lookup_filter_None_2; [done|]. right. intros x _. cbn. by rewrite Es.
      * rewrite <- (ra_files _ _ _ H p). unfold worktree_file.
        destruct (rs_worktree s !! p) as [x|] eqn:Ex.
        -- by rewrite (map_lookup_filter_Some_2 _ _ p x).
        -- rewrite map_lookup_filter_None_2; [done|]. by left.
    + intros q [Hq Hs]%map_lookup_filter_Some || (subst w'; intros q [Hq Hs]%map_lookup_filter_Some).
      split; [by apply (ra_dirs _ _ _ H)|done].
Qed.

(** *** Removing a file *)

Lemma remove_file_and_parent_ok w p mode data :
  fs_closed w → w !! p = Some (File mode data) →
  ∃ w', remove_file_and_parent p w = (Ok tt, w') ∧ fs_closed w'
    ∧ ∀ q, w' !! q = base.delete p w !! q ∨ w !! q = Some Dir ∧ w' !! q = None.
Proof.
  intros Hw Hp. destruct (Hw p ltac:(by eauto)) as [Hn Hdir]. pose proof (closed_delete_file w p mode data Hw Hp) as Hw1.
  assert (fs_remove_file p w = (Ok tt, base.delete p w)) as E1 by (unfold fs_remove_file; by rewrite Hp).
  unfold remove_file_and_parent. rewrite (st_bind_ok _ _ _ _ _ E1).
  rewrite (st_bind_ok _ _ _ (base.delete p w) (dir_of p)) by (unfold st_lift; by rewrite parent_dir_of).
  rewrite st_get_bind. destruct (fs_dir_is_empty (base.delete p w) (dir_of p)) eqn:Ee.
  - assert (dir_of p ≠ EMPTY ∧ w !! dir_of p = Some Dir) as [Hne Hd].
    { unfold fs_dir_is_empty, is_empty in Ee. apply andb_true_iff in Ee as [Ee _].
      rewrite negb_true_iff, bool_decide_eq_false in Ee. by apply is_dir_at_true in Hdir as [?|?]. }
    exists (base.delete (dir_of p) (base.delete p w)). split; [|split].
    + unfold fs_remove_dir. rewrite Ee, bool_decide_true; [done|]. rewrite lookup_delete_ne; [done|]. congruence.
    + by apply closed_delete_empty.
    + intros q. destruct (decide (q = dir_of p)) as [->|Hq].
      * right. by rewrite lookup_delete_eq.
      * left. by rewrite lookup_delete_ne.
  - exists (base.delete p w). by split_and!; [..|left].
Qed.

Lemma apply_rm_ok g D s e :
  repo_at g D s → (∀ oid, g (te_path e) ≠ Some (LINK, oid)) →
  ∃ s', apply_rm e s = (Ok tt, s')
    ∧ repo_at (λ p, if decide (p = te_path e) then None else g p) D s'.
Proof.
  set (p := te_path e). intros H Hlink. pose proof (ra_closed _ _ _ H) as Hcl.
  assert (∀ target, rs_worktree s !! p ≠ Some (File LINK target)) as Hnl.
  { intros target Ht%worktree_file_Some. rewrite (ra_files _ _ _ H) in Ht.
    destruct (g p) as [[mode oid]|] eqn:Eg; [|done]. injection Ht as -> _. by apply (Hlink oid). }
  assert (∃ w', (if fs_is_file (rs_worktree s) p then on_files (remove_file_and_parent p) else mret tt) s
      = (Ok tt, mk_RepoState (rs_index s) w') ∧ fs_closed w'
    ∧ worktree_file w' p = None ∧ (∀ q, q ≠ p → worktree_file w' q = worktree_file (rs_worktree s) q)
    ∧ ∀ q, w' !! q = Some Dir → rs_worktree s !! q = Some Dir) as (w' & E1 & Hcl' & Hp' & Hq' & Hd').
  { unfold fs_is_file. rewrite resolve_self by done. destruct (rs_worktree s !! p) as [[mode data|]|] eqn:Ep.
    - rewrite bool_decide_true by (intros ->; by apply (Hnl data)).
      destruct (remove_file_and_parent_ok (rs_worktree s) p mode data Hcl Ep) as (w' & E & Hc & Hw').
      exists w'. split; [by apply on_files_ok|]. split; [done|]. split; [|split].
      + apply worktree_file_None. left. by destruct (Hw' p) as [->|[? _]]; [apply lookup_delete_eq|simplify_eq].
      + intros q Hq. unfold worktree_file. destruct (Hw' q) as [->|[-> ->]]; [by rewrite lookup_delete_ne|done].
      + intros q Hq. destruct (Hw' q) as [E'|[-> ?]]; [|done]. rewrite E' in Hq.
        by apply lookup_delete_Some in Hq as [_ ?].
    - exists (rs_worktree s). split; [by destruct s|]. split; [done|]. split; [apply worktree_file_None; by right|done].
    - exists (rs_worktree s). split; [by destruct s|]. split; [done|]. split; [apply worktree_file_None; by left|done]. }
  set (W := p :: ((λ kv, kv.1.1) <$> idx_entries (rs_index s))).
  destruct (remove_entry_at W (rs_index s) p) as ([Hwf _] & Hat & Hag).
  { eapply index_in_mono; [|apply repo_paths, (ra_index _ _ _ H)]. intros q Hq. by right. }
  { by left. }
  { intros st e'. apply (repo_stage _ _ _ _ _ _ H). }
  exists (mk_RepoState (remove_entry (rs_index s) (p, NONE)) w'). split.
  - unfold apply_rm. rewrite st_get_bind. fold p. rewrite (st_bind_ok _ _ _ _ _ E1). by apply on_index_mut_ok.
  - split; cbn; [done| | |done|by intros d Hd; apply (ra_dirs _ _ _ H), Hd'].
    + intros q. destruct (decide (q = p)) as [->|Hq]; [done|].
      by apply (index_has_agree _ _ _ _ (Hag q Hq)), (ra_entries _ _ _ H).
    + intros q. destruct (decide (q = p)) as [->|Hq]; [done|]. by rewrite Hq', (ra_files _ _ _ H).
Qed.

(** *** Making a directory *)

Lemma create_dirs_repo g D s d :
  repo_at g D s → rel_path d → (∀ q, q = d ∨ above q d → g q = None ∧ (q ≠ EMPTY → D q)) →
  ∃ w', fs_create_dir_all d (rs_worktree s) = (Ok tt, w') ∧ is_dir_at w' d = true
    ∧ repo_at g D (mk_RepoState (rs_index s) w').
Proof.
  intros H Hd Hq. pose proof (ra_closed _ _ _ H) as Hcl.
  destruct (fs_create_dir_all_ok d (rs_worktree s) Hd) as (w' & E & Hdir & Hw').
  { intros q Hq'. by apply (repo_no_file _ _ _ _ H), Hq. }
  exists w'. split; [done|]. split; [done|]. pose proof (closed_create_dir_all _ _ _ Hcl Hd E) as Hcl'.
  split; cbn; [apply (ra_index _ _ _ H)|apply (ra_entries _ _ _ H)| |done|].
  - intros p. rewrite <- (ra_files _ _ _ H). unfold worktree_file. by destruct (Hw' p) as [->|(-> & -> & _)].
  - intros p Hp. destruct (Hw' p) as [E'|(_ & _ & Hpd)]; [apply (ra_dirs _ _ _ H); congruence|].
    apply (Hq p Hpd). apply norm_not_empty, Hcl'. by eauto.
Qed.

Lemma apply_mkdir_ok g D s e :
  repo_at g D s → norm_path (te_path e) →
  (∀ q, q = te_path e ∨ above q (te_path e) → g q = None ∧ (q ≠ EMPTY → D q)) →
  ∃ s', apply_mkdir e s = (Ok tt, s') ∧ repo_at g D s'.
Proof.
  intros H Hd Hq. destruct (create_dirs_repo g D s (te_path e) H) as (w' & E & _ & H'); [by right|done|].
  exists (mk_RepoState (rs_index s) w'). split; [by apply on_files_ok|done].
Qed.

(** *** The loops *)

Lemma for_each_from {S A} (f : A → st S unit) (P : list A → S → Prop) l : ∀ l0 s,
  P l0 s → (∀ l1 x l2 s, l0 ++ l = l1 ++ x :: l2 → P l1 s → ∃ s', f x s = (Ok tt, s') ∧ P (l1 ++ [x]) s') →
  ∃ s', st_for_each f l s = (Ok tt, s') ∧ P (l0 ++ l) s'.
Proof.
  induction l as [|x l IH]; intros l0 s H0 HS; cbn [st_for_each].
  - exists s. split; [done|]. by rewrite app_nil_r.
  - destruct (HS l0 x l s eq_refl H0) as (s1 & E1 & H1). rewrite (st_bind_ok _ _ _ _ _ E1).
    destruct (IH (l0 ++ [x]) s1 H1) as (s2 & E2 & H2).
    + intros l1 y l2 s' E. rewrite <- app_assoc in E. by apply (HS l1 y l2).
    + exists s2. split; [done|]. by rewrite <- app_assoc in H2.
Qed.

Lemma for_each_invariant {S A} (f : A → st S unit) (P : list A → S → Prop) l s :
  P [] s → (∀ l1 x l2 s, l = l1 ++ x :: l2 → P l1 s → ∃ s', f x s = (Ok tt, s') ∧ P (l1 ++ [x]) s') →
  ∃ s', st_for_each f l s = (Ok tt, s') ∧ P l s'.
Proof. apply (for_each_from f P l []). Qed.

(** The files that are left when directories, or files, have been removed. *)
Definition without_dirs (ds : list BitPath) (g : files) : files :=
  λ p, if existsb (λ d, path_starts_with p d) ds then None else g p.
Definition without_files (ps : list BitPath) (g : files) : files :=
  λ p, if decide (p ∈ ps) then None else g p.
Definition with_created_files (es : list TreeEntry) (g : files) : files :=
  λ p, match List.find (λ e, bool_decide (te_path e = p)) es with
       | Some e => Some (te_mode e, te_oid e)
       | None => g p
       end.

Lemma existsb_snoc {A B} (g : A → B) f l x :
  existsb f (g <$> l ++ [x]) = existsb f (g <$> l) || f (g x).
Proof. by rewrite fmap_app, List.existsb_app; cbn; rewrite orb_false_r. Qed.

Lemma apply_rmrfs_ok g D s l :
  repo_at g D s → Forall (λ e, norm_path (te_path e) ∧ g (te_path e) = None) l →
  ∃ s', st_for_each apply_rmrf l s = (Ok tt, s')
    ∧ repo_at (without_dirs (te_path <$> l) g)
        (λ q, D q ∧ existsb (λ d, path_starts_with q d) (te_path <$> l) = false) s'.
Proof.
  intros H Hl. apply (for_each_invariant _ (λ l s, repo_at (without_dirs (te_path <$> l) g)
    (λ q, D q ∧ existsb (λ d, path_starts_with q d) (te_path <$> l) = false) s)).
  - by eapply repo_at_ext; [..|exact H].
  - intros l1 e l2 s1 -> H1. rewrite Forall_app, Forall_cons in Hl. destruct Hl as (_ & [Hn Hg] & _).
    destruct (apply_rmrf_ok _ _ s1 e H1 Hn) as (s2 & E2 & H2).
    { unfold without_dirs. by case_match. }
    exists s2. split; [done|]. eapply repo_at_ext; [..|exact H2].
    + intros p. unfold without_dirs. rewrite existsb_snoc.
      by destruct (existsb _ _), (path_starts_with _ _).
    + intros d [[Hd Hs] Hs']. rewrite existsb_snoc, Hs, Hs'. done.
Qed.

Lemma apply_rms_ok g D s l :
  repo_at g D s → Forall (λ e, ∀ oid, g (te_path e) ≠ Some (LINK, oid)) l →
  ∃ s', st_for_each apply_rm l s = (Ok tt, s') ∧ repo_at (without_files (te_path <$> l) g) D s'.
Proof.
  intros H Hl. apply (for_each_invariant _ (λ l, repo_at (without_files (te_path <$> l) g) D)).
  - eapply repo_at_ext; [|done|exact H]. intros p. unfold without_files. by rewrite decide_False by apply not_elem_of_nil.
  - intros l1 e l2 s1 -> H1. rewrite Forall_app, Forall_cons in Hl. destruct Hl as (_ & Hg & _).
    destruct (apply_rm_ok _ _ s1 e H1) as (s2 & E2 & H2).
    { intros oid. unfold without_files. by case_decide. }
    exists s2. split; [done|]. eapply repo_at_ext; [|done|exact H2].
    intros p. unfold without_files. rewrite fmap_app. cbn.
    repeat case_decide; try done; exfalso; rewrite elem_of_app, list_elem_of_singleton in *; naive_solver.
Qed.

Lemma apply_mkdirs_ok g D s l :
  repo_at g D s → Forall (λ e, norm_path (te_path e)
    ∧ ∀ q, q = te_path e ∨ above q (te_path e) → g q = None ∧ (q ≠ EMPTY → D q)) l →
  ∃ s', st_for_each apply_mkdir l s = (Ok tt, s') ∧ repo_at g D s'.
Proof.
  intros H Hl. apply (for_each_invariant _ (λ _, repo_at g D)); [done|].
  intros l1 e l2 s1 -> H1. rewrite Forall_app, Forall_cons in Hl. destruct Hl as (_ & [Hn Hg] & _).
  by apply apply_mkdir_ok.
Qed.

(** *** Making a file *)

Context (metadata : Worktree → BitPath → Metadata).
Context (read_blob : Oid → BitResult bytes) (write_blob : bytes → BitResult Oid).

(** A file that can be made: its blob can be read, and the index can hold its path and id. *)
Record file_ok (e : TreeEntry) : Prop := {
  fo_mode : te_mode e = REG ∨ te_mode e = EXEC ∨ te_mode e = LINK;
  fo_path : norm_path (te_path e) ∧ (x00 ∉ te_path e) ∧ utf8_valid (te_path e) = true;
  fo_oid : is_known (te_oid e) = true ∧ oid_wf (te_oid e);
  fo_read : read_blob (te_oid e) = Ok (content (te_oid e));
}.

(** What is read from the file system fits the index. *)
Definition metadata_fits : Prop :=
  ∀ w p, fits 32 (md_uid (metadata w p)) ∧ fits 32 (md_gid (metadata w p)).

Lemma create_file_ok g D s e :
  repo_at g D s → file_ok e → g (te_path e) = None → ¬ D (te_path e) →
  (∀ q, above q (te_path e) → g q = None ∧ (q ≠ EMPTY → D q)) →
  ∃ w', create_file read_blob e (rs_worktree s)
      = (Ok tt, <[te_path e := File (te_mode e) (content (te_oid e))]> w')
    ∧ repo_at g D (mk_RepoState (rs_index s) w') ∧ w' !! te_path e = None
    ∧ is_dir_at w' (dir_of (te_path e)) = true.
Proof.
  intros H [Hm (Hn & _) [Hk _] Hr] Hg HD Hq. set (p := te_path e) in *.
  assert (above (dir_of p) p) as Hab by by apply dir_of_above.
  destruct (create_dirs_repo g D s (dir_of p) H) as (w1 & E1 & Hdir & H1).
  { by eapply above_rel. }
  { intros q Hq'. apply Hq. destruct Hq' as [->|Hq']; [done|by eapply above_trans]. }
  assert (w1 !! p = None) as E0.
  { destruct (proj1 (worktree_file_None w1 p)) as [?|Hd]; [|done|].
    - by rewrite (ra_files _ _ _ H1 : ∀ p, worktree_file w1 p = _), Hg.
    - by apply (ra_dirs _ _ _ H1) in Hd. }
  exists w1. split; [|done]. unfold create_file. fold p. rewrite st_get_bind.
  rewrite (st_bind_ok _ _ _ (rs_worktree s) (content (te_oid e))).
  2: { unfold st_lift, read_to_bytes. cbn. by rewrite Hk, Hr. }
  rewrite (st_bind_ok _ _ _ (rs_worktree s) (dir_of p)) by (unfold st_lift; by rewrite parent_dir_of).
  rewrite (st_bind_ok _ _ _ _ _ E1).
  assert (is_empty p = false) as He.
  { unfold is_empty. apply bool_decide_eq_false. by apply norm_not_empty. }
  case_bool_decide as Hl.
  - unfold fs_symlink. rewrite E0, He, Hdir. cbn. by rewrite Hl.
  - rewrite (st_bind_ok _ _ _ (<[p := File REG (content (te_oid e))]> w1) tt).
    2: { unfold fs_create_new. by rewrite E0, He, Hdir. }
    unfold fs_set_permissions. rewrite lookup_insert_eq, insert_insert_eq. do 3 f_equal.
    destruct Hm as [-> |[-> | ?]]; done.
Qed.

Lemma apply_create_ok W g D s e :
  metadata_fits → prefix_free W → (∀ p, is_Some (g p) → p ∈ W) → te_path e ∈ W →
  repo_at g D s → file_ok e → g (te_path e) = None → ¬ D (te_path e) →
  (∀ q, above q (te_path e) → g q = None ∧ (q ≠ EMPTY → D q)) →
  ∃ s', apply_create metadata read_blob write_blob e s = (Ok tt, s')
    ∧ repo_at (λ p, if decide (p = te_path e) then Some (te_mode e, te_oid e) else g p) D s'.
Proof.
  intros Hfits HW HgW HpW H He Hg HD Hq. destruct (create_file_ok g D s e H He Hg HD Hq) as (w1 & E1 & H1 & E0 & Hdir).
  destruct He as [_ (Hn & Hz & Hu) [Hk Ho] _]. set (p := te_path e) in *.
  set (w2 := <[p := File (te_mode e) (content (te_oid e))]> w1) in *.
  assert (stat metadata w2 p = Ok (metadata w2 p)) as Est by (unfold stat, w2; by rewrite lookup_insert_eq).
  set (x := with_oid (index_entry_new (metadata w2 p) p) (te_oid e)).
  destruct (Hfits w2 p) as [Hf1 Hf2].
  assert (∃ x1, fill (stat metadata w2) x = Ok x1 ∧ x1 = x) as (x1 & Ef & ->).
  { unfold fill. case_match; [by eexists|]. cbn. rewrite Est. by eexists. }
  destruct (add_entry_at W HW (write_worktree_blob write_blob w2) (stat metadata w2) (rs_index s) x x (te_oid e))
    as (idx' & E2 & [Hwf _] & Hat & Hag); try done.
  { by eapply repo_index_in. }
  { unfold entry_write. cbn. by rewrite Hk. }
  { by apply stat_entry_storable. }
  exists (mk_RepoState idx' w2). split.
  - unfold apply_create. rewrite (st_bind_ok _ _ _ (mk_RepoState (rs_index s) w2) tt) by by apply on_files_ok.
    apply (on_index_mut_ok _ (mk_RepoState (rs_index s) w2)). cbn [rs_worktree rs_index]. fold p.
    unfold from_absolute_path. rewrite Est. cbn [mbind outcome_bind]. exact E2.
  - pose proof (ra_closed _ _ _ H1) as Hcl. cbn in Hcl. split; cbn; [done| | |apply closed_insert; auto|].
    + intros q. destruct (decide (q = p)) as [->|Hne]; [done|].
      by apply (index_has_agree _ _ _ _ (Hag q Hne)), (ra_entries _ _ _ H).
    + intros q. unfold worktree_file, w2. destruct (decide (q = p)) as [->|Hne]; [by rewrite lookup_insert_eq|].
      rewrite lookup_insert_ne by done. apply (ra_files _ _ _ H1).
    + intros d. unfold w2. destruct (decide (d = p)) as [->|Hne]; [by rewrite lookup_insert_eq|].
      rewrite lookup_insert_ne by done. apply (ra_dirs _ _ _ H1).
Qed.

Lemma find_app {A} (f : A → bool) l1 l2 :
  List.find f (l1 ++ l2) = match List.find f l1 with Some y => Some y | None => List.find f l2 end.
Proof. induction l1 as [|x l1 IH]; cbn; [done|]. by destruct (f x). Qed.

Lemma with_created_other es g p : p ∉ te_path <$> es → with_created_files es g p = g p.
Proof.
  intros Hp. unfold with_created_files. destruct (List.find _ es) as [e|] eqn:E; [|done].
  apply List.find_some in E as [He%list_elem_of_In Ep%bool_decide_eq_true]. destruct Hp.
  apply list_elem_of_fmap. by exists e.
Qed.

Lemma apply_creates_ok W g D s l :
  metadata_fits → prefix_free W → (∀ p, is_Some (g p) → p ∈ W) → repo_at g D s → NoDup (te_path <$> l) →
  Forall (λ e, te_path e ∈ W ∧ file_ok e ∧ g (te_path e) = None ∧ ¬ D (te_path e)
    ∧ ∀ q, above q (te_path e) → (q ∉ W) ∧ (q ≠ EMPTY → D q)) l →
  ∃ s', st_for_each (apply_create metadata read_blob write_blob) l s = (Ok tt, s')
    ∧ repo_at (with_created_files l g) D s'.
Proof.
  intros Hf HW HgW H Hnd Hl. apply (for_each_invariant _ (λ l, repo_at (with_created_files l g) D)); [done|].
  intros l1 e l2 s1 -> H1. pose proof Hl as Hl'. rewrite Forall_app, Forall_cons in Hl.
  destruct Hl as (Hl1 & (HpW & Hok & Hg & HD & Hab) & _).
  rewrite fmap_app in Hnd. apply NoDup_app in Hnd as (_ & Hdis & _).
  assert (te_path e ∉ te_path <$> l1) as Hnew by (intros Hin; by apply (Hdis _ Hin); left).
  assert (∀ p, is_Some (with_created_files l1 g p) → p ∈ W) as HgW1.
  { intros p [x Hx]. destruct (decide (p ∈ te_path <$> l1)) as [Hp|Hp].
    - apply list_elem_of_fmap in Hp as (e1 & -> & He1). rewrite Forall_forall in Hl1. by apply Hl1.
    - rewrite with_created_other in Hx by done. eauto. }
  destruct (apply_create_ok W _ D s1 e Hf HW HgW1 HpW H1 Hok) as (s2 & E2 & H2).
  - by rewrite with_created_other.
  - done.
  - intros q Hq. split; [|by apply Hab]. destruct (with_created_files l1 g q) eqn:E; [|done].
    destruct (Hab q Hq) as [HqW _]. destruct HqW. eauto.
  - exists s2. split; [done|]. eapply repo_at_ext; [|done|exact H2]. intros p. unfold with_created_files at 2.
    rewrite find_app. fold (with_created_files l1 g p). cbn.
    destruct (decide (p = te_path e)) as [->|Hp].
    + destruct (List.find _ l1) as [e1|] eqn:E; [|by rewrite bool_decide_true].
      apply List.find_some in E as [He%list_elem_of_In Ep%bool_decide_eq_true]. destruct Hnew.
      apply list_elem_of_fmap. by exists e1.
    + unfold with_created_files. rewrite (bool_decide_false (te_path e = p)) by congruence.
      by destruct (List.find _ l1).
Qed.
End operations.

(** ** From one tree to another *)

(** The files of a tree. *)
Definition tree_files (l : list BitIndexEntry) : files := λ p, (λ x, (ie_mode x, ie_oid x)) <$> find_blob p l.

(** What a checkout of [N] leaves where [O] was checked out: the files of [N]; a file whose content
    does not change keeps its mode, as the comparison of trees is by the ids only. *)
Definition checked_out_files (O N : list BitIndexEntry) : files := λ p,
  match find_blob p N, find_blob p O with
  | Some y, Some x => Some (if decide (ie_oid x = ie_oid y) then ie_mode x else ie_mode y, ie_oid y)
  | Some y, None => Some (ie_mode y, ie_oid y)
  | None, _ => None
  end.

(** No file changes its mode alone. *)
Definition same_modes (O N : list BitIndexEntry) : Prop := ∀ p x y,
  find_blob p O = Some x → find_blob p N = Some y → ie_oid x = ie_oid y → ie_mode x = ie_mode y.

Lemma checked_out_exact O N p : same_modes O N → checked_out_files O N p = tree_files N p.
Proof.
  intros Hm. unfold checked_out_files, tree_files.
  destruct (find_blob p N) as [y|] eqn:EN, (find_blob p O) as [x|] eqn:EO; try done. cbn.
  case_decide as Eo; [|done]. by rewrite (Hm p x y).
Qed.

Section tree.
Context (l : list BitIndexEntry) (Hl : tree_lists [l]).

Lemma tree_in : l ∈ [l]. Proof. by apply list_elem_of_singleton. Qed.

Lemma tree_unique x y : x ∈ l → y ∈ l → ie_path x = ie_path y → x = y.
Proof.
  intros Hx Hy E. pose proof (tl_diff [l] Hl l tree_in) as Hd.
  assert (find_at (ie_path x) l = Some x) as E1 by by apply find_at_Some.
  assert (find_at (ie_path x) l = Some y) as E2 by by apply find_at_Some.
  congruence.
Qed.

Lemma tree_no_clash : no_clash [l].
Proof.
  intros l1 l2 x y ->%list_elem_of_singleton ->%list_elem_of_singleton Hx Hy E. by rewrite (tree_unique x y).
Qed.

Lemma tree_blob x : x ∈ l → entry_is_blob x = true → find_blob (ie_path x) l = Some x.
Proof.
  intros Hx Hb. destruct (find_blob (ie_path x) l) as [y|] eqn:E.
  - apply find_blob_Some in E as (Hy & _ & Ep). f_equal. by apply tree_unique.
  - by destruct (proj1 (find_blob_None _ _) E x Hx Hb).
Qed.

Lemma tree_path x : x ∈ l → rel_path (ie_path x).
Proof. apply (tl_rel [l] Hl l), tree_in. Qed.

Lemma tree_file_path p : p ∈ file_paths [l] ↔ is_Some (find_blob p l).
Proof.
  rewrite elem_of_file_paths. split.
  - intros (l' & x & ->%list_elem_of_singleton & Hx & Hb & <-). rewrite tree_blob; eauto.
  - intros [x (Hx & Hb & Hp)%find_blob_Some]. exists l, x. split_and!; [apply tree_in|done..].
Qed.

Lemma tree_dir_no_blob d : has_dir l d → find_blob d l = None.
Proof.
  intros (x & Hx & Ht & Ep). apply find_blob_None. intros y Hy Hb Ey.
  rewrite (tree_unique y x) in Hb; [by eapply blob_not_tree|done|done|congruence].
Qed.

Lemma tree_above d x : x ∈ l → above d (ie_path x) → has_dir l d.
Proof. intros Hx Hd. eapply (tl_closed [l] Hl l); [apply tree_in|done|done]. Qed.

Lemma tree_at_dir d : tree_at d l = true ↔ has_dir l d.
Proof. apply tree_at_true. Qed.

Lemma tree_dir_rel d : has_dir l d → rel_path d.
Proof. intros (x & Hx & _ & <-). by apply tree_path. Qed.
End tree.

Section migration.
Context (O N : list BitIndexEntry) (HO : tree_lists [O]) (HN : tree_lists [N]).

(** *** The directories that go *)

Lemma gone_spec t : t ∈ O → gone N t = true ↔ entry_is_tree t = true ∧ ¬ has_dir N (ie_path t).
Proof.
  intros Ht. unfold gone. rewrite andb_true_iff, negb_true_iff, <- (tree_at_dir N), not_true_iff_false. done.
Qed.

Lemma gone_norm t : t ∈ O → gone N t = true → norm_path (ie_path t).
Proof.
  intros Ht [Htt Hn]%gone_spec; [|done]. destruct (tree_path O HO t Ht) as [E|?]; [|done].
  destruct Hn. rewrite E. apply (tl_root [N] HN), tree_in.
Qed.

(** Every directory that goes lies in a topmost one. *)
Lemma gone_topmost t : t ∈ O → gone N t = true → ∃ d, d ∈ gone_dirs O N ∧ path_starts_with (ie_path t) d = true.
Proof.
  remember (length (path_components (ie_path t))) as k eqn:Hk. revert t Hk.
  induction k as [k IH] using lt_wf_ind. intros t Hk Ht Hg.
  destruct (in_gone O N t) eqn:Ei.
  - unfold in_gone in Ei. apply List.existsb_exists in Ei as (u & Hu%list_elem_of_In & Eu).
    rewrite !andb_true_iff, bool_decide_eq_true in Eu. destruct Eu as [[Hgu Hw] Hne].
    unfold within in Hw. pose proof Hw as Hpre. apply path_starts_with_prefix in Hpre.
    destruct (IH (length (path_components (ie_path u)))) with (t := u) as (d & Hd & Hs); try done.
    + subst k. assert (path_components (ie_path u) ≠ path_components (ie_path t)).
      { intros E. apply Hne, rel_path_inj; [by apply (tree_path O)..|done]. }
      destruct Hpre as [r Er]. rewrite Er, length_app. destruct r as [|c r]; [|cbn; lia].
      rewrite app_nil_r in Er. congruence.
    + exists d. split; [done|]. apply path_starts_with_prefix. apply path_starts_with_prefix in Hs.
      by etrans.
  - exists (ie_path t). split; [|by apply path_starts_with_prefix]. unfold gone_dirs.
    apply list_elem_of_fmap. exists t. split; [done|]. apply list_elem_of_In, List.filter_In.
    split; [by apply list_elem_of_In|]. by rewrite Hg, Ei.
Qed.

Lemma elem_of_gone_dirs d : d ∈ gone_dirs O N → norm_path d ∧ has_dir O d ∧ ¬ has_dir N d.
Proof.
  unfold gone_dirs. intros (t & -> & Ht%list_elem_of_In)%list_elem_of_fmap.
  apply List.filter_In in Ht as [Ht%list_elem_of_In [Hg _]%andb_true_iff].
  split; [by apply gone_norm|]. apply gone_spec in Hg as [Htt Hn]; [|done]. split; [by exists t|done].
Qed.

(** A path below a directory that goes. *)
Definition below_gone (p : BitPath) : bool := existsb (λ d, path_starts_with p d) (gone_dirs O N).

Lemma below_gone_true p : below_gone p = true ↔ ∃ d, d ∈ gone_dirs O N ∧ path_starts_with p d = true.
Proof. unfold below_gone. rewrite List.existsb_exists. by setoid_rewrite <- list_elem_of_In. Qed.

Lemma in_gone_below x : in_gone O N x = true → below_gone (ie_path x) = true.
Proof.
  intros (t & Ht%list_elem_of_In & Et)%List.existsb_exists. rewrite !andb_true_iff in Et.
  destruct Et as [[Hg Hw] _]. destruct (gone_topmost t Ht Hg) as (d & Hd & Hs).
  apply below_gone_true. exists d. split; [done|].
  apply path_starts_with_prefix. apply path_starts_with_prefix in Hs, Hw. by etrans.
Qed.

(** No directory of the other tree lies below one. *)
Lemma below_gone_dir q : has_dir N q → below_gone q = false.
Proof.
  intros Hq. pose proof Hq as (y & Hy & _ & Ey). apply not_true_iff_false. rewrite below_gone_true.
  intros (d & Hd & Hs). apply elem_of_gone_dirs in Hd as (Hn & _ & HdN).
  apply path_starts_above in Hs as [->|Hab]; [done| |by right].
  destruct HdN. subst q. by apply (tree_above N HN d y).
Qed.

(** No file that both trees have does. *)
Lemma below_gone_both x y : x ∈ O → y ∈ N → entry_is_blob x = true → ie_path x = ie_path y → below_gone (ie_path x) = false.
Proof.
  intros Hx Hy Hb E. apply not_true_iff_false. rewrite below_gone_true. intros (d & Hd & Hs).
  apply elem_of_gone_dirs in Hd as (Hn & (t & Ht & Htt & Et) & HdN).
  apply path_starts_above in Hs as [->|Hab]; [| |by right].
  - rewrite (tree_unique O HO t x) in Htt by done. by eapply blob_not_tree.
  - destruct HdN. apply (tree_above N HN d y); [done|congruence].
Qed.

(** Every directory that is left is one of the other tree. *)
Lemma dir_left d : has_dir O d → below_gone d = false → has_dir N d.
Proof.
  intros (t & Ht & Htt & <-) Hb. destruct (has_dir_dec N (ie_path t)) as [|Hn]; [done|].
  destruct (gone_topmost t Ht) as (e & He & Hs); [by apply gone_spec|].
  rewrite (proj2 (below_gone_true (ie_path t))) in Hb; [done|by exists e].
Qed.

(** *** The files that go *)

Lemma kept_in_spec l x : kept_in l x = true ↔ ∃ y, y ∈ l ∧ same_file x y = true.
Proof. unfold kept_in. rewrite List.existsb_exists. by setoid_rewrite <- list_elem_of_In. Qed.

Lemma same_file_spec x y :
  same_file x y = true ↔ entry_is_blob x = true ∧ entry_is_blob y = true ∧ ie_path x = ie_path y ∧ ie_oid x = ie_oid y.
Proof. unfold same_file. rewrite !andb_true_iff, !bool_decide_eq_true. tauto. Qed.

Lemma elem_of_gone_files p :
  p ∈ gone_files O N ↔ ∃ x, x ∈ O ∧ entry_is_blob x = true ∧ ie_path x = p ∧ kept_in N x = false
    ∧ in_gone O N x = false.
Proof.
  unfold gone_files. rewrite list_elem_of_fmap. setoid_rewrite list_elem_of_In.
  setoid_rewrite List.filter_In. setoid_rewrite andb_true_iff. setoid_rewrite andb_true_iff.
  setoid_rewrite negb_true_iff. setoid_rewrite <- list_elem_of_In. naive_solver.
Qed.

(** What is left of the old tree: the files that the other tree has with the same content. *)
Definition files_left : files := without_files (gone_files O N) (without_dirs (gone_dirs O N) (tree_files O)).

Lemma files_left_spec p :
  files_left p = match find_blob p O, find_blob p N with
                 | Some x, Some y => if decide (ie_oid x = ie_oid y) then Some (ie_mode x, ie_oid x) else None
                 | _, _ => None
                 end.
Proof.
  unfold files_left, without_files, without_dirs. fold (below_gone p). unfold tree_files.
  destruct (find_blob p O) as [x|] eqn:Ex; [|by repeat case_match].
  apply find_blob_Some in Ex as (Hx & Hbx & <-). cbn [fmap option_fmap option_map].
  destruct (find_blob (ie_path x) N) as [y|] eqn:Ey.
  - apply find_blob_Some in Ey as (Hy & Hby & Ep). rewrite (below_gone_both x y) by done.
    destruct (decide (ie_oid x = ie_oid y)) as [Eo|Eo].
    + rewrite decide_False; [done|]. intros (x' & Hx' & Hbx' & Ep' & Hk & _)%elem_of_gone_files.
      rewrite (tree_unique O HO x' x Hx' Hx Ep') in Hk. rewrite (proj2 (kept_in_spec N x)) in Hk; [done|].
      exists y. split; [done|]. by apply same_file_spec.
    + rewrite decide_True; [done|]. apply elem_of_gone_files. exists x. split_and!; try done.
      * apply not_true_iff_false. intros (y' & Hy' & (_ & _ & Ep' & Eo')%same_file_spec)%kept_in_spec.
        rewrite (tree_unique N HN y' y) in Eo'; congruence.
      * apply not_true_iff_false. intros Hi%in_gone_below. by rewrite (below_gone_both x y) in Hi.
  - destruct (decide (ie_path x ∈ gone_files O N)) as [|Hng]; [done|].
    destruct (below_gone (ie_path x)) eqn:Eb; [done|]. exfalso. apply Hng, elem_of_gone_files.
    exists x. split_and!; try done.
    + apply not_true_iff_false. intros (y & Hy & (_ & Hby & Ep & _)%same_file_spec)%kept_in_spec.
      rewrite Ep, (tree_blob N HN) in Ey; done.
    + apply not_true_iff_false. intros Hi%in_gone_below. congruence.
Qed.

(** *** The files that come *)

Lemma elem_of_new_files e :
  e ∈ new_files O N ↔ ∃ y, e = tree_entry_from_index_entry y ∧ y ∈ N ∧ entry_is_blob y = true ∧ kept_in O y = false.
Proof.
  unfold new_files. rewrite list_elem_of_fmap. setoid_rewrite list_elem_of_In at 1.
  setoid_rewrite List.filter_In. setoid_rewrite <- list_elem_of_In. setoid_rewrite andb_true_iff.
  setoid_rewrite negb_true_iff. naive_solver.
Qed.

Lemma elem_of_new_dirs e :
  e ∈ new_dirs O N ↔ ∃ y, e = tree_entry_from_index_entry y ∧ y ∈ N ∧ entry_is_tree y = true
    ∧ ie_path y ≠ EMPTY ∧ tree_at (ie_path y) O = false.
Proof.
  unfold new_dirs. rewrite list_elem_of_fmap. setoid_rewrite list_elem_of_In at 1.
  setoid_rewrite List.filter_In. setoid_rewrite <- list_elem_of_In. setoid_rewrite andb_true_iff.
  setoid_rewrite andb_true_iff. setoid_rewrite bool_decide_eq_true. setoid_rewrite negb_true_iff. naive_solver.
Qed.

Lemma new_files_nodup : NoDup (te_path <$> new_files O N).
Proof.
  pose proof (tl_diff [N] HN N (tree_in N)) as (Hs & _ & _). unfold new_files. rewrite <- list_fmap_compose.
  generalize (λ y, entry_is_blob y && negb (kept_in O y)). intros f. clear HN.
  induction Hs as [|y l Hs IH Hy]; [constructor|]. cbn. destruct (f y); [|done]. cbn. constructor; [|done].
  intros (z & E & Hz%list_elem_of_In)%list_elem_of_fmap. apply List.filter_In in Hz as [Hz%list_elem_of_In _].
  rewrite Forall_forall in Hy. specialize (Hy z Hz). cbn in E. rewrite E in Hy.
  by rewrite (ord_refl path_cmp) in Hy.
Qed.

Lemma files_left_new p : is_Some (files_left p) → is_Some (find_blob p N).
Proof. rewrite files_left_spec. repeat case_match; intros [? ?]; simplify_eq; eauto. Qed.

Lemma same_content_kept x y :
  x ∈ O → y ∈ N → entry_is_blob x = true → entry_is_blob y = true → ie_path x = ie_path y →
  kept_in O y = bool_decide (ie_oid x = ie_oid y).
Proof.
  intros Hx Hy Hbx Hby Ep. case_bool_decide as Eo.
  - apply kept_in_spec. exists x. split; [done|]. by apply same_file_spec.
  - apply not_true_iff_false. intros (x' & Hx' & (_ & _ & Ep' & Eo')%same_file_spec)%kept_in_spec.
    rewrite (tree_unique O HO x' x) in Eo'; congruence.
Qed.

Lemma checked_out_spec p : with_created_files (new_files O N) files_left p = checked_out_files O N p.
Proof.
  destruct (decide (p ∈ te_path <$> new_files O N)) as [Hp|Hp].
  - unfold with_created_files. destruct (List.find _ _) as [e|] eqn:Ef.
    2: { apply list_elem_of_fmap in Hp as (e & -> & He%list_elem_of_In).
         apply (List.find_none _ _ Ef) in He. by rewrite bool_decide_true in He. }
    apply List.find_some in Ef as [He%list_elem_of_In Ep%bool_decide_eq_true].
    apply elem_of_new_files in He as (y & -> & Hy & Hby & Hk). cbn in Ep |- *. subst p.
    unfold checked_out_files. rewrite (tree_blob N HN y) by done.
    destruct (find_blob (ie_path y) O) as [x|] eqn:Ex; [|done].
    apply find_blob_Some in Ex as (Hx & Hbx & Ep). rewrite (same_content_kept x y) in Hk by done.
    apply bool_decide_eq_false in Hk. by rewrite decide_False.
  - rewrite with_created_other by done. rewrite files_left_spec. unfold checked_out_files.
    destruct (find_blob p N) as [y|] eqn:Ey; [|by case_match].
    apply find_blob_Some in Ey as (Hy & Hby & <-).
    assert (kept_in O y = true) as Hk.
    { apply not_false_iff_true. intros Hk. apply Hp. apply list_elem_of_fmap.
      exists (tree_entry_from_index_entry y). split; [done|]. apply elem_of_new_files. by exists y. }
    pose proof Hk as (x & Hx & (_ & Hbx & Ep & Eo)%same_file_spec)%kept_in_spec.
    rewrite Ep, (tree_blob O HO x) by done. rewrite !decide_True by congruence. congruence.
Qed.

(** *** The migration *)

Context (metadata : Worktree → BitPath → Metadata).
Context (read_blob : Oid → BitResult bytes) (write_blob : bytes → BitResult Oid).
Context (content : Oid → bytes).

(** What the checkout relies on: the blobs of the new files can be read and their paths stored, the
    files that go are no links, and the metadata of files fits the index. *)
Record checkoutable : Prop := {
  ca_files : Forall (file_ok content read_blob) (new_files O N);
  ca_links p oid : p ∈ gone_files O N → tree_files O p ≠ Some (LINK, oid);
  ca_metadata : metadata_fits metadata;
}.

Lemma apply_migration_ok m s :
  migration_effect m = tree_effect O N → checkoutable → repo_at content (tree_files O) (has_dir O) s →
  ∃ s', apply_migration metadata read_blob write_blob m s = (Ok tt, s')
    ∧ repo_at content (checked_out_files O N) (has_dir N) s'.
Proof.
  intros Hm [Hfiles Hlinks Hfits] H0. injection Hm as Em1 Em2 Em3 Em4.
  assert (∀ q, has_dir N q → files_left q = None) as Hdir_none.
  { intros q Hq. destruct (files_left q) eqn:E; [|done].
    destruct (files_left_new q) as [y Hy]; [by eauto|]. by rewrite (tree_dir_no_blob N HN q Hq) in Hy. }
  destruct (apply_rmrfs_ok content _ _ s (rmrfs m) H0) as (s1 & E1 & H1).
  { apply Forall_forall. intros e He. assert (te_path e ∈ gone_dirs O N) as Hd.
    { rewrite <- Em1. apply list_elem_of_fmap. by exists e. }
    apply elem_of_gone_dirs in Hd as (Hn & Hd & _). split; [done|].
    unfold tree_files. by rewrite (tree_dir_no_blob O HO). }
  destruct (apply_rms_ok content _ _ s1 (rms m) H1) as (s2 & E2 & H2).
  { apply Forall_forall. intros e He oid. assert (te_path e ∈ gone_files O N) as Hd.
    { rewrite <- Em2. apply list_elem_of_fmap. by exists e. }
    unfold without_dirs. case_match; [done|]. by apply Hlinks. }
  rewrite Em1, Em2 in H2. fold files_left in H2.
  assert (repo_at content files_left (has_dir N) s2) as H2'.
  { eapply repo_at_ext; [done| |exact H2]. intros d [Hd Hb]. by apply dir_left. }
  destruct (apply_mkdirs_ok content _ _ s2 (mkdirs m) H2') as (s3 & E3 & H3).
  { rewrite Em3. apply Forall_forall. intros e (y & -> & Hy & Ht & Hne & _)%elem_of_new_dirs. cbn.
    split; [by destruct (tree_path N HN y Hy)|]. intros q Hq. assert (has_dir N q) as Hd.
    { destruct Hq as [->|Hq]; [by exists y|by eapply (tree_above N HN)]. }
    split; [by apply Hdir_none|done]. }
  destruct (apply_creates_ok content metadata read_blob write_blob (file_paths [N]) files_left (has_dir N) s3
    (creates m) Hfits (file_paths_prefix_free [N] HN (tree_no_clash N HN))) as (s4 & E4 & H4); try done.
  { intros p Hp. by apply (tree_file_path N HN), files_left_new. }
  { rewrite Em4. apply new_files_nodup. }
  { rewrite Em4. apply Forall_forall. intros e He. rewrite Forall_forall in Hfiles. pose proof (Hfiles e He) as Hok.
    apply elem_of_new_files in He as (y & -> & Hy & Hb & Hk). cbn in Hok |- *.
    split; [apply (tree_file_path N HN); rewrite (tree_blob N HN); eauto|]. split; [done|].
    assert (¬ has_dir N (ie_path y)) as Hnd.
    { intros Hd. pose proof (tree_dir_no_blob N HN _ Hd) as Hf. by rewrite (tree_blob N HN) in Hf. }
    split; [|split; [done|]].
    - rewrite files_left_spec, (tree_blob N HN y) by done.
      destruct (find_blob (ie_path y) O) as [x|] eqn:Ex; [|done].
      apply find_blob_Some in Ex as (Hx & Hbx & Ep). rewrite (same_content_kept x y) in Hk by done.
      apply bool_decide_eq_false in Hk. by rewrite decide_False.
    - intros q Hq. split; [|intros _; by eapply (tree_above N HN)].
      by apply (above_no_file [N] HN (tree_no_clash N HN) (ie_path y) q N y (tree_in N)). }
  exists s4. split.
  - unfold apply_migration. rewrite (st_bind_ok _ _ _ _ _ E1), (st_bind_ok _ _ _ _ _ E2).
    by rewrite (st_bind_ok _ _ _ _ _ E3).
  - rewrite Em4 in H4. eapply repo_at_ext; [|done|exact H4]. apply checked_out_spec.
Qed.
End migration.
