(* ===== verification/CheckoutTree.v ===== *)
(** * CheckoutTree

    The safe checkout of a stored tree when the tree of [HEAD] is checked out without changes: the
    walk that makes the migration and its application, together. *)

From Stdlib Require Import ZArith Lia Sorted.
From Stdlib Require Import Strings.Byte.
From stdpp Require Import base tactics option list countable strings gmap sorting.
From S2P Require Import Prelude RustStd Data State Io Hash Path BTree Obj Tree IndexEntry TreeCache Index TreeIter.
From S2P Require Import TreeDiff TreeListing IndexDiff IndexIter Walk WriteTree WorktreeIter Worktree Merge MergeTrees.
From S2P Require Import Checkout CheckoutClean Migrate MigrateClean.

(** ** The index of a clean worktree *)

Section clean.
Context (metadata : Worktree → BitPath → Metadata) (write_blob : bytes → BitResult Oid).
Context (content : Oid → bytes) (hash_blob : bytes → Oid) (index_mtime : option Timespec).
Context (l : list BitIndexEntry) (Hl : tree_lists [l]) (w : Worktree).

(** The files of the tree can be in an index, and their ids are hashes. *)
Definition storable_files : Prop := ∀ x, x ∈ l → entry_is_blob x = true →
  (x00 ∉ ie_path x) ∧ utf8_valid (ie_path x) = true ∧ is_known (ie_oid x) = true ∧ oid_wf (ie_oid x)
  ∧ hash_blob (content (ie_oid x)) = ie_oid x.

(** The metadata in an index entry is that of a file that has not been changed. *)
Definition stat_agrees (e : BitIndexEntry) (md : Metadata) : Prop :=
  let wte := index_entry_new md (ie_path e) in
  (ie_mtime e = ie_mtime wte ∧ is_racy_entry index_mtime e = false)
  ∨ (ie_filesize e = ie_filesize wte ∧ ie_inode e = ie_inode wte ∧ ie_mode e = ie_mode wte).

Definition index_clean (idx : BitIndexInner) : Prop :=
  index_wf idx ∧ (∀ p, index_has idx p (stages (tree_files l p)))
  ∧ ∀ p e, ((p, NONE), e) ∈ idx_entries idx → stat_agrees e (metadata w p).

(** The entry of an unchanged file, from the worktree. *)
Definition clean_entry (y : BitIndexEntry) : Prop :=
  entry_is_blob y = true → is_Some (find_blob (ie_path y) l)
    ∧ y = index_entry_new (metadata w (ie_path y)) (ie_path y).

Context (Hfits : metadata_fits metadata) (Hst : storable_files).
Context (Hfiles : ∀ p, worktree_file w p = with_content content (tree_files l p)).

Lemma clean_index_in idx : index_clean idx → index_in (file_paths [l]) idx.
Proof.
  intros (Hwf & Hhas & _). split; [done|]. intros [[p st] e] Hin. apply (tree_file_path l Hl).
  assert ((st, ie_oid e) ∈ stages (tree_files l p)) as Hs by (apply Hhas; by exists e). cbn.
  unfold tree_files in Hs. by destruct (find_blob p l); [|apply elem_of_nil in Hs].
Qed.

Lemma clean_find idx x :
  index_clean idx → x ∈ l → entry_is_blob x = true →
  ∃ e, find_entry idx (ie_path x, NONE) = Some e ∧ ie_oid e = ie_oid x ∧ ie_path e = ie_path x
    ∧ stat_agrees e (metadata w (ie_path x)).
Proof.
  intros (Hwf & Hhas & Hag) Hx Hb. destruct (Hhas (ie_path x) NONE (ie_oid x)) as [_ Hs].
  destruct Hs as (e & He & Eo).
  { unfold tree_files. rewrite (tree_blob l Hl) by done. by left. }
  exists e. split; [by apply (bt_get_Some key_cmp); [apply Hwf|]|]. split; [done|]. split; [|by apply Hag].
  destruct Hwf as [_ Hf]. rewrite Forall_forall in Hf. destruct (Hf _ He) as (Hk & _). cbn in Hk.
  unfold entry_key in Hk. by destruct (entry_stage e); [injection Hk|..].
Qed.

Lemma clean_inner e y :
  ie_path e = ie_path y → ie_oid y = UNKNOWN → is_known (ie_oid e) = true →
  y = index_entry_new (metadata w (ie_path y)) (ie_path y) → stat_agrees e (metadata w (ie_path y)) →
  has_changes_inner index_mtime e y = No ∨ has_changes_inner index_mtime e y = Maybe.
Proof.
  unfold stat_agrees. intros Ep Hu Hk Hy Hs. rewrite Ep, <- Hy in Hs. unfold has_changes_inner.
  rewrite Hu. rewrite bool_decide_false.
  2: { intros E. unfold is_known in Hk. apply bool_decide_eq_true in Hk. by destruct Hk. }
  change (is_known UNKNOWN) with false. destruct Hs as [[Hm Hr]|(Hf & Hi & Hm)].
  - rewrite (bool_decide_true _ Hm), Hr. by left.
  - unfold mode_eq. cbn. rewrite (bool_decide_true _ Hm), Hf, Hi.
    rewrite !(bool_decide_false (_ ≠ _)) by (intros Hne; by apply Hne). case_match; auto.
Qed.

(** The entry of such a file is refreshed. *)
Lemma clean_refresh idx x y :
  index_clean idx → x ∈ l → entry_is_blob x = true → ie_path x = ie_path y → norm_path (ie_path y) →
  y = index_entry_new (metadata w (ie_path y)) (ie_path y) → is_Some (w !! ie_path y) →
  ∃ idx', st_add_entry (stat metadata w) (write_worktree_blob write_blob w) (with_oid y (ie_oid x)) idx = (Ok tt, idx')
    ∧ index_clean idx'.
Proof.
  intros Hi Hx Hb Ep Hn Ey [node Hw]. destruct (Hst x Hx Hb) as (H0 & Hu & Hk & Ho & _). set (p := ie_path y) in *.
  rewrite Ep in H0, Hu. destruct (Hfits w p) as [Hf1 Hf2].
  pose proof (stat_entry_storable (metadata w p) p (ie_oid x) Hf1 Hf2 Hn H0 Hu) as Hstore. rewrite <- Ey in Hstore.
  set (z := with_oid y (ie_oid x)) in *.
  assert (fill (stat metadata w) z = Ok z) as Ef.
  { unfold fill. case_match; [done|]. change (ie_path z) with p. unfold stat. rewrite Hw.
    cbn [mbind outcome_bind]. unfold z. f_equal. f_equal. done. }
  assert (entry_write (write_worktree_blob write_blob w) z = Ok (ie_oid x)) as Ew.
  { unfold entry_write. cbn. by rewrite Hk. }
  assert (p ∈ file_paths [l]) as Hp by (apply (tree_file_path l Hl); rewrite <- Ep, (tree_blob l Hl); eauto).
  pose proof (file_paths_prefix_free [l] Hl (tree_no_clash l Hl)) as HW.
  destruct (add_entry_at (file_paths [l]) HW _ _ idx z z (ie_oid x) (clean_index_in idx Hi) Ef Ew Hstore Ho Hp)
    as (idx' & E & [Hwf' _] & Hat & Hag).
  pose proof Hi as (Hwf & Hhas & Hstat). pose proof Hstore as (Hkey & Hewf & _).
  destruct (add_entry_ok _ _ idx z z (ie_oid x) Hwf Ef Ew Hkey (with_oid_wf _ _ Hewf Ho) Hn Hu)
    as (idx2 & E2 & _ & Hat2 & _). rewrite E in E2. injection E2 as <-.
  exists idx'. split; [unfold st_add_entry; by rewrite E|]. split; [done|]. cbn in Hat, Hag, Hat2. fold p in Hat, Hag, Hat2.
  split.
  - intros q. destruct (decide (q = p)) as [->|Hq].
    + unfold tree_files. rewrite <- Ep, (tree_blob l Hl), Ep by done. done.
    + by apply (index_has_agree _ _ _ _ (Hag q Hq)).
  - intros q e He. destruct (decide (q = p)) as [->|Hq]; [|by apply Hstat, (Hag q Hq)].
    apply Hat2 in He as [_ ->]. unfold stat_agrees. 
    change (ie_path (with_oid z (ie_oid x))) with p. rewrite <- Ey. by right.
Qed.

(** Asking whether such a file is modified. *)
Lemma clean_unmodified y idx :
  index_clean idx → clean_entry y → entry_is_blob y = true →
  ∃ y' idx', index_entry_modified metadata write_blob hash_blob index_mtime w y idx = (Ok (false, y'), idx')
    ∧ index_clean idx'.
Proof.
  intros Hi Hy Hb. destruct (Hy Hb) as [[x Hx] Ey]. set (p := ie_path y) in *.
  apply find_blob_Some in Hx as (Hx & Hbx & Ep). destruct (Hst x Hx Hbx) as (H0 & Hu & Hk & Ho & Hh).
  destruct (clean_find idx x Hi Hx Hbx) as (e & Ef & Eo & Epe & Hag). rewrite Ep in Ef, Epe, Hag.
  assert (norm_path p) as Hn.
  { rewrite <- Ep. apply (file_path_norm [l] Hl (tree_no_clash l Hl)), (tree_file_path l Hl).
    rewrite (tree_blob l Hl); eauto. }
  assert (entry_key y = Ok (p, NONE)) as Hkey.
  { destruct (Hfits w p) as [Hf1 Hf2]. rewrite Ep in H0, Hu.
    destruct (stat_entry_storable (metadata w p) p (ie_oid y) Hf1 Hf2 Hn H0 Hu) as (Hk' & _).
    rewrite <- Ey in Hk'. by rewrite with_oid_same in Hk'. }
  assert (w !! p = Some (File (ie_mode x) (content (ie_oid x)))) as Hw.
  { apply worktree_file_Some. rewrite Hfiles. unfold tree_files. by rewrite <- Ep, (tree_blob l Hl). }
  assert (ie_oid y = UNKNOWN) as Huy by by rewrite Ey.
  unfold index_entry_modified, is_worktree_entry_modified. rewrite Hkey, st_lift_bind, st_get_bind, Ef.
  unfold has_changes. destruct (clean_inner e y) as [-> | ->]; [done|done|by rewrite Eo|done|done|by exists y, idx|].
  rewrite Huy. change (is_unknown UNKNOWN) with true. cbn [negb].
  rewrite (st_bind_ok _ _ idx idx (ie_oid x)).
  2: { unfold st_lift, hash_blob_from_worktree, read_blob_from_worktree.
       change (ie_path y) with p. rewrite Hw. cbn [mbind outcome_bind]. by rewrite Hh. }
  cbn [ie_oid with_oid]. rewrite Eo, bool_decide_false by (intros Hne; by apply Hne).
  destruct (clean_refresh idx x y Hi Hx Hbx Ep Hn Ey) as (idx' & E & Hi'); [fold p; by rewrite Hw|].
  exists (with_oid y (ie_oid x)), idx'. split; [|done]. by rewrite (st_bind_ok _ _ _ _ _ E).
Qed.
End clean.

(** ** The walk of a clean worktree *)

(** What [jwalk] with [process_read_dir] gives for a worktree none of whose names sorts between the
    name of a directory and that name followed by a slash, as in a plain tree: every directory and
    every file once, in the order of their paths. *)
Definition walks_in_order (w : Worktree) (walk : list (BitResult DirEntry)) : Prop :=
  ∃ entries, walk = Ok <$> entries
    ∧ StronglySorted (λ a b, path_cmp (de_path a) (de_path b) = Lt) entries
    ∧ ∀ p b, mk_DirEntry b p ∈ entries ↔ if b : bool then is_dir_at w p = true else is_Some (worktree_file w p).

Lemma strictly_sorted_eq {A} (f : A → BitPath) l1 l2 :
  StronglySorted (λ a b, path_cmp (f a) (f b) = Lt) l1 → StronglySorted (λ a b, path_cmp (f a) (f b) = Lt) l2 →
  (∀ x, x ∈ l1 ↔ x ∈ l2) → l1 = l2.
Proof.
  intros H1 H2 Hx.
  assert (∀ l, StronglySorted (λ a b, path_cmp (f a) (f b) = Lt) l → NoDup l) as Hnd.
  { induction 1 as [|x l Hs IH Hy]; constructor; [|done]. intros Hin. rewrite Forall_forall in Hy.
    specialize (Hy x Hin). by rewrite (ord_refl path_cmp) in Hy. }
  apply (StronglySorted_unique_strong (λ a b, path_cmp (f a) (f b) = Lt)); [|done|done|].
  - intros x y _ _ Hxy Hyx. apply (ord_gt path_cmp) in Hyx. congruence.
  - apply NoDup_Permutation; auto.
Qed.

Section walk.
Context {Gitignore : Type} (is_ignore : Gitignore → BitPath → bool → bool) (gitignore : Gitignore).
Context (metadata : Worktree → BitPath → Metadata) (content : Oid → bytes).
Context (l : list BitIndexEntry) (Hl : tree_lists [l]) (w : Worktree).

(** The mode of a file is the one that its metadata tells. *)
Definition metadata_kinds : Prop :=
  ∀ p mode data, w !! p = Some (File mode data) → filemode_from_metadata (metadata w p) = mode.

Definition dir_entry_of (x : BitIndexEntry) : DirEntry := mk_DirEntry (entry_is_tree x) (ie_path x).
Definition worktree_entry_of (x : BitIndexEntry) : BitIndexEntry :=
  if entry_is_tree x then index_entry_from_tree_entry (mk_TreeEntry TREE (ie_path x) UNKNOWN)
  else index_entry_new (metadata w (ie_path x)) (ie_path x).

Context (Hfiles : ∀ p, worktree_file w p = with_content content (tree_files l p)).
Context (Hdirs : ∀ d, is_dir_at w d = true ↔ has_dir l d).
Context (Hkinds : metadata_kinds).

Lemma tree_or_blob x : x ∈ l → entry_is_tree x = true ∨ entry_is_tree x = false ∧ entry_is_blob x = true.
Proof.
  intros Hx. destruct (entry_tree_or_blob [l] Hl l x (tree_in l) Hx) as [?|Hb]; [by left|].
  destruct (entry_is_tree x) eqn:E; [by left|by right].
Qed.

Lemma walk_entries walk : walks_in_order w walk → walk = Ok <$> (dir_entry_of <$> l).
Proof.
  intros (entries & -> & Hs & Hin). f_equal. apply (strictly_sorted_eq de_path); [done| |].
  - pose proof (tl_diff [l] Hl l (tree_in l)) as (Hsl & _). clear -Hsl.
    induction Hsl as [|x l Hs IH Hy]; cbn; constructor; [done|]. apply Forall_fmap. exact Hy.
  - intros [b p]. rewrite Hin, list_elem_of_fmap. destruct b.
    + rewrite Hdirs. split.
      * intros (x & Hx & Ht & <-). exists x. unfold dir_entry_of. by rewrite Ht.
      * intros (x & [= Hb ->] & Hx). by exists x.
    + rewrite Hfiles. unfold tree_files. split.
      * intros [f Hf]. destruct (find_blob p l) as [x|] eqn:E; [|done].
        apply find_blob_Some in E as (Hx & Hb & <-). exists x. split; [|done]. unfold dir_entry_of.
        destruct (entry_is_tree x) eqn:Ht; [by destruct (blob_not_tree x)|done].
      * intros (x & [= Ht ->] & Hx). destruct (tree_or_blob x Hx) as [?|[_ Hb]]; [congruence|].
        rewrite (tree_blob l Hl) by done. by eexists.
Qed.

(** The entries of the walk, where no directory of the tree is ignored. *)
Lemma walk_listing idx :
  (∀ p, index_has idx p (stages (tree_files l p))) → (∀ d, has_dir l d → is_ignore gitignore d true = false) →
  raw_yields is_ignore (stat metadata w) (worktree_raw_new idx gitignore (Ok <$> (dir_entry_of <$> l)))
    (worktree_entry_of <$> l).
Proof.
  intros Hidx Hign. unfold raw_yields. cbn [jwalk worktree_raw_new].
  set (it := worktree_raw_new _ _ _).
  assert (∀ x, x ∈ l → is_ignored is_ignore it (dir_entry_of x) = false) as Hkept.
  { intros x Hx. unfold is_ignored. case_bool_decide as Ht; [done|]. change (ignore it) with [gitignore].
    cbn [List.existsb]. rewrite orb_false_r. change (de_is_dir (dir_entry_of x)) with (entry_is_tree x).
    destruct (tree_or_blob x Hx) as [Htt|[Htt Hb]]; rewrite Htt; [apply Hign; by exists x|].
    destruct Ht. cbn. destruct (proj2 (Hidx (ie_path x) NONE (ie_oid x))) as (e & He & _).
    { unfold tree_files. rewrite (tree_blob l Hl) by done. by left. }
    apply list_elem_of_fmap. by exists ((ie_path x, NONE), e). }
  assert (∀ x, x ∈ l → worktree_entry (stat metadata w) (dir_entry_of x) = Ok (worktree_entry_of x)) as Hentry.
  { intros x Hx. unfold worktree_entry, worktree_entry_of.
    change (de_is_dir (dir_entry_of x)) with (entry_is_tree x). change (de_path (dir_entry_of x)) with (ie_path x).
    destruct (tree_or_blob x Hx) as [Htt|[Htt Hb]]; rewrite Htt; [done|].
    unfold from_absolute_path, stat. pose proof (Hfiles (ie_path x)) as Hf. unfold tree_files in Hf.
    rewrite (tree_blob l Hl x Hx Hb) in Hf. apply worktree_file_Some in Hf. by rewrite Hf. }
  clearbody it. clear - Hkept Hentry. revert Hkept Hentry. induction l as [|x k IH]; intros Hkept Hentry; [done|].
  cbn. rewrite Hkept, Hentry by by left. cbn [mbind outcome_bind].
  change (list_fmap _ _ Ok (list_fmap _ _ dir_entry_of k)) with (Ok <$> (dir_entry_of <$> k) : list (BitResult DirEntry)).
  rewrite IH; [done|intros; apply Hkept; by right|intros; apply Hentry; by right].
Qed.

Lemma walk_aligned : aligned l (worktree_entry_of <$> l) ∧ Forall (clean_entry metadata l w) (worktree_entry_of <$> l).
Proof.
  assert (∀ x, x ∈ l → entry_is_tree x = false → entry_is_blob x = true →
    filemode_from_metadata (metadata w (ie_path x)) = ie_mode x) as Hmode.
  { intros x Hx _ Hb. pose proof (Hfiles (ie_path x)) as Hf. unfold tree_files in Hf.
    rewrite (tree_blob l Hl x Hx Hb) in Hf. apply worktree_file_Some in Hf. by eapply Hkinds. }
  split.
  - apply Forall2_fmap_r, Forall_Forall2_diag, Forall_forall. intros x Hx.
    change (aligned_entry x (worktree_entry_of x)). unfold aligned_entry, worktree_entry_of.
    destruct (tree_or_blob x Hx) as [Htt|[Htt Hb]]; rewrite !Htt; [done|].
    pose proof (Hmode x Hx Htt Hb) as Hm. unfold entry_is_tree in *. cbn in *. rewrite Hm.
    split; [done|]. split; [done|]. unfold entry_is_blob in Hb. cbn in Hb. by destruct (ie_mode x).
  - apply Forall_fmap, Forall_forall. intros x Hx.
    change (clean_entry metadata l w (worktree_entry_of x)). unfold clean_entry, worktree_entry_of.
    destruct (tree_or_blob x Hx) as [Htt|[Htt Hb]]; rewrite Htt; [done|]. intros _. split; [|done].
    cbn. rewrite (tree_blob l Hl) by done. by eexists.
Qed.
End walk.

(** ** Checking out a stored tree *)

Section checkout.
Context (metadata : Worktree → BitPath → Metadata).
Context (read_blob : Oid → BitResult bytes) (write_blob : bytes → BitResult Oid).
Context (hash_blob : bytes → Oid) (index_mtime : option Timespec).
Context {Gitignore : Type} (is_ignore : Gitignore → BitPath → bool → bool) (gitignore : Gitignore).
Context (walk_dir : Worktree → list (BitResult DirEntry)).
Context (treeish : Oid → BitResult (list TreeEntry)) (read_obj_tree : Oid → BitResult TreeObj).
Context (content : Oid → bytes).

(** The tree [l] is checked out, without changes, and nothing else is in the worktree. *)
Record clean_checkout (l : list BitIndexEntry) (s : RepoState) : Prop := {
  cc_repo : repo_at content (tree_files l) (has_dir l) s;
  cc_dirs d : has_dir l d → is_dir_at (rs_worktree s) d = true;
  cc_files : storable_files content hash_blob l;
  cc_stat p e : ((p, NONE), e) ∈ idx_entries (rs_index s) →
    stat_agrees index_mtime e (metadata (rs_worktree s) p);
  cc_kinds : metadata_kinds metadata (rs_worktree s);
  cc_walk : walks_in_order (rs_worktree s) (walk_dir (rs_worktree s));
  cc_ignored d : has_dir l d → is_ignore gitignore d true = false;
}.

Context (Hplain : ∀ oid kids, treeish oid = Ok kids → plain_tree kids).

Lemma listing_tree_lists oid l : tree_listing treeish oid l → tree_lists [l].
Proof. intros Hl. apply (tree_listings_lists treeish [oid]); [done|]. by constructor. Qed.

(** Two stored trees can be compared for a checkout. *)
Lemma listings_checkout_pair a b O N :
  tree_listing treeish a O → tree_listing treeish b N → checkout_pair O N.
Proof.
  intros HO HN. assert (tree_lists [O; N]) as HL.
  { apply (tree_listings_lists treeish [a; b]); [done|]. by repeat constructor. }
  assert (O ∈ [O; N] ∧ N ∈ [O; N]) as [HiO HiN] by (split; [by left|right; by left]).
  assert (∀ l l' t x, l ∈ [O; N] → l' ∈ [O; N] → t ∈ l → t ∈ l' → entry_is_tree t = true →
    x ∈ l → entry_is_tree x = true → within (ie_path t) x = true → tree_at (ie_path x) l' = true) as Hsame.
  { intros l l' t x Hl Hl' Ht Ht' Htt Hx Hxt Hw. apply tree_at_true.
    apply path_starts_above in Hw; [|by eapply (tl_rel [O; N] HL)]. destruct Hw as [E|Hab]; [by exists t|].
    exists x. split; [|done]. by eapply (tl_same [O; N] HL l l' t t x). }
  split; [by eapply tree_listing_comparable|]. split.
  - intros t HtO HtN Htt _. split; intros x Hx Hxt Hw; [by apply (Hsame O N t x)|by apply (Hsame N O t x)].
  - destruct HL as [[Hwalk _] _ _ _ _]. rewrite Forall_forall in Hwalk. auto.
Qed.

Lemma checkout_tree_ok fuel head oid O N s :
  tree_listing treeish head O → tree_listing treeish oid N → clean_checkout O s →
  checkoutable O N metadata read_blob content → 2 * length O + length N < fuel →
  ∃ s', checkout_tree metadata read_blob write_blob hash_blob index_mtime is_ignore gitignore walk_dir treeish
      (Ok head) read_obj_tree fuel (Ok oid) s = (Ok tt, s')
    ∧ repo_at content (checked_out_files O N) (has_dir N) s'.
Proof.
  intros HlO HlN [Hrepo Hdirs Hst Hstat Hkinds Hwalk Hign] Hca Hf.
  pose proof (listing_tree_lists _ _ HlO) as HO. pose proof (listing_tree_lists _ _ HlN) as HN.
  destruct s as [idx w]. cbn in Hdirs, Hstat, Hkinds, Hwalk.
  pose proof (ra_files _ _ _ _ Hrepo) as Hfiles. cbn in Hfiles.
  assert (∀ d, is_dir_at w d = true ↔ has_dir O d) as Hd.
  { intros d. split; [|apply Hdirs]. intros [->|Hd]%is_dir_at_true; [apply (tl_root [O] HO), tree_in|].
    by apply (ra_dirs _ _ _ _ Hrepo). }
  pose proof (walk_entries content O HO w Hfiles Hd _ Hwalk) as Ewalk.
  pose proof (walk_listing is_ignore gitignore metadata content O HO w Hfiles idx
    (ra_entries _ _ _ _ Hrepo) Hign) as Hyields. rewrite <- Ewalk in Hyields.
  destruct (walk_aligned metadata content O HO w Hfiles Hkinds) as [Hal Hcl].
  assert (index_clean metadata index_mtime O w idx) as Hidx.
  { split; [apply (ra_index _ _ _ _ Hrepo)|]. split; [apply (ra_entries _ _ _ _ Hrepo)|done]. }
  assert (length (worktree_entry_of metadata w <$> O) = length O) as Hlen by apply length_fmap.
  destruct (generate_clean (H0 := worktree_tree_laws is_ignore (stat metadata w) fuel)
    (index_entry_modified metadata write_blob hash_blob index_mtime w)
    (index_clean metadata index_mtime O w) (clean_entry metadata O w)
    (clean_unmodified metadata write_blob content hash_blob index_mtime O HO w (ca_metadata _ _ _ _ _ Hca) Hst Hfiles)
    fuel (H2 := tree_iter_laws treeish) (H4 := tree_iter_laws treeish)) with (O := O) (N := N) (r := idx)
      (w := worktree_of gitignore walk_dir idx w) (i := tree_iter_new head) (j := tree_iter_new oid)
      (Wt := worktree_entry_of metadata w <$> O)
    as (m & idx' & E & (Hwf' & Hhas' & _) & Hm); try done.
  { by eapply listings_checkout_pair. }
  { by apply tree_listing_yields. }
  { by apply tree_listing_yields. }
  { apply worktree_tree_iter_new_yields; [exact Hyields|lia]. }
  { lia. }
  destruct (apply_migration_ok O N HO HN metadata read_blob write_blob content m (mk_RepoState idx' w) Hm Hca)
    as (s' & E' & Hs').
  { destruct Hrepo as [_ _ H3 H4 H5]. by split. }
  exists s'. split; [|done]. unfold checkout_tree, checkout_tree_with_opts. rewrite st_lift_bind.
  rewrite (st_bind_ok _ _ _ s' tt); [done|]. unfold checkout_iterator. cbn [fmap outcome_fmap].
  rewrite st_lift_bind, st_get_bind. cbn [rs_index rs_worktree]. rewrite E, st_put_bind, st_lift_bind. exact E'.
Qed.

(** C9: A safe checkout of a stored tree, when the tree of [HEAD] is checked out without changes, nothing else
    is in the worktree and nothing in it is ignored; where the names in all trees are in the order of paths, the
    blobs of the new files can be read, and no file that goes is a symbolic link.  It succeeds, and
    afterwards the index and the worktree hold the files of the new tree, with their contents and ids, whatever
    files and directories change, disappear or replace each other, and no other file and no directory that
    the new tree does not have.  Only the mode of a file whose content is the same in both trees stays
    as it was; when no file changes its mode alone, the files are exactly those of the new tree. *)
Theorem checkout_tree_correct fuel head oid O N s :
  tree_listing treeish head O → tree_listing treeish oid N → clean_checkout O s →
  checkoutable O N metadata read_blob content → 2 * length O + length N < fuel →
  ∃ s', checkout_tree metadata read_blob write_blob hash_blob index_mtime is_ignore gitignore walk_dir treeish
      (Ok head) read_obj_tree fuel (Ok oid) s = (Ok tt, s')
    ∧ repo_at content (checked_out_files O N) (has_dir N) s'
    ∧ (same_modes O N → repo_at content (tree_files N) (has_dir N) s').
Proof.
  intros HO HN Hc Hca Hf. destruct (checkout_tree_ok fuel head oid O N s HO HN Hc Hca Hf) as (s' & E & Hs).
  exists s'. split; [exact E|]. split; [exact Hs|]. intros Hm.
  eapply repo_at_ext; [|done|exact Hs]. intros p. by apply checked_out_exact.
Qed.
End checkout.

(** ** Example *)

Definition mode_metadata (w : Worktree) (p : BitPath) : Metadata :=
  let mode := match w !! p with Some (File EXEC _) => 493%Z | _ => 420%Z end in
  mk_Metadata (match w !! p with Some (File LINK _) => true | _ => false end) false mode (0, 0)%Z (0, 0)%Z 0 0 0 0 0.

Definition sample_state : RepoState := mk_RepoState (mc_index sample_ctxt) (mc_worktree sample_ctxt).

Definition sample_jwalk (_ : Worktree) : list (BitResult DirEntry) :=
  Ok <$> [mk_DirEntry true EMPTY; mk_DirEntry false (bs "a"); mk_DirEntry false (bs "c"); mk_DirEntry true (bs "d");
          mk_DirEntry false (bs "d/b")].

Definition no_ignore (_ : unit) (_ : BitPath) (_ : bool) : bool := false.

Lemma sample_nodes p n : rs_worktree sample_state !! p = Some n →
  (p, n) ∈ [(bs "a", File REG [x1a]); (bs "c", File REG [x0c]); (bs "d", Dir); (bs "d/b", File EXEC [x0b])].
Proof. apply elem_of_list_to_map_2. Qed.

Ltac in_nodes :=
  repeat match goal with
  | H : rs_worktree sample_state !! _ = Some _ |- _ => apply sample_nodes in H
  | H : (_, _) ∈ _ :: _ |- _ => apply elem_of_cons in H as [H|H]; [simplify_eq|]
  end; in_lists.

Lemma sample_entries p st e :
  ((p, st), e) ∈ idx_entries (rs_index sample_state) →
  ∃ x, p = ie_path x ∧ st = NONE ∧ e = x
    ∧ x ∈ [TreeListing.file_at (bs "a") x1a; TreeListing.file_at (bs "c") x0c;
           index_entry_from_tree_entry (mk_TreeEntry EXEC (bs "d/b") (sample_oid x0b))].
Proof. intros (x & [= -> -> ->] & Hx)%list_elem_of_fmap. by exists x. Qed.

Lemma sample_repo_at : repo_at toy_content (tree_files sample_listing2) (has_dir sample_listing2) sample_state.
Proof.
  assert (Forall (λ p, (λ kv, (kv.1.2, ie_oid kv.2)) <$>
      filter (λ kv, kv.1.1 = p) (idx_entries (rs_index sample_state)) = stages (tree_files sample_listing2 p)
    ∧ worktree_file (rs_worktree sample_state) p = with_content toy_content (tree_files sample_listing2 p))
    [bs "a"; bs "c"; bs "d"; bs "d/b"]) as Hall by vm_decide.
  split.
  - apply sample_index_wf.
  - intros p. destruct (decide (p ∈ [bs "a"; bs "c"; bs "d"; bs "d/b"])) as [Hp|Hp].
    + rewrite Forall_forall in Hall. rewrite <- (proj1 (Hall p Hp)). apply index_has_list.
    + unfold tree_files. rewrite (proj2 (find_blob_None _ _)).
      2: { intros y Hy Hb <-. destruct Hp. in_lists; try done; vm_decide. }
      intros st o. split; [|by intros []%elem_of_nil]. intros (e & He & _). destruct Hp.
      destruct (sample_entries _ _ _ He) as (x & -> & -> & -> & Hx). in_lists; vm_decide.
  - intros p. destruct (decide (p ∈ [bs "a"; bs "c"; bs "d"; bs "d/b"])) as [Hp|Hp].
    + rewrite Forall_forall in Hall. apply (Hall p Hp).
    + unfold tree_files. rewrite (proj2 (find_blob_None _ _)).
      2: { intros y Hy Hb <-. destruct Hp. in_lists; try done; vm_decide. }
      apply worktree_file_None. left. destruct (_ !! p) eqn:E; [|done]. destruct Hp. in_nodes; vm_decide.
  - intros p [n Hn]. in_nodes; split; vm_decide.
  - intros d Hd. in_nodes; try done. eexists. split; [by do 3 right; left|by split].
Qed.

Lemma sample_clean_checkout :
  clean_checkout mode_metadata toy_hash (Some (mk_Timespec 5 0)) no_ignore tt sample_jwalk toy_content
    sample_listing2 sample_state.
Proof.
  split.
  - apply sample_repo_at.
  - intros d (x & Hx & Ht & <-). in_lists; try done; vm_decide.
  - intros x Hx Hb. in_lists; try done; split_and!; try vm_decide; vm_compute; reflexivity.
  - intros p e He. destruct (sample_entries _ _ _ He) as (x & -> & _ & -> & Hx). in_lists; left; vm_decide.
  - intros p mode data Hp. in_nodes; try done; simplify_eq/=; vm_compute; reflexivity.
  - eexists. split; [reflexivity|]. split; [repeat constructor|]. intros p b. split.
    + intros Hin. rewrite !elem_of_cons, elem_of_nil in Hin.
      destruct_or! Hin; try done; injection Hin as -> ->; vm_decide.
    + destruct b.
      * intros [->|Hd]%is_dir_at_true; [by left|]. in_nodes; try done. by do 3 right; left.
      * intros [[mode data] Hf%worktree_file_Some]. in_nodes; try done; simplify_eq;
          [by do 1 right; left|by do 2 right; left|by do 4 right; left].
  - done.
Qed.

Lemma sample_checkoutable :
  checkoutable sample_listing2 theirs_listing mode_metadata (λ oid, Ok (toy_content oid)) toy_content.
Proof.
  split.
  - assert (new_files sample_listing2 theirs_listing
      = [mk_TreeEntry REG (bs "a") (sample_oid x2a); mk_TreeEntry REG (bs "e/f") (sample_oid x0f)]) as -> by vm_decide.
    repeat constructor; try vm_decide; by left.
  - intros p oid Hp. assert (gone_files sample_listing2 theirs_listing = [bs "a"; bs "c"]) as E by vm_decide.
    rewrite E in Hp. in_lists; vm_compute; congruence.
  - intros w p. unfold mode_metadata. cbn. split; vm_decide.
Qed.

(** [a] has changed, [c] and the directory [d] disappear, and [e/f] is new. *)
Lemma checkout_tree_correct_witness :
  ∃ s', checkout_tree mode_metadata (λ oid, Ok (toy_content oid)) (λ d, Ok (toy_hash d)) toy_hash
      (Some (mk_Timespec 5 0)) no_ignore tt sample_jwalk merge_treeish (Ok (sample_oid x03)) (λ _, Panic) 20
      (Ok (sample_oid x04)) sample_state = (Ok tt, s')
  ∧ (worktree_file (rs_worktree s') <$> [bs "a"; bs "c"; bs "d/b"; bs "e/f"])
    = [Some (REG, [x2a]); None; None; Some (REG, [x0f])]
  ∧ index_has (rs_index s') (bs "a") [(NONE, sample_oid x2a)] ∧ index_has (rs_index s') (bs "d/b") [].
Proof.
  pose proof merge_listings as Hls. inversion Hls as [|? ? ? ? _ Hls1]. inversion Hls1 as [|? ? ? ? HO Hls2].
  inversion Hls2 as [|? ? ? ? HN _].
  destruct (checkout_tree_correct mode_metadata (λ oid, Ok (toy_content oid)) (λ d, Ok (toy_hash d)) toy_hash
    (Some (mk_Timespec 5 0)) no_ignore tt sample_jwalk merge_treeish (λ _, Panic) toy_content merge_plain 20
    (sample_oid x03) (sample_oid x04) sample_listing2 theirs_listing sample_state HO HN sample_clean_checkout
    sample_checkoutable) as (s' & E & Hs & _); [cbn; lia|].
  exists s'. split; [exact E|].
  split; [cbn; rewrite !(ra_files _ _ _ _ Hs); vm_compute; reflexivity|].
  split; apply (ra_entries _ _ _ _ Hs).
Defined.

(** ** Where a checkout does not do what it should *)

Definition sample_checkout_with (opts : CheckoutOpts) (target : byte) : st RepoState unit :=
  checkout_iterator mode_metadata (λ oid, Ok (toy_content oid)) (λ d, Ok (toy_hash d)) toy_hash
    (Some (mk_Timespec 5 0)) no_ignore tt sample_jwalk merge_treeish (Ok (sample_oid x03)) 20
    (H := tree_iter_iterator merge_treeish) (tree_iter_new (sample_oid target)) opts.

(** What the index and the worktree have for the paths. *)
Definition state_files (s : RepoState) (ps : list BitPath) : list (option Oid * option (FileMode * bytes)) :=
  (λ p, (ie_oid <$> find_entry (rs_index s) (p, NONE), worktree_file (rs_worktree s) p)) <$> ps.

(** A state with a file of the index and of the worktree replaced. *)
Definition with_staged (p : BitPath) (x : byte) (w : Worktree) (s : RepoState) : RepoState :=
  mk_RepoState (mk_BitIndexInner (bt_insert key_cmp (p, NONE) (TreeListing.file_at p x) (idx_entries (rs_index s))) None None) w.

(** A change that has been staged is overwritten by a safe checkout of a tree that changes the same
    file: whether the file is modified is judged against the index, not against the baseline. *)
Theorem checkout_overwrites_staged :
  let s := with_staged (bs "a") x2b (<[bs "a" := File REG [x2b]]> (rs_worktree sample_state)) sample_state in
  state_files s [bs "a"] = [(Some (sample_oid x2b), Some (REG, [x2b]))]
  ∧ fst (sample_checkout_with checkout_opts_default x04 s) = Ok tt
  ∧ state_files (snd (sample_checkout_with checkout_opts_default x04 s)) [bs "a"]
    = [(Some (sample_oid x2a), Some (REG, [x2a]))].
Proof. vm_compute. done. Qed.

(** A file that has been staged and is not in the worktree stays in the index when the tree of
    [HEAD] is checked out by force. *)
Theorem forced_checkout_keeps_staged :
  let s := with_staged (bs "x") x0c (rs_worktree sample_state) sample_state in
  find_blob (bs "x") sample_listing2 = None
  ∧ fst (sample_checkout_with forced x03 s) = Ok tt
  ∧ state_files (snd (sample_checkout_with forced x03 s)) [bs "x"] = [(Some (sample_oid x0c), None)].
Proof. vm_compute. done. Qed.
