(* ===== verification/IndexListing.v ===== *)
(** * IndexListing

    What the iterator over an index lists (IndexIter.v) next to what a stored tree lists
    (TreeListing.v): the two can be compared by a tree diff, also where the tree cache of the
    index lets the diff skip a directory. *)

From Stdlib Require Import ZArith Lia Sorted.
From Stdlib Require Import Strings.Byte.
From stdpp Require Import base tactics option list countable strings sorting.
From S2P Require Import Prelude RustStd Data State Hash Path BTree Obj Tree IndexEntry TreeCache Index.
From S2P Require Import TreeIter TreeDiff TreeListing IndexDiff IndexIter WriteTree.

(** ** The shape of the listing of an index *)

Lemma contiguous_block d l r :
  contiguous l → contiguous r → Forall (λ x, within d x = true) l → Forall (λ x, within d x = false) r →
  contiguous (l ++ r).
Proof.
  intros Hl Hr Hw Ho. induction l as [|x l IH]; [done|]. cbn in *. destruct Hl as [Hx Hl].
  apply Forall_cons in Hw as [Hwx Hwl]. split; [|by apply IH]. intros Htx.
  assert (∀ y, within d y = false → within (ie_path x) y = false) as Hout.
  { intros y Hy. destruct (within (ie_path x) y) eqn:E; [|done].
    unfold within in *. rewrite path_starts_with_prefix in E, Hwx.
    rewrite <- Hy. symmetry. apply path_starts_with_prefix. by etrans. }
  rewrite drop_within_app.
  - apply Forall_app. split; [by apply Hx|]. eapply Forall_impl; [exact Ho|]. intros y. apply Hout.
  - destruct Ho as [|y r Hy _]; [done|]. cbn. by apply Hout.
Qed.

Section forest.
Context (mk : BitPath → BitIndexEntry).
Context (mk_path : ∀ p, ie_path (mk p) = p) (mk_tree : ∀ p, ie_mode (mk p) = TREE).
Context (all : list BitIndexEntry).

Lemma forest_contiguous base ns l : forest mk all base ns l → rel_path base → contiguous l.
Proof.
  induction 1 as [base|base n x ns l Hn Hp Hnin Hx Hb Hl IH
    |base n ms ns l1 l2 Hn Hp Hnin Hl1 H1 IH1 H2 IH2]; intros Hbase; [done|..].
  - split; [|by apply IH]. intros Ht. by destruct (blob_not_tree x).
  - destruct (rel_join base n Hbase Hn) as [Hj _].
    pose proof (forest_inside mk mk_path all base n ms l1 H1 Hbase Hn) as Hin.
    assert (Forall (λ x, within (join base n) x = false) l2) as Hout.
    { apply Forall_forall. intros x Hx.
      destruct (forest_elem mk mk_path all base ns l2 x H2 Hbase Hx) as (m & Hm & Hxm).
      destruct (forest_names mk all _ _ _ H2) as [Hns _]. rewrite Forall_forall in Hns.
      destruct (Hns m Hm) as [Hnm _]. apply (join_above_ne base n m); try done. by intros ->. }
    split.
    + intros _. rewrite mk_path. rewrite drop_within_all by done. by apply drop_within_Forall.
    + apply (contiguous_block (join base n)); [by apply IH1; right|by apply IH2|done|done].
Qed.
End forest.

Lemma above_dir q p : norm_path p → above q p → q = EMPTY ∨ q ∈ dirs p.
Proof. intros Hp Hq. apply elem_of_dirs in Hq; [|done]. by apply elem_of_cons in Hq. Qed.

(** Every directory on the way to an entry is listed. *)
Lemma index_listing_dir (mk : BitPath → BitIndexEntry) seen es e q :
  e ∈ es → q ∈ dirs (ie_path e) → q ∉ seen → mk q ∈ index_listing mk seen es.
Proof.
  revert seen. induction es as [|e' es IH]; intros seen He Hq Hs; [by apply elem_of_nil in He|].
  cbn. rewrite elem_of_app, elem_of_cons.
  destruct (decide (q ∈ new_dirs seen (ie_path e'))) as [Hn|Hn]; [left; by apply list_elem_of_fmap_2|].
  right. right. apply elem_of_cons in He as [->|He].
  - destruct Hn. unfold new_dirs. by apply list_elem_of_filter.
  - apply IH; [done|done|]. by rewrite elem_of_app; intros [?|?].
Qed.

Lemma index_listing_entry (mk : BitPath → BitIndexEntry) seen es e : e ∈ es → e ∈ index_listing mk seen es.
Proof.
  revert seen. induction es as [|e' es IH]; intros seen; [by intros ?%elem_of_nil|]. cbn.
  rewrite elem_of_app, !elem_of_cons. intros [->|He]; [auto|]. right. right. by apply IH.
Qed.

Section listing.
Context (idx : BitIndexInner) (Hfiles : files_ok (std_iter idx)).

Lemma std_entry e : e ∈ std_iter idx → norm_path (ie_path e) ∧ entry_is_blob e = true.
Proof.
  intros He. destruct Hfiles as (_ & _ & Hb & _). rewrite Forall_forall in Hb.
  destruct (Hb e He) as [[? _] ?]. done.
Qed.

(** The listing has the files of the index and the directories above them. *)
Lemma elem_of_index_listing x :
  x ∈ index_tree_listing idx ↔ x ∈ std_iter idx ∨ x = create_pseudotree idx EMPTY
    ∨ ∃ e q, e ∈ std_iter idx ∧ above q (ie_path e) ∧ x = create_pseudotree idx q.
Proof.
  unfold index_tree_listing. rewrite elem_of_cons. split.
  - intros [->|[?|(e & q & He & Hq & _ & ->)]%index_listing_elem]; [right; by left|by left|].
    right. right. exists e, q. split_and!; [done| |done]. apply elem_of_dirs; [by apply std_entry|by right].
  - intros [Hx|[->|(e & q & He & Hq & ->)]]; [right; by apply index_listing_entry|by left|].
    destruct (decide (q = EMPTY)) as [->|Hne]; [by left|right].
    apply (index_listing_dir _ _ _ e); [done| |by rewrite list_elem_of_singleton].
    apply above_dir in Hq as [?|?]; [done|done|]. by apply std_entry.
Qed.

Lemma index_tree_entry x : x ∈ index_tree_listing idx → entry_is_tree x = true →
  x = create_pseudotree idx (ie_path x) ∧ rel_path (ie_path x)
  ∧ (ie_path x = EMPTY ∨ ∃ e, e ∈ std_iter idx ∧ above (ie_path x) (ie_path e)).
Proof.
  intros [Hx|[->|(e & q & He & Hq & ->)]]%elem_of_index_listing Ht.
  - exfalso. eapply (blob_not_tree x); [|done]. by apply std_entry.
  - split; [done|]. split; [by left|by left].
  - split; [done|]. split; [by eapply above_rel|right; by exists e].
Qed.

Lemma index_blob_entry x : x ∈ index_tree_listing idx → entry_is_blob x = true → x ∈ std_iter idx.
Proof. intros [Hx|[->|(e & q & He & Hq & ->)]]%elem_of_index_listing Hb; [done|by destruct (blob_not_tree _ Hb)..]. Qed.

Lemma index_listing_path x : x ∈ index_tree_listing idx →
  ie_path x = EMPTY ∨ ∃ e, e ∈ std_iter idx ∧ (ie_path x = ie_path e ∨ above (ie_path x) (ie_path e)).
Proof.
  intros [Hx|[->|(e & q & He & Hq & ->)]]%elem_of_index_listing; [right; exists x; auto|by left|].
  right. exists e. auto.
Qed.

Lemma index_listing_contiguous : contiguous (index_tree_listing idx).
Proof.
  destruct (listing_forest (create_pseudotree idx) ltac:(done) (std_iter idx) EMPTY [EMPTY] (std_iter idx))
    as (ns & Hf & _); [by left|by apply std_forest_block|].
  split; [|by apply (forest_contiguous (create_pseudotree idx) (λ p, eq_refl) _ _ _ _ Hf); left].
  intros _. change (ie_path (create_pseudotree idx EMPTY)) with EMPTY.
  rewrite <- (app_nil_r (index_listing _ _ _)), drop_within_all; [done|].
  apply Forall_forall. intros x _. apply within_empty.
Qed.

(** Sorting is all that the comparison asks of the index: the directory [d] is listed before [d/x],
    and must not come after a file like [d-x]. *)
Lemma index_diff_list : sorted_paths (index_tree_listing idx) → diff_list (index_tree_listing idx).
Proof.
  intros Hs. split; [done|]. split; [|apply index_listing_contiguous].
  apply Forall_forall. intros x [Hx|[->|(e & q & He & Hq & ->)]]%elem_of_index_listing; [|done|done].
  intros E. apply std_entry in Hx as [_ Hb]. unfold entry_is_blob in Hb. cbn in Hb. by rewrite E in Hb.
Qed.
End listing.

(** ** Against a stored tree *)

Section against_tree.
Context (treeish : Oid → BitResult (list TreeEntry)).
Context (Hplain : ∀ oid kids, treeish oid = Ok kids → plain_tree kids).
Context (read_obj_tree : Oid → BitResult TreeObj).
(** [Oid::treeish] of a tree reads it. *)
Context (Htree : ∀ oid kids, tree_entries read_obj_tree oid = Ok kids → treeish oid = Ok kids).
Context (idx : BitIndexInner) (Hfiles : files_ok (std_iter idx)) (Hcache : cache_ok read_obj_tree idx).
Context (oid : Oid) (O : list BitIndexEntry) (HO : tree_listing treeish oid O).

#[local] Abbreviation N := (index_tree_listing idx).

Lemma listing_mono es l : listing (tree_entries read_obj_tree) es l → listing treeish es l.
Proof.
  induction 1 as [|e es l Hb Hl IH|e es kids l1 l2 Hm Hk Ht Hok Hl1 IH1 Hl2 IH2];
    [constructor|by constructor|]. eapply listing_tree; eauto.
Qed.

Lemma index_tree_covered : covered N O ∧ covered O N.
Proof.
  pose proof (tree_listing_listing treeish oid O HO) as HLO. split; intros t q Ht Htt Hq Hw Hne.
  - destruct (index_tree_entry idx Hfiles t Ht Htt) as (_ & Hrel & _). apply path_starts_with_prefix in Hw.
    destruct (listing_parents treeish _ _ HLO (root_rel oid) q (ie_path t) Hq Hrel Hw)
      as [(e & ->%list_elem_of_singleton & Hpre & Hn)|(t' & Ht' & E & [->|Htr])]; [|done|by exists t'].
    destruct Hn. apply rel_path_inj; [done|by left|]. apply (anti_symm prefix); [done|apply prefix_nil].
  - pose proof (listing_rel treeish _ _ HLO (root_rel oid)) as Hrel. rewrite Forall_forall in Hrel.
    specialize (Hrel t Ht). apply path_starts_above in Hw as [E|Hab]; [by destruct Hne|..|done].
    exists (create_pseudotree idx (ie_path t)). split; [|done]. apply (elem_of_index_listing idx Hfiles).
    right. apply (index_listing_path idx Hfiles) in Hq as [E|(e & He & Hqe)].
    { rewrite E in Hab. by apply above_empty in Hab. }
    right. exists e, (ie_path t). split_and!; [done| |done].
    destruct Hqe as [<-|Hqe]; [done|by eapply above_trans].
Qed.

(** A directory for which the tree cache has the tree that [O] has there. *)
Lemma index_tree_same : same_trees oid_differs O N.
Proof.
  intros t HtO HtN Htt Hk. pose proof (tree_listing_listing treeish oid O HO) as HLO.
  destruct (index_tree_entry idx Hfiles t HtN Htt) as (Et & Hrel & _).
  destruct (valid_child idx (ie_path t)) as [child|] eqn:Hv.
  2: { rewrite Et in Hk. unfold create_pseudotree in Hk. cbn in Hk. by rewrite Hv in Hk. }
  destruct (cache_ok_valid read_obj_tree idx (ie_path t) child Hcache Hrel Hv)
    as (_ & kids & l & _ & Hkids & Hok & _ & Hl & Hfl & _).
  assert (ie_oid t = tc_tree_oid child) as Eo.
  { rewrite Et. unfold create_pseudotree. cbn. by rewrite Hv. }
  destruct (listing_subtree treeish _ _ HLO (root_stack_ok oid) t HtO Htt) as (k & A & E & HA & Hin & Hout).
  rewrite Eo in E. rewrite (Htree _ _ Hkids) in E. injection E as <-.
  pose proof (listing_det treeish _ _ _ HA (listing_mono _ _ Hl)) as ->.
  assert (∀ x, entry_is_blob x = true → x ≠ t) as Hxt by (intros x Hb ->; by apply (blob_not_tree t)).
  assert (∀ x, x ∈ List.filter entry_is_blob l ↔ x ∈ l ∧ entry_is_blob x = true) as Hfb.
  { intros x. by rewrite !list_elem_of_In, List.filter_In. }
  assert (∀ y, y ∈ List.filter entry_is_blob (entries_below (ie_path t) (std_iter idx))
    ↔ y ∈ std_iter idx ∧ entry_is_blob y = true ∧ within (ie_path t) y = true ∧ ie_path y ≠ ie_path t) as Hfi.
  { intros y. unfold entries_below. rewrite !list_elem_of_In, !List.filter_In, andb_true_iff, negb_true_iff,
      bool_decide_eq_false. tauto. }
  split.
  - intros x Hx Hb Hw. destruct (Hout x Hx Hw) as [->|HxA]; [by destruct (Hxt t)|].
    assert (tree_entry_from_index_entry x ∈ files l) as Hf by (apply list_elem_of_fmap_2, Hfb; done).
    rewrite Hfl in Hf. apply list_elem_of_fmap in Hf as (y & Ey & (Hy & Hyb & _ & _)%Hfi).
    exists y. injection Ey as Em Ep Ee. split_and!; [|done|done|].
    + apply (elem_of_index_listing idx Hfiles). by left.
    + apply bool_decide_eq_false. by intros [].
  - intros y Hy Hb Hw. apply (index_blob_entry idx Hfiles) in Hy; [|done].
    assert (ie_path y ≠ ie_path t) as Hne.
    { intros E. destruct (index_tree_entry idx Hfiles t HtN Htt) as (_ & _ & [E0|(e & He & Hab)]).
      - destruct (std_entry idx Hfiles y Hy) as [Hn _]. rewrite E, E0 in Hn. by apply (norm_path_last EMPTY) in Hn as (? & ? & _).
      - destruct Hfiles as (_ & _ & _ & Hno). apply (Hno y e Hy He). by rewrite E. }
    assert (tree_entry_from_index_entry y ∈ files (entries_below (ie_path t) (std_iter idx))) as Hf
      by (apply list_elem_of_fmap_2, Hfi; done).
    rewrite <- Hfl in Hf. apply list_elem_of_fmap in Hf as (x & Ex & [Hx Hxb]%Hfb).
    exists x. injection Ex as Em Ep Ee. split_and!; [by apply Hin|done|done].
Qed.

Lemma index_tree_comparable : sorted_paths N → comparable oid_differs O N.
Proof.
  intros Hs. destruct index_tree_covered as [HNO HON].
  split; [by eapply tree_listing_diff_list|]. split; [by apply index_diff_list|].
  split; [done|]. split; [done|]. apply index_tree_same.
Qed.
End against_tree.
