(* ===== verification/Status.v ===== *)
(** * Status

    The commands that compare the index: [diff_tree], [diff_head], [read_tree] and [add] of
    [libbit/src/diff.rs] and [libbit/src/index.rs], and the status of [libbit/src/status.rs]. *)

From Stdlib Require Import ZArith Lia Sorted.
From Stdlib Require Import Strings.Byte.
From stdpp Require Import base tactics option list countable strings gmap.
From S2P Require Import CheckoutTree.
From S2P Require Import Prelude RustStd Data State Io Hash Path BTree Obj Tree Signature IndexEntry TreeCache Index.
From S2P Require Import Lockfile Refs RefDb TreeIter TreeDiff TreeListing IndexDiff IndexIter Pathspec WriteTree.
From S2P Require Import WorktreeIter Worktree Merge MergeTrees Checkout Migrate IndexListing.

(** ** The index against a tree *)

Section index_diff.
(** [Oid::treeish], and the fuel that bounds the iterators. *)
Context (treeish : Oid → BitResult (list TreeEntry)) (fuel : nat).

(** [BitIndex::diff_iterator]: no worktree is involved, so no index is borrowed. *)
Definition index_diff_iterator {I} `{BitTreeIterator I} (idx : BitIndexInner) (tree_iter : I) (pathspec : Pathspec)
    : BitResult WorkspaceStatus :=
  let index := index_tree_iterator fuel in
  fst <$> diff_iterators (H := filter_iterator fuel) (H0 := filter_iterator (H := index) fuel)
            (λ e, st_lift (S := unit) Panic) fuel tt
            (match_tree_iter pathspec tree_iter) (match_tree_iter pathspec (index_iter_new idx)).

(** [BitIndex::diff_tree], and [BitRepo::diff_tree_index]. *)
Definition index_diff_tree (idx : BitIndexInner) (treeish_oid : Oid) (pathspec : Pathspec) : BitResult WorkspaceStatus :=
  index_diff_iterator (H := tree_iter_iterator treeish) idx (tree_iter_new treeish_oid) pathspec.
End index_diff.

(** ** Operations on the repository

    The state is the index, the worktree and the files of the reference database. *)

Abbreviation Repository := (RepoState * Fs)%type.

Definition on_repo {A} (m : st RepoState A) : st Repository A := st_zoom fst (λ s r, (r, snd s)) m.
Definition on_refs {A} (m : st Fs A) : st Repository A := st_zoom snd (λ s fs, (fst s, fs)) m.
(** [self.index_mut()?]. *)
Definition with_index {A} (m : st BitIndexInner A) : st RepoState A :=
  st_zoom rs_index (λ s idx, mk_RepoState idx (rs_worktree s)) m.

Record BitStatus := mk_BitStatus {
  bst_head : BitRef;
  bst_initial : bool;
  bst_staged : WorkspaceStatus;
  bst_unstaged : WorkspaceStatus;
  bst_conflicted : list (BitPath * ConflictType);
}.

(** [BitStatus::is_empty]. *)
Definition bit_status_is_empty (s : BitStatus) : bool :=
  status_is_empty (bst_staged s) && status_is_empty (bst_unstaged s).

Section repo.
(** What the operating system reports for a path. *)
Context (metadata : Worktree → BitPath → Metadata).
(** [BitRepo::write_obj] of a blob, the hash of a blob, the time of the index file. *)
Context (write_blob : bytes → BitResult Oid) (hash_blob : bytes → Oid) (index_mtime : option Timespec).
(** [jwalk] over the worktree, and the crate [ignore]. *)
Context {Gitignore : Type} (is_ignore : Gitignore → BitPath → bool → bool) (gitignore : Gitignore).
Context (walk_dir : Worktree → list (BitResult DirEntry)).
(** [Oid::treeish], the tree objects, and [Treeish::treeish_oid] of a commit or a tree. *)
Context (treeish : Oid → BitResult (list TreeEntry)) (read_obj_tree : Oid → BitResult TreeObj).
Context (treeish_oid : Oid → BitResult Oid).
(** The reference database. *)
Context `{Hex} (bitdir : BitPath) (ensure_obj_is_commit : Oid → BitResult unit).
Context (fuel : nat).

(** *** The worktree *)

(** What [worktree_iter] gives for the entries of the walk: it has no directories. *)
Definition worktree_stream_of (w : Worktree) (it : WorktreeRawIter (Gitignore := Gitignore))
    (walk : list (BitResult DirEntry)) : list (BitResult BitIndexEntry) :=
  omap (λ r, match r with
             | Ok entry =>
                 if is_ignored is_ignore it entry || de_is_dir entry then None
                 else Some (from_absolute_path (stat metadata w) (de_path entry))
             | Err e => Some (Err e)
             | Panic => Some Panic
             end) walk.

(** [index.worktree_iter()]. *)
Definition worktree_stream (idx : BitIndexInner) (w : Worktree) : list (BitResult BitIndexEntry) :=
  let it := worktree_raw_new idx gitignore (walk_dir w) in worktree_stream_of w it (jwalk it).

(** [BitIndex::diff_worktree] and [BitRepo::diff_index_worktree]. *)
Definition repo_diff_worktree (pathspec : Pathspec) : st RepoState WorkspaceStatus :=
  s ← st_get;
  let w := rs_worktree s in
  with_index (diff_worktree (stat metadata w) (write_worktree_blob write_blob w)
    (hash_blob_from_worktree hash_blob w) index_mtime fuel (matches_path pathspec)
    (worktree_stream (rs_index s) w)).

(** [BitIndex::add]: every entry of the worktree that matches is added. *)
Definition index_add (pathspec : Pathspec) : st RepoState unit :=
  s ← st_get;
  let w := rs_worktree s in
  let iter := match_entry_iterator pathspec (worktree_stream (rs_index s) w) in
  with_index
    (peeked ← st_lift (fst (stream_peek iter));
     _ ← st_lift (ensure (bool_decide (is_Some peeked) || is_match_all pathspec) Anyhow);
     st_for_each (λ r, entry ← st_lift r; st_add_entry (stat metadata w) (write_worktree_blob write_blob w) entry) iter).

(** [BitIndex::read_tree]. *)
Definition index_read_tree (tree : Oid) : st RepoState unit :=
  s ← st_get;
  let w := rs_worktree s in
  diff ← st_lift (index_diff_tree treeish fuel (rs_index s) tree MATCH_ALL);
  with_index
    (_ ← apply_diff (stat metadata w) (write_worktree_blob write_blob w) diff;
     update_cache_tree read_obj_tree fuel tree).

(** [BitRepo::diff_tree_worktree]; what is compared may refresh the index. *)
Definition diff_tree_worktree (tree : Oid) (pathspec : Pathspec) : st RepoState WorkspaceStatus := λ s,
  let w := rs_worktree s in
  let worktree := worktree_tree_iterator is_ignore (stat metadata w) fuel in
  match diff_iterators (H := filter_iterator (H := tree_iter_iterator treeish) fuel)
          (H0 := filter_iterator (H := worktree) fuel)
          (index_entry_modified metadata write_blob hash_blob index_mtime w) fuel (rs_index s)
          (match_tree_iter pathspec (tree_iter_new tree))
          (match_tree_iter pathspec (worktree_of gitignore walk_dir (rs_index s) w)) with
  | Ok (status, idx) => (Ok status, mk_RepoState idx w)
  | Err e => (Err e, s)
  | Panic => (Panic, s)
  end.

(** *** References *)

(** [BitRepo::resolve_head], [fully_resolve_head] and [head_tree]. *)
Definition resolve_head : st Fs BitRef :=
  head ← read_head bitdir ensure_obj_is_commit;
  resolve bitdir ensure_obj_is_commit fuel head.

Definition fully_resolve_head : st Fs Oid :=
  head ← read_head bitdir ensure_obj_is_commit;
  fully_resolve bitdir ensure_obj_is_commit fuel head.

Definition head_tree : st Fs Oid :=
  r ← resolve_head;
  match r with Direct oid => st_lift (treeish_oid oid) | Symbolic _ => mret UNKNOWN end.

Definition is_head_detached : st Fs bool :=
  head ← read_head bitdir ensure_obj_is_commit;
  mret (match head with Direct _ => true | Symbolic _ => false end).

(** [BitIndex::diff_head] and [BitRepo::diff_head_index]. *)
Definition diff_head (pathspec : Pathspec) : st Repository WorkspaceStatus :=
  tree ← on_refs head_tree;
  s ← st_get;
  st_lift (index_diff_tree treeish fuel (rs_index (fst s)) tree pathspec).

(** [BitRepo::diff_ref_index]. *)
Definition diff_ref_index (reference : BitRef) (pathspec : Pathspec) : st Repository WorkspaceStatus :=
  r ← on_refs (resolve bitdir ensure_obj_is_commit fuel reference);
  tree_oid ← st_lift (match r with Direct oid => treeish_oid oid | Symbolic _ => Ok UNKNOWN end);
  s ← st_get;
  st_lift (index_diff_tree treeish fuel (rs_index (fst s)) tree_oid pathspec).

(** [BitIndex::status]. *)
Definition status (pathspec : Pathspec) : st Repository BitStatus :=
  head ← on_refs (read_head bitdir ensure_obj_is_commit);
  staged ← diff_head pathspec;
  unstaged ← on_repo (repo_diff_worktree pathspec);
  s ← st_get;
  conflicted ← st_lift (conflicts (rs_index (fst s)));
  initial ← on_refs (try_fully_resolve_ref bitdir ensure_obj_is_commit fuel head);
  mret (mk_BitStatus head (bool_decide (initial = None)) staged unstaged conflicted).
End repo.

(** ** What a diff says when it is empty *)

Lemma find_blob_in l y : diff_list l → y ∈ l → entry_is_blob y = true → find_blob (ie_path y) l = Some y.
Proof.
  intros Hl Hy Hb. destruct (find_blob (ie_path y) l) as [z|] eqn:E.
  - apply find_blob_Some in E as (Hz & _ & Hp). f_equal. by apply (diff_list_inj l).
  - exfalso. by apply (proj1 (find_blob_None _ _) E y).
Qed.

Lemma omap_nil {A B} (f : A → option B) l : omap f l = [] → ∀ x, x ∈ l → f x = None.
Proof.
  induction l as [|x l IH]; cbn; [by intros _ y ?%elem_of_nil|].
  destruct (f x) eqn:E; [done|]. intros Hl y [->|Hy]%elem_of_cons; [done|by apply IH].
Qed.

Lemma only_in_nil_inv l other : only_in l other = [] → ∀ y, y ∈ l → entry_is_blob y = true →
  ∃ x, x ∈ other ∧ entry_is_blob x = true ∧ ie_path x = ie_path y.
Proof.
  intros E y Hy Hb. destruct (find_blob (ie_path y) other) as [x|] eqn:Ef.
  - exists x. by apply find_blob_Some in Ef.
  - assert (y ∈ only_in l other) as Hin.
    { unfold only_in, absent. apply list_elem_of_In, List.filter_In. rewrite Hb, Ef. by rewrite <- list_elem_of_In. }
    rewrite E in Hin. by apply elem_of_nil in Hin.
Qed.

(** No change: the two lists have the same files, which compare as equal. *)
Lemma diff_spec_empty chg upd O N :
  diff_list N → status_is_empty (diff_spec chg upd O N) = true →
  (∀ x, x ∈ O → entry_is_blob x = true → ∃ y, y ∈ N ∧ entry_is_blob y = true ∧ ie_path y = ie_path x ∧ chg x y = false)
  ∧ (∀ y, y ∈ N → entry_is_blob y = true → ∃ x, x ∈ O ∧ entry_is_blob x = true ∧ ie_path x = ie_path y ∧ chg x y = false).
Proof.
  intros HN. unfold status_is_empty, diff_spec. cbn. rewrite !andb_true_iff, !bool_decide_eq_true.
  intros [[Hnew Hdel] Hmod].
  assert (∀ x y, x ∈ O → entry_is_blob x = true → y ∈ N → entry_is_blob y = true → ie_path y = ie_path x →
    chg x y = false) as Hchg.
  { intros x y Hx Hb Hy Hyb Hp. pose proof (omap_nil _ _ Hmod x Hx) as E. unfold modified_pair in E.
    rewrite Hb, <- Hp, (find_blob_in N y) in E by done. by destruct (chg x y). }
  split.
  - intros x Hx Hb. destruct (only_in_nil_inv _ _ Hdel x Hx Hb) as (y & Hy & Hyb & Hp). exists y. auto.
  - intros y Hy Hb. destruct (only_in_nil_inv _ _ Hnew y Hy Hb) as (x & Hx & Hxb & Hp). exists x. auto.
Qed.

(** And the other way round. *)
Lemma diff_spec_same chg upd O N :
  diff_list N →
  (∀ x, x ∈ O → entry_is_blob x = true → ∃ y, y ∈ N ∧ entry_is_blob y = true ∧ ie_path y = ie_path x ∧ chg x y = false) →
  (∀ y, y ∈ N → entry_is_blob y = true → ∃ x, x ∈ O ∧ entry_is_blob x = true ∧ ie_path x = ie_path y) →
  status_is_empty (diff_spec chg upd O N) = true.
Proof.
  intros HN HO1 HO2. unfold status_is_empty, diff_spec. cbn. rewrite !andb_true_iff, !bool_decide_eq_true. split_and!.
  - apply elem_of_nil_inv. intros y (Hy & Hb & Hno)%elem_of_only_in. destruct (HO2 y Hy Hb) as (x & Hx & Hxb & Hp).
    by apply (proj1 (find_blob_None _ _) Hno x).
  - apply elem_of_nil_inv. intros x (Hx & Hb & Hno)%elem_of_only_in. destruct (HO1 x Hx Hb) as (y & Hy & Hyb & Hp & _).
    by apply (proj1 (find_blob_None _ _) Hno y).
  - apply elem_of_nil_inv. intros xy (x & Hx & E)%list_elem_of_omap. unfold modified_pair in E.
    destruct (entry_is_blob x) eqn:Hb; [|done]. destruct (HO1 x Hx Hb) as (y & Hy & Hyb & Hp & Hc).
    rewrite <- Hp, (find_blob_in N y), Hc in E; done.
Qed.

(** ** The staged changes *)

Section staged.
Context (treeish : Oid → BitResult (list TreeEntry)) (read_obj_tree : Oid → BitResult TreeObj).
Context (Hplain : ∀ oid kids, treeish oid = Ok kids → plain_tree kids).
Context (Htree : ∀ oid kids, tree_entries read_obj_tree oid = Ok kids → treeish oid = Ok kids).
Context (idx : BitIndexInner) (Hfiles : files_ok (std_iter idx)) (Hcache : cache_ok read_obj_tree idx).
Context (Hsorted : sorted_paths (index_tree_listing idx)).

Lemma index_diff_tree_ok fuel oid O p :
  tree_listing treeish oid O → length O + length (index_tree_listing idx) < fuel →
  index_diff_tree treeish fuel idx oid p
  = Ok (kept_status (matches_path p) (diff_spec oid_differs (λ _ y, y) O (index_tree_listing idx))).
Proof.
  intros HO Hf. pose proof (cache_ok_listable read_obj_tree idx Hcache Hfiles) as Hlist.
  pose proof (index_tree_comparable treeish Hplain read_obj_tree Htree idx Hfiles Hcache oid O HO Hsorted) as HC.
  assert (∀ d q, matches_path p d = true → path_starts_with q d = true → matches_path p q = true) as Hbelow
    by apply matches_path_below.
  pose proof HC as ((_ & _ & HcO) & (_ & _ & HcN) & _).
  set (fO := List.filter (match_entry p) O). set (fN := List.filter (match_entry p) (index_tree_listing idx)).
  assert (length fO ≤ length O ∧ length fN ≤ length (index_tree_listing idx)) as [HlO HlN]
    by (split; apply filter_length_bool).
  unfold index_diff_tree, index_diff_iterator. rewrite <- diff_spec_kept.
  edestruct (diff_iterators_core (H0 := filter_laws (H0 := tree_iter_laws treeish) fuel)
    (H2 := filter_laws (H0 := index_tree_laws idx fuel Hlist) fuel)
    (λ e : BitIndexEntry, st_lift (S := unit) Panic) oid_differs (λ _ y, y) KIndex (λ _, True) (λ _, True))
    with (O := fO) (N := fN) as (repo & E & _).
  - intros x y r _ _ _. exists y, r. split; [|done]. unfold compare_blobs. by rewrite bool_decide_false.
  - apply (match_tree_iter_yields (H0 := tree_iter_laws treeish) fuel p (tree_iter_new oid) O); [|done|lia].
    by apply tree_listing_yields.
  - apply (match_tree_iter_yields (H0 := index_tree_laws idx fuel Hlist) fuel p (index_iter_new idx)); [|done|lia].
    apply index_iter_new_yields. lia.
  - done.
  - done.
  - done.
  - by apply Forall_true.
  - by apply (kept_comparable (matches_path p)).
  - apply (Nat.le_lt_trans _ (length O + length (index_tree_listing idx))); [by apply Nat.add_le_mono|done].
  - rewrite E. done.
Qed.
End staged.

(** An index without stages has no conflicts. *)
Lemma clean_no_conflicts W idx : clean W idx → conflicts idx = Ok [].
Proof.
  intros Hc. unfold conflicts.
  assert (∀ es m, Forall (λ e, entry_stage e = Ok NONE) es → conflict_map es m = Ok m) as Hm.
  { intros es m Hes. revert m. induction Hes as [|e es He _ IH]; intros m; [done|]. cbn [conflict_map]. rewrite He. apply IH. }
  rewrite Hm; [done|]. apply Forall_forall. intros e (kv & -> & Hin)%list_elem_of_fmap.
  destruct (clean_entry W idx kv Hc Hin) as (_ & Hk & _). unfold entry_key in Hk.
  destruct (entry_stage kv.2); [|done|done]. cbn in Hk. by injection Hk as ->.
Qed.

(** ** The status of a repository *)

Section status.
Context (metadata : Worktree → BitPath → Metadata).
Context (write_blob : bytes → BitResult Oid) (hash_blob : bytes → Oid) (index_mtime : option Timespec).
Context {Gitignore : Type} (is_ignore : Gitignore → BitPath → bool → bool) (gitignore : Gitignore).
Context (walk_dir : Worktree → list (BitResult DirEntry)).
Context (treeish : Oid → BitResult (list TreeEntry)) (read_obj_tree : Oid → BitResult TreeObj).
Context (treeish_oid : Oid → BitResult Oid).
Context `{Hex} (bitdir : BitPath) (ensure_obj_is_commit : Oid → BitResult unit).
Context (fuel : nat).
Context (Hplain : ∀ oid kids, treeish oid = Ok kids → plain_tree kids).
Context (Htree : ∀ oid kids, tree_entries read_obj_tree oid = Ok kids → treeish oid = Ok kids).

#[local] Abbreviation the_status := (status metadata write_blob hash_blob index_mtime is_ignore gitignore
  walk_dir treeish treeish_oid bitdir ensure_obj_is_commit fuel).
#[local] Abbreviation the_worktree := (worktree_stream metadata is_ignore gitignore walk_dir).

(** What the worktree has: the files, and [content], the hash of each. *)
Record worktree_at (content : BitPath → Oid) (idx : BitIndexInner) (w : Worktree) (Wt : list BitIndexEntry) : Prop := {
  wa_stream : the_worktree idx w = Ok <$> Wt;
  wa_flat : flat_list Wt;
  wa_files : Forall (worktree_entry_ok (write_worktree_blob write_blob w) (hash_blob_from_worktree hash_blob w) content) Wt;
  wa_honest : honest_worktree index_mtime content idx Wt;
}.

(** An index that can be committed: files without conflicts, no path below another, a tree cache
    that agrees with the entries, and no file like [d-x] next to a directory [d]. *)
Record index_ready (W : list BitPath) (idx : BitIndexInner) : Prop := {
  ir_free : prefix_free W;
  ir_clean : clean W idx;
  ir_files : files_only idx;
  ir_cache : cache_ok read_obj_tree idx;
  ir_sorted : sorted_paths (index_tree_listing idx);
}.

Lemma ready_files W idx : index_ready W idx → files_ok (std_iter idx) ∧ has_conflicts idx = false.
Proof. intros [H1 H2 H3 _ _]. by eapply clean_files_ok. Qed.

Definition status_spec (content : BitPath → Oid) (p : Pathspec) (head : BitRef) (initial : option Oid)
    (O : list BitIndexEntry) (idx : BitIndexInner) (Wt : list BitIndexEntry) : BitStatus :=
  mk_BitStatus head (bool_decide (initial = None))
    (kept_status (matches_path p) (diff_spec oid_differs (λ _ y, y) O (index_tree_listing idx)))
    (kept_status (matches_path p) (diff_spec (changed_spec index_mtime content) (updated_spec index_mtime content)
       (std_iter idx) Wt)) [].

Lemma repo_diff_worktree_ok content p W idx w Wt :
  index_ready W idx → worktree_at content idx w Wt → length (std_iter idx) + length Wt < fuel →
  ∃ idx', repo_diff_worktree metadata write_blob hash_blob index_mtime is_ignore gitignore walk_dir fuel p
      (mk_RepoState idx w)
    = (Ok (bst_unstaged (status_spec content p (Direct UNKNOWN) None [] idx Wt)), mk_RepoState idx' w)
    ∧ clean W idx' ∧ same_oids idx idx'.
Proof.
  intros [HW Hc Hfo _ _] [Es Hflat Hok Hh] Hf. unfold repo_diff_worktree. rewrite st_get_bind. cbn [rs_worktree rs_index].
  rewrite Es. destruct (diff_worktree_ok (stat metadata w) _ _ index_mtime content fuel (matches_path p) W idx Wt
    HW Hc Hfo Hflat Hok Hh Hf) as (idx' & E & Hc' & Hs').
  exists idx'. split; [|done]. unfold with_index, st_zoom. cbn [rs_index rs_worktree]. rewrite E.
  cbn. by rewrite diff_spec_kept.
Qed.

Lemma status_ok content p W head tree initial idx w fs fs1 fs2 fs3 O Wt :
  read_head bitdir ensure_obj_is_commit fs = (Ok head, fs1) →
  head_tree treeish_oid bitdir ensure_obj_is_commit fuel fs1 = (Ok tree, fs2) →
  try_fully_resolve_ref bitdir ensure_obj_is_commit fuel head fs2 = (Ok initial, fs3) →
  tree_listing treeish tree O → index_ready W idx → worktree_at content idx w Wt →
  length O + length (index_tree_listing idx) < fuel → length (std_iter idx) + length Wt < fuel →
  ∃ idx', the_status p (mk_RepoState idx w, fs)
          = (Ok (status_spec content p head initial O idx Wt), (mk_RepoState idx' w, fs3))
    ∧ clean W idx' ∧ same_oids idx idx'.
Proof.
  intros E1 E2 E3 HO Hr Hw Hf1 Hf2. destruct (ready_files W idx Hr) as [Hfiles _].
  destruct (repo_diff_worktree_ok content p W idx w Wt Hr Hw Hf2) as (idx' & Ew & Hc' & Hs').
  exists idx'. split; [|done]. unfold status, on_refs, on_repo.
  erewrite st_bind_ok by (unfold st_zoom; cbn [snd fst]; by rewrite E1).
  erewrite st_bind_ok; cycle 1.
  { unfold diff_head, on_refs. erewrite st_bind_ok by (unfold st_zoom; cbn [snd fst]; by rewrite E2).
    rewrite st_get_bind. cbn [fst rs_index].
    by rewrite (index_diff_tree_ok treeish read_obj_tree Hplain Htree idx Hfiles (ir_cache _ _ Hr) (ir_sorted _ _ Hr) fuel tree O p). }
  erewrite st_bind_ok by (unfold st_zoom; cbn [snd fst]; by rewrite Ew).
  rewrite st_get_bind. cbn [fst snd rs_index].
  rewrite (clean_no_conflicts W idx' Hc'), st_lift_bind.
  erewrite st_bind_ok by (unfold st_zoom; cbn [snd fst]; by rewrite E3). done.
Qed.

(** C12: The status of a repository whose index is ready to be committed (files only, without conflicts, no file
    like [d-x] beside a directory [d], a right tree cache), whose trees are in the order of paths, and whose
    stat data are honest: it returns; what is staged is the difference between the ids of
    the files in the tree of [HEAD] (or the empty tree) and in the index, so a change of the mode alone is
    not in it; what is not staged is the difference between the index and the worktree; both are
    restricted to the pathspec.  It leaves the worktree alone and in the index the same paths with the same
    hashes. *)
Theorem status_correct content p W head tree initial idx w fs fs1 fs2 fs3 O Wt :
  read_head bitdir ensure_obj_is_commit fs = (Ok head, fs1) →
  head_tree treeish_oid bitdir ensure_obj_is_commit fuel fs1 = (Ok tree, fs2) →
  try_fully_resolve_ref bitdir ensure_obj_is_commit fuel head fs2 = (Ok initial, fs3) →
  tree_listing treeish tree O → index_ready W idx → worktree_at content idx w Wt →
  length O + length (index_tree_listing idx) < fuel → length (std_iter idx) + length Wt < fuel →
  ∃ idx', the_status p (mk_RepoState idx w, fs)
          = (Ok (status_spec content p head initial O idx Wt), (mk_RepoState idx' w, fs3))
    ∧ clean W idx' ∧ same_oids idx idx'.
Proof. apply status_ok. Qed.

(** A file with this path and id. *)
Definition lists_file (l : list BitIndexEntry) (p : BitPath) (oid : Oid) : Prop :=
  ∃ x, x ∈ l ∧ entry_is_blob x = true ∧ ie_path x = p ∧ ie_oid x = oid.

(** No staged change: the tree and the index have the same files with the same ids. *)
Lemma staged_empty W idx O :
  index_ready W idx →
  status_is_empty (diff_spec oid_differs (λ _ y, y) O (index_tree_listing idx)) = true
  ↔ ∀ p oid, lists_file O p oid ↔ lists_file (std_iter idx) p oid.
Proof.
  intros Hr. destruct (ready_files W idx Hr) as [Hfiles _].
  assert (diff_list (index_tree_listing idx)) as HN by (apply index_diff_list; [done|by destruct Hr]).
  assert (∀ e, e ∈ std_iter idx → e ∈ index_tree_listing idx) as Hin by (intros e He; apply elem_of_index_listing; [done|by left]).
  split.
  - intros He p oid. apply diff_spec_empty in He as [HO1 HO2]; [|done]. split.
    + intros (x & Hx & Hb & <- & <-). destruct (HO1 x Hx Hb) as (y & Hy & Hyb & Hp & Hd).
      apply bool_decide_eq_false, dec_stable in Hd. exists y. split_and!; [by apply index_blob_entry|done|done|done].
    + intros (y & Hy & Hb & <- & <-). destruct (HO2 y (Hin y Hy) Hb) as (x & Hx & Hxb & Hp & Hd).
      apply bool_decide_eq_false, dec_stable in Hd. by exists x.
  - intros Hsame. apply diff_spec_same; [done|..].
    + intros x Hx Hb. destruct (proj1 (Hsame (ie_path x) (ie_oid x))) as (y & Hy & Hyb & Hp & Ho); [by exists x|].
      exists y. split_and!; [by apply Hin|done|done|]. apply bool_decide_eq_false. rewrite Ho. by intros [].
    + intros y Hy Hb. destruct (proj2 (Hsame (ie_path y) (ie_oid y))) as (x & Hx & Hxb & Hp & _); [|by exists x].
      exists y. split_and!; [by apply index_blob_entry|done|done|done].
Qed.

(** No unstaged change: the index and the worktree have the same files with the same contents; without
    such a change the diff is empty, unless the size, the inode or the mode of a file is another one. *)
Lemma unstaged_empty content W idx w Wt :
  index_ready W idx → worktree_at content idx w Wt →
  let same := ∀ p oid, lists_file (std_iter idx) p oid ↔ content p = oid ∧ ∃ y, y ∈ Wt ∧ ie_path y = p in
  let d := diff_spec (changed_spec index_mtime content) (updated_spec index_mtime content) (std_iter idx) Wt in
  (status_is_empty d = true → same)
  ∧ (same → (∀ x y, x ∈ std_iter idx → y ∈ Wt → ie_path x = ie_path y →
       ie_filesize x = ie_filesize y ∧ ie_inode x = ie_inode y ∧ ie_mode x = ie_mode y) →
     status_is_empty d = true).
Proof.
  intros Hr Hw same d. destruct (ready_files W idx Hr) as [Hfiles _].
  pose proof (flat_diff_list _ (wa_flat _ _ _ _ Hw)) as Hdl.
  pose proof (wa_flat _ _ _ _ Hw) as [_ HWb]. rewrite Forall_forall in HWb. split.
  - intros Hun. apply diff_spec_empty in Hun as [HW1 HW2]; [|done].
    assert (∀ x y, x ∈ std_iter idx → y ∈ Wt → ie_path y = ie_path x → changed_spec index_mtime content x y = false →
      content (ie_path y) = ie_oid x) as Hcont.
    { intros x y Hx Hy Hp Hc. apply (unchanged_content index_mtime content); [|done].
      by apply (wa_honest _ _ _ _ Hw). }
    intros p oid. split.
    + intros (x & Hx & Hb & <- & <-). destruct (HW1 x Hx Hb) as (y & Hy & Hyb & Hp & Hd).
      rewrite <- Hp. split; [by apply (Hcont x y)|by exists y].
    + intros (<- & y & Hy & <-). destruct (HW2 y Hy (HWb y Hy)) as (x & Hx & Hxb & Hp & Hd).
      exists x. split_and!; [done|done|done|]. symmetry. by apply (Hcont x y).
  - intros Hsame Hstat. apply diff_spec_same; [done|..].
    + intros x Hx Hb. destruct (proj1 (Hsame (ie_path x) (ie_oid x))) as (Hc & y & Hy & Hp); [by exists x|].
      exists y. split_and!; [done|by apply HWb|done|]. apply not_true_is_false. intros Hch.
      destruct (Hstat x y Hx Hy (eq_sym Hp)) as (H1 & H2 & H3).
      destruct (changed_reason index_mtime content x y (wa_honest _ _ _ _ Hw x y Hx Hy (eq_sym Hp)) Hch)
        as [Hne|[?|[?|?]]]; [|done..]. apply Hne. by rewrite Hp.
    + intros y Hy _. destruct (proj2 (Hsame (ie_path y) (content (ie_path y)))) as (x & Hx & Hxb & Hp & _);
        [split; [done|by exists y]|by exists x].
Qed.

(** C32: What an empty [status] means, under the conditions of [status_correct]: it has no staged change exactly when the
    tree of [HEAD] and the index have the same files with the same ids; when it has no unstaged change,
    the index and the worktree have the same files with the same contents, and it has none when they do and the
    size, the inode and the mode of every file are as recorded; and it is empty when it has neither. *)
Theorem clean_status_sound content W head tree initial idx w fs fs1 fs2 fs3 O Wt :
  read_head bitdir ensure_obj_is_commit fs = (Ok head, fs1) →
  head_tree treeish_oid bitdir ensure_obj_is_commit fuel fs1 = (Ok tree, fs2) →
  try_fully_resolve_ref bitdir ensure_obj_is_commit fuel head fs2 = (Ok initial, fs3) →
  tree_listing treeish tree O → index_ready W idx → worktree_at content idx w Wt →
  length O + length (index_tree_listing idx) < fuel → length (std_iter idx) + length Wt < fuel →
  ∃ st s', the_status MATCH_ALL (mk_RepoState idx w, fs) = (Ok st, s')
    ∧ let same := ∀ p oid, lists_file (std_iter idx) p oid ↔ content p = oid ∧ ∃ y, y ∈ Wt ∧ ie_path y = p in
      (status_is_empty (bst_staged st) = true ↔ ∀ p oid, lists_file O p oid ↔ lists_file (std_iter idx) p oid)
      ∧ (status_is_empty (bst_unstaged st) = true → same)
      ∧ (same → (∀ x y, x ∈ std_iter idx → y ∈ Wt → ie_path x = ie_path y →
           ie_filesize x = ie_filesize y ∧ ie_inode x = ie_inode y ∧ ie_mode x = ie_mode y) →
         status_is_empty (bst_unstaged st) = true)
      ∧ bit_status_is_empty st = status_is_empty (bst_staged st) && status_is_empty (bst_unstaged st).
Proof.
  intros E1 E2 E3 HO Hr Hw Hf1 Hf2.
  destruct (status_ok content MATCH_ALL W head tree initial idx w fs fs1 fs2 fs3 O Wt E1 E2 E3 HO Hr Hw Hf1 Hf2)
    as (idx' & E & _).
  eexists _, _. split; [exact E|]. unfold status_spec. cbn [bst_staged bst_unstaged].
  rewrite <- !diff_spec_kept. change (λ e, matches_path MATCH_ALL (ie_path e)) with (match_entry MATCH_ALL).
  rewrite !match_all_filter. split; [by apply (staged_empty W)|].
  destruct (unstaged_empty content W idx w Wt Hr Hw) as [H1 H2]. split; [exact H1|]. split; [exact H2|done].
Qed.

(** *** [read_tree] *)

Lemma listing_keys es l : listing treeish es l → Forall (λ x, entry_key x = Ok (ie_path x, NONE)) l.
Proof.
  assert (∀ e, entry_key (index_entry_from_tree_entry e) = Ok (te_path e, NONE)) as Hk.
  { intros e. unfold entry_key, entry_stage, flags_stage. cbn [ie_flags index_entry_from_tree_entry].
    by rewrite flags_with_path_len_land. }
  induction 1 as [|e es l Hb Hl IH|e es kids l1 l2 Hm Hkn Ht Hok Hl1 IH1 Hl2 IH2]; constructor; try done; try apply Hk.
  by apply Forall_app.
Qed.

Lemma clean_std_paths W idx : clean W idx → files_only idx → prefix_free W →
  clean (ie_path <$> std_iter idx) idx ∧ prefix_free (ie_path <$> std_iter idx).
Proof.
  intros Hc Hfo HW. assert (∀ p, p ∈ ie_path <$> std_iter idx → p ∈ W) as Hsub.
  { intros p (e & -> & (_ & k & He)%elem_of_std_iter)%list_elem_of_fmap. by apply (clean_entry W idx _ Hc He). }
  split.
  - split; [apply Hc|]. intros [k e] Hin. destruct (tracked_elem W idx Hc Hfo k e Hin) as [He ->].
    split; [done|]. by apply (list_elem_of_fmap_2 ie_path).
  - intros p q Hp Hq. apply HW; by apply Hsub.
Qed.

(** The entries of the index are those of unmodified files of the worktree. *)
Definition index_unmodified (content : BitPath → Oid) (idx : BitIndexInner) (w : Worktree) : Prop :=
  Forall (λ e, worktree_entry_ok (write_worktree_blob write_blob w) (hash_blob_from_worktree hash_blob w) content e
               ∧ is_known (ie_oid e) = true) (std_iter idx).

Lemma read_tree_diff_ok content W idx w O :
  index_ready W idx → index_unmodified content idx w → (∃ oid, tree_listing treeish oid O) →
  ∃ idx', apply_diff (stat metadata w) (write_worktree_blob write_blob w)
      (diff_spec oid_differs (λ _ y, y) O (index_tree_listing idx)) idx = (Ok tt, idx')
    ∧ clean (ie_path <$> std_iter idx) idx' ∧ same_oids idx idx'.
Proof.
  intros Hr Hun [oid HO]. pose proof Hr as [HW Hc Hfo _ Hs]. destruct (ready_files W idx Hr) as [Hfiles _].
  destruct (clean_std_paths W idx Hc Hfo HW) as [HcP HP]. set (P := ie_path <$> std_iter idx) in *.
  set (d := diff_spec _ _ _ _). unfold index_unmodified in Hun. rewrite Forall_forall in Hun.
  pose proof (listing_keys _ _ (tree_listing_listing treeish oid O HO)) as Hkeys. rewrite Forall_forall in Hkeys.
  assert (∀ y, y ∈ index_tree_listing idx → entry_is_blob y = true → y ∈ std_iter idx) as Hstd
    by by intros y; apply index_blob_entry.
  assert (∀ k e, (k, e) ∈ idx_entries idx → e ∈ std_iter idx ∧ k = (ie_path e, NONE)) as Htracked
    by by intros k e; apply (tracked_elem P idx HcP Hfo).
  destruct (remove_all_clean (stat metadata w) (write_worktree_blob write_blob w) (hash_blob_from_worktree hash_blob w)
    content P (ws_deleted d) idx HcP)
    as (idx1 & E1 & Hc1 & Hin1).
  { apply Forall_forall. intros x (Hx & _ & _)%elem_of_only_in. by apply Hkeys. }
  assert (∀ kv, kv ∈ idx_entries idx1 ↔ kv ∈ idx_entries idx) as Hsame1.
  { intros kv. rewrite Hin1. split; [by intros []|]. intros Hkv. split; [done|]. destruct kv as [k e].
    destruct (Htracked k e Hkv) as [He ->]. cbn. intros (x & Ex & (Hx & Hxb & Hno)%elem_of_only_in)%list_elem_of_fmap.
    apply (proj1 (find_blob_None _ _) Hno e); [by apply elem_of_index_listing; [|left]|by apply (std_entry idx Hfiles)|done]. }
  assert (∀ y, y ∈ std_iter idx → worktree_entry_ok (write_worktree_blob write_blob w)
    (hash_blob_from_worktree hash_blob w) content y ∧ ie_path y ∈ P) as Hadd.
  { intros y Hy. split; [by apply Hun|by apply list_elem_of_fmap_2]. }
  assert (∀ kv, kv ∈ idx_entries idx1 → ie_oid kv.2 = content kv.1.1) as Hup1.
  { intros [k e] Hkv%Hsame1. destruct (Htracked k e Hkv) as [He ->]. cbn. destruct (Hun e He) as [Hok Hkn].
    destruct Hok as (_ & _ & _ & _ & _ & _ & H' & _). by apply H'. }
  assert (∀ p, p ∈ P → ∃ e, ((p, NONE), e) ∈ idx_entries idx1) as Hpres1.
  { intros p (e & -> & He)%list_elem_of_fmap. exists e. apply Hsame1.
    apply elem_of_std_iter in He as (_ & k & He). by destruct (Htracked k e He) as [_ <-]. }
  destruct (add_all_clean (stat metadata w) (write_worktree_blob write_blob w) (hash_blob_from_worktree hash_blob w)
    content (λ p, p.2) P (ws_modified d) P idx1 HP Hc1) as (idx2 & E2 & Hc2 & Hup2 & Hp2); [|by auto|done|].
  { apply Forall_forall. intros xy (x & Hx & Em)%list_elem_of_omap. unfold modified_pair in Em.
    destruct (entry_is_blob x); [|done]. destruct (find_blob _ _) as [y|] eqn:Ef; [|done].
    destruct (oid_differs x y); [|done]. injection Em as <-. cbn. apply find_blob_Some in Ef as (Hy & Hyb & _).
    by apply Hadd, Hstd. }
  destruct (add_all_clean (stat metadata w) (write_worktree_blob write_blob w) (hash_blob_from_worktree hash_blob w)
    content id P (ws_new d) P idx2 HP Hc2) as (idx3 & E3 & Hc3 & Hup3 & Hp3).
  { apply Forall_forall. intros y (Hy & Hyb & _)%elem_of_only_in. by apply Hadd, Hstd. }
  { intros kv Hkv HkP. apply Hup2; [done|]. apply elem_of_app. by left. }
  { intros p Hp. apply Hp2, elem_of_app. by left. }
  exists idx3. split.
  { unfold apply_diff, apply_with. rewrite (st_bind_ok _ _ _ _ _ E1).
    cbn [differ_on_modified index_applier]. rewrite (st_bind_ok _ _ _ _ _ E2). exact E3. }
  split; [done|].
  assert (∀ k, (∃ e, (k, e) ∈ idx_entries idx) ↔ (∃ e, (k, e) ∈ idx_entries idx3)) as Hkeys3.
  { intros k. split.
    - intros [e He]. destruct (Htracked k e He) as [He' ->]. apply Hp3, elem_of_app. left. by apply list_elem_of_fmap_2.
    - intros [e He]. destruct Hc3 as [_ Hc3]. destruct (Hc3 _ He) as [Hn HkP]. destruct k as [p st]. cbn in Hn, HkP. subst st.
      destruct (Hpres1 p HkP) as [e' He']. exists e'. by apply Hsame1. }
  assert (∀ kv, kv ∈ idx_entries idx3 → ie_oid kv.2 = content kv.1.1) as Hup.
  { intros kv Hkv. apply Hup3; [done|]. apply elem_of_app. left. destruct Hc3 as [_ Hc3]. by apply Hc3. }
  intros k o. split.
  - intros (e & He & <-). destruct (proj2 (Hkeys3 k) (ex_intro _ e He)) as [e' He']. exists e'. split; [done|].
    apply Hsame1, Hup1 in He'. pose proof (Hup _ He) as Ho. cbn in He', Ho. congruence.
  - intros (e & He & <-). destruct (proj1 (Hkeys3 k) (ex_intro _ e He)) as [e' He']. exists e'. split; [done|].
    apply Hsame1, Hup1 in He. pose proof (Hup _ He') as Ho. cbn in He, Ho. congruence.
Qed.

Lemma read_tree_keeps content W idx w oid O :
  tree_listing treeish oid O → index_ready W idx → index_unmodified content idx w →
  length O + length (index_tree_listing idx) < fuel →
  ∃ r idx', index_read_tree metadata write_blob treeish read_obj_tree fuel oid (mk_RepoState idx w)
            = (r, mk_RepoState idx' w) ∧ same_oids idx idx'.
Proof.
  intros HO Hr Hun Hf. destruct (ready_files W idx Hr) as [Hfiles _].
  destruct (read_tree_diff_ok content W idx w O Hr Hun ltac:(by exists oid)) as (idx1 & E1 & _ & Hs1).
  unfold index_read_tree. rewrite st_get_bind. cbn [rs_index rs_worktree].
  rewrite (index_diff_tree_ok treeish read_obj_tree Hplain Htree idx Hfiles (ir_cache _ _ Hr) (ir_sorted _ _ Hr) fuel oid O MATCH_ALL HO Hf).
  rewrite st_lift_bind. unfold with_index, st_zoom. cbn [rs_index rs_worktree].
  rewrite <- diff_spec_kept. change (λ e, matches_path MATCH_ALL (ie_path e)) with (match_entry MATCH_ALL).
  rewrite !match_all_filter. erewrite st_bind_ok by exact E1.
  destruct (update_cache_tree _ _ _ _) as [r idx'] eqn:Eu. exists r, idx'. split; [done|].
  assert (idx_entries idx' = idx_entries idx1) as Ee.
  { unfold update_cache_tree in Eu. repeat case_match; injection Eu as <- <-; done. }
  intros k o. rewrite Ee. apply Hs1.
Qed.
(** [read_tree] does not read the tree into the index: the diff from the tree to the index is
    applied to the index itself, which removes what the index does not have and adds what it has.
    Whatever the tree, the paths and hashes of the index stay as they were (only the tree cache is
    that of the tree afterwards), when the index has the files of the worktree. *)
Theorem read_tree_keeps_index content W idx w oid O :
  tree_listing treeish oid O → index_ready W idx → index_unmodified content idx w →
  length O + length (index_tree_listing idx) < fuel →
  ∃ r idx', index_read_tree metadata write_blob treeish read_obj_tree fuel oid (mk_RepoState idx w)
            = (r, mk_RepoState idx' w) ∧ same_oids idx idx'.
Proof. apply read_tree_keeps. Qed.
End status.

(** ** Example *)

Definition disk_metadata (w : Worktree) (p : BitPath) : Metadata :=
  let mode := match w !! p with Some (File EXEC _) => 493%Z | _ => 420%Z end in
  mk_Metadata (match w !! p with Some (File LINK _) => true | _ => false end) false mode (3, 0)%Z (3, 0)%Z 0 7 0 0 1.

Definition disk_entry (w : Worktree) (p : BitPath) : BitIndexEntry := index_entry_new (disk_metadata w p) p.

(** The index of what [sample_state] has in its worktree. *)
Definition sample_disk : Worktree := rs_worktree sample_state.
Definition sample_disk_content (p : BitPath) : Oid :=
  match read_blob_from_worktree sample_disk p with Ok d => toy_hash d | _ => UNKNOWN end.
Definition sample_disk_paths : list BitPath := [bs "a"; bs "c"; bs "d/b"].
Definition sample_staged : BitIndexInner :=
  mk_BitIndexInner ((λ p, ((p, NONE), with_oid (disk_entry sample_disk p) (sample_disk_content p))) <$> sample_disk_paths)
    None None.
Definition sample_unstaged : list BitIndexEntry := disk_entry sample_disk <$> sample_disk_paths.

Definition sample_read_tree (oid : Oid) : BitResult TreeObj := kids ← merge_treeish oid; Ok (mk_TreeObj oid kids).

Lemma sample_tree_entries oid kids : tree_entries sample_read_tree oid = Ok kids → merge_treeish oid = Ok kids.
Proof.
  unfold tree_entries, sample_read_tree. destruct (merge_treeish oid) as [k|e|]; cbn; [|done..]. by intros [= <-].
Qed.

Lemma sample_index_ready : index_ready sample_read_tree sample_disk_paths sample_staged.
Proof.
  split.
  - by apply sample_prefix_free.
  - split; [split|].
    + unfold bt_sorted. vm_compute. repeat constructor.
    + repeat (apply Forall_cons; split; [split; [reflexivity|split; [split_and!; vm_decide|vm_decide]]|]).
      apply Forall_nil. done.
    + intros kv (p & -> & Hp)%list_elem_of_fmap. done.
  - vm_decide.
  - done.
  - unfold sorted_paths. vm_compute. repeat constructor.
Qed.

Lemma sample_worktree_at :
  worktree_at disk_metadata (λ d, Ok (toy_hash d)) toy_hash (Some (mk_Timespec 5 0)) no_ignore tt sample_jwalk
    sample_disk_content sample_staged sample_disk sample_unstaged.
Proof.
  split.
  - vm_compute. reflexivity.
  - split; [vm_compute; repeat constructor|repeat constructor].
  - repeat (apply Forall_cons; split; [split_and!; try reflexivity; try vm_decide; try discriminate|]).
    by apply Forall_nil.
  - assert (forallb (λ x, forallb (λ y, bool_decide (ie_path x = ie_path y → sample_disk_content (ie_path y) = ie_oid x))
      sample_unstaged) (std_iter sample_staged) = true) as H by (vm_compute; reflexivity).
    intros x y Hx Hy Ep. rewrite forallb_forall in H. specialize (H x (proj1 (list_elem_of_In _ _) Hx)).
    rewrite forallb_forall in H. specialize (H y (proj1 (list_elem_of_In _ _) Hy)).
    apply bool_decide_eq_true in H. split; [intros _ _; by apply H|]. split.
    + assert (Forall (λ y, is_known (ie_oid y) = false) sample_unstaged) as Hu by vm_decide.
      intros Hk. by rewrite (proj1 (Forall_forall _ _) Hu y Hy) in Hk.
    + assert (Forall (λ x, is_known (ie_oid x) = true) (std_iter sample_staged)) as Hu by vm_decide.
      by apply (proj1 (Forall_forall _ _) Hu).
Qed.

Lemma sample_unmodified : index_unmodified (λ d, Ok (toy_hash d)) toy_hash sample_disk_content sample_staged sample_disk.
Proof.
  repeat (apply Forall_cons; split; [split; [split_and!; try reflexivity; try vm_decide|vm_decide]|]).
  by apply Forall_nil.
Qed.

#[local] Abbreviation sample_head := (read_head (bs "/git") (λ _, Ok tt)).
#[local] Abbreviation sample_head_tree tree := (head_tree (λ _, Ok tree) (bs "/git") (λ _, Ok tt) 20).
#[local] Abbreviation sample_initial := (try_fully_resolve_ref (bs "/git") (λ _, Ok tt) 20 (Symbolic sym_master)).

(** Reading the references of [sample_repo], one read after the other. *)
Lemma sample_tree_refs tree :
  ∃ fs1 fs2 fs3, sample_head sample_repo = (Ok (Symbolic sym_master), fs1)
    ∧ sample_head_tree tree fs1 = (Ok tree, fs2) ∧ sample_initial fs2 = (Ok (Some EMPTY_TREE), fs3).
Proof.
  assert (fst (sample_head sample_repo) = Ok (Symbolic sym_master)
    ∧ fst (sample_head_tree tree (snd (sample_head sample_repo))) = Ok tree
    ∧ fst (sample_initial (snd (sample_head_tree tree (snd (sample_head sample_repo))))) = Ok (Some EMPTY_TREE))
    as (E1 & E2 & E3) by (split_and!; vm_compute; reflexivity).
  revert E1 E2 E3. destruct (sample_head sample_repo) as [r1 fs1]. cbn [fst snd].
  destruct (sample_head_tree tree fs1) as [r2 fs2] eqn:E2. cbn [fst snd].
  destruct (sample_initial fs2) as [r3 fs3] eqn:E3. cbn [fst snd]. intros -> -> ->. by exists fs1, fs2, fs3.
Qed.

(** [HEAD]'s tree has [a] with other contents and [e/f]; [c] and [d/b] have been added. *)
Lemma status_correct_witness :
  ∃ st s', status disk_metadata (λ d, Ok (toy_hash d)) toy_hash (Some (mk_Timespec 5 0)) no_ignore tt sample_jwalk
      merge_treeish (λ _, Ok (sample_oid x04)) (bs "/git") (λ _, Ok tt) 20 MATCH_ALL
      (mk_RepoState sample_staged sample_disk, sample_repo) = (Ok st, s')
    ∧ bst_initial st = false ∧ ie_path <$> ws_new (bst_staged st) = [bs "c"; bs "d/b"]
    ∧ (λ xy, ie_path xy.1) <$> ws_modified (bst_staged st) = [bs "a"]
    ∧ ie_path <$> ws_deleted (bst_staged st) = [bs "e/f"] ∧ status_is_empty (bst_unstaged st) = true.
Proof.
  pose proof merge_listings as Hls. inversion Hls as [|? ? ? ? _ Hls1]. inversion Hls1 as [|? ? ? ? HO Hls2].
  inversion Hls2 as [|? ? ? ? HN _].
  destruct (sample_tree_refs (sample_oid x04)) as (fs1 & fs2 & fs3 & E1 & E2 & E3).
  destruct (status_correct disk_metadata (λ d, Ok (toy_hash d)) toy_hash (Some (mk_Timespec 5 0)) no_ignore tt sample_jwalk
    merge_treeish sample_read_tree (λ _, Ok (sample_oid x04)) (bs "/git") (λ _, Ok tt) 20 merge_plain sample_tree_entries
    sample_disk_content MATCH_ALL sample_disk_paths _ _ _ _ _ _ _ _ _ _ _ E1 E2 E3 HN sample_index_ready sample_worktree_at)
    as (idx' & E & _); [vm_compute; lia|vm_compute; lia|].
  eexists _, _. split; [exact E|]. split_and!; vm_compute; reflexivity.
Defined.

(** With [HEAD] on the commit of the tree that is checked out the status is empty, which says that [a] has
    the content of the tree. *)
Lemma clean_status_sound_witness :
  ∃ st s', status disk_metadata (λ d, Ok (toy_hash d)) toy_hash (Some (mk_Timespec 5 0)) no_ignore tt sample_jwalk
      merge_treeish (λ _, Ok (sample_oid x03)) (bs "/git") (λ _, Ok tt) 20 MATCH_ALL
      (mk_RepoState sample_staged sample_disk, sample_repo) = (Ok st, s')
    ∧ bit_status_is_empty st = true
    ∧ lists_file sample_listing2 (bs "a") (sample_oid x1a) ∧ sample_disk_content (bs "a") = sample_oid x1a.
Proof.
  pose proof merge_listings as Hls. inversion Hls as [|? ? ? ? _ Hls1]. inversion Hls1 as [|? ? ? ? HO Hls2].
  destruct (sample_tree_refs (sample_oid x03)) as (fs1 & fs2 & fs3 & E1 & E2 & E3).
  destruct (clean_status_sound disk_metadata (λ d, Ok (toy_hash d)) toy_hash (Some (mk_Timespec 5 0)) no_ignore tt sample_jwalk
    merge_treeish sample_read_tree (λ _, Ok (sample_oid x03)) (bs "/git") (λ _, Ok tt) 20 merge_plain sample_tree_entries
    sample_disk_content sample_disk_paths _ _ _ _ _ _ _ _ _ _ _ E1 E2 E3 HO sample_index_ready sample_worktree_at)
    as (st & s' & E & Hst & Hun & _ & He); [vm_compute; lia|vm_compute; lia|].
  assert (bit_status_is_empty st = true) as Hempty.
  { match type of E with ?x = _ => assert (bit_status_is_empty <$> fst x = Ok true) as Ec by (vm_compute; reflexivity) end.
    rewrite E in Ec. by injection Ec. }
  exists st, s'. split; [exact E|]. split; [exact Hempty|].
  rewrite He in Hempty. apply andb_true_iff in Hempty as [Hs0 Hu0].
  assert (lists_file (std_iter sample_staged) (bs "a") (sample_oid x1a)) as Hs.
  { eexists. split; [by left|]. split_and!; vm_decide. }
  split; [by apply (proj1 Hst Hs0)|]. by apply (Hun Hu0) in Hs as [? _].
Defined.

(** A mixed reset to a tree with other files: the index keeps [a], [c] and [d/b]. *)
Lemma read_tree_keeps_index_witness :
  ∃ r s', index_read_tree disk_metadata (λ d, Ok (toy_hash d)) merge_treeish sample_read_tree 20 (sample_oid x04)
      (mk_RepoState sample_staged sample_disk) = (r, s')
    ∧ ∀ o, (∃ e, ((bs "c", NONE), e) ∈ idx_entries (rs_index s') ∧ ie_oid e = o)
           ↔ (∃ e, ((bs "c", NONE), e) ∈ idx_entries sample_staged ∧ ie_oid e = o).
Proof.
  pose proof merge_listings as Hls. inversion Hls as [|? ? ? ? _ Hls1]. inversion Hls1 as [|? ? ? ? HO Hls2].
  inversion Hls2 as [|? ? ? ? HN _].
  destruct (read_tree_keeps_index disk_metadata (λ d, Ok (toy_hash d)) toy_hash
    merge_treeish sample_read_tree 20 merge_plain sample_tree_entries
    sample_disk_content sample_disk_paths sample_staged sample_disk (sample_oid x04) theirs_listing HN sample_index_ready
    sample_unmodified) as (r & idx' & E & Hs); [vm_compute; lia|].
  eexists r, _. split; [exact E|]. intros o. apply (Hs (bs "c", NONE) o).
Defined.

(** The same, with other contents in [d/b]. *)
Definition changed_disk : Worktree := <[bs "d/b" := File EXEC [x1b]]> sample_disk.
Definition changed_staged : BitIndexInner :=
  mk_BitIndexInner (bt_insert key_cmp (bs "d/b", NONE) (with_oid (disk_entry changed_disk (bs "d/b")) (sample_oid x1b))
    (idx_entries sample_staged)) None None.
(** Only the tree [sample_root2] can be written. *)
Definition sample_write_tree (t : MutableTree) : BitResult Oid :=
  if bool_decide (mt_entries t = sample_root2) then Ok (sample_oid x03) else bail.

(** After it the tree cache of the index is that of the tree, and [write_tree] takes the directories
    from there: it answers with a tree in which [d/b] is not what the index says. *)
Theorem read_tree_then_write_tree :
  let s := snd (index_read_tree disk_metadata (λ d, Ok (toy_hash d)) merge_treeish sample_read_tree 20 (sample_oid x03)
                  (mk_RepoState changed_staged changed_disk)) in
  ie_oid <$> find_entry (rs_index s) (bs "d/b", NONE) = Some (sample_oid x1b)
  ∧ fst (write_tree sample_read_tree sample_write_tree 20 20 (rs_index s)) = Ok (sample_oid x03)
  ∧ ie_oid <$> find_blob (bs "d/b") sample_listing2 = Some (sample_oid x0b).
Proof. vm_compute. done. Qed.
