(* ===== verification/Rev.v ===== *)
(** * Rev

    [libbit/src/rev.rs]: revision specifications, their parser, how they are printed and how they
    are resolved to a reference. *)

From Stdlib Require Import ZArith Lia.
From Stdlib Require Import Strings.Byte.
From stdpp Require Import base tactics option list countable strings gmap.
From S2P Require Import Prelude RustStd Data State Io Hash Path Signature Commit CommitGraph Lockfile Refs RefDb.

#[local] Open Scope Z_scope.

Inductive ParsedRevspec :=
| PRef (r : BitRef)
| PPartial (prefix : PartialOid)
| PParent (rev : ParsedRevspec) (n : Z)
| PAncestor (rev : ParsedRevspec) (n : Z)
| PRange (from to : ParsedRevspec)
| PReflog (rev : ParsedRevspec) (n : Z).

Section rev.
Context `{Hex}.

(** [Display for ParsedRevspec]. *)
Fixpoint revspec_display (rev : ParsedRevspec) : bytes :=
  match rev with
  | PRef r => bitref_display r
  | PPartial prefix => partial_oid_display prefix
  | PParent rev n =>
      if n =? 1 then revspec_display rev ++ bs "^" else revspec_display rev ++ bs "^" ++ print_dec n
  | PAncestor rev n =>
      if n =? 1 then revspec_display rev ++ bs "^" else revspec_display rev ++ bs "~" ++ print_dec n
  | PReflog rev n => revspec_display rev ++ bs "@{" ++ print_dec n ++ bs "}"
  | PRange from to => revspec_display from ++ bs ".." ++ revspec_display to
  end.

(** ** RevspecParser

    The state is what is left of the source. *)

(** The index is that of a character of the (valid) text or its end. *)
Definition is_char_boundary (n : nat) (s : bytes) : bool :=
  match s !! n with
  | Some b => negb (Z.land (u8 b) 0xC0 =? 0x80)
  | None => (n =? length s)%nat
  end.

(** [&s[..n]]. *)
Definition str_to (n : nat) (s : bytes) : BitResult bytes :=
  _ ← assert_that (is_char_boundary n s);
  Ok (take n s).

Definition REV_SEPS : list byte := bs "@~^{}".

(** Up to the first separator, and the rest. *)
Fixpoint span_seps (s : bytes) : bytes * bytes :=
  match s with
  | [] => ([], [])
  | c :: s' =>
      if bool_decide (c ∈ REV_SEPS) then ([], s)
      else let '(a, b) := span_seps s' in (c :: a, b)
  end.

Definition rev_next : st bytes bytes := λ src,
  let '(s, rest) := span_seps src in (Ok s, rest).

(** [BitRepo::expand_prefix]. *)
Variable expand_prefix : PartialOid → BitResult Oid.

Definition parse_base : st bytes ParsedRevspec :=
  src ← st_get;
  c ← st_lift (str_to 1 src);
  s ← (if bool_decide (c = bs "@") then _ ← st_put (drop 1 src); mret (bs "@") else rev_next);
  reference ← st_lift (match prefix ← partial_oid_from_str s; expand_prefix prefix with
                       | Ok oid => Ok (Direct oid)
                       | Err _ => bitref_from_str s
                       | Panic => Panic
                       end);
  mret (PRef reference).

Definition rev_expect (s : bytes) : st bytes unit :=
  src ← st_get;
  start ← st_lift (str_to (length s) src);
  if bool_decide (start = s) then st_put (drop (length s) src) else st_lift bail.

(** [usize::from_str]. *)
Definition expect_num : st bytes Z :=
  s ← rev_next;
  st_lift (ok_or Anyhow (parse_unsigned 10 u64_max s)).

(** [ok()]: what [next] has taken stays taken. *)
Definition accept_num : st bytes (option Z) :=
  st_match expect_num (λ n, mret (Some n)) (λ _, mret None).

(** The loop of [parse]. *)
Fixpoint parse_suffixes (fuel : nat) (rev : ParsedRevspec) : st bytes ParsedRevspec :=
  match fuel with
  | O => st_lift Panic
  | S fuel =>
      src ← st_get;
      if bool_decide (src = []) then mret rev
      else
        c ← st_lift (str_to 1 src);
        _ ← st_put (drop 1 src);
        if bool_decide (c = bs "^") then
          n ← accept_num; parse_suffixes fuel (PParent rev (default 1 n))
        else if bool_decide (c = bs "~") then
          n ← accept_num; parse_suffixes fuel (PAncestor rev (default 1 n))
        else if bool_decide (c = bs "@") then
          _ ← rev_expect (bs "{");
          n ← expect_num;
          _ ← rev_expect (bs "}");
          parse_suffixes fuel (PReflog rev n)
        else st_lift bail
  end.

(** [RevspecParser::parse]: every round of the loop takes a byte. *)
Definition rev_parse (src : bytes) : BitResult ParsedRevspec :=
  fst ((rev ← parse_base;
        src ← st_get;
        parse_suffixes (S (length src)) rev : st bytes ParsedRevspec) src).

(** ** Resolving *)

Variable bitdir : BitPath.
Variable ensure_obj_is_commit : Oid → BitResult unit.
Variable read_obj_commit : Oid → BitResult Commit.
(** Bounds the chain of symbolic references. *)
Variable fuel : nat.

Definition get_nth_parent (reference : BitRef) (n : Z) : st Fs BitRef :=
  oid ← fully_resolve bitdir ensure_obj_is_commit fuel reference;
  if n =? 0 then mret (Direct oid)
  else
    commit ← st_lift (read_obj_commit oid);
    let parents := c_parents (commit_inner commit) in
    if (length parents =? 0)%nat then st_lift bail
    else match parents !! Z.to_nat (n - 1) with
         | Some parent => mret (Direct parent)
         | None => st_lift bail
         end.

(** [(0..n).try_fold]. *)
Fixpoint first_ancestor (n : nat) (r : BitRef) : st Fs BitRef :=
  match n with
  | O => mret r
  | S n => r ← get_nth_parent r 1; first_ancestor n r
  end.

(** What [reflog[n]] gives, and the guard is dropped. *)
Definition reflog_entry (sym : SymbolicRef) (n : Z) : st Fs BitRef :=
  l ← read_reflog bitdir sym;
  let r := log ← filelock_deref l; reflog_get log (Z.to_nat n) in
  _ ← filelock_drop l;
  entry ← st_lift r;
  match entry with
  | Some entry => mret (Direct (new_oid entry))
  | None => st_lift bail
  end.

Fixpoint resolve_rev_internal (rev : ParsedRevspec) : st Fs BitRef :=
  match rev with
  | PRef r =>
      if bool_decide (r = Symbolic SYM_HEAD) then read_head bitdir ensure_obj_is_commit
      else refdb_validate bitdir ensure_obj_is_commit r
  | PPartial prefix => oid ← st_lift (expand_prefix prefix); mret (Direct oid)
  | PParent inner n => r ← resolve_rev_internal inner; get_nth_parent r n
  | PAncestor rev n => r ← resolve_rev_internal rev; first_ancestor (Z.to_nat n) r
  | PRange _ _ => st_lift Panic
  | PReflog inner n =>
      r ← resolve_rev_internal inner;
      match r with
      | Direct _ => st_lift bail
      | Symbolic sym => reflog_entry sym n
      end
  end.

(** [BitRepo::resolve_rev] and [BitRepo::fully_resolve_rev]. *)
Definition resolve_rev (src : bytes) : st Fs BitRef :=
  rev ← st_lift (rev_parse src);
  resolve_rev_internal rev.

Definition fully_resolve_rev (src : bytes) : st Fs Oid :=
  reference ← resolve_rev src;
  fully_resolve bitdir ensure_obj_is_commit fuel reference.

Definition try_fully_resolve_rev (src : bytes) : st Fs (option Oid) :=
  reference ← resolve_rev src;
  try_fully_resolve_ref bitdir ensure_obj_is_commit fuel reference.

Definition resolve_rev_to_branch (src : bytes) : st Fs SymbolicRef :=
  r ← resolve_rev src;
  match r with Direct _ => st_lift bail | Symbolic sym => mret sym end.
End rev.

(** ** The parser reads what is printed *)

Section rev_theorems.
Context `{Hex}.
Context (expand_prefix : PartialOid → BitResult Oid).

Abbreviation rev_parse := (rev_parse expand_prefix).
Abbreviation parse_base := (parse_base expand_prefix).

(** The reference is read back where a base is expected. *)
Definition base_ok (r : BitRef) : Prop :=
  match r with
  | Direct oid => oid_wf oid
  | Symbolic sym =>
      sym = symref_new (sym_path sym) ∧ (sym_path sym ≠ [])
      ∧ Forall (λ c, c ∉ REV_SEPS) (sym_path sym) ∧ is_char_boundary 1 (sym_path sym) = true
      ∧ no_trailing_ws (sym_path sym) ∧ starts_with SYMBOLIC_REF_PREFIX (sym_path sym) = false
      ∧ (∃ e, oid_from_str (sym_path sym) = Err e)
      ∧ ∃ e, (prefix ← partial_oid_from_str (sym_path sym); expand_prefix prefix) = Err e
  end.

(** What the parser can give. *)
Fixpoint rev_wf (rev : ParsedRevspec) : Prop :=
  match rev with
  | PRef r => base_ok r
  | PParent rev n | PAncestor rev n | PReflog rev n => rev_wf rev ∧ 0 ≤ n ≤ u64_max
  | PPartial _ | PRange _ _ => False
  end.

(** The first ancestor is printed like the first parent. *)
Fixpoint rev_canon (rev : ParsedRevspec) : ParsedRevspec :=
  match rev with
  | PAncestor rev n => if n =? 1 then PParent (rev_canon rev) 1 else PAncestor (rev_canon rev) n
  | PParent rev n => PParent (rev_canon rev) n
  | PReflog rev n => PReflog (rev_canon rev) n
  | _ => rev
  end.

(** The reference that a specification starts from, and the number of its suffixes. *)
Fixpoint rev_base (rev : ParsedRevspec) : ParsedRevspec :=
  match rev with PParent rev _ | PAncestor rev _ | PReflog rev _ => rev_base rev | _ => rev end.
Fixpoint rev_depth (rev : ParsedRevspec) : nat :=
  match rev with PParent rev _ | PAncestor rev _ | PReflog rev _ => S (rev_depth rev) | _ => 0 end.

(** The text of the suffixes. *)
Fixpoint rev_suffix (rev : ParsedRevspec) : bytes :=
  match rev with
  | PParent rev n => rev_suffix rev ++ bs "^" ++ (if n =? 1 then [] else print_dec n)
  | PAncestor rev n => rev_suffix rev ++ if n =? 1 then bs "^" else bs "~" ++ print_dec n
  | PReflog rev n => rev_suffix rev ++ bs "@{" ++ print_dec n ++ bs "}"
  | _ => []
  end.

Definition at_sep (s : bytes) : Prop := match s with [] => True | c :: _ => c ∈ REV_SEPS end.

Lemma display_suffix rev : rev_wf rev → revspec_display rev = revspec_display (rev_base rev) ++ rev_suffix rev.
Proof.
  induction rev as [r|p|rev IH n|rev IH n|a IHa b IHb|rev IH n]; cbn [rev_wf revspec_display rev_base rev_suffix];
    try done; [by rewrite app_nil_r|..];
    intros [Hr _]; rewrite (IH Hr); destruct (n =? 1); by rewrite <- ?app_assoc, ?app_nil_r.
Qed.

Lemma span_seps_app s rest : Forall (λ c, c ∉ REV_SEPS) s → at_sep rest → span_seps (s ++ rest) = (s, rest).
Proof.
  intros Hs Hr. induction Hs as [|c s Hc Hs IH]; cbn [app span_seps].
  - destruct rest as [|c rest]; [done|]. cbn in *. by rewrite bool_decide_true.
  - by rewrite bool_decide_false, IH.
Qed.

Lemma sep_not_digit c : c ∈ REV_SEPS → ¬ is_digit c.
Proof.
  assert (Forall (λ c, ¬ is_digit c) REV_SEPS) as Hf.
  { repeat constructor; unfold is_digit; vm_compute; tauto. }
  rewrite Forall_forall in Hf. apply Hf.
Qed.

Lemma digits_no_seps n : 0 ≤ n → Forall (λ c, c ∉ REV_SEPS) (print_dec n).
Proof.
  intros Hn. apply Forall_forall. intros c Hc Hs. revert Hc. apply print_dec_no; [by apply sep_not_digit|].
  intros ->. assert (x2d ∉ REV_SEPS) as Hno by (unfold REV_SEPS; vm_decide). done.
Qed.

Lemma expect_num_ok n rest : 0 ≤ n ≤ u64_max → at_sep rest → expect_num (print_dec n ++ rest) = (Ok n, rest).
Proof.
  intros Hn Hr. unfold expect_num, rev_next. unfold mbind, st_bind.
  rewrite span_seps_app by (done || apply digits_no_seps; lia). unfold st_lift, print_dec.
  destruct (Z.ltb_spec n 0); [lia|]. by rewrite parse_print_unsigned by (unfold u64_max in *; lia).
Qed.

Lemma accept_num_ok n rest : 0 ≤ n ≤ u64_max → at_sep rest → accept_num (print_dec n ++ rest) = (Ok (Some n), rest).
Proof. intros Hn Hr. unfold accept_num, st_match. by rewrite expect_num_ok. Qed.

(** What is no number is taken all the same. *)
Lemma accept_num_junk junk rest :
  Forall (λ c, c ∉ REV_SEPS) junk → parse_unsigned 10 u64_max junk = None → at_sep rest →
  accept_num (junk ++ rest) = (Ok None, rest).
Proof.
  intros Hj Hp Hr. unfold accept_num, st_match, expect_num, rev_next. unfold mbind, st_bind.
  rewrite span_seps_app by done. by rewrite Hp.
Qed.

(** A character of the text is ASCII, or the text ends there. *)
Definition ascii_head (s : bytes) : Prop := match s with [] => True | c :: _ => u8 c < 128 end.

Lemma at_sep_ascii s : at_sep s → ascii_head s.
Proof.
  destruct s as [|c s]; [done|]. cbn. assert (Forall (λ c, u8 c < 128) REV_SEPS) as Hf by vm_decide.
  rewrite Forall_forall in Hf. apply Hf.
Qed.

Lemma ascii_not_continuation c : u8 c < 128 → negb (Z.land (u8 c) 0xC0 =? 0x80) = true.
Proof. intros Hc. destruct c; try (vm_compute in Hc; discriminate Hc); reflexivity. Qed.

Lemma str_to_1 c s : ascii_head s → str_to 1 (c :: s) = Ok [c].
Proof.
  intros Hs. unfold str_to, is_char_boundary. cbn. destruct s as [|d s]; [done|]. cbn in *.
  by rewrite ascii_not_continuation.
Qed.

Lemma digits_ascii n s : 0 ≤ n → ascii_head s → ascii_head (print_dec n ++ s).
Proof.
  intros Hn Hs. assert (Forall is_digit (print_dec n)) as Hd.
  { unfold print_dec. destruct (Z.ltb_spec n 0); [lia|]. apply print_radix_digits; lia. }
  destruct (print_dec n) as [|c l]; [done|]. cbn. inversion_clear Hd as [|?? Hc _].
  apply is_digit_ascii in Hc. unfold is_ascii in Hc. lia.
Qed.

(** One suffix. *)
Lemma parse_step fuel rev c s :
  ascii_head s →
  parse_suffixes (S fuel) rev (c :: s) =
    (if bool_decide ([c] = bs "^") then
       n ← accept_num; parse_suffixes fuel (PParent rev (default 1 n))
     else if bool_decide ([c] = bs "~") then
       n ← accept_num; parse_suffixes fuel (PAncestor rev (default 1 n))
     else if bool_decide ([c] = bs "@") then
       _ ← rev_expect (bs "{");
       n ← expect_num;
       _ ← rev_expect (bs "}");
       parse_suffixes fuel (PReflog rev n)
     else st_lift bail) s.
Proof.
  intros Ha. cbn [parse_suffixes]. rewrite st_get_bind, bool_decide_false by done.
  by rewrite str_to_1, st_lift_bind, st_put_bind by done.
Qed.

Lemma parse_parent fuel rev s rest n :
  ascii_head s → accept_num s = (Ok n, rest) →
  parse_suffixes (S fuel) rev (bs "^" ++ s) = parse_suffixes fuel (PParent rev (default 1 n)) rest.
Proof.
  intros Ha E. change (bs "^" ++ s) with (x5e :: s). rewrite parse_step by done.
  rewrite bool_decide_true by done. by rewrite (st_bind_ok _ _ _ _ _ E).
Qed.

Lemma parse_ancestor fuel rev s rest n :
  ascii_head s → accept_num s = (Ok n, rest) →
  parse_suffixes (S fuel) rev (bs "~" ++ s) = parse_suffixes fuel (PAncestor rev (default 1 n)) rest.
Proof.
  intros Ha E. change (bs "~" ++ s) with (x7e :: s). rewrite parse_step by done.
  rewrite bool_decide_false, bool_decide_true by done. by rewrite (st_bind_ok _ _ _ _ _ E).
Qed.

Lemma rev_expect_ok c s : ascii_head s → rev_expect [c] (c :: s) = (Ok tt, s).
Proof.
  intros Ha. unfold rev_expect. rewrite st_get_bind. cbn [length]. rewrite str_to_1, st_lift_bind by done.
  by rewrite bool_decide_true.
Qed.

Lemma parse_reflog fuel rev rest n :
  0 ≤ n ≤ u64_max → ascii_head rest →
  parse_suffixes (S fuel) rev (bs "@{" ++ print_dec n ++ bs "}" ++ rest) = parse_suffixes fuel (PReflog rev n) rest.
Proof.
  intros Hn Hr. change (bs "@{" ++ print_dec n ++ bs "}" ++ rest)
    with (x40 :: x7b :: (print_dec n ++ x7d :: rest)).
  assert (at_sep (x7d :: rest)) as Hs by (cbn; unfold REV_SEPS; vm_decide).
  assert (ascii_head (print_dec n ++ x7d :: rest)) as Ha by (apply digits_ascii; [lia|by apply at_sep_ascii]).
  rewrite parse_step by done. change (bs "{") with [x7b]. change (bs "}") with [x7d].
  rewrite (bool_decide_false ([x40] = bs "^")), (bool_decide_false ([x40] = bs "~")), (bool_decide_true ([x40] = bs "@")) by done.
  rewrite (st_bind_ok _ _ _ _ tt (rev_expect_ok x7b _ Ha)).
  rewrite (st_bind_ok _ _ _ _ n (expect_num_ok n _ Hn Hs)).
  by rewrite (st_bind_ok _ _ _ _ tt (rev_expect_ok x7d _ Hr)).
Qed.

Lemma accept_none rest : at_sep rest → accept_num rest = (Ok None, rest).
Proof. intros Hr. by apply (accept_num_junk [] rest). Qed.

Lemma suffix_at_sep rev rest : at_sep rest → at_sep (rev_suffix rev ++ rest).
Proof.
  intros Hr. assert (∀ c s, c ∈ REV_SEPS → at_sep (c :: s)) as Hc by done.
  assert (∀ s c t, at_sep s → c ∈ REV_SEPS → at_sep (s ++ c :: t)) as Happ by by intros [|? ?].
  revert rest Hr. induction rev as [r|p|rev IH n|rev IH n|a IHa b IHb|rev IH n]; intros rest Hr; cbn [rev_suffix];
    try done; rewrite <- app_assoc; apply IH; [| |by apply Hc; vm_decide].
  - apply Hc. vm_decide.
  - destruct (n =? 1); apply Hc; vm_decide.
Qed.

(** All suffixes. *)
Lemma parse_suffixes_ok rev : rev_wf rev → ∀ fuel rest, at_sep rest →
  parse_suffixes (rev_depth rev + fuel) (rev_base rev) (rev_suffix rev ++ rest)
  = parse_suffixes fuel (rev_canon rev) rest.
Proof.
  induction rev as [r|p|rev IH n|rev IH n|a IHa b IHb|rev IH n]; cbn [rev_wf rev_depth rev_base rev_suffix rev_canon];
    try done; intros [Hw Hn] fuel rest Hr; rewrite <- app_assoc.
  all: change (S (rev_depth rev + fuel)) with (S (rev_depth rev) + fuel)%nat;
       rewrite Nat.add_succ_comm, IH; [|done|].
  - rewrite <- app_assoc. destruct (Z.eqb_spec n 1) as [->|Hne]; cbn [app].
    + rewrite (parse_parent fuel _ rest rest None); [done|by apply at_sep_ascii|by apply accept_none].
    + rewrite (parse_parent fuel _ _ rest (Some n)); [done| |by apply accept_num_ok].
      apply digits_ascii; [lia|by apply at_sep_ascii].
  - by cbn; unfold REV_SEPS; vm_decide.
  - destruct (Z.eqb_spec n 1) as [->|Hne].
    + rewrite (parse_parent fuel _ rest rest None); [done|by apply at_sep_ascii|by apply accept_none].
    + rewrite <- app_assoc, (parse_ancestor fuel _ _ rest (Some n)); [done| |by apply accept_num_ok].
      apply digits_ascii; [lia|by apply at_sep_ascii].
  - destruct (n =? 1); cbn; unfold REV_SEPS; vm_decide.
  - rewrite <- !app_assoc. apply parse_reflog; [done|by apply at_sep_ascii].
  - by cbn; unfold REV_SEPS; vm_decide.
Qed.

Lemma digit_no_sep c : is_digit c → c ∉ REV_SEPS.
Proof. intros Hd Hs. by apply (sep_not_digit c). Qed.

Lemma parse_base_ok r rest :
  base_ok r → at_sep rest → parse_base (bitref_display r ++ rest) = (Ok (PRef r), rest).
Proof.
  intros Hr Hs. set (name := bitref_display r).
  assert (Forall (λ c, c ∉ REV_SEPS) name ∧ name ≠ [] ∧ is_char_boundary 1 name = true
    ∧ match prefix ← partial_oid_from_str name; expand_prefix prefix with
      | Ok oid => Ok (Direct oid) | Err _ => bitref_from_str name | Panic => Panic end = Ok r)
    as (Hn & Hne & Hb & Href).
  { destruct r as [oid|[path kind]]; cbn [base_ok bitref_display symref_display sym_path] in *.
    - pose proof (oid_display_digits oid) as Hd. pose proof (length_oid_display oid) as Hl. rewrite Hr in Hl.
      split_and!.
      + eapply Forall_impl; [exact Hd|]. by apply digit_no_sep.
      + unfold name. by destruct (oid_display oid).
      + unfold name, is_char_boundary. destruct (oid_display oid !! 1%nat) as [c|] eqn:E.
        * rewrite Forall_forall in Hd. apply list_elem_of_lookup_2, Hd, is_digit_ascii in E.
          apply ascii_not_continuation. unfold is_ascii in E. lia.
        * apply lookup_ge_None in E. rewrite Hl in E. lia.
      + unfold partial_oid_from_str, name. rewrite Hl. cbn.
        unfold bitref_from_str. pose proof (oid_from_str_display oid [] Hr (Forall_nil_2 _)) as E.
        rewrite app_nil_r in E. by rewrite E.
    - destruct Hr as (Hk & Hne & Hn & Hb & Hws & Hp & (e & Ho) & e' & Hpart).
      split_and!; [done..|]. unfold name. cbn [bitref_display symref_display sym_path]. rewrite Hpart.
      unfold bitref_from_str. rewrite Ho. unfold symref_from_str. rewrite Hp, trim_end_id by done.
      rewrite bool_decide_false; [by rewrite Hk|]. intros ->. inversion_clear Hn as [|?? Hat _].
      apply Hat. unfold REV_SEPS. vm_decide. }
  destruct name as [|c s]; [done|]. unfold parse_base, Rev.parse_base. rewrite st_get_bind. cbn [app].
  assert (str_to 1 (c :: s ++ rest) = Ok [c]) as ->.
  { unfold str_to, is_char_boundary in *. cbn in *. destruct s as [|d s]; cbn in *.
    - apply at_sep_ascii in Hs. destruct rest as [|d rest]; [done|]. cbn in *.
      by rewrite ascii_not_continuation.
    - by rewrite Hb. }
  rewrite st_lift_bind. rewrite bool_decide_false.
  2: { intros [= ->]. inversion_clear Hn as [|?? Hat _]. apply Hat. unfold REV_SEPS. vm_decide. }
  rewrite (st_bind_ok _ _ (c :: s ++ rest) rest (c :: s)).
  2: { unfold rev_next. change (c :: s ++ rest) with ((c :: s) ++ rest). by rewrite span_seps_app. }
  by rewrite Href, st_lift_bind.
Qed.

Lemma rev_depth_length rev : (rev_depth rev ≤ length (rev_suffix rev))%nat.
Proof.
  induction rev as [r|p|rev IH n|rev IH n|a IHa b IHb|rev IH n]; cbn [rev_depth rev_suffix length]; try lia;
    rewrite length_app; try destruct (n =? 1); rewrite ?length_app; change (length (bs "^")) with 1%nat;
    change (length (bs "~")) with 1%nat; change (length (bs "@{")) with 2%nat; lia.
Qed.

Lemma rev_wf_base rev : rev_wf rev → ∃ r, rev_base rev = PRef r ∧ base_ok r.
Proof. induction rev; cbn [rev_wf rev_base]; try done; [by eexists|intros [? _]; auto..]. Qed.

(** What is printed, up to its end or another separator. *)
Lemma rev_parse_display rev rest : rev_wf rev → at_sep rest →
  rev_parse (revspec_display rev ++ rest)
  = fst (parse_suffixes (S (length (rev_suffix rev ++ rest)) - rev_depth rev) (rev_canon rev) rest).
Proof.
  intros Hw Hr. destruct (rev_wf_base rev Hw) as (r & Eb & Hb). unfold rev_parse, Rev.rev_parse.
  rewrite display_suffix, Eb, <- app_assoc by done. cbn [revspec_display].
  rewrite (st_bind_ok _ _ _ _ _ (parse_base_ok r _ Hb (suffix_at_sep rev rest Hr))), st_get_bind.
  rewrite <- Eb, length_app. pose proof (rev_depth_length rev).
  rewrite <- (parse_suffixes_ok rev Hw (S (length (rev_suffix rev) + length rest) - rev_depth rev) rest Hr).
  do 2 f_equal. lia.
Qed.

Context (bitdir : BitPath) (ensure_obj_is_commit : Oid → BitResult unit).
Context (read_obj_commit : Oid → BitResult Commit) (fuel : nat).

Abbreviation resolve_rev_internal :=
  (resolve_rev_internal expand_prefix bitdir ensure_obj_is_commit read_obj_commit fuel).

Lemma st_bind_ext {S A B} (m m' : st S A) (f : A → st S B) s : (∀ s, m s = m' s) → (m ≫= f) s = (m' ≫= f) s.
Proof. intros E. unfold mbind, st_bind. by rewrite E. Qed.

Lemma first_ancestor_1 r fs :
  first_ancestor bitdir ensure_obj_is_commit read_obj_commit fuel 1 r fs
  = get_nth_parent bitdir ensure_obj_is_commit read_obj_commit fuel r 1 fs.
Proof. cbn [first_ancestor]. unfold mbind, st_bind. by destruct (get_nth_parent _ _ _ _ _ _ _) as [[] ?]. Qed.

(** C36: A revision specification that is printed is parsed back as itself, but for the first
    ancestor [~1], which is printed and read as the first parent [^]; and both resolve alike. *)
Theorem rev_round_trip rev :
  rev_wf rev →
  rev_parse (revspec_display rev) = Ok (rev_canon rev)
  ∧ ∀ fs, resolve_rev_internal (rev_canon rev) fs = resolve_rev_internal rev fs.
Proof.
  intros Hw. split.
  - rewrite <- (app_nil_r (revspec_display rev)), rev_parse_display, app_nil_r by done.
    pose proof (rev_depth_length rev).
    by replace (S (length (rev_suffix rev)) - rev_depth rev)%nat with (S (length (rev_suffix rev) - rev_depth rev)) by lia.
  - clear Hw. induction rev as [r|p|rev IH n|rev IH n|a IHa b IHb|rev IH n]; intros fs; cbn [rev_canon]; try done.
    + cbn [Rev.resolve_rev_internal]. by apply st_bind_ext.
    + destruct (Z.eqb_spec n 1) as [->|Hn]; cbn [Rev.resolve_rev_internal].
      * unfold mbind, st_bind. rewrite IH. destruct (resolve_rev_internal rev fs) as [[r| |] ?]; [|done..].
        by rewrite <- first_ancestor_1.
      * by apply st_bind_ext.
    + cbn [Rev.resolve_rev_internal]. by apply st_bind_ext.
Qed.

(** Anything but a number behind [^] is dropped without an error: [HEAD^anything] means
    [HEAD^], because the parser keeps what it took when reading the number failed. *)
Theorem rev_junk_dropped rev junk :
  rev_wf rev → Forall (λ c, c ∉ REV_SEPS) junk → ascii_head junk →
  parse_unsigned 10 u64_max junk = None →
  rev_parse (revspec_display rev ++ bs "^" ++ junk) = Ok (PParent (rev_canon rev) 1).
Proof.
  intros Hw Hj Ha Hp. assert (at_sep (bs "^" ++ junk)) as Hs by (cbn; unfold REV_SEPS; vm_decide).
  rewrite rev_parse_display by done. pose proof (rev_depth_length rev). rewrite length_app.
  assert (length (bs "^" ++ junk) = S (length junk)) as Hl by done.
  replace (S (length (rev_suffix rev) + length (bs "^" ++ junk)) - rev_depth rev)%nat
    with (S (S (length (rev_suffix rev) + length junk - rev_depth rev))) by lia.
  rewrite (parse_parent _ _ junk [] None); [done|done|].
  rewrite <- (app_nil_r junk). by apply accept_num_junk.
Qed.

(** *** Termination *)

Lemma span_seps_length s a b : span_seps s = (a, b) → (length b ≤ length s)%nat.
Proof.
  revert a b. induction s as [|c s IH]; intros a b; cbn [span_seps]; [by intros [= <- <-]|].
  case_bool_decide; [by intros [= <- <-]|]. destruct (span_seps s) as [a' b'] eqn:E.
  intros [= <- <-]. cbn. specialize (IH _ _ eq_refl). lia.
Qed.

(** The code does not grow the source. *)
Definition shrinks {A} (m : st bytes A) : Prop := ∀ s r s', m s = (r, s') → (length s' ≤ length s)%nat.

Lemma shrinks_next : shrinks rev_next.
Proof. intros s r s'. unfold rev_next. destruct (span_seps s) eqn:E. intros [= <- <-]. by eapply span_seps_length. Qed.

Lemma shrinks_num : shrinks expect_num.
Proof.
  intros s r s'. unfold expect_num, mbind, st_bind. destruct (rev_next s) as [[x| |] s1] eqn:E;
    intros [= <- <-]; by eapply shrinks_next.
Qed.

Lemma shrinks_accept : shrinks accept_num.
Proof.
  intros s r s'. unfold accept_num, st_match. destruct (expect_num s) as [[x| |] s1] eqn:E;
    intros [= <- <-]; by eapply shrinks_num.
Qed.

Lemma shrinks_expect t : shrinks (rev_expect t).
Proof.
  intros s r s'. unfold rev_expect. rewrite st_get_bind. unfold mbind at 1, st_bind at 1.
  destruct (st_lift (str_to (length t) s) s) as [[x| |] s1] eqn:E; unfold st_lift in E; injection E as E <-;
    [case_bool_decide; intros [= <- <-]; rewrite ?length_drop; lia|by intros [= <- <-]..].
Qed.

(** The loop does the same with any fuel that exceeds the length of the source. *)
Lemma parse_suffixes_fuel : ∀ f1 f2 rev s, (length s < f1)%nat → (length s < f2)%nat →
  parse_suffixes f1 rev s = parse_suffixes f2 rev s.
Proof.
  assert (∀ A (m : st bytes A) (g g' : A → st bytes ParsedRevspec) s n, shrinks m → (length s ≤ n)%nat →
    (∀ a s', (length s' ≤ n)%nat → g a s' = g' a s') → (m ≫= g) s = (m ≫= g') s) as Hext.
  { intros A m g g' s n Hm Hs Hg. unfold mbind, st_bind. destruct (m s) as [[a| |] s'] eqn:E; [|done..].
    apply Hg. specialize (Hm _ _ _ E). lia. }
  induction f1 as [|f1 IH]; intros [|f2] rev s H1 H2; try lia. cbn [parse_suffixes].
  rewrite !st_get_bind. case_bool_decide as Hs; [done|].
  destruct (str_to 1 s) as [c| |]; [|done..]. rewrite !st_lift_bind, !st_put_bind.
  destruct s as [|b s]; [done|]. cbn [drop length] in *.
  repeat case_bool_decide; [| | |done].
  - apply (Hext _ _ _ _ _ (length s) shrinks_accept); [done|]. intros a s' ?. apply IH; lia.
  - apply (Hext _ _ _ _ _ (length s) shrinks_accept); [done|]. intros a s' ?. apply IH; lia.
  - apply (Hext _ _ _ _ _ (length s) (shrinks_expect _)); [done|]. intros _ s1 ?.
    apply (Hext _ _ _ _ _ (length s) shrinks_num); [done|]. intros n s2 ?.
    apply (Hext _ _ _ _ _ (length s) (shrinks_expect _)); [done|]. intros _ s3 ?. apply IH; lia.
Qed.
End rev_theorems.

(** ** Examples *)

Definition no_expand (p : PartialOid) : BitResult Oid := bail_bit (ObjectNotFound (Partial p)).

(** A reflog suffix that is cut short, an empty specification and one that starts with a
    character beyond ASCII slice out of bounds and panic. *)
Lemma rev_parse_panics :
  rev_parse no_expand (bs "HEAD@") = Panic ∧ rev_parse no_expand [] = Panic
  ∧ rev_parse no_expand ([xc3; xa9] ++ bs "t") = Panic.
Proof. vm_compute. done. Qed.

Definition sample_rev : ParsedRevspec :=
  PReflog (PParent (PAncestor (PAncestor (PRef (Symbolic (symref_new (bs "main")))) 1) 3) 2) 10.

Lemma sample_rev_wf : rev_wf no_expand sample_rev.
Proof.
  split; [|by vm_compute]. split; [|by vm_compute]. split; [|by vm_compute]. split; [|by vm_compute].
  cbn [base_ok sym_path symref_new]. split; [done|]. split; [done|]. split; [unfold REV_SEPS; vm_decide|].
  split; [done|]. split; [vm_decide|]. split; [done|]. split; (eexists; vm_compute; reflexivity).
Qed.

Lemma rev_round_trip_witness :
  revspec_display sample_rev = bs "main^~3^2@{10}"
  ∧ rev_parse no_expand (bs "main^~3^2@{10}")
    = Ok (PReflog (PParent (PAncestor (PParent (PRef (Symbolic (symref_new (bs "main")))) 1) 3) 2) 10).
Proof.
  split; [vm_compute; reflexivity|].
  apply (rev_round_trip no_expand (bs "/r") (λ _, Ok tt) (λ _, bail) 5 sample_rev sample_rev_wf).
Defined.

Lemma rev_junk_dropped_witness :
  rev_parse no_expand (bs "main^~3^2@{10}^oops") = Ok (PParent (rev_canon sample_rev) 1).
Proof.
  apply (rev_junk_dropped no_expand sample_rev (bs "oops") sample_rev_wf);
    [unfold REV_SEPS; vm_decide|by vm_compute|vm_compute; reflexivity].
Defined.
