(* ===== verification/Odb.v ===== *)
(** * Odb

    [libbit/src/odb.rs], the object database: the backend of packs and the backend of loose
    objects behind one interface, searched in order; [libbit/src/cache.rs]; and the access of
    [libbit/src/repo.rs] to objects.  The crate flate2 is a parameter (the two functions
    below and the class [Flate2]), and so is the directory walk of the crate ignore. *)

From Stdlib Require Import ZArith Lia.
From Stdlib Require Import Strings.Byte.
From stdpp Require Import base tactics option list countable strings gmap relations.
From S2P Require Import Prelude RustStd Data State Io Hash Path Obj Tree Signature Commit TreeCache.
From S2P Require Import PackIndex PackLookup Pack PackPrefix Lockfile CommitGraph.

#[local] Open Scope Z_scope.

(** A result of [hash_and_serialize], the only method of a [&dyn WritableObject] that a
    backend calls. *)
Abbreviation dyn_object := (BitResult (Oid * bytes)).

(** [PackedObjDb::packs] and the file system. *)
Record Odb := mk_Odb { packs : gmap (list byte) Pack; odb_fs : Fs }.


Definition set_packs (db : Odb) (ps : gmap (list byte) Pack) : Odb := mk_Odb ps (odb_fs db).
Definition set_odb_fs (db : Odb) (fs : Fs) : Odb := mk_Odb (packs db) fs.

(** [any], which stops at the first [true]. *)
Fixpoint st_any {S} (l : list (st S bool)) : st S bool :=
  match l with
  | [] => mret false
  | m :: l => b ← m; if b : bool then mret true else st_any l
  end.

(** [m.unwrap_or_default()]. *)
Definition unwrap_or_false {S} (m : st S bool) : st S bool := st_match m mret (λ _, mret false).

Fixpoint st_collect {S A} (l : list (st S A)) : st S (list A) :=
  match l with
  | [] => mret []
  | m :: l => a ← m; l ← st_collect l; mret (a :: l)
  end.

(** [process!] in a loop over [l], and what comes behind the loop. *)
Fixpoint process {S A} (err : BitGenericError) (l : list (st S A)) : st S A :=
  match l with
  | [] => st_lift (Err err)
  | m :: l => st_match m mret (λ e, if err_is_fatal e then st_lift (Err e) else process err l)
  end.

(** ** The interface of a backend *)

Record BitObjDbBackend := mk_BitObjDbBackend {
  be_read_raw : BitId → st Odb BitRawObj;
  be_read_header : BitId → st Odb BitObjHeader;
  be_write : dyn_object → st Odb Oid;
  be_exists : BitId → st Odb bool;
  be_prefix_candidates : PartialOid → st Odb (list Oid);
  be_refresh : st Odb unit;
}.


(** The default methods, given [prefix_candidates]. *)
Definition expand_prefix (prefix_candidates : PartialOid → st Odb (list Oid)) (prefix : PartialOid)
  : st Odb Oid :=
  candidates ← prefix_candidates prefix;
  match candidates with
  | [] => st_lift (bail_bit (ObjectNotFound (Partial prefix)))
  | [oid] => mret oid
  | _ => st_lift (bail_bit (AmbiguousPrefix prefix candidates))
  end.

Definition expand_id (prefix_candidates : PartialOid → st Odb (list Oid)) (id : BitId) : st Odb Oid :=
  match id with
  | Full oid => mret oid
  | Partial p => expand_prefix prefix_candidates p
  end.

(** ** Outside the program *)

(** What reading through a [ZlibDecoder] gives until the stream ends or fails, and the
    writes of a [ZlibEncoder] to its file; what [DirIter] yields below a directory; the order
    in which a [HashMap] and [read_dir] list things. *)
Class OdbEnv := {
  zlib_read : bytes → bytes;
  zlib_encode : bytes → list bytes;
  dir_iter : Fs → BitPath → list (BitResult BitPath);
  hash_order : list (list byte) → list (list byte);
  dir_order : list (list byte) → list (list byte);
}.

Class OdbEnvLaws (OE : OdbEnv) := {
  zlib_read_encode : ∀ b, zlib_read (mjoin (zlib_encode b)) = b;
  hash_order_perm : ∀ l, hash_order l ≡ₚ l;
  dir_order_perm : ∀ l, dir_order l ≡ₚ l;
}.

(** ** BitLooseObjDb *)

Section odb.
Context `{Hex, Flate2, OdbEnv}.

(** [BitRepo::objects_dir]. *)
Variable objects_path : BitPath.

Definition obj_path (oid : Oid) : BitPath :=
  let s := oid_display oid in
  objects_path ++ bs "/" ++ take 2 s ++ bs "/" ++ drop 2 s.

Definition on_fs {A} (m : st Fs A) : st Odb A := st_zoom odb_fs set_odb_fs m.

(** A file is kept when its name starts with the prefix. *)
Definition loose_candidate (fs : Fs) (dir file_prefix : bytes) (entry : BitResult BitPath)
  : BitResult (option Oid) :=
  path ← entry;
  if negb (fs_is_file fs path) then Ok None
  else
    let filename := Path.file_name path in
    _ ← assert_that (utf8_valid filename);
    if negb (starts_with file_prefix filename) then Ok None
    else Some <$> oid_from_str (dir ++ filename).

Definition loose_prefix_candidates (prefix : PartialOid) : st Odb (list Oid) :=
  db ← st_get;
  let '(dir, file_prefix) := partial_split prefix in
  let full_dir := join objects_path dir in
  if negb (fs_exists (odb_fs db) full_dir) then mret []
  else
    l ← st_lift (collect (loose_candidate (odb_fs db) dir file_prefix) (dir_iter (odb_fs db) full_dir));
    mret (omap id l).

Definition locate_obj (id : BitId) : st Odb BitPath :=
  oid ← expand_id loose_prefix_candidates id;
  let path := obj_path oid in
  db ← st_get;
  if fs_exists (odb_fs db) path then mret path
  else st_lift (bail_bit (ObjectNotFound (Full oid))).

Definition read_stream (id : BitId) : st Odb bytes :=
  path ← locate_obj id;
  db ← st_get;
  st_lift (zlib_read <$> ok_or Anyhow (fs_read (odb_fs db) path)).

Definition loose_read_raw (id : BitId) : st Odb BitRawObj :=
  oid ← expand_id loose_prefix_candidates id;
  stream ← read_stream (Full oid);
  st_lift (raw_obj_from_stream oid stream).

Definition loose_read_header (id : BitId) : st Odb BitObjHeader :=
  stream ← read_stream id;
  st_lift (fst <$> read_obj_header stream).

Definition loose_write (obj : dyn_object) : st Odb Oid :=
  '(oid, bytes) ← st_lift obj;
  let path := obj_path oid in
  db ← st_get;
  _ ← (if fs_exists (odb_fs db) path then mret tt
       else on_fs (with_mut path true (lockfile_write_all (zlib_encode bytes))));
  mret oid.

Definition loose_exists (id : BitId) : st Odb bool :=
  st_match (locate_obj id)
    (λ _, mret true)
    (λ err, if err_is_not_found_err err then mret false else st_lift (Err err)).

Definition loose_backend : BitObjDbBackend :=
  mk_BitObjDbBackend loose_read_raw loose_read_header loose_write loose_exists
    loose_prefix_candidates (mret tt).

(** ** BitPackedObjDb *)

Definition PACK_EXT : bytes := bs "pack".
Definition PACK_IDX_EXT : bytes := bs "idx".
Definition BIT_PACK_OBJECTS_PATH : bytes := bs "pack".

(** Code on the pack of a path. *)
Definition on_pack {A} (m : st Pack A) (path : BitPath) : st Odb A := λ db,
  match packs db !! path with
  | Some p => let '(r, p) := m p in (r, set_packs db (<[path := p]> (packs db)))
  | None => (Panic, db)
  end.

(** The bodies of a loop over [self.packs.write().values_mut()]. *)
Definition for_packs {A} (m : st Pack A) (db : Odb) : list (st Odb A) :=
  on_pack m <$> hash_order (elements (dom (packs db))).

Definition packed_prefix_candidates (prefix : PartialOid) : st Odb (list Oid) :=
  db ← st_get;
  l ← st_collect (for_packs (prefix_matches prefix) db);
  mret (concat l).

Definition read_raw_pack_obj (oid : Oid) : st Odb BitPackObjRaw :=
  db ← st_get;
  process (AnyhowBit (ObjectNotFound (Full oid))) (for_packs (read_obj_raw oid) db).

Definition packed_read_raw (id : BitId) : st Odb BitRawObj :=
  oid ← expand_id packed_prefix_candidates id;
  raw ← read_raw_pack_obj oid;
  mret (raw_obj_from_raw_pack_obj oid raw).

Definition packed_read_header (id : BitId) : st Odb BitObjHeader :=
  oid ← expand_id packed_prefix_candidates id;
  db ← st_get;
  process (AnyhowBit (ObjectNotFound id)) (for_packs (pack_read_obj_header oid) db).

Definition packed_write (_ : dyn_object) : st Odb Oid := st_lift (bail_bit PackBackendWrite).

Definition packed_exists (id : BitId) : st Odb bool :=
  oid ← expand_id packed_prefix_candidates id;
  db ← st_get;
  st_any (unwrap_or_false <$> for_packs (Pack.obj_exists oid) db).

(** [Path::extension]. *)
Definition path_extension (p : BitPath) : option bytes :=
  name ← path_file_name p;
  i ← rfind_byte x2e name;
  if (i =? 0)%nat then None else Some (drop (S i) name).

(** [std::fs::read_dir]: the paths right below a directory. *)
Definition read_dir (fs : Fs) (dir : BitPath) : list (list byte) :=
  dir_order (filter (λ p, parent p = Some dir) (elements (dom (names fs)))).

(** The body of the loop of [refresh]. *)
Definition refresh_pack (pack_path : BitPath) : st Odb unit :=
  db ← st_get;
  if negb (bool_decide (path_extension pack_path = Some PACK_EXT))
     || bool_decide (is_Some (packs db !! pack_path))
  then mret tt
  else
    let idx := with_extension PACK_IDX_EXT pack_path in
    _ ← st_lift (ensure (fs_exists (odb_fs db) idx) Anyhow);
    pack ← st_lift (pack ← ok_or Anyhow (fs_read (odb_fs db) pack_path);
                    idx ← ok_or Anyhow (fs_read (odb_fs db) idx);
                    pack_new pack idx);
    st_put (set_packs db (<[pack_path := pack]> (packs db))).

Definition packed_refresh : st Odb unit :=
  db ← st_get;
  let pack_dir := join objects_path BIT_PACK_OBJECTS_PATH in
  match names (odb_fs db) !! pack_dir with
  | None => mret tt
  | Some (NFile _) => st_lift bail
  | Some NDir => st_for_each refresh_pack (read_dir (odb_fs db) pack_dir)
  end.

Definition packed_backend : BitObjDbBackend :=
  mk_BitObjDbBackend packed_read_raw packed_read_header packed_write packed_exists
    packed_prefix_candidates packed_refresh.

(** ** BitObjDb *)

Definition backends : list BitObjDbBackend := [packed_backend; loose_backend].

(** [backend_method!]: the last error is the one that is returned. *)
Fixpoint backend_method {A} (f : BitObjDbBackend → st Odb A) (last_err : BitGenericError)
  (l : list BitObjDbBackend) : st Odb A :=
  match l with
  | [] => st_lift (Err last_err)
  | b :: l => st_match (f b) mret (λ e, if err_is_fatal e then st_lift (Err e) else backend_method f e l)
  end.

Definition odb_read_header (id : BitId) : st Odb BitObjHeader :=
  backend_method (λ b, be_read_header b id) Anyhow backends.

Definition odb_read_raw (id : BitId) : st Odb BitRawObj :=
  backend_method (λ b, be_read_raw b id) Anyhow backends.

Definition odb_write (obj : dyn_object) : st Odb Oid :=
  backend_method (λ b, be_write b obj) Anyhow backends.

Definition odb_prefix_candidates (prefix : PartialOid) : st Odb (list Oid) :=
  l ← st_collect ((λ b, be_prefix_candidates b prefix) <$> backends);
  mret (concat l).

Definition odb_refresh : st Odb unit := st_for_each be_refresh backends.

Definition odb_exists (id : BitId) : st Odb bool :=
  st_any ((λ b, unwrap_or_false (be_exists b id)) <$> backends).

Definition odb_expand_prefix : PartialOid → st Odb Oid := expand_prefix odb_prefix_candidates.
Definition odb_expand_id : BitId → st Odb Oid := expand_id odb_prefix_candidates.

(** ** BitRepo

    The database, whether it has been opened, and [BitObjCache]. *)

Inductive BitObjKind :=
| KBlob (cached : BitObjCached) (blob : MutableBlob)
| KCommit (cached : BitObjCached) (commit : MutableCommit)
| KTree (cached : BitObjCached) (entries : list TreeEntry).

Record Repo := mk_Repo { repo_odb : Odb; odb_open : bool; obj_cache : gmap Oid BitObjKind }.

Definition set_repo_odb (r : Repo) (db : Odb) : Repo := mk_Repo db (odb_open r) (obj_cache r).

(** [BitRepo::odb] and a method on it.  A database that could not be opened is dropped. *)
Definition with_odb {A} (m : st Odb A) : st Repo A := λ r,
  if odb_open r then st_zoom repo_odb set_repo_odb m r
  else match packed_refresh (set_packs (repo_odb r) ∅) with
       | (Ok _, db) => st_zoom repo_odb set_repo_odb m (mk_Repo db true (obj_cache r))
       | (Err e, _) => (Err e, r)
       | (Panic, _) => (Panic, r)
       end.

Definition get_or_insert_with (oid : Oid) (f : st Repo BitObjKind) : st Repo BitObjKind :=
  r ← st_get;
  match obj_cache r !! oid with
  | Some obj => mret obj
  | None =>
      obj ← f;
      r ← st_get;
      _ ← st_put (mk_Repo (repo_odb r) (odb_open r) (<[oid := obj]> (obj_cache r)));
      mret obj
  end.

(** [BitObjKind::from_raw]; tags are not supported. *)
Definition obj_kind_from_raw (raw : BitRawObj) : BitResult BitObjKind :=
  let cached := ro_cached raw in
  match cached_obj_type cached with
  | TCommit => KCommit cached ∘ fst <$> deserialize_sized (cached_size cached) (ro_stream raw)
  | TTree => KTree cached ∘ fst <$> read_entries (cached_size cached) (ro_stream raw)
  | TBlob => KBlob cached ∘ fst <$> deserialize_sized (cached_size cached) (ro_stream raw)
  | TTag => Panic
  end.

Definition into_tree (k : BitObjKind) : BitResult TreeObj :=
  match k with KTree cached entries => Ok (mk_TreeObj (cached_oid cached) entries) | _ => Panic end.

Definition into_commit (k : BitObjKind) : BitResult CommitGraph.Commit :=
  match k with KCommit cached c => Ok (CommitGraph.mk_Commit (cached_oid cached) c) | _ => Panic end.

Definition into_blob (k : BitObjKind) : BitResult MutableBlob :=
  match k with KBlob _ b => Ok b | _ => Panic end.

Definition repo_write_obj (obj : dyn_object) : st Repo Oid := with_odb (odb_write obj).
Definition refresh_odb : st Repo unit := with_odb odb_refresh.
Definition repo_expand_id (id : BitId) : st Repo Oid := with_odb (odb_expand_id id).
Definition repo_expand_prefix (p : PartialOid) : st Repo Oid := with_odb (odb_expand_prefix p).
Definition obj_exists (id : BitId) : st Repo bool := with_odb (odb_exists id).
Definition repo_read_obj_header (id : BitId) : st Repo BitObjHeader := with_odb (odb_read_header id).

Definition read_obj (id : BitId) : st Repo BitObjKind :=
  oid ← repo_expand_id id;
  if bool_decide (oid = EMPTY_TREE) then mret (KTree (mk_BitObjCached EMPTY_TREE TTree 0) [])
  else get_or_insert_with oid
         (raw ← with_odb (odb_read_raw (Full oid)); st_lift (obj_kind_from_raw raw)).

Definition read_obj_tree (id : BitId) : st Repo TreeObj := k ← read_obj id; st_lift (into_tree k).

Definition read_obj_commit (id : BitId) : st Repo CommitGraph.Commit :=
  k ← read_obj id; st_lift (into_commit k).

Definition ensure_obj_exists (id : BitId) : st Repo unit :=
  e ← obj_exists id;
  st_lift (ensure e (AnyhowBit (ObjectNotFound id))).

Definition ensure_obj_is_commit (id : BitId) : st Repo unit :=
  oid ← repo_expand_id id;
  _ ← ensure_obj_exists (Full oid);
  h ← repo_read_obj_header (Full oid);
  st_lift (ensure (bool_decide (oh_obj_type h = TCommit))
             (AnyhowBit (ExpectedCommit oid (oh_obj_type h)))).
End odb.
