(* ===== verification/OdbStore.v ===== *)
(** * OdbStore

    What the object database of [libbit/src/odb.rs] promises about objects that are written to it:
    they are read back, nothing is lost, and every file hashes to its name. *)

From Stdlib Require Import ZArith Lia.
From Stdlib Require Import Strings.Byte.
From stdpp Require Import base tactics option list countable strings gmap relations.
From S2P Require Import Prelude RustStd Data State Io Hash Path Obj Tree Signature Commit TreeCache.
From S2P Require Import PackIndex PackLookup Pack PackPrefix Lockfile CommitGraph.
From S2P Require Import Odb.

#[local] Open Scope Z_scope.

(** ** Lemmas: loose objects *)

Section loose.
Context `{Hex} {F : Flate2} {OE : OdbEnv} {OL : OdbEnvLaws OE}.
Context (objects_path : BitPath) (sha1 : bytes → Oid).

Abbreviation obj_path := (obj_path objects_path).

Definition fanout_dir (oid : Oid) : BitPath := path_child objects_path (take 2 (oid_display oid)).

Lemma obj_path_child oid : obj_path oid = path_child (fanout_dir oid) (drop 2 (oid_display oid)).
Proof. unfold Odb.obj_path, fanout_dir, path_child. by rewrite <- app_assoc. Qed.

Lemma digits_comp_name s : Forall is_digit s → s ≠ [] → comp_name s ∧ x2e ∉ s.
Proof.
  intros Hs Hne. rewrite Forall_forall in Hs.
  assert (x2e ∉ s) as Hdot by (intros Hd%Hs; unfold is_digit in Hd; cbn in Hd; lia).
  split; [|done]. split_and!; [intros Hd%Hs; unfold is_digit in Hd; cbn in Hd; lia|done| |]; intros ->; apply Hdot; left.
Qed.

Lemma oid_parts oid : oid_wf oid →
  comp_name (take 2 (oid_display oid)) ∧ comp_name (drop 2 (oid_display oid)) ∧ x2e ∉ drop 2 (oid_display oid).
Proof.
  intros Hw. pose proof (oid_display_digits oid) as Hd. pose proof (length_oid_display oid) as Hl. rewrite Hw in Hl.
  split.
  - apply digits_comp_name; [by apply Forall_take|]. intros E%(f_equal length). rewrite length_take, Hl in E. done.
  - apply digits_comp_name; [by apply Forall_drop|]. intros E%(f_equal length). rewrite length_drop, Hl in E. done.
Qed.

Lemma obj_path_inj a b : oid_wf a → oid_wf b → obj_path a = obj_path b → a = b.
Proof.
  intros Ha Hb. rewrite !obj_path_child.
  pose proof (length_oid_display a) as La. pose proof (length_oid_display b) as Lb. rewrite Ha in La. rewrite Hb in Lb.
  intros [E2 E3]%child_inj; [|rewrite !length_drop; lia]. unfold fanout_dir in E2.
  apply child_inj in E2 as [_ E2]; [|rewrite !length_take; lia].
  apply oid_display_inj. by rewrite <- (take_drop 2 (oid_display a)), E2, E3, take_drop.
Qed.

Context (Ho : tidy_dir objects_path).

Lemma fanout_ne oid : fanout_dir oid ≠ [].
Proof. unfold fanout_dir, path_child. by destruct objects_path. Qed.

Lemma fanout_tidy oid : oid_wf oid → tidy_dir (fanout_dir oid).
Proof. intros Hw. apply child_tidy; [apply Ho|by apply oid_parts]. Qed.

Lemma obj_path_parent oid :
  oid_wf oid → parent (obj_path oid) = Some (fanout_dir oid) ∧ parent (fanout_dir oid) = Some objects_path.
Proof.
  intros Hw. pose proof (oid_parts oid Hw) as (H1 & H2 & _). split.
  - rewrite obj_path_child. by apply child_parent; [apply fanout_tidy|].
  - by apply child_parent.
Qed.

Lemma obj_lock_path oid : oid_wf oid → lock_path (obj_path oid) = obj_path oid ++ bs ".lock".
Proof.
  intros Hw. pose proof (oid_parts oid Hw) as (_ & H2 & H3). unfold lock_path. rewrite obj_path_child.
  rewrite child_with_extension by (done || apply fanout_ne). unfold path_child. by rewrite <- app_assoc.
Qed.

Lemma obj_path_no_lock a b : oid_wf a → oid_wf b → obj_path a ≠ lock_path (obj_path b).
Proof.
  intros Ha Hb E%(f_equal length). rewrite obj_lock_path, length_app in E by done. unfold Odb.obj_path in E.
  rewrite !length_app, !length_take, !length_drop, !length_oid_display, Ha, Hb in E. cbn in E. lia.
Qed.

(** The file system under an object database: every loose object hashes to its name. *)
Definition loose_inv (fs : Fs) : Prop :=
  fs_wf fs ∧ names fs !! objects_path = Some NDir
  ∧ ∀ oid z, oid_wf oid → fs_read fs (obj_path oid) = Some z → sha1 (zlib_read z) = oid.

(** What a write keeps: files are only added. *)
Definition grows (fs fs' : Fs) : Prop := ∀ q d, fs_read fs q = Some d → fs_read fs' q = Some d.

Lemma same_reads_inv fs fs' :
  loose_inv fs → fs_wf fs' → names fs' !! objects_path = Some NDir →
  (∀ q, fs_read fs' q = fs_read fs q) → loose_inv fs' ∧ grows fs fs'.
Proof.
  intros (_ & _ & Hc) Hw Hd Hr. split; [split_and!; [done|done|]|].
  - intros oid z Hoid. rewrite Hr. by apply Hc.
  - intros q d. by rewrite Hr.
Qed.

(** The directory of the object is created, unless a file is in its place. *)
Lemma create_dirs_obj fs oid :
  oid_wf oid → names fs !! objects_path = Some NDir →
  create_dirs (obj_path oid) fs
  = match names fs !! fanout_dir oid with
    | Some NDir => (Ok tt, fs)
    | Some (NFile _) => (Err Anyhow, fs)
    | None => (Ok tt, set_names fs (<[fanout_dir oid := NDir]> (names fs)))
    end.
Proof.
  intros Hw Hd. destruct (obj_path_parent oid Hw) as [Hp1 Hp2]. unfold create_dirs. rewrite Hp1.
  cbn [create_dir_all]. rewrite st_get_bind. unfold Path.is_empty. rewrite bool_decide_false by apply fanout_ne.
  destruct (names fs !! fanout_dir oid) as [[]|]; [done..|]. rewrite Hp2.
  destruct (length (fanout_dir oid)) as [|n] eqn:El; [by apply nil_length_inv, fanout_ne in El|].
  rewrite (st_bind_ok _ _ fs fs tt).
  - by rewrite st_get_bind.
  - cbn [create_dir_all]. rewrite st_get_bind. unfold Path.is_empty. rewrite bool_decide_false by apply Ho.
    by rewrite Hd.
Qed.

(** The object can be stored, or is there already. *)
Definition storable (fs : Fs) (oid : Oid) : Prop :=
  (∀ ino, names fs !! fanout_dir oid ≠ Some (NFile ino))
  ∧ names fs !! lock_path (obj_path oid) = None ∧ names fs !! obj_path oid ≠ Some NDir.

Lemma fanout_ne_obj oid oid' : oid_wf oid → oid_wf oid' → fanout_dir oid' ≠ obj_path oid.
Proof.
  intros Hw Hw' E%(f_equal length). unfold fanout_dir, path_child, Odb.obj_path in E.
  rewrite !length_app in E. cbn [length] in E. rewrite !length_take, length_drop, !length_oid_display, Hw, Hw' in E.
  cbn in E. lia.
Qed.

Lemma fanout_ne_lock oid oid' : oid_wf oid → oid_wf oid' → fanout_dir oid' ≠ lock_path (obj_path oid).
Proof.
  intros Hw Hw'. rewrite obj_lock_path by done. intros E%(f_equal length). unfold fanout_dir, path_child, Odb.obj_path in E.
  rewrite !length_app in E. cbn [length] in E. rewrite !length_take, length_drop, !length_oid_display, Hw, Hw' in E.
  cbn in E. lia.
Qed.

Lemma with_mut_no_dir {A} path flags (f : st (Fs * Lockfile) A) fs fs1 e :
  (negb (fs_exists fs path) || fs_is_file fs path) = true → create_dirs path fs = (Err e, fs1) →
  with_mut path flags f fs = (Err e, fs1).
Proof.
  intros Ha Hd. unfold with_mut. apply st_bind_err. unfold lockfile_open. rewrite st_get_bind, Ha.
  cbn [assert_that]. rewrite st_lift_bind. fold (create_dirs path). by apply st_bind_err.
Qed.

Lemma with_mut_held {A} path flags (f : st (Fs * Lockfile) A) fs fs1 :
  (negb (fs_exists fs path) || fs_is_file fs path) = true → create_dirs path fs = (Ok tt, fs1) →
  names fs1 !! lock_path path ≠ None → with_mut path flags f fs = (Err Anyhow, fs1).
Proof.
  intros Ha Hd Hl. unfold with_mut. apply st_bind_err. unfold lockfile_open. rewrite st_get_bind, Ha.
  cbn [assert_that]. rewrite st_lift_bind. fold (create_dirs path). rewrite (st_bind_ok _ _ _ _ _ Hd).
  apply st_bind_err. unfold create_new. rewrite st_get_bind. unfold fs_exists.
  by rewrite bool_decide_true by by apply not_eq_None_Some.
Qed.

(** The outcome of writing an object that is not there. *)
Lemma write_new fs oid chunks :
  fs_wf fs → names fs !! objects_path = Some NDir → oid_wf oid → names fs !! obj_path oid = None →
  ∃ r fs', with_mut (obj_path oid) true (lockfile_write_all chunks) fs = (r, fs')
    ∧ fs_wf fs' ∧ names fs' !! objects_path = Some NDir
    ∧ ((r = Ok tt ∧ fs_read fs' (obj_path oid) = Some (mjoin chunks)
        ∧ ∀ q, q ≠ obj_path oid → fs_read fs' q = fs_read fs q)
       ∨ (r = Err Anyhow ∧ (¬ storable fs oid) ∧ ∀ q, fs_read fs' q = fs_read fs q)).
Proof.
  intros Hwf Hd Hw Hno. pose proof (create_dirs_obj fs oid Hw Hd) as Hc.
  assert (negb (fs_exists fs (obj_path oid)) || fs_is_file fs (obj_path oid) = true) as Ha.
  { unfold fs_exists. by rewrite Hno, bool_decide_false by by intros []. }
  destruct (create_dirs (obj_path oid) fs) as [r fs1] eqn:Hc'. rename Hc into E. rename Hc' into Hc. symmetry in E.
  destruct (create_dirs_spec _ _ _ _ Hc) as (Hin & Hnx & Hp).
  assert (fs_wf fs1) as Hwf1.
  { intros p ino Hf. rewrite Hnx, Hin. by apply (Hwf p), Hp. }
  assert (∀ q, fs_read fs1 q = fs_read fs q) as Hr1.
  { intros q. rewrite !fs_read_eq. unfold ino_data. rewrite Hin.
    destruct (names fs1 !! q) as [[ino|]|] eqn:E1.
    - apply Hp in E1. by rewrite E1.
    - destruct (names fs !! q) as [[ino|]|] eqn:E2; [|done..]. apply Hp in E2. congruence.
    - destruct (names fs !! q) as [[ino|]|] eqn:E2; [|done..]. apply Hp in E2. congruence. }
  assert (names fs1 !! objects_path = Some NDir) as Hd1.
  { destruct (names fs !! fanout_dir oid) as [[]|]; simplify_eq; [done..|]. cbn [names set_names].
    destruct (decide (fanout_dir oid = objects_path)) as [->|]; [by rewrite lookup_insert_eq|by rewrite lookup_insert_ne]. }
  assert (r = Ok tt → ∀ q, q ≠ fanout_dir oid → names fs1 !! q = names fs !! q) as Hq.
  { intros -> q Hne. destruct (names fs !! fanout_dir oid) as [[]|]; simplify_eq; [done|]. cbn.
    by rewrite lookup_insert_ne. }
  assert (r = Ok tt ∨ (r = Err Anyhow ∧ ∃ ino, names fs !! fanout_dir oid = Some (NFile ino))) as [-> |[-> [ino Hf]]].
  { destruct (names fs !! fanout_dir oid) as [[]|]; simplify_eq; [right; eauto|by left..]. }
  2: { rewrite (with_mut_no_dir _ _ _ _ _ _ Ha Hc). eexists _, _. split; [done|]. split_and!; [done|done|].
       right. split_and!; [done| |done]. intros (Hs & _). by apply (Hs ino). }
  specialize (Hq eq_refl). pose proof (fanout_ne_lock oid oid Hw Hw). pose proof (fanout_ne_obj oid oid Hw Hw).
  destruct (names fs1 !! lock_path (obj_path oid)) as [n|] eqn:El.
  - rewrite (with_mut_held _ _ _ _ _ Ha Hc); [|by rewrite El]. eexists _, _. split; [done|]. split_and!; [done|done|].
    right. split_and!; [done| |done]. intros (_ & Hs & _). rewrite Hq in El by done. congruence.
  - assert (lockable (obj_path oid) fs fs1) as Hl.
    { split_and!; [done|done|done|done|by rewrite Hq, Hno|by apply obj_path_no_lock]. }
    destruct (with_mut_written _ true fs fs1 chunks Hl) as (fs' & Hm & Hn' & Hwf' & Hrd & Hro).
    rewrite Hm. eexists _, _. split; [done|]. split_and!; [done| |by left].
    rewrite Hn', lookup_insert_ne; [done|]. intros E'. rewrite <- E' in Hd.
    by rewrite Hno in Hd.
Qed.

Abbreviation loose_write := (loose_write objects_path).

(** A write adds the object, or fails, and changes nothing else. *)
Lemma loose_write_spec db oid bytes r db' :
  loose_inv (odb_fs db) → oid_wf oid → sha1 bytes = oid →
  loose_write (Ok (oid, bytes)) db = (r, db') →
  packs db' = packs db ∧ loose_inv (odb_fs db') ∧ grows (odb_fs db) (odb_fs db')
  ∧ (storable (odb_fs db) oid →
     r = Ok oid ∧ ∃ z, fs_read (odb_fs db') (obj_path oid) = Some z ∧ sha1 (zlib_read z) = oid).
Proof.
  intros (Hwf & Hd & Hc) Hw Hs. unfold Odb.loose_write. rewrite st_lift_bind, st_get_bind. unfold fs_exists.
  destruct (names (odb_fs db) !! obj_path oid) as [n|] eqn:En.
  - rewrite bool_decide_true by done. intros [= <- <-]. split; [done|]. split; [by split_and!|]. split; [by intros q|].
    intros (_ & _ & Hnd). rewrite En in Hnd. split; [done|]. destruct n as [ino|]; [|by destruct Hnd].
    destruct (Hwf _ _ En) as [_ [i Hi]]. exists (i_data i).
    assert (fs_read (odb_fs db) (obj_path oid) = Some (i_data i)) as Hr.
    { rewrite fs_read_eq, En. unfold ino_data. by rewrite Hi. }
    split; [done|]. by apply Hc.
  - rewrite bool_decide_false by by intros [].
    destruct (write_new (odb_fs db) oid (zlib_encode bytes) Hwf Hd Hw En) as (r' & fs' & Hm & Hwf' & Hd' & Hcase).
    unfold on_fs, st_zoom, mbind, st_bind. rewrite Hm. intros E.
    assert (db' = set_odb_fs db fs' ∧ r = (_ ← r'; Ok oid)) as [-> ->] by by destruct r'; injection E as <- <-.
    cbn [packs set_odb_fs odb_fs]. split; [done|].
    destruct Hcase as [(-> & Hr & Ho')|(-> & Hns & Ho')].
    + split; [split; [done|split; [done|]]|split].
      * intros oid' z Hw'. destruct (decide (oid' = oid)) as [->|Hne].
        { rewrite Hr, <- Hs. intros [= <-]. by rewrite zlib_read_encode. }
        rewrite Ho'; [by apply Hc|]. intros E'. by apply obj_path_inj in E'.
      * intros q d Hq. rewrite Ho'; [done|]. intros ->. by rewrite fs_read_eq, En in Hq.
      * intros _. split; [done|]. eexists. split; [done|]. by rewrite zlib_read_encode.
    + destruct (same_reads_inv (odb_fs db) fs') as [Hi' Hg']; [done..|]. split; [done|]. split; [done|]. by intros ?%Hns.
Qed.
End loose.

(** ** Lemmas: what leaves the files alone *)

Definition keeps_fs {A} (m : st Odb A) : Prop := ∀ db r db', m db = (r, db') → odb_fs db' = odb_fs db.

Lemma keeps_ret {A} (a : A) : keeps_fs (mret a).
Proof. by intros db r db' [= _ <-]. Qed.

Lemma keeps_lift {A} (r : BitResult A) : keeps_fs (st_lift r).
Proof. by intros db r' db' [= _ <-]. Qed.

Lemma keeps_bind {A B} (m : st Odb A) (f : A → st Odb B) :
  keeps_fs m → (∀ a, keeps_fs (f a)) → keeps_fs (m ≫= f).
Proof.
  intros Hm Hf db r db'. unfold mbind, st_bind. destruct (m db) as [[a| |] db1] eqn:E; intros Er.
  - apply Hf in Er. rewrite Er. by eapply Hm.
  - injection Er as <- <-. by eapply Hm.
  - injection Er as <- <-. by eapply Hm.
Qed.

Lemma keeps_get {A} (f : Odb → st Odb A) : (∀ db, keeps_fs (f db)) → keeps_fs (st_get ≫= f).
Proof. intros Hf db r db'. rewrite st_get_bind. by apply Hf. Qed.

Lemma keeps_match {A B} (m : st Odb A) (f : A → st Odb B) g :
  keeps_fs m → (∀ a, keeps_fs (f a)) → (∀ e, keeps_fs (g e)) → keeps_fs (st_match m f g).
Proof.
  intros Hm Hf Hg db r db'. unfold st_match. destruct (m db) as [[a|e|] db1] eqn:E; intros Er.
  - apply Hf in Er. rewrite Er. by eapply Hm.
  - apply Hg in Er. rewrite Er. by eapply Hm.
  - injection Er as <- <-. by eapply Hm.
Qed.

Lemma keeps_any l : Forall keeps_fs l → keeps_fs (st_any l).
Proof.
  induction 1 as [|m l Hm _ IH]; cbn; [apply keeps_ret|]. apply keeps_bind; [done|].
  intros [|]; [apply keeps_ret|done].
Qed.

Lemma keeps_collect {A} (l : list (st Odb A)) : Forall keeps_fs l → keeps_fs (st_collect l).
Proof.
  induction 1 as [|m l Hm _ IH]; cbn; [apply keeps_ret|]. apply keeps_bind; [done|]. intros a.
  apply keeps_bind; [done|]. intros. apply keeps_ret.
Qed.

Lemma keeps_process {A} e (l : list (st Odb A)) : Forall keeps_fs l → keeps_fs (process e l).
Proof.
  induction 1 as [|m l Hm _ IH]; cbn; [apply keeps_lift|]. apply keeps_match; [done|intros; apply keeps_ret|].
  intros e'. destruct (err_is_fatal e'); [apply keeps_lift|done].
Qed.

Lemma keeps_on_pack {A} (m : st Pack A) path : keeps_fs (on_pack m path).
Proof.
  intros db r db'. unfold on_pack. destruct (packs db !! path) as [p|]; [|by intros [= _ <-]].
  destruct (m p). by intros [= _ <-].
Qed.

Lemma keeps_for_each {A} (f : A → st Odb unit) l : (∀ a, keeps_fs (f a)) → keeps_fs (st_for_each f l).
Proof.
  intros Hf. induction l as [|a l IH]; cbn; [apply keeps_ret|]. apply keeps_bind; [done|]. done.
Qed.

Create HintDb keeps.
#[local] Hint Resolve keeps_ret keeps_lift keeps_bind keeps_get keeps_match keeps_on_pack keeps_for_each
  keeps_any keeps_collect keeps_process : keeps.

Section keeps.
Context `{Hex} {F : Flate2} {OE : OdbEnv} (objects_path : BitPath).

Lemma keeps_unwrap (m : st Odb bool) : keeps_fs m → keeps_fs (unwrap_or_false m).
Proof. intros. unfold unwrap_or_false. auto with keeps. Qed.

Lemma keeps_for_packs {A} (m : st Pack A) db : Forall keeps_fs (for_packs m db).
Proof. unfold for_packs. apply Forall_fmap, Forall_true. intros. apply keeps_on_pack. Qed.

Lemma keeps_expand_prefix c p : (∀ p, keeps_fs (c p)) → keeps_fs (expand_prefix c p).
Proof. intros Hc. unfold expand_prefix. apply keeps_bind; [done|]. intros [|? [|]]; auto with keeps. Qed.

Lemma keeps_expand_id c id : (∀ p, keeps_fs (c p)) → keeps_fs (expand_id c id).
Proof. intros Hc. destruct id; cbn; [apply keeps_ret|by apply keeps_expand_prefix]. Qed.

#[local] Hint Resolve keeps_unwrap keeps_for_packs keeps_expand_prefix keeps_expand_id : keeps.

Lemma keeps_loose_candidates p : keeps_fs (loose_prefix_candidates objects_path p).
Proof.
  unfold loose_prefix_candidates. apply keeps_get. intros db. destruct (partial_split p) as [dir fp].
  destruct (negb _); auto with keeps.
Qed.

Lemma keeps_packed_candidates p : keeps_fs (packed_prefix_candidates p).
Proof. unfold packed_prefix_candidates. auto with keeps. Qed.

#[local] Hint Resolve keeps_loose_candidates keeps_packed_candidates : keeps.

Lemma keeps_locate id : keeps_fs (locate_obj objects_path id).
Proof.
  unfold locate_obj. apply keeps_bind; [auto with keeps|]. intros oid. apply keeps_get. intros db.
  destruct (fs_exists _ _); auto with keeps.
Qed.

Lemma keeps_stream id : keeps_fs (read_stream objects_path id).
Proof. unfold read_stream. apply keeps_bind; [apply keeps_locate|]. auto with keeps. Qed.

#[local] Hint Resolve keeps_locate keeps_stream : keeps.

Lemma keeps_refresh_pack path : keeps_fs (refresh_pack path).
Proof.
  intros db r db'. unfold refresh_pack. rewrite st_get_bind. destruct (_ || _); [by intros [= _ <-]|].
  assert (∀ {A B} (x : BitResult A) (f : A → st Odb B) r db', (∀ a, f a db = (r, db') → odb_fs db' = odb_fs db) →
    (st_lift x ≫= f) db = (r, db') → odb_fs db' = odb_fs db) as Hlift.
  { intros A B [a|e|] f r0 db0 Hf; [by apply Hf|by intros [= _ <-]..]. }
  apply Hlift. intros _. apply Hlift. intros pack. by intros [= _ <-].
Qed.

Lemma keeps_packed_refresh : keeps_fs (packed_refresh objects_path).
Proof.
  unfold packed_refresh. apply keeps_get. intros db. destruct (names _ !! _) as [[]|]; auto using keeps_refresh_pack with keeps.
Qed.

(** The operations but [write]. *)
Lemma backends_keep : Forall (λ b, (∀ id, keeps_fs (be_read_raw b id)) ∧ (∀ id, keeps_fs (be_read_header b id))
  ∧ (∀ id, keeps_fs (be_exists b id)) ∧ (∀ p, keeps_fs (be_prefix_candidates b p)) ∧ keeps_fs (be_refresh b))
  (backends objects_path).
Proof.
  apply Forall_cons. split; [|apply Forall_singleton]; cbn; split_and!; auto with keeps.
  - intros id. unfold packed_read_raw, read_raw_pack_obj. auto 10 with keeps.
  - intros id. unfold packed_read_header. auto 10 with keeps.
  - intros id. unfold packed_exists. apply keeps_bind; [auto with keeps|]. intros oid. apply keeps_get. intros db.
    apply keeps_any, Forall_fmap. eapply Forall_impl; [apply keeps_for_packs|]. intros m. apply keeps_unwrap.
  - apply keeps_packed_refresh.
  - intros id. unfold loose_read_raw. auto 10 with keeps.
  - intros id. unfold loose_read_header. auto 10 with keeps.
  - intros id. unfold loose_exists. apply keeps_match; [auto with keeps..|]. intros e.
    destruct (err_is_not_found_err e); auto with keeps.
Qed.

Lemma keeps_backend_method {A} (f : BitObjDbBackend → st Odb A) e l :
  Forall (λ b, keeps_fs (f b)) l → keeps_fs (backend_method f e l).
Proof.
  intros Hl. revert e. induction Hl as [|b l Hb _ IH]; intros e; cbn; [apply keeps_lift|].
  apply keeps_match; [done|auto with keeps|]. intros e'. destruct (err_is_fatal e'); auto with keeps.
Qed.

Lemma odb_keeps :
  (∀ id, keeps_fs (odb_read_raw objects_path id)) ∧ (∀ id, keeps_fs (odb_read_header objects_path id))
  ∧ (∀ id, keeps_fs (odb_exists objects_path id)) ∧ (∀ id, keeps_fs (odb_expand_id objects_path id))
  ∧ keeps_fs (odb_refresh objects_path).
Proof.
  pose proof backends_keep as Hb. rewrite !Forall_and in Hb. destruct Hb as (H1 & H2 & H3 & H4 & H5).
  assert (∀ p, keeps_fs (odb_prefix_candidates objects_path p)) as Hp.
  { intros p. unfold odb_prefix_candidates. apply keeps_bind; [|auto with keeps]. apply keeps_collect, Forall_fmap.
    eapply Forall_impl; [exact H4|]. intros b Hb. apply Hb. }
  split_and!.
  - intros id. apply keeps_backend_method. eapply Forall_impl; [exact H1|]. auto.
  - intros id. apply keeps_backend_method. eapply Forall_impl; [exact H2|]. auto.
  - intros id. apply keeps_any, Forall_fmap. eapply Forall_impl; [exact H3|]. intros b Hb. apply keeps_unwrap, Hb.
  - intros id. by apply keeps_expand_id.
  - unfold odb_refresh. rewrite Forall_forall in H5. cbn. apply keeps_bind; [apply keeps_packed_refresh|].
    intros _. apply keeps_bind; intros; apply keeps_ret.
Qed.
End keeps.

(** ** Theorems *)

Section database.
Context `{Hex} {F : Flate2} {OE : OdbEnv} {OL : OdbEnvLaws OE}.
Context (objects_path : BitPath) (Ho : tidy_dir objects_path).
Context (sha1 : bytes → Oid) (sha1_len : ∀ s, oid_wf (sha1 s)).

(** The pack backend refuses every write. *)
Lemma odb_write_loose obj db : odb_write objects_path obj db = loose_write objects_path obj db.
Proof.
  unfold odb_write, backends. cbn [backend_method be_write packed_backend loose_backend].
  unfold st_match, packed_write, st_lift. cbn. destruct (loose_write objects_path obj db) as [[oid|e|] db']; [done| |done].
  by destruct (err_is_fatal e).
Qed.

(** What the program does to the database, in any order. *)
Inductive odb_step : Odb → Odb → Prop :=
| step_write {A} {S : Serialize A} {W : WritableObject A} (a : A) db :
    odb_step db (snd (odb_write objects_path (hash_and_serialize sha1 a) db))
| step_read_raw id db : odb_step db (snd (odb_read_raw objects_path id db))
| step_read_header id db : odb_step db (snd (odb_read_header objects_path id db))
| step_exists id db : odb_step db (snd (odb_exists objects_path id db))
| step_expand_id id db : odb_step db (snd (odb_expand_id objects_path id db))
| step_refresh db : odb_step db (snd (odb_refresh objects_path db)).

Lemma hash_and_serialize_ok {A} `{WritableObject A} (a : A) oid w :
  hash_and_serialize sha1 a = Ok (oid, w) → sha1 w = oid.
Proof. unfold hash_and_serialize. destruct (serialize_with_headers a); [|done..]. by intros [= <- <-]. Qed.

Abbreviation loose_inv := (loose_inv objects_path sha1).

Lemma grows_refl fs : grows fs fs.
Proof. by intros q d. Qed.

Lemma odb_step_inv db db' :
  odb_step db db' → loose_inv (odb_fs db) → loose_inv (odb_fs db') ∧ grows (odb_fs db) (odb_fs db').
Proof.
  intros Hs Hi. destruct (odb_keeps objects_path) as (K1 & K2 & K3 & K4 & K5).
  assert (∀ {A} (m : st Odb A), keeps_fs m → ∀ db, loose_inv (odb_fs db) →
    loose_inv (odb_fs (snd (m db))) ∧ grows (odb_fs db) (odb_fs (snd (m db)))) as Hk.
  { intros A m Hm db0 Hi0. destruct (m db0) as [r db1] eqn:E. apply Hm in E. cbn. rewrite E. split; [done|apply grows_refl]. }
  destruct Hs as [A S W a db|id db|id db|id db|id db|db]; try (apply Hk; [auto|done]; fail).
  rewrite odb_write_loose. destruct (hash_and_serialize sha1 a) as [[oid w]|e|] eqn:E;
    [|unfold loose_write; split; [done|apply grows_refl]..].
  apply hash_and_serialize_ok in E.
  destruct (loose_write objects_path (Ok (oid, w)) db) as [r db'] eqn:Ew.
  destruct (loose_write_spec objects_path sha1 Ho db oid w r db') as (_ & ? & ? & _); [done|by subst|done|done|done].
Qed.

Lemma odb_steps_inv db db' :
  rtc odb_step db db' → loose_inv (odb_fs db) → loose_inv (odb_fs db') ∧ grows (odb_fs db) (odb_fs db').
Proof.
  induction 1 as [db|db1 db2 db3 H1 _ IH]; intros Hi; [split; [done|apply grows_refl]|].
  destruct (odb_step_inv db1 db2 H1 Hi) as [Hi2 Hg]. destruct (IH Hi2) as [Hi3 Hg3].
  split; [done|]. intros q d Hq. by apply Hg3, Hg.
Qed.

(** No pack has the object. *)
Definition packs_lack (oid : Oid) (db : Odb) : Prop :=
  ∀ path p, packs db !! path = Some p → ∃ e p', obj_offset oid p = (Err e, p') ∧ err_is_fatal e = false.

Lemma process_lack oid err paths : ∀ db,
  NoDup paths →
  (∀ path, path ∈ paths → ∃ p e p', packs db !! path = Some p ∧ obj_offset oid p = (Err e, p') ∧ err_is_fatal e = false) →
  ∃ db', process err (on_pack (read_obj_raw oid) <$> paths) db = (Err err, db') ∧ odb_fs db' = odb_fs db.
Proof.
  induction paths as [|path paths IH]; intros db Hnd Hp; [by exists db|].
  apply NoDup_cons in Hnd as [Hni Hnd]. destruct (Hp path) as (p & e & p' & Hpk & Ho' & Hf); [by left|].
  destruct (IH (set_packs db (<[path := p']> (packs db)))) as (db' & IHr & IHf); [done| |].
  { intros path' Hin. cbn [packs set_packs]. rewrite lookup_insert_ne by (intros ->; done). apply Hp. by right. }
  exists db'. split; [|by rewrite IHf]. cbn [fmap list_fmap process]. unfold st_match, on_pack at 1. rewrite Hpk.
  unfold read_obj_raw. rewrite st_get_bind. unfold read_obj_raw_with. rewrite (st_bind_err _ _ _ _ _ Ho').
  by rewrite Hf.
Qed.

Lemma odb_read_loose oid db z :
  packs_lack oid db → fs_read (odb_fs db) (obj_path objects_path oid) = Some z →
  ∃ db', odb_read_raw objects_path (Full oid) db = (raw_obj_from_stream oid (zlib_read z), db').
Proof.
  intros Hl Hz. unfold odb_read_raw, backends. cbn [backend_method be_read_raw packed_backend loose_backend].
  destruct (process_lack oid (AnyhowBit (ObjectNotFound (Full oid))) (hash_order (elements (dom (packs db)))) db)
    as (db1 & Hp & Hfs).
  { rewrite hash_order_perm. apply NoDup_elements. }
  { intros path Hin. rewrite hash_order_perm, elem_of_elements, elem_of_dom in Hin. destruct Hin as [p Hpk].
    destruct (Hl path p Hpk) as (e & p' & ? & ?). by exists p, e, p'. }
  assert (packed_read_raw (Full oid) db = (Err (AnyhowBit (ObjectNotFound (Full oid))), db1)) as Epk.
  { unfold packed_read_raw. cbn [expand_id]. unfold read_raw_pack_obj, for_packs. 
    unfold mbind, st_bind at 1, mret, st_ret. cbn. unfold st_bind, st_get. by rewrite Hp. }
  unfold st_match. rewrite Epk. cbn [err_is_fatal].
  assert (loose_read_raw objects_path (Full oid) db1 = (raw_obj_from_stream oid (zlib_read z), db1)) as El.
  { unfold loose_read_raw, read_stream, locate_obj. cbn [expand_id].
    assert (fs_exists (odb_fs db1) (obj_path objects_path oid) = true) as Hex.
    { unfold fs_exists. rewrite Hfs. rewrite fs_read_eq in Hz.
      destruct (names (odb_fs db) !! obj_path objects_path oid); [|done]. by apply bool_decide_eq_true. }
    unfold mbind, st_bind, st_get, mret, st_ret, st_lift. rewrite Hex, Hfs, Hz. done. }
  rewrite El. destruct (raw_obj_from_stream _ _) as [raw|e|]; [by eexists| |by eexists].
  destruct (err_is_fatal e); by eexists.
Qed.

(** C17: An object that is written is read back, whatever has been written, read and looked up in
    between: with its type, its size and a stream of exactly the serialised bytes.  The packs are
    searched first and must not have the object, and no other object may have its hash. *)
Theorem odb_write_read {A} `{WritableObject A} (a : A) w db :
  loose_inv (odb_fs db) →
  serialize a = Ok w → Z.of_nat (length w) < 2 ^ 63 →
  let file := obj_header (obj_ty a) (length w) ++ w in
  let oid := sha1 file in
  storable objects_path (odb_fs db) oid → (∀ x, sha1 x = oid → x = file) →
  ∃ db1, odb_write objects_path (hash_and_serialize sha1 a) db = (Ok oid, db1) ∧ packs db1 = packs db
    ∧ ∀ db2, rtc odb_step db1 db2 → packs_lack oid db2 →
        ∃ db3, odb_read_raw objects_path (Full oid) db2
               = (Ok (mk_BitRawObj (mk_BitObjCached oid (obj_ty a) (Z.of_nat (length w))) w), db3).
Proof.
  intros Hi Hser Hlen file oid Hst Hcol. rewrite odb_write_loose.
  assert (hash_and_serialize sha1 a = Ok (oid, file)) as ->.
  { unfold hash_and_serialize, serialize_with_headers. by rewrite Hser. }
  destruct (loose_write objects_path (Ok (oid, file)) db) as [r db1] eqn:Ew.
  destruct (loose_write_spec objects_path sha1 Ho db oid file r db1) as (Hpk & Hi1 & _ & Hok);
    [done|apply sha1_len|done|done|].
  destruct (Hok Hst) as (-> & z & Hz & Hh). exists db1. split; [done|]. split; [done|]. intros db2 Hs Hl.
  destruct (odb_steps_inv db1 db2 Hs Hi1) as [_ Hg]. apply Hg in Hz.
  destruct (odb_read_loose oid db2 z Hl Hz) as [db3 ->]. exists db3. rewrite (Hcol _ Hh).
  unfold raw_obj_from_stream, file. by rewrite (reads_obj_header _ _ Hlen w).
Qed.

(** C18: Whatever is written, read and looked up, every file of an object that is in the object
    directory has the content its name is the hash of, and no file is changed or lost. *)
Theorem odb_invariant db db' :
  loose_inv (odb_fs db) → rtc odb_step db db' →
  loose_inv (odb_fs db') ∧ ∀ q d, fs_read (odb_fs db) q = Some d → fs_read (odb_fs db') q = Some d.
Proof. intros Hi Hs. by apply odb_steps_inv. Qed.
End database.

(** ** Witnesses *)

(** Nothing is compressed, a directory is listed in the order of the model, and a pack keeps its
    place. *)
#[export] Instance toy_env : OdbEnv := {
  zlib_read b := b;
  zlib_encode b := [b];
  dir_iter fs d := Ok d :: (Ok <$> filter (λ p, parent p = Some d) (elements (dom (names fs))));
  hash_order l := l;
  dir_order l := l;
}.

#[export] Instance toy_env_laws : OdbEnvLaws toy_env.
Proof. split; cbn; [intros b; apply app_nil_r|done..]. Qed.

Definition sample_file : bytes := bs "blob 2" ++ x00 :: bs "hi".

(** A hash without a collision on the sample. *)
Definition sample_sha1 (s : bytes) : Oid :=
  if decide (s = sample_file) then replicate 20 x02 else replicate 20 x03.

Definition empty_db : Odb := mk_Odb ∅ (mk_Fs {[ bs "/o" := NDir ]} ∅ 0).

Lemma empty_db_inv : loose_inv (bs "/o") sample_sha1 (odb_fs empty_db).
Proof.
  split; [|split; [by vm_compute|]].
  - intros p ino Hpi. unfold empty_db in Hpi. cbn [odb_fs names] in Hpi. by apply lookup_singleton_Some in Hpi as [_ ?].
  - intros oid z _. rewrite fs_read_eq. unfold empty_db. cbn [odb_fs names]. rewrite lookup_singleton_ne; [done|]. intros E%(f_equal length).
    unfold obj_path in E. rewrite !length_app in E. cbn in E. lia.
Qed.

Lemma sample_sha1_wf s : oid_wf (sample_sha1 s).
Proof. unfold sample_sha1. by case_decide. Qed.

Lemma odb_write_read_witness :
  ∃ db1 db3, odb_write (bs "/o") (hash_and_serialize sample_sha1 (mk_MutableBlob (bs "hi"))) empty_db
             = (Ok (replicate 20 x02), db1)
    ∧ odb_read_raw (bs "/o") (Full (replicate 20 x02)) db1
      = (Ok (mk_BitRawObj (mk_BitObjCached (replicate 20 x02) TBlob 2) (bs "hi")), db3).
Proof.
  destruct (odb_write_read (bs "/o") ltac:(vm_decide) sample_sha1 sample_sha1_wf (mk_MutableBlob (bs "hi"))
    (bs "hi") empty_db empty_db_inv eq_refl) as (db1 & Hw & Hpk & Hr).
  - done.
  - split_and!; [intros ino; vm_compute; congruence|by vm_compute|vm_compute; congruence].
  - intros x. change (sample_sha1 x = sample_sha1 sample_file → x = sample_file). unfold sample_sha1.
    rewrite (decide_True (P := sample_file = sample_file)) by done. by case_decide.
  - destruct (Hr db1) as [db3 H3]; [apply rtc_refl| |by exists db1, db3].
    intros path p. rewrite Hpk. unfold empty_db. cbn [packs]. by rewrite lookup_empty.
Defined.

Lemma odb_invariant_witness :
  let db := snd (odb_write (bs "/o") (hash_and_serialize sample_sha1 (mk_MutableBlob (bs "hi"))) empty_db) in
  loose_inv (bs "/o") sample_sha1 (odb_fs db).
Proof.
  intros db. apply (odb_invariant (bs "/o") ltac:(vm_decide) sample_sha1 sample_sha1_wf empty_db db empty_db_inv).
  apply rtc_once, step_write.
Defined.
