(* ===== verification/OdbPrefix.v ===== *)
(** * OdbPrefix

    How the object database of [libbit/src/odb.rs] expands abbreviated ids: what the backend of loose
    objects and the backend of packs find, and what becomes of it. *)

From Stdlib Require Import ZArith Lia.
From Stdlib Require Import Strings.Byte.
From stdpp Require Import base tactics option list countable strings gmap relations.
From S2P Require Import Prelude RustStd Data State Io Hash Path Obj Tree Signature Commit TreeCache.
From S2P Require Import PackIndex PackLookup Pack PackPrefix Lockfile CommitGraph.
From S2P Require Import Odb OdbStore.

#[local] Open Scope Z_scope.

(** ** Lookup by prefix *)

Lemma join_tidy d q : tidy_dir d → is_absolute q = false → join d q = path_child d q.
Proof.
  intros [Hne Ht] Hq. unfold join. rewrite Hq. destruct (last d) as [c|] eqn:El; [|by apply last_None in El].
  case_bool_decide as Hc; [|done]. subst c. exfalso. apply last_Some in El as [d' ->].
  assert (∀ k segs, (length (trim_junk k segs) ≤ length segs)%nat) as Hlen.
  { intros k segs. revert k. induction segs as [|t segs IH]; intros k; [done|]. cbn [trim_junk].
    specialize (IH false). destruct (trim_junk false segs); [destruct (is_junk k t)|]; cbn in *; lia. }
  assert (∀ k segs, trim_junk k (segs ++ [[]]) = trim_junk k segs) as Hsnoc.
  { intros k segs. revert k. induction segs as [|t segs IH]; intros k; [by destruct k|]. cbn [app trim_junk]. by rewrite IH. }
  assert (∃ segs, split_slash (path_body (d' ++ [x2f])) = segs ++ [[]]) as [segs E].
  { destruct d' as [|c d']; [by exists []|].
    assert (path_body ((c :: d') ++ [x2f]) = path_body (c :: d') ++ [x2f]) as ->.
    { unfold path_body. cbn. by destruct c. }
    exists (split_slash (path_body (c :: d'))). unfold split_slash. by rewrite split_byte_app_cons. }
  rewrite E, Hsnoc in Ht. pose proof (Hlen (is_relative (d' ++ [x2f])) segs) as Hl. rewrite Ht, length_app in Hl. cbn in Hl. lia.
Qed.

Section by_prefix.
Context `{Hex} {F : Flate2} {OE : OdbEnv} {OL : OdbEnvLaws OE}.
Context (objects_path : BitPath) (Ho : tidy_dir objects_path).

(** The directory of the objects whose id starts with [dir], if there is one: its files are objects,
    and the walk yields the directory itself and each file once. *)
Definition listed (fs : Fs) (dir : bytes) : Prop :=
  let d := path_child objects_path dir in
  (fs_exists fs d = false ∧ ∀ name, fs_is_file fs (path_child d name) = false)
  ∨ (fs_exists fs d = true ∧ fs_is_file fs d = false
     ∧ ∃ l, dir_iter fs d = Ok d :: ((λ f, Ok (path_child d f)) <$> l) ∧ NoDup l
            ∧ (∀ f, f ∈ l ↔ fs_is_file fs (path_child d f) = true)
            ∧ ∀ f, f ∈ l → ∃ oid, oid_wf oid ∧ oid_display oid = dir ++ f).

(** The object is in the object directory and its id is printed with these first digits. *)
Definition loose_match (fs : Fs) (s : bytes) (oid : Oid) : Prop :=
  oid_wf oid ∧ fs_is_file fs (obj_path objects_path oid) = true ∧ s `prefix_of` oid_display oid.

Context (s : bytes) (prefix : PartialOid) (Hp : partial_oid_from_str s = Ok prefix).

Lemma split_prefix : partial_split prefix = (take 2 s, drop 2 s) ∧ Forall is_digit s ∧ (4 ≤ length s < 40)%nat.
Proof.
  apply partial_oid_from_str_ok in Hp as (Hl & Hs & ->). split; [|split; [|done]].
  - unfold partial_split. cbn [po_bytes po_len]. by rewrite take_app_le, take_app_length by lia.
  - eapply Forall_impl; [exact Hs|]. intros c Hc. by apply hexdigit_is_digit, Is_true_true.
Qed.

Lemma loose_match_file fs oid :
  loose_match fs s oid ↔ oid_wf oid ∧ ∃ f, oid_display oid = take 2 s ++ f ∧ drop 2 s `prefix_of` f
    ∧ fs_is_file fs (path_child (path_child objects_path (take 2 s)) f) = true.
Proof.
  destruct split_prefix as (_ & _ & Hl). unfold loose_match. split.
  - intros (Hw & Hf & [t Ht]). split; [done|]. exists (drop 2 s ++ t).
    rewrite app_assoc, take_drop. split; [done|]. split; [by eexists|]. rewrite obj_path_child in Hf.
    unfold fanout_dir in Hf. rewrite Ht in Hf. rewrite take_app_le, drop_app_le in Hf by lia. done.
  - intros (Hw & f & Hd & [t ->] & Hf). split; [done|]. rewrite obj_path_child. unfold fanout_dir. rewrite Hd.
    assert (length (take 2 s) = 2%nat) as H2 by (rewrite length_take; lia).
    rewrite take_app_length', drop_app_length' by done. split; [done|]. exists t. by rewrite app_assoc, take_drop.
Qed.

(** The candidates are exactly the objects with the prefix, each once. *)
Lemma loose_candidates_ok db :
  listed (odb_fs db) (take 2 s) →
  ∃ l, loose_prefix_candidates objects_path prefix db = (Ok l, db)
    ∧ NoDup l ∧ ∀ oid, oid ∈ l ↔ loose_match (odb_fs db) s oid.
Proof.
  intros Hlist. destruct split_prefix as (Esp & Hdig & Hl). unfold loose_prefix_candidates.
  rewrite st_get_bind, Esp. set (fs := odb_fs db) in *.
  rewrite join_tidy; [|done|]. 2: { destruct s as [|c s']; [done|]. apply Forall_cons in Hdig as [Hc _].
    assert (c ≠ x2f) by (intros ->; unfold is_digit in Hc; cbn in Hc; lia). by destruct c. }
  set (d := path_child objects_path (take 2 s)) in *.
  destruct Hlist as [[Hex Hno]|(Hex & Hnf & l & Hiter & Hnd & Hin & Hnames)]; fold d in Hex; rewrite Hex; cbn [negb].
  { exists []. split; [done|]. split; [constructor|]. intros oid. rewrite loose_match_file. fold d.
    split; [by intros ?%elem_of_nil|]. intros (_ & f & _ & _ & Hf). fold d in Hno. by rewrite Hno in Hf. }
  fold d in Hnf, Hiter, Hin. rewrite Hiter.
  set (oid_of := λ f, default [] (from_hex (take 2 s ++ f))).
  assert (∀ f, f ∈ l → oid_from_str (take 2 s ++ f) = Ok (oid_of f) ∧ oid_display (oid_of f) = take 2 s ++ f
    ∧ oid_wf (oid_of f) ∧ comp_name f ∧ utf8_valid f = true) as Hof.
  { intros f Hf. destruct (Hnames f Hf) as (oid & Hw & Hd). 
    assert (oid_of f = oid) as Eo by (unfold oid_of; rewrite <- Hd; unfold oid_display; by rewrite from_to_hex).
    rewrite Eo. pose proof (oid_display_digits oid) as Hdg. pose proof (length_oid_display oid) as Hlen.
    pose proof (oid_from_str_display oid [] Hw (Forall_nil_2 _)) as Hstr. rewrite app_nil_r, Hd in Hstr.
    rewrite Hd in Hdg, Hlen. apply Forall_app in Hdg as [_ Hdg]. rewrite length_app, length_take, Hw in Hlen.
    split_and!; [done..| |].
    - apply digits_comp_name; [done|]. intros ->. cbn [length] in Hlen. lia.
    - by apply utf8_digits. }
  assert (collect (loose_candidate fs (take 2 s) (drop 2 s)) (Ok d :: ((λ f, Ok (path_child d f)) <$> l))
    = Ok (None :: ((λ f, if starts_with (drop 2 s) f then Some (oid_of f) else None) <$> l))) as ->.
  { assert (loose_candidate fs (take 2 s) (drop 2 s) (Ok d) = Ok None) as Ed
      by (unfold loose_candidate; cbn [mbind outcome_bind]; by rewrite Hnf).
    assert (∀ f, f ∈ l → loose_candidate fs (take 2 s) (drop 2 s) (Ok (path_child d f))
      = Ok (if starts_with (drop 2 s) f then Some (oid_of f) else None)) as Ef.
    { intros f Hf. destruct (Hof f Hf) as (H1 & _ & _ & H4 & H5).
      unfold loose_candidate. cbn [mbind outcome_bind]. rewrite (proj1 (Hin f) Hf). cbn [negb].
      unfold Path.file_name. rewrite child_file_name; [|by unfold d, path_child; destruct objects_path|done].
      change (default [] (Some f)) with f. rewrite H5. cbn [assert_that mbind outcome_bind].
      destruct (starts_with (drop 2 s) f); cbn [negb]; by rewrite ?H1. }
    cbn [collect]. rewrite Ed. cbn [mbind outcome_bind]. revert Ef. clear. induction l as [|f l IH]; intros Ef; [done|].
    cbn [fmap list_fmap collect]. rewrite Ef by by left. cbn [mbind outcome_bind].
    specialize (IH (λ g Hg, Ef g (list_elem_of_further _ _ _ Hg))).
    destruct (collect _ _) as [bs| |]; cbn [mbind outcome_bind] in *; congruence. }
  rewrite st_lift_bind. eexists. split; [reflexivity|]. match goal with |- context [omap id (None :: ?x)] => change (omap id (None :: x)) with (omap id x) end.
  assert (omap id ((λ f, if starts_with (drop 2 s) f then Some (oid_of f) else None) <$> l)
    = oid_of <$> filter (λ f, starts_with (drop 2 s) f = true) l) as ->.
  { clear. induction l as [|f l IH]; [done|]. rewrite filter_cons. cbn [fmap list_fmap omap list_omap].
    destruct (starts_with (drop 2 s) f); cbn [id]; [rewrite decide_True by done; by rewrite fmap_cons, <- IH|].
    by rewrite decide_False. }
  split.
  - apply NoDup_fmap_2_strong; [|by apply NoDup_filter]. intros f g Hf Hg E.
    apply list_elem_of_filter in Hf as [_ Hf]. apply list_elem_of_filter in Hg as [_ Hg].
    destruct (Hof f Hf) as (_ & Hf2 & _). destruct (Hof g Hg) as (_ & Hg2 & _). rewrite E, Hg2 in Hf2.
    by apply app_inv_head in Hf2.
  - intros oid. rewrite loose_match_file, list_elem_of_fmap. fold d. split.
    + intros (f & -> & Hf). apply list_elem_of_filter in Hf as [Hsw Hf].
      destruct (Hof f Hf) as (_ & Hd & Hw & _). split; [done|]. exists f. split; [done|]. split; [by apply starts_with_spec|].
      by apply Hin.
    + intros (Hw & f & Hd & Hpre & Hf). apply Hin in Hf. exists f. split.
      * destruct (Hof f Hf) as (_ & Hd' & _). apply oid_display_inj. by rewrite Hd, Hd'.
      * apply list_elem_of_filter. split; [by apply starts_with_spec|done].
Qed.

(** With the candidates of both backends. *)
Lemma odb_candidates db db1 l1 l2 :
  packed_prefix_candidates prefix db = (Ok l1, db1) → loose_prefix_candidates objects_path prefix db1 = (Ok l2, db1) →
  odb_expand_prefix objects_path prefix db
  = (match l1 ++ l2 with
     | [] => bail_bit (ObjectNotFound (Partial prefix))
     | [oid] => Ok oid
     | l => bail_bit (AmbiguousPrefix prefix l)
     end, db1).
Proof.
  intros E1 E2. unfold odb_expand_prefix, expand_prefix.
  rewrite (st_bind_ok _ _ db db1 (l1 ++ l2)); [by destruct (l1 ++ l2) as [|? [|]]|].
  unfold odb_prefix_candidates, backends. cbn [fmap list_fmap be_prefix_candidates packed_backend loose_backend st_collect].
  unfold mbind, st_bind. rewrite E1, E2. cbn. by rewrite app_nil_r.
Qed.

(** Without packs, a partial id is expanded to the only object in the object directory whose id
    is printed with these first digits; if there is none, or more than one, the error says so and
    lists them. *)
Theorem odb_expand_prefix_correct db :
  packs db = ∅ → listed (odb_fs db) (take 2 s) →
  ∃ l, NoDup l ∧ (∀ oid, oid ∈ l ↔ loose_match (odb_fs db) s oid)
    ∧ odb_expand_prefix objects_path prefix db
      = (match l with
         | [] => bail_bit (ObjectNotFound (Partial prefix))
         | [oid] => Ok oid
         | l => bail_bit (AmbiguousPrefix prefix l)
         end, db).
Proof.
  intros Hpk Hlist. destruct (loose_candidates_ok db Hlist) as (l & Hl & Hnd & Hin). exists l. split; [done|]. split; [done|].
  rewrite (odb_candidates db db [] l); [by destruct l as [|? []]| |done].
  unfold packed_prefix_candidates, for_packs. rewrite st_get_bind, Hpk, dom_empty_L, elements_empty.
  assert (hash_order [] = []) as -> by apply Permutation_nil_r, hash_order_perm. done.
Qed.

(** An object that is in a pack and in the object directory is its own rival: its abbreviated id
    is reported as ambiguous with the object listed twice, although no other object has the prefix. *)
Theorem odb_duplicate_ambiguous db path p file idx oid :
  packs db = {[path := p]} → pack_index_wf idx → small_offsets idx → pack_inv file idx p →
  (extended s ∉ oids idx) → oid ∈ oids idx →
  listed (odb_fs db) (take 2 s) → loose_match (odb_fs db) s oid → starts_with_digits s oid →
  ∃ l l1 l2 db', odb_expand_prefix objects_path prefix db = (bail_bit (AmbiguousPrefix prefix l), db')
    ∧ l = l1 ++ l2 ∧ (oid ∈ l1) ∧ (oid ∈ l2)
    ∧ ∀ x, x ∈ l → starts_with_digits s x ∧ x ∈ oids idx ∨ loose_match (odb_fs db) s x.
Proof.
  intros Hpk Hwf Hsm Hinv Hx Hin Hlist Hm Hd.
  destruct (prefix_matches_ok s prefix Hp idx Hwf file p Hsm Hinv) as (p' & Hpm & _). rewrite decide_False in Hpm by done.
  set (db1 := set_packs db {[path := p']}).
  destruct (loose_candidates_ok db1 Hlist) as (l2 & Hl2 & _ & Hin2).
  set (l1 := filter (starts_with_digits s) (oids idx)) in *.
  assert (oid ∈ l1) as H1 by by apply list_elem_of_filter.
  assert (oid ∈ l2) as H2 by by apply Hin2.
  exists (l1 ++ l2), l1, l2, db1. split_and!; [|done|done|done|].
  - rewrite (odb_candidates db db1 l1 l2); [|  |done].
    + clear -H1 H2. clearbody l1. destruct l1 as [|a [|b l1]], l2 as [|c l2]; try done; by (apply elem_of_nil in H1 || apply elem_of_nil in H2).
    + unfold packed_prefix_candidates, for_packs. rewrite st_get_bind, Hpk, dom_singleton_L, elements_singleton.
      assert (hash_order [path] = [path]) as -> by apply Permutation_singleton_r, hash_order_perm.
      cbn [fmap list_fmap st_collect]. unfold mbind, st_bind, mret, st_ret, on_pack.
      rewrite Hpk, lookup_singleton_eq, Hpm. cbn. rewrite app_nil_r. unfold db1. by rewrite insert_singleton_eq.
  - intros x [Hx1|Hx2]%elem_of_app; [left|right; by apply Hin2]. by apply list_elem_of_filter in Hx1.
Qed.
End by_prefix.

(** ** Witnesses *)

Definition two_name : bytes := concat (replicate 19 (bs "02")).

(** The object [0202...] in the object directory. *)
Definition two_fs : Fs :=
  mk_Fs {[ bs "/o" := NDir; bs "/o/02" := NDir; path_child (bs "/o/02") two_name := NFile 0 ]}
    {[ 0%nat := mk_Inode sample_file false ]} 1.

Lemma two_listed : listed (bs "/o") two_fs (bs "02").
Proof.
  right. split; [by vm_compute|]. split; [by vm_compute|]. exists [two_name].
  split; [by vm_compute|]. split; [vm_decide|]. split.
  - intros f. rewrite list_elem_of_singleton. split; [intros ->; by vm_compute|]. unfold fs_is_file.
    destruct (names two_fs !! path_child (path_child (bs "/o") (bs "02")) f) as [[]|] eqn:E; [|done..]. intros _.
    unfold two_fs in E. cbn [names] in E. apply lookup_insert_Some in E as [[_ ?]|[_ E]]; [done|].
    apply lookup_insert_Some in E as [[_ ?]|[_ E]]; [done|]. apply lookup_singleton_Some in E as [E _].
    by injection E.
  - intros f ->%list_elem_of_singleton. exists (replicate 20 x02). by split; vm_compute.
Qed.

Lemma two_match : loose_match (bs "/o") two_fs (bs "0202") (replicate 20 x02).
Proof. split; [done|]. split; [by vm_compute|]. by exists (drop 4 (oid_display (replicate 20 x02))). Qed.

Definition two_prefix : PartialOid := mk_PartialOid (bs "0202" ++ replicate 36 x30) 4.

Lemma odb_expand_prefix_correct_witness :
  odb_expand_prefix (bs "/o") two_prefix (mk_Odb ∅ two_fs) = (Ok (replicate 20 x02), mk_Odb ∅ two_fs).
Proof.
  destruct (odb_expand_prefix_correct (bs "/o") ltac:(vm_decide) (bs "0202") two_prefix eq_refl (mk_Odb ∅ two_fs)
    eq_refl two_listed) as (l & Hnd & Hin & H).
  assert (l = [replicate 20 x02]) as ->; [|exact H]. clear H.
  assert (∀ oid, oid ∈ l → oid = replicate 20 x02) as Hone.
  { intros oid (Hw & Hf & _)%Hin. apply (obj_path_inj (bs "/o")); [exact Hw|reflexivity|]. unfold fs_is_file in Hf. cbn [odb_fs] in Hf.
    destruct (names two_fs !! obj_path (bs "/o") oid) as [[]|] eqn:E; [|done..].
    unfold two_fs in E. cbn [names] in E. apply lookup_insert_Some in E as [[_ ?]|[_ E]]; [done|].
    apply lookup_insert_Some in E as [[_ ?]|[_ E]]; [done|]. apply lookup_singleton_Some in E as [<- _]. by vm_compute. }
  destruct l as [|a [|b l]].
  - pose proof (proj2 (Hin (replicate 20 x02)) two_match) as Hm. by apply elem_of_nil in Hm.
  - f_equal. apply Hone. by left.
  - rewrite (Hone a) in Hnd by by left. rewrite (Hone b) in Hnd by (right; by left).
    apply NoDup_cons in Hnd as [Hn _]. destruct Hn. by left.
Defined.

Lemma odb_duplicate_ambiguous_witness :
  ∃ l l1 l2 db', odb_expand_prefix (bs "/o") two_prefix (mk_Odb {[ bs "/o/pack/x.pack" := sample_pack ]} two_fs)
      = (bail_bit (AmbiguousPrefix two_prefix l), db')
    ∧ l = l1 ++ l2 ∧ (replicate 20 x02 ∈ l1) ∧ (replicate 20 x02 ∈ l2).
Proof.
  destruct (odb_duplicate_ambiguous (bs "/o") ltac:(vm_decide) (bs "0202") two_prefix eq_refl
    (mk_Odb {[ bs "/o/pack/x.pack" := sample_pack ]} two_fs) (bs "/o/pack/x.pack") sample_pack [] sample_pack_index
    (replicate 20 x02)) as (l & l1 & l2 & db' & H1 & H2 & H3 & H4 & _).
  - done.
  - apply sample_pack_index_wf.
  - repeat constructor; vm_decide.
  - apply sample_pack_inv.
  - vm_decide.
  - vm_decide.
  - apply two_listed.
  - apply two_match.
  - vm_decide.
  - exists l, l1, l2, db'. split; [exact H1|]. split; [exact H2|]. split; [exact H3|exact H4].
Defined.
