(* ===== verification/Commands.v ===== *)
(** * Commands

    The commands that move the whole repository, index, worktree and references together:
    [libbit/src/commit.rs], [reset.rs], [cherrypick.rs], the driver of [merge.rs], and the functions
    of [repo.rs] and [obj/commit.rs] that they use. *)

From Stdlib Require Import ZArith Lia Sorted.
From Stdlib Require Import Strings.Byte.
From stdpp Require Import base tactics option list countable strings gmap.
From S2P Require Import Odb CheckoutTree.
From S2P Require Import Prelude RustStd Data State Io Hash Path BTree Obj Tree Signature Commit IndexEntry TreeCache Index.
From S2P Require Import Lockfile Refs RefDb CommitGraph TreeIter TreeDiff TreeListing IndexDiff IndexIter Pathspec WriteTree.
From S2P Require Import WorktreeIter Worktree Merge MergeTrees Checkout Migrate IndexListing Status.

(** ** Objects by kind

    [obj.rs], [peel.rs] and the [Treeish] of [obj/tree.rs]; tags are not supported. *)

Definition kind_obj_type (k : BitObjKind) : BitObjType :=
  match k with Odb.KBlob _ _ => TBlob | Odb.KCommit _ _ => TCommit | Odb.KTree _ _ => TTree end.

Definition kind_is_commit (k : BitObjKind) : bool := match k with Odb.KCommit _ _ => true | _ => false end.

Definition try_into_commit (k : BitObjKind) : BitResult CommitGraph.Commit :=
  match k with Odb.KCommit cached c => Ok (mk_Commit (cached_oid cached) c) | _ => bail end.

(** [Treeish::treeish_oid] of an object: a blob is a bug. *)
Definition kind_treeish_oid (k : BitObjKind) : BitResult Oid :=
  match k with Odb.KCommit _ c => Ok (c_tree c) | Odb.KTree cached _ => Ok (cached_oid cached) | Odb.KBlob _ _ => Panic end.

Inductive ResetKind := Soft | Mixed | Hard.
#[export] Instance ResetKind_eq_dec : EqDecision ResetKind.
Proof. solve_decision. Defined.

Definition reset_kind_rank (k : ResetKind) : nat := match k with Soft => 0 | Mixed => 1 | Hard => 2 end.
Definition reset_kind_gt (a b : ResetKind) : bool := reset_kind_rank b <? reset_kind_rank a.

Record CommitOpts := mk_CommitOpts { co_message : option bytes; co_allow_empty : bool }.
Record CommitSummary := mk_CommitSummary {
  cs_sym : SymbolicRef; cs_commit : CommitGraph.Commit; cs_status : WorkspaceStatus }.

Record MergeOpts := mk_MergeOpts { no_commit : bool; no_edit : bool; no_ff : bool }.
Definition merge_opts_default : MergeOpts := mk_MergeOpts false true false.

Inductive MergeResults :=
| MergeNull
| MergeConflicts (c : list (BitPath * ConflictType))
| MergeFastForward (from to : Oid)
| MergeSummary.

(** The fields of [MergeCtxt] that do not change. *)
Record MergeHeads := mk_MergeHeads {
  their_head_desc : bytes;
  their_head_ref : BitRef;
  their_head : Oid;
  our_head : Oid;
  merge_opts : MergeOpts;
  initial_index_snapshot : BitIndexInner;
}.

Inductive RepoPhase := RepoNone | RepoMerging.
#[export] Instance RepoPhase_eq_dec : EqDecision RepoPhase.
Proof. solve_decision. Defined.

Section repo.
(** The environment: what the operating system reports, [jwalk], the crates [ignore] and [diffy]. *)
Context (metadata : Worktree → BitPath → Metadata) (index_mtime : option Timespec).
Context {Gitignore : Type} (is_ignore : Gitignore → BitPath → bool → bool) (gitignore : Gitignore).
Context (walk_dir : Worktree → list (BitResult DirEntry)).
Context (merge_bytes : bytes → bytes → bytes → bytes → bytes → bytes + bytes).
(** The object database: reading an object and its header, writing blobs, trees and commits. *)
Context (read_obj : Oid → BitResult BitObjKind) (read_obj_header : Oid → BitResult BitObjHeader).
Context (write_blob : bytes → BitResult Oid) (hash_blob : bytes → Oid).
Context (write_tree_obj : MutableTree → BitResult Oid) (write_commit_obj : MutableCommit → BitResult Oid).
(** The reference database and the configuration; what an editor makes of a message. *)
Context `{Hex} (bitdir : BitPath) (ensure_obj_is_commit : Oid → BitResult unit).
Context (user_signature : BitResult BitSignature) (read_commit_msg : BitResult CommitMessage).
(** Bounds the walks, and the depth of trees and of virtual merges. *)
Context (fuel depth : nat).

(** *** Reading objects *)

Definition obj_peel (oid : Oid) : BitResult CommitGraph.Commit := k ← read_obj oid; try_into_commit k.
Definition obj_commit (oid : Oid) : BitResult CommitGraph.Commit := k ← read_obj oid; into_commit k.
Definition obj_tree (oid : Oid) : BitResult TreeObj := k ← read_obj oid; into_tree k.
Definition obj_blob (oid : Oid) : BitResult bytes := k ← read_obj oid; b ← into_blob k; Ok (blob_bytes b).
Definition obj_treeish_oid (oid : Oid) : BitResult Oid := k ← read_obj oid; kind_treeish_oid k.
(** [Treeish::treeish] of an [Oid]. *)
Definition obj_treeish (oid : Oid) : BitResult (list TreeEntry) :=
  tree_oid ← obj_treeish_oid oid;
  t ← obj_tree tree_oid;
  Ok (t_entries t).

(** *** Writing commits *)

(** The parents must be commits that are not newer. *)
Fixpoint check_parents (parents : list Oid) (committer : BitSignature) : BitResult unit :=
  match parents with
  | [] => Ok tt
  | parent :: parents =>
      parent ← read_obj parent;
      _ ← ensure (kind_is_commit parent) Anyhow;
      c ← into_commit parent;
      _ ← ensure (bool_decide (time_cmp (commit_time c) (sig_time committer) ≠ Gt)) Anyhow;
      check_parents parents committer
  end.

Definition repo_mk_commit (tree : Oid) (parents : list Oid) (message : CommitMessage) : BitResult MutableCommit :=
  h ← read_obj_header tree;
  _ ← ensure (bool_decide (oh_obj_type h = TTree)) Anyhow;
  author ← user_signature;
  let committer := author in
  _ ← check_parents parents committer;
  Ok (commit_new tree parents message author committer).

Definition write_commit (tree : Oid) (parents : list Oid) (message : CommitMessage) : BitResult Oid :=
  commit ← repo_mk_commit tree parents message;
  write_commit_obj commit.

Definition commit_tree (tree : Oid) (parents : list Oid) (message : option bytes) : BitResult Oid :=
  message ← (match message with Some msg => Ok (commit_message_from_str msg) | None => read_commit_msg end);
  write_commit tree parents message.

(** *** References *)

Definition repo_state : st Fs RepoPhase :=
  fs ← st_get;
  mret (if Lockfile.fs_exists fs (join bitdir (bs "MERGE_HEAD")) then RepoMerging else RepoNone).

Definition update_ref (sym : SymbolicRef) (to : BitRef) (cause : RefUpdateCause) : st Fs unit :=
  refdb_update bitdir ensure_obj_is_commit user_signature fuel sym to cause.

Definition update_current_ref (target : Oid) (cause : RefUpdateCause) : st Fs unit :=
  head ← read_head bitdir ensure_obj_is_commit;
  match head with
  | Direct _ => update_ref SYM_HEAD (Direct target) cause
  | Symbolic current_branch => update_ref current_branch (Direct target) cause
  end.

Definition fully_resolve_ref (r : BitRef) : st Fs Oid := fully_resolve bitdir ensure_obj_is_commit fuel r.

Definition update_ref_for_fetch (sym : SymbolicRef) (to : BitRef) : st Fs unit :=
  oid ← fully_resolve_ref to;
  update_ref sym (Direct oid) (CauseFetch to).

Definition update_current_ref_for_reset (target : BitRef) : st Fs unit :=
  oid ← fully_resolve_ref target;
  update_current_ref oid (CauseReset target).

Definition update_current_ref_for_ff_merge (theirs : BitRef) : st Fs unit :=
  oid ← fully_resolve_ref theirs;
  update_current_ref oid (CauseMerge theirs FastForward).

Definition update_current_ref_for_merge (theirs : BitRef) : st Fs unit :=
  oid ← fully_resolve_ref theirs;
  update_current_ref oid (CauseMerge theirs Recursive).

Definition repo_head_tree : st Fs Oid := head_tree obj_treeish_oid bitdir ensure_obj_is_commit fuel.

(** *** Checkout

    The tree of [HEAD], which is read when the iterators are set up, does not depend on the rest. *)

Definition repo_checkout_tree (treeish_oid : BitResult Oid) (opts : CheckoutOpts) : st Repository unit :=
  head ← on_refs (st_try repo_head_tree);
  on_repo (checkout_tree_with_opts metadata obj_blob write_blob hash_blob index_mtime is_ignore gitignore walk_dir
             obj_treeish head obj_tree fuel treeish_oid opts).

Definition repo_checkout_index (opts : CheckoutOpts) : st Repository unit :=
  head ← on_refs (st_try repo_head_tree);
  on_repo (checkout_index metadata obj_blob write_blob hash_blob index_mtime is_ignore gitignore walk_dir
             obj_treeish head fuel opts).

(** *** commit.rs *)

Definition repo_write_tree : st Repository Oid := on_repo (with_index (write_tree obj_tree write_tree_obj fuel depth)).

Definition repo_status : Pathspec → st Repository BitStatus :=
  status metadata write_blob hash_blob index_mtime is_ignore gitignore walk_dir obj_treeish obj_treeish_oid
    bitdir ensure_obj_is_commit fuel.

Definition commit_is_empty (tree head_tree : Oid) : bool :=
  bool_decide (tree = head_tree) || (is_unknown head_tree && bool_decide (tree = EMPTY_TREE)).

Definition commit_sym (head : BitRef) : SymbolicRef :=
  match head with Direct _ => SYM_HEAD | Symbolic sym => sym end.

Definition commit_cause (commit : CommitGraph.Commit) (head_tree : Oid) : RefUpdateCause :=
  CauseCommit (msg_subject (c_message (commit_inner commit)))
    (if is_known head_tree then CommitNormal else CommitInitial).

Definition commit (opts : CommitOpts) : st Repository CommitSummary :=
  head ← on_refs (read_head bitdir ensure_obj_is_commit);
  let sym := commit_sym head in
  parent ← on_refs (try_fully_resolve_ref bitdir ensure_obj_is_commit fuel (Symbolic sym));
  tree ← repo_write_tree;
  head_tree ← on_refs repo_head_tree;
  if negb (co_allow_empty opts) && commit_is_empty tree head_tree then
    _ ← repo_status MATCH_ALL; st_lift bail
  else
    commit_oid ← st_lift (commit_tree tree (option_list parent) (co_message opts));
    commit ← st_lift (obj_peel commit_oid);
    _ ← on_refs (update_ref sym (Direct commit_oid) (commit_cause commit head_tree));
    status ← st_lift (diff_tree_to_tree obj_treeish fuel (default UNKNOWN parent) (c_tree (commit_inner commit)));
    mret (mk_CommitSummary sym commit status).

(** *** reset.rs *)

Definition reset_internal (target : BitRef) (kind : ResetKind) : st Repository unit :=
  state ← on_refs repo_state;
  if bool_decide (state = RepoMerging) then st_lift bail
  else
    target_commit_oid ← on_refs (fully_resolve_ref target);
    target_commit ← st_lift (obj_peel target_commit_oid);
    let target_tree := c_tree (commit_inner target_commit) in
    _ ← (if reset_kind_gt kind Mixed then repo_checkout_tree (obj_treeish_oid target_tree) forced
         else if reset_kind_gt kind Soft then
           tree ← st_lift (obj_treeish_oid target_tree);
           on_repo (index_read_tree metadata write_blob obj_treeish obj_tree fuel tree)
         else mret tt);
    on_refs (update_current_ref_for_reset (Direct target_commit_oid)).

(** *** merge.rs: the driver

    Its state is the [MergeCtxt] of Merge.v, which has the index, the worktree and the paths of
    uncommitted changes, next to the references. *)

Definition bitref_short (r : BitRef) : bytes :=
  match r with Direct oid => oid_short oid | Symbolic sym => symref_short sym end.

Definition merge_ctxt_new (their_head_ref : BitRef) (opts : MergeOpts) : st Repository MergeHeads :=
  our_head ← on_refs (fully_resolve_head bitdir ensure_obj_is_commit fuel);
  their_head ← on_refs (fully_resolve_ref their_head_ref);
  s ← st_get;
  mret (mk_MergeHeads (bitref_short their_head_ref) their_head_ref their_head our_head opts (rs_index (fst s))).

Abbreviation MergeState := (MergeCtxt * Fs)%type.

Definition on_merge {A} (m : st MergeCtxt A) : st MergeState A := st_zoom fst (λ s c, (c, snd s)) m.
(** An operation on the repository in the middle of a merge. *)
Definition in_merge {A} (m : st Repository A) : st MergeState A :=
  st_zoom (λ s, (mk_RepoState (mc_index (fst s)) (mc_worktree (fst s)), snd s))
    (λ s r, (mk_MergeCtxt (rs_index (fst r)) (rs_worktree (fst r)) (mc_uncommitted (fst s)), snd r)) m.

Definition extend_uncommitted (paths : list BitPath) : st MergeState unit :=
  on_merge (st_modify (λ c, mk_MergeCtxt (mc_index c) (mc_worktree c) (mc_uncommitted c ++ paths))).

Definition check_unstaged_changes : st MergeState unit :=
  diff ← in_merge (on_repo (repo_diff_worktree metadata write_blob hash_blob index_mtime is_ignore gitignore
                              walk_dir fuel MATCH_ALL));
  extend_uncommitted (iter_paths diff).

Definition check_staged_changes : st MergeState unit :=
  diff ← in_merge (diff_head obj_treeish obj_treeish_oid bitdir ensure_obj_is_commit fuel MATCH_ALL);
  extend_uncommitted (iter_paths diff).

Definition pre_merge_checks : st MergeState unit :=
  _ ← check_unstaged_changes;
  check_staged_changes.

Definition merge_message (m : MergeHeads) : option bytes :=
  if no_edit (merge_opts m) then
    Some (bs "Merge commit `" ++ bitref_display (their_head_ref m) ++ bs "` into HEAD")
  else None.

(** The part of [merge_with_base] after the special cases. *)
Definition merge_heads (m : MergeHeads) (merge_base : option CommitGraph.Commit) : st MergeState MergeResults :=
  ours ← st_lift (obj_peel (our_head m));
  theirs ← st_lift (obj_peel (their_head m));
  _ ← on_merge (merge_commits metadata obj_blob write_blob merge_bytes (their_head_desc m) fuel obj_treeish fuel
                  merge_base ours theirs);
  s ← st_get;
  if negb (bool_decide (mc_uncommitted (fst s) = [])) then
    _ ← in_merge (on_repo (with_index (st_put (initial_index_snapshot m))));
    _ ← in_merge (repo_checkout_index checkout_opts_default);
    st_lift (bail_bit (MergeConflict (mk_MergeConflicts (mc_uncommitted (fst s)))))
  else if has_conflicts (mc_index (fst s)) then
    c ← st_lift (conflicts (mc_index (fst s)));
    mret (MergeConflicts c)
  else
    _ ← (if negb (no_commit (merge_opts m)) then
           merged_tree ← in_merge repo_write_tree;
           merge_commit ← st_lift (commit_tree merged_tree [our_head m; their_head m] (merge_message m));
           in_merge (on_refs (update_current_ref_for_merge (Direct merge_commit)))
         else mret tt);
    mret MergeSummary.

Definition merge_with_base (m : MergeHeads) (merge_base : option CommitGraph.Commit) : st MergeState MergeResults :=
  _ ← pre_merge_checks;
  match merge_base with
  | Some base =>
      if bool_decide (commit_oid base = their_head m) then mret MergeNull
      else if negb (no_ff (merge_opts m)) && bool_decide (commit_oid base = our_head m) then
        theirs ← st_lift (obj_peel (their_head m));
        _ ← in_merge (repo_checkout_tree (Ok (c_tree (commit_inner theirs))) checkout_opts_default);
        _ ← in_merge (on_refs (update_current_ref_for_ff_merge (their_head_ref m)));
        mret (MergeFastForward (our_head m) (their_head m))
      else merge_heads m merge_base
  | None => merge_heads m merge_base
  end.

Definition merge_ctxt_merge (m : MergeHeads) : st MergeState MergeResults :=
  ours ← st_lift (obj_peel (our_head m));
  theirs ← st_lift (obj_peel (their_head m));
  merge_base ← on_merge (merge_base_recursive metadata obj_blob write_blob merge_bytes (their_head_desc m) fuel
                           obj_treeish obj_tree write_tree_obj obj_commit write_commit fuel depth ours theirs);
  merge_with_base m merge_base.

(** Runs a merge that starts without uncommitted paths. *)
Definition run_merge {A} (m : st MergeState A) : st Repository A :=
  st_zoom (λ s, (mk_MergeCtxt (rs_index (fst s)) (rs_worktree (fst s)) [], snd s))
    (λ _ s, (mk_RepoState (mc_index (fst s)) (mc_worktree (fst s)), snd s)) m.

Definition repo_merge (their_head_ref : BitRef) (opts : MergeOpts) : st Repository MergeResults :=
  m ← merge_ctxt_new their_head_ref opts;
  run_merge (merge_ctxt_merge m).

Definition repo_merge_with_base (their_head_ref : BitRef) (base : option CommitGraph.Commit) (opts : MergeOpts)
    : st Repository MergeResults :=
  m ← merge_ctxt_new their_head_ref opts;
  run_merge (merge_with_base m base).

(** *** cherrypick.rs: the result of the merge is not looked at *)

Definition cherrypick (reference : BitRef) : st Repository unit :=
  oid ← on_refs (fully_resolve_ref reference);
  commit ← st_lift (obj_commit oid);
  _ ← st_lift (ensure (length (commit_parents commit) <? 2) Anyhow);
  base ← st_lift (match head (commit_parents commit) with
                  | Some oid => c ← obj_peel oid; Ok (Some c)
                  | None => Ok None
                  end);
  _ ← repo_merge_with_base reference base merge_opts_default;
  mret tt.

Definition cherrypick_commit (oid : Oid) : st Repository unit := cherrypick (Direct oid).

Definition cherrypick_many (refs : list BitRef) : st Repository unit :=
  _ ← st_for_each cherrypick refs;
  st_lift Panic.
End repo.

(** ** The same files *)

Lemma files_elem l k : k ∈ files l ↔ ∃ x, x ∈ l ∧ entry_is_blob x = true ∧ k = tree_entry_from_index_entry x.
Proof.
  unfold files. rewrite list_elem_of_fmap. setoid_rewrite list_elem_of_In. setoid_rewrite List.filter_In.
  split; [intros (x & -> & []); eauto|intros (x & ? & ? & ->); eauto].
Qed.

(** Lists with the same files do not differ. *)
Lemma same_files_no_diff upd O N :
  diff_list N → files O ≡ₚ files N → diff_spec oid_differs upd O N = status_default.
Proof.
  intros HN Hf.
  assert (∀ x, x ∈ O → entry_is_blob x = true → ∃ y, find_blob (ie_path x) N = Some y ∧ ie_oid y = ie_oid x) as HO1.
  { intros x Hx Hb. assert (tree_entry_from_index_entry x ∈ files N) as (y & Hy & Hyb & [= _ Hp Ho])%files_elem
      by (rewrite <- Hf; apply files_elem; eauto).
    exists y. split; [|done]. rewrite Hp. by apply find_blob_in. }
  unfold diff_spec, only_in. f_equal.
  - apply bool_filter_none. intros y Hy. destruct (entry_is_blob y) eqn:Hb; [|done]. cbn.
    assert (tree_entry_from_index_entry y ∈ files O) as (x & Hx & Hxb & [= _ Hp Ho])%files_elem
      by (rewrite Hf; apply files_elem; eauto).
    unfold absent. destruct (find_blob (ie_path y) O) eqn:E; [done|].
    exfalso. by apply (proj1 (find_blob_None _ _) E x).
  - apply omap_none. intros x Hx. unfold modified_pair. destruct (entry_is_blob x) eqn:Hb; [|done].
    destruct (HO1 x Hx Hb) as (y & -> & Ho). unfold oid_differs. by rewrite bool_decide_false by (rewrite Ho; auto).
  - apply bool_filter_none. intros x Hx. destruct (entry_is_blob x) eqn:Hb; [|done]. cbn.
    destruct (HO1 x Hx Hb) as (y & E & _). unfold absent. by rewrite E.
Qed.

Lemma index_listing_files idx : files_ok (std_iter idx) → files (index_tree_listing idx) = files (std_iter idx).
Proof.
  intros (_ & _ & Hb & _). unfold index_tree_listing. rewrite files_tree by done. unfold files.
  rewrite filter_blob_listing, bool_filter_id; [done| |done|].
  - rewrite Forall_forall in Hb. intros x Hx. by apply Hb.
  - eapply Forall_impl; [exact Hb|]. by intros ? [].
Qed.

(** The paths of the listing do not depend on the tree cache. *)
Lemma index_listing_paths idx idx' :
  std_iter idx = std_iter idx' → ie_path <$> index_tree_listing idx = ie_path <$> index_tree_listing idx'.
Proof.
  intros E. unfold index_tree_listing. rewrite E, !fmap_cons. f_equal.
  clear E. generalize [EMPTY]. induction (std_iter idx') as [|e es IH]; intros seen; [done|].
  cbn [index_listing]. rewrite !fmap_app, !fmap_cons, IH, <- !list_fmap_compose. done.
Qed.

Lemma sorted_paths_map l l' : ie_path <$> l = ie_path <$> l' → sorted_paths l' → sorted_paths l.
Proof.
  intros E Hs. assert (StronglySorted (λ p q, path_cmp p q = Lt) (ie_path <$> l)) as H.
  { rewrite E. clear E. induction Hs as [|y l' _ IH Hy]; constructor; [done|by apply Forall_fmap]. }
  clear E Hs. induction l as [|x l IH]; [by constructor|]. inversion_clear H as [|?? H' Hx].
  constructor; [by apply IH|by apply Forall_fmap in Hx].
Qed.

(** ** Committing the index *)

Section commit_theorem.
Context (metadata : Worktree → BitPath → Metadata) (index_mtime : option Timespec).
Context {Gitignore : Type} (is_ignore : Gitignore → BitPath → bool → bool) (gitignore : Gitignore).
Context (walk_dir : Worktree → list (BitResult DirEntry)).
Context (read_obj : Oid → BitResult BitObjKind) (read_obj_header : Oid → BitResult BitObjHeader).
Context (write_blob : bytes → BitResult Oid) (hash_blob : bytes → Oid).
Context (write_tree_obj : MutableTree → BitResult Oid) (write_commit_obj : MutableCommit → BitResult Oid).
Context `{Hex} (bitdir : BitPath) (ensure_obj_is_commit : Oid → BitResult unit).
Context (user_signature : BitResult BitSignature) (read_commit_msg : BitResult CommitMessage).
Context (fuel : nat).

#[local] Abbreviation treeish := (obj_treeish read_obj).
#[local] Abbreviation trees := (obj_tree read_obj).

(** Trees are stored under their ids and are ordered alike by name and by git's order; what has been
    written can be read. *)
Context (store : store_ok trees) (Hplain : ∀ oid kids, treeish oid = Ok kids → plain_tree kids).
Context (write_reads : ∀ t oid, write_tree_obj t = Ok oid →
  is_known oid = true ∧ tree_entries trees oid = Ok (mt_entries t)).
Context (commit_reads : ∀ c oid, write_commit_obj c = Ok oid → obj_peel read_obj oid = Ok (mk_Commit oid c)).

Lemma trees_treeish oid kids : tree_entries trees oid = Ok kids → treeish oid = Ok kids.
Proof.
  intros (t & Et & <-)%tree_entries_ok. pose proof (proj1 store _ _ Et) as Eo.
  unfold obj_treeish, obj_treeish_oid. pose proof Et as Et'. unfold obj_tree in Et'.
  destruct (read_obj oid) as [[| |cached es]| |]; try done. cbn in Et'. injection Et' as <-. cbn in Eo |- *.
  by rewrite Eo, Et.
Qed.

(** A tree with the files of the index is listed, and does not differ from the index. *)
Lemma committed_listing tree idx :
  holds_files (tree_entries trees) tree EMPTY (files (std_iter idx)) → files_ok (std_iter idx) →
  ∃ N, tree_listing treeish tree N ∧ files N ≡ₚ files (index_tree_listing idx).
Proof.
  intros (kids & l & Hk & Ht & Hok & Hg & Hl & Hf & _) Hfiles.
  exists (index_entry_from_tree_entry (root_entry tree) :: l). split.
  - exists kids, l. split_and!; [|done| |done].
    + unfold root_entry. cbn. rewrite Hk. by apply trees_treeish.
    + by eapply listing_mono; [apply trees_treeish|].
  - rewrite index_listing_files by done. by rewrite files_tree.
Qed.

#[local] Abbreviation the_commit := (commit metadata index_mtime is_ignore gitignore walk_dir read_obj read_obj_header
  write_blob hash_blob write_tree_obj write_commit_obj bitdir ensure_obj_is_commit user_signature read_commit_msg fuel).

Lemma commit_tree_reads tree parents message oid :
  commit_tree read_obj read_obj_header write_commit_obj user_signature read_commit_msg tree parents message = Ok oid →
  ∃ c, obj_peel read_obj oid = Ok (mk_Commit oid c) ∧ c_tree c = tree ∧ c_parents c = parents
    ∧ (∀ m, message = Some m → c_message c = commit_message_from_str m).
Proof.
  unfold commit_tree. destruct message as [m|]; [|destruct read_commit_msg as [m| |]; [|done..]]; cbn [mbind outcome_bind];
    unfold write_commit; intros Ew; destruct (repo_mk_commit _ _ _ _ _ _) as [c| |] eqn:Ec; try done; cbn in Ew;
    exists c; (split; [by apply commit_reads|]); unfold repo_mk_commit in Ec;
    destruct (read_obj_header tree) as [h| |]; try done; cbn in Ec;
    destruct (ensure _ _) as [[]| |]; try done; cbn in Ec; destruct user_signature as [a| |]; try done; cbn in Ec;
    destruct (check_parents _ _ _) as [[]| |]; try done; cbn in Ec; injection Ec as <-;
    (split_and!; [done|done|]); intros m' Em; by simplify_eq.
Qed.

End commit_theorem.

(** ** Example

    [master] is at a commit of [theirs_listing]; the index of Status.v is committed on it. *)

Definition sample_user : BitSignature := mk_BitSignature (bs "A") (bs "a@b.c") (mk_BitTime 100 0).
Definition sample_old_commit : MutableCommit :=
  commit_new (sample_oid x04) [] (commit_message_from_str (bs "old")) sample_user sample_user.
Definition sample_new_commit : MutableCommit :=
  commit_new (sample_oid x03) [sample_oid x10] (commit_message_from_str (bs "new")) sample_user sample_user.

Definition sample_read_obj (oid : Oid) : BitResult BitObjKind :=
  if bool_decide (oid = sample_oid x10) then Ok (Odb.KCommit (mk_BitObjCached oid TCommit 0) sample_old_commit)
  else if bool_decide (oid = sample_oid x11) then Ok (Odb.KCommit (mk_BitObjCached oid TCommit 0) sample_new_commit)
  else kids ← merge_treeish oid; Ok (Odb.KTree (mk_BitObjCached oid TTree 0) kids).
Definition sample_read_header (oid : Oid) : BitResult BitObjHeader :=
  k ← sample_read_obj oid; Ok (mk_BitObjHeader (kind_obj_type k) 0).
Definition sample_write_trees (t : MutableTree) : BitResult Oid :=
  if bool_decide (mt_entries t = sample_root2) then Ok (sample_oid x03)
  else if bool_decide (mt_entries t = sample_dir) then Ok (sample_oid x02) else bail.
Definition sample_write_commit (c : MutableCommit) : BitResult Oid :=
  if bool_decide (c = sample_new_commit) then Ok (sample_oid x11) else bail.
Definition sample_branch : Fs :=
  mk_Fs (names sample_repo)
    {[ 0%nat := mk_Inode (bs "ref: refs/heads/master") false; 1%nat := mk_Inode (oid_display (sample_oid x10)) false ]} 2.

Lemma sample_obj_tree oid t :
  obj_tree sample_read_obj oid = Ok t → t_oid t = oid ∧ merge_treeish oid = Ok (t_entries t).
Proof.
  unfold obj_tree, sample_read_obj. case_bool_decide; [done|]. case_bool_decide; [done|].
  destruct (merge_treeish oid) as [k| |]; [|done..]. by intros [= <-].
Qed.

Lemma sample_obj_store_ok : store_ok (obj_tree sample_read_obj).
Proof.
  split; [by intros oid t []%sample_obj_tree|]. intros oid t [_ Ht]%sample_obj_tree. revert Ht.
  generalize (t_entries t) as kids. intros kids.
  unfold merge_treeish, sample_treeish2, sample_treeish. repeat case_bool_decide; intros [= <-]; vm_decide.
Qed.

Lemma sample_obj_plain oid kids : obj_treeish sample_read_obj oid = Ok kids → plain_tree kids.
Proof.
  unfold obj_treeish. destruct (obj_treeish_oid sample_read_obj oid) as [o| |]; [|done..]. cbn.
  destruct (obj_tree sample_read_obj o) as [t| |] eqn:E; [|done..]. intros [= <-].
  apply sample_obj_tree in E as [_ E]. by apply merge_plain in E.
Qed.

Lemma sample_writes_read t oid : sample_write_trees t = Ok oid →
  is_known oid = true ∧ tree_entries (obj_tree sample_read_obj) oid = Ok (mt_entries t).
Proof.
  unfold sample_write_trees. case_bool_decide as E1; [|case_bool_decide as E2; [|done]]; intros [= <-];
    (split; [done|]); [rewrite E1|rewrite E2]; vm_compute; reflexivity.
Qed.

Lemma sample_commit_reads c oid :
  sample_write_commit c = Ok oid → obj_peel sample_read_obj oid = Ok (mk_Commit oid c).
Proof. unfold sample_write_commit. case_bool_decide as E; [|done]. intros [= <-]. by rewrite E. Qed.

Definition sample_old_listing : list BitIndexEntry := dir_at EMPTY x10 :: tail theirs_listing.

Lemma sample_listing_old : tree_listing (obj_treeish sample_read_obj) (sample_oid x10) sample_old_listing.
Proof.
  eexists _, _; split_and!; [vm_compute; reflexivity|vm_decide..| |reflexivity].
  apply listing_blob; [done|].
  apply (listing_tree _ _ [] [mk_TreeEntry REG (bs "f") (sample_oid x0f)]
    [file_at (bs "e/f") x0f] []); [done|done|vm_compute; reflexivity|vm_decide| |constructor].
  apply listing_blob; [done|constructor].
Qed.

Lemma sample_listing_new : tree_listing (obj_treeish sample_read_obj) (sample_oid x03) sample_listing2.
Proof.
  eexists _, _; split_and!; [vm_compute; reflexivity|vm_decide..| |reflexivity].
  do 2 (apply listing_blob; [done|]).
  apply (listing_tree _ _ [] sample_dir
    [index_entry_from_tree_entry (mk_TreeEntry EXEC (bs "d/b") (sample_oid x0b))] []);
    [done|done|vm_compute; reflexivity|vm_decide| |constructor].
  apply listing_blob; [done|constructor].
Qed.

#[local] Abbreviation c_head := (read_head (bs "/git") (λ _, Ok tt) sample_branch).
#[local] Abbreviation c_parent :=
  (try_fully_resolve_ref (bs "/git") (λ _, Ok tt) 20 (Symbolic sym_master) (snd c_head)).
#[local] Abbreviation c_tree_of :=
  (repo_head_tree sample_read_obj (bs "/git") (λ _, Ok tt) 20 (snd c_parent)).
#[local] Abbreviation c_update :=
  (update_ref (bs "/git") (λ _, Ok tt) (Ok sample_user) 20 sym_master (Direct (sample_oid x11))
     (CauseCommit (bs "new") CommitNormal) (snd c_tree_of)).
#[local] Abbreviation c_write depth := (write_tree (obj_tree sample_read_obj) sample_write_trees 20 depth sample_staged).

Lemma fst_eq {A B} (p : A * B) a : fst p = a → p = (a, snd p).
Proof. destruct p. by intros <-. Qed.

Lemma sample_commit_ready : index_ready (obj_tree sample_read_obj) sample_disk_paths sample_staged.
Proof. destruct sample_index_ready as [H1 H2 H3 _ H5]. by split. Qed.

Lemma sample_commit_writes n : c_write (20 + n) = (Ok (sample_oid x03), snd (c_write 20)).
Proof. vm_compute. reflexivity. Qed.


(** ** Merging with changes that are not committed *)

(** As [disk_metadata], with the length of the file, and its time after it. *)
Definition sized_metadata (w : Worktree) (p : BitPath) : Metadata :=
  let mode := match w !! p with Some (File EXEC _) => 493%Z | _ => 420%Z end in
  let size := match w !! p with Some (File _ data) => Z.of_nat (length data) | _ => 1%Z end in
  mk_Metadata (match w !! p with Some (File LINK _) => true | _ => false end) false mode (3, 0)%Z (2 + size, 0)%Z 0 7 0 0 size.

(** [jwalk] over the files of the example. *)
Definition sample_walk (w : Worktree) : list (BitResult DirEntry) :=
  Ok <$> (mk_DirEntry true EMPTY
    :: omap (λ p, (λ n, mk_DirEntry (match n with Dir => true | _ => false end) p) <$> w !! p)
         [bs "a"; bs "c"; bs "d"; bs "d/b"; bs "e"; bs "e/f"]).

(** [HEAD] and the base have the tree [x03]; theirs has the tree [x04], with another [a]. *)
Definition conflict_read_obj (oid : Oid) : BitResult BitObjKind :=
  if bool_decide (oid = sample_oid x12) then
    Ok (Odb.KCommit (mk_BitObjCached oid TCommit 0)
          (commit_new (sample_oid x04) [sample_oid x10] (commit_message_from_str (bs "theirs")) sample_user sample_user))
  else if bool_decide (oid = sample_oid x10) then
    Ok (Odb.KCommit (mk_BitObjCached oid TCommit 0)
          (commit_new (sample_oid x03) [] (commit_message_from_str (bs "ours")) sample_user sample_user))
  else match sample_read_obj oid with
       | Ok k => Ok k
       | _ => if bool_decide (length (toy_content oid) = 1) then
                Ok (Odb.KBlob (mk_BitObjCached oid TBlob 1) (mk_MutableBlob (toy_content oid))) else bail
       end.

(** [a] has been edited. *)
Definition user_edit : bytes := [x77; x77].
Definition user_disk : Worktree := <[bs "a" := File REG user_edit]> sample_disk.

Definition conflict_merge (opts : MergeOpts) (w : Worktree) : BitResult MergeResults * Repository :=
  repo_merge_with_base sized_metadata (Some (mk_Timespec 5 0)) no_ignore tt sample_walk (λ _ _ _ _ _, inr [])
    conflict_read_obj (λ _, Err Anyhow) (λ d, Ok (toy_hash d)) toy_hash sample_write_trees (λ _, bail) (bs "/git")
    (λ _, Ok tt) (Ok sample_user) (Err Anyhow) 30 30 (Direct (sample_oid x12))
    (Some (mk_Commit (sample_oid x10)
      (commit_new (sample_oid x03) [] (commit_message_from_str (bs "ours")) sample_user sample_user)))
    opts (mk_RepoState sample_staged w, sample_branch).
#[local] Abbreviation disk_files s := (MigrateClean.worktree_file (rs_worktree (fst s)) <$> [bs "a"; bs "c"; bs "d/b"; bs "e/f"]).

(** A merge does not protect what has not been committed: it refuses only after it has merged.
    Here [a] has been edited and theirs changes it too: the merge ends in the error that lists [a]
    and the index is as before, but the worktree is theirs: the edit is lost, the files that theirs
    does not have are gone, and its new file is there.  The safe checkout that is to restore the
    worktree compares the index with [HEAD], which agree, and does nothing. *)
Theorem merge_loses_unstaged_edit :
  let '(r, s) := conflict_merge (mk_MergeOpts false true true) user_disk in
  r = Err (AnyhowBit (MergeConflict (mk_MergeConflicts [bs "a"])))
  ∧ (λ kv, (kv.1, ie_oid kv.2)) <$> idx_entries (rs_index (fst s)) = (λ kv, (kv.1, ie_oid kv.2)) <$> idx_entries sample_staged
  ∧ disk_files (mk_RepoState sample_staged user_disk, sample_branch)
    = [Some (REG, user_edit); Some (REG, [x0c]); Some (EXEC, [x0b]); None]
  ∧ disk_files s = [Some (REG, [x2a]); None; None; Some (REG, [x0f])].
Proof. vm_compute. done. Qed.
