(* ===== verification/Protocol.v ===== *)
(** * Protocol

    The packets of [libbit/src/protocol.rs] and the server of [libbit/src/upload_pack.rs]: lines with
    their length in front, messages that end in a flush packet, and the pack that comes over a side
    band.  What a peer sends is read as the list of all its bytes; a write is the bytes written. *)

From Stdlib Require Import ZArith Lia.
From Stdlib Require Import Strings.Byte.
From stdpp Require Import base tactics option list countable strings.
From S2P Require Import Prelude RustStd Data Io Hash Path Refs.

#[local] Open Scope Z_scope.

Inductive Capability :=
| MultiAck | MultiAckDetailed
| Agent (agent : bytes)
| Symref (from to : SymbolicRef)
| SideBand64k
| ObjectFormat (format : bytes)
| SideBand | ThinPack | OfsDelta | Shallow | DeepenSince | DeepenNot | DeepenRelative | NoProgress
| IncludeTag | AllowTipSha1InWant | AllowReachableSha1InWant | Filter.
#[export] Instance Capability_eq_dec : EqDecision Capability.
Proof. solve_decision. Defined.

Definition SIDEBAND_DATA : Z := 1.
Definition SIDEBAND_PROGRESS : Z := 2.
Definition SIDEBAND_ERROR : Z := 3.

(** ** Reading *)

Definition read_contents_with_parsed_len (n : Z) : reader bytes :=
  if bool_decide (n = 0) then mret []
  else if n <? 4 then lift Panic   (* [n - 4] wraps to the size of a vector that cannot be had *)
  else read_exact (Z.to_nat (n - 4)).

Definition read_contents (length : bytes) : reader bytes :=
  n ← lift (_ ← ensure (utf8_valid length) Anyhow; ok_or Anyhow (parse_unsigned 16 (2 ^ 64 - 1) length));
  read_contents_with_parsed_len n.

Definition recv_packet : reader bytes :=
  length ← read_exact 4;
  read_contents length.

Definition is_ack_nak (packet : bytes) : bool :=
  utf8_valid packet && (starts_with (bs "ACK") packet || starts_with (bs "NAK") packet).

(** The loops of [recv_pack] and [recv_message].  A packet takes four bytes, so the length of what is
    read bounds the number of iterations ([recv_packet_shorter]). *)
Fixpoint skip_acks (fuel : nat) (packet : bytes) : reader bytes :=
  match fuel with
  | O => lift Panic
  | S fuel => if is_ack_nak packet then packet ← recv_packet; skip_acks fuel packet else mret packet
  end.

(** The [match] on the side band: what is written to the file. *)
Definition demux (packet : bytes) : BitResult bytes :=
  match packet with
  | [] => Panic
  | sideband :: data =>
      let sideband := u8 sideband in
      if bool_decide (sideband = SIDEBAND_DATA) then Ok data
      else if bool_decide (sideband = SIDEBAND_PROGRESS) then _ ← ensure (utf8_valid data) Anyhow; Ok []
      else if bool_decide (sideband = SIDEBAND_ERROR) then Panic
      else bail
  end.

Fixpoint recv_sidebands (fuel : nat) (written packet : bytes) : reader bytes :=
  match fuel with
  | O => lift Panic
  | S fuel =>
      if bool_decide (packet = []) then mret written
      else
        data ← lift (demux packet);
        packet ← recv_packet;
        recv_sidebands fuel (written ++ data) packet
  end.

(** The bytes of the pack that [recv_pack] writes to its file. *)
Definition recv_pack_bytes : reader bytes := λ s,
  let fuel := S (length s) in
  (packet ← recv_packet;
   packet ← skip_acks fuel packet;
   recv_sidebands fuel [] packet) s.

Fixpoint recv_message_loop (fuel : nat) (packets : list bytes) : reader (list bytes) :=
  match fuel with
  | O => lift Panic
  | S fuel =>
      packet ← recv_packet;
      if bool_decide (packet = []) || bool_decide (packet = bs "done") then mret packets
      else recv_message_loop fuel (packets ++ [packet])
  end.

Definition recv_message : reader (list bytes) := λ s, recv_message_loop (S (length s)) [] s.

(** ** Writing *)

Definition write_packet (data : bytes) : BitResult bytes :=
  let n := Z.of_nat (length data) in
  _ ← assert_that (n <? 65535);
  Ok (pad_zero 4 (print_radix 16 (4 + n)) ++ data).

Definition write_flush_packet : bytes := bs "0000".

Definition write_packets (l : list bytes) : BitResult bytes :=
  packets ← collect write_packet l; Ok (mjoin (packets : list bytes)).

Section hex.
Context `{Hex}.

Definition want (oid : Oid) : BitResult bytes := write_packet (bs "want " ++ oid_display oid ++ [x0a]).
Definition have (oid : Oid) : BitResult bytes := write_packet (bs "have " ++ oid_display oid ++ [x0a]).
Definition write_done : BitResult bytes := write_packet (bs "done").

(** ** upload_pack.rs *)

(** [CAPABILITIES.join]: none is enabled. *)
Definition CAPABILITIES : bytes := [].

(** [parse_cmd_line] of an [Oid]. *)
Definition parse_cmd_line (cmd packet : bytes) : BitResult Oid :=
  _ ← ensure (utf8_valid packet) Anyhow;
  '(c, oid) ← ok_or Anyhow (split_once x20 packet);
  _ ← ensure (bool_decide (c = cmd)) Anyhow;
  oid_from_str oid.

Definition recv_wanted : reader (list Oid) :=
  packets ← recv_message; lift (collect (parse_cmd_line (bs "want")) packets).

Definition recv_has : reader (list Oid) :=
  packets ← recv_message; lift (collect (parse_cmd_line (bs "have")) packets).

(** The loop of [write_ref_discovery] over the references and what they resolve to. *)
Fixpoint write_refs_loop (i : nat) (refs : list (SymbolicRef * option Oid)) : BitResult bytes :=
  match refs with
  | [] => Ok []
  | (r, None) :: refs => write_refs_loop (S i) refs
  | (r, Some oid) :: refs =>
      line ← write_packet
               (if bool_decide (i = O)
                then oid_display oid ++ [x20] ++ sym_path r ++ [x00] ++ CAPABILITIES ++ [x0a]
                else oid_display oid ++ [x20] ++ sym_path r ++ [x0a]);
      rest ← write_refs_loop (S i) refs;
      Ok (line ++ rest)
  end.

(** [write_ref_discovery], after the references are sorted and resolved. *)
Definition write_ref_discovery (refs : list (SymbolicRef * option Oid)) : BitResult bytes :=
  w ← write_refs_loop 0 refs; Ok (w ++ write_flush_packet).
End hex.

(** ** Packets *)

(** What fits in a packet, and is not taken for a flush packet. *)
Definition packet_ok (data : bytes) : Prop := 1 ≤ Z.of_nat (length data) ≤ 65531.

Definition packet_bytes (data : bytes) : bytes :=
  pad_zero 4 (print_radix 16 (4 + Z.of_nat (length data))) ++ data.

Lemma parse_hex_padded w n :
  0 ≤ n < 2 ^ 64 → parse_unsigned 16 (2 ^ 64 - 1) (pad_zero w (print_radix 16 n)) = Some n.
Proof.
  intros Hn. assert (parse_digits 16 (2 ^ 64 - 1) 0 (pad_zero w (print_radix 16 n)) = Some n) as E.
  { unfold pad_zero. rewrite parse_digits_zeros by lia. apply parse_digits_print; lia. }
  assert (Forall is_digit (pad_zero w (print_radix 16 n))) as Hd
    by (apply pad_zero_digits, print_radix_digits; lia).
  rewrite <- E.
  destruct (pad_zero w (print_radix 16 n)) as [|b s] eqn:Ep.
  { unfold pad_zero in Ep. apply app_eq_nil in Ep as [_ Ep]. by apply print_radix_ne in Ep. }
  apply parse_unsigned_digits. by inversion Hd.
Qed.

Lemma length_header n : 0 ≤ n < 65536 → length (pad_zero 4 (print_radix 16 n)) = 4%nat.
Proof.
  intros Hn. rewrite length_pad_zero.
  assert (length (print_radix 16 n) ≤ 4)%nat; [|lia].
  apply print_radix_length; [lia|change (16 ^ Z.of_nat 4) with 65536; lia|lia].
Qed.

Lemma read_exact_app n s rest : length s = n → read_exact n (s ++ rest) = Ok (s, rest).
Proof.
  intros <-. unfold read_exact. rewrite (proj2 (Nat.leb_le _ _)) by (rewrite length_app; lia).
  by rewrite take_app_length, drop_app_length.
Qed.

Lemma lift_bind {A B} (r : BitResult A) (f : A → reader B) a s : r = Ok a → (lift r ≫= f) s = f a s.
Proof. by intros ->. Qed.

Lemma reader_bind_ok {A B} (m : reader A) (f : A → reader B) s a s' : m s = Ok (a, s') → (m ≫= f) s = f a s'.
Proof. unfold mbind, reader_bind. by intros ->. Qed.

Lemma write_packet_bytes data : Z.of_nat (length data) < 65535 → write_packet data = Ok (packet_bytes data).
Proof. intros Hn. unfold write_packet. by rewrite (proj2 (Z.ltb_lt _ _)). Qed.

(** A header of four digits: the contents follow. *)
Lemma recv_contents n data rest :
  4 ≤ n < 65536 → Z.of_nat (length data) = n - 4 →
  recv_packet (pad_zero 4 (print_radix 16 n) ++ data ++ rest) = Ok (data, rest).
Proof.
  intros Hn Hl. unfold recv_packet. erewrite reader_bind_ok by (by apply read_exact_app, length_header; lia).
  unfold read_contents. rewrite (lift_bind _ _ n).
  - unfold read_contents_with_parsed_len. rewrite bool_decide_false by lia.
    rewrite (proj2 (Z.ltb_ge _ _)) by lia. apply read_exact_app. lia.
  - rewrite utf8_digits by (apply pad_zero_digits, print_radix_digits; lia).
    cbn [ensure mbind outcome_bind]. by rewrite parse_hex_padded by lia.
Qed.

Lemma recv_packet_bytes data rest :
  Z.of_nat (length data) ≤ 65531 → recv_packet (packet_bytes data ++ rest) = Ok (data, rest).
Proof. intros Hn. unfold packet_bytes. rewrite <- app_assoc. apply recv_contents; lia. Qed.

Lemma recv_flush rest : recv_packet (write_flush_packet ++ rest) = Ok ([], rest).
Proof. done. Qed.

Lemma length_packet data : (4 ≤ length (packet_bytes data))%nat.
Proof. unfold packet_bytes. rewrite length_app, length_pad_zero. lia. Qed.

(** Receiving takes bytes. *)
Lemma read_exact_Ok n s a s' : read_exact n s = Ok (a, s') → s = a ++ s' ∧ length a = n.
Proof.
  unfold read_exact. destruct (Nat.leb_spec n (length s)); [|done]. intros [= <- <-].
  split; [by rewrite take_drop|]. rewrite length_take. lia.
Qed.

Lemma recv_packet_shorter s packet s' : recv_packet s = Ok (packet, s') → (length s' < length s)%nat.
Proof.
  unfold recv_packet, mbind, reader_bind. destruct (read_exact 4 s) as [[l s1]| |] eqn:E1; [|done..].
  apply read_exact_Ok in E1 as [-> Hl]. unfold read_contents, mbind, reader_bind, lift.
  destruct (ensure _ _) as [[]| |]; cbn; [|done..]. destruct (ok_or _ _) as [n| |]; cbn; [|done..].
  unfold read_contents_with_parsed_len. case_bool_decide; [intros [= _ <-]; rewrite length_app; lia|].
  destruct (n <? 4); [done|]. intros [-> _]%read_exact_Ok. rewrite !length_app. lia.
Qed.

(** ** Streams of packets *)

(** A packet on the wire; the empty one is the flush packet. *)
Definition wire (p : bytes) : bytes := if bool_decide (p = []) then write_flush_packet else packet_bytes p.
Definition stream (ps : list bytes) : bytes := mjoin (wire <$> ps).

Lemma stream_cons p ps s : stream (p :: ps) ++ s = wire p ++ stream ps ++ s.
Proof. unfold stream. cbn. by rewrite <- app_assoc. Qed.

Lemma stream_app ps qs : stream (ps ++ qs) = stream ps ++ stream qs.
Proof. unfold stream. by rewrite fmap_app, join_app. Qed.

Lemma recv_wire p s : Z.of_nat (length p) ≤ 65531 → recv_packet (wire p ++ s) = Ok (p, s).
Proof.
  intros Hp. unfold wire. case_bool_decide as E; [by subst|]. by apply recv_packet_bytes.
Qed.

Lemma length_stream ps : (length ps ≤ length (stream ps))%nat.
Proof.
  induction ps as [|p ps IH]; [done|]. change (stream (p :: ps)) with (wire p ++ stream ps). rewrite length_app.
  assert (4 ≤ length (wire p))%nat; [|cbn; lia]. unfold wire. case_bool_decide; [cbn; lia|apply length_packet].
Qed.

Lemma write_packets_stream ps : Forall packet_ok ps → write_packets ps = Ok (stream ps).
Proof.
  intros Hps. unfold write_packets.
  assert (collect write_packet ps = Ok (wire <$> ps)) as ->; [|done].
  induction Hps as [|p ps Hp Hps IH]; [done|]. unfold packet_ok in Hp. cbn.
  rewrite write_packet_bytes by lia. cbn. rewrite IH. cbn. unfold wire at 2.
  rewrite bool_decide_false; [done|]. intros ->. cbn in Hp. lia.
Qed.

Definition message_ok (ps : list bytes) : Prop := Forall (λ p, packet_ok p ∧ p ≠ bs "done") ps.

Lemma message_packets ps : message_ok ps → Forall packet_ok ps.
Proof. intros H. eapply Forall_impl; [exact H|]. by intros p []. Qed.

Lemma recv_message_loop_ok ps last rest : message_ok ps → last = [] ∨ last = bs "done" →
  ∀ fuel acc, (length ps < fuel)%nat →
  recv_message_loop fuel acc (stream ps ++ wire last ++ rest) = Ok (acc ++ ps, rest).
Proof.
  intros Hps Hlast. induction Hps as [|p ps [Hp Hd] Hps IH]; intros fuel acc Hf.
  - destruct fuel as [|fuel]; [cbn in Hf; lia|]. cbn [recv_message_loop].
    erewrite reader_bind_ok by (apply recv_wire; destruct Hlast as [-> | ->]; cbn; lia).
    rewrite app_nil_r. by destruct Hlast as [-> | ->].
  - destruct fuel as [|fuel]; [cbn in Hf; lia|]. cbn [recv_message_loop]. rewrite stream_cons.
    unfold packet_ok in Hp. erewrite reader_bind_ok by (apply recv_wire; lia).
    rewrite bool_decide_false, bool_decide_false by (done || (intros ->; cbn in Hp; lia)). cbn [orb].
    rewrite IH by (cbn in Hf; lia). by rewrite <- app_assoc.
Qed.

Lemma recv_message_ok ps last rest : message_ok ps → last = [] ∨ last = bs "done" →
  recv_message (stream ps ++ wire last ++ rest) = Ok (ps, rest).
Proof.
  intros Hps Hlast. unfold recv_message. rewrite (recv_message_loop_ok ps last rest) by
    (done || (pose proof (length_stream ps); rewrite !length_app; lia)). done.
Qed.

(** ** The pack over the side band *)

Inductive Band := BData (data : bytes) | BProgress (msg : bytes).
Definition band_packet (b : Band) : bytes := match b with BData d => x01 :: d | BProgress m => x02 :: m end.
Definition band_data (b : Band) : bytes := match b with BData d => d | BProgress _ => [] end.
Definition band_ok (b : Band) : Prop :=
  Z.of_nat (length (band_packet b)) ≤ 65531 ∧ match b with BData _ => True | BProgress m => utf8_valid m = true end.

Lemma skip_acks_ok acks q s : Forall (λ p, is_ack_nak p = true ∧ Z.of_nat (length p) ≤ 65531) acks →
  is_ack_nak q = false → Z.of_nat (length q) ≤ 65531 → ∀ fuel, (length acks < fuel)%nat →
  (packet ← recv_packet; skip_acks fuel packet) (stream acks ++ wire q ++ s) = Ok (q, s).
Proof.
  intros Hacks Hq Hl. induction Hacks as [|p acks [Hp Hpl] Hacks IH]; intros fuel Hf;
    (destruct fuel as [|fuel]; [cbn in Hf; lia|]).
  - erewrite reader_bind_ok by by apply recv_wire. cbn [skip_acks]. by rewrite Hq.
  - rewrite stream_cons. erewrite reader_bind_ok by by apply recv_wire. cbn [skip_acks]. rewrite Hp.
    apply IH. cbn in Hf. lia.
Qed.

Lemma band_wire b : wire (band_packet b) = packet_bytes (band_packet b).
Proof. unfold wire. by destruct b. Qed.

Lemma recv_sidebands_ok bands rest : Forall band_ok bands → ∀ fuel acc, (length bands < fuel)%nat →
  (packet ← recv_packet; recv_sidebands fuel acc packet) (stream (band_packet <$> bands) ++ wire [] ++ rest)
  = Ok (acc ++ mjoin (band_data <$> bands), rest).
Proof.
  intros Hb. induction Hb as [|b bands [Hl Hu] Hb IH]; intros fuel acc Hf;
    (destruct fuel as [|fuel]; [cbn in Hf; lia|]).
  - erewrite reader_bind_ok by by apply recv_wire. cbn. by rewrite app_nil_r.
  - rewrite fmap_cons, stream_cons. erewrite reader_bind_ok by by apply recv_wire.
    cbn [recv_sidebands]. rewrite bool_decide_false by by destruct b.
    assert (demux (band_packet b) = Ok (band_data b)) as E.
    { destruct b as [d|m]; [done|]. cbn. by rewrite Hu. }
    rewrite (lift_bind _ _ _ _ E). rewrite IH by (cbn in Hf; lia). cbn. by rewrite <- app_assoc.
Qed.

Lemma band_not_ack b : is_ack_nak (band_packet b) = false.
Proof. unfold is_ack_nak. destruct b; cbn; apply andb_false_r. Qed.

(** C27: What [recv_pack] writes is the pack: after the acknowledgements, the data that comes over the
    side band is put together in order, and progress messages and the flush packet are left out; what
    follows is not read. *)
Theorem recv_pack_correct acks bands rest :
  Forall (λ p, is_ack_nak p = true ∧ Z.of_nat (length p) ≤ 65531) acks → Forall band_ok bands →
  recv_pack_bytes (stream acks ++ stream (band_packet <$> bands) ++ write_flush_packet ++ rest)
  = Ok (mjoin (band_data <$> bands), rest).
Proof.
  intros Hacks Hb. unfold recv_pack_bytes. set (s := stream acks ++ _).
  assert (length acks < S (length s) ∧ length bands < S (length s))%nat as [Hf1 Hf2].
  { pose proof (length_stream acks). pose proof (length_stream (band_packet <$> bands)) as H2.
    rewrite length_fmap in H2. subst s. rewrite !length_app. lia. }
  pose proof (recv_sidebands_ok bands rest Hb (S (length s)) [] Hf2) as E2.
  assert (∃ q s', stream (band_packet <$> bands) ++ write_flush_packet ++ rest = wire q ++ s'
    ∧ is_ack_nak q = false ∧ Z.of_nat (length q) ≤ 65531) as (q & s' & Es & Hq & Hl).
  { destruct Hb as [|b bands [Hl _] _]; [by exists [], rest|].
    eexists (band_packet b), _. rewrite fmap_cons, stream_cons. split; [done|]. split; [apply band_not_ack|done]. }
  change (wire []) with write_flush_packet in E2. subst s. rewrite Es in *.
  rewrite (reader_bind_ok _ _ _ _ _ (recv_wire q s' Hl)) in E2.
  pose proof (skip_acks_ok acks q s' Hacks Hq Hl _ Hf1) as E1.
  unfold mbind, reader_bind in E1 |- *. destruct (recv_packet _) as [[p1 s1]| |]; [|done..].
  rewrite E1. exact E2.
Qed.

(** C28: Messages survive the connection: packets of 1 to 65531 bytes, none of them [done], that are
    written one after the other and ended by a flush packet or by [done] are received as they were
    written, and what comes after them is left. *)
Theorem message_round_trip ps last rest :
  message_ok ps → last = write_flush_packet ∨ write_packet (bs "done") = Ok last →
  ∃ w, write_packets ps = Ok w ∧ recv_message (w ++ last ++ rest) = Ok (ps, rest).
Proof.
  intros Hps Hlast. exists (stream ps). split; [by apply write_packets_stream, message_packets|].
  destruct Hlast as [->|[= <-]]; [apply (recv_message_ok ps [])|apply (recv_message_ok ps (bs "done"))]; auto.
Qed.

(** C40: The length of a packet has four digits, but [write_packet] lets through packets that need five:
    with 65532 to 65534 bytes the reader takes 1000 for the length and goes on in the middle of the
    packet. *)
Theorem long_packet_misread data rest : 65532 ≤ Z.of_nat (length data) < 65535 →
  ∃ w p, write_packet data = Ok w ∧ recv_packet (w ++ rest) = Ok (p, drop 4096 w ++ rest) ∧ length p = 4092%nat.
Proof.
  intros Hn. assert (∃ c, packet_bytes data = bs "1000" ++ c :: data) as (c & E).
  { unfold packet_bytes. assert (Z.of_nat (length data) = 65532 ∨ Z.of_nat (length data) = 65533
      ∨ Z.of_nat (length data) = 65534) as [-> | [-> | ->]] by lia;
      [exists x30|exists x31|exists x32]; reflexivity. }
  assert (4092 ≤ length (c :: data))%nat as Hl by (cbn [length]; lia).
  exists (packet_bytes data), (take 4092 (c :: data)). split_and!; [apply write_packet_bytes; lia| |].
  - rewrite E. unfold recv_packet. rewrite <- app_assoc. erewrite reader_bind_ok by by apply read_exact_app.
    change (read_contents (bs "1000")) with (read_exact 4092).
    unfold read_exact. rewrite (proj2 (Nat.leb_le _ _)) by (rewrite length_app; lia).
    rewrite take_app_le, drop_app_le by done. done.
  - rewrite length_take. lia.
Qed.

(** ** What the server reads *)

Section requests.
Context `{Hex}.

Lemma parse_cmd_line_ok cmd oid : x20 ∉ cmd → utf8_valid cmd = true → oid_wf oid →
  parse_cmd_line cmd (cmd ++ [x20] ++ oid_display oid ++ [x0a]) = Ok oid.
Proof.
  intros Hc Hu Ho. unfold parse_cmd_line.
  assert (utf8_valid (cmd ++ [x20] ++ oid_display oid ++ [x0a]) = true) as ->.
  { repeat apply utf8_valid_app; try done. apply utf8_digits, oid_display_digits. }
  cbn [ensure mbind outcome_bind app]. rewrite split_once_app by done. cbn [ok_or mbind outcome_bind].
  rewrite bool_decide_true by done. cbn [ensure mbind outcome_bind].
  apply oid_from_str_display; [done|repeat constructor].
Qed.

Lemma requests_ok (cmd : bytes) (oids : list Oid) last rest :
  x20 ∉ cmd → utf8_valid cmd = true → (length cmd ≤ 100)%nat → Forall oid_wf oids → last = [] ∨ last = bs "done" →
  ∃ ps, collect (λ oid, write_packet (cmd ++ [x20] ++ oid_display oid ++ [x0a])) oids = Ok (wire <$> ps)
    ∧ recv_message (stream ps ++ wire last ++ rest) = Ok (ps, rest)
    ∧ collect (parse_cmd_line cmd) ps = Ok oids.
Proof.
  intros Hc Hu Hl Ho Hlast. set (line (oid : Oid) := cmd ++ [x20] ++ oid_display oid ++ [x0a]).
  change (λ oid, write_packet (cmd ++ [x20] ++ oid_display oid ++ [x0a])) with (λ oid, write_packet (line oid)).
  assert (∀ oid, oid_wf oid → packet_ok (line oid) ∧ line oid ≠ bs "done") as Hline.
  { intros oid Hoid. split.
    - unfold packet_ok, line. rewrite !length_app, length_oid_display, Hoid. cbn. lia.
    - intros E. assert (x20 ∉ bs "done") as Hno by vm_decide. apply Hno.
      rewrite <- E. unfold line. rewrite !elem_of_app. right. left. by apply list_elem_of_here. }
  exists (line <$> oids). split_and!.
  - induction Ho as [|oid oids Hoid Ho IH]; [done|]. destruct (Hline oid Hoid) as [[H1 H2] H3].
    cbn [collect]. rewrite (write_packet_bytes (line oid)) by lia. cbn [mbind outcome_bind]. rewrite IH.
    cbn [mbind outcome_bind fmap list_fmap]. unfold wire at 2.
    rewrite bool_decide_false; [done|]. intros E. rewrite E in H1. cbn in H1. lia.
  - apply recv_message_ok; [|done]. apply Forall_fmap. eapply Forall_impl; [exact Ho|]. apply Hline.
  - induction Ho as [|oid oids Hoid Ho IH]; [done|]. rewrite fmap_cons. cbn [collect].
    rewrite (parse_cmd_line_ok cmd oid Hc Hu Hoid : parse_cmd_line cmd (line oid) = Ok oid).
    cbn [mbind outcome_bind]. by rewrite IH.
Qed.

(** The server reads the requests of the client: [want] lines that are ended by a flush packet and
    [have] lines that are ended by [done] give the ids that were asked for. *)
Theorem requests_round_trip wants haves rest :
  Forall oid_wf wants → Forall oid_wf haves →
  ∃ w h d, collect want wants = Ok w ∧ collect have haves = Ok h ∧ write_done = Ok d
    ∧ (wanted ← recv_wanted; has ← recv_has; mret (wanted, has))
        (mjoin (w : list bytes) ++ write_flush_packet ++ mjoin (h : list bytes) ++ d ++ rest)
      = Ok ((wants, haves), rest).
Proof.
  intros Hw Hh.
  destruct (requests_ok (bs "have") haves (bs "done") rest ltac:(vm_decide) eq_refl ltac:(cbn; lia) Hh (or_intror eq_refl))
    as (hs & E1 & E2 & E3).
  destruct (requests_ok (bs "want") wants [] (stream hs ++ wire (bs "done") ++ rest) ltac:(vm_decide) eq_refl
    ltac:(cbn; lia) Hw (or_introl eq_refl)) as (ws & F1 & F2 & F3).
  exists (wire <$> ws), (wire <$> hs), (wire (bs "done")). split_and!; [exact F1|exact E1|done|].
  change (mjoin (wire <$> ws)) with (stream ws). change (mjoin (wire <$> hs)) with (stream hs).
  change write_flush_packet with (wire []).
  assert (recv_wanted (stream ws ++ wire [] ++ stream hs ++ wire (bs "done") ++ rest)
    = Ok (wants, stream hs ++ wire (bs "done") ++ rest)) as Ew.
  { unfold recv_wanted. rewrite (reader_bind_ok _ _ _ _ _ F2). by rewrite F3. }
  assert (recv_has (stream hs ++ wire (bs "done") ++ rest) = Ok (haves, rest)) as Eh.
  { unfold recv_has. rewrite (reader_bind_ok _ _ _ _ _ E2). by rewrite E3. }
  rewrite (reader_bind_ok _ _ _ _ _ Ew), (reader_bind_ok _ _ _ _ _ Eh). done.
Qed.
End requests.

(** ** Examples *)

Lemma recv_pack_correct_witness :
  recv_pack_bytes (stream [bs "NAK"] ++ stream (band_packet <$> [BData (bs "PA"); BProgress (bs "50%"); BData (bs "CK")])
    ++ write_flush_packet ++ bs "rest") = Ok (bs "PACK", bs "rest").
Proof.
  apply (recv_pack_correct [bs "NAK"] [BData (bs "PA"); BProgress (bs "50%"); BData (bs "CK")] (bs "rest")).
  - repeat constructor. cbn. lia.
  - repeat constructor; cbn; lia.
Defined.

Lemma message_round_trip_witness :
  ∃ w, write_packets [bs "a"; bs "bc"] = Ok w ∧ recv_message (w ++ bs "0008done" ++ bs "x") = Ok ([bs "a"; bs "bc"], bs "x").
Proof.
  apply (message_round_trip [bs "a"; bs "bc"] (bs "0008done") (bs "x")); [|by right].
  repeat constructor; (split; cbn; lia) || done.
Defined.

Lemma long_packet_misread_witness :
  ∃ w p, write_packet (replicate (Z.to_nat 65532) x00) = Ok w ∧ recv_packet (w ++ []) = Ok (p, drop 4096 w ++ [])
    ∧ length p = 4092%nat.
Proof.
  apply (long_packet_misread (replicate (Z.to_nat 65532) x00) []). rewrite length_replicate, Z2Nat.id; lia.
Defined.

Lemma requests_round_trip_witness :
  ∃ w h d, collect want [replicate 20 x01] = Ok w ∧ collect have [replicate 20 x02; replicate 20 x03] = Ok h ∧ write_done = Ok d
    ∧ (wanted ← recv_wanted; has ← recv_has; mret (wanted, has))
        (mjoin (w : list bytes) ++ write_flush_packet ++ mjoin (h : list bytes) ++ d ++ [])
      = Ok (([replicate 20 x01], [replicate 20 x02; replicate 20 x03]), []).
Proof. apply (requests_round_trip [replicate 20 x01] [replicate 20 x02; replicate 20 x03] []); repeat constructor. Defined.
