(* ===== verification/Remote.v ===== *)
(** * Remote

    Refspecs and remotes ([libbit/src/remote.rs]): how a refspec is read and printed, and how it maps
    the references of a remote to the references that follow them. *)

From Stdlib Require Import ZArith Lia.
From Stdlib Require Import Strings.Byte.
From stdpp Require Import base tactics option list countable strings.
From S2P Require Import Prelude RustStd Data Refs.

(** ** Refspecs *)

Record Refspec := mk_Refspec { rs_src : BitPath; rs_dst : BitPath; rs_forced : bool; rs_glob : bool }.

(** [PartialEq for Refspec] does not look at [glob]. *)
Definition refspec_eq (a b : Refspec) : bool :=
  bool_decide (rs_src a = rs_src b) && bool_decide (rs_dst a = rs_dst b)
  && bool_decide (rs_forced a = rs_forced b).

Definition default_fetch_for_remote (remote_name : bytes) : Refspec :=
  mk_Refspec (bs "refs/heads/") (bs "refs/remotes/" ++ remote_name ++ bs "/") true true.

Definition refspec_reverse (r : Refspec) : Refspec := mk_Refspec (rs_dst r) (rs_src r) (rs_forced r) (rs_glob r).

Definition match_ref (r : Refspec) (source : SymbolicRef) : option SymbolicRef :=
  path ← (if rs_glob r then
            suffix ← strip_prefix (rs_src r) (sym_path source); Some (rs_dst r ++ suffix)
          else if bool_decide (sym_path source = rs_src r) then Some (rs_dst r) else None);
  Some (symref_new path).

Definition reverse_match_ref (r : Refspec) (dst : SymbolicRef) : option SymbolicRef :=
  match_ref (refspec_reverse r) dst.

(** The slice [&s[0..1]] panics on the empty string and in the middle of a character. *)
Definition refspec_from_str (s : bytes) : BitResult Refspec :=
  '(forced, s) ← (match s with
                  | [] => Panic
                  | c :: s' => if negb (is_ascii c) then Panic
                               else if bool_decide (c = x2b) then Ok (true, s') else Ok (false, s)
                  end);
  '(src, dst) ← ok_or Anyhow (split_once x3a s);
  let '(src, src_is_glob) := match strip_suffix1 x2a src with Some stripped => (stripped, true) | None => (src, false) end in
  let '(dst, dst_is_glob) := match strip_suffix1 x2a dst with Some stripped => (stripped, true) | None => (dst, false) end in
  glob ← (match src_is_glob, dst_is_glob with
          | true, true => Ok true
          | false, false => Ok false
          | _, _ => bail
          end);
  Ok (mk_Refspec src dst forced glob).

Definition refspec_display (r : Refspec) : bytes :=
  (if rs_forced r then [x2b] else [])
  ++ (if rs_glob r then rs_src r ++ bs "*:" ++ rs_dst r ++ [x2a] else rs_src r ++ [x3a] ++ rs_dst r).

Record Remote (GitUrl : Type) := mk_Remote { remote_name : bytes; remote_url : GitUrl; remote_fetch : Refspec }.
Arguments mk_Remote {GitUrl}.
Arguments remote_name {GitUrl}.
Arguments remote_url {GitUrl}.
Arguments remote_fetch {GitUrl}.

(** ** Round trips *)

(** A refspec as it is written: what stands before the colon has none, a side that is not globbed does
    not end in a star, and the text does not start with a plus sign that was not meant. *)
Definition refspec_wf (r : Refspec) : Prop :=
  x3a ∉ rs_src r
  ∧ (rs_glob r = false → strip_suffix1 x2a (rs_src r) = None ∧ strip_suffix1 x2a (rs_dst r) = None)
  ∧ (rs_forced r = false → match rs_src r with [] => True | c :: _ => is_ascii c = true ∧ c ≠ x2b end).

Lemma strip_suffix1_app c s : strip_suffix1 c (s ++ [c]) = Some s.
Proof.
  unfold strip_suffix1. rewrite last_snoc, bool_decide_true by done. f_equal. rewrite length_app. cbn.
  rewrite Nat.add_sub. apply take_app_length.
Qed.

Lemma refspec_from_display r : refspec_wf r → refspec_from_str (refspec_display r) = Ok r.
Proof.
  intros (Hc & Hg & Hf). destruct r as [src dst forced glob]. cbn in Hc, Hg, Hf.
  set (body := if glob then src ++ bs "*:" ++ dst ++ [x2a] else src ++ [x3a] ++ dst).
  set (s1 := if glob then src ++ [x2a] else src). set (d1 := if glob then dst ++ [x2a] else dst).
  assert (split_once x3a body = Some (s1, d1)) as Eb.
  { subst body s1 d1. destruct glob.
    - change (src ++ bs "*:" ++ dst ++ [x2a]) with (src ++ [x2a] ++ x3a :: dst ++ [x2a]).
      rewrite app_assoc. apply split_once_app. rewrite elem_of_app, list_elem_of_singleton. by intros [?|?].
    - by apply split_once_app. }
  assert ((match refspec_display (mk_Refspec src dst forced glob) with
           | [] => Panic
           | c :: s' => if negb (is_ascii c) then Panic else if bool_decide (c = x2b) then Ok (true, s')
                        else Ok (false, refspec_display (mk_Refspec src dst forced glob))
           end : BitResult (bool * bytes)) = Ok (forced, body)) as Ed.
  { unfold refspec_display. cbn [rs_forced rs_glob rs_src rs_dst]. fold body. destruct forced; [done|]. cbn [app].
    specialize (Hf eq_refl). subst body. destruct src as [|c src]; [by destruct glob|].
    destruct Hf as [Ha Hp]. destruct glob; cbn [app]; by rewrite Ha, bool_decide_false. }
  unfold refspec_from_str. rewrite Ed. cbn [mbind outcome_bind]. rewrite Eb. cbn [ok_or mbind outcome_bind].
  subst s1 d1. destruct glob; [by rewrite !strip_suffix1_app|].
  destruct (Hg eq_refl) as [-> ->]. done.
Qed.

(** A refspec that is printed is read back. *)
Theorem refspec_round_trip r : refspec_wf r → refspec_from_str (refspec_display r) = Ok r.
Proof. apply refspec_from_display. Qed.

(** A symbolic reference as the program makes it. *)
Definition symref_made (s : SymbolicRef) : Prop := s = symref_new (sym_path s).

Lemma match_ref_reverse r s d : symref_made s → match_ref r s = Some d → reverse_match_ref r d = Some s.
Proof.
  intros Hs. unfold reverse_match_ref, match_ref, refspec_reverse. cbn [rs_src rs_dst rs_glob]. destruct (rs_glob r).
  - unfold strip_prefix. destruct (starts_with (rs_src r) (sym_path s)) eqn:E; [|done]. intros [= <-].
    apply starts_with_spec in E as [t E]. rewrite E, drop_app_length. cbn [sym_path symref_new].
    rewrite starts_with_app, drop_app_length. cbn. by rewrite <- E, <- Hs.
  - case_bool_decide as E; [|done]. intros [= <-]. cbn. rewrite bool_decide_true by done. cbn. by rewrite <- E, <- Hs.
Qed.

(** Matching a reference against a refspec and matching back are inverse, so no two references
    are stored under one name. *)
Theorem match_ref_inverse r s d : symref_made s → symref_made d →
  (match_ref r s = Some d ↔ reverse_match_ref r d = Some s).
Proof.
  intros Hs Hd. split; [by apply match_ref_reverse|]. intros E.
  pose proof (match_ref_reverse (refspec_reverse r) d s Hd E) as E'. by destruct r.
Qed.

(** Refspecs that compare as equal need not match alike. *)
Lemma refspec_eq_ignores_glob :
  let r glob := mk_Refspec (bs "refs/heads/a") (bs "refs/remotes/o/a") true glob in
  refspec_eq (r true) (r false) = true
  ∧ match_ref (r true) (symref_new (bs "refs/heads/ab")) ≠ match_ref (r false) (symref_new (bs "refs/heads/ab")).
Proof. by vm_compute. Qed.

(** ** Examples *)

Lemma refspec_round_trip_witness :
  refspec_from_str (refspec_display (default_fetch_for_remote (bs "origin"))) = Ok (default_fetch_for_remote (bs "origin")).
Proof. apply refspec_round_trip. split_and!; [vm_decide|done|done]. Defined.

Lemma match_ref_inverse_witness :
  reverse_match_ref (default_fetch_for_remote (bs "origin")) (symref_new (bs "refs/remotes/origin/main"))
  = Some (symref_new (bs "refs/heads/main")).
Proof. apply match_ref_inverse; [done|done|by vm_compute]. Defined.
