(* ===== verification/Config.v ===== *)
(** * Config

    [libbit/src/config.rs]: the configuration files of a repository, how their values are read, merged
    and changed, and the remotes that are kept in them ([libbit/src/remote.rs]).  The format of the
    files is the business of the crates [git_config] and [git_url_parse]; they are the class
    [GitConfigCrate]. *)

From Stdlib Require Import ZArith Lia.
From Stdlib Require Import Strings.Byte.
From stdpp Require Import base tactics option list countable strings gmap.
From S2P Require Import Prelude RustStd Data State Io Path Lockfile Refs Remote.

#[local] Open Scope Z_scope.

(** ** [File::create] and [write_all] *)

Definition fs_truncate (ino : nat) (fs : Fs) : Fs :=
  mk_Fs (names fs) (alter (λ i, mk_Inode [] (i_readonly i)) ino (inodes fs)) (next_ino fs).

Definition fs_is_readonly (fs : Fs) (p : BitPath) : bool :=
  match fs_file fs p with Some i => i_readonly i | None => false end.

Definition file_create (p : BitPath) : st Fs nat :=
  fs ← st_get;
  match names fs !! p with
  | Some NDir => st_lift bail
  | Some (NFile ino) =>
      if fs_is_readonly fs p then st_lift bail
      else _ ← st_put (fs_truncate ino fs); mret ino
  | None =>
      match parent p with
      | Some dir => if Path.is_empty dir || bool_decide (names fs !! dir = Some NDir) then create_new p else st_lift bail
      | None => st_lift bail
      end
  end.

Definition write_file (p : BitPath) (data : bytes) : st Fs unit :=
  ino ← file_create p;
  fs ← st_get;
  st_put (fs_append ino data fs).

(** ** The crates *)

Class GitConfigCrate := {
  GitConfig : Type;
  SectionBody : Type;
  SectionId : Type;
  (** [GitConfig::open] of a file with the contents, and [to_string]. *)
  gitconfig_parse : bytes → option GitConfig;
  gitconfig_to_string : GitConfig → bytes;
  (** [value(section, subsection, key).ok()]. *)
  gitconfig_value : GitConfig → bytes → option bytes → bytes → option bytes;
  sections_by_name : GitConfig → bytes → list (option bytes * SectionBody);
  section_value : SectionBody → bytes → option bytes;
  (** [section] and [section_mut], whose errors are that there is none; [new_section]; [set] on a section. *)
  section_mut : GitConfig → bytes → option bytes → option SectionId;
  new_section : bytes → option bytes → GitConfig → SectionId * GitConfig;
  section_set : SectionId → bytes → bytes → GitConfig → GitConfig;
  remove_section : GitConfig → bytes → bytes → option GitConfig;
  (** [Integer::try_from], with the bits of the suffix, and [Boolean::try_from]. *)
  integer_try_from : bytes → option (Z * option Z);
  boolean_try_from : bytes → option bool;
  GitUrl : Type;
  git_url_parse : bytes → option GitUrl;
}.

(** [diffy::ConflictStyle]. *)
Inductive ConflictStyle := StyleMerge | StyleDiff3.

(** ** Values *)

Section config.
Context `{Crate : GitConfigCrate}.

Class BitConfigValue (T : Type) := value_parse : bytes → BitResult T.

(** [&str] and [String]. *)
#[export] Instance str_value : BitConfigValue bytes := λ s, if utf8_valid s then Ok s else bail.
#[export] Instance url_value : BitConfigValue GitUrl := λ s,
  s ← value_parse s; ok_or Anyhow (git_url_parse s).
(** The shift loses the bits that leave the word. *)
#[export] Instance i64_value : BitConfigValue Z := λ s,
  '(value, suffix) ← unwrap (integer_try_from s);
  Ok (as_i64 (Z.shiftl value (default 0 suffix))).
#[export] Instance bool_value : BitConfigValue bool := λ s, unwrap (boolean_try_from s).
#[export] Instance refspec_value : BitConfigValue Refspec := λ s, s ← value_parse s; refspec_from_str s.
#[export] Instance style_value : BitConfigValue ConflictStyle := λ s,
  if bool_decide (s = bs "merge") then Ok StyleMerge
  else if bool_decide (s = bs "diff3") then Ok StyleDiff3 else bail.

(** [.map(T::parse).transpose()]. *)
Definition parse_value {T} `{BitConfigValue T} (raw : option bytes) : BitResult (option T) :=
  match raw with Some raw => v ← value_parse raw; Ok (Some v) | None => Ok None end.

(** ** RawConfig *)

Record RawConfig := mk_RawConfig { raw_inner : GitConfig; raw_path : BitPath }.

Definition raw_open (path : BitPath) : st Fs RawConfig :=
  fs ← st_get;
  inner ← st_lift (ok_or Anyhow (data ← fs_read fs path; gitconfig_parse data));
  mret (mk_RawConfig inner path).

Definition raw_write (config : RawConfig) : st Fs unit :=
  write_file (raw_path config) (gitconfig_to_string (raw_inner config)).

Definition raw_get {T} `{BitConfigValue T} (section key : bytes) (config : RawConfig) : BitResult (option T) :=
  parse_value (gitconfig_value (raw_inner config) section None key).

Definition set_inner (inner : GitConfig) (config : RawConfig) : RawConfig := mk_RawConfig inner (raw_path config).

(** [section_mut], or else [new_section]. *)
Definition section_or_new (section_name : bytes) (subsection : option bytes) (inner : GitConfig) : SectionId * GitConfig :=
  match section_mut inner section_name subsection with
  | Some section => (section, inner)
  | None => new_section section_name subsection inner
  end.

Definition raw_set (section_name key value : bytes) : st RawConfig unit := λ config,
  let '(section, inner) := section_or_new section_name None (raw_inner config) in
  (Ok tt, set_inner (section_set section key value inner) config).

Definition add_subsection (section_name subsection_name key value : bytes) : st RawConfig unit := λ config,
  let '(section, inner) := new_section section_name (Some subsection_name) (raw_inner config) in
  (Ok tt, set_inner (section_set section key value inner) config).

Definition subsection_exists (section_name subsection_name : bytes) (config : RawConfig) : bool :=
  match section_mut (raw_inner config) section_name (Some subsection_name) with Some _ => true | None => false end.

Definition remove_subsection (section_name subsection_name : bytes) : st RawConfig bool := λ config,
  match remove_section (raw_inner config) section_name subsection_name with
  | Some inner => (Ok true, set_inner inner config)
  | None => (Ok false, config)
  end.

Definition set_subsection (section_name subsection_name key value : bytes) : st RawConfig unit := λ config,
  let '(section, inner) := section_or_new section_name (Some subsection_name) (raw_inner config) in
  (Ok tt, set_inner (section_set section key value inner) config).

(** ** The typed configuration *)

(** [Merge], a left biased merge; the derived instances merge field by field. *)
Class Merge (T : Type) := config_merge : T → T → T.

#[export] Instance option_merge {T} : Merge (option T) := λ self other, match self with None => other | _ => self end.
(** [other.extend(take(self))]. *)
#[export] Instance map_merge {V} : Merge (gmap (list byte) V) := λ self other, self ∪ other.

Record RemoteConfig := mk_RemoteConfig { rc_url : GitUrl; rc_fetch : Refspec }.
Record RemotesConfig := mk_RemotesConfig { remotes : gmap (list byte) RemoteConfig }.
Record MergeConfig := mk_MergeConfig { mc_conflict_style : option ConflictStyle }.
Record UserConfig := mk_UserConfig { uc_name : option bytes; uc_email : option bytes }.
Record CoreConfig := mk_CoreConfig {
  cc_repositoryformatversion : option Z;
  cc_bare : option bool;
  cc_filemode : option bool;
  cc_pager : option bytes;
}.
Record BitConfigInner := mk_BitConfigInner {
  core : CoreConfig; user : UserConfig; merge : MergeConfig; remote : RemotesConfig
}.

#[export] Instance remotes_merge : Merge RemotesConfig := λ s o, mk_RemotesConfig (config_merge (remotes s) (remotes o)).
#[export] Instance merge_merge : Merge MergeConfig := λ s o,
  mk_MergeConfig (config_merge (mc_conflict_style s) (mc_conflict_style o)).
#[export] Instance user_merge : Merge UserConfig := λ s o,
  mk_UserConfig (config_merge (uc_name s) (uc_name o)) (config_merge (uc_email s) (uc_email o)).
#[export] Instance core_merge : Merge CoreConfig := λ s o,
  mk_CoreConfig (config_merge (cc_repositoryformatversion s) (cc_repositoryformatversion o))
    (config_merge (cc_bare s) (cc_bare o)) (config_merge (cc_filemode s) (cc_filemode o))
    (config_merge (cc_pager s) (cc_pager o)).
#[export] Instance inner_merge : Merge BitConfigInner := λ s o,
  mk_BitConfigInner (config_merge (core s) (core o)) (config_merge (user s) (user o))
    (config_merge (merge s) (merge o)) (config_merge (remote s) (remote o)).

Definition inner_default : BitConfigInner :=
  mk_BitConfigInner (mk_CoreConfig None None None None) (mk_UserConfig None None) (mk_MergeConfig None) (mk_RemotesConfig ∅).

(** [ConfigSection::get]. *)
Definition section_get {T} `{BitConfigValue T} (section : SectionBody) (key : bytes) : BitResult (option T) :=
  parse_value (section_value section key).

Definition from_section_body (section : SectionBody) : BitResult RemoteConfig :=
  url ← section_get section (bs "url");
  url ← ok_or Anyhow url;
  fetch ← section_get section (bs "fetch");
  fetch ← ok_or Anyhow fetch;
  Ok (mk_RemoteConfig url fetch).

Fixpoint insert_remotes (sections : list (option bytes * SectionBody)) (m : gmap (list byte) RemoteConfig) :
    BitResult (gmap (list byte) RemoteConfig) :=
  match sections with
  | [] => Ok m
  | (subsection, body) :: sections =>
      remote ← ok_or Anyhow subsection;
      config ← from_section_body body;
      insert_remotes sections (<[remote := config]> m)
  end.

Definition remotes_from_config (config : RawConfig) : BitResult RemotesConfig :=
  remotes ← insert_remotes (sections_by_name (raw_inner config) (bs "remote")) ∅;
  Ok (mk_RemotesConfig remotes).

Definition merge_from_config (config : RawConfig) : BitResult MergeConfig :=
  style ← raw_get (bs "merge") (bs "conflictStyle") config;
  Ok (mk_MergeConfig style).

Definition user_from_config (config : RawConfig) : BitResult UserConfig :=
  name ← raw_get (bs "user") (bs "name") config;
  email ← raw_get (bs "user") (bs "email") config;
  Ok (mk_UserConfig name email).

Definition core_from_config (config : RawConfig) : BitResult CoreConfig :=
  version ← raw_get (bs "core") (bs "repositoryformatversion") config;
  bare ← raw_get (bs "core") (bs "bare") config;
  filemode ← raw_get (bs "core") (bs "filemode") config;
  pager ← raw_get (bs "core") (bs "pager") config;
  Ok (mk_CoreConfig version bare filemode pager).

Definition from_gitconfig (config : RawConfig) : BitResult BitConfigInner :=
  core ← core_from_config config;
  user ← user_from_config config;
  merge ← merge_from_config config;
  remote ← remotes_from_config config;
  Ok (mk_BitConfigInner core user merge remote).

Definition config_open (path : BitPath) : st Fs BitConfigInner :=
  config ← raw_open path;
  st_lift (from_gitconfig config).

(** [dirs::config_dir] and [dirs::home_dir]. *)
Context (config_dir home_dir : option BitPath).

Definition config_paths (local_path : BitPath) : list BitPath :=
  [local_path]
  ++ (match config_dir with Some config_dir => [join config_dir (bs "git/config")] | None => [] end)
  ++ (match home_dir with Some home => [join home (bs ".gitconfig")] | None => [] end).

Fixpoint merge_files (paths : list BitPath) (config : BitConfigInner) : st Fs BitConfigInner :=
  match paths with
  | [] => mret config
  | path :: paths =>
      fs ← st_get;
      if fs_exists fs path then other ← config_open path; merge_files paths (config_merge config other)
      else merge_files paths config
  end.

Definition config_init (local_path : BitPath) : st Fs BitConfigInner :=
  merge_files (config_paths local_path) inner_default.

(** *** The accessors *)

Definition filemode (c : BitConfigInner) : bool := default false (cc_filemode (core c)).
Definition pager (c : BitConfigInner) : bytes := default (bs "less") (cc_pager (core c)).
Definition conflict_style (c : BitConfigInner) : ConflictStyle := default StyleMerge (mc_conflict_style (merge c)).
Definition bare (c : BitConfigInner) : option bool := cc_bare (core c).
Definition repositoryformatversion (c : BitConfigInner) : option Z := cc_repositoryformatversion (core c).
Definition name (c : BitConfigInner) : option bytes := uc_name (user c).
Definition email (c : BitConfigInner) : option bytes := uc_email (user c).

(** ** The configuration of a repository

    The files, and the configuration that the repository has read from them. *)

Record Configured := mk_Configured { cfg_fs : Fs; cfg_inner : BitConfigInner }.

Definition on_fs {A} (m : st Fs A) : st Configured A :=
  st_zoom cfg_fs (λ c fs, mk_Configured fs (cfg_inner c)) m.

(** [config_filepath]. *)
Context (config_path : BitPath).

Definition refresh : st Configured unit :=
  inner ← on_fs (config_init config_path);
  c ← st_get;
  st_put (mk_Configured (cfg_fs c) inner).

Definition with_raw_local_config {R} (f : st RawConfig R) : st Configured R :=
  config ← on_fs (raw_open config_path);
  let '(r, config) := f config in
  r ← st_lift r;
  _ ← on_fs (raw_write config);
  _ ← refresh;
  mret r.

(** ** Remotes *)

Definition add_remote (name url : bytes) : st Configured unit :=
  let refspec := default_fetch_for_remote name in
  with_raw_local_config (
    config ← st_get;
    _ ← st_lift (ensure (negb (subsection_exists (bs "remote") name config)) Anyhow);
    _ ← set_subsection (bs "remote") name (bs "url") url;
    _ ← set_subsection (bs "remote") name (bs "fetch") (refspec_display refspec);
    mret tt).

Definition remove_remote (name : bytes) : st Configured unit :=
  existed ← with_raw_local_config (remove_subsection (bs "remote") name);
  if (existed : bool) then mret tt else st_lift bail.

Definition remote_from_config (name : bytes) (config : RemoteConfig) : Remote GitUrl :=
  mk_Remote name (rc_url config) (rc_fetch config).

Definition get_remote (name : bytes) (c : Configured) : BitResult (Remote GitUrl) :=
  ok_or Anyhow (remote_from_config name <$> (remotes (remote (cfg_inner c)) !! name)).

(** The order in which a [HashMap] is walked. *)
Context (hash_order : gmap (list byte) RemoteConfig → list (bytes * RemoteConfig)).
Definition ls_remotes (c : Configured) : list (Remote GitUrl) :=
  (λ nc, remote_from_config nc.1 nc.2) <$> hash_order (remotes (remote (cfg_inner c))).

(** [bit config section.key [value]]: what is printed. *)
Definition config_set (section key value : bytes) : st Configured unit :=
  with_raw_local_config (raw_set section key value).

Definition config_execute (name : bytes) (value : option bytes) : st Configured (option bytes) :=
  '(section, key) ← st_lift (unwrap (split_once x2e name));
  match value with
  | Some value => _ ← config_set section key value; mret None
  | None => with_raw_local_config (config ← st_get; st_lift (raw_get section key config))
  end.
End config.

(** ** Merging

    The configuration that a list of files gives. *)

Section merging.
Context `{Crate : GitConfigCrate} (config_dir home_dir : option BitPath).

Definition opened (fs : Fs) (p : BitPath) : BitResult BitConfigInner :=
  inner ← ok_or Anyhow (data ← fs_read fs p; gitconfig_parse data);
  from_gitconfig (mk_RawConfig inner p).

Lemma config_open_eq p fs : config_open p fs = (opened fs p, fs).
Proof.
  unfold config_open, raw_open, opened. unfold mbind at 1, st_bind at 1. rewrite st_get_bind.
  destruct (ok_or _ _) as [inner| |]; [|done..]. rewrite st_lift_bind. done.
Qed.

Fixpoint merged (fs : Fs) (paths : list BitPath) (config : BitConfigInner) : BitResult BitConfigInner :=
  match paths with
  | [] => Ok config
  | p :: paths =>
      if fs_exists fs p then other ← opened fs p; merged fs paths (config_merge config other)
      else merged fs paths config
  end.

Lemma merge_files_eq paths config fs : merge_files paths config fs = (merged fs paths config, fs).
Proof.
  revert config. induction paths as [|p paths IH]; intros config; cbn [merge_files merged]; [done|].
  rewrite st_get_bind. destruct (fs_exists fs p); [|apply IH].
  destruct (opened fs p) as [other|e|] eqn:E.
  - rewrite (st_bind_ok _ _ fs fs other) by (by rewrite config_open_eq, E). apply IH.
  - by rewrite (st_bind_err _ _ fs fs e) by (by rewrite config_open_eq, E).
  - by rewrite (st_bind_panic _ _ fs fs) by (by rewrite config_open_eq, E).
Qed.

(** What the files set first. *)
Definition first_set {A} (f : BitConfigInner → option A) (cs : list BitConfigInner) : option A := head (omap f cs).

Lemma foldl_first {A} (f : BitConfigInner → option A) cs config :
  (∀ s o, f (config_merge s o) = match f s with None => f o | x => x end) →
  f (foldl config_merge config cs) = match f config with None => first_set f cs | x => x end.
Proof.
  intros Hf. revert config. induction cs as [|c cs IH]; intros config; cbn [foldl]; [by destruct (f config)|].
  rewrite IH, Hf. unfold first_set. cbn. by destruct (f config), (f c).
Qed.

Lemma merged_foldl fs paths cs config :
  Forall2 (λ p c, opened fs p = Ok c) (List.filter (fs_exists fs) paths) cs →
  merged fs paths config = Ok (foldl config_merge config cs).
Proof.
  revert cs config. induction paths as [|p paths IH]; intros cs config; cbn.
  - by intros ->%Forall2_nil_inv_l.
  - destruct (fs_exists fs p); [|apply IH]. intros (c & cs' & E & H & ->)%Forall2_cons_inv_l.
    rewrite E. cbn. by apply IH.
Qed.

Lemma option_merge_eq {A} (a b : option A) : config_merge a b = match a with Some x => Some x | None => b end.
Proof. by destruct a. Qed.

Lemma remotes_union s o name :
  remotes (remote (config_merge s o)) !! name
  = match remotes (remote s) !! name with None => remotes (remote o) !! name | x => x end.
Proof.
  change (remotes (remote (config_merge s o))) with (remotes (remote s) ∪ remotes (remote o)).
  rewrite lookup_union. by destruct (remotes (remote s) !! name), (remotes (remote o) !! name).
Qed.

(** C26: The order in which the code takes values: every value is that of the first of the files that sets
    it, of the file of the repository, then [git/config] in the configuration directory, then [.gitconfig] in
    the home directory, where each of these that exists can be loaded.  (The comment of [init] lists the last two
    the other way round, with [.gitconfig] before the configuration directory, which is also git's order.) *)
Theorem config_init_precedence local_path fs cs :
  Forall2 (λ p c, config_open p fs = (Ok c, fs)) (List.filter (fs_exists fs) (config_paths config_dir home_dir local_path)) cs →
  ∃ inner, config_init config_dir home_dir local_path fs = (Ok inner, fs)
    ∧ filemode inner = default false (first_set (cc_filemode ∘ core) cs)
    ∧ pager inner = default (bs "less") (first_set (cc_pager ∘ core) cs)
    ∧ conflict_style inner = default StyleMerge (first_set (mc_conflict_style ∘ merge) cs)
    ∧ bare inner = first_set (cc_bare ∘ core) cs
    ∧ repositoryformatversion inner = first_set (cc_repositoryformatversion ∘ core) cs
    ∧ name inner = first_set (uc_name ∘ user) cs
    ∧ email inner = first_set (uc_email ∘ user) cs
    ∧ ∀ r, remotes (remote inner) !! r = first_set (λ c, remotes (remote c) !! r) cs.
Proof.
  intros H. exists (foldl config_merge inner_default cs). split.
  { unfold config_init. rewrite merge_files_eq. f_equal. apply merged_foldl.
    eapply Forall2_impl; [exact H|]. intros p c Hp. cbv beta in Hp. rewrite config_open_eq in Hp. by injection Hp. }
  unfold filemode, pager, conflict_style, bare, repositoryformatversion, name, email.
  pose proof (λ A f, @foldl_first A f cs inner_default) as F.
  split_and!; [f_equal; exact (F _ (cc_filemode ∘ core) (λ s o, option_merge_eq _ _))
    |f_equal; exact (F _ (cc_pager ∘ core) (λ s o, option_merge_eq _ _))
    |f_equal; exact (F _ (mc_conflict_style ∘ merge) (λ s o, option_merge_eq _ _))
    |exact (F _ (cc_bare ∘ core) (λ s o, option_merge_eq _ _))
    |exact (F _ (cc_repositoryformatversion ∘ core) (λ s o, option_merge_eq _ _))
    |exact (F _ (uc_name ∘ user) (λ s o, option_merge_eq _ _))
    |exact (F _ (uc_email ∘ user) (λ s o, option_merge_eq _ _))|].
  intros r. rewrite (F _ (λ c, remotes (remote c) !! r)); [|intros; apply remotes_union].
  cbn. by rewrite lookup_empty.
Qed.
End merging.

(** ** Changing the configuration

    What [git_config] documents: the text of a file is read back; a new section is empty and the last of
    its name; setting a key changes the value of that key in that section alone.  Names are compared
    without their case. *)

Definition lower (s : bytes) : bytes := (λ b, if (65 <=? u8 b) && (u8 b <=? 90) then byte_of_Z (u8 b + 32) else b) <$> s.

Class GitConfigLaws `{Crate : GitConfigCrate} := {
  to_string_parse c : gitconfig_parse (gitconfig_to_string c) = Some c;
  section_mut_none c n s :
    section_mut c n (Some s) = None ↔ Some s ∉ (sections_by_name c n).*1;
  new_section_spec c n s id c' : new_section n s c = (id, c') →
    section_mut c' n s = Some id
    ∧ (∃ b, sections_by_name c' n = sections_by_name c n ++ [(s, b)] ∧ ∀ k, section_value b k = None)
    ∧ (section_mut c n s = None → ∀ k, gitconfig_value c' n s k = None)
    ∧ ∀ n', lower n' ≠ lower n →
        sections_by_name c' n' = sections_by_name c n' ∧ ∀ s' k, gitconfig_value c' n' s' k = gitconfig_value c n' s' k;
  section_set_spec c n s id k v : section_mut c n s = Some id →
    let c' := section_set id k v c in
    section_mut c' n s = Some id
    ∧ gitconfig_value c' n s k = Some v
    ∧ (∀ k', lower k' ≠ lower k → gitconfig_value c' n s k' = gitconfig_value c n s k')
    ∧ (∀ l b, sections_by_name c n = l ++ [(s, b)] → s ∉ l.*1 →
        ∃ b', sections_by_name c' n = l ++ [(s, b')] ∧ section_value b' k = Some v
          ∧ ∀ k', lower k' ≠ lower k → section_value b' k' = section_value b k')
    ∧ ∀ n', lower n' ≠ lower n →
        sections_by_name c' n' = sections_by_name c n' ∧ ∀ s' k', gitconfig_value c' n' s' k' = gitconfig_value c n' s' k';
  remove_section_spec c n s l b r :
    sections_by_name c n = l ++ (Some s, b) :: r → Some s ∉ l.*1 → Some s ∉ r.*1 →
    ∃ c', remove_section c n s = Some c' ∧ sections_by_name c' n = l ++ r
      ∧ ∀ n', lower n' ≠ lower n →
          sections_by_name c' n' = sections_by_name c n' ∧ ∀ s' k', gitconfig_value c' n' s' k' = gitconfig_value c n' s' k';
}.

Section changing.
Context `{Laws : GitConfigLaws} (config_dir home_dir : option BitPath) (config_path : BitPath).

#[local] Abbreviation others := (tail (config_paths config_dir home_dir config_path)).

(** The configuration file can be written, and no other configuration file is the same file. *)
Definition config_file (fs : Fs) : Prop :=
  ∃ ino, names fs !! config_path = Some (NFile ino) ∧ is_Some (inodes fs !! ino) ∧ fs_is_readonly fs config_path = false
    ∧ Forall (λ p, names fs !! p ≠ Some (NFile ino)) others.

(** What is not the configuration file stays. *)
Definition frame (fs fs' : Fs) : Prop := ∀ p, names fs !! p ≠ names fs !! config_path → fs_read fs' p = fs_read fs p.

Lemma write_file_ok fs data : config_file fs → ∃ fs',
  write_file config_path data fs = (Ok tt, fs') ∧ fs_read fs' config_path = Some data ∧ config_file fs'
  ∧ names fs' = names fs ∧ frame fs fs'.
Proof.
  intros (ino & Hn & [i Hi] & Hr & Ho). unfold write_file, file_create.
  set (fs1 := fs_truncate ino fs). exists (fs_append ino data fs1).
  assert (inodes (fs_append ino data fs1) !! ino = Some (mk_Inode data (i_readonly i))) as Ei.
  { unfold fs1, fs_append, fs_truncate. cbn. by rewrite !lookup_alter_eq, Hi. }
  split_and!.
  - rewrite (st_bind_ok _ _ fs fs1 ino); [by rewrite st_get_bind|]. rewrite st_get_bind, Hn, Hr, st_put_bind. done.
  - unfold fs_read, fs_file. cbn [names fs_append fs1 fs_truncate]. by rewrite Hn, Ei.
  - exists ino. split_and!; [done|by rewrite Ei| |done]. unfold fs_is_readonly, fs_file in *. cbn [names fs_append fs1 fs_truncate].
    rewrite Hn in *. rewrite Ei, Hi in *. done.
  - done.
  - intros p Hp. rewrite Hn in Hp. unfold fs_read, fs_file. cbn [names fs_append fs1 fs_truncate].
    destruct (names fs !! p) as [[j|]|]; [|done..]. f_equal. unfold fs1, fs_append, fs_truncate. cbn.
    by rewrite !lookup_alter_ne by congruence.
Qed.

Lemma frame_others fs fs' : config_file fs → frame fs fs' → Forall (λ p, fs_read fs' p = fs_read fs p) others.
Proof.
  intros (ino & Hn & _ & _ & Ho) Hf. eapply Forall_impl; [exact Ho|]. intros p Hp. apply Hf. by rewrite Hn.
Qed.

Lemma opened_read fs fs' p : fs_read fs' p = fs_read fs p → opened fs' p = opened fs p.
Proof. unfold opened. by intros ->. Qed.

Lemma merged_same fs fs' paths : names fs' = names fs → Forall (λ p, fs_read fs' p = fs_read fs p) paths →
  ∀ config, merged fs' paths config = merged fs paths config.
Proof.
  intros Hn. induction 1 as [|p paths Hp _ IH]; intros config; cbn; [done|].
  unfold fs_exists. rewrite Hn. case_bool_decide; [|apply IH]. rewrite (opened_read _ _ _ Hp).
  destruct (opened fs p) as [other| |]; [|done..]. apply IH.
Qed.

(** Reading the configuration again: the local file is merged with the rest. *)
Lemma init_split fs : config_file fs →
  merged fs (config_paths config_dir home_dir config_path) inner_default
  = (local ← opened fs config_path; merged fs others (config_merge inner_default local)).
Proof.
  intros (ino & Hn & _). cbn [config_paths app tail merged]. unfold fs_exists at 1.
  by rewrite bool_decide_true by (rewrite Hn; eauto).
Qed.

(** A change of the local file: the new text is on disk, and the configuration is read from it. *)
Lemma with_raw_ok {R} (f : st RawConfig R) c inner r inner' :
  config_file (cfg_fs c) → fs_read (cfg_fs c) config_path = Some inner → 
  ∀ g g', gitconfig_parse inner = Some g → f (mk_RawConfig g config_path) = (Ok r, mk_RawConfig g' config_path) →
  (local ← from_gitconfig (mk_RawConfig g' config_path); merged (cfg_fs c) others (config_merge inner_default local)) = Ok inner' →
  ∃ fs', with_raw_local_config config_dir home_dir config_path f c = (Ok r, mk_Configured fs' inner')
    ∧ fs_read fs' config_path = Some (gitconfig_to_string g') ∧ config_file fs'
    ∧ merged fs' (config_paths config_dir home_dir config_path) inner_default = Ok inner'
    ∧ names fs' = names (cfg_fs c) ∧ frame (cfg_fs c) fs'.
Proof.
  intros Hc Hr g g' Hg Ef Em. destruct (write_file_ok (cfg_fs c) (gitconfig_to_string g') Hc) as (fs' & Ew & Er & Hc' & Hn & Ho).
  pose proof (frame_others _ _ Hc Ho) as Ho'.
  assert (merged fs' (config_paths config_dir home_dir config_path) inner_default = Ok inner') as Em'.
  { rewrite (init_split _ Hc'). unfold opened. rewrite Er. cbn. rewrite to_string_parse. cbn.
    destruct (from_gitconfig _) as [local| |]; [|done..]. cbn in Em |- *. by rewrite (merged_same (cfg_fs c)), Em. }
  exists fs'. split; [|done]. unfold with_raw_local_config, on_fs.
  rewrite (st_bind_ok _ _ c c (mk_RawConfig g config_path)).
  2: { unfold st_zoom, raw_open. rewrite st_get_bind, Hr. cbn. rewrite Hg. by destruct c. }
  rewrite Ef, st_lift_bind. rewrite (st_bind_ok _ _ c (mk_Configured fs' (cfg_inner c)) tt).
  2: { unfold st_zoom, raw_write. cbn [raw_path raw_inner]. by rewrite Ew. }
  rewrite (st_bind_ok _ _ _ (mk_Configured fs' inner') tt); [done|].
  unfold refresh, on_fs. rewrite (st_bind_ok _ _ _ (mk_Configured fs' (cfg_inner c)) inner'); [by rewrite st_get_bind|].
  unfold st_zoom, config_init. rewrite merge_files_eq. cbn [cfg_fs]. by rewrite Em'.
Qed.

(** *** Remotes *)

#[local] Abbreviation REMOTE := (bs "remote").

Definition set_remote (nm : bytes) (rc : RemoteConfig) (i : BitConfigInner) : BitConfigInner :=
  mk_BitConfigInner (core i) (user i) (merge i) (mk_RemotesConfig (<[nm := rc]> (remotes (remote i)))).

Lemma merged_set_remote nm rc fs paths i i' : merged fs paths i = Ok i' →
  merged fs paths (set_remote nm rc i) = Ok (set_remote nm rc i').
Proof.
  revert i. induction paths as [|p paths IH]; intros i; cbn; [by intros [= <-]|].
  destruct (fs_exists fs p); [|apply IH]. destruct (opened fs p) as [other| |]; [|done..]. cbn. intros H.
  rewrite <- (IH _ H). f_equal. unfold set_remote, config_merge, inner_merge. cbn. f_equal.
  unfold config_merge at 1, remotes_merge. cbn. f_equal. symmetry. apply insert_union_l.
Qed.

(** Two files with the same values in [core], [user] and [merge]. *)
Definition same_values (g g' : GitConfig) : Prop :=
  ∀ n, n ∈ [bs "core"; bs "user"; bs "merge"] → ∀ k, gitconfig_value g' n None k = gitconfig_value g n None k.

Lemma same_values_frame g g' :
  (∀ n', lower n' ≠ lower REMOTE →
     sections_by_name g' n' = sections_by_name g n' ∧ ∀ s' k, gitconfig_value g' n' s' k = gitconfig_value g n' s' k) →
  same_values g g'.
Proof.
  intros H n Hn k. apply H. repeat (apply elem_of_cons in Hn as [->|Hn]; [by vm_compute|]). by apply elem_of_nil in Hn.
Qed.

Lemma from_gitconfig_remotes g g' p i rs : same_values g g' → from_gitconfig (mk_RawConfig g p) = Ok i →
  insert_remotes (sections_by_name g' REMOTE) ∅ = Ok rs →
  from_gitconfig (mk_RawConfig g' p) = Ok (mk_BitConfigInner (core i) (user i) (merge i) (mk_RemotesConfig rs)).
Proof.
  intros Hs. unfold from_gitconfig.
  assert (∀ T (V : BitConfigValue T) n k, n ∈ [bs "core"; bs "user"; bs "merge"] →
    raw_get n k (mk_RawConfig g' p) = raw_get n k (mk_RawConfig g p)) as Hg.
  { intros T V n k Hn. unfold raw_get. cbn [raw_inner]. by rewrite (Hs n Hn). }
  assert (core_from_config (mk_RawConfig g' p) = core_from_config (mk_RawConfig g p)
    ∧ user_from_config (mk_RawConfig g' p) = user_from_config (mk_RawConfig g p)
    ∧ merge_from_config (mk_RawConfig g' p) = merge_from_config (mk_RawConfig g p)) as (-> & -> & ->).
  { unfold core_from_config, user_from_config, merge_from_config.
    by rewrite !Hg by (rewrite ?elem_of_cons; eauto). }
  destruct (core_from_config _); [|done..]. destruct (user_from_config _); [|done..].
  destruct (merge_from_config _); [|done..]. unfold remotes_from_config. cbn [raw_inner mbind outcome_bind]. intros H ->.
  destruct (insert_remotes (sections_by_name g _) _); [|done..]. cbn in H. by injection H as <-.
Qed.

Lemma insert_remotes_app l1 l2 m :
  insert_remotes (l1 ++ l2) m = (m ← insert_remotes l1 m; insert_remotes l2 m).
Proof.
  revert m. induction l1 as [|[[s|] b] l1 IH]; intros m; [done| |done]. cbn.
  destruct (from_section_body b); [|done..]. cbn. apply IH.
Qed.

(** The closure of [add_remote]. *)
Lemma remote_section g p nm url : Some nm ∉ (sections_by_name g REMOTE).*1 → ∃ g' b,
  (config ← st_get;
   _ ← st_lift (ensure (negb (subsection_exists REMOTE nm config)) Anyhow);
   _ ← set_subsection REMOTE nm (bs "url") url;
   _ ← set_subsection REMOTE nm (bs "fetch") (refspec_display (default_fetch_for_remote nm));
   mret tt) (mk_RawConfig g p) = (Ok tt, mk_RawConfig g' p)
  ∧ sections_by_name g' REMOTE = sections_by_name g REMOTE ++ [(Some nm, b)]
  ∧ section_value b (bs "url") = Some url
  ∧ section_value b (bs "fetch") = Some (refspec_display (default_fetch_for_remote nm))
  ∧ same_values g g'.
Proof.
  intros Hnew. apply section_mut_none in Hnew as Hmut.
  destruct (new_section REMOTE (Some nm) g) as [id g0] eqn:E0.
  destruct (new_section_spec _ _ _ _ _ E0) as (Hm0 & (b0 & Hs0 & Hb0) & _ & Hf0).
  destruct (section_set_spec g0 REMOTE (Some nm) id (bs "url") url Hm0) as (Hm1 & _ & _ & Hs1 & Hf1).
  destruct (Hs1 _ _ Hs0 Hnew) as (b1 & Hs1' & Hv1 & _).
  set (g1 := section_set id (bs "url") url g0) in *.
  destruct (section_set_spec g1 REMOTE (Some nm) id (bs "fetch") (refspec_display (default_fetch_for_remote nm)) Hm1)
    as (_ & _ & _ & Hs2 & Hf2).
  destruct (Hs2 _ _ Hs1' Hnew) as (b2 & Hs2' & Hv2 & Hb2).
  eexists _, b2. split_and!; [|exact Hs2'| |exact Hv2|].
  - rewrite st_get_bind. unfold subsection_exists. cbn [raw_inner]. rewrite Hmut. cbn [negb ensure]. rewrite st_lift_bind.
    unfold set_subsection, section_or_new. unfold mbind, st_bind, set_inner. cbn [raw_inner raw_path].
    rewrite Hmut, E0. cbn [raw_inner raw_path]. fold g1. by rewrite Hm1.
  - rewrite Hb2; [done|by vm_compute].
  - apply same_values_frame. intros n' Hn'. destruct (Hf0 n' Hn') as [A0 B0], (Hf1 n' Hn') as [A1 B1], (Hf2 n' Hn') as [A2 B2].
    split; [by rewrite A2, A1, A0|]. intros s' k. by rewrite B2, B1, B0.
Qed.

(** What [refresh] finds is what the repository has. *)
Definition up_to_date (c : Configured) : Prop := refresh config_dir home_dir config_path c = (Ok tt, c).

Lemma up_to_date_merged c : up_to_date c ↔
  merged (cfg_fs c) (config_paths config_dir home_dir config_path) inner_default = Ok (cfg_inner c).
Proof.
  unfold up_to_date, refresh, on_fs, st_zoom, config_init. unfold mbind, st_bind. rewrite merge_files_eq.
  destruct c as [fs i]. cbn [cfg_fs cfg_inner].
  destruct (merged _ _ _) as [j| |]; [|by split..]. unfold st_get, st_put. split; [|intros [= ->]; done].
  intros E. injection E as ->. done.
Qed.

Lemma from_gitconfig_sections g p local : from_gitconfig (mk_RawConfig g p) = Ok local →
  insert_remotes (sections_by_name g REMOTE) ∅ = Ok (remotes (remote local)).
Proof.
  unfold from_gitconfig. destruct (core_from_config _); [|done..]. destruct (user_from_config _); [|done..].
  destruct (merge_from_config _); [|done..]. unfold remotes_from_config. cbn [raw_inner mbind outcome_bind].
  destruct (insert_remotes _ _); [|done..]. cbn. by intros [= <-].
Qed.

Lemma default_fetch_parse nm : utf8_valid nm = true →
  value_parse (refspec_display (default_fetch_for_remote nm)) = Ok (default_fetch_for_remote nm).
Proof.
  intros Hn. unfold value_parse at 1, refspec_value, value_parse, str_value. unfold refspec_display at 1. cbn [rs_forced rs_glob default_fetch_for_remote].
  rewrite utf8_valid_app; [|done|].
  2: { apply (utf8_valid_app (bs "refs/heads/")); [done|]. apply (utf8_valid_app (bs "*:")); [done|].
       cbn [rs_dst]. apply utf8_valid_app; [|done]. apply (utf8_valid_app (bs "refs/remotes/")); [done|].
       by apply utf8_valid_app. }
  cbn [mbind outcome_bind]. apply refspec_from_display. split_and!; [vm_decide|done|done].
Qed.

Lemma remote_body b nm url u : utf8_valid nm = true → utf8_valid url = true → git_url_parse url = Some u →
  section_value b (bs "url") = Some url →
  section_value b (bs "fetch") = Some (refspec_display (default_fetch_for_remote nm)) →
  from_section_body b = Ok (mk_RemoteConfig u (default_fetch_for_remote nm)).
Proof.
  intros Hn Hv Hu Eu Ef. unfold from_section_body, section_get, parse_value. rewrite Eu, Ef, (default_fetch_parse nm Hn).
  unfold value_parse, url_value, value_parse, str_value. rewrite Hv. cbn [mbind outcome_bind]. by rewrite Hu.
Qed.

(** A new remote, and the file that has it. *)
Lemma remote_added c data g nm url u :
  config_file (cfg_fs c) → fs_read (cfg_fs c) config_path = Some data → gitconfig_parse data = Some g →
  up_to_date c → utf8_valid nm = true → utf8_valid url = true → git_url_parse url = Some u →
  Some nm ∉ (sections_by_name g REMOTE).*1 →
  ∃ fs' g' b local, let rc := mk_RemoteConfig u (default_fetch_for_remote nm) in
    let c' := mk_Configured fs' (set_remote nm rc (cfg_inner c)) in
    add_remote config_dir home_dir config_path nm url c = (Ok tt, c') ∧ up_to_date c'
    ∧ config_file fs' ∧ fs_read fs' config_path = Some (gitconfig_to_string g')
    ∧ sections_by_name g' REMOTE = sections_by_name g REMOTE ++ [(Some nm, b)] ∧ same_values g g'
    ∧ from_gitconfig (mk_RawConfig g config_path) = Ok local
    ∧ merged (cfg_fs c) others (config_merge inner_default local) = Ok (cfg_inner c)
    ∧ names fs' = names (cfg_fs c) ∧ Forall (λ p, fs_read fs' p = fs_read (cfg_fs c) p) others.
Proof.
  intros Hc Hr Hg Hup Hnm Hurl Hu Hin.
  destruct (remote_section g config_path nm url Hin) as (g' & b & Ef & Hs & Hvu & Hvf & Hsame).
  apply up_to_date_merged in Hup. rewrite (init_split _ Hc) in Hup. unfold opened in Hup at 1. rewrite Hr in Hup.
  cbn in Hup. rewrite Hg in Hup. cbn in Hup.
  destruct (from_gitconfig _) as [local| |] eqn:El; [|done..]. cbn [mbind outcome_bind] in Hup.
  assert (from_gitconfig (mk_RawConfig g' config_path)
    = Ok (set_remote nm (mk_RemoteConfig u (default_fetch_for_remote nm)) local)) as El'.
  { apply (from_gitconfig_remotes g); [done|done|]. rewrite Hs, insert_remotes_app, (from_gitconfig_sections _ _ _ El).
    cbn [mbind outcome_bind insert_remotes ok_or]. by rewrite (remote_body b nm url u). }
  destruct (with_raw_ok _ c data tt (set_remote nm (mk_RemoteConfig u (default_fetch_for_remote nm)) (cfg_inner c)) Hc Hr g g' Hg Ef)
    as (fs' & Ew & Er & Hc' & Em & Hn & Ho).
  { rewrite El'. cbn [mbind outcome_bind]. rewrite <- (merged_set_remote _ _ _ _ _ _ Hup). f_equal.
    unfold set_remote, config_merge, inner_merge. cbn. f_equal. unfold config_merge, remotes_merge. cbn. f_equal.
    unfold config_merge, map_merge. by rewrite !(left_id_L ∅ (∪)). }
  exists fs', g', b, local. split_and!; try done; [by apply up_to_date_merged|by apply frame_others].
Qed.

Lemma remote_exists c data g nm url :
  fs_read (cfg_fs c) config_path = Some data → gitconfig_parse data = Some g →
  Some nm ∈ (sections_by_name g REMOTE).*1 → add_remote config_dir home_dir config_path nm url c = (Err Anyhow, c).
Proof.
  intros Hr Hg Hin. unfold add_remote, with_raw_local_config, on_fs.
  rewrite (st_bind_ok _ _ c c (mk_RawConfig g config_path)).
  2: { unfold st_zoom, raw_open. rewrite st_get_bind, Hr. cbn. rewrite Hg. by destruct c. }
  rewrite st_get_bind. unfold subsection_exists. cbn [raw_inner].
  destruct (section_mut g REMOTE (Some nm)) eqn:E; [done|]. by apply section_mut_none in E.
Qed.

(** C25: A remote is added: when the file has no such remote, the repository then has it, with the url and
    the refspec that fetches its branches, and everything else that the repository is configured with
    stays; otherwise it is an error and nothing changes. *)
Theorem add_remote_correct c data g nm url u :
  config_file (cfg_fs c) → fs_read (cfg_fs c) config_path = Some data → gitconfig_parse data = Some g →
  up_to_date c → utf8_valid nm = true → utf8_valid url = true → git_url_parse url = Some u →
  if decide (Some nm ∈ (sections_by_name g REMOTE).*1) then
    add_remote config_dir home_dir config_path nm url c = (Err Anyhow, c)
  else ∃ fs', let c' := mk_Configured fs' (set_remote nm (mk_RemoteConfig u (default_fetch_for_remote nm)) (cfg_inner c)) in
    add_remote config_dir home_dir config_path nm url c = (Ok tt, c') ∧ up_to_date c'
    ∧ get_remote nm c' = Ok (mk_Remote nm u (default_fetch_for_remote nm))
    ∧ ∀ other, other ≠ nm → get_remote other c' = get_remote other c.
Proof.
  intros Hc Hr Hg Hup Hnm Hurl Hu. case_decide as Hin.
  - by apply (remote_exists c data g).
  - destruct (remote_added c data g nm url u Hc Hr Hg Hup Hnm Hurl Hu Hin) as (fs' & _ & _ & _ & Ea & Hup' & _).
    exists fs'. split_and!; [exact Ea|exact Hup'| |].
    + unfold get_remote. cbn [cfg_inner set_remote remote remotes]. by rewrite lookup_insert_eq.
    + intros other Hne. unfold get_remote. cbn [cfg_inner set_remote remote remotes]. by rewrite lookup_insert_ne by done.
Qed.

(** Removing a remote that was just added leaves the repository configured as before. *)
Theorem remove_remote_undoes_add c data g nm url u c' :
  config_file (cfg_fs c) → fs_read (cfg_fs c) config_path = Some data → gitconfig_parse data = Some g →
  up_to_date c → utf8_valid nm = true → utf8_valid url = true → git_url_parse url = Some u →
  add_remote config_dir home_dir config_path nm url c = (Ok tt, c') →
  ∃ fs'', remove_remote config_dir home_dir config_path nm c' = (Ok tt, mk_Configured fs'' (cfg_inner c))
    ∧ up_to_date (mk_Configured fs'' (cfg_inner c)).
Proof.
  intros Hc Hr Hg Hup Hnm Hurl Hu Ea. destruct (decide (Some nm ∈ (sections_by_name g REMOTE).*1)) as [Hin|Hin].
  { by rewrite (remote_exists c data g) in Ea. }
  destruct (remote_added c data g nm url u Hc Hr Hg Hup Hnm Hurl Hu Hin)
    as (fs' & g' & b & local & Ea' & Hup' & Hc' & Hr' & Hs & Hsame & El & Em & Hn & Ho).
  rewrite Ea' in Ea. injection Ea as <-.
  destruct (remove_section_spec g' REMOTE nm _ b [] Hs Hin) as (g'' & Erm & Hs'' & Hf''); [by intros ?%elem_of_nil|].
  rewrite app_nil_r in Hs''.
  destruct (with_raw_ok (remove_subsection REMOTE nm)
    (mk_Configured fs' (set_remote nm (mk_RemoteConfig u (default_fetch_for_remote nm)) (cfg_inner c)))
    (gitconfig_to_string g') true (cfg_inner c) Hc' Hr' g' g'') as (fs'' & Ew & _ & _ & Em'' & _).
  - apply to_string_parse.
  - unfold remove_subsection. cbn [raw_inner]. by rewrite Erm.
  - rewrite (from_gitconfig_remotes g g'' config_path local (remotes (remote local))); [|..|done|].
    + cbn [mbind outcome_bind cfg_fs]. rewrite (merged_same (cfg_fs c)) by done. rewrite <- Em. by destruct local as [? ? ? []].
    + intros n Hn' k. rewrite <- (Hsame n Hn' k). by apply (same_values_frame g' g'').
    + rewrite Hs''. by eapply from_gitconfig_sections.
  - exists fs''. split; [|by apply up_to_date_merged]. unfold remove_remote. by rewrite (st_bind_ok _ _ _ _ _ Ew).
Qed.

(** A value is written before it is checked: after [bit config core.bare] with a text that is no
    boolean the file has it, and from then on the configuration of the repository cannot be loaded. *)
Theorem unparsed_boolean_sticks c data g v :
  config_file (cfg_fs c) → fs_read (cfg_fs c) config_path = Some data → gitconfig_parse data = Some g →
  up_to_date c → boolean_try_from v = None →
  ∃ fs', config_set config_dir home_dir config_path (bs "core") (bs "bare") v c = (Panic, mk_Configured fs' (cfg_inner c))
    ∧ config_init config_dir home_dir config_path fs' = (Panic, fs').
Proof.
  intros Hc Hr Hg Hup Hv. apply up_to_date_merged in Hup. rewrite (init_split _ Hc) in Hup. unfold opened in Hup at 1. rewrite Hr in Hup.
  cbn in Hup. rewrite Hg in Hup. cbn in Hup.
  destruct (from_gitconfig _) as [local| |] eqn:El; [|done..].
  destruct (section_or_new (bs "core") None g) as [id g0] eqn:E0.
  set (g' := section_set id (bs "bare") v g0).
  assert (gitconfig_value g' (bs "core") None (bs "bare") = Some v
    ∧ is_ok (raw_get (bs "core") (bs "repositoryformatversion") (mk_RawConfig g' config_path) : BitResult (option Z)) = true) as [Hb Hver].
  { assert (is_ok (raw_get (bs "core") (bs "repositoryformatversion") (mk_RawConfig g config_path) : BitResult (option Z)) = true) as Hold.
    { unfold from_gitconfig, core_from_config in El. by destruct (raw_get _ (bs "repositoryformatversion") _). }
    assert (lower (bs "repositoryformatversion") ≠ lower (bs "bare")) as Hne by by vm_compute.
    unfold section_or_new in E0. destruct (section_mut g (bs "core") None) as [id0|] eqn:E1.
    - injection E0 as <- <-. destruct (section_set_spec g (bs "core") None id0 (bs "bare") v E1) as (_ & Hb & Hk & _).
      split; [exact Hb|]. unfold raw_get. cbn [raw_inner]. unfold g'. by rewrite Hk.
    - destruct (new_section_spec _ _ _ _ _ E0) as (Hm & _ & Hnone & _).
      destruct (section_set_spec g0 (bs "core") None id (bs "bare") v Hm) as (_ & Hb & Hk & _).
      split; [exact Hb|]. unfold raw_get. cbn [raw_inner]. unfold g'. by rewrite (Hk _ Hne), Hnone. }
  assert (from_gitconfig (mk_RawConfig g' config_path) = Panic) as Ep.
  { unfold from_gitconfig, core_from_config. destruct (raw_get _ (bs "repositoryformatversion") _); [|done..].
    cbn [mbind outcome_bind]. unfold raw_get. cbn [raw_inner]. rewrite Hb. unfold parse_value, value_parse, bool_value. by rewrite Hv. }
  destruct (write_file_ok (cfg_fs c) (gitconfig_to_string g') Hc) as (fs' & Ew & Er & Hc' & _). exists fs'.
  assert (config_init config_dir home_dir config_path fs' = (Panic, fs')) as Ei.
  { unfold config_init. rewrite merge_files_eq. f_equal. rewrite (init_split _ Hc'). unfold opened. rewrite Er. cbn [mbind option_bind].
    rewrite to_string_parse. cbn [ok_or mbind outcome_bind]. by rewrite Ep. }
  split; [|done]. unfold config_set, with_raw_local_config, on_fs. rewrite (st_bind_ok _ _ c c (mk_RawConfig g config_path)).
  2: { unfold st_zoom, raw_open. rewrite st_get_bind, Hr. cbn. rewrite Hg. by destruct c. }
  unfold raw_set. cbn [raw_inner]. rewrite E0. fold g'. rewrite st_lift_bind.
  rewrite (st_bind_ok _ _ c (mk_Configured fs' (cfg_inner c)) tt).
  2: { unfold st_zoom, raw_write, set_inner. cbn [raw_path raw_inner]. by rewrite Ew. }
  apply st_bind_panic. unfold refresh, on_fs. apply st_bind_panic. unfold st_zoom. cbn [cfg_fs]. by rewrite Ei.
Qed.
End changing.

(** ** Example: a crate

    A configuration file is the list of its sections. *)

Module Sample.
Definition Section_ : Type := (bytes * option bytes) * list (bytes * bytes).
Definition named (n : bytes) (s : option bytes) (x : Section_) : bool := bool_decide (x.1 = (n, s)).

Definition assoc (k : bytes) (b : list (bytes * bytes)) : option bytes :=
  snd <$> head (List.filter (λ kv, bool_decide (kv.1 = k)) b).

Fixpoint value (c : list Section_) (n : bytes) (s : option bytes) (k : bytes) : option bytes :=
  match c with
  | [] => None
  | x :: c => match value c n s k with
              | Some v => Some v
              | None => if named n s x then assoc k x.2 else None
              end
  end.

Fixpoint set_last (n : bytes) (s : option bytes) (k v : bytes) (c : list Section_) : list Section_ :=
  match c with
  | [] => []
  | x :: c => if existsb (named n s) c then x :: set_last n s k v c
              else if named n s x then (x.1, (k, v) :: x.2) :: c else x :: c
  end.

Fixpoint by_name (c : list Section_) (n : bytes) : list (option bytes * list (bytes * bytes)) :=
  match c with
  | [] => []
  | x :: c => if decide (x.1.1 = n) then (x.1.2, x.2) :: by_name c n else by_name c n
  end.

Fixpoint pos_bytes (p : positive) : bytes :=
  match p with xH => [] | xO p => x30 :: pos_bytes p | xI p => x31 :: pos_bytes p end.
Fixpoint bytes_pos (s : bytes) : positive :=
  match s with [] => xH | c :: s => if bool_decide (c = x30) then xO (bytes_pos s) else xI (bytes_pos s) end.

#[export] Instance crate : GitConfigCrate := {
  GitConfig := list Section_;
  SectionBody := list (bytes * bytes);
  SectionId := bytes * option bytes;
  gitconfig_parse s := decode (bytes_pos s);
  gitconfig_to_string c := pos_bytes (encode c);
  gitconfig_value := value;
  sections_by_name := by_name;
  section_value b k := assoc k b;
  section_mut c n s := if existsb (named n s) c then Some (n, s) else None;
  new_section n s c := ((n, s), c ++ [((n, s), [])]);
  section_set id k v c := set_last id.1 id.2 k v c;
  remove_section c n s :=
    if existsb (named n (Some s)) c then Some (List.filter (λ x, negb (named n (Some s) x)) c) else None;
  integer_try_from s := (λ z, (z, None)) <$> (if bool_decide (s = bs "0") then Some 0 else None);
  boolean_try_from s :=
    if bool_decide (s = bs "true") then Some true else if bool_decide (s = bs "false") then Some false else None;
  GitUrl := bytes;
  git_url_parse := Some;
}.

Lemma bytes_pos_bytes p : bytes_pos (pos_bytes p) = p.
Proof. induction p as [p IH|p IH|]; cbn; [..|done]; by rewrite IH. Qed.

Lemma named_spec n s x : named n s x = true ↔ x.1 = (n, s).
Proof. unfold named. apply bool_decide_eq_true. Qed.

Lemma value_none c n s k : existsb (named n s) c = false → value c n s k = None.
Proof.
  induction c as [|x c IH]; [done|]. cbn. intros [-> Hc]%orb_false_iff. by rewrite (IH Hc).
Qed.

Lemma value_app c c' n s k :
  value (c ++ c') n s k = match value c' n s k with Some v => Some v | None => value c n s k end.
Proof. induction c as [|x c IH]; cbn; [by destruct (value c' n s k)|]. rewrite IH. by destruct (value c' n s k). Qed.

Lemma set_last_names n s k v c : (set_last n s k v c).*1 = c.*1.
Proof. induction c as [|x c IH]; cbn; [done|]. destruct (existsb _ c); cbn; [by rewrite IH|]. by destruct (named n s x). Qed.

Lemma existsb_names n s c c' : c.*1 = c'.*1 → existsb (named n s) c = existsb (named n s) c'.
Proof.
  revert c'. induction c as [|x c IH]; intros [|x' c']; cbn; try done. intros [= E1 E2]. unfold named at 1 3. by rewrite E1, (IH c').
Qed.

Lemma value_set_last n s k v c : existsb (named n s) c = true →
  value (set_last n s k v c) n s k = Some v
  ∧ (∀ k', k' ≠ k → value (set_last n s k v c) n s k' = value c n s k')
  ∧ ∀ n' s' k', n' ≠ n → value (set_last n s k v c) n' s' k' = value c n' s' k'.
Proof.
  induction c as [|x c IH]; [done|]. cbn [existsb set_last value]. intros Hx.
  destruct (existsb (named n s) c) eqn:E.
  - destruct (IH eq_refl) as (H1 & H2 & H3). cbn [value]. split_and!; [by rewrite H1| |].
    + intros k' Hk. by rewrite (H2 k' Hk).
    + intros n' s' k' Hn. by rewrite (H3 n' s' k' Hn).
  - rewrite orb_false_r in Hx. rewrite Hx. cbn [value]. apply named_spec in Hx as Ex.
    assert (∀ n' s', named n' s' (x.1, (k, v) :: x.2) = named n' s' x) as Hn by done.
    split_and!.
    + rewrite (value_none c n s k E), Hn, Hx. cbn. unfold assoc. cbn. by rewrite bool_decide_true.
    + intros k' Hk. rewrite Hn, Hx. cbn. unfold assoc. cbn. by rewrite bool_decide_false by done.
    + intros n' s' k' Hne. rewrite Hn. destruct (named n' s' x) eqn:E'; [|done]. apply named_spec in E'. congruence.
Qed.

Lemma by_name_app c c' n : by_name (c ++ c') n = by_name c n ++ by_name c' n.
Proof. induction c as [|x c IH]; cbn; [done|]. rewrite IH. by case_decide. Qed.

Lemma by_name_has c n s : existsb (named n s) c = true ↔ s ∈ (by_name c n).*1.
Proof.
  induction c as [|[[n' s'] b] c IH]; cbn; [by rewrite elem_of_nil|]. rewrite orb_true_iff, IH, named_spec. cbn.
  case_decide as E; cbn; rewrite ?elem_of_cons; [subst n'|]; (split; [intros [?|?]|intros ?]); naive_solver.
Qed.

Lemma by_name_set_last_ne n s k v c n' : n' ≠ n → by_name (set_last n s k v c) n' = by_name c n'.
Proof.
  intros Hn. induction c as [|x c IH]; cbn [set_last]; [done|]. destruct (existsb _ c); [cbn; by rewrite IH|].
  destruct (named n s x) eqn:E; [|done]. apply named_spec in E. cbn. rewrite E. cbn. by rewrite !decide_False by done.
Qed.

Lemma by_name_set_last n s k v c l b : by_name c n = l ++ [(s, b)] → s ∉ l.*1 →
  by_name (set_last n s k v c) n = l ++ [(s, (k, v) :: b)].
Proof.
  revert l. induction c as [|[[n' s'] b'] c IH]; intros l; [by intros ?%app_cons_not_nil|]. cbn. intros E Hs.
  destruct (existsb (named n s) c) eqn:Ex; cbn.
  - destruct (decide (n' = n)) as [->|En]; [|by apply IH]. destruct l as [|x l]; cbn in E.
    + injection E as -> -> E. apply by_name_has in Ex. rewrite E in Ex. by apply elem_of_nil in Ex.
    + injection E as <- E. cbn. f_equal. apply IH; [done|]. cbn in Hs. set_solver.
  - assert (s ∉ (by_name c n).*1) as Hc by (rewrite <- by_name_has; congruence).
    destruct (decide (n' = n)) as [->|En]; [|rewrite E, fmap_app in Hc; set_solver]. destruct l as [|x l]; cbn in E.
    + injection E as -> -> E. unfold named. cbn. rewrite bool_decide_true by done. cbn. rewrite decide_True by done.
      by rewrite E.
    + injection E as <- E. rewrite E, fmap_app in Hc. set_solver.
Qed.

Lemma by_name_filter c n s :
  by_name (List.filter (λ x, negb (named n s x)) c) n = List.filter (λ e, negb (bool_decide (e.1 = s))) (by_name c n)
  ∧ (∀ n', n' ≠ n → by_name (List.filter (λ x, negb (named n s x)) c) n' = by_name c n')
  ∧ ∀ n' s' k, n' ≠ n → value (List.filter (λ x, negb (named n s x)) c) n' s' k = value c n' s' k.
Proof.
  induction c as [|[[n' s'] b] c (IH1 & IH2 & IH3)]; [done|]. cbn. unfold named at 1 4 7. cbn.
  split_and!.
  - case_decide as En; [subst n'|].
    + cbn. destruct (bool_decide (s' = s)) eqn:E; cbn.
      * apply bool_decide_eq_true in E as ->. by rewrite bool_decide_true.
      * apply bool_decide_eq_false in E. rewrite bool_decide_false by congruence. cbn. rewrite decide_True by done.
        f_equal. exact IH1.
    + rewrite bool_decide_false by congruence. cbn. by rewrite decide_False by done.
  - intros n2 Hn. case_decide as En.
    + subst n2. rewrite bool_decide_false by congruence. cbn. rewrite decide_True by done. f_equal. by apply IH2.
    + destruct (negb _); cbn; [rewrite decide_False by done|]; by apply IH2.
  - intros n2 s2 k Hn. destruct (bool_decide _) eqn:E; cbn; [|by rewrite IH3].
    apply bool_decide_eq_true in E. injection E as -> ->. rewrite IH3 by done.
    destruct (value c n2 s2 k); [done|]. destruct (named n2 s2 _) eqn:E; [|done]. apply named_spec in E. cbn in E. congruence.
Qed.

Lemma lower_ne a b : lower a ≠ lower b → a ≠ b.
Proof. by intros H ->. Qed.

#[export] Instance laws : GitConfigLaws.
Proof.
  split.
  - intros c. cbn. by rewrite bytes_pos_bytes, decode_encode.
  - intros c n s. cbn. rewrite <- by_name_has. destruct (existsb _ c); split; (done || congruence).
  - intros c n s id c'. cbn. intros [= <- <-]. split_and!.
    + rewrite existsb_app. cbn. unfold named at 2. cbn. by rewrite bool_decide_true, orb_true_r by done.
    + exists []. split; [|done]. rewrite by_name_app. cbn. by rewrite decide_True.
    + destruct (existsb _ c) eqn:E; [done|]. intros _ k. rewrite value_app. cbn. rewrite (value_none c n s k E).
      by destruct (named _ _ _).
    + intros n' Hn%lower_ne. split; [rewrite by_name_app; cbn; by rewrite decide_False, app_nil_r by done|].
      intros s' k. rewrite value_app. cbn. destruct (named n' s' _) eqn:E; [|done]. apply named_spec in E. cbn in E. congruence.
  - intros c n s id k v. cbn. destruct (existsb (named n s) c) eqn:E; [|done]. intros [= <-]. cbn.
    destruct (value_set_last n s k v c E) as (H1 & H2 & H3). split_and!.
    + rewrite (existsb_names n s _ c) by apply set_last_names. by rewrite E.
    + exact H1.
    + intros k' Hk%lower_ne. by apply H2.
    + intros l b Hl Hs. exists ((k, v) :: b). split_and!; [by apply by_name_set_last| |].
      * unfold assoc. cbn. by rewrite bool_decide_true.
      * intros k' Hk%lower_ne. unfold assoc. cbn. by rewrite bool_decide_false by done.
    + intros n' Hn%lower_ne. split; [by apply by_name_set_last_ne|]. intros s' k'. by apply H3.
  - intros c n s l b r. cbn. intros Hl H1 H2. assert (existsb (named n (Some s)) c = true) as ->.
    { apply by_name_has. rewrite Hl, fmap_app. set_solver. }
    destruct (by_name_filter c n (Some s)) as (F1 & F2 & F3). eexists. split; [done|]. split.
    + rewrite F1, Hl. assert (∀ m : list (option bytes * list (bytes * bytes)), Some s ∉ m.*1 →
        List.filter (λ e, negb (bool_decide (e.1 = Some s))) m = m) as Hm.
      { induction m as [|x m IH]; [done|]. cbn. intros Hx. rewrite bool_decide_false by set_solver. cbn. f_equal. apply IH. set_solver. }
      rewrite List.filter_app. cbn. rewrite bool_decide_true by done. cbn. by rewrite !Hm.
    + intros n' Hn%lower_ne. split; [by apply F2|]. intros s' k. by apply F3.
Qed.
End Sample.

(** ** Example: three configuration files *)

Definition local_file : list Sample.Section_ :=
  [((bs "core", None), [(bs "repositoryformatversion", bs "0"); (bs "bare", bs "false")])].
Definition dir_file : list Sample.Section_ := [((bs "user", None), [(bs "name", bs "dir")])].
Definition home_file : list Sample.Section_ := [((bs "user", None), [(bs "name", bs "home"); (bs "email", bs "m")])].

Definition sample_text (c : list Sample.Section_) : bytes := gitconfig_to_string (GitConfigCrate := Sample.crate) c.
Definition sample_path : BitPath := bs "/r/.git/config".
Definition sample_config_dir : option BitPath := Some (bs "/h/.config").
Definition sample_home : option BitPath := Some (bs "/h").

Definition sample_files : Fs :=
  mk_Fs {[ sample_path := NFile 0; bs "/h/.config/git/config" := NFile 1; bs "/h/.gitconfig" := NFile 2; bs "/r/.git" := NDir ]}
    {[ 0%nat := mk_Inode (sample_text local_file) false; 1%nat := mk_Inode (sample_text dir_file) false;
       2%nat := mk_Inode (sample_text home_file) false ]} 3.

Definition sample_inner : BitConfigInner (Crate := Sample.crate) :=
  mk_BitConfigInner (mk_CoreConfig (Some 0) (Some false) None None) (mk_UserConfig (Some (bs "dir")) (Some (bs "m")))
    (mk_MergeConfig None) (mk_RemotesConfig ∅).
Definition sample_configured : Configured (Crate := Sample.crate) := mk_Configured sample_files sample_inner.

Lemma sample_config_file : config_file sample_config_dir sample_home sample_path sample_files.
Proof. exists 0%nat. split_and!; [done|by eexists|done|vm_decide]. Qed.

Lemma sample_up_to_date : up_to_date (Crate := Sample.crate) sample_config_dir sample_home sample_path sample_configured.
Proof. apply up_to_date_merged. vm_cast_no_check (eq_refl (Ok (E := BitGenericError) sample_inner)). Qed.

Lemma config_init_precedence_witness :
  ∃ inner, config_init (Crate := Sample.crate) sample_config_dir sample_home sample_path sample_files = (Ok inner, sample_files)
    ∧ name inner = Some (bs "dir") ∧ email inner = Some (bs "m").
Proof.
  destruct (config_init_precedence (Crate := Sample.crate) sample_config_dir sample_home sample_path sample_files
    [mk_BitConfigInner (mk_CoreConfig (Some 0) (Some false) None None) (mk_UserConfig None None) (mk_MergeConfig None) (mk_RemotesConfig ∅);
     mk_BitConfigInner (mk_CoreConfig None None None None) (mk_UserConfig (Some (bs "dir")) None) (mk_MergeConfig None) (mk_RemotesConfig ∅);
     mk_BitConfigInner (mk_CoreConfig None None None None) (mk_UserConfig (Some (bs "home")) (Some (bs "m"))) (mk_MergeConfig None) (mk_RemotesConfig ∅)])
    as (inner & E & _ & _ & _ & _ & _ & En & Em & _).
  - change (List.filter (fs_exists sample_files) (config_paths sample_config_dir sample_home sample_path))
      with [sample_path; bs "/h/.config/git/config"; bs "/h/.gitconfig"].
    repeat constructor; rewrite config_open_eq; f_equal; vm_compute; reflexivity.
  - exists inner. split_and!; [exact E|exact En|exact Em].
Defined.

Definition sample_name : bytes := bs "origin".
Definition sample_url : bytes := bs "git@h:r".

Lemma add_remote_correct_witness :
  ∃ fs', let c' := mk_Configured (Crate := Sample.crate) fs'
      (set_remote sample_name (mk_RemoteConfig (Crate := Sample.crate) sample_url (default_fetch_for_remote sample_name)) sample_inner) in
    add_remote (Crate := Sample.crate) sample_config_dir sample_home sample_path sample_name sample_url sample_configured = (Ok tt, c').
Proof.
  pose proof (add_remote_correct (Laws := Sample.laws) sample_config_dir sample_home sample_path sample_configured
    (sample_text local_file) local_file sample_name sample_url sample_url sample_config_file eq_refl ltac:(vm_compute; reflexivity)
    sample_up_to_date eq_refl eq_refl eq_refl) as H.
  rewrite decide_False in H by (vm_compute; intros ?%elem_of_nil; done). destruct H as (fs' & E & _). by exists fs'.
Defined.

Lemma remove_remote_undoes_add_witness : ∃ c' fs'',
  add_remote (Crate := Sample.crate) sample_config_dir sample_home sample_path sample_name sample_url sample_configured = (Ok tt, c')
  ∧ remove_remote (Crate := Sample.crate) sample_config_dir sample_home sample_path sample_name c' = (Ok tt, mk_Configured fs'' sample_inner).
Proof.
  destruct (add_remote (Crate := Sample.crate) sample_config_dir sample_home sample_path sample_name sample_url sample_configured)
    as [r c'] eqn:E.
  assert (r = Ok tt) as ->.
  { transitivity (fst (add_remote (Crate := Sample.crate) sample_config_dir sample_home sample_path sample_name sample_url sample_configured));
      [by rewrite E|by vm_compute]. }
  exists c'. destruct (remove_remote_undoes_add (Laws := Sample.laws) sample_config_dir sample_home sample_path sample_configured
    (sample_text local_file) local_file sample_name sample_url sample_url c' sample_config_file eq_refl ltac:(vm_compute; reflexivity)
    sample_up_to_date eq_refl eq_refl eq_refl E) as (fs'' & Er & _).
  exists fs''. split; [done|exact Er].
Defined.

Lemma unparsed_boolean_sticks_witness : ∃ fs',
  config_set (Crate := Sample.crate) sample_config_dir sample_home sample_path (bs "core") (bs "bare") (bs "maybe") sample_configured
    = (Panic, mk_Configured fs' sample_inner)
  ∧ config_init (Crate := Sample.crate) sample_config_dir sample_home sample_path fs' = (Panic, fs').
Proof.
  apply (unparsed_boolean_sticks (Laws := Sample.laws) sample_config_dir sample_home sample_path sample_configured
    (sample_text local_file) local_file (bs "maybe") sample_config_file eq_refl ltac:(vm_compute; reflexivity) sample_up_to_date eq_refl).
Defined.
