(* ===== verification/Repo.v ===== *)
(** * Repo

    [libbit/src/repo.rs]: how a repository is created, found and loaded, and the transaction that
    [RepoCtxt::enter] makes of a command ([libbit/src/tls.rs]): when it fails, the index is rolled
    back. *)

From Stdlib Require Import ZArith Lia.
From Stdlib Require Import Strings.Byte.
From stdpp Require Import base tactics option list countable strings gmap.
From S2P Require Import Prelude RustStd Data State Io Path Lockfile Refs RefDb Remote Config.

#[local] Open Scope Z_scope.

(** ** std::fs *)

(** [Path::canonicalize] of [p] from the directory [cwd], where there are no symbolic links. *)
Fixpoint canonicalize_loop (fs : Fs) (cs : list component) (ret : BitPath) : BitResult BitPath :=
  match cs with
  | [] => Ok ret
  | RootDir :: cs => canonicalize_loop fs cs [x2f]
  | c :: cs =>
      _ ← ensure (bool_decide (names fs !! ret = Some NDir)) Anyhow;
      let next := match c with
                  | ParentDir => default ret (parent ret)
                  | Normal s => join ret s
                  | _ => ret
                  end in
      _ ← ensure (fs_exists fs next) Anyhow;
      canonicalize_loop fs cs next
  end.

Definition canonicalize (cwd : BitPath) (p : BitPath) : st Fs BitPath := λ fs,
  (canonicalize_loop fs (path_components (join cwd p)) [], fs).

(** [std::fs::create_dir]. *)
Definition create_dir (p : BitPath) : st Fs unit :=
  fs ← st_get;
  _ ← st_lift (ensure (negb (fs_exists fs p)) Anyhow);
  _ ← st_lift (ensure (match parent p with Some d => bool_decide (names fs !! d = Some NDir) | None => false end) Anyhow);
  st_put (set_names fs (<[p := NDir]> (names fs))).

(** ** RepoCtxt *)

Definition BIT_INDEX_FILE_PATH : bytes := bs "index".
Definition BIT_CONFIG_FILE_PATH : bytes := bs "config".

Inductive InitSummary := Init | Reinit.

Section repo.
Context `{Crate : GitConfigCrate} (config_dir home_dir : option BitPath) (cwd : BitPath).
(** The index, as [libbit/src/index.rs] keeps it under its lock. *)
Context {Index : Type} `{Serialize Index, Deserialize Index} (index_default : Index).

Record RepoCtxt := mk_RepoCtxt {
  workdir : BitPath;
  bitdir : BitPath;
  config_filepath : BitPath;
  index_filepath : BitPath;
  config : BitConfigInner;
  index_cell : option (Filelock Index);
}.

Definition repo_ctxt_new (workdir bitdir config_filepath : BitPath) : st Fs RepoCtxt :=
  config ← config_init config_dir home_dir config_filepath;
  mret (mk_RepoCtxt workdir bitdir config_filepath (join bitdir BIT_INDEX_FILE_PATH) config None).

Definition load_with_bitdir (path bitdir : BitPath) : st Fs RepoCtxt :=
  worktree ← canonicalize cwd path;
  let bitdir := join worktree bitdir in
  let config_filepath := join bitdir BIT_CONFIG_FILE_PATH in
  rcx ← repo_ctxt_new worktree bitdir config_filepath;
  version ← st_lift (unwrap (repositoryformatversion (config rcx)));
  _ ← st_lift (ensure (version =? 0) Anyhow);
  mret rcx.

Definition load (path : BitPath) : st Fs RepoCtxt := load_with_bitdir path (bs ".git").

(** The recursion goes up to the root. *)
Fixpoint find_inner (fuel : nat) (path : BitPath) : st Fs RepoCtxt :=
  match fuel with
  | O => st_lift Panic
  | S fuel =>
      fs ← st_get;
      if fs_exists fs (join path (bs ".git")) then load path
      else if fs_exists fs (join path (bs ".bit")) then load_with_bitdir path (bs ".bit")
      else match parent path with Some parent => find_inner fuel parent | None => st_lift bail end
  end.

(** ** Transactions *)

Abbreviation Repo := (Fs * RepoCtxt)%type.

Definition set_index_cell (l : option (Filelock Index)) (rcx : RepoCtxt) : RepoCtxt :=
  mk_RepoCtxt (workdir rcx) (bitdir rcx) (config_filepath rcx) (index_filepath rcx) (config rcx) l.

(** [index_lock]: the index is read, and locked, when it is first used. *)
Definition index_lock : st Repo (Filelock Index) := λ '(fs, rcx),
  match index_cell rcx with
  | Some l => (Ok l, (fs, rcx))
  | None => match filelock_lock index_default (index_filepath rcx) fs with
            | (Ok l, fs) => (Ok l, (fs, set_index_cell (Some l) rcx))
            | (Err e, fs) => (Err e, (fs, rcx))
            | (Panic, fs) => (Panic, (fs, rcx))
            end
  end.

(** [index] and a read through [Deref]; [index_mut] and a change through [DerefMut]. *)
Definition index_read : st Repo Index := l ← index_lock; st_lift (filelock_deref l).
Definition index_mut (g : Index → Index) : st Repo unit :=
  l ← index_lock;
  l ← st_lift (filelock_update g l);
  (λ '(fs, rcx), (Ok tt, (fs, set_index_cell (Some l) rcx))) : st Repo unit.

(** The drop of the last reference. *)
Definition drop_repo {R} (r : BitResult R) : Repo → BitResult R * Fs := λ '(fs, rcx),
  match index_cell rcx with
  | None => (r, fs)
  | Some l => let '(d, fs) := filelock_drop l fs in (match d with Ok _ => r | _ => Panic end, fs)
  end.

(** [RepoCtxt::enter].  A panic leaves the context in the thread local. *)
Definition enter {R} (f : st Repo R) (rcx : RepoCtxt) : st Fs R := λ fs,
  let '(res, (fs, rcx)) := f (fs, rcx) in
  match res with
  | Ok r => drop_repo (Ok r) (fs, rcx)
  | Err err => drop_repo (Err err) (fs, set_index_cell (filelock_rollback <$> index_cell rcx) rcx)
  | Panic => (Panic, fs)
  end.

Definition find {R} (path : BitPath) (f : st Repo R) : st Fs R :=
  canonical_path ← canonicalize cwd path;
  rcx ← find_inner (S (length canonical_path)) canonical_path;
  enter f rcx.

(** ** Creating a repository *)

Definition mk_bitdir (bitdir path : BitPath) : st Fs unit :=
  let p := join bitdir path in create_dir_all (S (length p)) p.

(** [mk_bitfile] and [writeln!]. *)
Definition mk_bitfile (bitdir path : BitPath) (line : bytes) : st Fs unit :=
  write_file (join bitdir path) (line ++ [x0a]).

Definition core_values : st RawConfig unit :=
  _ ← raw_set (bs "core") (bs "repositoryformatversion") (bs "0");
  _ ← raw_set (bs "core") (bs "bare") (bs "false");
  raw_set (bs "core") (bs "filemode") (bs "true").

Definition set_core (config_path : BitPath) : st Configured unit :=
  with_raw_local_config config_dir home_dir config_path core_values.

Definition init (path : BitPath) : st Fs InitSummary :=
  workdir ← canonicalize cwd path;
  fs ← st_get;
  _ ← st_lift (ensure (negb (fs_is_file fs workdir)) Anyhow);
  let bitdir := join workdir (bs ".git") in
  if fs_exists fs bitdir then mret Reinit
  else
    _ ← create_dir bitdir;
    let config_filepath := join bitdir BIT_CONFIG_FILE_PATH in
    rcx ← repo_ctxt_new workdir bitdir config_filepath;
    _ ← mk_bitdir bitdir (bs "objects");
    _ ← mk_bitdir bitdir (bs "objects/pack");
    _ ← mk_bitdir bitdir (bs "refs/tags");
    _ ← mk_bitdir bitdir (bs "refs/heads");
    _ ← mk_bitfile bitdir (bs "description") (bs "Unnamed repository; edit this file 'description' to name the repository.");
    _ ← mk_bitfile bitdir (bs "HEAD") (bs "ref: refs/heads/master");
    _ ← file_create config_filepath;
    (λ fs, let '(r, c) := set_core config_filepath (mk_Configured fs (config rcx)) in
           (_ ← r; Ok Init, cfg_fs c)) : st Fs InitSummary.

Definition init_load {R} (path : BitPath) (f : st Repo R) : st Fs R :=
  _ ← init path;
  rcx ← load path;
  enter f rcx.
End repo.

(** ** Finding a repository *)

Definition abs_path (cs : list bytes) : BitPath := x2f :: join_slash cs.

(** The directory and its ancestors, the nearest first. *)
Definition ancestors (cs : list bytes) : list BitPath :=
  (λ n, abs_path (take n cs)) <$> reverse (seq 0 (S (length cs))).

Definition has_repo (fs : Fs) (dir : BitPath) : bool :=
  fs_exists fs (join dir (bs ".git")) || fs_exists fs (join dir (bs ".bit")).

Lemma split_abs cs : Forall comp_name cs → cs ≠ [] → split_slash (path_body (abs_path cs)) = cs.
Proof.
  intros Hc Hne. unfold path_body, split_slash. cbn. unfold join_slash. rewrite drop_0.
  apply split_join_byte; [done|]. eapply Forall_impl; [exact Hc|]. by intros s [Hs _].
Qed.

Lemma trim_junk_comps k cs : Forall comp_name cs → trim_junk k cs = cs.
Proof.
  destruct cs as [|c cs] using rev_ind; [done|]. intros [_ [Hc _]%Forall_cons]%Forall_app.
  apply trim_junk_last. by apply plain_not_junk.
Qed.

Lemma abs_segments cs : Forall comp_name cs → body_segments (abs_path cs) = cs.
Proof.
  intros Hc. unfold body_segments. destruct cs as [|c cs]; [done|]. rewrite split_abs by done. by apply trim_junk_comps.
Qed.

Lemma abs_parent cs : Forall comp_name cs →
  parent (abs_path cs) = match cs with [] => None | _ => Some (abs_path (removelast cs)) end.
Proof.
  intros Hc. unfold parent. rewrite abs_segments by done. destruct cs as [|c cs]; [done|].
  assert (Forall comp_name (removelast (c :: cs))) as Hr.
  { destruct (exists_last (l := c :: cs)) as (l & x & E); [done|]. rewrite E in *. rewrite removelast_last. by apply Forall_app in Hc as [? _]. }
  by rewrite trim_junk_comps by done.
Qed.

Lemma ancestors_snoc cs c : ancestors (cs ++ [c]) = abs_path (cs ++ [c]) :: ancestors cs.
Proof.
  unfold ancestors. rewrite length_app. cbn [length]. rewrite Nat.add_1_r, (seq_S (S (length cs))), reverse_app. cbn [reverse rev_append app fmap list_fmap].
  rewrite take_ge by (rewrite length_app; cbn; lia). f_equal.
  apply list_fmap_ext. intros i n Hn. f_equal. apply list_elem_of_lookup_2, elem_of_reverse, elem_of_seq in Hn.
  rewrite take_app_le by lia. done.
Qed.

Section finding.
Context `{Crate : GitConfigCrate} (config_dir home_dir : option BitPath) (cwd : BitPath).
Context {Index : Type} `{Serialize Index, Deserialize Index}.

#[local] Abbreviation load_from := (load_with_bitdir config_dir home_dir cwd (Index := Index)).

(** From a directory the repository of the nearest ancestor that has one is loaded, itself first; in
    one directory [.git] comes before [.bit].  The search ends at the root. *)
Theorem find_inner_nearest cs fs fuel : Forall comp_name cs → (length cs < fuel)%nat →
  find_inner config_dir home_dir cwd fuel (abs_path cs) fs
  = match List.find (has_repo fs) (ancestors cs) with
    | Some dir => load_from dir (if fs_exists fs (join dir (bs ".git")) then bs ".git" else bs ".bit") fs
    | None => (Err Anyhow, fs)
    end.
Proof.
  revert cs. induction fuel as [|fuel IH]; intros cs Hc Hf; [lia|]. cbn [find_inner]. rewrite st_get_bind.
  assert (∃ rest, ancestors cs = abs_path cs :: rest
    ∧ match parent (abs_path cs) with Some p => find_inner config_dir home_dir cwd fuel p | None => st_lift bail end fs
      = match List.find (has_repo fs) rest with
        | Some dir => load_from dir (if fs_exists fs (join dir (bs ".git")) then bs ".git" else bs ".bit") fs
        | None => (Err Anyhow, fs)
        end) as (rest & -> & Hrest).
  { rewrite abs_parent by done. destruct cs as [|c cs _] using rev_ind; [by exists []|].
    exists (ancestors cs). split; [apply ancestors_snoc|]. apply Forall_app in Hc as [Hc _]. rewrite length_app in Hf. cbn in Hf.
    destruct (cs ++ [c]) eqn:E; [by apply app_eq_nil in E as [_ ?]|]. rewrite <- E, removelast_last. apply IH; [done|lia]. }
  cbn [List.find]. unfold has_repo at 1. destruct (fs_exists fs (join (abs_path cs) (bs ".git"))) eqn:Eg; cbn [orb]; [by rewrite Eg|].
  destruct (fs_exists fs (join (abs_path cs) (bs ".bit"))); [by rewrite Eg|exact Hrest].
Qed.
End finding.

(** ** Creating a repository *)

Lemma join_abs cs q : Forall comp_name cs → cs ≠ [] → is_absolute q = false → join (abs_path cs) q = abs_path cs ++ x2f :: q.
Proof.
  intros Hc Hne Hq. unfold join. rewrite Hq. destruct cs as [|c cs _] using rev_ind; [done|].
  apply Forall_app in Hc as [_ [(Hs & Hn & _) _]%Forall_cons]. destruct c as [|b c _] using rev_ind; [done|].
  assert (last (abs_path (cs ++ [c ++ [b]])) = Some b) as ->.
  { unfold abs_path, join_slash. destruct cs as [|d cs]; [cbn [app join_byte]|rewrite join_byte_app by done; cbn [join_byte]].
    - by rewrite app_comm_cons, last_snoc.
    - rewrite !app_comm_cons, app_assoc. by rewrite last_snoc. }
  rewrite bool_decide_false; [done|]. intros ->. apply Hs. set_solver.
Qed.

Lemma join_child d n q : comp_name n → is_absolute q = false → join (path_child d n) q = path_child d n ++ x2f :: q.
Proof.
  intros (Hs & Hn & _) Hq. unfold join. rewrite Hq. destruct n as [|b n _] using rev_ind; [done|].
  unfold path_child. rewrite app_comm_cons, app_assoc, last_snoc, bool_decide_false; [done|]. intros ->. set_solver.
Qed.

Lemma create_dir_all_child f d n fs : tidy_dir d → comp_name n → names fs !! d = Some NDir →
  names fs !! path_child d n = None →
  create_dir_all (S (S f)) (path_child d n) fs = (Ok tt, set_names fs (<[path_child d n := NDir]> (names fs))).
Proof.
  intros Hd Hn Ed En. cbn [create_dir_all]. rewrite st_get_bind. unfold Path.is_empty.
  rewrite bool_decide_false by by destruct d. rewrite En, child_parent by done.
  rewrite (st_bind_ok _ _ fs fs tt); [by rewrite st_get_bind|]. rewrite st_get_bind. unfold Path.is_empty.
  rewrite bool_decide_false by by apply Hd. by rewrite Ed.
Qed.

(** A directory and one below it. *)
Lemma create_dir_all_two f d n1 n2 fs : tidy_dir d → comp_name n1 → comp_name n2 → names fs !! d = Some NDir →
  names fs !! path_child d n1 = None → names fs !! path_child (path_child d n1) n2 = None →
  create_dir_all (S (S (S f))) (path_child (path_child d n1) n2) fs
  = (Ok tt, set_names fs (<[path_child (path_child d n1) n2 := NDir]> (<[path_child d n1 := NDir]> (names fs)))).
Proof.
  intros Hd H1 H2 Ed E1 E2. pose proof (create_dir_all_child f d n1 fs Hd H1 Ed E1) as Ec.
  remember (S (S f)) as k eqn:Ek. cbn [create_dir_all]. rewrite st_get_bind. unfold Path.is_empty.
  rewrite bool_decide_false by by destruct d. rewrite E2, child_parent by (done || by apply child_tidy; [apply Hd|]).
  by rewrite (st_bind_ok _ _ _ _ _ Ec), st_get_bind.
Qed.

Definition with_file (p : BitPath) (data : bytes) (fs : Fs) : Fs :=
  mk_Fs (<[p := NFile (next_ino fs)]> (names fs)) (<[next_ino fs := mk_Inode data false]> (inodes fs)) (S (next_ino fs)).

Lemma file_create_new d n fs : tidy_dir d → comp_name n → names fs !! d = Some NDir → names fs !! path_child d n = None →
  file_create (path_child d n) fs = (Ok (next_ino fs), with_file (path_child d n) [] fs).
Proof.
  intros Hd Hn Ed En. unfold file_create. rewrite st_get_bind, En, child_parent by done.
  rewrite bool_decide_true, orb_true_r by done. unfold create_new. rewrite st_get_bind. unfold fs_exists.
  rewrite En. by rewrite bool_decide_false by by intros [].
Qed.

Lemma write_file_new d n data fs : tidy_dir d → comp_name n → names fs !! d = Some NDir → names fs !! path_child d n = None →
  write_file (path_child d n) data fs = (Ok tt, with_file (path_child d n) data fs).
Proof.
  intros Hd Hn Ed En. unfold write_file. rewrite (st_bind_ok _ _ _ _ _ (file_create_new d n fs Hd Hn Ed En)), st_get_bind.
  unfold st_put, fs_append, with_file. cbn [names inodes next_ino]. do 2 f_equal. apply map_eq. intros i.
  destruct (decide (i = next_ino fs)) as [->|Hi]; [by rewrite lookup_alter_eq, !lookup_insert_eq|].
  by rewrite lookup_alter_ne, !lookup_insert_ne by done.
Qed.

Lemma canonicalize_grows cwd fs fs' p w : (∀ q n, names fs !! q = Some n → names fs' !! q = Some n) →
  canonicalize cwd p fs = (Ok w, fs) → canonicalize cwd p fs' = (Ok w, fs').
Proof.
  intros Hg. unfold canonicalize. intros [= E]. f_equal. revert E. generalize (@nil byte).
  induction (path_components (join cwd p)) as [|c cs IH]; intros r; [done|].
  assert (∀ k, canonicalize_loop fs cs k = Ok w → canonicalize_loop fs' cs k = Ok w) as IH' by (intros k; apply IH).
  assert (∀ r', (_ ← ensure (bool_decide (names fs !! r = Some NDir)) Anyhow; _ ← ensure (fs_exists fs r') Anyhow; canonicalize_loop fs cs r') = Ok w →
    (_ ← ensure (bool_decide (names fs' !! r = Some NDir)) Anyhow; _ ← ensure (fs_exists fs' r') Anyhow; canonicalize_loop fs' cs r') = Ok w) as Hstep.
  { intros r'. case_bool_decide as Hd; [|done]. rewrite (bool_decide_true (names fs' !! r = _)) by by apply Hg.
    cbn [ensure mbind outcome_bind]. unfold fs_exists. case_bool_decide as He; [|done]. destruct He as [x Hx].
    rewrite (bool_decide_true (is_Some (names fs' !! r'))) by (rewrite (Hg _ _ Hx); eauto). apply IH'. }
  destruct c; cbn [canonicalize_loop]; [apply IH'|apply Hstep..].
Qed.

Section creating.
Context `{Laws : GitConfigLaws} (config_dir home_dir : option BitPath) (cwd : BitPath).
Context {Index : Type} `{Serialize Index, Deserialize Index}.

(** What the crate makes of an empty file, and of the values that are written. *)
Definition empty_config (g : GitConfig) : Prop :=
  gitconfig_parse [] = Some g ∧ section_mut g (bs "core") None = None
  ∧ (∀ n, sections_by_name g n = []) ∧ (∀ n s k, gitconfig_value g n s k = None)
  ∧ integer_try_from (bs "0") = Some (0, None)
  ∧ boolean_try_from (bs "false") = Some false ∧ boolean_try_from (bs "true") = Some true.

(** The closure of [init]. *)
Lemma set_core_ok g p : empty_config g → ∃ g',
  core_values (mk_RawConfig g p) = (Ok tt, mk_RawConfig g' p)
  ∧ from_gitconfig (mk_RawConfig g' p)
    = Ok (mk_BitConfigInner (mk_CoreConfig (Some 0) (Some false) (Some true) None) (mk_UserConfig None None)
            (mk_MergeConfig None) (mk_RemotesConfig ∅)).
Proof.
  intros (_ & Hm & Hs & Hv & Hz & Hf & Ht).
  destruct (new_section (bs "core") None g) as [id g0] eqn:E0.
  destruct (new_section_spec _ _ _ _ _ E0) as (M0 & _ & N0 & F0). specialize (N0 Hm).
  destruct (section_set_spec g0 (bs "core") None id (bs "repositoryformatversion") (bs "0") M0) as (M1 & V1 & K1 & _ & F1).
  set (g1 := section_set id (bs "repositoryformatversion") (bs "0") g0) in *.
  destruct (section_set_spec g1 (bs "core") None id (bs "bare") (bs "false") M1) as (M2 & V2 & K2 & _ & F2).
  set (g2 := section_set id (bs "bare") (bs "false") g1) in *.
  destruct (section_set_spec g2 (bs "core") None id (bs "filemode") (bs "true") M2) as (M3 & V3 & K3 & _ & F3).
  set (g3 := section_set id (bs "filemode") (bs "true") g2) in *.
  exists g3. split.
  { unfold core_values, raw_set, section_or_new, mbind, st_bind, set_inner. cbn [raw_inner raw_path]. rewrite Hm, E0. cbn [raw_inner raw_path].
    fold g1. rewrite M1. cbn [raw_inner raw_path]. fold g2. by rewrite M2. }
  assert (∀ n k, lower n ≠ lower (bs "core") → gitconfig_value g3 n None k = None) as Hother.
  { intros n k Hn. destruct (F3 n Hn) as [_ ->], (F2 n Hn) as [_ ->], (F1 n Hn) as [_ ->], (F0 n Hn) as [_ ->]. apply Hv. }
  assert (sections_by_name g3 (bs "remote") = []) as Hrem.
  { assert (lower (bs "remote") ≠ lower (bs "core")) as Hn by by vm_compute.
    destruct (F3 _ Hn) as [-> _], (F2 _ Hn) as [-> _], (F1 _ Hn) as [-> _], (F0 _ Hn) as [-> _]. apply Hs. }
  unfold from_gitconfig, core_from_config, user_from_config, merge_from_config, remotes_from_config, raw_get. cbn [raw_inner].
  rewrite V3, !K3 by by vm_compute. rewrite V2, !K2 by by vm_compute. rewrite V1, !K1 by by vm_compute.
  rewrite N0, !Hother by by vm_compute. rewrite Hrem.
  unfold parse_value, value_parse, i64_value, bool_value. by rewrite Hz, Hf, Ht.
Qed.

Lemma merged_any fs paths i j i' : merged fs paths i = Ok i' → ∃ j', merged fs paths j = Ok j'.
Proof.
  revert i j. induction paths as [|p paths IH]; intros i j; cbn; [by eauto|]. destruct (fs_exists fs p); [|apply IH].
  destruct (opened fs p) as [other| |]; [|done..]. apply IH.
Qed.

Lemma merged_keeps {A} (f : BitConfigInner → option A) fs paths i i' x :
  (∀ s o, f (config_merge s o) = match f s with Some y => Some y | None => f o end) →
  f i = Some x → merged fs paths i = Ok i' → f i' = Some x.
Proof.
  intros Hf. revert i. induction paths as [|p paths IH]; intros i Hi; cbn; [by intros [= <-]|].
  destruct (fs_exists fs p); [|by apply IH]. destruct (opened fs p) as [other| |]; [|done..]. apply IH. by rewrite Hf, Hi.
Qed.

Lemma merged_ext fs fs' paths i :
  Forall (λ p, fs_exists fs' p = fs_exists fs p ∧ fs_read fs' p = fs_read fs p) paths → merged fs' paths i = merged fs paths i.
Proof.
  intros Hall. revert i. induction Hall as [|p paths [He Hr] _ IH]; intros i; cbn; [done|]. rewrite He, (opened_read _ _ _ Hr), IH.
  destruct (fs_exists fs p); [|done]. destruct (opened fs p) as [other| |]; [|done..]. apply IH.
Qed.

(** A directory and what is below it; [.gitignore] is not below [.git]. *)
Definition in_dir (d q : BitPath) : Prop := q = d ∨ ∃ s, q = path_child d s.

(** The files of a repository below [.git] have been made, beside what was there. *)
Definition made (gitdir : BitPath) (fs fs' : Fs) : Prop :=
  (∀ q, ¬ in_dir gitdir q → names fs' !! q = names fs !! q)
  ∧ (∀ i, (i < next_ino fs)%nat → inodes fs' !! i = inodes fs !! i) ∧ (next_ino fs ≤ next_ino fs')%nat.

Lemma made_dir gitdir fs fs' s : made gitdir fs fs' → made gitdir fs (set_names fs' (<[path_child gitdir s := NDir]> (names fs'))).
Proof.
  intros (M1 & M2 & M3). split_and!; [|done|done]. intros q Hq. cbn. rewrite lookup_insert_ne; [by apply M1|].
  intros <-. apply Hq. right. by exists s.
Qed.

Lemma made_file gitdir fs fs' s data : made gitdir fs fs' → made gitdir fs (with_file (path_child gitdir s) data fs').
Proof.
  intros (M1 & M2 & M3). split_and!; [| |cbn; lia].
  - intros q Hq. cbn. rewrite lookup_insert_ne; [by apply M1|]. intros <-. apply Hq. right. by exists s.
  - intros i Hi. cbn. rewrite lookup_insert_ne by lia. by apply M2.
Qed.

Lemma made_read gitdir fs fs' q : fs_wf fs → made gitdir fs fs' → ¬ in_dir gitdir q →
  fs_exists fs' q = fs_exists fs q ∧ fs_read fs' q = fs_read fs q.
Proof.
  intros Hw (M1 & M2 & _) Hq. unfold fs_exists, fs_read, fs_file. rewrite M1 by done. split; [done|].
  destruct (names fs !! q) as [[i|]|] eqn:E; [|done..]. by rewrite M2 by apply (Hw q i E).
Qed.

(** *** The steps of [init] *)

Section steps.
Context (w : BitPath) (fs : Fs) (Hw : tidy_dir w) (Hdir : names fs !! w = Some NDir).
#[local] Abbreviation gd := (path_child w (bs ".git")).
Context (Hnew : ∀ q, in_dir gd q → names fs !! q = None).

#[local] Abbreviation objects := (path_child gd (bs "objects")).
#[local] Abbreviation pack := (path_child objects (bs "pack")).
#[local] Abbreviation refs := (path_child gd (bs "refs")).
#[local] Abbreviation tags := (path_child refs (bs "tags")).
#[local] Abbreviation heads := (path_child refs (bs "heads")).
#[local] Abbreviation description := (path_child gd (bs "description")).
#[local] Abbreviation head := (path_child gd (bs "HEAD")).
#[local] Abbreviation config_file_path := (path_child gd (bs "config")).

Definition fs_gd : Fs := set_names fs (<[gd := NDir]> (names fs)).
Definition fs_objects : Fs := set_names fs_gd (<[pack := NDir]> (<[objects := NDir]> (names fs_gd))).
Definition fs_refs : Fs :=
  set_names fs_objects (<[heads := NDir]> (<[tags := NDir]> (<[refs := NDir]> (names fs_objects)))).
Definition HEAD_MASTER : bytes := bs "ref: refs/heads/master" ++ [x0a].
Definition DESCRIPTION : bytes :=
  bs "Unnamed repository; edit this file 'description' to name the repository." ++ [x0a].
Definition fs_files : Fs :=
  with_file config_file_path [] (with_file head HEAD_MASTER (with_file description DESCRIPTION fs_refs)).

Lemma new_gd : names fs !! gd = None.
Proof. apply Hnew. by left. Qed.
Lemma new_child n : names fs !! path_child gd n = None.
Proof. apply Hnew. right. by exists n. Qed.
Lemma new_child2 a b : names fs !! path_child (path_child gd a) b = None.
Proof. apply Hnew. right. exists (path_child a b). unfold path_child. by rewrite <- !app_assoc. Qed.

(** Different names below the same directory. *)
Ltac path_ne :=
  let E := fresh in unfold path_child; rewrite <- ?app_assoc; intros E; apply app_inv_head in E; vm_compute in E; discriminate E.
Ltac names_below :=
  cbn [names set_names with_file];
  repeat first [rewrite lookup_insert_eq | rewrite lookup_insert_ne by path_ne];
  first [done | apply new_gd | apply new_child | apply new_child2].

Lemma gd_tidy : tidy_dir gd.
Proof. apply child_tidy; [apply Hw|vm_decide]. Qed.

Lemma create_dir_ok : create_dir gd fs = (Ok tt, fs_gd).
Proof.
  unfold create_dir. rewrite st_get_bind. unfold fs_exists. rewrite new_gd.
  rewrite (bool_decide_false (is_Some None)) by by intros []. cbn [negb ensure]. rewrite st_lift_bind.
  rewrite child_parent by (done || vm_decide). by rewrite bool_decide_true.
Qed.

Lemma mk_bitdir_child n fs' : comp_name n → names fs' !! gd = Some NDir → names fs' !! path_child gd n = None →
  mk_bitdir gd n fs' = (Ok tt, set_names fs' (<[path_child gd n := NDir]> (names fs'))).
Proof.
  intros Hn Hg Hc. unfold mk_bitdir. rewrite join_child; [|vm_decide|by destruct Hn as [? _]; destruct n as [|[] n]; set_solver].
  assert (∃ f, length (gd ++ x2f :: n) = S f) as [f ->] by (exists (length (gd ++ n)); rewrite !length_app; cbn; lia).
  apply create_dir_all_child; [apply gd_tidy|done..].
Qed.

Lemma mk_bitdir_below f a b fs' : comp_name a → comp_name b → f = a ++ x2f :: b →
  tidy_dir (path_child gd a) → names fs' !! path_child gd a = Some NDir → names fs' !! path_child (path_child gd a) b = None →
  mk_bitdir gd f fs' = (Ok tt, set_names fs' (<[path_child (path_child gd a) b := NDir]> (names fs'))).
Proof.
  intros Ha Hb -> Ht Hd Hc. unfold mk_bitdir. rewrite join_child; [|vm_decide|by destruct Ha as (? & ? & _); destruct a as [|[] a]; set_solver].
  replace (gd ++ x2f :: a ++ x2f :: b) with (path_child (path_child gd a) b) by (unfold path_child; by rewrite <- !app_assoc).
  assert (∃ f, length (path_child (path_child gd a) b) = S f) as [f ->].
  { exists (length (path_child gd a ++ b)). unfold path_child. rewrite !length_app. cbn. lia. }
  by apply create_dir_all_child.
Qed.

Lemma mk_bitdir_two f a b fs' : comp_name a → comp_name b → f = a ++ x2f :: b → names fs' !! gd = Some NDir →
  names fs' !! path_child gd a = None → names fs' !! path_child (path_child gd a) b = None →
  mk_bitdir gd f fs' = (Ok tt, set_names fs' (<[path_child (path_child gd a) b := NDir]> (<[path_child gd a := NDir]> (names fs')))).
Proof.
  intros Ha Hb -> Hd Hc1 Hc2. unfold mk_bitdir. rewrite join_child; [|vm_decide|by destruct Ha as (? & ? & _); destruct a as [|[] a]; set_solver].
  replace (gd ++ x2f :: a ++ x2f :: b) with (path_child (path_child gd a) b) by (unfold path_child; by rewrite <- !app_assoc).
  assert (∃ f, length (path_child (path_child gd a) b) = S (S f)) as [f ->].
  { exists (length (gd ++ a ++ b)). unfold path_child. rewrite !length_app. cbn. lia. }
  apply create_dir_all_two; try done. apply gd_tidy.
Qed.

Lemma mk_bitfile_ok n line fs' : comp_name n → names fs' !! gd = Some NDir → names fs' !! path_child gd n = None →
  mk_bitfile gd n line fs' = (Ok tt, with_file (path_child gd n) (line ++ [x0a]) fs').
Proof.
  intros Hn Hg Hc. unfold mk_bitfile. rewrite join_child; [|vm_decide|by destruct Hn as [? _]; destruct n as [|[] n]; set_solver].
  apply write_file_new; [apply gd_tidy|done..].
Qed.

Lemma mk_bitdirs_ok :
  mk_bitdir gd (bs "objects") fs_gd = (Ok tt, set_names fs_gd (<[objects := NDir]> (names fs_gd)))
  ∧ mk_bitdir gd (bs "objects/pack") (set_names fs_gd (<[objects := NDir]> (names fs_gd))) = (Ok tt, fs_objects)
  ∧ mk_bitdir gd (bs "refs/tags") fs_objects = (Ok tt, set_names fs_objects (<[tags := NDir]> (<[refs := NDir]> (names fs_objects))))
  ∧ mk_bitdir gd (bs "refs/heads") (set_names fs_objects (<[tags := NDir]> (<[refs := NDir]> (names fs_objects)))) = (Ok tt, fs_refs).
Proof.
  split_and!.
  - apply mk_bitdir_child; [vm_decide|unfold fs_gd; names_below..].
  - rewrite (mk_bitdir_below _ (bs "objects") (bs "pack"));
      [done|vm_decide|vm_decide|done|apply child_tidy; [apply gd_tidy|vm_decide]|unfold fs_gd; names_below..].
  - apply (mk_bitdir_two _ (bs "refs") (bs "tags")); [vm_decide|vm_decide|done|unfold fs_objects, fs_gd; names_below..].
  - rewrite (mk_bitdir_below _ (bs "refs") (bs "heads"));
      [done|vm_decide|vm_decide|done|apply child_tidy; [apply gd_tidy|vm_decide]|unfold fs_objects, fs_gd; names_below..].
Qed.

Lemma mk_bitfiles_ok :
  mk_bitfile gd (bs "description") (bs "Unnamed repository; edit this file 'description' to name the repository.") fs_refs
    = (Ok tt, with_file description DESCRIPTION fs_refs)
  ∧ mk_bitfile gd (bs "HEAD") (bs "ref: refs/heads/master") (with_file description DESCRIPTION fs_refs)
    = (Ok tt, with_file head HEAD_MASTER (with_file description DESCRIPTION fs_refs))
  ∧ file_create config_file_path (with_file head HEAD_MASTER (with_file description DESCRIPTION fs_refs))
    = (Ok (S (S (next_ino fs))), fs_files).
Proof.
  split_and!.
  - apply mk_bitfile_ok; [vm_decide|unfold fs_refs, fs_objects, fs_gd; names_below..].
  - apply mk_bitfile_ok; [vm_decide|unfold fs_refs, fs_objects, fs_gd; names_below..].
  - apply file_create_new; [apply gd_tidy|vm_decide|unfold fs_refs, fs_objects, fs_gd; names_below..].
Qed.

Lemma files_made : made gd fs fs_files.
Proof.
  assert (made gd fs fs_gd) as M1.
  { split_and!; [|done|done]. intros q Hq. cbn. rewrite lookup_insert_ne; [done|]. intros <-. apply Hq. by left. }
  assert (∀ fs' a b, made gd fs fs' → made gd fs (set_names fs' (<[path_child (path_child gd a) b := NDir]> (names fs')))) as M2.
  { intros fs' a b. replace (path_child (path_child gd a) b) with (path_child gd (path_child a b)) by (unfold path_child; by rewrite <- !app_assoc).
    apply made_dir. }
  pose proof (made_dir gd fs _ (bs "objects") M1) as Mo. apply (M2 _ (bs "objects") (bs "pack")) in Mo.
  pose proof (made_dir gd fs _ (bs "refs") Mo) as Mr. apply (M2 _ (bs "refs") (bs "tags")) in Mr.
  apply (M2 _ (bs "refs") (bs "heads")) in Mr.
  apply (made_file gd fs _ (bs "description") DESCRIPTION) in Mr. apply (made_file gd fs _ (bs "HEAD") HEAD_MASTER) in Mr.
  by apply (made_file gd fs _ (bs "config") []) in Mr.
Qed.
End steps.

Lemma abs_tidy cs : Forall comp_name cs → cs ≠ [] → tidy_dir (abs_path cs).
Proof. intros Hc Hne. split; [done|]. rewrite split_abs by done. by apply trim_junk_comps. Qed.

(** The configuration of the new repository. *)
Definition new_local : BitConfigInner :=
  mk_BitConfigInner (mk_CoreConfig (Some 0) (Some false) (Some true) None) (mk_UserConfig None None)
    (mk_MergeConfig None) (mk_RemotesConfig ∅).

Section init.
Context (cs : list bytes) (fs : Fs) (g0 : GitConfig) (inner0 : BitConfigInner).
#[local] Abbreviation w := (abs_path cs).
#[local] Abbreviation gd := (path_child w (bs ".git")).
#[local] Abbreviation cfg := (path_child gd (bs "config")).
#[local] Abbreviation others := (tail (config_paths config_dir home_dir cfg)).
Context (Hcs : Forall comp_name cs) (Hne : cs ≠ []).
Context (Hdir : names fs !! w = Some NDir) (Hnew : ∀ q, in_dir gd q → names fs !! q = None) (Hwf : fs_wf fs).
Context (Hempty : empty_config g0) (Hothers : Forall (λ q, ¬ in_dir gd q) others).
Context (Hglobal : config_init config_dir home_dir cfg fs = (Ok inner0, fs)).

Lemma global_made fs' i : made gd fs fs' → merged fs' others i = merged fs others i.
Proof.
  intros Hm. apply merged_ext. eapply Forall_impl; [exact Hothers|]. intros q Hq. by apply (made_read gd).
Qed.

Lemma global_merged : merged fs others inner_default = Ok inner0.
Proof.
  unfold config_init in Hglobal. rewrite merge_files_eq in Hglobal. injection Hglobal as E.
  cbn [config_paths app merged] in E. unfold fs_exists at 1 in E. rewrite (new_child w fs Hnew) in E. exact E.
Qed.

Lemma fs_files_cfg : names (fs_files w fs) !! cfg = Some (NFile (S (S (next_ino fs))))
  ∧ inodes (fs_files w fs) !! S (S (next_ino fs)) = Some (mk_Inode [] false).
Proof. unfold fs_files. cbn. by rewrite !lookup_insert_eq. Qed.

Lemma fs_files_config : config_file config_dir home_dir cfg (fs_files w fs).
Proof.
  destruct fs_files_cfg as [En Ei]. exists (S (S (next_ino fs))). split_and!; [done|by rewrite Ei| |].
  - unfold fs_is_readonly, fs_file. by rewrite En, Ei.
  - eapply Forall_impl; [exact Hothers|]. intros q Hq. destruct (files_made w fs) as (M1 & _). rewrite M1 by done.
    intros E. destruct (Hwf _ _ E) as [Hlt _]. lia.
Qed.

(** The values in [.git/config] are written into the file that was empty. *)
Lemma set_core_done : ∃ fs' inner',
  set_core config_dir home_dir cfg (mk_Configured (fs_files w fs) inner0) = (Ok tt, mk_Configured fs' inner')
  ∧ names fs' = names (fs_files w fs)
  ∧ merged fs' (config_paths config_dir home_dir cfg) inner_default = Ok inner'
  ∧ repositoryformatversion inner' = Some 0 ∧ bare inner' = Some false ∧ filemode inner' = true
  ∧ fs_read fs' (path_child gd (bs "HEAD")) = Some HEAD_MASTER.
Proof.
  destruct fs_files_cfg as [En Ei]. destruct (set_core_ok g0 cfg Hempty) as (g' & Ef & Eg).
  destruct (merged_any (fs_files w fs) others inner_default (config_merge inner_default new_local) inner0) as [inner' Em].
  { rewrite (global_made _ _ (files_made w fs)). apply global_merged. }
  destruct (with_raw_ok config_dir home_dir cfg core_values (mk_Configured (fs_files w fs) inner0) [] tt inner' fs_files_config)
    with (g := g0) (g' := g') as (fs' & Ew & _ & _ & Em' & Hn & Hframe).
  { unfold fs_read, fs_file. cbn [cfg_fs]. by rewrite En, Ei. }
  { apply Hempty. }
  { exact Ef. }
  { rewrite Eg. exact Em. }
  exists fs', inner'. split_and!; [exact Ew|exact Hn|exact Em'| | | |].
  - eapply (merged_keeps (cc_repositoryformatversion ∘ core)); [intros; apply option_merge_eq| |exact Em]; by cbv.
  - eapply (merged_keeps (cc_bare ∘ core)); [intros; apply option_merge_eq| |exact Em]; by cbv.
  - assert ((cc_filemode ∘ core) inner' = Some true) as E.
    { eapply merged_keeps; [intros; apply option_merge_eq| |exact Em]; by cbv. }
    unfold filemode. cbn in E. by rewrite E.
  - rewrite Hframe.
    + unfold fs_read, fs_file, fs_files. cbn [cfg_fs names inodes with_file next_ino].
      rewrite lookup_insert_ne by (unfold path_child; intros E; apply app_inv_head in E; done).
      rewrite lookup_insert_eq. rewrite lookup_insert_ne by lia. by rewrite lookup_insert_eq.
    + cbn [cfg_fs]. rewrite En. unfold fs_files. cbn [names with_file next_ino].
      rewrite lookup_insert_ne by (unfold path_child; intros E; apply app_inv_head in E; done).
      rewrite lookup_insert_eq. intros [=]. lia.
Qed.

(** C22: [init] in a directory other than the root that has no [.git], when the other configuration files
    are outside of it and can be loaded, makes a repository there: it can be loaded, in version 0, not bare and
    with file modes, whatever values the other configuration files set, its [HEAD] is the branch [master], and
    a second [init] changes nothing. *)
Theorem init_creates_repository p : canonicalize cwd p fs = (Ok w, fs) → ∃ fs' (rcx : RepoCtxt (Index := Index)),
  init config_dir home_dir cwd (Index := Index) p fs = (Ok Init, fs')
  ∧ load config_dir home_dir cwd p fs' = (Ok rcx, fs') ∧ workdir rcx = w ∧ bitdir rcx = gd
  ∧ repositoryformatversion (config rcx) = Some 0 ∧ bare (config rcx) = Some false ∧ filemode (config rcx) = true
  ∧ fs_read fs' (path_child gd (bs "HEAD")) = Some HEAD_MASTER
  ∧ init config_dir home_dir cwd (Index := Index) p fs' = (Ok Reinit, fs').
Proof.
  intros Hp. destruct set_core_done as (fs' & inner' & Es & Hn & Em & Hv & Hb & Hf & Hh).
  pose proof (abs_tidy cs Hcs Hne) as Hw.
  assert (join w (bs ".git") = gd) as Ejoin by by rewrite join_abs.
  assert (join gd BIT_CONFIG_FILE_PATH = cfg) as Ecfg by (rewrite join_child; [done|vm_decide|done]).
  assert (∀ q n, names fs !! q = Some n → names fs' !! q = Some n) as Hgrow.
  { intros q n Hq. rewrite Hn. destruct (files_made w fs) as (M1 & _). rewrite M1; [done|]. intros Hin. by rewrite (Hnew _ Hin) in Hq. }
  assert (config_init config_dir home_dir cfg (fs_gd w fs) = (Ok inner0, fs_gd w fs)) as Einit.
  { unfold config_init. rewrite merge_files_eq. f_equal. cbn [config_paths app merged]. unfold fs_exists at 1.
    cbn [names fs_gd set_names]. rewrite lookup_insert_ne by (intros E; apply (f_equal length) in E; unfold path_child in E; rewrite !length_app in E; cbn in E; lia).
    rewrite (new_child w fs Hnew). rewrite bool_decide_false by by intros []. rewrite (global_made (fs_gd w fs)); [apply global_merged|].
    split_and!; [|done|done]. intros q Hq. cbn. rewrite lookup_insert_ne; [done|]. intros <-. apply Hq. by left. }
  destruct (mk_bitdirs_ok w fs Hw Hdir Hnew) as (D1 & D2 & D3 & D4). destruct (mk_bitfiles_ok w fs Hw Hdir Hnew) as (F1 & F2 & F3).
  exists fs', (mk_RepoCtxt w gd cfg (join gd BIT_INDEX_FILE_PATH) inner' None). split_and!; try done.
  - unfold init. rewrite (st_bind_ok _ _ _ _ _ Hp), st_get_bind. unfold fs_is_file. rewrite Hdir. cbn [negb ensure]. rewrite st_lift_bind.
    rewrite Ejoin. unfold fs_exists. rewrite (new_gd w fs Hnew). rewrite (bool_decide_false (is_Some None)) by by intros [].
    rewrite (st_bind_ok _ _ _ _ _ (create_dir_ok w fs Hw Hdir Hnew)), Ecfg.
    rewrite (st_bind_ok _ _ (fs_gd w fs) (fs_gd w fs) (mk_RepoCtxt w gd cfg (join gd BIT_INDEX_FILE_PATH) inner0 None)).
    2: { unfold repo_ctxt_new. by rewrite (st_bind_ok _ _ _ _ _ Einit). }
    rewrite (st_bind_ok _ _ _ _ _ D1), (st_bind_ok _ _ _ _ _ D2), (st_bind_ok _ _ _ _ _ D3), (st_bind_ok _ _ _ _ _ D4).
    rewrite (st_bind_ok _ _ _ _ _ F1), (st_bind_ok _ _ _ _ _ F2), (st_bind_ok _ _ _ _ _ F3). cbn [config]. by rewrite Es.
  - unfold load, load_with_bitdir. rewrite (st_bind_ok _ _ _ _ _ (canonicalize_grows cwd fs fs' p w Hgrow Hp)), Ejoin, Ecfg.
    rewrite (st_bind_ok _ _ fs' fs' (mk_RepoCtxt w gd cfg (join gd BIT_INDEX_FILE_PATH) inner' None)).
    2: { unfold repo_ctxt_new, config_init. rewrite (st_bind_ok _ _ fs' fs' inner'); [done|]. by rewrite merge_files_eq, Em. }
    cbn [config]. by rewrite Hv.
  - unfold init. rewrite (st_bind_ok _ _ _ _ _ (canonicalize_grows cwd fs fs' p w Hgrow Hp)), st_get_bind.
    unfold fs_is_file. rewrite (Hgrow _ _ Hdir). cbn [negb ensure]. rewrite st_lift_bind, Ejoin. unfold fs_exists. rewrite Hn.
    rewrite bool_decide_true; [done|]. unfold fs_files, fs_refs, fs_objects, fs_gd. cbn [names set_names with_file].
    rewrite !lookup_insert_ne by (intros E; apply (f_equal length) in E; unfold path_child in E; rewrite !length_app in E; cbn in E; lia).
    rewrite lookup_insert_eq. by eexists.
Qed.
End init.
End creating.

(** ** Examples *)

Definition sample_tree : Fs :=
  mk_Fs {[ bs "/" := NDir; bs "/w" := NDir; bs "/w/a" := NDir; bs "/w/.git" := NDir ]} ∅ 0.
Definition ignoring_tree : Fs :=
  mk_Fs {[ bs "/" := NDir; bs "/w" := NDir; bs "/w/.gitignore" := NFile 0 ]} {[ 0%nat := mk_Inode (bs "*.o") false ]} 1.

#[local] Instance bytes_serialize : Serialize bytes := λ b, Ok b.
#[local] Instance bytes_deserialize : Deserialize bytes := read_to_vec.

Lemma find_inner_nearest_witness :
  find_inner (Crate := Sample.crate) (Index := bytes) None None (bs "/") 3 (abs_path [bs "w"; bs "a"]) sample_tree
  = load_with_bitdir (Crate := Sample.crate) (Index := bytes) None None (bs "/") (bs "/w") (bs ".git") sample_tree.
Proof.
  rewrite (find_inner_nearest (Crate := Sample.crate) None None (bs "/") [bs "w"; bs "a"] sample_tree 3); [|vm_decide|cbn; lia].
  replace (List.find (has_repo sample_tree) (ancestors [bs "w"; bs "a"])) with (Some (bs "/w")) by (vm_compute; reflexivity).
  replace (fs_exists sample_tree (join (bs "/w") (bs ".git"))) with true by (vm_compute; reflexivity). reflexivity.
Defined.

Lemma init_creates_repository_witness : ∃ fs' (rcx : RepoCtxt (Crate := Sample.crate) (Index := bytes)),
  init (Crate := Sample.crate) None None (bs "/") (Index := bytes) (bs "w") ignoring_tree = (Ok Init, fs')
  ∧ load (Crate := Sample.crate) None None (bs "/") (bs "w") fs' = (Ok rcx, fs') ∧ bitdir rcx = bs "/w/.git".
Proof.
  destruct (init_creates_repository (Laws := Sample.laws) (Index := bytes) None None (bs "/") [bs "w"] ignoring_tree [] inner_default)
    with (p := bs "w") as (fs' & rcx & E1 & E2 & _ & E3 & _).
  - vm_decide.
  - done.
  - done.
  - intros q Hq. unfold ignoring_tree. cbn [names].
    rewrite !lookup_insert_ne, lookup_singleton_ne; [done|..];
      (intros <-; destruct Hq as [E|[s E]]; vm_compute in E; discriminate E).
  - intros p ino. unfold ignoring_tree. cbn [names inodes next_ino].
    intros [[_ ?]|[_ [[_ ?]|[_ [_ [= <-]]%lookup_singleton_Some]]%lookup_insert_Some]]%lookup_insert_Some; [done..|].
    split; [lia|]. by eexists.
  - split_and!; try done; intros; done.
  - constructor.
  - unfold config_init. by rewrite merge_files_eq.
  - unfold canonicalize. by f_equal.
  - exists fs', rcx. split_and!; [exact E1|exact E2|exact E3].
Defined.
