(* ===== verification/Transaction.v ===== *)
(** * Transaction

    The transaction that [RepoCtxt::enter] makes of a command ([libbit/src/repo.rs]): any command that
    reads and changes the index and acts on other files, and what of it is on disk when it ends. *)

From Stdlib Require Import ZArith Lia.
From Stdlib Require Import Strings.Byte.
From stdpp Require Import base tactics option list countable strings gmap.
From S2P Require Import Prelude RustStd Data State Io Path Lockfile Refs RefDb Remote Config Repo.

#[local] Open Scope Z_scope.

(** ** The lock on a file *)

(** The file at [path] can be locked: it is no directory, it is in a directory, and it and its lock
    share their inodes with no other name. *)
Definition index_files (path : BitPath) (fs : Fs) : Prop :=
  fs_wf fs ∧ names fs !! path ≠ Some NDir ∧ path ≠ lock_path path
  ∧ match parent path with Some d => d ≠ [] ∧ names fs !! d = Some NDir | None => True end
  ∧ ∀ p q ino, p = path ∨ p = lock_path path →
      names fs !! p = Some (NFile ino) → names fs !! q = Some (NFile ino) → q = p.

(** An action on other files than [path] and its lock. *)
Definition other_files {A} (path : BitPath) (f : st Fs A) : Prop := ∀ fs r fs',
  f fs = (r, fs') → index_files path fs →
  index_files path fs' ∧ ∀ p, p = path ∨ p = lock_path path →
    names fs' !! p = names fs !! p ∧ fs_read fs' p = fs_read fs p.

(** The lock on [path] is held, and nothing has been written yet. *)
Definition holding (path : BitPath) (lf : Lockfile) (fs : Fs) : Prop :=
  index_files path fs ∧ lf_path lf = path ∧ lockfile_path lf = lock_path path ∧ set_readonly lf = false
  ∧ committed lf = false ∧ rolled_back lf = false ∧ bw_buf (lf_lockfile lf) = []
  ∧ names fs !! lock_path path = Some (NFile (bw_ino (lf_lockfile lf)))
  ∧ fs_read fs (lock_path path) = Some [].

Lemma index_files_lockable path fs :
  index_files path fs → names fs !! lock_path path = None → lockable path fs fs.
Proof.
  intros (Hwf & Hnd & Hne & Hpar & _) Hl. split_and!; try done.
  - unfold fs_exists, fs_is_file. destruct (names fs !! path) as [[]|] eqn:E; [by rewrite orb_true_r|done|].
    by rewrite bool_decide_false by by intros [].
  - unfold create_dirs. destruct (parent path) as [d|]; [|done]. destruct Hpar as [Hd Hp].
    cbn [create_dir_all]. rewrite st_get_bind. unfold Path.is_empty. by rewrite bool_decide_false, Hp.
Qed.

Lemma lock_holding path fs lf fs2 :
  index_files path fs → names fs !! lock_path path = None →
  locked path false fs [] lf fs2 →
  holding path lf fs2 ∧ ∀ q, q ≠ lock_path path → names fs2 !! q = names fs !! q ∧ fs_read fs2 q = fs_read fs q.
Proof.
  intros (Hwf & Hnd & Hne & Hpar & Hown) Hl (Hp & Hlp & Hro & Hc & Hr & (Hino & Hn & Hx & Ho & d & Hd & Hb)).
  cbn [names inodes next_ino] in *. apply app_eq_nil in Hb as [-> Hb].
  assert (∀ q, q ≠ lock_path path → names fs2 !! q = names fs !! q) as Hq by (intros q Hq; by rewrite Hn, lookup_insert_ne).
  assert (names fs2 !! lock_path path = Some (NFile (next_ino fs))) as Hlock by by rewrite Hn, lookup_insert_eq.
  assert (fs_wf fs2) as Hwf2.
  { intros q ino Hqi. rewrite Hx. destruct (decide (q = lock_path path)) as [->|Hql].
    - rewrite Hlock in Hqi. injection Hqi as <-. split; [lia|]. unfold ino_data in Hd. by destruct (inodes fs2 !! _).
    - rewrite Hq in Hqi by done. destruct (Hwf q ino Hqi) as [Hlt Hs]. split; [lia|]. by rewrite Ho by lia. }
  split.
  - split; [|split_and!; try done; [by rewrite Hino|rewrite fs_read_eq, Hlock; done]].
    split_and!; try done.
    + by rewrite Hq.
    + destruct (parent path) as [e|]; [|done]. destruct Hpar as [He Hd']. split; [done|].
      rewrite Hq; [done|]. intros ->. congruence.
    + intros p q ino Hpq E1 E2. destruct (decide (p = lock_path path)) as [->|Hpl].
      * rewrite Hlock in E1. injection E1 as <-. apply dec_stable. intros Hql. rewrite Hq in E2 by done.
        apply Hwf in E2. lia.
      * rewrite Hq in E1 by done. destruct (decide (q = lock_path path)) as [->|Hql].
        -- rewrite Hlock in E2. injection E2 as <-. apply Hwf in E1. lia.
        -- rewrite Hq in E2 by done. by apply (Hown p q ino).
  - intros q Hql. split; [by apply Hq|]. rewrite !fs_read_eq, Hq by done.
    destruct (names fs !! q) as [[ino|]|] eqn:E; [|done..]. unfold ino_data.
    apply Hwf in E as [? _]. by rewrite Ho by lia.
Qed.

(** Dropping the lock without a commit. *)
Lemma holding_drop {A} (r : BitResult A) path lf lf' fs :
  holding path lf fs → lf' = lf ∨ lf' = lockfile_rollback lf →
  ∃ fs', then_drop r lf' fs = (r, fs') ∧ names fs' !! lock_path path = None
    ∧ ∀ q, q ≠ lock_path path → fs_read fs' q = fs_read fs q.
Proof.
  intros ((Hwf & _ & _ & _ & Hown) & _ & Hlp & _ & Hc & Hr & Hb & Hlock & _) Hlf.
  set (fs' := set_names fs (delete (lock_path path) (names fs))).
  assert (fs_remove_file (lock_path path) fs = (Ok tt, fs')) as Hrm.
  { unfold fs_remove_file. rewrite st_get_bind. unfold fs_is_file. by rewrite Hlock. }
  exists (fs_append (bw_ino (lf_lockfile lf)) [] fs'). split.
  { unfold then_drop, lockfile_drop.
    destruct Hlf as [->| ->]; cbn [rolled_back committed lockfile_path lf_lockfile lockfile_rollback];
      rewrite ?Hr, Hc, Hlp, Hrm; cbn [andb orb negb bw_flush snd]; by rewrite Hb. }
  cbn [names fs_append fs' set_names]. rewrite lookup_delete_eq. split; [done|].
  intros q Hq. rewrite !fs_read_eq. cbn [names fs_append fs' set_names]. rewrite lookup_delete_ne by done.
  destruct (names fs !! q) as [[ino|]|] eqn:E; [|done..]. rewrite ino_data_append, decide_False; [done|].
  intros ->. apply Hq. apply (Hown (lock_path path) q (bw_ino (lf_lockfile lf))); [by right|done|done].
Qed.

(** Writing, committing and dropping it. *)
Lemma holding_commit path lf fs w :
  holding path lf fs →
  ∃ fsw lfw fsc fs', lockfile_write w (fs, lf) = (Ok tt, (fsw, lfw))
    ∧ lockfile_commit (fsw, lfw) = (Ok tt, (fsc, set_committed lfw))
    ∧ then_drop (Ok tt) (set_committed lfw) fsc = (Ok tt, fs')
    ∧ names fs' !! lock_path path = None ∧ fs_read fs' path = Some w
    ∧ ∀ q, q ≠ path → q ≠ lock_path path → fs_read fs' q = fs_read fs q.
Proof.
  intros ((Hwf & Hnd & Hne & _ & Hown) & Hp & Hlp & Hro & Hc & Hr & Hb & Hlock & Hread).
  set (ino := bw_ino (lf_lockfile lf)) in *. rewrite fs_read_eq, Hlock in Hread.
  assert (writing fs ino [] (lf_lockfile lf) fs) as Hw by (split_and!; [done..|]; exists []; by rewrite Hb).
  unfold lockfile_write. destruct (bw_write w (lf_lockfile lf) fs) as [bw fsw] eqn:Ew.
  apply (bw_write_ok _ _ _ _ _ w bw fsw Hw) in Ew as (Hi & Hn & _ & Ho & d & Hd & Hcont). cbn [app] in Hcont.
  eexists fsw, _, (set_names fsw (<[path := NFile ino]> (delete (lock_path path) (names fsw)))), _.
  split; [reflexivity|]. split.
  { unfold lockfile_commit, commit_rename, fs_rename. cbn [rolled_back set_readonly lf_path lockfile_path].
    rewrite Hr, Hro, Hp, Hlp. cbn [andb]. unfold mbind, st_bind, st_get, mret, st_ret. rewrite Hn, Hlock.
    cbn [set_committed set_readonly lf_path]. by destruct (names fs !! path) as [[]|]. }
  split.
  { unfold then_drop, lockfile_drop. cbn [rolled_back committed set_committed lf_lockfile bw_flush snd].
    rewrite Hr. cbn [andb orb negb]. rewrite Hi. reflexivity. }
  cbn [names fs_append set_names]. rewrite lookup_insert_ne, lookup_delete_eq by done. split; [done|].
  assert (∀ q, names (fs_append ino (bw_buf bw)
      (set_names fsw (<[path := NFile ino]> (delete (lock_path path) (names fsw))))) !! q
    = if decide (q = path) then Some (NFile ino) else if decide (q = lock_path path) then None else names fs !! q) as Hnames.
  { intros q. cbn [names fs_append set_names]. rewrite Hn. repeat case_decide; subst.
    - by rewrite lookup_insert_eq.
    - by rewrite lookup_insert_ne, lookup_delete_eq.
    - by rewrite lookup_insert_ne, lookup_delete_ne. }
  split.
  - rewrite fs_read_eq, Hnames, decide_True, ino_data_append, decide_True by done.
    unfold ino_data in *. cbn [inodes set_names]. rewrite Hd. cbn. by rewrite Hcont.
  - intros q Hq Hql. rewrite !fs_read_eq, Hnames, !decide_False by done.
    destruct (names fs !! q) as [[i|]|] eqn:E; [|done..].
    assert (i ≠ ino) as Hi' by (intros ->; apply Hql; by apply (Hown (lock_path path) q ino); [right|..]).
    rewrite ino_data_append, decide_False by done. unfold ino_data. cbn [inodes set_names]. by rewrite Ho.
Qed.

Lemma holding_other {A} path (f : st Fs A) lf fs r fs' :
  other_files path f → f fs = (r, fs') → holding path lf fs → holding path lf fs'.
Proof.
  intros Hf E (Hi & ? & ? & ? & ? & ? & ? & Hl & Hr). destruct (Hf fs r fs' E Hi) as [Hi' Hsame].
  destruct (Hsame (lock_path path)) as [E1 E2]; [by right|]. split_and!; try done; congruence.
Qed.

(** ** Commands *)

Section commands.
Context `{Crate : GitConfigCrate} {Index : Type} `{Serialize Index, Deserialize Index} (index_default : Index).

(** A command, as a sequence of reads of the index, changes of it, and actions on other files that
    give their result, or their error, to what follows. *)
Inductive command (R : Type) : Type :=
| CmdRet (r : BitResult R)
| CmdRead (k : Index → command R)
| CmdChange (g : Index → Index) (k : command R)
| CmdFiles (A : Type) (f : st Fs A) (k : BitResult A → command R).
Arguments CmdRet {R}.
Arguments CmdRead {R}.
Arguments CmdChange {R}.
Arguments CmdFiles {R A}.

(** Its run in the context of the repository. *)
Fixpoint run_command {R} (c : command R) : st (Fs * RepoCtxt (Index := Index)) R :=
  match c with
  | CmdRet r => st_lift r
  | CmdRead k => i ← index_read index_default; run_command (k i)
  | CmdChange g k => _ ← index_mut index_default g; run_command k
  | CmdFiles f k => λ '(fs, rcx),
      match f fs with
      | (Panic, fs) => (Panic, (fs, rcx))
      | (r, fs) => run_command (k r) (fs, rcx)
      end
  end.

(** All its actions are on other files than the index at [path]. *)
Fixpoint leaves_index {R} (path : BitPath) (c : command R) : Prop :=
  match c with
  | CmdRet _ => True
  | CmdRead k => ∀ i, leaves_index path (k i)
  | CmdChange _ k => leaves_index path k
  | CmdFiles f k => other_files path f ∧ ∀ r, leaves_index path (k r)
  end.

(** The index when it is used: it is locked and read the first time. *)
Definition in_memory (path : BitPath) (old : Index) (fs : Fs) (cell : option (Index * bool)) : Fs * (Index * bool) :=
  match cell with
  | Some c => (fs, c)
  | None => (snd (lockfile_open path false fs), (old, false))
  end.

(** What the command is meant to do, with the index as a value in memory: [None] until it is used, then
    the index and whether it has been changed. *)
Fixpoint meaning {R} (path : BitPath) (old : Index) (c : command R) (fs : Fs) (cell : option (Index * bool))
  : BitResult R * (Fs * option (Index * bool)) :=
  match c with
  | CmdRet r => (r, (fs, cell))
  | CmdRead k => let '(fs, (i, d)) := in_memory path old fs cell in meaning path old (k i) fs (Some (i, d))
  | CmdChange g k => let '(fs, (i, d)) := in_memory path old fs cell in meaning path old k fs (Some (g i, true))
  | CmdFiles f k =>
      match f fs with
      | (Panic, fs) => (Panic, (fs, cell))
      | (r, fs) => meaning path old (k r) fs cell
      end
  end.

(** The index in the context is the one in memory. *)
Definition cell_ok (path : BitPath) (stored : option bytes) (fs : Fs) (real : option (Filelock Index))
    (cell : option (Index * bool)) : Prop :=
  index_files path fs ∧ fs_read fs path = stored
  ∧ match cell, real with
    | None, None => names fs !! lock_path path = None
    | Some (i, d), Some l =>
        fl_data l = i ∧ dirty l = d ∧ fl_rolled_back l = false ∧ holding path (fl_lockfile l) fs
    | _, _ => False
    end.

Section running.
Context (path : BitPath) (old : Index) (stored : option bytes).
Context (Hold : match stored with Some s => fst <$> deserialize s | None => Ok index_default end = Ok old).

Lemma index_lock_ok (rcx : RepoCtxt (Index := Index)) fs cell :
  index_filepath rcx = path → cell_ok path stored fs (index_cell rcx) cell →
  let '(fs0, c) := in_memory path old fs cell in
  ∃ l, index_lock index_default (fs, rcx) = (Ok l, (fs0, set_index_cell (Some l) rcx))
    ∧ cell_ok path stored fs0 (Some l) (Some c).
Proof.
  intros Hp (Hi & Hs & Hc). unfold in_memory. destruct cell as [[i d]|]; destruct (index_cell rcx) as [l|] eqn:Ec; try done.
  { exists l. unfold index_lock. rewrite Ec. split; [|exact (conj Hi (conj Hs Hc))]. destruct rcx; cbn in *. by subst. }
  pose proof (index_files_lockable path fs Hi Hc) as Hl.
  destruct (lockfile_open_ok path false fs fs Hl) as (lf & fs2 & Ho & Hk & Hfile).
  rewrite Ho. cbn [snd]. destruct (lock_holding path fs lf fs2 Hi Hc Hk) as [Hh Hsame].
  exists (mk_Filelock old lf false false). split.
  - unfold index_lock, filelock_lock, lock_with_flags. rewrite Ec, Hp, (st_bind_ok _ _ _ _ _ Ho), Hfile.
    destruct (Hsame path ltac:(apply Hi)) as [Hn Hread]. rewrite Hs, fs_read_eq, Hn in Hread.
    destruct (names fs !! path) as [[ino|]|] eqn:E.
    + destruct Hh as ((Hwf & _) & _). destruct (Hwf path ino Hn) as [_ [x Hx]].
      unfold ino_data in Hread. rewrite Hx in Hread |- *. cbn in Hread. rewrite <- Hread in Hold. by rewrite Hold.
    + rewrite <- Hread in Hold. by injection Hold as <-.
    + rewrite <- Hread in Hold. by injection Hold as <-.
  - split_and!; [apply Hh|by rewrite (proj2 (Hsame path ltac:(apply Hi)))|done..].
Qed.

(** The run follows the meaning. *)
Lemma run_meaning {R} (c : command R) : ∀ rcx fs cell r fs1 cell1,
  index_filepath rcx = path → cell_ok path stored fs (index_cell rcx) cell → leaves_index path c →
  meaning path old c fs cell = (r, (fs1, cell1)) → r ≠ Panic →
  ∃ l1, run_command c (fs, rcx) = (r, (fs1, set_index_cell l1 rcx)) ∧ cell_ok path stored fs1 l1 cell1.
Proof.
  induction c as [r0|k IH|g k IH|A f k IH]; intros rcx fs cell r fs1 cell1 Hp Hc Hl Hm Hr; cbn [run_command meaning] in *.
  - injection Hm as <- <- <-.
    exists (index_cell rcx). split; [by destruct rcx|done].
  - pose proof (index_lock_ok rcx fs cell Hp Hc) as Hlk.
    destruct (in_memory path old fs cell) as [fs0 [i d]].
    destruct Hlk as (l & Hlk & Hc1). pose proof Hc1 as (_ & _ & Hd & _ & Hrb & _).
    rewrite (st_bind_ok _ _ (fs, rcx) (fs0, set_index_cell (Some l) rcx) i).
    + destruct (IH i (set_index_cell (Some l) rcx) fs0 (Some (i, d)) r fs1 cell1) as (l1 & E & Hc2); try done.
      by exists l1.
    + unfold index_read. rewrite (st_bind_ok _ _ _ _ _ Hlk). unfold filelock_deref. by rewrite Hrb, Hd.
  - pose proof (index_lock_ok rcx fs cell Hp Hc) as Hlk.
    destruct (in_memory path old fs cell) as [fs0 [i d]].
    destruct Hlk as (l & Hlk & Hc1). pose proof Hc1 as (Hi & Hs & Hd & _ & Hrb & Hh).
    set (l' := mk_Filelock (g i) (fl_lockfile l) true false).
    rewrite (st_bind_ok _ _ (fs, rcx) (fs0, set_index_cell (Some l') rcx) tt).
    + destruct (IH (set_index_cell (Some l') rcx) fs0 (Some (g i, true)) r fs1 cell1) as (l1 & E & Hc2); try done.
      by exists l1.
    + unfold index_mut. rewrite (st_bind_ok _ _ _ _ _ Hlk). unfold filelock_update.
      rewrite Hrb, Hd. cbn [negb assert_that mbind outcome_bind]. by rewrite st_lift_bind.
  - destruct Hl as [Hf Hk]. destruct (f fs) as [o fs0] eqn:E.
    assert (cell_ok path stored fs0 (index_cell rcx) cell) as Hc0.
    { destruct Hc as (Hi & Hs & Hc). destruct (Hf fs o fs0 E Hi) as [Hi0 Hsame].
      split_and!; [done|by rewrite (proj2 (Hsame path ltac:(by left)))|].
      destruct cell as [[i d]|], (index_cell rcx); try done.
      - destruct Hc as (? & ? & ? & Hh). split_and!; try done. by eapply holding_other.
      - by rewrite (proj1 (Hsame (lock_path path) ltac:(by right))). }
    destruct o as [a|e|]; [| |by injection Hm as <-]; eapply IH; by eauto.
Qed.

End running.

(** C21: The index part of a command is all or nothing.  For every command that locks the index when it
    first uses it, reads and changes it, and acts on other files: it sees its own changes; when it
    succeeds the index that it has last changed is on disk; when it fails, the file of the index is as
    it was at the start.  Either way the lock is gone.  Other files are as the command leaves them: what it
    did to them before it failed is not undone. *)
Theorem enter_transaction {R} (rcx : RepoCtxt (Index := Index)) (c : command R) fs fs1 old r cell :
  let path := index_filepath rcx in
  index_cell rcx = None → index_files path fs → names fs !! lock_path path = None →
  match fs_read fs path with Some s => fst <$> deserialize s | None => Ok index_default end = Ok old →
  leaves_index path c → meaning path old c fs None = (r, (fs1, cell)) → r ≠ Panic →
  (∀ i, is_ok r = true → cell = Some (i, true) → is_ok (serialize i) = true) →
  ∃ fs', enter (run_command c) rcx fs = (r, fs')
    ∧ fs_read fs' path = match is_ok r, cell with
                         | true, Some (i, true) => match serialize i with Ok w => Some w | _ => None end
                         | _, _ => fs_read fs path
                         end
    ∧ (∀ q, q ≠ path → q ≠ lock_path path → fs_read fs' q = fs_read fs1 q)
    ∧ names fs' !! lock_path path = None.
Proof.
  intros path Hcell Hi Hl Hold Hleaves Hm Hr Hser.
  destruct (run_meaning path old (fs_read fs path) Hold c rcx fs None r fs1 cell) as (l1 & Erun & Hi1 & Hs1 & Hc1); try done.
  { by rewrite Hcell. }
  assert (path ≠ lock_path path) as Hne by apply Hi. unfold enter. rewrite Erun.
  destruct cell as [[i d]|], l1 as [l|]; try done.
  2: { exists fs1. split_and!; [by destruct r|by destruct (is_ok r)|done|done]. }
  destruct Hc1 as (Hd & Hdirty & Hrb & Hh).
  destruct r as [a|e|]; [|..]; [| |done]; cbn [is_ok].
  - unfold drop_repo. cbn [index_cell set_index_cell]. unfold filelock_drop. rewrite Hrb, Hdirty. destruct d; cbn [negb orb].
    + specialize (Hser i eq_refl eq_refl). rewrite Hd. destruct (serialize i) as [w| |]; [|done..].
      destruct (holding_commit path (fl_lockfile l) fs1 w Hh) as (fsw & lfw & fsc & fs' & -> & -> & -> & ? & ? & ?).
      by exists fs'.
    + destruct (holding_drop (Ok tt) path (fl_lockfile l) (fl_lockfile l) fs1 Hh) as (fs' & -> & Hgone & Hrest); [by left|].
      exists fs'. split_and!; [done|by rewrite Hrest|by intros; apply Hrest|done].
  - unfold drop_repo. cbn [index_cell set_index_cell fmap option_fmap option_map]. unfold filelock_drop.
    cbn [filelock_rollback fl_rolled_back orb fl_lockfile].
    destruct (holding_drop (Ok tt) path (fl_lockfile l) (lockfile_rollback (fl_lockfile l)) fs1 Hh) as (fs' & -> & Hgone & Hrest);
      [by right|].
    exists fs'. split_and!; [done|by rewrite Hrest|by intros; apply Hrest|done].
Qed.
End commands.

(** ** Example: a command that fails after it has written another file *)

Lemma index_files_names path fs fs' :
  index_files path fs → fs_wf fs' → names fs' = names fs → index_files path fs'.
Proof. intros (_ & Hrest) Hwf Hn. unfold index_files. by rewrite Hn. Qed.

(** Changing the data of the inode of another file. *)
Lemma other_inode path p ino fs fs' :
  index_files path fs → p ≠ path → p ≠ lock_path path → names fs !! p = Some (NFile ino) →
  names fs' = names fs → next_ino fs' = next_ino fs →
  (∀ i, i ≠ ino → inodes fs' !! i = inodes fs !! i) → is_Some (inodes fs' !! ino) →
  index_files path fs' ∧ ∀ q, q = path ∨ q = lock_path path → names fs' !! q = names fs !! q ∧ fs_read fs' q = fs_read fs q.
Proof.
  intros Hi Hp Hpl E Hn Hx Ho Hs. pose proof Hi as (Hwf & _ & _ & _ & Hown). split.
  - apply (index_files_names path fs fs' Hi); [|done]. intros q i. rewrite Hn, Hx. intros Hq. apply Hwf in Hq as [? ?].
    split; [done|]. destruct (decide (i = ino)) as [->|]; [done|by rewrite Ho].
  - intros q Hq. rewrite Hn. split; [done|]. rewrite !fs_read_eq, Hn.
    destruct (names fs !! q) as [[i|]|] eqn:Eq; [|done..]. unfold ino_data. rewrite Ho; [done|]. intros ->.
    assert (p = q) as -> by by apply (Hown q p ino). by destruct Hq.
Qed.

Lemma write_file_other path p data : p ≠ path → p ≠ lock_path path → other_files path (write_file p data).
Proof.
  intros Hp Hpl fs r fs' E Hi. pose proof Hi as (Hwf & Hnd & Hne & Hpar & Hown).
  unfold write_file, file_create, mbind, st_bind, st_get, st_put, st_lift, mret, st_ret in E.
  destruct (names fs !! p) as [[ino|]|] eqn:En.
  - destruct (fs_is_readonly fs p); injection E as <- <-; [by split|].
    destruct (Hwf p ino En) as [_ [x Hx]].
    apply (other_inode path p ino fs); try done; unfold fs_append, fs_truncate; cbn [inodes].
    + intros i Hne'. by rewrite !lookup_alter_ne.
    + rewrite !lookup_alter_eq, Hx. by eexists.
  - injection E as <- <-. by split.
  - destruct (parent p) as [d|]; [|injection E as <- <-; by split].
    destruct (Path.is_empty d || _); [|injection E as <- <-; by split].
    unfold create_new, fs_exists, mbind, st_bind, st_get, st_put, st_lift, mret, st_ret in E.
    rewrite (bool_decide_false (is_Some _)) in E by (rewrite En; by intros []). injection E as <- <-.
    set (fs1 := fs_append _ _ _).
    assert (∀ q, q ≠ p → names fs1 !! q = names fs !! q) as Hq by (intros q Hq; cbn; by rewrite lookup_insert_ne).
    assert (names fs1 !! p = Some (NFile (next_ino fs))) as Hpn by (cbn; by rewrite lookup_insert_eq).
    assert (∀ i, i ≠ next_ino fs → inodes fs1 !! i = inodes fs !! i) as Ho.
    { intros i Hne'. cbn. by rewrite lookup_alter_ne, lookup_insert_ne. }
    split.
    + split_and!; [| |done| |].
      * intros q i Hqi. change (next_ino fs1) with (S (next_ino fs)). destruct (decide (q = p)) as [->|Hqp].
        -- rewrite Hpn in Hqi. injection Hqi as <-. split; [lia|]. cbn. rewrite lookup_alter_eq, lookup_insert_eq. by eexists.
        -- rewrite Hq in Hqi by done. apply Hwf in Hqi as [? ?]. split; [lia|]. by rewrite Ho by lia.
      * by rewrite Hq.
      * destruct (parent path) as [e|]; [|done]. destruct Hpar as [? He]. split; [done|].
        rewrite Hq; [done|]. intros ->. congruence.
      * intros q q2 i Hq1 E1 E2. assert (q ≠ p) as Hqp by (intros ->; by destruct Hq1). rewrite Hq in E1 by done.
        destruct (decide (q2 = p)) as [->|]; [|rewrite Hq in E2 by done; by apply (Hown q q2 i)].
        rewrite Hpn in E2. injection E2 as <-. apply Hwf in E1. lia.
    + intros q Hq1. assert (q ≠ p) as Hqp by (intros ->; by destruct Hq1). split; [by apply Hq|].
      rewrite !fs_read_eq, Hq by done. destruct (names fs !! q) as [[i|]|] eqn:Eq; [|done..].
      unfold ino_data. rewrite Ho; [done|]. apply Hwf in Eq. lia.
Qed.

#[local] Instance bytes_serialize : Serialize bytes := λ b, Ok b.
#[local] Instance bytes_deserialize : Deserialize bytes := read_to_vec.

Definition sample_rcx : RepoCtxt (Crate := Sample.crate) (Index := bytes) :=
  mk_RepoCtxt (bs "/") (bs "/git") (bs "/git/config") (bs "/git/index") inner_default None.

Lemma sample_index_files : index_files (bs "/git/index") sample_fs.
Proof.
  split_and!; [apply sample_fs_lockable|vm_decide|vm_decide|split; vm_decide|].
  intros p q ino Hp. unfold sample_fs. cbn [names]. rewrite !lookup_insert_Some, !lookup_singleton_Some.
  destruct Hp as [->| ->]; intros E1 E2; naive_solver.
Qed.

(** It reads the index, copies it to a file, changes it, looks at the change and fails if [fails] says so. *)
Definition sample_command (fails : bytes → bool) : command (Index := bytes) unit :=
  CmdRead _ (λ i, CmdFiles _ _ (write_file (bs "/git/ORIG") i) (λ _,
    CmdChange _ (.++ bs "er") (CmdRead _ (λ i, CmdRet _ (if fails i then bail else Ok tt))))).

Lemma enter_transaction_witness :
  (∃ fs', enter (run_command [] (sample_command (λ i, bool_decide (i = bs "older")))) sample_rcx sample_fs = (Err Anyhow, fs')
    ∧ fs_read fs' (bs "/git/index") = Some (bs "old") ∧ fs_read fs' (bs "/git/ORIG") = Some (bs "old"))
  ∧ ∃ fs', enter (run_command [] (sample_command (λ _, false))) sample_rcx sample_fs = (Ok tt, fs')
    ∧ fs_read fs' (bs "/git/index") = Some (bs "older").
Proof.
  assert (∀ b, leaves_index (bs "/git/index") (sample_command b)) as Hl.
  { intros b i. split; [apply write_file_other; vm_decide|done]. }
  split.
  - edestruct (enter_transaction (Crate := Sample.crate) [] sample_rcx (sample_command (λ i, bool_decide (i = bs "older")))
      sample_fs) as (fs' & E & Hr & Hq & _);
      [done|apply sample_index_files|vm_compute; reflexivity|vm_compute; reflexivity|apply Hl|vm_compute; reflexivity|done|done|].
    exists fs'. split_and!; [exact E|etransitivity; [exact Hr|vm_compute; reflexivity]|].
    rewrite Hq by vm_decide. vm_compute. reflexivity.
  - edestruct (enter_transaction (Crate := Sample.crate) [] sample_rcx (sample_command (λ _, false))
      sample_fs) as (fs' & E & Hr & Hq & _);
      [done|apply sample_index_files|vm_compute; reflexivity|vm_compute; reflexivity|apply Hl|vm_compute; reflexivity|done
      |by intros i _ [= <-]|].
    exists fs'. split_and!; [exact E|etransitivity; [exact Hr|vm_compute; reflexivity]].
Defined.
