(* ===== verification/Transport.v ===== *)
(** * Transport

    Fetching from a remote: the references that a server advertises, the negotiation of the pack and
    the update of the references ([libbit/src/transport.rs]), and the end of [recv_pack] in
    [libbit/src/protocol.rs]. *)

From Stdlib Require Import ZArith Lia.
From Stdlib Require Import Strings.Byte.
From stdpp Require Import base tactics option list countable strings gmap.
From S2P Require Import Odb TreeIter TreeDiff.
From S2P Require Import Prelude RustStd Data State Io Hash Path Obj Signature Pack PackIndex PackIndexer Lockfile Refs RefDb CommitGraph RevWalk.
From S2P Require Import Remote Protocol Status Commands.

(** ** Fetch summaries *)

Inductive FetchStatus := EmptyRemote | UpToDate | NotUpToDate.
#[export] Instance FetchStatus_eq_dec : EqDecision FetchStatus.
Proof. solve_decision. Defined.

Record FetchSummary := mk_FetchSummary { head_symref : option SymbolicRef; fetch_status : FetchStatus }.
Definition EMPTY_REMOTE : FetchSummary := mk_FetchSummary None EmptyRemote.

(** ** The advertised references *)

(** [HashMap<SymbolicRef, Oid>], its keys in the order in which they were inserted. *)
Abbreviation RefMap := (list (SymbolicRef * Oid)).

Fixpoint refmap_insert (sym : SymbolicRef) (oid : Oid) (m : RefMap) : RefMap :=
  match m with
  | [] => [(sym, oid)]
  | (s, o) :: m => if bool_decide (s = sym) then (sym, oid) :: m else (s, o) :: refmap_insert sym oid m
  end.

Section discovery.
Context `{Hex}.
(** What [parse_display] derives for [Capability]. *)
Context (capability_from_str : bytes → option Capability).

Definition parse_ref_line (s : bytes) : BitResult (Oid * SymbolicRef) :=
  '(oid, sym) ← ok_or Anyhow (split_once x20 s);
  oid ← oid_from_str oid;
  sym ← symref_from_str sym;
  Ok (oid, sym).

Definition parse_capabilities (capabilities : bytes) : BitResult (list Capability) :=
  collect (λ c, ok_or Anyhow (capability_from_str c)) (split_ascii_ws (trim_end capabilities)).

Fixpoint parse_refs_loop (fuel : nat) (mapping : RefMap) : reader RefMap :=
  match fuel with
  | O => lift Panic
  | S fuel =>
      packet ← recv_packet;
      if bool_decide (packet = []) then mret mapping
      else
        '(oid, sym) ← lift (_ ← ensure (utf8_valid packet) Anyhow; parse_ref_line packet);
        parse_refs_loop fuel (refmap_insert sym oid mapping)
  end.

Definition parse_ref_discovery_and_capabilities : reader (RefMap * list Capability) := λ s,
  (packet ← recv_packet;
   if bool_decide (packet = []) then mret ([], [])
   else
     '(ref_line, capabilities) ← lift (_ ← ensure (utf8_valid packet) Anyhow; ok_or Anyhow (split_once x00 packet));
     parsed_capabilities ← lift (parse_capabilities capabilities);
     '(oid, sym) ← lift (parse_ref_line ref_line);
     mapping ← parse_refs_loop (S (length s)) [(sym, oid)];
     mret (mapping, parsed_capabilities)) s.
End discovery.

(** ** Fetching

    The state: what the server will still send, what has been sent to it, the files of the reference
    database and the files in the directory of packs. *)

Record Fetch := mk_Fetch { rx : bytes; tx : bytes; fetch_refs : Fs; pack_files : list (bytes * bytes) }.

Definition on_rx {A} (m : reader A) : st Fetch A := λ f,
  match m (rx f) with
  | Ok (a, r) => (Ok a, mk_Fetch r (tx f) (fetch_refs f) (pack_files f))
  | Err e => (Err e, f)
  | Panic => (Panic, f)
  end.

Definition send (w : BitResult bytes) : st Fetch unit :=
  data ← st_lift w;
  st_modify (λ f, mk_Fetch (rx f) (tx f ++ data) (fetch_refs f) (pack_files f)).

Definition on_fetch_refs {A} (m : st Fs A) : st Fetch A :=
  st_zoom fetch_refs (λ f fs, mk_Fetch (rx f) (tx f) fs (pack_files f)) m.

Definition MULTI_ACK_BATCH_SIZE : nat := 32.

Section fetch.
Context `{Hex} {F : Flate2} (sha1 : bytes → Oid) (crc32 : bytes → Z).
Context (capability_from_str : bytes → option Capability) (capability_to_string : Capability → bytes).
(** The order in which a [HashMap] is walked. *)
Context (hash_order : RefMap → RefMap).
(** The object database, which depends on the packs. *)
Context (read_obj_commit : list (bytes * bytes) → Oid → BitResult CommitGraph.Commit).
Context (ensure_obj_is_commit : list (bytes * bytes) → Oid → BitResult unit).
Context (bitdir : BitPath) (user_signature : BitResult BitSignature).
(** Bounds the resolution of references, a step of the walk, and the number of batches. *)
Context (fuel batches : nat).

(** [recv_pack]; a temporary file that stays behind when it fails is not modelled. *)
Definition recv_pack : st Fetch unit :=
  data ← on_rx recv_pack_bytes;
  '(pack_index, w) ← st_lift (write_pack_index sha1 crc32 data);
  let name ext := bs "pack-" ++ oid_display (pack_hash pack_index) ++ ext in
  st_modify (λ f, mk_Fetch (rx f) (tx f) (fetch_refs f)
                    (pack_files f ++ [(name (bs ".pack"), data); (name (bs ".idx"), w)])).

(** The loop over the mapping: what is wanted, and the local tips. *)
Fixpoint split_mapping (mapping : RefMap) (wanted local_tips : list Oid) : st Fetch (list Oid * list Oid) :=
  match mapping with
  | [] => mret (wanted, local_tips)
  | (remote, remote_oid) :: mapping =>
      f ← st_get;
      local_oid ← on_fetch_refs (try_fully_resolve_ref bitdir (ensure_obj_is_commit (pack_files f)) fuel (Symbolic remote));
      split_mapping mapping
        (if bool_decide (local_oid = Some remote_oid) then wanted else wanted ++ [remote_oid])
        (local_tips ++ option_list local_oid)
  end.

Definition request_capabilities : bytes :=
  join_byte x20 (capability_to_string <$> [MultiAckDetailed; OfsDelta; SideBand64k]).

Definition send_wants (wanted : list Oid) : st Fetch unit :=
  match wanted with
  | [] => mret tt
  | oid :: wanted =>
      _ ← send (write_packet (bs "want " ++ oid_display oid ++ [x20] ++ request_capabilities ++ [x0a]));
      st_for_each (λ oid, send (want oid)) wanted
  end.

(** A step of the walk over the commits that are there already. *)
Definition next_have (walk : RevWalk) : st Fetch (option CommitGraph.Commit * RevWalk) := λ f,
  match revwalk_next (read_obj_commit (pack_files f)) fuel walk with
  | (Ok c, walk) => (Ok (c, walk), f)
  | (Err e, _) => (Err e, f)
  | (Panic, _) => (Panic, f)
  end.

(** The [for] loop over a batch; [None] when the outer loop is left. *)
Fixpoint have_batch (n : nat) (walk : RevWalk) : st Fetch (option RevWalk) :=
  match n with
  | O =>
      _ ← send (Ok write_flush_packet);
      _ ← on_rx recv_packet;
      mret (Some walk)
  | S n =>
      '(next_commit, walk) ← next_have walk;
      match next_commit with
      | Some c => _ ← send (have (commit_oid c)); have_batch n walk
      | None =>
          _ ← send (Ok write_flush_packet);
          _ ← on_rx recv_packet;
          mret None
      end
  end.

Fixpoint have_loop (batches : nat) (walk : RevWalk) : st Fetch unit :=
  match batches with
  | O => st_lift Panic
  | S batches =>
      walk ← have_batch MULTI_ACK_BATCH_SIZE walk;
      match walk with Some walk => have_loop batches walk | None => mret tt end
  end.

Definition negotiate_packs (remote_mapping : RefMap) : st Fetch FetchStatus :=
  '(wanted, local_tips) ← split_mapping (hash_order remote_mapping) [] [];
  if bool_decide (wanted = []) then mret UpToDate
  else
    _ ← send_wants wanted;
    _ ← send (Ok write_flush_packet);
    f ← st_get;
    roots ← st_lift (collect (read_obj_commit (pack_files f)) local_tips);
    _ ← have_loop batches (revwalk_build roots []);
    _ ← send write_done;
    _ ← recv_pack;
    mret NotUpToDate.

Definition remote_mapping {GitUrl} (remote : Remote GitUrl) (refs : RefMap) : RefMap :=
  foldl (λ m '(sym, oid), match match_ref (remote_fetch remote) sym with
                          | Some dst => refmap_insert dst oid m
                          | None => m
                          end) [] (hash_order refs).

Definition find_head_symref (capabilities : list Capability) : option SymbolicRef :=
  head (omap (λ c, match c with
                   | Symref from to => if bool_decide (from = SYM_HEAD) then Some to else None
                   | _ => None
                   end) capabilities).

Definition update_fetched (ro : SymbolicRef * Oid) : st Fetch unit :=
  f ← st_get;
  on_fetch_refs (update_ref_for_fetch bitdir (ensure_obj_is_commit (pack_files f)) user_signature fuel
                   ro.1 (Direct ro.2)).

Definition fetch {GitUrl} (remote : Remote GitUrl) : st Fetch FetchSummary :=
  f ← st_get;
  if bool_decide (rx f = []) then st_lift bail
  else
    '(refs, capabilities) ← on_rx (parse_ref_discovery_and_capabilities capability_from_str);
    if bool_decide (refs = []) then mret EMPTY_REMOTE
    else
      _ ← st_lift (ensure (bool_decide (MultiAckDetailed ∈ capabilities)) Anyhow);
      _ ← st_lift (ensure (bool_decide (SideBand64k ∈ capabilities)) Anyhow);
      _ ← st_lift (ensure (bool_decide (OfsDelta ∈ capabilities)) Anyhow);
      let mapping := remote_mapping remote refs in
      status ← negotiate_packs mapping;
      _ ← st_for_each update_fetched (hash_order mapping);
      mret (mk_FetchSummary (find_head_symref capabilities) status).
End fetch.

(** ** The advertised references *)

Section discovery_theorems.
Context `{Hex}.
Context (capability_from_str : bytes → option Capability).

Definition advertised_ok (sym : SymbolicRef) : Prop :=
  symref_made sym ∧ sym_path sym ≠ ATSYM ∧ no_trailing_ws (sym_path sym) ∧ utf8_valid (sym_path sym) = true
  ∧ x00 ∉ sym_path sym ∧ x20 ∉ sym_path sym ∧ (length (sym_path sym) ≤ 4096)%nat.

Definition resolved (refs : list (SymbolicRef * option Oid)) : RefMap := omap (λ '(r, o), (r,.) <$> o) refs.
Definition ref_line (ro : SymbolicRef * Oid) : bytes := oid_display ro.2 ++ [x20] ++ sym_path ro.1.

Lemma symref_from_line sym ws : advertised_ok sym → Forall ws1 ws → x20 ∉ ws →
  symref_from_str (sym_path sym ++ ws) = Ok sym.
Proof.
  intros (Hm & Hat & Hws & _ & _ & Hsp & _) Hw Hns. unfold symref_from_str.
  assert (starts_with SYMBOLIC_REF_PREFIX (sym_path sym ++ ws) = false) as ->.
  { destruct (starts_with _ _) eqn:E; [|done]. apply starts_with_spec in E as [t E].
    assert (x20 ∈ sym_path sym ++ ws) as [?|?]%elem_of_app; [|done..].
    rewrite E. apply elem_of_app. left. vm_decide. }
  rewrite trim_end_app, bool_decide_false by done. by rewrite <- Hm.
Qed.

Lemma display_lacks b oid : ¬ is_digit b → b ∉ oid_display oid.
Proof. apply not_digit, oid_display_digits. Qed.

Lemma parse_ref_line_ok ro ws : advertised_ok ro.1 → oid_wf ro.2 → Forall ws1 ws → x20 ∉ ws →
  parse_ref_line (ref_line ro ++ ws) = Ok (ro.2, ro.1).
Proof.
  intros Ha Ho Hw Hns. unfold parse_ref_line, ref_line. rewrite <- !app_assoc. cbn [app].
  rewrite split_once_app by (apply display_lacks; nondigit). cbn [ok_or mbind outcome_bind].
  pose proof (oid_from_str_display ro.2 [] Ho (Forall_nil_2 _)) as E. rewrite app_nil_r in E. rewrite E.
  cbn [mbind outcome_bind]. by rewrite symref_from_line.
Qed.

Lemma ref_line_facts ro ws : advertised_ok ro.1 → oid_wf ro.2 → (length ws ≤ 2)%nat → utf8_valid ws = true →
  packet_ok (ref_line ro ++ ws) ∧ utf8_valid (ref_line ro ++ ws) = true.
Proof.
  intros (_ & _ & _ & Hu & _ & _ & Hl) Ho Hw Huw. split.
  - unfold packet_ok, ref_line. rewrite !length_app, length_oid_display, Ho. cbn [length]. lia.
  - unfold ref_line. repeat apply utf8_valid_app; try done. apply utf8_digits, oid_display_digits.
Qed.

Lemma packet_wire p : packet_ok p → write_packet p = Ok (wire p).
Proof.
  intros Hp. unfold packet_ok in Hp. rewrite write_packet_bytes by lia. unfold wire. rewrite bool_decide_false; [done|].
  intros ->. cbn in Hp. lia.
Qed.

Lemma write_refs_tail i refs : (0 < i)%nat → Forall (λ ro, advertised_ok ro.1 ∧ oid_wf ro.2) (resolved refs) →
  write_refs_loop i refs = Ok (stream ((λ ro, ref_line ro ++ [x0a]) <$> resolved refs)).
Proof.
  revert i. induction refs as [|[r [oid|]] refs IH]; intros i Hi Hr; [done| |by apply IH; [lia|]].
  cbn [resolved omap list_omap fmap option_fmap option_map] in *. apply Forall_cons in Hr as [[Ha Ho] Hr].
  cbn [write_refs_loop]. rewrite bool_decide_false by lia.
  destruct (ref_line_facts (r, oid) [x0a] Ha Ho ltac:(cbn; lia) eq_refl) as [Hp _].
  unfold ref_line in Hp. cbn [fst snd] in Hp. rewrite <- !app_assoc in Hp.
  rewrite (packet_wire _ Hp). cbn [mbind outcome_bind]. rewrite (IH (S i)) by (lia || done).
  cbn [mbind outcome_bind]. rewrite fmap_cons. change (stream (?p :: ?ps)) with (wire p ++ stream ps).
  unfold ref_line at 2. cbn [fst snd]. by rewrite <- !app_assoc.
Qed.

Lemma refmap_insert_new sym oid (m : RefMap) : sym ∉ m.*1 → refmap_insert sym oid m = m ++ [(sym, oid)].
Proof.
  induction m as [|[s o] m IH]; [done|]. cbn. rewrite not_elem_of_cons. intros [Hne Hm].
  rewrite bool_decide_false by done. by rewrite IH.
Qed.

Lemma parse_refs_ok l rest : Forall (λ ro, advertised_ok ro.1 ∧ oid_wf ro.2) l → ∀ fuel m,
  NoDup (m ++ l).*1 → (length l < fuel)%nat →
  parse_refs_loop fuel m (stream ((λ ro, ref_line ro ++ [x0a]) <$> l) ++ write_flush_packet ++ rest) = Ok (m ++ l, rest).
Proof.
  induction 1 as [|ro l [Ha Ho] Hl IH]; intros fuel m Hnd Hf; (destruct fuel as [|fuel]; [cbn in Hf; lia|]); cbn [parse_refs_loop].
  - erewrite reader_bind_ok by (apply (recv_wire []); done). by rewrite app_nil_r.
  - destruct (ref_line_facts ro [x0a] Ha Ho ltac:(cbn; lia) eq_refl) as [Hp Hu]. unfold packet_ok in Hp.
    rewrite fmap_cons, stream_cons. erewrite reader_bind_ok by (apply recv_wire; lia).
    rewrite bool_decide_false by (intros E; rewrite E in Hp; cbn in Hp; lia).
    assert ((_ ← ensure (utf8_valid (ref_line ro ++ [x0a])) Anyhow; parse_ref_line (ref_line ro ++ [x0a])) = Ok (ro.2, ro.1)) as E.
    { rewrite Hu. cbn [ensure mbind outcome_bind]. apply parse_ref_line_ok; [done|done|repeat constructor|vm_decide]. }
    rewrite (lift_bind _ _ _ _ E). rewrite refmap_insert_new.
    + rewrite IH; [by destruct ro; rewrite <- app_assoc| |cbn in Hf; lia]. by destruct ro; rewrite <- app_assoc.
    + rewrite fmap_app, NoDup_app in Hnd. destruct Hnd as (_ & Hd & _). intros Hin. apply (Hd _ Hin). by left.
Qed.

Lemma ref_line_no_nul ro : advertised_ok ro.1 → x00 ∉ ref_line ro.
Proof.
  intros (_ & _ & _ & _ & H0 & _ & _). unfold ref_line. rewrite !elem_of_app, list_elem_of_singleton.
  intros [Hd|[?|?]]; [|done|done]. revert Hd. apply display_lacks. nondigit.
Qed.

(** The client reads what the server advertises: when the first reference resolves (the first in
    the order of the paths, which is [HEAD]), it gets every reference that resolves, with its id. *)
Theorem discovery_round_trip r oid refs rest :
  Forall (λ ro, advertised_ok ro.1 ∧ oid_wf ro.2) ((r, oid) :: resolved refs) → NoDup ((r, oid) :: resolved refs).*1 →
  ∃ w, write_ref_discovery ((r, Some oid) :: refs) = Ok w
    ∧ parse_ref_discovery_and_capabilities capability_from_str (w ++ rest) = Ok (((r, oid) :: resolved refs, []), rest).
Proof.
  intros [[Ha Ho] Hl]%Forall_cons Hnd. cbn in Ha, Ho.
  destruct (ref_line_facts (r, oid) [x00; x0a] Ha Ho ltac:(cbn; lia) eq_refl) as [Hp Hu].
  set (first := ref_line (r, oid) ++ [x00; x0a]) in *.
  set (lines := (λ ro, ref_line ro ++ [x0a]) <$> resolved refs).
  exists (wire first ++ stream lines ++ write_flush_packet). split.
  - unfold write_ref_discovery. cbn [write_refs_loop]. rewrite bool_decide_true by done.
    change (oid_display oid ++ [x20] ++ sym_path r ++ [x00] ++ CAPABILITIES ++ [x0a])
      with (oid_display oid ++ [x20] ++ sym_path r ++ [x00; x0a]).
    assert (oid_display oid ++ [x20] ++ sym_path r ++ [x00; x0a] = first) as ->
      by (subst first; unfold ref_line; cbn [fst snd]; by rewrite <- !app_assoc).
    rewrite (packet_wire _ Hp). cbn [mbind outcome_bind]. rewrite write_refs_tail by (lia || done).
    cbn [mbind outcome_bind]. by rewrite <- app_assoc.
  - unfold parse_ref_discovery_and_capabilities. rewrite <- !app_assoc. unfold packet_ok in Hp.
    set (s := wire first ++ _). erewrite reader_bind_ok by (apply recv_wire; lia).
    rewrite bool_decide_false by (intros E; rewrite E in Hp; cbn in Hp; lia).
    assert ((_ ← ensure (utf8_valid first) Anyhow; ok_or Anyhow (split_once x00 first)) = Ok (ref_line (r, oid), [x0a])) as E1.
    { rewrite Hu. cbn [ensure mbind outcome_bind]. unfold first. by rewrite split_once_app by by apply ref_line_no_nul. }
    rewrite (lift_bind _ _ _ _ E1).
    rewrite (lift_bind (parse_capabilities capability_from_str [x0a]) _ []) by done.
    rewrite (lift_bind (parse_ref_line (ref_line (r, oid))) _ (oid, r)); cycle 1.
    { rewrite <- (app_nil_r (ref_line (r, oid))). apply (parse_ref_line_ok (r, oid)); [done|done|constructor|by apply not_elem_of_nil]. }
    erewrite reader_bind_ok; [done|]. apply (parse_refs_ok _ _ Hl _ [(r, oid)]); [done|].
    subst s. pose proof (length_stream lines) as H2. subst lines. rewrite length_fmap in H2. rewrite !length_app. lia.
Qed.

(** When [HEAD] is not born yet, the capabilities are never written: the line that carries them is
    that of the first reference, which is left out.  The client does not take the first line. *)
Theorem discovery_unborn_head_fails refs rest :
  Forall (λ ro, advertised_ok ro.1 ∧ oid_wf ro.2) (resolved refs) → resolved refs ≠ [] →
  ∃ w, write_ref_discovery ((SYM_HEAD, None) :: refs) = Ok w
    ∧ parse_ref_discovery_and_capabilities capability_from_str (w ++ rest) = Err Anyhow.
Proof.
  intros Hl Hne. unfold write_ref_discovery. cbn [write_refs_loop]. rewrite write_refs_tail by (lia || done).
  eexists. split; [reflexivity|]. destruct Hl as [|ro l [Ha Ho] Hl]; [done|].
  destruct (ref_line_facts ro [x0a] Ha Ho ltac:(cbn; lia) eq_refl) as [Hp Hu]. unfold packet_ok in Hp.
  unfold parse_ref_discovery_and_capabilities. rewrite fmap_cons, <- app_assoc, stream_cons.
  set (s := wire _ ++ _). erewrite reader_bind_ok by (apply recv_wire; lia).
  rewrite bool_decide_false by (intros E; rewrite E in Hp; cbn in Hp; lia).
  rewrite Hu. cbn [ensure mbind outcome_bind]. rewrite split_once_None; [done|].
  rewrite elem_of_app, list_elem_of_singleton. intros [Hin|?]; [|done]. by apply ref_line_no_nul in Hin.
Qed.
End discovery_theorems.

(** ** The negotiation *)

Section negotiation.
Context `{Hex} {F : Flate2} (sha1 : bytes → Oid) (crc32 : bytes → Z).
Context (capability_to_string : Capability → bytes) (hash_order : RefMap → RefMap).
Context (read_obj_commit : list (bytes * bytes) → Oid → BitResult CommitGraph.Commit).
Context (ensure_obj_is_commit : list (bytes * bytes) → Oid → BitResult unit).
Context (bitdir : BitPath) (fuel : nat).

(** The walk yields [cs] and ends. *)
Inductive walks (packs : list (bytes * bytes)) : RevWalk → list CommitGraph.Commit → Prop :=
| walks_nil w w' : revwalk_next (read_obj_commit packs) fuel w = (Ok None, w') → walks packs w []
| walks_cons w w' c cs : revwalk_next (read_obj_commit packs) fuel w = (Ok (Some c), w') → walks packs w' cs →
    walks packs w (c :: cs).

Lemma collect_walks packs n w cs w' :
  revwalk_collect (read_obj_commit packs) fuel n w = (Ok cs, w') → walks packs w cs.
Proof.
  revert w cs. induction n as [|n IH]; intros w cs; [done|]. cbn [revwalk_collect]. unfold mbind, st_bind.
  destruct (revwalk_next _ fuel w) as [[[c|]| |] w1] eqn:E; try done.
  - destruct (revwalk_collect _ fuel n w1) as [[cs'| |] w2] eqn:E2; try done. intros [= <- <-].
    eapply walks_cons; [exact E|by apply IH].
  - intros [= <- _]. by eapply walks_nil.
Qed.

(** What is sent for a list of commits, in [k] batches that end in a flush packet each. *)
Definition have_line (c : CommitGraph.Commit) : bytes := bs "have " ++ oid_display (commit_oid c) ++ [x0a].
Fixpoint haves_sent (k : nat) (cs : list CommitGraph.Commit) : bytes :=
  match k with
  | O => []
  | S k => stream (have_line <$> take 32 cs) ++ write_flush_packet ++ haves_sent k (drop 32 cs)
  end.

Definition with_io (f : Fetch) (r t : bytes) : Fetch := mk_Fetch r t (fetch_refs f) (pack_files f).

Lemma on_rx_ok {A} (m : reader A) f a r : m (rx f) = Ok (a, r) → on_rx m f = (Ok a, with_io f r (tx f)).
Proof. intros E. unfold on_rx. by rewrite E. Qed.

Lemma send_ok w f : send (Ok w) f = (Ok tt, with_io f (rx f) (tx f ++ w)).
Proof. done. Qed.

Lemma have_ok c : oid_wf (commit_oid c) → have (commit_oid c) = Ok (wire (have_line c)).
Proof.
  intros Ho. apply packet_wire. unfold packet_ok, have_line. change (bs "have ") with (bs "have" ++ [x20]).
  rewrite !length_app, length_oid_display, Ho. cbn. lia.
Qed.

Definition small (p : bytes) : Prop := (Z.of_nat (length p) ≤ 65531)%Z.

#[local] Abbreviation batch := (have_batch read_obj_commit fuel).
#[local] Abbreviation loop := (have_loop read_obj_commit fuel).

Lemma have_step n f w w' c : oid_wf (commit_oid c) →
  revwalk_next (read_obj_commit (pack_files f)) fuel w = (Ok (Some c), w') →
  batch (S n) w f = batch n w' (with_io f (rx f) (tx f ++ wire (have_line c))).
Proof.
  intros Ho E. cbn [have_batch]. rewrite (st_bind_ok _ _ f f (Some c, w')) by (unfold next_have; by rewrite E).
  rewrite have_ok by done. by erewrite st_bind_ok by apply send_ok.
Qed.

Lemma flush_round f answer r : rx f = wire answer ++ r → small answer → ∀ {B} (k : st Fetch B),
  (_ ← send (Ok write_flush_packet); _ ← on_rx recv_packet; k) f = k (with_io f r (tx f ++ write_flush_packet)).
Proof.
  intros Hr Hs B k. erewrite st_bind_ok by apply send_ok.
  erewrite st_bind_ok; [|apply on_rx_ok; cbn [rx with_io]; rewrite Hr; by apply recv_wire]. done.
Qed.

Lemma have_batch_ok n w cs : Forall (λ c, oid_wf (commit_oid c)) cs → ∀ f answer r,
  walks (pack_files f) w cs → rx f = wire answer ++ r → small answer →
  ∃ o, batch n w f = (Ok o, with_io f r (tx f ++ stream (have_line <$> take n cs) ++ write_flush_packet))
    ∧ match o with Some w' => n ≤ length cs ∧ walks (pack_files f) w' (drop n cs) | None => length cs < n end.
Proof.
  intros Hcs. revert w cs Hcs. induction n as [|n IH]; intros w cs Hcs f answer r Hw Hr Hs.
  - exists (Some w). split; [|split; [lia|by rewrite drop_0]]. cbn [have_batch].
    by rewrite (flush_round f answer r Hr Hs).
  - destruct Hw as [w w' E|w w' c cs E Hw].
    + exists None. split; [|cbn; lia]. cbn [have_batch].
      rewrite (st_bind_ok _ _ f f (None, w')) by (unfold next_have; by rewrite E). by rewrite (flush_round f answer r Hr Hs).
    + apply Forall_cons in Hcs as [Hc Hcs]. rewrite (have_step n f w w' c Hc E).
      destruct (IH w' cs Hcs (with_io f (rx f) (tx f ++ wire (have_line c))) answer r Hw Hr Hs) as (o & Eo & Ho).
      exists o. split.
      * rewrite Eo. cbn [tx with_io take]. rewrite fmap_cons, stream_cons. by rewrite <- app_assoc.
      * destruct o; cbn [drop length] in *; [by destruct Ho; split; [lia|]|lia].
Qed.

Lemma have_loop_ok k : ∀ batches w cs f answers r, Forall (λ c, oid_wf (commit_oid c)) cs →
  walks (pack_files f) w cs → rx f = stream answers ++ r → Forall small answers →
  length answers = k → k = S (length cs / 32) → k ≤ batches →
  loop batches w f = (Ok tt, with_io f r (tx f ++ haves_sent k cs)).
Proof.
  induction k as [|k IH]; intros batches w cs f answers r Hcs Hw Hr Hs Hl Hk Hb; [done|].
  destruct batches as [|batches]; [lia|]. destruct answers as [|answer answers]; [done|].
  apply Forall_cons in Hs as [Ha Hs]. rewrite stream_cons in Hr. injection Hl as Hl. apply Nat.succ_inj in Hk.
  cbn [have_loop]. destruct (have_batch_ok 32 w cs Hcs f answer _ Hw Hr Ha) as (o & Eo & Ho).
  rewrite (st_bind_ok _ _ _ _ _ Eo). destruct o as [w'|].
  - destruct Ho as [Hle Hw']. rewrite (IH batches w' (drop 32 cs) _ answers r); [|by apply Forall_drop|done|done|done|done| |lia].
    + cbn [tx with_io haves_sent]. by rewrite <- !app_assoc.
    + rewrite length_drop, Hk. assert (length cs = (length cs - 32) + 1 * 32) as E by lia.
      rewrite E at 1. rewrite Nat.div_add; lia.
  - rewrite Nat.div_small in Hk by lia. subst k. destruct answers; [|done]. cbn [haves_sent].
    by rewrite app_nil_r.
Qed.

#[local] Abbreviation first_want := (λ oid, bs "want " ++ oid_display oid ++ [x20]
  ++ request_capabilities capability_to_string ++ [x0a]).
Definition want_line (oid : Oid) : bytes := bs "want " ++ oid_display oid ++ [x0a].

Lemma wants_loop_ok wanted f : Forall oid_wf wanted →
  st_for_each (λ oid, send (want oid)) wanted f = (Ok tt, with_io f (rx f) (tx f ++ stream (want_line <$> wanted))).
Proof.
  intros Hw. revert f. induction Hw as [|o wanted Hwo Hw IH]; intros f; cbn [st_for_each].
  - unfold stream. cbn. rewrite app_nil_r. by destruct f.
  - assert (want o = Ok (wire (want_line o))) as ->.
    { apply packet_wire. unfold packet_ok, want_line. change (bs "want ") with (bs "want" ++ [x20]).
      rewrite !length_app, length_oid_display, Hwo. cbn. lia. }
    erewrite st_bind_ok by apply send_ok. rewrite IH. cbn [with_io rx tx fetch_refs pack_files].
    rewrite fmap_cons. change (stream (?p :: ?l)) with (wire p ++ stream l). by rewrite app_assoc.
Qed.

Lemma send_wants_ok oid wanted f :
  Forall oid_wf (oid :: wanted) → length (request_capabilities capability_to_string) ≤ 1000 →
  send_wants capability_to_string (oid :: wanted) f
  = (Ok tt, with_io f (rx f) (tx f ++ stream (first_want oid :: (want_line <$> wanted)))).
Proof.
  intros [Ho Hw]%Forall_cons Hc. unfold send_wants.
  assert (packet_ok (first_want oid)) as Hp.
  { unfold packet_ok. change (bs "want ") with (bs "want" ++ [x20]). rewrite !length_app, length_oid_display, Ho.
    assert (length (bs "want") = 4) as -> by done. cbn [length]. lia. }
  rewrite (packet_wire _ Hp). erewrite st_bind_ok by apply send_ok.
  rewrite wants_loop_ok by done. cbn [with_io rx tx fetch_refs pack_files].
  change (stream (first_want oid :: ?l)) with (wire (first_want oid) ++ stream l).
  by rewrite <- (app_assoc (tx f) (wire _)).
Qed.

(** C13: The negotiation: when something is wanted, what is sent is a [want] line for each id that a
    reference is to get and does not have (the capabilities in the first), then the ids of every commit
    of the walk from the local tips, in batches of 32 that the server answers one by one, then [done];
    and the pack that follows is stored with its index under its hash. *)
Theorem negotiate_packs_correct batches mapping f fs1 oid wanted tips roots cs answers s data idx w rest :
  split_mapping ensure_obj_is_commit bitdir fuel (hash_order mapping) [] [] f
    = (Ok (oid :: wanted, tips), mk_Fetch (rx f) (tx f) fs1 (pack_files f)) →
  collect (read_obj_commit (pack_files f)) tips = Ok roots → walks (pack_files f) (revwalk_build roots []) cs →
  Forall oid_wf (oid :: wanted) → Forall (λ c, oid_wf (commit_oid c)) cs →
  length (request_capabilities capability_to_string) ≤ 1000 →
  rx f = stream answers ++ s → Forall small answers → length answers = S (length cs / 32) →
  recv_pack_bytes s = Ok (data, rest) → write_pack_index sha1 crc32 data = Ok (idx, w) →
  length cs / 32 < batches →
  negotiate_packs sha1 crc32 capability_to_string hash_order read_obj_commit ensure_obj_is_commit bitdir fuel batches
    mapping f
  = (Ok NotUpToDate,
     mk_Fetch rest
       (tx f ++ stream (first_want oid :: (want_line <$> wanted)) ++ write_flush_packet
          ++ haves_sent (S (length cs / 32)) cs ++ packet_bytes (bs "done"))
       fs1
       (pack_files f ++ [(bs "pack-" ++ oid_display (pack_hash idx) ++ bs ".pack", data);
                         (bs "pack-" ++ oid_display (pack_hash idx) ++ bs ".idx", w)])).
Proof.
  intros E1 E2 Hw Hwf Hcs Hcap Hrx Hsm Hlen E3 E4 Hb. unfold negotiate_packs.
  rewrite (st_bind_ok _ _ _ _ _ E1). rewrite bool_decide_false by done.
  rewrite (st_bind_ok _ _ _ _ _ (send_wants_ok oid wanted _ Hwf Hcap)).
  erewrite st_bind_ok by apply send_ok. rewrite st_get_bind. unfold with_io. cbn [rx tx fetch_refs pack_files].
  rewrite E2, st_lift_bind.
  rewrite (st_bind_ok _ _ _ _ _ (have_loop_ok _ batches _ cs
    (mk_Fetch (rx f) _ fs1 (pack_files f)) answers s Hcs Hw Hrx Hsm Hlen eq_refl Hb)).
  erewrite st_bind_ok by apply send_ok. unfold with_io. cbn [rx tx fetch_refs pack_files].
  erewrite st_bind_ok; cycle 1.
  { unfold recv_pack. erewrite st_bind_ok by (apply on_rx_ok; exact E3).
    rewrite E4, st_lift_bind. reflexivity. }
  unfold with_io. cbn [rx tx fetch_refs pack_files]. unfold mret, st_ret. by rewrite <- !app_assoc.
Qed.
End negotiation.

(** ** Examples *)

Definition sym_main : SymbolicRef := symref_new (bs "refs/heads/main").

Lemma advertised_sample : advertised_ok SYM_HEAD ∧ advertised_ok sym_main.
Proof. split; (split_and!; [done|vm_decide|vm_decide|done|vm_decide|vm_decide|vm_compute; lia]). Qed.

Lemma discovery_round_trip_witness :
  ∃ w, write_ref_discovery [(SYM_HEAD, Some (replicate 20 x01)); (sym_main, Some (replicate 20 x02))] = Ok w
    ∧ parse_ref_discovery_and_capabilities (λ _, None) (w ++ bs "rest")
      = Ok (([(SYM_HEAD, replicate 20 x01); (sym_main, replicate 20 x02)], []), bs "rest").
Proof.
  destruct advertised_sample as [H1 H2].
  apply (discovery_round_trip (λ _, None) SYM_HEAD (replicate 20 x01) [(sym_main, Some (replicate 20 x02))] (bs "rest")).
  - apply Forall_cons_2; [exact (conj H1 eq_refl)|]. apply Forall_cons_2; [exact (conj H2 eq_refl)|]. apply Forall_nil_2.
  - vm_decide.
Defined.

Lemma discovery_unborn_head_fails_witness :
  ∃ w, write_ref_discovery [(SYM_HEAD, None); (sym_main, Some (replicate 20 x02))] = Ok w
    ∧ parse_ref_discovery_and_capabilities (λ _, None) (w ++ []) = Err Anyhow.
Proof.
  destruct advertised_sample as [_ H2].
  apply (discovery_unborn_head_fails (λ _, None) [(sym_main, Some (replicate 20 x02))] []); [|done].
  apply Forall_cons_2; [exact (conj H2 eq_refl)|]. apply Forall_nil_2.
Defined.

(** A commit to fetch, one that is there, and the pack of PackIndexer.v. *)
Definition local_commit : CommitGraph.Commit := mk_Commit (sample_oid x10) sample_old_commit.
Definition sample_read_commit (_ : list (bytes * bytes)) (oid : Oid) : BitResult CommitGraph.Commit :=
  if bool_decide (oid = sample_oid x10) then Ok local_commit else bail.
Definition sample_pack : bytes := pack_file toy_sha1 sample_items.
Definition sample_session : bytes := stream [bs "NAK"] ++ stream [bs "NAK"; x01 :: sample_pack] ++ write_flush_packet.

Lemma sample_pack_indexed : ∃ idx w, write_pack_index toy_sha1 toy_crc32 sample_pack = Ok (idx, w).
Proof.
  destruct (write_pack_index toy_sha1 toy_crc32 sample_pack) as [[idx w]|e|] eqn:E; [by exists idx, w| |];
    exfalso; revert E; vm_compute; discriminate.
Qed.

Lemma sample_walk_commits : walks sample_read_commit 20 [] (revwalk_build [local_commit] []) [local_commit].
Proof.
  eapply walks_cons; [vm_compute; reflexivity|]. eapply walks_nil. vm_compute. reflexivity.
Qed.

Lemma negotiate_packs_correct_witness :
  ∃ idx f, negotiate_packs toy_sha1 toy_crc32 (λ _, bs "cap") id sample_read_commit (λ _ _, Ok tt) (bs "/git") 20 2
      [(sym_master, sample_oid x12)] (mk_Fetch sample_session [] sample_branch []) = (Ok NotUpToDate, f)
    ∧ (pack_files f).*1 = [bs "pack-" ++ oid_display (pack_hash idx) ++ bs ".pack";
                           bs "pack-" ++ oid_display (pack_hash idx) ++ bs ".idx"].
Proof.
  destruct sample_pack_indexed as (idx & w & Ew).
  pose proof (negotiate_packs_correct toy_sha1 toy_crc32 (λ _, bs "cap") id sample_read_commit (λ _ _, Ok tt)
    (bs "/git") 20 2 [(sym_master, sample_oid x12)] (mk_Fetch sample_session [] sample_branch [])
    (fetch_refs (snd (split_mapping (λ _ _, Ok tt) (bs "/git") 20 [(sym_master, sample_oid x12)] [] []
       (mk_Fetch sample_session [] sample_branch []))))
    (sample_oid x12) [] [sample_oid x10] [local_commit] [local_commit] [bs "NAK"]
    (stream [bs "NAK"; x01 :: sample_pack] ++ write_flush_packet) sample_pack idx w []) as E.
  exists idx. eexists. split; [apply E|reflexivity]; clear E.
  - vm_compute. reflexivity.
  - vm_compute. reflexivity.
  - apply sample_walk_commits.
  - repeat constructor.
  - repeat constructor.
  - vm_compute. lia.
  - reflexivity.
  - repeat constructor. vm_compute. discriminate.
  - reflexivity.
  - vm_compute. reflexivity.
  - exact Ew.
  - vm_compute. lia.
Defined.
