(* ===== verification/Graph.v ===== *)
(** * Graph

    [libbit/src/graph/dag.rs]: graphs, the builder of graphs, and Kahn's topological sort of
    [graph/dag/topological.rs]. *)

From Stdlib Require Import ZArith Lia.
From stdpp Require Import base tactics option list countable gmap.
From S2P Require Import Prelude RustStd Data State Hash.

#[local] Open Scope Z_scope.

(** [trait Dag]: its nodes, and the nodes that a node points to. *)
Class Dag (G N : Type) := {
  dag_nodes : G → BitResult (list N);
  dag_adjacent : G → N → BitResult (list N);
}.

(** ** DagBuilder *)

Record NodeData := mk_NodeData { node_parents : list nat; node_tree : option Oid }.
Definition node_data_new (tree : option Oid) : NodeData := mk_NodeData [] tree.

Record DagBuilder := mk_DagBuilder { db_nodes : list NodeData }.

(** Indexing an [IndexVec] panics out of range. *)
Definition node_data (g : DagBuilder) (node : nat) : BitResult NodeData := unwrap (db_nodes g !! node).

#[export] Instance dag_builder_dag : Dag DagBuilder nat := {
  dag_nodes g := Ok (seq 0 (length (db_nodes g)));
  dag_adjacent g node := d ← node_data g node; Ok (node_parents d);
}.

Definition add_parent (child parent : nat) (g : DagBuilder) : BitResult DagBuilder :=
  d ← node_data g child;
  Ok (mk_DagBuilder (<[child := mk_NodeData (node_parents d ++ [parent]) (node_tree d)]> (db_nodes g))).

Fixpoint add_parents (edges : list (nat * nat)) (g : DagBuilder) : BitResult DagBuilder :=
  match edges with
  | [] => Ok g
  | (child, parent) :: edges => g ← add_parent child parent g; add_parents edges g
  end.

Definition mk_node (tree : option Oid) (g : DagBuilder) : nat * DagBuilder :=
  (length (db_nodes g), mk_DagBuilder (db_nodes g ++ [node_data_new tree])).

(** [map(|tree| self.mk_node(tree))]. *)
Fixpoint mk_each (trees : list (option Oid)) (g : DagBuilder) : list nat * DagBuilder :=
  match trees with
  | [] => ([], g)
  | tree :: trees => let '(n, g) := mk_node tree g in let '(ns, g) := mk_each trees g in (n :: ns, g)
  end.

Definition mk_nodes (n : nat) : DagBuilder → list nat * DagBuilder := mk_each (replicate n None).
Definition mk_nodes_with_trees (trees : list Oid) : DagBuilder → list nat * DagBuilder := mk_each (Some <$> trees).

(** ** TopologicalSort *)

Section topological.
Context {G N : Type} `{Dag G N} `{Countable N}.
(** The order in which an [FxHashMap] is walked. *)
Context (hash_order : gmap N Z → list (N * Z)).

Record TopologicalSort := mk_TopologicalSort { ts_indegrees : gmap N Z; ts_queue : list N }.

Definition count_parent (indegrees : gmap N Z) (parent : N) : gmap N Z :=
  <[parent := wrap 32 (default 0 (indegrees !! parent) + 1)]> indegrees.

Fixpoint count_indegrees (dag : G) (nodes : list N) (indegrees : gmap N Z) : BitResult (gmap N Z) :=
  match nodes with
  | [] => Ok indegrees
  | node :: nodes =>
      parents ← dag_adjacent dag node;
      count_indegrees dag nodes (foldl count_parent indegrees parents)
  end.

Definition topological_new (dag : G) : BitResult TopologicalSort :=
  nodes ← dag_nodes dag;
  indegrees ← count_indegrees dag nodes ∅;
  let queue := fst <$> List.filter (λ kd, bool_decide (kd.2 = 0)) (hash_order indegrees) in
  Ok (mk_TopologicalSort indegrees queue).

(** The loop of [next] over the parents. *)
Fixpoint release_parents (parents : list N) : st TopologicalSort unit :=
  match parents with
  | [] => mret tt
  | parent :: parents =>
      t ← st_get;
      indegree ← st_lift (unwrap (ts_indegrees t !! parent));
      let indegree := wrap 32 (indegree - 1) in
      _ ← st_put (mk_TopologicalSort (<[parent := indegree]> (ts_indegrees t))
                    (if bool_decide (indegree = 0) then ts_queue t ++ [parent] else ts_queue t));
      release_parents parents
  end.

Definition topological_next (dag : G) : st TopologicalSort (option N) :=
  t ← st_get;
  match ts_queue t with
  | [] => mret None
  | node :: queue =>
      _ ← st_put (mk_TopologicalSort (ts_indegrees t) queue);
      parents ← st_lift (dag_adjacent dag node);
      _ ← release_parents parents;
      mret (Some node)
  end.

(** The number of edges that leave the nodes. *)
Fixpoint edges_within (dag : G) (nodes : list N) (bound : Z) : Prop :=
  match nodes with
  | [] => 0 ≤ bound
  | node :: nodes => match dag_adjacent dag node with
                     | Ok parents => edges_within dag nodes (bound - Z.of_nat (length parents))
                     | _ => True
                     end
  end.

Lemma count_parents_positive parents b m :
  map_Forall (λ _ d, 0 < d ≤ b) m → b + Z.of_nat (length parents) < 2 ^ 32 → 0 ≤ b →
  map_Forall (λ _ d, 0 < d ≤ b + Z.of_nat (length parents)) (foldl count_parent m parents).
Proof.
  revert b m. induction parents as [|p parents IH]; intros b m Hm Hb Hpos.
  - cbn. rewrite Z.add_0_r. exact Hm.
  - cbn [foldl length] in *. replace (b + Z.of_nat (S (length parents))) with (b + 1 + Z.of_nat (length parents)) by lia.
    apply IH; [|lia|lia]. unfold count_parent. apply map_Forall_insert_2.
    + assert (0 ≤ default 0 (m !! p) ≤ b) as Hd.
      { destruct (m !! p) as [d|] eqn:E; cbn; [|lia]. specialize (Hm p d E). cbn in Hm. lia. }
      unfold wrap. rewrite Z.mod_small by lia. lia.
    + eapply map_Forall_impl; [exact Hm|]. cbn. lia.
Qed.

Lemma count_indegrees_positive dag nodes b m m' :
  map_Forall (λ _ d, 0 < d ≤ b) m → 0 ≤ b → edges_within dag nodes (2 ^ 32 - 1 - b) →
  count_indegrees dag nodes m = Ok m' → map_Forall (λ _ d, 0 < d) m'.
Proof.
  revert b m. induction nodes as [|node nodes IH]; intros b m Hm Hb He; cbn.
  - intros [= <-]. eapply map_Forall_impl; [exact Hm|]. cbn. lia.
  - cbn in He. destruct (dag_adjacent dag node) as [parents| |]; [|done..]. cbn. intros E.
    assert (Z.of_nat (length parents) ≤ 2 ^ 32 - 1 - b) as Hl.
    { assert (∀ ns bound, edges_within dag ns bound → count_indegrees dag ns (foldl count_parent m parents) = Ok m' → 0 ≤ bound) as Hge.
      { clear. revert m'. generalize (foldl count_parent m parents). intros m0 m' ns. revert m0.
        induction ns as [|n ns IHn]; intros m0 bound; cbn; [done|].
        destruct (dag_adjacent dag n) as [ps| |]; [|done..]. cbn. intros H1 H2. specialize (IHn _ _ H1 H2). lia. }
      specialize (Hge _ _ He E). lia. }
    apply (IH (b + Z.of_nat (length parents)) (foldl count_parent m parents)); [|lia| |done].
    + apply count_parents_positive; [done|lia|done].
    + replace (2 ^ 32 - 1 - (b + Z.of_nat (length parents))) with (2 ^ 32 - 1 - b - Z.of_nat (length parents)) by lia. done.
Qed.

(** The topological sort is empty, for every graph: the map of indegrees has a key only for the
    nodes that an edge points to, so none of its values is zero and the queue starts empty. *)
Theorem topological_sort_yields_nothing dag nodes t :
  (∀ m k d, (k, d) ∈ hash_order m → m !! k = Some d) →
  dag_nodes dag = Ok nodes → edges_within dag nodes (2 ^ 32 - 1) →
  topological_new dag = Ok t → topological_next dag t = (Ok None, t).
Proof.
  intros Ho En He. unfold topological_new. rewrite En. cbn.
  destruct (count_indegrees dag nodes ∅) as [m| |] eqn:Em; [|done..]. cbn. intros [= <-].
  assert (map_Forall (λ _ d, 0 < d) m) as Hpos.
  { apply (count_indegrees_positive dag nodes 0 ∅ m (map_Forall_empty _)); [done|by rewrite Z.sub_0_r|done]. }
  unfold topological_next. rewrite st_get_bind. cbn [ts_queue].
  assert (List.filter (λ kd : N * Z, bool_decide (kd.2 = 0)) (hash_order m) = []) as ->; [|done].
  assert (∀ kd, kd ∈ hash_order m → kd.2 ≠ 0) as Hne.
  { intros [k d] Hin. specialize (Hpos k d (Ho m k d Hin)). cbn in *. lia. }
  clear -Hne. induction (hash_order m) as [|kd l IH]; [done|]. cbn.
  rewrite bool_decide_false by by apply Hne; left. apply IH. intros x Hx. apply Hne. by right.
Qed.
End topological.

(** ** Example: a root and its child *)

Definition chain : DagBuilder := mk_DagBuilder [mk_NodeData [] None; mk_NodeData [0%nat] None].

Lemma chain_built : (let '(ns, g) := mk_nodes 2 (mk_DagBuilder []) in add_parents [(1, 0)]%nat g) = Ok chain.
Proof. done. Qed.

Lemma topological_sort_yields_nothing_witness :
  ∃ t, topological_new map_to_list chain = Ok t ∧ topological_next (G := DagBuilder) (N := nat) chain t = (Ok None, t).
Proof.
  eexists. split; [reflexivity|].
  apply (topological_sort_yields_nothing (G := DagBuilder) (N := nat) map_to_list chain [0%nat; 1%nat]).
  - intros m k d Hin. by apply elem_of_map_to_list.
  - done.
  - cbn. lia.
  - reflexivity.
Defined.
