(* ===== verification/Xdiff.v ===== *)
(** * Xdiff

    The edit distance of [libbit/src/xdiff/mod.rs]: Myers' greedy algorithm over a vector that is
    indexed by diagonals, and the theorem that it gives the least number of insertions and deletions.
    The diffs and merges themselves are made by the crate [diffy]. *)

From Stdlib Require Import ZArith Lia.
From stdpp Require Import base tactics option list strings.
From S2P Require Import Prelude RustStd Data.

#[local] Open Scope Z_scope.

(** ** OffsetVec *)

Record OffsetVec := mk_OffsetVec { ov_base : list Z; ov_offset : Z }.

Definition filled_with_capacity (offset : Z) (capacity : nat) : OffsetVec :=
  mk_OffsetVec (replicate capacity 0) offset.

(** [Index]: a negative index is cast to one that is out of range, which panics. *)
Definition ov_index (v : OffsetVec) (index : Z) : BitResult Z :=
  let i := index + ov_offset v in
  if i <? 0 then Panic else unwrap (ov_base v !! Z.to_nat i).

(** [IndexMut] and the assignment. *)
Definition ov_set (v : OffsetVec) (index x : Z) : BitResult OffsetVec :=
  let i := index + ov_offset v in
  if (i <? 0) || (Z.of_nat (length (ov_base v)) <=? i) then Panic
  else Ok (mk_OffsetVec (<[Z.to_nat i := x]> (ov_base v)) (ov_offset v)).

(** ** MyersDiff *)

Section myers.
Context {A : Type} `{EqDecision A} (a b : list A).

Definition m : Z := Z.of_nat (length a).
Definition n : Z := Z.of_nat (length b).

(** [&self.a[x as usize]]. *)
Definition slice_index (s : list A) (i : Z) : BitResult A := if i <? 0 then Panic else unwrap (s !! Z.to_nat i).

(** The [while] loop along a diagonal; it takes an element of [a] in each iteration. *)
Fixpoint snake (fuel : nat) (x y : Z) : BitResult (Z * Z) :=
  match fuel with
  | O => Panic
  | S fuel =>
      if (x <? m) && (y <? n) then
        c ← slice_index a x;
        d ← slice_index b y;
        if bool_decide (c = d) then snake fuel (x + 1) (y + 1) else Ok (x, y)
      else Ok (x, y)
  end.

(** Where the diagonal [k] is entered: from above or from the left. *)
Definition next_x (v : OffsetVec) (d k : Z) : BitResult Z :=
  down ← (if bool_decide (k = - d) then Ok true
          else if bool_decide (k = d) then Ok false
          else l ← ov_index v (k - 1); r ← ov_index v (k + 1); Ok (l <? r));
  if (down : bool) then ov_index v (k + 1) else l ← ov_index v (k - 1); Ok (l + 1).

(** The body of the loop over [k]: the vector, or [None] when [d] is returned. *)
Definition visit (v : OffsetVec) (d k : Z) : BitResult (option OffsetVec) :=
  x ← next_x v d k;
  let y := x - k in
  '(x, y) ← snake (S (length a)) x y;
  v ← ov_set v k x;
  if bool_decide (x = m) && bool_decide (y = n) then Ok None else Ok (Some v).

(** [for k in (-d..=d).step_by(2)], with [steps] values from [k] on. *)
Fixpoint visit_row (steps : nat) (v : OffsetVec) (d k : Z) : BitResult (option OffsetVec) :=
  match steps with
  | O => Ok (Some v)
  | S steps =>
      r ← visit v d k;
      match r with Some v => visit_row steps v d (k + 2) | None => Ok None end
  end.

(** [for d in d..m + n], with [rows] values left. *)
Fixpoint rows_from (rows : nat) (v : OffsetVec) (d : nat) : BitResult Z :=
  match rows with
  | O => Panic
  | S rows =>
      r ← visit_row (S d) v (Z.of_nat d) (- Z.of_nat d);
      match r with Some v => rows_from rows v (S d) | None => Ok (Z.of_nat d) end
  end.

(** [xdiff_dist]: [MyersDiff::new] and [diff]. *)
Definition xdiff_dist : BitResult Z :=
  let size := (length a + length b)%nat in
  rows_from size (filled_with_capacity (Z.of_nat size) (size * 2)) 0.
End myers.

(** ** Specification *)

(** [a] is turned into [b] by [d] insertions and deletions. *)
Inductive edits {A} : list A → list A → nat → Prop :=
| edits_nil : edits [] [] 0
| edits_keep c a b d : edits a b d → edits (a ++ [c]) (b ++ [c]) d
| edits_delete c a b d : edits a b d → edits (a ++ [c]) b (S d)
| edits_insert c a b d : edits a b d → edits a (b ++ [c]) (S d).

Definition edit_distance {A} (a b : list A) (d : nat) : Prop :=
  edits a b d ∧ ∀ d', edits a b d' → (d ≤ d')%nat.

(** ** Paths

    A path through the grid with [d] steps to the right or down, and diagonal steps where the elements
    are equal.  It may leave the grid; then it does not come back. *)

Section paths.
Context {A : Type} (a b : list A).

Inductive reach : nat → nat → nat → Prop :=
| reach_start : reach 0 0 0
| reach_diag d x y c : reach d x y → a !! x = Some c → b !! y = Some c → reach d (S x) (S y)
| reach_right d x y : reach d x y → reach (S d) (S x) y
| reach_down d x y : reach d x y → reach (S d) x (S y).

Lemma reach_edits d x y : reach d x y → (x ≤ length a)%nat → (y ≤ length b)%nat → edits (take x a) (take y b) d.
Proof.
  induction 1 as [|d x y c _ IH Ha Hb|d x y _ IH|d x y _ IH]; intros Hx Hy.
  - constructor.
  - rewrite (take_S_r _ _ c Ha), (take_S_r _ _ c Hb). constructor. apply IH; lia.
  - destruct (lookup_lt_is_Some_2 a x) as [c Hc]; [lia|]. rewrite (take_S_r _ _ c Hc). constructor. apply IH; lia.
  - destruct (lookup_lt_is_Some_2 b y) as [c Hc]; [lia|]. rewrite (take_S_r _ _ c Hc). constructor. apply IH; lia.
Qed.

Lemma edits_reach a' b' d : edits a' b' d → a' `prefix_of` a → b' `prefix_of` b → reach d (length a') (length b').
Proof.
  assert (∀ (l l' : list A) c, l' ++ [c] `prefix_of` l → l !! length l' = Some c) as Hlast.
  { intros l l' c [k ->]. rewrite <- app_assoc. cbn. by rewrite list_lookup_middle. }
  assert (∀ (l l' : list A) c, l' ++ [c] `prefix_of` l → l' `prefix_of` l) as Hpre.
  { intros l l' c [k ->]. rewrite <- app_assoc. by apply prefix_app_r. }
  induction 1 as [|c a' b' d _ IH|c a' b' d _ IH|c a' b' d _ IH]; intros Ha Hb;
    rewrite ?length_app, ?Nat.add_1_r; econstructor; eauto.
Qed.

Lemma reach_end d : reach d (length a) (length b) ↔ edits a b d.
Proof.
  split; [|by intros; eapply edits_reach]. intros H. apply reach_edits in H; [|lia..].
  by rewrite !firstn_all in H.
Qed.

(** *** Diagonals *)

Lemma reach_bounds d x y : reach d x y →
  - Z.of_nat d ≤ Z.of_nat x - Z.of_nat y ≤ Z.of_nat d ∧ Z.even (Z.of_nat x - Z.of_nat y + Z.of_nat d) = true.
Proof.
  assert (∀ z, Z.even (z + 2) = Z.even z) as He2 by (intros z; rewrite Z.even_add; by destruct (Z.even z)).
  induction 1 as [|d x y c _ [IH1 IH2] _ _|d x y _ [IH1 IH2]|d x y _ [IH1 IH2]]; [done|..]; (split; [lia|]).
  - by replace (Z.of_nat (S x) - Z.of_nat (S y) + Z.of_nat d) with (Z.of_nat x - Z.of_nat y + Z.of_nat d) by lia.
  - replace (Z.of_nat (S x) - Z.of_nat y + Z.of_nat (S d)) with (Z.of_nat x - Z.of_nat y + Z.of_nat d + 2) by lia.
    by rewrite He2.
  - by replace (Z.of_nat x - Z.of_nat (S y) + Z.of_nat (S d)) with (Z.of_nat x - Z.of_nat y + Z.of_nat d) by lia.
Qed.

(** The last step to the right or down, and the diagonal steps after it. *)
Lemma reach_last d x y : reach (S d) x y →
  ∃ x1 y1 s, x = (x1 + s)%nat ∧ y = (y1 + s)%nat
    ∧ (∀ i, (i < s)%nat → is_Some (a !! (x1 + i)%nat) ∧ a !! (x1 + i)%nat = b !! (y1 + i)%nat)
    ∧ ((∃ x0, x1 = S x0 ∧ reach d x0 y1) ∨ (∃ y0, y1 = S y0 ∧ reach d x1 y0)).
Proof.
  remember (S d) as e eqn:Ee. induction 1 as [|e x y c _ IH Ha Hb|e x y Hr _|e x y Hr _]; [done|..].
  - destruct (IH Ee) as (x1 & y1 & s & -> & -> & Hs & Hl). exists x1, y1, (S s).
    split_and!; [lia|lia| |done]. intros i Hi. destruct (decide (i = s)) as [->|]; [|apply Hs; lia].
    rewrite Ha, Hb. by eauto.
  - injection Ee as ->. exists (S x), y, 0%nat. split_and!; [lia|lia|lia|]. left. by exists x.
  - injection Ee as ->. exists x, (S y), 0%nat. split_and!; [lia|lia|lia|]. right. by exists y.
Qed.

Lemma reach_zero x y : reach 0 x y → x = y ∧ ∀ i, (i < x)%nat → is_Some (a !! i) ∧ a !! i = b !! i.
Proof.
  remember 0%nat as e eqn:Ee. induction 1 as [|e x y c _ IH Ha Hb|e x y Hr _|e x y Hr _]; try done.
  - split; [done|lia].
  - destruct (IH Ee) as [<- Hs]. split; [done|]. intros i Hi. destruct (decide (i = x)) as [->|]; [|apply Hs; lia].
    rewrite Ha, Hb. by eauto.
Qed.

(** Outside the grid a path wastes its steps. *)
Lemma reach_clip_y d x y : reach d x y → (length b ≤ y)%nat →
  ∃ d', reach d' x (length b) ∧ (d' + (y - length b) ≤ d)%nat.
Proof.
  induction 1 as [|d x y c Hr IH Ha Hb|d x y Hr IH|d x y Hr IH]; intros Hy.
  - assert (length b = 0)%nat as -> by lia. exists 0%nat. split; [constructor|lia].
  - apply lookup_lt_Some in Hb as Hlt. assert (S y = length b) as E by lia. rewrite E in *.
    exists d. split; [|lia]. rewrite <- E. by eapply reach_diag.
  - destruct (IH Hy) as (d' & Hd & Hle). exists (S d'). split; [by constructor|lia].
  - destruct (decide (S y = length b)) as [E|].
    + exists (S d). split; [rewrite <- E; by constructor|lia].
    + destruct (IH ltac:(lia)) as (d' & Hd & Hle). exists d'. split; [done|lia].
Qed.

Lemma reach_clip_x d x y : reach d x y → (length a ≤ x)%nat →
  ∃ d', reach d' (length a) y ∧ (d' + (x - length a) ≤ d)%nat.
Proof.
  induction 1 as [|d x y c Hr IH Ha Hb|d x y Hr IH|d x y Hr IH]; intros Hx.
  - assert (length a = 0)%nat as -> by lia. exists 0%nat. split; [constructor|lia].
  - apply lookup_lt_Some in Ha as Hlt. assert (S x = length a) as E by lia.
    exists d. split; [|lia]. rewrite <- E. by eapply reach_diag.
  - destruct (decide (S x = length a)) as [E|].
    + exists (S d). split; [rewrite <- E; by constructor|lia].
    + destruct (IH ltac:(lia)) as (d' & Hd & Hle). exists d'. split; [done|lia].
  - destruct (IH Hx) as (d' & Hd & Hle). exists (S d'). split; [by constructor|lia].
Qed.
End paths.

(** ** The algorithm *)

Section correct.
Context {A : Type} `{EqDecision A} (a b : list A).

Definition matched (X Y : nat) : Prop := is_Some (a !! X) ∧ a !! X = b !! Y.

Lemma slice_index_ok (s : list A) (X : nat) c : s !! X = Some c → slice_index s (Z.of_nat X) = Ok c.
Proof.
  intros Hc. unfold slice_index. rewrite (proj2 (Z.ltb_ge _ _)) by lia. rewrite Nat2Z.id. by rewrite Hc.
Qed.

Lemma snake_ok fuel (X Y : nat) : (length a - X < fuel)%nat →
  ∃ s, snake a b fuel (Z.of_nat X) (Z.of_nat Y) = Ok (Z.of_nat (X + s), Z.of_nat (Y + s))
    ∧ (∀ i, (i < s)%nat → matched (X + i) (Y + i)) ∧ ¬ matched (X + s) (Y + s).
Proof.
  revert X Y. induction fuel as [|fuel IH]; intros X Y Hf; [lia|]. cbn [snake].
  destruct (_ && _) eqn:E.
  - apply andb_true_iff in E as [E1%Z.ltb_lt E2%Z.ltb_lt]. unfold m, n in *.
    destruct (lookup_lt_is_Some_2 a X) as [c Hc]; [lia|]. destruct (lookup_lt_is_Some_2 b Y) as [d Hd]; [lia|].
    rewrite (slice_index_ok a X c Hc), (slice_index_ok b Y d Hd). cbn [mbind outcome_bind].
    case_bool_decide as Ecd.
    + subst d. destruct (IH (S X) (S Y) ltac:(lia)) as (s & Es & Hs & Hn). exists (S s).
      replace (Z.of_nat X + 1) with (Z.of_nat (S X)) by lia. replace (Z.of_nat Y + 1) with (Z.of_nat (S Y)) by lia.
      rewrite Es, <- !Nat.add_succ_comm. split_and!; [done| |done].
      intros [|i] Hi; [|rewrite <- !Nat.add_succ_comm; apply Hs; lia].
      rewrite !Nat.add_0_r. unfold matched. rewrite Hc, Hd. by eauto.
    + exists 0%nat. rewrite !Nat.add_0_r. split_and!; [done|lia|]. unfold matched. rewrite Hc, Hd. intros [_ [= ?]]. done.
  - exists 0%nat. rewrite !Nat.add_0_r. split_and!; [done|lia|]. intros [[c Hc] Eq]. rewrite Hc in Eq. symmetry in Eq.
    apply lookup_lt_Some in Hc. apply lookup_lt_Some in Eq. unfold m, n in E.
    apply andb_false_iff in E as [E%Z.ltb_ge|E%Z.ltb_ge]; lia.
Qed.

Lemma reach_snake d X Y s : reach a b d X Y → (∀ i, (i < s)%nat → matched (X + i) (Y + i)) → reach a b d (X + s) (Y + s).
Proof.
  intros Hr. induction s as [|s IH]; intros Hs; [by rewrite !Nat.add_0_r|]. rewrite !Nat.add_succ_r.
  destruct (Hs s ltac:(lia)) as [[c Hc] E]. eapply reach_diag; [by apply IH; intros; apply Hs; lia|exact Hc|congruence].
Qed.

(** The furthest point of a diagonal, and where the search enters it. *)
Definition furthest (d : nat) (k : Z) (X Y : nat) : Prop :=
  Z.of_nat X - Z.of_nat Y = k ∧ reach a b d X Y
  ∧ ∀ X' Y', reach a b d X' Y' → Z.of_nat X' - Z.of_nat Y' = k → (X' ≤ X)%nat.

Definition entry (d : nat) (k : Z) (X Y : nat) : Prop :=
  Z.of_nat X - Z.of_nat Y = k ∧ reach a b d X Y
  ∧ ∀ X' Y', reach a b d X' Y' → Z.of_nat X' - Z.of_nat Y' = k → ∀ i, (X + i < X')%nat → matched (X + i) (Y + i).

Lemma entry_furthest d k X Y s : entry d k X Y → (∀ i, (i < s)%nat → matched (X + i) (Y + i)) → ¬ matched (X + s) (Y + s) →
  furthest d k (X + s) (Y + s).
Proof.
  intros (Hk & Hr & Hm) Hs Hn. split_and!; [lia|by apply reach_snake|]. intros X' Y' Hr' Hk'.
  destruct (decide (X' ≤ X + s)%nat) as [|Hlt]; [done|]. destruct Hn. apply (Hm X' Y' Hr' Hk'). lia.
Qed.

(** A diagonal is entered at the further one of the points below its neighbours. *)
Lemma entry_next d k X Y :
  Z.of_nat X - Z.of_nat Y = k → reach a b (S d) X Y →
  (∀ x0 y0, reach a b d x0 y0 →
    (Z.of_nat (S x0) - Z.of_nat y0 = k → (S x0 ≤ X)%nat) ∧ (Z.of_nat x0 - Z.of_nat (S y0) = k → (x0 ≤ X)%nat)) →
  entry (S d) k X Y.
Proof.
  intros Hk Hr Hmax. split_and!; [done|done|]. intros X' Y' Hr' Hk' i Hi.
  destruct (reach_last a b d X' Y' Hr') as (x1 & y1 & s & -> & -> & Hs & Hl).
  assert (x1 ≤ X)%nat as Hle.
  { destruct Hl as [(x0 & -> & H0)|(y0 & -> & H0)]; destruct (Hmax _ _ H0) as [H1 H2]; [apply H1|apply H2]; lia. }
  specialize (Hs (X + i - x1)%nat ltac:(lia)). unfold matched.
  replace (x1 + (X + i - x1))%nat with (X + i)%nat in Hs by lia.
  by replace (y1 + (X + i - x1))%nat with (Y + i)%nat in Hs by lia.
Qed.

Lemma entry_zero : entry 0 0 0 0.
Proof.
  split_and!; [done|constructor|]. intros X' Y' Hr Hk i Hi. apply reach_zero in Hr as [_ Hs]. apply Hs. lia.
Qed.

(** *** The vector *)

#[local] Abbreviation size := (length a + length b)%nat.

Definition vec_ok (v : OffsetVec) : Prop := length (ov_base v) = (size * 2)%nat ∧ ov_offset v = Z.of_nat size.

Lemma ov_set_ok v k x : vec_ok v → - Z.of_nat size ≤ k < Z.of_nat size →
  ∃ v', ov_set v k x = Ok v' ∧ vec_ok v' ∧ ov_index v' k = Ok x
    ∧ ∀ j, j ≠ k → ∀ y, ov_index v j = Ok y → ov_index v' j = Ok y.
Proof.
  intros [Hl Ho] Hk. unfold ov_set. rewrite Ho, Hl.
  rewrite (proj2 (Z.ltb_ge (k + Z.of_nat size) 0)) by lia.
  rewrite (proj2 (Z.leb_gt (Z.of_nat (size * 2)) (k + Z.of_nat size))) by lia. cbn [orb].
  eexists. split; [done|]. split; [by split; [cbn; rewrite length_insert|]|]. unfold ov_index. cbn [ov_base ov_offset].
  rewrite Ho. split.
  - rewrite (proj2 (Z.ltb_ge (k + Z.of_nat size) 0)) by lia. rewrite list_lookup_insert_eq by lia. done.
  - intros j Hj y. destruct (Z.ltb_spec (j + Z.of_nat size) 0); [done|]. rewrite list_lookup_insert_ne by lia. done.
Qed.

Definition at_end (X Y : nat) : Prop := X = length a ∧ Y = length b.

(** The entry of diagonal [k] is the furthest point after [d] edits, which is not the end. *)
Definition diag_done (v : OffsetVec) (d : nat) (k : Z) : Prop :=
  ∃ X Y, ov_index v k = Ok (Z.of_nat X) ∧ furthest d k X Y ∧ ¬ at_end X Y.

Definition on_row (d : nat) (k : Z) : Prop := - Z.of_nat d ≤ k ≤ Z.of_nat d ∧ Z.even (k + Z.of_nat d) = true.
Definition row_done (v : OffsetVec) (d : nat) : Prop := ∀ k, on_row d k → diag_done v d k.
Definition before_row (v : OffsetVec) (d : nat) : Prop :=
  match d with O => ov_index v 1 = Ok 0 | S d => row_done v d end.

Lemma next_x_ok v d k : before_row v d → on_row d k →
  ∃ X Y, next_x v (Z.of_nat d) k = Ok (Z.of_nat X) ∧ entry d k X Y.
Proof.
  intros Hb [Hk He]. apply Z.even_spec in He as [t Ht]. unfold next_x. destruct d as [|d].
  { assert (k = 0) as -> by lia. rewrite bool_decide_true by done. cbn [mbind outcome_bind].
    exists 0%nat, 0%nat. split; [exact Hb|apply entry_zero]. }
  assert (∀ j, - Z.of_nat d ≤ j ≤ Z.of_nat d → (∃ t, j + Z.of_nat d = 2 * t) → diag_done v d j) as Hrow.
  { intros j Hj Hp. apply Hb. split; [done|]. by apply Z.even_spec. }
  case_bool_decide as E1; [|case_bool_decide as E2]; cbn [mbind outcome_bind].
  - destruct (Hrow (k + 1) ltac:(lia) ltac:(exists (t - 0); lia)) as (X & Y & -> & (Hd & Hr & Hmax) & _).
    exists X, (S Y). split; [done|]. apply entry_next; [lia|by constructor|].
    intros x0 y0 H0. split; intros Hx.
    + apply reach_bounds in H0 as [H0 _]. lia.
    + apply (Hmax _ _ H0). lia.
  - destruct (Hrow (k - 1) ltac:(lia) ltac:(exists (t - 1); lia)) as (X & Y & -> & (Hd & Hr & Hmax) & _).
    exists (S X), Y. cbn [mbind outcome_bind]. split; [do 2 f_equal; lia|]. apply entry_next; [lia|by constructor|].
    intros x0 y0 H0. split; intros Hx.
    + apply le_n_S, (Hmax _ _ H0). lia.
    + apply reach_bounds in H0 as [H0 _]. lia.
  - destruct (Hrow (k - 1) ltac:(lia) ltac:(exists (t - 1); lia)) as (Xl & Yl & El & (Hdl & Hrl & Hmaxl) & _).
    destruct (Hrow (k + 1) ltac:(lia) ltac:(exists (t - 0); lia)) as (Xr & Yr & Er & (Hdr & Hrr & Hmaxr) & _).
    rewrite El, Er. cbn [mbind outcome_bind]. destruct (Z.ltb_spec (Z.of_nat Xl) (Z.of_nat Xr)) as [Hlt|Hge].
    + exists Xr, (S Yr). split; [done|]. apply entry_next; [lia|by constructor|]. intros x0 y0 H0. split; intros Hx.
      * specialize (Hmaxl _ _ H0 ltac:(lia)). lia.
      * apply (Hmaxr _ _ H0). lia.
    + exists (S Xl), Yl. split; [do 2 f_equal; lia|]. apply entry_next; [lia|by constructor|]. intros x0 y0 H0. split; intros Hx.
      * apply le_n_S, (Hmaxl _ _ H0). lia.
      * specialize (Hmaxr _ _ H0 ltac:(lia)). lia.
Qed.

Lemma visit_ok v (d : nat) k : vec_ok v → (d < size)%nat → before_row v d → on_row d k →
  (visit a b v (Z.of_nat d) k = Ok None ∧ reach a b d (length a) (length b))
  ∨ ∃ v', visit a b v (Z.of_nat d) k = Ok (Some v') ∧ vec_ok v' ∧ diag_done v' d k
      ∧ ∀ j, j ≠ k → ∀ y, ov_index v j = Ok y → ov_index v' j = Ok y.
Proof.
  intros Hv Hd Hb Hk. destruct (next_x_ok v d k Hb Hk) as (X & Y & E & He). unfold visit. rewrite E.
  cbn [mbind outcome_bind]. pose proof He as (Hxy & Hr & _). replace (Z.of_nat X - k) with (Z.of_nat Y) by lia.
  destruct (snake_ok (S (length a)) X Y ltac:(lia)) as (s & -> & Hs & Hn). cbn [mbind outcome_bind].
  destruct Hk as [Hk Hp]. destruct (ov_set_ok v k (Z.of_nat (X + s)) Hv ltac:(lia)) as (v' & -> & Hv' & Hx & Hj).
  cbn [mbind outcome_bind]. unfold m, n. destruct (bool_decide _ && bool_decide _) eqn:Eend.
  - left. split; [done|]. apply andb_true_iff in Eend as [E1%bool_decide_eq_true E2%bool_decide_eq_true].
    assert (X + s = length a)%nat as <- by lia. assert (Y + s = length b)%nat as <- by lia. by apply reach_snake.
  - right. exists v'. split_and!; [done|done| |done]. exists (X + s)%nat, (Y + s)%nat.
    split; [done|]. split; [by apply entry_furthest|]. intros [E1 E2]. rewrite E1, E2 in Eend.
    by rewrite !bool_decide_true in Eend.
Qed.

(** The diagonals of one row do not read each other's entries. *)
Lemma before_row_kept v v' d k : on_row d k → before_row v d →
  (∀ j, j ≠ k → ∀ y, ov_index v j = Ok y → ov_index v' j = Ok y) → before_row v' d.
Proof.
  intros [Hk Hp] Hb Hj. destruct d as [|d]; [apply Hj; [lia|done]|]. intros j [Hj1 Hj2].
  destruct (Hb j (conj Hj1 Hj2)) as (X & Y & E & Hf). exists X, Y. split; [|done]. apply Hj; [|done]. intros ->.
  apply Z.even_spec in Hp as [t Ht], Hj2 as [u Hu]. lia.
Qed.

Lemma visit_row_ok steps v (d : nat) k :
  vec_ok v → (d < size)%nat → before_row v d → k = Z.of_nat d + 2 - 2 * Z.of_nat steps → (steps ≤ S d)%nat →
  (∀ j, on_row d j → j < k → diag_done v d j) →
  (visit_row a b steps v (Z.of_nat d) k = Ok None ∧ reach a b d (length a) (length b))
  ∨ ∃ v', visit_row a b steps v (Z.of_nat d) k = Ok (Some v') ∧ vec_ok v' ∧ row_done v' d.
Proof.
  revert v k. induction steps as [|steps IH]; intros v k Hv Hd Hb Ek Hle Hdone; cbn [visit_row].
  - right. exists v. split_and!; [done|done|]. intros j Hj. apply Hdone; [done|]. destruct Hj. lia.
  - assert (on_row d k) as Hk.
    { split; [lia|]. apply Z.even_spec. exists (Z.of_nat d - Z.of_nat steps). lia. }
    destruct (visit_ok v d k Hv Hd Hb Hk) as [[-> Hr]|(v' & -> & Hv' & Hdk & Hj)]; [by left|].
    cbn [mbind outcome_bind]. apply IH; [done|done|by eapply before_row_kept|lia|lia|].
    intros j Hjr Hlt. destruct (decide (j = k)) as [->|Hne]; [done|].
    destruct (Hdone j Hjr) as (X & Y & E & Hf).
    + destruct Hjr as [_ [t Ht]%Z.even_spec]. destruct Hk as [_ [u Hu]%Z.even_spec]. lia.
    + exists X, Y. split; [|done]. by apply Hj.
Qed.

(** A furthest point beyond the end takes more edits than the end. *)
Lemma row_done_not_end v d : (∀ d', (d' < d)%nat → ¬ reach a b d' (length a) (length b)) →
  row_done v d → ¬ reach a b d (length a) (length b).
Proof.
  intros Hmin Hrow Hr. destruct (reach_bounds a b _ _ _ Hr) as [H1 H2].
  destruct (Hrow _ (conj H1 H2)) as (X & Y & _ & (Hk & HrX & Hmax) & Hend). specialize (Hmax _ _ Hr eq_refl).
  destruct (decide (X = length a)) as [->|Hne]; [apply Hend; split; lia|].
  destruct (reach_clip_x a b _ _ _ HrX Hmax) as (d1 & Hr1 & Hd1).
  destruct (reach_clip_y a b _ _ _ Hr1 ltac:(lia)) as (d2 & Hr2 & Hd2). apply (Hmin d2); [lia|done].
Qed.

Lemma rows_from_ok rows v d D : (d + rows = size)%nat → vec_ok v → before_row v d →
  (∀ d', (d' < d)%nat → ¬ reach a b d' (length a) (length b)) → edit_distance a b D →
  rows_from a b rows v d = if decide (D < size)%nat then Ok (Z.of_nat D) else Panic.
Proof.
  intros Hsize Hv Hb Hmin [HD HDmin]. revert v d Hsize Hv Hb Hmin.
  induction rows as [|rows IH]; intros v d Hsize Hv Hb Hmin; cbn [rows_from].
  - destruct (decide _) as [Hlt|]; [|done]. destruct (Hmin D); [lia|by apply reach_end].
  - destruct (visit_row_ok (S d) v d (- Z.of_nat d)) as [[-> Hr]|(v' & -> & Hv' & Hrow)]; [done|lia|done|lia|lia| | |].
    + intros j [Hj _]. lia.
    + cbn [mbind outcome_bind]. apply reach_end in Hr as Hed. specialize (HDmin _ Hed).
      assert (D = d) as ->.
      { destruct (decide (D < d)%nat) as [Hlt|]; [|lia]. destruct (Hmin D Hlt). by apply reach_end. }
      by rewrite decide_True by lia.
    + cbn [mbind outcome_bind]. apply IH; [lia|done|exact Hrow|].
      intros d' Hd'. destruct (decide (d' = d)) as [->|]; [by eapply row_done_not_end|apply Hmin; lia].
Qed.
End correct.

Lemma edits_length {A} (a b : list A) d : edits a b d → (d ≤ length a + length b)%nat.
Proof. induction 1; rewrite ?length_app; cbn; lia. Qed.

Lemma edits_all {A} (a b : list A) : edits a b (length a + length b).
Proof.
  assert (edits [] b (length b)) as Hb.
  { induction b as [|c b IH] using rev_ind; [constructor|]. rewrite length_app. cbn. rewrite Nat.add_1_r. by constructor. }
  induction a as [|c a IH] using rev_ind; [done|]. rewrite length_app. cbn.
  replace (length a + 1 + length b)%nat with (S (length a + length b)) by lia. by constructor.
Qed.

(** C29: [xdiff_dist] gives the least number of insertions and deletions that turn [a] into [b], unless
    [a] and [b] have nothing in common: the loop over [0..m + n] leaves out the distance [m + n], so then,
    and for two empty sequences, it panics. *)
Theorem xdiff_dist_correct {A} `{EqDecision A} (a b : list A) (D : nat) :
  edit_distance a b D →
  xdiff_dist a b = if decide (D < length a + length b)%nat then Ok (Z.of_nat D) else Panic.
Proof.
  intros HD. unfold xdiff_dist. set (size := (length a + length b)%nat).
  destruct (decide (2 ≤ size)%nat) as [Hge|Hlt].
  - apply rows_from_ok; [lia|by split; cbn; [rewrite length_replicate|]| |lia|done].
    unfold before_row, ov_index, filled_with_capacity. cbn [ov_base ov_offset].
    rewrite (proj2 (Z.ltb_ge _ _)) by lia. by rewrite lookup_replicate_2 by lia.
  - destruct a as [|c [|c' a]], b as [|c1 [|c2 b]]; subst size; cbn in Hlt; try lia; cbn.
    all: destruct (decide _) as [HD0|]; [|done].
    1: lia.
    all: assert (D = 0)%nat as -> by lia; destruct HD as [HD _]; apply reach_end, reach_zero in HD as [HD _]; done.
Qed.

(** ** Example *)

Definition old_lines : list string := ["a"; "b"; "c"]%string.
Definition new_lines : list string := ["b"; "c"; "d"]%string.

Lemma xdiff_dist_correct_witness :
  edit_distance old_lines new_lines 2 ∧ xdiff_dist old_lines new_lines = Ok 2 ∧ xdiff_dist ["a"%string] ["b"%string] = Panic.
Proof.
  assert (edit_distance old_lines new_lines 2) as HD.
  { split.
    - change (edits (["a"; "b"]%string ++ ["c"%string]) (["b"; "c"]%string ++ ["d"%string]) 2). apply edits_insert.
      change (edits (["a"; "b"]%string ++ ["c"%string]) (["b"%string] ++ ["c"%string]) 1). apply edits_keep.
      change (edits (["a"%string] ++ ["b"%string]) ([] ++ ["b"%string]) 1). apply edits_keep.
      change (edits ([] ++ ["a"%string]) [] 1). apply edits_delete, edits_nil.
    - intros d Hd. apply reach_end in Hd. destruct d as [|[|d]]; [| |lia].
      + apply reach_zero in Hd as [_ Hd]. destruct (Hd 0%nat ltac:(cbn; lia)) as [_ [=]].
      + apply reach_bounds in Hd as [_ [=]]. }
  split_and!; [done|exact (xdiff_dist_correct old_lines new_lines 2 HD)|reflexivity].
Defined.
