(* ===== verification/Decorations.v ===== *)
(** * Decorations

    [libbit/src/refs/ref_decorations.rs]: the references that [bit log] prints beside a commit, and
    [ls_refs] of [libbit/src/refs/refdb.rs], which lists them.  A [BTreeSet] is a [BTree] map to unit.
    [walkdir] walks the directory of the references; [owo_colors] paints. *)

From Stdlib Require Import ZArith Lia.
From Stdlib Require Import Strings.Byte.
From stdpp Require Import base tactics option list countable strings gmap.
From S2P Require Import Prelude RustStd Data State Io Path Hash BTree Lockfile Refs RefDb.

#[local] Open Scope Z_scope.

Abbreviation BTreeSet K := (list (K * unit)).

(** [BTreeSet::insert], which tells whether the value is new. *)
Definition bset_insert {K} (cmp : K → K → comparison) (k : K) (s : BTreeSet K) : bool * BTreeSet K :=
  (match bt_get cmp k s with Some _ => false | None => true end, bt_insert cmp k tt s).

(** ** ls_refs *)

Section ls_refs.
(** The entries below the directory: an error, or a path and whether it is a directory. *)
Context (walk_dir : BitPath → list (BitResult (BitPath * bool))) (bitdir : BitPath).

Fixpoint insert_refs (entries : list (BitResult (BitPath * bool))) (refs : BTreeSet SymbolicRef) : BitResult (BTreeSet SymbolicRef) :=
  match entries with
  | [] => Ok refs
  | entry :: entries =>
      '(path, is_dir) ← entry;
      if (is_dir : bool) then insert_refs entries refs
      else
        path ← ok_or Anyhow (path_strip_prefix path bitdir);
        sym ← symref_new_valid path;
        let '(new, refs) := bset_insert symref_cmp sym refs in
        _ ← assert_that new;
        insert_refs entries refs
  end.

Definition ls_refs : BitResult (BTreeSet SymbolicRef) :=
  insert_refs (walk_dir (refdb_join bitdir (bs "refs"))) [(SYM_HEAD, tt)].
End ls_refs.

(** ** RefDecoration *)

Inductive RefDecoration := DBranch (branch : SymbolicRef) | DSymbolic (symbolic branch : SymbolicRef).

#[export] Instance RefDecoration_eq_dec : EqDecision RefDecoration.
Proof. solve_decision. Defined.

Definition decoration_cmp (a b : RefDecoration) : comparison :=
  let kind_cmp a b := Z.compare (kind_as_u8 (sym_kind a)) (kind_as_u8 (sym_kind b)) in
  match a, b with
  | DBranch a, DBranch b => then_with (kind_cmp a b) (symref_cmp a b)
  | DBranch _, DSymbolic _ _ => Gt
  | DSymbolic _ _, DBranch _ => Lt
  | DSymbolic a x, DSymbolic b y => then_with (then_with (kind_cmp a b) (symref_cmp a b)) (symref_cmp x y)
  end.

Inductive Color := BrightCyan | Green | Red.

Section display.
(** A text in a colour, bold or not. *)
Context (paint : Color → bool → bytes → bytes).

(** Tags and stashes are left to be done. *)
Definition styled (sym : SymbolicRef) (value : bytes) : BitResult bytes :=
  match sym_kind sym with
  | KHead => Ok (paint BrightCyan true value)
  | KBranch => Ok (paint Green true value)
  | KRemote => Ok (paint Red true value)
  | KTag | KUnknown | KStash => Panic
  end.

Definition short_styled (sym : SymbolicRef) : BitResult bytes := styled sym (symref_short sym).

Definition decoration_display (d : RefDecoration) : BitResult bytes :=
  match d with
  | DBranch branch => short_styled branch
  | DSymbolic symbolic branch =>
      s ← short_styled symbolic;
      b ← short_styled branch;
      Ok (s ++ [x20] ++ paint BrightCyan false (bs "->") ++ [x20] ++ b)
  end.
End display.

(** ** ref_decorations *)

Section decorations.
Context `{Hex} (bitdir : BitPath) (ensure_obj_is_commit : Oid → BitResult unit) (fuel : nat).

Definition calculate_decoration (sym : SymbolicRef) : st Fs (Oid * RefDecoration) :=
  partial ← partially_resolve bitdir ensure_obj_is_commit (Symbolic sym);
  match partial with
  | Direct oid => mret (oid, DBranch sym)
  | Symbolic inner_sym =>
      resolved ← resolve bitdir ensure_obj_is_commit fuel (Symbolic inner_sym);
      match resolved with
      | Direct oid => mret (oid, DSymbolic sym inner_sym)
      | Symbolic _ => st_lift Panic
      end
  end.

Abbreviation Decorations := (gmap (list byte) (BTreeSet RefDecoration)).

(** [decorations.entry(oid).or_default().insert(decoration)]. *)
Definition decorations_insert (oid : Oid) (d : RefDecoration) (m : Decorations) : bool * Decorations :=
  let '(new, s) := bset_insert decoration_cmp d (default [] (m !! oid)) in (new, <[oid := s]> m).

(** The references that a symbolic reference was printed for. *)
Definition mark_handled (d : RefDecoration) (handled : list SymbolicRef) : list SymbolicRef :=
  match d with DSymbolic _ branch => branch :: handled | DBranch _ => handled end.

Fixpoint decorate (refs : list SymbolicRef) (decorations : Decorations) (handled : list SymbolicRef) : st Fs Decorations :=
  match refs with
  | [] => mret decorations
  | sym :: refs =>
      if bool_decide (sym ∈ handled) then decorate refs decorations handled
      else
        '(oid, decoration) ← calculate_decoration sym;
        let '(new, decorations) := decorations_insert oid decoration decorations in
        _ ← st_lift (assert_that new);
        decorate refs decorations (mark_handled decoration handled)
  end.

Definition ref_decorations (refs : BTreeSet SymbolicRef) : st Fs Decorations := decorate refs.*1 ∅ [].
End decorations.

(** ** Lemmas *)

(** The reference that is decorated with. *)
Definition subject (d : RefDecoration) : SymbolicRef := match d with DBranch s => s | DSymbolic s _ => s end.

Lemma symref_cmp_eq a b : symref_cmp a b = Eq → a = b.
Proof.
  unfold symref_cmp. destruct (Z.compare_spec (kind_as_u8 (sym_kind a)) (kind_as_u8 (sym_kind b))) as [Ek| |]; [|done..].
  rewrite then_with_Eq, path_cmp_bytes, bytes_compare_eq. intros Ep. destruct a as [p k], b as [p' k']. cbn in *.
  subst p'. f_equal. by destruct k, k'.
Qed.

Lemma decoration_cmp_subject a b : decoration_cmp a b = Eq → subject a = subject b.
Proof.
  destruct a as [a|a x], b as [b|b y]; cbn; try done; intros E; apply symref_cmp_eq;
    destruct (Z.compare _ _); cbn in E; try done; by destruct (symref_cmp a b).
Qed.

Lemma bt_get_fresh d s : Forall (λ e : RefDecoration * unit, subject e.1 ≠ subject d) s → bt_get decoration_cmp d s = None.
Proof.
  induction 1 as [|[d' []] s Hd _ IH]; [done|]. cbn. destruct (decoration_cmp d d') eqn:E; [|done..].
  apply decoration_cmp_subject in E. cbn in Hd. congruence.
Qed.

Lemma bt_insert_forall P d (s : BTreeSet RefDecoration) : P (d, tt) → Forall P s → Forall P (bt_insert decoration_cmp d tt s).
Proof.
  intros Hd. induction 1 as [|[d' []] s Hp Hs IH]; cbn; [by repeat constructor|].
  destruct (decoration_cmp d d'); repeat constructor; done.
Qed.

Section theorems.
Context `{Hex} (bitdir : BitPath) (ensure_obj_is_commit : Oid → BitResult unit) (fuel : nat).

Lemma calculate_subject sym fs oid d fs' :
  calculate_decoration bitdir ensure_obj_is_commit fuel sym fs = (Ok (oid, d), fs') → subject d = sym.
Proof.
  unfold calculate_decoration, mbind, st_bind. destruct (partially_resolve _ _ _ fs) as [[[o|s]| |] fs1]; [| |done..].
  - by intros [= _ <- _].
  - destruct (resolve _ _ _ _ fs1) as [[[o|s']| |] fs2]; [|done..]. by intros [= _ <- _].
Qed.

(** The assertion in [ref_decorations] holds: when no reference makes [calculate_decoration] panic, in
    the states that the walk goes through, the whole does not panic. *)
Lemma ref_decorations_no_panic (I : Fs → Prop) (refs : BTreeSet SymbolicRef) :
  NoDup refs.*1 →
  (∀ sym fs, sym ∈ refs.*1 → I fs →
    fst (calculate_decoration bitdir ensure_obj_is_commit fuel sym fs) ≠ Panic
    ∧ I (snd (calculate_decoration bitdir ensure_obj_is_commit fuel sym fs))) →
  ∀ fs, I fs → fst (ref_decorations bitdir ensure_obj_is_commit fuel refs fs) ≠ Panic.
Proof.
  unfold ref_decorations. generalize refs.*1. intros l Hnd Hcalc fs HI.
  assert (∀ m handled, map_Forall (λ _ s, Forall (λ e : RefDecoration * unit, subject e.1 ∉ l) s) m →
    fst (decorate bitdir ensure_obj_is_commit fuel l m handled fs) ≠ Panic) as Hgen; [|by apply Hgen, map_Forall_empty].
  revert fs HI. induction Hnd as [|sym l Hsym Hnd IH]; intros fs HI m handled Hm; [done|]. cbn [decorate].
  assert (map_Forall (λ _ s, Forall (λ e : RefDecoration * unit, subject e.1 ∉ l) s) m) as Hm'.
  { eapply map_Forall_impl; [exact Hm|]. intros o s Hs. eapply Forall_impl; [exact Hs|]. cbn. set_solver. }
  case_bool_decide; [apply IH; [by intros; apply Hcalc; [right|]|done|done]|].
  destruct (Hcalc sym fs ltac:(by left) HI) as [Hc HI'].
  unfold mbind at 1, st_bind at 1. destruct (calculate_decoration _ _ _ sym fs) as [[[oid d]| |] fs1] eqn:E; [|done..].
  apply calculate_subject in E as Hd. unfold decorations_insert, bset_insert.
  assert (Forall (λ e : RefDecoration * unit, subject e.1 ≠ subject d) (default [] (m !! oid))) as Hfresh.
  { destruct (m !! oid) as [s|] eqn:Es; [|by constructor]. cbn. specialize (Hm oid s Es). cbn in Hm.
    eapply Forall_impl; [exact Hm|]. cbn. set_solver. }
  rewrite bt_get_fresh by done. cbn [assert_that]. rewrite st_lift_bind. apply IH; [by intros; apply Hcalc; [right|]|done|].
  apply map_Forall_insert_2; [|done]. apply bt_insert_forall; [cbn; by rewrite Hd|].
  destruct (m !! oid) as [s|] eqn:Es; [|by constructor]. exact (Hm' oid s Es).
Qed.
End theorems.

(** ** Examples *)

Definition sym_origin_head : SymbolicRef := symref_new (bs "refs/remotes/origin/HEAD").
Definition sym_origin_v1 : SymbolicRef := symref_new (bs "refs/remotes/origin/1.0").
Definition tip : bytes := bs "4b825dc642cb6eb9a060e54bf8d69288fbee4904".

Definition cloned_repo : Fs :=
  mk_Fs {[ bs "/git/HEAD" := NFile 0; bs "/git/refs/heads/master" := NFile 1; bs "/git/refs/remotes/origin/HEAD" := NFile 2;
           bs "/git/refs/remotes/origin/1.0" := NFile 3; bs "/git" := NDir; bs "/git/refs/heads" := NDir;
           bs "/git/refs/remotes/origin" := NDir ]}
    {[ 0%nat := mk_Inode (bs "ref: refs/heads/master") false; 1%nat := mk_Inode tip false;
       2%nat := mk_Inode (bs "ref: refs/remotes/origin/1.0") false; 3%nat := mk_Inode tip false ]} 4.

Definition cloned_refs : BTreeSet SymbolicRef :=
  bt_from_list symref_cmp ((λ s, (s, tt)) <$> [SYM_HEAD; sym_master; sym_origin_head; sym_origin_v1]).

(** A remote branch whose name is less than [HEAD] is decorated with twice, alone and as what the
    remote's [HEAD] points at. *)
Theorem remote_branch_decorated_twice :
  (λ m, snd <$> map_to_list m) <$> fst (ref_decorations (bs "/git") (λ _, Ok tt) 5 cloned_refs cloned_repo)
  = Ok [[(DSymbolic SYM_HEAD sym_master, tt); (DSymbolic sym_origin_head sym_origin_v1, tt); (DBranch sym_origin_v1, tt)]].
Proof. vm_compute. reflexivity. Qed.
