(* ===== verification/StatusDisplay.v ===== *)
(** * StatusDisplay

    What [bit status] prints ([Display for BitStatus] in [libbit/src/status.rs]), with the colours of
    [owo_colors] as parameters. *)

From Stdlib Require Import ZArith Lia.
From Stdlib Require Import Strings.Byte.
From stdpp Require Import base tactics option list countable strings.
From S2P Require Import TreeIter TreeDiff.
From S2P Require Import Prelude RustStd Data Hash Path Refs IndexEntry Index IndexDiff Status.

#[local] Open Scope Z_scope.

Section display.
Context `{Hex} (green red : bytes → bytes).

Definition line (s : bytes) : bytes := s ++ [x0a].

(** [is_unmerged]; the two bits of the flags always are a stage ([flags_stage_total]). *)
Definition entry_unmerged (e : BitIndexEntry) : bool :=
  match entry_stage e with Ok stage => is_unmerged stage | _ => false end.
Definition filter_unmerged (l : list BitIndexEntry) : list BitIndexEntry := List.filter (λ e, negb (entry_unmerged e)) l.

Definition is_initial (s : BitStatus) : bool := bst_initial s.

Definition fmt_state (s : BitStatus) : bytes :=
  (match bst_head s with
   | Direct oid => line (bs "HEAD detached at `" ++ oid_display oid ++ bs "`")
   | Symbolic branch => line (bs "On branch `" ++ symref_short branch ++ bs "`")
   end)
  ++ line []
  ++ (if bool_decide (bst_conflicted s = []) then []
      else line (bs "You have unmerged paths")
           ++ line (bs "  (fix conflicts and run `bit commit`)")
           ++ line (bs "  (use `bit merge --abort` to abort the merge)")
           ++ line []).

(** A change of a path, as it is printed. *)
Definition change_line (paint : bytes → bytes) (what : bytes) (e : BitIndexEntry) : bytes :=
  line ([x09] ++ paint what ++ bs ":   " ++ paint (ie_path e)).

Definition fmt_staged (s : BitStatus) : bytes :=
  let new := filter_unmerged (ws_new (bst_staged s)) in
  let modified := List.filter (λ p, negb (entry_unmerged p.2)) (ws_modified (bst_staged s)) in
  let deleted := filter_unmerged (ws_deleted (bst_staged s)) in
  if bool_decide (new = []) && bool_decide (modified = []) && bool_decide (deleted = []) then []
  else
    line (bs "Changes to be committed")
    ++ line (bs "  (use `bit restore --staged <file>...` to unstage) (unimplemented)")
    ++ concat (change_line green (bs "new file") <$> new)
    ++ concat (change_line green (bs "modified") ∘ snd <$> modified)
    ++ concat (change_line green (bs "deleted") <$> deleted)
    ++ line [].

Definition fmt_unstaged (s : BitStatus) : bytes :=
  let modified := List.filter (λ p, negb (entry_unmerged p.1)) (ws_modified (bst_unstaged s)) in
  let deleted := filter_unmerged (ws_deleted (bst_unstaged s)) in
  let untracked := filter_unmerged (ws_new (bst_unstaged s)) in
  (if negb (bool_decide (modified = [])) || negb (bool_decide (deleted = [])) then
     line (bs "Changes not staged for commit")
     ++ line (bs "  (use `bit add <file>...` to update what will be committed)")
     ++ line (bs "  (use 'bit restore <file>...' to discard changes in working directory)")
     ++ concat (change_line red (bs "modified") ∘ snd <$> modified)
     ++ concat (change_line red (bs "deleted") <$> deleted)
     ++ line []
   else [])
  ++ (if bool_decide (untracked = []) then []
      else line (bs "Untracked files:")
           ++ line (bs "  (use `bit add <file>...` to include in what will be committed)")
           ++ concat ((λ e, line ([x09] ++ red (ie_path e))) <$> untracked)
           ++ line []).

(** [Display for ConflictType] and [Display for Conflict]. *)
Definition conflict_type_display (t : ConflictType) : bytes :=
  match t with
  | BothModified => bs "both modified"
  | BothAdded => bs "both added"
  | ModifyDelete => bs "deleted by them"
  | DeleteModify => bs "deleted by us"
  | AddedByUs => bs "added by us"
  | AddedByThem => bs "added by them"
  end.

Definition conflict_display (c : BitPath * ConflictType) : bytes := conflict_type_display c.2 ++ bs ":" ++ [x09] ++ c.1.

Definition fmt_unmerged (s : BitStatus) : bytes :=
  if bool_decide (bst_conflicted s = []) then []
  else line (bs "Unmerged paths:")
       ++ line (bs "  (use `bit add <file>...` to mark resolution)")
       ++ concat ((λ c, line ([x09] ++ red (conflict_display c))) <$> bst_conflicted s)
       ++ line [].

Definition NO_CHANGES_ADDED : bytes := bs "no changes added to commit (use `bit add`) to stage".
Definition NOTHING_TO_COMMIT : bytes := bs "nothing to commit (create/copy files and use `bit add` to track)".
Definition UNTRACKED_PRESENT : bytes := bs "nothing added to commit but untracked files present (use `git add` to track)".
Definition TREE_CLEAN : bytes := bs "nothing to commit, working tree clean".

Definition fmt_summary (s : BitStatus) : bytes :=
  if negb (status_is_empty (bst_unstaged s)) && status_is_empty (bst_staged s) then NO_CHANGES_ADDED
  else if bit_status_is_empty s then
    if is_initial s then NOTHING_TO_COMMIT
    else if negb (bool_decide (ws_new (bst_unstaged s) = [])) then UNTRACKED_PRESENT
    else TREE_CLEAN
  else [].

Definition status_display (s : BitStatus) : bytes :=
  fmt_state s ++ fmt_staged s ++ fmt_unstaged s ++ fmt_unmerged s ++ fmt_summary s.
End display.

(** The summary line: [TREE_CLEAN] exactly when nothing is staged or changed, tracked or not, and
    there is a commit; the line for a worktree that has only untracked files is never printed, it gets
    the line for changes that are not added. *)
Theorem fmt_summary_correct s :
  fmt_summary s =
    match status_is_empty (bst_staged s), status_is_empty (bst_unstaged s) with
    | true, true => if is_initial s then NOTHING_TO_COMMIT else TREE_CLEAN
    | true, false => NO_CHANGES_ADDED
    | false, _ => []
    end
  ∧ fmt_summary s ≠ UNTRACKED_PRESENT.
Proof.
  assert (fmt_summary s =
    match status_is_empty (bst_staged s), status_is_empty (bst_unstaged s) with
    | true, true => if is_initial s then NOTHING_TO_COMMIT else TREE_CLEAN
    | true, false => NO_CHANGES_ADDED
    | false, _ => []
    end) as E.
  { unfold fmt_summary, bit_status_is_empty. destruct (status_is_empty (bst_staged s)); cbn [andb]; [|by rewrite andb_false_r].
    rewrite andb_true_r. destruct (status_is_empty (bst_unstaged s)) eqn:Eu; [|done]. cbn [negb].
    apply andb_true_iff in Eu as [[En _]%andb_true_iff _]. by rewrite En. }
  split; [exact E|]. rewrite E.
  destruct (status_is_empty (bst_staged s)), (status_is_empty (bst_unstaged s)), (is_initial s); by vm_compute.
Qed.
