(* ===== verification/DiffFormat.v ===== *)
(** * DiffFormat

    [libbit/src/xdiff/format.rs]: how a diff is printed, as patches and as statistics.  The patches are
    made and written by the crate [diffy], whose lines are a parameter. *)

From Stdlib Require Import ZArith Lia.
From Stdlib Require Import Strings.Byte.
From Stdlib Require Import Floats.SpecFloat.
From stdpp Require Import base tactics option list countable strings gmap.
From S2P Require Import TreeIter TreeDiff.
From S2P Require Import Prelude RustStd Data State Io Hash Path BTree Obj IndexEntry IndexDiff Worktree.

#[local] Open Scope Z_scope.

(** ** Floating point numbers

    [f64], [as f64], [ceil] of a number that is not negative, and [as usize], which saturates. *)

Definition f64 : Type := spec_float.
Definition f64_of_Z (n : Z) : f64 := binary_normalize 53 1024 n 0 false.
Definition f64_mul : f64 → f64 → f64 := SFmul 53 1024.
Definition f64_div : f64 → f64 → f64 := SFdiv 53 1024.

Definition ceil_as_usize (x : f64) : Z :=
  match x with
  | S754_finite false m e =>
      Z.min u64_max (if 0 <=? e then Z.pos m * 2 ^ e else - ((- Z.pos m) / 2 ^ (- e)))
  | S754_infinity false => u64_max
  | _ => 0
  end.

(** [diffy::Line]. *)
Inductive PatchLine := Context_ | Delete | Insert.

Section format.
Context {Patch : Type} (create_patch_bytes : bytes → bytes → Patch) (patch_lines : Patch → list PatchLine).
(** A patch with the names of the two files. *)
Context (write_patch : bytes → bytes → Patch → bytes).
(** The object store, the worktree and the hash of a file of it. *)
Context `{Hex} (read_blob : Oid → BitResult bytes) (w : Worktree).
Context (hash_blob_from_worktree : BitPath → BitResult Oid).

Definition xdiff : bytes → bytes → Patch := create_patch_bytes.

(** ** DiffFormatter *)

Record DiffFormatter := mk_DiffFormatter { df_out : bytes }.

Definition df_write (s : bytes) : st DiffFormatter unit := λ f, (Ok tt, mk_DiffFormatter (df_out f ++ s)).
Definition df_writeln (s : bytes) : st DiffFormatter unit := df_write (s ++ [x0a]).

Definition fmt_created (new : BitIndexEntry) : st DiffFormatter unit :=
  new_txt ← st_lift (read_to_bytes read_blob w new);
  let patch := xdiff [] new_txt in
  let a := join (bs "a") (ie_path new) in
  let b := join (bs "b") (ie_path new) in
  _ ← df_writeln (bs "diff --git " ++ a ++ [x20] ++ b);
  _ ← df_writeln (bs "new file mode " ++ filemode_display false (ie_mode new));
  _ ← df_writeln (bs "index " ++ oid_short UNKNOWN ++ bs ".." ++ oid_short (ie_oid new));
  df_write (write_patch (bs "/dev/null") b patch).

Definition fmt_modified (old new : BitIndexEntry) : st DiffFormatter unit :=
  old_txt ← st_lift (read_to_bytes read_blob w old);
  new_txt ← st_lift (read_to_bytes read_blob w new);
  let patch := xdiff old_txt new_txt in
  let a := join (bs "a") (ie_path old) in
  let b := join (bs "b") (ie_path new) in
  _ ← df_writeln (bs "diff --git " ++ a ++ [x20] ++ b);
  new_oid ← st_lift (if is_known (ie_oid new) then Ok (ie_oid new) else hash_blob_from_worktree (ie_path new));
  _ ← df_writeln (bs "index " ++ oid_short (ie_oid old) ++ bs ".." ++ oid_short new_oid ++ [x20]
                    ++ filemode_display false (ie_mode new));
  df_write (write_patch a b patch).

Definition fmt_deleted (old : BitIndexEntry) : st DiffFormatter unit :=
  old_txt ← st_lift (read_to_bytes read_blob w old);
  let patch := xdiff old_txt [] in
  let a := join (bs "a") (ie_path old) in
  let b := join (bs "b") (ie_path old) in
  _ ← df_writeln (bs "diff --git " ++ a ++ [x20] ++ b);
  _ ← df_writeln (bs "deleted file mode " ++ filemode_display false (ie_mode old));
  _ ← df_writeln (bs "index " ++ oid_short (ie_oid old) ++ bs ".." ++ oid_short UNKNOWN);
  df_write (write_patch a (bs "/dev/null") patch).

#[export] Instance diff_formatter : Differ DiffFormatter := {
  differ_on_created := fmt_created;
  differ_on_modified := fmt_modified;
  differ_on_deleted := fmt_deleted;
}.

Definition format_diff_into (status : WorkspaceStatus) : BitResult bytes :=
  let '(r, f) := apply_with status (mk_DiffFormatter []) in _ ← r; Ok (df_out f).

(** ** DiffStatFormatter *)

Record DiffStatLine := mk_DiffStatLine { dl_path : BitPath; dl_insertions : Z; dl_deletions : Z }.

Fixpoint count_lines (lines : list PatchLine) (insertions deletions : Z) : Z * Z :=
  match lines with
  | [] => (insertions, deletions)
  | Context_ :: lines => count_lines lines insertions deletions
  | Delete :: lines => count_lines lines insertions (deletions + 1)
  | Insert :: lines => count_lines lines (insertions + 1) deletions
  end.

Definition from_patch (path : BitPath) (patch : Patch) : DiffStatLine :=
  let '(insertions, deletions) := count_lines (patch_lines patch) 0 0 in mk_DiffStatLine path insertions deletions.

(** The derived order: field by field. *)
Definition line_key (l : DiffStatLine) : BitPath * (Z * Z) := (dl_path l, (dl_insertions l, dl_deletions l)).
Definition line_cmp (a b : DiffStatLine) : comparison :=
  pair_cmp path_cmp (pair_cmp Z.compare Z.compare) (line_key a) (line_key b).

Record DiffStatFormatter := mk_DiffStatFormatter {
  diffstat_lines : list (DiffStatLine * unit);
  max_path_len : Z;
  max_changes : Z;
  total_insertions : Z;
  total_deletions : Z;
}.

Definition diff_stat_new : DiffStatFormatter := mk_DiffStatFormatter [] 0 0 0 0.

Definition add_line (line : DiffStatLine) : st DiffStatFormatter unit := λ f,
  (Ok tt, mk_DiffStatFormatter
    (bt_insert line_cmp line tt (diffstat_lines f))
    (Z.max (max_path_len f) (Z.of_nat (length (dl_path line))))
    (Z.max (max_changes f) (wrap 64 (dl_insertions line + dl_deletions line)))
    (wrap 64 (total_insertions f + dl_insertions line))
    (wrap 64 (total_deletions f + dl_deletions line))).

Definition stat_created (new : BitIndexEntry) : BitResult DiffStatLine :=
  new_txt ← read_to_bytes read_blob w new;
  Ok (from_patch (ie_path new) (xdiff [] new_txt)).

Definition stat_modified (old new : BitIndexEntry) : BitResult DiffStatLine :=
  old_txt ← read_to_bytes read_blob w old;
  new_txt ← read_to_bytes read_blob w new;
  Ok (from_patch (ie_path old) (xdiff old_txt new_txt)).

Definition stat_deleted (old : BitIndexEntry) : BitResult DiffStatLine :=
  old_txt ← read_to_bytes read_blob w old;
  Ok (from_patch (ie_path old) (xdiff old_txt [])).

#[export] Instance diff_stat_formatter : Differ DiffStatFormatter := {
  differ_on_created new := line ← st_lift (stat_created new); add_line line;
  differ_on_modified old new := line ← st_lift (stat_modified old new); add_line line;
  differ_on_deleted old := line ← st_lift (stat_deleted old); add_line line;
}.

(** *** [Display for DiffStat] *)

Context (terminal_size : option Z) (green red : bytes → bytes).

Definition pluralize (count : Z) : bytes := if count =? 1 then [] else bs "s".

Definition remaining_width (f : DiffStatFormatter) : Z :=
  wrap 64 (wrap 64 (default 80 terminal_size - max_path_len f) - 10).

Definition bar_scale (f : DiffStatFormatter) : f64 :=
  if remaining_width f <? max_changes f then f64_div (f64_of_Z (remaining_width f)) (f64_of_Z (max_changes f))
  else f64_of_Z 1.

Definition bar (scale : f64) (n : Z) : Z := ceil_as_usize (f64_mul (f64_of_Z n) scale).

Definition fmt_line (f : DiffStatFormatter) (line : DiffStatLine) : bytes :=
  let changes := wrap 64 (dl_insertions line + dl_deletions line) in
  let max_change_width := Z.of_nat (length (print_dec (max_changes f))) in
  let repeat c n := replicate (Z.to_nat n) c in
  [x20] ++ dl_path line ++ [x20]
  ++ repeat x20 (wrap 64 (max_path_len f - Z.of_nat (length (dl_path line)))) ++ bs "| "
  ++ repeat x20 (wrap 64 (max_change_width - Z.of_nat (length (print_dec changes)))) ++ print_dec changes ++ [x20]
  ++ green (repeat x2b (bar (bar_scale f) (dl_insertions line)))
  ++ red (repeat x2d (bar (bar_scale f) (dl_deletions line))) ++ [x0a].

Definition diff_stat_display (f : DiffStatFormatter) : bytes :=
  concat (fmt_line f ∘ fst <$> diffstat_lines f)
  ++ [x20] ++ print_dec (Z.of_nat (length (diffstat_lines f))) ++ bs " files changed, "
  ++ print_dec (total_insertions f) ++ bs " insertion" ++ pluralize (total_insertions f) ++ bs "(+), "
  ++ print_dec (total_deletions f) ++ bs " deletion" ++ pluralize (total_deletions f) ++ bs "(-)".

Definition format_diffstat_into (status : WorkspaceStatus) : BitResult bytes :=
  let '(r, f) := apply_with (H := diff_stat_formatter) status diff_stat_new in _ ← r; Ok (diff_stat_display f).
End format.

(** ** Lemmas *)

#[export] Instance Z_ord_laws : OrdLaws Z.compare.
Proof.
  split; [apply Z.compare_eq_iff|intros a b; apply Z.compare_antisym|].
  intros a b c. rewrite !Z.compare_lt_iff. lia.
Qed.

#[export] Instance line_ord_laws : OrdLaws line_cmp.
Proof.
  assert (OrdLaws (pair_cmp path_cmp (pair_cmp Z.compare Z.compare))) as L by apply _.
  split; unfold line_cmp.
  - intros a b. rewrite (ord_eq _). split; [|by intros ->]. destruct a, b. unfold line_key. cbn. congruence.
  - intros a b. apply (ord_antisym _).
  - intros a b c. apply (ord_trans _).
Qed.

#[export] Instance DiffStatLine_eq_dec : EqDecision DiffStatLine.
Proof. solve_decision. Defined.

Definition sum_insertions (ls : list DiffStatLine) : Z := foldr Z.add 0 (dl_insertions <$> ls).
Definition sum_deletions (ls : list DiffStatLine) : Z := foldr Z.add 0 (dl_deletions <$> ls).

(** What the formatter has collected. *)
Definition collected (f : DiffStatFormatter) (ls : list DiffStatLine) : Prop :=
  bt_sorted line_cmp (diffstat_lines f)
  ∧ (∀ l, (l, tt) ∈ diffstat_lines f ↔ l ∈ ls)
  ∧ max_path_len f = foldr Z.max 0 ((λ l, Z.of_nat (length (dl_path l))) <$> ls)
  ∧ max_changes f = foldr Z.max 0 ((λ l, wrap 64 (dl_insertions l + dl_deletions l)) <$> ls)
  ∧ total_insertions f = wrap 64 (sum_insertions ls)
  ∧ total_deletions f = wrap 64 (sum_deletions ls).

Lemma foldr_max_snoc l x : foldr Z.max 0 (l ++ [x]) = Z.max (foldr Z.max 0 l) (Z.max x 0).
Proof. induction l as [|y l IH]; cbn; [lia|]. rewrite IH. lia. Qed.

Lemma foldr_add_snoc l x : foldr Z.add 0 (l ++ [x]) = foldr Z.add 0 l + x.
Proof. induction l as [|y l IH]; cbn; [lia|]. rewrite IH. lia. Qed.

Lemma add_line_collected f ls l : collected f ls → ∃ f', add_line l f = (Ok tt, f') ∧ collected f' (ls ++ [l]).
Proof.
  intros (H1 & H2 & H3 & H4 & H5 & H6). eexists. split; [done|]. unfold collected, sum_insertions, sum_deletions in *.
  cbn [diffstat_lines max_path_len max_changes total_insertions total_deletions].
  rewrite !fmap_app, !fmap_cons, !fmap_nil, !foldr_max_snoc, !foldr_add_snoc, H3, H4, H5, H6. split_and!.
  - apply (bt_sorted_insert line_cmp). exact H1.
  - intros l'. rewrite (elem_of_bt_insert line_cmp) by done. rewrite elem_of_app, list_elem_of_singleton, <- H2. cbn.
    destruct (decide (l' = l)) as [->|Hne]; [split; intros _; [by right|by left]|].
    split; [intros [E|[Hin _]]; [congruence|by left]|intros [Hin|?]; [by right|done]].
  - lia.
  - unfold wrap. pose proof (Z.mod_pos_bound (dl_insertions l + dl_deletions l) (2 ^ 64) ltac:(lia)). lia.
  - unfold wrap. by rewrite Zplus_mod_idemp_l.
  - unfold wrap. by rewrite Zplus_mod_idemp_l.
Qed.

Section theorems.
Context {Patch : Type} (create_patch_bytes : bytes → bytes → Patch) (patch_lines : Patch → list PatchLine).
Context (read_blob : Oid → BitResult bytes) (w : Worktree).

#[local] Abbreviation created := (stat_created create_patch_bytes patch_lines read_blob w).
#[local] Abbreviation modified := (stat_modified create_patch_bytes patch_lines read_blob w).
#[local] Abbreviation deleted := (stat_deleted create_patch_bytes patch_lines read_blob w).

Lemma for_each_collected {A} (g : A → BitResult DiffStatLine) (xs : list A) ls f prev :
  collected f prev → Forall2 (λ x l, g x = Ok l) xs ls →
  ∃ f', st_for_each (λ x, line ← st_lift (g x); add_line line) xs f = (Ok tt, f') ∧ collected f' (prev ++ ls).
Proof.
  intros Hf Hall. revert f prev Hf. induction Hall as [|x l xs ls Hx _ IH]; intros f prev Hf; cbn [st_for_each].
  - exists f. by rewrite app_nil_r.
  - destruct (add_line_collected f prev l Hf) as (f1 & E & H1). rewrite (st_bind_ok _ _ f f1 tt).
    2: { by rewrite Hx, st_lift_bind. }
    destruct (IH f1 _ H1) as (f' & E' & H'). exists f'. split; [exact E'|]. by rewrite <- app_assoc in H'.
Qed.

(** The statistics of a diff have one line for each file, in the order of the paths, with the
    insertions and deletions of its patch; the totals are their sums, in 64 bits, and the widths that the
    lines are aligned to are the greatest ones. *)
Theorem diffstat_correct (status : WorkspaceStatus) ds ms cs :
  Forall2 (λ e l, deleted e = Ok l) (ws_deleted status) ds →
  Forall2 (λ p l, modified p.1 p.2 = Ok l) (ws_modified status) ms →
  Forall2 (λ e l, created e = Ok l) (ws_new status) cs →
  ∃ f, apply_with (H := diff_stat_formatter create_patch_bytes patch_lines read_blob w) status diff_stat_new = (Ok tt, f)
    ∧ collected f (ds ++ ms ++ cs).
Proof.
  intros Hd Hm Hc. unfold apply_with. cbn [differ_on_deleted differ_on_modified differ_on_created diff_stat_formatter].
  assert (collected diff_stat_new []) as H0 by (split_and!; [constructor|intros l; by rewrite !elem_of_nil|done..]).
  destruct (for_each_collected deleted _ _ diff_stat_new [] H0 Hd) as (f1 & E1 & H1).
  destruct (for_each_collected (λ p, modified p.1 p.2) _ _ f1 _ H1 Hm) as (f2 & E2 & H2).
  destruct (for_each_collected created _ _ f2 _ H2 Hc) as (f3 & E3 & H3).
  exists f3. rewrite (st_bind_ok _ _ _ _ _ E1), (st_bind_ok _ _ _ _ _ E2). split; [exact E3|].
  cbn [app] in H3. by rewrite <- app_assoc in H3.
Qed.
End theorems.

(** When a path is longer than the line leaves room for, the room wraps around to a number that is
    greater than the changes, and the bars are not scaled: they are as long as the changes are many. *)
Theorem long_path_is_not_scaled terminal_size (f : DiffStatFormatter) :
  0 ≤ default 80 terminal_size < max_path_len f + 10 → max_path_len f + 10 ≤ 2 ^ 63 → 0 ≤ max_path_len f →
  max_changes f < 2 ^ 63 → bar_scale terminal_size f = f64_of_Z 1.
Proof.
  intros [Hw Hlt] Hp Hp0 Hc. unfold bar_scale. rewrite (proj2 (Z.ltb_ge _ _)); [done|]. unfold remaining_width, wrap.
  rewrite Zminus_mod_idemp_l.
  rewrite <- (Z_mod_plus_full _ 1). rewrite Z.mod_small; lia.
Qed.

(** ** Example *)

Definition sample_stat (n : Z) : DiffStatFormatter :=
  mk_DiffStatFormatter [(mk_DiffStatLine (replicate 75 x61) n 0, tt)] 75 n n 0.

Lemma long_path_is_not_scaled_witness :
  bar_scale None (sample_stat 1000) = f64_of_Z 1 ∧ bar (bar_scale None (sample_stat 1000)) 1000 = 1000
  ∧ bar (bar_scale (Some 100) (sample_stat 1000)) 1000 = 15.
Proof.
  split; [apply (long_path_is_not_scaled None (sample_stat 1000)); cbn; lia|]. split; vm_compute; reflexivity.
Defined.

Lemma diffstat_correct_witness :
  let e := mk_BitIndexEntry (mk_Timespec 0 0) (mk_Timespec 0 0) 0 0 REG 0 0 0 (replicate 20 x01) 0 0 (bs "a") in
  let create a b : list PatchLine := replicate (length a) Delete ++ replicate (length b) Insert in
  ∃ f, apply_with (H := diff_stat_formatter create id (λ _, Ok (bs "xy")) (∅ : Worktree))
         (mk_WorkspaceStatus [] [(e, e)] []) diff_stat_new = (Ok tt, f)
    ∧ total_insertions f = 2 ∧ total_deletions f = 2 ∧ max_changes f = 4.
Proof.
  intros e create.
  destruct (diffstat_correct create id (λ _, Ok (bs "xy")) (∅ : Worktree) (mk_WorkspaceStatus [] [(e, e)] [])
    [] [mk_DiffStatLine (bs "a") 2 2] [] ltac:(constructor) ltac:(repeat constructor) ltac:(constructor))
    as (f & E & _ & _ & _ & Ec & Ei & Ed).
  exists f. split_and!; [exact E|by rewrite Ei|by rewrite Ed|by rewrite Ec].
Defined.
