(* ===== verification/FileBuffer.v ===== *)
(** * FileBuffer

    [FileBufferReader] of [libbit/src/io.rs], the reader that indexes a pack: it gives the contents of a
    mapped file in slices of [buf_size] bytes.  The crate [filebuffer] maps the file; here it is its
    bytes.  The theorem is that what the program reads through it is the stream of the bytes of the file
    that the models of the readers take. *)

From Stdlib Require Import ZArith Lia.
From Stdlib Require Import Strings.Byte.
From stdpp Require Import base tactics option list countable strings.
From S2P Require Import Prelude RustStd Data State Io.

Record FileBufferReader := mk_FileBufferReader { fb_buffer : bytes; fb_offset : nat; fb_buf_size : nat }.

Definition DEFAULT_BUF_SIZE : nat := 8 * 1024.

Definition file_buffer_new (contents : bytes) : FileBufferReader := mk_FileBufferReader contents 0 DEFAULT_BUF_SIZE.

(** A range whose end is before its start panics. *)
Definition as_partial_slice (r : FileBufferReader) : BitResult bytes :=
  let upper := Nat.min (fb_offset r + fb_buf_size r) (length (fb_buffer r)) in
  if (fb_offset r <=? upper)%nat then Ok (take (upper - fb_offset r) (drop (fb_offset r) (fb_buffer r))) else Panic.

Definition fb_consume (amt : nat) (r : FileBufferReader) : FileBufferReader :=
  mk_FileBufferReader (fb_buffer r) (fb_offset r + amt) (fb_buf_size r).

(** [Read::read] into a buffer of [len] bytes, and [BufRead::fill_buf]. *)
Definition fb_read (len : nat) : st FileBufferReader bytes :=
  r ← st_get;
  slice ← st_lift (as_partial_slice r);
  let got := take len slice in
  _ ← st_put (fb_consume (length got) r);
  mret got.

Definition fb_fill_buf : st FileBufferReader bytes := r ← st_get; st_lift (as_partial_slice r).

(** ** What the standard library makes of them

    [Read::read_exact] and [BufRead::read_until]. *)

Fixpoint fb_read_exact (fuel len : nat) : st FileBufferReader bytes :=
  match fuel with
  | O => st_lift Panic
  | S fuel =>
      if (len =? 0)%nat then mret []
      else
        got ← fb_read len;
        if bool_decide (got = []) then st_lift (Err Anyhow)
        else rest ← fb_read_exact fuel (len - length got); mret (got ++ rest)
  end.

Fixpoint fb_read_until (fuel : nat) (delim : byte) : st FileBufferReader bytes :=
  match fuel with
  | O => st_lift Panic
  | S fuel =>
      available ← fb_fill_buf;
      r ← st_get;
      match find_byte delim available with
      | Some i => _ ← st_put (fb_consume (S i) r); mret (take (S i) available)
      | None =>
          _ ← st_put (fb_consume (length available) r);
          if bool_decide (available = []) then mret []
          else rest ← fb_read_until fuel delim; mret (available ++ rest)
      end
  end.

(** ** The readers are those of the bytes not read yet *)

Definition unread (r : FileBufferReader) : bytes := drop (fb_offset r) (fb_buffer r).

Definition fb_ok (r : FileBufferReader) : Prop := 0 < fb_buf_size r ∧ fb_offset r ≤ length (fb_buffer r).

Lemma file_buffer_new_ok contents : fb_ok (file_buffer_new contents) ∧ unread (file_buffer_new contents) = contents.
Proof. split; [|done]. split; simpl; unfold DEFAULT_BUF_SIZE; lia. Qed.

Lemma unread_consume n r : unread (fb_consume n r) = drop n (unread r).
Proof. unfold unread, fb_consume. simpl. by rewrite drop_drop. Qed.

Lemma unread_length r : length (unread r) = length (fb_buffer r) - fb_offset r.
Proof. apply length_drop. Qed.

Lemma fb_ok_consume n r : fb_ok r → n ≤ length (unread r) → fb_ok (fb_consume n r).
Proof. rewrite unread_length. intros [Hb Ho] Hn. split; simpl; [done|lia]. Qed.

Lemma fb_consume_add n m r : fb_consume m (fb_consume n r) = fb_consume (n + m) r.
Proof. unfold fb_consume. simpl. f_equal. lia. Qed.

Lemma as_partial_slice_ok r : fb_ok r → as_partial_slice r = Ok (take (fb_buf_size r) (unread r)).
Proof.
  intros [Hb Ho]. unfold as_partial_slice, unread.
  destruct (Nat.leb_spec (fb_offset r) (Nat.min (fb_offset r + fb_buf_size r) (length (fb_buffer r)))); [|lia].
  f_equal. destruct (decide (fb_offset r + fb_buf_size r ≤ length (fb_buffer r))).
  - f_equal. lia.
  - rewrite !take_ge; [done| |]; rewrite length_drop; lia.
Qed.

Lemma fb_read_ok len r : fb_ok r →
  fb_read len r = (Ok (take (Nat.min len (fb_buf_size r)) (unread r)),
                   fb_consume (length (take (Nat.min len (fb_buf_size r)) (unread r))) r).
Proof.
  intros Hr. unfold fb_read. rewrite st_get_bind.
  rewrite (st_bind_ok _ _ r r (take (fb_buf_size r) (unread r))) by by rewrite as_partial_slice_ok.
  by rewrite take_take, st_put_bind.
Qed.

Lemma fb_read_exact_ok fuel r len :
  fb_ok r → length (unread r) < fuel →
  (len ≤ length (unread r) → fb_read_exact fuel len r = (Ok (take len (unread r)), fb_consume len r)) ∧
  (length (unread r) < len →
   fb_read_exact fuel len r = (Err Anyhow, fb_consume (length (unread r)) r)).
Proof.
  revert r len. induction fuel as [|fuel IH]; intros r len Hr Hf; [lia|]. simpl.
  destruct (Nat.eqb_spec len 0) as [->|Hlen].
  { split; [intros _|lia]. unfold fb_consume. rewrite Nat.add_0_r. by destruct r. }
  set (n := Nat.min len (fb_buf_size r)).
  rewrite (st_bind_ok _ _ r _ _ (fb_read_ok len r Hr)). fold n.
  assert (0 < n) as Hn by (destruct Hr; lia).
  case_bool_decide as He.
  { assert (length (unread r) = 0) as H0 by (apply (f_equal length) in He; rewrite length_take in He; simpl in He; lia).
    split; [lia|]. intros _. by rewrite He, H0. }
  assert (0 < length (take n (unread r))) as Hk by (destruct (take n (unread r)); [done|simpl; lia]).
  set (k := length (take n (unread r))) in *.
  assert (k = Nat.min n (length (unread r))) as Hkn by apply length_take.
  assert (fb_ok (fb_consume k r)) as Hr' by (apply fb_ok_consume; [done|lia]).
  assert (length (unread (fb_consume k r)) = length (unread r) - k) as Hl by by rewrite unread_consume, length_drop.
  destruct (IH (fb_consume k r) (len - k) Hr') as [IH1 IH2]; [lia|]. split; intros Hle.
  - rewrite (st_bind_ok _ _ _ _ _ (IH1 ltac:(lia))), fb_consume_add, unread_consume.
    replace (k + (len - k)) with len by lia. unfold mret, st_ret. do 2 f_equal.
    replace (take n (unread r)) with (take k (unread r)) by (f_equal; lia).
    rewrite take_take_drop. f_equal. lia.
  - rewrite (st_bind_err _ _ _ _ _ (IH2 ltac:(lia))), fb_consume_add, Hl. do 2 f_equal. lia.
Qed.

Lemma read_until_split c s : (read_until c s).1 ++ (read_until c s).2 = s.
Proof.
  induction s as [|d s IH]; [done|]. simpl. case_bool_decide; [done|].
  destruct (read_until c s) as [a b]. simpl in *. by rewrite IH.
Qed.

(** The delimiter is in what was given, at [i], or is looked for in what follows. *)
Lemma read_until_slice c a s :
  read_until c (a ++ s) =
  match find_byte c a with
  | Some i => (take (S i) a, drop (S i) a ++ s)
  | None => (a ++ (read_until c s).1, (read_until c s).2)
  end.
Proof.
  induction a as [|d a IH]; simpl; [by destruct (read_until c s)|].
  case_bool_decide; [done|]. rewrite IH. by destruct (find_byte c a).
Qed.

Lemma find_byte_lt c a i : find_byte c a = Some i → i < length a.
Proof.
  revert i. induction a as [|d a IH]; intros i; simpl; [done|].
  case_bool_decide; [intros [= <-]; lia|]. destruct (find_byte c a) as [j|]; [|done].
  intros [= <-]. specialize (IH j eq_refl). lia.
Qed.

Lemma fb_read_until_ok fuel r c :
  fb_ok r → length (unread r) < fuel →
  fb_read_until fuel c r =
    (Ok (read_until c (unread r)).1, fb_consume (length (read_until c (unread r)).1) r).
Proof.
  revert r. induction fuel as [|fuel IH]; intros r Hr Hf; [lia|]. simpl.
  rewrite (st_bind_ok _ _ r r (take (fb_buf_size r) (unread r)))
    by (unfold fb_fill_buf; rewrite st_get_bind; unfold st_lift; by rewrite as_partial_slice_ok).
  rewrite st_get_bind.
  set (a := take (fb_buf_size r) (unread r)). set (s := drop (fb_buf_size r) (unread r)).
  assert (unread r = a ++ s) as Hu by by unfold a, s; rewrite take_drop.
  rewrite Hu, read_until_slice. destruct (find_byte c a) as [i|] eqn:Hi.
  - apply find_byte_lt in Hi. cbn [fst]. rewrite st_put_bind, length_take_le by lia. done.
  - rewrite st_put_bind. case_bool_decide as Ha.
    + assert (unread r = []) as Hn.
      { destruct Hr as [Hb _]. apply nil_length_inv. apply (f_equal length) in Ha. unfold a in Ha.
        rewrite length_take in Ha. simpl in Ha. lia. }
      assert (s = []) as -> by (unfold s; by rewrite Hn, drop_nil). by rewrite Ha.
    + assert (fb_ok (fb_consume (length a) r)) as Hr'.
      { apply fb_ok_consume; [done|]. rewrite Hu, length_app. lia. }
      assert (unread (fb_consume (length a) r) = s) as Hs by by rewrite unread_consume, Hu, drop_app_length.
      rewrite (st_bind_ok _ _ _ _ _ (IH _ Hr' ltac:(rewrite Hs; rewrite Hu, length_app in Hf; destruct a; [done|simpl in Hf; lia]))).
      rewrite Hs, fb_consume_add. simpl. by rewrite length_app.
Qed.

(** C38: [FileBufferReader] is the stream of the bytes of the file: from any state in which the offset is
    in the file, [read_exact] gives the next [n] bytes and moves past them, or fails at the end of the
    file when there are fewer, and [read_until] the bytes up to and including the delimiter, whatever
    the size of the slices and wherever the bytes cross from one to the next; neither panics, and the
    state they leave is again such a state, with the rest of the stream unread. *)
Theorem file_buffer_correct r n c fuel :
  fb_ok r → length (unread r) < fuel →
  match read_exact n (unread r) with
  | Ok (got, rest) => ∃ r', fb_read_exact fuel n r = (Ok got, r') ∧ unread r' = rest ∧ fb_ok r'
  | Err e => ∃ r', fb_read_exact fuel n r = (Err e, r') ∧ unread r' = [] ∧ fb_ok r'
  | Panic => False
  end ∧
  ∃ r', fb_read_until fuel c r = (Ok (read_until c (unread r)).1, r') ∧
        unread r' = (read_until c (unread r)).2 ∧ fb_ok r'.
Proof.
  intros Hr Hf. destruct (fb_read_exact_ok fuel r n Hr Hf) as [H1 H2]. split.
  - unfold read_exact. destruct (Nat.leb_spec n (length (unread r))).
    + exists (fb_consume n r). rewrite unread_consume. auto using fb_ok_consume.
    + exists (fb_consume (length (unread r)) r). rewrite unread_consume, drop_all. auto using fb_ok_consume.
  - exists (fb_consume (length (read_until c (unread r)).1) r).
    pose proof (read_until_split c (unread r)) as Hs. rewrite unread_consume. split_and!.
    + by apply fb_read_until_ok.
    + rewrite <- Hs at 2. apply drop_app_length.
    + apply fb_ok_consume; [done|]. rewrite <- Hs at 2. rewrite length_app. lia.
Qed.

(** A file of five bytes read by slices of two: the delimiter is in the second slice. *)
Definition sample_buffer : FileBufferReader := mk_FileBufferReader [x61; x62; x63; x0a; x64] 0 2.

Lemma file_buffer_correct_witness :
  fb_read_exact 6 4 sample_buffer = (Ok [x61; x62; x63; x0a], mk_FileBufferReader [x61; x62; x63; x0a; x64] 4 2) ∧
  ∃ r', fb_read_until 6 x0a sample_buffer = (Ok [x61; x62; x63; x0a], r') ∧ unread r' = [x64] ∧ fb_ok r'.
Proof.
  split; [reflexivity|].
  refine (proj2 (file_buffer_correct sample_buffer 4 x0a 6 _ _)); [split|]; simpl; lia.
Defined.
