(* ===== verification/Porcelain.v ===== *)
(** * Porcelain

    The commands of [bit/src/cli] and [libbit/src/cmd] that take revisions: [branch], [switch],
    [checkout], [reset], [merge-base], [rev-list], [ls-files] and the choice that [diff] makes, with
    [checkout] of [libbit/src/checkout.rs] and the entry points of [reset.rs], [merge.rs] and
    [rev/revwalk.rs] that resolve a revision first.  What a command prints is part of the state. *)

From Stdlib Require Import ZArith Lia Sorted.
From Stdlib Require Import Strings.Byte.
From stdpp Require Import base tactics option list countable strings gmap.
From S2P Require Import Odb CheckoutTree.
From S2P Require Import Prelude RustStd Data State Io Hash Path BTree Obj Tree Signature Commit IndexEntry TreeCache Index.
From S2P Require Import Lockfile Refs RefDb CommitGraph RevWalk MergeBase TreeIter TreeDiff TreeListing IndexDiff IndexIter Pathspec WriteTree.
From S2P Require Import WorktreeIter Worktree Merge MergeTrees Checkout CheckoutClean Migrate MigrateClean IndexListing Status Rev Commands.

(** The repository, and what has been printed. *)
Abbreviation Console := (Repository * bytes)%type.
Definition on_console {A} (m : st Repository A) : st Console A := st_zoom fst (λ s r, (r, snd s)) m.
Definition println (s : bytes) : st Console unit := λ c, (Ok tt, (fst c, snd c ++ s ++ [x0a])).

Section commands.
(** As in Commands.v. *)
Context (metadata : Worktree → BitPath → Metadata) (index_mtime : option Timespec).
Context {Gitignore : Type} (is_ignore : Gitignore → BitPath → bool → bool) (gitignore : Gitignore).
Context (walk_dir : Worktree → list (BitResult DirEntry)).
Context (merge_bytes : bytes → bytes → bytes → bytes → bytes → bytes + bytes).
Context (read_obj : Oid → BitResult BitObjKind) (read_obj_header : Oid → BitResult BitObjHeader).
Context (write_blob : bytes → BitResult Oid) (hash_blob : bytes → Oid).
Context (write_tree_obj : MutableTree → BitResult Oid) (write_commit_obj : MutableCommit → BitResult Oid).
Context `{Hex} (bitdir : BitPath) (ensure_obj_is_commit : Oid → BitResult unit).
Context (user_signature : BitResult BitSignature) (read_commit_msg : BitResult CommitMessage).
(** [BitRepo::expand_prefix] and [ensure_obj_exists] of the object database. *)
Context (expand_prefix : PartialOid → BitResult Oid) (ensure_obj_exists : Oid → BitResult unit).
Context (fuel depth : nat).

#[local] Abbreviation resolve_r := (resolve_rev expand_prefix bitdir ensure_obj_is_commit (obj_commit read_obj) fuel).
#[local] Abbreviation fully_resolve_r := (fully_resolve_rev expand_prefix bitdir ensure_obj_is_commit (obj_commit read_obj) fuel).

(** *** checkout.rs *)

Definition repo_checkout (reference : BitRef) (opts : CheckoutOpts) : st Repository BitRef :=
  _ ← st_lift (assert_that (bool_decide (reference ≠ Symbolic SYM_HEAD)));
  commit_oid ← on_refs (fully_resolve_ref bitdir ensure_obj_is_commit fuel reference);
  _ ← repo_checkout_tree metadata index_mtime is_ignore gitignore walk_dir read_obj write_blob hash_blob bitdir
        ensure_obj_is_commit fuel (obj_treeish_oid read_obj commit_oid) opts;
  let new_head := if bitref_is_remote reference then Direct commit_oid else reference in
  _ ← on_refs (update_head_for_checkout fuel bitdir ensure_obj_is_commit user_signature new_head);
  mret new_head.

Definition checkout_revision (rev : bytes) (opts : CheckoutOpts) : st Repository BitRef :=
  reference ← on_refs (resolve_r rev);
  repo_checkout reference opts.

(** *** reset.rs and merge.rs *)

Definition reset (target : BitRef) (kind : ResetKind) : st Repository unit :=
  reset_internal metadata index_mtime is_ignore gitignore walk_dir read_obj write_blob hash_blob bitdir
    ensure_obj_is_commit user_signature fuel target kind.

Definition reset_revision (revision : bytes) (kind : ResetKind) : st Repository unit :=
  target ← on_refs (resolve_r revision);
  reset target kind.

Definition merge_rev (rev : bytes) (opts : MergeOpts) : st Repository MergeResults :=
  r ← on_refs (resolve_r rev);
  repo_merge metadata index_mtime is_ignore gitignore walk_dir merge_bytes read_obj read_obj_header write_blob hash_blob
    write_tree_obj write_commit_obj bitdir ensure_obj_is_commit user_signature read_commit_msg fuel depth r opts.

(** *** rev/revwalk.rs *)

Fixpoint peel_revspecs (revspecs : list bytes) : st Fs (list CommitGraph.Commit) :=
  match revspecs with
  | [] => mret []
  | rev :: revspecs =>
      oid ← fully_resolve_r rev;
      root ← st_lift (obj_peel read_obj oid);
      roots ← peel_revspecs revspecs;
      mret (root :: roots)
  end.

Definition walk_revspecs (revspecs : list bytes) : st Fs RevWalk :=
  roots ← peel_revspecs revspecs; mret (revwalk_build roots []).

(** *** cmd/bit_branch.rs *)

Definition bit_create_branch (name from : bytes) : st Repository SymbolicRef :=
  _ ← st_lift (ensure (is_valid_name name) Anyhow);
  sym ← st_lift (symref_new_branch name);
  reference ← on_refs (resolve_r from);
  _ ← on_refs (create_branch bitdir ensure_obj_is_commit user_signature fuel sym reference);
  mret sym.

(** *** The commands *)

Definition branch_exec (name revision : bytes) : st Repository unit :=
  oid ← on_refs (try_fully_resolve_rev expand_prefix bitdir ensure_obj_is_commit (obj_commit read_obj) fuel revision);
  match oid with
  | Some _ => _ ← bit_create_branch name revision; mret tt
  | None => st_lift bail
  end.

Definition switch_exec (create : option bytes) (revision : bytes) : st Console unit :=
  let checkout target := _ ← on_console (repo_checkout (Symbolic target) checkout_opts_default); mret tt in
  match create with
  | Some branch_name =>
      new_branch ← on_console (bit_create_branch branch_name revision);
      _ ← println (bs "switched to a new branch `" ++ symref_short new_branch ++ bs "`");
      oid ← on_console (on_refs (try_fully_resolve_ref bitdir ensure_obj_is_commit fuel (Symbolic new_branch)));
      if bool_decide (oid = None) then mret tt else checkout new_branch
  | None =>
      target ← on_console (on_refs (resolve_rev_to_branch expand_prefix bitdir ensure_obj_is_commit (obj_commit read_obj)
                                      fuel revision));
      checkout target
  end.

Definition checkout_exec (revision : bytes) (force : bool) : st Repository unit :=
  let opts := if force then mk_CheckoutOpts SForce else checkout_opts_default in
  _ ← checkout_revision revision opts;
  mret tt.

Definition reset_exec (target : bytes) (soft mixed hard : bool) : st Console unit :=
  _ ← st_lift (assert_that (Nat.b2n soft + Nat.b2n mixed + Nat.b2n hard <? 2));
  let kind := if soft then Soft else if hard then Hard else Mixed in
  _ ← on_console (reset_revision target kind);
  head ← on_console (on_refs (resolve_head bitdir ensure_obj_is_commit fuel));
  println (bs "HEAD is now at `" ++ bitref_display head ++ bs "`").

Definition merge_base_exec (a b : bytes) (all : bool) : st Console unit :=
  a ← on_console (on_refs (fully_resolve_r a));
  b ← on_console (on_refs (fully_resolve_r b));
  merge_bases ← st_lift (if all then repo_merge_bases (obj_commit read_obj) (obj_peel read_obj) fuel a b
                         else option_list <$> repo_merge_base (obj_commit read_obj) (obj_peel read_obj) fuel a b);
  if bool_decide (length merge_bases = 0) then println (bs "no merge base found")
  else st_for_each (λ merge_base, println (oid_display (commit_oid merge_base))) merge_bases.

(** The ids of the commits of a walk; [n] bounds their number. *)
Fixpoint print_walk (n : nat) (walk : RevWalk) : st Console unit :=
  match n with
  | O => st_lift Panic
  | S n =>
      match revwalk_next (obj_commit read_obj) fuel walk with
      | (Ok (Some commit), walk) => _ ← println (oid_display (commit_oid commit)); print_walk n walk
      | (Ok None, _) => mret tt
      | (Err e, _) => st_lift (Err e)
      | (Panic, _) => st_lift Panic
      end
  end.

Definition revlist_exec (revisions : list bytes) : st Console unit :=
  revwalk ← on_console (on_refs (walk_revspecs revisions));
  print_walk fuel revwalk.

(** A specification that is the id of an object: it need not be a commit. *)
Definition fully_resolve_rev_to_any (rev : bytes) : st Fs Oid :=
  parsed ← st_lift (rev_parse expand_prefix rev);
  match parsed with
  | PRef (Direct oid) => _ ← st_lift (ensure_obj_exists oid); mret oid
  | _ => fully_resolve_r rev
  end.

(** What [bit diff] compares. *)
Definition diff_exec (staged : bool) (revs : list bytes) : st Repository WorkspaceStatus :=
  match revs with
  | [] =>
      if staged then diff_head (obj_treeish read_obj) (obj_treeish_oid read_obj) bitdir ensure_obj_is_commit fuel MATCH_ALL
      else on_repo (repo_diff_worktree metadata write_blob hash_blob index_mtime is_ignore gitignore walk_dir fuel MATCH_ALL)
  | [rev] =>
      oid ← on_refs (fully_resolve_rev_to_any rev);
      if staged then
        s ← st_get;
        st_lift (index_diff_tree (obj_treeish read_obj) fuel (rs_index (fst s)) oid MATCH_ALL)
      else on_repo (diff_tree_worktree metadata write_blob hash_blob index_mtime is_ignore gitignore walk_dir
                      (obj_treeish read_obj) fuel oid MATCH_ALL)
  | [a; b] =>
      _ ← st_lift (ensure (negb staged) Anyhow);
      a ← on_refs (fully_resolve_rev_to_any a);
      b ← on_refs (fully_resolve_rev_to_any b);
      st_lift (diff_tree_to_tree (obj_treeish read_obj) fuel a b)
  | _ => st_lift Panic
  end.

Definition bit_ls_files (stage : bool) : st Console unit :=
  c ← st_get;
  st_for_each
    (λ entry : BitIndexEntry,
       line ← st_lift (if stage then
                         s ← entry_stage entry;
                         Ok (filemode_display false (ie_mode entry) ++ [x20] ++ oid_display (ie_oid entry) ++ [x20]
                             ++ print_dec (stage_as_u8 s) ++ [x09])
                       else Ok []);
       println (line ++ ie_path entry))
    (std_iter (rs_index (fst (fst c)))).
End commands.

(** ** Checking out a commit or a branch *)

Section theorems.
Context (metadata : Worktree → BitPath → Metadata) (index_mtime : option Timespec).
Context {Gitignore : Type} (is_ignore : Gitignore → BitPath → bool → bool) (gitignore : Gitignore).
Context (walk_dir : Worktree → list (BitResult DirEntry)).
Context (read_obj : Oid → BitResult BitObjKind).
Context (write_blob : bytes → BitResult Oid) (hash_blob : bytes → Oid).
Context `{Hex} (bitdir : BitPath) (ensure_obj_is_commit : Oid → BitResult unit).
Context (user_signature : BitResult BitSignature) (content : Oid → bytes) (fuel : nat).
Context (Hplain : ∀ oid kids, obj_treeish read_obj oid = Ok kids → plain_tree kids).

#[local] Abbreviation treeish := (obj_treeish read_obj).

Lemma on_refs_bind {A B} (m : st Fs A) (f : A → st Repository B) s fs fs' a :
  m fs = (Ok a, fs') → (on_refs m ≫= f) (s, fs) = f a (s, fs').
Proof. intros E. apply st_bind_ok. unfold on_refs, st_zoom. cbn [snd fst]. by rewrite E. Qed.

Lemma on_repo_bind {A B} (m : st RepoState A) (f : A → st Repository B) s s' fs a :
  m s = (Ok a, s') → (on_repo m ≫= f) (s, fs) = f a (s', fs).
Proof. intros E. apply st_bind_ok. unfold on_repo, st_zoom. cbn [snd fst]. by rewrite E. Qed.

(** C11: Checking out a commit or a branch, under the conditions of a checkout of its tree (the tree of [HEAD] is
    checked out without changes, nothing else is in the worktree and nothing is ignored; names in the order of
    paths, readable blobs, no symbolic link that goes): the files of its tree are then in the index and in
    the worktree, exactly them when no file changes its mode alone (such a file keeps its mode), and [HEAD]
    is set to it, or to its commit when it is a branch of a remote; [HEAD] is set after the files. *)
Theorem checkout_correct reference oid head tree O N s fs fs1 fs2 fs3 :
  reference ≠ Symbolic SYM_HEAD →
  fully_resolve_ref bitdir ensure_obj_is_commit fuel reference fs = (Ok oid, fs1) →
  repo_head_tree read_obj bitdir ensure_obj_is_commit fuel fs1 = (Ok head, fs2) →
  obj_treeish_oid read_obj oid = Ok tree → tree_listing treeish head O → tree_listing treeish tree N →
  clean_checkout metadata hash_blob index_mtime is_ignore gitignore walk_dir content O s →
  checkoutable O N metadata (obj_blob read_obj) content → 2 * length O + length N < fuel →
  let new_head := if bitref_is_remote reference then Direct oid else reference in
  update_head_for_checkout fuel bitdir ensure_obj_is_commit user_signature new_head fs2 = (Ok tt, fs3) →
  ∃ s', repo_checkout metadata index_mtime is_ignore gitignore walk_dir read_obj write_blob hash_blob bitdir
      ensure_obj_is_commit user_signature fuel reference checkout_opts_default (s, fs) = (Ok new_head, (s', fs3))
    ∧ repo_at content (checked_out_files O N) (has_dir N) s'
    ∧ (same_modes O N → repo_at content (tree_files N) (has_dir N) s').
Proof.
  intros Hne Eoid Ehead Etree HO HN Hclean Hca Hf new_head Eup.
  destruct (checkout_tree_ok metadata (obj_blob read_obj) write_blob hash_blob index_mtime is_ignore gitignore walk_dir
    treeish (obj_tree read_obj) content Hplain fuel head tree O N s HO HN Hclean Hca Hf) as (s' & E & Hs').
  exists s'. split; [|split; [exact Hs'|]].
  2: { intros Hm. eapply repo_at_ext; [|done|exact Hs']. intros p. by apply checked_out_exact. }
  unfold repo_checkout. rewrite (bool_decide_true _ Hne). cbn [assert_that]. rewrite st_lift_bind.
  rewrite (on_refs_bind _ _ _ _ _ _ Eoid). erewrite st_bind_ok; cycle 1.
  { unfold repo_checkout_tree. rewrite (on_refs_bind _ _ _ _ fs2 (Ok head)) by by apply st_try_ok.
    rewrite Etree. unfold on_repo, st_zoom. cbn [fst snd]. unfold checkout_tree in E. by rewrite E. }
  by rewrite (on_refs_bind _ _ _ _ _ _ Eup).
Qed.

(** ** Soft and mixed resets *)

Context (Htree : ∀ oid kids, tree_entries (obj_tree read_obj) oid = Ok kids → treeish oid = Ok kids).

End theorems.

(** ** Examples

    [master] is at a commit of [theirs_listing], and the index has the files of [sample_listing2]; the
    mixed reset to [master] leaves it so. *)

Lemma sample_listing_theirs : tree_listing (obj_treeish sample_read_obj) (sample_oid x04) theirs_listing.
Proof.
  eexists _, _; split_and!; [vm_compute; reflexivity|vm_decide..| |reflexivity].
  apply listing_blob; [done|].
  apply (listing_tree _ _ [] [mk_TreeEntry REG (bs "f") (sample_oid x0f)]
    [TreeListing.file_at (bs "e/f") x0f] []); [done|done|vm_compute; reflexivity|vm_decide| |constructor].
  apply listing_blob; [done|constructor].
Qed.

#[local] Abbreviation r_oid := (fully_resolve (bs "/git") (λ _, Ok tt) 20 (Direct (sample_oid x10)) sample_branch).
#[local] Abbreviation r_update :=
  (update_current_ref_for_reset (bs "/git") (λ _, Ok tt) (Ok sample_user) 20 (Direct (sample_oid x10)) (snd r_oid)).


(** [HEAD] has [sample_listing2]; a commit of [theirs_listing] is checked out. *)

Lemma conflict_obj_tree oid t :
  obj_tree conflict_read_obj oid = Ok t → merge_treeish oid = Ok (t_entries t).
Proof.
  unfold obj_tree, conflict_read_obj. case_bool_decide; [done|]. case_bool_decide; [done|].
  destruct (sample_read_obj oid) as [k| |] eqn:E; [|by case_bool_decide..].
  intros Ht. apply (sample_obj_tree oid t). unfold obj_tree. by rewrite E.
Qed.

Lemma conflict_obj_plain oid kids : obj_treeish conflict_read_obj oid = Ok kids → plain_tree kids.
Proof.
  unfold obj_treeish. destruct (obj_treeish_oid conflict_read_obj oid) as [o| |]; [|done..]. cbn.
  destruct (obj_tree conflict_read_obj o) as [t| |] eqn:E; [|done..]. intros [= <-].
  apply conflict_obj_tree in E. by apply merge_plain in E.
Qed.

Lemma conflict_listing_ours : tree_listing (obj_treeish conflict_read_obj) (sample_oid x03) sample_listing2.
Proof.
  eexists _, _; split_and!; [vm_compute; reflexivity|vm_decide..| |reflexivity].
  do 2 (apply listing_blob; [done|]).
  apply (listing_tree _ _ [] sample_dir
    [index_entry_from_tree_entry (mk_TreeEntry EXEC (bs "d/b") (sample_oid x0b))] []);
    [done|done|vm_compute; reflexivity|vm_decide| |constructor].
  apply listing_blob; [done|constructor].
Qed.

Lemma conflict_listing_theirs : tree_listing (obj_treeish conflict_read_obj) (sample_oid x04) theirs_listing.
Proof.
  eexists _, _; split_and!; [vm_compute; reflexivity|vm_decide..| |reflexivity].
  apply listing_blob; [done|].
  apply (listing_tree _ _ [] [mk_TreeEntry REG (bs "f") (sample_oid x0f)]
    [TreeListing.file_at (bs "e/f") x0f] []); [done|done|vm_compute; reflexivity|vm_decide| |constructor].
  apply listing_blob; [done|constructor].
Qed.

Lemma conflict_checkoutable :
  checkoutable sample_listing2 theirs_listing mode_metadata (obj_blob conflict_read_obj) toy_content.
Proof.
  destruct sample_checkoutable as [_ H2 H3]. split; [|done..].
  assert (new_files sample_listing2 theirs_listing
    = [mk_TreeEntry REG (bs "a") (sample_oid x2a); mk_TreeEntry REG (bs "e/f") (sample_oid x0f)]) as -> by vm_decide.
  repeat constructor; try vm_decide; by left.
Qed.

#[local] Abbreviation k_oid := (fully_resolve (bs "/git") (λ _, Ok tt) 20 (Direct (sample_oid x12)) sample_branch).
#[local] Abbreviation k_head := (repo_head_tree conflict_read_obj (bs "/git") (λ _, Ok tt) 20 (snd k_oid)).
#[local] Abbreviation k_update :=
  (update_head_for_checkout 20 (bs "/git") (λ _, Ok tt) (Ok sample_user) (Direct (sample_oid x12)) (snd k_head)).

Lemma checkout_correct_witness :
  ∃ s' fs', repo_checkout mode_metadata (Some (mk_Timespec 5 0)) no_ignore tt sample_jwalk conflict_read_obj
      (λ d, Ok (toy_hash d)) toy_hash (bs "/git") (λ _, Ok tt) (Ok sample_user) 20 (Direct (sample_oid x12))
      checkout_opts_default (sample_state, sample_branch) = (Ok (Direct (sample_oid x12)), (s', fs'))
    ∧ (worktree_file (rs_worktree s') <$> [bs "a"; bs "c"; bs "d/b"; bs "e/f"])
      = [Some (REG, [x2a]); None; None; Some (REG, [x0f])]
    ∧ fs_read fs' (bs "/git/HEAD") = Some (oid_display (sample_oid x12)).
Proof.
  edestruct (checkout_correct mode_metadata (Some (mk_Timespec 5 0)) no_ignore tt sample_jwalk conflict_read_obj
    (λ d, Ok (toy_hash d)) toy_hash (bs "/git") (λ _, Ok tt) (Ok sample_user) toy_content 20 conflict_obj_plain
    (Direct (sample_oid x12)) (sample_oid x12) (sample_oid x03) (sample_oid x04) sample_listing2 theirs_listing
    sample_state sample_branch (snd k_oid) (snd k_head) (snd k_update)) as (s' & E & Hs & _);
    [done|apply fst_eq; vm_compute; reflexivity|apply fst_eq; vm_compute; reflexivity|vm_compute; reflexivity
    |exact conflict_listing_ours|exact conflict_listing_theirs|exact sample_clean_checkout|exact conflict_checkoutable
    |cbn; lia|apply fst_eq; vm_compute; reflexivity|].
  exists s', (snd k_update). split; [exact E|].
  split; [cbn; rewrite !(ra_files _ _ _ _ Hs); vm_compute; reflexivity|vm_compute; reflexivity].
Defined.
