(* ===== verification/ReverseTopological.v ===== *)
(** * ReverseTopological

    [libbit/src/graph/dag/reverse_topological.rs], a depth-first search that lists every node after the
    nodes that it points to, and the check [is_reverse_topological] of [graph/dag.rs]. *)

From Stdlib Require Import Lia.
From stdpp Require Import base tactics option list countable gmap.
From S2P Require Import Prelude RustStd Data State Hash Graph.

Section reverse.
Context {G N : Type} `{Dag G N} `{Countable N}.

Record ReverseTopologicalSort := mk_ReverseTopologicalSort { rt_visited : gset N; rt_solution : list N }.

(** The body of [solve_node] after the check; [solve_node_rec] is the recursive call. *)
Definition visit_node (solve_node_rec : N → st ReverseTopologicalSort unit) (dag : G) (node : N)
    : st ReverseTopologicalSort unit :=
  this ← st_get;
  _ ← st_put (mk_ReverseTopologicalSort ({[node]} ∪ rt_visited this) (rt_solution this));
  parents ← st_lift (dag_adjacent dag node);
  _ ← st_for_each solve_node_rec parents;
  this ← st_get;
  st_put (mk_ReverseTopologicalSort (rt_visited this) (rt_solution this ++ [node])).

(** [fuel] bounds the depth of the recursion. *)
Fixpoint solve_node (fuel : nat) (dag : G) (node : N) : st ReverseTopologicalSort unit :=
  match fuel with
  | O => st_lift Panic
  | S fuel =>
      this ← st_get;
      if bool_decide (node ∈ rt_visited this) then mret tt else visit_node (solve_node fuel dag) dag node
  end.

Definition solve (fuel : nat) (dag : G) : st ReverseTopologicalSort unit :=
  nodes ← st_lift (dag_nodes dag);
  st_for_each (solve_node fuel dag) nodes.

Definition reverse_topological_new (fuel : nat) (dag : G) : BitResult ReverseTopologicalSort :=
  match solve fuel dag (mk_ReverseTopologicalSort ∅ []) with
  | (Ok _, this) => Ok this
  | (Err e, _) => Err e
  | (Panic, _) => Panic
  end.

Definition reverse_topological_next : st ReverseTopologicalSort (option N) :=
  this ← st_get;
  match rt_solution this with
  | [] => mret None
  | node :: rest => _ ← st_put (mk_ReverseTopologicalSort (rt_visited this) rest); mret (Some node)
  end.

(** ** The check of the tests *)

Definition position (node : N) (l : list N) : option nat := fst <$> list_find (λ n, n = node) l.

(** [<] on [Option<usize>]. *)
Definition option_lt (a b : option nat) : bool :=
  match a, b with
  | Some a, Some b => a <? b
  | None, Some _ => true
  | _, None => false
  end.

Fixpoint check_edges (dag : G) (nodes sort : list N) : BitResult bool :=
  match nodes with
  | [] => Ok true
  | u :: nodes =>
      parents ← dag_adjacent dag u;
      if existsb (λ v, option_lt (position u sort) (position v sort)) parents then Ok false
      else check_edges dag nodes sort
  end.

Definition is_reverse_topological (dag : G) (sort : list N) : BitResult bool :=
  nodes ← dag_nodes dag; check_edges dag nodes sort.

(** ** The search *)

(** A graph without cycles: every node has less rank than the nodes that point to it, and all of them
    are listed. *)
Record acyclic (dag : G) (nodes : list N) (rank : N → nat) : Prop := {
  ac_nodes : dag_nodes dag = Ok nodes;
  ac_edges u : u ∈ nodes → ∃ vs, dag_adjacent dag u = Ok vs ∧ ∀ v, v ∈ vs → v ∈ nodes ∧ rank v < rank u;
}.

(** Every node comes after those that it points to. *)
Definition children_first (dag : G) (l : list N) : Prop :=
  ∀ l1 u l2 vs, l = l1 ++ u :: l2 → dag_adjacent dag u = Ok vs → ∀ v, v ∈ vs → v ∈ l1.

Lemma children_first_snoc dag l u vs :
  children_first dag l → dag_adjacent dag u = Ok vs → (∀ v, v ∈ vs → v ∈ l) → children_first dag (l ++ [u]).
Proof.
  intros Hl Hu Hvs l1 x l2 vs' E Hx v Hv. destruct l2 as [|y l2 _] using rev_ind.
  - apply app_inj_tail in E as [-> ->]. rewrite Hu in Hx. injection Hx as <-. by apply Hvs.
  - rewrite app_comm_cons, app_assoc in E. apply app_inj_tail in E as [-> _]. by apply (Hl l1 x l2 vs').
Qed.

Context (dag : G) (nodes : list N) (rank : N → nat) (Hac : acyclic dag nodes rank).

(** The nodes not visited yet. *)
Definition unvisited (visited : gset N) : gset N := list_to_set nodes ∖ visited.

(** What the search keeps: the nodes of the solution are visited, once, children first. *)
Record searching (s : ReverseTopologicalSort) : Prop := {
  se_visited x : x ∈ rt_solution s → x ∈ rt_visited s;
  se_nodup : NoDup (rt_solution s);
  se_order : children_first dag (rt_solution s);
}.

(** [s'] is [s] with [l] visited and appended to the solution. *)
Definition extended (s s' : ReverseTopologicalSort) (l : list N) (r : nat) : Prop :=
  s' = mk_ReverseTopologicalSort (list_to_set l ∪ rt_visited s) (rt_solution s ++ l)
  ∧ ∀ x, x ∈ l → (x ∉ rt_visited s) ∧ x ∈ nodes ∧ rank x ≤ r.

(** The nodes that the search is in the middle of have a rank greater than [r]. *)
Definition pending_above (s : ReverseTopologicalSort) (r : nat) : Prop :=
  ∀ x, x ∈ rt_visited s → x ∉ rt_solution s → r < rank x.

Definition solves (m : N → st ReverseTopologicalSort unit) (k : nat) : Prop := ∀ u s,
  u ∈ nodes → searching s → pending_above s (rank u) → size (unvisited (rt_visited s)) < k →
  ∃ s' l, m u s = (Ok tt, s') ∧ extended s s' l (rank u) ∧ searching s' ∧ u ∈ rt_solution s'.

Lemma unvisited_more V l : size (unvisited (list_to_set l ∪ V)) ≤ size (unvisited V).
Proof. apply subseteq_size. unfold unvisited. set_solver. Qed.

Lemma pending_extended s s' l r : extended s s' l r → ∀ r', pending_above s r' → pending_above s' r'.
Proof.
  intros [-> _] r' Hp x. cbn. rewrite elem_of_union, elem_of_list_to_set. intros [Hx|Hx] Hn.
  - destruct Hn. apply elem_of_app. by right.
  - apply Hp; [done|]. intros Hs. apply Hn, elem_of_app. by left.
Qed.

Lemma solve_each m k r vs s :
  solves m k → searching s → pending_above s r → size (unvisited (rt_visited s)) < k →
  (∀ v, v ∈ vs → v ∈ nodes ∧ rank v ≤ r) →
  ∃ s' l, st_for_each m vs s = (Ok tt, s') ∧ extended s s' l r ∧ searching s' ∧ ∀ v, v ∈ vs → v ∈ rt_solution s'.
Proof.
  intros Hm. revert s. induction vs as [|v vs IH]; intros s Hs Hp Hk Hvs.
  - exists s, []. split; [done|]. split; [|split; [done|by intros v ?%elem_of_nil]]. split; [|by intros x ?%elem_of_nil].
    cbn. rewrite (left_id_L ∅ (∪)), app_nil_r. by destruct s.
  - destruct (Hvs v) as [Hv Hr]; [by left|].
    destruct (Hm v s Hv Hs) as (s1 & l1 & E1 & [-> H1] & Hs1 & Hin1); [|done|].
    { intros x Hx Hn. specialize (Hp x Hx Hn). lia. }
    destruct (IH _ Hs1) as (s2 & l2 & E2 & [-> H2] & Hs2 & Hin2).
    { by eapply pending_extended. }
    { cbn. pose proof (unvisited_more (rt_visited s) l1). lia. }
    { intros w Hw. apply Hvs. by right. }
    cbn [rt_visited rt_solution] in *. eexists _, (l1 ++ l2). split; [|split; [|split; [exact Hs2|]]].
    + cbn [st_for_each]. rewrite (st_bind_ok _ _ _ _ _ E1). exact E2.
    + split.
      * f_equal; [|by rewrite app_assoc]. rewrite list_to_set_app_L. set_solver.
      * intros x [Hx|Hx]%elem_of_app; [destruct (H1 x Hx) as (?&?&?); split_and!; [done|done|lia]|].
        destruct (H2 x Hx) as (Hn & ? & ?). split_and!; [set_solver|done|done].
    + intros w [->|Hw]%elem_of_cons; [|by apply Hin2]. cbn. apply elem_of_app. by left.
Qed.

Lemma unvisited_less u V : u ∈ nodes → u ∉ V → size (unvisited ({[u]} ∪ V)) < size (unvisited V).
Proof.
  intros Hu Hn. apply subset_size. unfold unvisited. split; [set_solver|]. intros Hsub.
  assert (u ∈ list_to_set nodes ∖ V) as Hin by (apply elem_of_difference; split; [by apply elem_of_list_to_set|done]).
  apply Hsub in Hin. set_solver.
Qed.

Lemma visit_node_ok m k u s :
  solves m k → u ∈ nodes → u ∉ rt_visited s → searching s → pending_above s (rank u) →
  size (unvisited (rt_visited s)) < S k →
  ∃ s' l, visit_node m dag u s = (Ok tt, s') ∧ extended s s' l (rank u) ∧ searching s' ∧ u ∈ rt_solution s'.
Proof.
  intros Hm Hu Hn Hs Hp Hk. destruct (ac_edges _ _ _ Hac u Hu) as (vs & Evs & Hvs).
  set (s0 := mk_ReverseTopologicalSort ({[u]} ∪ rt_visited s) (rt_solution s)).
  pose proof (unvisited_less u (rt_visited s) Hu Hn) as Hless.
  assert (searching s0) as Hs0 by (destruct Hs; split; cbn; [set_solver|done|done]).
  assert (u ∉ rt_solution s) as Hnu by (intros Hin; by apply Hn, (se_visited _ Hs)).
  destruct (decide (vs = [])) as [->|Hne].
  - eexists _, [u]. split; [|split; [|split]].
    + unfold visit_node. rewrite st_get_bind, st_put_bind, Evs, st_lift_bind. cbn. reflexivity.
    + split; [cbn; f_equal; set_solver|]. intros x ->%list_elem_of_singleton. done.
    + pose proof (se_visited _ Hs) as Hsv.
      split; cbn; [set_solver| |apply (children_first_snoc dag _ u []); [apply Hs|done|by intros v ?%elem_of_nil]].
      apply NoDup_app. split; [apply Hs|]. split; [set_solver|apply NoDup_singleton].
    + cbn. set_solver.
  - assert (1 ≤ rank u) as Hr.
    { destruct vs as [|v vs]; [done|]. destruct (Hvs v) as [_ Hv]; [by left|]. lia. }
    destruct (solve_each m k (rank u - 1) vs s0 Hm Hs0) as (s1 & l & E & [-> Hl] & Hs1 & Hin).
    { intros x. cbn. rewrite elem_of_union, elem_of_singleton. intros [->|Hx] Hnx; [lia|].
      specialize (Hp x Hx Hnx). lia. }
    { cbn. lia. }
    { intros v Hv. destruct (Hvs v Hv). split; [done|lia]. }
    cbn [rt_visited rt_solution s0] in *.
    assert (u ∉ l) as Hul by (intros Hx; destruct (Hl u Hx) as [Hx' _]; set_solver).
    eexists _, (l ++ [u]). split; [|split; [|split]].
    + unfold visit_node. rewrite st_get_bind, st_put_bind, Evs, st_lift_bind.
      rewrite (st_bind_ok _ _ _ _ _ E), st_get_bind. reflexivity.
    + split; [cbn; f_equal; [rewrite list_to_set_app_L; set_solver|by rewrite app_assoc]|].
      intros x [Hx| ->%list_elem_of_singleton]%elem_of_app; [|done].
      destruct (Hl x Hx) as (? & ? & ?). split_and!; [set_solver|done|lia].
    + destruct Hs1 as [H1 H2 H3]. cbn in *. split; cbn; [set_solver| |].
      * apply NoDup_app. split; [done|]. split; [|apply NoDup_singleton].
        intros x Hx ->%list_elem_of_singleton. apply elem_of_app in Hx as [?|?]; done.
      * by apply (children_first_snoc dag _ u vs).
    + cbn. set_solver.
Qed.

Lemma solve_node_ok fuel : solves (solve_node fuel dag) fuel.
Proof.
  induction fuel as [|fuel IH]; intros u s Hu Hs Hp Hk; [lia|]. cbn [solve_node]. rewrite st_get_bind.
  case_bool_decide as Hv; [|by apply (visit_node_ok _ fuel)].
  exists s, []. split; [done|]. split; [|split; [done|]].
  - split; [|by intros x ?%elem_of_nil]. cbn. rewrite (left_id_L ∅ (∪)), app_nil_r. by destruct s.
  - destruct (decide (u ∈ rt_solution s)) as [|Hn]; [done|]. specialize (Hp u Hv Hn). lia.
Qed.

Lemma list_to_set_size (l : list N) : size (list_to_set l : gset N) ≤ length l.
Proof.
  induction l as [|x l IH]; cbn; [by rewrite size_empty|]. rewrite size_union_alt, size_singleton.
  assert (size (list_to_set l ∖ {[x]} : gset N) ≤ size (list_to_set l : gset N)) by (apply subseteq_size; set_solver). lia.
Qed.

Lemma position_app u l1 l2 : u ∉ l1 → position u (l1 ++ u :: l2) = Some (length l1).
Proof.
  intros Hn. unfold position. rewrite (proj2 (list_find_Some _ _ (length l1) u)); [done|].
  split_and!; [by rewrite lookup_app_r, Nat.sub_diag|done|].
  intros j y Hj Hlt ->. rewrite lookup_app_l in Hj by done. apply list_elem_of_lookup_2 in Hj. by apply Hn.
Qed.

Lemma check_edges_ok us l :
  (∀ u, u ∈ us → u ∈ nodes) → NoDup l → children_first dag l → (∀ u, u ∈ nodes → u ∈ l) →
  check_edges dag us l = Ok true.
Proof.
  intros Hus Hnd Hl Hin. induction us as [|u us IH]; [done|]. cbn.
  assert (u ∈ nodes) as Hu by (apply Hus; by left).
  destruct (ac_edges _ _ _ Hac u Hu) as (vs & Evs & _). rewrite Evs. cbn [mbind outcome_bind].
  assert (existsb (λ v, option_lt (position u l) (position v l)) vs = false) as ->.
  - apply Bool.not_true_iff_false. intros (v & Hv & Hlt)%existsb_exists. apply list_elem_of_In in Hv.
    destruct (list_elem_of_split l u (Hin u Hu)) as (l1 & l2 & ->).
    pose proof (Hl l1 u l2 vs eq_refl Evs v Hv) as Hv1.
    destruct (list_elem_of_split_l l1 v Hv1) as (k1 & k2 & -> & Hk).
    rewrite position_app in Hlt by (apply NoDup_app in Hnd as (_ & Hd & _); intros Hx; apply (Hd u Hx); by left).
    rewrite <- app_assoc in Hlt. cbn in Hlt. rewrite position_app in Hlt by done. cbn in Hlt.
    apply Nat.ltb_lt in Hlt. rewrite length_app in Hlt. lia.
  - apply IH. intros x Hx. apply Hus. by right.
Qed.

(** In a graph without cycles the reverse topological sort ends and lists every node once, after all
    the nodes that it points to; the check of the tests accepts it. *)
Theorem reverse_topological_correct fuel : length nodes < fuel →
  ∃ s, reverse_topological_new fuel dag = Ok s
    ∧ NoDup (rt_solution s) ∧ (∀ x, x ∈ rt_solution s ↔ x ∈ nodes) ∧ children_first dag (rt_solution s)
    ∧ is_reverse_topological dag (rt_solution s) = Ok true.
Proof.
  intros Hf. set (s0 := mk_ReverseTopologicalSort ∅ []).
  destruct (solve_each (solve_node fuel dag) fuel (max_list (rank <$> nodes)) nodes s0 (solve_node_ok fuel))
    as (s & l & E & [-> Hl] & [Hv Hnd Hcf] & Hin).
  - split; cbn; [by intros x ?%elem_of_nil|constructor|]. intros l1 u l2 vs E. by destruct l1.
  - intros x. cbn. set_solver.
  - cbn. eapply Nat.le_lt_trans; [|exact Hf]. unfold unvisited. rewrite difference_empty_L. apply list_to_set_size.
  - intros v Hx. split; [done|]. apply max_list_elem_of_le. by apply list_elem_of_fmap_2.
  - cbn [rt_visited rt_solution s0] in *. rewrite app_nil_l in *. eexists. split; [|split; [|split; [|split]]].
    + unfold reverse_topological_new, solve. rewrite (ac_nodes _ _ _ Hac), st_lift_bind.
      fold s0. rewrite E. reflexivity.
    + exact Hnd.
    + intros x. cbn. split; [intros Hx; by apply Hl|apply Hin].
    + exact Hcf.
    + unfold is_reverse_topological. rewrite (ac_nodes _ _ _ Hac). cbn [mbind outcome_bind].
      by apply check_edges_ok.
Qed.
End reverse.

(** ** Example: a merge of two branches of one root, the merge first *)

Definition merge_graph : DagBuilder :=
  mk_DagBuilder [mk_NodeData [1; 2] None; mk_NodeData [3] None; mk_NodeData [3] None; mk_NodeData [] None].

Lemma merge_graph_acyclic :
  acyclic (G := DagBuilder) merge_graph [0; 1; 2; 3] (λ n, 3 - n).
Proof.
  split; [done|]. intros u Hu. rewrite !elem_of_cons, elem_of_nil in Hu.
  destruct_or! Hu; subst; [exists [1; 2]|exists [3]|exists [3]|exists []]; (split; [reflexivity|]);
    intros v Hv; rewrite ?elem_of_cons, elem_of_nil in Hv; destruct_or! Hv; subst; try done; split; try lia; set_solver.
Qed.

Lemma reverse_topological_correct_witness :
  ∃ s, reverse_topological_new (G := DagBuilder) (N := nat) 5 merge_graph = Ok s ∧ rt_solution s = [3; 1; 2; 0]
    ∧ is_reverse_topological (G := DagBuilder) merge_graph (rt_solution s) = Ok true.
Proof.
  destruct (reverse_topological_correct (G := DagBuilder) (N := nat) merge_graph [0; 1; 2; 3] (λ n, 3 - n)
    merge_graph_acyclic 5) as (s & E & _ & _ & _ & Hc); [cbn; lia|].
  exists s. split; [exact E|]. split; [|exact Hc]. vm_compute in E. injection E as <-. reflexivity.
Defined.
